(* ===== verification/_CoqProject ===== *)
-Q . S2P
Prelude.v
Text.v
Path.v
Wildcard.v
Tree.v
TreeSpec.v
TreeProps.v
FinalName.v
RegTypes.v
Wire.v
Protocol.v
ShimCfg.v
RegPath.v
RegOverlay.v
RegInv.v
RegOps.v
RegProps.v
RegRename.v
RegMachine.v
RegMerge.v
RegFormat.v
RegPersist.v
RegLoad.v
RegDecode.v
Seg.v
Arena.v
Ring.v
Conc.v
RingInv.v
RingSpecs.v
RingEnds.v
RingTop.v
Provider.v
Compose.v
ComposeProps.v
Handles.v
Listing.v
Router.v
ComposePath.v
MountProps.v
StubDirs.v
Memory.v
MemoryProps.v
OverlayFs.v
OverlayProps.v
CopyUp.v
RegHost.v
RegHostProps.v
RegStore.v
Director.v
Dispatch.v
DirectorProps.v
DispatchProps.v
Canon.v
RootMap.v
NtBuf.v
NtLayout.v
NtDir.v
NtProps.v
RegLayout.v
RegLayoutProps.v
ReadCache.v
CacheInv.v
CacheSafe.v
CacheProps.v
CacheTable.v
Seekable.v
ReadFrag.v
FuseClient.v
ClientPath.v
Gate.v
GateProps.v
BlockIndex.v
BlockProps.v
BlockInv.v
BlockStore.v
BlockSafe.v
BlockOps.v
BlockCompact.v
BlockClient.v
