(* ===== verification/Prelude.v ===== *)
(** * A verification of aether-vfs

    aether-vfs serves a virtual file system and a virtual registry to
    unmodified Windows programs. A host process, the director, composes mod
    folders, archives and overlays into one tree; an injected shim turns a
    program's NT calls into requests, which cross to the director through a
    ring in shared memory. This library models the parts of the Rust workspace
    (src/rust/crates) that decide what a program sees and proves them correct.

    ** Parts and files

    Shared ground
    - Prelude: integers at their width, [Result], lists, little-endian bytes,
      the order of strings, [BTreeMap], tactics and the hint database [vfs].
    - Text: UTF-8 and UTF-16, splitting and trimming of strings, and [fold]
      (vfs-core/src/casefold.rs). The Unicode lower-case table is not in the
      repository: it is the class [CaseTable] with the facts the code relies
      on, and [demo_table] is an instance of it.

    vfs-core, the merged tree
    - Path: path.rs. Wildcard: wildcard.rs. Tree: tree.rs, model.rs,
      source.rs, cachekey.rs, the arena of nodes with its layers, lookups,
      listing and walk. FinalName: finalname.rs, the names given back to a
      program and their cache.
    - TreeSpec, TreeProps: the tree refines a map from folded paths to entries
      ([build_refines]); the last layer wins; listings and walks are complete.

    vfs-protocol, the messages
    - Wire: wire.rs. Protocol: the encoders and decoders of lib.rs. ShimCfg:
      shimcfg.rs. Round trips, and for the registry requests that a decoder
      accepts nothing but what the encoder makes.

    vfs-registry, the registry overlay
    - RegTypes, RegPath, RegOverlay: overlay.rs and path.rs, the overlay with
      its version counters. RegMerge: merge.rs, the merged view of a key.
    - RegInv, RegOps, RegProps, RegRename, RegMachine: the structural
      invariant that every operation keeps, which rules out every panic of the
      code ([overlay_never_panics]); what each operation does to values, keys
      and tombstones; and that [changed_since] never misses a change.
    - RegFormat: format.rs, the file the overlay is saved in. RegPersist,
      RegLoad, RegDecode: saving always succeeds, loading gives back all that
      is not volatile ([persist_roundtrip]), whatever is loaded is well formed
      and one changed byte is noticed.

    vfs-ipc, the ring in shared memory
    - Seg: seg.rs and layout.rs, a segment's bytes and programs of atomic
      accesses on it. Arena: arena.rs. Ring: ring.rs and endpoint.rs.
    - Conc: the interleaving of several programs, a weakest-precondition
      predicate with a share of the ghost state per thread, and its adequacy.
    - RingInv: the protocol of a slot as tokens and states. RingSpecs: a
      specification of each function of ring.rs. RingEnds: of the endpoints.
      RingTop: of [init] and [open], and for any threads and any
      schedule: a client receives only answers to its own requests
      ([ring_answers]), servers never fail ([ring_serves]) and no slot is lost
      ([ring_no_slot_lost]).

    vfs-ipc, the client's read cache
    - ReadCache: readcache/, the blocks of immutable files a client keeps.
      Each critical section of the code is one step of a thread, and the
      threads interleave. CacheInv: the bytes of the budget. CacheSafe: what
      each step keeps about contents. CacheProps: the threads and their
      references; a read that is answered has the file's bytes
      ([cache_read_exact]) and the budget is never exceeded
      ([cache_memory_bounded]). CacheTable: no read that begins after an
      invalidation is answered ([cache_invalidated_stays]), and a run.

    vfs-ipc and vfs-shim, the client of the ring
    - Gate: the data gate of concurrent.rs, which bounds the reads and writes
      a process has in flight; threads of atomic operations, interleaved, with
      the clock and the processor free to decide either way, and with the
      director, which goes on with the requests that were given up. GateProps:
      a worker is left as long as the retired list's lock can be had
      ([gate_leaves_worker]) and no permit is lost ([gate_gives_back]).
    - ReadFrag: the read in pieces of concurrent.rs over the record [Link],
      what a reader uses of the gate and the ring, and the class [FileLink],
      what they promise it, short replies included; [read_fragmented_exact].
    - FuseClient: vfs-shim/src/director.rs, the client in the game's process:
      one function per request, the chunked write, the names it remembers, the
      route of a path; spellings and folded paths go to one place,
      a final name is asked for once.
    - ClientPath: the client over the director's dispatcher, as an instance of
      [FileLink] for every provider of whole reads ([WholeFile], the memory
      provider is one): the client's calls are the director's
      ([client_calls_director]) and what is written is read back
      ([client_write_read]).

    vfs-provider and vfs-compose, who serves a path
    - Provider: the trait [Provider] as a record of methods on a provider's
      state, capabilities, the handle table (vfs-provider/src). Compose:
      layered.rs, readonly.rs, subdir.rs and the merging functions of lib.rs.
      Router: glob.rs and router.rs. ComposePath: path.rs, casefold.rs,
      rejected_writes.rs.
    - ComposeProps: the classes [ReadPure] and [Frozen] state what a provider
      promises about its content, their instances follow the compositions, and
      [base_protected] is what a host relies on. Handles: handles are issued
      once and stay with the child that opened them. Listing: merged listings
      and stacks of layers.
    - MountProps: mount_graph.rs; which mount decides about a path
      ([graph_open_decided]), and what a directory lists against what can be
      looked up ([graph_listing]). StubDirs: stub_dirs.rs.
    - Seekable: seekable.rs and guarded.rs; a forward-only provider becomes a
      positional one ([seekable_positional]), protected directories stay.
    - Memory, MemoryProps: memory.rs; its case index is never stale, writes
      are read back, directories move whole.
    - OverlayFs: overlay/, the copy-on-write overlay over any two providers.
      OverlayProps, CopyUp: the base is never changed, what is removed stays
      removed, the whiteout walk ends once the markers are left alone, copy-up
      copies the whole file to an upper that takes writes whole. CopyUp also has [FlatStore], the class of stores that keep files by name, which
      the host's theorems are proved against; the memory provider is an
      instance.

    vfs-director, the host
    - RegHost: registry.rs, the host of the overlay, with its file, its saver
      thread and the generation it publishes. RegHostProps: the threads as
      steps; every write is saved ([writes_are_saved]) and a cached answer is
      current ([generation_guards_cache]). RegStore: a save and a new start
      give back an overlay within the file format's limits, also when the store
      stops in the middle ([crash_keeps_saved]).
    - Director: director.rs, roots and handles. DirectorProps: handles keep
      their provider, generations name providers, appends append,
      files at the top of a root move to another.
    - Dispatch: ring_dispatch.rs, a request of the ring answered by the
      director. DispatchProps: no registry request panics, replies fit, and a client
      that encodes a request and decodes the reply gets the director's answer
      ([path_requests_answered], [data_requests_answered]).

    vfs-redirect, vfs-ntlayout and the registry's layouts, what the shim
    computes
    - Canon: canon.rs, nt.rs, whiteout.rs; the spellings of a path
      that have one canonical form. RootMap: rootmap.rs and cache.rs; the
      deepest root wins, the cache never changes an answer and no spelling
      slips past the roots ([spellings_reach_root]).
    - NtBuf: UTF-16 and writes into a caller's buffer, whose slices can be out
      of range. NtLayout: vfs-ntlayout. NtDir: a listing written into a buffer
      reads back ([dir_listing_reads_back]). NtProps: the other layouts, and
      the create dispositions over the memory provider, which differs from
      NT's table in one status.
    - RegLayout, RegLayoutProps: vfs-registry/src/layout, the answers to the
      registry's queries, cut to the buffer or read back in full.

    aether-block-store, the add-ons' store of deduplicated blocks
    (addons/crates/aether-block-store/src)
    - BlockIndex: codec.rs, manifest.rs, index.rs, files.rs and the
      transactions of the other files, as functions on the index's tables;
      the class [BlockCodec] is the hash, the checksum and zstd. BlockProps:
      the rows and segments are read as they were written, and the file
      operations are those of a list of slots. BlockInv: the invariant of the
      index (references counted, live bytes summed, every hash found) and a
      specification of every transaction.
    - BlockStore: pack.rs, store.rs, write.rs, read.rs, compact.rs and
      tracker.rs, as programs of atomic actions on shared state, with the
      writer's and the compaction's lock, the tracker of reads, files that are
      partly synced, and writes that fail. BlockSafe: what a thread may hold
      and change, as a weakest precondition under interference. BlockOps,
      BlockCompact: a specification of every program.
    - BlockClient: any threads that change different files: each does what it
      would do on a file store of its own ([clients_refine]), they do not
      deadlock and leave no lock behind ([clients_progress]), what was written is read back ([written_reads_back]) and
      what was flushed survives a crash ([crash_keeps_flushed]); a run of two
      threads, and [put_files_panics].

    ** How the code is rendered

    A [u32] or [u64] is a [Z], and where the code wraps or truncates the model
    does ([as_u32], [as_u64]); the read cache's arithmetic on sizes is on [Z]
    and differs only within a block of 2^64. [Result] is [result]. A panic (an
    unwrap, an index out of range, a failed debug assertion) is the [None] of
    the functions that can have one, and the theorems exclude it; the
    dispatcher of file requests has none, its slices are total here. A [HashMap] or
    [BTreeMap] is a [gmap]; where the order of iteration is observed it is
    [bt_iter]. Names in the model are the code's, with a prefix where two
    crates use the same one.

    ** Fuel and bounds

    Loops over a list or a bounded range are structural recursions. The walk
    of the tree takes the size of the arena as fuel, and [walk_postorder_spec]
    shows that this is enough. The registry's loops up the chain of parents
    take the length of the path, since a parent is shorter. [abandon] takes three rounds of its loop as
    fuel, and [abandon_spec] shows that it never needs a fourth: a server can
    only take the request and then complete it. The encoder of the overlay
    file takes the length of the longest path as fuel, the decoder the depth
    the code itself allows. The whiteout walk takes one round per character of
    the path and two more, enough if no marker changes meanwhile; among other
    threads its rounds are as many as [whiteout_rounds] is given. The loops that move a file (copy-up, [write_whole],
    [read_whole], [rename_across]) one round per byte, since every round that
    does not leave the loop moves at least one. The theorems on each show that
    the fuel is enough, under the premises they state. The loop over namespace tokens has the code's own
    bound of 16 rounds, and the one that strips them all takes the length of
    the path. The reader of a directory listing takes the number of records
    reported. The loop of the read cache that makes room in a file takes one
    round per slot and one more, since each drops a slot, and the run it looks
    for is at most the run asked for. The two loops of the endpoints
    that wait until a deadline take the number of looks the clock allows; the
    theorems hold for every such number. The skip of a forward-only stream,
    the read in pieces and the chunked write take one round per byte, since
    each round moves at least one. A thread of the gate whose fuel is spent
    never moves again, and the theorems hold for every fuel. In the block store
    the placing of ids takes one round per id, the scan of a pack one per byte
    and one more, and neither runs out; the loop that appends a write's blocks
    again, when another thread freed one or retired their pack meanwhile, is
    not bounded in the code: it takes a number of rounds that the theorems
    quantify over, and gives [Diverged] after them. The ring is modelled in an
    interleaving semantics: atomic accesses are sequentially consistent, a
    plain copy is one step, which the exclusive ownership shown by the
    invariant justifies.

    ** Not modelled

    The hooks of the shim, injection and the loaders (raw pointers and system
    calls); connecting the client (mappings, events, environment); the
    director's staging, sessions and statistics; the disk providers and the
    volume table (system calls); the PE parser; the network add-ons, and of the
    block store the GPU, its statistics and its reports; notifiers, clocks and
    counters. Of the block store's media, bytes that were synced stay as they
    were, so its healing of corrupt records is modelled and never reached by
    [clients_refine]; syncing does not fail; [put_files], which can panic, is not among the
    operations of that theorem. *)

From Stdlib Require Import Strings.Ascii Strings.String.
From stdpp Require Export base tactics list option numbers gmap sorting strings.

#[global] Open Scope Z_scope.

(** A [char] is a Unicode code point, a [str] its sequence of code points and
    [bytes] a sequence of octets; all three are kept as [Z] so that the
    machine arithmetic of the source is written out on them. *)
Abbreviation char := Z (only parsing).
Abbreviation str := (list Z) (only parsing).
Abbreviation bytes := (list Z) (only parsing).

(** ASCII literals: [lit "abc"] is the [str] (and the [bytes]) of [b"abc"]. *)
Definition lit (x : string) : list Z :=
  (λ a, Z.of_N (N_of_ascii a)) <$> list_ascii_of_string x.
Arguments lit x%_string_scope.

(** ** Machine integers *)

Definition u8_max : Z := 2 ^ 8.
Definition u16_max : Z := 2 ^ 16.
Definition u32_max : Z := 2 ^ 32.
Definition u64_max : Z := 2 ^ 64.

(** [x as u32], [x as u64]: truncation to the width. *)
Definition as_u8 (x : Z) : Z := x mod u8_max.
Definition as_u16 (x : Z) : Z := x mod u16_max.
Definition as_u32 (x : Z) : Z := x mod u32_max.
Definition as_u64 (x : Z) : Z := x mod u64_max.

(** [x as i64] of a [u64]: two's complement reinterpretation. *)
Definition as_i64 (x : Z) : Z :=
  let y := x mod u64_max in if y <? 2 ^ 63 then y else y - u64_max.

(** [a.saturating_sub(b)] on an unsigned type. *)
Definition sat_sub (a b : Z) : Z := Z.max 0 (a - b).

Definition in_u8 (x : Z) : Prop := 0 ≤ x < u8_max.
Definition in_u32 (x : Z) : Prop := 0 ≤ x < u32_max.
Definition in_u64 (x : Z) : Prop := 0 ≤ x < u64_max.
Definition in_i64 (x : Z) : Prop := - 2 ^ 63 ≤ x < 2 ^ 63.

Definition len {A} (l : list A) : Z := Z.of_nat (length l).

(** ** Tactics and hint databases *)

Create HintDb vfs.
Create Rewrite HintDb vfs_len.

Ltac unfold_width :=
  unfold in_u8, in_u32, in_u64, in_i64, as_u8, as_u16, as_u32, as_u64, as_i64,
    u8_max, u16_max, u32_max, u64_max, sat_sub, len in *.

(** Arithmetic at machine widths. *)
Ltac solve_width := unfold_width; rewrite ?Z.mod_small by lia; lia.

(** [lia] with division and modulo by constants. *)
Ltac dlia := Z.div_mod_to_equations; lia.

(** Case analysis on the innermost [match]/[if] scrutinee of the goal. *)
Ltac case_head :=
  match goal with
  | |- context [match ?x with _ => _ end] =>
      lazymatch x with
      | context [match _ with _ => _ end] => fail
      | _ => destruct x eqn:?
      end
  end.

(** Invert a chain of option binds in hypothesis [H]. *)
Ltac inv_bind H :=
  repeat match type of H with
  | (_ ≫= _) = Some _ =>
      let x := fresh "x" in let Hx := fresh "Hx" in
      apply bind_Some in H as (x & Hx & H)
  | (_ <$> _) = Some _ =>
      let x := fresh "x" in let Hx := fresh "Hx" in
      apply fmap_Some in H as (x & Hx & H)
  end.

(** ** Results: [Result<A, E>] *)

Inductive result (E A : Type) : Type :=
  | Ok (a : A)
  | Err (e : E).
Arguments Ok {E A} a.
Arguments Err {E A} e.

#[export] Instance result_ret {E} : MRet (result E) := λ A a, Ok a.
#[export] Instance result_bind {E} : MBind (result E) := λ A B f m,
  match m with Ok a => f a | Err e => Err e end.
#[export] Instance result_fmap {E} : FMap (result E) := λ A B f m,
  match m with Ok a => Ok (f a) | Err e => Err e end.

(** [o.ok_or(e)] and [r.map_err(|_| e)]. *)
Definition ok_or {E A} (e : E) (o : option A) : result E A :=
  match o with Some a => Ok a | None => Err e end.
Definition map_err {E F A} (f : E → F) (r : result E A) : result F A :=
  match r with Ok a => Ok a | Err e => Err (f e) end.

Lemma result_bind_ok {E A B} (f : A → result E B) m b :
  m ≫= f = Ok b ↔ ∃ a, m = Ok a ∧ f a = Ok b.
Proof. destruct m; simpl; naive_solver. Qed.

(** ** Lists *)

Section lists.
Context {A : Type}.
Implicit Types l k : list A.

Lemma len_app l k : len (l ++ k) = len l + len k.
Proof. unfold len. rewrite length_app. lia. Qed.

Lemma len_nonneg l : 0 ≤ len l.
Proof. unfold len. lia. Qed.

Lemma len_nil : len (@nil A) = 0.
Proof. done. Qed.

Lemma len_cons x l : len (x :: l) = 1 + len l.
Proof. unfold len. simpl. lia. Qed.

Lemma len_fmap {B} (f : A → B) l : len (f <$> l) = len l.
Proof. unfold len. by rewrite length_fmap. Qed.

Lemma prefix_snoc_iff l k x :
l `prefix_of` k ++ [x] ↔ l `prefix_of` k ∨ l = k ++ [x].
Proof.
split.
- intros [r E]. destruct r as [|y r _] using rev_ind.
+ right. by rewrite app_nil_r in E.
+ left. rewrite app_assoc in E. apply app_inj_tail in E as [-> _]. by apply prefix_app_r.
- intros [H| ->]; [by apply prefix_app_r|done].
Qed.

(** [s.split_at(n)] for an in-range [n]. *)
Definition split_at (n : Z) l : list A * list A :=
(take (Z.to_nat n) l, drop (Z.to_nat n) l).

Lemma split_at_app l k : split_at (len l) (l ++ k) = (l, k).
Proof.
unfold split_at, len. rewrite Nat2Z.id.
by rewrite take_app_length, drop_app_length.
Qed.
End lists.

#[export] Hint Rewrite @len_app @len_nil @len_cons @len_fmap : vfs_len.
#[export] Hint Resolve len_nonneg : vfs.

(** ** Little-endian integers: [to_le_bytes] and [from_le_bytes] *)

Fixpoint to_le (n : nat) (x : Z) : bytes :=
  match n with
  | O => []
  | S n => x mod 256 :: to_le n (x / 256)
  end.

Fixpoint from_le (b : bytes) : Z :=
  match b with
  | [] => 0
  | x :: b => x + 256 * from_le b
  end.

Definition byte_ok (x : Z) : Prop := 0 ≤ x < 256.

Lemma bytes_okb b : forallb (λ x, (0 <=? x) && (x <? 256)) b = true → Forall byte_ok b.
Proof.
  intros H. apply Forall_forall. intros x Hx. rewrite forallb_forall in H.
  apply list_elem_of_In in Hx. specialize (H x Hx). unfold byte_ok. lia.
Qed.

Lemma len_to_le n x : len (to_le n x) = Z.of_nat n.
Proof.
  revert x. induction n as [|n IH]; intros x; [done|].
  cbn [to_le]. rewrite len_cons, IH. lia.
Qed.
#[export] Hint Rewrite @len_to_le : vfs_len.

Lemma length_to_le n x : length (to_le n x) = n.
Proof. pose proof (len_to_le n x). unfold len in *. lia. Qed.

Lemma to_le_bytes_ok n x : Forall byte_ok (to_le n x).
Proof.
  revert x. induction n as [|n IH]; intros x; constructor; [|apply IH].
  unfold byte_ok. dlia.
Qed.

Lemma from_to_le n x :
  from_le (to_le n x) = x mod 256 ^ Z.of_nat n.
Proof.
  revert x. induction n as [|n IH]; intros x; cbn [to_le from_le].
  - by rewrite Z.mod_1_r.
  - rewrite IH, Nat2Z.inj_succ, Z.pow_succ_r, Z.rem_mul_r by lia. dlia.
Qed.

Lemma from_to_le_small n x :
  0 ≤ x < 256 ^ Z.of_nat n → from_le (to_le n x) = x.
Proof. intros. by rewrite from_to_le, Z.mod_small. Qed.

Lemma from_le_range b :
  Forall byte_ok b → 0 ≤ from_le b < 256 ^ len b.
Proof.
  induction 1 as [|x b Hx Hb IH]; [done|].
  unfold byte_ok in Hx. rewrite len_cons, Z.pow_add_r by eauto with lia vfs.
  cbn [from_le]. lia.
Qed.

Lemma to_from_le b :
  Forall byte_ok b → to_le (length b) (from_le b) = b.
Proof.
  induction 1 as [|x b Hx Hb IH]; [done|]. unfold byte_ok in Hx.
  cbn [length to_le from_le].
  assert ((x + 256 * from_le b) mod 256 = x) as -> by dlia.
  assert ((x + 256 * from_le b) / 256 = from_le b) as -> by dlia.
  by rewrite IH.
Qed.

Arguments to_le : simpl never.
Arguments from_le : simpl never.

(** ** Lexicographic order on strings

    [Ord for str] compares UTF-8 bytes, which is the order of the code
    points. *)
Fixpoint str_cmp (a b : str) : comparison :=
  match a, b with
  | [], [] => Eq
  | [], _ :: _ => Lt
  | _ :: _, [] => Gt
  | x :: a, y :: b =>
      match x ?= y with Eq => str_cmp a b | c => c end
  end.

Definition str_leb (a b : str) : bool :=
  match str_cmp a b with Gt => false | _ => true end.
Definition str_le (a b : str) : Prop := str_leb a b = true.

#[export] Instance str_le_dec : RelDecision str_le := λ a b, decide (str_leb a b = true).

Lemma str_cmp_eq a b : str_cmp a b = Eq ↔ a = b.
Proof.
  revert b. induction a as [|x a IH]; intros [|y b]; simpl; try done.
  destruct (Z.compare_spec x y) as [->|?|?].
  - rewrite IH. naive_solver.
  - split; [done|]. intros [= -> ->]. lia.
  - split; [done|]. intros [= -> ->]. lia.
Qed.

Lemma str_cmp_antisym a b : str_cmp b a = CompOpp (str_cmp a b).
Proof.
  revert b. induction a as [|x a IH]; intros [|y b]; simpl; try done.
  rewrite (Z.compare_antisym x y). destruct (x ?= y); simpl; auto.
Qed.

#[export] Instance str_le_total : Total str_le.
Proof.
  intros a b. unfold str_le, str_leb. rewrite (str_cmp_antisym a b).
  destruct (str_cmp a b); simpl; auto.
Qed.

#[export] Instance str_le_trans : Transitive str_le.
Proof.
  intros a b. revert a. unfold str_le, str_leb.
  induction b as [|y b IH]; intros [|x a] [|z c]; simpl; try done.
  destruct (Z.compare_spec x y), (Z.compare_spec y z), (Z.compare_spec x z);
    subst; try done; try lia; eauto.
Qed.

#[export] Instance str_le_antisym : AntiSymm (=) str_le.
Proof.
  intros a b. unfold str_le, str_leb. rewrite (str_cmp_antisym a b).
  destruct (str_cmp a b) eqn:E; simpl; try done. by apply str_cmp_eq in E.
Qed.

Lemma str_le_app a b : str_le a (a ++ b).
Proof.
  unfold str_le, str_leb. induction a as [|x a IH]; [by destruct b|]. simpl.
  by rewrite Z.compare_refl.
Qed.

(** ** [BTreeMap<String, V>]

    A map is a [gmap]; what the source observes of its order is the sequence
    its iterators yield, [bt_iter]. *)
Definition key_le {V} (p q : str * V) : Prop := str_le p.1 q.1.
#[export] Instance key_le_dec {V} : RelDecision (@key_le V) :=
  λ p q, decide (str_le p.1 q.1).
#[export] Instance key_le_total {V} : Total (@key_le V).
Proof. intros p q. apply (total str_le). Qed.
#[export] Instance key_le_trans {V} : Transitive (@key_le V).
Proof. intros p q r. apply (transitivity (R := str_le)). Qed.

Definition bt_iter {V} (m : gmap str V) : list (str * V) :=
  merge_sort key_le (map_to_list m).

Lemma bt_iter_perm {V} (m : gmap str V) : bt_iter m ≡ₚ map_to_list m.
Proof. apply merge_sort_Permutation. Qed.

Lemma bt_iter_sorted {V} (m : gmap str V) : StronglySorted key_le (bt_iter m).
Proof. apply StronglySorted_merge_sort; apply _. Qed.

Lemma bt_iter_elem {V} (m : gmap str V) k v : (k, v) ∈ bt_iter m ↔ m !! k = Some v.
Proof. rewrite bt_iter_perm. apply elem_of_map_to_list. Qed.

Lemma bt_iter_nodup {V} (m : gmap str V) : NoDup (bt_iter m).*1.
Proof. rewrite bt_iter_perm. apply NoDup_fst_map_to_list. Qed.

Lemma bt_iter_of_list {V} (m : gmap str V) : list_to_map (bt_iter m) = m.
Proof.
  rewrite <- (list_to_map_to_list m) at 2. symmetry. apply list_to_map_proper.
  - apply NoDup_fst_map_to_list.
  - symmetry. apply bt_iter_perm.
Qed.

(** [m.range(lo..)]: the entries from [lo] on, in order. *)
Definition bt_range {V} (lo : str) (m : gmap str V) : list (str * V) :=
  filter (λ p, str_le lo p.1) (bt_iter m).

Section take_while.
Context {A : Type} (p : A → bool).

Fixpoint take_while (l : list A) : list A :=
match l with
| x :: l => if p x then x :: take_while l else []
| [] => []
end.

(** On a sorted list, a predicate that is closed downwards holds of an
initial segment. *)
Lemma take_while_sorted (R : relation A) l :
StronglySorted R l → (∀ x y, x ∈ l → R x y → p y = true → p x = true) →
∀ x, x ∈ take_while l ↔ x ∈ l ∧ p x = true.
Proof.
induction 1 as [|y l Hs IH Hy]; intros Hp x; simpl.
{ rewrite elem_of_nil. naive_solver. }
destruct (p y) eqn:Ey.
- rewrite !elem_of_cons, IH; [naive_solver|]. intros a b Ha. apply Hp. by right.
- rewrite elem_of_nil. split; [done|]. intros [Hx Epx].
apply elem_of_cons in Hx as [->|Hx]; [congruence|].
rewrite (Hp y x) in Ey; [done|by left| |done].
exact (proj1 (Forall_forall _ _) Hy x Hx).
Qed.
End take_while.

Lemma StronglySorted_filter {A} (R : relation A) (P : A → Prop) `{∀ x, Decision (P x)} l :
  StronglySorted R l → StronglySorted R (filter P l).
Proof.
  induction 1 as [|x l Hs IH Hx]; [constructor|]. rewrite filter_cons.
  case_decide; [|done]. constructor; [done|]. apply Forall_forall. intros y Hy.
  apply list_elem_of_filter in Hy as [_ Hy]. exact (proj1 (Forall_forall _ _) Hx y Hy).
Qed.

(** A string between [p] and an extension of [p] extends [p]. *)
Lemma str_le_prefix_convex p a r : str_le p a → str_le a (p ++ r) → ∃ q, a = p ++ q.
Proof.
  revert a. unfold str_le, str_leb. induction p as [|x p IH]; intros a H1 H2; [by exists a|].
  destruct a as [|y a]; [done|]. simpl in *.
  destruct (Z.compare_spec x y), (Z.compare_spec y x); subst; try done; try lia.
  destruct (IH a H1 H2) as [q ->]. by exists q.
Qed.

Lemma insert_is_Some_mono {V} (m : gmap str V) i x k :
  is_Some (m !! k) → is_Some (<[i := x]> m !! k).
Proof. intros H. apply lookup_insert_is_Some. destruct (decide (i = k)); auto. Qed.
#[export] Hint Resolve insert_is_Some_mono : vfs.
