(* ===== verification/Text.v ===== *)
(** Text: the parts of Rust's [str] and [char] the program uses.

    UTF-8 encoding and validation ([str::as_bytes], [str::from_utf8]),
    UTF-16 length, ASCII lower-casing, and splitting and joining on
    separators.  [char::to_lowercase] is a table of the Unicode standard; it
    enters as the class [CaseTable], whose laws are facts of that table, and
    [fold] is the program's case fold over it
    (rust/crates/vfs-core/src/casefold.rs). *)

From S2P Require Import Prelude.

(** ** Scalars and UTF-8 *)

(** A Unicode scalar value: what a Rust [char] can hold. *)
Definition scalarb (c : char) : bool :=
  (0 <=? c) && (c <? 0xD800) || (0xE000 <=? c) && (c <? 0x110000).
Definition valid_str (s : str) : Prop := Forall (λ c, scalarb c = true) s.

(** [char::encode_utf8]. *)
Definition utf8_char (c : char) : bytes :=
  if c <? 0x80 then [c]
  else if c <? 0x800 then [0xC0 + c / 64; 0x80 + c mod 64]
  else if c <? 0x10000 then
    [0xE0 + c / 4096; 0x80 + (c / 64) mod 64; 0x80 + c mod 64]
  else
    [0xF0 + c / 262144; 0x80 + (c / 4096) mod 64; 0x80 + (c / 64) mod 64;
     0x80 + c mod 64].

(** [s.as_bytes()]. *)
Definition utf8 (s : str) : bytes := flat_map utf8_char s.

(** [s.len()]: the length in bytes. *)
Definition str_len (s : str) : Z := len (utf8 s).

Definition cont (b : Z) : bool := (0x80 <=? b) && (b <? 0xC0).

(** [core::str::from_utf8]: the well-formed sequences of RFC 3629 and nothing
    else (no overlong form, no surrogate, nothing above U+10FFFF). *)
Fixpoint from_utf8 (b : bytes) : option str :=
  match b with
  | [] => Some []
  | b0 :: r0 =>
    if b0 <? 0 then None
    else if b0 <? 0x80 then cons b0 <$> from_utf8 r0
    else match r0 with
    | [] => None
    | b1 :: r1 =>
      if negb (cont b1) then None
      else if (0xC2 <=? b0) && (b0 <? 0xE0) then
        cons ((b0 - 0xC0) * 64 + (b1 - 0x80)) <$> from_utf8 r1
      else match r1 with
      | [] => None
      | b2 :: r2 =>
        if negb (cont b2) then None
        else if (0xE0 <=? b0) && (b0 <? 0xF0) then
          let c := (b0 - 0xE0) * 4096 + (b1 - 0x80) * 64 + (b2 - 0x80) in
          if (0x800 <=? c) && scalarb c then cons c <$> from_utf8 r2 else None
        else match r2 with
        | [] => None
        | b3 :: r3 =>
          if negb (cont b3) then None
          else if (0xF0 <=? b0) && (b0 <? 0xF5) then
            let c := (b0 - 0xF0) * 262144 + (b1 - 0x80) * 4096
                     + (b2 - 0x80) * 64 + (b3 - 0x80) in
            if (0x10000 <=? c) && scalarb c then cons c <$> from_utf8 r3 else None
          else None
        end
      end
    end
  end.

(** [s.encode_utf16().count()]. *)
Definition utf16_units (c : char) : Z := if c <? 0x10000 then 1 else 2.
Fixpoint utf16_len (s : str) : Z :=
  match s with [] => 0 | c :: s => utf16_units c + utf16_len s end.

(** Decide a boolean range test that the context settles. *)
Ltac bdecide :=
  repeat match goal with
  | |- context [?a <? ?b] =>
      first [ assert ((a <? b) = true) as -> by (apply Z.ltb_lt; dlia)
            | assert ((a <? b) = false) as -> by (apply Z.ltb_ge; dlia) ]
  | |- context [?a <=? ?b] =>
      first [ assert ((a <=? b) = true) as -> by (apply Z.leb_le; dlia)
            | assert ((a <=? b) = false) as -> by (apply Z.leb_gt; dlia) ]
  end; cbn [andb orb negb].

Lemma scalarb_spec c :
  scalarb c = true ↔ 0 ≤ c < 0xD800 ∨ 0xE000 ≤ c < 0x110000.
Proof. unfold scalarb. rewrite orb_true_iff, !andb_true_iff, !Z.leb_le, !Z.ltb_lt. lia. Qed.

Lemma from_utf8_char c r :
  scalarb c = true → from_utf8 (utf8_char c ++ r) = cons c <$> from_utf8 r.
Proof.
  intros Hc. pose proof (proj1 (scalarb_spec c) Hc) as Hr. unfold utf8_char.
  destruct (Z.ltb_spec c 0x80); [simpl; by bdecide|].
  destruct (Z.ltb_spec c 0x800).
  { cbn [app from_utf8]. unfold cont. bdecide. do 2 f_equal. dlia. }
  destruct (Z.ltb_spec c 0x10000); cbn [app from_utf8]; unfold cont; bdecide;
    match goal with |- context [scalarb ?x] =>
      assert (x = c) as -> by dlia end; rewrite Hc; by bdecide.
Qed.

Lemma valid_strb s : forallb scalarb s = true → valid_str s.
Proof.
  intros H. apply Forall_forall. intros c Hc. rewrite forallb_forall in H.
  apply H. by apply list_elem_of_In.
Qed.

Lemma utf8_app s t : utf8 (s ++ t) = utf8 s ++ utf8 t.
Proof. apply flat_map_app. Qed.

Lemma utf8_char_pos c : 1 ≤ len (utf8_char c).
Proof. unfold utf8_char. repeat case_match; vm_compute; done. Qed.

Lemma utf8_cons c s : utf8 (c :: s) = utf8_char c ++ utf8 s.
Proof. done. Qed.

(** Encoding then decoding gives the string back. *)
Lemma from_utf8_utf8 s : valid_str s → from_utf8 (utf8 s) = Some s.
Proof.
  induction 1 as [|c s Hc Hs IH]; [done|].
  by rewrite utf8_cons, from_utf8_char, IH.
Qed.

Lemma cont_spec b : negb (cont b) = false → 0x80 ≤ b < 0xC0.
Proof. unfold cont. intros. lia. Qed.

Ltac utf8_step IH :=
  repeat first
    [ discriminate
    | match goal with
      | H : context [if ?x then _ else _] |- _ => destruct x eqn:?
      | H : context [match ?r with [] => _ | _ :: _ => _ end] |- _ => destruct r
      | H : negb (cont _) = false |- _ => apply cont_spec in H
      end ].

(** Decoding is exact: what it accepts is the encoding of a valid string. *)
Lemma utf8_from_utf8 b s : from_utf8 b = Some s → utf8 s = b ∧ valid_str s.
Proof.
  remember (length b) as n eqn:Hn. revert b s Hn.
  induction n as [n IH] using (well_founded_induction lt_wf). intros b s -> H.
  assert (∀ r t, (length r < length b)%nat → from_utf8 r = Some t →
    utf8 t = r ∧ valid_str t) as Hr by (intros; eapply IH; eauto). clear IH.
  destruct b as [|b0 b]; [injection H as <-; split; [done|apply Forall_nil]; done|]. cbn [from_utf8] in H.
  utf8_step Hr; apply fmap_Some in H as (t & Ht & ->);
    (apply Hr in Ht as [<- ?]; [|simpl; lia]); rewrite utf8_cons.
  all: match goal with H : (_ && scalarb ?c)%bool = true |- _ =>
         apply andb_true_iff in H as [? ?]; pose proof (proj1 (scalarb_spec c) ltac:(done))
       | _ => idtac end.
  all: (split; [|apply Forall_cons; split; [|done]]);
    first [ apply scalarb_spec; lia | done
          | unfold utf8_char; bdecide; cbn [app]; repeat f_equal; dlia ].
Qed.

Lemma utf8_char_bytes c : scalarb c = true → Forall byte_ok (utf8_char c).
Proof.
  intros Hc%scalarb_spec. unfold utf8_char, byte_ok.
  repeat case_match; repeat constructor; dlia.
Qed.

Lemma utf8_bytes s : valid_str s → Forall byte_ok (utf8 s).
Proof.
  induction 1; [constructor|]. rewrite utf8_cons.
  apply Forall_app. auto using utf8_char_bytes.
Qed.

Lemma utf8_inj s t : valid_str s → valid_str t → utf8 s = utf8 t → s = t.
Proof.
  intros Hs Ht E. pose proof (from_utf8_utf8 s Hs) as Es.
  rewrite E, (from_utf8_utf8 t Ht) in Es. congruence.
Qed.

Lemma utf16_len_le_bytes s : valid_str s → utf16_len s ≤ str_len s.
Proof.
  unfold str_len. induction 1 as [|c s Hc Hs IH]; [done|].
  rewrite utf8_cons, len_app. cbn [utf16_len].
  enough (utf16_units c ≤ len (utf8_char c)) by lia.
  unfold utf16_units, utf8_char, len. repeat case_match; simpl; lia.
Qed.

#[export] Hint Resolve utf8_bytes : vfs.

(** ** Splitting and joining *)

(** [s.split(p)]: the pieces between separators, at least one. *)
Fixpoint split_on (p : char → bool) (s : str) : list str :=
  match s with
  | [] => [[]]
  | c :: s =>
      if p c then [] :: split_on p s
      else match split_on p s with
           | [] => [[c]]
           | w :: ws => (c :: w) :: ws
           end
  end.

(** [parts.join(sep)] for a one-character separator. *)
Fixpoint join (sep : char) (ws : list str) : str :=
  match ws with
  | [] => []
  | [w] => w
  | w :: ws => w ++ sep :: join sep ws
  end.

(** [s.rsplit_once(sep)]. *)
Fixpoint rsplit_once (sep : char) (s : str) : option (str * str) :=
  match s with
  | [] => None
  | c :: s =>
      match rsplit_once sep s with
      | Some (a, b) => Some (c :: a, b)
      | None => if c =? sep then Some ([], s) else None
      end
  end.

(** [s.strip_prefix(p)]. *)
Fixpoint strip_prefix (p s : str) : option str :=
  match p, s with
  | [], _ => Some s
  | a :: p, b :: s => if a =? b then strip_prefix p s else None
  | _ :: _, [] => None
  end.

(** [s.starts_with(p)]. *)
Definition starts_with (p s : str) : bool :=
  match strip_prefix p s with Some _ => true | None => false end.

(** [s.trim_start_matches(sep)], [s.trim_matches(sep)]. *)
Fixpoint trim_start (sep : char) (s : str) : str :=
  match s with
  | c :: s' => if c =? sep then trim_start sep s' else s
  | [] => []
  end.
Definition trim_matches (sep : char) (s : str) : str :=
  rev (trim_start sep (rev (trim_start sep s))).

Definition str_eqb (a b : str) : bool := bool_decide (a = b).

(** A component: a piece of a path that no separator occurs in. *)
Definition no_char (p : char → bool) (w : str) : Prop := Forall (λ c, p c = false) w.

Section split_join.
Context (p : char → bool) (sep : char) (Hsep : p sep = true).

Lemma split_on_nonempty s : split_on p s ≠ [].
Proof. destruct s as [|c s]; simpl; repeat case_match; done. Qed.

Lemma split_on_pieces s : Forall (no_char p) (split_on p s).
Proof.
induction s as [|c s IH]; simpl; [repeat constructor|].
destruct (p c) eqn:E; [constructor; [constructor|done]|].
destruct (split_on p s); inversion_clear IH; repeat (constructor; try done).
Qed.

Lemma split_on_piece w : no_char p w → split_on p w = [w].
Proof. induction 1 as [|c w Hc Hw IH]; simpl; [done|]. by rewrite Hc, IH. Qed.

Lemma split_on_app_sep w s :
no_char p w → split_on p (w ++ sep :: s) = w :: split_on p s.
Proof.
induction 1 as [|c w Hc Hw IH]; simpl; [by rewrite Hsep|]. by rewrite Hc, IH.
Qed.

(** Joining pieces and splitting again gives the pieces. *)
Lemma split_join ws :
ws ≠ [] → Forall (no_char p) ws → split_on p (join sep ws) = ws.
Proof.
intros Hne Hws. induction Hws as [|w ws Hw Hws IH]; [done|].
destruct ws as [|v ws]; [by apply split_on_piece|].
change (join sep (w :: v :: ws)) with (w ++ sep :: join sep (v :: ws)).
by rewrite split_on_app_sep, IH.
Qed.
End split_join.

Lemma join_cons sep w ws : ws ≠ [] → join sep (w :: ws) = w ++ sep :: join sep ws.
Proof. by destruct ws. Qed.

Lemma join_nil_inv sep ws : Forall (λ w, w ≠ []) ws → join sep ws = [] → ws = [].
Proof. destruct ws as [|w [|v ws]]; intros Hw; inversion Hw; simpl; [done|done|]. by destruct w. Qed.

Lemma join_snoc sep ws w :
  ws ≠ [] → join sep (ws ++ [w]) = join sep ws ++ sep :: w.
Proof.
  induction ws as [|v ws IH]; [done|]. intros _.
  destruct ws as [|u ws]; [done|].
  cbn [app]. rewrite join_cons by done. cbn [app] in IH.
  rewrite IH by done. rewrite (join_cons sep v (u :: ws)) by done.
  by rewrite <- app_assoc.
Qed.

(** A separator joins a split string back together. *)
Lemma join_split sep s : join sep (split_on (λ c, c =? sep) s) = s.
Proof.
  induction s as [|c s IH]; [done|]. cbn [split_on].
  pose proof (split_on_nonempty (λ c, c =? sep) s) as Hne.
  destruct (Z.eqb_spec c sep) as [->|Hc].
  - by rewrite join_cons, IH.
  - destruct (split_on _ s) as [|w ws]; [done|]. rewrite <- IH.
    by destruct ws.
Qed.

Lemma strip_prefix_app p s : strip_prefix p (p ++ s) = Some s.
Proof. induction p as [|a p IH]; [done|]. simpl. by rewrite Z.eqb_refl. Qed.

Lemma strip_prefix_Some p s r : strip_prefix p s = Some r ↔ s = p ++ r.
Proof.
  split; [|intros ->; apply strip_prefix_app]. revert s.
  induction p as [|a p IH]; intros [|b s]; simpl; try congruence.
  destruct (Z.eqb_spec a b) as [->|]; [|done]. intros ?%IH. congruence.
Qed.

Lemma rsplit_once_None sep s : rsplit_once sep s = None ↔ sep ∉ s.
Proof.
  induction s as [|c s IH]; simpl; [set_solver|].
  rewrite not_elem_of_cons. destruct (rsplit_once sep s) as [[a b]|].
  - split; [done|]. intros [_ H]. by apply IH in H.
  - destruct (Z.eqb_spec c sep); split; try done; naive_solver.
Qed.

Lemma rsplit_once_Some sep s a b :
  rsplit_once sep s = Some (a, b) ↔ s = a ++ sep :: b ∧ sep ∉ b.
Proof.
  split.
  - revert a. induction s as [|c s IH]; intros a; simpl; [done|].
    destruct (rsplit_once sep s) as [[a' b']|] eqn:E.
    + intros [= <- <-]. destruct (IH a' eq_refl) as [-> ?]. done.
    + destruct (Z.eqb_spec c sep) as [->|]; [|done].
      intros [= <- <-]. by apply rsplit_once_None in E.
  - intros [-> Hb]. induction a as [|c a IH]; simpl.
    + apply rsplit_once_None in Hb. by rewrite Hb, Z.eqb_refl.
    + by rewrite IH.
Qed.

(** ** Case folding *)

Definition ascii (c : char) : bool := (0 <=? c) && (c <? 128).

(** [char::to_ascii_lowercase]. *)
Definition ascii_lower (c : char) : char :=
  if (65 <=? c) && (c <=? 90) then c + 32 else c.

(** [char::to_lowercase] and the facts of the Unicode tables the program
    relies on: ASCII maps to its ASCII lower case, a lower-cased character
    lower-cases to itself, every image is a non-empty sequence of scalars, and
    a non-ASCII character never yields an ASCII character other than a lower
    case letter (so folding neither makes nor breaks a path separator). *)
Class CaseTable := {
  to_lowercase : char → list char;
  lower_ascii c : ascii c = true → to_lowercase c = [ascii_lower c];
  lower_stable c : flat_map to_lowercase (to_lowercase c) = to_lowercase c;
  lower_nonempty c : to_lowercase c ≠ [];
  lower_scalar c : scalarb c = true → valid_str (to_lowercase c);
  lower_non_ascii c x :
    ascii c = false → x ∈ to_lowercase c → ascii x = true → 97 ≤ x ≤ 122;
}.

(** A character that no fold can produce or consume: ASCII, not a letter. *)
Definition fold_fixed (c : char) : Prop :=
  ascii c = true ∧ ¬ (65 ≤ c ≤ 90) ∧ ¬ (97 ≤ c ≤ 122).

Section fold.
Context {CT : CaseTable}.

(** casefold.rs [fold_unicode]. *)
Definition fold_unicode (s : str) : str := flat_map to_lowercase s.

(** casefold.rs [fold]: the ASCII fast path and the definition. *)
Definition fold (s : str) : str :=
if forallb ascii s then ascii_lower <$> s else fold_unicode s.

(** casefold.rs [cmp_ci]. *)
Definition cmp_ci (a b : str) : comparison := str_cmp (fold a) (fold b).

(** The fast path computes what the definition does. *)
Lemma fold_eq_unicode s : fold s = fold_unicode s.
Proof.
unfold fold. destruct (forallb ascii s) eqn:E; [|done].
unfold fold_unicode. induction s as [|c s IH]; [done|].
simpl in E. apply andb_true_iff in E as [Ec Es].
simpl. rewrite lower_ascii by done. simpl. f_equal. by apply IH.
Qed.

Lemma fold_app s t : fold (s ++ t) = fold s ++ fold t.
Proof. rewrite !fold_eq_unicode. apply flat_map_app. Qed.

Lemma fold_nil : fold [] = [].
Proof. done. Qed.

Lemma fold_cons c s : fold (c :: s) = to_lowercase c ++ fold s.
Proof. by rewrite !fold_eq_unicode. Qed.

Lemma fold_idemp s : fold (fold s) = fold s.
Proof.
induction s as [|c s IH]; [done|]. rewrite fold_cons, fold_app, IH. f_equal.
rewrite fold_eq_unicode. apply lower_stable.
Qed.

Lemma fold_nil_inv s : fold s = [] → s = [].
Proof.
destruct s as [|c s]; [done|]. rewrite fold_cons. intros [E _]%app_nil.
by apply lower_nonempty in E.
Qed.

Lemma fold_valid s : valid_str s → valid_str (fold s).
Proof.
induction 1 as [|c s Hc Hs IH]; [apply Forall_nil; done|].
rewrite fold_cons. apply Forall_app. split; [by apply lower_scalar|done].
Qed.

Lemma lower_fixed c : fold_fixed c → to_lowercase c = [c].
Proof.
intros (Ha & Hu & _). rewrite lower_ascii by done. unfold ascii_lower.
case_match; [|done]. lia.
Qed.

Lemma lower_fixed_inv c x : fold_fixed x → x ∈ to_lowercase c → c = x.
Proof.
intros (Ha & Hu & Hl) Hx. destruct (ascii c) eqn:Ec.
- rewrite lower_ascii in Hx by done. unfold ascii_lower in Hx.
destruct ((65 <=? c) && (c <=? 90)) eqn:E; apply list_elem_of_singleton in Hx; [lia|done].
- by pose proof (lower_non_ascii _ _ Ec Hx Ha).
Qed.

(** A separator is in a folded string exactly when it is in the string. *)
Lemma fold_elem_fixed x s : fold_fixed x → x ∈ fold s ↔ x ∈ s.
Proof.
intros Hx. induction s as [|c s IH]; [done|].
rewrite fold_cons, elem_of_app, IH, elem_of_cons. split.
- intros [H|H]; [left; symmetry; by eapply lower_fixed_inv|auto].
- intros [->|H]; [left; rewrite lower_fixed by done; by left|auto].
Qed.

Lemma fold_no_char x s :
fold_fixed x → no_char (λ c, c =? x) s → no_char (λ c, c =? x) (fold s).
Proof.
intros Hx Hs. apply Forall_forall. intros c Hc. apply Z.eqb_neq. intros ->.
rewrite fold_elem_fixed in Hc by done. apply (proj1 (Forall_forall _ _) Hs) in Hc.
simpl in Hc. lia.
Qed.

Lemma fold_join x ws : fold_fixed x → fold (join x ws) = join x (fold <$> ws).
Proof.
intros Hx. induction ws as [|w ws IH]; [done|].
destruct (decide (ws = [])) as [->|Hne]; [done|].
rewrite join_cons, fold_app, fold_cons, lower_fixed, IH by done.
rewrite fmap_cons, join_cons by (by destruct ws). done.
Qed.

(** Case-insensitive comparison is an equivalence on spellings. *)
Lemma cmp_ci_eq a b : cmp_ci a b = Eq ↔ fold a = fold b.
Proof. apply str_cmp_eq. Qed.
End fold.

(** ** A concrete table

    ASCII, Latin-1 capitals, U+0130 (whose image has two characters) and the
    Kelvin sign U+212A (whose image is ASCII). *)
Definition demo_lower (c : char) : list char :=
  if c =? 0x130 then [105; 0x307]
  else if c =? 0x212A then [107]
  else if (0xC0 <=? c) && (c <=? 0xDE) && negb (c =? 0xD7) then [c + 32]
  else [ascii_lower c].

Program Definition demo_table : CaseTable := {| to_lowercase := demo_lower |}.
Next Obligation.
  intros c Hc. unfold ascii in Hc. unfold demo_lower. repeat case_match; try done; lia.
Qed.
Next Obligation.
  intros c. unfold demo_lower, ascii_lower. repeat case_match; cbn [flat_map app];
    repeat case_match; try done; try lia.
Qed.
Next Obligation. intros c. unfold demo_lower. repeat case_match; done. Qed.
Next Obligation.
  intros c Hc%scalarb_spec. unfold demo_lower, ascii_lower, valid_str.
  repeat case_match; repeat (apply Forall_cons; split || apply Forall_nil);
    try apply scalarb_spec; try lia; done.
Qed.
Next Obligation.
  intros c x Hc Hx Ha. unfold ascii in *. unfold demo_lower, ascii_lower in Hx.
  repeat case_match; repeat (apply elem_of_cons in Hx as [->|Hx]); try lia;
    by apply elem_of_nil in Hx.
Qed.
