(* ===== verification/Path.v ===== *)
(** Path: virtual path normalisation and splitting
    (rust/crates/vfs-core/src/path.rs).

    [normalize_vpath] resolves [.] and [..] and refuses a path that climbs
    above its root; [rel_components] and [normalize_rel] refuse any [.] or
    [..]; [trim_rel] and [split_parent] only look at separators. *)

From S2P Require Import Prelude Text.

(** ** Model *)

Inductive PathError := EscapesRoot | EmptyRoot.
Inductive BadComponent := BadComponent_.

Definition slash : char := 47.
Definition backslash : char := 92.
Definition dot : str := [46].
Definition dotdot : str := [46; 46].

(** Both separators. *)
Definition is_sep (c : char) : bool := (c =? slash) || (c =? backslash).
Definition is_slash (c : char) : bool := c =? slash.

(** [raw.replace('\\', "/").trim_matches('/')]. *)
Definition trim_rel (raw : str) : str :=
  trim_matches slash ((λ c, if c =? backslash then slash else c) <$> raw).

(** The non-empty pieces between separators. *)
Definition pieces (raw : str) : list str :=
  filter (λ c, c ≠ []) (split_on is_sep raw).

Fixpoint rel_components_loop (cs : list str) : result BadComponent (list str) :=
  match cs with
  | [] => Ok []
  | c :: cs =>
      if str_eqb c dot || str_eqb c dotdot then Err BadComponent_
      else cons c <$> rel_components_loop cs
  end.

Definition rel_components (raw : str) : result BadComponent (list str) :=
  rel_components_loop (pieces raw).

(** The accumulating loop of [normalize_rel]: push a slash unless the output
    is still empty, then the component. *)
Definition push_component (out c : str) : str :=
  (if decide (out = []) then out else out ++ [slash]) ++ c.
Definition normalize_rel (raw : str) : result BadComponent str :=
  (λ cs, fold_left push_component cs []) <$> rel_components raw.

Definition split_parent (rel : str) : str * str :=
  match rsplit_once slash rel with Some p => p | None => ([], rel) end.

(** The NT/DOS prefixes, in the order the loop tries them. *)
Definition nt_prefixes : list str :=
  [ [92; 63; 63; 92]; [92; 92; 63; 92]; [47; 63; 63; 47]; [47; 47; 63; 47] ].

Fixpoint strip_first (ps : list str) (s : str) : str :=
  match ps with
  | [] => s
  | p :: ps => match strip_prefix p s with Some r => r | None => strip_first ps s end
  end.

(** The loop of [normalize_vpath]; [out] is the vector, last component first. *)
Fixpoint vpath_loop (cs : list str) (out : list str) : result PathError (list str) :=
  match cs with
  | [] => Ok (rev out)
  | c :: cs =>
      if str_eqb c [] || str_eqb c dot then vpath_loop cs out
      else if str_eqb c dotdot then
        match out with
        | [] => Err EscapesRoot
        | _ :: out => vpath_loop cs out
        end
      else vpath_loop cs (c :: out)
  end.

Definition vpath_components (raw : str) : result PathError (list str) :=
  vpath_loop (split_on is_sep (strip_first nt_prefixes raw)) [].

Definition normalize_vpath (raw : str) : result PathError str :=
  join slash <$> vpath_components raw.

(** ** Specification *)

(** A canonical component: non-empty, not [.] or [..], no separator. *)
Definition comp_ok (c : str) : Prop :=
  c ≠ [] ∧ c ≠ dot ∧ c ≠ dotdot ∧ no_char is_sep c.

(** The canonical spelling of a list of components. *)
Definition canonical (s : str) (cs : list str) : Prop :=
  Forall comp_ok cs ∧ s = join slash cs.

(** How deep a sequence of components ends below where it started. *)
Definition depth1 (c : str) : Z :=
  if str_eqb c [] || str_eqb c dot then 0 else if str_eqb c dotdot then -1 else 1.
Definition depth (cs : list str) : Z := foldr (λ c n, depth1 c + n) 0 cs.

(** Some prefix of the path is above the root. *)
Definition climbs (cs : list str) : Prop := ∃ k, depth (take k cs) < 0.

(** ** Lemmas *)

Lemma str_eqb_spec a b : reflect (a = b) (str_eqb a b).
Proof. apply bool_decide_reflect. Qed.

(** [comp_ok] decided. *)
Definition comp_okb (c : str) : bool :=
  negb (str_eqb c [] || str_eqb c dot || str_eqb c dotdot) && forallb (λ x, negb (is_sep x)) c.

Lemma comps_okb cs : forallb comp_okb cs = true → Forall comp_ok cs.
Proof.
  intros H. apply Forall_forall. intros c Hc. rewrite forallb_forall in H.
  specialize (H c (proj1 (list_elem_of_In _ _) Hc)). unfold comp_okb in H.
  destruct (str_eqb_spec c []), (str_eqb_spec c dot), (str_eqb_spec c dotdot); try done.
  simpl in H. split; [done|]. split; [done|]. split; [done|].
  apply Forall_forall. intros x Hx. rewrite forallb_forall in H.
  apply list_elem_of_In in Hx. specialize (H x Hx). by destruct (is_sep x).
Qed.

Lemma no_sep_no_slash c : no_char is_sep c → no_char is_slash c.
Proof.
  intros H. eapply Forall_impl; [exact H|]. intros x. simpl. unfold is_sep, is_slash.
  by intros [-> _]%orb_false_iff.
Qed.

Lemma fixed_slash : fold_fixed slash.
Proof. unfold fold_fixed, slash. split; [done|lia]. Qed.
Lemma fixed_backslash : fold_fixed backslash.
Proof. unfold fold_fixed, backslash. split; [done|lia]. Qed.
Lemma fixed_dot : fold_fixed 46.
Proof. split; [done|lia]. Qed.
#[export] Hint Resolve fixed_slash fixed_backslash fixed_dot : vfs.

Lemma is_sep_slash : is_sep slash = true.
Proof. done. Qed.

Lemma pieces_ok raw : Forall (λ c, c ≠ [] ∧ no_char is_sep c) (pieces raw).
Proof.
  apply Forall_forall. intros c [Hne Hc]%list_elem_of_filter. split; [done|].
  exact (proj1 (Forall_forall _ _) (split_on_pieces is_sep raw) c Hc).
Qed.

Lemma rel_components_loop_ok cs out :
  rel_components_loop cs = Ok out ↔ out = cs ∧ Forall (λ c, c ≠ dot ∧ c ≠ dotdot) cs.
Proof.
  revert out. induction cs as [|c cs IH]; intros out; simpl.
  - split; [intros [= <-]; split; [done|constructor]|by intros [-> _]].
  - destruct (str_eqb_spec c dot), (str_eqb_spec c dotdot); simpl.
    1-3: (split; [done|]; intros [_ H]; inversion H; naive_solver).
    rewrite Forall_cons. destruct (rel_components_loop cs) as [o|]; simpl.
    + specialize (IH o). naive_solver.
    + split; [done|]. intros (-> & ? & H). by pose proof (proj2 (IH cs) (conj eq_refl H)).
Qed.

Lemma rel_components_ok raw cs : rel_components raw = Ok cs → Forall comp_ok cs.
Proof.
  intros [-> H]%rel_components_loop_ok. pose proof (pieces_ok raw) as Hp.
  eapply Forall_impl; [exact (proj2 (Forall_and _ _) (conj H Hp))|].
  unfold comp_ok. naive_solver.
Qed.

Lemma pieces_join cs :
  Forall (λ c, c ≠ [] ∧ no_char is_sep c) cs → pieces (join slash cs) = cs.
Proof.
  intros H. destruct (decide (cs = [])) as [->|Hne]; [done|].
  unfold pieces. rewrite split_join; [|done|done|].
  - induction H as [|c cs [Hc _] _ IH]; [done|].
    rewrite filter_cons_True by done. f_equal.
    destruct cs; [done|]. by apply IH.
  - eapply Forall_impl; [exact H|]. naive_solver.
Qed.

Lemma push_components cs out :
  Forall (λ c, c ≠ []) cs → out ≠ [] →
  fold_left push_component cs out = out ++ flat_map (cons slash) cs.
Proof.
  intros H. revert out. induction H as [|c cs Hc H IH]; intros out Hout; simpl.
  - by rewrite app_nil_r.
  - unfold push_component at 2. rewrite decide_False by done. rewrite IH.
    + by rewrite <- !app_assoc.
    + by destruct out.
Qed.

Lemma push_components_join cs :
  Forall (λ c, c ≠ []) cs → fold_left push_component cs [] = join slash cs.
Proof.
  intros H. destruct H as [|c cs Hc H]; [done|].
  cbn [fold_left]. unfold push_component at 2. rewrite decide_True by done.
  cbn [app]. rewrite push_components by done. clear Hc. revert c.
  induction H as [|d cs Hd H IH]; intros c; [simpl; by rewrite app_nil_r|].
  rewrite join_cons by done. rewrite <- IH. cbn [flat_map]. done.
Qed.

Lemma comp_ok_nonempty cs : Forall comp_ok cs → Forall (λ c, c ≠ []) cs.
Proof. intros H. eapply Forall_impl; [exact H|]. by intros c [? _]. Qed.

Lemma comp_ok_piece cs : Forall comp_ok cs → Forall (λ c, c ≠ [] ∧ no_char is_sep c) cs.
Proof. intros H. eapply Forall_impl; [exact H|]. unfold comp_ok. naive_solver. Qed.

Lemma join_comp_nil cs : Forall comp_ok cs → join slash cs = [] ↔ cs = [].
Proof.
  intros H. split; [|by intros ->]. apply join_nil_inv. by apply comp_ok_nonempty.
Qed.

(** A canonical spelling determines its components. *)
Lemma canonical_inj s cs ds : canonical s cs → canonical s ds → cs = ds.
Proof.
  intros [Hc ->] [Hd E].
  rewrite <- (pieces_join cs), <- (pieces_join ds), E; auto using comp_ok_piece.
Qed.

Lemma split_slash_join cs :
  cs ≠ [] → Forall comp_ok cs → split_on is_slash (join slash cs) = cs.
Proof.
  intros Hne H. apply split_join; [done|done|].
  eapply Forall_impl; [exact H|]. intros c (_ & _ & _ & Hc). by apply no_sep_no_slash.
Qed.

Lemma vpath_loop_comp cs out rs :
  Forall (no_char is_sep) cs → Forall comp_ok out →
  vpath_loop cs out = Ok rs → Forall comp_ok rs.
Proof.
  intros H. revert out. induction H as [|c cs Hc H IH]; intros out Ho; simpl.
  - intros [= <-]. by apply Forall_rev.
  - destruct (str_eqb_spec c []), (str_eqb_spec c dot); simpl; eauto.
    destruct (str_eqb_spec c dotdot); simpl.
    + destruct Ho; [done|]. eauto.
    + apply IH. constructor; [|done]. unfold comp_ok. auto.
Qed.

Lemma vpath_components_ok raw cs : vpath_components raw = Ok cs → Forall comp_ok cs.
Proof.
  apply vpath_loop_comp; [apply split_on_pieces|constructor].
Qed.

Lemma normalize_vpath_ok raw n :
  normalize_vpath raw = Ok n ↔ ∃ cs, vpath_components raw = Ok cs ∧ n = join slash cs.
Proof. unfold normalize_vpath. destruct (vpath_components raw); simpl; naive_solver. Qed.

Lemma strip_first_canonical cs :
  Forall comp_ok cs → strip_first nt_prefixes (join slash cs) = join slash cs.
Proof.
  intros H. destruct H as [|c cs (Hne & _ & _ & Hc) H]; [done|].
  destruct c as [|x c]; [done|]. inversion_clear Hc as [|? ? Hx _].
  assert (∃ t, join slash ((x :: c) :: cs) = x :: t) as [t ->] by (destruct cs; simpl; eauto).
  unfold is_sep, slash, backslash in Hx. apply orb_false_iff in Hx as [Hx1 Hx2].
  cbn [strip_first nt_prefixes strip_prefix].
  rewrite !(Z.eqb_sym _ x), Hx1, Hx2. done.
Qed.

Arguments strip_first : simpl never.

Lemma trim_start_head sep s : head s ≠ Some sep → trim_start sep s = s.
Proof. destruct s as [|c s]; [done|]. simpl. destruct (Z.eqb_spec c sep); naive_solver. Qed.

Lemma comp_not_slash c x : comp_ok c → x ∈ c → x ≠ slash.
Proof.
  intros (_ & _ & _ & Hc) Hx ->. apply (proj1 (Forall_forall _ _) Hc) in Hx. done.
Qed.

(** A canonical path has nothing to trim. *)
Lemma trim_canonical cs : Forall comp_ok cs → trim_matches slash (join slash cs) = join slash cs.
Proof.
  intros H. unfold trim_matches. rewrite (trim_start_head _ (join slash cs)).
  - rewrite trim_start_head; [by rewrite rev_involutive|].
    destruct cs as [|c cs _] using rev_ind; [done|].
    apply Forall_app in H as [_ H]. inversion_clear H as [|? ? Hc _].
    assert (∃ y, join slash (cs ++ [c]) = y ++ c) as [y ->].
    { destruct (decide (cs = [])) as [->|]; [by exists []|].
      rewrite join_snoc by done. exists (join slash cs ++ [slash]). by rewrite <- app_assoc. }
    rewrite rev_app_distr. destruct c as [|x c _] using rev_ind; [by destruct (proj1 Hc)|].
    rewrite rev_app_distr. simpl. intros [= ->].
    by eapply (comp_not_slash _ _ Hc); [apply elem_of_app; right; left|].
  - destruct H as [|c cs Hc H]; [done|]. destruct c as [|x c]; [by destruct (proj1 Hc)|].
    assert (head (join slash ((x :: c) :: cs)) = Some x) as -> by (by destruct cs).
    intros [= ->]. by eapply (comp_not_slash _ _ Hc); [left|].
Qed.

Lemma vpath_loop_plain cs out :
  Forall comp_ok cs → vpath_loop cs out = Ok (rev out ++ cs).
Proof.
  intros H. revert out. induction H as [|c cs (H1 & H2 & H3 & _) H IH]; intros out; simpl.
  - by rewrite app_nil_r.
  - destruct (str_eqb_spec c []), (str_eqb_spec c dot), (str_eqb_spec c dotdot); try done.
    simpl. rewrite IH. simpl. by rewrite <- app_assoc.
Qed.

Lemma vpath_components_join cs :
  Forall comp_ok cs → vpath_components (join slash cs) = Ok cs.
Proof.
  intros H. unfold vpath_components. rewrite strip_first_canonical by done.
  destruct (decide (cs = [])) as [->|Hne]; [done|].
  rewrite split_join; [by rewrite vpath_loop_plain|done|done|].
  eapply Forall_impl; [exact H|]. by intros c (_ & _ & _ & ?).
Qed.

Lemma vpath_loop_pieces cs out :
  Forall comp_ok (filter (λ c, c ≠ []) cs) →
  vpath_loop cs out = Ok (rev out ++ filter (λ c, c ≠ []) cs).
Proof.
  revert out. induction cs as [|c cs IH]; intros out Hok; cbn [vpath_loop].
  - by rewrite filter_nil, app_nil_r.
  - destruct (str_eqb_spec c []) as [->|Hne]; [by apply IH|].
    rewrite filter_cons_True in Hok by done.
    inversion_clear Hok as [|? ? (_ & H1 & H2 & _) Hok'].
    destruct (str_eqb_spec c dot), (str_eqb_spec c dotdot); try done. cbn [orb].
    rewrite IH, filter_cons_True by done. simpl. by rewrite <- app_assoc.
Qed.

Lemma depth_cons c cs : depth (c :: cs) = depth1 c + depth cs.
Proof. done. Qed.

Lemma vpath_loop_escapes cs out :
  (∃ e, vpath_loop cs out = Err e) ↔ ∃ k, len out + depth (take k cs) < 0.
Proof.
  revert out. induction cs as [|c cs IH]; intros out; cbn [vpath_loop].
  - split; [by intros [e ?]|]. intros [k Hk]. rewrite take_nil in Hk.
    pose proof (len_nonneg out). simpl in Hk. lia.
  - assert (∀ out', len out' = len out + depth1 c →
      (∃ e, vpath_loop cs out' = Err e) ↔
      (∃ k, len out + depth (take k (c :: cs)) < 0)) as Hstep.
    { intros out' E. rewrite IH. split; intros [k Hk].
      - exists (S k). cbn [take]. rewrite depth_cons. lia.
      - destruct k as [|k]; [pose proof (len_nonneg out); simpl in Hk; lia|].
        exists k. cbn [take] in Hk. rewrite depth_cons in Hk. lia. }
    unfold depth1 in Hstep.
    destruct (str_eqb c [] || str_eqb c dot) eqn:E1; [apply Hstep; lia|].
    destruct (str_eqb c dotdot) eqn:E2.
    + destruct out as [|o out].
      * split; [intros _|by eauto]. exists 1%nat. simpl. unfold depth1. rewrite E1, E2.
        unfold len. simpl. lia.
      * apply Hstep. rewrite len_cons. lia.
    + apply Hstep. rewrite len_cons. lia.
Qed.

(** ** Properties *)

(** Property: whatever [normalize_vpath] returns is the canonical spelling of a list
    of components (non-empty, neither [.] nor [..], no separator inside), that
    spelling determines the components, and normalising it again changes
    nothing. *)
Theorem normalize_vpath_canonical raw n :
  normalize_vpath raw = Ok n →
  ∃ cs, canonical n cs ∧ (∀ ds, canonical n ds → ds = cs) ∧ normalize_vpath n = Ok n.
Proof.
  intros (cs & Hcs & ->)%normalize_vpath_ok. apply vpath_components_ok in Hcs.
  exists cs. split; [done|]. split; [intros ds Hd; by eapply canonical_inj|].
  apply normalize_vpath_ok. exists cs. by rewrite vpath_components_join.
Qed.

Lemma normalize_vpath_canonical_witness :
  ∃ cs, canonical (lit "data/a.esp") cs ∧ (∀ ds, canonical (lit "data/a.esp") ds → ds = cs) ∧
    normalize_vpath (lit "data/a.esp") = Ok (lit "data/a.esp").
Proof.
  apply (normalize_vpath_canonical (lit "\??\data\.\x\..\\a.esp")). vm_compute. reflexivity.
Defined.

(** Property: [normalize_vpath] refuses a path exactly when some prefix of its
    components has more [..] than names, i.e. when the path leaves its root at
    any point, even if it later comes back. *)
Theorem normalize_vpath_escapes raw :
  normalize_vpath raw = Err EscapesRoot ↔
  climbs (split_on is_sep (strip_first nt_prefixes raw)).
Proof.
  unfold normalize_vpath, vpath_components, climbs.
  set (cs := split_on _ _). pose proof (vpath_loop_escapes cs []) as H.
  rewrite len_nil in H.
  assert (∀ e, vpath_loop cs [] = Err e → e = EscapesRoot) as He.
  { clear H. generalize (@nil str). induction cs as [|c cs IH]; intros out e; simpl; [done|].
    repeat case_match; try eauto; congruence. }
  setoid_rewrite Z.add_0_l in H. rewrite <- H.
  destruct (vpath_loop cs []) as [a|e] eqn:E; simpl; [naive_solver|].
  rewrite (He e eq_refl). naive_solver.
Qed.

(** Property: [normalize_rel] accepts exactly the paths with no [.] or [..]
    component; its answer is then the canonical spelling of the path's
    components, and it agrees with [normalize_vpath] on every path that
    carries no NT prefix. *)
Theorem normalize_rel_spec raw n :
  normalize_rel raw = Ok n ↔
  canonical n (pieces raw) ∧
  (strip_first nt_prefixes raw = raw → normalize_vpath raw = Ok n).
Proof.
  unfold normalize_rel. split.
  - destruct (rel_components raw) as [cs|] eqn:E; simpl; [|done]. intros [= <-].
    pose proof (rel_components_ok _ _ E) as Hok.
    apply rel_components_loop_ok in E as [-> _].
    rewrite push_components_join by (by apply comp_ok_nonempty).
    split; [done|]. intros Hs. unfold normalize_vpath, vpath_components. rewrite Hs.
    by rewrite vpath_loop_pieces.
  - intros [[Hok ->] _]. unfold rel_components.
    assert (rel_components_loop (pieces raw) = Ok (pieces raw)) as ->.
    { apply rel_components_loop_ok. split; [done|].
      eapply Forall_impl; [exact Hok|]. unfold comp_ok. naive_solver. }
    simpl. by rewrite push_components_join by (by apply comp_ok_nonempty).
Qed.
