(* ===== verification/Wildcard.v ===== *)
(** Wildcard: DOS wildcard matching (rust/crates/vfs-core/src/wildcard.rs). *)

From S2P Require Import Prelude Text.

(** ** Model *)

Definition ch_star : char := 42.
Definition ch_dos_star : char := 60.
Definition ch_qm : char := 63.
Definition ch_dos_qm : char := 62.
Definition ch_dos_dot : char := 34.
Definition ch_dot : char := 46.

Definition is_star (c : char) : bool := (c =? ch_star) || (c =? ch_dos_star).

(** [do_match(p, pi, n, ni)] on the remaining pattern [p[pi..]] and the
    remaining name [n[ni..]]. The inner [fix] is the star's loop: try the rest
    of the pattern here, otherwise consume one name character and stay. *)
Fixpoint do_match (p n : str) : bool :=
  match p with
  | [] => match n with [] => true | _ => false end
  | c :: p' =>
      if is_star c then
        (fix star (n : str) : bool :=
           if do_match p' n then true
           else match n with [] => false | _ :: n' => star n' end) n
      else if c =? ch_qm then
        match n with [] => false | _ :: n' => do_match p' n' end
      else if c =? ch_dos_qm then
        match n with
        | x :: n' => if x =? ch_dot then do_match p' n else do_match p' n'
        | [] => do_match p' n
        end
      else if c =? ch_dos_dot then
        match n with
        | x :: n' => if x =? ch_dot then do_match p' n' else do_match p' n
        | [] => do_match p' n
        end
      else match n with
           | x :: n' => if x =? c then do_match p' n' else false
           | [] => false
           end
  end.

Definition wildcard_match `{CT : CaseTable} (pattern name : str) : bool :=
  do_match (fold pattern) (fold name).

(** ** Specification: what a pattern matches, one rule per metacharacter *)

Definition plain (c : char) : Prop :=
  is_star c = false ∧ c ≠ ch_qm ∧ c ≠ ch_dos_qm ∧ c ≠ ch_dos_dot.

Inductive Matches : str → str → Prop :=
  | m_end : Matches [] []
  | m_star c p n m : is_star c = true → Matches p m → Matches (c :: p) (n ++ m)
  | m_qm p x n : Matches p n → Matches (ch_qm :: p) (x :: n)
  | m_dos_qm_char p x n : x ≠ ch_dot → Matches p n → Matches (ch_dos_qm :: p) (x :: n)
  | m_dos_qm_none p n :
      head n = None ∨ head n = Some ch_dot → Matches p n → Matches (ch_dos_qm :: p) n
  | m_dos_dot_char p n : Matches p n → Matches (ch_dos_dot :: p) (ch_dot :: n)
  | m_dos_dot_none p n :
      head n ≠ Some ch_dot → Matches p n → Matches (ch_dos_dot :: p) n
  | m_char c p n : plain c → Matches p n → Matches (c :: p) (c :: n).

#[local] Hint Constructors Matches : vfs.

(** ** Lemmas *)

Lemma do_match_star c p n :
  is_star c = true →
  do_match (c :: p) n = true ↔ ∃ a m, n = a ++ m ∧ do_match p m = true.
Proof.
  intros Hc. cbn [do_match]. rewrite Hc. induction n as [|x n IH]; simpl.
  - destruct (do_match p []) eqn:E; split; try done; [by exists [], []|].
    intros (a & m & Ha & Hm). destruct a, m; try done. congruence.
  - destruct (do_match p (x :: n)) eqn:E.
    + split; [|done]. intros _. by exists [], (x :: n).
    + rewrite IH. split; intros (a & m & Ha & Hm).
      * exists (x :: a), m. by subst.
      * destruct a as [|y a]; simpl in Ha; [subst; congruence|].
        injection Ha as <- ->. by exists a, m.
Qed.

Lemma do_match_sound p n : do_match p n = true → Matches p n.
Proof.
  revert n. induction p as [|c p IH]; intros n.
  - destruct n; [auto with vfs|done].
  - destruct (is_star c) eqn:Hs.
    { intros (a & m & -> & Hm)%do_match_star; auto with vfs. }
    cbn [do_match]. rewrite Hs.
    destruct (Z.eqb_spec c ch_qm) as [->|H1]; [destruct n; auto with vfs; done|].
    destruct (Z.eqb_spec c ch_dos_qm) as [->|H2].
    { destruct n as [|x n]; [eauto with vfs|].
      destruct (Z.eqb_spec x ch_dot) as [->|]; auto with vfs. }
    destruct (Z.eqb_spec c ch_dos_dot) as [->|H3].
    { destruct n as [|x n]; [intros; apply m_dos_dot_none; auto|].
      destruct (Z.eqb_spec x ch_dot) as [->|]; [auto with vfs|].
      intros. apply m_dos_dot_none; [simpl; congruence|auto]. }
    destruct n as [|x n]; [done|]. destruct (Z.eqb_spec x c) as [->|]; [|done].
    intros. apply m_char; [by unfold plain|auto].
Qed.

Lemma do_match_complete p n : Matches p n → do_match p n = true.
Proof.
  induction 1 as [|c p n m Hc Hm IH|p x n Hm IH|p x n Hx Hm IH|p n Hn Hm IH
    |p n Hm IH|p n Hn Hm IH|c p n (H0 & H1 & H2 & H3) Hm IH].
  - done.
  - apply do_match_star; eauto.
  - done.
  - cbn. destruct (Z.eqb_spec x ch_dot); [done|]. done.
  - cbn. destruct n as [|x n]; [done|]. destruct Hn as [?|[= ->]]; [done|]. done.
  - done.
  - cbn. destruct n as [|x n]; [done|]. destruct (Z.eqb_spec x ch_dot) as [->|]; done.
  - cbn [do_match]. rewrite H0. destruct (Z.eqb_spec c ch_qm), (Z.eqb_spec c ch_dos_qm),
      (Z.eqb_spec c ch_dos_dot); try done. by rewrite Z.eqb_refl.
Qed.

(** ** Properties *)

(** Property: the backtracking matcher decides the declarative meaning of a DOS
    pattern: a star (or [<]) matches any run, [?] exactly one character, [>]
    one non-dot character or nothing at the end or before a dot, [a quote]
    a dot or nothing, any other character itself; all up to case. *)
Theorem wildcard_match_correct {CT : CaseTable} pattern name :
  wildcard_match pattern name = true ↔ Matches (fold pattern) (fold name).
Proof.
  unfold wildcard_match. split; auto using do_match_sound, do_match_complete.
Qed.
