(* ===== verification/Tree.v ===== *)
(** Tree: the merged tree of the layers
    (rust/crates/vfs-core/src/{model,cachekey,source,tree}.rs).

    The tree is the source's arena: a vector of nodes, directories mapping a
    folded name to the index of a child.  Indexing past the vector and
    [expect] panic in the source; such operations return [option], [None]
    being the panic.  [SpecTree] below is what the arena promises: a finite
    map from folded paths to entries, in which a later entry wins; the
    refinement of [build] by it is the main theorem. *)

From S2P Require Import Prelude Text Path Wildcard.

(** ** Data model (model.rs) *)

Inductive EntryKind := KFile | KDir | KTombstone.
#[export] Instance EntryKind_eq_dec : EqDecision EntryKind.
Proof. solve_decision. Defined.

Record InputEntry := {
  vpath : str; kind : EntryKind; source : bytes; size : Z; mtime : Z }.

Record Layer := { id : Z; entries : list InputEntry }.

Record TreeStat := { ts_kind : EntryKind; ts_size : Z; ts_mtime : Z }.

Record TreeEntry := { te_name : str; te_kind : EntryKind; te_size : Z; te_mtime : Z }.

Inductive Resolution :=
  | RFile (source : bytes) (size mtime layer : Z) (cache_key : bytes)
  | RDir
  | RTombstone
  | RNotFound.

Inductive BuildError := BuildEmptyPath | BuildEscapesRoot.
Inductive VfsError := NotADirectory | NotFound.

Record FileNode := { fn_source : bytes; fn_size : Z; fn_mtime : Z; fn_layer : Z }.

(** Directory children: folded name to node index (a [u32]). *)
Inductive NodeEntry :=
  | NFile (f : FileNode)
  | NDir (children : gmap str nat)
  | NTombstone.

Record Node := { name : str; entry : NodeEntry }.

(** The arena; node 0 is the root directory. *)
Abbreviation VfsTree := (list Node).

(** What [walk_postorder] hands its visitor. *)
Inductive WalkNodeKind :=
  | WDir
  | WFile (source : bytes) (size mtime layer : Z) (cache_key : bytes)
  | WTombstone.

Record WalkNode := {
  wn_id : nat; wn_display : str; wn_folded : str; wn_kind : WalkNodeKind;
  wn_children : list (str * nat) }.

(** ** Cache keys (cachekey.rs); the hash is the blake3 crate's *)

Definition compute_cache_key (blake3 : bytes → bytes) (source : bytes) (size mtime : Z) : bytes :=
  blake3 (source ++ to_le 8 size ++ to_le 8 mtime).

(** ** Source blobs (source.rs) *)

Inductive Source :=
  | Disk (path : bytes)
  | ZipWindow (offset : Z) (container : bytes).

Definition encode_zip_window (offset : Z) (container : str) : bytes :=
  0 :: to_le 8 offset ++ utf8 container.

Definition decode (blob : bytes) : Source :=
  match blob with
  | 0 :: rest =>
      if 9 <=? len blob then ZipWindow (from_le (take 8 rest)) (drop 8 rest)
      else Disk blob
  | _ => Disk blob
  end.

(** ** Tree operations (tree.rs) *)

Section tree.
Context {CT : CaseTable} (blake3 : bytes → bytes).

Definition is_dir (e : NodeEntry) : bool :=
match e with NDir _ => true | _ => false end.

(** [child]: the outer option is the bounds check. *)
Definition child (t : VfsTree) (parent : nat) (key : str) : option (option nat) :=
n ← t !! parent;
Some (match entry n with NDir ch => ch !! key | _ => None end).

Definition push (t : VfsTree) (nm : str) (e : NodeEntry) : VfsTree * nat :=
(t ++ [{| name := nm; entry := e |}], Z.to_nat (as_u32 (len t))).

Definition set_child (t : VfsTree) (parent : nat) (key : str) (i : nat) : option VfsTree :=
n ← t !! parent;
Some (match entry n with
    | NDir ch => <[parent := {| name := name n; entry := NDir (<[key := i]> ch) |}]> t
    | _ => t
    end).

Definition set_node (t : VfsTree) (i : nat) (nm : str) (e : NodeEntry) : option VfsTree :=
_ ← t !! i; Some (<[i := {| name := nm; entry := e |}]> t).

(** One round of the loop of [ensure_dir_path]. *)
Definition ensure_dir_step (t : VfsTree) (cur : nat) (comp : str) : option (VfsTree * nat) :=
c ← child t cur (fold comp);
match c with
| Some i =>
  n ← t !! i;
  if is_dir (entry n) then Some (t, i)
  else t' ← set_node t i comp (NDir ∅); Some (t', i)
| None =>
  let '(t', i) := push t comp (NDir ∅) in
  t'' ← set_child t' cur (fold comp) i;
  Some (t'', i)
end.

Fixpoint ensure_dir_loop (t : VfsTree) (cur : nat) (comps : list str) : option (VfsTree * nat) :=
match comps with
| [] => Some (t, cur)
| comp :: comps =>
  r ← ensure_dir_step t cur comp;
  ensure_dir_loop r.1 r.2 comps
end.

Definition ensure_dir_path (t : VfsTree) (comps : list str) : option (VfsTree * nat) :=
ensure_dir_loop t 0 comps.

(** [comps.split_last()]. *)
Definition split_last (comps : list str) : option (str * list str) :=
match rev comps with [] => None | leaf :: r => Some (leaf, rev r) end.

(** The common body of [insert_file] and [insert_tombstone]: a leaf node is
put at [comps], replacing whatever is there. *)
Definition insert_leaf (t : VfsTree) (comps : list str) (e : NodeEntry) : option VfsTree :=
lp ← split_last comps;
r ← ensure_dir_path t lp.2;
c ← child r.1 r.2 (fold lp.1);
match c with
| Some i => set_node r.1 i lp.1 e
| None =>
  let '(t', i) := push r.1 lp.1 e in
  set_child t' r.2 (fold lp.1) i
end.

Definition insert_file (t : VfsTree) (comps : list str) (ie : InputEntry) (layer : Z) : option VfsTree :=
insert_leaf t comps (NFile {| fn_source := source ie; fn_size := size ie;
                            fn_mtime := mtime ie; fn_layer := layer |}).

Definition insert_tombstone (t : VfsTree) (comps : list str) : option VfsTree :=
insert_leaf t comps NTombstone.

Definition new_tree : VfsTree := [{| name := []; entry := NDir ∅ |}].

(** The body of [build]'s inner loop. *)
Definition build_entry (t : VfsTree) (layer : Z) (e : InputEntry) :
option (result BuildError VfsTree) :=
match normalize_vpath (vpath e) with
| Err _ => Some (Err BuildEscapesRoot)
| Ok norm =>
  if decide (norm = []) then Some (Err BuildEmptyPath)
  else
    let comps := split_on is_slash norm in
    match kind e with
    | KTombstone => Ok <$> insert_tombstone t comps
    | KDir => (λ r, Ok r.1) <$> ensure_dir_path t comps
    | KFile => Ok <$> insert_file t comps e layer
    end
end.

Fixpoint build_entries (t : VfsTree) (es : list (Z * InputEntry)) :
option (result BuildError VfsTree) :=
match es with
| [] => Some (Ok t)
| (layer, e) :: es =>
  r ← build_entry t layer e;
  match r with
  | Err err => Some (Err err)
  | Ok t' => build_entries t' es
  end
end.

(** The two nested loops: layers in order, each layer's entries in order. *)
Definition layer_entries (layers : list Layer) : list (Z * InputEntry) :=
flat_map (λ l, (λ e, (id l, e)) <$> entries l) layers.

Definition build (layers : list Layer) : option (result BuildError VfsTree) :=
build_entries new_tree (layer_entries layers).

(** [find]: the outer option is the bounds check of [self.nodes[cur]]. *)
Fixpoint find_loop (t : VfsTree) (cur : nat) (comps : list str) : option (option nat) :=
match comps with
| [] => Some (Some cur)
| comp :: comps =>
  n ← t !! cur;
  match entry n with
  | NDir ch =>
      match ch !! fold comp with
      | Some i => find_loop t i comps
      | None => Some None
      end
  | _ => Some None
  end
end.

Definition find (t : VfsTree) (norm : str) : option (option nat) :=
if decide (norm = []) then Some (Some 0%nat)
else find_loop t 0 (split_on is_slash norm).

Definition resolve (t : VfsTree) (v : str) : option Resolution :=
match normalize_vpath v with
| Err _ => Some RNotFound
| Ok norm =>
  f ← find t norm;
  match f with
  | None => Some RNotFound
  | Some i =>
      n ← t !! i;
      Some (match entry n with
            | NDir _ => RDir
            | NTombstone => RTombstone
            | NFile f =>
                RFile (fn_source f) (fn_size f) (fn_mtime f) (fn_layer f)
                  (compute_cache_key blake3 (fn_source f) (fn_size f) (fn_mtime f))
            end)
  end
end.

Definition getattr (t : VfsTree) (v : str) : option (option TreeStat) :=
match normalize_vpath v with
| Err _ => Some None
| Ok norm =>
  f ← find t norm;
  match f with
  | None => Some None
  | Some i =>
      n ← t !! i;
      Some (match entry n with
            | NDir _ => Some {| ts_kind := KDir; ts_size := 0; ts_mtime := 0 |}
            | NFile f => Some {| ts_kind := KFile; ts_size := fn_size f; ts_mtime := fn_mtime f |}
            | NTombstone => None
            end)
  end
end.

(** A child as [readdir] lists it. *)
Definition list_entry (n : Node) : TreeEntry :=
match entry n with
| NDir _ => {| te_name := name n; te_kind := KDir; te_size := 0; te_mtime := 0 |}
| NFile f => {| te_name := name n; te_kind := KFile; te_size := fn_size f; te_mtime := fn_mtime f |}
| NTombstone => {| te_name := name n; te_kind := KTombstone; te_size := 0; te_mtime := 0 |}
end.

(** [sort_by(cmp_ci)]: a sort on the folded names (siblings have distinct
ones, so stability is not observable). *)
Definition ci_le (a b : TreeEntry) : Prop := str_le (fold (te_name a)) (fold (te_name b)).
#[global] Instance ci_le_dec : RelDecision ci_le :=
λ a b, decide (str_le (fold (te_name a)) (fold (te_name b))).

Definition keep (filter : option str) (e : TreeEntry) : bool :=
match filter with Some pat => wildcard_match pat (te_name e) | None => true end.

Definition readdir (t : VfsTree) (v : str) (flt : option str) :
option (result VfsError (list TreeEntry)) :=
match normalize_vpath v with
| Err _ => Some (Err NotFound)
| Ok norm =>
  f ← find t norm;
  match f with
  | None => Some (Err NotFound)
  | Some i =>
      n ← t !! i;
      match entry n with
      | NDir ch =>
          ns ← mapM (λ kc : str * nat, t !! kc.2) (bt_iter ch);
          Some (Ok (merge_sort ci_le (List.filter (keep flt) (list_entry <$> ns))))
      | _ => Some (Err NotADirectory)
      end
  end
end.

(** What the visitor is handed for node [idx]. *)
Definition walk_node (n : Node) (idx : nat) (folded : str) : WalkNode :=
{| wn_id := idx; wn_display := name n; wn_folded := folded;
 wn_kind := match entry n with
            | NDir _ => WDir
            | NFile f => WFile (fn_source f) (fn_size f) (fn_mtime f) (fn_layer f)
                           (compute_cache_key blake3 (fn_source f) (fn_size f) (fn_mtime f))
            | NTombstone => WTombstone
            end;
 wn_children := match entry n with NDir ch => bt_iter ch | _ => [] end |}.

(** [walk_from]: the visits in order. The recursion follows child indices,
so it takes fuel; [None] is a bounds panic or spent fuel. *)
Fixpoint walk_from (fuel : nat) (t : VfsTree) (idx : nat) (folded : str) :
option (list WalkNode) :=
match fuel with
| O => None
| S fuel =>
  n ← t !! idx;
  match entry n with
  | NDir ch =>
      sub ← mapM (λ kc : str * nat, walk_from fuel t kc.2 kc.1) (bt_iter ch);
      Some (concat sub ++ [walk_node n idx folded])
  | _ => Some [walk_node n idx folded]
  end
end.

(** A child's index is above its parent's, so the arena's length is fuel
enough. *)
Definition walk_postorder (t : VfsTree) : option (list WalkNode) :=
walk_from (length t) t 0 [].
End tree.
