(* ===== verification/TreeSpec.v ===== *)
(** TreeSpec: the abstract specification of the merged tree, and the proof
    that the arena of [Tree] implements it.

    [SpecTree] maps a folded path to the entry there. A later entry of the
    layers replaces what it collides with: a file or a tombstone removes
    everything below its path, and every parent of an entry is a directory. *)

From S2P Require Import Prelude Text Path Wildcard Tree.

(** ** The abstract tree *)

Inductive SpecKind := SFile (f : FileNode) | SDir | STombstone.

Abbreviation SpecTree := (gmap (list str) (str * SpecKind)).

(** [p] is strictly below [q]. *)
Definition below (q p : list str) : Prop := q `prefix_of` p ∧ p ≠ q.
#[export] Instance below_dec q p : Decision (below q p).
Proof. unfold below. apply _. Defined.

Section spec.
Context {CT : CaseTable}.

Definition folds (cs : list str) : list str := fold <$> cs.

Definition spec_dir (m : SpecTree) (p : list str) (w : str) : SpecTree :=
match m !! p with
| Some (_, SDir) => m
| _ => <[p := (w, SDir)]> m
end.

(** Make [pre ++ c1], [pre ++ c1 ++ c2], ... directories. *)
Fixpoint spec_dirs (m : SpecTree) (pre cs : list str) : SpecTree :=
match cs with
| [] => m
| c :: cs => spec_dirs (spec_dir m (pre ++ [fold c]) c) (pre ++ [fold c]) cs
end.

Definition spec_leaf (m : SpecTree) (cs : list str) (leaf : str) (k : SpecKind) : SpecTree :=
<[folds cs ++ [fold leaf] := (leaf, k)]>
  (filter (λ pe, ¬ below (folds cs ++ [fold leaf]) pe.1) (spec_dirs m [] cs)).

Definition spec_entry (m : SpecTree) (layer : Z) (e : InputEntry) : SpecTree :=
match vpath_components (vpath e) with
| Err _ => m
| Ok cs =>
    match kind e, split_last cs with
    | _, None => m
    | KDir, _ => spec_dirs m [] cs
    | KTombstone, Some (leaf, ps) => spec_leaf m ps leaf STombstone
    | KFile, Some (leaf, ps) =>
        spec_leaf m ps leaf (SFile {| fn_source := source e; fn_size := size e;
                                      fn_mtime := mtime e; fn_layer := layer |})
    end
end.

Definition spec_new : SpecTree := {[ [] := ([], SDir) ]}.

Definition spec_build (es : list (Z * InputEntry)) : SpecTree :=
fold_left (λ m le, spec_entry m le.1 le.2) es spec_new.

(** The queries on the abstract tree. *)
Definition spec_resolve (blake3 : bytes → bytes) (m : SpecTree) (v : str) : Resolution :=
match vpath_components v with
| Err _ => RNotFound
| Ok cs =>
    match m !! folds cs with
    | None => RNotFound
    | Some (_, SDir) => RDir
    | Some (_, STombstone) => RTombstone
    | Some (_, SFile f) =>
        RFile (fn_source f) (fn_size f) (fn_mtime f) (fn_layer f)
          (compute_cache_key blake3 (fn_source f) (fn_size f) (fn_mtime f))
    end
end.
End spec.

(** ** The arena seen as a path map *)

Definition spec_kind (e : NodeEntry) : SpecKind :=
  match e with NFile f => SFile f | NDir _ => SDir | NTombstone => STombstone end.
Definition spec_node (n : Node) : str * SpecKind := (name n, spec_kind (entry n)).

Definition children (e : NodeEntry) : gmap str nat :=
  match e with NDir ch => ch | _ => ∅ end.

Definition child_of (t : VfsTree) (i : nat) (k : str) (c : nat) : Prop :=
  ∃ n, t !! i = Some n ∧ children (entry n) !! k = Some c.

(** The node a folded path leads to. *)
Fixpoint walk (t : VfsTree) (cur : nat) (p : list str) : option nat :=
  match p with
  | [] => Some cur
  | k :: p => n ← t !! cur; c ← children (entry n) !! k; walk t c p
  end.

Definition view (t : VfsTree) (p : list str) : option (str * SpecKind) :=
  i ← walk t 0 p; n ← t !! i; Some (spec_node n).

(** Well-formed arenas: node 0 is a directory, a child has a larger index than
    its parent and is keyed by its folded name, and no two directories share a
    child. *)
Record wf `{CT : CaseTable} (t : VfsTree) : Prop := {
  wf_root : ∃ n, t !! 0%nat = Some n ∧ is_dir (entry n) = true;
  wf_child i k c : child_of t i k c → (i < c)%nat ∧ ∃ n, t !! c = Some n ∧ fold (name n) = k;
  wf_inj i j k l c : child_of t i k c → child_of t j l c → i = j ∧ k = l;
}.

(** ** Walking *)

Section walk.
Context {CT : CaseTable}.
Implicit Types t : VfsTree.

Lemma walk_app t i p q : walk t i (p ++ q) = walk t i p ≫= λ j, walk t j q.
Proof.
revert i. induction p as [|k p IH]; intros i; simpl; [done|].
destruct (t !! i) as [n|]; simpl; [|done].
destruct (children (entry n) !! k); simpl; auto.
Qed.

Lemma walk_snoc t i p k c :
walk t i (p ++ [k]) = Some c ↔ ∃ j, walk t i p = Some j ∧ child_of t j k c.
Proof.
rewrite walk_app, bind_Some. apply exist_proper. intros j.
apply and_iff_compat_l. simpl. rewrite bind_Some. apply exist_proper. intros n.
apply and_iff_compat_l. rewrite bind_Some. naive_solver.
Qed.

Lemma walk_in t i p j : wf t → (i < length t)%nat → walk t i p = Some j → (i ≤ j < length t)%nat.
Proof.
intros W Hi. revert i Hi. induction p as [|k p IH]; intros i Hi; simpl; [naive_solver|].
intros (n & Hn & (c & Hc & Hw)%bind_Some)%bind_Some.
destruct (wf_child t W i k c) as (? & m & Hm & _); [by exists n|].
apply lookup_lt_Some in Hm. specialize (IH c Hm Hw). lia.
Qed.

Lemma wf_nonempty t : wf t → (0 < length t)%nat.
Proof. intros W. destruct (wf_root t W) as (n & Hn & _). by apply lookup_lt_Some in Hn. Qed.

(** A node has one path. *)
Lemma walk_inj t p q i : wf t → walk t 0 p = Some i → walk t 0 q = Some i → p = q.
Proof.
intros W. revert q i. induction p as [|k p IH] using rev_ind; intros q i Hp Hq.
- destruct q as [|l q _] using rev_ind; [done|].
  apply walk_snoc in Hq as (j & Hj & Hc). apply (wf_child t W) in Hc as [? _].
  injection Hp as <-. lia.
- apply walk_snoc in Hp as (j & Hj & Hc). destruct q as [|l q _] using rev_ind.
  + injection Hq as <-. apply (wf_child t W) in Hc as [? _]. lia.
  + apply walk_snoc in Hq as (j' & Hj' & Hc').
    destruct (wf_inj t W _ _ _ _ _ Hc Hc') as [-> ->].
    by rewrite (IH q j' Hj Hj').
Qed.

Lemma view_walk t p i n : walk t 0 p = Some i → t !! i = Some n → view t p = Some (spec_node n).
Proof. intros Hw Hn. unfold view. rewrite Hw. simpl. by rewrite Hn. Qed.

Lemma view_Some t p e :
view t p = Some e ↔ ∃ i n, walk t 0 p = Some i ∧ t !! i = Some n ∧ e = spec_node n.
Proof. unfold view. rewrite bind_Some. setoid_rewrite bind_Some. naive_solver. Qed.

(** Replacing a node by one without children removes what was below it. *)
Section replace.
Context (t : VfsTree) (i : nat) (pi : list str) (nd : Node).
Context (W : wf t) (Hi : (i < length t)%nat) (Hpi : walk t 0 pi = Some i)
(Hnd : children (entry nd) = ∅).
Let t' : VfsTree := <[i := nd]> t.

Lemma replace_child j k c : child_of t' j k c ↔ j ≠ i ∧ child_of t j k c.
Proof.
unfold child_of, t'. destruct (decide (j = i)) as [->|Hj].
- rewrite list_lookup_insert_eq by done. split; [|by intros [? _]].
  intros (n & [= <-] & Hc). rewrite Hnd in Hc. by rewrite lookup_empty in Hc.
- rewrite list_lookup_insert_ne by done. naive_solver.
Qed.

Lemma replace_walk p j : walk t' 0 p = Some j ↔ walk t 0 p = Some j ∧ ¬ below pi p.
Proof.
revert j. induction p as [|k p IH] using rev_ind; intros j.
- simpl. split; [intros [= <-]|naive_solver]. split; [done|].
  intros [Hp ?]. by apply prefix_nil_inv in Hp.
- rewrite !walk_snoc. setoid_rewrite replace_child. setoid_rewrite IH.
  assert (below pi (p ++ [k]) ↔ below pi p ∨ p = pi) as Hb.
  { unfold below. split.
    - intros [Hp Hne]. apply prefix_snoc_iff in Hp as [Hp|Hp]; [|done].
      destruct (decide (p = pi)); auto.
    - intros [[[x ->] Hne]| ->]; (split; [|intros E%(f_equal length);
        rewrite ?length_app in E; simpl in E; lia]).
      + rewrite <- app_assoc. by apply prefix_app_r.
      + by apply prefix_app_r. }
  rewrite Hb. split.
  + intros (l & [Hw Hnb] & Hl & Hc). split; [eauto|]. intros [?| ->]; [done|].
    congruence.
  + intros [(l & Hw & Hc) Hn]. exists l. repeat split; [done|naive_solver| |done].
    intros ->. apply Hn. right. by eapply walk_inj.
Qed.

Lemma replace_view p :
view t' p = if decide (p = pi) then Some (spec_node nd)
            else if decide (below pi p) then None else view t p.
Proof.
destruct (decide (p = pi)) as [->|Hp].
{ apply (view_walk _ _ i); [|by apply list_lookup_insert_eq].
  apply replace_walk. split; [done|]. by intros [_ ?]. }
destruct (decide (below pi p)) as [Hb|Hb].
- destruct (view t' p) as [e|] eqn:E; [|done].
  apply view_Some in E as (j & n & Hw%replace_walk & _). naive_solver.
- unfold view. destruct (walk t' 0 p) as [j|] eqn:Hw.
  + pose proof (proj1 (replace_walk p j) Hw) as [Hw' _]. rewrite Hw'. simpl. unfold t'.
    rewrite list_lookup_insert_ne; [done|]. intros <-. apply Hp. by eapply walk_inj.
  + destruct (walk t 0 p) as [j|] eqn:Hw'; [|done].
    by rewrite (proj2 (replace_walk p j)) in Hw.
Qed.

Lemma replace_wf :
(i = 0%nat → is_dir (entry nd) = true) →
(∀ j k, child_of t j k i → fold (name nd) = k) → wf t'.
Proof.
intros Hroot Hname. split.
- destruct (wf_root t W) as (n & Hn & Hd). unfold t'. destruct (decide (i = 0%nat)) as [->|Hne].
  + exists nd. rewrite list_lookup_insert_eq by done. auto.
  + exists n. by rewrite list_lookup_insert_ne by lia.
- intros j k c [Hj Hc]%replace_child. destruct (wf_child t W j k c Hc) as (Hlt & n & Hn & Hk).
  split; [done|]. unfold t'. destruct (decide (c = i)) as [->|Hci].
  + exists nd. rewrite list_lookup_insert_eq by done. eauto.
  + exists n. by rewrite list_lookup_insert_ne by done.
- intros j l k k' c [_ Hc]%replace_child [_ Hc']%replace_child.
  by apply (wf_inj t W _ _ _ _ c).
Qed.
End replace.

(** Linking a new childless node under a directory adds one path. *)
Section extend.
Context (t : VfsTree) (i : nat) (pi : list str) (n : Node) (ch : gmap str nat)
(key : str) (nd : Node).
Context (W : wf t) (Hn : t !! i = Some n) (Hdir : entry n = NDir ch)
(Hpi : walk t 0 pi = Some i) (Hfree : ch !! key = None)
(Hnd : children (entry nd) = ∅) (Hkey : fold (name nd) = key).
Let t' : VfsTree :=
<[i := {| name := name n; entry := NDir (<[key := length t]> ch) |}]> (t ++ [nd]).

Lemma extend_lookup j : t' !! j =
if decide (j = i) then Some {| name := name n; entry := NDir (<[key := length t]> ch) |}
else if decide (j = length t) then Some nd else t !! j.
Proof.
pose proof (lookup_lt_Some _ _ _ Hn). unfold t'.
destruct (decide (j = i)) as [->|Hj].
{ apply list_lookup_insert_eq. rewrite length_app. lia. }
rewrite list_lookup_insert_ne by done.
destruct (decide (j = length t)) as [->|Hl]; [by apply list_lookup_middle|].
destruct (decide (j < length t)%nat); [by rewrite lookup_app_l|].
rewrite !(proj2 (lookup_ge_None _ _)); [done|lia|]. rewrite length_app. simpl. lia.
Qed.

Lemma extend_child j k c :
child_of t' j k c ↔ child_of t j k c ∨ (j = i ∧ k = key ∧ c = length t).
Proof.
pose proof (lookup_lt_Some _ _ _ Hn). unfold child_of. rewrite extend_lookup.
destruct (decide (j = i)) as [->|Hj].
- split.
  + intros (m & [= <-] & Hc). simpl in Hc. destruct (decide (k = key)) as [->|Hk].
    * rewrite lookup_insert_eq in Hc. naive_solver.
    * rewrite lookup_insert_ne in Hc by done. left. exists n. by rewrite Hdir.
  + intros [(m & Hm & Hc)|(_ & -> & ->)].
    * eexists. split; [done|]. simpl. rewrite Hn in Hm. injection Hm as <-.
      rewrite Hdir in Hc. simpl in Hc. rewrite lookup_insert_ne; [done|]. congruence.
    * eexists. split; [done|]. simpl. by rewrite lookup_insert_eq.
- destruct (decide (j = length t)) as [->|Hl].
  + split; [|intros [(m & Hm%lookup_lt_Some & _)|[? _]]; [lia|done]].
    intros (m & [= <-] & Hc). rewrite Hnd, lookup_empty in Hc. done.
  + naive_solver.
Qed.

Lemma extend_wf : wf t'.
Proof.
pose proof (lookup_lt_Some _ _ _ Hn) as Hlt. split.
- destruct (wf_root t W) as (r & Hr & Hd). rewrite extend_lookup.
  destruct (decide (0%nat = i)); [by eexists|].
  pose proof (wf_nonempty t W). rewrite decide_False by lia. eauto.
- intros j k c [Hc|(-> & -> & ->)]%extend_child.
  + destruct (wf_child t W j k c Hc) as (Hl & m & Hm & Hk). split; [done|].
    rewrite extend_lookup. pose proof (lookup_lt_Some _ _ _ Hm).
    destruct (decide (c = i)) as [->|]; [|rewrite decide_False by lia; eauto].
    eexists. split; [done|]. rewrite Hm in Hn. by injection Hn as ->.
  + split; [done|]. rewrite extend_lookup, decide_False, decide_True by lia. eauto.
- intros j l k k' c [Hc|(-> & -> & ->)]%extend_child [Hc'|(-> & -> & E)]%extend_child.
  + by apply (wf_inj t W _ _ _ _ c).
  + subst c. destruct (wf_child t W _ _ _ Hc) as (_ & m & Hm%lookup_lt_Some & _). lia.
  + destruct (wf_child t W _ _ _ Hc') as (_ & m & Hm%lookup_lt_Some & _). lia.
  + done.
Qed.

Lemma extend_walk p j :
walk t' 0 p = Some j ↔ walk t 0 p = Some j ∨ (p = pi ++ [key] ∧ j = length t).
Proof.
revert j. induction p as [|k p IH] using rev_ind; intros j.
- simpl. split; [auto|]. intros [?|[E _]]; [done|]. by destruct pi.
- rewrite !walk_snoc. setoid_rewrite extend_child. setoid_rewrite IH. split.
  + pose proof (lookup_lt_Some _ _ _ Hn) as Hlt.
    intros (l & [Hw|[Ep El]] & [Hc|(Ei & Ek & Ej)]).
    * eauto.
    * right. subst l k. split; [|done]. f_equal. by eapply walk_inj.
    * destruct Hc as (m & Hm%lookup_lt_Some & _). lia.
    * lia.
  + intros [(l & Hw & Hc)|[E ->]].
    * eauto.
    * apply app_inj_tail in E as [-> ->]. exists i. auto.
Qed.

Lemma extend_view p :
view t' p = if decide (p = pi ++ [key]) then Some (spec_node nd) else view t p.
Proof.
assert (¬ is_Some (walk t 0 (pi ++ [key]))) as Hno.
{ intros [j (l & Hw & m & Hm & Hc)%walk_snoc]. rewrite Hpi in Hw. injection Hw as <-.
  rewrite Hn in Hm. injection Hm as <-. rewrite Hdir in Hc. simpl in Hc. congruence. }
pose proof (lookup_lt_Some _ _ _ Hn). destruct (decide (p = pi ++ [key])) as [->|Hp].
{ apply (view_walk _ _ (length t)); [apply extend_walk; auto|].
  by rewrite extend_lookup, decide_False, decide_True by lia. }
unfold view. destruct (walk t 0 p) as [j|] eqn:Hw.
- rewrite (proj2 (extend_walk p j)) by auto. cbn [mbind option_bind].
  pose proof (walk_in t 0 p j W (wf_nonempty t W) Hw). rewrite extend_lookup.
  destruct (decide (j = i)) as [->|]; [|by rewrite decide_False by lia].
  rewrite Hn. unfold spec_node. simpl. by rewrite Hdir.
- destruct (walk t' 0 p) as [j|] eqn:Hw'; [|done].
  apply extend_walk in Hw'. naive_solver.
Qed.
End extend.
End walk.

(** ** Simulation *)

Section simulation.
Context {CT : CaseTable}.
Implicit Types (t : VfsTree) (m : SpecTree).

(** The arena [t] implements the abstract tree [m]. *)
Definition implements t m : Prop := wf t ∧ ∀ p, view t p = m !! p.

Lemma view_nil t : wf t → ∃ nm, view t [] = Some (nm, SDir).
Proof.
intros W. destruct (wf_root t W) as (n & Hn & Hd). exists (name n).
rewrite (view_walk t [] 0 n) by done. unfold spec_node. by destruct (entry n).
Qed.

(** Only a directory has something below it. *)
Lemma view_below t q p :
view t q = None ∨ (∃ nm k, view t q = Some (nm, k) ∧ k ≠ SDir) → below q p → view t p = None.
Proof.
intros H [[r ->] Hne]. unfold view. rewrite walk_app.
destruct r as [|k r]; [by rewrite app_nil_r in Hne|].
unfold view in H. destruct (walk t 0 q) as [i|]; [|done]. simpl in *.
destruct (t !! i) as [n|]; simpl in *; [|done].
destruct H as [?|(nm & k' & [= <- Hk] & Hne')]; [done|].
destruct (entry n); simpl in *; try congruence; by rewrite lookup_empty.
Qed.

Lemma child_spec t cur n key :
t !! cur = Some n → child t cur key = Some (children (entry n) !! key).
Proof. intros Hn. unfold child. rewrite Hn. simpl. destruct (entry n); simpl; by rewrite ?lookup_empty. Qed.

Lemma view_dir t p nm : view t p = Some (nm, SDir) →
∃ i n ch, walk t 0 p = Some i ∧ t !! i = Some n ∧ entry n = NDir ch ∧ name n = nm.
Proof.
intros (i & n & Hw & Hn & E)%view_Some. unfold spec_node in E.
destruct (entry n) as [|ch|] eqn:Ed; try done. exists i, n, ch. naive_solver.
Qed.

Lemma set_node_sim t m i pi n nm e :
implements t m → walk t 0 pi = Some i → t !! i = Some n → pi ≠ [] →
children e = ∅ → fold nm = fold (name n) →
∃ t', set_node t i nm e = Some t' ∧ length t' = length t ∧ walk t' 0 pi = Some i ∧
  wf t' ∧ ∀ p, view t' p = if decide (p = pi) then Some (nm, spec_kind e)
    else if decide (below pi p) then None else m !! p.
Proof.
intros [W V] Hw Hn Hpi He Hnm. unfold set_node. rewrite Hn. simpl.
pose proof (lookup_lt_Some _ _ _ Hn) as Hlt.
eexists. split; [done|]. rewrite length_insert. split; [done|]. split.
{ apply (replace_walk t i pi); try done. split; [done|]. by intros [_ ?]. }
split.
- eapply replace_wf; try done.
  + intros ->. exfalso. apply Hpi. by eapply walk_inj.
  + intros j k Hc. destruct (wf_child t W j k i Hc) as (_ & n' & Hn' & <-). simpl. congruence.
- intros p. rewrite (replace_view t i pi) by done. rewrite V. done.
Qed.

Lemma push_child_sim t m cur n ch pre nm e :
implements t m → walk t 0 pre = Some cur → t !! cur = Some n → entry n = NDir ch →
ch !! fold nm = None → children e = ∅ → len t < u32_max →
∃ t' i, (let '(t1, i) := push t nm e in t2 ← set_child t1 cur (fold nm) i; Some (t2, i))
          = Some (t', i) ∧ length t' = S (length t) ∧
  walk t' 0 (pre ++ [fold nm]) = Some i ∧ implements t' (<[pre ++ [fold nm] := (nm, spec_kind e)]> m).
Proof.
intros [W V] Hw Hn Hd Hfree He Hcap. pose proof (lookup_lt_Some _ _ _ Hn) as Hlt.
assert (Z.to_nat (as_u32 (len t)) = length t) as Hid.
{ unfold as_u32. rewrite Z.mod_small; [unfold len; lia|]. split; [apply len_nonneg|done]. }
unfold push, set_child. rewrite Hid, lookup_app_l, Hn by done. simpl. rewrite Hd.
eexists _, _. split; [done|]. rewrite length_insert, length_app. simpl. split; [lia|].
split; [apply (extend_walk t cur pre n ch); auto|]. split; [by eapply extend_wf|].
intros p. rewrite (extend_view t cur pre n ch) by done. simpl.
destruct (decide (p = pre ++ [fold nm])) as [->|Hp].
- by rewrite lookup_insert_eq.
- by rewrite lookup_insert_ne, V.
Qed.

Lemma ensure_dir_step_sim t m cur pre comp :
implements t m → walk t 0 pre = Some cur → (∃ nm, m !! pre = Some (nm, SDir)) →
len t < u32_max →
∃ t' i, ensure_dir_step t cur comp = Some (t', i) ∧ (length t' ≤ S (length t))%nat ∧
  walk t' 0 (pre ++ [fold comp]) = Some i ∧
  implements t' (spec_dir m (pre ++ [fold comp]) comp) ∧
  ∃ nm, spec_dir m (pre ++ [fold comp]) comp !! (pre ++ [fold comp]) = Some (nm, SDir).
Proof.
intros [W V] Hw [nm Hdir] Hcap. rewrite <- V in Hdir.
apply view_dir in Hdir as (i & n & ch & Hw' & Hn & Hd & _).
rewrite Hw in Hw'. injection Hw' as <-.
unfold ensure_dir_step. rewrite (child_spec t cur n) by done. rewrite Hd. simpl.
destruct (ch !! fold comp) as [c|] eqn:Hc.
- assert (child_of t cur (fold comp) c) as Hco by (exists n; by rewrite Hd).
  destruct (wf_child t W _ _ _ Hco) as (_ & nc & Hnc & Hkey).
  assert (walk t 0 (pre ++ [fold comp]) = Some c) as Hwc by (apply walk_snoc; eauto).
  assert (view t (pre ++ [fold comp]) = Some (spec_node nc)) as Hv by by eapply view_walk.
  rewrite Hnc. simpl. rewrite V in Hv. unfold spec_dir. rewrite Hv.
  destruct (is_dir (entry nc)) eqn:Hdc.
  + exists t, c. unfold spec_node in *. destruct (entry nc); try done. simpl in *.
    split; [done|]. split; [lia|]. split; [done|]. split; [done|]. eauto.
  + destruct (set_node_sim t m c (pre ++ [fold comp]) nc comp (NDir ∅))
      as (t' & -> & Hl & Hw' & W' & V'); try done; [by destruct pre|].
    assert (match spec_node nc with (_, SDir) => m
      | _ => <[pre ++ [fold comp] := (comp, SDir)]> m end
      = <[pre ++ [fold comp] := (comp, SDir)]> m) as ->.
    { unfold spec_node. by destruct (entry nc). }
    exists t', c. split; [done|]. split; [lia|]. split; [done|].
    split; [|exists comp; by rewrite lookup_insert_eq]. split; [done|].
    intros p. rewrite V'. destruct (decide (p = pre ++ [fold comp])) as [->|Hp].
    { by rewrite lookup_insert_eq. }
    rewrite lookup_insert_ne by done. destruct (decide (below (pre ++ [fold comp]) p)) as [Hb|]; [|done].
    rewrite <- V. symmetry. eapply view_below; [|exact Hb]. right.
    exists (name nc), (spec_kind (entry nc)). rewrite V, Hv. split; [done|].
    by destruct (entry nc).
- destruct (push_child_sim t m cur n ch pre comp (NDir ∅))
    as (t' & i & E & Hl & Hw' & Himp); try done.
  simpl in E. rewrite E. exists t', i.
  assert (m !! (pre ++ [fold comp]) = None) as Hnone.
  { rewrite <- V. unfold view. rewrite walk_app, Hw. simpl. rewrite Hn. simpl.
    rewrite Hd. simpl. by rewrite Hc. }
  unfold spec_dir. rewrite Hnone. split; [done|]. split; [lia|]. split; [done|].
  split; [done|]. exists comp. by rewrite lookup_insert_eq.
Qed.

Lemma ensure_dir_loop_sim t m cur pre cs :
implements t m → walk t 0 pre = Some cur → (∃ nm, m !! pre = Some (nm, SDir)) →
len t + len cs ≤ u32_max →
∃ t' i, ensure_dir_loop t cur cs = Some (t', i) ∧ (length t' ≤ length t + length cs)%nat ∧
  walk t' 0 (pre ++ folds cs) = Some i ∧ implements t' (spec_dirs m pre cs) ∧
  ∃ nm, spec_dirs m pre cs !! (pre ++ folds cs) = Some (nm, SDir).
Proof.
revert t m cur pre. induction cs as [|c cs IH]; intros t m cur pre Himp Hw Hdir Hcap.
- exists t, cur. simpl. rewrite app_nil_r. split; [done|]. split; [lia|]. done.
- rewrite len_cons in Hcap. pose proof (len_nonneg cs).
  destruct (ensure_dir_step_sim t m cur pre c) as (t1 & i & E & Hl & Hw1 & Himp1 & Hd1);
    try done; [lia|].
  destruct (IH t1 _ i (pre ++ [fold c]) Himp1 Hw1 Hd1) as (t' & j & E' & Hl' & Hw' & Himp' & Hd').
  { unfold len in *. lia. }
  rewrite <- app_assoc in *. exists t', j. cbn [ensure_dir_loop spec_dirs]. rewrite E. simpl.
  split; [done|]. split; [simpl; lia|]. done.
Qed.

Lemma split_last_snoc (cs : list str) leaf : split_last (cs ++ [leaf]) = Some (leaf, cs).
Proof. unfold split_last. rewrite rev_app_distr. simpl. by rewrite rev_involutive. Qed.

Lemma insert_leaf_sim t m cs leaf e :
implements t m → children e = ∅ → len t + len cs < u32_max →
∃ t', insert_leaf t (cs ++ [leaf]) e = Some t' ∧
  (length t' ≤ length t + length cs + 1)%nat ∧
  implements t' (spec_leaf m cs leaf (spec_kind e)).
Proof.
intros Himp He Hcap. unfold insert_leaf. rewrite split_last_snoc. simpl.
destruct (ensure_dir_loop_sim t m 0 [] cs) as (t1 & i & E & Hl & Hw & [W V] & nm & Hd); try done.
{ destruct (view_nil t) as [nm Hv]; [apply Himp|]. exists nm. by rewrite <- (proj2 Himp). }
{ lia. }
unfold ensure_dir_path. rewrite E. simpl in *. rewrite <- V in Hd.
apply view_dir in Hd as (i' & n & ch & Hw' & Hn & Hdn & _).
rewrite Hw in Hw'. injection Hw' as <-.
rewrite (child_spec t1 i n) by done. rewrite Hdn. simpl. unfold spec_leaf.
destruct (ch !! fold leaf) as [c|] eqn:Hc.
- assert (child_of t1 i (fold leaf) c) as Hco by (exists n; by rewrite Hdn).
  destruct (wf_child t1 W _ _ _ Hco) as (_ & nc & Hnc & Hkey).
  destruct (set_node_sim t1 (spec_dirs m [] cs) c (folds cs ++ [fold leaf]) nc leaf e)
    as (t' & E' & Hl' & _ & W' & V'); try done.
  { apply walk_snoc. eauto. }
  { by destruct (folds cs). }
  exists t'. split; [done|]. split; [lia|]. split; [done|]. intros p. rewrite V'.
  destruct (decide (p = folds cs ++ [fold leaf])) as [->|Hp]; [by rewrite lookup_insert_eq|].
  rewrite lookup_insert_ne by done. symmetry.
  destruct (decide (below (folds cs ++ [fold leaf]) p)) as [Hb|Hb].
  + apply map_lookup_filter_None. right. intros x _ Hx. by apply Hx.
  + rewrite map_lookup_filter. destruct (spec_dirs m [] cs !! p); simpl; [|done].
    by rewrite option_guard_True.
- destruct (push_child_sim t1 (spec_dirs m [] cs) i n ch (folds cs) leaf e)
    as (t' & j & E' & Hl' & _ & W' & V'); try done.
  { unfold len in *. lia. }
  simpl in E'. apply bind_Some in E' as (t2 & E2 & [= -> <-]).
  exists t'. split; [done|]. split; [lia|]. split; [done|]. intros p. rewrite V'.
  destruct (decide (p = folds cs ++ [fold leaf])) as [->|Hp]; [by rewrite !lookup_insert_eq|].
  rewrite !lookup_insert_ne by done. rewrite map_lookup_filter.
  destruct (spec_dirs m [] cs !! p) as [x|] eqn:Hx; simpl; [|done].
  rewrite option_guard_True; [done|]. simpl. intros Hb.
  enough (view t1 p = None) by (rewrite V in *; congruence).
  eapply view_below; [left|exact Hb]. unfold view. rewrite walk_app, Hw. simpl.
  rewrite Hn. simpl. rewrite Hdn. simpl. by rewrite Hc.
Qed.

(** Nodes an entry can add at most. *)
Definition entry_weight (le : Z * InputEntry) : nat :=
match vpath_components (vpath le.2) with Ok cs => length cs | Err _ => 0%nat end.
Definition weight (es : list (Z * InputEntry)) : nat := sum_list (entry_weight <$> es).

Lemma weight_cons le es : weight (le :: es) = (entry_weight le + weight es)%nat.
Proof. done. Qed.

(** The error an entry's path makes [build] return, if any. *)
Definition entry_error (le : Z * InputEntry) : option BuildError :=
match vpath_components (vpath le.2) with
| Err _ => Some BuildEscapesRoot
| Ok [] => Some BuildEmptyPath
| Ok _ => None
end.

Lemma build_entry_sim t m layer e :
implements t m → len t + Z.of_nat (entry_weight (layer, e)) ≤ u32_max →
match entry_error (layer, e) with
| Some err => build_entry t layer e = Some (Err err)
| None => ∃ t', build_entry t layer e = Some (Ok t') ∧
    (length t' ≤ length t + entry_weight (layer, e))%nat ∧
    implements t' (spec_entry m layer e)
end.
Proof.
intros Himp. unfold entry_weight, entry_error, build_entry, spec_entry, normalize_vpath. simpl.
destruct (vpath_components (vpath e)) as [cs|] eqn:Ecs; simpl; [|done]. intros Hcap.
apply vpath_components_ok in Ecs.
destruct (decide (join slash cs = [])) as [Hj|Hj].
{ apply join_comp_nil in Hj as ->; done. }
destruct cs as [|c cs' _] using rev_ind; [done|].
assert (cs' ++ [c] ≠ []) as Hne by (by destruct cs').
assert (∀ X (a b : X), match cs' ++ [c] with [] => a | _ :: _ => b end = b) as Hcase
  by (by destruct cs').
rewrite Hcase, split_last_snoc, split_slash_join by done.
rewrite length_app in Hcap. simpl in Hcap.
assert (len t + len cs' < u32_max) as Hcap' by (unfold len in *; lia).
destruct (kind e).
- destruct (insert_leaf_sim t m cs' c (NFile {| fn_source := source e; fn_size := size e;
    fn_mtime := mtime e; fn_layer := layer |})) as (t' & E & Hl & Himp'); try done.
  unfold insert_file. rewrite E. exists t'. split; [done|]. split; [rewrite length_app; simpl; lia|done].
- destruct (ensure_dir_loop_sim t m 0 [] (cs' ++ [c])) as (t' & i & E & Hl & _ & Himp' & _); try done.
  { destruct (view_nil t) as [nm Hv]; [apply Himp|]. exists nm. by rewrite <- (proj2 Himp). }
  { rewrite len_app. unfold len in *. simpl. lia. }
  unfold ensure_dir_path. rewrite E. by exists t'.
- destruct (insert_leaf_sim t m cs' c NTombstone) as (t' & E & Hl & Himp'); try done.
  unfold insert_tombstone. rewrite E. exists t'. split; [done|]. split; [rewrite length_app; simpl; lia|done].
Qed.

Lemma build_entries_sim t m es :
implements t m → len t + Z.of_nat (weight es) ≤ u32_max →
match head (omap entry_error es) with
| Some err => build_entries t es = Some (Err err)
| None => ∃ t', build_entries t es = Some (Ok t') ∧
    implements t' (fold_left (λ m le, spec_entry m le.1 le.2) es m)
end.
Proof.
revert t m. induction es as [|[layer e] es IH]; intros t m Himp Hcap; [simpl; by exists t|].
rewrite weight_cons in Hcap.
pose proof (build_entry_sim t m layer e Himp ltac:(lia)) as H.
cbn [build_entries omap list_omap]. destruct (entry_error (layer, e)) as [err|]; simpl.
- by rewrite H.
- destruct H as (t' & -> & Hl & Himp'). simpl. apply IH; [done|]. unfold len in *. lia.
Qed.

Lemma new_tree_implements : implements new_tree spec_new.
Proof.
split.
- split.
  + eexists. done.
  + intros i k c (n & Hn & Hc). destruct i; [|done]. injection Hn as <-. simpl in Hc. by rewrite lookup_empty in Hc.
  + intros i j k l c (n & Hn & Hc). destruct i; [|done]. injection Hn as <-. simpl in Hc. by rewrite lookup_empty in Hc.
- intros p. destruct p as [|k p]; [done|]. unfold view, spec_new. simpl.
  rewrite lookup_empty. simpl. by rewrite lookup_singleton_ne.
Qed.

Lemma find_loop_walk t cur cs :
wf t → (cur < length t)%nat → find_loop t cur cs = Some (walk t cur (folds cs)).
Proof.
intros W. revert cur. induction cs as [|c cs IH]; intros cur Hcur; [done|].
simpl. destruct (lookup_lt_is_Some_2 t cur Hcur) as [n Hn]. rewrite Hn. simpl.
destruct (entry n) as [|ch|] eqn:E; simpl; try by rewrite lookup_empty.
destruct (ch !! fold c) as [i|] eqn:Hc; simpl; [|done]. apply IH.
destruct (wf_child t W cur (fold c) i) as (_ & m & Hm & _).
{ exists n. by rewrite E. }
by apply lookup_lt_Some in Hm.
Qed.

Lemma find_walk t cs :
wf t → Forall comp_ok cs → find t (join slash cs) = Some (walk t 0 (folds cs)).
Proof.
intros W H. unfold find. destruct (decide (join slash cs = [])) as [Hj|Hj].
- apply join_comp_nil in Hj as ->; done.
- rewrite split_slash_join; [|by intros ->|done].
  apply find_loop_walk; [done|by apply wf_nonempty].
Qed.

Lemma resolve_implements blake3 t m v : implements t m → resolve blake3 t v = Some (spec_resolve blake3 m v).
Proof.
intros [W V]. unfold resolve, spec_resolve, normalize_vpath.
destruct (vpath_components v) as [cs|] eqn:E; simpl; [|done].
apply vpath_components_ok in E. rewrite find_walk by done. rewrite <- V. unfold view. simpl.
destruct (walk t 0 (folds cs)) as [i|] eqn:Hw; simpl; [|done].
apply walk_in in Hw as [_ Hi]; [|done|by apply wf_nonempty].
destruct (lookup_lt_is_Some_2 t i Hi) as [n ->]. simpl. unfold spec_node.
by destruct (entry n).
Qed.
End simulation.

(** ** Last writer wins, on the abstract tree *)

Section last_writer.
Context {CT : CaseTable}.

(** An entry that can change what a file path [p] shows: a file or tombstone
  at, above or below it, a directory at or below it. *)
Definition hides (p : list str) (le : Z * InputEntry) : Prop :=
match vpath_components (vpath le.2) with
| Err _ => False
| Ok cs => p `prefix_of` folds cs ∨ (kind le.2 ≠ KDir ∧ folds cs `prefix_of` p)
end.

Lemma spec_dirs_other m pre cs p :
¬ p `prefix_of` pre ++ folds cs → spec_dirs m pre cs !! p = m !! p.
Proof.
revert m pre. induction cs as [|c cs IH]; intros m pre Hp; [done|]. simpl.
assert (pre ++ folds (c :: cs) = (pre ++ [fold c]) ++ folds cs) as E
  by (by rewrite <- app_assoc).
rewrite E in Hp.
rewrite IH by done. unfold spec_dir.
assert (pre ++ [fold c] ≠ p) by (intros <-; apply Hp; by apply prefix_app_r).
destruct (m !! (pre ++ [fold c])) as [[? []]|]; try done; by rewrite lookup_insert_ne.
Qed.

Lemma spec_leaf_other m cs leaf k p :
¬ p `prefix_of` folds (cs ++ [leaf]) → ¬ folds (cs ++ [leaf]) `prefix_of` p →
spec_leaf m cs leaf k !! p = m !! p.
Proof.
unfold folds. rewrite fmap_app. simpl. fold (folds cs). intros H1 H2. unfold spec_leaf.
rewrite lookup_insert_ne by (intros <-; by apply H1).
rewrite map_lookup_filter, spec_dirs_other; [|intros H; apply H1; by apply prefix_app_r].
destruct (m !! p); simpl; [|done]. rewrite option_guard_True; [done|].
simpl. intros [Hb _]. done.
Qed.

Lemma spec_leaf_same m cs leaf k :
spec_leaf m cs leaf k !! folds (cs ++ [leaf]) = Some (leaf, k).
Proof.
unfold spec_leaf. assert (folds (cs ++ [leaf]) = folds cs ++ [fold leaf]) as ->
  by (unfold folds; by rewrite fmap_app). by rewrite lookup_insert_eq.
Qed.

Lemma spec_entry_other m le p : ¬ hides p le → spec_entry m le.1 le.2 !! p = m !! p.
Proof.
destruct le as [layer e]. unfold hides, spec_entry. simpl.
destruct (vpath_components (vpath e)) as [cs|]; [|done]. intros H.
destruct cs as [|leaf cs _] using rev_ind; [by destruct (kind e)|].
rewrite split_last_snoc. destruct (kind e).
- apply spec_leaf_other; naive_solver.
- apply spec_dirs_other. naive_solver.
- apply spec_leaf_other; naive_solver.
Qed.

Lemma spec_entries_other m es p :
Forall (λ le, ¬ hides p le) es →
fold_left (λ m le, spec_entry m le.1 le.2) es m !! p = m !! p.
Proof.
intros H. revert m. induction H as [|le es Hle _ IH]; intros m; [done|]. simpl.
by rewrite IH, spec_entry_other.
Qed.

Lemma build_implements layers t :
1 + Z.of_nat (weight (layer_entries layers)) ≤ u32_max →
build layers = Some (Ok t) → implements t (spec_build (layer_entries layers)).
Proof.
intros Hcap E. pose proof (build_entries_sim new_tree spec_new (layer_entries layers)
  new_tree_implements Hcap) as H. unfold build, spec_build in *.
destruct (head _); [congruence|]. destruct H as (t' & E' & Himp). congruence.
Qed.
End last_writer.

(** ** Listing and walking the arena *)

Section listing.
Context {CT : CaseTable}.

(** What a listing shows for an entry of the abstract tree. *)
Definition spec_list_entry (e : str * SpecKind) : TreeEntry :=
match e.2 with
| SDir => {| te_name := e.1; te_kind := KDir; te_size := 0; te_mtime := 0 |}
| SFile f => {| te_name := e.1; te_kind := KFile; te_size := fn_size f; te_mtime := fn_mtime f |}
| STombstone => {| te_name := e.1; te_kind := KTombstone; te_size := 0; te_mtime := 0 |}
end.

Lemma list_entry_spec n : list_entry n = spec_list_entry (spec_node n).
Proof. unfold list_entry, spec_list_entry, spec_node. by destruct (entry n). Qed.

#[export] Instance ci_le_total : Total ci_le.
Proof. intros a b. apply (total str_le). Qed.
#[export] Instance ci_le_trans : Transitive ci_le.
Proof. intros a b c. apply (transitivity (R := str_le)). Qed.

Lemma merge_sort_filter_elem (f : TreeEntry → bool) (es : list TreeEntry) e :
e ∈ merge_sort ci_le (List.filter f es) ↔ e ∈ es ∧ f e = true.
Proof.
rewrite (merge_sort_Permutation ci_le). rewrite !list_elem_of_In. apply filter_In.
Qed.

Lemma children_nodes t i n ch :
wf t → t !! i = Some n → entry n = NDir ch →
∃ ns, mapM (λ kc : str * nat, t !! kc.2) (bt_iter ch) = Some ns ∧
  (λ n, fold (name n)) <$> ns = (bt_iter ch).*1 ∧
  ∀ m, m ∈ ns ↔ ∃ k c, child_of t i k c ∧ t !! c = Some m.
Proof.
intros W Hn Hd.
assert (∀ l : list (str * nat), (∀ k c, (k, c) ∈ l → child_of t i k c) →
  ∃ ns, mapM (λ kc : str * nat, t !! kc.2) l = Some ns ∧
    (λ n, fold (name n)) <$> ns = l.*1 ∧
    ∀ m, m ∈ ns ↔ ∃ k c, (k, c) ∈ l ∧ t !! c = Some m) as Hl.
{ induction l as [|[k c] l IH]; intros H.
  - exists []. split; [done|]. split; [done|]. intros m.
    split; [by intros ?%elem_of_nil|]. intros (? & ? & ?%elem_of_nil & _). done.
  - destruct IH as (ns & E & Ek & Hns); [intros; apply H; by right|].
    destruct (wf_child t W i k c) as (_ & m & Hm & Hk); [apply H; by left|].
    exists (m :: ns). split; [simpl; rewrite Hm; simpl; by rewrite E|].
    split; [rewrite !fmap_cons, Ek; simpl; by rewrite Hk|]. intros m'. rewrite elem_of_cons, Hns. split.
    + intros [->|(k' & c' & ? & ?)]; [exists k, c|exists k', c']; split; try done; [by left|by right].
    + intros (k' & c' & [[= -> ->]|?]%elem_of_cons & ?); [left; congruence|right; eauto]. }
destruct (Hl (bt_iter ch)) as (ns & E & Ek & Hns).
{ intros k c Hkc%bt_iter_elem. exists n. by rewrite Hd. }
exists ns. split; [done|]. split; [done|]. intros m. rewrite Hns.
assert (∀ k c, (k, c) ∈ bt_iter ch ↔ child_of t i k c) as Hc; [|by setoid_rewrite Hc].
intros k c. rewrite bt_iter_elem. unfold child_of. rewrite Hn.
split; [intros; exists n; by rewrite Hd|]. intros (? & [= <-] & Hc). by rewrite Hd in Hc.
Qed.

Lemma view_child t p i k c m :
walk t 0 p = Some i → child_of t i k c → t !! c = Some m →
view t (p ++ [k]) = Some (spec_node m).
Proof. intros. eapply view_walk; [|done]. apply walk_snoc. eauto. Qed.
End listing.
