(* ===== verification/TreeProps.v ===== *)
(** TreeProps: what the merged tree guarantees to its callers: which layer's
    file a path resolves to, what a directory listing holds, what the
    post-order walk visits, and that source blobs round-trip. *)

From S2P Require Import Prelude Text Path Wildcard Tree TreeSpec.

(** ** The walk visits the subtree *)

Section walk_from.
Context {CT : CaseTable} (blake3 : bytes → bytes).

(** Children are visited before the directory that holds them. *)
Definition children_first (l : list WalkNode) : Prop :=
∀ l1 w l2, l = l1 ++ w :: l2 →
∀ k c, (k, c) ∈ wn_children w → c ∈ wn_id <$> l1.

Lemma walk_inj_from t i p q j :
wf t → (i < length t)%nat → walk t i p = Some j → walk t i q = Some j → p = q.
Proof.
intros W Hi. revert q j. induction p as [|k p IH] using rev_ind; intros q j Hp Hq.
- destruct q as [|l q _] using rev_ind; [done|].
  apply walk_snoc in Hq as (j' & Hj & Hc). apply (wf_child t W) in Hc as [? _].
  apply walk_in in Hj as [? _]; [|done..]. injection Hp as <-. lia.
- apply walk_snoc in Hp as (j' & Hj & Hc). destruct q as [|l q _] using rev_ind.
  + injection Hq as <-. apply (wf_child t W) in Hc as [? _].
    apply walk_in in Hj as [? _]; [|done..]. lia.
  + apply walk_snoc in Hq as (j2 & Hj' & Hc').
    destruct (wf_inj t W _ _ _ _ _ Hc Hc') as [-> ->]. by rewrite (IH q j2 Hj Hj').
Qed.

Lemma walk_cons t i k p j :
walk t i (k :: p) = Some j ↔ ∃ c, child_of t i k c ∧ walk t c p = Some j.
Proof.
simpl. unfold child_of. rewrite bind_Some. setoid_rewrite bind_Some. naive_solver.
Qed.

(** The visits of one subtree: each node below [i] once, children first. *)
Definition visits (t : VfsTree) (i : nat) (l : list WalkNode) : Prop :=
(∀ j, j ∈ wn_id <$> l ↔ ∃ p, walk t i p = Some j) ∧ NoDup (wn_id <$> l) ∧ children_first l.

Lemma children_first_app l1 l2 : children_first l1 → children_first l2 → children_first (l1 ++ l2).
Proof.
intros H1 H2 a w b E k c Hkc. apply app_eq_app in E as (x & [[-> E]|[-> E]]).
- destruct x as [|y x]; simpl in E.
  + eapply (H2 [] w b) in Hkc; [by apply elem_of_nil in Hkc|done].
  + injection E as -> ->. by eapply H1.
- rewrite fmap_app. apply elem_of_app. right. by eapply (H2 x).
Qed.

(** The subtrees of distinct children of [i], one after the other. *)
Lemma visits_children t i fuel (l : list (str * nat)) :
wf t → (i < length t)%nat → NoDup l.*1 → (∀ k c, (k, c) ∈ l → child_of t i k c) →
(∀ k c, child_of t i k c → ∃ v, walk_from blake3 fuel t c k = Some v ∧ visits t c v) →
∃ sub, mapM (λ kc : str * nat, walk_from blake3 fuel t kc.2 kc.1) l = Some sub ∧
  (∀ j, j ∈ wn_id <$> concat sub ↔ ∃ k c p, (k, c) ∈ l ∧ walk t c p = Some j) ∧
  NoDup (wn_id <$> concat sub) ∧ children_first (concat sub).
Proof.
intros W Hi Hnd Hl Hsub. induction l as [|[k c] l IH].
{ exists []. split; [done|]. split; [|split; [constructor|by intros [] ? ? ?]].
  intros j. split; [by intros ?%elem_of_nil|]. intros (? & ? & ? & ?%elem_of_nil & _). done. }
apply NoDup_cons in Hnd as [Hk Hnd].
destruct IH as (sub & E & Hmem & Hn & Hcf); [done|intros; apply Hl; by right|].
assert (child_of t i k c) as Hkc by (apply Hl; by left).
destruct (Hsub k c Hkc) as (v & Ev & Hv & Hnv & Hcv).
exists (v :: sub). simpl. rewrite Ev. simpl. rewrite E. split; [done|].
rewrite fmap_app. split; [|split; [|by apply children_first_app]].
- intros j. rewrite elem_of_app, Hv, Hmem. setoid_rewrite elem_of_cons. split.
  + intros [[p ?]|(k' & c' & p & ? & ?)]; [exists k, c, p|exists k', c', p]; auto.
  + intros (k' & c' & p & [[= -> ->]|?] & ?); [left|right]; eauto.
- apply NoDup_app. split; [done|]. split; [|done]. intros j [p Hp]%Hv (k' & c' & q & Hin & Hq)%Hmem.
  apply Hk. apply list_elem_of_fmap. exists (k', c'). split; [|done]. simpl.
  assert (k :: p = k' :: q) as [=]; [|done].
  apply (walk_inj_from t i _ _ j W Hi); apply walk_cons; eauto.
  exists c'. split; [|done]. apply Hl. by right.
Qed.

Lemma walk_from_visits t fuel i folded :
wf t → (i < length t)%nat → (length t - i ≤ fuel)%nat →
∃ l, walk_from blake3 fuel t i folded = Some l ∧ visits t i l.
Proof.
intros W. revert i folded. induction fuel as [|fuel IH]; intros i folded Hi Hf; [lia|].
destruct (lookup_lt_is_Some_2 t i Hi) as [n Hn].
assert (∀ k c, child_of t i k c → ∃ v, walk_from blake3 fuel t c k = Some v ∧ visits t c v) as Hsub.
{ intros k c Hc. destruct (wf_child t W i k c Hc) as (? & m & Hm%lookup_lt_Some & _).
  apply IH; lia. }
destruct (visits_children t i fuel (bt_iter (children (entry n)))) as (sub & E & Hmem & Hnd & Hcf);
  [done|done|apply bt_iter_nodup| |done|].
{ intros k c ?%bt_iter_elem. by exists n. }
assert (walk_from blake3 (S fuel) t i folded = Some (concat sub ++ [walk_node blake3 n i folded])) as Hw.
{ cbn [walk_from]. rewrite Hn. simpl. destruct (entry n); simpl in E; [|by rewrite E|];
    injection E as <-; done. }
exists (concat sub ++ [walk_node blake3 n i folded]). split; [done|].
assert (∀ j, j ∈ wn_id <$> concat sub → (i < j)%nat) as Hgt.
{ intros j (k & c & p & Hkc%bt_iter_elem & Hp)%Hmem.
  destruct (wf_child t W i k c) as (? & m & Hm%lookup_lt_Some & _); [by exists n|].
  apply walk_in in Hp; [lia|done..]. }
unfold visits. rewrite fmap_app.
change (wn_id <$> [walk_node blake3 n i folded]) with [i]. split; [|split].
- intros j. rewrite elem_of_app, Hmem, list_elem_of_singleton. split.
  + intros [(k & c & p & Hkc%bt_iter_elem & Hp)| ->]; [|by exists []].
    exists (k :: p). apply walk_cons. exists c. split; [by exists n|done].
  + intros [[|k p] Hp]; [right; by injection Hp|]. left.
    apply walk_cons in Hp as (c & (n' & Hn' & Hc) & Hp). exists k, c, p.
    rewrite bt_iter_elem. split; [congruence|done].
- apply NoDup_app. split; [done|]. split; [|apply NoDup_singleton].
  intros j Hj ->%list_elem_of_singleton. apply Hgt in Hj. lia.
- intros l1 w l2 El k c Hkc. destruct l2 as [|x l2 _] using rev_ind.
  + apply app_inj_tail in El as [<- <-]. apply Hmem. exists k, c, [].
    split; [|done]. simpl in Hkc. by destruct (entry n).
  + assert (concat sub = l1 ++ w :: l2) as E'.
    { change (l1 ++ w :: l2 ++ [x]) with (l1 ++ (w :: l2) ++ [x]) in El.
      rewrite app_assoc in El. by apply app_inj_tail in El as [-> _]. }
    by eapply Hcf.
Qed.
End walk_from.

(** ** Properties *)

Section properties.
Context {CT : CaseTable} (blake3 : bytes → bytes).

(** C7: [build] never panics and implements the layered-tree contract: it
  fails exactly on the first entry whose path is empty or escapes its root,
  and otherwise every [resolve] on the arena it returns gives the answer of
  the abstract path map obtained by letting each entry, in layer order,
  override what came before. The bound is the [u32] node index. *)
Theorem build_refines layers :
1 + Z.of_nat (weight (layer_entries layers)) ≤ u32_max →
match head (omap entry_error (layer_entries layers)) with
| Some err => build layers = Some (Err err)
| None => ∃ t, build layers = Some (Ok t) ∧ wf t ∧
    ∀ v, resolve blake3 t v = Some (spec_resolve blake3 (spec_build (layer_entries layers)) v)
end.
Proof.
intros Hcap. pose proof (build_entries_sim new_tree spec_new (layer_entries layers)
  new_tree_implements Hcap) as H. unfold build, spec_build.
destruct (head _); [done|]. destruct H as (t & E & Himp). exists t.
split; [done|]. split; [apply Himp|]. intros v. by apply resolve_implements.
Qed.

(** Property: the last layer that says something about a path wins, whatever case
  it or the caller spells it in: if a file entry is followed by no entry
  that hides its path, then resolving any spelling of the path gives that
  entry's source, size, mtime and layer. *)
Theorem last_layer_wins layers t pre layer e post cs v ds :
1 + Z.of_nat (weight (layer_entries layers)) ≤ u32_max →
build layers = Some (Ok t) →
layer_entries layers = pre ++ (layer, e) :: post →
kind e = KFile → vpath_components (vpath e) = Ok cs → cs ≠ [] →
Forall (λ le, ¬ hides (folds cs) le) post →
vpath_components v = Ok ds → folds ds = folds cs →
resolve blake3 t v = Some (RFile (source e) (size e) (mtime e) layer
  (compute_cache_key blake3 (source e) (size e) (mtime e))).
Proof.
intros Hcap Hb Hes Hk Hcs Hne Hpost Hds Hfold.
rewrite (resolve_implements _ _ _ _ (build_implements layers t Hcap Hb)).
unfold spec_resolve. rewrite Hds, Hfold. unfold spec_build. rewrite Hes, fold_left_app.
cbn [fold_left fst snd]. rewrite spec_entries_other by done.
unfold spec_entry. rewrite Hcs, Hk.
destruct cs as [|leaf cs _] using rev_ind; [done|].
by rewrite split_last_snoc, spec_leaf_same.
Qed.

(** Property: a directory listing is exactly the directory's children, each with
  its stored spelling and metadata and filtered by the wildcard, in
  ascending case-insensitive order and with no two names equal up to case;
  a path with nothing there is [NotFound], a file or tombstone
  [NotADirectory]; no listing panics. *)
Theorem readdir_spec layers t v flt cs :
1 + Z.of_nat (weight (layer_entries layers)) ≤ u32_max →
build layers = Some (Ok t) → vpath_components v = Ok cs →
match spec_build (layer_entries layers) !! folds cs with
| None => readdir t v flt = Some (Err NotFound)
| Some (_, SDir) => ∃ out, readdir t v flt = Some (Ok out) ∧
    StronglySorted ci_le out ∧ NoDup ((λ e, fold (te_name e)) <$> out) ∧
    ∀ e, e ∈ out ↔ keep flt e = true ∧
      ∃ k x, spec_build (layer_entries layers) !! (folds cs ++ [k]) = Some x ∧
        e = spec_list_entry x
| Some _ => readdir t v flt = Some (Err NotADirectory)
end.
Proof.
intros Hcap Hb Hcs. destruct (build_implements layers t Hcap Hb) as [W V].
rewrite <- (V (folds cs)). unfold readdir, normalize_vpath. rewrite Hcs. simpl.
apply vpath_components_ok in Hcs. rewrite find_walk by done.
unfold view. simpl. destruct (walk t 0 (folds cs)) as [i|] eqn:Hw; simpl; [|done].
destruct (walk_in t 0 _ i W (wf_nonempty t W) Hw) as [_ Hi].
destruct (lookup_lt_is_Some_2 t i Hi) as [n Hn]. rewrite Hn. simpl. unfold spec_node.
destruct (entry n) as [|ch|] eqn:Hd; simpl; [done| |done].
destruct (children_nodes t i n ch W Hn Hd) as (ns & E & Ek & Hns).
rewrite E. simpl. eexists. split; [done|].
split; [apply StronglySorted_merge_sort; apply _|]. split.
- assert (NoDup ((λ e, fold (te_name e)) <$> (list_entry <$> ns))) as Hall.
  { rewrite <- list_fmap_compose.
    assert ((λ e, fold (te_name e)) ∘ list_entry <$> ns = (λ n, fold (name n)) <$> ns) as ->.
    { apply list_fmap_ext. intros ? m _. simpl. unfold list_entry. by destruct (entry m). }
    rewrite Ek. apply bt_iter_nodup. }
  rewrite (merge_sort_Permutation ci_le). revert Hall.
  generalize (list_entry <$> ns). intros l Hl.
  eapply sublist_NoDup; [exact Hl|]. apply fmap_sublist. clear.
  induction l as [|x l IH]; simpl; [constructor|]. destruct (keep flt x); by constructor.
- intros e. rewrite merge_sort_filter_elem, list_elem_of_fmap. split.
  + intros [(m & -> & (k & c & Hc & Hm)%Hns) Hk]. split; [done|].
    exists k, (spec_node m). rewrite <- V. split; [by eapply view_child|apply list_entry_spec].
  + intros [Hk (k & x & Hx & ->)]. rewrite <- V in Hx.
    apply view_Some in Hx as (j & m & (i' & Hw' & Hc)%walk_snoc & Hm & ->).
    rewrite Hw in Hw'. injection Hw' as <-. split; [|done].
    exists m. rewrite list_entry_spec. split; [done|]. apply Hns. eauto.
Qed.

(** Property: [walk_postorder] terminates without a panic on every tree [build]
  returns, visits each node that a path reaches exactly once and no other,
  and visits the children of a directory before the directory. *)
Theorem walk_postorder_spec layers t :
1 + Z.of_nat (weight (layer_entries layers)) ≤ u32_max →
build layers = Some (Ok t) →
∃ l, walk_postorder blake3 t = Some l ∧ NoDup (wn_id <$> l) ∧ children_first l ∧
  ∀ j, j ∈ wn_id <$> l ↔ ∃ p, walk t 0 p = Some j.
Proof.
intros Hcap Hb. destruct (build_implements layers t Hcap Hb) as [W _].
destruct (walk_from_visits blake3 t (length t) 0 [] W (wf_nonempty t W)) as (l & E & Hv & Hn & Hc);
  [lia|]. by exists l.
Qed.

(** Property: a zip-window source blob decodes to the offset and container it was
  encoded from, for every [u64] offset; a blob that does not start with a
  NUL byte (a disk path) decodes as itself. *)
Theorem source_roundtrip offset container :
in_u64 offset →
decode (encode_zip_window offset container) = ZipWindow offset (utf8 container) ∧
∀ blob, head blob ≠ Some 0 → decode blob = Disk blob.
Proof.
intros Ho. split.
- unfold decode, encode_zip_window. pose proof (len_nonneg (utf8 container)).
  assert ((9 <=? len (0 :: to_le 8 offset ++ utf8 container)) = true) as ->.
  { apply Z.leb_le. rewrite len_cons, len_app, len_to_le. lia. }
  assert (take 8 (to_le 8 offset ++ utf8 container) = to_le 8 offset) as -> by done.
  assert (drop 8 (to_le 8 offset ++ utf8 container) = utf8 container) as -> by done.
  by rewrite from_to_le_small.
- intros [|[| |] blob] Hb; done.
Qed.
End properties.

(** ** Witnesses *)

Module TreeDemo.
Definition no_hash (b : bytes) : bytes := b.
Definition mk (p : string) (k : EntryKind) (sz : Z) : InputEntry :=
{| vpath := lit p; kind := k; source := lit p; size := sz; mtime := 7 |}.
Definition base : Layer :=
{| id := 0; entries := [mk "Data/a.esp" KFile 10; mk "Data/old.txt" KFile 1] |}.
Definition mod1 : Layer :=
{| id := 1; entries := [mk "data\A.ESP" KFile 20; mk "DATA/old.txt" KTombstone 0] |}.
Definition tree : VfsTree :=
match build (CT := demo_table) [base; mod1] with Some (Ok t) => t | _ => [] end.
End TreeDemo.

Lemma build_refines_witness : ∃ t, build (CT := demo_table) [TreeDemo.base; TreeDemo.mod1] = Some (Ok t) ∧
  wf (CT := demo_table) t ∧ ∀ v, resolve (CT := demo_table) TreeDemo.no_hash t v =
    Some (spec_resolve (CT := demo_table) TreeDemo.no_hash
      (spec_build (CT := demo_table) (layer_entries [TreeDemo.base; TreeDemo.mod1])) v).
Proof.
  exact (build_refines (CT := demo_table) TreeDemo.no_hash [TreeDemo.base; TreeDemo.mod1]
    ltac:(vm_compute; discriminate)).
Defined.

Lemma last_layer_wins_witness :
  resolve (CT := demo_table) TreeDemo.no_hash TreeDemo.tree (lit "DATA/A.esp") =
    Some (RFile (lit "data\A.ESP") 20 7 1
      (compute_cache_key TreeDemo.no_hash (lit "data\A.ESP") 20 7)).
Proof.
  apply (last_layer_wins (CT := demo_table) TreeDemo.no_hash [TreeDemo.base; TreeDemo.mod1] TreeDemo.tree
    [(0, TreeDemo.mk "Data/a.esp" KFile 10); (0, TreeDemo.mk "Data/old.txt" KFile 1)] 1
    (TreeDemo.mk "data\A.ESP" KFile 20) [(1, TreeDemo.mk "DATA/old.txt" KTombstone 0)]
    [lit "data"; lit "A.ESP"] _ [lit "DATA"; lit "A.esp"]);
    try (vm_compute; reflexivity); try (vm_compute; discriminate).
  constructor; [|constructor]. unfold hides.
  assert (vpath_components (vpath (TreeDemo.mk "DATA/old.txt" KTombstone 0)) =
    Ok [lit "DATA"; lit "old.txt"]) as E by (vm_compute; reflexivity).
  cbn [snd]. rewrite E. intros [[r Hr]|[_ [r Hr]]]; vm_compute in Hr; discriminate.
Defined.

Lemma readdir_spec_witness :
  ∃ out, readdir (CT := demo_table) TreeDemo.tree (lit "data") (Some (lit "*.esp")) = Some (Ok out) ∧
    StronglySorted (ci_le (CT := demo_table)) out ∧
    NoDup ((λ e, fold (CT := demo_table) (te_name e)) <$> out) ∧
    ∀ e, e ∈ out ↔ keep (CT := demo_table) (Some (lit "*.esp")) e = true ∧
      ∃ k x, spec_build (CT := demo_table) (layer_entries [TreeDemo.base; TreeDemo.mod1]) !!
        (folds (CT := demo_table) [lit "data"] ++ [k]) = Some x ∧ e = spec_list_entry x.
Proof.
  exact (readdir_spec (CT := demo_table) [TreeDemo.base; TreeDemo.mod1] TreeDemo.tree (lit "data")
    (Some (lit "*.esp")) [lit "data"] ltac:(vm_compute; discriminate) ltac:(vm_compute; reflexivity)
    ltac:(vm_compute; reflexivity)).
Defined.

Lemma walk_postorder_spec_witness :
  ∃ l, walk_postorder TreeDemo.no_hash TreeDemo.tree = Some l ∧ NoDup (wn_id <$> l) ∧
    children_first l ∧ ∀ j, j ∈ wn_id <$> l ↔ ∃ p, walk TreeDemo.tree 0 p = Some j.
Proof.
  exact (walk_postorder_spec (CT := demo_table) TreeDemo.no_hash [TreeDemo.base; TreeDemo.mod1]
    TreeDemo.tree ltac:(vm_compute; discriminate) ltac:(vm_compute; reflexivity)).
Defined.

Lemma source_roundtrip_witness :
  decode (encode_zip_window 0x100000007 (lit "C:\base.zip")) =
    ZipWindow 0x100000007 (utf8 (lit "C:\base.zip")) ∧
  ∀ blob, head blob ≠ Some 0 → decode blob = Disk blob.
Proof. apply (source_roundtrip 0x100000007 (lit "C:\base.zip")). unfold in_u64, u64_max. lia. Defined.
