(* ===== verification/FinalName.v ===== *)
(** FinalName: the name a handle is finally known by, and the client's cache
    of stored spellings (rust/crates/vfs-core/src/finalname.rs). *)

From S2P Require Import Prelude Text Path.

(** ** Model *)

Definition colon : char := 58.

Definition components (path : str) : list str :=
  let s := match strip_prefix [92; 63; 63; 92] path with
           | Some r => r
           | None => match strip_prefix [92; 92; 63; 92] path with
                     | Some r => r
                     | None => path
                     end
           end in
  pieces s.

Section final_name.
Context {CT : CaseTable}.

(** [a.iter().zip(b).all(|(x, y)| fold(x) == y)]: the shorter list decides. *)
Fixpoint zip_folds_to (a b : list str) : bool :=
match a, b with
| x :: a, y :: b => str_eqb (fold x) y && zip_folds_to a b
| _, _ => true
end.

Definition opened_tail (opened : str) (under : list str) : option (list str) :=
let asked := components opened in
if len asked <? len under then None
else
  let tail := drop (length asked - length under) asked in
  if zip_folds_to tail under then Some tail else None.

(** Whether a declared root spelling is the prefix the caller used. *)
Definition root_matches (asked_prefix : list str) (r : str) : bool :=
let comps := components r in
(len comps =? len asked_prefix) && zip_folds_to comps asked_prefix.

(** The declared spelling of the root that names it in the answer. *)
Definition chosen_root (opened : str) (under : list str) (roots : list str) : str :=
let asked := components opened in
let asked_prefix :=
  match opened_tail opened under with
  | Some _ => fold <$> take (length asked - length under) asked
  | None => []
  end in
let r := match List.find (root_matches asked_prefix) roots with
         | Some r => Some r
         | None => head roots
         end in
match r with Some r => join backslash (components r) | None => [] end.

(** How the [i]-th component is spelled. *)
Definition spelled (tail : option (list str)) (stored : nat → option str) (i : nat) (folded : str) : str :=
match stored i, tail with
| Some name, _ => name
| None, Some tail => default [] (tail !! i)
| None, None => folded
end.

Fixpoint push_spelled (out : str) (tail : option (list str)) (stored : nat → option str)
  (i : nat) (under : list str) : str :=
match under with
| [] => out
| u :: under => push_spelled (out ++ backslash :: spelled tail stored i u) tail stored (S i) under
end.

(** [out.ends_with(':')] of a two-byte string. *)
Definition bare_drive (out : str) : bool :=
(str_len out =? 2) && match last out with Some c => c =? colon | None => false end.

Definition final_dos_path (opened : str) (under : list str) (roots : list str)
  (stored : nat → option str) : str :=
let out := push_spelled (chosen_root opened under roots) (opened_tail opened under) stored 0 under in
if bare_drive out then out ++ [backslash] else out.

Definition final_dos_path_by_listing (opened : str) (under : list str) (roots : list str)
  (list : str → option (list str)) : str :=
final_dos_path opened under roots (λ i,
  names ← list (join slash (take i under));
  List.find (λ n, str_eqb (fold n) (default [] (under !! i))) names).
End final_name.

(** *** The name cache *)

Record NameCache := {
  ttl_ms : Z; capacity : Z; names : gmap (Z * str) (str * Z) }.

Definition NameCache_new (ttl cap : Z) : NameCache :=
  {| ttl_ms := ttl; capacity := Z.max cap 1; names := ∅ |}.

Definition cache_len (c : NameCache) : Z := Z.of_nat (size (names c)).

(** The path so far, extended by a component. *)
Definition extend_path (path comp : str) : str :=
  (if decide (path = []) then path else path ++ [slash]) ++ comp.

Fixpoint leading_loop (c : NameCache) (root : Z) (path : str) (under : list str) (now_ms : Z) : list str :=
  match under with
  | [] => []
  | comp :: under =>
      let path := extend_path path comp in
      match names c !! (root, path) with
      | Some (name, at_ms) =>
          if sat_sub now_ms at_ms <? ttl_ms c then name :: leading_loop c root path under now_ms
          else []
      | None => []
      end
  end.

Definition leading (c : NameCache) (root : Z) (under : list str) (now_ms : Z) : list str :=
  leading_loop c root [] under now_ms.

Fixpoint remember_loop (m : gmap (Z * str) (str * Z)) (root : Z) (under : list str) (first : nat)
    (ns : list str) (now_ms : Z) : gmap (Z * str) (str * Z) :=
  match ns with
  | [] => m
  | n :: ns =>
      remember_loop (<[(root, join slash (take (S first) under)) := (n, now_ms)]> m)
        root under (S first) ns now_ms
  end.

Definition remember (c : NameCache) (root : Z) (under : list str) (first : nat) (ns : list str)
    (now_ms : Z) : NameCache :=
  if (length under <? first)%nat || negb (length ns =? length under - first)%nat then c
  else
    let m := if capacity c <? cache_len c + len ns then ∅ else names c in
    {| ttl_ms := ttl_ms c; capacity := capacity c;
       names := remember_loop m root under first ns now_ms |}.

Definition kept_by_forget (root : Z) (folded : str) (k : Z * str) : Prop :=
  k.1 ≠ root ∨ ¬ (k.2 = folded ∨ starts_with (folded ++ [slash]) k.2 = true).
#[export] Instance kept_by_forget_dec root folded k : Decision (kept_by_forget root folded k).
Proof. unfold kept_by_forget. apply _. Defined.

Definition forget (c : NameCache) (root : Z) (folded : str) : NameCache :=
  let folded := trim_matches slash folded in
  {| ttl_ms := ttl_ms c; capacity := capacity c;
     names := if decide (folded = [] ∨ folded = dot)
              then filter (λ ke, ke.1.1 ≠ root) (names c)
              else filter (λ ke, kept_by_forget root folded ke.1) (names c) |}.

(** *** Volume-relative names and file ids *)

Definition ascii_alphabetic (b : Z) : bool :=
  (65 <=? b) && (b <=? 90) || (97 <=? b) && (b <=? 122).

Definition volume_relative (dos : str) : str :=
  match dos with
  | b0 :: b1 :: rest => if (b1 =? colon) && ascii_alphabetic b0 then rest else dos
  | _ => dos
  end.

Definition fnv_step (h b : Z) : Z := as_u64 (Z.lxor h b * 0x100000001b3).
Definition path_id {CT : CaseTable} (final_dos : str) : Z :=
  let h := fold_left fnv_step (utf8 (fold final_dos)) 0xcbf29ce484222325 in
  Z.lor (Z.shiftr h 1) 1.

(** ** Lemmas *)

Section final_name_lemmas.
Context {CT : CaseTable}.

Lemma push_spelled_app out tail stored i us vs :
push_spelled out tail stored i (us ++ vs) =
push_spelled (push_spelled out tail stored i us) tail stored (i + length us) vs.
Proof.
revert out i. induction us as [|u us IH]; intros out i; simpl.
- by rewrite Nat.add_0_r.
- rewrite IH. by replace (i + S (length us))%nat with (S i + length us)%nat by lia.
Qed.

(** With every component stored, the caller's spelling plays no part. *)
Lemma push_spelled_stored out tail tail' stored i us :
(∀ j, (i ≤ j < i + length us)%nat → is_Some (stored j)) →
push_spelled out tail stored i us = push_spelled out tail' stored i us.
Proof.
revert out i. induction us as [|u us IH]; intros out i H; simpl; [done|].
destruct (H i) as [n Hn]; [simpl; lia|].
assert (∀ tl, spelled tl stored i u = n) as Hs by (intros; unfold spelled; by rewrite Hn).
rewrite !Hs. apply IH. intros j Hj. apply H. simpl. lia.
Qed.

Lemma push_spelled_prefix out tail stored i us : out `prefix_of` push_spelled out tail stored i us.
Proof.
revert out i. induction us as [|u us IH]; intros out i; simpl; [done|].
etrans; [|apply IH]. by apply prefix_app_r.
Qed.

Lemma push_spelled_backslash out tail stored i us :
us ≠ [] → out ++ [backslash] `prefix_of` push_spelled out tail stored i us.
Proof.
destruct us as [|u us]; [done|]. intros _. simpl. etrans; [|apply push_spelled_prefix].
apply prefix_app, prefix_cons, prefix_nil.
Qed.

(** Folding the answer forgets which spelling each component had. *)
Lemma push_spelled_fold out tail stored i us :
(∀ j u, us !! j = Some u → fold (spelled tail stored (i + j) u) = u) →
fold (push_spelled out tail stored i us) = fold out ++ flat_map (cons backslash) us.
Proof.
revert out i. induction us as [|u us IH]; intros out i H; simpl; [by rewrite app_nil_r|].
rewrite IH.
- rewrite fold_app, fold_cons, lower_fixed by auto with vfs.
  rewrite <- app_assoc. simpl. do 2 f_equal.
  specialize (H 0%nat u eq_refl). rewrite Nat.add_0_r in H. by rewrite H.
- intros j v Hj. specialize (H (S j) v Hj). by rewrite Nat.add_succ_r in H.
Qed.

Lemma zip_folds_lookup a b j x y :
zip_folds_to a b = true → a !! j = Some x → b !! j = Some y → fold x = y.
Proof.
revert b j. induction a as [|x' a IH]; intros [|y' b] [|j]; simpl; try done.
- intros [H _]%andb_true_iff [= ->] [= ->]. by destruct (str_eqb_spec (fold x) y).
- intros [_ H]%andb_true_iff. by apply IH.
Qed.

Lemma opened_tail_fold opened under tail j u :
opened_tail opened under = Some tail → under !! j = Some u →
∃ x, tail !! j = Some x ∧ fold x = u.
Proof.
unfold opened_tail. destruct (len (components opened) <? len under) eqn:El; [done|].
destruct (zip_folds_to _ _) eqn:Ez; [|done]. intros [= <-] Hu.
pose proof (lookup_lt_Some _ _ _ Hu). unfold len in El.
destruct (lookup_lt_is_Some_2 (drop (length (components opened) - length under) (components opened)) j)
  as [x Hx]; [rewrite length_drop; lia|].
exists x. split; [done|]. by eapply zip_folds_lookup.
Qed.
End final_name_lemmas.

(** *** Cache lemmas *)

Lemma extend_path_join us u :
  Forall comp_ok us → comp_ok u → extend_path (join slash us) u = join slash (us ++ [u]).
Proof.
  intros Hus Hu. unfold extend_path. destruct (decide (join slash us = [])) as [E|E].
  - apply join_comp_nil in E as ->; done.
  - rewrite join_snoc by (by intros ->). by rewrite <- app_assoc.
Qed.

Lemma join_comp_inj us vs :
  Forall comp_ok us → Forall comp_ok vs → join slash us = join slash vs → us = vs.
Proof. intros Hu Hv E. by eapply (canonical_inj (join slash us)). Qed.

Lemma remember_loop_other m root under first ns now k :
  (∀ j, (first < j ≤ first + length ns)%nat → k ≠ (root, join slash (take j under))) →
  remember_loop m root under first ns now !! k = m !! k.
Proof.
  revert m first. induction ns as [|n ns IH]; intros m first H; simpl; [done|].
  rewrite IH.
  - rewrite lookup_insert_ne; [done|]. intros <-. apply (H (S first)); [simpl; lia|done].
  - intros j Hj. apply H. simpl. lia.
Qed.

Lemma remember_loop_hit m root under first ns now j n :
  Forall comp_ok under → (first + length ns ≤ length under)%nat → ns !! j = Some n →
  remember_loop m root under first ns now !! (root, join slash (take (S (first + j)) under))
    = Some (n, now).
Proof.
  intros Hu. revert m first j. induction ns as [|n' ns IH]; intros m first j Hlen Hj; [done|].
  simpl in Hlen. destruct j as [|j]; simpl.
  - injection Hj as ->. rewrite remember_loop_other.
    + rewrite Nat.add_0_r. by rewrite lookup_insert_eq.
    + rewrite Nat.add_0_r. intros j Hj [= E].
      apply join_comp_inj in E; [|by apply Forall_take..].
      apply (f_equal length) in E. rewrite !length_take in E. lia.
  - specialize (IH (<[(root, join slash (take (S first) under)) := (n', now)]> m) (S first) j).
    rewrite Nat.add_succ_r. apply IH; [lia|done].
Qed.

Lemma remember_loop_size m root under first ns now :
  (size (remember_loop m root under first ns now) ≤ size m + length ns)%nat.
Proof.
  revert m first. induction ns as [|n ns IH]; intros m first; simpl; [lia|].
  etrans; [apply IH|].
  assert (size (<[(root, join slash (take (S first) under)) := (n, now)]> m) ≤ S (size m))%nat; [|lia].
  rewrite map_size_insert. case_match; cbn; lia.
Qed.

(** [leading] answers as long as each prefix is known and fresh. *)
Lemma leading_loop_all c root pre under now ns :
  Forall comp_ok pre → Forall comp_ok under → length ns = length under →
  (∀ j n, ns !! j = Some n → ∃ t, names c !! (root, join slash (take (S (length pre + j)) (pre ++ under)))
     = Some (n, t) ∧ sat_sub now t < ttl_ms c) →
  leading_loop c root (join slash pre) under now = ns.
Proof.
  intros Hp Hu. revert pre ns Hp. induction Hu as [|u under Hu Hus IH]; intros pre ns Hp Hlen H.
  - by destruct ns.
  - destruct ns as [|n ns]; [done|]. simpl. rewrite extend_path_join by done.
    destruct (H 0%nat n eq_refl) as (t & Ht & Hf). rewrite Nat.add_0_r in Ht.
    assert (take (S (length pre)) (pre ++ u :: under) = pre ++ [u]) as E.
    { replace (pre ++ u :: under) with ((pre ++ [u]) ++ under) by (by rewrite <- app_assoc).
      rewrite take_app_le by (rewrite length_app; simpl; lia).
      apply take_ge. rewrite length_app. simpl. lia. }
    rewrite E in Ht. rewrite Ht. rewrite (proj2 (Z.ltb_lt _ _) Hf). f_equal.
    apply IH; [apply Forall_app; auto|by injection Hlen|].
    intros j n' Hj. rewrite length_app, <- app_assoc. simpl.
    destruct (H (S j) n' Hj) as (t' & Ht' & Hf'). exists t'.
    replace (length pre + 1 + j)%nat with (length pre + S j)%nat by lia. done.
Qed.

Lemma join_prefix us vs : us `prefix_of` vs → join slash us `prefix_of` join slash vs.
Proof.
  intros [ws ->]. induction us as [|u us IH]; [apply prefix_nil|].
  destruct (decide (us = [])) as [->|Hne].
  - destruct ws; simpl; [by rewrite ?app_nil_r|by apply prefix_app_r].
  - rewrite join_cons by done. cbn [app]. rewrite join_cons by (by destruct us).
    by apply prefix_app, prefix_cons.
Qed.

(** A key of a parent survives [forget] of the path below it. *)
Lemma forget_keeps_parent root q pre u :
  Forall comp_ok (pre ++ [u]) → q `prefix_of` pre →
  kept_by_forget root (join slash (pre ++ [u])) (root, join slash q).
Proof.
  intros H Hq. right. simpl. assert (q `prefix_of` pre ++ [u]) as Hq' by (by apply prefix_app_r).
  intros [E|E].
  - apply join_comp_inj in E; [|destruct Hq' as [r Hr]; rewrite Hr in H;
      by apply Forall_app in H as [? _]|done].
    apply prefix_length in Hq. subst q. rewrite length_app in Hq. simpl in Hq. lia.
  - unfold starts_with in E. destruct (strip_prefix _ _) as [r|] eqn:Er; [|done].
    apply strip_prefix_Some in Er. apply join_prefix, prefix_length in Hq'.
    rewrite Er, !length_app in Hq'. simpl in Hq'. lia.
Qed.

Lemma leading_loop_forget c root don pre u rest now :
  Forall comp_ok ((don ++ pre) ++ u :: rest) →
  leading_loop {| ttl_ms := ttl_ms c; capacity := capacity c;
      names := filter (λ ke, kept_by_forget root (join slash ((don ++ pre) ++ [u])) ke.1) (names c) |}
    root (join slash don) (pre ++ u :: rest) now =
  leading_loop c root (join slash don) pre now.
Proof.
  revert don. induction pre as [|w pre IH]; intros don H;
    assert (Forall comp_ok don) as Hd by (rewrite <- app_assoc in H; by apply Forall_app in H as [? _]).
  - rewrite app_nil_r in *. apply Forall_app in H as [_ H]. inversion_clear H as [|? ? Hu _].
    cbn [app leading_loop names]. rewrite extend_path_join by done.
    rewrite (proj2 (map_lookup_filter_None _ _ _)); [done|]. right. intros x _ Hk.
    destruct Hk as [Hk|Hk]; simpl in Hk; [done|]. naive_solver.
  - assert (comp_ok w) as Hw.
    { rewrite <- app_assoc in H. apply Forall_app in H as [_ H]. by inversion H. }
    assert ((don ++ w :: pre) = (don ++ [w]) ++ pre) as E by (by rewrite <- app_assoc).
    rewrite E in *. cbn [app leading_loop names ttl_ms]. rewrite extend_path_join by done.
    rewrite map_lookup_filter.
    assert (kept_by_forget root (join slash (((don ++ [w]) ++ pre) ++ [u]))
      (root, join slash (don ++ [w]))) as Hk.
    { apply forget_keeps_parent; [|by apply prefix_app_r].
      rewrite (cons_middle u), app_assoc in H. by apply Forall_app in H as [? _]. }
    destruct (names c !! (root, join slash (don ++ [w]))) as [[nm at_ms]|]; simpl; [|done].
    rewrite option_guard_True by done. destruct (_ <? _); [|done]. f_equal. by apply IH.
Qed.

(** ** Properties *)

Section properties.
Context {CT : CaseTable}.

(** Property: names are consistent for containment checks: with the spellings of
  all components known, the final name of a directory handle is a prefix
  of the final name of any handle beneath it (and the answer does not
  depend on how either was spelled when it was opened), as long as both
  are named from the same declared root spelling. *)
Theorem final_dos_path_containment opened opened' under rest roots stored :
(∀ i, (i < length (under ++ rest))%nat → is_Some (stored i)) →
chosen_root opened under roots = chosen_root opened' (under ++ rest) roots →
rest ≠ [] →
final_dos_path opened under roots stored `prefix_of`
final_dos_path opened' (under ++ rest) roots stored.
Proof.
intros Hst Hroot Hrest. unfold final_dos_path. rewrite <- Hroot.
set (out := push_spelled _ (opened_tail opened under) stored 0 under).
set (out' := push_spelled _ _ stored 0 (under ++ rest)).
assert (out ++ [backslash] `prefix_of` out') as H.
{ unfold out'. rewrite (push_spelled_stored _ _ (opened_tail opened under)).
  - rewrite push_spelled_app. by apply push_spelled_backslash.
  - intros j Hj. apply Hst. lia. }
assert (out' `prefix_of` (if bare_drive out' then out' ++ [backslash] else out')) as H'.
{ destruct (bare_drive out'); [by apply prefix_app_r|done]. }
destruct (bare_drive out).
- by etrans.
- etrans; [|exact H']. etrans; [|exact H]. by apply prefix_app_r.
Qed.

(** Property: a final name is the opened file's name up to case: if every stored
  spelling folds to the component it is stored for and [under] is folded,
  the answer folds to the chosen root followed by exactly the components
  of [under] (plus the separator a bare drive is named with). *)
Theorem final_dos_path_identity opened under roots stored :
(∀ i n, stored i = Some n → under !! i = Some (fold n)) →
Forall (λ u, fold u = u) under →
fold (final_dos_path opened under roots stored) =
  fold (chosen_root opened under roots) ++ flat_map (cons backslash) under ++
  (if bare_drive (push_spelled (chosen_root opened under roots) (opened_tail opened under) stored 0 under)
   then [backslash] else []).
Proof.
intros Hst Hu. unfold final_dos_path.
assert (fold (push_spelled (chosen_root opened under roots) (opened_tail opened under) stored 0 under)
  = fold (chosen_root opened under roots) ++ flat_map (cons backslash) under) as H.
{ apply push_spelled_fold. intros j u Hj. simpl. unfold spelled.
  destruct (stored j) as [n|] eqn:E; [apply Hst in E; congruence|].
  destruct (opened_tail opened under) as [tail|] eqn:Et.
  - destruct (opened_tail_fold _ _ _ _ _ Et Hj) as (x & Hx & Hf). by rewrite Hx.
  - by apply (proj1 (Forall_lookup _ _) Hu j). }
destruct (bare_drive _).
- rewrite fold_app, H, <- app_assoc. rewrite fold_cons, lower_fixed by auto with vfs. done.
- by rewrite H, app_nil_r.
Qed.

(** Property: [remember] then [leading] gives the names back while they are fresh:
  one spelling per component, in order, whatever the cache held before;
  and the cache never holds more than its capacity or the components of
  the last path remembered, whichever is larger. *)
Theorem name_cache_remember c root under ns now later :
Forall comp_ok under → length ns = length under →
0 ≤ now ≤ later → later - now < ttl_ms c →
leading (remember c root under 0 ns now) root under later = ns ∧
cache_len (remember c root under 0 ns now) ≤ Z.max (capacity c) (len ns).
Proof.
intros Hu Hlen Hnow Httl. unfold remember. simpl.
rewrite Nat.sub_0_r, Hlen, Nat.eqb_refl. simpl. split.
- unfold leading. apply (leading_loop_all _ root [] under); try done.
  intros j n Hj. exists now. simpl. split; [|unfold sat_sub; lia].
  apply (remember_loop_hit _ root under 0); [done|simpl; lia|done].
- unfold cache_len at 1. simpl.
  pose proof (remember_loop_size (if capacity c <? cache_len c + len ns then ∅ else names c)
    root under 0 ns now) as Hs.
  unfold len, cache_len in *. destruct (capacity c <? _) eqn:E.
  + rewrite map_size_empty in Hs. lia.
  + lia.
Qed.

(** Property: after [forget] the cache answers nothing for the forgotten path: the
  component it ends in and every one beneath it have to be asked for
  again, while the spellings of its parents are still answered as before. *)
Theorem name_cache_forget c root pre u rest now :
Forall comp_ok (pre ++ u :: rest) →
leading (forget c root (join slash (pre ++ [u]))) root (pre ++ u :: rest) now =
leading c root pre now.
Proof.
intros H. assert (Forall comp_ok (pre ++ [u])) as Hpu.
{ rewrite (cons_middle u), app_assoc in H. by apply Forall_app in H as [? _]. }
unfold forget. rewrite trim_canonical by done.
rewrite decide_False.
2:{ intros [E|E].
    - apply join_comp_nil in E; [by destruct pre|done].
    - pose proof (pieces_join (pre ++ [u]) (comp_ok_piece _ Hpu)) as Ep. rewrite E in Ep.
      assert (pieces dot = [dot]) as Ed by done. rewrite Ed in Ep. rewrite <- Ep in Hpu.
      inversion_clear Hpu as [|? ? (_ & ? & _) _]. done. }
apply (leading_loop_forget c root [] pre u rest now H).
Qed.

(** Property: a file id is a positive odd [i64] (never zero, never negative as a
  signed index), and is the same for all case variants of a path. *)
Theorem path_id_range a b :
0 < path_id a < 2 ^ 63 ∧ Z.odd (path_id a) = true ∧ (fold a = fold b → path_id a = path_id b).
Proof.
assert (∀ bs h, in_u64 h → in_u64 (fold_left fnv_step bs h)) as Hrange.
{ induction bs as [|x bs IH]; intros h Hh; [done|]. simpl. apply IH.
  unfold fnv_step, as_u64, in_u64, u64_max. apply Z.mod_pos_bound. lia. }
unfold path_id.
specialize (Hrange (utf8 (fold a)) 0xcbf29ce484222325 ltac:(unfold in_u64, u64_max; lia)).
set (h := fold_left fnv_step (utf8 (fold a)) 0xcbf29ce484222325) in *.
unfold in_u64, u64_max in Hrange.
assert (0 ≤ Z.shiftr h 1 < 2 ^ 63) as Hs.
{ rewrite Z.shiftr_div_pow2 by lia. split; [apply Z.div_pos; lia|].
  apply Z.div_lt_upper_bound; lia. }
assert (Z.odd (Z.lor (Z.shiftr h 1) 1) = true) as Hodd.
{ rewrite <- Z.bit0_odd, Z.lor_spec. by rewrite orb_true_r. }
assert (0 ≤ Z.lor (Z.shiftr h 1) 1) by (apply Z.lor_nonneg; lia).
split; [|split; [done|]].
- split.
  + destruct (decide (Z.lor (Z.shiftr h 1) 1 = 0)) as [E|]; [by rewrite E in Hodd|lia].
  + apply Z.log2_lt_cancel. rewrite Z.log2_lor, Z.log2_pow2 by lia.
    apply Z.max_lub_lt; [|done]. destruct (decide (Z.shiftr h 1 = 0)) as [->|]; [done|].
    apply Z.log2_lt_pow2; lia.
- intros E. unfold h. by rewrite E.
Qed.
End properties.

(** ** Witnesses *)

Module FinalNameDemo.
Definition under : list str := [lit "data"; lit "a.esp"].
Definition stored (i : nat) : option str := [lit "Data"; lit "A.esp"] !! i.
Definition roots : list str := [lit "C:\Games\Skyrim"].
Definition cache : NameCache := NameCache_new 1000 64.
End FinalNameDemo.

Lemma final_dos_path_containment_witness :
  final_dos_path (CT := demo_table) (lit "c:\games\SKYRIM\DATA") [lit "data"] FinalNameDemo.roots
    FinalNameDemo.stored `prefix_of`
  final_dos_path (CT := demo_table) (lit "\??\C:\Games\skyrim\data\a.ESP") FinalNameDemo.under
    FinalNameDemo.roots FinalNameDemo.stored.
Proof.
  apply (final_dos_path_containment (CT := demo_table) _ _ [lit "data"] [lit "a.esp"]).
  - intros [|[|i]] Hi; [by eexists|by eexists|]. simpl in Hi. lia.
  - vm_compute. reflexivity.
  - discriminate.
Defined.

Lemma final_dos_path_identity_witness :
  fold (CT := demo_table) (final_dos_path (CT := demo_table) (lit "c:/games/SKYRIM/DATA/a.ESP")
    FinalNameDemo.under FinalNameDemo.roots FinalNameDemo.stored) =
  fold (CT := demo_table) (chosen_root (CT := demo_table) (lit "c:/games/SKYRIM/DATA/a.ESP")
    FinalNameDemo.under FinalNameDemo.roots) ++
  flat_map (cons backslash) FinalNameDemo.under ++ [].
Proof.
  apply (final_dos_path_identity (CT := demo_table)).
  - intros [|[|i]] n E; vm_compute in E; try discriminate; injection E as <-; vm_compute; reflexivity.
  - repeat constructor; vm_compute; reflexivity.
Defined.

Lemma name_cache_remember_witness :
  leading (remember FinalNameDemo.cache 0 FinalNameDemo.under 0 [lit "Data"; lit "A.esp"] 5) 0
    FinalNameDemo.under 900 = [lit "Data"; lit "A.esp"] ∧
  cache_len (remember FinalNameDemo.cache 0 FinalNameDemo.under 0 [lit "Data"; lit "A.esp"] 5) ≤
    Z.max (capacity FinalNameDemo.cache) (len [lit "Data"; lit "A.esp"]).
Proof.
  apply (name_cache_remember FinalNameDemo.cache 0 FinalNameDemo.under [lit "Data"; lit "A.esp"] 5 900);
    [apply comps_okb; vm_compute; reflexivity|reflexivity|lia|vm_compute; reflexivity].
Defined.

Lemma name_cache_forget_witness :
  leading (forget FinalNameDemo.cache 0 (join slash ([lit "data"] ++ [lit "a.esp"]))) 0
    ([lit "data"] ++ lit "a.esp" :: []) 900 = leading FinalNameDemo.cache 0 [lit "data"] 900.
Proof. apply (name_cache_forget FinalNameDemo.cache 0 [lit "data"] (lit "a.esp") [] 900). apply comps_okb; vm_compute; reflexivity. Defined.
