(* ===== verification/RegTypes.v ===== *)
(** RegTypes: the data of the registry overlay
    (rust/crates/vfs-registry/src/overlay.rs), shared by the overlay, the
    persistence format and the wire codecs. *)

From S2P Require Import Prelude.

Definition MAX_KEY_NAME : Z := 255.
Definition MAX_VALUE_NAME : Z := 16383.
Definition MAX_DATA : Z := Z.shiftl 1 20.
Definition MAX_DELETED_AT : Z := 16384.
Definition MAX_WRITE_DEPTH : Z := 512.
Definition MAX_DECODE_DEPTH : Z := 1024.

Record Value := mkValue { v_name : str; v_ty : Z; v_data : bytes }.

Inductive Child := Present | Tombstone.
#[export] Instance Child_eq_dec : EqDecision Child.
Proof. solve_decision. Defined.

(** [values] in insertion order; [value_tombstones] holds folded names;
    [children] maps a folded name to its stored spelling and state. *)
Record RegNode := mkRegNode {
  values : list Value;
  value_tombstones : list str;
  children : gmap str (str * Child);
  created : bool;
  volatile : bool;
  last_write : Z }.

Definition RegNode_default : RegNode := mkRegNode [] [] ∅ false false 0.

Inductive Lookup := LAbsent | LPresent (created : bool) | LTombstoned.

Inductive RegError :=
  | NameTooLong | DataTooLarge | RegNotFound | AlreadyExists | InvalidPath | TooDeep.
