(* ===== verification/Wire.v ===== *)
(** Wire: the byte cursor and writer the codecs share
    (rust/crates/vfs-protocol/src/wire.rs).

    A reader is a function from the bytes that are left to a value and the
    bytes after it, [None] being the source's [None].  [Reads r b a] says that
    [r] reads [a] from [b] and leaves what follows alone: the codecs' round
    trips are compositions of it. *)

From S2P Require Import Prelude Text.

(** ** Model *)

Definition Rd (A : Type) : Type := bytes → option (A * bytes).

#[export] Instance Rd_ret : MRet Rd := λ A a b, Some (a, b).
#[export] Instance Rd_bind : MBind Rd := λ A B f r b,
  match r b with Some (a, b') => f a b' | None => None end.

Definition rd_fail {A} : Rd A := λ _, None.
Definition rd_opt {A} (o : option A) : Rd A := λ b, (λ a, (a, b)) <$> o.

(** Run a decoder on a whole payload. *)
Definition run {A} (r : Rd A) (b : bytes) : option A := fst <$> r b.

Definition put_str (s : str) : bytes := to_le 4 (as_u32 (str_len s)) ++ utf8 s.

(** [take(n)]: nothing is consumed when fewer than [n] bytes are left. *)
Definition rd_take (n : Z) : Rd bytes := λ b,
  if len b <? n then None else Some (split_at n b).
Definition rd_u8 : Rd Z := h ← rd_take 1; rd_opt (head h).
Definition rd_bool : Rd bool :=
  x ← rd_u8; if x =? 0 then mret false else if x =? 1 then mret true else rd_fail.
Definition rd_flag : Rd bool := x ← rd_u8; mret (negb (x =? 0)).
Definition rd_u32 : Rd Z := h ← rd_take 4; mret (from_le h).
Definition rd_u64 : Rd Z := h ← rd_take 8; mret (from_le h).
Definition rd_bytes (max : Z) : Rd bytes :=
  n ← rd_u32; if max <? n then rd_fail else rd_take n.
Definition rd_str : Rd str := n ← rd_u32; h ← rd_take n; rd_opt (from_utf8 h).
Definition rd_str_max (max_units : Z) : Rd str :=
  s ← rd_str; if utf16_len s <=? max_units then mret s else rd_fail.
Definition rd_rest_str : Rd str := λ b, (λ s, (s, [])) <$> from_utf8 b.
Definition rd_done : Rd unit := λ b, match b with [] => Some (tt, b) | _ => None end.

(** [for _ in 0..count]: the loop runs [count] times or fails on the way. *)
Fixpoint rd_repeat {A} (n : nat) (r : Rd A) : Rd (list A) :=
  match n with
  | O => mret []
  | S n => a ← r; l ← rd_repeat n r; mret (a :: l)
  end.

(** ** Composition *)

Definition Reads {A} (r : Rd A) (b : bytes) (a : A) : Prop :=
  ∀ rest, r (b ++ rest) = Some (a, rest).

Create HintDb wire.

Lemma Reads_ret {A} (a : A) : Reads (mret a) [] a.
Proof. done. Qed.

Lemma Reads_bind {A B} (r : Rd A) (f : A → Rd B) b c a x :
  Reads r b a → Reads (f a) c x → Reads (r ≫= f) (b ++ c) x.
Proof.
  intros Hr Hf rest. unfold mbind, Rd_bind. rewrite <- app_assoc, Hr. apply Hf.
Qed.

(** The last reader of a codec need not leave anything behind. *)
Lemma run_bind {A B} (r : Rd A) (f : A → Rd B) b c a :
  Reads r b a → run (r ≫= f) (b ++ c) = run (f a) c.
Proof. intros Hr. unfold run, mbind, Rd_bind. by rewrite Hr. Qed.

Lemma run_Reads {A} (r : Rd A) b a : Reads r b a → run r b = Some a.
Proof. intros H. unfold run. specialize (H []). rewrite app_nil_r in H. by rewrite H. Qed.

Lemma run_Reads_app {A} (r : Rd A) b c a : Reads r b a → run r (b ++ c) = Some a.
Proof. intros H. unfold run. by rewrite H. Qed.

Lemma Reads_take b : Reads (rd_take (len b)) b b.
Proof.
  intros rest. unfold rd_take. rewrite len_app. pose proof (len_nonneg rest).
  destruct (Z.ltb_spec (len b + len rest) (len b)); [lia|]. by rewrite split_at_app.
Qed.

Lemma Reads_take_eq n b : len b = n → Reads (rd_take n) b b.
Proof. intros <-. apply Reads_take. Qed.

Lemma Reads_u8 x : Reads rd_u8 [x] x.
Proof.
  rewrite <- (app_nil_r [x]). eapply Reads_bind; [by apply Reads_take_eq|]. done.
Qed.

Lemma Reads_bool (x : bool) : Reads rd_bool [Z.b2z x] x.
Proof. intros rest. unfold rd_bool, mbind, Rd_bind. rewrite (Reads_u8 (Z.b2z x)). by destruct x. Qed.

Lemma Reads_flag (x : bool) : Reads rd_flag [Z.b2z x] x.
Proof. intros rest. unfold rd_flag, mbind, Rd_bind. rewrite (Reads_u8 (Z.b2z x)). by destruct x. Qed.

Lemma Reads_u32 x : in_u32 x → Reads rd_u32 (to_le 4 x) x.
Proof.
  intros Hx. rewrite <- (app_nil_r (to_le 4 x)).
  eapply Reads_bind; [apply Reads_take_eq, len_to_le|]. rewrite from_to_le_small; done.
Qed.

Lemma Reads_u64 x : in_u64 x → Reads rd_u64 (to_le 8 x) x.
Proof.
  intros Hx. rewrite <- (app_nil_r (to_le 8 x)).
  eapply Reads_bind; [apply Reads_take_eq, len_to_le|]. rewrite from_to_le_small; done.
Qed.

(** A signed 64-bit field travels as the bits of a [u64]. *)
Lemma Reads_i64 x : in_i64 x → Reads (y ← rd_u64; mret (as_i64 y)) (to_le 8 x) x.
Proof.
  intros Hx rest. unfold rd_u64, mbind, Rd_bind.
  rewrite (Reads_take_eq 8 (to_le 8 x) (len_to_le 8 x)). unfold mret, Rd_ret.
  rewrite from_to_le. do 2 f_equal. unfold as_i64, in_i64, u64_max in *.
  rewrite Z.mod_mod by lia. change (256 ^ Z.of_nat 8) with (2 ^ 64).
  destruct (decide (0 ≤ x)).
  - rewrite Z.mod_small by lia. destruct (Z.ltb_spec x (2 ^ 63)); lia.
  - rewrite <- (Z_mod_plus_full x 1 (2 ^ 64)). rewrite Z.mod_small by lia.
    destruct (Z.ltb_spec (x + 1 * 2 ^ 64) (2 ^ 63)); lia.
Qed.

Lemma Reads_str s : valid_str s → str_len s < u32_max → Reads rd_str (put_str s) s.
Proof.
  intros Hs Hl. unfold rd_str, put_str, as_u32, str_len in *.
  pose proof (len_nonneg (utf8 s)). rewrite Z.mod_small by lia.
  eapply Reads_bind; [by apply Reads_u32|]. rewrite <- (app_nil_r (utf8 s)) at 2.
  eapply Reads_bind; [apply Reads_take|]. by rewrite from_utf8_utf8.
Qed.

Lemma Reads_str_max max s :
  valid_str s → str_len s < u32_max → utf16_len s ≤ max → Reads (rd_str_max max) (put_str s) s.
Proof.
  intros Hs Hl Hm rest. unfold rd_str_max, mbind, Rd_bind. rewrite (Reads_str s) by done.
  by rewrite (proj2 (Z.leb_le _ _) Hm).
Qed.

Lemma Reads_bytes max d :
  len d ≤ max → max < u32_max → Reads (rd_bytes max) (to_le 4 (as_u32 (len d)) ++ d) d.
Proof.
  intros Hd Hm. pose proof (len_nonneg d). unfold as_u32. rewrite Z.mod_small by lia.
  eapply Reads_bind; [apply Reads_u32; unfold in_u32; lia|].
  destruct (Z.ltb_spec max (len d)); [lia|]. apply Reads_take.
Qed.

Lemma run_rest_str s : valid_str s → run rd_rest_str (utf8 s) = Some s.
Proof. intros Hs. unfold run, rd_rest_str. by rewrite from_utf8_utf8. Qed.

Lemma run_done : run rd_done [] = Some tt.
Proof. done. Qed.

Lemma Reads_repeat {A} (r : Rd A) (enc : A → bytes) l :
  Forall (λ a, Reads r (enc a) a) l → Reads (rd_repeat (length l) r) (flat_map enc l) l.
Proof.
  induction 1 as [|a l Ha Hl IH]; [done|]. cbn [length rd_repeat flat_map].
  eapply Reads_bind; [done|]. rewrite <- (app_nil_r (flat_map enc l)).
  eapply Reads_bind; [done|]. done.
Qed.

#[export] Hint Resolve Reads_u8 Reads_bool Reads_flag Reads_u32 Reads_u64 Reads_i64
  Reads_str Reads_str_max Reads_bytes Reads_take_eq Reads_take : wire.

(** Range conditions on lengths. *)
Lemma in_u32_len {A} (l : list A) : len l < u32_max → in_u32 (len l).
Proof. pose proof (len_nonneg l). done. Qed.

Lemma as_u32_id x : in_u32 x → as_u32 x = x.
Proof. intros H. unfold as_u32. by apply Z.mod_small. Qed.

Lemma as_u32_len {A} (l : list A) : len l < u32_max → as_u32 (len l) = len l.
Proof. intros. by apply as_u32_id, in_u32_len. Qed.

(** ** Exactness: what a reader accepts *)

Lemma rd_take_inv n b h t : 0 ≤ n → rd_take n b = Some (h, t) → b = h ++ t ∧ len h = n.
Proof.
  unfold rd_take, split_at. intros Hn. destruct (Z.ltb_spec (len b) n); [done|].
  intros [= <- <-]. split; [by rewrite take_drop|]. unfold len in *. rewrite length_take. lia.
Qed.

Lemma rd_u32_inv b x t :
  Forall byte_ok b → rd_u32 b = Some (x, t) → b = to_le 4 x ++ t ∧ in_u32 x ∧ Forall byte_ok t.
Proof.
  unfold rd_u32, mbind, Rd_bind. intros Hb. destruct (rd_take 4 b) as [[h t']|] eqn:E; [|done].
  apply rd_take_inv in E as [-> Hl]; [|lia]. unfold mret, Rd_ret. intros [= <- <-].
  apply Forall_app in Hb as [Hh Ht]. pose proof (from_le_range h Hh) as Hr. rewrite Hl in Hr.
  assert (length h = 4%nat) as Hn by (unfold len in Hl; lia).
  split; [|done]. rewrite <- (to_from_le h Hh) at 1. by rewrite Hn.
Qed.

Lemma rd_str_inv b s t :
  Forall byte_ok b → rd_str b = Some (s, t) → b = put_str s ++ t ∧ valid_str s ∧ Forall byte_ok t.
Proof.
  unfold rd_str, mbind, Rd_bind. intros Hb. destruct (rd_u32 b) as [[n t1]|] eqn:E; [|done].
  apply rd_u32_inv in E as (-> & Hn & H1); [|done].
  destruct (rd_take n t1) as [[h t2]|] eqn:E2; [|done].
  apply rd_take_inv in E2 as [-> Hl]; [|apply Hn]. apply Forall_app in H1 as [_ H2].
  unfold rd_opt. intros (s' & Es & [= <- <-])%fmap_Some.
  apply utf8_from_utf8 in Es as [<- Hv]. split; [|done].
  unfold put_str, str_len. rewrite Hl, as_u32_id by done. by rewrite <- app_assoc.
Qed.

Lemma rd_u8_inv b x t :
  Forall byte_ok b → rd_u8 b = Some (x, t) → b = [x] ++ t ∧ byte_ok x ∧ Forall byte_ok t.
Proof.
  unfold rd_u8, mbind, Rd_bind. intros Hb. destruct (rd_take 1 b) as [[h t']|] eqn:E; [|done].
  apply rd_take_inv in E as [-> Hl]; [|lia]. destruct h as [|y [|z h]];
    [done| |unfold len in Hl; simpl in Hl; lia].
  simpl. intros [= <- <-]. by inversion_clear Hb.
Qed.

Lemma rd_bool_inv b x t :
  Forall byte_ok b → rd_bool b = Some (x, t) → b = [Z.b2z x] ++ t ∧ Forall byte_ok t.
Proof.
  unfold rd_bool, mbind, Rd_bind. intros Hb. destruct (rd_u8 b) as [[y t']|] eqn:E; [|done].
  apply rd_u8_inv in E as (-> & _ & Ht); [|done].
  destruct (Z.eqb_spec y 0) as [->|]; [by intros [= <- <-]|].
  destruct (Z.eqb_spec y 1) as [->|]; [by intros [= <- <-]|done].
Qed.

Lemma rd_u64_inv b x t :
  Forall byte_ok b → rd_u64 b = Some (x, t) → b = to_le 8 x ++ t ∧ in_u64 x ∧ Forall byte_ok t.
Proof.
  unfold rd_u64, mbind, Rd_bind. intros Hb. destruct (rd_take 8 b) as [[h t']|] eqn:E; [|done].
  apply rd_take_inv in E as [-> Hl]; [|lia]. unfold mret, Rd_ret. intros [= <- <-].
  apply Forall_app in Hb as [Hh Ht]. pose proof (from_le_range h Hh) as Hr. rewrite Hl in Hr.
  assert (length h = 8%nat) as Hn by (unfold len in Hl; lia).
  split; [|done]. rewrite <- (to_from_le h Hh) at 1. by rewrite Hn.
Qed.

Lemma rd_bytes_inv max b x t :
  Forall byte_ok b → rd_bytes max b = Some (x, t) →
  b = (to_le 4 (as_u32 (len x)) ++ x) ++ t ∧ len x ≤ max ∧ Forall byte_ok t.
Proof.
  unfold rd_bytes, mbind, Rd_bind. intros Hb. destruct (rd_u32 b) as [[n t1]|] eqn:E; [|done].
  apply rd_u32_inv in E as (-> & Hn & H1); [|done].
  destruct (Z.ltb_spec max n); [done|]. intros E2.
  apply rd_take_inv in E2 as [-> Hl]; [|apply Hn]. rewrite Hl, as_u32_id by done.
  apply Forall_app in H1 as [_ H1]. by rewrite <- app_assoc.
Qed.

Lemma rd_str_max_inv max b s t :
  Forall byte_ok b → rd_str_max max b = Some (s, t) →
  b = put_str s ++ t ∧ valid_str s ∧ utf16_len s ≤ max ∧ Forall byte_ok t.
Proof.
  unfold rd_str_max, mbind, Rd_bind. intros Hb. destruct (rd_str b) as [[s' t1]|] eqn:E; [|done].
  apply rd_str_inv in E as (-> & Hv & Ht); [|done].
  destruct (Z.leb_spec (utf16_len s') max); [|done]. by intros [= <- <-].
Qed.

Lemma rd_done_inv b t : rd_done b = Some (tt, t) → b = [].
Proof. by destruct b. Qed.

Lemma run_Some {A} (r : Rd A) b a : run r b = Some a ↔ ∃ t, r b = Some (a, t).
Proof. unfold run. rewrite fmap_Some. split; [intros ([? t] & -> & ->); eauto|intros [t ->]; eauto]. Qed.

Lemma Rd_bind_Some {A B} (r : Rd A) (f : A → Rd B) b x t :
  (r ≫= f) b = Some (x, t) ↔ ∃ a t', r b = Some (a, t') ∧ f a t' = Some (x, t).
Proof. unfold mbind, Rd_bind. destruct (r b) as [[a t']|]; naive_solver. Qed.

(** Invert one reader of a decoder that succeeded. *)
Ltac rd_inv H :=
  apply Rd_bind_Some in H as (? & ? & ?E & H);
  match goal with
  | E : rd_str _ = _ |- _ => apply rd_str_inv in E as (-> & ? & ?); [|done]
  | E : rd_str_max _ _ = _ |- _ => apply rd_str_max_inv in E as (-> & ? & ? & ?); [|done]
  | E : rd_u32 _ = _ |- _ => apply rd_u32_inv in E as (-> & ? & ?); [|done]
  | E : rd_u64 _ = _ |- _ => apply rd_u64_inv in E as (-> & ? & ?); [|done]
  | E : rd_u8 _ = _ |- _ => apply rd_u8_inv in E as (-> & ? & ?); [|done]
  | E : rd_bool _ = _ |- _ => apply rd_bool_inv in E as (-> & ?); [|done]
  | E : rd_bytes _ _ = _ |- _ => apply rd_bytes_inv in E as (-> & ? & ?); [|done]
  | E : rd_done _ = Some (?u, _) |- _ => destruct u; apply rd_done_inv in E as ->
  end.
