(* ===== verification/Protocol.v ===== *)
(** Protocol: the wire codecs between the shim and the director
    (rust/crates/vfs-protocol/src/lib.rs).

    Encoders are byte concatenations, decoders are readers of [Wire].  Widths
    are kept: lengths are truncated to [u32] where the source casts them, and
    the round trips say for which lengths that is the identity. *)

From S2P Require Import Prelude Text Path RegTypes Wire.

(** ** Opcodes and statuses *)

Definition OP_GETATTR : Z := 1.
Definition OP_READDIR : Z := 2.
Definition OP_OPEN : Z := 3.
Definition OP_READ : Z := 5.
Definition OP_WRITE : Z := 6.
Definition OP_SETATTR : Z := 7.
Definition OP_RENAME : Z := 8.
Definition OP_DELETE : Z := 9.
Definition OP_MKDIR : Z := 10.
Definition OP_CLOSE : Z := 11.
Definition OP_HEARTBEAT : Z := 13.
Definition OP_STORED_NAMES : Z := 14.
Definition OP_REG_LOOKUP : Z := 15.
Definition OP_REG_KEY : Z := 16.
Definition OP_REG_SET_VALUE : Z := 17.
Definition OP_REG_DELETE_VALUE : Z := 18.
Definition OP_REG_CREATE_KEY : Z := 19.
Definition OP_REG_DELETE_KEY : Z := 20.
Definition OP_REG_RENAME_KEY : Z := 21.
Definition OP_REG_CHANGED : Z := 22.
Definition OP_RENAME_X : Z := 23.
Definition OP_STAGE_EXEC : Z := 24.

Definition READ_RESP_BULK_BIT : Z := 0x80000000.
Definition OPEN_RESP_IMMUTABLE : Z := 1.

(** ** Messages *)

Record AttrResp := { ar_found : bool; ar_is_dir : bool; ar_size : Z; ar_mtime : Z }.
Record DirEntryWire := { de_name : str; de_is_dir : bool; de_size : Z; de_mtime : Z }.
Record OpenResp := {
  or_fh : Z; or_size : Z; or_is_dir : bool; or_immutable : bool; or_mount_gen : Z }.
Record ReadReq := { rr_fh : Z; rr_offset : Z; rr_len : Z }.
Record WriteReq := { wr_fh : Z; wr_offset : Z; wr_len : Z }.
Record SetattrReq := { sr_fh : Z; sr_size : Z }.

(** ** File operations *)

Definition rd_i64 : Rd Z := y ← rd_u64; mret (as_i64 y).

Definition encode_path_req (root : Z) (vpath : str) : bytes := to_le 4 root ++ utf8 vpath.
Definition decode_path_req : bytes → option (Z * str) :=
  run (root ← rd_u32; path ← rd_rest_str; mret (root, path)).

Definition encode_getattr_resp (r : AttrResp) : bytes :=
  [Z.b2z (ar_found r)] ++ [Z.b2z (ar_is_dir r)] ++ to_le 8 (ar_size r) ++ to_le 8 (ar_mtime r).
Definition decode_getattr_resp : bytes → option AttrResp :=
  run (found ← rd_flag; is_dir ← rd_flag; size ← rd_u64; mtime ← rd_i64;
       mret {| ar_found := found; ar_is_dir := is_dir; ar_size := size; ar_mtime := mtime |}).

Definition encode_dir_entry (e : DirEntryWire) : bytes :=
  to_le 4 (as_u32 (len (utf8 (de_name e)))) ++ utf8 (de_name e) ++
  [Z.b2z (de_is_dir e)] ++ to_le 8 (de_size e) ++ to_le 8 (de_mtime e).
Definition encode_readdir_resp (es : list DirEntryWire) : bytes :=
  to_le 4 (as_u32 (len es)) ++ flat_map encode_dir_entry es.
Definition rd_dir_entry : Rd DirEntryWire :=
  name ← rd_str; is_dir ← rd_flag; size ← rd_u64; mtime ← rd_i64;
  mret {| de_name := name; de_is_dir := is_dir; de_size := size; de_mtime := mtime |}.
Definition decode_readdir_resp : bytes → option (list DirEntryWire) :=
  run (count ← rd_u32; rd_repeat (Z.to_nat count) rd_dir_entry).

Definition encode_open_req (root flags : Z) (path : str) : bytes :=
  to_le 4 root ++ to_le 4 flags ++ utf8 path.
Definition decode_open_req : bytes → option (Z * Z * str) :=
  run (root ← rd_u32; flags ← rd_u32; path ← rd_rest_str; mret (root, flags, path)).

Definition encode_open_resp (r : OpenResp) : bytes :=
  to_le 8 (or_fh r) ++ to_le 8 (or_size r) ++ [Z.b2z (or_is_dir r)] ++
  [if or_immutable r then OPEN_RESP_IMMUTABLE else 0] ++ [0; 0] ++ to_le 4 (or_mount_gen r).
Definition decode_open_resp : bytes → option OpenResp :=
  run (fh ← rd_u64; size ← rd_u64; is_dir ← rd_flag; fl ← rd_u8; _ ← rd_take 2; gen ← rd_u32;
       mret {| or_fh := fh; or_size := size; or_is_dir := is_dir;
               or_immutable := negb (Z.land fl OPEN_RESP_IMMUTABLE =? 0); or_mount_gen := gen |}).

Definition encode_read_req (r : ReadReq) : bytes :=
  to_le 8 (rr_fh r) ++ to_le 8 (rr_offset r) ++ to_le 4 (rr_len r) ++ to_le 4 0.
Definition decode_read_req : bytes → option ReadReq :=
  run (fh ← rd_u64; offset ← rd_u64; n ← rd_u32;
       mret {| rr_fh := fh; rr_offset := offset; rr_len := n |}).

Definition encode_read_resp (data : bytes) : bytes :=
  to_le 4 (as_u32 (len data)) ++ to_le 4 0 ++ data.
Definition decode_read_resp : bytes → option bytes :=
  run (n ← rd_u32; _ ← rd_take 4; rd_take n).

(** The caller's buffer [out] after the copy, and the bytes copied. *)
Definition decode_read_resp_into (p out : bytes) : option (Z * bytes) :=
  data ← run (raw ← rd_u32;
              if negb (Z.land raw READ_RESP_BULK_BIT =? 0) then rd_fail
              else _ ← rd_take 4; rd_take raw) p;
  let n := Z.min (len data) (len out) in
  Some (n, take (Z.to_nat n) data ++ drop (Z.to_nat n) out).

Definition encode_read_resp_bulk (bytes_read arena_offset : Z) : bytes :=
  to_le 4 (Z.lor bytes_read READ_RESP_BULK_BIT) ++ to_le 4 0 ++ to_le 8 arena_offset.
Definition decode_read_bulk_resp : bytes → option (Z * Z) :=
  run (raw ← rd_u32;
       if Z.land raw READ_RESP_BULK_BIT =? 0 then rd_fail
       else _ ← rd_take 4; off ← rd_u64;
            mret (Z.land raw (Z.lxor READ_RESP_BULK_BIT (u32_max - 1)), off)).
Definition is_read_resp_bulk (p : bytes) : bool :=
  match run rd_u32 p with
  | Some raw => negb (Z.land raw READ_RESP_BULK_BIT =? 0)
  | None => false
  end.

Definition encode_write_req (r : WriteReq) (data : bytes) : bytes :=
  to_le 8 (wr_fh r) ++ to_le 8 (wr_offset r) ++ to_le 4 (as_u32 (len data)) ++ to_le 4 0 ++ data.
Definition decode_write_req : bytes → option (WriteReq * bytes) :=
  run (fh ← rd_u64; offset ← rd_u64; n ← rd_u32; _ ← rd_take 4; data ← rd_take n;
       mret ({| wr_fh := fh; wr_offset := offset; wr_len := n |}, data)).

Definition encode_write_resp (n : Z) : bytes := to_le 4 n ++ to_le 4 0.
Definition decode_write_resp : bytes → option Z := run rd_u32.

Definition encode_mkdir_req (root mode : Z) (path : str) : bytes :=
  to_le 4 root ++ to_le 4 mode ++ utf8 path.
Definition decode_mkdir_req : bytes → option (Z * Z * str) :=
  run (root ← rd_u32; mode ← rd_u32; path ← rd_rest_str; mret (root, mode, path)).

Definition encode_names_req (root skip : Z) (path : str) : bytes :=
  to_le 4 root ++ to_le 4 skip ++ utf8 path.
Definition decode_names_req : bytes → option (Z * Z * str) :=
  run (root ← rd_u32; skip ← rd_u32; path ← rd_rest_str; mret (root, skip, path)).

Definition encode_names_resp (names : list str) : bytes := utf8 (join slash names).
Definition decode_names_resp (p : bytes) : option (list str) :=
  split_on is_slash <$> from_utf8 p.

Definition encode_rename_req (root : Z) (from to_ : str) : bytes :=
  to_le 4 root ++ to_le 4 (as_u32 (str_len from)) ++ utf8 from ++ utf8 to_.
Definition decode_rename_req : bytes → option (Z * str * str) :=
  run (root ← rd_u32; n ← rd_u32; f ← rd_take n; from ← rd_opt (from_utf8 f);
       to_ ← rd_rest_str; mret (root, from, to_)).

Definition encode_rename_x_req (from_root : Z) (from : str) (to_root : Z) (to_ : str) : bytes :=
  to_le 4 from_root ++ to_le 4 to_root ++ to_le 4 (as_u32 (str_len from)) ++ utf8 from ++ utf8 to_.
Definition decode_rename_x_req : bytes → option (Z * str * Z * str) :=
  run (from_root ← rd_u32; to_root ← rd_u32; n ← rd_u32; f ← rd_take n;
       from ← rd_opt (from_utf8 f); to_ ← rd_rest_str; mret (from_root, from, to_root, to_)).

Definition encode_setattr_req (r : SetattrReq) : bytes := to_le 8 (sr_fh r) ++ to_le 8 (sr_size r).
Definition decode_setattr_req : bytes → option SetattrReq :=
  run (fh ← rd_u64; size ← rd_u64; mret {| sr_fh := fh; sr_size := size |}).

Definition encode_close_req (fh : Z) : bytes := to_le 8 fh.
Definition decode_close_req : bytes → option Z := run rd_u64.

(** ** Registry operations *)

Definition encode_reg_path (path : str) : bytes := put_str path.
Definition decode_reg_path : bytes → option str := run (p ← rd_str; _ ← rd_done; mret p).

Definition encode_reg_set_value (path name : str) (ty : Z) (data : bytes) : bytes :=
  put_str path ++ put_str name ++ to_le 4 ty ++ to_le 4 (as_u32 (len data)) ++ data.
Definition decode_reg_set_value : bytes → option (str * str * Z * bytes) :=
  run (path ← rd_str; name ← rd_str_max MAX_VALUE_NAME; ty ← rd_u32; data ← rd_bytes MAX_DATA;
       _ ← rd_done; mret (path, name, ty, data)).

Definition encode_reg_delete_value (path name : str) : bytes := put_str path ++ put_str name.
Definition decode_reg_delete_value : bytes → option (str * str) :=
  run (path ← rd_str; name ← rd_str_max MAX_VALUE_NAME; _ ← rd_done; mret (path, name)).

Definition encode_reg_create_key (path : str) (vol : bool) : bytes :=
  encode_reg_path path ++ [Z.b2z vol].
Definition decode_reg_create_key : bytes → option (str * bool) :=
  run (path ← rd_str; v ← rd_bool; _ ← rd_done; mret (path, v)).

Definition encode_reg_rename_key (path new_leaf : str) : bytes := put_str path ++ put_str new_leaf.
Definition decode_reg_rename_key : bytes → option (str * str) :=
  run (path ← rd_str; leaf ← rd_str_max MAX_KEY_NAME; _ ← rd_done; mret (path, leaf)).

Definition encode_reg_changed (path : str) (subtree : bool) (version : Z) : bytes :=
  encode_reg_path path ++ [Z.b2z subtree] ++ to_le 8 version.
Definition decode_reg_changed : bytes → option (str * bool * Z) :=
  run (path ← rd_str; subtree ← rd_bool; since ← rd_u64; _ ← rd_done; mret (path, subtree, since)).

Definition encode_reg_changed_reply (changed : bool) (version : Z) : bytes :=
  to_le 8 version ++ [Z.b2z changed].
Definition decode_reg_changed_reply : bytes → option (bool * Z) :=
  run (version ← rd_u64; changed ← rd_bool; _ ← rd_done; mret (changed, version)).

Definition encode_reg_version_reply (version : Z) : bytes := to_le 8 version.
Definition decode_reg_version_reply : bytes → option Z := run (v ← rd_u64; _ ← rd_done; mret v).

Definition encode_reg_lookup_reply (state : Z) (below : bool) (version : Z) : bytes :=
  to_le 8 version ++ [state] ++ [Z.b2z below].
Definition decode_reg_lookup_reply : bytes → option (Z * bool * Z) :=
  run (version ← rd_u64; state ← rd_u8;
       if 3 <? state then rd_fail
       else below ← rd_bool; _ ← rd_done; mret (state, below, version)).

Definition encode_value (v : Value) : bytes :=
  put_str (v_name v) ++ to_le 4 (v_ty v) ++ to_le 4 (as_u32 (len (v_data v))) ++ v_data v.
Definition child_code (c : Child) : Z := match c with Present => 0 | Tombstone => 1 end.
Definition encode_child (kc : str * (str * Child)) : bytes :=
  put_str kc.1 ++ put_str kc.2.1 ++ [child_code kc.2.2].

Definition encode_reg_key_reply (node : option RegNode) (version : Z) : bytes :=
  to_le 8 version ++
  match node with
  | None => [0]
  | Some n =>
      [1] ++ [Z.b2z (created n)] ++ [Z.b2z (volatile n)] ++ to_le 8 (last_write n) ++
      to_le 4 (as_u32 (len (values n))) ++ flat_map encode_value (values n) ++
      to_le 4 (as_u32 (len (value_tombstones n))) ++ flat_map put_str (value_tombstones n) ++
      to_le 4 (as_u32 (len (bt_iter (children n)))) ++ flat_map encode_child (bt_iter (children n))
  end.

Definition rd_value : Rd Value :=
  name ← rd_str_max MAX_VALUE_NAME; ty ← rd_u32; data ← rd_bytes MAX_DATA;
  mret (mkValue name ty data).
Definition rd_child : Rd (str * (str * Child)) :=
  folded ← rd_str_max MAX_KEY_NAME; spelling ← rd_str_max MAX_KEY_NAME; st ← rd_u8;
  if st =? 0 then mret (folded, (spelling, Present))
  else if st =? 1 then mret (folded, (spelling, Tombstone)) else rd_fail.

(** [n.children.insert(..)] in the order the children arrive. *)
Definition insert_all {V} (l : list (str * V)) : gmap str V :=
  fold_left (λ m kv, <[kv.1 := kv.2]> m) l ∅.

Definition decode_reg_key_reply : bytes → option (option RegNode * Z) :=
  run (version ← rd_u64; has ← rd_bool;
       if negb has then _ ← rd_done; mret (None, version)
       else
         cr ← rd_bool; vol ← rd_bool; lw ← rd_u64;
         nv ← rd_u32; vs ← rd_repeat (Z.to_nat nv) rd_value;
         nt ← rd_u32; ts ← rd_repeat (Z.to_nat nt) (rd_str_max MAX_VALUE_NAME);
         nc ← rd_u32; cs ← rd_repeat (Z.to_nat nc) rd_child;
         _ ← rd_done;
         mret (Some (mkRegNode vs ts (insert_all cs) cr vol lw), version)).

(** ** Field conditions *)

(** A string field a codec can carry: valid UTF-8, length fits [u32]. *)
Definition str_ok (s : str) : Prop := valid_str s ∧ str_len s < u32_max.
Definition name_ok (max : Z) (s : str) : Prop := str_ok s ∧ utf16_len s ≤ max.
Definition data_ok (d : bytes) : Prop := len d ≤ MAX_DATA.

Definition dir_entry_ok (e : DirEntryWire) : Prop :=
  str_ok (de_name e) ∧ in_u64 (de_size e) ∧ in_i64 (de_mtime e).
Definition value_ok (v : Value) : Prop :=
  name_ok MAX_VALUE_NAME (v_name v) ∧ in_u32 (v_ty v) ∧ data_ok (v_data v).

Record reg_node_ok (n : RegNode) : Prop := {
  rn_values : Forall value_ok (values n) ∧ len (values n) < u32_max;
  rn_tombs : Forall (name_ok MAX_VALUE_NAME) (value_tombstones n) ∧ len (value_tombstones n) < u32_max;
  rn_children : map_Forall (λ k c, name_ok MAX_KEY_NAME k ∧ name_ok MAX_KEY_NAME c.1) (children n) ∧
    Z.of_nat (size (children n)) < u32_max;
  rn_last_write : in_u64 (last_write n) }.

(** ** Lemmas *)

#[local] Opaque to_le utf8.

Lemma Reads_str_ok s : str_ok s → Reads rd_str (put_str s) s.
Proof. intros [? ?]. by apply Reads_str. Qed.
Lemma Reads_name_ok max s : name_ok max s → Reads (rd_str_max max) (put_str s) s.
Proof. intros [[? ?] ?]. by apply Reads_str_max. Qed.
Lemma Reads_data_ok d : data_ok d → Reads (rd_bytes MAX_DATA) (to_le 4 (as_u32 (len d)) ++ d) d.
Proof. intros. by apply Reads_bytes. Qed.
Lemma Reads_len {A} (l : list A) : len l < u32_max → Reads rd_u32 (to_le 4 (as_u32 (len l))) (len l).
Proof. intros. rewrite as_u32_len by done. by apply Reads_u32, in_u32_len. Qed.
Lemma Reads_pad : Reads (rd_take 4) (to_le 4 0) (to_le 4 0).
Proof. by apply Reads_take_eq. Qed.
Lemma Reads_opt {A} (a : A) : Reads (rd_opt (Some a)) [] a.
Proof. done. Qed.
#[export] Hint Resolve Reads_str_ok Reads_name_ok Reads_data_ok Reads_len Reads_pad : wire.
#[export] Hint Resolve in_u32_len : wire.

Lemma as_u32_len_eq {A} (l : list A) : len l < u32_max → Z.to_nat (len l) = length l.
Proof. intros _. unfold len. lia. Qed.

Ltac rd_field := first
  [ erewrite run_bind by (eauto with wire) | eapply Reads_bind; [solve [eauto with wire]|] ].

Lemma Reads_i64_field x : in_i64 x → Reads rd_i64 (to_le 8 x) x.
Proof. apply Reads_i64. Qed.
#[export] Hint Resolve Reads_i64_field : wire.

Lemma Reads_last {A B} (r : Rd A) b a (f : A → B) : Reads r b a → Reads (x ← r; mret (f x)) b (f a).
Proof.
  intros H. rewrite <- (app_nil_r b). eapply Reads_bind; [done|]. apply Reads_ret.
Qed.

Lemma Reads_dir_entry e : dir_entry_ok e → Reads rd_dir_entry (encode_dir_entry e) e.
Proof.
  intros (Hn & Hs & Hm). destruct e as [name d size mtime]. unfold encode_dir_entry.
  cbn [de_name de_is_dir de_size de_mtime] in *.
  rewrite app_assoc. change (to_le 4 (as_u32 (len (utf8 name))) ++ utf8 name) with (put_str name).
  unfold rd_dir_entry. do 3 rd_field.
  apply (Reads_last rd_i64 (to_le 8 mtime) mtime (λ m, {| de_name := name; de_is_dir := d;
    de_size := size; de_mtime := m |})). by apply Reads_i64.
Qed.

Lemma Reads_value v : value_ok v → Reads rd_value (encode_value v) v.
Proof.
  intros (Hn & Ht & Hd). destruct v as [name ty data]. unfold encode_value, rd_value.
  cbn [v_name v_ty v_data] in *.
  do 2 rd_field. apply (Reads_last _ _ data (mkValue name ty)). by apply Reads_data_ok.
Qed.

Lemma Reads_child kc :
  name_ok MAX_KEY_NAME kc.1 → name_ok MAX_KEY_NAME kc.2.1 → Reads rd_child (encode_child kc) kc.
Proof.
  intros H1 H2. destruct kc as (k & s & st). unfold encode_child, rd_child.
  cbn [fst snd] in *.
  do 2 rd_field. rewrite <- (app_nil_r [_]). eapply Reads_bind; [apply Reads_u8|].
  by destruct st.
Qed.

Lemma insert_all_perm {V} (l : list (str * V)) : NoDup l.*1 → insert_all l = list_to_map l.
Proof.
  unfold insert_all. intros Hnd.
  assert (∀ m : gmap str V, fold_left (λ m kv, <[kv.1 := kv.2]> m) l m = list_to_map l ∪ m) as H.
  { induction l as [|[k v] l IH]; intros m; simpl; [by rewrite (left_id_L ∅ (∪))|].
    apply NoDup_cons in Hnd as [Hk Hnd]. rewrite IH by done.
    rewrite <- insert_union_l. rewrite insert_union_r; [done|].
    by apply not_elem_of_list_to_map_1. }
  rewrite H. apply (right_id_L ∅ (∪)).
Qed.

Lemma insert_all_bt_iter {V} (m : gmap str V) : insert_all (bt_iter m) = m.
Proof. rewrite insert_all_perm by apply bt_iter_nodup. apply bt_iter_of_list. Qed.

Lemma bt_iter_len {V} (m : gmap str V) : len (bt_iter m) = Z.of_nat (size m).
Proof. unfold len. rewrite (Permutation_length (bt_iter_perm m)). by rewrite length_map_to_list. Qed.

Lemma run_rest {A} (f : str → A) s :
  valid_str s → run (p ← rd_rest_str; mret (f p)) (utf8 s) = Some (f s).
Proof.
  intros Hs. unfold run, mbind, Rd_bind, rd_rest_str. by rewrite from_utf8_utf8.
Qed.

(** A path given with its length, as the source reads it field by field. *)
Lemma Reads_len_path {B} s (f : str → Rd B) b x :
  str_ok s → Reads (f s) b x →
  Reads (n ← rd_u32; h ← rd_take n; from ← rd_opt (from_utf8 h); f from)
    (to_le 4 (as_u32 (str_len s)) ++ utf8 s ++ b) x.
Proof.
  intros [Hv Hl] Hf. eapply Reads_bind; [by apply Reads_len|].
  eapply Reads_bind; [apply Reads_take|]. rewrite from_utf8_utf8 by done. apply Hf.
Qed.

Lemma run_len_path {B} s (f : str → Rd B) b :
  str_ok s →
  run (n ← rd_u32; h ← rd_take n; from ← rd_opt (from_utf8 h); f from)
    (to_le 4 (as_u32 (str_len s)) ++ utf8 s ++ b) = run (f s) b.
Proof.
  intros [Hv Hl]. unfold str_len in *. erewrite run_bind by (by apply Reads_len).
  erewrite run_bind by apply Reads_take. by rewrite from_utf8_utf8 by done.
Qed.

Lemma Reads_count {A} (r : Rd A) enc (l : list A) :
  len l < u32_max → Forall (λ a, Reads r (enc a) a) l →
  Reads (n ← rd_u32; rd_repeat (Z.to_nat n) r) (to_le 4 (as_u32 (len l)) ++ flat_map enc l) l.
Proof.
  intros Hl H. eapply Reads_bind; [by apply Reads_len|].
  rewrite as_u32_len_eq by done. by apply Reads_repeat.
Qed.

Lemma run_count {A B} (r : Rd A) enc (l : list A) (f : list A → Rd B) b :
  len l < u32_max → Forall (λ a, Reads r (enc a) a) l →
  run (n ← rd_u32; x ← rd_repeat (Z.to_nat n) r; f x)
    (to_le 4 (as_u32 (len l)) ++ flat_map enc l ++ b) = run (f l) b.
Proof.
  intros Hl H. erewrite run_bind by (by apply Reads_len).
  rewrite as_u32_len_eq by done. erewrite run_bind by (by apply Reads_repeat). done.
Qed.

Lemma bulk_bit_clear n : 0 ≤ n < 2 ^ 31 → Z.land n READ_RESP_BULK_BIT = 0.
Proof.
  intros Hn. apply Z.bits_inj'. intros k Hk. rewrite Z.land_spec, Z.bits_0.
  change READ_RESP_BULK_BIT with (2 ^ 31). rewrite Z.pow2_bits_eqb by lia.
  destruct (Z.eqb_spec 31 k) as [<-|]; [|by rewrite andb_false_r].
  assert (Z.testbit n 31 = false) as ->; [|done].
  apply Z.testbit_false; [lia|]. by rewrite Z.div_small by lia.
Qed.

Lemma bulk_bit_set n :
  0 ≤ n < 2 ^ 31 →
  Z.lor n READ_RESP_BULK_BIT = n + 2 ^ 31 ∧
  Z.land (n + 2 ^ 31) READ_RESP_BULK_BIT = 2 ^ 31 ∧
  Z.land (n + 2 ^ 31) (Z.lxor READ_RESP_BULK_BIT (u32_max - 1)) = n.
Proof.
  intros Hn. pose proof (bulk_bit_clear n Hn) as Hc.
  assert (Z.lor n READ_RESP_BULK_BIT = n + 2 ^ 31) as E.
  { pose proof (Z.add_lor_land n READ_RESP_BULK_BIT) as H. rewrite Hc in H.
    change READ_RESP_BULK_BIT with (2 ^ 31) in *. lia. }
  split; [done|]. rewrite <- E. split.
  - rewrite Z.land_lor_distr_l, Hc. done.
  - change (Z.lxor READ_RESP_BULK_BIT (u32_max - 1)) with (Z.ones 31).
    rewrite Z.land_ones by lia. rewrite E. change READ_RESP_BULK_BIT with (2 ^ 31).
    rewrite <- (Z.mul_1_l (2 ^ 31)) at 1. rewrite Z_mod_plus_full. by apply Z.mod_small.
Qed.

(** *** Single messages *)

Lemma path_req_rt root path : in_u32 root → valid_str path → decode_path_req (encode_path_req root path) = Some (root, path).
Proof.
  intros Hr Hp. unfold decode_path_req, encode_path_req. rd_field. by apply (run_rest (λ p, (root, p))).
Qed.
Lemma open_req_rt root x path :
  in_u32 root → in_u32 x → valid_str path → decode_open_req (encode_open_req root x path) = Some (root, x, path).
Proof.
  intros Hr Hx Hp. unfold decode_open_req, encode_open_req. do 2 rd_field. by apply (run_rest (λ p, (root, x, p))).
Qed.
Lemma read_req_prefix fh offset n b :
  in_u64 fh → in_u64 offset → in_u32 n →
  decode_read_req (to_le 8 fh ++ to_le 8 offset ++ to_le 4 n ++ b) =
    Some {| rr_fh := fh; rr_offset := offset; rr_len := n |}.
Proof. intros Hf Ho Hn. unfold decode_read_req. do 3 rd_field. done. Qed.
Lemma write_req_rt fh offset n data :
  in_u64 fh → in_u64 offset → len data < u32_max →
  decode_write_req (encode_write_req {| wr_fh := fh; wr_offset := offset; wr_len := n |} data) =
    Some ({| wr_fh := fh; wr_offset := offset; wr_len := len data |}, data).
Proof.
  intros Hf Ho Hd. unfold decode_write_req, encode_write_req. cbn [wr_fh wr_offset]. do 4 rd_field.
  apply run_Reads, (Reads_last _ _ data (λ d, ({| wr_fh := fh; wr_offset := offset; wr_len := len data |}, d))).
  apply Reads_take.
Qed.
Lemma close_req_rt fh : in_u64 fh → decode_close_req (encode_close_req fh) = Some fh.
Proof. intros Hf. apply run_Reads. by apply Reads_u64. Qed.

Lemma getattr_resp_rt a :
  in_u64 (ar_size a) → in_i64 (ar_mtime a) → decode_getattr_resp (encode_getattr_resp a) = Some a.
Proof.
  intros Ha1 Ha2. destruct a as [f d s m]. unfold decode_getattr_resp, encode_getattr_resp.
  cbn [ar_found ar_is_dir ar_size ar_mtime] in *. do 3 rd_field.
  apply run_Reads, (Reads_last _ _ m (λ m, {| ar_found := f; ar_is_dir := d; ar_size := s; ar_mtime := m |})).
  by apply Reads_i64.
Qed.
Lemma readdir_resp_rt es :
  Forall dir_entry_ok es → len es < u32_max → decode_readdir_resp (encode_readdir_resp es) = Some es.
Proof.
  intros Hes Hel. apply run_Reads, Reads_count; [done|]. eapply Forall_impl; [exact Hes|].
  intros e He. by apply Reads_dir_entry.
Qed.
Lemma open_resp_rt o :
  in_u64 (or_fh o) → in_u64 (or_size o) → in_u32 (or_mount_gen o) → decode_open_resp (encode_open_resp o) = Some o.
Proof.
  intros Ho1 Ho2 Ho3. destruct o as [fh size d im gen]. unfold decode_open_resp, encode_open_resp.
  cbn [or_fh or_size or_is_dir or_immutable or_mount_gen] in *. do 5 rd_field.
  assert (negb (Z.land (if im then OPEN_RESP_IMMUTABLE else 0) OPEN_RESP_IMMUTABLE =? 0) = im) as ->
    by (by destruct im).
  apply run_Reads, (Reads_last _ _ gen (λ g, {| or_fh := fh; or_size := size; or_is_dir := d;
    or_immutable := im; or_mount_gen := g |})). by apply Reads_u32.
Qed.
Lemma read_resp_rt data : len data < u32_max → decode_read_resp (encode_read_resp data) = Some data.
Proof. intros Hd. unfold decode_read_resp, encode_read_resp. do 2 rd_field. apply run_Reads, Reads_take. Qed.
Lemma write_resp_rt n : in_u32 n → decode_write_resp (encode_write_resp n) = Some n.
Proof. intros Hn. unfold decode_write_resp, encode_write_resp. by apply run_Reads_app, Reads_u32. Qed.

(** ** Properties *)

(** Property: every path-carrying file request decodes to what was encoded, for any
    [u32] root and flags and any path (one whose length fits [u32] where it
    travels with its length): the root an operation is addressed to can not be
    confused with the path. *)
Theorem path_requests_roundtrip root x path to_ :
  in_u32 root → in_u32 x → str_ok path → valid_str to_ →
  decode_path_req (encode_path_req root path) = Some (root, path) ∧
  decode_open_req (encode_open_req root x path) = Some (root, x, path) ∧
  decode_mkdir_req (encode_mkdir_req root x path) = Some (root, x, path) ∧
  decode_names_req (encode_names_req root x path) = Some (root, x, path) ∧
  decode_rename_req (encode_rename_req root path to_) = Some (root, path, to_) ∧
  decode_rename_x_req (encode_rename_x_req root path x to_) = Some (root, path, x, to_).
Proof.
  intros Hr Hx Hp Ht. assert (valid_str path) as Hv by apply Hp.
  repeat split.
  - by apply path_req_rt.
  - by apply open_req_rt.
  - unfold decode_mkdir_req, encode_mkdir_req. do 2 rd_field. by apply (run_rest (λ p, (root, x, p))).
  - unfold decode_names_req, encode_names_req. do 2 rd_field. by apply (run_rest (λ p, (root, x, p))).
  - unfold decode_rename_req, encode_rename_req. rd_field. rewrite run_len_path by done.
    by apply (run_rest (λ p, (root, path, p))).
  - unfold decode_rename_x_req, encode_rename_x_req. do 2 rd_field. rewrite run_len_path by done.
    by apply (run_rest (λ p, (root, path, x, p))).
Qed.

(** Property: the handle-carrying requests round-trip at full width: READ, WRITE
    (with its data), SETATTR and CLOSE; and a READ request without its
    trailing padding still decodes. *)
Theorem handle_requests_roundtrip fh offset n data :
  in_u64 fh → in_u64 offset → in_u32 n → len data < u32_max →
  decode_read_req (encode_read_req {| rr_fh := fh; rr_offset := offset; rr_len := n |}) =
    Some {| rr_fh := fh; rr_offset := offset; rr_len := n |} ∧
  decode_read_req (take 20 (encode_read_req {| rr_fh := fh; rr_offset := offset; rr_len := n |})) =
    Some {| rr_fh := fh; rr_offset := offset; rr_len := n |} ∧
  decode_write_req (encode_write_req {| wr_fh := fh; wr_offset := offset; wr_len := n |} data) =
    Some ({| wr_fh := fh; wr_offset := offset; wr_len := len data |}, data) ∧
  decode_setattr_req (encode_setattr_req {| sr_fh := fh; sr_size := offset |}) =
    Some {| sr_fh := fh; sr_size := offset |} ∧
  decode_close_req (encode_close_req fh) = Some fh.
Proof.
  intros Hf Ho Hn Hd. pose proof (λ b, read_req_prefix fh offset n b Hf Ho Hn) as Hread.
  repeat split.
  - apply Hread.
  - unfold encode_read_req. cbn [rr_fh rr_offset rr_len].
    rewrite !app_assoc, take_app_le.
    2:{ rewrite !length_app, !length_to_le. done. }
    rewrite take_ge by (rewrite !length_app, !length_to_le; done).
    specialize (Hread []). rewrite app_nil_r, app_assoc in Hread. done.
  - by apply write_req_rt.
  - unfold decode_setattr_req, encode_setattr_req. cbn [sr_fh sr_size]. rd_field.
    apply run_Reads, (Reads_last _ _ offset (λ s, {| sr_fh := fh; sr_size := s |})). by apply Reads_u64.
  - by apply close_req_rt.
Qed.

(** Property: the file replies round-trip: attributes, directory listings of any
    number of entries, open replies with the immutable flag and the mount
    generation in what used to be padding, data, byte counts, and stored
    names (names have no slash, and an empty reply is one empty name). *)
Theorem file_replies_roundtrip a es o data n names :
  in_u64 (ar_size a) → in_i64 (ar_mtime a) →
  Forall dir_entry_ok es → len es < u32_max →
  in_u64 (or_fh o) → in_u64 (or_size o) → in_u32 (or_mount_gen o) →
  len data < u32_max → in_u32 n →
  names ≠ [] → Forall (λ s, valid_str s ∧ no_char is_slash s) names →
  decode_getattr_resp (encode_getattr_resp a) = Some a ∧
  decode_readdir_resp (encode_readdir_resp es) = Some es ∧
  decode_open_resp (encode_open_resp o) = Some o ∧
  decode_read_resp (encode_read_resp data) = Some data ∧
  decode_write_resp (encode_write_resp n) = Some n ∧
  decode_names_resp (encode_names_resp names) = Some names.
Proof.
  intros Ha1 Ha2 Hes Hel Ho1 Ho2 Ho3 Hd Hn Hne Hnames. repeat split.
  - by apply getattr_resp_rt.
  - by apply readdir_resp_rt.
  - by apply open_resp_rt.
  - by apply read_resp_rt.
  - by apply write_resp_rt.
  - unfold decode_names_resp, encode_names_resp. rewrite from_utf8_utf8.
    + cbn [fmap option_fmap option_map]. f_equal. apply split_join; [done|done|].
      eapply Forall_impl; [exact Hnames|]. naive_solver.
    + clear Hne. induction Hnames as [|s l [Hs _] Hl IH]; [apply Forall_nil; done|].
      destruct (decide (l = [])) as [->|Hl']; [done|]. rewrite join_cons by done.
      apply Forall_app. split; [done|]. apply Forall_cons. done.
Qed.

(** Property: a bulk READ reply gives back the byte count and arena offset, an
    inline reply gives back its data (cut to the caller's buffer, which keeps
    its tail), and neither is ever taken for the other, for counts below
    2^31. *)
Theorem read_replies_distinct data out n off :
  len data < 2 ^ 31 → 0 ≤ n < 2 ^ 31 → in_u64 off →
  decode_read_bulk_resp (encode_read_resp_bulk n off) = Some (n, off) ∧
  is_read_resp_bulk (encode_read_resp_bulk n off) = true ∧
  decode_read_resp_into (encode_read_resp_bulk n off) out = None ∧
  is_read_resp_bulk (encode_read_resp data) = false ∧
  decode_read_bulk_resp (encode_read_resp data) = None ∧
  decode_read_resp_into (encode_read_resp data) out =
    Some (Z.min (len data) (len out), take (length out) data ++ drop (length data) out).
Proof.
  intros Hd Hn Hoff. destruct (bulk_bit_set n Hn) as (E1 & E2 & E3).
  pose proof (len_nonneg data).
  pose proof (bulk_bit_clear (len data) ltac:(lia)) as E4.
  assert (Reads rd_u32 (to_le 4 (n + 2 ^ 31)) (n + 2 ^ 31)) as Rb
    by (apply Reads_u32; unfold in_u32, u32_max; lia).
  assert (Reads rd_u32 (to_le 4 (as_u32 (len data))) (len data)) as Ri
    by (apply Reads_len; unfold u32_max; lia).
  unfold decode_read_bulk_resp, is_read_resp_bulk, decode_read_resp_into,
    encode_read_resp_bulk, encode_read_resp. rewrite E1.
  rewrite (run_Reads_app _ _ _ _ Rb), (run_Reads_app _ _ _ _ Ri).
  rewrite !(run_bind rd_u32 _ _ _ _ Rb), !(run_bind rd_u32 _ _ _ _ Ri), E2, E4.
  cbn [Z.eqb negb]. repeat split; try done.
  - change (2 ^ 31 =? 0) with false. cbn [negb]. rd_field.
    rewrite E3. apply run_Reads. apply (Reads_last rd_u64 _ off (λ o, (n, o))).
    by apply Reads_u64.
  - rd_field. rewrite (run_Reads _ _ _ (Reads_take data)). cbn [mbind option_bind].
    do 2 f_equal. unfold len. destruct (decide (length data ≤ length out)%nat).
    + replace (Z.to_nat (Z.min (Z.of_nat (length data)) (Z.of_nat (length out)))) with (length data) by lia.
      rewrite !take_ge by lia. done.
    + replace (Z.to_nat (Z.min (Z.of_nat (length data)) (Z.of_nat (length out)))) with (length out) by lia.
      rewrite !drop_ge by lia. done.
Qed.

(** Property: the registry requests round-trip within the registry's own limits
    (value names, key names, data), and a version travels at full width. *)
Theorem reg_requests_roundtrip path name leaf ty data b v :
  str_ok path → name_ok MAX_VALUE_NAME name → name_ok MAX_KEY_NAME leaf →
  in_u32 ty → data_ok data → in_u64 v →
  decode_reg_path (encode_reg_path path) = Some path ∧
  decode_reg_set_value (encode_reg_set_value path name ty data) = Some (path, name, ty, data) ∧
  decode_reg_delete_value (encode_reg_delete_value path name) = Some (path, name) ∧
  decode_reg_create_key (encode_reg_create_key path b) = Some (path, b) ∧
  decode_reg_rename_key (encode_reg_rename_key path leaf) = Some (path, leaf) ∧
  decode_reg_changed (encode_reg_changed path b v) = Some (path, b, v) ∧
  decode_reg_changed_reply (encode_reg_changed_reply b v) = Some (b, v) ∧
  decode_reg_version_reply (encode_reg_version_reply v) = Some v.
Proof.
  intros Hp Hn Hl Ht Hd Hv.
  assert (∀ A (a : A), run (_ ← rd_done; mret a) [] = Some a) as Hdone by done.
  unfold decode_reg_path, decode_reg_set_value, decode_reg_delete_value, decode_reg_create_key,
    decode_reg_rename_key, decode_reg_changed, decode_reg_changed_reply, decode_reg_version_reply,
    encode_reg_path, encode_reg_set_value, encode_reg_delete_value, encode_reg_create_key,
    encode_reg_rename_key, encode_reg_changed, encode_reg_changed_reply, encode_reg_version_reply,
    encode_reg_path.
  repeat split.
  - rewrite <- (app_nil_r (put_str path)). rd_field. apply Hdone.
  - do 3 rd_field. rewrite <- (app_nil_r (_ ++ data)). rd_field. apply Hdone.
  - rd_field. rewrite <- (app_nil_r (put_str name)). rd_field. apply Hdone.
  - rd_field. rewrite <- (app_nil_r [_]). rd_field. apply Hdone.
  - rd_field. rewrite <- (app_nil_r (put_str leaf)). rd_field. apply Hdone.
  - do 2 rd_field. rewrite <- (app_nil_r (to_le 8 v)). rd_field. apply Hdone.
  - rd_field. rewrite <- (app_nil_r [_]). rd_field. apply Hdone.
  - rewrite <- (app_nil_r (to_le 8 v)). rd_field. apply Hdone.
Qed.

(** Property: the registry request decoders accept nothing but encodings: whatever
    bytes they accept are exactly the encoding of the request they return, and
    the request is within the limits; truncated, over-long, trailing or
    malformed input is refused. *)
Theorem reg_requests_exact b :
  Forall byte_ok b →
  (∀ p, decode_reg_path b = Some p → b = encode_reg_path p ∧ valid_str p) ∧
  (∀ p n ty d, decode_reg_set_value b = Some (p, n, ty, d) →
     b = encode_reg_set_value p n ty d ∧ utf16_len n ≤ MAX_VALUE_NAME ∧ data_ok d) ∧
  (∀ p n, decode_reg_delete_value b = Some (p, n) →
     b = encode_reg_delete_value p n ∧ utf16_len n ≤ MAX_VALUE_NAME) ∧
  (∀ p v, decode_reg_create_key b = Some (p, v) → b = encode_reg_create_key p v) ∧
  (∀ p l, decode_reg_rename_key b = Some (p, l) →
     b = encode_reg_rename_key p l ∧ utf16_len l ≤ MAX_KEY_NAME) ∧
  (∀ p s v, decode_reg_changed b = Some (p, s, v) → b = encode_reg_changed p s v ∧ in_u64 v) ∧
  (∀ s bl v, decode_reg_lookup_reply b = Some (s, bl, v) → b = encode_reg_lookup_reply s bl v ∧ 0 ≤ s ≤ 3).
Proof.
  intros Hb. repeat apply conj.
  - intros p (t & H)%run_Some. do 2 rd_inv H. injection H as -> ->. by rewrite app_nil_r.
  - intros p n ty d (t & H)%run_Some. do 5 rd_inv H. injection H as -> -> -> -> ->.
    rewrite app_nil_r. done.
  - intros p n (t & H)%run_Some. do 3 rd_inv H. injection H as -> -> ->. by rewrite app_nil_r.
  - intros p v (t & H)%run_Some. do 3 rd_inv H. injection H as -> -> ->. done.
  - intros p l (t & H)%run_Some. do 3 rd_inv H. injection H as -> -> ->. by rewrite app_nil_r.
  - intros p s v (t & H)%run_Some. do 4 rd_inv H. injection H as -> -> -> ->.
    rewrite app_nil_r. unfold encode_reg_changed, encode_reg_path. done.
  - intros s bl v (t & H)%run_Some. do 2 rd_inv H. destruct (Z.ltb_spec 3 x1); [done|].
    do 2 rd_inv H. injection H as -> -> -> ->. unfold byte_ok in *. split; [done|lia].
Qed.

(** Property: a REG_KEY reply carries a whole overlay node: flags, last-write time,
    values in order, value tombstones and the child table, for every node
    within the registry's limits; and a "no node" reply is told apart from
    every node. *)
Theorem reg_key_reply_roundtrip n v :
  reg_node_ok n → in_u64 v →
  decode_reg_key_reply (encode_reg_key_reply (Some n) v) = Some (Some n, v) ∧
  decode_reg_key_reply (encode_reg_key_reply None v) = Some (None, v).
Proof.
  intros [[Hv Hvl] [Ht Htl] [Hc Hcl] Hlw] Hver. unfold decode_reg_key_reply, encode_reg_key_reply. split.
  - destruct n as [vs ts ch cr vol lw]. cbn [values value_tombstones children created volatile last_write] in *.
    rd_field. change [1] with [Z.b2z true]. rd_field. cbn [negb]. do 3 rd_field.
    rewrite run_count; [|done|eapply Forall_impl; [exact Hv|]; intros; by apply Reads_value].
    rewrite run_count; [|done|eapply Forall_impl; [exact Ht|]; intros; by apply Reads_name_ok].
    rewrite <- (app_nil_r (flat_map encode_child _)).
    rewrite run_count; [|by rewrite bt_iter_len|].
    + rewrite insert_all_bt_iter. done.
    + apply Forall_forall. intros [k c] Hk. apply bt_iter_elem in Hk.
      destruct (Hc k c Hk) as [H1 H2]. by apply Reads_child.
  - rd_field. change [0] with [Z.b2z false ]. rewrite <- (app_nil_r [_]). rd_field. done.
Qed.

(** ** Witnesses *)

Module ProtocolDemo.
Definition path : str := lit "data/a.esp".
Definition entry : DirEntryWire :=
{| de_name := lit "a.esp"; de_is_dir := false; de_size := 10; de_mtime := -3 |}.
Definition node : RegNode :=
mkRegNode [mkValue (lit "Path") 1 (lit "C")] [lit "old"]
  {[ lit "sub" := (lit "Sub", Tombstone) ]} true false 7.
End ProtocolDemo.

(** Discharge the closed side conditions of the witnesses. *)
Lemma str_okb s : forallb scalarb s = true → (str_len s <? u32_max) = true → str_ok s.
Proof. intros H1 H2. split; [by apply valid_strb|by apply Z.ltb_lt]. Qed.
Lemma name_okb max s :
  forallb scalarb s = true → (str_len s <? u32_max) = true → (utf16_len s <=? max) = true → name_ok max s.
Proof. intros. split; [by apply str_okb|by apply Z.leb_le]. Qed.

Ltac wit :=
  match goal with
  | |- in_u32 _ => unfold in_u32, u32_max; vm_compute; split; [intros|]; congruence
  | |- in_u64 _ => unfold in_u64, u64_max; vm_compute; split; [intros|]; congruence
  | |- in_i64 _ => unfold in_i64; vm_compute; split; [intros|]; congruence
  | |- str_ok _ => apply str_okb; vm_compute; reflexivity
  | |- name_ok _ _ => apply name_okb; vm_compute; reflexivity
  | |- valid_str _ => apply valid_strb; vm_compute; reflexivity
  | |- _ < _ => vm_compute; reflexivity
  | |- data_ok _ => unfold data_ok; vm_compute; intros; congruence
  | |- _ ≤ _ => vm_compute; intros; congruence
  end.

Lemma path_requests_roundtrip_witness :
  decode_rename_x_req (encode_rename_x_req 1 ProtocolDemo.path 2 (lit "b")) =
    Some (1, ProtocolDemo.path, 2, lit "b").
Proof. apply (path_requests_roundtrip 1 2 ProtocolDemo.path (lit "b")); wit. Defined.

Lemma handle_requests_roundtrip_witness :
  decode_write_req (encode_write_req {| wr_fh := 7; wr_offset := 2 ^ 40; wr_len := 3 |} (lit "abc")) =
    Some ({| wr_fh := 7; wr_offset := 2 ^ 40; wr_len := 3 |}, lit "abc").
Proof. apply (handle_requests_roundtrip 7 (2 ^ 40) 3 (lit "abc")); wit. Defined.

Lemma file_replies_roundtrip_witness :
  decode_readdir_resp (encode_readdir_resp [ProtocolDemo.entry]) = Some [ProtocolDemo.entry].
Proof.
  apply (file_replies_roundtrip {| ar_found := true; ar_is_dir := false; ar_size := 1; ar_mtime := -1 |}
    [ProtocolDemo.entry] {| or_fh := 1; or_size := 2; or_is_dir := false; or_immutable := true; or_mount_gen := 9 |}
    (lit "abc") 3 [lit "Data"]); try wit.
  - repeat constructor; simpl; wit.
  - discriminate.
  - apply Forall_cons. split; [|by apply Forall_nil]. split; [wit|].
    repeat (apply Forall_cons; split; [reflexivity|]). apply Forall_nil. exact I.
Defined.

Lemma read_replies_distinct_witness :
  decode_read_bulk_resp (encode_read_resp_bulk 4096 65536) = Some (4096, 65536).
Proof. apply (read_replies_distinct (lit "abc") (lit "zzzzz") 4096 65536); try wit. lia. Defined.

Lemma reg_requests_roundtrip_witness :
  decode_reg_set_value (encode_reg_set_value (lit "k") (lit "n") 1 (lit "d")) =
    Some (lit "k", lit "n", 1, lit "d").
Proof. apply (reg_requests_roundtrip (lit "k") (lit "n") (lit "l") 1 (lit "d") true 5); wit. Defined.

Lemma reg_requests_exact_witness :
  encode_reg_path (lit "k") = encode_reg_path (lit "k") ∧ valid_str (lit "k").
Proof.
  apply (reg_requests_exact (encode_reg_path (lit "k"))).
  - apply bytes_okb. vm_compute. reflexivity.
  - vm_compute. reflexivity.
Defined.

Lemma reg_key_reply_roundtrip_witness :
  decode_reg_key_reply (encode_reg_key_reply (Some ProtocolDemo.node) 3) = Some (Some ProtocolDemo.node, 3).
Proof.
  apply (reg_key_reply_roundtrip ProtocolDemo.node 3); [|wit]. split; simpl.
  - split; [|wit]. apply Forall_cons. split; [|by apply Forall_nil].
    split; [|split]; simpl; wit.
  - split; [|wit]. apply Forall_cons. split; [wit|by apply Forall_nil].
  - split; [|wit]. apply map_Forall_singleton. split; wit.
  - wit.
Defined.
