(* ===== verification/ShimCfg.v ===== *)
(** ShimCfg: the configuration buffer the injected shim reads at bootstrap
    (rust/crates/vfs-protocol/src/shimcfg.rs). *)

From S2P Require Import Prelude Text Wire.

(** ** Model *)

Record StaticImport := { dll_name : str; backing_path : str }.
Record ShimConfig := { root : str; static_imports : list StaticImport }.

Inductive ConfigError :=
  | Unversioned
  | Version (found expected : Z)
  | Malformed.

Definition CONFIG_MAGIC : bytes := [86; 70; 83; 67].
Definition CONFIG_VERSION : Z := 2.

Definition encode_import (e : StaticImport) : bytes :=
  to_le 4 (as_u32 (len (utf8 (dll_name e)))) ++ utf8 (dll_name e) ++
  to_le 4 (as_u32 (len (utf8 (backing_path e)))) ++ utf8 (backing_path e).

Definition encode_config_full (root : str) (imports : list StaticImport) : bytes :=
  CONFIG_MAGIC ++ to_le 4 CONFIG_VERSION ++
  to_le 4 (as_u32 (len (utf8 root))) ++ utf8 root ++
  to_le 4 (as_u32 (len imports)) ++ flat_map encode_import imports.

Definition encode_config (root : str) : bytes := encode_config_full root [].

(** [b.get(lo..hi)]. *)
Definition get_range (b : bytes) (lo hi : Z) : option bytes :=
  if (lo <=? hi) && (hi <=? len b) then Some (take (Z.to_nat (hi - lo)) (drop (Z.to_nat lo) b))
  else None.

(** [a.checked_add(b)] on a 64-bit [usize]. *)
Definition checked_add (a b : Z) : option Z :=
  if a + b <? u64_max then Some (a + b) else None.

Definition read_u32 (b : bytes) (off : Z) : option Z :=
  e ← checked_add off 4; h ← get_range b off e; Some (from_le h).

Definition read_field (b : bytes) (off : Z) : option (str * Z) :=
  n ← read_u32 b off;
  let start := off + 4 in
  e ← checked_add start n;
  h ← get_range b start e; s ← from_utf8 h; Some (s, e).

Fixpoint read_imports (n : nat) (b : bytes) (off : Z) : option (list StaticImport * Z) :=
  match n with
  | O => Some ([], off)
  | S n =>
      f ← read_field b off; g ← read_field b f.2;
      r ← read_imports n b g.2;
      Some ({| dll_name := f.1; backing_path := g.1 |} :: r.1, r.2)
  end.

Definition decode_v2_body (b : bytes) : option ShimConfig :=
  f ← read_field b 0;
  n ← read_u32 b f.2;
  r ← read_imports (Z.to_nat n) b (f.2 + 4);
  if r.2 =? len b then Some {| root := f.1; static_imports := r.1 |} else None.

Definition decode_config (b : bytes) : result ConfigError ShimConfig :=
  if len b <? 4 then Err Malformed
  else if negb (bool_decide (take 4 b = CONFIG_MAGIC)) then Err Unversioned
  else
    found ← ok_or Malformed (read_u32 b 4);
    if negb (found =? CONFIG_VERSION) then Err (Version found CONFIG_VERSION)
    else ok_or Malformed (decode_v2_body (drop 8 b)).

(** ** Lemmas *)

Definition cfg_str_ok (s : str) : Prop := valid_str s ∧ str_len s < u32_max.
Definition import_ok (e : StaticImport) : Prop :=
  cfg_str_ok (dll_name e) ∧ cfg_str_ok (backing_path e).

Lemma get_range_mid pre h post :
  get_range (pre ++ h ++ post) (len pre) (len pre + len h) = Some h.
Proof.
  unfold get_range. rewrite !len_app. pose proof (len_nonneg h). pose proof (len_nonneg post).
  destruct (Z.leb_spec (len pre) (len pre + len h)); [|lia].
  destruct (Z.leb_spec (len pre + len h) (len pre + (len h + len post))); [|lia]. simpl.
  replace (Z.to_nat (len pre + len h - len pre)) with (length h) by (unfold len; lia).
  replace (Z.to_nat (len pre)) with (length pre) by (unfold len; lia).
  by rewrite drop_app_length, take_app_length.
Qed.

Section read.
(** The buffer is addressable. *)
Context (b : bytes) (Hb : len b < u64_max).

Lemma read_u32_mid pre x post :
b = pre ++ to_le 4 x ++ post → in_u32 x → read_u32 b (len pre) = Some x.
Proof.
intros E Hx. unfold read_u32, checked_add.
assert (len pre + 4 ≤ len b) as Hle.
{ rewrite E, !len_app, len_to_le. pose proof (len_nonneg post). lia. }
destruct (Z.ltb_spec (len pre + 4) u64_max); [|lia]. cbn [mbind option_bind]. rewrite E.
pose proof (get_range_mid pre (to_le 4 x) post) as H'. rewrite len_to_le in H'.
change (Z.of_nat 4) with 4 in H'. rewrite H'. cbn [mbind option_bind]. by rewrite from_to_le_small.
Qed.

Lemma read_field_mid pre s post :
b = pre ++ put_str s ++ post → cfg_str_ok s →
read_field b (len pre) = Some (s, len (pre ++ put_str s)).
Proof.
intros E [Hv Hl]. unfold put_str, str_len in *. pose proof (len_nonneg (utf8 s)).
unfold read_field. rewrite as_u32_len in * by done.
rewrite (read_u32_mid pre (len (utf8 s)) (utf8 s ++ post)).
2:{ by rewrite E, <- app_assoc. } 2:{ by apply in_u32_len. }
cbn [mbind option_bind]. unfold checked_add.
assert (len pre + 4 + len (utf8 s) ≤ len b) as Hle.
{ rewrite E, !len_app, len_to_le. pose proof (len_nonneg post). lia. }
destruct (Z.ltb_spec (len pre + 4 + len (utf8 s)) u64_max); [|lia]. cbn [mbind option_bind].
pose proof (get_range_mid (pre ++ to_le 4 (len (utf8 s))) (utf8 s) post) as H'.
rewrite len_app, len_to_le in H'. change (Z.of_nat 4) with 4 in H'.
rewrite <- app_assoc in H'. rewrite E, <- app_assoc, H'. cbn [mbind option_bind].
rewrite from_utf8_utf8 by done. cbn [mbind option_bind].
rewrite !len_app, len_to_le. do 2 f_equal. lia.
Qed.

Lemma encode_import_put e : encode_import e = put_str (dll_name e) ++ put_str (backing_path e).
Proof. unfold encode_import, put_str, str_len. by rewrite <- app_assoc. Qed.

Lemma read_imports_mid pre es post :
b = pre ++ flat_map encode_import es ++ post → Forall import_ok es →
read_imports (length es) b (len pre) = Some (es, len (pre ++ flat_map encode_import es)).
Proof.
intros E Hes. revert pre E. induction Hes as [|e es [H1 H2] Hes IH]; intros pre E.
{ simpl. by rewrite app_nil_r. }
cbn [length read_imports flat_map] in *. rewrite encode_import_put in *.
rewrite (read_field_mid pre (dll_name e) (put_str (backing_path e) ++ flat_map encode_import es ++ post)).
2:{ by rewrite E, <- !app_assoc. } 2:{ done. }
cbn [mbind option_bind fst snd].
rewrite (read_field_mid (pre ++ put_str (dll_name e)) (backing_path e) (flat_map encode_import es ++ post)).
2:{ by rewrite E, <- !app_assoc. } 2:{ done. }
cbn [mbind option_bind fst snd].
rewrite (IH ((pre ++ put_str (dll_name e)) ++ put_str (backing_path e))).
2:{ by rewrite E, <- !app_assoc. }
cbn [mbind option_bind fst snd]. rewrite <- !app_assoc. by destruct e.
Qed.
End read.

(** ** Properties *)

(** Property: a shim configuration decodes to the root and the static-import table
    it was encoded from, for every table and every path that fits the [u32]
    length fields. *)
Theorem config_roundtrip r es :
  cfg_str_ok r → Forall import_ok es → len es < u32_max →
  len (encode_config_full r es) < u64_max →
  decode_config (encode_config_full r es) = Ok {| root := r; static_imports := es |}.
Proof.
  intros Hr Hes Hl Hcap. unfold decode_config, encode_config_full in *.
  set (body := to_le 4 (as_u32 (len (utf8 r))) ++ utf8 r ++
    to_le 4 (as_u32 (len es)) ++ flat_map encode_import es) in *.
  rewrite !len_app in Hcap. rewrite len_to_le in Hcap.
  destruct (Z.ltb_spec (len (CONFIG_MAGIC ++ to_le 4 CONFIG_VERSION ++ body)) 4) as [H|_].
  { rewrite !len_app, len_to_le in H. unfold len at 1 in H. simpl in H.
    pose proof (len_nonneg body). lia. }
  assert (take 4 (CONFIG_MAGIC ++ to_le 4 CONFIG_VERSION ++ body) = CONFIG_MAGIC) as -> by done.
  rewrite bool_decide_eq_true_2 by done. cbn [negb].
  assert (len (CONFIG_MAGIC ++ to_le 4 CONFIG_VERSION ++ body) < u64_max) as Hcap'.
  { rewrite !len_app, len_to_le. lia. }
  pose proof (read_u32_mid _ Hcap' CONFIG_MAGIC CONFIG_VERSION body eq_refl ltac:(done)) as Hv.
  change (len CONFIG_MAGIC) with 4 in Hv. rewrite Hv.
  cbn [ok_or mbind result_bind]. rewrite Z.eqb_refl. cbn [negb].
  assert (drop 8 (CONFIG_MAGIC ++ to_le 4 CONFIG_VERSION ++ body) = body) as -> by done.
  assert (len body < u64_max) as Hb.
  { pose proof (len_nonneg CONFIG_MAGIC). lia. }
  assert (body = put_str r ++ to_le 4 (as_u32 (len es)) ++ flat_map encode_import es) as E
    by (unfold body, put_str, str_len; by rewrite <- app_assoc).
  rewrite as_u32_len in E by done. unfold decode_v2_body.
  pose proof (read_field_mid body Hb [] r (to_le 4 (len es) ++ flat_map encode_import es) E Hr) as Hf.
  rewrite len_nil in Hf. rewrite Hf. cbn [mbind option_bind fst snd app].
  rewrite (read_u32_mid body Hb (put_str r) (len es) (flat_map encode_import es))
    by (done || by apply in_u32_len).
  cbn [mbind option_bind].
  assert (Z.to_nat (len es) = length es) as -> by (unfold len; lia).
  assert (len (put_str r) + 4 = len (put_str r ++ to_le 4 (len es))) as ->
    by (rewrite len_app, len_to_le; lia).
  rewrite (read_imports_mid body Hb (put_str r ++ to_le 4 (len es)) es [])
    by (rewrite ?app_nil_r, <- ?app_assoc; done).
  cbn [mbind option_bind fst snd]. rewrite <- app_assoc, <- E, Z.eqb_refl. done.
Qed.

(** Property: a buffer that starts differently from the magic is reported as
    unversioned and one with another version number as that version, never
    decoded as something else; a configuration this build wrote is accepted
    only with this build's version. *)
Theorem config_version_gate b :
  (4 ≤ len b → take 4 b ≠ CONFIG_MAGIC → decode_config b = Err Unversioned) ∧
  (∀ v rest, b = CONFIG_MAGIC ++ to_le 4 v ++ rest → in_u32 v → v ≠ CONFIG_VERSION →
     len b < u64_max → decode_config b = Err (Version v CONFIG_VERSION)) ∧
  (len b < 4 → decode_config b = Err Malformed) ∧
  (∀ c, decode_config b = Ok c → take 4 b = CONFIG_MAGIC ∧ read_u32 b 4 = Some CONFIG_VERSION).
Proof.
  unfold decode_config. split; [|split; [|split]].
  - intros Hl Hm. destruct (Z.ltb_spec (len b) 4); [lia|].
    by rewrite bool_decide_eq_false_2.
  - intros v rest E Hv Hne Hcap. assert (8 ≤ len b) as H8.
    { rewrite E, !len_app, len_to_le. unfold len at 1. simpl. pose proof (len_nonneg rest). lia. }
    destruct (Z.ltb_spec (len b) 4); [lia|].
    assert (take 4 b = CONFIG_MAGIC) as -> by (by rewrite E).
    rewrite bool_decide_eq_true_2 by done. cbn [negb].
    pose proof (read_u32_mid b Hcap CONFIG_MAGIC v rest E Hv) as Hr.
    change (len CONFIG_MAGIC) with 4 in Hr. rewrite Hr. cbn.
    destruct (Z.eqb_spec v CONFIG_VERSION); done.
  - intros Hl. destruct (Z.ltb_spec (len b) 4); [done|lia].
  - intros c. destruct (len b <? 4); [done|].
    destruct (bool_decide_reflect (take 4 b = CONFIG_MAGIC)); [|done]. cbn [negb].
    destruct (read_u32 b 4) as [v|]; [|done]. cbn.
    destruct (Z.eqb_spec v CONFIG_VERSION) as [->|]; done.
Qed.

Lemma config_roundtrip_witness :
  decode_config (encode_config_full (lit "C:\Game") [{| dll_name := lit "d3d11.dll"; backing_path := lit "C:\m" |}])
  = Ok {| root := lit "C:\Game"; static_imports := [{| dll_name := lit "d3d11.dll"; backing_path := lit "C:\m" |}] |}.
Proof.
  apply config_roundtrip.
  - split; [apply valid_strb|]; vm_compute; reflexivity.
  - apply Forall_cons. split; [|by apply Forall_nil].
    split; (split; [apply valid_strb|]); vm_compute; reflexivity.
  - vm_compute. reflexivity.
  - vm_compute. reflexivity.
Defined.
