(* ===== verification/RegPath.v ===== *)
(** RegPath: canonical NT registry key paths
    (rust/crates/vfs-registry/src/path.rs).

    A canonical path is a sequence of components, each preceded by a
    backslash; [kp] spells a component list that way, and the lemmas relate
    the string operations of the source to the component lists. *)

From S2P Require Import Prelude Text Path.

(** ** Model *)

Inductive RegPathError := NotRegistry | RegBadComponent.

Definition is_bs (c : char) : bool := c =? backslash.

Definition CURRENT_USER : str := lit "<CurrentUser>".
Definition CLASSES : str := lit "_Classes".

Section reg_path.
Context {CT : CaseTable}.

Definition sid_to_symbol (part : str) (user_sid : option str) : str :=
match user_sid with
| Some sid =>
    if str_eqb (fold part) (fold sid) then CURRENT_USER
    else if str_eqb (fold part) (fold sid ++ fold CLASSES) then CURRENT_USER ++ CLASSES
    else part
| None => part
end.

(** The hive component: conventional spelling for the two known hives. *)
Definition hive (part : str) : str :=
if str_eqb (fold part) (lit "machine") then lit "Machine"
else if str_eqb (fold part) (lit "user") then lit "User"
else part.

(** The loop over [parts.enumerate()]. *)
Fixpoint canonical_loop (i : nat) (user_hive : bool) (parts : list str) (user_sid : option str)
  (out : str) : str :=
match parts with
| [] => out
| part :: parts =>
    match i with
    | 0%nat => canonical_loop 1 (str_eqb (fold part) (lit "user")) parts user_sid
                 (out ++ backslash :: hive part)
    | 1%nat => canonical_loop 2 user_hive parts user_sid
                 (out ++ backslash :: (if user_hive then sid_to_symbol part user_sid else part))
    | _ => canonical_loop (S i) user_hive parts user_sid (out ++ backslash :: part)
    end
end.

Definition reg_canonical (nt_path : str) (user_sid : option str) : result RegPathError str :=
match filter (λ p, p ≠ []) (split_on is_bs nt_path) with
| p :: parts =>
    if starts_with [backslash] nt_path && str_eqb (fold p) (lit "registry")
    then Ok (canonical_loop 0 false parts user_sid (lit "\Registry"))
    else Err NotRegistry
| [] => Err NotRegistry
end.

(** How [to_nt] spells the [i]-th part. *)
Definition nt_part (user_hive : bool) (user_sid : option str) (i : nat) (part : str) : str :=
if (i =? 1)%nat && str_eqb (fold part) (lit "registry") then lit "REGISTRY"
else if (i =? 2)%nat && str_eqb (fold part) (lit "machine") then lit "MACHINE"
else if (i =? 2)%nat && str_eqb (fold part) (lit "user") then lit "USER"
else match user_sid with
     | Some sid =>
         if (i =? 3)%nat && user_hive && str_eqb part CURRENT_USER then sid
         else if (i =? 3)%nat && user_hive && str_eqb part (CURRENT_USER ++ CLASSES)
         then sid ++ CLASSES
         else part
     | None => part
     end.

Definition to_nt (can : str) (user_sid : option str) : str :=
let parts := split_on is_bs can in
let user_hive := match parts !! 2%nat with
                 | Some p => str_eqb (fold p) (lit "user")
                 | None => false
                 end in
join backslash (imap (nt_part user_hive user_sid) parts).

Definition reg_parent (can : str) : option str :=
match rsplit_once backslash can with
| Some ([], _) | None => None
| Some (p, _) => Some p
end.

Definition reg_leaf (can : str) : str :=
match rsplit_once backslash can with Some (_, l) => l | None => can end.

Definition reg_join (base rel : str) : result RegPathError str :=
if existsb (λ p, str_eqb p [] || str_eqb p dot || str_eqb p dotdot) (split_on is_bs rel)
then Err RegBadComponent
else Ok (base ++ backslash :: rel).

Definition is_virtualised (can : str) : bool :=
let f := fold can in
existsb (λ h, str_eqb f h || starts_with (h ++ [backslash]) f)
  [lit "\registry\machine"; lit "\registry\user"].

(** overlay.rs [valid_path]: [\Registry] then non-empty components. *)
Definition valid_path (p : str) : bool :=
match split_on is_bs p with
| e :: r :: rest =>
    str_eqb e [] && str_eqb (fold r) (lit "registry") &&
    forallb (λ c, negb (str_eqb c [])) rest
| _ => false
end.
End reg_path.

(** ** Component lists *)

(** A key-name component. *)
Definition key_ok (c : str) : Prop := c ≠ [] ∧ backslash ∉ c.

(** The canonical spelling of a component list. *)
Definition kp (cs : list str) : str := flat_map (cons backslash) cs.

Lemma kp_app cs ds : kp (cs ++ ds) = kp cs ++ kp ds.
Proof. apply flat_map_app. Qed.

Lemma kp_snoc cs c : kp (cs ++ [c]) = kp cs ++ backslash :: c.
Proof. rewrite kp_app. unfold kp at 2. simpl. by rewrite app_nil_r. Qed.

Lemma kp_nil_inv cs : kp cs = [] → cs = [].
Proof. by destruct cs. Qed.

Lemma no_bs c : backslash ∉ c ↔ no_char is_bs c.
Proof.
  unfold no_char, is_bs. rewrite Forall_forall. split.
  - intros H x Hx. apply Z.eqb_neq. by intros ->.
  - intros H Hx. by specialize (H _ Hx).
Qed.

Lemma split_kp c cs : Forall (λ c, backslash ∉ c) (c :: cs) → split_on is_bs (c ++ kp cs) = c :: cs.
Proof.
  intros H. revert c H. induction cs as [|d cs IH]; intros c H;
    inversion_clear H as [|? ? Hc Hcs].
  - simpl. rewrite app_nil_r. apply split_on_piece. by apply no_bs.
  - change (kp (d :: cs)) with (backslash :: (d ++ kp cs)).
    rewrite split_on_app_sep; [|done|by apply no_bs]. by rewrite IH.
Qed.

Lemma split_kp_nil cs : cs ≠ [] → Forall (λ c, backslash ∉ c) cs → split_on is_bs (kp cs) = [] :: cs.
Proof.
  intros Hne H. change (kp cs) with ([] ++ kp cs). apply split_kp.
  constructor; [apply not_elem_of_nil|done].
Qed.

Lemma kp_inj cs ds :
  Forall (λ c, backslash ∉ c) cs → Forall (λ c, backslash ∉ c) ds → kp cs = kp ds → cs = ds.
Proof.
  intros Hc Hd E. destruct (decide (cs = [])) as [->|Hne].
  { symmetry in E. by apply kp_nil_inv in E. }
  destruct (decide (ds = [])) as [->|Hne']; [by apply kp_nil_inv in E|].
  apply (f_equal (split_on is_bs)) in E. rewrite !split_kp_nil in E by done. congruence.
Qed.

Lemma reg_parent_kp cs c : cs ≠ [] → backslash ∉ c → reg_parent (kp (cs ++ [c])) = Some (kp cs).
Proof.
  intros Hne Hc. unfold reg_parent. rewrite kp_snoc.
  rewrite (proj2 (rsplit_once_Some backslash _ (kp cs) c)) by done.
  destruct (kp cs) eqn:E; [by apply kp_nil_inv in E|done].
Qed.

Lemma reg_parent_root c : backslash ∉ c → reg_parent (kp [c]) = None.
Proof.
  intros Hc. unfold reg_parent. change (kp [c]) with ([] ++ backslash :: (c ++ [])).
  rewrite app_nil_r. by rewrite (proj2 (rsplit_once_Some backslash _ [] c)).
Qed.

Lemma reg_leaf_kp cs c : backslash ∉ c → reg_leaf (kp (cs ++ [c])) = c.
Proof.
  intros Hc. unfold reg_leaf. rewrite kp_snoc.
  by rewrite (proj2 (rsplit_once_Some backslash _ (kp cs) c)).
Qed.

Lemma join_kp w ws : join backslash (w :: ws) = w ++ kp ws.
Proof.
  revert w. induction ws as [|u ws IH]; intros w; [simpl; by rewrite app_nil_r|].
  rewrite join_cons by done. by rewrite IH.
Qed.

(** [k.starts_with(prefix + "\")] is being strictly below. *)
Lemma starts_with_kp cs ds :
  Forall (λ c, backslash ∉ c) cs → Forall (λ c, backslash ∉ c) ds →
  starts_with (kp cs ++ [backslash]) (kp ds) = true ↔ ∃ e es, ds = cs ++ e :: es.
Proof.
  intros Hc Hd. unfold starts_with. split.
  - destruct (strip_prefix _ _) as [r|] eqn:E; [|done]. intros _.
    apply strip_prefix_Some in E. rewrite <- app_assoc in E. simpl in E.
    destruct (split_on is_bs r) as [|e es] eqn:Er; [by apply split_on_nonempty in Er|].
    exists e, es. apply kp_inj; [done| |].
    + apply Forall_app. split; [done|]. pose proof (split_on_pieces is_bs r) as Hp.
      rewrite Er in Hp. eapply Forall_impl; [exact Hp|]. intros x. by rewrite no_bs.
    + rewrite E, kp_app. f_equal. change (kp (e :: es)) with (backslash :: (e ++ kp es)).
      f_equal. rewrite <- join_kp, <- Er. symmetry. apply (join_split backslash).
  - intros (e & es & ->). rewrite kp_app.
    change (kp (e :: es)) with (backslash :: (e ++ kp es)).
    replace (kp cs ++ backslash :: (e ++ kp es)) with ((kp cs ++ [backslash]) ++ (e ++ kp es))
      by (by rewrite <- app_assoc). by rewrite strip_prefix_app.
Qed.

Section reg_path_lemmas.
Context {CT : CaseTable}.

Lemma fold_kp cs : fold (kp cs) = kp (fold <$> cs).
Proof.
induction cs as [|c cs IH]; [done|]. change (kp (c :: cs)) with (backslash :: (c ++ kp cs)).
rewrite fold_cons, fold_app, IH, lower_fixed by auto with vfs. done.
Qed.

Lemma key_ok_fold c : key_ok c → key_ok (fold c).
Proof.
intros [H1 H2]. split; [by intros ?%fold_nil_inv|].
by rewrite fold_elem_fixed by auto with vfs.
Qed.

Lemma key_ok_no_bs cs : Forall key_ok cs → Forall (λ c, backslash ∉ c) cs.
Proof. intros H. eapply Forall_impl; [exact H|]. by intros c [_ ?]. Qed.

Lemma key_ok_folds cs : Forall key_ok cs → Forall key_ok (fold <$> cs).
Proof. intros H. apply Forall_fmap. eapply Forall_impl; [exact H|]. intros c. apply key_ok_fold. Qed.

(** Valid paths are the spellings of component lists rooted at [Registry]. *)
Definition reg_comps (cs : list str) : Prop :=
Forall key_ok cs ∧ ∃ r rest, cs = r :: rest ∧ fold r = lit "registry".

Lemma registry_no_bs r : fold r = lit "registry" → key_ok r.
Proof.
intros H. split.
- intros ->. by rewrite fold_nil in H.
- rewrite <- (fold_elem_fixed backslash r) by auto with vfs. rewrite H.
  vm_compute. intros Hx. repeat (apply elem_of_cons in Hx as [?|Hx]; [done|]).
  by apply elem_of_nil in Hx.
Qed.

Lemma valid_path_kp p : valid_path p = true ↔ ∃ cs, p = kp cs ∧ reg_comps cs.
Proof.
unfold valid_path. split.
- pose proof (split_on_pieces is_bs p) as Hp. pose proof (join_split backslash p) as Hj.
  change (λ c, c =? backslash) with is_bs in Hj.
  destruct (split_on is_bs p) as [|e [|r rest]]; [done|done|].
  destruct (str_eqb_spec e []) as [->|]; [|done].
  destruct (str_eqb_spec (fold r) (lit "registry")) as [Hr|]; [|done]. cbn [andb].
  intros Hrest. rewrite join_kp in Hj. exists (r :: rest). split; [done|].
  inversion_clear Hp as [|? ? _ Hp']. inversion_clear Hp' as [|? ? Hrb Hrest'].
  split; [|eauto]. constructor; [by apply registry_no_bs|].
  apply Forall_forall. intros c Hc. split.
  + rewrite forallb_forall in Hrest. intros ->.
    apply list_elem_of_In in Hc. by specialize (Hrest _ Hc).
  + rewrite no_bs. by apply (proj1 (Forall_forall _ _) Hrest').
- intros (cs & -> & Hok & r & rest & -> & Hr).
  rewrite split_kp_nil by (try done; by apply key_ok_no_bs).
  rewrite Hr. destruct (str_eqb_spec (@nil Z) []); [|done].
  destruct (str_eqb_spec (lit "registry") (lit "registry")); [|done]. cbn [andb].
  inversion_clear Hok as [|? ? _ Hok']. apply forallb_forall. intros c Hc.
  apply list_elem_of_In in Hc. destruct (proj1 (Forall_forall _ _) Hok' c Hc) as [Hne _].
  by destruct (str_eqb_spec c []).
Qed.
End reg_path_lemmas.

(** ** The key hierarchy on path strings *)

(** [k] is strictly below [a]; [k] is [a] or below it. *)
Definition below (a k : str) : Prop := ∃ r, k = a ++ backslash :: r.
Definition in_sub (a k : str) : Prop := k = a ∨ below a k.

Lemma starts_with_below a k : starts_with (a ++ [backslash]) k = true ↔ below a k.
Proof.
  unfold starts_with, below. split.
  - destruct (strip_prefix _ _) as [r|] eqn:E; [|done]. intros _.
    apply strip_prefix_Some in E as ->. exists r. by rewrite <- app_assoc.
  - intros [r ->]. replace (a ++ backslash :: r) with ((a ++ [backslash]) ++ r)
      by (by rewrite <- app_assoc). by rewrite strip_prefix_app.
Qed.

#[export] Instance below_dec a k : Decision (below a k).
Proof.
  destruct (starts_with (a ++ [backslash]) k) eqn:E; [left|right];
    rewrite <- starts_with_below; [done|by rewrite E].
Defined.
#[export] Instance in_sub_dec a k : Decision (in_sub a k).
Proof. unfold in_sub. apply _. Defined.

Lemma snoc_inj a c a' c' :
  a ++ backslash :: c = a' ++ backslash :: c' → backslash ∉ c → backslash ∉ c' → a = a' ∧ c = c'.
Proof.
  intros E Hc Hc'.
  assert (rsplit_once backslash (a ++ backslash :: c) = Some (a, c)) as H1
    by (by apply rsplit_once_Some).
  rewrite E in H1. rewrite (proj2 (rsplit_once_Some backslash _ a' c')) in H1 by done.
  by simplify_eq.
Qed.

Lemma below_snoc a b c : backslash ∉ c → below a (b ++ backslash :: c) ↔ in_sub a b.
Proof.
  intros Hc. unfold below, in_sub. split.
  - intros [r E]. destruct (rsplit_once backslash r) as [[r1 r2]|] eqn:Er.
    + apply rsplit_once_Some in Er as [-> Hr2]. right. exists r1.
      replace (a ++ backslash :: r1 ++ backslash :: r2)
        with ((a ++ backslash :: r1) ++ backslash :: r2) in E
        by (by rewrite <- app_assoc, <- app_comm_cons).
      by apply snoc_inj in E as [-> _].
    + apply rsplit_once_None in Er. by apply snoc_inj in E as [-> _]; [left|..].
  - intros [->|[r ->]]; [by exists c|]. exists (r ++ backslash :: c).
    by rewrite <- app_assoc.
Qed.

Lemma below_irrefl a : ¬ below a a.
Proof. intros [r E]. apply (f_equal length) in E. rewrite length_app in E. simpl in E. lia. Qed.

Lemma below_trans a b c : below a b → below b c → below a c.
Proof. intros [r ->] [q ->]. exists (r ++ backslash :: q). by rewrite <- app_assoc. Qed.

Lemma in_sub_below a b c : in_sub a b → below b c → below a c.
Proof. intros [->|H]; [done|]. by apply below_trans. Qed.

Lemma in_sub_trans a b c : in_sub a b → in_sub b c → in_sub a c.
Proof. intros H [->|H']; [done|]. right. by eapply in_sub_below. Qed.

(** What follows the root of a subtree in the paths of its keys. *)
Definition sfx (x : str) : Prop := x = [] ∨ ∃ r, x = backslash :: r.

Lemma in_sub_sfx a k : in_sub a k ↔ ∃ x, sfx x ∧ k = a ++ x.
Proof.
  unfold in_sub, below, sfx. split.
  - intros [->|[r ->]]; [exists []; rewrite app_nil_r; auto|exists (backslash :: r); eauto].
  - intros (x & [->|[r ->]] & ->); [rewrite app_nil_r; auto|eauto].
Qed.

Lemma in_sub_app a x : sfx x → in_sub a (a ++ x).
Proof. intros H. apply in_sub_sfx. eauto. Qed.

Lemma below_app a r : below a (a ++ backslash :: r).
Proof. by exists r. Qed.

Lemma in_sub_snoc_inv a b c :
  backslash ∉ c → in_sub a (b ++ backslash :: c) → a = b ++ backslash :: c ∨ in_sub a b.
Proof. intros Hc [->|H]; [by left|right]. by apply below_snoc in H. Qed.

Lemma below_not_in_sub a k : below a k → ¬ in_sub k a.
Proof.
  intros H [->|H']; [by apply below_irrefl in H|]. by apply (below_irrefl a), (below_trans a k a).
Qed.

(** Distinct siblings have disjoint subtrees. *)
Lemma siblings_disjoint a c d k :
  backslash ∉ c → backslash ∉ d → c ≠ d →
  in_sub (a ++ backslash :: c) k → in_sub (a ++ backslash :: d) k → False.
Proof.
  intros Hc Hd Hne (x & Hx & ->)%in_sub_sfx (y & Hy & E)%in_sub_sfx.
  rewrite <- !app_assoc in E. apply app_inv_head in E. simpl in E. injection E as E.
  revert d Hd Hne E. induction c as [|z c IH]; intros d Hd Hne E.
  - destruct d as [|u d]; [done|]. destruct Hx as [->|[r ->]]; [done|].
    simpl in E. injection E as Eu _. apply Hd. rewrite Eu. by left.
  - destruct d as [|u d]; simpl in E.
    + destruct Hy as [->|[r ->]]; [done|]. injection E as Eu _. apply Hc. rewrite Eu. by left.
    + injection E as -> E. rewrite not_elem_of_cons in Hc, Hd. apply (IH (proj2 Hc) d); naive_solver.
Qed.

Lemma reg_parent_snoc a c : a ≠ [] → backslash ∉ c → reg_parent (a ++ backslash :: c) = Some a.
Proof.
  intros Ha Hc. unfold reg_parent.
  rewrite (proj2 (rsplit_once_Some backslash _ a c)) by done. by destruct a.
Qed.

Lemma reg_leaf_snoc a c : backslash ∉ c → reg_leaf (a ++ backslash :: c) = c.
Proof.
  intros Hc. unfold reg_leaf. by rewrite (proj2 (rsplit_once_Some backslash _ a c)).
Qed.

Lemma reg_parent_Some p a :
  reg_parent p = Some a → p = a ++ backslash :: reg_leaf p ∧ a ≠ [] ∧ backslash ∉ reg_leaf p.
Proof.
  unfold reg_parent, reg_leaf. destruct (rsplit_once backslash p) as [[[|x q] l]|] eqn:E; try done.
  intros [= <-]. apply rsplit_once_Some in E as [-> ?]. done.
Qed.

Section reg_hierarchy.
Context {CT : CaseTable}.

Lemma fold_snoc a c : fold (a ++ backslash :: c) = fold a ++ backslash :: fold c.
Proof. by rewrite fold_app, fold_cons, lower_fixed by auto with vfs. Qed.

Lemma fold_no_bs c : backslash ∉ fold c ↔ backslash ∉ c.
Proof. by rewrite fold_elem_fixed by auto with vfs. Qed.

Lemma reg_parent_fold p : reg_parent (fold p) = fold <$> reg_parent p.
Proof.
unfold reg_parent. destruct (rsplit_once backslash p) as [[a c]|] eqn:E.
- apply rsplit_once_Some in E as [-> Hc]. rewrite fold_snoc.
  rewrite (proj2 (rsplit_once_Some backslash _ (fold a) (fold c)))
    by (by rewrite fold_no_bs).
  destruct a as [|x a]; [done|]. cbn [fmap option_fmap option_map].
  destruct (fold (x :: a)) eqn:Ef; [by apply fold_nil_inv in Ef|done].
- apply rsplit_once_None in E. rewrite <- fold_no_bs in E.
  by apply rsplit_once_None in E as ->.
Qed.

Lemma below_fold a k : below a k → below (fold a) (fold k).
Proof. intros [r ->]. exists (fold r). apply fold_snoc. Qed.

Lemma valid_path_nonempty p : valid_path p = true → p ≠ [].
Proof. by intros H ->. Qed.

Lemma valid_path_fold p : valid_path p = true → valid_path (fold p) = true.
Proof.
rewrite !valid_path_kp. intros (cs & -> & Hok & r & rest & -> & Hr).
exists (fold <$> r :: rest). rewrite fold_kp. split; [done|]. split; [by apply key_ok_folds|].
exists (fold r), (fold <$> rest). by rewrite fold_idemp.
Qed.

Lemma valid_path_snoc a c :
valid_path a = true → key_ok c → valid_path (a ++ backslash :: c) = true.
Proof.
rewrite !valid_path_kp. intros (cs & -> & Hok & r & rest & -> & Hr) Hc.
exists ((r :: rest) ++ [c]). rewrite kp_snoc. split; [done|].
split; [apply Forall_app; split; [done|by repeat constructor; apply Hc]|].
exists r, (rest ++ [c]). done.
Qed.

Lemma valid_path_parent p a :
valid_path p = true → reg_parent p = Some a → valid_path a = true ∧ key_ok (reg_leaf p).
Proof.
rewrite !valid_path_kp. intros (cs & -> & Hok & r & rest & -> & Hr) Hp.
destruct rest as [|c rest _] using rev_ind.
{ rewrite reg_parent_root in Hp; [done|]. by apply Forall_cons in Hok as [[_ ?] _]. }
change (r :: rest ++ [c]) with ((r :: rest) ++ [c]) in *.
apply Forall_app in Hok as [Hok [Hc _]%Forall_cons]. pose proof (proj2 Hc) as Hbs.
rewrite reg_parent_kp in Hp by done. simplify_eq.
rewrite reg_leaf_kp by done. split; [|done]. exists (r :: rest). split; [done|].
split; [done|]. by exists r, rest.
Qed.

(** A valid subtree stays valid under another valid root. *)
Lemma valid_path_reroot a b x :
valid_path a = true → valid_path b = true → valid_path (b ++ x) = true → sfx x →
valid_path (a ++ x) = true.
Proof.
intros Ha Hb Hbx [->|[r ->]]; [by rewrite app_nil_r|]. revert Ha Hb Hbx.
rewrite !valid_path_kp. intros (cs & -> & Hcs & rc & rest & -> & Hr) (ds & -> & Hds & _).
intros (es & E & Hes & _).
destruct (proj1 (starts_with_kp ds es (key_ok_no_bs _ Hds) (key_ok_no_bs _ Hes))) as (e & es' & ->).
{ apply starts_with_below. by exists r. }
rewrite kp_app in E. apply app_inv_head in E as ->. apply Forall_app in Hes as [_ Hes].
exists ((rc :: rest) ++ e :: es'). rewrite kp_app. split; [done|].
split; [apply Forall_app; done|]. by exists rc, (rest ++ e :: es').
Qed.

(** A path strictly below a valid one has a parent at or below it. *)
Lemma below_parent a k : a ≠ [] → below a k → ∃ b, reg_parent k = Some b ∧ in_sub a b.
Proof.
intros Ha [r ->]. destruct (rsplit_once backslash r) as [[r1 r2]|] eqn:Er.
- apply rsplit_once_Some in Er as [-> Hr2]. exists (a ++ backslash :: r1).
  replace (a ++ backslash :: r1 ++ backslash :: r2)
    with ((a ++ backslash :: r1) ++ backslash :: r2) by (by rewrite <- app_assoc).
  rewrite reg_parent_snoc by (by destruct a). split; [done|]. right. by exists r1.
- apply rsplit_once_None in Er. exists a. rewrite reg_parent_snoc by done.
  split; [done|by left].
Qed.
End reg_hierarchy.
