(* ===== verification/RegOverlay.v ===== *)
(** RegOverlay: the copy-on-write registry overlay
    (rust/crates/vfs-registry/src/overlay.rs).

    [Overlay] is the source's struct with its four maps and its version
    counter. An operation takes the overlay and returns [option]: [None] is a
    panic ([expect], an index or a slice out of range), [Some (r, o)] the
    [Result] it returns and the overlay it leaves. *)

From S2P Require Import Prelude Text Path RegTypes RegPath.

(** ** Model *)

Record Entry := mkEntry {
  e_path : str;
  e_node : RegNode;
  e_changed : Z;
  e_subtree : Z }.

Record Overlay := mkOverlay {
  entries : gmap str Entry;
  tombs : gmap str Z;
  deleted_at : gmap str Z;
  deleted_floor : Z;
  version : Z }.

Definition overlay_new : Overlay := mkOverlay ∅ ∅ ∅ 0 0.

(** Field updates. *)
Definition set_entries (m : gmap str Entry) (o : Overlay) : Overlay :=
  mkOverlay m (tombs o) (deleted_at o) (deleted_floor o) (version o).
Definition set_tombs (m : gmap str Z) (o : Overlay) : Overlay :=
  mkOverlay (entries o) m (deleted_at o) (deleted_floor o) (version o).
Definition entry_set_node (n : RegNode) (e : Entry) : Entry :=
  mkEntry (e_path e) n (e_changed e) (e_subtree e).
Definition set_changed (v : Z) (e : Entry) : Entry :=
  mkEntry (e_path e) (e_node e) v (e_subtree e).
Definition set_subtree (v : Z) (e : Entry) : Entry :=
  mkEntry (e_path e) (e_node e) (e_changed e) v.
Definition set_values (vs : list Value) (ts : list str) (now : Z) (n : RegNode) : RegNode :=
  mkRegNode vs ts (children n) (created n) (volatile n) now.
Definition set_children (cs : gmap str (str * Child)) (now : Z) (n : RegNode) : RegNode :=
  mkRegNode (values n) (value_tombstones n) cs (created n) (volatile n) now.
Definition set_created (b : bool) (n : RegNode) : RegNode :=
  mkRegNode (values n) (value_tombstones n) (children n) b (volatile n) (last_write n).
Definition set_volatile (b : bool) (n : RegNode) : RegNode :=
  mkRegNode (values n) (value_tombstones n) (children n) (created n) b (last_write n).
Definition set_last_write (t : Z) (n : RegNode) : RegNode :=
  mkRegNode (values n) (value_tombstones n) (children n) (created n) (volatile n) t.

(** [self.entries.get_mut(k).expect(..)] then an update in place. *)
Definition get_mut (k : str) (f : Entry → Entry) (o : Overlay) : option Overlay :=
  e ← entries o !! k;
  Some (set_entries (<[k := f e]> (entries o)) o).

(** [&s[n..]]: panics when [n] is not a character boundary within [s]. *)
Fixpoint skip_bytes (n : Z) (s : str) : option str :=
  if n =? 0 then Some s else
  match s with
  | [] => None
  | c :: s => if len (utf8_char c) <=? n then skip_bytes (n - len (utf8_char c)) s else None
  end.

Section overlay.
Context {CT : CaseTable}.

Definition check_key_name (p : str) : result RegError unit :=
if existsb (λ c, utf16_len c >? MAX_KEY_NAME) (drop 1 (split_on is_bs p))
then Err NameTooLong else Ok ().

Definition check_depth (p : str) (max : Z) : result RegError unit :=
if len (split_on is_bs p) - 2 >? max then Err TooDeep else Ok ().

Definition child_prefix (folded : str) : str := folded ++ [backslash].

Definition set_version (v : Z) (o : Overlay) : Overlay :=
mkOverlay (entries o) (tombs o) (deleted_at o) (deleted_floor o) v.

Definition any_below (o : Overlay) (folded : str) : bool :=
let pre := child_prefix folded in
match bt_range pre (entries o) with (k, _) :: _ => starts_with pre k | [] => false end ||
match bt_range pre (tombs o) with (k, _) :: _ => starts_with pre k | [] => false end.

(** The loops up the parent chain; every step shortens the path, so its
  length is fuel enough. *)
Fixpoint is_tombstoned_loop (fuel : nat) (o : Overlay) (cur : str) : bool :=
if bool_decide (is_Some (tombs o !! cur)) then true else
match fuel, reg_parent cur with
| S fuel, Some p => is_tombstoned_loop fuel o p
| _, _ => false
end.

Definition is_tombstoned (o : Overlay) (folded : str) : bool :=
is_tombstoned_loop (length folded) o folded.

Definition reg_lookup (o : Overlay) (path : str) : Lookup * bool :=
if negb (valid_path path) then (LAbsent, false) else
let f := fold path in
match entries o !! f with
| Some e => (LPresent (created (e_node e)), any_below o f)
| None =>
    if is_tombstoned o f then (LTombstoned, false) else (LAbsent, any_below o f)
end.

Definition reg_node (o : Overlay) (path : str) : option RegNode :=
e_node <$> entries o !! fold path.

Definition reg_walk (o : Overlay) : list (str * RegNode) :=
(λ p, (e_path p.2, e_node p.2)) <$> bt_iter (entries o).

Definition bt_max (m : gmap str Z) : Z := map_fold (λ _, Z.max) 0 m.

(** [tomb] *)
Definition tomb (folded : str) (v : Z) (o : Overlay) : Overlay :=
let hw := default 0 (deleted_at o !! folded) in
let da := <[folded := Z.max hw v]> (deleted_at o) in
let tb := <[folded := v]> (tombs o) in
if Z.of_nat (size da) >? MAX_DELETED_AT
then mkOverlay (entries o) tb ∅ (Z.max (deleted_floor o) (bt_max da)) (version o)
else mkOverlay (entries o) tb da (deleted_floor o) (version o).

Definition bump (o : Overlay) : Z * Overlay :=
let v := as_u64 (version o + 1) in (v, set_version v o).

Fixpoint touch_loop (fuel : nat) (cur : option str) (v : Z) (o : Overlay) : Overlay :=
match fuel, cur with
| S fuel, Some p =>
    touch_loop fuel (reg_parent p) v (set_entries (alter (set_subtree v) (fold p) (entries o)) o)
| _, _ => o
end.

Definition touch_ancestors (path : str) (v : Z) (o : Overlay) : Overlay :=
touch_loop (length path) (reg_parent path) v o.

Definition mark (path : str) (v : Z) (o : Overlay) : Overlay :=
touch_ancestors path v (set_entries (alter (set_changed v) (fold path) (entries o)) o).

Definition below_keys {V} (folded : str) (m : gmap str V) : list (str * V) :=
take_while (λ p, starts_with (child_prefix folded) p.1) (bt_range (child_prefix folded) m).

Definition subtree_keys (o : Overlay) (folded : str) : list str :=
(if bool_decide (is_Some (entries o !! folded)) then [folded] else []) ++
(below_keys folded (entries o)).*1.

Definition remove_subtree (folded : str) (o : Overlay) : Overlay :=
let o := set_entries (foldl (λ m k, delete k m) (entries o) (subtree_keys o folded)) o in
let o := set_tombs (foldl (λ m k, delete k m) (tombs o) (below_keys folded (tombs o)).*1) o in
set_tombs (delete folded (tombs o)) o.

(** One iteration of [ensure_chain]'s loop. *)
Definition ensure_step (is_target target_real_exists : bool) (v now : Z) (comp : str)
  (st : Overlay * str * option str) : option (Overlay * str * option str) :=
let '(o, stored, parent_key) := st in
let stored := stored ++ backslash :: comp in
let key := fold stored in
match entries o !! key with
| Some e => Some (o, e_path e, Some key)
| None =>
    let was := bool_decide (is_Some (tombs o !! key)) in
    let o := set_tombs (delete key (tombs o)) o in
    pe ← match parent_key with
         | Some pk => pe ← entries o !! pk; Some (Some pe)
         | None => Some None
         end;
    let revived := was ||
      match pe with
      | Some pe => match children (e_node pe) !! fold comp with
                   | Some (_, c) => bool_decide (c = Tombstone)
                   | None => false
                   end
      | None => false
      end in
    let parent_created := match pe with Some pe => created (e_node pe) | None => false end in
    let created := revived || parent_created || (is_target && negb target_real_exists) in
    let node := mkRegNode [] [] ∅ created false now in
    let o := set_entries (<[key := mkEntry stored node v 0]> (entries o)) o in
    o ← match parent_key with
        | Some pk =>
            get_mut pk (λ pe, set_changed v (entry_set_node
              (set_children (<[fold comp := (comp, Present)]> (children (e_node pe))) now
                 (e_node pe)) pe)) o
        | None => Some o
        end;
    Some (o, stored, Some key)
end.

Fixpoint ensure_loop (comps : list str) (target_real_exists : bool) (v now : Z)
  (st : Overlay * str * option str) : option (Overlay * str * option str) :=
match comps with
| [] => Some st
| comp :: comps =>
    st ← ensure_step (bool_decide (comps = [])) target_real_exists v now comp st;
    ensure_loop comps target_real_exists v now st
end.

Definition ensure_chain (path : str) (target_real_exists : bool) (v now : Z) (o : Overlay)
  : option Overlay :=
st ← ensure_loop (drop 1 (split_on is_bs path)) target_real_exists v now (o, [], None);
Some st.1.1.

(** *** Operations *)

(** An early return: the error, and the overlay as it was. *)
Definition refuse (e : RegError) (o : Overlay) : option (result RegError Z * Overlay) :=
Some (Err e, o).

(** [check?;] in an operation. *)
Definition guard (c : result RegError unit) (o : Overlay)
  (k : option (result RegError Z * Overlay)) : option (result RegError Z * Overlay) :=
match c with Ok _ => k | Err e => refuse e o end.

Definition insert_node (path : str) (n : RegNode) (changed : Z) (o : Overlay)
  : result RegError unit * Overlay :=
if negb (valid_path path) then (Err InvalidPath, o) else
match check_depth path MAX_DECODE_DEPTH with
| Err e => (Err e, o)
| Ok _ =>
    let f := fold path in
    let o := foldl (λ o '(cf, (_, st)),
               if bool_decide (st = Tombstone) then tomb (f ++ backslash :: cf) changed o else o)
               o (bt_iter (children n)) in
    let o := set_tombs (delete f (tombs o)) o in
    (Ok (), set_entries (<[f := mkEntry path n changed changed]> (entries o)) o)
end.

(** Overwrite the first value of that name, or append. *)
Fixpoint put_value (fname : str) (nv : Value) (vs : list Value) : list Value :=
match vs with
| [] => [nv]
| x :: vs =>
    if str_eqb (fold (v_name x)) fname then mkValue (v_name x) (v_ty nv) (v_data nv) :: vs
    else x :: put_value fname nv vs
end.

Definition set_value (path name : str) (ty : Z) (data : bytes) (now : Z) (o : Overlay)
  : option (result RegError Z * Overlay) :=
if negb (valid_path path) then refuse InvalidPath o else
guard (check_key_name path) o (
guard (check_depth path MAX_WRITE_DEPTH) o (
if utf16_len name >? MAX_VALUE_NAME then refuse NameTooLong o else
if len data >? MAX_DATA then refuse DataTooLarge o else
let '(v, o) := bump o in
o ← ensure_chain path true v now o;
let fname := fold name in
o ← get_mut (fold path) (λ e, entry_set_node (set_values
      (put_value fname (mkValue name ty data) (values (e_node e)))
      (filter (λ t, t ≠ fname) (value_tombstones (e_node e))) now (e_node e)) e) o;
Some (Ok v, mark path v o))).

Definition delete_value (path name : str) (now : Z) (o : Overlay)
  : option (result RegError Z * Overlay) :=
if negb (valid_path path) then refuse InvalidPath o else
guard (check_key_name path) o (
if utf16_len name >? MAX_VALUE_NAME then refuse NameTooLong o else
match (reg_lookup o path).1 with
| LTombstoned => refuse RegNotFound o
| _ =>
    let '(v, o) := bump o in
    o ← ensure_chain path true v now o;
    let fname := fold name in
    o ← get_mut (fold path) (λ e, entry_set_node (set_values
          (filter (λ x, fold (v_name x) ≠ fname) (values (e_node e)))
          (if bool_decide (fname ∈ value_tombstones (e_node e)) then value_tombstones (e_node e)
           else value_tombstones (e_node e) ++ [fname]) now (e_node e)) e) o;
    Some (Ok v, mark path v o)
end).

Definition create_key (path : str) (volatile real_exists : bool) (now : Z) (o : Overlay)
  : option (result RegError Z * Overlay) :=
if negb (valid_path path) then refuse InvalidPath o else
guard (check_key_name path) o (
guard (check_depth path MAX_WRITE_DEPTH) o (
if bool_decide (is_Some (entries o !! fold path)) then refuse AlreadyExists o else
let '(v, o) := bump o in
o ← ensure_chain path real_exists v now o;
o ← get_mut (fold path) (λ e, entry_set_node (set_volatile volatile (e_node e)) e) o;
Some (Ok v, mark path v o))).

(** The update of a parent entry when the state of a child changes. *)
Definition put_child (leaf : str) (st : Child) (e : Entry) : Entry :=
entry_set_node (mkRegNode (values (e_node e)) (value_tombstones (e_node e))
  (<[fold leaf := (leaf, st)]> (children (e_node e)))
  (created (e_node e)) (volatile (e_node e)) (last_write (e_node e))) e.

Definition stamp (now v : Z) (e : Entry) : Entry :=
set_changed v (entry_set_node (set_last_write now (e_node e)) e).

Definition delete_key (path : str) (now : Z) (o : Overlay)
  : option (result RegError Z * Overlay) :=
if negb (valid_path path) then refuse InvalidPath o else
match reg_parent path with
| None => refuse InvalidPath o
| Some parent =>
    match (reg_lookup o path).1 with
    | LTombstoned => refuse RegNotFound o
    | _ =>
        let '(v, o) := bump o in
        o ← ensure_chain parent true v now o;
        let f := fold path in
        let o := remove_subtree f o in
        let o := tomb f v o in
        o ← get_mut (fold parent) (λ pe, stamp now v (put_child (reg_leaf path) Tombstone pe)) o;
        Some (Ok v, touch_ancestors parent v o)
    end
end.

(** The loop that re-inserts the moved entries under the new name. *)
Definition move_entry (old_stored old_f new_path new_f : str) (v : Z) (e : Entry) (o : Overlay)
  : option Overlay :=
suffix ← skip_bytes (str_len old_stored) (e_path e);
r ← skip_bytes (str_len old_f) (fold (old_stored ++ suffix));
let e' := mkEntry (new_path ++ suffix) (set_created true (e_node e)) v v in
Some (set_entries (<[new_f ++ r := e']> (entries o)) o).

Fixpoint move_entries (old_stored old_f new_path new_f : str) (v : Z) (es : list Entry)
  (o : Overlay) : option Overlay :=
match es with
| [] => Some o
| e :: es =>
    o ← move_entry old_stored old_f new_path new_f v e o;
    move_entries old_stored old_f new_path new_f v es o
end.

Fixpoint move_tombs (old_f new_f : str) (v : Z) (ks : list str) (o : Overlay) : option Overlay :=
match ks with
| [] => Some o
| k :: ks =>
    r ← skip_bytes (str_len old_f) k;
    move_tombs old_f new_f v ks (tomb (new_f ++ r) v o)
end.

(** [moved.push(self.entries.remove(&k).expect("listed"))] *)
Fixpoint take_entries (ks : list str) (o : Overlay) : option (list Entry * Overlay) :=
match ks with
| [] => Some ([], o)
| k :: ks =>
    e ← entries o !! k;
    '(es, o) ← take_entries ks (set_entries (delete k (entries o)) o);
    Some (e :: es, o)
end.

Definition rename_key (path new_leaf : str) (now : Z) (o : Overlay)
  : option (result RegError Z * Overlay) :=
if negb (valid_path path) then refuse InvalidPath o else
if str_eqb new_leaf [] || bool_decide (backslash ∈ new_leaf) then refuse InvalidPath o else
if utf16_len new_leaf >? MAX_KEY_NAME then refuse NameTooLong o else
match reg_parent path with
| None => refuse InvalidPath o
| Some parent =>
    let old_f := fold path in
    match entries o !! old_f with
    | None => refuse RegNotFound o
    | Some root =>
        let old_stored := e_path root in
        parent_stored ← reg_parent old_stored;
        let new_path := parent_stored ++ backslash :: new_leaf in
        let new_f := fold new_path in
        let case_only := str_eqb new_f old_f in
        if negb case_only && bool_decide (is_Some (entries o !! new_f))
        then refuse AlreadyExists o else
        let '(v, o) := bump o in
        let moved_keys := subtree_keys o old_f in
        let moved_tombs := (below_keys old_f (tombs o)).*1 in
        '(moved, o) ← take_entries moved_keys o;
        let o := remove_subtree old_f o in
        let o := set_tombs (delete new_f (tombs o)) o in
        o ← move_entries old_stored old_f new_path new_f v moved o;
        o ← move_tombs old_f new_f v moved_tombs o;
        o ← get_mut new_f (λ e, entry_set_node (set_last_write now (e_node e)) e) o;
        _ ← entries o !! fold parent;
        o ← (if case_only then Some o
             else o ← get_mut (fold parent) (put_child (reg_leaf path) Tombstone) o;
                  Some (tomb old_f v o));
        o ← get_mut (fold parent) (λ pe, stamp now v (put_child new_leaf Present pe)) o;
        Some (Ok v, touch_ancestors parent v o)
    end
end.

Fixpoint changed_loop (fuel : nat) (o : Overlay) (cur : str) (version : Z) : bool :=
if match deleted_at o !! cur with Some t => t >? version | None => false end then true else
match fuel, reg_parent cur with
| S fuel, Some p => changed_loop fuel o p version
| _, _ => deleted_floor o >? version
end.

Definition changed_since (o : Overlay) (path : str) (subtree : bool) (version : Z) : bool :=
let f := fold path in
match entries o !! f with
| Some e => (e_changed e >? version) || (subtree && (e_subtree e >? version))
| None => changed_loop (length f) o f version
end.
End overlay.
