(* ===== verification/RegInv.v ===== *)
(** RegInv: the structural invariant of the registry overlay.

    The invariant speaks of the [shape] of the entries, their stored paths
    and child lists, and of the set of tombstoned keys; the other fields of
    an entry do not matter to it. Its preservation lemmas are the three
    structural changes the overlay makes: adding a key under a present
    parent, cutting a subtree, and moving one. *)

From S2P Require Import Prelude Text Path RegTypes RegPath RegOverlay.

Abbreviation Shape := (gmap str (str * gmap str (str * Child))).

Definition shape_of (e : Entry) : str * gmap str (str * Child) :=
  (e_path e, children (e_node e)).

Definition shape (o : Overlay) : Shape := shape_of <$> entries o.

Section invariant.
Context {CT : CaseTable}.

(** What a child list says of the key it names. *)
Definition child_holds (s : Shape) (t : gset str) (k : str) (st : Child) : Prop :=
match st with Present => is_Some (s !! k) | Tombstone => k ∈ t end.

Record SInv (s : Shape) (t : gset str) : Prop := {
si_path k p ch : s !! k = Some (p, ch) → valid_path p = true ∧ k = fold p;
si_parent k p ch q : s !! k = Some (p, ch) → reg_parent p = Some q →
  ∃ qch, s !! fold q = Some (q, qch) ∧ qch !! fold (reg_leaf p) = Some (reg_leaf p, Present);
si_child k p ch f sp st : s !! k = Some (p, ch) → ch !! f = Some (sp, st) →
  key_ok sp ∧ f = fold sp ∧ child_holds s t (k ++ backslash :: f) st;
si_tomb k : k ∈ t → s !! k = None ∧
  ∃ pk p ch sp, s !! pk = Some (p, ch) ∧ k = pk ++ backslash :: fold sp ∧
    ch !! fold sp = Some (sp, Tombstone) }.

Lemma SInv_empty : SInv ∅ ∅.
Proof. split; intros *; rewrite ?lookup_empty; set_solver. Qed.

Section facts.
Context {s : Shape} {t : gset str} (HI : SInv s t).

Lemma si_nonempty k v : s !! k = Some v → k ≠ [].
Proof.
destruct v as [p ch]. intros [Hv ->]%(si_path _ _ HI). intros E%fold_nil_inv.
by apply valid_path_nonempty in Hv.
Qed.

(** The child key of a present entry determines entry and child. *)
Lemma si_child_inj k p ch f sp st k' c :
s !! k = Some (p, ch) → ch !! f = Some (sp, st) → backslash ∉ c →
k ++ backslash :: f = k' ++ backslash :: c → k = k' ∧ f = c.
Proof.
intros Hk Hc Hbs E. destruct (si_child _ _ HI _ _ _ _ _ _ Hk Hc) as ([_ Hsp] & -> & _).
apply snoc_inj in E; [done|by rewrite fold_no_bs|done].
Qed.

(** Present keys are closed under ancestors. *)
Lemma si_closed a k : a ≠ [] → is_Some (s !! k) → below a k → is_Some (s !! a).
Proof.
intros Ha. remember (length k) as n eqn:Hn. revert k Hn.
induction (lt_wf n) as [n _ IH]. intros k -> [[p ch] Hk] Hb.
destruct (below_parent a k Ha Hb) as (b & Hpb & Hab).
destruct (si_path _ _ HI _ _ _ Hk) as [_ ->].
rewrite reg_parent_fold in Hpb. destruct (reg_parent p) as [q|] eqn:Hq; [|done].
simplify_eq/=. destruct (si_parent _ _ HI _ _ _ _ Hk Hq) as (qch & Hs & _).
destruct Hab as [<-|Hab]; [by eexists|]. eapply (IH _); [|done|by eexists|exact Hab].
destruct (reg_parent_Some _ _ Hq) as [Hp _]. rewrite Hp, fold_snoc, length_app. simpl. lia.
Qed.

(** A tombstoned key and everything below it is absent. *)
Lemma si_tomb_below a k : a ∈ t → in_sub a k → s !! k = None.
Proof.
intros Ha Hk. destruct (si_tomb _ _ HI _ Ha) as (Hn & pk & p & ch & sp & _ & Hsp & _).
destruct Hk as [->|Hb]; [done|]. destruct (s !! k) eqn:E; [|done].
destruct (si_closed a k) as [? Hx]; [by subst; destruct pk|by eexists|done|congruence].
Qed.
End facts.

(** *** Adding a key *)

Lemma SInv_add s t pp pch c :
SInv s t → s !! fold pp = Some (pp, pch) → key_ok c →
s !! fold (pp ++ backslash :: c) = None →
SInv (<[fold pp := (pp, <[fold c := (c, Present)]> pch)]>
        (<[fold (pp ++ backslash :: c) := (pp ++ backslash :: c, ∅)]> s))
     (t ∖ {[fold (pp ++ backslash :: c)]}).
Proof.
intros HI Hpp Hc Hn. destruct (si_path _ _ HI _ _ _ Hpp) as [Hvp _].
assert (backslash ∉ c) as Hbs by apply Hc.
assert (fold (pp ++ backslash :: c) ≠ fold pp) as Hne by congruence.
set (key := fold (pp ++ backslash :: c)) in *.
assert (key = fold pp ++ backslash :: fold c) as Hkey by apply fold_snoc.
assert (∀ k p ch, <[fold pp := (pp, <[fold c := (c, Present)]> pch)]>
          (<[key := (pp ++ backslash :: c, ∅)]> s) !! k = Some (p, ch) →
        (k = key ∧ p = pp ++ backslash :: c ∧ ch = ∅) ∨
        (k = fold pp ∧ p = pp ∧ ch = <[fold c := (c, Present)]> pch) ∨
        (k ≠ key ∧ k ≠ fold pp ∧ s !! k = Some (p, ch))) as Hcase.
{ intros k p ch. rewrite !lookup_insert_Some. naive_solver. }
split.
- intros k p ch [(-> & -> & ->)|[(-> & -> & ->)|(_ & _ & Hk)]]%Hcase.
  + split; [by apply valid_path_snoc|done].
  + done.
  + by eapply si_path.
- intros k p ch q Hk Hq. apply Hcase in Hk as [(-> & -> & ->)|[(-> & -> & ->)|(Hk1 & Hk2 & Hk)]].
  + rewrite reg_parent_snoc in Hq by (try done; by eapply valid_path_nonempty). simplify_eq.
    rewrite reg_leaf_snoc by done. eexists. rewrite lookup_insert_eq. split; [done|].
    by rewrite lookup_insert_eq.
  + destruct (si_parent _ _ HI _ _ _ _ Hpp Hq) as (qch & Hs & Hl). exists qch.
    rewrite !lookup_insert_ne; [done|congruence|]. intros E.
    destruct (reg_parent_Some _ _ Hq) as [Hp _]. rewrite Hp, fold_snoc in E.
    apply (f_equal length) in E. rewrite length_app in E. simpl in E. lia.
  + destruct (si_parent _ _ HI _ _ _ _ Hk Hq) as (qch & Hs & Hl).
    destruct (decide (fold q = fold pp)) as [E|E].
    * rewrite E in Hs. simplify_eq. rewrite lookup_insert_eq. eexists. split; [done|].
      rewrite lookup_insert_ne; [done|]. intros E'. apply Hk1. rewrite Hkey, E'.
      destruct (si_path _ _ HI _ _ _ Hk) as [_ ->], (reg_parent_Some _ _ Hq) as [Hp _].
      rewrite Hp at 1. apply fold_snoc.
    * exists qch. rewrite !lookup_insert_ne by congruence. done.
- intros k p ch f sp st Hk Hf.
  apply Hcase in Hk as [(-> & -> & ->)|[(-> & -> & ->)|(Hk1 & Hk2 & Hk)]].
  + by rewrite lookup_empty in Hf.
  + destruct (decide (f = fold c)) as [->|Hfc].
    * rewrite lookup_insert_eq in Hf. simplify_eq. split; [done|]. split; [done|].
      simpl. rewrite <- Hkey, lookup_insert_ne, lookup_insert_eq by done. by eexists.
    * rewrite lookup_insert_ne in Hf by done.
      destruct (si_child _ _ HI _ _ _ _ _ _ Hpp Hf) as (H1 & H2 & H3). split; [done|].
      split; [done|]. destruct st; simpl in *.
      -- auto with vfs.
      -- apply elem_of_difference. split; [done|]. rewrite elem_of_singleton, Hkey.
         intros E%(si_child_inj HI _ _ _ _ _ _ _ _ Hpp Hf); [naive_solver|by rewrite fold_no_bs].
  + destruct (si_child _ _ HI _ _ _ _ _ _ Hk Hf) as (H1 & H2 & H3). split; [done|].
    split; [done|]. destruct st; simpl in *.
    * auto with vfs.
    * apply elem_of_difference. split; [done|]. rewrite elem_of_singleton, Hkey.
      intros E%(si_child_inj HI _ _ _ _ _ _ _ _ Hk Hf); [naive_solver|by rewrite fold_no_bs].
- intros k [Hk Hkk]%elem_of_difference. rewrite elem_of_singleton in Hkk.
  destruct (si_tomb _ _ HI _ Hk) as (Hsn & pk & p & ch & sp & Hpk & -> & Hsp). split.
  { rewrite !lookup_insert_ne; [done|congruence|congruence]. }
  destruct (decide (pk = fold pp)) as [->|Hpk'].
  + simplify_eq. eexists _, _, _, sp. rewrite lookup_insert_eq. split; [done|]. split; [done|].
    rewrite lookup_insert_ne; [done|]. intros E. apply Hkk. by rewrite Hkey, E.
  + exists pk, p, ch, sp. rewrite !lookup_insert_ne by congruence. done.
Qed.

(** The first key of all, the root. *)
Lemma SInv_add_root s t c :
SInv s t → valid_path (backslash :: c) = true → backslash ∉ c →
s !! fold (backslash :: c) = None →
SInv (<[fold (backslash :: c) := (backslash :: c, ∅)]> s) (t ∖ {[fold (backslash :: c)]}).
Proof.
intros HI Hv Hbs Hn. set (key := fold (backslash :: c)) in *.
assert (∀ k p ch f sp st, s !! k = Some (p, ch) → ch !! f = Some (sp, st) →
          k ++ backslash :: f ≠ key) as Hnk.
{ intros k p ch f sp st Hk Hf E. unfold key in E. change (backslash :: c) with ([] ++ backslash :: c) in E.
  rewrite fold_snoc in E. apply (si_child_inj HI _ _ _ _ _ _ _ _ Hk Hf) in E as [-> _];
    [|by rewrite fold_no_bs]. by apply (si_nonempty HI) in Hk. }
split.
- intros k p ch [[<- [= <- <-]]|[_ Hk]]%lookup_insert_Some; [done|by eapply si_path].
- intros k p ch q [[<- [= <- <-]]|[Hne Hk]]%lookup_insert_Some Hq.
  { exfalso. change (backslash :: c) with ([] ++ backslash :: c) in Hq. unfold reg_parent in Hq.
    by rewrite (proj2 (rsplit_once_Some backslash _ [] c)) in Hq. }
  destruct (si_parent _ _ HI _ _ _ _ Hk Hq) as (qch & Hs & Hl). exists qch.
  rewrite lookup_insert_ne by congruence. done.
- intros k p ch f sp st [[<- [= <- <-]]|[Hne Hk]]%lookup_insert_Some Hf.
  { by rewrite lookup_empty in Hf. }
  destruct (si_child _ _ HI _ _ _ _ _ _ Hk Hf) as (H1 & H2 & H3). split; [done|].
  split; [done|]. destruct st; simpl in *; [auto with vfs|]. apply elem_of_difference.
  split; [done|]. rewrite elem_of_singleton. by eapply Hnk.
- intros k [Hk Hkk]%elem_of_difference. rewrite elem_of_singleton in Hkk.
  destruct (si_tomb _ _ HI _ Hk) as (Hsn & pk & p & ch & sp & Hpk & -> & Hsp).
  split; [by rewrite lookup_insert_ne by congruence|]. exists pk, p, ch, sp.
  rewrite lookup_insert_ne by congruence. done.
Qed.

(** *** Cutting a subtree *)

Lemma SInv_cut s t pk pp pch c :
SInv s t → s !! pk = Some (pp, pch) → key_ok c →
let key := pk ++ backslash :: fold c in
∀ s' t',
(∀ k, s' !! k = if decide (k = pk) then Some (pp, <[fold c := (c, Tombstone)]> pch)
                else if decide (in_sub key k) then None else s !! k) →
(∀ k, k ∈ t' ↔ k = key ∨ (k ∈ t ∧ ¬ in_sub key k)) →
SInv s' t'.
Proof.
intros HI Hpp Hc key s' t' Hs' Ht'.
assert (backslash ∉ fold c) as Hbs by (rewrite fold_no_bs; apply Hc).
assert (¬ in_sub key pk) as Hpk by (apply below_not_in_sub; apply below_app).
assert (∀ k p ch, s' !! k = Some (p, ch) →
  ¬ in_sub key k ∧ ∃ ch0, s !! k = Some (p, ch0) ∧
    (k ≠ pk ∧ ch = ch0 ∨ k = pk ∧ p = pp ∧ ch0 = pch ∧ ch = <[fold c := (c, Tombstone)]> pch)) as Hcase.
{ intros k p ch. rewrite Hs'. repeat case_decide; naive_solver. }
assert (∀ k p ch, s !! k = Some (p, ch) → ¬ in_sub key k → ∃ ch', s' !! k = Some (p, ch') ∧
  ∀ f, f ≠ fold c ∨ k ≠ pk → ch' !! f = ch !! f) as Hkeep.
{ intros k p ch Hk Hn. rewrite Hs'. destruct (decide (k = pk)) as [->|?].
  - simplify_eq. eexists. split; [done|]. intros f [Hf|?]; [|done]. by rewrite lookup_insert_ne.
  - rewrite decide_False by done. eauto. }
split.
- intros k p ch (_ & ch0 & Hk & _)%Hcase. by eapply si_path.
- intros k p ch q (Hn & ch0 & Hk & _)%Hcase Hq.
  destruct (si_parent _ _ HI _ _ _ _ Hk Hq) as (qch & Hs & Hl).
  destruct (si_path _ _ HI _ _ _ Hk) as [_ ->], (reg_parent_Some _ _ Hq) as (Hp & _ & Hb).
  assert (fold p = fold q ++ backslash :: fold (reg_leaf p)) as Hfp
    by (rewrite Hp at 1; apply fold_snoc).
  destruct (Hkeep _ _ _ Hs) as (ch' & Hs1 & Hc').
  { intros Hi. apply Hn. rewrite Hfp. right. apply below_snoc; [by rewrite fold_no_bs|done]. }
  exists ch'. split; [done|]. rewrite Hc'; [done|].
  destruct (decide (fold q = pk)) as [E|?]; [|by right]. left. intros E'. apply Hn.
  left. by rewrite Hfp, E, E'.
- intros k p ch f sp st (Hn & ch0 & Hk & Hch)%Hcase Hf.
  destruct (decide (k = pk ∧ f = fold c)) as [[-> ->]|Hne].
  { destruct Hch as [[? _]|(_ & -> & -> & ->)]; [done|]. rewrite lookup_insert_eq in Hf.
    simplify_eq. split; [done|]. split; [done|]. simpl. apply Ht'. by left. }
  assert (ch0 !! f = Some (sp, st)) as Hf0.
  { destruct Hch as [[_ ->]|(-> & -> & -> & ->)]; [done|].
    rewrite lookup_insert_ne in Hf; [done|]. intros E. by apply Hne. }
  destruct (si_child _ _ HI _ _ _ _ _ _ Hk Hf0) as (H1 & -> & H3). split; [done|].
  split; [done|].
  assert (¬ in_sub key (k ++ backslash :: fold sp)) as Hns.
  { intros [E|?]%in_sub_snoc_inv; [|done|rewrite fold_no_bs; apply H1].
    apply snoc_inj in E; [|done|rewrite fold_no_bs; apply H1]. naive_solver. }
  destruct st; simpl in *; [|apply Ht'; auto].
  destruct H3 as [[p' ch'] H3]. destruct (Hkeep _ _ _ H3 Hns) as (ch'' & -> & _). by eexists.
- intros k [->|[Hk Hn]]%Ht'.
  { split; [rewrite Hs', decide_False, decide_True by (try (by left); intros E; apply Hpk; by left);
      done|]. exists pk, pp, (<[fold c := (c, Tombstone)]> pch), c.
    rewrite Hs', decide_True by done. split; [done|]. split; [done|]. by rewrite lookup_insert_eq. }
  destruct (si_tomb _ _ HI _ Hk) as (Hsn & pk' & p & ch & sp & Hpk' & -> & Hsp).
  destruct (si_child _ _ HI _ _ _ _ _ _ Hpk' Hsp) as ([_ Hspb] & _ & _). split.
  { rewrite Hs', decide_False, decide_False by congruence. done. }
  destruct (Hkeep _ _ _ Hpk') as (ch'' & Hs1 & Hch).
  { intros Hi. apply Hn. right. apply below_snoc; [by rewrite fold_no_bs|done]. }
  exists pk', p, ch'', sp. split; [done|]. split; [done|]. rewrite Hch; [done|].
  destruct (decide (pk' = pk)) as [->|]; [|by right]. left. intros E. apply Hn. left. by rewrite E.
Qed.
(** *** Moving a subtree *)

(** The stored paths of a subtree extend the stored path of its root. *)
Lemma si_sub_path s t a pa ca k p ch :
SInv s t → s !! a = Some (pa, ca) → s !! k = Some (p, ch) → in_sub a k → in_sub pa p.
Proof.
intros HI Ha. remember (length k) as n eqn:Hn. revert k p ch Hn.
induction (lt_wf n) as [n _ IH]. intros k p ch -> Hk [->|Hb]; [left; congruence|].
pose proof (si_nonempty HI _ _ Ha) as Hne.
destruct (below_parent a k Hne Hb) as (b & Hpb & Hab).
destruct (si_path _ _ HI _ _ _ Hk) as [_ ->].
rewrite reg_parent_fold in Hpb. destruct (reg_parent p) as [q|] eqn:Hq; [|done].
simplify_eq/=. destruct (si_parent _ _ HI _ _ _ _ Hk Hq) as (qch & Hs & _).
destruct (reg_parent_Some _ _ Hq) as (Hp & _ & Hbs).
assert (in_sub pa q) as Hi.
{ eapply (IH _); [|done|exact Hs|exact Hab]. rewrite Hp, fold_snoc, length_app. simpl. lia. }
rewrite Hp. right. by apply below_snoc.
Qed.

(** The child list of the parent afterwards; [c'] is the spelling in the
  request, [c] the stored one. *)
Definition moved_children (case_only : bool) (c' n : str) (pch : gmap str (str * Child))
  : gmap str (str * Child) :=
<[fold n := (n, Present)]> (if case_only then pch else <[fold c' := (c', Tombstone)]> pch).

Section move.
Context (s s' : Shape) (t t' : gset str) (pk pp : str) (pch rch : gmap str (str * Child))
(c c' n ok nk : str).
Context (Hok : ok = pk ++ backslash :: fold c) (Hnk : nk = pk ++ backslash :: fold n).
Context (HI : SInv s t) (Hpk : s !! pk = Some (pp, pch))
(Hroot : s !! ok = Some (pp ++ backslash :: c, rch))
(Hn : key_ok n) (Hc : key_ok c) (Hc' : key_ok c') (Hcc : fold c' = fold c).
Context (Hs_pk : s' !! pk = Some (pp, moved_children (bool_decide (nk = ok)) c' n pch))
(Hs_new : ∀ x, sfx x → s' !! (nk ++ x) =
   (λ '(p, ch), ((pp ++ backslash :: n) ++ drop (length (pp ++ backslash :: c)) p, ch))
     <$> s !! (ok ++ x))
(Hs_old : ∀ k, in_sub ok k → ¬ in_sub nk k → s' !! k = None)
(Hs_other : ∀ k, k ≠ pk → ¬ in_sub ok k → ¬ in_sub nk k → s' !! k = s !! k)
(Ht_new : ∀ x, sfx x → nk ++ x ∈ t' ↔ ok ++ x ∈ t)
(Ht_old : ∀ k, in_sub ok k → ¬ in_sub nk k → k ∈ t' ↔ k = ok)
(Ht_other : ∀ k, ¬ in_sub ok k → ¬ in_sub nk k → k ∈ t' ↔ k ∈ t).

Local Definition sub_no (k : str) : Prop := ¬ in_sub ok k ∧ ¬ in_sub nk k.

Lemma move_pk_out : sub_no pk.
Proof. split; [rewrite Hok|rewrite Hnk]; apply below_not_in_sub, below_app. Qed.

(** Where an entry of the result comes from. *)
Lemma move_cases k p ch : s' !! k = Some (p, ch) →
(k = pk ∧ p = pp ∧ ch = moved_children (bool_decide (nk = ok)) c' n pch) ∨
(k ≠ pk ∧ sub_no k ∧ s !! k = Some (p, ch)) ∨
(∃ x, sfx x ∧ k = nk ++ fold x ∧ p = (pp ++ backslash :: n) ++ x ∧
  s !! (ok ++ fold x) = Some ((pp ++ backslash :: c) ++ x, ch)).
Proof.
intros Hk. destruct (decide (k = pk)) as [->|Hkp]; [left; naive_solver|right].
destruct (decide (in_sub nk k)) as [Hin|Hin].
- right. apply in_sub_sfx in Hin as (y & Hy & ->). rewrite Hs_new in Hk by done.
  apply fmap_Some in Hk as ([p0 ch0] & Hs0 & [= -> ->]).
  pose proof (si_sub_path _ _ _ _ _ _ _ _ HI Hroot Hs0 (in_sub_app _ _ Hy)) as Hp0.
  apply in_sub_sfx in Hp0 as (x & Hx & ->). rewrite drop_app_length.
  destruct (si_path _ _ HI _ _ _ Hs0) as [_ E], (si_path _ _ HI _ _ _ Hroot) as [_ E'].
  rewrite fold_app, <- E' in E. apply app_inv_head in E as ->. by exists x.
- destruct (decide (in_sub ok k)) as [Ho|Ho]; [by rewrite Hs_old in Hk by done|].
  left. rewrite Hs_other in Hk by done. by repeat split.
Qed.

Lemma sub_no_child k f : backslash ∉ f → k ≠ pk → sub_no k → sub_no (k ++ backslash :: f).
Proof.
intros Hf Hk [H1 H2]. split; intros [E|?]%in_sub_snoc_inv; try done.
- rewrite Hok in E. apply snoc_inj in E; [naive_solver|rewrite fold_no_bs; apply Hc|done].
- rewrite Hnk in E. apply snoc_inj in E; [naive_solver|rewrite fold_no_bs; apply Hn|done].
Qed.

Lemma sub_no_sibling f :
backslash ∉ f → f ≠ fold c → f ≠ fold n → sub_no (pk ++ backslash :: f).
Proof.
intros Hf H1 H2. destruct move_pk_out as [P1 P2].
split; intros [E|?]%in_sub_snoc_inv; try done.
- rewrite Hok in E. apply snoc_inj in E; [naive_solver|rewrite fold_no_bs; apply Hc|done].
- rewrite Hnk in E. apply snoc_inj in E; [naive_solver|rewrite fold_no_bs; apply Hn|done].
Qed.

Lemma sub_no_parent k f : backslash ∉ f → sub_no (k ++ backslash :: f) → sub_no k.
Proof.
intros Hf [H1 H2]. split; intros H; [apply H1|apply H2]; right; by apply below_snoc.
Qed.

Lemma move_siblings : nk ≠ ok → ¬ in_sub nk ok.
Proof.
intros Hne H. assert (fold c ≠ fold n) as Hcn by congruence.
eapply (siblings_disjoint pk (fold c) (fold n) ok);
  [rewrite fold_no_bs; apply Hc|rewrite fold_no_bs; apply Hn|done|left; done|].
by rewrite <- Hnk.
Qed.

(** Entries outside both subtrees keep their stored path, and the parts of
  their child list that name keys outside both subtrees. *)
Lemma move_keep k p ch : s !! k = Some (p, ch) → sub_no k → ∃ ch', s' !! k = Some (p, ch') ∧
∀ f, k ≠ pk ∨ (f ≠ fold c ∧ f ≠ fold n) → ch' !! f = ch !! f.
Proof.
intros Hk [H1 H2]. destruct (decide (k = pk)) as [->|?].
- simplify_eq. eexists. split; [done|]. intros f [?|[Hf1 Hf2]]; [done|].
  unfold moved_children. rewrite lookup_insert_ne by done. case_bool_decide; [done|].
  rewrite lookup_insert_ne; [done|congruence].
- rewrite Hs_other by done. eauto.
Qed.

Lemma move_moved x p ch : s !! (ok ++ fold x) = Some ((pp ++ backslash :: c) ++ p, ch) → sfx x →
s' !! (nk ++ fold x) = Some ((pp ++ backslash :: n) ++ p, ch).
Proof.
intros Hk Hx. rewrite Hs_new, Hk by (destruct Hx as [->|[r ->]];
  [by left|right; exists (fold r); by rewrite fold_cons, lower_fixed by auto with vfs]).
simpl. by rewrite drop_app_length.
Qed.

Lemma sfx_fold x : sfx x → sfx (fold x).
Proof.
intros [->|[r ->]]; [by left|right]. exists (fold r).
by rewrite fold_cons, lower_fixed by auto with vfs.
Qed.

Lemma sfx_snoc x f : sfx x → sfx (x ++ backslash :: f).
Proof. intros [->|[r ->]]; right; eexists; simpl; done. Qed.

Lemma move_path k p ch : s' !! k = Some (p, ch) → valid_path p = true ∧ k = fold p.
Proof.
destruct (si_path _ _ HI _ _ _ Hpk) as [Hvp Epk].
intros [(-> & -> & _)|[(_ & _ & Hk)|(x & Hx & -> & -> & Hk)]]%move_cases;
  [done|by eapply si_path|].
destruct (si_path _ _ HI _ _ _ Hk) as [Hv _], (si_path _ _ HI _ _ _ Hroot) as [Hvr _].
split; [|by rewrite fold_app, fold_snoc, <- Epk, <- Hnk].
eapply valid_path_reroot; [by apply valid_path_snoc|exact Hvr|done|done].
Qed.

Lemma move_parent k p ch q : s' !! k = Some (p, ch) → reg_parent p = Some q →
∃ qch, s' !! fold q = Some (q, qch) ∧ qch !! fold (reg_leaf p) = Some (reg_leaf p, Present).
Proof.
destruct (si_path _ _ HI _ _ _ Hpk) as [Hvp Epk].
assert (∀ k p ch, s !! k = Some (p, ch) → sub_no k → reg_parent p = Some q →
  ∃ qch, s' !! fold q = Some (q, qch) ∧ qch !! fold (reg_leaf p) = Some (reg_leaf p, Present))
  as Hsame.
{ clear k p ch. intros k p ch Hk Hno Hq.
  destruct (si_parent _ _ HI _ _ _ _ Hk Hq) as (qch & Hs & Hl).
  destruct (si_path _ _ HI _ _ _ Hk) as [_ ->], (reg_parent_Some _ _ Hq) as (Hp & _ & Hb).
  assert (fold p = fold q ++ backslash :: fold (reg_leaf p)) as Hfp
    by (rewrite Hp at 1; apply fold_snoc).
  assert (backslash ∉ fold (reg_leaf p)) as Hb' by (by rewrite fold_no_bs).
  rewrite Hfp in Hno. destruct (move_keep _ _ _ Hs) as (ch' & Hs1 & Hch);
    [by eapply sub_no_parent|]. exists ch'. split; [done|]. rewrite Hch; [done|].
  destruct (decide (fold q = pk)) as [E|]; [right|by left].
  destruct Hno as [N1 N2]. rewrite E in N1, N2.
  split; intros E'; rewrite E' in *; [apply N1|apply N2]; left; congruence. }
intros [(-> & -> & _)|[(_ & Hno & Hk)|(x & Hx & -> & -> & Hk)]]%move_cases Hq.
- eapply Hsame; [exact Hpk|apply move_pk_out|done].
- by eapply Hsame.
- destruct Hx as [->|Hx].
  + rewrite app_nil_r in *. rewrite reg_parent_snoc in Hq
      by (try apply Hn; by eapply valid_path_nonempty). simplify_eq.
    rewrite reg_leaf_snoc by apply Hn. rewrite Hs_pk. eexists. split; [done|].
    unfold moved_children. by rewrite lookup_insert_eq.
  + destruct Hx as [r ->]. 
    destruct (below_parent (pp ++ backslash :: n) ((pp ++ backslash :: n) ++ backslash :: r))
      as (b & Hb & (y & Hy & ->)%in_sub_sfx); [by destruct pp|apply below_app|].
    rewrite Hb in Hq. injection Hq as <-.
    destruct (reg_parent_Some _ _ Hb) as (Hp & _ & Hbs).
    set (l := reg_leaf ((pp ++ backslash :: n) ++ backslash :: r)) in *.
    rewrite <- (app_assoc _ y) in Hp. apply app_inv_head in Hp. rewrite Hp, (app_assoc _ y) in Hk.
    destruct (si_parent _ _ HI _ _ _ ((pp ++ backslash :: c) ++ y) Hk) as (qch & Hs & Hl).
    { apply reg_parent_snoc; [by destruct pp|done]. }
    rewrite reg_leaf_snoc in Hl by done.
    rewrite fold_app, fold_snoc, <- Epk, <- Hok in Hs.
    exists qch. split; [|done]. rewrite fold_app, fold_snoc, <- Epk, <- Hnk.
    by apply move_moved.
Qed.

Lemma move_child k p ch f sp st : s' !! k = Some (p, ch) → ch !! f = Some (sp, st) →
key_ok sp ∧ f = fold sp ∧ child_holds s' t' (k ++ backslash :: f) st.
Proof.
assert (∀ k p ch f sp st, s !! k = Some (p, ch) → ch !! f = Some (sp, st) →
  sub_no (k ++ backslash :: f) → key_ok sp ∧ f = fold sp ∧
  child_holds s' t' (k ++ backslash :: f) st) as Hsame.
{ clear k p ch f sp st. intros k p ch f sp st Hk Hf Hno.
  destruct (si_child _ _ HI _ _ _ _ _ _ Hk Hf) as (H1 & H2 & H3). split; [done|].
  split; [done|]. destruct st; simpl in *.
  - destruct H3 as [[p' ch'] H3]. destruct (move_keep _ _ _ H3 Hno) as (ch'' & -> & _).
    by eexists.
  - by apply Ht_other; try apply Hno. }
intros [(-> & -> & ->)|[(Hkp & Hno & Hk)|(x & Hx & -> & -> & Hk)]]%move_cases Hf.
- destruct (decide (f = fold n)) as [->|Hfn].
  { unfold moved_children in Hf. rewrite lookup_insert_eq in Hf. simplify_eq.
    split; [done|]. split; [done|]. simpl. rewrite <- Hnk. rewrite <- (app_nil_r nk).
    rewrite Hs_new, app_nil_r, Hroot by (by left). by eexists. }
  unfold moved_children in Hf. rewrite lookup_insert_ne in Hf by done.
  destruct (decide (f = fold c)) as [->|Hfc].
  + case_bool_decide as Eno.
    { destruct Hfn. rewrite Hok, Hnk in Eno. apply app_inv_head in Eno. by injection Eno. }
    rewrite Hcc, lookup_insert_eq in Hf. simplify_eq. split; [done|].
    split; [by rewrite Hcc|]. simpl. rewrite <- Hok. apply Ht_old; [by left| |done].
    by apply move_siblings.
  + assert (pch !! f = Some (sp, st)) as Hf0.
    { case_bool_decide; [done|]. rewrite lookup_insert_ne in Hf; [done|congruence]. }
    eapply Hsame; [exact Hpk|done|].
    destruct (si_child _ _ HI _ _ _ _ _ _ Hpk Hf0) as ([_ Hbs] & -> & _).
    apply sub_no_sibling; [by rewrite fold_no_bs|done|done].
- eapply Hsame; [exact Hk|done|].
  destruct (si_child _ _ HI _ _ _ _ _ _ Hk Hf) as ([_ Hbs] & -> & _).
  apply sub_no_child; [by rewrite fold_no_bs|done|done].
- destruct (si_child _ _ HI _ _ _ _ _ _ Hk Hf) as (H1 & -> & H3). split; [done|].
  split; [done|]. rewrite <- app_assoc in *. apply sfx_fold in Hx.
  destruct st; simpl in *.
  + rewrite Hs_new by (by apply sfx_snoc). by apply fmap_is_Some.
  + apply Ht_new; [by apply sfx_snoc|done].
Qed.

Lemma move_tomb k : k ∈ t' → s' !! k = None ∧
∃ pk p ch sp, s' !! pk = Some (p, ch) ∧ k = pk ++ backslash :: fold sp ∧
  ch !! fold sp = Some (sp, Tombstone).
Proof.
intros Hk. destruct (decide (in_sub nk k)) as [(x & Hx & ->)%in_sub_sfx|Hnn].
- apply Ht_new in Hk; [|done]. rewrite Hs_new by done.
  destruct (si_tomb _ _ HI _ Hk) as (-> & pk' & p & ch & sp & Hpk' & E & Hsp).
  split; [done|]. destruct (si_child _ _ HI _ _ _ _ _ _ Hpk' Hsp) as ([_ Hbs] & _ & _).
  assert (in_sub ok pk') as (y & Hy & ->)%in_sub_sfx.
  { pose proof (in_sub_app ok x Hx) as Hi. rewrite E in Hi.
    apply in_sub_snoc_inv in Hi as [Hi|Hi]; [|done|by rewrite fold_no_bs].
    exfalso. rewrite <- Hi in E. rewrite E in Hk.
    by destruct (si_tomb _ _ HI _ Hk) as [? _]; simplify_eq. }
  rewrite <- app_assoc in E. apply app_inv_head in E as ->.
  eexists (nk ++ y), _, ch, sp. rewrite Hs_new, Hpk' by done. split; [done|].
  split; [by rewrite <- app_assoc|done].
- destruct (decide (in_sub ok k)) as [Ho|Ho].
  + apply Ht_old in Hk as ->; [|done|done]. split; [by apply Hs_old|].
    eexists pk, pp, _, c'. split; [done|]. split; [by rewrite Hcc|].
    unfold moved_children. rewrite bool_decide_false by (intros E; apply Hnn; by left).
    rewrite lookup_insert_ne, lookup_insert_eq; [done|].
    intros E. apply Hnn. left. by rewrite Hok, Hnk, E, Hcc.
  + apply Ht_other in Hk; [|done|done].
    destruct (si_tomb _ _ HI _ Hk) as (Hsn & pk' & p & ch & sp & Hpk' & -> & Hsp).
    destruct (si_child _ _ HI _ _ _ _ _ _ Hpk' Hsp) as ([_ Hbs] & _ & _).
    assert (backslash ∉ fold sp) as Hbs' by (by rewrite fold_no_bs).
    split; [rewrite Hs_other; [done| |done|done]; congruence|].
    destruct (move_keep _ _ _ Hpk') as (ch'' & Hs1 & Hch); [by eapply sub_no_parent|].
    exists pk', p, ch'', sp. split; [done|]. split; [done|]. rewrite Hch; [done|].
    destruct (decide (pk' = pk)) as [->|]; [right|by left].
    split; intros E; rewrite E in *; [apply Ho|apply Hnn]; left; congruence.
Qed.

Lemma SInv_move : SInv s' t'.
Proof.
split; [exact move_path|exact move_parent|exact move_child|exact move_tomb].
Qed.
End move.
End invariant.
