(* ===== verification/RegOps.v ===== *)
(** RegOps: what the helpers of the registry overlay do to its state:
    [ensure_chain], [remove_subtree], [tomb], [mark] and [touch_ancestors]
    under the invariant of the overlay. *)

From S2P Require Import Prelude Text Path RegTypes RegPath RegOverlay RegInv.

Section ops.
Context {CT : CaseTable}.

(** ** The invariant of the overlay *)

(** Values have distinct names up to case, their tombstones are folded and
  distinct, and no value is both present and tombstoned. *)
Definition vals_ok (n : RegNode) : Prop :=
NoDup ((fold ∘ v_name) <$> values n) ∧ NoDup (value_tombstones n) ∧
Forall (λ t, fold t = t) (value_tombstones n) ∧
∀ x, x ∈ values n → fold (v_name x) ∉ value_tombstones n.

Definition tombset (o : Overlay) : gset str := dom (tombs o).

(** A key below a created-here key is created-here. *)
Definition created_ok (m : gmap str Entry) : Prop :=
∀ k e pk pe, m !! k = Some e → reg_parent k = Some pk → m !! pk = Some pe →
  created (e_node pe) = true → created (e_node e) = true.

Record Inv (o : Overlay) : Prop := {
inv_shape : SInv (shape o) (tombset o);
inv_vals : map_Forall (λ _ e, vals_ok (e_node e)) (entries o);
inv_created : created_ok (entries o) }.

Lemma Inv_new : Inv overlay_new.
Proof.
split; [unfold shape, tombset; cbn; rewrite fmap_empty, dom_empty_L; apply SInv_empty| |].
- apply map_Forall_empty.
- intros k e pk pe H. cbn in H. by rewrite lookup_empty in H.
Qed.

Lemma vals_ok_empty c b v w : vals_ok (mkRegNode [] [] c b v w).
Proof. repeat split; try constructor. intros x Hx. by apply elem_of_nil in Hx. Qed.

Lemma shape_Some o k p ch :
shape o !! k = Some (p, ch) ↔
∃ e, entries o !! k = Some e ∧ e_path e = p ∧ children (e_node e) = ch.
Proof.
unfold shape. rewrite lookup_fmap_Some. unfold shape_of. split; [|naive_solver].
intros (e & [= <- <-] & H). eauto.
Qed.

Lemma shape_is_Some o k : is_Some (shape o !! k) ↔ is_Some (entries o !! k).
Proof. unfold shape. rewrite lookup_fmap, fmap_is_Some. done. Qed.

Lemma shape_None o k : shape o !! k = None ↔ entries o !! k = None.
Proof. unfold shape. rewrite lookup_fmap, fmap_None. done. Qed.

Lemma inv_key o k e : Inv o → entries o !! k = Some e → valid_path (e_path e) = true ∧ k = fold (e_path e).
Proof. intros [HI _ _] H. apply (si_path _ _ HI _ _ (children (e_node e))), shape_Some. eauto. Qed.

(** Updating entries without touching their shape. *)
Lemma shape_insert_same o k e e' :
entries o !! k = Some e → shape_of e' = shape_of e →
shape (set_entries (<[k := e']> (entries o)) o) = shape o.
Proof.
intros H E. unfold shape, set_entries. cbn. rewrite fmap_insert, E, insert_id; [done|].
by rewrite lookup_fmap, H.
Qed.

Lemma shape_alter o k f :
(∀ e, shape_of (f e) = shape_of e) → shape (set_entries (alter f k (entries o)) o) = shape o.
Proof.
intros Hf. unfold shape, set_entries. cbn. apply map_eq. intros i.
rewrite !lookup_fmap. destruct (decide (k = i)) as [->|Hne].
- rewrite lookup_alter_eq. destruct (entries o !! i); simpl; [by rewrite Hf|done].
- by rewrite lookup_alter_ne.
Qed.

(** ** What [ensure_chain] does *)

Definition same_data (e e' : Entry) : Prop :=
e_path e' = e_path e ∧ values (e_node e') = values (e_node e) ∧
value_tombstones (e_node e') = value_tombstones (e_node e) ∧
created (e_node e') = created (e_node e) ∧ volatile (e_node e') = volatile (e_node e).

(** Keys are only added, on the way to [T]; present keys keep their data;
  only tombstones on the way to [T] go. *)
Record chain_frame (v : Z) (T : str) (o o' : Overlay) : Prop := {
cf_keep k e : entries o !! k = Some e → ∃ e', entries o' !! k = Some e' ∧ same_data e e' ∧
  (e_changed e' = e_changed e ∨ e_changed e' = v) ∧ e_subtree e' = e_subtree e;
cf_new k e' : entries o !! k = None → entries o' !! k = Some e' →
  in_sub k T ∧ values (e_node e') = [] ∧ value_tombstones (e_node e') = [] ∧
  volatile (e_node e') = false ∧ e_changed e' = v ∧ e_subtree e' = 0;
cf_tombs k : ¬ in_sub k T → tombs o' !! k = tombs o !! k;
cf_tombs_sub : tombs o' ⊆ tombs o;
cf_absent k : entries o' !! k = None → tombs o' !! k = tombs o !! k;
cf_revived k e' : is_Some (tombs o !! k) → entries o !! k = None → entries o' !! k = Some e' →
  created (e_node e') = true;
cf_rest : deleted_at o' = deleted_at o ∧ deleted_floor o' = deleted_floor o ∧
  version o' = version o }.

Lemma chain_frame_refl v T o : chain_frame v T o o.
Proof. split; [|congruence|done|done|done|congruence|done]. intros k e H. exists e. repeat split; auto. Qed.

Lemma chain_frame_trans v T1 T2 o o1 o2 :
chain_frame v T1 o o1 → chain_frame v T2 o1 o2 → in_sub T1 T2 → chain_frame v T2 o o2.
Proof.
intros [K1 N1 B1 S1 A1 V1 R1] [K2 N2 B2 S2 A2 V2 R2] HT. split.
- intros k e H. destruct (K1 k e H) as (e1 & H1 & D1 & C1 & U1).
  destruct (K2 k e1 H1) as (e2 & H2 & D2 & C2 & U2). exists e2. unfold same_data in *.
  split; [done|]. naive_solver congruence.
- intros k e2 H H2. destruct (entries o1 !! k) as [e1|] eqn:H1; [|by apply N2].
  destruct (N1 k e1 H H1) as (I1 & Y1 & W1 & X1 & C1 & S0).
  destruct (K2 k e1 H1) as (e2' & H2' & (D1 & D2 & D3 & D4 & D5) & C2 & U2). simplify_eq.
  split; [by eapply in_sub_trans|]. rewrite D2, D3, D5, U2. naive_solver congruence.
- intros k Hk. rewrite B2 by done. apply B1. intros Hk'. apply Hk. by eapply in_sub_trans.
- by transitivity (tombs o1).
- intros k Hk. rewrite A2 by done. apply A1. destruct (entries o1 !! k) as [e1|] eqn:E; [|done].
  destruct (K2 _ _ E) as (? & ? & _). congruence.
- intros k e2 Ht H H2. destruct (entries o1 !! k) as [e1|] eqn:E1.
  + destruct (K2 _ _ E1) as (e2' & H2' & (_ & _ & _ & D & _) & _). simplify_eq.
    rewrite D. by eapply V1.
  + apply (V2 k); [|done|done]. by rewrite A1.
- naive_solver congruence.
Qed.

Lemma entries_nonempty o k e : Inv o → entries o !! k = Some e → k ≠ [].
Proof.
intros HI H. apply (si_nonempty (inv_shape _ HI) k (shape_of e)). unfold shape.
by rewrite lookup_fmap, H.
Qed.

(** No key is present below an absent one. *)
Lemma no_children o k x : Inv o → entries o !! k = None → k ≠ [] → below k x → entries o !! x = None.
Proof.
intros HI Hk Hne Hb. destruct (entries o !! x) as [e|] eqn:E; [|done].
destruct (si_closed (inv_shape _ HI) k x Hne) as [y Hy]; [|done|].
- apply shape_is_Some. by eexists.
- apply shape_None in Hk. congruence.
Qed.

Lemma created_ok_add m T pk e pe pe' :
created_ok m → m !! T = None → (∀ x, below T x → m !! x = None) →
reg_parent T = Some pk → m !! pk = Some pe → created (e_node pe') = created (e_node pe) →
(created (e_node pe) = true → created (e_node e) = true) →
created_ok (<[pk := pe']> (<[T := e]> m)).
Proof.
intros HC HT Hb Hpar Hpk E Hnew k x qk qe.
assert (∀ k y, <[pk := pe']> (<[T := e]> m) !! k = Some y →
  (k = T ∧ created (e_node y) = created (e_node e)) ∨
  (∃ y0, m !! k = Some y0 ∧ created (e_node y) = created (e_node y0))) as Hcase.
{ intros j y. rewrite !lookup_insert_Some. naive_solver. }
intros Hk Hq Hqe Hc. destruct (Hcase _ _ Hk) as [[-> ->]|(x0 & Hx & ->)].
- simplify_eq. apply Hnew. rewrite lookup_insert_eq in Hqe. by simplify_eq; rewrite <- E.
- destruct (Hcase _ _ Hqe) as [[-> Ey]|(y0 & Hy & Ey)].
  + rewrite Hb in Hx; [done|]. destruct (reg_parent_Some _ _ Hq) as (-> & _ & _). apply below_app.
  + eapply HC; [exact Hx|exact Hq|exact Hy|congruence].
Qed.

Lemma created_ok_root m T e :
created_ok m → (∀ x, below T x → m !! x = None) → reg_parent T = None →
created_ok (<[T := e]> m).
Proof.
intros HC Hb HT k x qk qe [[<- <-]|[_ Hk]]%lookup_insert_Some Hq; [congruence|].
intros [[<- <-]|[_ Hqe]]%lookup_insert_Some; [|by eapply HC].
rewrite Hb in Hk; [done|]. destruct (reg_parent_Some _ _ Hq) as (-> & _ & _). apply below_app.
Qed.

(** One step below a present key. *)
Lemma ensure_step_spec tgt tre v now c o pp pe :
Inv o → entries o !! fold pp = Some pe → e_path pe = pp → key_ok c →
let T := fold (pp ++ backslash :: c) in
∃ o' stored e, ensure_step tgt tre v now c (o, pp, Some (fold pp)) = Some (o', stored, Some T) ∧
  Inv o' ∧ entries o' !! T = Some e ∧ e_path e = stored ∧ fold stored = T ∧
  (entries o !! T = None → tgt = true → tre = false → created (e_node e) = true) ∧
  chain_frame v T o o'.
Proof.
intros HI Hpe Hpp Hc T. unfold ensure_step. fold T.
destruct (entries o !! T) as [e|] eqn:HT.
{ exists o, (e_path e), e. destruct (inv_key _ _ _ HI HT) as [_ E].
  do 6 (split; [done|]). apply chain_frame_refl. }
cbn [entries set_tombs set_entries]. rewrite Hpe. cbn [mbind option_bind]. unfold get_mut.
cbn [entries set_tombs set_entries].
assert (T ≠ fold pp) as Hne by congruence.
rewrite lookup_insert_ne, Hpe by done. cbn [mbind option_bind].
match goal with |- context [mkRegNode [] [] ∅ ?b false now] => set (b0 := b) end.
set (n0 := mkRegNode [] [] ∅ b0 false now).
assert (is_Some (tombs o !! T) → b0 = true) as Hb0
  by (intros Hs; unfold b0; by rewrite bool_decide_true).
assert (created (e_node pe) = true → b0 = true) as Hb1
  by (intros Hs; unfold b0; rewrite Hs, orb_true_r; done).
assert (tgt = true → tre = false → b0 = true) as Hb2
  by (intros -> ->; unfold b0; by rewrite orb_true_r).
clearbody b0.
set (pe' := set_changed v _). eexists _, _, _. split; [done|]. cbn [entries set_entries].
assert (∀ k e, <[fold pp := pe']> (<[T := mkEntry (pp ++ backslash :: c) n0 v 0]> (entries o)) !! k
  = Some e → (k = fold pp ∧ e = pe') ∨ (k = T ∧ e = mkEntry (pp ++ backslash :: c) n0 v 0) ∨
    (k ≠ fold pp ∧ k ≠ T ∧ entries o !! k = Some e)) as Hcase.
{ intros k e. rewrite !lookup_insert_Some. naive_solver. }
split; [split|]; cbn [entries set_entries set_tombs].
- unfold shape, tombset. cbn [entries tombs set_entries set_tombs].
  rewrite !fmap_insert, dom_delete_L. unfold shape_of at 1 2. simpl. rewrite Hpp. fold (shape o).
  apply SInv_add; [apply HI| |done|by apply shape_None].
  apply shape_Some. by exists pe.
- intros k e [(-> & ->)|[(-> & ->)|(_ & _ & H)]]%Hcase;
    [exact (inv_vals _ HI _ _ Hpe)|apply vals_ok_empty|exact (inv_vals _ HI _ _ H)].
- assert (pp ≠ []) as Hppne.
  { intros ->. by apply (entries_nonempty _ _ _ HI Hpe). }
  apply (created_ok_add _ _ _ _ pe); try done; [apply HI| |].
  + intros x. apply no_children; [done|done|]. unfold T. intros E%fold_nil_inv. by destruct pp.
  + unfold T. by rewrite reg_parent_fold, reg_parent_snoc by (try apply Hc; done).
- rewrite lookup_insert_ne, lookup_insert_eq by done.
  do 3 (split; [done|]). split; [by intros _|]. split; cbn [entries tombs set_entries set_tombs].
  + intros k e H. destruct (decide (k = fold pp)) as [->|Hk].
    { simplify_eq. exists pe'. rewrite lookup_insert_eq. repeat split; auto. }
    exists e. rewrite !lookup_insert_ne by congruence. repeat split; auto.
  + intros k e H [(-> & ->)|[(-> & ->)|(_ & _ & ?)]]%Hcase; [congruence| |congruence].
    repeat split. by left.
  + intros k Hk. rewrite lookup_delete_ne; [done|]. intros <-. apply Hk. by left.
  + apply delete_subseteq.
  + intros k. destruct (decide (k = T)) as [->|Hk]; [|by rewrite lookup_delete_ne].
    by rewrite lookup_insert_ne, lookup_insert_eq.
  + intros k e Hs H [(-> & ->)|[(-> & ->)|(_ & _ & ?)]]%Hcase; [congruence| |congruence].
    by apply Hb0.
  + done.
Qed.

Lemma ensure_loop_spec comps tre v now o pp pe :
Inv o → entries o !! fold pp = Some pe → e_path pe = pp → Forall key_ok comps →
let T := fold (pp ++ kp comps) in
∃ o' stored e, ensure_loop comps tre v now (o, pp, Some (fold pp)) = Some (o', stored, Some T) ∧
  Inv o' ∧ entries o' !! T = Some e ∧
  (comps ≠ [] → entries o !! T = None → tre = false → created (e_node e) = true) ∧
  chain_frame v T o o'.
Proof.
intros HI Hpe Hpp Hc. revert o pp pe HI Hpe Hpp.
induction Hc as [|c comps Hc Hcs IH]; intros o pp pe HI Hpe Hpp; cbn [ensure_loop].
{ rewrite app_nil_r. exists o, pp, pe. do 4 (split; [done|]). apply chain_frame_refl. }
destruct (ensure_step_spec (bool_decide (comps = [])) tre v now c o pp pe HI Hpe Hpp Hc)
  as (o1 & st1 & e1 & -> & HI1 & He1 & Hst1 & Ef & Cr & F1). cbn [mbind option_bind].
rewrite <- Ef in *.
destruct (IH o1 st1 e1 HI1 He1 Hst1) as (o2 & st2 & e2 & H2 & HI2 & He2 & Cr2 & F2).
assert (fold (st1 ++ kp comps) = fold (pp ++ kp (c :: comps))) as E.
{ change (kp (c :: comps)) with (backslash :: (c ++ kp comps)).
  rewrite (app_comm_cons c), app_assoc, !(fold_app _ (kp comps)). by rewrite Ef. }
rewrite E in *. exists o2, st2, e2. do 3 (split; [done|]). split.
{ intros _ Hn Htre. destruct (decide (comps = [])) as [->|Hne].
  - change (kp [c]) with (backslash :: (c ++ [])) in *. rewrite app_nil_r in *.
    cbn [ensure_loop] in H2. simplify_eq. rewrite <- Ef in *. simplify_eq.
    apply Cr; [done|by rewrite bool_decide_true|done].
  - apply Cr2; [done| |done]. destruct (entries o1 !! fold (pp ++ kp (c :: comps))) eqn:E1; [|done].
    destruct (cf_new _ _ _ _ F1 _ _ Hn E1) as [Hs _]. exfalso. revert Hs.
    apply below_not_in_sub. rewrite <- E, fold_app, fold_kp. destruct comps; [done|].
    apply below_app. }
eapply chain_frame_trans; [exact F1|exact F2|]. rewrite <- E, fold_app, fold_kp.
apply in_sub_app. destruct comps; [by left|right; eexists; simpl; done].
Qed.

Lemma split_valid p : valid_path p = true → ∃ r rest,
drop 1 (split_on is_bs p) = r :: rest ∧ p = (backslash :: r) ++ kp rest ∧
valid_path (backslash :: r) = true ∧ key_ok r ∧ Forall key_ok rest.
Proof.
rewrite valid_path_kp. intros (cs & -> & Hok & r & rest & -> & Hr).
rewrite split_kp_nil by (try done; by apply key_ok_no_bs). cbn [drop].
apply Forall_cons in Hok as [Hk Hok]. exists r, rest. split; [done|]. split; [done|].
split; [|done]. apply valid_path_kp. exists [r]. split; [unfold kp; simpl; by rewrite app_nil_r|].
split; [by repeat constructor; apply Hk|by exists r, []].
Qed.

(** [ensure_chain] never panics; it leaves the whole chain present. *)
Lemma ensure_chain_spec path tre v now o :
Inv o → valid_path path = true →
∃ o' e, ensure_chain path tre v now o = Some o' ∧ Inv o' ∧
  entries o' !! fold path = Some e ∧
  (entries o !! fold path = None → tre = false → created (e_node e) = true) ∧
  chain_frame v (fold path) o o'.
Proof.
intros HI Hv. unfold ensure_chain.
destruct (split_valid _ Hv) as (r & rest & -> & -> & Hvr & Hr & Hrest).
set (R := fold (backslash :: r)). cbn [ensure_loop].
assert (∃ o1 st1 e1, ensure_step (bool_decide (rest = [])) tre v now r (o, [], None) =
    Some (o1, st1, Some R) ∧ Inv o1 ∧ entries o1 !! R = Some e1 ∧ e_path e1 = st1 ∧
    fold st1 = R ∧ (entries o !! R = None → rest = [] → tre = false → created (e_node e1) = true) ∧
    chain_frame v R o o1) as (o1 & st1 & e1 & -> & HI1 & He1 & Hst & Ef & Cr & F1).
{ unfold ensure_step. cbn [app]. fold R. destruct (entries o !! R) as [e|] eqn:HR.
  { exists o, (e_path e), e. destruct (inv_key _ _ _ HI HR) as [_ E].
    do 6 (split; [done|]). apply chain_frame_refl. }
  cbn [mbind option_bind].
  match goal with |- context [mkRegNode [] [] ∅ ?b false now] => set (b0 := b) end.
  assert (is_Some (tombs o !! R) → b0 = true) as Hb0
    by (intros Hs; unfold b0; by rewrite bool_decide_true).
  assert (rest = [] → tre = false → b0 = true) as Hb1
    by (intros -> ->; unfold b0; by rewrite orb_true_r).
  clearbody b0. eexists _, _, _. split; [done|]. cbn [entries set_entries set_tombs].
  split; [split|].
  - unfold shape, tombset. cbn [entries tombs set_entries set_tombs].
    rewrite fmap_insert, dom_delete_L. fold (shape o). unfold shape_of at 1. simpl.
    apply SInv_add_root; [apply HI|done|apply Hr|by apply shape_None].
  - cbn [entries set_entries set_tombs]. apply map_Forall_insert_2; [apply vals_ok_empty|apply HI].
  - cbn [entries set_entries set_tombs]. apply created_ok_root; [apply HI| |].
    + intros x. apply no_children; [done|done|]. by intros E%fold_nil_inv.
    + unfold R. rewrite reg_parent_fold. change (backslash :: r) with ([] ++ backslash :: r).
      unfold reg_parent. by rewrite (proj2 (rsplit_once_Some backslash _ [] r)) by (split; [done|apply Hr]).
  - rewrite lookup_insert_eq. do 3 (split; [done|]). split; [by intros _|].
    split; cbn [entries tombs set_entries set_tombs].
    + intros k e H. exists e. rewrite lookup_insert_ne by congruence. repeat split; auto.
    + intros k e H [[<- <-]|[_ ?]]%lookup_insert_Some; [|congruence]. repeat split. by left.
    + intros k Hk. rewrite lookup_delete_ne; [done|]. intros <-. apply Hk. by left.
    + apply delete_subseteq.
    + intros k. destruct (decide (k = R)) as [->|Hk]; [|by rewrite lookup_delete_ne].
      by rewrite lookup_insert_eq.
    + intros k e Hs H [[<- <-]|[_ ?]]%lookup_insert_Some; [|congruence]. by apply Hb0.
    + done. }
cbn [mbind option_bind]. rewrite <- Ef in He1 |- *.
destruct (ensure_loop_spec rest tre v now o1 st1 e1 HI1 He1 Hst Hrest)
  as (o2 & st2 & e2 & Hrun & HI2 & He2 & Cr2 & F2). rewrite Hrun. cbn [mbind option_bind fst].
assert (fold (st1 ++ kp rest) = fold ((backslash :: r) ++ kp rest)) as E
  by (by rewrite !fold_app, Ef).
rewrite E in *. exists o2, e2. do 3 (split; [done|]). split.
{ intros Hn Htre. destruct (decide (rest = [])) as [->|Hne].
  - cbn [ensure_loop] in Hrun. injection Hrun as <- _ _. unfold kp in Hn, He2. cbn [flat_map] in Hn, He2.
    rewrite app_nil_r in Hn, He2. rewrite Ef in He1.
    assert (e2 = e1) as -> by (unfold R in He1; congruence). by apply Cr.
  - apply Cr2; [done| |done]. destruct (entries o1 !! fold ((backslash :: r) ++ kp rest)) eqn:E1; [|done].
    destruct (cf_new _ _ _ _ F1 _ _ Hn E1) as [Hs _]. exfalso. revert Hs.
    apply below_not_in_sub. rewrite fold_app, fold_kp. destruct rest; [done|]. apply below_app. }
eapply chain_frame_trans; [exact F1|exact F2|]. rewrite fold_app, fold_kp.
apply in_sub_app. destruct rest; [by left|right; eexists; simpl; done].
Qed.

(** Everything below a created-here key is created-here. *)
Lemma created_below o a ea k e :
Inv o → entries o !! a = Some ea → created (e_node ea) = true →
entries o !! k = Some e → in_sub a k → created (e_node e) = true.
Proof.
intros HI Ha Hc. remember (length k) as n eqn:Hn. revert k e Hn.
induction (lt_wf n) as [n _ IH]. intros k e -> Hk [->|Hb]; [congruence|].
destruct (below_parent a k (entries_nonempty _ _ _ HI Ha) Hb) as (b & Hpb & Hab).
destruct (inv_key _ _ _ HI Hk) as [_ Ek]. pose proof Hpb as Hpb'.
rewrite Ek, reg_parent_fold in Hpb. destruct (reg_parent (e_path e)) as [q|] eqn:Hq; [|done].
injection Hpb as <-.
destruct (si_parent _ _ (inv_shape _ HI) k (e_path e) (children (e_node e)) q) as (qch & Hs & _);
  [apply shape_Some; eauto|done|].
apply shape_Some in Hs as (qe & Hqe & _). eapply (inv_created _ HI); [exact Hk|exact Hpb'|exact Hqe|].
eapply (IH _); [|done|exact Hqe|exact Hab].
destruct (reg_parent_Some _ _ Hpb') as [E _]. rewrite E, length_app. simpl. lia.
Qed.

(** ** Subtrees *)

Lemma below_keys_spec {V} (f : str) (m : gmap str V) k v :
(k, v) ∈ below_keys f m ↔ m !! k = Some v ∧ below f k.
Proof.
unfold below_keys. rewrite (take_while_sorted _ key_le).
- unfold bt_range. rewrite list_elem_of_filter, bt_iter_elem. cbn [fst].
  unfold child_prefix. rewrite starts_with_below. split; [naive_solver|].
  intros [Hm Hb]. split; [|done]. split; [|done]. destruct Hb as [r ->].
  replace (f ++ backslash :: r) with ((f ++ [backslash]) ++ r) by (by rewrite <- app_assoc).
  apply str_le_app.
- apply StronglySorted_filter, bt_iter_sorted.
- intros [x vx] [y vy] Hx Hle. cbn [fst]. unfold key_le in Hle. cbn [fst] in Hle.
  unfold bt_range in Hx. apply list_elem_of_filter in Hx as [Hx _]. cbn [fst] in Hx.
  unfold child_prefix in *. rewrite !starts_with_below. intros [r ->].
  destruct (str_le_prefix_convex (f ++ [backslash]) x r Hx) as [q ->].
  { by rewrite <- app_assoc. }
  exists q. by rewrite <- app_assoc.
Qed.

Lemma below_keys_keys {V} (f : str) (m : gmap str V) k :
k ∈ (below_keys f m).*1 ↔ is_Some (m !! k) ∧ below f k.
Proof.
rewrite list_elem_of_fmap. split.
- intros ([k' v] & -> & H%below_keys_spec). naive_solver.
- intros [[v Hv] Hb]. exists (k, v). split; [done|]. by apply below_keys_spec.
Qed.

Lemma subtree_keys_spec o (f k : str) :
k ∈ subtree_keys o f ↔ is_Some (entries o !! k) ∧ in_sub f k.
Proof.
unfold subtree_keys. rewrite elem_of_app, below_keys_keys. unfold in_sub.
case_bool_decide as H; rewrite ?list_elem_of_singleton, ?elem_of_nil; naive_solver.
Qed.

Lemma foldl_delete_lookup {V} (ks : list str) (m : gmap str V) k :
foldl (λ m k, delete k m) m ks !! k = if decide (k ∈ ks) then None else m !! k.
Proof.
revert m. induction ks as [|k' ks IH]; intros m; cbn [foldl].
{ rewrite decide_False by apply not_elem_of_nil. done. }
rewrite IH. destruct (decide (k ∈ ks)).
- rewrite decide_True by (by right). done.
- destruct (decide (k = k')) as [->|Hne].
  + rewrite lookup_delete_eq, decide_True by (by left). done.
  + rewrite lookup_delete_ne, decide_False by (rewrite ?not_elem_of_cons; naive_solver). done.
Qed.

Lemma remove_subtree_entries (f : str) o k :
entries (remove_subtree f o) !! k = if decide (in_sub f k) then None else entries o !! k.
Proof.
unfold remove_subtree. cbn [entries set_entries set_tombs]. rewrite foldl_delete_lookup.
destruct (decide (in_sub f k)) as [Hs|Hs], (decide (k ∈ subtree_keys o f)) as [Hk|Hk]; try done.
- rewrite subtree_keys_spec in Hk. destruct (entries o !! k) eqn:E; [|done].
  destruct Hk. split; [by eexists|done].
- apply subtree_keys_spec in Hk as [_ ?]. done.
Qed.

Lemma remove_subtree_tombs (f : str) o k :
tombs (remove_subtree f o) !! k = if decide (in_sub f k) then None else tombs o !! k.
Proof.
unfold remove_subtree. cbn [tombs set_entries set_tombs].
destruct (decide (k = f)) as [->|Hne].
{ rewrite lookup_delete_eq, decide_True by (by left). done. }
rewrite lookup_delete_ne, foldl_delete_lookup by done.
destruct (decide (in_sub f k)) as [Hs|Hs], (decide (k ∈ (below_keys f (tombs o)).*1)) as [Hk|Hk];
  try done.
- rewrite below_keys_keys in Hk. destruct (tombs o !! k) eqn:E; [|done]. destruct Hk.
  split; [by eexists|]. by destruct Hs.
- apply below_keys_keys in Hk as [_ ?]. destruct Hs. by right.
Qed.

(** ** Marks *)

Lemma touch_loop_rest fuel cur v o :
tombs (touch_loop fuel cur v o) = tombs o ∧ deleted_at (touch_loop fuel cur v o) = deleted_at o ∧
deleted_floor (touch_loop fuel cur v o) = deleted_floor o ∧
version (touch_loop fuel cur v o) = version o ∧ shape (touch_loop fuel cur v o) = shape o.
Proof.
revert cur o. induction fuel as [|fuel IH]; intros [p|] o; cbn [touch_loop]; try done.
destruct (IH (reg_parent p) (set_entries (alter (set_subtree v) (fold p) (entries o)) o))
  as (-> & -> & -> & -> & ->). do 4 (split; [done|]). by apply shape_alter.
Qed.

Lemma touch_ancestors_lookup p v o k :
k ≠ [] → entries (touch_ancestors p v o) !! k =
  (if decide (below k (fold p)) then set_subtree v else id) <$> entries o !! k.
Proof.
intros Hk. unfold touch_ancestors.
cut (∀ n p o, (length p ≤ n)%nat → entries (touch_loop n (reg_parent p) v o) !! k =
  (if decide (below k (fold p)) then set_subtree v else id) <$> entries o !! k); [eauto|].
clear p o. induction n as [|n IH]; intros p o Hl.
{ destruct p; [|simpl in Hl; lia]. cbn [touch_loop]. rewrite decide_False; [by destruct (_ !! _)|].
  intros [r E]. rewrite fold_nil in E. by destruct k. }
destruct (reg_parent p) as [q|] eqn:Hq; cbn [touch_loop].
- destruct (reg_parent_Some _ _ Hq) as (Hp & Hne & Hb).
  rewrite IH by (rewrite Hp, length_app in Hl; simpl in Hl; lia). cbn [entries set_entries].
  rewrite Hp, fold_snoc. destruct (decide (k = fold q)) as [->|Hkq].
  + rewrite lookup_alter_eq, decide_False by apply below_irrefl.
    rewrite decide_True by apply below_app. by destruct (entries o !! _).
  + rewrite lookup_alter_ne by done. f_equal.
    assert (below k (fold q ++ backslash :: fold (reg_leaf p)) ↔ below k (fold q)) as Hiff.
    { rewrite below_snoc by (by rewrite fold_no_bs). unfold in_sub. naive_solver. }
    repeat case_decide; tauto.
- rewrite decide_False; [by destruct (_ !! _)|]. intros Hb.
  destruct (below_parent _ _ Hk Hb) as (b & Hpb & _). by rewrite reg_parent_fold, Hq in Hpb.
Qed.

(** The fields [mark] and [touch_ancestors] leave alone. *)
Definition same_rest (o o' : Overlay) : Prop :=
shape o' = shape o ∧ tombs o' = tombs o ∧ deleted_at o' = deleted_at o ∧
deleted_floor o' = deleted_floor o ∧ version o' = version o.

Lemma touch_ancestors_rest p v o : same_rest o (touch_ancestors p v o).
Proof. pose proof (touch_loop_rest (length p) (reg_parent p) v o). unfold same_rest. tauto. Qed.

Lemma mark_rest p v o : same_rest o (mark p v o).
Proof.
unfold same_rest, mark. destruct (touch_ancestors_rest p v
  (set_entries (alter (set_changed v) (fold p) (entries o)) o)) as (-> & -> & -> & -> & ->).
split; [by apply shape_alter|done].
Qed.

Lemma mark_lookup p v o k :
k ≠ [] → entries (mark p v o) !! k =
  (if decide (k = fold p) then set_changed v
   else if decide (below k (fold p)) then set_subtree v else id) <$> entries o !! k.
Proof.
intros Hk. unfold mark. rewrite touch_ancestors_lookup by done. cbn [entries set_entries].
destruct (decide (k = fold p)) as [->|Hne].
- rewrite lookup_alter_eq, decide_False by apply below_irrefl. by destruct (entries o !! _).
- by rewrite lookup_alter_ne.
Qed.

(** Updates that keep shapes and values keep the invariant. *)
Lemma Inv_same_rest o o' :
Inv o → shape o' = shape o → tombset o' = tombset o →
(∀ k e, entries o' !! k = Some e → ∃ e0, entries o !! k = Some e0 ∧
  created (e_node e) = created (e_node e0) ∧ (vals_ok (e_node e0) → vals_ok (e_node e))) → Inv o'.
Proof.
intros [H1 H2 H3] E1 E2 H. split; [by rewrite E1, E2| |].
- intros k e Hk. destruct (H k e Hk) as (e0 & H0 & _ & Hv). by apply Hv, (H2 k).
- intros k e pk pe Hk Hq Hpk. destruct (H k e Hk) as (e0 & H0 & -> & _).
  destruct (H pk pe Hpk) as (pe0 & Hp0 & -> & _). by eapply H3.
Qed.

Lemma touch_ancestors_lookup_inv p v o k e :
Inv o → entries (touch_ancestors p v o) !! k = Some e → ∃ e0, entries o !! k = Some e0 ∧
  e_node e = e_node e0 ∧ e_path e = e_path e0.
Proof.
intros HI H. destruct (decide (k = [])) as [->|Hne].
{ exfalso. destruct (touch_ancestors_rest p v o) as [Hs _].
  assert (is_Some (shape o !! [])) as [x Hx]
    by (rewrite <- Hs; apply shape_is_Some; by eexists).
  by apply (si_nonempty (inv_shape _ HI)) in Hx. }
rewrite touch_ancestors_lookup in H by done. apply fmap_Some in H as (e0 & H0 & ->).
exists e0. by case_decide.
Qed.

Lemma touch_Inv p v o : Inv o → Inv (touch_ancestors p v o).
Proof.
intros HI. destruct (touch_ancestors_rest p v o) as (Hs & Ht & _).
apply (Inv_same_rest o); [done|done|by unfold tombset; rewrite Ht|].
intros k e (e0 & H0 & -> & _)%touch_ancestors_lookup_inv; [|done]. exists e0. auto.
Qed.

Lemma mark_Inv p v o : Inv o → Inv (mark p v o).
Proof.
intros HI. apply touch_Inv. eapply Inv_same_rest; [exact HI|by apply shape_alter|done|].
intros k e. cbn [entries set_entries]. rewrite lookup_alter_Some. naive_solver.
Qed.

(** [get_mut] with an update that keeps the shape. *)
Lemma get_mut_spec k f o e :
entries o !! k = Some e →
get_mut k f o = Some (set_entries (<[k := f e]> (entries o)) o).
Proof. intros H. unfold get_mut. by rewrite H. Qed.

Lemma get_mut_Inv k e e' o :
Inv o → entries o !! k = Some e → shape_of e' = shape_of e → vals_ok (e_node e') →
created (e_node e') = created (e_node e) → Inv (set_entries (<[k := e']> (entries o)) o).
Proof.
intros HI Hk Hs Hv Hc. apply (Inv_same_rest o); [done|by apply (shape_insert_same _ _ e)|done|].
intros j x. cbn [entries set_entries]. rewrite lookup_insert_Some. naive_solver.
Qed.

Lemma bump_Inv o v o' : Inv o → bump o = (v, o') → Inv o'.
Proof. unfold bump. intros [H1 H2 H3] [= <- <-]. by split. Qed.
End ops.
