(* ===== verification/RegProps.v ===== *)
(** RegProps: the operations of the registry overlay: what each does to the
    values, keys and tombstones, and that none of them panics or breaks the
    invariant. *)

From S2P Require Import Prelude Text Path RegTypes RegPath RegOverlay RegInv RegOps.

Section props.
Context {CT : CaseTable}.

(** ** What a client observes *)

(** The value a key stores under a name, and whether the name is
  tombstoned there. *)
Definition reg_value (o : Overlay) (path name : str) : option (Z * bytes) :=
n ← reg_node o path;
x ← head (filter (λ x, fold (v_name x) = fold name) (values n));
Some (v_ty x, v_data x).

Definition value_hidden (o : Overlay) (path name : str) : bool :=
match reg_node o path with
| Some n => bool_decide (fold name ∈ value_tombstones n)
| None => false
end.

(** Tombstoned itself or below a tombstone. *)
Definition tombstoned (o : Overlay) (k : str) : Prop :=
∃ a, a ≠ [] ∧ in_sub a k ∧ is_Some (tombs o !! a).

Lemma is_tombstoned_spec o k : k ≠ [] → is_tombstoned o k = true ↔ tombstoned o k.
Proof.
unfold is_tombstoned. intros Hk.
cut (∀ n k, k ≠ [] → (length k ≤ n)%nat → is_tombstoned_loop n o k = true ↔ tombstoned o k);
  [eauto|].
clear k Hk. induction n as [|n IH]; intros k Hk Hl; [destruct k; simpl in *; [done|lia]|].
cbn [is_tombstoned_loop]. case_bool_decide as Ht.
{ split; [|done]. intros _. exists k. split; [done|]. split; [by left|done]. }
destruct (reg_parent k) as [q|] eqn:Hq.
- destruct (reg_parent_Some _ _ Hq) as (Hp & Hne & Hb).
  rewrite IH; [|done|rewrite Hp, length_app in Hl; simpl in Hl; lia]. split.
  + intros (a & Ha & Hs & Hta). exists a. split; [done|]. split; [|done].
    rewrite Hp. right. by apply below_snoc.
  + intros (a & Ha & Hs & Hta). exists a. split; [done|]. split; [|done].
    rewrite Hp in Hs. apply in_sub_snoc_inv in Hs as [->|?]; [|done|done]. by rewrite <- Hp in Hta.
- split; [done|]. intros (a & Ha & [->|Hb] & Hta); [done|].
  destruct (below_parent _ _ Ha Hb) as (b & Hpb & _). congruence.
Qed.

(** ** Writes to one key *)

(** The common part of the value writes and of [create_key]: after the
  guards, the chain is ensured, the node updated and the key marked. *)
Lemma write_spec path tre v now g o :
Inv o → valid_path path = true →
(∀ e, shape_of (g e) = shape_of e ∧ created (e_node (g e)) = created (e_node e) ∧
  (vals_ok (e_node e) → vals_ok (e_node (g e)))) →
∃ o1 o2 e1, ensure_chain path tre v now o = Some o1 ∧ get_mut (fold path) g o1 = Some o2 ∧
  Inv (mark path v o2) ∧ Inv o1 ∧ entries o1 !! fold path = Some e1 ∧
  (entries o !! fold path = None → tre = false → created (e_node e1) = true) ∧
  chain_frame v (fold path) o o1 ∧ same_rest o1 (mark path v o2) ∧
  ∀ k, k ≠ [] → entries (mark path v o2) !! k =
    if decide (k = fold path) then Some (set_changed v (g e1))
    else (if decide (below k (fold path)) then set_subtree v else id) <$> entries o1 !! k.
Proof.
intros HI Hv Hg. destruct (ensure_chain_spec path tre v now o HI Hv) as (o1 & e1 & H1 & HI1 & He1 & Cr & F).
destruct (Hg e1) as (Hs & Hc & Hvals).
exists o1, (set_entries (<[fold path := g e1]> (entries o1)) o1), e1.
split; [done|]. split; [by apply get_mut_spec|].
split; [apply mark_Inv; eapply get_mut_Inv; try done; by apply Hvals, (inv_vals _ HI1 (fold path))|].
do 4 (split; [done|]). split.
- destruct (mark_rest path v (set_entries (<[fold path := g e1]> (entries o1)) o1))
    as (E1 & E2 & E3 & E4 & E5).
  unfold same_rest. rewrite E1, E2, E3, E4, E5. split; [|done]. by apply (shape_insert_same _ _ e1).
- intros k Hk. rewrite mark_lookup by done. cbn [entries set_entries].
  destruct (decide (k = fold path)) as [->|?]; [by rewrite lookup_insert_eq|].
  by rewrite lookup_insert_ne.
Qed.

(** What a client sees of the keys other than the one written. *)
Lemma write_frame path v o o1 o' (g : Entry → Entry) e1 p :
Inv o → valid_path path = true → chain_frame v (fold path) o o1 →
(∀ k, k ≠ [] → entries o' !! k =
    if decide (k = fold path) then Some (set_changed v (g e1))
    else (if decide (below k (fold path)) then set_subtree v else id) <$> entries o1 !! k) →
fold p ≠ [] → fold p ≠ fold path → ∀ name,
reg_value o' p name = reg_value o p name ∧ value_hidden o' p name = value_hidden o p name.
Proof.
intros HI Hv F H' Hp Hne name. unfold reg_value, value_hidden, reg_node.
rewrite H', decide_False by done.
destruct (entries o !! fold p) as [e|] eqn:E.
- destruct (cf_keep _ _ _ _ F _ _ E) as (e' & -> & (_ & Ev & Et & _) & _). cbn.
  case_decide; cbn; by rewrite Ev, Et.
- destruct (entries o1 !! fold p) as [e'|] eqn:E'; [|done].
  destruct (cf_new _ _ _ _ F _ _ E E') as (_ & Ev & Et & _). cbn.
  case_decide; cbn; by rewrite Ev, Et.
Qed.

(** *** Value lists *)

Definition vname (x : Value) : str := fold (v_name x).

Lemma put_value_names f nv vs :
vname nv = f → vname <$> put_value f nv vs =
  if decide (f ∈ vname <$> vs) then vname <$> vs else (vname <$> vs) ++ [f].
Proof.
intros E. induction vs as [|x vs IH]; cbn [put_value].
{ rewrite decide_False by apply not_elem_of_nil. cbn. by rewrite E. }
rewrite !fmap_cons. destruct (str_eqb_spec (fold (v_name x)) f) as [Ex|Ex].
- rewrite decide_True; [done|]. unfold vname at 1. rewrite Ex. by left.
- rewrite fmap_cons, IH. destruct (decide (f ∈ vname <$> vs)).
  + rewrite decide_True by (by right). done.
  + rewrite decide_False; [done|]. rewrite not_elem_of_cons. unfold vname at 1. naive_solver.
Qed.

Lemma put_value_find f nv vs g :
vname nv = f →
(λ x, (v_ty x, v_data x)) <$> head (filter (λ x, vname x = g) (put_value f nv vs)) =
  if decide (g = f) then Some (v_ty nv, v_data nv)
  else (λ x, (v_ty x, v_data x)) <$> head (filter (λ x, vname x = g) vs).
Proof.
intros E. induction vs as [|x vs IH]; cbn [put_value].
{ rewrite filter_cons. repeat case_decide; subst; cbn; congruence. }
destruct (str_eqb_spec (fold (v_name x)) f) as [Ex|Ex].
- rewrite !filter_cons. unfold vname in *. cbn [v_name].
  repeat case_decide; subst; cbn; congruence.
- rewrite !filter_cons. unfold vname in *. repeat case_decide; subst; cbn; try congruence.
Qed.

(** The three updates of a node. *)
Definition upd_set (name : str) (ty : Z) (data : bytes) (now : Z) (e : Entry) : Entry :=
entry_set_node (set_values (put_value (fold name) (mkValue name ty data) (values (e_node e)))
  (filter (λ t, t ≠ fold name) (value_tombstones (e_node e))) now (e_node e)) e.
Definition upd_del (name : str) (now : Z) (e : Entry) : Entry :=
entry_set_node (set_values (filter (λ x, fold (v_name x) ≠ fold name) (values (e_node e)))
  (if bool_decide (fold name ∈ value_tombstones (e_node e)) then value_tombstones (e_node e)
   else value_tombstones (e_node e) ++ [fold name]) now (e_node e)) e.
Definition upd_volatile (b : bool) (e : Entry) : Entry :=
entry_set_node (set_volatile b (e_node e)) e.

Definition upd_ok (g : Entry → Entry) : Prop :=
∀ e, shape_of (g e) = shape_of e ∧ created (e_node (g e)) = created (e_node e) ∧
  (vals_ok (e_node e) → vals_ok (e_node (g e))).

Lemma upd_set_ok name ty data now : upd_ok (upd_set name ty data now).
Proof.
intros e. split; [done|]. split; [done|]. intros (N & T & F & D). unfold upd_set.
cbn [e_node entry_set_node set_values]. unfold vals_ok. cbn [values value_tombstones set_values].
change (fold ∘ v_name) with vname in *.
assert (∀ x, x ∈ put_value (fold name) (mkValue name ty data) (values (e_node e)) →
  vname x = fold name ∨ vname x ∈ vname <$> values (e_node e)) as Hx.
{ intros x Hx. apply (list_elem_of_fmap_2 vname) in Hx. rewrite put_value_names in Hx by done.
  case_decide; [by right|]. apply elem_of_app in Hx as [?|Hx%list_elem_of_singleton]; auto. }
split_and!.
- rewrite put_value_names by done. case_decide; [done|]. apply NoDup_app. split; [done|].
  split; [set_solver|]. apply NoDup_singleton.
- by apply NoDup_filter.
- apply Forall_forall. intros t [_ Ht]%list_elem_of_filter. exact (proj1 (Forall_forall _ _) F t Ht).
- intros x [E|(y & E & Hy)%list_elem_of_fmap]%Hx [Hn Ht]%list_elem_of_filter; [done|].
  unfold vname in E. rewrite E in Ht. by apply (D y).
Qed.

Lemma upd_del_ok name now : upd_ok (upd_del name now).
Proof.
intros e. split; [done|]. split; [done|]. intros (N & T & F & D). unfold upd_del.
cbn [e_node entry_set_node set_values]. unfold vals_ok. cbn [values value_tombstones set_values].
split_and!.
- eapply sublist_NoDup; [exact N|]. apply fmap_sublist, sublist_filter.
- case_bool_decide; [done|]. apply NoDup_app. split; [done|]. split; [set_solver|].
  apply NoDup_singleton.
- case_bool_decide; [done|]. apply Forall_app. split; [done|]. apply Forall_singleton.
  apply fold_idemp.
- intros x [Hn Hx]%list_elem_of_filter. pose proof (D x Hx). case_bool_decide; [done|].
  rewrite not_elem_of_app, list_elem_of_singleton. done.
Qed.

Lemma upd_volatile_ok b : upd_ok (upd_volatile b).
Proof. intros e. done. Qed.

(** *** The three operations, on the branch that succeeds *)

Definition written (path : str) (tre : bool) (v : Z) (g : Entry → Entry) (o o' : Overlay) : Prop :=
Inv o' ∧ ∃ o1 e1, Inv o1 ∧ entries o1 !! fold path = Some e1 ∧
  (entries o !! fold path = None → tre = false → created (e_node e1) = true) ∧
  chain_frame v (fold path) o o1 ∧ same_rest o1 o' ∧
  ∀ k, k ≠ [] → entries o' !! k =
    if decide (k = fold path) then Some (set_changed v (g e1))
    else (if decide (below k (fold path)) then set_subtree v else id) <$> entries o1 !! k.

Lemma write_run path tre v now g o :
Inv o → valid_path path = true → upd_ok g →
∃ o', (o1 ← ensure_chain path tre v now o; o2 ← get_mut (fold path) g o1;
       Some (Ok v, mark path v o2)) = Some (@Ok RegError _ v, o') ∧ written path tre v g o o'.
Proof.
intros HI Hv Hg. destruct (write_spec path tre v now g o HI Hv Hg)
  as (o1 & o2 & e1 & -> & E2 & HIm & HI1 & He1 & Cr & F & R & H).
cbn [mbind option_bind]. rewrite E2. cbn [mbind option_bind]. eexists. split; [done|].
split; [done|]. by exists o1, e1.
Qed.

(** The version an operation on [o] returns. *)
Definition next (o : Overlay) : Z := as_u64 (version o + 1).

Lemma Inv_bump o : Inv o → Inv (bump o).2.
Proof. intros HI. by eapply bump_Inv. Qed.

Lemma set_value_run path name ty data now o :
Inv o → valid_path path = true → check_key_name path = Ok () →
check_depth path MAX_WRITE_DEPTH = Ok () → utf16_len name ≤ MAX_VALUE_NAME →
len data ≤ MAX_DATA →
∃ o', set_value path name ty data now o = Some (Ok (next o), o') ∧
  written path true (next o) (upd_set name ty data now) (bump o).2 o'.
Proof.
intros HI Hv Hk Hd Hn Hl. unfold set_value. rewrite Hv, Hk, Hd. cbn [negb guard].
rewrite Z.gtb_ltb, (proj2 (Z.ltb_ge _ _)), Z.gtb_ltb, (proj2 (Z.ltb_ge _ _)) by done.
apply (write_run path true (next o) now (upd_set name ty data now) (bump o).2);
  [by apply Inv_bump|done|apply upd_set_ok].
Qed.

Lemma delete_value_run path name now o :
Inv o → valid_path path = true → check_key_name path = Ok () →
utf16_len name ≤ MAX_VALUE_NAME → (reg_lookup o path).1 ≠ LTombstoned →
∃ o', delete_value path name now o = Some (Ok (next o), o') ∧
  written path true (next o) (upd_del name now) (bump o).2 o'.
Proof.
intros HI Hv Hk Hn Hl. unfold delete_value. rewrite Hv, Hk. cbn [negb guard].
rewrite Z.gtb_ltb, (proj2 (Z.ltb_ge _ _)) by done.
destruct (write_run path true (next o) now (upd_del name now) (bump o).2)
  as (o' & E & W); [by apply Inv_bump|done|apply upd_del_ok|].
exists o'. split; [|done]. destruct (reg_lookup o path).1; [exact E|exact E|done].
Qed.

Lemma create_key_run path vol real now o :
Inv o → valid_path path = true → check_key_name path = Ok () →
check_depth path MAX_WRITE_DEPTH = Ok () → entries o !! fold path = None →
∃ o', create_key path vol real now o = Some (Ok (next o), o') ∧
  written path real (next o) (upd_volatile vol) (bump o).2 o'.
Proof.
intros HI Hv Hk Hd Hn. unfold create_key. rewrite Hv, Hk, Hd, Hn. cbn [negb guard].
rewrite bool_decide_false by (by intros [? ?]).
apply (write_run path real (next o) now (upd_volatile vol) (bump o).2);
  [by apply Inv_bump|done|apply upd_volatile_ok].
Qed.

(** ** Deleting a key *)

Lemma tomb_entries f v o : entries (tomb f v o) = entries o.
Proof. unfold tomb. by destruct (_ >? _). Qed.
Lemma tomb_tombs f v o : tombs (tomb f v o) = <[f := v]> (tombs o).
Proof. unfold tomb. by destruct (_ >? _). Qed.
Lemma tomb_version f v o : version (tomb f v o) = version o.
Proof. unfold tomb. by destruct (_ >? _). Qed.

(** A deletion of [k] at version [w] or later is on record. *)
Definition covers (o : Overlay) (k : str) (w : Z) : Prop :=
w ≤ deleted_floor o ∨ ∃ t, deleted_at o !! k = Some t ∧ w ≤ t.

Lemma bt_max_spec (m : gmap str Z) :
0 ≤ bt_max m ∧ (∀ k t, m !! k = Some t → t ≤ bt_max m) ∧
∀ B, 0 ≤ B → (∀ k t, m !! k = Some t → t ≤ B) → bt_max m ≤ B.
Proof.
unfold bt_max. induction m as [|k t m Hk Hfold IH] using map_first_key_ind.
{ rewrite map_fold_empty. split; [lia|]. split; [|lia]. intros k t. by rewrite lookup_empty. }
rewrite map_fold_insert_first_key by done. destruct IH as (H0 & H1 & H2). split; [lia|]. split.
- intros j u [[<- <-]|[_ Hj]]%lookup_insert_Some; [lia|]. specialize (H1 j u Hj). lia.
- intros B HB H. assert (t ≤ B) by (apply (H k); by rewrite lookup_insert_eq).
  assert (map_fold (λ _, Z.max) 0 m ≤ B); [|lia]. apply H2; [done|].
  intros j u Hj. apply (H j). rewrite lookup_insert_ne; [done|]. congruence.
Qed.

Lemma tomb_covers f v o : covers (tomb f v o) f v.
Proof.
unfold covers, tomb. destruct (_ >? _); cbn.
- left. pose proof (proj1 (proj2 (bt_max_spec (<[f := Z.max (default 0 (deleted_at o !! f)) v]>
    (deleted_at o)))) f _ (lookup_insert_eq _ _ _)). lia.
- right. rewrite lookup_insert_eq. eexists. split; [done|]. lia.
Qed.

Lemma tomb_covers_mono f v o k w : covers o k w → covers (tomb f v o) k w.
Proof.
unfold covers, tomb. set (hw := default 0 (deleted_at o !! f)).
intros [H|(t & Ht & H)]; [left; destruct (_ >? _); cbn; lia|].
assert (∃ u, <[f := Z.max hw v]> (deleted_at o) !! k = Some u ∧ w ≤ u) as (u & Hu & Hwu).
{ destruct (decide (k = f)) as [->|Hne].
  - unfold hw. rewrite Ht, lookup_insert_eq. eexists. split; [done|]. cbn. lia.
  - exists t. by rewrite lookup_insert_ne. }
destruct (_ >? _); cbn; [left|right; eauto].
pose proof (proj1 (proj2 (bt_max_spec _)) k u Hu). lia.
Qed.

(** No deletion later than [B] is on record. *)
Definition dbound (o : Overlay) (B : Z) : Prop := 0 ≤ B ∧ ∀ a w, covers o a w → w ≤ B.

Lemma tomb_dbound f v o B : dbound o B → v ≤ B → dbound (tomb f v o) B.
Proof.
intros [HB H] Hv. split; [done|]. intros a w.
assert (deleted_floor o ≤ B) as Hfl by (apply (H a); left; lia).
assert (∀ k t, <[f := Z.max (default 0 (deleted_at o !! f)) v]> (deleted_at o) !! k = Some t →
  t ≤ B) as Hall.
{ intros k t [[<- <-]|[_ Hk]]%lookup_insert_Some; [|apply (H k); right; eauto with lia].
  destruct (deleted_at o !! f) as [u|] eqn:E; cbn; [|lia].
  assert (u ≤ B); [|lia]. apply (H f). right. eauto with lia. }
unfold covers, tomb. destruct (_ >? _); cbn.
- pose proof (proj2 (proj2 (bt_max_spec _)) B HB Hall).
  intros [?|(t & Ht & _)]; [lia|]. by rewrite lookup_empty in Ht.
- intros [?|(t & Ht & ?)]; [lia|]. specialize (Hall a t Ht). lia.
Qed.

(** The state [delete_key] leaves, in terms of the one in which the parent
  chain is present. *)
Definition cut_at (f pk leaf : str) (v now : Z) (o1 o' : Overlay) : Prop :=
∃ pe, entries o1 !! pk = Some pe ∧
(∀ k, k ≠ [] → entries o' !! k = (if decide (below k pk) then set_subtree v else id) <$>
   (if decide (k = pk) then Some (stamp now v (put_child leaf Tombstone pe))
    else if decide (in_sub f k) then None else entries o1 !! k)) ∧
(∀ k, tombs o' !! k = if decide (k = f) then Some v
    else if decide (in_sub f k) then None else tombs o1 !! k).

Lemma cut_entry f pk leaf v now o1 o' k e :
Inv o1 → cut_at f pk leaf v now o1 o' → k ≠ [] → entries o' !! k = Some e →
(k = pk ∨ ¬ in_sub f k) ∧ ∃ e0, entries o1 !! k = Some e0 ∧ same_data e0 e ∧
  shape_of e = (if decide (k = pk) then
    (e_path e0, <[fold leaf := (leaf, Tombstone)]> (children (e_node e0))) else shape_of e0).
Proof.
intros HI1 (pe & Hpe & He & _) Hk. rewrite He by done.
intros (e0 & H & ->)%fmap_Some. destruct (decide (k = pk)) as [->|Hne].
- simplify_eq. split; [by left|]. exists pe. split; [done|].
  rewrite decide_False by apply below_irrefl. cbn. done.
- destruct (decide (in_sub f k)) as [|Hn]; [done|]. split; [by right|].
  exists e0. split; [done|]. by case_decide.
Qed.

Lemma cut_Inv f pp c v now o1 o' :
Inv o1 → f = fold pp ++ backslash :: fold c → key_ok c → pp ≠ [] →
cut_at f (fold pp) c v now o1 o' → entries o' !! [] = None → Inv o'.
Proof.
intros HI1 Hf Hc Hpp Hcut Hnil. pose proof Hcut as (pe & Hpe & He & Ht).
assert (fold pp ≠ []) as Hpk by (by intros ?%fold_nil_inv).
assert (∀ k e, entries o' !! k = Some e → k ≠ []) as Hne by congruence.
split.
- eapply (SInv_cut _ _ (fold pp) (e_path pe) (children (e_node pe)) c (inv_shape _ HI1));
    [apply shape_Some; by exists pe|done| |]; rewrite <- Hf.
  + intros k. destruct (decide (k = [])) as [->|Hk].
    { rewrite (proj2 (shape_None _ _) Hnil), decide_False by done. case_decide; [done|].
      symmetry. apply shape_None. destruct (entries o1 !! []) eqn:E; [|done].
      by apply entries_nonempty in E. }
    unfold shape at 1. rewrite lookup_fmap, He by done.
    destruct (decide (k = fold pp)) as [->|Hkp].
    { rewrite decide_False by apply below_irrefl. done. }
    destruct (decide (in_sub f k)); [done|]. unfold shape. rewrite lookup_fmap.
    destruct (entries o1 !! k); [|done]. by destruct (decide (below k (fold pp))).
  + intros k. unfold tombset. rewrite !elem_of_dom, Ht.
    repeat case_decide; [naive_solver..|]. naive_solver.
- intros k e Hk. destruct (cut_entry _ _ _ _ _ _ _ _ _ HI1 Hcut (Hne _ _ Hk) Hk)
    as (_ & e0 & H0 & (_ & E1 & E2 & _) & _).
  unfold vals_ok. rewrite E1, E2. exact (inv_vals _ HI1 _ _ H0).
- intros k e qk qe Hk Hq Hqe.
  destruct (cut_entry _ _ _ _ _ _ _ _ _ HI1 Hcut (Hne _ _ Hk) Hk)
    as (_ & e0 & H0 & (_ & _ & _ & -> & _) & _).
  destruct (cut_entry _ _ _ _ _ _ _ _ _ HI1 Hcut (Hne _ _ Hqe) Hqe)
    as (_ & qe0 & Hq0 & (_ & _ & _ & -> & _) & _).
  by eapply (inv_created _ HI1).
Qed.

Lemma touch_nil p v o : Inv o → entries (touch_ancestors p v o) !! [] = None.
Proof.
intros HI. destruct (entries (touch_ancestors p v o) !! []) eqn:E; [|done].
apply touch_ancestors_lookup_inv in E as (e0 & E & _); [|done]. by apply entries_nonempty in E.
Qed.

Lemma delete_key_run path parent now o :
Inv o → valid_path path = true → reg_parent path = Some parent →
(reg_lookup o path).1 ≠ LTombstoned →
∃ o1 o', delete_key path now o = Some (Ok (next o), o') ∧ Inv o' ∧ Inv o1 ∧
  chain_frame (next o) (fold parent) (bump o).2 o1 ∧
  cut_at (fold path) (fold parent) (reg_leaf path) (next o) now o1 o' ∧
  deleted_at o' = deleted_at (tomb (fold path) (next o) o1) ∧
  deleted_floor o' = deleted_floor (tomb (fold path) (next o) o1) ∧
  version o' = version o1.
Proof.
intros HI Hv Hp Hl. destruct (valid_path_parent _ _ Hv Hp) as [Hvp Hleaf].
destruct (reg_parent_Some _ _ Hp) as (Hpath & Hpne & _).
destruct (ensure_chain_spec parent true (next o) now (bump o).2 (Inv_bump _ HI) Hvp)
  as (o1 & pe & E1 & HI1 & Hpe & _ & F).
assert (fold path = fold parent ++ backslash :: fold (reg_leaf path)) as Hf
  by (rewrite Hpath at 1; apply fold_snoc).
set (v := next o) in *. set (f := fold path) in *.
set (o3 := tomb f v (remove_subtree f o1)).
assert (∀ k, entries o3 !! k = if decide (in_sub f k) then None else entries o1 !! k) as H3.
{ intros k. unfold o3. by rewrite tomb_entries, remove_subtree_entries. }
assert (entries o3 !! fold parent = Some pe) as Hp3.
{ rewrite H3, decide_False; [done|]. rewrite Hf. apply below_not_in_sub, below_app. }
set (g := λ e, stamp now v (put_child (reg_leaf path) Tombstone e)).
set (o4 := set_entries (<[fold parent := g pe]> (entries o3)) o3).
assert (entries o4 !! [] = None) as Hnil.
{ unfold o4. cbn [entries set_entries]. rewrite lookup_insert_ne by (by intros ?%fold_nil_inv).
  rewrite H3. case_decide; [done|]. destruct (entries o1 !! []) eqn:E; [|done].
  by apply entries_nonempty in E. }
assert (cut_at f (fold parent) (reg_leaf path) v now o1 (touch_ancestors parent v o4)) as Hcut.
{ exists pe. split; [done|]. split.
  - intros k Hk. rewrite touch_ancestors_lookup by done. f_equal. unfold o4. cbn [entries set_entries].
    destruct (decide (k = fold parent)) as [->|]; [by rewrite lookup_insert_eq|].
    by rewrite lookup_insert_ne, H3.
  - intros k. destruct (touch_ancestors_rest parent v o4) as (_ & -> & _).
    unfold o4, o3. cbn [tombs set_entries]. rewrite tomb_tombs.
    destruct (decide (k = f)) as [->|]; [by rewrite lookup_insert_eq|].
    by rewrite lookup_insert_ne, remove_subtree_tombs. }
destruct (touch_ancestors_rest parent v o4) as (_ & _ & R1 & R2 & R3).
exists o1, (touch_ancestors parent v o4). split.
{ unfold delete_key. rewrite Hv, Hp. cbn [negb]. fold v f.
  assert ((o ← ensure_chain parent true v now (bump o).2;
           o ← get_mut (fold parent) g (tomb f v (remove_subtree f o));
           Some (Ok v, touch_ancestors parent v o)) =
          Some (@Ok RegError _ v, touch_ancestors parent v o4)) as E.
  { rewrite E1. cbn [mbind option_bind]. fold o3. by rewrite (get_mut_spec _ _ _ pe Hp3). }
  destruct (reg_lookup o path).1; [exact E|exact E|done]. }
split.
{ apply (cut_Inv f parent (reg_leaf path) v now o1); try done.
  destruct (entries (touch_ancestors parent v o4) !! []) eqn:E; [exfalso|done]. unfold touch_ancestors in E.
  destruct (touch_loop_rest (length parent) (reg_parent parent) v o4) as (_ & _ & _ & _ & Hs).
  assert (is_Some (shape o4 !! [])) as [x Hx]
    by (rewrite <- Hs; apply shape_is_Some; by eexists).
  apply (proj2 (shape_None _ _)) in Hnil. congruence. }
split; [done|]. split; [done|]. split; [done|]. rewrite R1, R2, R3.
unfold o4, o3, tomb, remove_subtree. cbn. by destruct (_ >? _).
Qed.
End props.
