(* ===== verification/RegRename.v ===== *)
(** RegRename: [Overlay::rename_key] moves a whole subtree. *)

From S2P Require Import Prelude Text Path RegTypes RegPath RegOverlay RegInv RegOps RegProps.

Lemma skip_bytes_app a b : skip_bytes (str_len a) (a ++ b) = Some b.
Proof.
  unfold str_len. induction a as [|c a IH]; [by destruct b|].
  rewrite utf8_cons, len_app. pose proof (utf8_char_pos c). pose proof (len_nonneg (utf8 a)).
  cbn [app skip_bytes]. destruct (Z.eqb_spec (len (utf8_char c) + len (utf8 a)) 0); [lia|].
  destruct (Z.leb_spec (len (utf8_char c)) (len (utf8_char c) + len (utf8 a))); [|lia].
  by replace (len (utf8_char c) + len (utf8 a) - len (utf8_char c)) with (len (utf8 a)) by lia.
Qed.

Section rename.
Context {CT : CaseTable}.

(** ** The loops of [rename_key] *)

Lemma take_entries_spec ks o :
NoDup ks → (∀ k, k ∈ ks → is_Some (entries o !! k)) →
∃ es, take_entries ks o = Some (es, set_entries (foldl (λ m k, delete k m) (entries o) ks) o) ∧
  Forall2 (λ k e, entries o !! k = Some e) ks es.
Proof.
intros Hnd. revert o. induction Hnd as [|k ks Hk Hnd IH]; intros o Hs; cbn [take_entries foldl].
{ exists []. split; [by destruct o|constructor]. }
destruct (Hs k) as [e He]; [by left|]. rewrite He. cbn [mbind option_bind].
destruct (IH (set_entries (delete k (entries o)) o)) as (es & -> & Hes).
{ intros j Hj. cbn [entries set_entries]. rewrite lookup_delete_ne by (by intros ->).
  apply Hs. by right. }
cbn [mbind option_bind]. exists (e :: es). split; [done|]. constructor; [done|].
eapply Forall2_impl; [exact Hes|]. cbn [entries set_entries].
intros j x [_ ?]%lookup_delete_Some. done.
Qed.

Lemma below_keys_nodup {V} (f : str) (m : gmap str V) : NoDup (below_keys f m).*1.
Proof.
assert (∀ (p : str * V → bool) l, take_while p l `sublist_of` l) as Htw.
{ intros p l. induction l as [|x l IH]; cbn; [done|]. destruct (p x).
  - by apply sublist_skip.
  - apply sublist_nil_l. }
unfold below_keys, bt_range. eapply sublist_NoDup; [apply (bt_iter_nodup m)|].
apply fmap_sublist. etransitivity; [apply Htw|apply sublist_filter].
Qed.

Lemma subtree_keys_nodup o f : NoDup (subtree_keys o f).
Proof.
unfold subtree_keys. apply NoDup_app. split; [case_bool_decide; [apply NoDup_singleton|constructor]|].
split; [|apply below_keys_nodup]. intros x Hx [_ Hb]%below_keys_keys.
case_bool_decide; [|by apply elem_of_nil in Hx]. apply list_elem_of_singleton in Hx as ->.
by apply below_irrefl in Hb.
Qed.

Definition moved_entry (new_path x : str) (v : Z) (e : Entry) : Entry :=
mkEntry (new_path ++ x) (set_created true (e_node e)) v v.

Lemma move_entries_spec olds oldf newp newf v es o :
fold olds = oldf →
(∀ e, e ∈ es → ∃ x, e_path e = olds ++ x) → NoDup ((fold ∘ e_path) <$> es) →
∃ m, move_entries olds oldf newp newf v es o = Some (set_entries m o) ∧
  (∀ e x, e ∈ es → e_path e = olds ++ x → m !! (newf ++ fold x) = Some (moved_entry newp x v e)) ∧
  (∀ k, (∀ e x, e ∈ es → e_path e = olds ++ x → k ≠ newf ++ fold x) → m !! k = entries o !! k).
Proof.
intros Hf. revert o. induction es as [|e es IH]; intros o Hp Hnd; cbn [move_entries].
{ exists (entries o). split; [by destruct o|]. split; [|done]. intros e x He.
  by apply elem_of_nil in He. }
destruct (Hp e) as [x Hx]; [by left|]. rewrite fmap_cons in Hnd.
apply NoDup_cons in Hnd as [Hnin Hnd].
unfold move_entry. rewrite Hx, skip_bytes_app. cbn [mbind option_bind].
rewrite fold_app, Hf, skip_bytes_app. cbn [mbind option_bind].
destruct (IH (set_entries (<[newf ++ fold x := mkEntry (newp ++ x) (set_created true (e_node e)) v v]>
  (entries o)) o)) as (m & -> & H1 & H2); [intros e' He'; apply Hp; by right|done|].
exists m. split; [done|]. cbn [entries set_entries] in *. split.
- intros e' x' [->|He']%elem_of_cons Hx'; [|by apply H1].
  rewrite Hx in Hx'. apply app_inv_head in Hx' as <-. rewrite H2; [by rewrite lookup_insert_eq|].
  intros e' x' He' Hx' E. apply app_inv_head in E. apply Hnin.
  apply list_elem_of_fmap. exists e'. split; [|done]. unfold compose.
  by rewrite Hx, Hx', !fold_app, E.
- intros k Hk. rewrite H2; [|intros e' x' He'; apply Hk; by right].
  rewrite lookup_insert_ne; [done|]. intros E. by apply (Hk e x); [left| |].
Qed.

Lemma move_tombs_spec oldf newf v ks o :
(∀ k, k ∈ ks → ∃ r, k = oldf ++ r) →
∃ o', move_tombs oldf newf v ks o = Some o' ∧ entries o' = entries o ∧ version o' = version o ∧
  (∀ r, oldf ++ r ∈ ks → tombs o' !! (newf ++ r) = Some v) ∧
  (∀ k, (∀ r, oldf ++ r ∈ ks → k ≠ newf ++ r) → tombs o' !! k = tombs o !! k) ∧
  (∀ a w, covers o a w → covers o' a w) ∧ (∀ B, dbound o B → v ≤ B → dbound o' B).
Proof.
revert o. induction ks as [|k ks IH]; intros o Hp; cbn [move_tombs].
{ exists o. do 3 (split; [done|]). split; [|done]. intros r Hr. by apply elem_of_nil in Hr. }
destruct (Hp k) as [r ->]; [by left|]. rewrite skip_bytes_app. cbn [mbind option_bind].
destruct (IH (tomb (newf ++ r) v o)) as (o' & -> & He & Hv & H1 & H2 & H3 & H4);
  [intros k Hk; apply Hp; by right|].
exists o'. split; [done|]. rewrite He, Hv, tomb_entries, tomb_version. do 2 (split; [done|]).
rewrite tomb_tombs in H2. split; [|split; [|split; [eauto using tomb_covers_mono|eauto using tomb_dbound]]].
- intros r' [E|Hr']%elem_of_cons; [|by apply H1]. apply app_inv_head in E as ->.
  destruct (decide (oldf ++ r ∈ ks)) as [Hin|Hin]; [by apply H1|].
  rewrite H2; [by rewrite lookup_insert_eq|]. intros r' Hr' E. apply app_inv_head in E as ->. done.
- intros k Hk. rewrite H2; [|intros r' Hr'; apply Hk; by right].
  rewrite lookup_insert_ne; [done|]. intros E. by apply (Hk r); [left|].
Qed.

(** ** The moving part *)

Section moving.
Context (o : Overlay) (olds oldf newp newf : str) (v : Z) (root : Entry).
Context (HI : Inv o) (Hroot : entries o !! oldf = Some root) (Holds : olds = e_path root)
(Hfree : newf = oldf ∨ entries o !! newf = None) (Hne : newf ≠ []).

Lemma rename_olds : fold olds = oldf.
Proof. destruct (inv_key _ _ _ HI Hroot) as [_ E]. congruence. Qed.

Lemma rename_sub_path k e : entries o !! k = Some e → in_sub oldf k →
∃ x, sfx x ∧ e_path e = olds ++ x ∧ k = oldf ++ fold x.
Proof.
intros Hk Hs. destruct (inv_key _ _ _ HI Hk) as [_ E].
pose proof (si_sub_path _ _ oldf olds (children (e_node root)) k (e_path e) (children (e_node e))
  (inv_shape _ HI)) as Hp.
destruct (proj1 (in_sub_sfx olds (e_path e))) as (x & Hx & Ex).
{ apply Hp; [apply shape_Some; eauto|apply shape_Some; eauto|done]. }
exists x. split; [done|]. split; [done|]. rewrite E, Ex, fold_app. by rewrite rename_olds.
Qed.

(** Nothing is below a free name. *)
Lemma rename_free k : newf ≠ oldf → in_sub newf k → entries o !! k = None.
Proof.
intros Hn Hk. destruct Hfree as [?|Hf]; [done|]. destruct Hk as [->|Hb]; [done|].
by eapply no_children.
Qed.

Lemma rename_free_tombs k : newf ≠ oldf → below newf k → tombs o !! k = None.
Proof.
intros Hn Hk. destruct (tombs o !! k) eqn:E; [|done].
assert (k ∈ tombset o) as Hin by (apply elem_of_dom; by eexists).
destruct (si_tomb _ _ (inv_shape _ HI) _ Hin) as (_ & pk & p & ch & sp & Hpk & -> & Hsp).
destruct (si_child _ _ (inv_shape _ HI) _ _ _ _ _ _ Hpk Hsp) as ([_ Hb] & _).
apply below_snoc in Hk; [|by rewrite fold_no_bs].
apply shape_Some in Hpk as (e & He & _). by rewrite rename_free in He.
Qed.

(** The subtree is taken out, then put back under the new name. *)
Lemma rename_moves :
∃ es oE, take_entries (subtree_keys o oldf) o =
    Some (es, set_entries (foldl (λ m k, delete k m) (entries o) (subtree_keys o oldf)) o) ∧
  (let oB := remove_subtree oldf
     (set_entries (foldl (λ m k, delete k m) (entries o) (subtree_keys o oldf)) o) in
   let oC := set_tombs (delete newf (tombs oB)) oB in
   oD ← move_entries olds oldf newp newf v es oC;
   move_tombs oldf newf v (below_keys oldf (tombs o)).*1 oD) = Some oE ∧
  (∀ x, sfx x → entries oE !! (newf ++ x) =
    (λ e, moved_entry newp (drop (length olds) (e_path e)) v e) <$> entries o !! (oldf ++ x)) ∧
  (∀ k, ¬ in_sub newf k → entries oE !! k = if decide (in_sub oldf k) then None else entries o !! k) ∧
  (∀ x, sfx x → is_Some (tombs oE !! (newf ++ x)) ↔ is_Some (tombs o !! (oldf ++ x))) ∧
  (∀ k, ¬ in_sub newf k → tombs oE !! k = if decide (in_sub oldf k) then None else tombs o !! k) ∧
  (∀ a w, covers o a w → covers oE a w) ∧ (∀ B, dbound o B → v ≤ B → dbound oE B) ∧
  version oE = version o.
Proof.
destruct (take_entries_spec (subtree_keys o oldf) o) as (es & Ht & Hes).
{ apply subtree_keys_nodup. }
{ intros k Hk. by apply subtree_keys_spec in Hk as [? _]. }
set (oA := set_entries _ _) in *. set (oB := remove_subtree oldf oA).
set (oC := set_tombs (delete newf (tombs oB)) oB).
assert (∀ k, entries oC !! k = if decide (in_sub oldf k) then None else entries o !! k) as HC.
{ intros k. unfold oC. cbn [entries set_tombs]. unfold oB. rewrite remove_subtree_entries.
  case_decide; [done|]. unfold oA. cbn [entries set_entries]. rewrite foldl_delete_lookup.
  rewrite decide_False; [done|]. by rewrite subtree_keys_spec; intros [_ ?]. }
assert (∀ e, e ∈ es → ∃ k, k ∈ subtree_keys o oldf ∧ entries o !! k = Some e) as Hin.
{ intros e He. apply list_elem_of_lookup in He as [j Hj].
  destruct (Forall2_lookup_r _ _ _ _ _ Hes Hj) as (k & Hk & E). exists k. split; [|done].
  by eapply list_elem_of_lookup_2. }
assert (∀ k e, entries o !! k = Some e → in_sub oldf k → e ∈ es) as Hin'.
{ intros k e Hk Hs. assert (k ∈ subtree_keys o oldf) as Hks
    by (apply subtree_keys_spec; split; [by eexists|done]).
  apply list_elem_of_lookup in Hks as [j Hj].
  destruct (Forall2_lookup_l _ _ _ _ _ Hes Hj) as (e' & He' & E). simplify_eq.
  by eapply list_elem_of_lookup_2. }
destruct (move_entries_spec olds oldf newp newf v es oC) as (m & Hm & M1 & M2).
{ apply rename_olds. }
{ intros e He. destruct (Hin e He) as (k & Hk & E). apply subtree_keys_spec in Hk as [_ Hs].
  destruct (rename_sub_path k e E Hs) as (x & _ & Hx & _). by exists x. }
{ assert ((fold ∘ e_path) <$> es = subtree_keys o oldf) as ->; [|apply subtree_keys_nodup].
  clear -HI Hes. induction Hes as [|k e ks es Hk Hes IH]; [done|].
  rewrite fmap_cons, IH. f_equal. by destruct (inv_key _ _ _ HI Hk). }
destruct (move_tombs_spec oldf newf v (below_keys oldf (tombs o)).*1 (set_entries m oC))
  as (oE & HE & Een & Ev & T1 & T2 & T3 & T4).
{ intros k [_ [r ->]]%below_keys_keys. by eexists. }
exists es, oE. split; [done|]. split; [cbv zeta; fold oB; fold oC; by rewrite Hm|].
rewrite Een. cbn [entries set_entries tombs] in *.
assert (∀ k, tombs oC !! k = if decide (k = newf) then None
          else if decide (in_sub oldf k) then None else tombs o !! k) as HtC.
{ intros k. unfold oC. cbn [tombs set_tombs]. destruct (decide (k = newf)) as [->|Hk].
  - by rewrite lookup_delete_eq.
  - rewrite lookup_delete_ne by done. unfold oB. by rewrite remove_subtree_tombs. }
split_and!.
- intros x Hx. destruct (entries o !! (oldf ++ x)) as [e|] eqn:E.
  + destruct (rename_sub_path _ _ E (in_sub_app _ _ Hx)) as (y & Hy & Ey & Ek).
    apply app_inv_head in Ek as ->. cbn. rewrite Ey, drop_app_length. apply M1; [|done].
    eapply Hin'; [exact E|by apply in_sub_app].
  + cbn. rewrite M2.
    * rewrite HC. case_decide as Hd; [done|]. destruct (decide (newf = oldf)) as [->|Hn].
      { destruct Hd. by apply in_sub_app. }
      apply rename_free; [done|by apply in_sub_app].
    * intros e y He Ey Eq. apply app_inv_head in Eq as ->.
      destruct (Hin e He) as (k & _ & Ek). destruct (inv_key _ _ _ HI Ek) as [_ Hk].
      rewrite Ey, fold_app, rename_olds in Hk. congruence.
- intros k Hk. rewrite M2; [apply HC|]. intros e y He Ey ->. apply Hk.
  destruct (Hin e He) as (k & Hks & Ek). apply subtree_keys_spec in Hks as [_ Hs].
  destruct (rename_sub_path _ _ Ek Hs) as (z & Hz & Ez & _).
  rewrite Ey in Ez. apply app_inv_head in Ez as ->. apply in_sub_app. by apply sfx_fold.
- intros x Hx. destruct (decide (oldf ++ x ∈ (below_keys oldf (tombs o)).*1)) as [Hb|Hb].
  + rewrite T1 by done. apply below_keys_keys in Hb as [? _]. split; [done|by eexists].
  + rewrite T2.
    * rewrite HtC. destruct Hx as [->|[r ->]].
      { rewrite !app_nil_r, decide_True by done. split; [by intros []|].
        intros Hs. assert (oldf ∈ tombset o) as Hin2 by (by apply elem_of_dom).
        destruct (si_tomb _ _ (inv_shape _ HI) _ Hin2) as [Hn _].
        apply shape_None in Hn. congruence. }
      rewrite below_keys_keys in Hb.
      assert (¬ is_Some (tombs o !! (oldf ++ backslash :: r))) as Hno.
      { intros Hs. apply Hb. split; [done|apply below_app]. }
      split; [|done]. repeat case_decide; [by intros []|by intros []|].
      destruct (decide (newf = oldf)) as [E|Hn]; [by rewrite E|].
      rewrite rename_free_tombs; [by intros []|done|apply below_app].
    * intros r Hr E. apply app_inv_head in E as <-. done.
- intros k Hk. rewrite T2.
  + rewrite HtC, decide_False; [done|]. intros ->. apply Hk. by left.
  + intros r Hr ->. apply Hk. apply below_keys_keys in Hr as [_ [q E]].
    apply app_inv_head in E as ->. apply in_sub_app. right. by eexists.
- intros a w Hc. apply T3. exact Hc.
- intros B HB. apply T4. exact HB.
- exact Ev.
Qed.
End moving.

(** ** [rename_key] on the branch that succeeds *)

(** Moved entries keep their data, are created-here and freshly changed. *)
Definition moved_from (v : Z) (olds newp : str) (e e' : Entry) : Prop :=
e_path e' = newp ++ drop (length olds) (e_path e) ∧
children (e_node e') = children (e_node e) ∧ values (e_node e') = values (e_node e) ∧
value_tombstones (e_node e') = value_tombstones (e_node e) ∧
volatile (e_node e') = volatile (e_node e) ∧ created (e_node e') = true ∧
e_changed e' = v ∧ e_subtree e' = v.

Record renamed (olds oldf newp newf pk leaf n : str) (v : Z) (pe : Entry) (o o' : Overlay) : Prop := {
rn_parent : ∃ pe', entries o' !! pk = Some pe' ∧ same_data pe pe' ∧
  children (e_node pe') = moved_children (bool_decide (newf = oldf)) leaf n (children (e_node pe)) ∧
  e_changed pe' = v ∧ e_subtree pe' = e_subtree pe;
rn_new x : sfx x → match entries o !! (oldf ++ x) with
  | Some e => ∃ e', entries o' !! (newf ++ x) = Some e' ∧ moved_from v olds newp e e'
  | None => entries o' !! (newf ++ x) = None
  end;
rn_old k : in_sub oldf k → ¬ in_sub newf k → entries o' !! k = None;
rn_other k : k ≠ pk → ¬ in_sub oldf k → ¬ in_sub newf k →
  entries o' !! k = (if decide (below k pk) then set_subtree v else id) <$> entries o !! k;
rn_tnew x : sfx x → is_Some (tombs o' !! (newf ++ x)) ↔ is_Some (tombs o !! (oldf ++ x));
rn_told k : in_sub oldf k → ¬ in_sub newf k → is_Some (tombs o' !! k) ↔ k = oldf;
rn_tother k : ¬ in_sub oldf k → ¬ in_sub newf k → tombs o' !! k = tombs o !! k;
rn_covers a w : covers o a w → covers o' a w;
rn_bound B : dbound o B → v ≤ B → dbound o' B;
rn_deleted : newf ≠ oldf → covers o' oldf v;
rn_version : version o' = version o }.

Lemma touch_lookup_nil p v o : entries o !! [] = None → entries (touch_ancestors p v o) !! [] = None.
Proof.
intros H. apply shape_None. destruct (touch_ancestors_rest p v o) as [-> _]. by apply shape_None.
Qed.

(** The tail of [rename_key]: stamping the moved root, then the parent. *)
Lemma rename_tail o oE olds oldf newp newf ps parent c n now v pe root :
Inv o → newf = fold ps ++ backslash :: fold n → oldf = fold ps ++ backslash :: fold c →
key_ok c → key_ok n → ps ≠ [] → fold parent = fold ps → backslash ∉ reg_leaf olds →
entries o !! fold ps = Some pe → entries o !! oldf = Some root →
(∀ x, sfx x → entries oE !! (newf ++ x) =
   (λ e, moved_entry newp (drop (length olds) (e_path e)) v e) <$> entries o !! (oldf ++ x)) →
(∀ k, ¬ in_sub newf k → entries oE !! k = if decide (in_sub oldf k) then None else entries o !! k) →
(∀ x, sfx x → is_Some (tombs oE !! (newf ++ x)) ↔ is_Some (tombs o !! (oldf ++ x))) →
(∀ k, ¬ in_sub newf k → tombs oE !! k = if decide (in_sub oldf k) then None else tombs o !! k) →
(∀ a w, covers o a w → covers oE a w) → (∀ B, dbound o B → v ≤ B → dbound oE B) →
version oE = version o →
∀ leaf, ∃ o', (o2 ← get_mut newf (λ e, entry_set_node (set_last_write now (e_node e)) e) oE;
  _ ← entries o2 !! fold parent;
  o3 ← (if str_eqb newf oldf then Some o2
        else o3 ← get_mut (fold parent) (put_child leaf Tombstone) o2; Some (tomb oldf v o3));
  o4 ← get_mut (fold parent) (λ pe, stamp now v (put_child n Present pe)) o3;
  Some (Ok v, touch_ancestors parent v o4)) = Some (@Ok RegError _ v, o') ∧
  renamed olds oldf newp newf (fold ps) leaf n v pe o o'.
Proof.
intros HI Hnf Hof Hc Hn Hps Hpar Hbs Hpe Hroot E1 E2 T1 T2 C D V leaf. rewrite Hpar.
assert (¬ in_sub newf (fold ps)) as Hp1 by (rewrite Hnf; apply below_not_in_sub, below_app).
assert (¬ in_sub oldf (fold ps)) as Hp2 by (rewrite Hof; apply below_not_in_sub, below_app).
assert (newf ≠ fold ps) as Hp3 by (intros E; apply Hp1; by left).
assert (newf ≠ oldf → ¬ in_sub newf oldf) as Hdis.
{ intros Hne H. eapply (siblings_disjoint (fold ps) (fold c) (fold n) oldf);
    [rewrite fold_no_bs; apply Hc|rewrite fold_no_bs; apply Hn|congruence|left; done|by rewrite <- Hnf]. }
set (mr := moved_entry newp (drop (length olds) (e_path root)) v root).
assert (entries oE !! newf = Some mr) as Hmr.
{ rewrite <- (app_nil_r newf), E1, app_nil_r, Hroot by (by left). done. }
rewrite (get_mut_spec _ _ _ mr Hmr). cbn [mbind option_bind]. set (mr' := entry_set_node _ mr).
set (o2 := set_entries (<[newf := mr']> (entries oE)) oE).
assert (entries o2 !! fold ps = Some pe) as Hpe2.
{ unfold o2. cbn [entries set_entries]. rewrite lookup_insert_ne, E2, decide_False by done. done. }
rewrite Hpe2. cbn [mbind option_bind].
set (pe3 := if str_eqb newf oldf then pe else put_child leaf Tombstone pe).
set (o3 := if str_eqb newf oldf then o2
           else tomb oldf v (set_entries (<[fold ps := pe3]> (entries o2)) o2)).
assert ((if str_eqb newf oldf then Some o2
         else o3 ← get_mut (fold ps) (put_child leaf Tombstone) o2; Some (tomb oldf v o3)) =
        Some o3) as ->.
{ unfold o3, pe3. destruct (str_eqb newf oldf); [done|]. by rewrite (get_mut_spec _ _ _ pe Hpe2). }
cbn [mbind option_bind].
assert (entries o3 = <[fold ps := pe3]> (entries o2)) as He3.
{ unfold o3, pe3. destruct (str_eqb newf oldf); [by rewrite insert_id|]. by rewrite tomb_entries. }
rewrite (get_mut_spec _ _ _ pe3) by (by rewrite He3, lookup_insert_eq). cbn [mbind option_bind].
set (pe4 := stamp now v (put_child n Present pe3)).
set (o4 := set_entries (<[fold ps := pe4]> (entries o3)) o3).
assert (∀ k, k ≠ fold ps → entries o4 !! k =
  if decide (k = newf) then Some mr' else entries oE !! k) as H4.
{ intros k Hk. unfold o4. cbn [entries set_entries]. rewrite He3, insert_insert_eq.
  rewrite lookup_insert_ne by done. unfold o2. cbn [entries set_entries].
  destruct (decide (k = newf)) as [->|?]; [by rewrite lookup_insert_eq|by rewrite lookup_insert_ne]. }
assert (entries o4 !! fold ps = Some pe4) as H4p by (unfold o4; cbn; by rewrite lookup_insert_eq).
assert (∀ k, tombs o4 !! k = if decide (newf ≠ oldf ∧ k = oldf) then Some v else tombs oE !! k) as H4t.
{ intros k. unfold o4, o3. cbn [tombs set_entries].
  destruct (str_eqb_spec newf oldf) as [E|E]; [rewrite decide_False by naive_solver; done|].
  rewrite tomb_tombs. destruct (decide (k = oldf)) as [->|?].
  - rewrite decide_True, lookup_insert_eq by done. done.
  - rewrite decide_False, lookup_insert_ne by naive_solver. done. }
assert (∀ k, in_sub newf k → ¬ below k (fold ps)) as Hnb.
{ intros k Hk Hb. apply Hp1. right. by eapply in_sub_below. }
destruct (touch_ancestors_rest parent v o4) as (_ & Rt & Rd & Rf & Rv).
assert (∀ k, entries (touch_ancestors parent v o4) !! k =
  (if decide (below k (fold ps)) then set_subtree v else id) <$> entries o4 !! k) as Ht.
{ intros k. destruct (decide (k = [])) as [->|Hk]; [|by rewrite touch_ancestors_lookup, Hpar].
  assert (entries o4 !! [] = None) as Hnil.
  { rewrite H4 by (by intros E%eq_sym%fold_nil_inv). rewrite decide_False by (rewrite Hnf; by destruct (fold ps)).
    rewrite E2; [|intros [E|[r E]]; rewrite Hnf in E; by destruct (fold ps)].
    destruct (decide (in_sub oldf [])); [done|]. destruct (entries o !! []) eqn:E; [|done].
    by apply entries_nonempty in E. }
  rewrite Hnil. by apply touch_lookup_nil. }
eexists. split; [done|]. split.
- exists pe4. rewrite Ht, H4p, decide_False by apply below_irrefl. split; [done|].
  unfold pe4, pe3, moved_children. destruct (str_eqb_spec newf oldf);
    [rewrite bool_decide_true by done|rewrite bool_decide_false by done]; done.
- intros x Hx. assert (newf ++ x ≠ fold ps) as Hxp.
  { intros E. apply Hp1. rewrite <- E. by apply in_sub_app. }
  rewrite Ht, H4, decide_False by (try done; by apply Hnb, in_sub_app).
  destruct (decide (newf ++ x = newf)) as [E|Hxn].
  + assert (x = []) as -> by (apply (app_inv_head newf); by rewrite app_nil_r).
    rewrite app_nil_r, Hroot. exists mr'. split; [done|]. repeat split.
  + rewrite E1 by done. destruct (entries o !! (oldf ++ x)) as [e|]; [|done].
    eexists. split; [done|]. repeat split.
- intros k Hk Hkn. assert (k ≠ fold ps) by (intros E; apply Hp2; by rewrite <- E).
  rewrite Ht, H4, E2 by done. rewrite (decide_False (P := k = newf)) by (intros E; apply Hkn; by left).
  by rewrite (decide_True (P := in_sub oldf k)).
- intros k Hk1 Hk2 Hk3. rewrite Ht, H4, E2 by done.
  rewrite (decide_False (P := k = newf)) by (intros E; apply Hk3; by left).
  by rewrite (decide_False (P := in_sub oldf k)).
- intros x Hx. rewrite Rt, H4t. rewrite decide_False; [by apply T1|].
  intros [Hne E]. apply (Hdis Hne). rewrite <- E. by apply in_sub_app.
- intros k Hk Hkn. rewrite Rt, H4t. rewrite T2, (decide_True (P := in_sub oldf k)) by done.
  split; [destruct (decide (newf ≠ oldf ∧ k = oldf)) as [[_ ?]|]; [done|by intros []]|].
  intros E. rewrite decide_True; [by eexists|]. split; [|done]. intros E'. apply Hkn. left. congruence.
- intros k Hk1 Hk2. rewrite Rt, H4t. rewrite T2, decide_False, decide_False; try done.
  intros [_ E]. apply Hk1. by left.
- intros a w Ha. apply C in Ha. unfold covers. rewrite Rd, Rf. unfold o4, o3. cbn [deleted_at deleted_floor set_entries].
  destruct (str_eqb newf oldf); [exact Ha|]. by apply (tomb_covers_mono oldf v).
- intros B HB HvB. pose proof (D B HB HvB) as HD. unfold dbound, covers. rewrite Rd, Rf.
  unfold o4, o3. cbn [deleted_at deleted_floor set_entries].
  destruct (str_eqb newf oldf); [exact HD|]. by apply (tomb_dbound oldf v).
- intros Hne. unfold covers. rewrite Rd, Rf. unfold o4, o3. cbn [deleted_at deleted_floor set_entries].
  destruct (str_eqb_spec newf oldf); [done|]. apply tomb_covers.
- rewrite Rv. unfold o4, o3. cbn [version set_entries]. destruct (str_eqb newf oldf); [exact V|].
  by rewrite tomb_version.
Qed.

Lemma renamed_entry olds oldf newp newf ps leaf n v pe o o' k e :
renamed olds oldf newp newf (fold ps) leaf n v pe o o' → entries o !! fold ps = Some pe →
entries o' !! k = Some e →
(∃ x e0, sfx x ∧ k = newf ++ x ∧ entries o !! (oldf ++ x) = Some e0 ∧ moved_from v olds newp e0 e) ∨
(¬ in_sub newf k ∧ ∃ e0, entries o !! k = Some e0 ∧ same_data e0 e).
Proof.
intros R Hpe Hk. destruct (decide (in_sub newf k)) as [(x & Hx & ->)%in_sub_sfx|Hn].
- left. pose proof (rn_new _ _ _ _ _ _ _ _ _ _ _ R x Hx) as H.
  destruct (entries o !! (oldf ++ x)) as [e0|] eqn:E; [|congruence].
  destruct H as (e' & He' & Hm). simplify_eq. exists x, e0. done.
- right. split; [done|].
  destruct (decide (in_sub oldf k)) as [Ho|Ho].
  { by rewrite (rn_old _ _ _ _ _ _ _ _ _ _ _ R k Ho Hn) in Hk. }
  destruct (decide (k = fold ps)) as [->|Hp].
  + destruct (rn_parent _ _ _ _ _ _ _ _ _ _ _ R) as (pe' & He' & Hd & _). simplify_eq. eauto.
  + rewrite (rn_other _ _ _ _ _ _ _ _ _ _ _ R k Hp Ho Hn) in Hk.
    apply fmap_Some in Hk as (e0 & H0 & ->). exists e0. split; [done|]. by case_decide.
Qed.

Lemma renamed_Inv oldf newf ps c leaf n v pe root o o' :
Inv o → newf = fold ps ++ backslash :: fold n → oldf = fold ps ++ backslash :: fold c →
key_ok c → key_ok n → key_ok leaf → fold leaf = fold c → ps ≠ [] →
entries o !! fold ps = Some pe → e_path pe = ps →
entries o !! oldf = Some root → e_path root = ps ++ backslash :: c →
renamed (ps ++ backslash :: c) oldf (ps ++ backslash :: n) newf (fold ps) leaf n v pe o o' →
Inv o'.
Proof.
intros HI Hnf Hof Hc Hn Hl Hlc Hps Hpe Hpp Hroot Hrp R.
pose proof (inv_shape _ HI) as HS.
split.
- eapply (SInv_move (shape o) (shape o') (tombset o) (tombset o') (fold ps) ps
    (children (e_node pe)) (children (e_node root)) c leaf n oldf newf); try done.
  + apply shape_Some. eauto.
  + apply shape_Some. eauto.
  + apply shape_Some. destruct (rn_parent _ _ _ _ _ _ _ _ _ _ _ R) as (pe' & He' & (Hp & _) & Hch & _).
    exists pe'. split; [done|]. split; [congruence|done].
  + intros x Hx. pose proof (rn_new _ _ _ _ _ _ _ _ _ _ _ R x Hx) as H. unfold shape.
    rewrite !lookup_fmap. destruct (entries o !! (oldf ++ x)) as [e|]; [|by rewrite H].
    destruct H as (e' & -> & M1 & M2 & _). cbn. unfold shape_of. by rewrite M1, M2.
  + intros k H1 H2. apply shape_None. by apply (rn_old _ _ _ _ _ _ _ _ _ _ _ R).
  + intros k H1 H2 H3. unfold shape. rewrite !lookup_fmap.
    rewrite (rn_other _ _ _ _ _ _ _ _ _ _ _ R) by done.
    destruct (entries o !! k); [|done]. cbn. by case_decide.
  + intros x Hx. unfold tombset. rewrite !elem_of_dom. by apply (rn_tnew _ _ _ _ _ _ _ _ _ _ _ R).
  + intros k H1 H2. unfold tombset. rewrite elem_of_dom. by apply (rn_told _ _ _ _ _ _ _ _ _ _ _ R).
  + intros k H1 H2. unfold tombset. rewrite !elem_of_dom.
    by rewrite (rn_tother _ _ _ _ _ _ _ _ _ _ _ R).
- intros k e Hk.
  destruct (renamed_entry _ _ _ _ _ _ _ _ _ _ _ _ _ R Hpe Hk)
    as [(x & e0 & _ & _ & H0 & (_ & _ & E1 & E2 & _))|(_ & e0 & H0 & (_ & E1 & E2 & _))];
    unfold vals_ok; rewrite E1, E2; exact (inv_vals _ HI _ _ H0).
- intros k e qk qe Hk Hq Hqe Hcr.
  destruct (renamed_entry _ _ _ _ _ _ _ _ _ _ _ _ _ R Hpe Hk)
    as [(x & e0 & _ & _ & H0 & (_ & _ & _ & _ & _ & E & _))|(Hnk & e0 & H0 & (_ & _ & _ & E & _))];
    [done|].
  destruct (renamed_entry _ _ _ _ _ _ _ _ _ _ _ _ _ R Hpe Hqe)
    as [(x & q0 & Hx & -> & _ & _)|(_ & q0 & Hq0 & (_ & _ & _ & Eq & _))].
  + exfalso. apply Hnk. destruct (reg_parent_Some _ _ Hq) as (Ek & _ & Hb).
    rewrite Ek. right. apply below_snoc; [done|]. by apply in_sub_app.
  + rewrite E. eapply (inv_created _ HI); [exact H0|exact Hq|exact Hq0|congruence].
Qed.

Lemma rename_key_run path parent n now o root :
Inv o → valid_path path = true → key_ok n → utf16_len n ≤ MAX_KEY_NAME →
reg_parent path = Some parent → entries o !! fold path = Some root →
let newf := fold parent ++ backslash :: fold n in
newf = fold path ∨ entries o !! newf = None →
∃ o' ps pe, rename_key path n now o = Some (Ok (next o), o') ∧ Inv o' ∧
  e_path root = ps ++ backslash :: reg_leaf (e_path root) ∧ fold ps = fold parent ∧
  entries o !! fold parent = Some pe ∧ e_path pe = ps ∧
  renamed (e_path root) (fold path) (ps ++ backslash :: n) newf (fold parent) (reg_leaf path) n
    (next o) pe (bump o).2 o'.
Proof.
intros HI Hv Hn Hlen Hp Hroot newf Hfree.
destruct (inv_key _ _ _ HI Hroot) as [Hvr Ekey].
destruct (valid_path_parent _ _ Hv Hp) as [Hvp Hleaf].
destruct (reg_parent_Some _ _ Hp) as (Hpath & Hpne & _).
assert (∃ ps, reg_parent (e_path root) = Some ps ∧ fold ps = fold parent) as (ps & Hps & Eps).
{ pose proof (reg_parent_fold path) as H1. pose proof (reg_parent_fold (e_path root)) as H2.
  rewrite <- Ekey, H1, Hp in H2. destruct (reg_parent (e_path root)) as [ps|]; [|done].
  exists ps. split; [done|]. by injection H2. }
destruct (valid_path_parent _ _ Hvr Hps) as [Hvps Hc].
destruct (reg_parent_Some _ _ Hps) as (Hrp & Hpsne & _).
set (c := reg_leaf (e_path root)) in *.
assert (fold path = fold ps ++ backslash :: fold c) as Hof by (rewrite Ekey, Hrp; apply fold_snoc).
assert (fold (reg_leaf path) = fold c) as Hlc.
{ rewrite Hpath, fold_snoc, Eps in Hof. apply app_inv_head in Hof. by injection Hof. }
destruct (si_parent _ _ (inv_shape _ HI) (fold path) (e_path root) (children (e_node root)) ps)
  as (pch & Hpe & _); [apply shape_Some; eauto|done|].
apply shape_Some in Hpe as (pe & Hpe & Hpp & _).
assert (newf = fold ps ++ backslash :: fold n) as Hnf by (unfold newf; by rewrite Eps).
pose proof (Inv_bump _ HI) as HIb.
assert (newf ≠ []) as Hnne by (unfold newf; by destruct (fold parent)).
destruct (rename_moves (bump o).2 (e_path root) (fold path) (ps ++ backslash :: n) newf (next o) root
  HIb Hroot eq_refl Hfree Hnne) as (es & oE & Ht & Hm & E1 & E2 & T1 & T2 & C & D & V).
destruct (rename_tail (bump o).2 oE (e_path root) (fold path) (ps ++ backslash :: n) newf ps parent c n
  now (next o) pe root HIb Hnf Hof Hc Hn Hpsne (eq_sym Eps) (proj2 Hc) Hpe Hroot E1 E2 T1 T2 C D V
  (reg_leaf path)) as (o' & Hrun & R).
exists o', ps, pe. split.
{ unfold rename_key. rewrite Hv, Hp, Hroot, Hps. cbn [negb mbind option_bind].
  destruct (str_eqb_spec n []) as [->|_]; [by destruct (proj1 Hn)|].
  rewrite bool_decide_false by apply Hn. cbn [orb].
  rewrite Z.gtb_ltb, (proj2 (Z.ltb_ge _ _)) by done.
  rewrite fold_snoc, <- Hnf.
  destruct (negb (str_eqb newf (fold path)) && bool_decide (is_Some (entries o !! newf))) eqn:Eb.
  { exfalso. destruct (str_eqb_spec newf (fold path)); [done|]. destruct Hfree as [|Hf]; [done|].
    rewrite Hf in Eb. done. }
  change (bump o) with (next o, (bump o).2). cbv iota beta.
  rewrite Ht. cbn [mbind option_bind]. cbv zeta in Hm.
  destruct (move_entries _ _ _ _ _ _ _) as [oD|]; [|done]. cbn [mbind option_bind] in Hm |- *.
  rewrite Hm. exact Hrun. }
rewrite <- Eps in *. split; [|done].
apply (renamed_Inv (fold path) newf ps c (reg_leaf path) n (next o) pe root (bump o).2 o');
  try done. by rewrite <- Hrp.
Qed.
End rename.
