(* ===== verification/RegMachine.v ===== *)
(** RegMachine: the registry overlay as a state machine: every sequence of
    its operations, what each operation shows to a client, and that a client
    polling [changed_since] misses no change. *)

From S2P Require Import Prelude Text Path RegTypes RegPath RegOverlay RegInv RegOps RegProps RegRename.

Section machine.
Context {CT : CaseTable}.

(** ** Sequences of operations *)

Inductive RegOp :=
| OpSetValue (path name : str) (ty : Z) (data : bytes) (now : Z)
| OpDeleteValue (path name : str) (now : Z)
| OpCreateKey (path : str) (volatile real_exists : bool) (now : Z)
| OpDeleteKey (path : str) (now : Z)
| OpRenameKey (path new_leaf : str) (now : Z).

Definition run_op (op : RegOp) (o : Overlay) : option (result RegError Z * Overlay) :=
match op with
| OpSetValue path name ty data now => set_value path name ty data now o
| OpDeleteValue path name now => delete_value path name now o
| OpCreateKey path volatile real_exists now => create_key path volatile real_exists now o
| OpDeleteKey path now => delete_key path now o
| OpRenameKey path new_leaf now => rename_key path new_leaf now o
end.

Fixpoint run_ops (ops : list RegOp) (o : Overlay) : option Overlay :=
match ops with
| [] => Some o
| op :: ops => '(_, o) ← run_op op o; run_ops ops o
end.

(** How an operation that succeeds at version [v] changes the marks. *)
Record evolves (v : Z) (o o' : Overlay) : Prop := {
ev_keep k e : entries o !! k = Some e →
  (∃ e', entries o' !! k = Some e' ∧ (e_changed e' = e_changed e ∨ e_changed e' = v) ∧
     (e_subtree e' = e_subtree e ∨ e_subtree e' = v)) ∨
  (entries o' !! k = None ∧ ∃ a, a ≠ [] ∧ in_sub a k ∧ covers o' a v);
ev_new k e' : entries o !! k = None → entries o' !! k = Some e' →
  e_changed e' = v ∧ (e_subtree e' = 0 ∨ e_subtree e' = v);
ev_covers a w : covers o a w → covers o' a w;
ev_bound B : dbound o B → v ≤ B → dbound o' B;
ev_version : version o' = v }.

Lemma entries_touch (v : Z) (b : bool) (oe : option Entry) e :
(if b then set_subtree v else id) <$> oe = Some e →
∃ e0, oe = Some e0 ∧ e_changed e = e_changed e0 ∧ (e_subtree e = e_subtree e0 ∨ e_subtree e = v).
Proof. intros (e0 & -> & ->)%fmap_Some. exists e0. destruct b; cbn; auto. Qed.

Lemma written_evolves path tre g o o' :
Inv o → fold path ≠ [] → upd_ok g → (∀ e, e_subtree (g e) = e_subtree e) →
written path tre (next o) g (bump o).2 o' → evolves (next o) o o'.
Proof.
intros HI Hp Hg Hgs (HI' & o1 & e1 & HI1 & He1 & Cr & F & (_ & _ & Rd & Rf & Rv) & H).
destruct (cf_rest _ _ _ _ F) as (Fd & Ff & Fv).
assert (∀ a w, covers o' a w ↔ covers o a w) as HC.
{ intros a w. unfold covers. by rewrite Rd, Rf, Fd, Ff. }
assert (∀ k e, entries o' !! k = Some e → ∃ e2, entries o1 !! k = Some e2 ∧
  (e_changed e = e_changed e2 ∨ e_changed e = next o) ∧
  (e_subtree e = e_subtree e2 ∨ e_subtree e = next o)) as H1.
{ intros k e He. pose proof (entries_nonempty _ _ _ HI' He) as Hk. rewrite H in He by done.
  destruct (decide (k = fold path)) as [->|].
  - simplify_eq. exists e1. split; [done|]. cbn. rewrite Hgs. auto.
  - destruct (decide (below k (fold path)));
      apply fmap_Some in He as (e2 & H2 & ->); exists e2; cbn; auto. }
split.
- intros k e He. left. destruct (cf_keep _ _ _ _ F k e He) as (e2 & H2 & _ & C2 & S2).
  pose proof (entries_nonempty _ _ _ HI He) as Hk.
  destruct (entries o' !! k) as [e'|] eqn:E'.
  + destruct (H1 k e' E') as (e3 & H3 & C3 & S3). simplify_eq. exists e'.
    split; [done|]. split; [destruct C3 as [->|]; auto|destruct S3 as [->|]; auto].
  + exfalso. rewrite H, H2 in E' by done. by repeat case_decide.
- intros k e' He He'. destruct (H1 k e' He') as (e2 & H2 & C2 & S2).
  destruct (cf_new _ _ _ _ F k e2 He H2) as (_ & _ & _ & _ & C & S).
  split; [destruct C2; congruence|destruct S2 as [->|]; auto].
- intros a w. by rewrite HC.
- intros B [HB HD] _. split; [done|]. intros a w. rewrite HC. apply HD.
- by rewrite Rv, Fv.
Qed.

Lemma cut_evolves path parent leaf now o o1 o' :
Inv o → Inv o1 → Inv o' → fold path ≠ [] →
chain_frame (next o) (fold parent) (bump o).2 o1 →
cut_at (fold path) (fold parent) leaf (next o) now o1 o' →
deleted_at o' = deleted_at (tomb (fold path) (next o) o1) →
deleted_floor o' = deleted_floor (tomb (fold path) (next o) o1) →
version o' = version o1 → evolves (next o) o o'.
Proof.
intros HI HI1 HI' Hf F (pe & Hpe & He & Ht) Rd Rf Rv.
destruct (cf_rest _ _ _ _ F) as (Fd & Ff & Fv).
assert (∀ a w, covers o a w → covers o1 a w) as HC1 by (intros a w; unfold covers; by rewrite Fd, Ff).
assert (∀ a w, covers o' a w ↔ covers (tomb (fold path) (next o) o1) a w) as HC
  by (intros a w; unfold covers; by rewrite Rd, Rf).
assert (∀ k e, entries o' !! k = Some e → ∃ e2, entries o1 !! k = Some e2 ∧
  (e_changed e = e_changed e2 ∨ e_changed e = next o) ∧
  (e_subtree e = e_subtree e2 ∨ e_subtree e = next o)) as H1.
{ intros k e E. pose proof (entries_nonempty _ _ _ HI' E) as Hk. rewrite He in E by done.
  destruct (decide (k = fold parent)) as [->|].
  - rewrite decide_False in E by apply below_irrefl. cbn in E. simplify_eq. exists pe. cbn. auto.
  - destruct (decide (in_sub (fold path) k)); [done|].
    destruct (decide (below k (fold parent)));
      apply fmap_Some in E as (e2 & H2 & ->); exists e2; cbn; auto. }
split.
- intros k e E. destruct (cf_keep _ _ _ _ F k e E) as (e2 & H2 & _ & C2 & S2).
  pose proof (entries_nonempty _ _ _ HI E) as Hk.
  destruct (entries o' !! k) as [e'|] eqn:E'.
  + left. destruct (H1 k e' E') as (e3 & H3 & C3 & S3). simplify_eq. exists e'.
    split; [done|]. split; [destruct C3 as [->|]; auto|destruct S3 as [->|]; auto].
  + right. split; [done|]. exists (fold path). split; [done|]. split.
    * rewrite He, H2 in E' by done. destruct (decide (k = fold parent)); [by case_decide|].
      destruct (decide (in_sub (fold path) k)); [done|by case_decide].
    * apply HC, tomb_covers.
- intros k e' E E'. destruct (H1 k e' E') as (e2 & H2 & C2 & S2).
  destruct (cf_new _ _ _ _ F k e2 E H2) as (_ & _ & _ & _ & C & S).
  split; [destruct C2; congruence|destruct S2 as [->|]; auto].
- intros a w H. by apply HC, tomb_covers_mono, HC1.
- intros B [HB HD] Hv. assert (dbound (tomb (fold path) (next o) o1) B) as [_ HD'].
  { apply tomb_dbound; [|done]. split; [done|]. intros a w H. apply (HD a).
    unfold covers in *. by rewrite Fd, Ff in H. }
  split; [done|]. intros a w H%HC. by eapply HD'.
- by rewrite Rv, Fv.
Qed.

Lemma renamed_evolves olds oldf newp newf pk leaf n pe o o' :
Inv o → entries o !! pk = Some pe → ¬ in_sub newf pk → ¬ in_sub oldf pk → oldf ≠ [] →
newf ≠ [] → (newf = oldf ∨ entries o !! newf = None) →
renamed olds oldf newp newf pk leaf n (next o) pe (bump o).2 o' → evolves (next o) o o'.
Proof.
intros HI Hpe Hn1 Hn2 Hne Hnn Hfree R.
assert (∀ x, sfx x → entries o' !! (newf ++ x) = None ∨ ∃ e', entries o' !! (newf ++ x) = Some e' ∧
  e_changed e' = next o ∧ e_subtree e' = next o) as Hnew.
{ intros x Hx. pose proof (rn_new _ _ _ _ _ _ _ _ _ _ _ R x Hx) as H.
  destruct (entries (bump o).2 !! (oldf ++ x)); [|by left].
  destruct H as (e' & He' & M). right. exists e'. unfold moved_from in M. tauto. }
assert (oldf ≠ newf → ∀ k, in_sub oldf k → ∃ a, a ≠ [] ∧ in_sub a k ∧ covers o' a (next o)) as Hcov.
{ intros Hd k Hk. exists oldf. split; [done|]. split; [done|].
  apply (rn_deleted _ _ _ _ _ _ _ _ _ _ _ R). congruence. }
split.
- intros k e E. destruct (decide (in_sub newf k)) as [Hk|Hk].
  { pose proof Hk as (x & Hx & ->)%in_sub_sfx. destruct (Hnew x Hx) as [E'|(e' & E' & C & S)].
    - exfalso. destruct (decide (oldf = newf)) as [->|Hd].
      + pose proof (rn_new _ _ _ _ _ _ _ _ _ _ _ R x Hx) as H.
        cbn [bump snd entries set_version] in H. rewrite E in H. destruct H as (e' & ? & _). congruence.
      + destruct Hfree as [?|Hfree]; [congruence|]. destruct Hk as [Ek|Hb]; [congruence|].
        by rewrite (no_children _ _ _ HI Hfree Hnn Hb) in E.
    - left. exists e'. auto. }
  destruct (decide (in_sub oldf k)) as [Ho|Ho].
  { right. split; [by apply (rn_old _ _ _ _ _ _ _ _ _ _ _ R)|]. apply Hcov; [|done].
    intros ->. done. }
  left. destruct (decide (k = pk)) as [->|Hp].
  + destruct (rn_parent _ _ _ _ _ _ _ _ _ _ _ R) as (pe' & He' & _ & _ & C & S). simplify_eq.
    exists pe'. auto.
  + pose proof (rn_other _ _ _ _ _ _ _ _ _ _ _ R k Hp Ho Hk) as H.
    cbn [bump snd entries set_version] in H. rewrite E in H. cbn in H.
    eexists. split; [exact H|]. case_decide; cbn; auto.
- intros k e' E E'. destruct (decide (in_sub newf k)) as [(x & Hx & ->)%in_sub_sfx|Hk].
  { destruct (Hnew x Hx) as [?|(e2 & ? & C & S)]; [congruence|]. simplify_eq. auto. }
  exfalso. destruct (decide (in_sub oldf k)) as [Ho|Ho].
  { rewrite (rn_old _ _ _ _ _ _ _ _ _ _ _ R k Ho Hk) in E'. done. }
  destruct (decide (k = pk)) as [->|Hp]; [congruence|].
  rewrite (rn_other _ _ _ _ _ _ _ _ _ _ _ R k Hp Ho Hk) in E'.
  cbn [bump snd entries set_version] in E'. by rewrite E in E'.
- intros a w H. by apply (rn_covers _ _ _ _ _ _ _ _ _ _ _ R).
- intros B H. by apply (rn_bound _ _ _ _ _ _ _ _ _ _ _ R).
- by rewrite (rn_version _ _ _ _ _ _ _ _ _ _ _ R).
Qed.

(** ** What [changed_since] answers *)

Lemma fold_valid_nonempty p : valid_path p = true → fold p ≠ [].
Proof. intros Hv%valid_path_nonempty H%fold_nil_inv. done. Qed.

Definition op_path (op : RegOp) : str :=
match op with
| OpSetValue path _ _ _ _ | OpDeleteValue path _ _ | OpCreateKey path _ _ _
| OpDeleteKey path _ | OpRenameKey path _ _ => path
end.

Lemma changed_loop_spec o k v :
k ≠ [] → changed_loop (length k) o k v = true ↔ ∃ a, a ≠ [] ∧ in_sub a k ∧ covers o a (v + 1).
Proof.
intros Hk. cut (∀ n k, k ≠ [] → (length k ≤ n)%nat →
  changed_loop n o k v = true ↔ ∃ a, a ≠ [] ∧ in_sub a k ∧ covers o a (v + 1)); [eauto|].
clear k Hk. induction n as [|n IH]; intros k Hk Hl; [destruct k; simpl in *; [done|lia]|].
cbn [changed_loop].
destruct (match deleted_at o !! k with Some t => t >? v | None => false end) eqn:Et.
{ split; [|done]. intros _. exists k. split; [done|]. split; [by left|]. right.
  destruct (deleted_at o !! k) as [t|]; [|done]. exists t. split; [done|]. lia. }
assert (covers o k (v + 1) ↔ v < deleted_floor o) as Hck.
{ unfold covers. split; [|lia]. intros [?|(t & Ht & ?)]; [lia|]. rewrite Ht in Et. lia. }
destruct (reg_parent k) as [q|] eqn:Hq.
- destruct (reg_parent_Some _ _ Hq) as (Hp & Hne & Hb).
  rewrite IH; [|done|rewrite Hp, length_app in Hl; simpl in Hl; lia]. split.
  + intros (a & Ha & Hs & Hta). exists a. split; [done|]. split; [|done].
    rewrite Hp. right. by apply below_snoc.
  + intros (a & Ha & Hs & Hta). rewrite Hp in Hs.
    apply in_sub_snoc_inv in Hs as [E|?]; [|by exists a|done].
    exists q. split; [done|]. split; [by left|]. left. rewrite <- Hp in E. subst a.
    apply Hck in Hta. lia.
- rewrite Z.gtb_lt. split.
  + intros Hf. exists k. split; [done|]. split; [by left|]. by apply Hck.
  + intros (a & Ha & [->|Hb] & Hta); [by apply Hck|].
    destruct (below_parent _ _ Ha Hb) as (b & Hpb & _). congruence.
Qed.

Lemma changed_since_spec o p s v :
valid_path p = true → changed_since o p s v = true ↔
match entries o !! fold p with
| Some e => v < e_changed e ∨ (s = true ∧ v < e_subtree e)
| None => ∃ a, a ≠ [] ∧ in_sub a (fold p) ∧ covers o a (v + 1)
end.
Proof.
intros Hv. unfold changed_since. destruct (entries o !! fold p) as [e|].
- rewrite orb_true_iff, andb_true_iff, !Z.gtb_lt. done.
- apply changed_loop_spec. by apply fold_valid_nonempty.
Qed.

(** What [changed_since] then says of the key written and of the keys above
  it: the key itself has changed, and so has the subtree of each. *)
Definition reports (path : str) (v : Z) (o' : Overlay) : Prop :=
∀ q w s, valid_path q = true → in_sub (fold q) (fold path) → w < v →
  s = true ∨ fold q = fold path → changed_since o' q s w = true.

(** A key that was written, and the keys above it. *)
Lemma written_reports path tre g o o' :
valid_path path = true → written path tre (next o) g (bump o).2 o' → reports path (next o) o'.
Proof.
intros Hv (HI' & o1 & e1 & HI1 & He1 & Cr & F & _ & H) q w s Hq Hs Hw Hor.
pose proof (fold_valid_nonempty _ Hq) as Hqn. rewrite changed_since_spec, H by done.
destruct (decide (fold q = fold path)) as [E|E]; [left; done|].
destruct Hs as [?|Hb]; [congruence|]. rewrite decide_True by done.
destruct (si_closed (inv_shape _ HI1) _ _ Hqn (proj2 (shape_is_Some _ _) (mk_is_Some _ _ He1)) Hb)
  as [x Hx]. destruct x as [px cx]. apply shape_Some in Hx as (e & -> & _). cbn.
right. split; [naive_solver|done].
Qed.

Lemma cut_reports path parent leaf now o o1 o' :
Inv o1 → Inv o' → valid_path path = true → reg_parent path = Some parent →
cut_at (fold path) (fold parent) leaf (next o) now o1 o' →
deleted_at o' = deleted_at (tomb (fold path) (next o) o1) →
deleted_floor o' = deleted_floor (tomb (fold path) (next o) o1) →
reports path (next o) o'.
Proof.
intros HI1 HI' Hv Hp (pe & Hpe & He & Ht) Rd Rf q w s Hq Hs Hw Hor.
pose proof (fold_valid_nonempty _ Hq) as Hqn. pose proof (fold_valid_nonempty _ Hv) as Hfn.
rewrite changed_since_spec by done.
destruct (decide (fold q = fold path)) as [E|E].
- assert (entries o' !! fold q = None) as ->.
  { apply shape_None, (si_tomb_below (inv_shape _ HI') (fold path)); [|by left].
    apply elem_of_dom. rewrite Ht, decide_True by done. by eexists. }
  exists (fold path). split; [done|]. split; [by left|].
  assert (covers o' (fold path) (next o)) as Hc.
  { unfold covers. rewrite Rd, Rf. apply tomb_covers. }
  destruct Hc as [?|(t & ? & ?)]; [left; lia|right; exists t; split; [done|lia]].
- assert (s = true) as -> by naive_solver. destruct Hs as [?|Hb]; [congruence|].
  destruct (reg_parent_Some _ _ Hp) as (Hpath & _ & Hlb).
  assert (in_sub (fold q) (fold parent)) as Hqp.
  { rewrite Hpath, fold_snoc in Hb. apply below_snoc in Hb; [done|by rewrite fold_no_bs]. }
  rewrite He by done. destruct (decide (fold q = fold parent)) as [Eq|Eq].
  { rewrite Eq, decide_False by apply below_irrefl. left. done. }
  rewrite (decide_False (P := in_sub (fold path) (fold q))) by (by apply below_not_in_sub).
  destruct Hqp as [?|Hqb]; [congruence|]. rewrite decide_True by done.
  destruct (si_closed (inv_shape _ HI1) _ _ Hqn (proj2 (shape_is_Some _ _) (mk_is_Some _ _ Hpe)) Hqb)
    as [[px cx] Hx]. apply shape_Some in Hx as (e & -> & _). right. done.
Qed.

Lemma renamed_reports path parent olds newp newf leaf n pe o o' :
Inv o → valid_path path = true → reg_parent path = Some parent →
newf = fold parent ++ backslash :: fold n → backslash ∉ n → is_Some (entries o !! fold path) →
entries o !! fold parent = Some pe →
renamed olds (fold path) newp newf (fold parent) leaf n (next o) pe (bump o).2 o' →
reports path (next o) o'.
Proof.
intros HI Hv Hp Hnf Hnb [root Hroot] Hpe R q w s Hq Hs Hw Hor.
pose proof (fold_valid_nonempty _ Hq) as Hqn. pose proof (fold_valid_nonempty _ Hv) as Hfn.
destruct (reg_parent_Some _ _ Hp) as (Hpath & _ & Hlb).
assert (fold path = fold parent ++ backslash :: fold (reg_leaf path)) as Hfp
  by (rewrite Hpath at 1; apply fold_snoc).
rewrite changed_since_spec by done.
destruct (decide (fold q = fold path)) as [E|E].
- destruct (decide (newf = fold path)) as [En|En].
  + pose proof (rn_new _ _ _ _ _ _ _ _ _ _ _ R [] (or_introl eq_refl)) as H.
    cbn [bump snd entries set_version] in H. rewrite !app_nil_r, Hroot in H.
    destruct H as (e' & He' & M). rewrite E, <- En, He'. left. unfold moved_from in M. lia.
  + assert (¬ in_sub newf (fold path)) as Hni.
    { intros Hin. eapply (siblings_disjoint (fold parent) (fold n) (fold (reg_leaf path)) (fold path));
        [by rewrite fold_no_bs|by rewrite fold_no_bs|congruence|by rewrite <- Hnf|left; done]. }
    rewrite E, (rn_old _ _ _ _ _ _ _ _ _ _ _ R _ (or_introl eq_refl) Hni).
    exists (fold path). split; [done|]. split; [by left|].
    destruct (rn_deleted _ _ _ _ _ _ _ _ _ _ _ R En) as [?|(t & ? & ?)];
      [left; lia|right; exists t; split; [done|lia]].
- assert (s = true) as -> by naive_solver. destruct Hs as [?|Hb]; [congruence|].
  assert (in_sub (fold q) (fold parent)) as Hqp.
  { rewrite Hfp in Hb. apply below_snoc in Hb; [done|by rewrite fold_no_bs]. }
  destruct (decide (fold q = fold parent)) as [Eq|Eq].
  { destruct (rn_parent _ _ _ _ _ _ _ _ _ _ _ R) as (pe' & He' & _ & _ & C & _).
    rewrite Eq, He'. left. lia. }
  destruct Hqp as [?|Hqb]; [congruence|].
  assert (¬ in_sub newf (fold q)).
  { apply below_not_in_sub. eapply below_trans; [exact Hqb|]. rewrite Hnf. apply below_app. }
  rewrite (rn_other _ _ _ _ _ _ _ _ _ _ _ R) by (try done; by apply below_not_in_sub).
  rewrite decide_True by done.
  destruct (si_closed (inv_shape _ HI) _ _ Hqn (proj2 (shape_is_Some _ _) (mk_is_Some _ _ Hpe)) Hqb)
    as [[px cx] Hx]. apply shape_Some in Hx as (e & He & _).
  cbn [bump snd entries set_version]. rewrite He. right. done.
Qed.

(** ** Every operation, on every branch *)

(** An operation on [path] either fails and leaves the overlay as it was, or
  succeeds at the next version. *)
Definition outcome (path : str) (o : Overlay) (x : option (result RegError Z * Overlay)) : Prop :=
(∃ e, x = Some (Err e, o)) ∨
∃ o', x = Some (Ok (next o), o') ∧ Inv o' ∧ evolves (next o) o o' ∧ reports path (next o) o'.

Lemma outcome_refuse path o e : outcome path o (refuse e o).
Proof. left. by exists e. Qed.


Lemma set_value_outcome path name ty data now o :
Inv o → outcome path o (set_value path name ty data now o).
Proof.
intros HI. destruct (valid_path path) eqn:Hv; [|unfold set_value; rewrite Hv; apply outcome_refuse].
destruct (check_key_name path) as [[]|e] eqn:Hk;
  [|unfold set_value; rewrite Hv, Hk; apply outcome_refuse].
destruct (check_depth path MAX_WRITE_DEPTH) as [[]|e] eqn:Hd;
  [|unfold set_value; rewrite Hv, Hk, Hd; apply outcome_refuse].
destruct (Z.leb_spec (utf16_len name) MAX_VALUE_NAME) as [Hn|Hn];
  [|unfold set_value; rewrite Hv, Hk, Hd, Z.gtb_ltb, (proj2 (Z.ltb_lt _ _)) by done; apply outcome_refuse].
destruct (Z.leb_spec (len data) MAX_DATA) as [Hl|Hl];
  [|unfold set_value; rewrite Hv, Hk, Hd, !Z.gtb_ltb, (proj2 (Z.ltb_ge _ _)), (proj2 (Z.ltb_lt _ _)) by done;
    apply outcome_refuse].
destruct (set_value_run path name ty data now o HI Hv Hk Hd Hn Hl) as (o' & E & W).
right. exists o'. split; [done|]. split; [apply W|].
split; [|by eapply written_reports].
eapply written_evolves; [done|by apply fold_valid_nonempty|apply upd_set_ok|done|done].
Qed.

Lemma delete_value_outcome path name now o : Inv o → outcome path o (delete_value path name now o).
Proof.
intros HI. destruct (valid_path path) eqn:Hv; [|unfold delete_value; rewrite Hv; apply outcome_refuse].
destruct (check_key_name path) as [[]|e] eqn:Hk;
  [|unfold delete_value; rewrite Hv, Hk; apply outcome_refuse].
destruct (Z.leb_spec (utf16_len name) MAX_VALUE_NAME) as [Hn|Hn];
  [|unfold delete_value; rewrite Hv, Hk, Z.gtb_ltb, (proj2 (Z.ltb_lt _ _)) by done; apply outcome_refuse].
destruct ((reg_lookup o path).1) eqn:Hl;
  [| |unfold delete_value; rewrite Hv, Hk, Z.gtb_ltb, (proj2 (Z.ltb_ge _ _)), Hl by done;
    apply outcome_refuse].
all: destruct (delete_value_run path name now o HI Hv Hk Hn) as (o' & E & W); [by rewrite Hl|].
all: right; exists o'; split; [done|]; split; [apply W|].
all: split; [|by eapply written_reports].
all: eapply written_evolves; [done|by apply fold_valid_nonempty|apply upd_del_ok|done|done].
Qed.

Lemma create_key_outcome path vol real now o : Inv o → outcome path o (create_key path vol real now o).
Proof.
intros HI. destruct (valid_path path) eqn:Hv; [|unfold create_key; rewrite Hv; apply outcome_refuse].
destruct (check_key_name path) as [[]|e] eqn:Hk;
  [|unfold create_key; rewrite Hv, Hk; apply outcome_refuse].
destruct (check_depth path MAX_WRITE_DEPTH) as [[]|e] eqn:Hd;
  [|unfold create_key; rewrite Hv, Hk, Hd; apply outcome_refuse].
destruct (entries o !! fold path) as [e|] eqn:Hn.
{ unfold create_key. rewrite Hv, Hk, Hd, Hn, bool_decide_true by (by eexists). apply outcome_refuse. }
destruct (create_key_run path vol real now o HI Hv Hk Hd Hn) as (o' & E & W).
right. exists o'. split; [done|]. split; [apply W|].
split; [|by eapply written_reports].
eapply written_evolves; [done|by apply fold_valid_nonempty|apply upd_volatile_ok|done|done].
Qed.

Lemma delete_key_outcome path now o : Inv o → outcome path o (delete_key path now o).
Proof.
intros HI. destruct (valid_path path) eqn:Hv; [|unfold delete_key; rewrite Hv; apply outcome_refuse].
destruct (reg_parent path) as [parent|] eqn:Hp;
  [|unfold delete_key; rewrite Hv, Hp; apply outcome_refuse].
destruct ((reg_lookup o path).1) eqn:Hl;
  [| |unfold delete_key; rewrite Hv, Hp, Hl; apply outcome_refuse].
all: destruct (delete_key_run path parent now o HI Hv Hp) as (o1 & o' & E & HI' & HI1 & F & C & D1 & D2 & D3);
  [by rewrite Hl|].
all: right; exists o'; split; [done|]; split; [done|].
all: split; [|eapply (cut_reports path parent); done].
all: eapply (cut_evolves path parent); try done; by apply fold_valid_nonempty.
Qed.

Lemma rename_key_outcome path n now o : Inv o → outcome path o (rename_key path n now o).
Proof.
intros HI. destruct (valid_path path) eqn:Hv; [|unfold rename_key; rewrite Hv; apply outcome_refuse].
destruct (str_eqb n [] || bool_decide (backslash ∈ n)) eqn:Hn;
  [unfold rename_key; rewrite Hv, Hn; apply outcome_refuse|].
destruct (Z.leb_spec (utf16_len n) MAX_KEY_NAME) as [Hlen|Hlen];
  [|unfold rename_key; rewrite Hv, Hn, Z.gtb_ltb, (proj2 (Z.ltb_lt _ _)) by done; apply outcome_refuse].
destruct (reg_parent path) as [parent|] eqn:Hp;
  [|unfold rename_key; rewrite Hv, Hn, Z.gtb_ltb, (proj2 (Z.ltb_ge _ _)), Hp by done; apply outcome_refuse].
destruct (entries o !! fold path) as [root|] eqn:Hroot;
  [|unfold rename_key; rewrite Hv, Hn, Z.gtb_ltb, (proj2 (Z.ltb_ge _ _)), Hp, Hroot by done;
    apply outcome_refuse].
apply orb_false_elim in Hn as [Hn1 Hn2].
assert (key_ok n) as Hok.
{ split; [by destruct (str_eqb_spec n [])|by apply bool_decide_eq_false in Hn2]. }
destruct (reg_parent_Some _ _ Hp) as (Hpath & Hpne & Hlb).
assert (fold path = fold parent ++ backslash :: fold (reg_leaf path)) as Hfp
  by (rewrite Hpath at 1; apply fold_snoc).
destruct (decide (fold parent ++ backslash :: fold n = fold path ∨
  entries o !! (fold parent ++ backslash :: fold n) = None)) as [Hfree|Hbusy].
- destruct (rename_key_run path parent n now o root HI Hv Hok Hlen Hp Hroot Hfree)
    as (o' & ps & pe & E & HI' & _ & _ & Hpe & _ & R).
  right. exists o'. split; [done|]. split; [done|].
  split; [|eapply (renamed_reports path parent _ _ (fold parent ++ backslash :: fold n) _ n); [done|done|exact Hp|done|apply Hok|by eexists|exact Hpe|exact R]].
  eapply renamed_evolves; [done|exact Hpe| | | | |exact Hfree|exact R].
  + apply below_not_in_sub, below_app.
  + rewrite Hfp. apply below_not_in_sub, below_app.
  + by apply fold_valid_nonempty.
  + by destruct (fold parent).
- left. exists AlreadyExists. unfold rename_key.
  rewrite Hv, Hn1, Hn2, Z.gtb_ltb, (proj2 (Z.ltb_ge _ _)), Hp, Hroot by done. cbn [negb orb].
  destruct (inv_key _ _ _ HI Hroot) as [Hvr Ekey].
  pose proof (reg_parent_fold path) as R1. pose proof (reg_parent_fold (e_path root)) as R2.
  rewrite <- Ekey, R1, Hp in R2. destruct (reg_parent (e_path root)) as [ps|]; [|done].
  injection R2 as R2. cbn [mbind option_bind]. rewrite fold_snoc, <- R2.
  destruct (str_eqb_spec (fold parent ++ backslash :: fold n) (fold path)); [naive_solver|].
  cbn [negb andb]. rewrite bool_decide_true; [done|].
  apply not_eq_None_Some. naive_solver.
Qed.

Lemma run_op_outcome op o : Inv o → outcome (op_path op) o (run_op op o).
Proof.
intros HI. destruct op; cbn [run_op];
  auto using set_value_outcome, delete_value_outcome, create_key_outcome, delete_key_outcome,
    rename_key_outcome.
Qed.

Lemma run_ops_total ops o : Inv o → ∃ o', run_ops ops o = Some o' ∧ Inv o'.
Proof.
revert o. induction ops as [|op ops IH]; intros o HI; [by exists o|]. cbn [run_ops].
destruct (run_op_outcome op o HI) as [[e ->]|(o' & -> & HI' & _)]; cbn [mbind option_bind]; auto.
Qed.

(** C20: every sequence of operations from the empty overlay runs without a
  panic, and leaves an overlay in which stored paths, child lists,
  tombstones, value lists and created-here flags are consistent. *)
Theorem overlay_never_panics (ops : list RegOp) :
∃ o, run_ops ops overlay_new = Some o ∧ Inv o.
Proof. apply run_ops_total, Inv_new. Qed.

(** ** What the operations show *)

(** The values a node lists under a name. *)
Definition lookup_values (vs : list Value) (f : str) : option (Z * bytes) :=
(λ x, (v_ty x, v_data x)) <$> head (filter (λ x, vname x = f) vs).

Lemma reg_value_lookup o p n :
reg_value o p n = x ← reg_node o p; lookup_values (values x) (fold n).
Proof.
unfold reg_value, lookup_values. destruct (reg_node o p); [|done]. cbn.
change (λ x, fold (v_name x) = fold n) with (λ x, vname x = fold n).
by destruct (head (filter (λ x, vname x = fold n) (values _))).
Qed.

Lemma lookup_values_delete vs f g :
lookup_values (filter (λ x, fold (v_name x) ≠ f) vs) g =
  if decide (g = f) then None else lookup_values vs g.
Proof.
unfold lookup_values, vname. induction vs as [|x vs IH]; [by case_decide|].
rewrite !filter_cons. repeat case_decide; rewrite ?filter_cons; subst; cbn;
  repeat case_decide; cbn; congruence.
Qed.

(** After a write: the written key, in terms of what it held before. *)
Lemma written_node path tre g o o' :
Inv o → valid_path path = true → written path tre (next o) g (bump o).2 o' →
∃ e1, reg_node o' path = Some (e_node (g e1)) ∧
  (∀ n, lookup_values (values (e_node e1)) (fold n) = reg_value o path n) ∧
  (∀ n, bool_decide (fold n ∈ value_tombstones (e_node e1)) = value_hidden o path n).
Proof.
intros HI Hv (HI' & o1 & e1 & HI1 & He1 & Cr & F & _ & H). exists e1.
pose proof (fold_valid_nonempty _ Hv) as Hne. split.
{ unfold reg_node. rewrite H, decide_True by done. done. }
assert ((∃ e, entries o !! fold path = Some e ∧ values (e_node e1) = values (e_node e) ∧
    value_tombstones (e_node e1) = value_tombstones (e_node e)) ∨
  (entries o !! fold path = None ∧ values (e_node e1) = [] ∧ value_tombstones (e_node e1) = [])) as Hc.
{ destruct (entries o !! fold path) as [e|] eqn:E.
  - left. destruct (cf_keep _ _ _ _ F _ _ E) as (e' & He' & (_ & E1 & E2 & _) & _). simplify_eq. eauto.
  - right. destruct (cf_new _ _ _ _ F _ _ E He1) as (_ & E1 & E2 & _). done. }
split; intros n; rewrite ?reg_value_lookup; unfold value_hidden, reg_node;
  destruct Hc as [(e & -> & E1 & E2)|(-> & E1 & E2)]; cbn; rewrite ?E1, ?E2; done.
Qed.

Definition other (path name p n : str) : Prop := fold p ≠ fold path ∨ fold n ≠ fold name.

Lemma written_other path tre g o o' :
Inv o → valid_path path = true → written path tre (next o) g (bump o).2 o' →
∀ p n, valid_path p = true → fold p ≠ fold path →
reg_value o' p n = reg_value o p n ∧ value_hidden o' p n = value_hidden o p n.
Proof.
intros HI Hv (_ & o1 & e1 & _ & _ & _ & F & _ & H) p n Hp Hne.
apply (write_frame path (next o) (bump o).2 o1 o' g e1 p (Inv_bump _ HI) Hv F H); [|done].
by apply fold_valid_nonempty.
Qed.

Lemma reg_node_case p q o : fold p = fold q → reg_node o p = reg_node o q.
Proof. intros E. unfold reg_node. by rewrite E. Qed.

(** Property: a value that is set is what the key then holds under that name (in
  any spelling), any tombstone of the name is gone, and every other value
  of every key, and every other tombstone, is as it was. *)
Theorem set_value_spec path name ty data now o :
Inv o → valid_path path = true → check_key_name path = Ok () →
check_depth path MAX_WRITE_DEPTH = Ok () → utf16_len name ≤ MAX_VALUE_NAME →
len data ≤ MAX_DATA →
∃ o', set_value path name ty data now o = Some (Ok (next o), o') ∧
  (∀ p n, fold p = fold path → fold n = fold name →
    reg_value o' p n = Some (ty, data) ∧ value_hidden o' p n = false) ∧
  (∀ p n, valid_path p = true → other path name p n →
    reg_value o' p n = reg_value o p n ∧ value_hidden o' p n = value_hidden o p n).
Proof.
intros HI Hv Hk Hd Hn Hl.
destruct (set_value_run path name ty data now o HI Hv Hk Hd Hn Hl) as (o' & E & W).
exists o'. split; [done|].
destruct (written_node _ _ _ _ _ HI Hv W) as (e1 & Hnode & Hvals & Hhid).
assert (∀ n, reg_value o' path n = (if decide (fold n = fold name) then Some (ty, data)
    else reg_value o path n) ∧ value_hidden o' path n =
    (if decide (fold n = fold name) then false else value_hidden o path n)) as Hpath.
{ intros n. rewrite reg_value_lookup. unfold value_hidden at 1. rewrite Hnode. cbn.
  unfold lookup_values. rewrite put_value_find by done. cbn. split.
  - case_decide; [done|apply Hvals].
  - case_decide as Hd'.
    + apply bool_decide_eq_false. rewrite list_elem_of_filter. naive_solver.
    + rewrite <- Hhid. apply bool_decide_ext. rewrite list_elem_of_filter. naive_solver. }
split.
- intros p n Hp Hn'. destruct (Hpath n) as [H1 H2]. rewrite decide_True in H1 by done.
  rewrite decide_True in H2 by done.
  unfold reg_value, value_hidden in *. by rewrite (reg_node_case _ _ _ Hp).
- intros p n Hp Ho. destruct (decide (fold p = fold path)) as [Ep|Ep].
  + destruct Ho as [|Ho]; [done|]. destruct (Hpath n) as [H1 H2].
    rewrite decide_False in H1 by done. rewrite decide_False in H2 by done.
    unfold reg_value, value_hidden in *. by rewrite !(reg_node_case _ _ _ Ep).
  + exact (written_other path _ _ o o' HI Hv W p n Hp Ep).
Qed.

(** Property: a value that is deleted is gone, in any spelling, and its name is
  tombstoned so that a real value of that name does not show; every other
  value and tombstone is as it was. *)
Theorem delete_value_spec path name now o :
Inv o → valid_path path = true → check_key_name path = Ok () →
utf16_len name ≤ MAX_VALUE_NAME → (reg_lookup o path).1 ≠ LTombstoned →
∃ o', delete_value path name now o = Some (Ok (next o), o') ∧
  (∀ p n, fold p = fold path → fold n = fold name →
    reg_value o' p n = None ∧ value_hidden o' p n = true) ∧
  (∀ p n, valid_path p = true → other path name p n →
    reg_value o' p n = reg_value o p n ∧ value_hidden o' p n = value_hidden o p n).
Proof.
intros HI Hv Hk Hn Hl.
destruct (delete_value_run path name now o HI Hv Hk Hn Hl) as (o' & E & W).
exists o'. split; [done|].
destruct (written_node _ _ _ _ _ HI Hv W) as (e1 & Hnode & Hvals & Hhid).
assert (∀ n, reg_value o' path n = (if decide (fold n = fold name) then None
    else reg_value o path n) ∧ value_hidden o' path n =
    (if decide (fold n = fold name) then true else value_hidden o path n)) as Hpath.
{ intros n. rewrite reg_value_lookup. unfold value_hidden at 1. rewrite Hnode. cbn. split.
  - rewrite <- Hvals. apply lookup_values_delete.
  - case_decide as Hd'.
    + apply bool_decide_eq_true. rewrite Hd'. case_bool_decide; [done|set_solver].
    + rewrite <- Hhid. apply bool_decide_ext. case_bool_decide; [done|]. set_solver. }
split.
- intros p n Hp Hn'. destruct (Hpath n) as [H1 H2]. rewrite decide_True in H1 by done.
  rewrite decide_True in H2 by done.
  unfold reg_value, value_hidden in *. by rewrite (reg_node_case _ _ _ Hp).
- intros p n Hp Ho. destruct (decide (fold p = fold path)) as [Ep|Ep].
  + destruct Ho as [|Ho]; [done|]. destruct (Hpath n) as [H1 H2].
    rewrite decide_False in H1 by done. rewrite decide_False in H2 by done.
    unfold reg_value, value_hidden in *. by rewrite !(reg_node_case _ _ _ Ep).
  + exact (written_other path _ _ o o' HI Hv W p n Hp Ep).
Qed.

Lemma tombstoned_lookup o p a :
Inv o → valid_path p = true → a ≠ [] → in_sub a (fold p) → is_Some (tombs o !! a) →
reg_lookup o p = (LTombstoned, false).
Proof.
intros HI Hv Ha Hs Ht. unfold reg_lookup. rewrite Hv. cbn [negb].
assert (shape o !! fold p = None) as ->%shape_None.
{ apply (si_tomb_below (inv_shape _ HI) a); [by apply elem_of_dom|done]. }
rewrite (proj2 (is_tombstoned_spec o (fold p) (fold_valid_nonempty _ Hv))); [done|].
by exists a.
Qed.

Lemma reg_value_absent o p n : entries o !! fold p = None → reg_value o p n = None.
Proof. intros H. unfold reg_value, reg_node. by rewrite H. Qed.

(** Property: deleting a key tombstones it and everything below it: no path at or
  below it is found or has a value; values elsewhere are as they were. *)
Theorem delete_key_spec path parent now o :
Inv o → valid_path path = true → reg_parent path = Some parent →
(reg_lookup o path).1 ≠ LTombstoned →
∃ o', delete_key path now o = Some (Ok (next o), o') ∧
  (∀ p, valid_path p = true → in_sub (fold path) (fold p) →
    reg_lookup o' p = (LTombstoned, false) ∧ ∀ n, reg_value o' p n = None) ∧
  (∀ p n, valid_path p = true → ¬ in_sub (fold path) (fold p) →
    reg_value o' p n = reg_value o p n ∧ value_hidden o' p n = value_hidden o p n).
Proof.
intros HI Hv Hp Hl.
destruct (delete_key_run path parent now o HI Hv Hp Hl) as (o1 & o' & E & HI' & HI1 & F & C & _).
exists o'. split; [done|]. pose proof C as (pe & Hpe & He & Ht). split.
- intros p Hvp Hs. pose proof (fold_valid_nonempty _ Hv) as Hf.
  assert (is_Some (tombs o' !! fold path)) as Htomb by (rewrite Ht, decide_True by done; by eexists).
  split; [by eapply tombstoned_lookup|]. intros n. apply reg_value_absent, shape_None.
  apply (si_tomb_below (inv_shape _ HI') (fold path)); [by apply elem_of_dom|done].
- intros p n Hvp Hs. rewrite !reg_value_lookup. unfold value_hidden, reg_node.
  rewrite He by (by apply fold_valid_nonempty).
  rewrite (decide_False (P := in_sub (fold path) (fold p))) by done.
  destruct (decide (fold p = fold parent)) as [Ep|Ep].
  + rewrite Ep, decide_False by apply below_irrefl. cbn.
    destruct (entries o !! fold parent) as [e|] eqn:Eo.
    * destruct (cf_keep _ _ _ _ F _ _ Eo) as (e' & He' & (_ & E1 & E2 & _) & _). simplify_eq.
      cbn. by rewrite E1, E2.
    * destruct (cf_new _ _ _ _ F _ _ Eo Hpe) as (_ & E1 & E2 & _). by rewrite E1, E2.
  + destruct (entries o !! fold p) as [e|] eqn:Eo.
    * destruct (cf_keep _ _ _ _ F _ _ Eo) as (e' & -> & (_ & E1 & E2 & _) & _).
      cbn. destruct (decide (below (fold p) (fold parent))); cbn; by rewrite E1, E2.
    * destruct (entries o1 !! fold p) as [e'|] eqn:E'; [|done].
      destruct (cf_new _ _ _ _ F _ _ Eo E') as (_ & E1 & E2 & _).
      cbn. destruct (decide (below (fold p) (fold parent))); cbn; by rewrite E1, E2.
Qed.

(** Property: creating a key makes it present and empty; it is created-here when
  no real key is there and whenever it lies at or below a tombstone, so a
  revived key never lets the deleted real one show. *)
Theorem create_key_spec path vol real now o :
Inv o → valid_path path = true → check_key_name path = Ok () →
check_depth path MAX_WRITE_DEPTH = Ok () → entries o !! fold path = None →
∃ o' b, create_key path vol real now o = Some (Ok (next o), o') ∧
  (reg_lookup o' path).1 = LPresent b ∧
  (real = false ∨ tombstoned o (fold path) → b = true) ∧
  (∀ n, reg_value o' path n = None ∧ value_hidden o' path n = false) ∧
  (∀ p n, valid_path p = true → fold p ≠ fold path →
    reg_value o' p n = reg_value o p n ∧ value_hidden o' p n = value_hidden o p n).
Proof.
intros HI Hv Hk Hd Hn.
destruct (create_key_run path vol real now o HI Hv Hk Hd Hn) as (o' & E & W).
pose proof W as (HI' & o1 & e1 & HI1 & He1 & Cr & F & (_ & Et & _) & H).
pose proof (fold_valid_nonempty _ Hv) as Hne.
assert (entries o' !! fold path = Some (set_changed (next o) (upd_volatile vol e1))) as He'
  by (rewrite H, decide_True by done; done).
exists o', (created (e_node e1)). split; [done|]. split.
{ unfold reg_lookup. by rewrite Hv, He'. }
split.
{ intros [Hr|(a & Ha & Hs & Ht)]; [by apply Cr|].
  assert (is_Some (entries o1 !! a)) as [ea Hea].
  { apply shape_is_Some. destruct Hs as [Ea|Hb]; [rewrite <- Ea; apply shape_is_Some; by eexists|].
    eapply (si_closed (inv_shape _ HI1) a (fold path)); [done|apply shape_is_Some; by eexists|done]. }
  apply (created_below o1 a ea (fold path) e1 HI1 Hea); [|done|done].
  apply (cf_revived _ _ _ _ F a ea Ht); [|done].
  apply shape_None. assert (a ∈ tombset (bump o).2) as Hin by (by apply elem_of_dom).
  by destruct (si_tomb _ _ (inv_shape _ (Inv_bump _ HI)) a Hin). }
split; [|by eapply written_other].
intros n. destruct (cf_new _ _ _ _ F _ _ Hn He1) as (_ & E1 & E2 & _).
rewrite reg_value_lookup. unfold value_hidden, reg_node. rewrite He'. cbn. by rewrite E1, E2.
Qed.

(** A key after it was moved: all of it but the time of the last write, and now
  of the overlay's own making. *)
Definition moved_node (m m' : RegNode) : Prop :=
children m' = children m ∧ values m' = values m ∧ value_tombstones m' = value_tombstones m ∧
volatile m' = volatile m ∧ created m' = true.

(** A key whose list of children became [cs], all else but its time as it was. *)
Definition relinked (cs : gmap str (str * Child)) (m m' : RegNode) : Prop :=
children m' = cs ∧ values m' = values m ∧ value_tombstones m' = value_tombstones m ∧
volatile m' = volatile m ∧ created m' = created m.

(** C27: renaming moves the whole subtree: at every place at or below the new
  name there is a key exactly if there was one at the same place below the old
  name, with the same children, values, value tombstones and volatility, and a
  tombstone exactly if there was one; the old name and everything below it has
  no key and is tombstoned (unless only the case of the name changes); the
  parent's list of children has the new name and a tombstone for the old; every
  other key and tombstone is as it was. *)
Theorem rename_key_spec path parent n now o :
Inv o → valid_path path = true → key_ok n → utf16_len n ≤ MAX_KEY_NAME →
reg_parent path = Some parent → is_Some (entries o !! fold path) →
let new := parent ++ backslash :: n in
fold new = fold path ∨ entries o !! fold new = None →
∃ o', rename_key path n now o = Some (Ok (next o), o') ∧
  (∀ x, sfx x → option_Forall2 moved_node (reg_node o (path ++ x)) (reg_node o' (new ++ x)) ∧
    (is_Some (tombs o' !! fold (new ++ x)) ↔ is_Some (tombs o !! fold (path ++ x)))) ∧
  (∀ p, fold new ≠ fold path → valid_path p = true → in_sub (fold path) (fold p) →
    reg_node o' p = None ∧ reg_lookup o' p = (LTombstoned, false)) ∧
  option_Forall2 (λ m m', relinked (moved_children (bool_decide (fold new = fold path)) (reg_leaf path) n (children m)) m m')
    (reg_node o parent) (reg_node o' parent) ∧
  (∀ p, ¬ in_sub (fold path) (fold p) → ¬ in_sub (fold new) (fold p) →
    tombs o' !! fold p = tombs o !! fold p ∧ (fold p ≠ fold parent → reg_node o' p = reg_node o p)).
Proof.
intros HI Hv Hok Hlen Hp [root Hroot] new Hfree.
assert (fold new = fold parent ++ backslash :: fold n) as Hnew by apply fold_snoc.
rewrite Hnew in *.
destruct (rename_key_run path parent n now o root HI Hv Hok Hlen Hp Hroot Hfree)
  as (o' & ps & pe & E & HI' & _ & _ & Hpe & _ & R).
exists o'. split; [done|]. unfold reg_node. split_and!.
- intros x Hx. rewrite !fold_app, Hnew. pose proof (rn_new _ _ _ _ _ _ _ _ _ _ _ R (fold x) (sfx_fold _ Hx)) as H.
  split; [|apply (rn_tnew _ _ _ _ _ _ _ _ _ _ _ R), sfx_fold, Hx].
  cbn [bump snd entries set_version] in H. destruct (entries o !! (fold path ++ fold x)) as [e|]; [|rewrite H; constructor].
  destruct H as (e' & -> & (_ & E1 & E2 & E3 & E4 & E5 & _)). by constructor.
- intros p Hne Hvp Hs.
  assert (¬ in_sub (fold parent ++ backslash :: fold n) (fold p)) as Hout.
  { destruct (reg_parent_Some _ _ Hp) as (Hpath & _ & Hlb). rewrite Hpath, fold_snoc in Hs, Hne.
    intros Hin. eapply (siblings_disjoint (fold parent) (fold n) (fold (reg_leaf path)));
      [rewrite fold_no_bs; apply Hok|by rewrite fold_no_bs|congruence|exact Hin|exact Hs]. }
  split; [by rewrite (rn_old _ _ _ _ _ _ _ _ _ _ _ R _ Hs Hout)|].
  eapply (tombstoned_lookup _ _ (fold path)); [done|done| |done|]; [by apply fold_valid_nonempty|].
  apply (rn_told _ _ _ _ _ _ _ _ _ _ _ R); [by left| |done].
  destruct (reg_parent_Some _ _ Hp) as (Hpath & _ & Hlb).
  assert (fold path = fold parent ++ backslash :: fold (reg_leaf path)) as Hfp
    by (rewrite Hpath at 1; apply fold_snoc).
  intros Hin. eapply (siblings_disjoint (fold parent) (fold n) (fold (reg_leaf path)));
    [rewrite fold_no_bs; apply Hok|by rewrite fold_no_bs|congruence|exact Hin|left; done].
- destruct (rn_parent _ _ _ _ _ _ _ _ _ _ _ R) as (pe' & Hpe' & (_ & E1 & E2 & E3 & E4) & E5 & _).
  rewrite Hpe', Hpe. by constructor.
- intros p H1 H2. split; [by apply (rn_tother _ _ _ _ _ _ _ _ _ _ _ R)|]. intros Ep.
  rewrite (rn_other _ _ _ _ _ _ _ _ _ _ _ R _ Ep H1 H2). cbn [bump snd entries set_version].
  destruct (entries o !! fold p); [|done]. cbn. by destruct (decide (below (fold p) (fold parent))).
Qed.

(** ** Change notification *)

Definition Bounded (o : Overlay) : Prop :=
dbound o (version o) ∧
∀ k e, entries o !! k = Some e → e_changed e ≤ version o ∧ e_subtree e ≤ version o.

Lemma Bounded_new : Bounded overlay_new.
Proof.
split; [split; [done|]|].
- intros a w [?|(t & Ht & _)]; [done|]. cbn in Ht. by rewrite lookup_empty in Ht.
- intros k e H. cbn in H. by rewrite lookup_empty in H.
Qed.

Lemma next_small o : Bounded o → version o + 1 < u64_max → next o = version o + 1.
Proof. intros [[H _] _] Hs. unfold next. solve_width. Qed.

Lemma evolves_Bounded o o' :
Bounded o → version o + 1 < u64_max → evolves (next o) o o' → Bounded o'.
Proof.
intros HB Hs H. pose proof (next_small _ HB Hs) as Hn. destruct HB as [[H0 HD] HE].
split; rewrite (ev_version _ _ _ H).
- apply (ev_bound _ _ _ H); [|lia]. split; [lia|]. intros a w Hc. apply HD in Hc. lia.
- intros k e' He'. destruct (entries o !! k) as [e|] eqn:E.
  + destruct (HE k e E) as [B1 B2]. destruct (ev_keep _ _ _ H k e E) as [(e2 & He2 & C & S)|[? _]]; [|congruence].
    simplify_eq. lia.
  + destruct (ev_new _ _ _ H k e' E He'). lia.
Qed.

Lemma evolves_changed o o' p s v :
Bounded o → version o + 1 < u64_max → evolves (next o) o o' → valid_path p = true →
changed_since o p s v = true → changed_since o' p s v = true.
Proof.
intros HB Hs H Hv. pose proof (next_small _ HB Hs) as Hn. destruct HB as [[H0 HD] HE].
rewrite !changed_since_spec by done. destruct (entries o !! fold p) as [e|] eqn:E.
- destruct (HE _ e E) as [B1 B2]. intros Hc.
  destruct (ev_keep _ _ _ H _ e E) as [(e2 & -> & C & S)|(-> & a & Ha & Has & Hcov)].
  { destruct Hc as [Hc|[Hs' Hc]]; [left; lia|right; split; [done|lia]]. }
  exists a. split; [done|]. split; [done|]. destruct Hcov as [?|(t & Ht & ?)]; [left; lia|].
  right. exists t. split; [done|]. lia.
- intros (a & Ha & Has & Hc). destruct (entries o' !! fold p) as [e'|] eqn:E'.
  + destruct (ev_new _ _ _ H _ e' E E') as [-> _]. apply HD in Hc. left. lia.
  + exists a. split; [done|]. split; [done|]. by apply (ev_covers _ _ _ H).
Qed.

Lemma run_ops_changed ops o o' :
Inv o → Bounded o → version o + len ops < u64_max → run_ops ops o = Some o' →
Inv o' ∧ Bounded o' ∧ version o' ≤ version o + len ops ∧
∀ p s v, valid_path p = true → changed_since o p s v = true → changed_since o' p s v = true.
Proof.
revert o. induction ops as [|op ops IH]; intros o HI HB Hs; cbn [run_ops].
{ intros [= <-]. rewrite len_nil. split; [done|]. split; [done|]. split; [lia|auto]. }
rewrite len_cons in *. pose proof (len_nonneg ops) as Hlen.
destruct (run_op_outcome op o HI) as [[e ->]|(o1 & -> & HI1 & H & _)]; cbn [mbind option_bind]; intros Hr.
- destruct (IH o HI HB ltac:(lia) Hr) as (? & ? & ? & ?). split; [done|]. split; [done|].
  split; [lia|done].
- pose proof (next_small _ HB ltac:(lia)) as Hn. pose proof (ev_version _ _ _ H) as Hv.
  pose proof (evolves_Bounded o o1 HB ltac:(lia) H) as HB1.
  destruct (IH o1 HI1 HB1 ltac:(lia) Hr) as (? & ? & ? & Hm). split; [done|]. split; [done|].
  split; [lia|]. intros p s v Hp Hc. apply Hm; [done|].
  exact (evolves_changed o o1 p s v HB ltac:(lia) H Hp Hc).
Qed.


(** C28: a change is never missed: once an operation on a path has succeeded
  at version [v], [changed_since] answers yes, for every older version and
  whatever operations follow, for the path itself and for the subtree of
  every key above it (for as long as the 64-bit counter does not wrap). *)
Theorem changed_since_never_misses ops op ops' o1 v o2 o3 q w s :
len ops + 1 + len ops' < u64_max →
run_ops ops overlay_new = Some o1 → run_op op o1 = Some (Ok v, o2) → run_ops ops' o2 = Some o3 →
valid_path q = true → in_sub (fold q) (fold (op_path op)) → w < v →
s = true ∨ fold q = fold (op_path op) → changed_since o3 q s w = true.
Proof.
intros Hlen H1 H2 H3 Hq Hs Hw Hor. pose proof (len_nonneg ops'). pose proof (len_nonneg ops).
destruct (run_ops_changed ops overlay_new o1 Inv_new Bounded_new) as (HI1 & HB1 & Hv1 & _);
  [cbn; lia|done|]. cbn in Hv1.
destruct (run_op_outcome op o1 HI1) as [[e E]|(o' & E & HI2 & Hev & Hrep)]; [congruence|].
rewrite E in H2. simplify_eq. pose proof (ev_version _ _ _ Hev) as Hv2.
pose proof (next_small _ HB1 ltac:(lia)).
pose proof (evolves_Bounded _ _ HB1 ltac:(lia) Hev) as HB2.
destruct (run_ops_changed ops' o2 o3 HI2 HB2 ltac:(lia) H3) as (_ & _ & _ & Hm).
apply Hm; [done|]. by apply Hrep.
Qed.
End machine.

(** ** Concrete runs *)

Module RegDemo.
#[local] Existing Instance demo_table.

Definition key : str := lit "\Registry\Machine\Software\Mod".
Definition key_ci : str := lit "\registry\MACHINE\software\MOD".
Definition sub : str := lit "\Registry\Machine\Software\Mod\Sub".
Definition machine : str := lit "\Registry\Machine".
Definition parent : str := lit "\Registry\Machine\Software".

(** A key with a sub-key that holds a value. *)
Definition ops : list RegOp :=
[OpCreateKey key false false 5; OpSetValue sub (lit "Name") 1 [1; 2] 6].
Definition demo : Overlay := default overlay_new (run_ops ops overlay_new).

Lemma demo_run : run_ops ops overlay_new = Some demo.
Proof. vm_compute. reflexivity. Qed.

Lemma demo_Inv : Inv demo.
Proof.
destruct (run_ops_total ops overlay_new Inv_new) as (o & E & H).
assert (o = demo) as <-; [|exact H].
apply (inj Some). rewrite <- E. exact demo_run.
Qed.
End RegDemo.
Import RegDemo.

Lemma set_value_spec_witness :
  ∃ o', set_value (CT := demo_table) key (lit "Name") 4 [7] 9 demo = Some (Ok 3, o') ∧
    reg_value (CT := demo_table) o' key_ci (lit "NAME") = Some (4, [7]) ∧
    reg_value (CT := demo_table) o' sub (lit "Name") = Some (1, [1; 2]).
Proof.
  destruct (set_value_spec (CT := demo_table) key (lit "Name") 4 [7] 9 demo demo_Inv eq_refl eq_refl
    eq_refl ltac:(by vm_compute) ltac:(by vm_compute)) as (o' & E & H1 & H2).
  exists o'. split; [exact E|]. split.
  - apply H1; vm_compute; reflexivity.
  - destruct (H2 sub (lit "Name") eq_refl) as [-> _]; [left; vm_compute; congruence|].
    vm_compute. reflexivity.
Defined.

Lemma delete_value_spec_witness :
  ∃ o', delete_value (CT := demo_table) sub (lit "NAME") 9 demo = Some (Ok 3, o') ∧
    reg_value (CT := demo_table) o' sub (lit "Name") = None ∧
    value_hidden (CT := demo_table) o' sub (lit "name") = true.
Proof.
  destruct (delete_value_spec (CT := demo_table) sub (lit "NAME") 9 demo demo_Inv eq_refl eq_refl
    ltac:(by vm_compute) ltac:(by vm_compute)) as (o' & E & H1 & _).
  exists o'. split; [exact E|]. split; apply H1; vm_compute; reflexivity.
Defined.

Lemma delete_key_spec_witness :
  ∃ o', delete_key (CT := demo_table) key_ci 9 demo = Some (Ok 3, o') ∧
    reg_lookup (CT := demo_table) o' sub = (LTombstoned, false).
Proof.
  destruct (delete_key_spec (CT := demo_table) key_ci (lit "\registry\MACHINE\software") 9 demo demo_Inv
    eq_refl eq_refl ltac:(by vm_compute)) as (o' & E & H & _).
  exists o'. split; [exact E|]. apply H; [reflexivity|].
  right. exists (lit "sub"). vm_compute. reflexivity.
Defined.

Lemma create_key_spec_witness :
  ∃ o' b, create_key (CT := demo_table) (lit "\Registry\User\K") true false 9 demo = Some (Ok 3, o') ∧
    (reg_lookup (CT := demo_table) o' (lit "\Registry\User\K")).1 = LPresent b ∧ b = true.
Proof.
  destruct (create_key_spec (CT := demo_table) (lit "\Registry\User\K") true false 9 demo demo_Inv
    eq_refl eq_refl eq_refl ltac:(by vm_compute)) as (o' & b & E & Hl & Hb & _).
  exists o', b. split; [exact E|]. split; [exact Hl|]. apply Hb. by left.
Defined.

Lemma rename_key_spec_witness :
  ∃ o', rename_key (CT := demo_table) key (lit "New") 9 demo = Some (Ok 3, o') ∧
    option_Forall2 moved_node (reg_node (CT := demo_table) demo sub) (reg_node (CT := demo_table) o' (lit "\Registry\Machine\Software\New\Sub")) ∧
    reg_lookup (CT := demo_table) o' sub = (LTombstoned, false).
Proof.
  destruct (rename_key_spec (CT := demo_table) key parent (lit "New") 9 demo demo_Inv eq_refl)
    as (o' & E & H1 & H2 & _).
  - split; [done|]. vm_compute. intros H. repeat (apply elem_of_cons in H as [?|H]; [done|]).
    by apply elem_of_nil in H.
  - by vm_compute.
  - reflexivity.
  - vm_compute. by eexists.
  - right. vm_compute. reflexivity.
  - exists o'. split; [exact E|]. split.
    + exact (proj1 (H1 (lit "\Sub") (or_intror (ex_intro _ (lit "Sub") eq_refl)))).
    + apply H2; [by vm_compute|reflexivity|]. right. exists (lit "sub"). vm_compute. reflexivity.
Defined.

Lemma changed_since_never_misses_witness :
  ∃ o2 o3, run_op (CT := demo_table) (OpDeleteKey key 9) demo = Some (Ok 3, o2) ∧
    run_ops (CT := demo_table) [OpCreateKey key true false 10] o2 = Some o3 ∧
    changed_since (CT := demo_table) o3 machine true 2 = true.
Proof.
  set (x := run_op (CT := demo_table) (OpDeleteKey key 9) demo).
  set (o2 := match x with Some (_, o) => o | None => demo end).
  set (o3 := default demo (run_ops (CT := demo_table) [OpCreateKey key true false 10] o2)).
  exists o2, o3. split; [vm_compute; reflexivity|]. split; [vm_compute; reflexivity|].
  apply (changed_since_never_misses (CT := demo_table) ops (OpDeleteKey key 9)
    [OpCreateKey key true false 10] demo 3 o2 o3 machine 2 true).
  - by vm_compute.
  - exact demo_run.
  - vm_compute. reflexivity.
  - vm_compute. reflexivity.
  - reflexivity.
  - right. exists (lit "software\mod"). vm_compute. reflexivity.
  - done.
  - by left.
Defined.
