(* ===== verification/RegMerge.v ===== *)
(** RegMerge: the merged view of a registry key, the real key plus its
    overlay node (rust/crates/vfs-registry/src/merge.rs). *)

From S2P Require Import Prelude Text Path RegTypes RegPath RegOverlay RegInv RegOps RegProps RegMachine.

Record KeyView := mkKeyView {
  kv_subkeys : list str;
  kv_values : list Value;
  kv_class : option (list Z);
  kv_last_write : Z;
  kv_max_subkey_class_len : Z }.

Section merge.
Context {CT : CaseTable}.

Definition dead (n : RegNode) (f : str) : bool :=
match children n !! f with Some (_, Tombstone) => true | _ => false end.

(** The loop over the real sub-keys: those shown, and the folded names of
  all of them. *)
Fixpoint real_subkeys (n : RegNode) (subkeys : list str) : list str * list str :=
match subkeys with
| [] => ([], [])
| s :: subkeys =>
    let f := fold s in
    let '(out, names) := real_subkeys n subkeys in
    (if dead n f then out else s :: out, f :: names)
end.

Definition merge (real : option KeyView) (node : option RegNode) (tombstoned : bool)
  : option KeyView :=
if tombstoned || (negb (bool_decide (is_Some real)) && negb (bool_decide (is_Some node)))
then None else
let real := match node with
            | Some n => if created n then None else real
            | None => real
            end in
let cls := r ← real; kv_class r in
let lw := match real with Some r => kv_last_write r | None => 0 end in
let mx := match real with Some r => kv_max_subkey_class_len r | None => 0 end in
match node with
| None =>
    r ← real;
    Some (mkKeyView (kv_subkeys r) (kv_values r) cls lw mx)
| Some n =>
    let lw := Z.max lw (last_write n) in
    let hidden := ((λ v, fold (v_name v)) <$> values n) ++ value_tombstones n in
    let vals := values n ++ match real with
      | Some r => filter (λ v, fold (v_name v) ∉ hidden) (kv_values r)
      | None => []
      end in
    let '(out, real_names) := match real with
      | Some r => real_subkeys n (kv_subkeys r)
      | None => ([], [])
      end in
    let subs := out ++ ((λ x, x.2.1) <$> filter (λ x, x.2.2 = Present ∧ x.1 ∉ real_names)
                         (bt_iter (children n))) in
    Some (mkKeyView subs vals cls lw mx)
end.

(** ** The view as a specification *)

(** A key as the real registry hands it over: distinct names up to case. *)
Definition view_ok (r : KeyView) : Prop :=
NoDup (fold <$> kv_subkeys r) ∧ NoDup (vname <$> kv_values r).

(** A node of an overlay that satisfies the invariant. *)
Definition node_ok (n : RegNode) : Prop :=
vals_ok n ∧ ∀ f sp st, children n !! f = Some (sp, st) → f = fold sp.

(** The real key as far as the node lets it show. *)
Definition shown (real : option KeyView) (n : RegNode) : option KeyView :=
if created n then None else real.

Lemma real_subkeys_spec n ks :
real_subkeys n ks = (filter (λ s, dead n (fold s) = false) ks, fold <$> ks).
Proof.
induction ks as [|s ks IH]; [done|]. cbn [real_subkeys]. rewrite IH, filter_cons, fmap_cons.
by destruct (dead n (fold s)).
Qed.

Lemma NoDup_fmap_filter {A B} (f : A → B) (P : A → Prop) `{∀ x, Decision (P x)} l :
NoDup (f <$> l) → NoDup (f <$> filter P l).
Proof. intros H'. eapply sublist_NoDup; [exact H'|]. apply fmap_sublist, sublist_filter. Qed.

(** The folded names the merge shows as sub-keys. *)
Lemma merged_children_folds n (rs : list str) :
node_ok n →
fold <$> ((λ x, x.2.1) <$> filter (λ x, x.2.2 = Present ∧ x.1 ∉ rs) (bt_iter (children n))) =
(filter (λ x : str * (str * Child), x.2.2 = Present ∧ x.1 ∉ rs) (bt_iter (children n))).*1.
Proof.
intros [_ Hc]. rewrite <- list_fmap_compose. apply list_fmap_ext.
intros i [f [sp st]] Hi%list_elem_of_lookup_2. cbn.
apply list_elem_of_filter in Hi as [_ Hi%bt_iter_elem]. symmetry. by eapply Hc.
Qed.

Lemma lookup_values_app a b f :
lookup_values (a ++ b) f = match lookup_values a f with Some x => Some x | None => lookup_values b f end.
Proof.
unfold lookup_values. rewrite filter_app. by destruct (filter _ a).
Qed.

Lemma lookup_values_None vs f : lookup_values vs f = None ↔ f ∉ vname <$> vs.
Proof.
unfold lookup_values. rewrite fmap_None, head_None. split.
- intros E (x & -> & Hx)%list_elem_of_fmap. revert Hx.
  by eapply (filter_nil_not_elem_of (λ y, vname y = vname x)).
- intros H. destruct (filter _ vs) as [|x l] eqn:E; [done|]. destruct H.
  assert (x ∈ filter (λ x, vname x = f) vs) as Hx by (rewrite E; by left).
  apply list_elem_of_filter in Hx as [<- Hx]. by apply list_elem_of_fmap_2.
Qed.

Lemma lookup_values_hide (H : list str) vs f :
lookup_values (filter (λ v, fold (v_name v) ∉ H) vs) f =
  if decide (f ∈ H) then None else lookup_values vs f.
Proof.
case_decide as Hf.
- apply lookup_values_None. intros (x & -> & [Hx _]%list_elem_of_filter)%list_elem_of_fmap. done.
- unfold lookup_values. f_equal. f_equal. induction vs as [|x vs IH]; [done|].
  rewrite !filter_cons. unfold vname in *. repeat case_decide; rewrite ?filter_cons;
    repeat case_decide; congruence.
Qed.

Section view.
Context (n : RegNode) (rs : list str) (rv : list Value) (Hn : node_ok n).

Definition merged_subkeys : list str :=
filter (λ s, dead n (fold s) = false) rs ++
((λ x, x.2.1) <$> filter (λ x, x.2.2 = Present ∧ x.1 ∉ fold <$> rs) (bt_iter (children n))).

Definition merged_values : list Value :=
values n ++ filter (λ v, fold (v_name v) ∉ (vname <$> values n) ++ value_tombstones n) rv.

Lemma merged_values_lookup f :
lookup_values merged_values f =
  match lookup_values (values n) f with
  | Some x => Some x
  | None => if decide (f ∈ value_tombstones n) then None else lookup_values rv f
  end.
Proof.
unfold merged_values. rewrite lookup_values_app, lookup_values_hide.
destruct (lookup_values (values n) f) eqn:E; [done|]. apply lookup_values_None in E.
repeat case_decide; try done; rewrite elem_of_app in *; naive_solver.
Qed.

Lemma merged_values_nodup : NoDup (vname <$> rv) → NoDup (vname <$> merged_values).
Proof.
intros Hr. unfold merged_values. rewrite fmap_app. apply NoDup_app.
split; [apply Hn|]. split; [|by apply NoDup_fmap_filter].
intros f Hf (x & -> & [Hx _]%list_elem_of_filter)%list_elem_of_fmap.
apply Hx, elem_of_app. by left.
Qed.

Lemma merged_subkeys_elem f :
f ∈ fold <$> merged_subkeys ↔
  (∃ sp, children n !! f = Some (sp, Present)) ∨ (dead n f = false ∧ f ∈ fold <$> rs).
Proof.
unfold merged_subkeys. rewrite fmap_app. rewrite merged_children_folds, elem_of_app by done.
rewrite !list_elem_of_fmap. setoid_rewrite list_elem_of_filter. unfold dead. split.
- intros [(s & -> & Hd & Hs)|([g [sp st]] & -> & [Hst Hg] & Hi%bt_iter_elem)]; cbn in *; subst; eauto.
- destruct (decide (f ∈ fold <$> rs)) as [(s & -> & Hs)%list_elem_of_fmap|Hf].
  + intros [[sp Hsp]|[Hd _]]; left; exists s; (split; [done|]; split; [|done]); [by rewrite Hsp|done].
  + intros [[sp Hsp]|[_ Hin]]; [|by apply list_elem_of_fmap in Hin].
    right. exists (f, (sp, Present)). split; [done|]. split; [done|]. by apply bt_iter_elem.
Qed.

Lemma merged_subkeys_nodup : NoDup (fold <$> rs) → NoDup (fold <$> merged_subkeys).
Proof.
intros Hr. unfold merged_subkeys. rewrite fmap_app, merged_children_folds by done.
apply NoDup_app. split; [by apply NoDup_fmap_filter|].
split; [|apply NoDup_fmap_filter, bt_iter_nodup].
intros f (s & -> & [_ Hs]%list_elem_of_filter)%list_elem_of_fmap
  (x & E & [[_ Hx] _]%list_elem_of_filter)%list_elem_of_fmap.
apply Hx. rewrite <- E. by apply list_elem_of_fmap_2.
Qed.
End view.

Lemma merge_node real n :
merge real (Some n) false = Some (
  let r := shown real n in
  let rs := match r with Some r => kv_subkeys r | None => [] end in
  let rv := match r with Some r => kv_values r | None => [] end in
  mkKeyView
    (merged_subkeys n rs) (merged_values n rv)
    (r ← r; kv_class r)
    (Z.max (match r with Some r => kv_last_write r | None => 0 end) (last_write n))
    (match r with Some r => kv_max_subkey_class_len r | None => 0 end)).
Proof.
unfold merge. rewrite (bool_decide_true (is_Some (Some n))) by (by eexists).
rewrite andb_false_r. cbn [orb]. fold (shown real n).
destruct (shown real n) as [r|]; [|done].
cbn [kv_subkeys]. by rewrite real_subkeys_spec.
Qed.

(** Property: the merged view of a key that has an overlay node: a value is the
  overlay's if it sets the name, else the real one unless the name is
  tombstoned or the key was created in the overlay; a sub-key shows exactly
  when the overlay has it present, or the real key has it, shows through,
  and the overlay has not tombstoned it; and no name shows twice, whatever
  its spellings. *)
Theorem merge_spec real n :
node_ok n → (∀ r, real = Some r → view_ok r) →
∃ out, merge real (Some n) false = Some out ∧ view_ok out ∧
  (∀ f, lookup_values (kv_values out) f =
    match lookup_values (values n) f with
    | Some x => Some x
    | None => if decide (f ∈ value_tombstones n) then None
              else r ← shown real n; lookup_values (kv_values r) f
    end) ∧
  (∀ f, f ∈ fold <$> kv_subkeys out ↔
    (∃ sp, children n !! f = Some (sp, Present)) ∨
    (dead n f = false ∧ ∃ r, shown real n = Some r ∧ f ∈ fold <$> kv_subkeys r)).
Proof.
intros Hn Hr. rewrite merge_node. eexists. split; [done|]. cbv zeta.
set (rs := match shown real n with Some r => kv_subkeys r | None => [] end).
set (rv := match shown real n with Some r => kv_values r | None => [] end).
assert (NoDup (fold <$> rs) ∧ NoDup (vname <$> rv)) as [Hrs Hrv].
{ unfold rs, rv, shown. destruct (created n); [split; constructor|].
  destruct real as [r|]; [exact (Hr r eq_refl)|split; constructor]. }
split; [split; [by apply merged_subkeys_nodup|by apply merged_values_nodup]|].
cbn [kv_values kv_subkeys]. split.
- intros f. rewrite merged_values_lookup. unfold rv. by destruct (shown real n).
- intros f. rewrite merged_subkeys_elem by done. unfold rs.
  destruct (shown real n) as [r|]; [naive_solver|]. rewrite elem_of_nil. naive_solver.
Qed.

(** The nodes of an overlay satisfy the premise of [merge_spec]. *)
Lemma overlay_node_ok o p n : Inv o → reg_node o p = Some n → node_ok n.
Proof.
intros HI (e & He & ->)%fmap_Some. split; [exact (inv_vals _ HI _ _ He)|].
intros f sp st Hc. eapply (si_child _ _ (inv_shape _ HI)); [|exact Hc].
apply shape_Some. by exists e.
Qed.

(** Property: without an overlay node the real key is what shows; a tombstone
  hides it; and a key with neither is absent. *)
Theorem merge_without_node real :
merge real None false = real ∧
(∀ node, merge real node true = None) ∧
∀ n, created n = true → merge real (Some n) false = merge None (Some n) false.
Proof.
split; [|split].
- destruct real as [[]|]; [|done]. unfold merge. rewrite bool_decide_true by (by eexists). done.
- done.
- intros n Hc. rewrite !merge_node. unfold shown. by rewrite Hc.
Qed.
End merge.

Module MergeDemo.
Import RegDemo.
#[local] Existing Instance demo_table.

Definition plain : Overlay :=
default overlay_new (run_ops [OpSetValue sub (lit "Name") 1 [1; 2] 6] overlay_new).

Lemma plain_Inv : Inv plain.
Proof.
destruct (run_ops_total [OpSetValue sub (lit "Name") 1 [1; 2] 6] overlay_new Inv_new) as (o & E & H).
assert (o = plain) as <-; [|exact H]. apply (inj Some). rewrite <- E. vm_compute. reflexivity.
Qed.

Definition n : RegNode := default RegNode_default (reg_node plain sub).
Definition real : KeyView :=
mkKeyView [lit "Kept"] [mkValue (lit "NAME") 3 [9]; mkValue (lit "Other") 3 [8]] None 7 0.

Lemma n_node : reg_node plain sub = Some n.
Proof. vm_compute. reflexivity. Qed.
End MergeDemo.
Import MergeDemo.

Lemma merge_spec_witness :
  ∃ out, merge (CT := demo_table) (Some real) (Some n) false = Some out ∧
    lookup_values (CT := demo_table) (kv_values out) (lit "name") = Some (1, [1; 2]) ∧
    lookup_values (CT := demo_table) (kv_values out) (lit "other") = Some (3, [8]).
Proof.
  destruct (merge_spec (CT := demo_table) (Some real) n
    (overlay_node_ok (CT := demo_table) _ _ _ plain_Inv n_node)) as (out & E & _ & H & _).
  - intros r [= <-]. split; vm_compute; repeat constructor; set_solver.
  - exists out. split; [exact E|]. rewrite !H. split; vm_compute; reflexivity.
Defined.
