(* ===== verification/RegFormat.v ===== *)
(** RegFormat: the persistence format of the registry overlay
    (rust/crates/vfs-registry/src/format.rs).

    The encoder makes the bytes of the overlay; [None] is a panic or the fuel
    of its recursion running out, and [encode_total] excludes both. The decoder is a reader
    that returns the code's [FormatError]s. *)

From S2P Require Import Prelude Text Path RegTypes RegPath RegOverlay Wire.

(** ** Model *)

Definition REG_MAGIC : bytes := lit "AEREG" ++ [0; 0; 1].
Definition FLAG_CREATED : Z := 1.

Inductive FormatError :=
  | Truncated | BadMagic | BadChecksum | Invalid (why : str).

(** [b.chunks(n)]: every chunk takes at least one element, so the length of
    the list is fuel enough ([concat_chunks]). *)
Fixpoint chunks_loop {A} (fuel n : nat) (l : list A) : list (list A) :=
  match fuel, l with
  | S fuel, _ :: _ => take n l :: chunks_loop fuel n (drop n l)
  | _, _ => []
  end.
Definition chunks {A} (n : nat) (l : list A) : list (list A) := chunks_loop (length l) n l.

(** A chunk copied over the start of eight zero bytes, as a [u64]. *)
Definition chunk_word (c : bytes) : Z := from_le (c ++ replicate (8 - length c) 0).

Definition checksum (b : bytes) : Z :=
  foldl (λ sum c, as_u64 (sum + chunk_word c)) 0 (chunks 8 b).

Definition put_count (n : Z) : bytes := to_le 4 (as_u32 n).

Definition put_value_rec (v : Value) : bytes :=
  put_str (v_name v) ++ to_le 4 (v_ty v) ++ put_count (len (v_data v)) ++ v_data v.

Section encode.
Context {CT : CaseTable}.

(** The two vectors the loop over [node.children.values()] fills. *)
Definition enc_tombs (n : RegNode) : list str :=
omap (λ '(_, (name, st)), match st with Tombstone => Some name | Present => None end)
  (bt_iter (children n)).

Definition enc_kids (o : Overlay) (path : str) (n : RegNode) : list (str * str * RegNode) :=
omap (λ '(_, (name, st)),
  match st with
  | Tombstone => None
  | Present =>
      let p := path ++ backslash :: name in
      match reg_node o p with
      | Some n => if volatile n then None else Some (name, p, n)
      | None => None
      end
  end) (bt_iter (children n)).

(** Everything of a node's record but its children. *)
Definition node_record (o : Overlay) (spelling path : str) (node : RegNode) : bytes :=
let tombs := enc_tombs node in
let kids := enc_kids o path node in
put_str spelling ++ [if created node then FLAG_CREATED else 0] ++ to_le 8 (last_write node) ++
put_count (len (values node)) ++ put_count (len (value_tombstones node)) ++
put_count (len tombs) ++ put_count (len kids) ++
flat_map put_value_rec (values node) ++ flat_map put_str (value_tombstones node) ++
flat_map put_str tombs.

Fixpoint encode_node (fuel : nat) (o : Overlay) (spelling path : str) (node : RegNode)
  : option bytes :=
match fuel with
| O => None
| S fuel =>
    ks ← mapM (λ '(name, p, n), encode_node fuel o name p n) (enc_kids o path node);
    Some (node_record o spelling path node ++ concat ks)
end.

(** A child's path is longer than its parent's and is the path of an entry:
  one more level than the longest key has characters is fuel enough. *)
Definition encode_fuel (o : Overlay) : nat :=
S (map_fold (λ k _ n, Nat.max (length k) n) O (entries o)).

Definition encode_body (o : Overlay) : option bytes :=
match reg_walk o with
| (p, n) :: _ =>
    if negb (volatile n) && (length (filter (λ c, c = backslash) p) =? 1)%nat
    then spelling ← skip_bytes 1 p;
         b ← encode_node (encode_fuel o) o spelling p n;
         Some (REG_MAGIC ++ 1 :: b)
    else Some (REG_MAGIC ++ [0])
| [] => Some (REG_MAGIC ++ [0])
end.

Definition encode (o : Overlay) : option bytes :=
out ← encode_body o; Some (out ++ to_le 8 (checksum out)).
End encode.

(** *** The reader *)

Definition FR (A : Type) : Type := bytes → result FormatError (A * bytes).

#[export] Instance FR_ret : MRet FR := λ A a b, Ok (a, b).
#[export] Instance FR_bind : MBind FR := λ A B f r b,
  match r b with Ok (a, b') => f a b' | Err e => Err e end.

Definition fr_err {A} (e : FormatError) : FR A := λ _, Err e.
Definition fr_invalid {A} (why : str) : FR A := fr_err (Invalid why).

Definition fr_take (n : Z) : FR bytes := λ b,
  if n >? len b then Err Truncated else Ok (split_at n b).
Definition fr_u8 : FR Z := h ← fr_take 1; mret (from_le h).
Definition fr_u32 : FR Z := h ← fr_take 4; mret (from_le h).
Definition fr_u64 : FR Z := h ← fr_take 8; mret (from_le h).
(** [n] items of at least a byte each are left. *)
Definition fr_room (n : Z) : FR Z := λ b, if n >? len b then Err Truncated else Ok (n, b).
Definition fr_count : FR Z := n ← fr_u32; fr_room n.
Definition fr_string (max_utf16 : Z) : FR str :=
  n ← fr_u32;
  if n >? max_utf16 * 3 then fr_invalid (lit "name too long") else
  h ← fr_take n;
  match from_utf8 h with
  | None => fr_invalid (lit "invalid UTF-8")
  | Some s =>
      if utf16_len s >? max_utf16 then fr_invalid (lit "name too long") else mret s
  end.
Definition fr_key_name : FR str :=
  s ← fr_string MAX_KEY_NAME;
  if str_eqb s [] || bool_decide (backslash ∈ s) then fr_invalid (lit "bad key name") else mret s.

Section decode.
Context {CT : CaseTable}.

(** The loops of [decode_node]: [seen] is its set of folded value names. *)
Fixpoint read_values (n : nat) (seen : gset str) (vs : list Value) : FR (gset str * list Value) :=
match n with
| O => mret (seen, vs)
| S n =>
    name ← fr_string MAX_VALUE_NAME;
    ty ← fr_u32;
    l ← fr_u32;
    if l >? MAX_DATA then fr_invalid (lit "value data too large") else
    data ← fr_take l;
    if bool_decide (fold name ∈ seen) then fr_invalid (lit "duplicate value") else
    read_values n ({[fold name]} ∪ seen) (vs ++ [mkValue name ty data])
end.

Fixpoint read_vtombs (n : nat) (seen : gset str) (ts : list str) : FR (list str) :=
match n with
| O => mret ts
| S n =>
    name ← fr_string MAX_VALUE_NAME;
    if negb (str_eqb (fold name) name) then fr_invalid (lit "value tombstone not folded") else
    if bool_decide (name ∈ seen) then fr_invalid (lit "value both present and tombstoned") else
    read_vtombs n ({[name]} ∪ seen) (ts ++ [name])
end.

(** [node.children.insert(..).is_some()] is an error. *)
Definition new_child (name : str) (st : Child) (ch : gmap str (str * Child))
  : FR (gmap str (str * Child)) :=
if bool_decide (is_Some (ch !! fold name)) then fr_invalid (lit "duplicate child")
else mret (<[fold name := (name, st)]> ch).

Fixpoint read_ctombs (n : nat) (ch : gmap str (str * Child)) : FR (gmap str (str * Child)) :=
match n with
| O => mret ch
| S n =>
    name ← fr_key_name;
    ch ← new_child name Tombstone ch;
    read_ctombs n ch
end.

(** The nodes read so far, in the order their records were met. *)
Abbreviation Out := (list (str * RegNode)).

Fixpoint read_kids (dec : str → Out → FR Out) (path : str) (n : nat)
  (ch : gmap str (str * Child)) (out : Out) : FR (gmap str (str * Child) * Out) :=
match n with
| O => mret (ch, out)
| S n =>
    name ← fr_key_name;
    ch ← new_child name Present ch;
    out ← dec (path ++ backslash :: name) out;
    read_kids dec path n ch out
end.

(** [depth] is checked before anything is read, so that levels
  [MAX_DECODE_DEPTH + 2 - depth] are fuel enough: with no fuel left the
  depth is above the limit and the error is the one of the check. *)
Fixpoint decode_node (fuel : nat) (path : str) (depth : Z) (out : Out) : FR Out :=
if depth >? MAX_DECODE_DEPTH then fr_invalid (lit "keys nested too deeply") else
match fuel with
| O => fr_invalid (lit "keys nested too deeply")
| S fuel =>
    flags ← fr_u8;
    if negb (Z.land flags (255 - FLAG_CREATED) =? 0)
    then fr_invalid (lit "unknown or volatile node flags") else
    lw ← fr_u64;
    nv ← fr_count;
    nt ← fr_count;
    nct ← fr_count;
    nc ← fr_count;
    '(seen, vs) ← read_values (Z.to_nat nv) ∅ [];
    ts ← read_vtombs (Z.to_nat nt) seen [];
    ch ← read_ctombs (Z.to_nat nct) ∅;
    let slot := length out in
    let out := out ++ [(path, RegNode_default)] in
    '(ch, out) ← read_kids (λ p, decode_node fuel p (depth + 1)) path (Z.to_nat nc) ch out;
    let node := mkRegNode vs ts ch (negb (Z.land flags FLAG_CREATED =? 0)) false lw in
    mret (alter (λ p, (p.1, node)) slot out)
end.

Definition decode_fuel : nat := Z.to_nat (MAX_DECODE_DEPTH + 2).

(** The loop over the decoded nodes. *)
Fixpoint insert_all (nodes : Out) (o : Overlay) : result FormatError Overlay :=
match nodes with
| [] => Ok o
| (p, n) :: nodes =>
    match insert_node p n 1 o with
    | (Ok _, o) => insert_all nodes o
    | (Err _, _) => Err (Invalid (lit "bad key path"))
    end
end.

(** What follows the magic: the presence byte and the tree. *)
Definition decode_tree : FR Out :=
p ← fr_u8;
if p =? 0 then mret [] else
if p =? 1 then
  name ← fr_key_name;
  if negb (str_eqb (fold name) (lit "registry")) then fr_invalid (lit "root is not Registry") else
  decode_node decode_fuel (backslash :: name) 0 []
else fr_invalid (lit "bad presence byte").

Definition decode (b : bytes) : result FormatError Overlay :=
if len b <? len REG_MAGIC then Err Truncated else
if negb (bool_decide (take 8 b = REG_MAGIC)) then Err BadMagic else
if len b <? len REG_MAGIC + 1 + 8 then Err Truncated else
let '(body, sum) := split_at (len b - 8) b in
if negb (checksum body =? from_le sum) then Err BadChecksum else
match decode_tree (drop (length REG_MAGIC) body) with
| Err e => Err e
| Ok (nodes, rest) =>
    if negb (bool_decide (rest = [])) then Err (Invalid (lit "trailing bytes")) else
    o ← insert_all nodes overlay_new;
    Ok (set_version 1 o)
end.
End decode.

(** ** Readers on what the writers make *)

Definition FReads {A} (r : FR A) (b : bytes) (a : A) : Prop :=
  ∀ rest, r (b ++ rest) = Ok (a, rest).

Create HintDb fmt.

Lemma FReads_ret {A} (a : A) : FReads (mret a) [] a.
Proof. done. Qed.

Lemma FReads_bind {A B} (r : FR A) (f : A → FR B) b c a x :
  FReads r b a → FReads (f a) c x → FReads (r ≫= f) (b ++ c) x.
Proof. intros Hr Hf rest. unfold mbind, FR_bind. rewrite <- app_assoc, Hr. apply Hf. Qed.

(** The last step of a reader. *)
Lemma FReads_bind_ret {A B} (r : FR A) (f : A → FR B) b a x :
  FReads r b a → f a = mret x → FReads (r ≫= f) b x.
Proof. intros Hr Hf. rewrite <- (app_nil_r b). eapply FReads_bind; [done|]. by rewrite Hf. Qed.

Lemma FReads_take b : FReads (fr_take (len b)) b b.
Proof.
  intros rest. unfold fr_take. rewrite len_app. pose proof (len_nonneg rest).
  rewrite Z.gtb_ltb, (proj2 (Z.ltb_ge _ _)) by lia. by rewrite split_at_app.
Qed.

Lemma FReads_take_eq n b : len b = n → FReads (fr_take n) b b.
Proof. intros <-. apply FReads_take. Qed.

Lemma FReads_u8 x : FReads fr_u8 [x] x.
Proof.
  eapply FReads_bind_ret; [by apply FReads_take_eq|]. unfold from_le. by rewrite Z.add_0_r.
Qed.

Lemma FReads_u32 x : in_u32 x → FReads fr_u32 (to_le 4 x) x.
Proof.
  intros Hx. eapply FReads_bind_ret; [apply FReads_take_eq, len_to_le|]. by rewrite from_to_le_small.
Qed.

Lemma FReads_u64 x : in_u64 x → FReads fr_u64 (to_le 8 x) x.
Proof.
  intros Hx. eapply FReads_bind_ret; [apply FReads_take_eq, len_to_le|]. by rewrite from_to_le_small.
Qed.

Lemma FReads_len {A} (l : list A) : len l < u32_max → FReads fr_u32 (put_count (len l)) (len l).
Proof. intros H. unfold put_count. rewrite as_u32_len by done. by apply FReads_u32, in_u32_len. Qed.

(** A count is read when enough bytes follow it. *)
Lemma FReads_count {A B} (l : list A) (f : Z → FR B) c x :
  len l < u32_max → len l ≤ len c → FReads (f (len l)) c x →
  FReads (fr_count ≫= f) (put_count (len l) ++ c) x.
Proof.
  intros Hl Hr Hf rest. unfold fr_count, mbind, FR_bind. rewrite <- app_assoc, (FReads_len l Hl).
  unfold fr_room. pose proof (len_nonneg rest).
  rewrite Z.gtb_ltb, len_app, (proj2 (Z.ltb_ge _ _)) by lia. apply Hf.
Qed.

(** Items of at least a byte. *)
Lemma flat_map_len {A} (f : A → bytes) l :
  (∀ x, x ∈ l → 1 ≤ len (f x)) → len l ≤ len (flat_map f l).
Proof.
  induction l as [|x l IH]; intros H; [done|]. cbn [flat_map]. rewrite len_cons, len_app.
  specialize (IH ltac:(intros y Hy; apply H; by right)). specialize (H x ltac:(by left)). lia.
Qed.

Lemma put_str_len s : 1 ≤ len (put_str s).
Proof. unfold put_str. rewrite len_app, len_to_le. pose proof (len_nonneg (utf8 s)). lia. Qed.

Lemma put_value_rec_len v : 1 ≤ len (put_value_rec v).
Proof.
  unfold put_value_rec. rewrite len_app. pose proof (put_str_len (v_name v)).
  match goal with |- _ ≤ _ + len ?l => pose proof (len_nonneg l) end. lia.
Qed.

Lemma str_len_le_utf16 s : valid_str s → str_len s ≤ utf16_len s * 3.
Proof.
  unfold str_len. induction 1 as [|c s Hc Hs IH]; [done|].
  rewrite utf8_cons, len_app. cbn [utf16_len].
  enough (len (utf8_char c) ≤ utf16_units c * 3) by lia.
  unfold utf16_units, utf8_char, len. repeat case_match; simpl; lia.
Qed.

Lemma str_len_u32 s max : valid_str s → utf16_len s ≤ max → max ≤ MAX_VALUE_NAME → str_len s < u32_max.
Proof.
  intros H1%str_len_le_utf16 H2 H3. unfold MAX_VALUE_NAME in H3. unfold u32_max. lia.
Qed.

Lemma FReads_string max s :
  valid_str s → utf16_len s ≤ max → max ≤ MAX_VALUE_NAME → FReads (fr_string max) (put_str s) s.
Proof.
  intros Hs Hl Hm. unfold fr_string, put_str.
  pose proof (str_len_u32 s max Hs Hl Hm). pose proof (str_len_le_utf16 s Hs).
  eapply FReads_bind; [by apply (FReads_len (utf8 s))|]. unfold str_len in *.
  rewrite Z.gtb_ltb, (proj2 (Z.ltb_ge _ _)) by lia.
  eapply FReads_bind_ret; [apply FReads_take|]. rewrite from_utf8_utf8 by done.
  by rewrite Z.gtb_ltb, (proj2 (Z.ltb_ge _ _)) by lia.
Qed.

Lemma FReads_key_name s :
  valid_str s → utf16_len s ≤ MAX_KEY_NAME → key_ok s → FReads fr_key_name (put_str s) s.
Proof.
  intros Hs Hl [Hne Hbs]. eapply FReads_bind_ret; [by apply FReads_string|].
  destruct (str_eqb_spec s []); [done|]. by rewrite bool_decide_false.
Qed.

#[export] Hint Resolve FReads_u8 FReads_u32 FReads_u64 FReads_string FReads_key_name FReads_len
  FReads_take FReads_ret : fmt.

(** ** The checksum *)

Lemma chunks_loop_concat {A} fuel n (l : list A) :
  (0 < n)%nat → (length l ≤ fuel)%nat → concat (chunks_loop fuel n l) = l.
Proof.
  intros Hn. revert l. induction fuel as [|fuel IH]; intros [|x l] Hl; simpl in *; try done; [lia|].
  destruct n as [|n]; [lia|]. cbn [take drop app]. f_equal.
  rewrite IH by (rewrite length_drop; lia). apply take_drop.
Qed.

(** The chunks are the list, cut: none is lost. *)
Lemma concat_chunks {A} n (l : list A) : (0 < n)%nat → concat (chunks n l) = l.
Proof. intros Hn. by apply chunks_loop_concat. Qed.

(** Changing one element changes one chunk. *)
Lemma chunks_loop_insert {A} fuel n i (x : A) l :
  (0 < n)%nat → (length l ≤ fuel)%nat → (i < length l)%nat →
  ∃ pre c post j, chunks_loop fuel n l = pre ++ c :: post ∧
    chunks_loop fuel n (<[i := x]> l) = pre ++ <[j := x]> c :: post ∧
    c !! j = l !! i ∧ (length c ≤ n)%nat.
Proof.
  intros Hn. revert i l. induction fuel as [|fuel IH]; intros i l Hl Hi; [lia|].
  destruct l as [|y l]; [cbn in Hi; lia|].
  assert (∀ z, chunks_loop (S fuel) n (<[i := z]> (y :: l)) =
    take n (<[i := z]> (y :: l)) :: chunks_loop fuel n (drop n (<[i := z]> (y :: l)))) as Es
    by (intros z; by destruct i).
  rewrite Es. change (chunks_loop (S fuel) n (y :: l)) with (take n (y :: l) :: chunks_loop fuel n (drop n (y :: l))).
  assert (length (drop n (y :: l)) ≤ fuel)%nat as Hd by (rewrite length_drop; lia).
  destruct (decide (i < n)%nat).
  - exists [], (take n (y :: l)), (chunks_loop fuel n (drop n (y :: l))), i.
    rewrite take_insert_lt, drop_insert_lt by lia. split; [done|]. split; [done|].
    split; [by rewrite lookup_take_lt|]. rewrite length_take. lia.
  - destruct (IH (i - n)%nat (drop n (y :: l)) Hd) as (pre & c & post & j & E1 & E2 & E3 & E4).
    { rewrite length_drop. lia. }
    exists (take n (y :: l) :: pre), c, post, j. rewrite take_insert_ge by lia.
    rewrite drop_insert_ge by lia. rewrite E1, E2. split; [done|]. split; [done|]. split; [|done].
    rewrite E3, lookup_drop. f_equal. lia.
Qed.

Definition words_sum (l : list bytes) : Z := foldr (λ c s, chunk_word c + s) 0 l.

Lemma checksum_sum b : checksum b = as_u64 (words_sum (chunks 8 b)).
Proof.
  unfold checksum. generalize (chunks 8 b). intros l.
  assert (∀ z, foldl (λ sum c, as_u64 (sum + chunk_word c)) (as_u64 z) l = as_u64 (z + words_sum l)) as H.
  { induction l as [|c l IH]; intros z; cbn [foldl words_sum foldr].
    - by rewrite Z.add_0_r.
    - replace (as_u64 (as_u64 z + chunk_word c)) with (as_u64 (z + chunk_word c))
        by (unfold as_u64; by rewrite Z.add_mod_idemp_l). rewrite IH. f_equal. unfold words_sum. lia. }
  exact (H 0).
Qed.

Lemma words_sum_app l k : words_sum (l ++ k) = words_sum l + words_sum k.
Proof. induction l as [|c l IH]; [done|]. unfold words_sum in *. cbn [app foldr]. rewrite IH. lia. Qed.

Lemma from_le_inj a b :
  Forall byte_ok a → Forall byte_ok b → length a = length b → from_le a = from_le b → a = b.
Proof. intros Ha Hb El E. rewrite <- (to_from_le a Ha), <- (to_from_le b Hb), El, E. done. Qed.

Lemma chunk_word_range c : Forall byte_ok c → (length c ≤ 8)%nat → in_u64 (chunk_word c).
Proof.
  intros Hc Hl. unfold chunk_word. assert (Forall byte_ok (c ++ replicate (8 - length c) 0)) as H.
  { apply Forall_app. split; [done|]. apply Forall_replicate. done. }
  pose proof (from_le_range _ H) as Hr. unfold len in Hr. rewrite length_app, length_replicate in Hr.
  replace (length c + (8 - length c))%nat with 8%nat in Hr by lia. done.
Qed.

(** A single changed byte always changes the checksum. *)
Lemma checksum_byte b i x y :
  Forall byte_ok b → byte_ok x → b !! i = Some y → x ≠ y → checksum (<[i := x]> b) ≠ checksum b.
Proof.
  intros Hb Hx Hi Hne E. apply lookup_lt_Some in Hi as Hlt. unfold chunks in *.
  destruct (chunks_loop_insert (length b) 8 i x b) as (pre & c & post & j & E1 & E2 & E3 & E4); [lia|lia|done|].
  rewrite !checksum_sum in E. unfold chunks in E. rewrite length_insert in E. rewrite E1, E2, !words_sum_app in E.
  rewrite Hi in E3. apply lookup_lt_Some in E3 as Hj.
  assert (Forall byte_ok c) as Hc.
  { rewrite <- (concat_chunks 8 b) in Hb by lia. unfold chunks in Hb. rewrite E1, concat_app in Hb.
    apply Forall_app in Hb as [_ Hb]. by apply Forall_app in Hb as [Hb _]. }
  assert (Forall byte_ok (<[j := x]> c)) as Hc' by (by apply Forall_insert).
  pose proof (chunk_word_range c Hc E4) as R1.
  pose proof (chunk_word_range _ Hc' ltac:(by rewrite length_insert)) as R2.
  change (words_sum (?u :: post)) with (chunk_word u + words_sum post) in E.
  assert (chunk_word (<[j := x]> c) = chunk_word c) as Ew.
  { unfold words_sum in E. cbn [foldr] in E. unfold_width. dlia. }
  unfold chunk_word in Ew. rewrite length_insert in Ew. apply from_le_inj in Ew.
  - apply app_inv_tail in Ew. apply Hne.
    assert (<[j := x]> c !! j = Some x) as Ej by (by apply list_lookup_insert_eq). rewrite Ew in Ej. congruence.
  - apply Forall_app. split; [done|]. by apply Forall_replicate.
  - apply Forall_app. split; [done|]. by apply Forall_replicate.
  - by rewrite !length_app, length_insert.
Qed.
