(* ===== verification/RegPersist.v ===== *)
(** RegPersist: what survives a save and a load of the registry overlay.

    [saved] lists the nodes a file holds, in the order of their records. The
    encoder writes them, the decoder reads them back ([decode_encode_node]),
    and inserting them into an empty overlay gives the overlay again without
    its volatile keys ([persist_roundtrip]). *)

From S2P Require Import Prelude Text Path RegTypes RegPath RegOverlay RegInv RegOps RegMachine Wire RegFormat.

(** ** What fits into a file *)

Definition value_fits (v : Value) : Prop :=
  valid_str (v_name v) ∧ utf16_len (v_name v) ≤ MAX_VALUE_NAME ∧ in_u32 (v_ty v) ∧
  len (v_data v) ≤ MAX_DATA.

Definition name_fits (max : Z) (s : str) : Prop := valid_str s ∧ utf16_len s ≤ max.

Definition node_fits (n : RegNode) : Prop :=
  in_u64 (last_write n) ∧
  (len (values n) < u32_max ∧ Forall value_fits (values n)) ∧
  (len (value_tombstones n) < u32_max ∧ Forall (name_fits MAX_VALUE_NAME) (value_tombstones n)) ∧
  Z.of_nat (size (children n)) < u32_max ∧
  map_Forall (λ _ c, name_fits MAX_KEY_NAME c.1) (children n).

(** The names, sizes and depth of an overlay are within the limits the
    decoder checks. *)
Definition Fits {CT : CaseTable} (o : Overlay) : Prop :=
  ∀ k e, entries o !! k = Some e →
    node_fits (e_node e) ∧ check_depth (e_path e) MAX_DECODE_DEPTH = Ok () ∧
    Forall (name_fits MAX_KEY_NAME) (drop 1 (split_on is_bs (e_path e))).

(** ** Lists read one by one *)

Section items.
Context {CT : CaseTable}.

Lemma read_values_ok vs seen acc :
Forall value_fits vs → NoDup ((fold ∘ v_name) <$> vs) →
(∀ v, v ∈ vs → fold (v_name v) ∉ seen) →
FReads (read_values (length vs) seen acc) (flat_map put_value_rec vs)
  (list_to_set ((fold ∘ v_name) <$> vs) ∪ seen, acc ++ vs).
Proof.
intros Hf. revert seen acc. induction Hf as [|v vs (H1 & H2 & H3 & H4) Hf IH]; intros seen acc Hnd Hs.
{ cbn. rewrite app_nil_r, (left_id_L ∅ (∪)). apply FReads_ret. }
rewrite fmap_cons in Hnd. apply NoDup_cons in Hnd as [Hni Hnd].
cbn [length read_values flat_map]. unfold put_value_rec at 1. rewrite <- !app_assoc.
eapply FReads_bind; [by apply FReads_string|].
eapply FReads_bind; [by apply FReads_u32|].
assert (len (v_data v) < u32_max) by (change MAX_DATA with 1048576 in *; unfold u32_max; lia).
eapply FReads_bind; [by apply FReads_len|].
rewrite Z.gtb_ltb, (proj2 (Z.ltb_ge _ _)) by lia.
eapply FReads_bind; [apply FReads_take|].
rewrite bool_decide_false by (apply Hs; by left).
replace (acc ++ v :: vs) with ((acc ++ [mkValue (v_name v) (v_ty v) (v_data v)]) ++ vs)
  by (rewrite <- app_assoc; by destruct v).
rewrite fmap_cons, list_to_set_cons. change (compose _ _ v) with (fold (v_name v)).
replace ({[fold (v_name v)]} ∪ list_to_set ((fold ∘ v_name) <$> vs) ∪ seen)
  with (list_to_set ((fold ∘ v_name) <$> vs) ∪ ({[fold (v_name v)]} ∪ seen) : gset str) by set_solver.
apply IH; [done|]. intros x Hx. rewrite not_elem_of_union, not_elem_of_singleton. split.
- intros E. apply Hni. apply list_elem_of_fmap. by exists x.
- apply Hs. by right.
Qed.

Lemma read_vtombs_ok ts seen acc :
Forall (name_fits MAX_VALUE_NAME) ts → Forall (λ t, fold t = t) ts → NoDup ts →
(∀ t, t ∈ ts → t ∉ seen) →
FReads (read_vtombs (length ts) seen acc) (flat_map put_str ts) (acc ++ ts).
Proof.
intros Hf. revert seen acc. induction Hf as [|t ts [H1 H2] Hf IH]; intros seen acc Hfold Hnd Hs.
{ cbn. rewrite app_nil_r. apply FReads_ret. }
apply NoDup_cons in Hnd as [Hni Hnd]. apply Forall_cons in Hfold as [Ht Hfold].
cbn [length read_vtombs flat_map].
eapply FReads_bind; [by apply FReads_string|]. rewrite Ht.
destruct (str_eqb_spec t t) as [_|]; [|done]. cbn [negb].
rewrite bool_decide_false by (apply Hs; by left).
rewrite (cons_middle t acc ts). rewrite app_assoc. apply IH; [done|done|].
intros x Hx. rewrite not_elem_of_union, not_elem_of_singleton. split; [by intros ->|].
apply Hs. by right.
Qed.

(** Children of one state added to a child list. *)
Definition add_children (st : Child) (names : list str) (ch : gmap str (str * Child)) :=
foldl (λ ch name, <[fold name := (name, st)]> ch) ch names.

Lemma new_child_ok name st ch :
ch !! fold name = None → new_child name st ch = mret (<[fold name := (name, st)]> ch).
Proof. intros H. unfold new_child. rewrite bool_decide_false; [done|]. rewrite H. by intros [? ?]. Qed.

Lemma read_ctombs_ok names ch :
Forall (name_fits MAX_KEY_NAME) names → Forall key_ok names → NoDup (fold <$> names) →
(∀ s, s ∈ names → ch !! fold s = None) →
FReads (read_ctombs (length names) ch) (flat_map put_str names) (add_children Tombstone names ch).
Proof.
intros Hf. revert ch. induction Hf as [|s names [H1 H2] Hf IH]; intros ch Hk Hnd Hs; [done|].
rewrite fmap_cons in Hnd. apply NoDup_cons in Hnd as [Hni Hnd]. apply Forall_cons in Hk as [Hk1 Hk].
cbn [length read_ctombs flat_map].
eapply FReads_bind; [by apply FReads_key_name|]. rewrite new_child_ok by (apply Hs; by left).
eapply (FReads_bind _ _ []); [apply FReads_ret|]. apply IH; [done|done|].
intros x Hx. rewrite lookup_insert_ne; [apply Hs; by right|].
intros E. apply Hni. rewrite E. apply list_elem_of_fmap. by exists x.
Qed.

Lemma add_children_lookup st names ch f sp st' :
NoDup (fold <$> names) → (∀ s, s ∈ names → ch !! fold s = None) →
add_children st names ch !! f = Some (sp, st') ↔
  (sp ∈ names ∧ f = fold sp ∧ st' = st) ∨ ch !! f = Some (sp, st').
Proof.
revert ch. induction names as [|s names IH]; intros ch Hnd Hs.
{ cbn. rewrite elem_of_nil. naive_solver. }
rewrite fmap_cons in Hnd. apply NoDup_cons in Hnd as [Hni Hnd]. cbn [add_children foldl].
change (foldl _ _ names) with (add_children st names (<[fold s := (s, st)]> ch)).
rewrite IH; [|done|].
- rewrite elem_of_cons, lookup_insert_Some. split.
  + intros [?|[(<- & [= <- <-])|[? ?]]]; naive_solver.
  + intros [([->|Hx] & -> & ->)|H]; [naive_solver|naive_solver|].
    right. right. split; [|done]. intros <-. rewrite Hs in H by (by left). done.
- intros x Hx. rewrite lookup_insert_ne; [apply Hs; by right|].
  intros E. apply Hni. rewrite E. apply list_elem_of_fmap. by exists x.
Qed.
End items.

(** ** The nodes of a file *)

Section saved.
Context {CT : CaseTable}.

(** A node as it is saved: without its volatile children. *)
Definition kept_child (o : Overlay) (path : str) (c : str * (str * Child)) : Prop :=
match c.2.2 with
| Tombstone => True
| Present => match reg_node o (path ++ backslash :: c.2.1) with
             | Some n => volatile n = false
             | None => False
             end
end.
#[export] Instance kept_child_dec o path c : Decision (kept_child o path c).
Proof. unfold kept_child. repeat case_match; apply _. Defined.

Definition saved_node (o : Overlay) (path : str) (n : RegNode) : RegNode :=
mkRegNode (values n) (value_tombstones n) (filter (kept_child o path) (children n))
  (created n) false (last_write n).

Fixpoint saved (fuel : nat) (o : Overlay) (path : str) (n : RegNode) : list (str * RegNode) :=
match fuel with
| O => []
| S fuel =>
    (path, saved_node o path n) ::
    flat_map (λ '(_, p, n), saved fuel o p n) (enc_kids o path n)
end.

Lemma enc_kids_elem o path node name p n :
(name, p, n) ∈ enc_kids o path node ↔
∃ f, children node !! f = Some (name, Present) ∧ p = path ++ backslash :: name ∧
  reg_node o p = Some n ∧ volatile n = false.
Proof.
unfold enc_kids. rewrite list_elem_of_omap. split.
- intros ([f [sp st]] & Hin & E). apply bt_iter_elem in Hin. exists f.
  destruct st; [|done]. destruct (reg_node o _) as [n'|] eqn:En; [|done].
  destruct (volatile n') eqn:Ev; [done|]. by simplify_eq.
- intros (f & Hf & -> & Hn & Hv). exists (f, (name, Present)). rewrite bt_iter_elem, Hn, Hv. done.
Qed.

Lemma enc_tombs_elem n name :
name ∈ enc_tombs n ↔ ∃ f, children n !! f = Some (name, Tombstone).
Proof.
unfold enc_tombs. rewrite list_elem_of_omap. split.
- intros ([f [sp st]] & Hin & E). apply bt_iter_elem in Hin. exists f. destruct st; by simplify_eq.
- intros (f & Hf). exists (f, (name, Tombstone)). by rewrite bt_iter_elem.
Qed.

(** Picking elements keeps their keys distinct. *)
Lemma omap_NoDup {V B} (g : str * V → option B) (h : B → str) (m : gmap str V) :
(∀ f v y, m !! f = Some v → g (f, v) = Some y → h y = f) → NoDup (h <$> omap g (bt_iter m)).
Proof.
intros H. apply (sublist_NoDup _ (bt_iter m).*1); [apply bt_iter_nodup|].
assert (∀ l, l ⊆ bt_iter m → h <$> omap g l `sublist_of` l.*1) as Hl; [|by apply Hl].
induction l as [|[f v] l IH]; intros Hs; [done|].
assert (h <$> omap g l `sublist_of` l.*1) by (apply IH; set_solver). cbn.
destruct (g (f, v)) as [y|] eqn:E; [|by apply sublist_cons].
cbn. rewrite (H f v y); [by apply sublist_skip|apply bt_iter_elem; set_solver|done].
Qed.

Lemma omap_len {V B} (g : str * V → option B) (m : gmap str V) :
len (omap g (bt_iter m)) ≤ Z.of_nat (size m).
Proof.
rewrite <- length_map_to_list, <- (Permutation_length (bt_iter_perm m)).
unfold len. generalize (bt_iter m). intros l. induction l as [|x l IH]; [done|].
cbn. destruct (g x); cbn [length]; lia.
Qed.

Lemma kid_names_elem {A B C} (l : list (A * B * C)) s : s ∈ l.*1.*1 ↔ ∃ p m, (s, p, m) ∈ l.
Proof.
rewrite list_elem_of_fmap. split.
- intros ([s1 p] & -> & ([[s2 p2] m] & E & Hin)%list_elem_of_fmap). simplify_eq/=. eauto.
- intros (p & m & Hin). exists (s, p). split; [done|]. apply list_elem_of_fmap. by exists (s, p, m).
Qed.

(** The child list that comes back is the one saved. *)
Lemma children_back o path n :
(∀ f sp st, children n !! f = Some (sp, st) → f = fold sp) →
add_children Present (enc_kids o path n).*1.*1 (add_children Tombstone (enc_tombs n) ∅) =
  children (saved_node o path n) ∧
NoDup (fold <$> enc_tombs n) ∧ NoDup (fold <$> (enc_kids o path n).*1.*1) ∧
∀ s, s ∈ (enc_kids o path n).*1.*1 → add_children Tombstone (enc_tombs n) ∅ !! fold s = None.
Proof.
intros Hf.
assert (NoDup (fold <$> enc_tombs n)) as N1.
{ apply omap_NoDup. intros f [sp st] y Hl E. destruct st; simplify_eq. symmetry. by eapply Hf. }
assert (NoDup (fold <$> (enc_kids o path n).*1.*1)) as N2.
{ rewrite <- !list_fmap_compose. apply omap_NoDup. intros f [sp st] y Hl E.
  destruct st; [|done]. cbv zeta in E. repeat case_match; simplify_eq. symmetry. exact (Hf _ _ _ Hl). }
assert (∀ s, s ∈ (enc_kids o path n).*1.*1 →
  add_children Tombstone (enc_tombs n) ∅ !! fold s = None) as N3.
{ intros s (p & m & (f & Hl & _)%enc_kids_elem)%kid_names_elem. pose proof (Hf _ _ _ Hl) as ->.
  apply eq_None_not_Some. intros [[sp st] E]. apply add_children_lookup in E; [|done|done].
  destruct E as [((f' & Hf')%enc_tombs_elem & E & ->)|E]; [|by rewrite lookup_empty in E].
  pose proof (Hf _ _ _ Hf') as ->. rewrite E in Hl. congruence. }
split; [|done]. apply map_eq. intros f. apply option_eq. intros [sp st].
cbn [saved_node children]. rewrite add_children_lookup, add_children_lookup, lookup_empty
  by (done || (intros; apply lookup_empty)). rewrite map_lookup_filter_Some. split.
- intros [(Hin & -> & ->)|[((f' & Hl)%enc_tombs_elem & -> & ->)|?]]; [| |done].
  + apply kid_names_elem in Hin as (p & m & (f & Hl & -> & Hn & Hv)%enc_kids_elem).
    pose proof (Hf _ _ _ Hl) as ->. split; [done|]. unfold kept_child; cbn. by rewrite Hn.
  + pose proof (Hf _ _ _ Hl) as ->. done.
- intros [Hl Hk]. pose proof (Hf _ _ _ Hl) as ->. destruct st.
  + left. split; [|done]. unfold kept_child in Hk; cbn in Hk.
    destruct (reg_node o _) as [m|] eqn:Em; [|done].
    apply kid_names_elem. eexists _, m. apply enc_kids_elem. eauto.
  + right. left. split; [|done]. apply enc_tombs_elem. eauto.
Qed.
End saved.

(** ** Writing and reading one tree *)

Lemma mapM_reads {A B} (f : A → option B) (P : A → B → Prop) l :
  (∀ x, x ∈ l → ∃ b, f x = Some b ∧ P x b) → ∃ bs, mapM f l = Some bs ∧ Forall2 P l bs.
Proof.
  induction l as [|x l IH]; intros H; [by exists []|].
  destruct (H x ltac:(by left)) as (b & Hb & Pb).
  destruct IH as (bs & Hbs & HP); [intros y Hy; apply H; by right|].
  exists (b :: bs). cbn. rewrite Hb. cbn. rewrite Hbs. cbn. auto.
Qed.

Section node.
Context {CT : CaseTable} (o : Overlay) (HI : Inv o).

(** [path] is the stored path of an entry. *)
Definition entry_at (path : str) (e : Entry) : Prop :=
entries o !! fold path = Some e ∧ e_path e = path.

Lemma entry_child path e f sp st :
entry_at path e → children (e_node e) !! f = Some (sp, st) → key_ok sp ∧ f = fold sp.
Proof using HI.
intros [He Hp] Hc. destruct (si_child _ _ (inv_shape _ HI) (fold path) (e_path e)
  (children (e_node e)) f sp st) as (H1 & H2 & _); [apply shape_Some; eauto|done|done].
Qed.

(** A present child has an entry, stored under the spelling of its parent. *)
Lemma entry_kid path e f sp :
entry_at path e → children (e_node e) !! f = Some (sp, Present) →
∃ e', entry_at (path ++ backslash :: sp) e'.
Proof using HI.
intros [He Hp] Hc. pose proof (inv_shape _ HI) as HS.
destruct (si_child _ _ HS (fold path) (e_path e) (children (e_node e)) f sp Present)
  as ([_ Hbs] & -> & Hh); [apply shape_Some; eauto|done|].
cbn in Hh. apply shape_is_Some in Hh as [e' He']. exists e'. split; [by rewrite fold_snoc|].
destruct (inv_key _ _ _ HI He') as [_ E]. symmetry in E.
assert (fold path ≠ []) as Hne by (by eapply entries_nonempty).
assert (reg_parent (fold (e_path e')) = Some (fold path)) as Hrp
  by (rewrite E; apply reg_parent_snoc; [done|by rewrite fold_no_bs]).
rewrite reg_parent_fold in Hrp. destruct (reg_parent (e_path e')) as [q|] eqn:Hq; [|done].
cbn in Hrp. injection Hrp as Hrp. destruct (reg_parent_Some _ _ Hq) as (Ep & _ & Hlb).
destruct (si_parent _ _ HS (fold path ++ backslash :: fold sp) (e_path e')
  (children (e_node e')) q) as (qch & Hs & Hl); [apply shape_Some; eauto|done|].
rewrite Hrp in Hs. apply shape_Some in Hs as (e2 & He2 & <- & <-). simplify_eq.
assert (fold (reg_leaf (e_path e')) = fold sp) as El.
{ rewrite Ep, fold_snoc in E. apply snoc_inj in E as [_ ?]; rewrite ?fold_no_bs; done. }
rewrite El, Hc in Hl. injection Hl as Hl. by rewrite Hl.
Qed.

Lemma kid_entry path e name p n :
entry_at path e → (name, p, n) ∈ enc_kids o path (e_node e) →
p = path ++ backslash :: name ∧ key_ok name ∧
(∃ f, children (e_node e) !! f = Some (name, Present)) ∧ ∃ e', entry_at p e' ∧ e_node e' = n.
Proof using HI.
intros He (f & Hc & -> & Hn & Hv)%enc_kids_elem. destruct (entry_child _ _ _ _ _ He Hc) as [Hk _].
destruct (entry_kid _ _ _ _ He Hc) as [e' He']. split; [done|]. split; [done|].
split; [by exists f|]. exists e'. split; [done|]. destruct He' as [He' _]. unfold reg_node in Hn.
rewrite He' in Hn. by injection Hn as <-.
Qed.

(** Enough levels are left for the keys below [path]. *)
Definition fuel_ok (fuel : nat) (path : str) : Prop :=
∀ k e, entries o !! k = Some e → (length k < length (fold path) + fuel)%nat.

Lemma fuel_ok_kid fuel path name : fuel_ok (S fuel) path → fuel_ok fuel (path ++ backslash :: name).
Proof.
intros H k e Hk. specialize (H k e Hk). rewrite fold_snoc, length_app. cbn [length]. lia.
Qed.

Lemma fuel_ok_pos fuel path e : fuel_ok fuel path → entry_at path e → ∃ m, fuel = S m.
Proof. intros H [He _]. apply H in He. destruct fuel; [lia|eauto]. Qed.

Lemma encode_fuel_ok path : fuel_ok (encode_fuel o) path.
Proof.
intros k e Hk. unfold encode_fuel.
enough (length k ≤ map_fold (λ k _ n, Nat.max (length k) n) O (entries o))%nat by lia.
revert Hk. generalize (entries o). intros m. apply (map_fold_weak_ind (λ r m,
  m !! k = Some e → (length k ≤ r)%nat)); [by rewrite lookup_empty|].
intros i x m' r Hi IH. rewrite lookup_insert_Some. intros [[-> _]|[_ H]]; [lia|].
specialize (IH H). lia.
Qed.

Lemma encode_node_total fuel sp path e :
entry_at path e → fuel_ok fuel path → is_Some (encode_node fuel o sp path (e_node e)).
Proof using HI.
revert sp path e. induction fuel as [|fuel IH]; intros sp path e He Hf.
{ destruct (fuel_ok_pos _ _ _ Hf He). lia. }
cbn [encode_node].
assert (is_Some (mapM (λ '(name, p, n), encode_node fuel o name p n) (enc_kids o path (e_node e))))
  as [ks ->]; [|by eexists].
apply mapM_is_Some, Forall_forall. intros [[name p] n] Hin.
destruct (kid_entry _ _ _ _ _ He Hin) as (-> & _ & _ & e' & He' & <-).
apply IH; [done|]. by apply fuel_ok_kid.
Qed.

(** Reading the child nodes, given that each is read back. *)
Definition kid_reads (fuel : nat) (dec : str → list (str * RegNode) → FR (list (str * RegNode)))
  (path : str) (k : str * str * RegNode) (b : bytes) : Prop :=
let '(name, p, n) := k in
name_fits MAX_KEY_NAME name ∧ key_ok name ∧ p = path ++ backslash :: name ∧
∃ body, b = put_str name ++ body ∧ ∀ out, FReads (dec p out) body (out ++ saved fuel o p n).

Lemma read_kids_ok fuel dec path ks bs ch out :
Forall2 (kid_reads fuel dec path) ks bs → NoDup (fold <$> ks.*1.*1) →
(∀ s, s ∈ ks.*1.*1 → ch !! fold s = None) →
FReads (read_kids dec path (length ks) ch out) (concat bs)
  (add_children Present ks.*1.*1 ch, out ++ flat_map (λ '(_, p, n), saved fuel o p n) ks).
Proof.
intros HK. revert ch out. induction HK as [|[[name p] n] b ks bs Hk HK IH]; intros ch out Hnd Hs.
{ cbn. rewrite app_nil_r. apply FReads_ret. }
destruct Hk as ([F1 F2] & Hok & -> & body & -> & Hdec). rewrite !fmap_cons in Hnd.
apply NoDup_cons in Hnd as [Hni Hnd]. cbn [length read_kids concat flat_map fst]. rewrite <- app_assoc.
eapply FReads_bind; [by apply FReads_key_name|].
rewrite new_child_ok by (apply Hs; by left).
eapply (FReads_bind _ _ []); [apply FReads_ret|].
eapply FReads_bind; [apply Hdec|]. rewrite app_assoc. apply IH; [done|].
intros x Hx. rewrite lookup_insert_ne; [apply Hs; by right|].
intros E. apply Hni. cbn [fst]. rewrite E. apply list_elem_of_fmap. by exists x.
Qed.

Lemma kids_len fuel dec path ks bs :
Forall2 (kid_reads fuel dec path) ks bs → len ks ≤ len (concat bs).
Proof.
induction 1 as [|[[name p] n] b ks bs (_ & _ & _ & body & -> & _) HK IH]; [done|].
cbn [concat]. rewrite len_cons, !len_app. pose proof (put_str_len name).
pose proof (len_nonneg body). lia.
Qed.

Lemma check_depth_kid path name :
backslash ∉ name → len (split_on is_bs (path ++ backslash :: name)) = len (split_on is_bs path) + 1.
Proof.
intros Hn. induction path as [|c path IH].
- cbn. rewrite (split_on_piece is_bs name) by (by apply no_bs). done.
- cbn [app split_on]. destruct (is_bs c); [rewrite !len_cons; lia|].
  pose proof (split_on_nonempty is_bs path) as N1.
  pose proof (split_on_nonempty is_bs (path ++ backslash :: name)) as N2.
  destruct (split_on is_bs path), (split_on is_bs (path ++ _)); done.
Qed.

Context (HF : Fits o).

(** A node's record, given that its children are read back. *)
Lemma decode_record fuel df path e depth out bs :
entry_at path e → depth ≤ MAX_DECODE_DEPTH →
Forall2 (kid_reads fuel (λ p, decode_node df p (depth + 1)) path) (enc_kids o path (e_node e)) bs →
∃ body, (∀ sp, node_record o sp path (e_node e) ++ concat bs = put_str sp ++ body) ∧
FReads (decode_node (S df) path depth out) body
  (out ++ (path, saved_node o path (e_node e)) ::
     flat_map (λ '(_, p, n), saved fuel o p n) (enc_kids o path (e_node e))).
Proof using HI HF.
intros He Hd HK.
destruct (HF _ _ (proj1 He)) as ((Flw & (Fv1 & Fv2) & (Ft1 & Ft2) & Fc1 & Fc2) & _).
destruct (inv_vals _ HI _ _ (proj1 He)) as (V1 & V2 & V3 & V4).
destruct (children_back o path (e_node e)) as (Hch & N1 & N2 & N3).
{ intros f s st Hc. by eapply entry_child. }
eexists. split; [intros sp; unfold node_record; rewrite <- !app_assoc; reflexivity|].
cbn [decode_node]. rewrite Z.gtb_ltb, (proj2 (Z.ltb_ge _ _)) by lia.
eapply FReads_bind; [apply FReads_u8|].
assert (negb (Z.land (if created (e_node e) then FLAG_CREATED else 0) (255 - FLAG_CREATED) =? 0) = false)
  as -> by (by destruct (created (e_node e))).
eapply FReads_bind; [by apply FReads_u64|].
pose proof (flat_map_len put_value_rec (values (e_node e)) (λ x _, put_value_rec_len x)).
pose proof (flat_map_len put_str (value_tombstones (e_node e)) (λ x _, put_str_len x)).
pose proof (flat_map_len put_str (enc_tombs (e_node e)) (λ x _, put_str_len x)).
pose proof (kids_len _ _ _ _ _ HK). pose proof (len_nonneg (concat bs)).
pose proof (len_nonneg (flat_map put_str (enc_tombs (e_node e)))).
pose proof (len_nonneg (flat_map put_str (value_tombstones (e_node e)))).
pose proof (len_nonneg (flat_map put_value_rec (values (e_node e)))).
assert (len (enc_tombs (e_node e)) ≤ Z.of_nat (size (children (e_node e)))) by apply omap_len.
assert (len (enc_kids o path (e_node e)) ≤ Z.of_nat (size (children (e_node e)))) by apply omap_len.
do 4 (apply FReads_count; [lia|unfold put_count; rewrite !len_app, ?len_to_le; lia|]).
unfold len. rewrite !Nat2Z.id.
eapply FReads_bind; [apply read_values_ok; [done|done|set_solver]|]. cbn beta iota.
eapply FReads_bind.
{ apply read_vtombs_ok; [done|done|done|]. intros t Ht. rewrite elem_of_union, elem_of_list_to_set.
  intros [(v & -> & Hv)%list_elem_of_fmap|?%elem_of_empty]; [by apply (V4 v Hv)|done]. }
eapply FReads_bind.
{ apply read_ctombs_ok; [| |done|intros; apply lookup_empty]; apply Forall_forall;
    intros s (f & Hc)%enc_tombs_elem; [exact (Fc2 _ _ Hc)|exact (proj1 (entry_child _ _ _ _ _ He Hc))]. }
eapply FReads_bind_ret; [by apply (read_kids_ok fuel)|]. cbn beta iota.
rewrite <- app_assoc, alter_app_r_alt by done. rewrite Nat.sub_diag, Hch.
unfold saved_node. cbn. do 4 f_equal. by destruct (created (e_node e)).
Qed.

(** The bytes of a node after its name are read back as the nodes [saved]. *)
Lemma decode_encode_node fuel dfuel sp path e depth :
entry_at path e → fuel_ok fuel path →
depth = len (split_on is_bs path) - 2 → MAX_DECODE_DEPTH + 2 - depth ≤ Z.of_nat dfuel →
∃ body, encode_node fuel o sp path (e_node e) = Some (put_str sp ++ body) ∧
  ∀ out, FReads (decode_node dfuel path depth out) body (out ++ saved fuel o path (e_node e)).
Proof using HI HF.
revert dfuel sp path e depth.
induction fuel as [|fuel IH]; intros dfuel sp path e depth He Hfu Hd Hdf.
{ destruct (fuel_ok_pos _ _ _ Hfu He). lia. }
destruct (HF _ _ (proj1 He)) as ((_ & _ & _ & _ & Fc2) & Fd & _).
rewrite (proj2 He) in Fd. unfold check_depth in Fd. rewrite <- Hd in Fd.
destruct (depth >? MAX_DECODE_DEPTH) eqn:Edeep; [done|].
assert (∃ df, dfuel = S df ∧ MAX_DECODE_DEPTH + 2 - (depth + 1) ≤ Z.of_nat df) as (df & -> & Hdf')
  by (destruct dfuel; [lia|eexists; split; [done|lia]]).
destruct (mapM_reads (λ '(name, p, n), encode_node fuel o name p n)
  (kid_reads fuel (λ p, decode_node df p (depth + 1)) path) (enc_kids o path (e_node e)))
  as (bs & Hbs & HK).
{ intros [[name p] n] Hin.
  destruct (kid_entry _ _ _ _ _ He Hin) as (-> & Hok & (f & Hc) & e' & He' & <-).
  destruct (IH df name _ e' (depth + 1) He') as (body & -> & Hr).
  - by apply fuel_ok_kid.
  - rewrite check_depth_kid by apply Hok. lia.
  - done.
  - eexists. split; [done|]. split; [exact (Fc2 _ _ Hc)|]. eauto. }
destruct (decode_record fuel df path e depth [] bs He ltac:(lia) HK) as (body & Eb & _).
exists body. cbn [encode_node saved]. rewrite Hbs. cbn [mbind option_bind]. rewrite Eb.
split; [done|]. intros out.
destruct (decode_record fuel df path e depth out bs He ltac:(lia) HK) as (body' & Eb' & Hr).
specialize (Eb []). rewrite Eb' in Eb. by apply app_inv_head in Eb as ->.
Qed.
End node.

(** ** Which keys are saved *)

(** The key and every key above it is there and is not volatile. *)
Inductive Persisted (o : Overlay) : str → Prop :=
  persisted_key k e :
    entries o !! k = Some e → volatile (e_node e) = false →
    (∀ q, reg_parent k = Some q → Persisted o q) → Persisted o k.

Section which.
Context {CT : CaseTable} (o : Overlay) (HI : Inv o).

Lemma entry_at_of k e : entries o !! k = Some e → entry_at o (e_path e) e ∧ k = fold (e_path e).
Proof using HI. intros He. destruct (inv_key _ _ _ HI He) as [_ E]. by rewrite E in He. Qed.

Lemma entry_at_fun p e e' : entry_at o p e → entry_at o p e' → e = e'.
Proof. intros [H _] [H' _]. congruence. Qed.

Lemma saved_sound fuel path e p n :
entry_at o path e → Persisted o (fold path) → (p, n) ∈ saved fuel o path (e_node e) →
Persisted o (fold p) ∧ ∃ e', entry_at o p e' ∧ n = saved_node o p (e_node e').
Proof using HI.
revert path e. induction fuel as [|fuel IH]; intros path e He HP; cbn [saved].
{ by intros ?%elem_of_nil. }
intros [[= -> ->]|([[name p1] n1] & Hs & Hin)%list_elem_of_In%in_flat_map]%elem_of_cons; [eauto|].
apply list_elem_of_In in Hs, Hin.
destruct (kid_entry _ HI _ _ _ _ _ He Hs) as (-> & [_ Hbs] & _ & e1 & He1 & <-).
apply (IH _ e1 He1); [|done]. apply enc_kids_elem in Hs as (_ & _ & _ & _ & Hv).
apply (persisted_key _ _ e1); [apply He1|done|]. rewrite fold_snoc.
rewrite reg_parent_snoc; [by intros q [= <-]| |by rewrite fold_no_bs].
eapply entries_nonempty; [done|apply He].
Qed.

Lemma saved_head fuel path e :
entry_at o path e → fuel_ok o fuel path → (path, saved_node o path (e_node e)) ∈ saved fuel o path (e_node e).
Proof. intros He Hf. destruct (fuel_ok_pos _ _ _ _ Hf He) as [m ->]. by left. Qed.

Lemma saved_closed fuel path e p n ep name p2 n2 :
entry_at o path e → fuel_ok o fuel path → (p, n) ∈ saved fuel o path (e_node e) →
entry_at o p ep → (name, p2, n2) ∈ enc_kids o p (e_node ep) →
(p2, saved_node o p2 n2) ∈ saved fuel o path (e_node e).
Proof using HI.
intros He Hf Hin Hp Hk. revert path e He Hf Hin.
induction fuel as [|fuel IH]; intros path e He Hf; cbn [saved]; [by intros ?%elem_of_nil|].
intros Hin. right. apply list_elem_of_In, in_flat_map.
apply elem_of_cons in Hin as [[= -> ->]|([[nm p1] n1] & Hs & Hin)%list_elem_of_In%in_flat_map].
- exists (name, p2, n2). pose proof (entry_at_fun _ _ _ He Hp) as ->.
  split; [by apply list_elem_of_In|]. apply list_elem_of_In.
  destruct (kid_entry _ HI _ _ _ _ _ Hp Hk) as (-> & _ & _ & e' & He' & <-).
  apply saved_head; [done|]. by apply fuel_ok_kid.
- exists (nm, p1, n1). split; [done|]. apply list_elem_of_In in Hs, Hin. apply list_elem_of_In.
  destruct (kid_entry _ HI _ _ _ _ _ He Hs) as (-> & _ & _ & e' & He' & <-).
  apply (IH _ _ He'); [|done]. by apply fuel_ok_kid.
Qed.

(** A key without a parent is the root. *)
Lemma root_key k e : entries o !! k = Some e → reg_parent k = None → k = backslash :: lit "registry".
Proof using HI.
intros He Hr. destruct (inv_key _ _ _ HI He) as [Hv ->].
apply valid_path_kp in Hv as (cs & Ep & Hok & r & rest & Ec & Er). rewrite Ep in *.
destruct cs as [|x cs' _] using rev_ind; [done|]. apply Forall_app in Hok as [_ [[_ Hx] _]%Forall_cons].
destruct cs' as [|y cs'].
- injection Ec as -> <-. unfold kp. cbn [app flat_map].
  by rewrite app_nil_r, fold_cons, lower_fixed, Er by auto with vfs.
- rewrite reg_parent_fold, reg_parent_kp in Hr by done. done.
Qed.

Lemma saved_complete fuel path e k :
entry_at o path e → fold path = backslash :: lit "registry" → fuel_ok o fuel path → Persisted o k →
∀ ek, entries o !! k = Some ek → (e_path ek, saved_node o (e_path ek) (e_node ek)) ∈ saved fuel o path (e_node e).
Proof using HI.
intros He Hroot Hf. induction 1 as [k ek Hk Hv _ IH]. intros ek2 Hk2.
assert (ek2 = ek) as -> by congruence. clear Hk2.
destruct (entry_at_of _ _ Hk) as [Hat ->].
destruct (reg_parent (e_path ek)) as [q|] eqn:Hq.
- destruct (reg_parent_Some _ _ Hq) as (Ep & _ & _).
  destruct (si_parent _ _ (inv_shape _ HI) (fold (e_path ek)) (e_path ek) (children (e_node ek)) q)
    as (qch & Hs & Hl); [apply shape_Some; eauto|done|].
  apply shape_Some in Hs as (eq & Heq & Epq & Eq).
  apply (saved_closed fuel path e q (saved_node o q (e_node eq)) eq (reg_leaf (e_path ek))); [done|done| |done|].
  + rewrite <- Epq. apply (IH (fold q)); [by rewrite reg_parent_fold, Hq|done].
  + apply enc_kids_elem. exists (fold (reg_leaf (e_path ek))). rewrite Eq. split; [done|].
    split; [done|]. split; [|done]. unfold reg_node. by rewrite Hk.
- assert (fold (e_path ek) = fold path) as E.
  { rewrite Hroot. apply (root_key _ ek Hk). by rewrite reg_parent_fold, Hq. }
  rewrite E in Hk. destruct He as [He1 He2]. rewrite He1 in Hk. injection Hk as <-. rewrite He2.
  by apply saved_head.
Qed.
End which.
