(* ===== verification/RegLoad.v ===== *)
(** RegLoad: loading a saved registry overlay.

    What inserting the decoded nodes into an empty overlay gives, the round
    trip of a save and a load, and what a damaged file does. *)

From S2P Require Import Prelude Text Path RegTypes RegPath RegOverlay RegInv RegOps RegMachine Wire RegFormat.
From S2P Require Import RegPersist.

(** ** Inserting nodes *)

Section insert.
Context {CT : CaseTable}.

Abbreviation Nodes := (list (str * RegNode)).

(** [k] is a tombstoned child of the node [n] at [p]. *)
Definition tomb_of (p : str) (n : RegNode) (k : str) : Prop :=
∃ f sp, children n !! f = Some (sp, Tombstone) ∧ k = fold p ++ backslash :: f.

Lemma tomb_frame k v o :
entries (tomb k v o) = entries o ∧ version (tomb k v o) = version o ∧
tombs (tomb k v o) = <[k := v]> (tombs o).
Proof. unfold tomb. by case_match. Qed.

Lemma tomb_loop f v (cs : list (str * (str * Child))) o :
let o' := foldl (λ o '(cf, (_, st)),
            if bool_decide (st = Tombstone) then tomb (f ++ backslash :: cf) v o else o) o cs in
entries o' = entries o ∧ version o' = version o ∧
∀ k, is_Some (tombs o' !! k) ↔
  is_Some (tombs o !! k) ∨ ∃ cf sp, (cf, (sp, Tombstone)) ∈ cs ∧ k = f ++ backslash :: cf.
Proof.
revert o. induction cs as [|[cf [sp st]] cs IH]; intros o; cbn [foldl].
{ split; [done|]. split; [done|]. intros k. split; [by left|]. intros [?|(? & ? & ?%elem_of_nil & _)]; done. }
destruct (IH (if bool_decide (st = Tombstone) then tomb (f ++ backslash :: cf) v o else o))
  as (E1 & E2 & E3). rewrite E1, E2. case_bool_decide as Hst.
- destruct (tomb_frame (f ++ backslash :: cf) v o) as (T1 & T2 & T3). rewrite T1, T2.
  split; [done|]. split; [done|]. intros k. rewrite E3, T3, lookup_insert_is_Some.
  split.
  + intros [[<-|[_ ?]]|(c & s & Hin & ->)]; [right|by left|right; exists c, s; split; [by right|done]].
    exists cf, sp. subst st. split; [by left|done].
  + intros [H|(c & s & [[= -> -> ->]|Hin]%elem_of_cons & ->)]; [|left; by left|right; eauto].
    left. destruct (decide (f ++ backslash :: cf = k)); auto.
- split; [done|]. split; [done|]. intros k. rewrite E3. split.
  + intros [?|(c & s & Hin & ->)]; [by left|right; exists c, s; split; [by right|done]].
  + intros [?|(c & s & [Ec|Hin]%elem_of_cons & ->)]; [by left|congruence|right; eauto].
Qed.

Lemma insert_node_ok p n v o :
valid_path p = true → check_depth p MAX_DECODE_DEPTH = Ok () →
∃ o', insert_node p n v o = (Ok (), o') ∧ version o' = version o ∧
  entries o' = <[fold p := mkEntry p n v v]> (entries o) ∧
  ∀ k, is_Some (tombs o' !! k) ↔ k ≠ fold p ∧ (is_Some (tombs o !! k) ∨ tomb_of p n k).
Proof.
intros Hv Hd. unfold insert_node. rewrite Hv, Hd. cbn [negb].
destruct (tomb_loop (fold p) v (bt_iter (children n)) o) as (E1 & E2 & E3).
eexists. split; [done|]. cbn. rewrite E1, E2. split; [done|]. split; [done|].
intros k. rewrite lookup_delete_is_Some, E3. unfold tomb_of.
setoid_rewrite bt_iter_elem. split; intros [? ?]; split; congruence || done.
Qed.

(** The nodes agree where they have the same key. *)
Definition consistent (l : Nodes) : Prop :=
∀ p n p' n', (p, n) ∈ l → (p', n') ∈ l → fold p = fold p' → p = p' ∧ n = n'.

Definition listed (l : Nodes) (k : str) : Prop := ∃ p n, (p, n) ∈ l ∧ k = fold p.

#[export] Instance listed_dec l k : Decision (listed l k).
Proof.
destruct (decide (Exists (λ pn, k = fold pn.1) l)) as [H|H]; [left|right].
- by apply Exists_exists in H as ([p n] & Hin & E); exists p, n.
- intros (p & n & Hin & E). apply H, Exists_exists. by exists (p, n).
Defined.

Lemma insert_all_spec l o :
Forall (λ pn, valid_path pn.1 = true ∧ check_depth pn.1 MAX_DECODE_DEPTH = Ok ()) l → consistent l →
∃ o', insert_all l o = Ok o' ∧ version o' = version o ∧
  (∀ p n, (p, n) ∈ l → entries o' !! fold p = Some (mkEntry p n 1 1)) ∧
  (∀ k, ¬ listed l k → entries o' !! k = entries o !! k) ∧
  (∀ k, is_Some (tombs o' !! k) → is_Some (tombs o !! k) ∨ ∃ p n, (p, n) ∈ l ∧ tomb_of p n k) ∧
  (∀ k, ¬ listed l k → is_Some (tombs o !! k) ∨ (∃ p n, (p, n) ∈ l ∧ tomb_of p n k) → is_Some (tombs o' !! k)).
Proof.
intros Hl. revert o. induction Hl as [|[p n] l [Hv Hd] Hl IH]; intros o Hc.
{ exists o. split; [done|]. split; [done|]. repeat split.
  - by intros p n ?%elem_of_nil.
  - by left.
  - intros k _ [?|(? & ? & ?%elem_of_nil & _)]; done. }
destruct (insert_node_ok p n 1 o Hv Hd) as (o1 & E1 & V1 & N1 & T1).
destruct (IH o1) as (o' & E & V & HN & HO & HT1 & HT2).
{ intros a b c d Ha Hb. apply Hc; by right. }
exists o'. cbn [insert_all]. rewrite E1. split; [done|]. split; [congruence|]. repeat split.
- intros q m [[= -> ->]|Hin]%elem_of_cons; [|by apply HN].
  destruct (decide (Exists (λ pn, fold pn.1 = fold p) l)) as [([q m] & Hin & Eq)%Exists_exists|Hno].
  + destruct (Hc p n q m) as [-> ->]; [by left|by right|done|]. by apply HN.
  + rewrite HO, N1, lookup_insert_eq; [done|]. intros (q & m & Hin & Eq). apply Hno, Exists_exists.
    by exists (q, m).
- intros k Hk. rewrite HO, N1, lookup_insert_ne; [done| |].
  + intros <-. apply Hk. exists p, n. split; [by left|done].
  + intros (q & m & Hin & ->). apply Hk. exists q, m. split; [by right|done].
- intros k [Hk|(q & m & Hin & Ht)]%HT1.
  + apply T1 in Hk as [_ [?|?]]; [by left|right]. exists p, n. split; [by left|done].
  + right. exists q, m. split; [by right|done].
- intros k Hk Hor. apply HT2.
  + intros (q & m & Hin & ->). apply Hk. exists q, m. split; [by right|done].
  + assert (k ≠ fold p) as Hne by (intros ->; apply Hk; exists p, n; split; [by left|done]).
    destruct Hor as [H|(q & m & [[= -> ->]|Hin]%elem_of_cons & Ht)].
    * left. apply T1. auto.
    * left. apply T1. auto.
    * right. eauto.
Qed.
End insert.

(** ** The checksum of a file *)

Lemma checksum_range b : in_u64 (checksum b).
Proof.
  unfold checksum. generalize (chunks 8 b). intros l.
  assert (∀ z, in_u64 z → in_u64 (foldl (λ sum c, as_u64 (sum + chunk_word c)) z l)) as H;
    [|by apply H].
  induction l as [|c l IH]; intros z Hz; [done|]. cbn [foldl]. apply IH. unfold_width. dlia.
Qed.

(** What the decoder does with a sealed body. *)
Lemma decode_sealed `{CaseTable} x :
  1 ≤ len x →
  decode ((REG_MAGIC ++ x) ++ to_le 8 (checksum (REG_MAGIC ++ x))) =
  match decode_tree x with
  | Err e => Err e
  | Ok (nodes, rest) =>
      if negb (bool_decide (rest = [])) then Err (Invalid (lit "trailing bytes")) else
      o ← insert_all nodes overlay_new; Ok (set_version 1 o)
  end.
Proof.
  intros Hx. unfold decode. change (len REG_MAGIC) with 8.
  assert (len ((REG_MAGIC ++ x) ++ to_le 8 (checksum (REG_MAGIC ++ x))) = 8 + len x + 8) as El
    by (rewrite !len_app, len_to_le; done). rewrite El.
  rewrite !(proj2 (Z.ltb_ge _ _)) by lia.
  replace (8 + len x + 8 - 8) with (len (REG_MAGIC ++ x)) by (rewrite len_app; change (len REG_MAGIC) with 8; lia).
  rewrite split_at_app. rewrite from_to_le_small by apply checksum_range. rewrite Z.eqb_refl.
  done.
Qed.

(** ** Saving *)

Section save.
Context {CT : CaseTable} (o : Overlay) (HI : Inv o).

Lemma root_is_entry k e : entries o !! k = Some e → ∃ er, entries o !! (backslash :: lit "registry") = Some er.
Proof using HI.
intros He. remember (length k) as m eqn:Hm. revert k e He Hm.
induction (lt_wf m) as [m _ IH]. intros k e He ->.
destruct (reg_parent k) as [q|] eqn:Hq; [|rewrite <- (root_key o HI k e He Hq); eauto].
destruct (reg_parent_Some _ _ Hq) as (Ek & Hne & Hbs).
destruct (si_closed (inv_shape _ HI) q k Hne) as [y Hy]; [by apply shape_is_Some; eexists|by eexists|].
destruct (proj1 (shape_is_Some o q) ltac:(by eexists)) as [eq Heq].
apply (IH (length q)) with q eq; [|done|done]. rewrite Ek, length_app. cbn [length]. lia.
Qed.

(** The first key of a walk is the root. *)
Lemma walk_root p n rest :
reg_walk o = (p, n) :: rest → ∃ e r, entry_at o p e ∧ n = e_node e ∧
  p = backslash :: r ∧ key_ok r ∧ fold r = lit "registry".
Proof using HI.
unfold reg_walk. destruct (bt_iter (entries o)) as [|[k e] l] eqn:El; [done|].
intros [= <- <- _]. pose proof (bt_iter_sorted (entries o)) as Hs. rewrite El in Hs.
assert (entries o !! k = Some e) as He by (apply bt_iter_elem; rewrite El; by left).
destruct (root_is_entry k e He) as [er Her]. destruct (inv_key _ _ _ HI He) as [Hv Hk].
assert (k = backslash :: lit "registry") as Ek.
{ apply (anti_symm str_le).
  - apply bt_iter_elem in Her. rewrite El in Her. apply elem_of_cons in Her as [[= <- _]|Hin].
    + by destruct (total str_le (backslash :: lit "registry") (backslash :: lit "registry")).
    + inversion_clear Hs as [|? ? _ Hall]. exact (proj1 (Forall_forall _ _) Hall _ Hin).
  - rewrite Hk. apply valid_path_kp in Hv as (cs & -> & Hok & r & cs' & -> & Er).
    rewrite fold_kp. cbn [fmap list_fmap]. rewrite Er. apply str_le_app. }
exists e. apply valid_path_kp in Hv as (cs & Ep & Hok & r & cs' & -> & Er). exists r.
split; [split; [congruence|done]|]. split; [done|].
assert (cs' = []) as ->.
{ rewrite Ek, Ep, fold_kp in Hk. cbn [fmap list_fmap] in Hk. rewrite Er in Hk.
  change (kp (lit "registry" :: (fold <$> cs'))) with ((backslash :: lit "registry") ++ kp (fold <$> cs')) in Hk.
  rewrite <- (app_nil_r (backslash :: lit "registry")) in Hk at 1.
  apply app_inv_head in Hk. symmetry in Hk. apply kp_nil_inv in Hk. by apply fmap_nil_inv in Hk. }
rewrite Ep. apply Forall_cons in Hok as [Hr _]. split; [|done]. unfold kp. cbn. by rewrite app_nil_r.
Qed.

Lemma one_backslash r : key_ok r → length (filter (λ c, c = backslash) (backslash :: r)) = 1%nat.
Proof.
intros [_ Hbs]. rewrite filter_cons_True by done. cbn [length]. f_equal. apply length_zero_iff_nil.
destruct (filter _ r) as [|c l] eqn:E; [done|].
assert (c ∈ filter (λ c, c = backslash) r) as [-> ?]%list_elem_of_filter by (rewrite E; by left). done.
Qed.

(** The body of a file: nothing, or the tree under the root. *)
Lemma encode_body_cases :
(encode_body o = Some (REG_MAGIC ++ [0]) ∧ ∀ k, ¬ Persisted o k) ∨
∃ e r, entry_at o (backslash :: r) e ∧ key_ok r ∧ fold r = lit "registry" ∧ Persisted o (fold (backslash :: r)) ∧
  encode_body o = (b ← encode_node (encode_fuel o) o r (backslash :: r) (e_node e); Some (REG_MAGIC ++ 1 :: b)).
Proof using HI.
unfold encode_body. destruct (reg_walk o) as [|[p n] rest] eqn:Ew.
{ left. split; [done|]. intros k [k' e He _ _].
  assert ((e_path e, e_node e) ∈ reg_walk o) as Hin; [|by rewrite Ew in Hin; apply elem_of_nil in Hin].
  apply list_elem_of_fmap. exists (k', e). split; [done|]. by apply bt_iter_elem. }
destruct (walk_root _ _ _ Ew) as (e & r & Hat & -> & -> & Hr & Er).
rewrite (one_backslash r Hr). change ((1 =? 1)%nat) with true. rewrite andb_true_r.
assert (fold (backslash :: r) = backslash :: lit "registry") as Ef
  by (rewrite fold_cons, lower_fixed, Er by auto with vfs; done).
destruct (volatile (e_node e)) eqn:Hv; cbn [negb].
- left. split; [done|]. intros k Hk. destruct Hat as [He _]. rewrite Ef in He.
  induction Hk as [k ek Hk Hv' _ IH].
  destruct (reg_parent k) as [q|] eqn:Hq; [by apply (IH q)|].
  rewrite (root_key o HI k ek Hk Hq), He in Hk. congruence.
- right. exists e, r. split; [done|]. split; [done|]. split; [done|].
  split; [|assert (skip_bytes 1 (backslash :: r) = Some r) as -> by (by destruct r); done].
  apply (persisted_key _ _ e); [apply Hat|done|]. rewrite Ef. by intros q [=].
Qed.

(** The overlay that a save and a load give: the persisted keys with their
  saved nodes, and the tombstones below persisted keys. *)
Definition Reloaded (o' : Overlay) : Prop :=
(∀ k e', entries o' !! k = Some e' ↔ ∃ e, entries o !! k = Some e ∧ Persisted o k ∧
   e' = mkEntry (e_path e) (saved_node o (e_path e) (e_node e)) 1 1) ∧
(∀ k, is_Some (tombs o' !! k) ↔ is_Some (tombs o !! k) ∧ ∃ q, reg_parent k = Some q ∧ Persisted o q).

(** A file body holds exactly the persisted nodes. *)
Lemma saved_file : Fits o →
∃ x l, encode_body o = Some (REG_MAGIC ++ x) ∧ 1 ≤ len x ∧ decode_tree x = Ok (l, []) ∧
∀ p n, (p, n) ∈ l ↔ ∃ e, entry_at o p e ∧ Persisted o (fold p) ∧ n = saved_node o p (e_node e).
Proof using HI.
intros HF. destruct encode_body_cases as [[E Hno]|(e & r & Hat & Hr & Er & HP & E)].
- exists [0], []. split; [done|]. split; [done|]. split; [done|]. intros p n. split; [by intros ?%elem_of_nil|].
  intros (e & _ & HP & _). by apply Hno in HP.
- destruct (HF _ _ (proj1 Hat)) as (_ & _ & Hnm). rewrite (proj2 Hat) in Hnm.
  assert (split_on is_bs (backslash :: r) = [[]; r]) as Esp.
  { pose proof (split_kp_nil [r]) as Hs. unfold kp in Hs. cbn [flat_map] in Hs. rewrite app_nil_r in Hs.
    apply Hs; [done|]. constructor; [apply Hr|done]. }
  rewrite Esp in Hnm. apply Forall_cons in Hnm as [[N1 N2] _].
  destruct (decode_encode_node o HI HF (encode_fuel o) decode_fuel r (backslash :: r) e 0 Hat)
    as (body & Eb & Hrd); [apply encode_fuel_ok|by rewrite Esp|done|].
  rewrite E, Eb. cbn [mbind option_bind].
  exists (1 :: put_str r ++ body), (saved (encode_fuel o) o (backslash :: r) (e_node e)).
  split; [done|]. split; [rewrite len_cons; pose proof (len_nonneg (put_str r ++ body)); lia|]. split.
  + assert (FReads decode_tree (1 :: put_str r ++ body) (saved (encode_fuel o) o (backslash :: r) (e_node e))) as H.
    { change (1 :: put_str r ++ body) with ([1] ++ put_str r ++ body).
      eapply FReads_bind; [apply FReads_u8|]. cbn [Z.eqb].
      eapply FReads_bind; [by apply FReads_key_name|]. rewrite Er. apply Hrd. }
    specialize (H []). by rewrite app_nil_r in H.
  + intros p n. split.
    * intros Hin. destruct (saved_sound o HI _ _ _ _ _ Hat HP Hin) as (Hp & e' & He' & ->). eauto.
    * intros (e' & He' & Hp & ->). destruct He' as [He' Ep]. rewrite <- Ep at 1 2.
      apply (saved_complete o HI _ _ _ (fold p)); [done| |apply encode_fuel_ok|done|done].
      rewrite fold_cons, lower_fixed, Er by auto with vfs. done.
Qed.

Lemma tomb_of_saved p e k :
entry_at o p e → tomb_of p (saved_node o p (e_node e)) k →
is_Some (tombs o !! k) ∧ reg_parent k = Some (fold p).
Proof using HI.
intros [He Ep] (f & sp & [Hc _]%map_lookup_filter_Some & ->).
destruct (si_child _ _ (inv_shape _ HI) (fold p) (e_path e) (children (e_node e)) f sp Tombstone)
  as ([_ Hbs] & -> & Ht); [apply shape_Some; eauto|done|]. split; [unfold child_holds, tombset in Ht; by apply elem_of_dom in Ht|].
apply reg_parent_snoc; [by eapply entries_nonempty|by rewrite fold_no_bs].
Qed.

Lemma tomb_saved k q :
is_Some (tombs o !! k) → reg_parent k = Some q →
entries o !! k = None ∧ ∀ e, entries o !! q = Some e → tomb_of (e_path e) (saved_node o (e_path e) (e_node e)) k.
Proof using HI.
intros Hk Hq. destruct (si_tomb _ _ (inv_shape _ HI) k) as (Hn & pk & p & ch & sp & Hs & -> & Hc).
{ by apply elem_of_dom. }
split; [by apply shape_None|]. apply shape_Some in Hs as (e' & He' & <- & <-).
destruct (si_child _ _ (inv_shape _ HI) pk (e_path e') (children (e_node e')) (fold sp) sp Tombstone)
  as ([_ Hbs] & _ & _); [apply shape_Some; eauto|done|].
rewrite reg_parent_snoc in Hq; [|by eapply entries_nonempty|by rewrite fold_no_bs].
injection Hq as <-. intros e He. rewrite He in He'. injection He' as <-. exists (fold sp), sp.
destruct (inv_key _ _ _ HI He) as [_ <-]. split; [|done]. by apply map_lookup_filter_Some.
Qed.

(** Inserting the persisted nodes gives the reloaded overlay. *)
Lemma inserted_reloaded l o' :
(∀ p n, (p, n) ∈ l ↔ ∃ e, entry_at o p e ∧ Persisted o (fold p) ∧ n = saved_node o p (e_node e)) →
(∀ p n, (p, n) ∈ l → entries o' !! fold p = Some (mkEntry p n 1 1)) →
(∀ k, ¬ listed l k → entries o' !! k = None) →
(∀ k, is_Some (tombs o' !! k) → ∃ p n, (p, n) ∈ l ∧ tomb_of p n k) →
(∀ k, ¬ listed l k → (∃ p n, (p, n) ∈ l ∧ tomb_of p n k) → is_Some (tombs o' !! k)) →
Reloaded o'.
Proof using HI.
intros Hl N1 N2 T1 T2.
assert (∀ k e, Persisted o k → entries o !! k = Some e →
  k = fold (e_path e) ∧ (e_path e, saved_node o (e_path e) (e_node e)) ∈ l) as HP.
{ intros k e Hk He. destruct (entry_at_of o HI _ _ He) as [Hat Ek]. split; [done|].
  apply Hl. exists e. by rewrite <- Ek. }
split.
- intros k e'. split.
  + intros He'. destruct (decide (listed l k)) as [(p & n & Hin & ->)|Hk]; [|by rewrite N2 in He'].
    rewrite (N1 _ _ Hin) in He'. injection He' as <-. apply Hl in Hin as (e & [He Ep] & Hp & ->).
    exists e. by rewrite Ep.
  + intros (e & He & Hk & ->). destruct (HP k e Hk He) as [-> Hin]. by apply N1.
- intros k. split.
  + intros (p & n & (e & Hat & Hp & ->)%Hl & Ht)%T1. destruct (tomb_of_saved p e k Hat Ht). eauto.
  + intros [Ht (q & Hq & Hp)]. destruct (tomb_saved k q Ht Hq) as [Hn Hk]. apply T2.
    * intros (p & n & (e & [He _] & _)%Hl & ->). congruence.
    * assert (∃ e, entries o !! q = Some e) as [e He] by (destruct Hp; eauto).
      destruct (HP q e Hp He) as [_ Hin]. eauto.
Qed.

Lemma load_reloaded : Fits o →
∃ b o', encode o = Some b ∧ decode b = Ok o' ∧ version o' = 1 ∧ Reloaded o'.
Proof using HI.
intros HF. destruct (saved_file HF) as (x & l & E & Hx & Hd & Hl).
unfold encode. rewrite E. cbn [mbind option_bind]. eexists _.
destruct (insert_all_spec l overlay_new) as (o' & Ei & Vi & N1 & N2 & T1 & T2).
- apply Forall_forall. intros [p n] (e & [He <-] & _)%Hl. split; [apply (inv_key _ _ _ HI He)|].
  apply (HF _ _ He).
- intros p n p' n' (e & [He Ep] & _ & ->)%Hl (e2 & [He2 Ep2] & _ & ->)%Hl Ef.
  rewrite Ef, He2 in He. injection He as ->. by rewrite <- Ep, <- Ep2.
- eexists (set_version 1 o'). split; [done|]. rewrite decode_sealed, Hd by done.
  rewrite bool_decide_true by done. cbn [negb]. rewrite Ei. split; [done|]. split; [done|].
  apply (inserted_reloaded l); cbn [set_version entries tombs]; [done|done| | |].
  + intros k Hk. rewrite N2 by done. apply lookup_empty.
  + intros k [H|?]%T1; [|done]. cbn in H. rewrite lookup_empty in H. by destruct H.
  + intros k Hk Ht. apply T2; [done|by right].
Qed.

(** A saved child list mentions only what is saved. *)
Lemma reloaded_Inv o' : Reloaded o' → Inv o'.
Proof using HI.
intros [RE RT]. pose proof (inv_shape _ HI) as HS.
assert (∀ k p ch, shape o' !! k = Some (p, ch) ↔ ∃ e, entries o !! k = Some e ∧ Persisted o k ∧
  p = e_path e ∧ ch = children (saved_node o (e_path e) (e_node e))) as SE.
{ intros k p ch. rewrite shape_Some. setoid_rewrite RE. naive_solver. }
assert (∀ k e f sp, entries o !! k = Some e → Persisted o k →
  children (e_node e) !! f = Some (sp, Present) → kept_child o (e_path e) (f, (sp, Present)) →
  f = fold sp ∧ is_Some (shape o' !! (k ++ backslash :: f))) as HK.
{ intros k e f sp He Hk Hc Hkept. destruct (entry_at_of o HI _ _ He) as [Hat Ek].
  destruct (entry_kid o HI _ _ _ _ Hat Hc) as [e2 [He2 _]].
  destruct (entry_child o HI _ _ _ _ _ Hat Hc) as [[_ Hbs] ->]. split; [done|].
  unfold kept_child in Hkept; cbn [fst snd] in Hkept. unfold reg_node in Hkept. rewrite He2 in Hkept.
  cbn in Hkept. rewrite fold_snoc in He2. rewrite <- Ek in He2.
  eexists (_, _). apply SE. exists e2. split; [done|]. split; [|done].
  apply (persisted_key _ _ e2); [done|done|].
  rewrite reg_parent_snoc; [by intros q [= <-]|by eapply entries_nonempty|by rewrite fold_no_bs]. }
split; [split| |].
- intros k p ch (e & He & _ & -> & _)%SE. by eapply inv_key.
- intros k p ch q (e & He & HP & -> & _)%SE Hq. destruct (entry_at_of o HI _ _ He) as [_ ->].
  destruct (si_parent _ _ HS (fold (e_path e)) (e_path e) (children (e_node e)) q) as (qch & Hs & Hl);
    [apply shape_Some; eauto|done|]. apply shape_Some in Hs as (eq & Heq & Epq & <-).
  exists (children (saved_node o (e_path eq) (e_node eq))). split.
  + apply SE. exists eq. split; [done|]. split; [|by rewrite Epq].
    inversion HP as [k' e' _ _ Hup]. apply Hup. by rewrite reg_parent_fold, Hq.
  + apply map_lookup_filter_Some. split; [done|]. unfold kept_child; cbn [fst snd]. rewrite Epq.
    destruct (reg_parent_Some _ _ Hq) as (<- & _). unfold reg_node. rewrite He.
    inversion HP as [k' e' He' Hv _]. simplify_eq/=. done.
- intros k p ch f sp st (e & He & HP & -> & ->)%SE [Hc Hkept]%map_lookup_filter_Some.
  destruct (entry_at_of o HI _ _ He) as [Hat Ek].
  destruct (entry_child o HI _ _ _ _ _ Hat Hc) as [Hok ->]. split; [done|]. split; [done|].
  destruct st; [by eapply HK|]. apply elem_of_dom, RT. rewrite Ek.
  destruct (tomb_of_saved (e_path e) e (fold (e_path e) ++ backslash :: fold sp) Hat) as [H1 H2].
  { exists (fold sp), sp. split; [|done]. by apply map_lookup_filter_Some. }
  split; [done|]. eexists. split; [done|]. by rewrite <- Ek.
- intros k Hin. unfold tombset in Hin. apply elem_of_dom, RT in Hin as [Ht (q & Hq & HP)].
  destruct (tomb_saved k q Ht Hq) as [Hn Hk]. split.
  + destruct (shape o' !! k) as [[p ch]|] eqn:E; [|done]. apply SE in E as (e & He & _). congruence.
  + assert (∃ e, entries o !! q = Some e) as [e He] by (destruct HP; eauto).
    destruct (Hk e He) as (f & sp & Hc & ->). destruct (entry_at_of o HI _ _ He) as [Hat Eq].
    pose proof Hc as [Hc' _]%map_lookup_filter_Some.
    destruct (entry_child o HI _ _ _ _ _ Hat Hc') as [_ ->]. rewrite <- Eq.
    exists q, (e_path e), (children (saved_node o (e_path e) (e_node e))), sp.
    split; [apply SE; eauto|done].
- intros k e' (e & He & _ & ->)%RE. exact (inv_vals _ HI _ _ He).
- intros k e' pk pe' (e & He & _ & ->)%RE Hp (pe & Hpe & _ & ->)%RE. exact (inv_created _ HI _ _ _ _ He Hp Hpe).
Qed.
End save.

(** ** Properties *)

Section properties.
Context {CT : CaseTable}.

(** The fuel of the encoder is enough. *)
Lemma encode_Some (o : Overlay) : Inv o → is_Some (encode o).
Proof.
intros HI. unfold encode. destruct (encode_body_cases o HI) as [[-> _]|(e & r & Hat & _ & _ & _ & ->)];
  [by eexists|].
destruct (encode_node_total o HI (encode_fuel o) r _ e Hat (encode_fuel_ok o _)) as [b ->]. by eexists.
Qed.

(** Property: saving always succeeds: on every overlay the operations can
  reach, the recursion of the encoder ends and no slice is out of range. *)
Theorem encode_total (o : Overlay) : Inv o → is_Some (encode o).
Proof. apply encode_Some. Qed.

(** C34: loading what was saved gives the overlay back, if its names, sizes
  and depth are within the limits the decoder checks ([Fits]): every key that is not
  volatile and not below a volatile key, with its spelling, values, value
  tombstones, time and child list, and every tombstone below such a key; the
  volatile rest is gone, the counters restart at 1, and the loaded overlay is
  well formed. *)
Theorem persist_roundtrip (o : Overlay) :
Inv o → Fits o →
∃ b o', encode o = Some b ∧ decode b = Ok o' ∧ version o' = 1 ∧ Inv o' ∧
(∀ k e', entries o' !! k = Some e' ↔ ∃ e, entries o !! k = Some e ∧ Persisted o k ∧
   e' = mkEntry (e_path e) (saved_node o (e_path e) (e_node e)) 1 1) ∧
(∀ k, is_Some (tombs o' !! k) ↔
   is_Some (tombs o !! k) ∧ ∃ q, reg_parent k = Some q ∧ Persisted o q).
Proof.
intros HI HF. destruct (load_reloaded o HI HF) as (b & o' & E1 & E2 & E3 & R).
exists b, o'. repeat (split; [done|]). split; [by eapply reloaded_Inv|exact R].
Qed.
End properties.
