(* ===== verification/RegDecode.v ===== *)
(** RegDecode: what the decoder of the registry format accepts.

    Whatever the bytes, the nodes it reads form a tree ([TreeOk]): every node
    but the root is a present child of another node of the list, a child list
    names exactly the nodes below it, and no key is both a node and a
    tombstone. An accepted file therefore loads as a well-formed overlay. *)

From S2P Require Import Prelude Text Path RegTypes RegPath RegOverlay RegInv RegOps RegMachine Wire RegFormat.
From S2P Require Import RegPersist RegLoad.

Lemma FR_bind_Ok {A B} (r : FR A) (f : A → FR B) b x t :
  (r ≫= f) b = Ok (x, t) → ∃ a t', r b = Ok (a, t') ∧ f a t' = Ok (x, t).
Proof. unfold mbind, FR_bind. destruct (r b) as [[a t']|]; [eauto|done]. Qed.

(** Invert one step of a reader that succeeded. *)
Ltac fr_inv H :=
  let a := fresh "a" in let t := fresh "t" in let E := fresh "E" in
  apply FR_bind_Ok in H as (a & t & E & H).

Section tree.
Context {CT : CaseTable}.

Abbreviation Nodes := (list (str * RegNode)).

Lemma fr_key_name_ok b s t : fr_key_name b = Ok (s, t) → key_ok s.
Proof.
unfold fr_key_name. intros H. fr_inv H. destruct (str_eqb_spec a []); [done|].
cbn [orb] in H. case_bool_decide as Hb; [done|]. unfold mret, FR_ret in H. simplify_eq. by split.
Qed.

Lemma read_values_vals n seen vs b seen' vs' t :
read_values n seen vs b = Ok ((seen', vs'), t) →
seen = list_to_set ((fold ∘ v_name) <$> vs) → NoDup ((fold ∘ v_name) <$> vs) →
seen' = list_to_set ((fold ∘ v_name) <$> vs') ∧ NoDup ((fold ∘ v_name) <$> vs').
Proof.
revert seen vs b. induction n as [|n IH]; intros seen vs b H Hs Hnd; cbn [read_values] in H.
{ unfold mret, FR_ret in H. by simplify_eq. }
fr_inv H. fr_inv H. fr_inv H. case_match; [done|]. fr_inv H. case_bool_decide as Hin; [done|].
apply IH in H; [done| |].
- rewrite Hs, fmap_app, list_to_set_app_L. cbn. set_solver.
- rewrite fmap_app. apply NoDup_app. split; [done|]. split; [|apply NoDup_singleton].
  intros x Hx ->%list_elem_of_singleton. apply Hin. rewrite Hs. by apply elem_of_list_to_set.
Qed.

Lemma read_vtombs_vals n seen ts b ts' t :
read_vtombs n seen ts b = Ok (ts', t) → NoDup ts → Forall (λ t, fold t = t) ts →
(∀ x, x ∈ ts → x ∈ seen) →
NoDup ts' ∧ Forall (λ t, fold t = t) ts' ∧ ∀ x, x ∈ ts' → x ∈ ts ∨ x ∉ seen.
Proof.
revert seen ts b. induction n as [|n IH]; intros seen ts b H Hnd Hf Hs; cbn [read_vtombs] in H.
{ unfold mret, FR_ret in H. simplify_eq. auto. }
fr_inv H. destruct (str_eqb_spec (fold a) a) as [Hfa|]; [|done]. cbn [negb] in H.
case_bool_decide as Hin; [done|]. apply IH in H as (H1 & H2 & H3).
- split; [done|]. split; [done|]. intros x [[?|<-%list_elem_of_singleton]%elem_of_app|Hx]%H3; set_solver.
- apply NoDup_app. split; [done|]. split; [|apply NoDup_singleton].
  intros x Hx ->%list_elem_of_singleton. by apply Hin, Hs.
- apply Forall_app. auto.
- set_solver.
Qed.

(** A child list the loops build: keyed by folded names, each new. *)
Definition keyed (ch : gmap str (str * Child)) : Prop :=
∀ f sp st, ch !! f = Some (sp, st) → key_ok sp ∧ f = fold sp.

Lemma new_child_inv name st ch b ch' t :
new_child name st ch b = Ok (ch', t) → t = b ∧ ch !! fold name = None ∧ ch' = <[fold name := (name, st)]> ch.
Proof.
unfold new_child. case_bool_decide as Hn; [done|]. unfold mret, FR_ret. intros H. simplify_eq.
split; [done|]. split; [|done]. by apply eq_None_not_Some.
Qed.

Lemma read_ctombs_inv n ch b ch' t :
read_ctombs n ch b = Ok (ch', t) → keyed ch → (∀ f c, ch !! f = Some c → c.2 = Tombstone) →
keyed ch' ∧ ∀ f c, ch' !! f = Some c → c.2 = Tombstone.
Proof.
revert ch b. induction n as [|n IH]; intros ch b H Hk Ht; cbn [read_ctombs] in H.
{ unfold mret, FR_ret in H. by simplify_eq. }
fr_inv H. apply fr_key_name_ok in E. fr_inv H. apply new_child_inv in E0 as (-> & _ & ->).
apply IH in H; [done| |].
- intros f sp st [[<- [= <- <-]]|[_ ?]]%lookup_insert_Some; [done|by eapply Hk].
- intros f c [[<- <-]|[_ ?]]%lookup_insert_Some; [done|by eapply Ht].
Qed.

(** The list of a tree rooted at [path]. *)
Record TreeOk (path : str) (l : Nodes) : Prop := {
tr_root : listed l (fold path);
tr_sub p n : (p, n) ∈ l → in_sub (fold path) (fold p);
tr_vals p n : (p, n) ∈ l → vals_ok n ∧ keyed (children n);
tr_present p n f sp : (p, n) ∈ l → children n !! f = Some (sp, Present) →
  listed l (fold p ++ backslash :: f);
tr_tomb p n f sp : (p, n) ∈ l → children n !! f = Some (sp, Tombstone) →
  ¬ listed l (fold p ++ backslash :: f);
tr_up p n : (p, n) ∈ l → fold p = fold path ∧ p = path ∨
  ∃ q m c, p = q ++ backslash :: c ∧ (q, m) ∈ l ∧ key_ok c ∧ children m !! fold c = Some (c, Present);
tr_consistent : consistent l }.

(** Sub-trees of distinct children. *)
Definition subtrees (path : str) (ks : list (str * Nodes)) : Prop :=
Forall (λ k, key_ok k.1 ∧ TreeOk (path ++ backslash :: k.1) k.2) ks ∧ NoDup (fold <$> ks.*1).

Lemma listed_app l1 l2 k : listed (l1 ++ l2) k ↔ listed l1 k ∨ listed l2 k.
Proof. unfold listed. setoid_rewrite elem_of_app. naive_solver. Qed.

Lemma elem_of_subs (ks : list (str * Nodes)) pn :
pn ∈ concat ks.*2 ↔ ∃ c l, (c, l) ∈ ks ∧ pn ∈ l.
Proof.
rewrite list_elem_of_In, in_concat. split.
- intros (l & ([c l'] & -> & Hin)%list_elem_of_In%list_elem_of_fmap & Hpn).
  exists c, l'. split; [done|]. by apply list_elem_of_In.
- intros (c & l & Hin & Hpn). exists l. split; [|by apply list_elem_of_In].
  apply list_elem_of_In, list_elem_of_fmap. by exists (c, l).
Qed.

Section join.
Context (path : str) (n : RegNode) (ks : list (str * Nodes)).
Context (Hsub : subtrees path ks) (Hne : path ≠ []) (Hv : vals_ok n) (Hk : keyed (children n)).
Context (Hkids : ∀ f sp, children n !! f = Some (sp, Present) ↔ f = fold sp ∧ sp ∈ ks.*1).

Local Definition all : Nodes := (path, n) :: concat ks.*2.

Lemma sub_tree c l : (c, l) ∈ ks → key_ok c ∧ TreeOk (path ++ backslash :: c) l.
Proof using Hsub. destruct Hsub as [H _]. intros Hin. exact (proj1 (Forall_forall _ _) H _ Hin). Qed.

Lemma all_cases p m : (p, m) ∈ all ↔ (p = path ∧ m = n) ∨ ∃ c l, (c, l) ∈ ks ∧ (p, m) ∈ l.
Proof. unfold all. rewrite elem_of_cons, elem_of_subs. naive_solver. Qed.

Lemma sub_below c l p m : (c, l) ∈ ks → (p, m) ∈ l → in_sub (fold path ++ backslash :: fold c) (fold p).
Proof using Hsub.
intros Hc Hp. destruct (sub_tree c l Hc) as [_ HT]. apply (tr_sub _ _ HT) in Hp. by rewrite fold_snoc in Hp.
Qed.

(** Two sub-trees that share a key are the same. *)
Lemma sub_unique c l c' l' k :
(c, l) ∈ ks → (c', l') ∈ ks → in_sub (fold path ++ backslash :: fold c) k →
in_sub (fold path ++ backslash :: fold c') k → c = c' ∧ l = l'.
Proof using Hsub.
intros Hc Hc' H1 H2. destruct (sub_tree _ _ Hc) as [[_ B1] _], (sub_tree _ _ Hc') as [[_ B2] _].
destruct (decide (fold c = fold c')) as [E|Hd].
- destruct Hsub as [_ Hnd]. clear -Hc Hc' E Hnd. rewrite <- list_fmap_compose in Hnd.
  apply list_elem_of_lookup in Hc as [i Hi], Hc' as [j Hj].
  assert (i = j) as ->; [|by rewrite Hi in Hj; simplify_eq].
  eapply NoDup_lookup; [exact Hnd| |]; rewrite list_lookup_fmap_Some; eexists; [|split; [|done]].
  + split; [|done]. cbn. done.
  + cbn. congruence.
- exfalso. eapply siblings_disjoint; [| |exact Hd|done|done]; by rewrite fold_no_bs.
Qed.

Lemma not_in_own_child (a c : str) : ¬ in_sub (a ++ backslash :: c) a.
Proof. apply below_not_in_sub, below_app. Qed.

Lemma kid_present c l : (c, l) ∈ ks → children n !! fold c = Some (c, Present).
Proof using Hkids. intros Hin. apply Hkids. split; [done|]. apply list_elem_of_fmap. by exists (c, l). Qed.

Lemma join_tomb p m f sp :
(p, m) ∈ all → children m !! f = Some (sp, Tombstone) → ¬ listed all (fold p ++ backslash :: f).
Proof using Hsub Hk Hkids.
intros [[-> ->]|(c & l & Hc & Hp)]%all_cases Hf (p' & m' & Hp' & E).
- destruct (Hk _ _ _ Hf) as [[_ Hb] ->].
  apply all_cases in Hp' as [[-> _]|(c & l & Hc & Hp')].
  + by apply (below_irrefl (fold path)); exists (fold sp).
  + pose proof (sub_below _ _ _ _ Hc Hp') as Hs. rewrite <- E in Hs.
    destruct (decide (fold c = fold sp)) as [Ec|Hd].
    * rewrite <- Ec, (kid_present c l Hc) in Hf. congruence.
    * destruct (sub_tree _ _ Hc) as [[_ Hb'] _].
      eapply siblings_disjoint; [| |exact Hd|exact Hs|by left]; by rewrite fold_no_bs.
- pose proof (sub_below _ _ _ _ Hc Hp) as Hs. destruct (sub_tree _ _ Hc) as [_ HT].
  assert (in_sub (fold path ++ backslash :: fold c) (fold p')) as Hs'.
  { rewrite <- E. eapply in_sub_trans; [exact Hs|]. right. apply below_app. }
  apply all_cases in Hp' as [[-> _]|(c' & l' & Hc' & Hp')]; [by apply not_in_own_child in Hs'|].
  destruct (sub_unique _ _ _ _ _ Hc Hc' Hs' (sub_below _ _ _ _ Hc' Hp')) as [-> ->].
  apply (tr_tomb _ _ HT _ _ _ _ Hp Hf). by exists p', m'.
Qed.

Lemma join_consistent : consistent all.
Proof using Hsub Hkids.
intros p m p' m' [[-> ->]|(c & l & Hc & Hp)]%all_cases [[-> ->]|(c' & l' & Hc' & Hp')]%all_cases E; [done| | |].
- pose proof (sub_below _ _ _ _ Hc' Hp') as H. rewrite <- E in H. by apply not_in_own_child in H.
- pose proof (sub_below _ _ _ _ Hc Hp) as H. rewrite E in H. by apply not_in_own_child in H.
- pose proof (sub_below _ _ _ _ Hc Hp) as H. rewrite E in H.
  destruct (sub_unique _ _ _ _ _ Hc Hc' H (sub_below _ _ _ _ Hc' Hp')) as [-> ->].
  by apply (tr_consistent _ _ (proj2 (sub_tree _ _ Hc))).
Qed.

Lemma join_tree : TreeOk path all.
Proof using Hsub Hv Hk Hkids.
assert (∀ c l k, (c, l) ∈ ks → listed l k → listed all k) as HL.
{ intros c l k Hc (p & m & Hp & ->). exists p, m. split; [|done]. apply all_cases. eauto. }
split.
- exists path, n. split; [by left|done].
- intros p m [[-> ->]|(c & l & Hc & Hp)]%all_cases; [by left|].
  eapply in_sub_trans; [|by eapply sub_below]. right. apply below_app.
- intros p m [[-> ->]|(c & l & Hc & Hp)]%all_cases; [done|].
  by apply (tr_vals _ _ (proj2 (sub_tree _ _ Hc)) p).
- intros p m f sp [[-> ->]|(c & l & Hc & Hp)]%all_cases Hf.
  + apply Hkids in Hf as [-> ([c l] & -> & Hc)%list_elem_of_fmap]. apply (HL c l _ Hc).
    rewrite <- fold_snoc. apply (tr_root _ _ (proj2 (sub_tree _ _ Hc))).
  + apply (HL c l _ Hc). by eapply (tr_present _ _ (proj2 (sub_tree _ _ Hc))).
- apply join_tomb.
- intros p m [[-> ->]|(c & l & Hc & Hp)]%all_cases; [by left|]. right.
  destruct (sub_tree _ _ Hc) as [Hok HT].
  destruct (tr_up _ _ HT _ _ Hp) as [[_ ->]|(q & m' & c' & -> & Hq & Hok' & Hm)].
  + exists path, n, c. split; [done|]. split; [by left|]. split; [done|]. by eapply kid_present.
  + exists q, m', c'. split; [done|]. split; [apply all_cases; eauto|]. done.
- apply join_consistent.
Qed.
End join.

(** A reader that appends the tree of the path it is given. *)
Definition reads_tree (dec : str → Nodes → FR Nodes) : Prop :=
∀ p out b out' t, dec p out b = Ok (out', t) → ∃ l, out' = out ++ l ∧ TreeOk p l.

Lemma read_kids_inv dec path m ch out b ch' out' t :
reads_tree dec → read_kids dec path m ch out b = Ok ((ch', out'), t) →
∃ ks, out' = out ++ concat ks.*2 ∧ subtrees path ks ∧ (∀ s, s ∈ ks.*1 → ch !! fold s = None) ∧
  ∀ f sp st, ch' !! f = Some (sp, st) ↔
    ch !! f = Some (sp, st) ∨ (st = Present ∧ f = fold sp ∧ sp ∈ ks.*1).
Proof.
intros Hdec. revert ch out b. induction m as [|m IH]; intros ch out b H; cbn [read_kids] in H.
{ unfold mret, FR_ret in H. simplify_eq. exists []. cbn. rewrite app_nil_r. split; [done|].
  split; [by split; constructor|]. split; [by intros s ?%elem_of_nil|].
  intros f sp st. rewrite elem_of_nil. naive_solver. }
fr_inv H. apply fr_key_name_ok in E. fr_inv H. apply new_child_inv in E0 as (-> & Hn & ->).
fr_inv H. apply Hdec in E0 as (l & -> & HT). apply IH in H as (ks & -> & [Hs1 Hs2] & Hnew & Hch).
exists ((a, l) :: ks). rewrite <- app_assoc. split; [done|]. split; [split|split].
- constructor; [done|done].
- rewrite !fmap_cons. cbn [fst]. apply NoDup_cons. split; [|done].
  intros (s & Ef & Hs)%list_elem_of_fmap. specialize (Hnew s Hs). rewrite Ef, lookup_insert_eq in Hnew. done.
- intros s [->|Hs]%elem_of_cons; [done|]. specialize (Hnew s Hs).
  by apply lookup_insert_None in Hnew as [? _].
- intros f sp st. rewrite Hch, lookup_insert_Some, fmap_cons, elem_of_cons. cbn [fst]. split.
  + intros [[[<- [= <- <-]]|[_ H]]|(-> & -> & H)]; [right; auto|by left|right; auto].
  + intros [H|(-> & -> & [->|H])]; [|left; left; auto|right; auto].
    left. right. split; [|done]. intros <-. congruence.
Qed.

Lemma decode_node_tree fuel depth : reads_tree (λ p, decode_node fuel p depth).
Proof.
revert depth. induction fuel as [|fuel IH]; intros depth p out b out' t H; cbn [decode_node] in H.
{ by destruct (depth >? MAX_DECODE_DEPTH). }
destruct (depth >? MAX_DECODE_DEPTH); [done|]. fr_inv H. case_match; [done|].
do 5 (fr_inv H). fr_inv H. destruct a5 as [seen vs]. fr_inv H. fr_inv H.
apply read_values_vals in E5 as [-> Hnd]; [|done|constructor].
apply read_vtombs_vals in E6 as (T1 & T2 & T3); [|constructor|constructor|by intros ? ?%elem_of_nil].
apply read_ctombs_inv in E7 as [Hkey Htomb];
  [|by intros f sp st; rewrite lookup_empty|by intros f c; rewrite lookup_empty].
apply FR_bind_Ok in H as ([ch l] & tk & Ek & H). unfold mret, FR_ret in H.
apply (read_kids_inv _ _ _ _ _ _ _ _ _ (IH (depth + 1))) in Ek as (ks & -> & Hs & Hnew & Hch).
injection H as <- <-. rewrite <- app_assoc, alter_app_r_alt by done. rewrite Nat.sub_diag.
eexists. split; [done|]. cbn [app alter list_alter fst]. apply (join_tree p _ ks Hs).
- split; [done|]. split; [done|]. split; [done|]. intros x Hx Hin.
  destruct (T3 _ Hin) as [?%elem_of_nil|Hni]; [done|]. apply Hni, elem_of_list_to_set, list_elem_of_fmap.
  by exists x.
- intros f sp st [Hc|(-> & -> & Hin)]%Hch; [by eapply Hkey|]. split; [|done].
  apply list_elem_of_fmap in Hin as ([c l] & -> & Hin). exact (proj1 (sub_tree _ _ Hs _ _ Hin)).
- intros f sp. cbn [children]. rewrite Hch. split; [|by right; naive_solver].
  intros [Hc|(_ & H)]; [|done]. by apply Htomb in Hc.
Qed.
End tree.

(** ** Accepted files *)

Section accepted.
Context {CT : CaseTable}.

Lemma insert_all_valid l o o' :
insert_all l o = Ok o' →
Forall (λ pn, valid_path pn.1 = true ∧ check_depth pn.1 MAX_DECODE_DEPTH = Ok ()) l.
Proof.
revert o. induction l as [|[p n] l IH]; intros o; cbn [insert_all]; [constructor|].
destruct (insert_node p n 1 o) as [[[]|e] o1] eqn:E; [|done]. intros H. constructor; [|by eapply IH].
unfold insert_node in E. cbn [fst]. destruct (valid_path p); [|done]. cbn [negb] in E.
destruct (check_depth p MAX_DECODE_DEPTH) as [[]|]; [done|]. by simplify_eq.
Qed.

(** The decoded nodes are a tree under the root, or none. *)
Lemma decode_tree_nodes b l t :
decode_tree b = Ok (l, t) → l = [] ∨ ∃ r, key_ok r ∧ TreeOk (backslash :: r) l.
Proof.
unfold decode_tree. intros H. fr_inv H. destruct (a =? 0); [unfold mret, FR_ret in H; simplify_eq; by left|].
destruct (a =? 1); [|done]. fr_inv H. apply fr_key_name_ok in E0.
destruct (negb _); [done|]. right. exists a0. split; [done|].
by apply decode_node_tree in H as (l' & -> & HT).
Qed.

Lemma tree_SInv r l o :
key_ok r → TreeOk (backslash :: r) l → Forall (λ pn, valid_path pn.1 = true) l →
(∀ p n, (p, n) ∈ l → entries o !! fold p = Some (mkEntry p n 1 1)) →
(∀ k, ¬ listed l k → entries o !! k = None) →
(∀ k, is_Some (tombs o !! k) ↔ ∃ p n, (p, n) ∈ l ∧ tomb_of p n k) →
SInv (shape o) (tombset o) ∧ map_Forall (λ _ e, vals_ok (e_node e)) (entries o).
Proof.
intros Hr HT Hval N1 N2 T.
assert (∀ k e, entries o !! k = Some e → ∃ p n, (p, n) ∈ l ∧ k = fold p ∧ e = mkEntry p n 1 1) as HE.
{ intros k e He. destruct (decide (listed l k)) as [(p & n & Hin & ->)|Hk]; [|by rewrite N2 in He].
  rewrite (N1 _ _ Hin) in He. exists p, n. by simplify_eq. }
assert (∀ k p ch, shape o !! k = Some (p, ch) → ∃ n, (p, n) ∈ l ∧ k = fold p ∧ ch = children n) as SE.
{ intros k p ch (e & (p' & n & Hin & -> & ->)%HE & <- & <-)%shape_Some. eauto. }
assert (∀ p n, (p, n) ∈ l → shape o !! fold p = Some (p, children n)) as SL.
{ intros p n Hin. apply shape_Some. rewrite (N1 _ _ Hin). eauto. }
split; [split|].
- intros k p ch (n & Hin & -> & _)%SE. split; [|done]. exact (proj1 (Forall_forall _ _) Hval _ Hin).
- intros k p ch q (n & Hin & -> & _)%SE Hq.
  destruct (tr_up _ _ HT _ _ Hin) as [[_ ->]|(q' & m & c & -> & Hq' & [_ Hb] & Hm)].
  + pose proof (reg_parent_root r (proj2 Hr)) as Hn. unfold kp in Hn. cbn [flat_map] in Hn.
    rewrite app_nil_r in Hn. congruence.
  + assert (q' ≠ []) as Hne.
    { pose proof (proj1 (Forall_forall _ _) Hval _ Hq') as Hv. by apply valid_path_nonempty in Hv. }
    rewrite reg_parent_snoc in Hq by done. injection Hq as <-. rewrite reg_leaf_snoc by done. eauto.
- intros k p ch f sp st (n & Hin & -> & ->)%SE Hf.
  destruct (tr_vals _ _ HT _ _ Hin) as [_ Hk]. destruct (Hk _ _ _ Hf) as [Hok ->].
  split; [done|]. split; [done|]. destruct st; cbn [child_holds].
  + destruct (tr_present _ _ HT _ _ _ _ Hin Hf) as (p' & m & Hin' & ->). rewrite (SL _ _ Hin'). by eexists.
  + unfold tombset. apply elem_of_dom, T. exists p, n. split; [done|]. by exists (fold sp), sp.
- intros k Hk. unfold tombset in Hk. apply elem_of_dom, T in Hk as (p & n & Hin & f & sp & Hf & ->).
  destruct (tr_vals _ _ HT _ _ Hin) as [_ Hk]. destruct (Hk _ _ _ Hf) as [Hok ->]. split.
  + apply shape_None, N2. by eapply (tr_tomb _ _ HT).
  + exists (fold p), p, (children n), sp. auto.
- intros k e (p & n & Hin & -> & ->)%HE. apply (tr_vals _ _ HT _ _ Hin).
Qed.

(** C38: whatever the bytes, a file the decoder accepts loads as a
  structurally sound overlay: stored paths match their keys, every key but
  the root is a present child of its parent under the same spelling, every
  child list is right about the keys it names, tombstones are below present
  keys and never overlap them, and values are unique up to case. *)
Theorem decode_well_formed (b : bytes) (o : Overlay) :
decode b = Ok o →
SInv (shape o) (tombset o) ∧ map_Forall (λ _ e, vals_ok (e_node e)) (entries o) ∧ version o = 1.
Proof.
unfold decode. repeat (case_match; [done|]). destruct (split_at _ b) as [body sum].
case_match; [done|]. destruct (decode_tree _) as [[l rest]|] eqn:Et; [|done]. case_match; [done|].
intros (o1 & Ei & [= <-])%result_bind_ok. enough (SInv (shape o1) (tombset o1) ∧
  map_Forall (λ _ e, vals_ok (e_node e)) (entries o1)) as [??] by done.
apply decode_tree_nodes in Et as [->|(r & Hr & HT)].
{ cbn in Ei. simplify_eq. split; apply Inv_new. }
pose proof (insert_all_valid _ _ _ Ei) as Hv.
destruct (insert_all_spec l overlay_new Hv (tr_consistent _ _ HT)) as (o2 & Ei2 & _ & N1 & N2 & T1 & T2).
rewrite Ei in Ei2. injection Ei2 as <-. apply (tree_SInv r l); [done|done| |done| |].
- eapply Forall_impl; [exact Hv|]. by intros ? [??].
- intros k Hk. rewrite N2 by done. apply lookup_empty.
- intros k. split.
  + intros [H'|?]%T1; [|done]. cbn in H'. rewrite lookup_empty in H'. by destruct H'.
  + intros (p & n & Hin & Ht). apply T2; [|right; eauto]. destruct Ht as (f & sp & Hf & ->).
    by eapply (tr_tomb _ _ HT).
Qed.

(** C37: damage is noticed: changing any one byte of an accepted file,
  in the magic, the tree or the checksum itself, makes the decoder refuse it
  as a wrong magic or a bad checksum. *)
Theorem decode_detects_byte (b : bytes) (o : Overlay) (i : nat) (x y : Z) :
Forall byte_ok b → byte_ok x → decode b = Ok o → b !! i = Some y → x ≠ y →
decode (<[i := x]> b) = Err (if decide (i < 8)%nat then BadMagic else BadChecksum).
Proof.
intros Hb Hx Hd Hi Hne. apply lookup_lt_Some in Hi as Hlt. unfold decode in *.
assert (len (<[i := x]> b) = len b) as -> by (unfold len; by rewrite length_insert).
destruct (len b <? len REG_MAGIC) eqn:E1; [done|].
destruct (negb (bool_decide (take 8 b = REG_MAGIC))) eqn:E2; [done|].
apply negb_false_iff, bool_decide_eq_true in E2. change (len REG_MAGIC) with 8 in *.
destruct (len b <? 8 + 1 + 8) eqn:E3; [done|]. unfold split_at in *.
destruct (negb (checksum _ =? from_le _)) eqn:E4 in Hd; [done|]. apply negb_false_iff, Z.eqb_eq in E4. clear Hd.
set (m := Z.to_nat (len b - 8)) in *. assert (length b = m + 8)%nat as Hm by (unfold m, len in *; lia).
destruct (decide (i < 8)%nat) as [H8|H8].
- rewrite take_insert_lt by lia. rewrite bool_decide_false; [done|]. intros E.
  assert (<[i := x]> (take 8 b) !! i = Some x) as Ex
    by (apply list_lookup_insert_eq; rewrite length_take; lia).
  rewrite E, <- E2, lookup_take_lt in Ex by lia. congruence.
- rewrite take_insert_ge by lia. rewrite E2, bool_decide_true by done. cbn [negb].
  assert (checksum (take m (<[i := x]> b)) ≠ from_le (drop m (<[i := x]> b))) as Hcs;
    [|by apply Z.eqb_neq in Hcs as ->].
  destruct (decide (i < m)%nat) as [Him|Him].
  + rewrite take_insert_lt, drop_insert_lt, <- E4 by lia. apply (checksum_byte _ _ _ y).
    * by apply Forall_take.
    * done.
    * by rewrite lookup_take_lt.
    * done.
  + rewrite take_insert_ge, drop_insert_ge, E4 by lia. intros Eq. apply from_le_inj in Eq.
    * assert (<[(i - m)%nat := x]> (drop m b) !! (i - m)%nat = Some x) as Ex
        by (apply list_lookup_insert_eq; rewrite length_drop; lia).
      rewrite <- Eq, lookup_drop in Ex. replace (m + (i - m))%nat with i in Ex by lia. congruence.
    * by apply Forall_drop.
    * apply Forall_insert; [by apply Forall_drop|done].
    * by rewrite length_insert.
Qed.
End accepted.

(** ** Concrete files *)

Module FormatDemo.
#[local] Existing Instance demo_table.

#[local] Instance ok_dec (r : result RegError unit) : Decision (r = Ok ()).
Proof. destruct r as [[]|]; [by left|by right]. Defined.
#[local] Instance name_fits_dec max s : Decision (name_fits max s).
Proof. unfold name_fits, valid_str. apply _. Defined.
#[local] Instance value_fits_dec v : Decision (value_fits v).
Proof. unfold value_fits, valid_str, in_u32. apply _. Defined.
#[local] Instance node_fits_dec n : Decision (node_fits n).
Proof. unfold node_fits, in_u64. apply _. Defined.
#[local] Instance Fits_dec o : Decision (Fits o).
Proof.
  refine (map_Forall_dec (λ _ e, node_fits (e_node e) ∧ check_depth (e_path e) MAX_DECODE_DEPTH = Ok () ∧
    Forall (name_fits MAX_KEY_NAME) (drop 1 (split_on is_bs (e_path e)))) (entries o)).
Defined.

Definition key : str := lit "\Registry\Machine\Software\Mod".
(** Values and a value tombstone, a tombstoned key, a volatile key with a child. *)
Definition ops : list RegOp :=
  [ OpSetValue key (lit "Str") 1 [104; 0] 10; OpDeleteValue key (lit "Gone") 11;
    OpDeleteKey (key ++ lit "\Dead") 12; OpCreateKey (key ++ lit "\Temp") true false 13;
    OpCreateKey (key ++ lit "\Temp\Child") false false 14; OpCreateKey (key ++ lit "\Keep") false false 15 ].
Definition demo : Overlay := default overlay_new (run_ops ops overlay_new).
Definition file : bytes := default [] (encode demo).
Definition loaded : Overlay := match decode file with Ok o => o | Err _ => overlay_new end.

Lemma saved_demo_Inv : Inv demo.
Proof.
  destruct (run_ops_total ops overlay_new Inv_new) as (o' & E & HI). unfold demo. by rewrite E.
Qed.

Lemma demo_Fits : Fits demo.
Proof. apply (bool_decide_unpack _). vm_compute. exact I. Qed.

Lemma demo_load : decode file = Ok loaded ∧ Forall byte_ok file.
Proof. split; [vm_compute; reflexivity|]. apply bytes_okb. vm_compute. reflexivity. Qed.

(** The volatile key and its child are not saved, the rest is. *)
Lemma demo_kept :
  entries demo !! fold (key ++ lit "\Keep") ≠ None ∧ entries demo !! fold (key ++ lit "\Temp") ≠ None ∧
  entries loaded !! fold (key ++ lit "\Keep") ≠ None ∧ entries loaded !! fold (key ++ lit "\Temp") = None.
Proof. repeat split; vm_compute; done. Qed.

Definition overlong_path : str := lit "\Registry\Machine\" ++ replicate 256 107 ++ lit "\x".
Definition overlong : Overlay :=
  match delete_key overlong_path 5 overlay_new with Some (_, o) => o | None => overlay_new end.
Definition overlong_file : bytes := default [] (encode overlong).

Lemma overlong_deleted : delete_key overlong_path 5 overlay_new = Some (Ok 1, overlong).
Proof.
  assert (match delete_key overlong_path 5 overlay_new with Some (Ok v, _) => v | _ => 0 end = 1) as H
    by (vm_compute; reflexivity).
  unfold overlong. destruct (delete_key overlong_path 5 overlay_new) as [[[v|e] o]|]; [by rewrite H|done|done].
Qed.
Lemma overlong_saved : encode overlong = Some overlong_file.
Proof.
  assert (bool_decide (is_Some (encode overlong)) = true) as H by (vm_compute; reflexivity).
  apply bool_decide_eq_true in H. unfold overlong_file. by destruct H as [b ->].
Qed.
Lemma overlong_refused : decode overlong_file = Err (Invalid (lit "name too long")).
Proof. vm_compute. reflexivity. Qed.
End FormatDemo.
Import FormatDemo.

Lemma encode_total_witness : is_Some (encode (CT := demo_table) demo).
Proof. exact (encode_total (CT := demo_table) demo saved_demo_Inv). Defined.

Lemma persist_roundtrip_witness :
  ∃ o', decode (CT := demo_table) file = Ok o' ∧ entries o' = entries loaded ∧
    Inv (CT := demo_table) o' ∧ entries o' !! fold (CT := demo_table) (key ++ lit "\Temp\Child") = None.
Proof.
  destruct (persist_roundtrip (CT := demo_table) demo saved_demo_Inv demo_Fits)
    as (b & o' & E1 & E2 & _ & HI & _). assert (b = file) as -> by (unfold file; by rewrite E1).
  exists o'. split; [exact E2|]. assert (o' = loaded) as -> by (unfold loaded; by rewrite E2).
  split; [reflexivity|]. split; [exact HI|]. vm_compute. reflexivity.
Defined.

Lemma decode_well_formed_witness :
  SInv (CT := demo_table) (shape loaded) (tombset loaded) ∧ version loaded = 1.
Proof.
  destruct (decode_well_formed (CT := demo_table) file loaded (proj1 demo_load)) as (H & _ & V). auto.
Defined.

Lemma decode_detects_byte_witness :
  decode (CT := demo_table) (<[20%nat := 7]> file) = Err BadChecksum.
Proof.
  exact (decode_detects_byte (CT := demo_table) file loaded 20 7 121 (proj2 demo_load)
    ltac:(done) (proj1 demo_load) ltac:(vm_compute; reflexivity) ltac:(done)).
Defined.

(** Property: deleting a key through a component longer than the 255 units a key name
  may have succeeds, and the overlay it leaves is saved as a file that the
  decoder refuses: [delete_key] skips the name check of the other operations. *)
Example overlong_delete_unloadable :
  ∃ o b, delete_key (CT := demo_table) overlong_path 5 overlay_new = Some (Ok 1, o) ∧
    encode (CT := demo_table) o = Some b ∧
    decode (CT := demo_table) b = Err (Invalid (lit "name too long")).
Proof.
  exists overlong, overlong_file. exact (conj overlong_deleted (conj overlong_saved overlong_refused)).
Qed.
