(* ===== verification/Seg.v ===== *)
(** Seg: the shared segment and programs over it
    (rust/crates/vfs-ipc/src/seg.rs and layout.rs).

    A segment is its bytes; its base address is 8-aligned, as the source
    requires of it. The functions of the ring run concurrently on one
    segment, so they are not state transformers but programs: sequences of
    the accesses the source makes, each atomic, whose results decide what
    comes next. [run] executes a program alone; the interleaving of several
    is in RingConc. *)

From S2P Require Import Prelude.

(** ** Memory *)

Definition mem_len (m : bytes) : Z := len m.

(** [off.checked_add(n).is_some_and(|end| end <= self.len)] *)
Definition in_bounds (m : bytes) (off n : Z) : bool :=
  (off + n <? u64_max) && (off + n <=? len m).

Definition mem_get (m : bytes) (off n : Z) : bytes :=
  take (Z.to_nat n) (drop (Z.to_nat off) m).
Definition mem_put (m : bytes) (off : Z) (d : bytes) : bytes :=
  take (Z.to_nat off) m ++ d ++ drop (Z.to_nat (off + len d)) m.

(** [copy_to] and [read_bytes] *)
Definition read_bytes (m : bytes) (off n : Z) : option bytes :=
  if in_bounds m off n then Some (mem_get m off n) else None.

(** [write_bytes]: whether it was in bounds, and the memory after it. *)
Definition write_bytes (m : bytes) (off : Z) (d : bytes) : bool * bytes :=
  if in_bounds m off (len d) then (true, mem_put m off d) else (false, m).

(** [atomic_u32] and [atomic_u64]: in bounds and aligned. *)
Definition atomic_ok (m : bytes) (off n : Z) : bool :=
  in_bounds m off n && (off mod n =? 0).

(** ** Atomic accesses *)

Inductive act : Type → Type :=
  | ALen : act Z
  | AAddr (n off : Z) : act bool
  | ARead (off n : Z) : act (option bytes)
  | AWrite (off : Z) (d : bytes) : act bool
  | ALoad (n off : Z) : act (option Z)
  | AStore (n off v : Z) : act (option unit)
  | ACas (n off from to : Z) : act (option (bool * Z))
  | AAdd (n off v : Z) : act (option Z)
  | AMax (n off v : Z) : act (option unit).

(** One access, on the memory at that moment. [n] is the width in bytes of an
    atomic, 4 or 8; a compare-and-swap returns whether it took place and the
    value it found. [AAddr] makes no access: it asks whether there is an atomic
    there. *)
Definition exec {X} (a : act X) (m : bytes) : X * bytes :=
  match a in act X return X * bytes with
  | ALen => (mem_len m, m)
  | AAddr n off => (atomic_ok m off n, m)
  | ARead off n => (read_bytes m off n, m)
  | AWrite off d => write_bytes m off d
  | ALoad n off => if atomic_ok m off n then (Some (from_le (mem_get m off n)), m) else (None, m)
  | AStore n off v =>
      if atomic_ok m off n then (Some (), mem_put m off (to_le (Z.to_nat n) v)) else (None, m)
  | ACas n off from to =>
      if atomic_ok m off n then
        let old := from_le (mem_get m off n) in
        if old =? from then (Some (true, old), mem_put m off (to_le (Z.to_nat n) to))
        else (Some (false, old), m)
      else (None, m)
  | AAdd n off v =>
      if atomic_ok m off n then
        let old := from_le (mem_get m off n) in
        (Some old, mem_put m off (to_le (Z.to_nat n) (old + v)))
      else (None, m)
  | AMax n off v =>
      if atomic_ok m off n then
        let old := from_le (mem_get m off n) in
        (Some (), mem_put m off (to_le (Z.to_nat n) (Z.max old v)))
      else (None, m)
  end.

(** ** Programs *)

Inductive prog (A : Type) : Type :=
  | Ret (a : A)
  | Step {X : Type} (x : act X) (k : X → prog A).
Arguments Ret {A} a.
Arguments Step {A X} x k.

Fixpoint prog_bind {A B} (f : A → prog B) (p : prog A) : prog B :=
  match p with
  | Ret a => f a
  | Step x k => Step x (λ r, prog_bind f (k r))
  end.

Declare Scope prog_scope.
Delimit Scope prog_scope with prog.
Notation "'let*' x ':=' p 'in' q" := (prog_bind (λ x, q) p)
  (at level 10, x name, p at level 100, q at level 200) : prog_scope.
#[global] Open Scope prog_scope.

Definition do {X} (x : act X) : prog X := Step x (λ r, Ret r).

(** A program run alone. *)
Fixpoint run {A} (p : prog A) (m : bytes) : A * bytes :=
  match p with
  | Ret a => (a, m)
  | Step x k => let '(r, m) := exec x m in run (k r) m
  end.

Lemma prog_run_bind {A B} (p : prog A) (f : A → prog B) m :
  run (prog_bind f p) m = let '(a, m') := run p m in run (f a) m'.
Proof.
  revert m. induction p as [a|X x k IH]; intros m; [done|]. cbn.
  destruct (exec x m) as [r m']. apply IH.
Qed.

(** The typed accesses of [SharedSeg]. *)
Definition read_u32 (off : Z) : prog (option Z) :=
  let* b := do (ARead off 4) in Ret (from_le <$> b).
Definition read_u64 (off : Z) : prog (option Z) :=
  let* b := do (ARead off 8) in Ret (from_le <$> b).
Definition as_i32 (x : Z) : Z := if x <? 2 ^ 31 then x else x - u32_max.
Definition read_i32 (off : Z) : prog (option Z) :=
  let* v := read_u32 off in Ret (as_i32 <$> v).
Definition write_u32 (off v : Z) : prog bool := do (AWrite off (to_le 4 v)).
Definition write_i32 (off v : Z) : prog bool := do (AWrite off (to_le 4 (as_u32 v))).
Definition write_u64 (off v : Z) : prog bool := do (AWrite off (to_le 8 v)).

(** ** Layout (layout.rs) *)

Definition MAGIC : Z := 0x56464950.
Definition VERSION : Z := 4.

Definition ST_FREE : Z := 0.
Definition ST_CLAIMED : Z := 1.
Definition ST_SUBMITTED : Z := 2.
Definition ST_PROCESSING : Z := 3.
Definition ST_COMPLETED : Z := 4.
Definition ST_ABANDONED : Z := 5.

(** [#[repr(C)]] offsets of [RingHeader]. *)
Definition RING_HEADER_SIZE : Z := 48.
Definition RH_MAGIC : Z := 0.
Definition RH_VERSION : Z := 4.
Definition RH_SLOT_COUNT : Z := 8.
Definition RH_SLOT_STRIDE : Z := 12.
Definition RH_PAYLOAD_CAP : Z := 16.
Definition RH_WORKER_HINT : Z := 20.
Definition RH_REQ_SEQ : Z := 24.
Definition RH_SUBMIT_SEQ : Z := 32.
Definition RH_REG_GEN : Z := 40.

(** [#[repr(C)]] offsets of [SlotHeader]. *)
Definition SLOT_HEADER_SIZE : Z := 32.
Definition SH_STATE : Z := 0.
Definition SH_OPCODE : Z := 4.
Definition SH_FLAGS : Z := 8.
Definition SH_PAYLOAD_LEN : Z := 12.
Definition SH_STATUS : Z := 16.
Definition SH_ACK : Z := 20.
Definition SH_REQ_ID : Z := 24.

Definition align8 (n : Z) : Z := Z.land (n + 7) (Z.lnot 7).

Lemma align8_spec n : 0 ≤ n → n ≤ align8 n < n + 8 ∧ align8 n mod 8 = 0.
Proof.
  intros Hn. unfold align8. rewrite <- Z.ldiff_land.
  change 7 with (Z.ones 3) at 2 4 6. rewrite Z.ldiff_ones_r, Z.shiftr_div_pow2, Z.shiftl_mul_pow2 by lia.
  change (2 ^ 3) with 8. split; [dlia|]. apply Z.mod_mul. lia.
Qed.

(** ** Lemmas on memory *)

Lemma lookup_mem_get m off n i :
  mem_get m off n !! i = if decide (i < Z.to_nat n)%nat then m !! (Z.to_nat off + i)%nat else None.
Proof.
  unfold mem_get. case_decide; [by rewrite lookup_take_lt, lookup_drop by lia|].
  by rewrite lookup_take_ge by lia.
Qed.

Lemma lookup_mem_put m off d i :
  0 ≤ off → off + len d ≤ len m →
  mem_put m off d !! i =
    if decide (Z.to_nat off ≤ i < Z.to_nat (off + len d))%nat then d !! (i - Z.to_nat off)%nat
    else m !! i.
Proof.
  unfold mem_put, len. intros. case_decide as Hi.
  - rewrite lookup_app_r by (rewrite length_take; lia). rewrite length_take.
    rewrite lookup_app_l by lia. f_equal. lia.
  - destruct (decide (i < Z.to_nat off)%nat).
    + rewrite lookup_app_l by (rewrite length_take; lia). by rewrite lookup_take_lt by lia.
    + rewrite lookup_app_r by (rewrite length_take; lia). rewrite length_take.
      rewrite lookup_app_r by lia. rewrite lookup_drop. f_equal. lia.
Qed.

Lemma mem_get_len m off n : 0 ≤ off → 0 ≤ n → off + n ≤ len m → len (mem_get m off n) = n.
Proof. unfold mem_get, len. intros. rewrite length_take, length_drop. lia. Qed.

Lemma mem_put_len m off d : 0 ≤ off → off + len d ≤ len m → len (mem_put m off d) = len m.
Proof.
  unfold mem_put, len. intros. rewrite !length_app, length_take, length_drop. lia.
Qed.

(** Equalities of memories, pointwise. *)
Ltac mem_eq :=
  apply list_eq; intros ?i; rewrite ?lookup_mem_get, ?lookup_mem_put by lia;
  repeat case_decide; rewrite ?lookup_mem_get, ?lookup_mem_put by lia;
  repeat case_decide; try lia; try done; try (f_equal; lia).

Lemma mem_get_put_same m off d :
  0 ≤ off → off + len d ≤ len m → mem_get (mem_put m off d) off (len d) = d.
Proof.
  intros. mem_eq. symmetry. apply lookup_ge_None. unfold len in *. lia.
Qed.

Lemma mem_get_put_other m off d o n :
  0 ≤ off → off + len d ≤ len m → 0 ≤ o → 0 ≤ n → o + n ≤ off ∨ off + len d ≤ o →
  mem_get (mem_put m off d) o n = mem_get m o n.
Proof. intros. mem_eq. Qed.

(** A read within a read. *)
Lemma mem_get_get m a n b k :
  0 ≤ a → 0 ≤ b → 0 ≤ k → b + k ≤ n → mem_get (mem_get m a n) b k = mem_get m (a + b) k.
Proof. intros. mem_eq. Qed.

(** A write within a region is a write to the region. *)
Lemma mem_get_put_in m a n o d :
  0 ≤ a → 0 ≤ o → o + len d ≤ n → a + n ≤ len m →
  mem_get (mem_put m (a + o) d) a n = mem_put (mem_get m a n) o d.
Proof.
  intros. pose proof (len_nonneg d). pose proof (mem_get_len m a n).
  apply list_eq. intros i. rewrite lookup_mem_get, !lookup_mem_put by lia.
  rewrite lookup_mem_get. repeat case_decide; try lia; try done. f_equal. lia.
Qed.
