(* ===== verification/Arena.v ===== *)
(** Arena: the bulk data arena behind the ring, one bank of bytes per slot
    (rust/crates/vfs-ipc/src/arena.rs). *)

From S2P Require Import Prelude Seg.

Record DataArena := mkArena { mapping_offset : Z; bank_size : Z; banks : Z }.

Definition arena_new (mapping_offset arena_len banks : Z) : DataArena :=
  let banks := Z.max banks 1 in
  mkArena mapping_offset (Z.max (arena_len / banks) 4096) banks.

Definition bank_index (a : DataArena) (slot : Z) : Z := slot mod banks a.

Definition bank_mapping_offset (a : DataArena) (slot : Z) : Z :=
  mapping_offset a + bank_index a slot * bank_size a.

Definition ARENA_ST_IO_ERROR : Z := -4.

(** [f] fills the bank's bytes: what it leaves there, and its result. *)
Definition fill_bank (a : DataArena) (slot max_len : Z) (f : bytes → bytes * result Z Z)
    : prog (result Z (Z * Z)) :=
  let mx := Z.min max_len (bank_size a) in
  if mx =? 0 then Ret (Ok (bank_mapping_offset a slot, 0)) else
  let off := bank_mapping_offset a slot in
  let* buf := do (ARead off mx) in
  match buf with
  | None => Ret (Err ARENA_ST_IO_ERROR)
  | Some buf =>
      let '(buf', r) := f buf in
      let* _ := do (AWrite off buf') in
      match r with
      | Err e => Ret (Err e)
      | Ok n => Ret (Ok (off, Z.min n (len buf)))
      end
  end.

(** ** Banks *)

Lemma arena_new_pos mo al n : 0 ≤ al → 1 ≤ banks (arena_new mo al n) ∧ 4096 ≤ bank_size (arena_new mo al n).
Proof. intros. cbn. lia. Qed.

Lemma bank_index_range a slot : 1 ≤ banks a → 0 ≤ bank_index a slot < banks a.
Proof. intros. apply Z.mod_pos_bound. lia. Qed.

Lemma banks_apart a s s' :
  0 ≤ bank_size a → bank_index a s ≠ bank_index a s' →
  bank_mapping_offset a s + bank_size a ≤ bank_mapping_offset a s' ∨
  bank_mapping_offset a s' + bank_size a ≤ bank_mapping_offset a s.
Proof.
  intros Hb Hne. unfold bank_mapping_offset.
  destruct (Z.lt_total (bank_index a s) (bank_index a s')) as [?|[?|?]]; [left|done|right]; nia.
Qed.

(** Property: filling the bank of a slot never touches a byte of another bank: the
    data of two requests in flight, whose slots have different banks, cannot
    mix; what is reported lies within the bank and is what was filled in. *)
Theorem fill_bank_isolated mo al n m slot slot' max_len f :
  0 ≤ mo → 0 ≤ al → 0 ≤ max_len → (∀ b, len (f b).1 = len b) →
  let a := arena_new mo al n in
  bank_index a slot ≠ bank_index a slot' →
  let r := run (fill_bank a slot max_len f) m in
  len r.2 = len m ∧
  mem_get r.2 (bank_mapping_offset a slot') (bank_size a) =
    mem_get m (bank_mapping_offset a slot') (bank_size a) ∧
  ∀ off k, r.1 = Ok (off, k) → off = bank_mapping_offset a slot ∧ k ≤ Z.min max_len (bank_size a) ∧
    (0 < max_len → mem_get r.2 off (Z.min max_len (bank_size a)) =
      (f (mem_get m off (Z.min max_len (bank_size a)))).1).
Proof.
  intros Hmo Hal Hmax Hf a Hne. destruct (arena_new_pos mo al n Hal) as [Hb Hs]. fold a in Hb, Hs.
  pose proof (bank_index_range a slot Hb). pose proof (bank_index_range a slot' Hb).
  pose proof (banks_apart a slot slot' ltac:(lia) Hne) as Hap.
  assert (0 ≤ bank_mapping_offset a slot ∧ 0 ≤ bank_mapping_offset a slot').
  { unfold bank_mapping_offset. change (mapping_offset a) with mo. nia. }
  unfold fill_bank. set (mx := Z.min max_len (bank_size a)).
  assert (mx ≤ bank_size a) by lia.
  destruct (Z.eqb_spec mx 0) as [Hz|Hz]; cbn zeta.
  { cbn. split_and!; [done|done|]. intros off k [= <- <-]. split_and!; [done|lia|lia]. }
  cbn [run do prog_bind exec]. unfold read_bytes.
  destruct (in_bounds m (bank_mapping_offset a slot) mx) eqn:Hib; [|done].
  pose proof Hib as Hin. unfold in_bounds in Hin. apply andb_true_iff in Hin as [_ Hin%Z.leb_le].
  set (off := bank_mapping_offset a slot) in *.
  pose proof (mem_get_len m off mx ltac:(lia) ltac:(lia) Hin) as Hl.
  destruct (f (mem_get m off mx)) as [buf r] eqn:Hfb. pose proof (Hf (mem_get m off mx)) as Hlf.
  rewrite Hfb in Hlf. cbn in Hlf. rewrite Hl in Hlf.
  cbn [run do prog_bind exec]. unfold write_bytes. rewrite Hlf, Hib.
  assert (len (mem_put m off buf) = len m) as Hpl by (apply mem_put_len; lia).
  assert (mem_get (mem_put m off buf) (bank_mapping_offset a slot') (bank_size a) =
    mem_get m (bank_mapping_offset a slot') (bank_size a)) as Hoth by (apply mem_get_put_other; lia).
  destruct r as [k|e]; cbn [run]; (split_and!; [done|done|]); intros o k' Heq; [|done].
  injection Heq as <- <-. split_and!; [done|lia|]. intros _. rewrite Hfb. cbn [fst snd]. rewrite <- Hlf.
  apply mem_get_put_same; lia.
Qed.

Lemma fill_bank_isolated_witness :
  let a := arena_new 0 8192 2 in
  let r := run (fill_bank a 1 2 (λ b, (map (λ _, 7) b, Ok 2))) (replicate (Z.to_nat 8192) 0) in
  mem_get r.2 (bank_mapping_offset a 0) (bank_size a) =
    mem_get (replicate (Z.to_nat 8192) 0) (bank_mapping_offset a 0) (bank_size a).
Proof.
  apply (fill_bank_isolated 0 8192 2 (replicate (Z.to_nat 8192) 0) 1 0 2 (λ b, (map (λ _, 7) b, Ok 2)));
    [lia|lia|lia| |].
  - intros b. unfold len. cbn. by rewrite length_map.
  - vm_compute. discriminate.
Defined.
