(* ===== verification/Ring.v ===== *)
(** Ring: the request ring in shared memory and its endpoints
    (rust/crates/vfs-ipc/src/ring.rs and endpoint.rs), as programs
    over the segment.

    Waiting is bounded by a deadline read from a clock that is not part of
    this code ([Notifier::now]); the loops that wait take the number of looks
    the deadline leaves them. *)

From S2P Require Import Prelude Seg.

(** ** ring.rs *)

Inductive IpcError := RingFull | Timeout | PayloadTooLarge | BadResponse | Closed | Layout.

Record Geom := mkGeom { slot_count : Z; slot_stride : Z; payload_cap : Z }.

Definition slot_off (g : Geom) (slot : Z) : Z := RING_HEADER_SIZE + slot * slot_stride g.
Definition payload_off (g : Geom) (slot : Z) : Z := slot_off g slot + SLOT_HEADER_SIZE.

(** The accesses to a slot's state word. *)
Definition state_load (g : Geom) (slot : Z) : prog (option Z) := do (ALoad 4 (slot_off g slot + SH_STATE)).
Definition state_store (g : Geom) (slot v : Z) : prog (option unit) :=
  do (AStore 4 (slot_off g slot + SH_STATE) v).
Definition state_cas (g : Geom) (slot from to : Z) : prog (option (bool * Z)) :=
  do (ACas 4 (slot_off g slot + SH_STATE) from to).

Definition slot_state (g : Geom) (slot : Z) : prog (option Z) := state_load g slot.

(** [for s in 0..slot_count] of [init]. *)
Fixpoint init_slots (g : Geom) (n : nat) (s : Z) : prog unit :=
  match n with
  | O => Ret ()
  | S n => let* _ := write_u32 (slot_off g s + SH_STATE) ST_FREE in init_slots g n (s + 1)
  end.

Definition init (count cap : Z) : prog (result IpcError Geom) :=
  let stride := align8 (SLOT_HEADER_SIZE + cap) in
  let total := RING_HEADER_SIZE + count * stride in
  let* l := do ALen in
  if total >? l then Ret (Err Layout) else
  let* _ := write_u32 RH_MAGIC MAGIC in
  let* _ := write_u32 RH_VERSION VERSION in
  let* _ := write_u32 RH_SLOT_COUNT count in
  let* _ := write_u32 RH_SLOT_STRIDE (as_u32 stride) in
  let* _ := write_u32 RH_PAYLOAD_CAP cap in
  let* _ := write_u32 RH_WORKER_HINT 0 in
  let* _ := write_u64 RH_REQ_SEQ 0 in
  let* _ := write_u32 RH_SUBMIT_SEQ 0 in
  let* _ := write_u64 RH_REG_GEN 0 in
  let g := mkGeom count (as_u32 stride) cap in
  let* _ := init_slots g (Z.to_nat count) 0 in
  Ret (Ok g).

Definition open : prog (result IpcError Geom) :=
  let* l := do ALen in
  if l <? RING_HEADER_SIZE then Ret (Err Layout) else
  let* mg := read_u32 RH_MAGIC in
  if negb (bool_decide (mg = Some MAGIC)) then Ret (Err Layout) else
  let* v := read_u32 RH_VERSION in
  if negb (bool_decide (v = Some VERSION)) then Ret (Err Layout) else
  let* count := read_u32 RH_SLOT_COUNT in
  match count with None => Ret (Err Layout) | Some count =>
  let* stride := read_u32 RH_SLOT_STRIDE in
  match stride with None => Ret (Err Layout) | Some stride =>
  let* cap := read_u32 RH_PAYLOAD_CAP in
  match cap with None => Ret (Err Layout) | Some cap =>
  if negb (stride =? align8 (SLOT_HEADER_SIZE + cap)) then Ret (Err Layout) else
  let* l := do ALen in
  if RING_HEADER_SIZE + count * stride >? l then Ret (Err Layout) else
  Ret (Ok (mkGeom count stride cap))
  end end end.

Definition set_worker_hint (workers : Z) : prog bool := write_u32 RH_WORKER_HINT workers.
Definition worker_hint : prog Z := let* v := read_u32 RH_WORKER_HINT in Ret (default 0 v).

Definition publish_reg_generation (generation : Z) : prog (option unit) :=
  do (AMax 8 RH_REG_GEN generation).
Definition reg_generation : prog Z := let* v := do (ALoad 8 RH_REG_GEN) in Ret (default 0 v).

(** [start.wrapping_add(i) % n] *)
Definition scan_slot (g : Geom) (start i : Z) : Z := as_u32 (start + i) mod slot_count g.

Fixpoint claim_scan (g : Geom) (start : Z) (n : nat) (i : Z) : prog (option Z) :=
  match n with
  | O => Ret None
  | S n =>
      let s := scan_slot g start i in
      let* st := state_load g s in
      if bool_decide (st = Some ST_FREE) then
        let* c := state_cas g s ST_FREE ST_CLAIMED in
        match c with
        | Some (true, _) => Ret (Some s)
        | _ => claim_scan g start n (i + 1)
        end
      else claim_scan g start n (i + 1)
  end.

Definition claim_free_from (g : Geom) (start : Z) : prog (option Z) :=
  claim_scan g start (Z.to_nat (slot_count g)) 0.

Definition claim_free (g : Geom) : prog (option Z) := claim_free_from g 0.

Definition publish_request (g : Geom) (slot opcode flags : Z) (payload : bytes)
    : prog (result IpcError Z) :=
  if len payload >? payload_cap g then Ret (Err PayloadTooLarge) else
  let base := slot_off g slot in
  let* id := do (AAdd 8 RH_REQ_SEQ 1) in
  match id with
  | None => Ret (Err Layout)
  | Some req_id =>
      let* _ := write_u32 (base + SH_OPCODE) opcode in
      let* _ := write_u32 (base + SH_FLAGS) flags in
      let* _ := write_u32 (base + SH_PAYLOAD_LEN) (as_u32 (len payload)) in
      let* _ := write_u64 (base + SH_REQ_ID) req_id in
      let* _ := do (AWrite (payload_off g slot) payload) in
      let* st := state_store g slot ST_SUBMITTED in
      match st with
      | None => Ret (Err Layout)
      | Some _ =>
          let* n := do (AAdd 4 RH_SUBMIT_SEQ 1) in
          match n with None => Ret (Err Layout) | Some _ => Ret (Ok req_id) end
      end
  end.

Fixpoint take_scan (g : Geom) (start : Z) (n : nat) (i : Z) : prog (option Z) :=
  match n with
  | O => Ret None
  | S n =>
      let s := scan_slot g start i in
      let* c := state_cas g s ST_SUBMITTED ST_PROCESSING in
      match c with
      | Some (true, _) => Ret (Some s)
      | _ => take_scan g start n (i + 1)
      end
  end.

Definition server_take_from (g : Geom) (start : Z) : prog (option Z) :=
  take_scan g start (Z.to_nat (slot_count g)) 0.

Definition server_take (g : Geom) : prog (option Z) := server_take_from g 0.

Record RingReq := mkReq { q_opcode : Z; q_flags : Z; q_id : Z; q_payload : bytes }.

Definition read_request (g : Geom) (slot : Z) : prog (option RingReq) :=
  let base := slot_off g slot in
  let* op := read_u32 (base + SH_OPCODE) in
  match op with None => Ret None | Some op =>
  let* fl := read_u32 (base + SH_FLAGS) in
  match fl with None => Ret None | Some fl =>
  let* id := read_u64 (base + SH_REQ_ID) in
  match id with None => Ret None | Some id =>
  let* n := read_u32 (base + SH_PAYLOAD_LEN) in
  match n with None => Ret None | Some n =>
  if n >? payload_cap g then Ret None else
  let* pl := do (ARead (payload_off g slot) n) in
  match pl with None => Ret None | Some pl => Ret (Some (mkReq op fl id pl)) end
  end end end end.

Inductive Completion := Delivered | Drained | Stale.

Definition drain (g : Geom) (slot : Z) : prog Completion :=
  let* c := state_cas g slot ST_ABANDONED ST_FREE in
  match c with Some (true, _) => Ret Drained | _ => Ret Stale end.

Definition I32_MIN : Z := - 2 ^ 31.

Definition server_complete (g : Geom) (slot req_id status : Z) (resp : bytes)
    : prog (result IpcError Completion) :=
  let base := slot_off g slot in
  let* there := do (AAddr 4 (base + SH_STATE)) in
  if negb there then Ret (Err Layout) else
  let* id := read_u64 (base + SH_REQ_ID) in
  if negb (bool_decide (id = Some req_id)) then Ret (Ok Stale) else
  let* st := state_load g slot in
  match st with
  | None => Ret (Err Layout)
  | Some st =>
      if st =? ST_ABANDONED then let* c := drain g slot in Ret (Ok c)
      else if negb (st =? ST_PROCESSING) then Ret (Ok Stale)
      else
        let '(status, n) := (if len resp >? payload_cap g then (I32_MIN, 0) else (status, len resp)) in
        let* _ := (if len resp >? payload_cap g then Ret true
                   else do (AWrite (payload_off g slot) resp)) in
        let* _ := write_i32 (base + SH_STATUS) status in
        let* _ := write_u32 (base + SH_PAYLOAD_LEN) (as_u32 n) in
        let* _ := write_u32 (base + SH_ACK) (as_u32 req_id) in
        let* c := state_cas g slot ST_PROCESSING ST_COMPLETED in
        match c with
        | Some (true, _) => Ret (Ok Delivered)
        | Some (false, old) =>
            if old =? ST_ABANDONED then let* c := drain g slot in Ret (Ok c) else Ret (Ok Stale)
        | None => Ret (Err Layout)
        end
  end.

Definition take_response (g : Geom) (slot req_id : Z) : prog (result IpcError (option (Z * bytes))) :=
  let* st := state_load g slot in
  match st with
  | None => Ret (Err Layout)
  | Some st =>
      if negb (st =? ST_COMPLETED) then Ret (Ok None) else
      let base := slot_off g slot in
      let* ack := read_u32 (base + SH_ACK) in
      if negb (bool_decide (ack = Some (as_u32 req_id))) then Ret (Err BadResponse) else
      let* status := read_i32 (base + SH_STATUS) in
      match status with None => Ret (Err Layout) | Some status =>
      let* n := read_u32 (base + SH_PAYLOAD_LEN) in
      match n with None => Ret (Err Layout) | Some n =>
      if n >? payload_cap g then Ret (Err BadResponse) else
      let* pl := do (ARead (payload_off g slot) n) in
      match pl with None => Ret (Err Layout) | Some pl => Ret (Ok (Some (status, pl))) end
      end end
  end.

Definition free_slot (g : Geom) (slot : Z) : prog (result IpcError unit) :=
  let* st := state_store g slot ST_FREE in
  match st with None => Ret (Err Layout) | Some _ => Ret (Ok ()) end.

Inductive Abandon := Freed | Retired.

(** The loop of [abandon]; [None] when the fuel runs out. *)
Fixpoint abandon (fuel : nat) (g : Geom) (slot : Z) : prog (option (result IpcError Abandon)) :=
  match fuel with
  | O => Ret None
  | S fuel =>
      let* st := state_load g slot in
      match st with
      | None => Ret (Some (Err Layout))
      | Some st =>
          if st =? ST_ABANDONED then Ret (Some (Ok Retired)) else
          if (st =? ST_PROCESSING) || (st =? ST_SUBMITTED) || (st =? ST_CLAIMED) || (st =? ST_COMPLETED)
          then
            let '(to, outcome) :=
              (if st =? ST_PROCESSING then (ST_ABANDONED, Retired) else (ST_FREE, Freed)) in
            let* c := state_cas g slot st to in
            match c with
            | Some (true, _) => Ret (Some (Ok outcome))
            | Some (false, _) => abandon fuel g slot
            | None => Ret (Some (Err Layout))
            end
          else Ret (Some (Ok Freed))
      end
  end.

(** ** endpoint.rs *)

Record Unanswered := mkUnanswered { u_error : IpcError; u_retired : list Z }.

(** A loop that waits: it looks once, and [looks] more times before the clock
    says that the deadline has passed. *)
Fixpoint claim_slot_from (looks : nat) (g : Geom) (start : Z) : prog (result IpcError Z) :=
  let* s := claim_free_from g start in
  match s with
  | Some s => Ret (Ok s)
  | None => match looks with
            | O => Ret (Err RingFull)
            | S looks => claim_slot_from looks g start
            end
  end.

Fixpoint await_response (looks : nat) (g : Geom) (slot req_id : Z) : prog (result IpcError (Z * bytes)) :=
  let* r := take_response g slot req_id in
  match r with
  | Err e => Ret (Err e)
  | Ok (Some r) => Ret (Ok r)
  | Ok None => match looks with
               | O => Ret (Err Timeout)
               | S looks => await_response looks g slot req_id
               end
  end.

(** Fuel for the loop of [abandon]. *)
Definition ABANDON_FUEL : nat := 3.

Fixpoint abandon_slots (g : Geom) (slots : list Z) : prog (list Z) :=
  match slots with
  | [] => Ret []
  | slot :: slots =>
      let* r := abandon ABANDON_FUEL g slot in
      let* retired := abandon_slots g slots in
      match r with
      | Some (Ok Retired) => Ret (slot :: retired)
      | _ => Ret retired
      end
  end.

(** A request as its sender has it. *)
Record SendReq := mkSend { s_opcode : Z; s_flags : Z; s_payload : bytes }.

(** The looks that the deadline leaves a wait for a slot and a wait for a
    response. *)
Record Patience := mkPatience { for_slot : nat; for_reply : nat }.

(** The first component of the result is the thread's [SLOT_HINT] after the
    call. *)
Definition submit_reporting (p : Patience) (g : Geom) (hint : Z) (rq : SendReq)
    : prog (Z * result Unanswered (Z * bytes)) :=
  if len (s_payload rq) >? payload_cap g then Ret (hint, Err (mkUnanswered PayloadTooLarge [])) else
  let* slot := claim_slot_from (for_slot p) g hint in
  match slot with
  | Err e => Ret (hint, Err (mkUnanswered e []))
  | Ok slot =>
      let* id := publish_request g slot (s_opcode rq) (s_flags rq) (s_payload rq) in
      let* outcome := match id with
                      | Err e => Ret (Err e)
                      | Ok id => await_response (for_reply p) g slot id
                      end in
      match outcome with
      | Err e => let* retired := abandon_slots g [slot] in Ret (slot, Err (mkUnanswered e retired))
      | Ok r =>
          let* f := free_slot g slot in
          match f with
          | Err e => Ret (slot, Err (mkUnanswered e []))
          | Ok _ => Ret (slot, Ok r)
          end
      end
  end.

(** The first loop of [submit_many_held_reporting]: claim a slot for each
    request and publish it there; [slots] and [ids] grow as the code's do. *)
Fixpoint publish_all (p : Patience) (g : Geom) (start : Z) (reqs : list SendReq)
    (slots ids : list Z) : prog (result Unanswered (list Z * list Z)) :=
  match reqs with
  | [] => Ret (Ok (slots, ids))
  | rq :: reqs =>
      let* c := claim_slot_from (for_slot p) g start in
      match c with
      | Err e =>
          let* retired := abandon_slots g slots in Ret (Err (mkUnanswered e retired))
      | Ok slot =>
          let slots := slots ++ [slot] in
          let* id := publish_request g slot (s_opcode rq) (s_flags rq) (s_payload rq) in
          match id with
          | Err e =>
              let* retired := abandon_slots g slots in Ret (Err (mkUnanswered e retired))
          | Ok id => publish_all p g (as_u32 (slot + 1)) reqs slots (ids ++ [id])
          end
      end
  end.

(** Its second loop: wait for each in order; [all] is every slot of the call. *)
Fixpoint await_all (p : Patience) (g : Geom) (all : list Z) (todo : list (Z * Z))
    (out : list (Z * bytes)) : prog (result Unanswered (list (Z * bytes))) :=
  match todo with
  | [] => Ret (Ok out)
  | (slot, id) :: todo =>
      let* r := await_response (for_reply p) g slot id in
      match r with
      | Err e =>
          let* retired := abandon_slots g all in Ret (Err (mkUnanswered e retired))
      | Ok r => await_all p g all todo (out ++ [r])
      end
  end.

Definition submit_many_held_reporting (p : Patience) (g : Geom) (hint : Z) (reqs : list SendReq)
    : prog (Z * result Unanswered (list (Z * bytes) * list Z)) :=
  match reqs with
  | [] => Ret (hint, Ok ([], []))
  | _ =>
      if existsb (λ rq, len (s_payload rq) >? payload_cap g) reqs
      then Ret (hint, Err (mkUnanswered PayloadTooLarge [])) else
      let* pub := publish_all p g hint reqs [] [] in
      match pub with
      | Err u => Ret (hint, Err u)
      | Ok (slots, ids) =>
          let hint := default hint (head slots) in
          let* r := await_all p g slots (zip slots ids) [] in
          match r with
          | Err u => Ret (hint, Err u)
          | Ok out => Ret (hint, Ok (out, slots))
          end
      end
  end.

Fixpoint release_slots (g : Geom) (slots : list Z) : prog unit :=
  match slots with
  | [] => Ret ()
  | slot :: slots => let* _ := free_slot g slot in release_slots g slots
  end.

(** The first component of the result is the server's [next] after the call.
    The handler sees the slot as well as the request. *)
Definition serve_one (g : Geom) (next : Z) (handler : Z → RingReq → Z * bytes)
    : prog (Z * result IpcError bool) :=
  let* slot := server_take_from g next in
  match slot with
  | None => Ret (next, Ok false)
  | Some slot =>
      let next := as_u32 (slot + 1) in
      let* req := read_request g slot in
      match req with
      | None => Ret (next, Err BadResponse)
      | Some req =>
          let '(status, resp) := handler slot req in
          let* c := server_complete g slot (q_id req) status resp in
          match c with
          | Err e => Ret (next, Err e)
          | Ok _ => Ret (next, Ok true)
          end
      end
  end.
