(* ===== verification/Conc.v ===== *)
(** Conc: programs that run concurrently on one segment.

    A configuration is the memory and the threads' remaining programs; a step
    is one atomic access of one thread, so an execution is an interleaving of
    the threads' accesses. A thread's specification is given against a [view],
    its share of the ghost state, and an invariant that ties the memory to all
    the views together: [wp v p Q] says that whatever the other threads' views
    are, every access of [p] keeps the invariant when only this thread's view
    changes, and that [Q] holds when [p] returns. [adequacy] turns that into
    what holds in every reachable configuration. *)

From S2P Require Import Prelude Seg.

Section conc.
Context {T : Type}.

Definition config : Type := bytes * list (prog T).

Inductive step : config → config → Prop :=
| step_thread m ps i X (x : act X) k r m' :
    ps !! i = Some (Step x k) → exec x m = (r, m') →
    step (m, ps) (m', <[i := k r]> ps).

Definition reachable : config → config → Prop := rtc step.

Lemma reachable_length c c' : reachable c c' → length c'.2 = length c.2.
Proof.
induction 1 as [|c c1 c2 Hs Hr IH]; [done|]. rewrite IH. destruct Hs. cbn. by rewrite length_insert.
Qed.

(** The configuration after a schedule: which thread moves, step by step. *)
Definition sched_step (c : config) (i : nat) : config :=
match c.2 !! i with
| Some (Step x k) => let '(r, m) := exec x c.1 in (m, <[i := k r]> c.2)
| _ => c
end.
Definition sched_run (sched : list nat) (c : config) : config := foldl sched_step c sched.

Lemma sched_reachable sched c : reachable c (sched_run sched c).
Proof.
revert c. induction sched as [|i sched IH]; intros c; [apply rtc_refl|]. cbn.
unfold sched_step. destruct (c.2 !! i) as [[a|X x k]|] eqn:Hi; [apply IH| |apply IH].
destruct (exec x c.1) as [r m] eqn:Hx. eapply rtc_l; [|apply IH].
destruct c as [m0 ps]. by eapply step_thread.
Qed.

End conc.

Section wp.
Context {V : Type} (I : bytes → list V → Prop).
Context (I_perm : ∀ m vs vs', vs ≡ₚ vs' → I m vs → I m vs').

Fixpoint wp {A} (v : V) (p : prog A) (Q : A → V → Prop) : Prop :=
match p with
| Ret a => Q a v
| Step x k =>
    ∀ m vs, I m (v :: vs) →
      ∃ v', I (exec x m).2 (v' :: vs) ∧ wp v' (k (exec x m).1) Q
end.

Lemma wp_mono {A} v (p : prog A) (Q Q' : A → V → Prop) :
(∀ a v, Q a v → Q' a v) → wp v p Q → wp v p Q'.
Proof.
intros HQ. revert v. induction p as [a|X x k IH]; intros v; cbn; [apply HQ|].
intros H m vs HI. destruct (H m vs HI) as (v' & ? & ?). eauto.
Qed.

Lemma wp_bind {A B} v (p : prog A) (f : A → prog B) Q :
wp v p (λ a v', wp v' (f a) Q) → wp v (prog_bind f p) Q.
Proof.
revert v. induction p as [a|X x k IH]; intros v; cbn; [done|].
intros H m vs HI. destruct (H m vs HI) as (v' & ? & ?). eauto.
Qed.

(** The specification of a call, then the rest. *)
Lemma wp_call {A B} v (p : prog A) (f : A → prog B) (R : A → V → Prop) Q :
wp v p R → (∀ a v', R a v' → wp v' (f a) Q) → wp v (prog_bind f p) Q.
Proof. intros Hp Hf. apply wp_bind. eapply wp_mono; [|exact Hp]. done. Qed.

Context {T : Type}.

(** The threads' views, and their specifications for what is left of them. *)
Definition conc_ok (Qs : list (T → V → Prop)) (c : config) : Prop :=
∃ vs, I c.1 vs ∧ length vs = length c.2 ∧
  ∀ i v p Q, vs !! i = Some v → c.2 !! i = Some p → Qs !! i = Some Q → wp v p Q.

Lemma conc_ok_step (Qs : list (T → V → Prop)) c c' :
length Qs = length c.2 → step c c' → conc_ok Qs c → conc_ok Qs c'.
Proof.
intros HQ. destruct 1 as [m ps i X x k r m' Hp Hx]. intros (vs & HI & Hlen & Hwp). cbn in *.
assert (is_Some (vs !! i)) as [v Hv].
{ apply lookup_lt_is_Some. rewrite Hlen. by eapply lookup_lt_Some. }
assert (is_Some (Qs !! i)) as [Q HQi].
{ apply lookup_lt_is_Some. rewrite HQ. by eapply lookup_lt_Some. }
destruct (Hwp i v _ Q Hv Hp HQi m (delete i vs)) as (v' & HI' & Hk).
{ eapply I_perm; [|exact HI]. by apply delete_Permutation. }
rewrite Hx in HI', Hk. cbn in HI', Hk.
exists (<[i := v']> vs). cbn. split_and!.
- eapply I_perm; [|exact HI']. rewrite insert_take_drop, delete_take_drop by (by eapply lookup_lt_Some).
  by rewrite Permutation_middle.
- by rewrite !length_insert.
- intros j vj pj Qj Hvj Hpj HQj. destruct (decide (i = j)) as [<-|Hij].
  + rewrite list_lookup_insert_eq in Hvj by (by eapply lookup_lt_Some).
    rewrite list_lookup_insert_eq in Hpj by (by eapply lookup_lt_Some).
    simplify_eq. done.
  + rewrite list_lookup_insert_ne in Hvj by done.
    rewrite list_lookup_insert_ne in Hpj by done. eauto.
Qed.

Lemma conc_ok_reachable (Qs : list (T → V → Prop)) c c' :
length Qs = length c.2 → reachable c c' → conc_ok Qs c →
conc_ok Qs c' ∧ length c'.2 = length c.2.
Proof.
intros HQ Hr Hc. induction Hr as [c|c c1 c2 Hs Hr IH]; [done|].
assert (length c1.2 = length c.2) as Hl by (destruct Hs; cbn; by rewrite length_insert).
rewrite <- Hl. apply IH; [congruence|]. by eapply conc_ok_step.
Qed.

(** In every reachable configuration the views exist, and a thread that has
  returned has what its specification promises. *)
Lemma adequacy (Qs : list (T → V → Prop)) m ps vs m' ps' :
I m vs → length vs = length ps → length Qs = length ps →
(∀ i v p Q, vs !! i = Some v → ps !! i = Some p → Qs !! i = Some Q → wp v p Q) →
reachable (m, ps) (m', ps') →
∃ vs', I m' vs' ∧ length vs' = length ps' ∧
  ∀ i v a Q, vs' !! i = Some v → ps' !! i = Some (Ret a) → Qs !! i = Some Q → Q a v.
Proof.
intros HI Hlen HQ Hwp Hr.
destruct (conc_ok_reachable Qs (m, ps) (m', ps')) as [(vs' & HI' & Hlen' & Hwp') _];
  [done|done|exists vs; done|].
exists vs'. split_and!; [done|done|]. intros i v a Q Hv Hp HQi. exact (Hwp' i v _ Q Hv Hp HQi).
Qed.

End wp.
