(* ===== verification/RingInv.v ===== *)
(** RingInv: the invariant of the ring under any interleaving.

    Who may touch a slot is decided by its state word and by tokens that the
    threads hold: a client's [CClaim], [CSent], [CTaken] and [CDone], a
    server's [SProc] and [SGone]. A token that owns the slot's bytes says exactly what
    they are. [slot_ok] is the protocol: which tokens exist in which state and
    what is in the slot then; [inv] asks it of every slot. *)

From S2P Require Import Prelude Seg Ring Conc.

(** ** Slots in memory *)

(** The geometry that [init] and [open] accept, on a segment of [L] bytes. *)
Definition geom_ok (g : Geom) (L : Z) : Prop :=
  in_u32 (slot_count g) ∧ in_u32 (payload_cap g) ∧
  slot_stride g = align8 (SLOT_HEADER_SIZE + payload_cap g) ∧
  RING_HEADER_SIZE + slot_count g * slot_stride g ≤ L < u64_max.

Definition st_word (g : Geom) (m : bytes) (s : Z) : Z := from_le (mem_get m (slot_off g s) 4).

(** The slot's bytes after the state word. *)
Definition body (g : Geom) (m : bytes) (s : Z) : bytes :=
  mem_get m (slot_off g s + 4) (slot_stride g - 4).

Definition req_seq (m : bytes) : Z := from_le (mem_get m RH_REQ_SEQ 8).

Definition put_state (g : Geom) (m : bytes) (s v : Z) : bytes :=
  mem_put m (slot_off g s) (to_le 4 v).
Definition put_body (g : Geom) (m : bytes) (s o : Z) (d : bytes) : bytes :=
  mem_put m (slot_off g s + o) d.

(** A field of a slot, as an offset into its body. *)
Definition field (b : bytes) (o n : Z) : bytes := mem_get b (o - 4) n.
Definition set_field (b : bytes) (o : Z) (d : bytes) : bytes := mem_put b (o - 4) d.

Section slots.
Context (g : Geom) (L : Z) (Hg : geom_ok g L).

Definition slot_in (s : Z) : Prop := 0 ≤ s < slot_count g.

Lemma stride_bounds :
SLOT_HEADER_SIZE + payload_cap g ≤ slot_stride g ∧ slot_stride g mod 8 = 0 ∧ 32 ≤ slot_stride g.
Proof using Hg.
destruct Hg as (_ & Hc & -> & _). unfold SLOT_HEADER_SIZE in *. unfold_width.
destruct (align8_spec (32 + payload_cap g)); lia.
Qed.

Lemma slot_region s : slot_in s →
RING_HEADER_SIZE ≤ slot_off g s ∧ slot_off g s + slot_stride g ≤ L ∧ slot_off g s mod 8 = 0.
Proof using Hg.
intros Hs. unfold slot_in in Hs. destruct stride_bounds as (? & Hm & ?).
destruct Hg as (_ & _ & _ & ?). unfold slot_off, RING_HEADER_SIZE in *.
split_and!; [nia|nia|]. apply Z.mod_divide in Hm as [q Hq]; [|lia].
rewrite Hq. replace (48 + s * (q * 8)) with ((6 + s * q) * 8) by lia. apply Z.mod_mul. lia.
Qed.

Lemma slots_apart s s' : slot_in s → slot_in s' → s ≠ s' →
slot_off g s + slot_stride g ≤ slot_off g s' ∨ slot_off g s' + slot_stride g ≤ slot_off g s.
Proof using Hg.
intros. destruct stride_bounds as (? & _ & ?). unfold slot_off.
destruct (Z.lt_total s s') as [?|[?|?]]; [left|done|right]; nia.
Qed.

Lemma atomic_state m s : len m = L → slot_in s → atomic_ok m (slot_off g s + SH_STATE) 4 = true.
Proof using Hg.
intros Hm Hs. destruct (slot_region s Hs) as (? & ? & H8). destruct stride_bounds as (_ & _ & ?).
destruct Hg as (_ & _ & _ & ?). unfold atomic_ok, in_bounds, SH_STATE, RING_HEADER_SIZE in *.
rewrite Z.add_0_r, Hm, !andb_true_iff, Z.ltb_lt, Z.leb_le, Z.eqb_eq. split_and!; [lia|lia|].
apply Z.mod_divide in H8 as [q ->]; [|lia]. replace (q * 8) with (q * 2 * 4) by lia.
apply Z.mod_mul. lia.
Qed.

(** What a write to one slot leaves of the rest. *)
Definition same_rest (m m' : bytes) (s : Z) : Prop :=
len m' = len m ∧ req_seq m' = req_seq m ∧
∀ s', slot_in s' → s' ≠ s → st_word g m' s' = st_word g m s' ∧ body g m' s' = body g m s'.

Lemma put_in_slot m s o d : len m = L → slot_in s → 0 ≤ o → o + len d ≤ slot_stride g →
same_rest m (mem_put m (slot_off g s + o) d) s.
Proof using Hg.
intros Hm Hs Ho Hd. destruct (slot_region s Hs) as (? & ? & _). destruct stride_bounds as (_ & _ & ?).
pose proof (len_nonneg d). unfold same_rest, req_seq, st_word, body, RING_HEADER_SIZE, RH_REQ_SEQ in *.
split_and!; [by apply mem_put_len; lia|by rewrite mem_get_put_other by lia|].
intros s' Hs' Hne. destruct (slot_region s' Hs') as (? & ? & _).
unfold RING_HEADER_SIZE in *. destruct (slots_apart s s'); [done|done|done| |]; by rewrite !mem_get_put_other by lia.
Qed.

Lemma put_state_same m s v : len m = L → slot_in s → in_u32 v →
same_rest m (put_state g m s v) s ∧
st_word g (put_state g m s v) s = v ∧ body g (put_state g m s v) s = body g m s.
Proof using Hg.
intros Hm Hs Hv. pose proof (len_to_le 4 v) as Hl. cbn in Hl.
destruct (slot_region s Hs) as (? & ? & _). destruct stride_bounds as (_ & _ & ?).
unfold put_state, RING_HEADER_SIZE in *. split_and!.
- rewrite <- (Z.add_0_r (slot_off g s)). apply put_in_slot; lia || done.
- unfold st_word. replace 4 with (len (to_le 4 v)) by done. rewrite mem_get_put_same by lia.
  apply from_to_le_small. unfold_width. cbn. lia.
- unfold body. by rewrite mem_get_put_other by lia.
Qed.

Lemma put_body_same m s o d : len m = L → slot_in s → 4 ≤ o → o + len d ≤ slot_stride g →
same_rest m (put_body g m s o d) s ∧
st_word g (put_body g m s o d) s = st_word g m s ∧
body g (put_body g m s o d) s = set_field (body g m s) o d.
Proof using Hg.
intros Hm Hs Ho Hd. destruct (slot_region s Hs) as (? & ? & _). pose proof (len_nonneg d).
unfold put_body, RING_HEADER_SIZE in *. split_and!.
- apply put_in_slot; lia || done.
- unfold st_word. by rewrite mem_get_put_other by lia.
- unfold body, set_field. replace (slot_off g s + o) with (slot_off g s + 4 + (o - 4)) by lia.
  apply mem_get_put_in; lia.
Qed.

Lemma body_len m s : len m = L → slot_in s → len (body g m s) = slot_stride g - 4.
Proof using Hg.
intros Hm Hs. destruct (slot_region s Hs) as (? & ? & _). destruct stride_bounds as (_ & _ & ?).
unfold RING_HEADER_SIZE in *. apply mem_get_len; lia.
Qed.

Lemma body_field m s o n : len m = L → slot_in s → 4 ≤ o → 0 ≤ n → o + n ≤ slot_stride g →
field (body g m s) o n = mem_get m (slot_off g s + o) n.
Proof using Hg.
intros Hm Hs Ho Hn Hl. destruct (slot_region s Hs) as (? & ? & _). unfold RING_HEADER_SIZE in *.
unfold field, body. rewrite mem_get_get by lia. f_equal. lia.
Qed.

(** *** The accesses *)

Lemma in_bounds_slot m s o n : len m = L → slot_in s → 0 ≤ o → o + n ≤ slot_stride g →
in_bounds m (slot_off g s + o) n = true.
Proof using Hg.
intros Hm Hs Ho Hl. destruct (slot_region s Hs) as (? & ? & _). destruct Hg as (_ & _ & _ & ?).
unfold in_bounds, RING_HEADER_SIZE in *. rewrite Hm, andb_true_iff, Z.ltb_lt, Z.leb_le. lia.
Qed.

Lemma exec_load m s : len m = L → slot_in s →
exec (ALoad 4 (slot_off g s + SH_STATE)) m = (Some (st_word g m s), m).
Proof using Hg.
intros Hm Hs. cbn [exec]. rewrite atomic_state by done. unfold SH_STATE. by rewrite Z.add_0_r.
Qed.

Lemma exec_store m s v : len m = L → slot_in s →
exec (AStore 4 (slot_off g s + SH_STATE) v) m = (Some (), put_state g m s v).
Proof using Hg.
intros Hm Hs. cbn [exec]. rewrite atomic_state by done. unfold SH_STATE, put_state.
by rewrite Z.add_0_r.
Qed.

Lemma exec_cas m s from to : len m = L → slot_in s →
exec (ACas 4 (slot_off g s + SH_STATE) from to) m =
  if st_word g m s =? from then (Some (true, st_word g m s), put_state g m s to)
  else (Some (false, st_word g m s), m).
Proof using Hg.
intros Hm Hs. cbn [exec]. rewrite atomic_state by done. unfold SH_STATE, put_state.
by rewrite Z.add_0_r.
Qed.

Lemma exec_write m s o d : len m = L → slot_in s → 0 ≤ o → o + len d ≤ slot_stride g →
exec (AWrite (slot_off g s + o) d) m = (true, put_body g m s o d).
Proof using Hg.
intros. cbn [exec]. unfold write_bytes. by rewrite in_bounds_slot.
Qed.

Lemma exec_read m s o n : len m = L → slot_in s → 4 ≤ o → 0 ≤ n → o + n ≤ slot_stride g →
exec (ARead (slot_off g s + o) n) m = (Some (field (body g m s) o n), m).
Proof using Hg.
intros. cbn [exec]. unfold read_bytes. rewrite in_bounds_slot by lia || done.
by rewrite body_field.
Qed.

End slots.

(** *** Fields of a body *)

Lemma field_set_same b o d n : n = len d → 4 ≤ o → o - 4 + n ≤ len b → field (set_field b o d) o n = d.
Proof. intros -> ??. unfold field, set_field. apply mem_get_put_same; lia. Qed.

Lemma field_set_other b o d o' n :
  4 ≤ o → o - 4 + len d ≤ len b → 4 ≤ o' → 0 ≤ n → o' + n ≤ o ∨ o + len d ≤ o' →
  field (set_field b o d) o' n = field b o' n.
Proof. intros. unfold field, set_field. apply mem_get_put_other; lia. Qed.

Lemma set_field_len b o d : 4 ≤ o → o - 4 + len d ≤ len b → len (set_field b o d) = len b.
Proof. intros. unfold set_field. apply mem_put_len; lia. Qed.

(** ** Tokens *)

Inductive tok :=
  | CClaim (b : bytes)
  | CSent (q : RingReq)
  | CTaken (q : RingReq)
  | CDone (b : bytes)
  | SProc (b : bytes) (q : RingReq)
  | SGone (b : bytes).

(** A thread's tokens, by slot and by side: [true] is the client's. *)
Abbreviation view := (gmap (Z * bool) tok) (only parsing).

(** The tokens for [k] among all threads' views. *)
Definition held (vs : list view) (k : Z * bool) : list tok := omap (λ v : view, v !! k) vs.

(** The request that a body holds. *)
Definition has_req (g : Geom) (b : bytes) (q : RingReq) : Prop :=
  from_le (field b SH_OPCODE 4) = q_opcode q ∧ from_le (field b SH_FLAGS 4) = q_flags q ∧
  from_le (field b SH_REQ_ID 8) = q_id q ∧
  from_le (field b SH_PAYLOAD_LEN 4) = len (q_payload q) ∧ len (q_payload q) ≤ payload_cap g ∧
  field b SLOT_HEADER_SIZE (len (q_payload q)) = q_payload q.

(** The reply that a body holds, to the request with identifier [id]. *)
Definition has_reply (g : Geom) (b : bytes) (id : Z) (r : Z * bytes) : Prop :=
  as_i32 (from_le (field b SH_STATUS 4)) = r.1 ∧ from_le (field b SH_ACK 4) = as_u32 id ∧
  from_le (field b SH_PAYLOAD_LEN 4) = len r.2 ∧ len r.2 ≤ payload_cap g ∧
  field b SLOT_HEADER_SIZE (len r.2) = r.2.

(** What becomes of an answer: one too long for a slot is replaced. *)
Definition fit (g : Geom) (a : Z * bytes) : Z * bytes :=
  if len a.2 >? payload_cap g then (I32_MIN, []) else a.

(** The bytes that a token owns. *)
Definition tok_body (t : tok) : option bytes :=
  match t with CClaim b | CDone b | SProc b _ | SGone b => Some b | CSent _ | CTaken _ => None end.
Definition tok_set (t : tok) (b : bytes) : tok :=
  match t with
  | CClaim _ => CClaim b | CDone _ => CDone b | SProc _ q => SProc b q
  | SGone _ => SGone b | CSent q => CSent q | CTaken q => CTaken q
  end.

Section protocol.
Context (g : Geom) (L : Z).
(** What may answer a request. *)
Context (Answers : RingReq → Z * bytes → Prop).

Definition answered (b : bytes) (q : RingReq) : Prop :=
∃ a, Answers q a ∧ has_reply g b (q_id q) (fit g a).

Inductive slot_ok (st : Z) (b : bytes) : list tok → list tok → Prop :=
| so_free : st = ST_FREE → slot_ok st b [] []
| so_claimed : st = ST_CLAIMED → slot_ok st b [CClaim b] []
| so_submitted q : st = ST_SUBMITTED → has_req g b q → slot_ok st b [CSent q] []
| so_processing q : st = ST_PROCESSING → slot_ok st b [CSent q] [SProc b q]
| so_processing_taken q : st = ST_PROCESSING → slot_ok st b [CTaken q] [SProc b q]
| so_completed q : st = ST_COMPLETED → answered b q → slot_ok st b [CSent q] []
| so_completed_taken q : st = ST_COMPLETED → answered b q → slot_ok st b [CTaken q] []
| so_done : st = ST_COMPLETED → slot_ok st b [CDone b] []
| so_abandoned q : st = ST_ABANDONED → slot_ok st b [] [SProc b q]
| so_gone : st = ST_ABANDONED → slot_ok st b [] [SGone b].

Definition inv (m : bytes) (vs : list view) : Prop :=
len m = L ∧ in_u64 (req_seq m) ∧
∀ s, slot_in g s →
  slot_ok (st_word g m s) (body g m s) (held vs (s, true)) (held vs (s, false)).

Lemma slot_ok_perm st b C C' S S' : C ≡ₚ C' → S ≡ₚ S' → slot_ok st b C S → slot_ok st b C' S'.
Proof.
intros HC HS H. destruct H;
  repeat match goal with
  | H : [] ≡ₚ _ |- _ => apply Permutation_nil_l in H
  | H : [_] ≡ₚ _ |- _ => apply Permutation_singleton_l in H
  end; subst; by econstructor.
Qed.

Lemma inv_perm m vs vs' : vs ≡ₚ vs' → inv m vs → inv m vs'.
Proof.
intros Hp (? & ? & H). split_and!; [done|done|]. intros s Hs.
eapply slot_ok_perm; [| |by apply H]; unfold held; by apply omap_Permutation.
Qed.

Lemma held_cons v vs k : held (v :: vs) k = option_list (v !! k) ++ held vs k.
Proof. unfold held. cbn. by destruct (v !! k). Qed.

Lemma held_nil vs k : (∀ v, v ∈ vs → v !! k = None) → held vs k = [].
Proof.
induction vs as [|v vs IH]; intros H; [done|]. rewrite held_cons, H by set_solver. apply IH. set_solver.
Qed.

Lemma slot_ok_nil st b : slot_ok st b [] [] → st = ST_FREE.
Proof. by inversion 1. Qed.

(** A step on slot [s] that changes no other slot and no other token. *)
Lemma inv_step s m m' v v' vs :
inv m (v :: vs) → same_rest g m m' s →
(∀ k, k.1 ≠ s → v' !! k = v !! k) →
(slot_in g s → slot_ok (st_word g m' s) (body g m' s)
   (option_list (v' !! (s, true)) ++ held vs (s, true))
   (option_list (v' !! (s, false)) ++ held vs (s, false))) →
inv m' (v' :: vs).
Proof.
intros (Hm & Hq & H) (Hm' & Hq' & Hrest) Hv Hs. split_and!; [congruence|by rewrite Hq'|].
intros s' Hin. destruct (decide (s' = s)) as [->|Hne].
- rewrite !held_cons. auto.
- destruct (Hrest s' Hin Hne) as [-> ->]. specialize (H s' Hin).
  rewrite !held_cons in H. rewrite !held_cons, !Hv by done. done.
Qed.

Lemma same_rest_refl m s : same_rest g m m s.
Proof. by split_and!. Qed.

Lemma inv_slot m v vs s : inv m (v :: vs) → slot_in g s →
slot_ok (st_word g m s) (body g m s)
  (option_list (v !! (s, true)) ++ held vs (s, true))
  (option_list (v !! (s, false)) ++ held vs (s, false)).
Proof. intros (_ & _ & H) Hs. rewrite <- !held_cons. auto. Qed.

End protocol.
