(* ===== verification/RingSpecs.v ===== *)
(** RingSpecs: what each function of ring.rs does to the ring when any other
    threads run beside it, as [wp] specifications over the tokens the caller
    holds. *)

From S2P Require Import Prelude Seg Ring Conc RingInv.

Section specs.
Context (g : Geom) (L : Z) (Hg : geom_ok g L).
Context (Answers : RingReq → Z * bytes → Prop).

Local Abbreviation inv := (inv g L Answers).
Local Abbreviation slot_ok := (slot_ok g Answers).
Local Abbreviation ring_wp := (wp inv).

Lemma inv_len m vs : inv m vs → len m = L.
Proof. by intros []. Qed.

(** ** Accesses to a slot whose bytes the caller owns *)

Lemma slot_ok_body st b C S t b' :
slot_ok st b C S → t ∈ C ∨ t ∈ S → tok_body t = Some b' → b' = b.
Proof.
intros H Ht Hb. destruct H, Ht as [Ht|Ht];
  try (by apply not_elem_of_nil in Ht); apply list_elem_of_singleton in Ht as ->;
  cbn in Hb; congruence.
Qed.

Lemma slot_ok_set_client st b C S t b' :
slot_ok st b (t :: C) S → is_Some (tok_body t) → slot_ok st b' (tok_set t b' :: C) S.
Proof. intros H [b0 Hb]. inversion H; subst; cbn in Hb; try done; by econstructor. Qed.

Lemma slot_ok_set_server st b C S t b' :
slot_ok st b C (t :: S) → is_Some (tok_body t) → (∀ t', t' ∈ C → tok_body t' = None) ∧
slot_ok st b' C (tok_set t b' :: S).
Proof.
intros H [b0 Hb]. inversion H; subst; cbn in Hb; try done; (split; [|by econstructor]);
  intros t' Ht'; first [by apply not_elem_of_nil in Ht'|by apply list_elem_of_singleton in Ht' as ->].
Qed.

Lemma held_own m v vs s side t :
inv m (v :: vs) → slot_in g s → v !! (s, side) = Some t →
∀ b, tok_body t = Some b → body g m s = b.
Proof.
intros HI Hs Hv b Hb. symmetry. pose proof (inv_slot _ _ _ _ _ _ _ HI Hs) as H.
eapply slot_ok_body; [exact H| |exact Hb].
destruct side; rewrite Hv; cbn; [left|right]; apply list_elem_of_here.
Qed.

Lemma wp_read {A} v s side t b o n (f : option bytes → prog A) Q :
slot_in g s → v !! (s, side) = Some t → tok_body t = Some b →
4 ≤ o → 0 ≤ n → o + n ≤ slot_stride g →
ring_wp v (f (Some (field b o n))) Q →
ring_wp v (prog_bind f (do (ARead (slot_off g s + o) n))) Q.
Proof using Hg.
intros Hs Hv Hb Ho Hn Hl Hf m vs HI. exists v.
rewrite (exec_read g L Hg) by (done || by eapply inv_len). cbn.
by rewrite (held_own m v vs s side t HI Hs Hv b Hb).
Qed.

Lemma wp_write {A} v s side t b o d (f : bool → prog A) Q :
slot_in g s → v !! (s, side) = Some t → tok_body t = Some b →
4 ≤ o → o + len d ≤ slot_stride g →
ring_wp (<[(s, side) := tok_set t (set_field b o d)]> v) (f true) Q →
ring_wp v (prog_bind f (do (AWrite (slot_off g s + o) d))) Q.
Proof using Hg.
intros Hs Hv Hb Ho Hl Hf m vs HI. exists (<[(s, side) := tok_set t (set_field b o d)]> v).
pose proof (inv_len _ _ HI) as Hm.
rewrite (exec_write g L Hg) by (done || lia). cbn [fst snd]. split; [|done].
destruct (put_body_same g L Hg m s o d Hm Hs Ho Hl) as (Hr & Hst & Hbd).
eapply (inv_step _ _ _ s); [exact HI|done| |].
- intros [s' i] Hne. cbn in Hne. by rewrite lookup_insert_ne by congruence.
- intros _. pose proof (inv_slot _ _ _ _ _ _ _ HI Hs) as H.
  rewrite Hst, Hbd, (held_own m v vs s side t HI Hs Hv b Hb).
  rewrite (held_own m v vs s side t HI Hs Hv b Hb) in H.
  destruct side; rewrite lookup_insert_eq, lookup_insert_ne by done; rewrite Hv in H; cbn in *.
  + by eapply slot_ok_set_client.
  + by eapply slot_ok_set_server.
Qed.

(** ** The header's counters *)

Lemma header_fits : RING_HEADER_SIZE ≤ L < u64_max.
Proof using Hg.
destruct (stride_bounds g L Hg) as (_ & _ & ?). destruct Hg as ((? & _) & _ & _ & ?).
unfold RING_HEADER_SIZE in *. nia.
Qed.

Lemma inv_header m v vs o d :
inv m (v :: vs) → 0 ≤ o → o + len d ≤ RING_HEADER_SIZE → in_u64 (req_seq (mem_put m o d)) →
inv (mem_put m o d) (v :: vs).
Proof using Hg.
intros (Hm & _ & H) Ho Hd Hq. pose proof (len_nonneg d).
pose proof header_fits.
unfold RING_HEADER_SIZE in *. split_and!; [rewrite mem_put_len; lia|done|]. intros s Hs.
destruct (slot_region g L Hg s Hs) as (? & ? & _). unfold RING_HEADER_SIZE in *.
pose proof (stride_bounds g L Hg). unfold st_word, body. rewrite !mem_get_put_other by lia. by apply H.
Qed.

Lemma atomic_header m n o : len m = L → 0 ≤ o → 0 < n → o + n ≤ RING_HEADER_SIZE → o mod n = 0 →
atomic_ok m o n = true.
Proof using Hg.
intros Hm ??? Ho. pose proof header_fits. unfold atomic_ok, in_bounds, RING_HEADER_SIZE in *.
rewrite Hm, !andb_true_iff, Z.ltb_lt, Z.leb_le, Z.eqb_eq. split_and!; [lia|lia|done].
Qed.

(** A fresh request identifier. *)
Lemma wp_req_seq {A} v (f : option Z → prog A) Q :
(∀ id, in_u64 id → ring_wp v (f (Some id)) Q) →
ring_wp v (prog_bind f (do (AAdd 8 RH_REQ_SEQ 1))) Q.
Proof using Hg.
intros Hf m vs HI. exists v. pose proof (inv_len _ _ HI) as Hm. pose proof HI as (_ & Hq & _).
cbn [exec]. rewrite atomic_header by done. cbn [fst snd]. split; [|by apply Hf].
set (x := from_le (mem_get m RH_REQ_SEQ 8) + 1).
apply inv_header; [done|done|done|]. unfold req_seq.
replace 8 with (len (to_le (Z.to_nat 8) x)) at 2 by done.
rewrite mem_get_put_same; [|done|].
- rewrite from_to_le. apply Z.mod_pos_bound. done.
- rewrite Hm. pose proof header_fits. change (len (to_le (Z.to_nat 8) x)) with 8.
  unfold RING_HEADER_SIZE, RH_REQ_SEQ in *. lia.
Qed.

Lemma wp_submit_seq {A} v (f : option Z → prog A) Q :
(∀ n, ring_wp v (f (Some n)) Q) →
ring_wp v (prog_bind f (do (AAdd 4 RH_SUBMIT_SEQ 1))) Q.
Proof using Hg.
intros Hf m vs HI. exists v. pose proof (inv_len _ _ HI) as Hm. pose proof HI as (_ & Hq & _).
cbn [exec]. rewrite atomic_header by done. cbn [fst snd]. split; [|by apply Hf].
apply inv_header; [done|done|done|]. unfold req_seq.
rewrite mem_get_put_other; [done|done| |done|done|left; done].
rewrite Hm, len_to_le. pose proof header_fits. unfold RING_HEADER_SIZE, RH_SUBMIT_SEQ in *. lia.
Qed.

(** ** The state word *)

(** A step on the state word of [s]: what is asked of the new token of each
  side. *)
Lemma inv_put_state m v vs s x v' :
inv m (v :: vs) → slot_in g s → in_u32 x →
(∀ k, k.1 ≠ s → v' !! k = v !! k) →
slot_ok x (body g m s) (option_list (v' !! (s, true)) ++ held vs (s, true))
  (option_list (v' !! (s, false)) ++ held vs (s, false)) →
inv (put_state g m s x) (v' :: vs).
Proof using Hg.
intros HI Hs Hx Hv H. destruct (put_state_same g L Hg m s x (inv_len _ _ HI) Hs Hx) as (Hr & Hst & Hb).
eapply (inv_step _ _ _ s); [exact HI|done|done|]. intros _. by rewrite Hst, Hb.
Qed.

(** A step that leaves the memory as it is and changes the caller's token. *)
Lemma inv_retoken m v vs s v' :
inv m (v :: vs) →
(∀ k, k.1 ≠ s → v' !! k = v !! k) →
(slot_in g s →
 slot_ok (st_word g m s) (body g m s) (option_list (v' !! (s, true)) ++ held vs (s, true))
  (option_list (v' !! (s, false)) ++ held vs (s, false))) →
inv m (v' :: vs).
Proof. intros HI Hv H. eapply (inv_step _ _ _ s); [exact HI|apply same_rest_refl|done|done]. Qed.

Lemma other_keys (v : gmap (Z * bool) tok) s side t k : k.1 ≠ s → <[(s, side) := t]> v !! k = v !! k.
Proof. destruct k. cbn. intros. by rewrite lookup_insert_ne by congruence. Qed.

Lemma other_keys_delete (v : gmap (Z * bool) tok) s side k : k.1 ≠ s → delete (s, side) v !! k = v !! k.
Proof. destruct k. cbn. intros. by rewrite lookup_delete_ne by congruence. Qed.

Lemma wp_look {A} v s (f : option Z → prog A) Q :
slot_in g s → (∀ st, ring_wp v (f (Some st)) Q) → ring_wp v (prog_bind f (state_load g s)) Q.
Proof using Hg.
intros Hs Hf m vs HI. exists v. rewrite (exec_load g L Hg) by (done || by eapply inv_len).
split; [done|apply Hf].
Qed.

(** A compare-and-swap of the state word: what is to be shown if it takes
  place, and if it does not. *)
Lemma wp_cas {A} v s from to (f : option (bool * Z) → prog A) Q :
slot_in g s →
(∀ m vs, inv m (v :: vs) → st_word g m s = from →
  ∃ v', inv (put_state g m s to) (v' :: vs) ∧ ring_wp v' (f (Some (true, from))) Q) →
(∀ m vs, inv m (v :: vs) → st_word g m s ≠ from →
  ∃ v', inv m (v' :: vs) ∧ ring_wp v' (f (Some (false, st_word g m s))) Q) →
ring_wp v (prog_bind f (state_cas g s from to)) Q.
Proof using Hg.
intros Hs Ht Hf m vs HI. rewrite (exec_cas g L Hg) by (done || by eapply inv_len).
destruct (Z.eqb_spec (st_word g m s) from) as [He|He]; cbn [fst snd].
- rewrite He. by apply Ht.
- by apply Hf.
Qed.

Lemma scan_slot_in start i : 0 < slot_count g → slot_in g (scan_slot g start i).
Proof. intros. unfold slot_in, scan_slot. apply Z.mod_pos_bound. lia. Qed.

(** The tokens of a state, when the caller holds none. *)
Lemma slot_ok_free b C S : slot_ok ST_FREE b C S → C = [] ∧ S = [].
Proof. by inversion 1. Qed.

Lemma slot_ok_submitted b C S : slot_ok ST_SUBMITTED b C S → ∃ q, has_req g b q ∧ C = [CSent q] ∧ S = [].
Proof. inversion 1; try done. eauto. Qed.

(** ** claim_free_from *)

Definition claimed (v : view) (r : option Z) (v' : view) : Prop :=
match r with
| None => v' = v
| Some s => slot_in g s ∧ v !! (s, true) = None ∧
    ∃ b, len b = slot_stride g - 4 ∧ v' = <[(s, true) := CClaim b]> v
end.

Lemma claim_scan_spec v start n i : 0 < slot_count g →
ring_wp v (claim_scan g start n i) (claimed v).
Proof using Hg.
intros Hc. revert i. induction n as [|n IH]; intros i; cbn [claim_scan]; [done|].
pose proof (scan_slot_in start i Hc) as Hs. set (s := scan_slot g start i) in *. clearbody s.
apply wp_look; [done|]. intros st. case_bool_decide as Hfree; [clear Hfree|apply IH].
apply wp_cas; [done| |by eauto]. intros m vs HI Hst.
pose proof (inv_slot _ _ _ _ _ _ _ HI Hs) as H. rewrite Hst in H.
apply slot_ok_free in H as [HC HS]. apply app_eq_nil in HC as [HC HC'].
assert (v !! (s, true) = None) as Hn by (destruct (v !! (s, true)); done).
exists (<[(s, true) := CClaim (body g m s)]> v). split.
- apply (inv_put_state m v); [done..|apply other_keys|].
  rewrite lookup_insert_eq, lookup_insert_ne, HC', HS by done. by constructor.
- cbn. split_and!; [done|done|]. eexists. split; [|done].
  apply (body_len g L Hg); [|done]. by eapply inv_len.
Qed.

Lemma claim_free_from_spec v start : ring_wp v (claim_free_from g start) (claimed v).
Proof using Hg.
unfold claim_free_from. destruct (decide (0 < slot_count g)); [by apply claim_scan_spec|].
by replace (Z.to_nat (slot_count g)) with O by lia.
Qed.

(** ** server_take_from *)

Definition taken (v : view) (r : option Z) (v' : view) : Prop :=
match r with
| None => v' = v
| Some s => slot_in g s ∧ v !! (s, false) = None ∧
    ∃ b q, len b = slot_stride g - 4 ∧ has_req g b q ∧ v' = <[(s, false) := SProc b q]> v
end.

Lemma take_scan_spec v start n i : 0 < slot_count g →
ring_wp v (take_scan g start n i) (taken v).
Proof using Hg.
intros Hc. revert i. induction n as [|n IH]; intros i; cbn [take_scan]; [done|].
pose proof (scan_slot_in start i Hc) as Hs. set (s := scan_slot g start i) in *. clearbody s.
apply wp_cas; [done| |by eauto]. intros m vs HI Hst.
pose proof (inv_slot _ _ _ _ _ _ _ HI Hs) as H. rewrite Hst in H.
apply slot_ok_submitted in H as (q & Hq & HC & HS). apply app_eq_nil in HS as [HS HS'].
assert (v !! (s, false) = None) as Hn by (destruct (v !! (s, false)); done).
exists (<[(s, false) := SProc (body g m s) q]> v). split.
- apply (inv_put_state m v); [done..|apply other_keys|].
  rewrite lookup_insert_eq, lookup_insert_ne, HS', HC by done. by constructor.
- cbn. split_and!; [done|done|]. do 2 eexists. split_and!; [|exact Hq|done].
  apply (body_len g L Hg); [|done]. by eapply inv_len.
Qed.

Lemma server_take_from_spec v start : ring_wp v (server_take_from g start) (taken v).
Proof using Hg.
unfold server_take_from. destruct (decide (0 < slot_count g)); [by apply take_scan_spec|].
by replace (Z.to_nat (slot_count g)) with O by lia.
Qed.

(** ** Reads and writes of a slot that the caller has just been given *)

Lemma wp_write_own {A} v s side t b o d (f : bool → prog A) Q :
slot_in g s → tok_body t = Some b → 4 ≤ o → o + len d ≤ slot_stride g →
ring_wp (<[(s, side) := tok_set t (set_field b o d)]> v) (f true) Q →
ring_wp (<[(s, side) := t]> v) (prog_bind f (do (AWrite (slot_off g s + o) d))) Q.
Proof using Hg.
intros Hs Hb Ho Hl Hf. eapply wp_write; [done|apply lookup_insert_eq|done|done|done|].
by rewrite insert_insert_eq.
Qed.

Lemma wp_read_own {A} v s side t b o n (f : option bytes → prog A) Q :
slot_in g s → tok_body t = Some b → 4 ≤ o → 0 ≤ n → o + n ≤ slot_stride g →
ring_wp (<[(s, side) := t]> v) (f (Some (field b o n))) Q →
ring_wp (<[(s, side) := t]> v) (prog_bind f (do (ARead (slot_off g s + o) n))) Q.
Proof using Hg. intros Hs Hb Ho Hn Hl Hf. by eapply wp_read; [|apply lookup_insert_eq|..]. Qed.

Lemma wp_read_u32 {A} v s side t b o (f : option Z → prog A) Q :
slot_in g s → tok_body t = Some b → 4 ≤ o → o + 4 ≤ slot_stride g →
ring_wp (<[(s, side) := t]> v) (f (Some (from_le (field b o 4)))) Q →
ring_wp (<[(s, side) := t]> v) (prog_bind f (read_u32 (slot_off g s + o))) Q.
Proof using Hg.
intros Hs Hb Ho Hl Hf.
exact (wp_read_own v s side t b o 4 (λ x, f (from_le <$> x)) Q Hs Hb Ho ltac:(lia) Hl Hf).
Qed.

Lemma wp_read_u64 {A} v s side t b o (f : option Z → prog A) Q :
slot_in g s → tok_body t = Some b → 4 ≤ o → o + 8 ≤ slot_stride g →
ring_wp (<[(s, side) := t]> v) (f (Some (from_le (field b o 8)))) Q →
ring_wp (<[(s, side) := t]> v) (prog_bind f (read_u64 (slot_off g s + o))) Q.
Proof using Hg.
intros Hs Hb Ho Hl Hf.
exact (wp_read_own v s side t b o 8 (λ x, f (from_le <$> x)) Q Hs Hb Ho ltac:(lia) Hl Hf).
Qed.

Lemma wp_read_i32 {A} v s side t b o (f : option Z → prog A) Q :
slot_in g s → tok_body t = Some b → 4 ≤ o → o + 4 ≤ slot_stride g →
ring_wp (<[(s, side) := t]> v) (f (Some (as_i32 (from_le (field b o 4))))) Q →
ring_wp (<[(s, side) := t]> v) (prog_bind f (read_i32 (slot_off g s + o))) Q.
Proof using Hg.
intros Hs Hb Ho Hl Hf.
exact (wp_read_u32 v s side t b o (λ x, f (as_i32 <$> x)) Q Hs Hb Ho Hl Hf).
Qed.

Lemma stride_cap : 32 + payload_cap g ≤ slot_stride g ∧ 0 ≤ payload_cap g < u32_max.
Proof using Hg.
destruct (stride_bounds g L Hg) as [? _]. destruct Hg as (_ & ? & _). unfold SLOT_HEADER_SIZE in *.
split; [done|]. done.
Qed.

(** ** publish_request *)

(** The body after the writes of [publish_request]. *)
Definition request_body (b : bytes) (q : RingReq) : bytes :=
set_field (set_field (set_field (set_field (set_field b
  SH_OPCODE (to_le 4 (q_opcode q))) SH_FLAGS (to_le 4 (q_flags q)))
  SH_PAYLOAD_LEN (to_le 4 (as_u32 (len (q_payload q))))) SH_REQ_ID (to_le 8 (q_id q)))
  SLOT_HEADER_SIZE (q_payload q).

Definition req_ok (q : RingReq) : Prop :=
in_u32 (q_opcode q) ∧ in_u32 (q_flags q) ∧ in_u64 (q_id q) ∧ len (q_payload q) ≤ payload_cap g.

(** Fields of nested writes, of a body as long as a slot's. *)
Ltac field_len :=
rewrite ?len_to_le, ?len_nil; first [lia | rewrite set_field_len; [field_len|lia|field_len]].
Ltac slot_fields :=
repeat first [rewrite field_set_same by field_len | rewrite field_set_other by field_len].

Lemma request_body_has b q :
len b = slot_stride g - 4 → req_ok q → has_req g (request_body b q) q.
Proof using Hg.
intros Hb (Ho & Hf & Hi & Hp). destruct stride_cap as [? ?]. pose proof (len_nonneg (q_payload q)).
unfold has_req, request_body, SH_OPCODE, SH_FLAGS, SH_PAYLOAD_LEN, SH_REQ_ID, SLOT_HEADER_SIZE.
assert (as_u32 (len (q_payload q)) = len (q_payload q)) as -> by (apply Z.mod_small; lia).
split_and!; slot_fields; try done; apply from_to_le_small; unfold_width; cbn; lia.
Qed.

(** The owner's store of the state word. *)
Lemma wp_store {A} v s x (f : option unit → prog A) Q v' :
slot_in g s → in_u32 x →
(∀ k, k.1 ≠ s → v' !! k = v !! k) →
(∀ st b C S, slot_ok st b (option_list (v !! (s, true)) ++ C) (option_list (v !! (s, false)) ++ S) →
   slot_ok x b (option_list (v' !! (s, true)) ++ C) (option_list (v' !! (s, false)) ++ S)) →
ring_wp v' (f (Some ())) Q → ring_wp v (prog_bind f (state_store g s x)) Q.
Proof using Hg.
intros Hs Hx Hk H Hf m vs HI. exists v'. rewrite (exec_store g L Hg) by (done || by eapply inv_len).
split; [|done]. apply (inv_put_state m v); [done..|]. eapply H. by eapply inv_slot.
Qed.

Definition published (v : view) (s op fl : Z) (pl : bytes) (r : result IpcError Z) (v' : view) : Prop :=
match r with
| Ok id => v' = <[(s, true) := CSent (mkReq op fl id pl)]> v
| Err _ => False
end.

Lemma publish_request_spec v s b op fl pl :
slot_in g s → len b = slot_stride g - 4 → in_u32 op → in_u32 fl → len pl ≤ payload_cap g →
ring_wp (<[(s, true) := CClaim b]> v) (publish_request g s op fl pl) (published v s op fl pl).
Proof using Hg.
intros Hs Hb Hop Hfl Hpl. destruct stride_cap as [? ?]. pose proof (len_nonneg pl).
unfold publish_request. replace (len pl >? payload_cap g) with false by lia.
apply wp_req_seq. intros id Hid.
unfold write_u32, write_u64, payload_off, SH_OPCODE, SH_FLAGS, SH_PAYLOAD_LEN, SH_REQ_ID, SLOT_HEADER_SIZE.
do 5 (eapply wp_write_own; [done|done|lia|rewrite ?len_to_le; lia|]; cbn [tok_set]).
pose proof (request_body_has b (mkReq op fl id pl) Hb ltac:(done)) as Hreq.
eapply (wp_store _ s _ _ _ (<[(s, true) := CSent (mkReq op fl id pl)]> v)); [done|done| | |].
- intros k Hk. by rewrite !other_keys.
- intros st b' C S. rewrite !lookup_insert_eq, !lookup_insert_ne by done. cbn [option_list app].
  inversion 1; subst. by constructor.
- apply wp_submit_seq. done.
Qed.

(** ** read_request *)

Lemma read_request_spec v s b q :
slot_in g s → has_req g b q →
ring_wp (<[(s, false) := SProc b q]> v) (read_request g s)
  (λ r v', r = Some q ∧ v' = <[(s, false) := SProc b q]> v).
Proof using Hg.
intros Hs (Hop & Hfl & Hid & Hn & Hcap & Hpl). destruct stride_cap as [? ?].
pose proof (len_nonneg (q_payload q)).
unfold read_request, payload_off, SH_OPCODE, SH_FLAGS, SH_PAYLOAD_LEN, SH_REQ_ID, SLOT_HEADER_SIZE in *.
eapply wp_read_u32; [done|done|lia|lia|]. rewrite Hop.
eapply wp_read_u32; [done|done|lia|lia|]. rewrite Hfl.
eapply wp_read_u64; [done|done|lia|lia|]. rewrite Hid.
eapply wp_read_u32; [done|done|lia|lia|]. rewrite Hn.
replace (len (q_payload q) >? payload_cap g) with false by lia.
eapply wp_read_own; [done|done|lia|lia|lia|]. rewrite Hpl. cbn. by destruct q.
Qed.

(** ** server_complete *)

(** The body after the writes of [server_complete]. *)
Definition reply_body (b : bytes) (id : Z) (r : Z * bytes) : bytes :=
set_field (set_field (set_field b SH_STATUS (to_le 4 (as_u32 r.1)))
  SH_PAYLOAD_LEN (to_le 4 (as_u32 (len r.2)))) SH_ACK (to_le 4 (as_u32 id)).

Lemma as_i32_u32 x : - 2 ^ 31 ≤ x < 2 ^ 31 → as_i32 (as_u32 x) = x.
Proof. intros. unfold as_i32, as_u32, u32_max. destruct (Z.ltb_spec (x mod 2 ^ 32) (2 ^ 31)); dlia. Qed.

Lemma reply_body_has b id a :
len b = slot_stride g - 4 → - 2 ^ 31 ≤ a.1 < 2 ^ 31 →
has_reply g (reply_body (if len a.2 >? payload_cap g then b else set_field b SLOT_HEADER_SIZE a.2)
  id (fit g a)) id (fit g a).
Proof using Hg.
intros Hb Hst. destruct stride_cap as [? ?]. pose proof (len_nonneg a.2).
unfold has_reply, reply_body, fit, SH_STATUS, SH_PAYLOAD_LEN, SH_ACK, SLOT_HEADER_SIZE.
assert (0 ≤ as_u32 id < 256 ^ Z.of_nat 4) by (apply Z.mod_pos_bound; done).
assert (∀ x, 0 ≤ as_u32 x < 256 ^ Z.of_nat 4) as Hu by (intros; apply Z.mod_pos_bound; done).
destruct (Z.gtb_spec (len a.2) (payload_cap g)); cbn [fst snd].
- split_and!; slot_fields; rewrite ?from_to_le_small by apply Hu; try done. rewrite len_nil. lia.
- assert (as_u32 (len a.2) = len a.2) as Hl by (apply Z.mod_small; lia).
  split_and!; slot_fields; rewrite ?from_to_le_small by apply Hu; try done. by apply as_i32_u32.
Qed.

(** A view with its tokens for [s] looked up. *)
Ltac look := rewrite ?lookup_insert_eq, ?lookup_insert_ne, ?lookup_delete_eq by done; cbn [option_list app].
Ltac look_in H :=
rewrite ?lookup_insert_eq, ?lookup_insert_ne, ?lookup_delete_eq in H by done; cbn [option_list app] in H.

(** Two different states at once. *)
Ltac st_contra :=
match goal with
| H1 : st_word _ _ _ = _, H2 : st_word _ _ _ = _ |- _ => rewrite H1 in H2; discriminate H2
end.
Ltac held_eqs := repeat match goal with H : [] = held _ _ |- _ => rewrite <- H; clear H end.

Lemma wp_addr {A} v s (f : bool → prog A) Q :
slot_in g s → ring_wp v (f true) Q →
ring_wp v (prog_bind f (do (AAddr 4 (slot_off g s + SH_STATE)))) Q.
Proof using Hg.
intros Hs Hf m vs HI. exists v. cbn [exec fst snd].
rewrite (atomic_state g L Hg) by (done || by eapply inv_len). done.
Qed.

(** A load of the state word that tells the caller something about its token. *)
Lemma wp_load {A} v s (f : option Z → prog A) Q :
slot_in g s →
(∀ m vs, inv m (v :: vs) →
  ∃ v', inv m (v' :: vs) ∧ ring_wp v' (f (Some (st_word g m s))) Q) →
ring_wp v (prog_bind f (state_load g s)) Q.
Proof using Hg.
intros Hs Hf m vs HI. rewrite (exec_load g L Hg) by (done || by eapply inv_len). by apply Hf.
Qed.

Lemma drain_spec v s b :
slot_in g s → v !! (s, false) = None →
ring_wp (<[(s, false) := SGone b]> v) (drain g s) (λ c v', c = Drained ∧ v' = v).
Proof using Hg.
intros Hs Hn. apply wp_cas; [done| |].
- intros m vs HI Hst. exists v. split; [|done]. pose proof (inv_slot _ _ _ _ _ _ _ HI Hs) as H.
  apply (inv_put_state m (<[(s, false) := SGone b]> v)); [done..| |].
  + intros. by rewrite other_keys.
  + look_in H. rewrite Hn. cbn. inversion H; subst; by constructor.
- intros m vs HI Hst. exfalso. pose proof (inv_slot _ _ _ _ _ _ _ HI Hs) as H.
  look_in H. by inversion H; subst.
Qed.

Lemma server_state m v vs s b q :
inv m (<[(s, false) := SProc b q]> v :: vs) → slot_in g s →
st_word g m s = ST_PROCESSING ∨
st_word g m s = ST_ABANDONED ∧ inv m (<[(s, false) := SGone b]> v :: vs).
Proof using Hg.
intros HI Hs. pose proof (inv_slot _ _ _ _ _ _ _ HI Hs) as H. look_in H.
inversion H; subst; [by left|by left|]. right. split; [done|].
apply (inv_retoken m (<[(s, false) := SProc (body g m s) q]> v) vs s); [done| |].
- intros. by rewrite !other_keys.
- intros _. look. destruct (v !! (s, true)); [done|]. cbn in *. held_eqs. by constructor.
Qed.

Definition completed (v : view) (r : result IpcError Completion) (v' : view) : Prop :=
(r = Ok Delivered ∨ r = Ok Drained) ∧ v' = v.

Lemma drain_completed v s b :
slot_in g s → v !! (s, false) = None →
ring_wp (<[(s, false) := SGone b]> v) (let* c := drain g s in Ret (Ok c)) (completed v).
Proof using Hg.
intros. eapply wp_call; [by apply drain_spec|]. cbn. intros c v' [-> ->]. split; [by right|done].
Qed.

Lemma server_finish v s b q :
slot_in g s → v !! (s, false) = None → answered g Answers b q →
ring_wp (<[(s, false) := SProc b q]> v)
  (let* c := state_cas g s ST_PROCESSING ST_COMPLETED in
   match c with
   | Some (true, _) => Ret (Ok Delivered)
   | Some (false, old) =>
       if old =? ST_ABANDONED then let* c := drain g s in Ret (Ok c) else Ret (Ok Stale)
   | None => Ret (Err Layout)
   end) (completed v).
Proof using Hg.
intros Hs Hn Ha. apply wp_cas; [done| |].
- intros m vs HI Hst. exists v. split; [|split; [by left|done]].
  pose proof (inv_slot _ _ _ _ _ _ _ HI Hs) as H.
  apply (inv_put_state m (<[(s, false) := SProc b q]> v)); [done..| |].
  + intros. by rewrite other_keys.
  + look_in H. rewrite Hst in H. rewrite Hn. cbn. inversion H; subst; by constructor.
- intros m vs HI Hst. destruct (server_state m v vs s b q HI Hs) as [|[Hst' HI']]; [done|].
  eexists. split; [exact HI'|]. rewrite Hst'. cbn. by apply drain_completed.
Qed.

Lemma server_complete_spec v s b q a :
slot_in g s → v !! (s, false) = None → len b = slot_stride g - 4 → has_req g b q →
Answers q a → - 2 ^ 31 ≤ a.1 < 2 ^ 31 →
ring_wp (<[(s, false) := SProc b q]> v) (server_complete g s (q_id q) a.1 a.2) (completed v).
Proof using Hg.
intros Hs Hn Hb (_ & _ & Hid & _) Ha Hst. destruct stride_cap as [? ?]. pose proof (len_nonneg a.2).
pose proof (reply_body_has b (q_id q) a Hb Hst) as Hreply.
unfold server_complete, reply_body, fit, payload_off, write_i32, write_u32,
  SH_REQ_ID, SH_STATUS, SH_PAYLOAD_LEN, SH_ACK, SLOT_HEADER_SIZE in *.
apply wp_addr; [done|]. cbn [negb].
eapply wp_read_u64; [done|done|lia|lia|]. rewrite Hid, bool_decide_eq_true_2 by done. cbn [negb].
apply wp_load; [done|]. intros m vs HI.
destruct (server_state m v vs s b q HI Hs) as [->|[-> HI']];
  [|eexists; split; [exact HI'|]; by apply drain_completed].
eexists. split; [exact HI|]. cbn [Z.eqb negb ST_PROCESSING ST_ABANDONED Pos.eqb].
destruct (Z.gtb_spec (len a.2) (payload_cap g)); cbn [fst snd] in *.
- do 3 (eapply wp_write_own; [done|done|lia|rewrite ?len_to_le; lia|]; cbn [tok_set]).
  apply server_finish; [done|done|]. exists a. unfold fit.
  replace (len a.2 >? payload_cap g) with true by lia. done.
- do 4 (eapply wp_write_own; [done|done|lia|rewrite ?len_to_le; lia|]; cbn [tok_set]).
  apply server_finish; [done|done|]. exists a. unfold fit.
  replace (len a.2 >? payload_cap g) with false by lia. by destruct a.
Qed.

(** ** The client's side *)

(** A token for a request that has been sent. *)
Definition sent (t : tok) (q : RingReq) : Prop := t = CSent q ∨ t = CTaken q.

(** The caller may note what it has seen of its own request. *)
Lemma client_retoken m v vs s t t' :
inv m (<[(s, true) := t]> v :: vs) →
(slot_in g s → ∀ S, slot_ok (st_word g m s) (body g m s) [t] S → slot_ok (st_word g m s) (body g m s) [t'] S) →
(slot_in g s → held vs (s, true) = []) →
inv m (<[(s, true) := t']> v :: vs).
Proof using Hg.
intros HI Ht Hh. apply (inv_retoken m (<[(s, true) := t]> v) vs s); [done| |].
- intros. by rewrite !other_keys.
- intros Hs. pose proof (inv_slot _ _ _ _ _ _ _ HI Hs) as H. look_in H. look.
  rewrite Hh in * by done. by apply Ht.
Qed.

Lemma client_alone m v vs s t :
inv m (<[(s, true) := t]> v :: vs) → slot_in g s → held vs (s, true) = [].
Proof using Hg.
intros HI Hs. pose proof (inv_slot _ _ _ _ _ _ _ HI Hs) as H. look_in H. inversion H; congruence.
Qed.

Lemma client_state m v vs s t q :
inv m (<[(s, true) := t]> v :: vs) → slot_in g s → sent t q →
(st_word g m s = ST_SUBMITTED ∧ t = CSent q) ∨
(st_word g m s = ST_PROCESSING ∧ inv m (<[(s, true) := CTaken q]> v :: vs)) ∨
(st_word g m s = ST_COMPLETED ∧ ∃ b, answered g Answers b q ∧ inv m (<[(s, true) := CDone b]> v :: vs)).
Proof using Hg.
intros HI Hs Ht. pose proof (inv_slot _ _ _ _ _ _ _ HI Hs) as H. look_in H.
pose proof (client_alone m v vs s t HI Hs) as Hh.
assert (∀ t', (∀ S, slot_ok (st_word g m s) (body g m s) [t] S →
  slot_ok (st_word g m s) (body g m s) [t'] S) → inv m (<[(s, true) := t']> v :: vs)) as Hre.
{ intros t' Ht'. by eapply client_retoken. }
destruct Ht as [-> | ->]; inversion H; subst; auto; right; [left|right|right]; (split; [done|]).
- apply Hre. intros S HS. inversion HS; subst; try st_contra. by constructor.
- exists (body g m s). split; [done|]. apply Hre. intros S HS.
  inversion HS; subst; try st_contra. by constructor.
- exists (body g m s). split; [done|]. apply Hre. intros S HS.
  inversion HS; subst; try st_contra. by constructor.
Qed.

Definition response (v : view) (s : Z) (t : tok) (q : RingReq)
  (r : result IpcError (option (Z * bytes))) (v' : view) : Prop :=
match r with
| Ok None => v' = <[(s, true) := t]> v
| Ok (Some rep) => ∃ a b, Answers q a ∧ rep = fit g a ∧ v' = <[(s, true) := CDone b]> v
| Err _ => False
end.

Lemma take_response_spec v s t q :
slot_in g s → sent t q →
ring_wp (<[(s, true) := t]> v) (take_response g s (q_id q)) (response v s t q).
Proof using Hg.
intros Hs Ht. destruct stride_cap as [? ?]. apply wp_load; [done|]. intros m vs HI.
destruct (client_state m v vs s t q HI Hs Ht) as [[-> _]|[[-> _]|[-> (b & (a & Ha & Hr) & HI')]]];
  [eexists; split; [exact HI|done]..|].
eexists. split; [exact HI'|]. destruct Hr as (Hst & Hack & Hn & Hcap & Hpl).
pose proof (len_nonneg (fit g a).2).
cbn [Z.eqb negb ST_COMPLETED Pos.eqb].
unfold payload_off, SH_STATUS, SH_PAYLOAD_LEN, SH_ACK, SLOT_HEADER_SIZE in *.
eapply wp_read_u32; [done|done|lia|lia|]. rewrite Hack, bool_decide_eq_true_2 by done. cbn [negb].
eapply wp_read_i32; [done|done|lia|lia|]. rewrite Hst.
eapply wp_read_u32; [done|done|lia|lia|]. rewrite Hn.
replace (len (fit g a).2 >? payload_cap g) with false by lia.
eapply wp_read_own; [done|done|lia|lia|lia|]. rewrite Hpl.
exists a, b. split_and!; [done|by destruct (fit g a)|done].
Qed.

(** A token of a client that owns its slot outright. *)
Definition owned (t : tok) : Prop := (∃ b, t = CClaim b) ∨ (∃ b, t = CDone b).
Definition owned_state (t : tok) : Z := match t with CClaim _ => ST_CLAIMED | _ => ST_COMPLETED end.

Lemma slot_ok_owned st b C S t : slot_ok st b (t :: C) S → owned t → st = owned_state t ∧ C = [] ∧ S = [].
Proof. intros H [[b' ->]|[b' ->]]; by inversion H. Qed.

Lemma free_slot_spec v s t :
slot_in g s → v !! (s, true) = None → owned t →
ring_wp (<[(s, true) := t]> v) (free_slot g s) (λ r v', r = Ok () ∧ v' = v).
Proof using Hg.
intros Hs Hn Ht. eapply (wp_store _ s ST_FREE _ _ v); [done|done| | |done].
- intros. by rewrite other_keys.
- intros st b C S. look. rewrite Hn. intros (_ & -> & HS)%slot_ok_owned; [|done].
  rewrite HS. by constructor.
Qed.

Definition abandoned (v : view) (r : option (result IpcError Abandon)) (v' : view) : Prop :=
(r = Some (Ok Freed) ∨ r = Some (Ok Retired)) ∧ v' = v.

(** The compare-and-swap with which [abandon] gives up a slot that no server
  has. *)
Lemma abandon_frees m v vs s t :
inv m (<[(s, true) := t]> v :: vs) → slot_in g s → v !! (s, true) = None →
st_word g m s ≠ ST_PROCESSING → inv (put_state g m s ST_FREE) (v :: vs).
Proof using Hg.
intros HI Hs Hn Hst. pose proof (inv_slot _ _ _ _ _ _ _ HI Hs) as H. look_in H.
apply (inv_put_state m (<[(s, true) := t]> v)); [done..| |].
- intros. by rewrite other_keys.
- rewrite Hn. cbn. inversion H; subst; try done; by constructor.
Qed.

Lemma abandon_retires m v vs s t :
inv m (<[(s, true) := t]> v :: vs) → slot_in g s → v !! (s, true) = None →
st_word g m s = ST_PROCESSING → inv (put_state g m s ST_ABANDONED) (v :: vs).
Proof using Hg.
intros HI Hs Hn Hst. pose proof (inv_slot _ _ _ _ _ _ _ HI Hs) as H. look_in H.
apply (inv_put_state m (<[(s, true) := t]> v)); [done..| |].
- intros. by rewrite other_keys.
- rewrite Hn. cbn. inversion H; subst; try st_contra; by constructor.
Qed.

(** The branches on a state that is known. *)
Ltac st_eval :=
cbn [Z.eqb Pos.eqb orb owned_state ST_FREE ST_CLAIMED ST_SUBMITTED ST_PROCESSING ST_COMPLETED
  ST_ABANDONED].

(** The rest of a round of [abandon] once it has looked. *)
Definition abandon_round (fuel : nat) (s st to : Z) (outcome : Abandon) : prog (option (result IpcError Abandon)) :=
let* c := state_cas g s st to in
match c with
| Some (true, _) => Ret (Some (Ok outcome))
| Some (false, _) => abandon fuel g s
| None => Ret (Some (Err Layout))
end.

Lemma owned_round fuel v s t :
slot_in g s → v !! (s, true) = None → owned t →
ring_wp (<[(s, true) := t]> v) (abandon_round fuel s (owned_state t) ST_FREE Freed) (abandoned v).
Proof using Hg.
intros Hs Hn Ht. apply wp_cas; [done| |]; intros m vs HI Hst.
- exists v. split; [|split; [by left|done]]. eapply abandon_frees; [exact HI|done|done|].
  rewrite Hst. by destruct Ht as [[b ->]|[b ->]].
- exfalso. apply Hst. pose proof (inv_slot _ _ _ _ _ _ _ HI Hs) as H. look_in H.
  by apply slot_ok_owned in H as [? _].
Qed.

Lemma abandon_owned fuel v s t :
slot_in g s → v !! (s, true) = None → owned t →
ring_wp (<[(s, true) := t]> v) (abandon (S fuel) g s) (abandoned v).
Proof using Hg.
intros Hs Hn Ht. apply wp_load; [done|]. intros m vs HI. eexists. split; [exact HI|].
pose proof (inv_slot _ _ _ _ _ _ _ HI Hs) as H. look_in H. apply slot_ok_owned in H as [-> _]; [|done].
pose proof (owned_round fuel v s t Hs Hn Ht) as Hr.
destruct Ht as [[b ->]|[b ->]]; st_eval; exact Hr.
Qed.

Lemma taken_round fuel v s q :
slot_in g s → v !! (s, true) = None →
ring_wp (<[(s, true) := CTaken q]> v) (abandon_round (S fuel) s ST_PROCESSING ST_ABANDONED Retired)
  (abandoned v).
Proof using Hg.
intros Hs Hn. apply wp_cas; [done| |]; intros m vs HI Hst.
- exists v. split; [by eapply abandon_retires|split; [by right|done]].
- destruct (client_state m v vs s _ q HI Hs ltac:(by right)) as [[_ ?]|[[? _]|[_ (b & _ & HI3)]]];
    [done|done|]. eexists. split; [exact HI3|]. apply abandon_owned; [done|done|right; eauto].
Qed.

Lemma abandon_taken fuel v s q :
slot_in g s → v !! (s, true) = None →
ring_wp (<[(s, true) := CTaken q]> v) (abandon (S (S fuel)) g s) (abandoned v).
Proof using Hg.
intros Hs Hn. apply wp_load; [done|]. intros m vs HI.
destruct (client_state m v vs s _ q HI Hs ltac:(by right)) as [[_ ?]|[[-> HI']|[-> (b & _ & HI')]]];
  [done| |]; (eexists; split; [exact HI'|]); st_eval.
- exact (taken_round fuel v s q Hs Hn).
- exact (owned_round (S fuel) v s (CDone b) Hs Hn ltac:(right; eauto)).
Qed.

(** [abandon] is through its loop in three rounds: the server can only take
  the request and then complete it. *)
Lemma abandon_spec fuel v s t :
slot_in g s → v !! (s, true) = None → owned t ∨ (∃ q, sent t q) →
ring_wp (<[(s, true) := t]> v) (abandon (S (S (S fuel))) g s) (abandoned v).
Proof using Hg.
intros Hs Hn [Ht|[q [-> | ->]]]; [by apply abandon_owned| |by apply abandon_taken].
apply wp_load; [done|]. intros m vs HI.
destruct (client_state m v vs s _ q HI Hs ltac:(by left)) as [[-> _]|[[-> HI']|[-> (b & _ & HI')]]].
- eexists. split; [exact HI|]. st_eval. apply wp_cas; [done| |]; intros m' vs' HI' Hst.
  + exists v. split; [|split; [by left|done]]. eapply abandon_frees; [exact HI'|done|done|by rewrite Hst].
  + destruct (client_state m' v vs' s _ q HI' Hs ltac:(by left)) as [[? _]|[[_ HI2]|[_ (b & _ & HI2)]]];
      [done|eexists; split; [exact HI2|]..]; [by apply abandon_taken|].
    exact (abandon_owned (S fuel) v s (CDone b) Hs Hn ltac:(right; eauto)).
- eexists. split; [exact HI'|]. st_eval. exact (taken_round (S fuel) v s q Hs Hn).
- eexists. split; [exact HI'|]. st_eval.
  exact (owned_round (S (S fuel)) v s (CDone b) Hs Hn ltac:(right; eauto)).
Qed.

End specs.
