(* ===== verification/RingEnds.v ===== *)
(** RingEnds: the endpoints of endpoint.rs under any interleaving, and the
    correctness of the ring: whatever the threads and their schedule, a client
    only ever receives an answer to the request it sent, a server's reply is
    delivered or dropped, and no slot is lost. *)

From S2P Require Import Prelude Seg Ring Conc RingInv RingSpecs.

(** ** Several slots at once *)

(** [w] is [v] with the client tokens [l] added. *)
Definition holds (g : Geom) (v : view) (l : list (Z * tok)) (w : view) : Prop :=
  NoDup l.*1 ∧
  (∀ s t, (s, t) ∈ l → slot_in g s ∧ v !! (s, true) = None ∧ w !! (s, true) = Some t) ∧
  (∀ s side, side = false ∨ s ∉ l.*1 → w !! (s, side) = v !! (s, side)).

Section holds.
Context (g : Geom).

Lemma holds_nil v w : holds g v [] w → w = v.
Proof.
intros (_ & _ & H). apply map_eq. intros [s side]. apply H. right. apply not_elem_of_nil.
Qed.

Lemma holds_refl v : holds g v [] v.
Proof. split_and!; [constructor|intros ?? []%not_elem_of_nil|done]. Qed.

(** One of the slots, apart from the others. *)
Lemma holds_focus v l1 s t l2 w :
holds g v (l1 ++ (s, t) :: l2) w →
slot_in g s ∧ w = <[(s, true) := t]> (delete (s, true) w) ∧ holds g v (l1 ++ l2) (delete (s, true) w).
Proof.
intros (Hnd & Hin & Hout). rewrite fmap_app in Hnd. cbn in Hnd.
apply NoDup_app in Hnd as (Hnd1 & Hx & Hnd2). apply NoDup_cons in Hnd2 as [Hs2 Hnd2].
destruct (Hin s t) as (Hs & Hv & Hw); [set_solver|].
split_and!; [done|by rewrite insert_delete_id|]. split_and!.
- rewrite fmap_app. apply NoDup_app. split_and!; [done|set_solver|done].
- intros s' t' Ht'. assert (s' ≠ s).
  { intros ->. apply elem_of_app in Ht' as [Ht'|Ht']; apply (list_elem_of_fmap_2 fst) in Ht'; set_solver. }
  rewrite lookup_delete_ne by congruence. apply Hin. set_solver.
- intros s' side Hd. destruct (decide ((s', side) = (s, true))) as [Heq|Hne].
  + injection Heq as -> ->. by rewrite lookup_delete_eq, Hv.
  + rewrite lookup_delete_ne by congruence. destruct (decide (s' = s)) as [->|].
    * apply Hout. left. destruct side; done.
    * apply Hout. destruct Hd as [|Hd]; [by left|right]. rewrite fmap_app in *. set_solver.
Qed.

Lemma holds_replace v l1 s t t' l2 w :
holds g v (l1 ++ (s, t) :: l2) w →
holds g v (l1 ++ (s, t') :: l2) (<[(s, true) := t']> (delete (s, true) w)).
Proof.
intros H. pose proof (holds_focus v l1 s t l2 w H) as (Hs & Hw & Hrest).
destruct H as (Hnd & Hin & Hout). rewrite insert_delete_eq. split_and!.
- rewrite fmap_app in *. done.
- intros s' x Hx. destruct (decide (s' = s)) as [->|Hne].
  + destruct (Hin s t) as (_ & Hv & _); [set_solver|]. rewrite lookup_insert_eq.
    split_and!; [done|done|]. f_equal. apply elem_of_app in Hx. rewrite elem_of_cons in Hx.
    rewrite fmap_app in Hnd. cbn in Hnd. apply NoDup_app in Hnd as (_ & Hd & [Hd2 _]%NoDup_cons).
    destruct Hx as [Hx|[Hx|Hx]]; [|congruence|]; apply (list_elem_of_fmap_2 fst) in Hx; set_solver.
  + rewrite lookup_insert_ne by congruence. apply Hin. set_solver.
- intros s' side Hd. rewrite lookup_insert_ne.
  + apply Hout. rewrite fmap_app in *. done.
  + intros [= <- <-]. destruct Hd as [|Hd]; [done|]. rewrite fmap_app in Hd. set_solver.
Qed.

(** A slot more. *)
Lemma holds_add v l w s t :
holds g v l w → slot_in g s → w !! (s, true) = None →
holds g v (l ++ [(s, t)]) (<[(s, true) := t]> w).
Proof.
intros (Hnd & Hin & Hout) Hs Hw. assert (s ∉ l.*1) as Hns.
{ intros ([s' t'] & -> & H)%list_elem_of_fmap. destruct (Hin _ _ H) as (_ & _ & ?). cbn in *. congruence. }
split_and!.
- rewrite fmap_app. apply NoDup_app. split_and!; [done|set_solver|apply NoDup_singleton].
- intros s' t' [H|H]%elem_of_app.
  + assert (s' ≠ s) by (intros ->; apply Hns; by apply (list_elem_of_fmap_2 fst) in H).
    rewrite lookup_insert_ne by congruence. by apply Hin.
  + apply list_elem_of_singleton in H as [= -> ->]. rewrite lookup_insert_eq.
    split_and!; [done| |done]. rewrite <- Hw. symmetry. apply Hout. by right.
- intros s' side Hd. rewrite lookup_insert_ne.
  + apply Hout. destruct Hd as [|Hd]; [by left|right]. rewrite fmap_app in Hd. set_solver.
  + intros [= <- <-]. destruct Hd as [|Hd]; [done|]. rewrite fmap_app in Hd. set_solver.
Qed.

End holds.

Section ends.
Context (g : Geom) (L : Z) (Hg : geom_ok g L).
Context (Answers : RingReq → Z * bytes → Prop).

Local Abbreviation ring_wp := (wp (inv g L Answers)).
Local Abbreviation holds := (holds g).

(** ** Waiting *)

Lemma claim_slot_from_spec v looks start :
ring_wp v (claim_slot_from looks g start)
  (λ r v', match r with
           | Ok s => claimed g v (Some s) v'
           | Err e => e = RingFull ∧ v' = v
           end).
Proof using Hg.
induction looks as [|looks IH]; cbn [claim_slot_from];
  (eapply wp_call; [by apply claim_free_from_spec|]); intros [s|] v' H; cbn in H; subst; done || exact IH.
Qed.

Definition awaited (v : view) (s : Z) (t : tok) (q : RingReq)
  (r : result IpcError (Z * bytes)) (v' : view) : Prop :=
match r with
| Ok rep => ∃ a b, Answers q a ∧ rep = fit g a ∧ v' = <[(s, true) := CDone b]> v
| Err e => e = Timeout ∧ v' = <[(s, true) := t]> v
end.

Lemma await_response_spec v looks s t q :
slot_in g s → sent t q →
ring_wp (<[(s, true) := t]> v) (await_response looks g s (q_id q)) (awaited v s t q).
Proof using Hg.
intros Hs Ht. induction looks as [|looks IH]; cbn [await_response];
  (eapply wp_call; [by apply take_response_spec|]); intros [[r|]|e] v' H; cbn in H;
  subst; done || exact IH.
Qed.

(** A client token that [abandon] may find. *)
Definition given_up (t : tok) : Prop := owned t ∨ ∃ q, sent t q.

Lemma abandon_slots_spec v l w :
holds v l w → Forall (λ st, given_up st.2) l →
ring_wp w (abandon_slots g l.*1) (λ r v', v' = v ∧ r ⊆ l.*1).
Proof using Hg.
revert w. induction l as [|[s t] l IH]; intros w Hh Ht;
  cbn [fmap list_fmap fst abandon_slots].
{ split; [by eapply holds_nil|done]. }
apply Forall_cons in Ht as [Ht Hl]. cbn in Ht.
destruct (holds_focus g v [] s t l w Hh) as (Hs & Hw & Hr). rewrite Hw.
eapply wp_call; [apply abandon_spec; [done|done|by rewrite lookup_delete_eq|done]|].
intros r v' [Hr' ->]. eapply wp_call; [by apply IH|]. cbn. intros rs v' [-> Hsub].
destruct Hr' as [-> | ->]; cbn; (split; [done|set_solver]).
Qed.

(** ** submit_reporting *)

(** What a client gets for the request [rq]: an answer to it. *)
Definition answers (rq : SendReq) (rep : Z * bytes) : Prop :=
∃ id a, Answers (mkReq (s_opcode rq) (s_flags rq) id (s_payload rq)) a ∧ rep = fit g a.

Definition send_ok (rq : SendReq) : Prop := in_u32 (s_opcode rq) ∧ in_u32 (s_flags rq).

(** Why there is no answer: the request was too large, or a wait ended. *)
Definition unanswered (rq : SendReq) (u : Unanswered) : Prop :=
if len (s_payload rq) >? payload_cap g then u = mkUnanswered PayloadTooLarge []
else u_error u = RingFull ∧ u_retired u = [] ∨ u_error u = Timeout.

Definition submitted (rq : SendReq) (r : result Unanswered (Z * bytes)) : Prop :=
match r with Ok rep => answers rq rep | Err u => unanswered rq u end.

Lemma submit_reporting_spec v p hint rq :
send_ok rq →
ring_wp v (submit_reporting p g hint rq) (λ r v', v' = v ∧ submitted rq r.2).
Proof using Hg.
intros [Hop Hfl]. unfold submit_reporting, submitted, unanswered.
destruct (Z.gtb_spec (len (s_payload rq)) (payload_cap g)) as [Hc|Hc]; [done|].
eapply wp_call; [apply claim_slot_from_spec|]. intros [s|e] v' H; cbn in H;
  [|destruct H as [-> ->]; cbn; by auto].
destruct H as (Hs & Hn & b & Hb & ->).
eapply wp_call; [by apply publish_request_spec|]. intros [id|e] v' H; cbn in H; [|done]. subst v'.
eapply wp_call; [apply (await_response_spec v _ s _ (mkReq _ _ id _) Hs (or_introl eq_refl))|].
intros [rep|e] v' H; cbn in H.
- destruct H as (a & b' & Ha & -> & ->).
  eapply wp_call; [apply free_slot_spec; [done|done|done|right; eauto]|].
  intros r v' [-> ->]. cbn. split; [done|]. exists id, a. done.
- destruct H as [-> ->].
  eapply wp_call; [apply (abandon_slots_spec v [(s, CSent (mkReq (s_opcode rq) (s_flags rq) id (s_payload rq)))])|].
  + apply (holds_add g v [] v); [apply holds_refl|done|done].
  + apply Forall_singleton. right. eexists. by left.
  + cbn. intros rs v' [-> _]. auto.
Qed.

(** ** submit_many_held_reporting *)

Definition sent_toks (l : list (Z * RingReq)) : list (Z * tok) := prod_map id CSent <$> l.
Definition done_toks (l : list (Z * bytes)) : list (Z * tok) := prod_map id CDone <$> l.

Lemma sent_toks_slots l : (sent_toks l).*1 = l.*1.
Proof. unfold sent_toks. rewrite <- list_fmap_compose. by apply list_fmap_ext. Qed.
Lemma done_toks_slots l : (done_toks l).*1 = l.*1.
Proof. unfold done_toks. rewrite <- list_fmap_compose. by apply list_fmap_ext. Qed.
Lemma sent_toks_app l l' : sent_toks (l ++ l') = sent_toks l ++ sent_toks l'.
Proof. apply fmap_app. Qed.
Lemma sent_toks_given_up l : Forall (λ st, given_up st.2) (sent_toks l).
Proof. apply Forall_fmap, Forall_true. intros [s q]. cbn. right. exists q. by left. Qed.
Lemma done_toks_owned l : Forall (λ st, owned st.2) (done_toks l).
Proof. apply Forall_fmap, Forall_true. intros [s b]. cbn. right. eauto. Qed.

(** A request as it was sent. *)
Definition is_req (rq : SendReq) (q : RingReq) : Prop :=
q = mkReq (s_opcode rq) (s_flags rq) (q_id q) (s_payload rq).

Definition fits (rq : SendReq) : Prop := send_ok rq ∧ len (s_payload rq) ≤ payload_cap g.

Lemma publish_all_spec p start reqs v l w :
holds v (sent_toks l) w → Forall fits reqs →
ring_wp w (publish_all p g start reqs l.*1 (q_id <$> l.*2))
  (λ r v', match r with
           | Ok (slots, ids) => ∃ l', slots = (l ++ l').*1 ∧ ids = q_id <$> (l ++ l').*2 ∧
               Forall2 is_req reqs l'.*2 ∧ holds v (sent_toks (l ++ l')) v'
           | Err u => v' = v ∧ u_error u = RingFull
           end).
Proof using Hg.
revert start l w. induction reqs as [|rq reqs IH]; intros start l w Hh Hfit; cbn [publish_all].
{ exists []. rewrite !app_nil_r. split_and!; [done|done|constructor|done]. }
apply Forall_cons in Hfit as [[[Hop Hfl] Hcap] Hfit].
eapply wp_call; [by apply claim_slot_from_spec|]. intros [s|e] v' H; cbn in H.
2: { destruct H as [-> ->]. rewrite <- sent_toks_slots.
     eapply wp_call; [by eapply abandon_slots_spec, sent_toks_given_up|]. by intros rs v' [-> _]. }
destruct H as (Hs & Hn & b & Hb & ->).
eapply wp_call; [by apply publish_request_spec|]. intros [id|e] v' H; cbn in H; [|done]. subst v'.
set (q := mkReq (s_opcode rq) (s_flags rq) id (s_payload rq)).
pose proof (holds_add g v (sent_toks l) w s (CSent q) Hh Hs Hn) as Hh'.
replace (l.*1 ++ [s]) with ((l ++ [(s, q)]).*1) by (by rewrite fmap_app).
replace ((q_id <$> l.*2) ++ [id]) with (q_id <$> (l ++ [(s, q)]).*2) by (by rewrite !fmap_app).
eapply wp_mono; [|apply IH; [by rewrite sent_toks_app|done]].
intros [[slots ids]|u] v' H; [|done]. destruct H as (l' & -> & -> & Hl' & Hv').
exists ((s, q) :: l'). rewrite <- !app_assoc in *. split_and!; [done|done|by constructor|done].
Qed.

(** All slots of a call, some answered and some not. *)
Lemma mixed_given_up (l1 : list (Z * bytes)) (l2 : list (Z * RingReq)) :
Forall (λ st, given_up st.2) (done_toks l1 ++ sent_toks l2).
Proof.
apply Forall_app. split; [|apply sent_toks_given_up].
eapply Forall_impl; [apply done_toks_owned|]. cbn. intros. by left.
Qed.

Lemma await_all_spec p v l1 l2 w out :
holds v (done_toks l1 ++ sent_toks l2) w →
ring_wp w (await_all p g (l1.*1 ++ l2.*1) (zip l2.*1 (q_id <$> l2.*2)) out)
  (λ r v', match r with
           | Ok out' => ∃ reps l2', out' = out ++ reps ∧ l2'.*1 = l2.*1 ∧
               Forall2 (λ q rep, ∃ a, Answers q a ∧ rep = fit g a) l2.*2 reps ∧
               holds v (done_toks (l1 ++ l2')) v'
           | Err u => v' = v ∧ u_error u = Timeout
           end).
Proof using Hg.
revert l1 w out. induction l2 as [|[s q] l2 IH]; intros l1 w out Hh.
{ cbn. exists [], []. rewrite !app_nil_r in *. split_and!; [done|done|constructor|done]. }
pose proof (holds_focus g v (done_toks l1) s (CSent q) (sent_toks l2) w Hh) as (Hs & Hw & _).
change (zip ((s, q) :: l2).*1 _) with ((s, q_id q) :: zip l2.*1 (q_id <$> l2.*2)). cbn [await_all].
rewrite Hw. eapply wp_call; [apply (await_response_spec _ _ s (CSent q) q Hs); by left|].
intros [rep|e] v' H; cbn in H.
- destruct H as (a & b & Ha & -> & ->).
  pose proof (holds_replace g v _ s _ (CDone b) _ w Hh) as Hh'.
  replace (l1.*1 ++ ((s, q) :: l2).*1) with ((l1 ++ [(s, b)]).*1 ++ l2.*1)
    by (rewrite fmap_app, <- app_assoc; done).
  eapply wp_mono; [|apply IH].
  + intros [out'|u] v' H; [|done]. destruct H as (reps & l2' & -> & Hl & Hreps & Hv').
    exists (fit g a :: reps), ((s, b) :: l2'). rewrite <- !app_assoc in *.
    split_and!; [done|cbn; by rewrite Hl|constructor; eauto|done].
  + unfold done_toks. rewrite fmap_app, <- app_assoc. exact Hh'.
- destruct H as [-> ->]. rewrite <- Hw.
  replace (l1.*1 ++ ((s, q) :: l2).*1) with ((done_toks l1 ++ sent_toks ((s, q) :: l2)).*1)
    by (by rewrite fmap_app, done_toks_slots, sent_toks_slots).
  eapply wp_call; [eapply abandon_slots_spec; [exact Hh|apply mixed_given_up]|].
  by intros rs v' [-> _].
Qed.

Definition submitted_many (v : view) (reqs : list SendReq)
  (r : result Unanswered (list (Z * bytes) * list Z)) (v' : view) : Prop :=
match r with
| Ok (out, slots) => Forall2 answers reqs out ∧ ∃ l, slots = l.*1 ∧ holds v (done_toks l) v'
| Err u => v' = v ∧
    if existsb (λ rq, len (s_payload rq) >? payload_cap g) reqs then u = mkUnanswered PayloadTooLarge []
    else u_error u = RingFull ∨ u_error u = Timeout
end.

Lemma submit_many_spec v p hint reqs :
Forall send_ok reqs →
ring_wp v (submit_many_held_reporting p g hint reqs) (λ r v', submitted_many v reqs r.2 v').
Proof using Hg.
intros Hok. unfold submit_many_held_reporting, submitted_many.
destruct reqs as [|rq reqs].
{ cbn. split; [constructor|]. exists []. split; [done|apply holds_refl]. }
set (rs := rq :: reqs) in *. clearbody rs.
destruct (existsb _ rs) eqn:He; [done|].
assert (Forall fits rs) as Hfit.
{ apply Forall_forall. intros x Hx. split; [by eapply Forall_forall in Hok|].
  destruct (Z.gtb_spec (len (s_payload x)) (payload_cap g)) as [Hc|]; [|done].
  assert (existsb (λ rq, len (s_payload rq) >? payload_cap g) rs = true); [|congruence].
  apply existsb_exists. exists x. split; [by apply list_elem_of_In|lia]. }
eapply wp_call; [apply (publish_all_spec p hint rs v [] v); [apply holds_refl|done]|].
intros [[slots ids]|u] v' H; [|destruct H as [-> ?]; cbn; by auto].
destruct H as (l & -> & -> & Hl & Hh). cbn [app] in *.
eapply wp_call; [apply (await_all_spec p v [] l v' []); exact Hh|].
intros [out|u] w H; [|destruct H as [-> ?]; cbn; by auto].
destruct H as (reps & l2 & -> & Hslots & Hreps & Hw). cbn. split; [|by exists l2].
clear -Hl Hreps. revert reps Hreps. induction Hl as [|rq q rs qs Hq Hl IH]; intros reps Hreps.
- apply Forall2_nil_inv_l in Hreps as ->. constructor.
- apply Forall2_cons_inv_l in Hreps as (rep & reps' & (a & Ha & ->) & Hr & ->).
  constructor; [|by apply IH]. exists (q_id q), a. by rewrite <- Hq.
Qed.

Lemma release_slots_spec v l w :
holds v l w → Forall (λ st, owned st.2) l →
ring_wp w (release_slots g l.*1) (λ _ v', v' = v).
Proof using Hg.
revert w. induction l as [|[s t] l IH]; intros w Hh Ht; cbn [fmap list_fmap fst release_slots].
{ by eapply holds_nil. }
apply Forall_cons in Ht as [Ht Hl]. destruct (holds_focus g v [] s t l w Hh) as (Hs & Hw & Hr).
rewrite Hw. eapply wp_call; [apply free_slot_spec; [done|done|by rewrite lookup_delete_eq|done]|].
intros r v' [-> ->]. by apply IH.
Qed.

(** ** serve_one *)

(** A handler that answers, with a status that a slot can hold. *)
Definition handler_ok (h : Z → RingReq → Z * bytes) : Prop :=
∀ slot q, Answers q (h slot q) ∧ - 2 ^ 31 ≤ (h slot q).1 < 2 ^ 31.

Definition served (r : result IpcError bool) : Prop := ∃ b, r = Ok b.

Lemma serve_one_spec v next h :
handler_ok h → ring_wp v (serve_one g next h) (λ r v', v' = v ∧ served r.2).
Proof using Hg.
intros Hh. unfold serve_one. eapply wp_call; [by apply server_take_from_spec|].
intros [s|] v' H; cbn in H; [|subst; split; [done|by exists false]].
destruct H as (Hs & Hn & b & q & Hb & Hq & ->).
eapply wp_call; [by apply read_request_spec|]. intros r v' [-> ->].
destruct (Hh s q) as [Ha Hst]. destruct (h s q) as [status resp] eqn:Hr.
eapply wp_call; [by apply (server_complete_spec g L Hg Answers v s b q (status, resp))|].
intros c v' [[-> | ->] ->]; (split; [done|by exists true]).
Qed.

End ends.

(** ** Threads *)

(** What a client thread does, call after call: a request, or several at once
    whose slots it releases when it has read the arena. *)
Inductive call :=
  | CallOne (p : Patience) (rq : SendReq)
  | CallMany (p : Patience) (rqs : list SendReq).

Inductive outcome :=
  | OutOne (r : result Unanswered (Z * bytes))
  | OutMany (r : result Unanswered (list (Z * bytes) * list Z)).

Definition client_call (g : Geom) (hint : Z) (c : call) : prog (Z * outcome) :=
  match c with
  | CallOne p rq => let* r := submit_reporting p g hint rq in Ret (r.1, OutOne r.2)
  | CallMany p rqs =>
      let* r := submit_many_held_reporting p g hint rqs in
      match r.2 with
      | Ok (_, slots) => let* _ := release_slots g slots in Ret (r.1, OutMany r.2)
      | Err _ => Ret (r.1, OutMany r.2)
      end
  end.

Fixpoint client_thread (g : Geom) (hint : Z) (cs : list call) : prog (list outcome) :=
  match cs with
  | [] => Ret []
  | c :: cs =>
      let* r := client_call g hint c in
      let* rs := client_thread g r.1 cs in Ret (r.2 :: rs)
  end.

(** What a server thread does: a round for each handler. *)
Fixpoint server_thread (g : Geom) (next : Z) (hs : list (Z → RingReq → Z * bytes))
    : prog (list (result IpcError bool)) :=
  match hs with
  | [] => Ret []
  | h :: hs =>
      let* r := serve_one g next h in
      let* rs := server_thread g r.1 hs in Ret (r.2 :: rs)
  end.

Definition thread_out : Type := list outcome + list (result IpcError bool).

Definition threads (g : Geom) (clients : list (list call))
    (servers : list (list (Z → RingReq → Z * bytes))) : list (prog thread_out) :=
  ((λ cs, let* r := client_thread g 0 cs in Ret (inl r)) <$> clients) ++
  ((λ hs, let* r := server_thread g 0 hs in Ret (inr r)) <$> servers).

Section threads.
Context (g : Geom) (L : Z) (Hg : geom_ok g L).
Context (Answers : RingReq → Z * bytes → Prop).

Local Abbreviation ring_wp := (wp (inv g L Answers)).

Definition call_ok (c : call) : Prop :=
match c with CallOne _ rq => send_ok rq | CallMany _ rqs => Forall send_ok rqs end.

(** What a call may return. *)
Definition outcome_ok (c : call) (o : outcome) : Prop :=
match c, o with
| CallOne _ rq, OutOne r => submitted g Answers rq r
| CallMany _ rqs, OutMany (Ok (out, slots)) =>
    Forall2 (answers g Answers) rqs out ∧ NoDup slots ∧ Forall (slot_in g) slots
| CallMany _ rqs, OutMany (Err u) =>
    if existsb (λ rq, len (s_payload rq) >? payload_cap g) rqs then u = mkUnanswered PayloadTooLarge []
    else u_error u = RingFull ∨ u_error u = Timeout
| _, _ => False
end.

Lemma client_call_spec v hint c :
call_ok c → ring_wp v (client_call g hint c) (λ r v', v' = v ∧ outcome_ok c r.2).
Proof using Hg.
destruct c as [p rq|p rqs]; intros Hc; cbn [client_call].
- eapply wp_call; [by apply submit_reporting_spec|]. intros r v' [-> H]. done.
- eapply wp_call; [by apply submit_many_spec|]. intros [h [[out slots]|u]] v' H; cbn in H.
  + destruct H as (Hout & l & -> & Hh). cbn [snd]. rewrite <- done_toks_slots.
    eapply wp_call; [eapply release_slots_spec; [done|exact Hh|apply done_toks_owned]|].
    intros _ v'' ->. cbn. rewrite done_toks_slots. destruct Hh as (Hnd & Hin & _).
    rewrite done_toks_slots in Hnd. split_and!; [done|done|done|].
    apply Forall_forall. intros s ([s' b] & -> & Hs)%list_elem_of_fmap.
    eapply (Hin s' (CDone b)). by apply (list_elem_of_fmap_2 (prod_map id CDone)) in Hs.
  + destruct H as [-> H]. cbn. auto.
Qed.

Lemma client_thread_spec v hint cs :
Forall call_ok cs →
ring_wp v (client_thread g hint cs) (λ out v', v' = v ∧ Forall2 outcome_ok cs out).
Proof using Hg.
revert hint. induction cs as [|c cs IH]; intros hint Hcs; cbn [client_thread]; [done|].
apply Forall_cons in Hcs as [Hc Hcs]. eapply wp_call; [by apply client_call_spec|].
intros r v' [-> Hr]. eapply wp_call; [by apply IH|]. intros rs v' [-> Hrs]. cbn. auto.
Qed.

Lemma server_thread_spec v next hs :
Forall (handler_ok Answers) hs →
ring_wp v (server_thread g next hs) (λ out v', v' = v ∧ Forall served out).
Proof using Hg.
revert next. induction hs as [|h hs IH]; intros next Hhs; cbn [server_thread]; [done|].
apply Forall_cons in Hhs as [Hh Hhs]. eapply wp_call; [by apply serve_one_spec|].
intros r v' [-> Hr]. eapply wp_call; [by apply IH|]. intros rs v' [-> Hrs]. cbn. auto.
Qed.

End threads.
