(* ===== verification/RingTop.v ===== *)
(** RingTop: the ring's theorems, for any number of client and server threads
    and any schedule.
    First, [init] lays out a ring that [open] accepts with the same geometry,
    and that satisfies the invariant with no token held. *)

From S2P Require Import Prelude Seg Ring Conc RingInv RingSpecs RingEnds.

(** ** Running writes *)

Lemma run_write {A} m o d (f : bool → prog A) :
  0 ≤ o → o + len d ≤ len m → len m < u64_max →
  run (let* b := do (AWrite o d) in f b) m = run (f true) (mem_put m o d).
Proof.
  intros. cbn [run do prog_bind exec write_bytes]. unfold write_bytes, in_bounds.
  by replace ((o + len d <? u64_max) && (o + len d <=? len m)) with true by (symmetry; lia).
Qed.

Lemma run_len {A} m (f : Z → prog A) : run (let* l := do ALen in f l) m = run (f (len m)) m.
Proof. done. Qed.

Lemma run_read_u32 {A} m o (f : option Z → prog A) :
  0 ≤ o → o + 4 ≤ len m → len m < u64_max →
  run (let* v := read_u32 o in f v) m = run (f (Some (from_le (mem_get m o 4)))) m.
Proof.
  intros. unfold read_u32. cbn [run do prog_bind exec]. unfold read_bytes, in_bounds.
  by replace ((o + 4 <? u64_max) && (o + 4 <=? len m)) with true by (symmetry; lia).
Qed.

(** ** Several writes *)

Definition mem_puts (m : bytes) (ws : list (Z * bytes)) : bytes :=
  foldl (λ m w, mem_put m w.1 w.2) m ws.

Definition in_range (n : Z) (w : Z * bytes) : Prop := 0 ≤ w.1 ∧ w.1 + len w.2 ≤ n.
Definition apart (o n : Z) (w : Z * bytes) : Prop := o + n ≤ w.1 ∨ w.1 + len w.2 ≤ o.

Lemma mem_puts_len m ws : Forall (in_range (len m)) ws → len (mem_puts m ws) = len m.
Proof.
  revert m. induction ws as [|w ws IH]; intros m H; cbn; [done|].
  apply Forall_cons in H as [[Hw1 Hw2] H]. pose proof (mem_put_len m w.1 w.2).
  rewrite <- (mem_put_len m w.1 w.2) in H by done. rewrite IH by done. auto.
Qed.

Lemma mem_puts_other m ws o n :
  Forall (in_range (len m)) ws → 0 ≤ o → 0 ≤ n → Forall (apart o n) ws →
  mem_get (mem_puts m ws) o n = mem_get m o n.
Proof.
  revert m. induction ws as [|w ws IH]; intros m H Ho Hn Ha; cbn; [done|].
  apply Forall_cons in H as [[Hw1 Hw2] H]. apply Forall_cons in Ha as [? Ha].
  rewrite <- (mem_put_len m w.1 w.2) in H by done.
  rewrite IH by done. by apply mem_get_put_other.
Qed.

Lemma mem_puts_field m ws1 o d ws2 :
  Forall (in_range (len m)) (ws1 ++ (o, d) :: ws2) → Forall (apart o (len d)) ws2 →
  mem_get (mem_puts m (ws1 ++ (o, d) :: ws2)) o (len d) = d.
Proof.
  intros (H1 & [[Ho1 Ho2] H2]%Forall_cons)%Forall_app Ha. cbn in Ho1, Ho2.
  unfold mem_puts. rewrite foldl_app. cbn. fold (mem_puts m ws1).
  pose proof (mem_puts_len m ws1 H1) as Hl. pose proof (mem_put_len (mem_puts m ws1) o d) as Hp.
  change (mem_get (mem_puts (mem_put (mem_puts m ws1) o d) ws2) o (len d) = d).
  rewrite mem_puts_other; [apply mem_get_put_same; lia| |done|apply len_nonneg|done].
  rewrite Hp, Hl by lia. done.
Qed.

(** ** The header *)

(** The header writes of [init]. *)
Definition header_writes (count stride cap : Z) : list (Z * bytes) :=
  [ (RH_MAGIC, to_le 4 MAGIC); (RH_VERSION, to_le 4 VERSION); (RH_SLOT_COUNT, to_le 4 count);
    (RH_SLOT_STRIDE, to_le 4 stride); (RH_PAYLOAD_CAP, to_le 4 cap); (RH_WORKER_HINT, to_le 4 0);
    (RH_REQ_SEQ, to_le 8 0); (RH_SUBMIT_SEQ, to_le 4 0); (RH_REG_GEN, to_le 8 0) ].

Lemma header_in_range n count stride cap :
  RING_HEADER_SIZE ≤ n → Forall (in_range n) (header_writes count stride cap).
Proof.
  intros Hn. unfold RING_HEADER_SIZE in Hn. unfold header_writes, RH_MAGIC, RH_VERSION, RH_SLOT_COUNT,
    RH_SLOT_STRIDE, RH_PAYLOAD_CAP, RH_WORKER_HINT, RH_REQ_SEQ, RH_SUBMIT_SEQ, RH_REG_GEN.
  repeat constructor; cbn [fst snd]; rewrite ?len_to_le; lia.
Qed.

(** The [i]th header field reads as it was written. *)
Lemma header_field i o k x m count stride cap :
  RING_HEADER_SIZE ≤ len m → header_writes count stride cap !! i = Some (o, to_le k x) →
  Forall (apart o (Z.of_nat k)) (drop (S i) (header_writes count stride cap)) →
  0 ≤ x < 256 ^ Z.of_nat k →
  from_le (mem_get (mem_puts m (header_writes count stride cap)) o (Z.of_nat k)) = x.
Proof.
  intros Hm Hi Ha Hx. pose proof (header_in_range (len m) count stride cap Hm) as Hr.
  rewrite <- (take_drop_middle _ i _ Hi) in Hr |- *.
  pose proof (mem_puts_field m _ o (to_le k x) _ Hr) as Hf. rewrite len_to_le in Hf.
  rewrite Hf by done. by apply from_to_le_small.
Qed.

Definition header_ok (m : bytes) (count stride cap : Z) : Prop :=
  from_le (mem_get m RH_MAGIC 4) = MAGIC ∧ from_le (mem_get m RH_VERSION 4) = VERSION ∧
  from_le (mem_get m RH_SLOT_COUNT 4) = count ∧ from_le (mem_get m RH_SLOT_STRIDE 4) = stride ∧
  from_le (mem_get m RH_PAYLOAD_CAP 4) = cap ∧ req_seq m = 0.

Lemma header_written m count stride cap :
  RING_HEADER_SIZE ≤ len m → in_u32 count → in_u32 stride → in_u32 cap →
  header_ok (mem_puts m (header_writes count stride cap)) count stride cap.
Proof.
  intros Hm Hcount Hstride Hcap. unfold header_ok, req_seq. split_and!;
    [ apply (header_field 0 _ 4) | apply (header_field 1 _ 4) | apply (header_field 2 _ 4)
    | apply (header_field 3 _ 4) | apply (header_field 4 _ 4) | apply (header_field 6 _ 8) ];
    try done; cbn [drop header_writes]; repeat constructor;
    unfold apart, RH_MAGIC, RH_VERSION, RH_SLOT_COUNT, RH_SLOT_STRIDE, RH_PAYLOAD_CAP, RH_WORKER_HINT,
      RH_REQ_SEQ, RH_SUBMIT_SEQ, RH_REG_GEN; cbn [fst snd]; rewrite ?len_to_le; lia.
Qed.

Lemma header_ok_mono m m' count stride cap :
  header_ok m count stride cap →
  (∀ o n, 0 ≤ o → 0 ≤ n → o + n ≤ RING_HEADER_SIZE → mem_get m' o n = mem_get m o n) →
  header_ok m' count stride cap.
Proof. intros H Hm. unfold header_ok, req_seq in *. by rewrite !Hm. Qed.

Lemma run_init_header {A} m count stride cap (p : prog A) :
  RING_HEADER_SIZE ≤ len m → len m < u64_max →
  run (let* _ := write_u32 RH_MAGIC MAGIC in
       let* _ := write_u32 RH_VERSION VERSION in
       let* _ := write_u32 RH_SLOT_COUNT count in
       let* _ := write_u32 RH_SLOT_STRIDE stride in
       let* _ := write_u32 RH_PAYLOAD_CAP cap in
       let* _ := write_u32 RH_WORKER_HINT 0 in
       let* _ := write_u64 RH_REQ_SEQ 0 in
       let* _ := write_u32 RH_SUBMIT_SEQ 0 in
       let* _ := write_u64 RH_REG_GEN 0 in p) m =
  run p (mem_puts m (header_writes count stride cap)).
Proof.
  intros Hm HL. pose proof (header_in_range (len m) count stride cap Hm) as Hr.
  assert (∀ ws (q : prog A) m, Forall (in_range (len m)) ws → len m < u64_max →
    run (foldr (λ w q, let* _ := do (AWrite w.1 w.2) in q) q ws) m = run q (mem_puts m ws)) as Hrun.
  { clear. intros ws q. induction ws as [|w ws IH]; intros m Hr HL; [done|].
    apply Forall_cons in Hr as [[H1 H2] Hr]. cbn [foldr]. rewrite run_write by done.
    apply IH; by rewrite mem_put_len. }
  exact (Hrun (header_writes count stride cap) p m Hr HL).
Qed.

(** ** The slots *)

Definition header_same (m m' : bytes) : Prop :=
  ∀ o n, 0 ≤ o → 0 ≤ n → o + n ≤ RING_HEADER_SIZE → mem_get m' o n = mem_get m o n.

Section init.
Context (g : Geom) (L : Z) (Hg : geom_ok g L).

Lemma put_state_header m s v : len m = L → slot_in g s → header_same m (put_state g m s v).
Proof using Hg.
intros Hm Hs o n Ho Hn Hon. destruct (slot_region g L Hg s Hs) as (? & ? & _).
destruct (stride_bounds g L Hg) as (_ & _ & ?). pose proof (len_to_le 4 v) as Hl. cbn in Hl.
unfold put_state, RING_HEADER_SIZE in *. apply mem_get_put_other; lia.
Qed.

Lemma run_init_slots n s m :
len m = L → 0 ≤ s → s + Z.of_nat n ≤ slot_count g →
∃ m', run (init_slots g n s) m = ((), m') ∧ len m' = L ∧ header_same m m' ∧
  ∀ s', slot_in g s' → st_word g m' s' = if decide (s ≤ s' < s + Z.of_nat n) then ST_FREE else st_word g m s'.
Proof using Hg.
revert s m. induction n as [|n IH]; intros s m Hm Hs Hn; cbn [init_slots].
{ exists m. split_and!; [done|done|done|]. intros s' _. by rewrite decide_False by lia. }
assert (slot_in g s) as Hin by (unfold slot_in; lia).
destruct (slot_region g L Hg s Hin) as (? & ? & _). destruct (stride_bounds g L Hg) as (_ & _ & ?).
destruct Hg as (_ & _ & _ & ?). unfold write_u32. unfold RING_HEADER_SIZE in *.
rewrite run_write by (unfold SH_STATE; rewrite ?len_to_le; lia).
replace (slot_off g s + SH_STATE) with (slot_off g s) by (unfold SH_STATE; lia).
fold (put_state g m s ST_FREE).
destruct (put_state_same g L Hg m s ST_FREE Hm Hin ltac:(done)) as ((Hl & _ & Hrest) & Hst & _).
destruct (IH (s + 1) (put_state g m s ST_FREE)) as (m' & Hrun & Hm' & Hh & Hst'); [lia|lia|lia|].
exists m'. split_and!; [done|done| |].
- intros o k Ho Hk Hok. rewrite Hh by done. by apply put_state_header.
- intros s' Hs'. rewrite Hst' by done. destruct (decide (s' = s)) as [->|Hne].
  + rewrite decide_False, decide_True by lia. done.
  + destruct (Hrest s' Hs' Hne) as [-> _].
    destruct (decide (s + 1 ≤ s' < s + 1 + Z.of_nat n)); [by rewrite decide_True by lia|].
    by rewrite decide_False by lia.
Qed.

(** [open] on a segment with such a header. *)
Lemma run_open m :
len m = L → header_ok m (slot_count g) (slot_stride g) (payload_cap g) → run open m = (Ok g, m).
Proof using Hg.
intros Hm (Hmag & Hver & Hcount & Hstride & Hcap & _). pose proof (header_fits g L Hg).
destruct Hg as (_ & _ & Hal & HL). unfold open.
unfold RING_HEADER_SIZE, RH_MAGIC, RH_VERSION, RH_SLOT_COUNT, RH_SLOT_STRIDE, RH_PAYLOAD_CAP in *.
rewrite run_len, Hm. replace (L <? 48) with false by lia.
rewrite run_read_u32, Hmag, bool_decide_eq_true_2 by (done || lia). cbn [negb].
rewrite run_read_u32, Hver, bool_decide_eq_true_2 by (done || lia). cbn [negb].
rewrite run_read_u32, Hcount by lia. rewrite run_read_u32, Hstride by lia.
rewrite run_read_u32, Hcap by lia. rewrite <- Hal, Z.eqb_refl. cbn [negb].
rewrite run_len, Hm. replace (48 + slot_count g * slot_stride g >? L) with false by lia.
by destruct g.
Qed.

End init.

(** The geometry [init] gives a ring. *)
Definition init_geom (count cap : Z) : Geom :=
  mkGeom count (align8 (SLOT_HEADER_SIZE + cap)) cap.

Definition init_args (count cap : Z) (m : bytes) : Prop :=
  in_u32 count ∧ in_u32 cap ∧ align8 (SLOT_HEADER_SIZE + cap) < u32_max ∧ len m < u64_max.

(** Every branch of [init]. *)
Lemma run_init count cap m :
  init_args count cap m →
  if RING_HEADER_SIZE + count * align8 (SLOT_HEADER_SIZE + cap) >? len m
  then run (init count cap) m = (Err Layout, m)
  else geom_ok (init_geom count cap) (len m) ∧
    ∃ m', run (init count cap) m = (Ok (init_geom count cap), m') ∧ len m' = len m ∧
      header_ok m' count (align8 (SLOT_HEADER_SIZE + cap)) cap ∧
      ∀ s, slot_in (init_geom count cap) s → st_word (init_geom count cap) m' s = ST_FREE.
Proof.
  intros (Hcount & Hcap & Hal & HL). unfold init. rewrite run_len.
  set (stride := align8 (SLOT_HEADER_SIZE + cap)) in *.
  destruct (Z.gtb_spec (RING_HEADER_SIZE + count * stride) (len m)) as [Hc|Hc]; [done|].
  assert (geom_ok (init_geom count cap) (len m)) as Hg by done.
  split; [done|]. pose proof (header_fits _ _ Hg) as [Hh _].
  destruct (stride_bounds _ _ Hg) as (_ & _ & Hs32).
  change (slot_stride (init_geom count cap)) with stride in Hs32.
  assert (as_u32 stride = stride) as -> by (apply Z.mod_small; lia).
  rewrite run_init_header by done.
  set (m1 := mem_puts m (header_writes count stride cap)).
  assert (len m1 = len m) as Hm1 by (apply mem_puts_len; by apply header_in_range).
  rewrite prog_run_bind. destruct Hcount as [Hc0 Hc1].
  destruct (run_init_slots (init_geom count cap) (len m) Hg (Z.to_nat count) 0 m1)
    as (m2 & Hrun & Hm2 & Hsame & Hfree); [done|lia|cbn; lia|].
  unfold init_geom in Hrun |- *. fold stride in Hrun |- *. rewrite Hrun.
  exists m2. split_and!; [done|done| |].
  - eapply header_ok_mono; [|exact Hsame]. apply header_written; [done|done| |done]. split; lia.
  - intros s Hs. rewrite Hfree by done. apply decide_True. unfold slot_in in Hs. cbn in Hs. lia.
Qed.

(** With no token held, a ring just laid out satisfies the invariant. *)
Lemma inv_init g L Answers m n :
  len m = L → in_u64 (req_seq m) → (∀ s, slot_in g s → st_word g m s = ST_FREE) →
  inv g L Answers m (replicate n ∅).
Proof.
  intros Hm Hq Hst. split_and!; [done|done|]. intros s Hs. rewrite Hst by done.
  assert (∀ k, held (replicate n ∅) k = []) as Hh.
  { intros k. induction n as [|n IH]; [done|]. cbn. by rewrite lookup_empty. }
  rewrite !Hh. by constructor.
Qed.

(** ** Any number of client and server threads *)

(** ** Setting up *)

(** Property: [init] either refuses a segment that is too small, leaving it as it
    was, or lays out a ring whose geometry is what [open] then reads back. *)
Theorem init_open count cap m :
  init_args count cap m →
  let r := run (init count cap) m in
  if RING_HEADER_SIZE + count * align8 (SLOT_HEADER_SIZE + cap) >? len m
  then r = (Err Layout, m)
  else r.1 = Ok (init_geom count cap) ∧ run open r.2 = (Ok (init_geom count cap), r.2) ∧
    len r.2 = len m ∧
    ∀ s, slot_in (init_geom count cap) s →
      run (slot_state (init_geom count cap) s) r.2 = (Some ST_FREE, r.2).
Proof.
  intros Ha. pose proof (run_init count cap m Ha) as H. cbn zeta.
  destruct (_ >? _); [done|]. destruct H as (Hg & m' & -> & Hm' & Hh & Hst). cbn [fst snd].
  split_and!; [done|by apply (run_open _ (len m))|done|].
  intros s Hs. cbn [run slot_state state_load do]. rewrite (exec_load _ _ Hg) by done. cbn. by rewrite Hst.
Qed.

Lemma init_open_witness :
  init_args 2 8 (replicate 160 0) ∧
  let r := run (init 2 8) (replicate 160 0) in
  r.1 = Ok (init_geom 2 8) ∧ run open r.2 = (Ok (init_geom 2 8), r.2).
Proof.
  assert (init_args 2 8 (replicate 160 0)) as Ha by (by split_and!).
  split; [done|]. pose proof (init_open 2 8 _ Ha) as H. cbn zeta in H |- *.
  destruct (_ >? _) eqn:He; [vm_compute in He; discriminate He|].
  destruct H as (H1 & H2 & _). split; [exact H1|exact H2].
Defined.

(** ** Running *)

Section top.
Context (count cap : Z) (m0 : bytes) (g : Geom) (m1 : bytes).
Context (Answers : RingReq → Z * bytes → Prop).
Context (clients : list (list call)) (servers : list (list (Z → RingReq → Z * bytes))).

(** A ring has been laid out, the clients' calls have arguments of their
  types, and the servers' handlers answer. *)
Record ring_setup : Prop := mkSetup {
setup_args : init_args count cap m0;
setup_init : run (init count cap) m0 = (Ok g, m1);
setup_calls : Forall (Forall call_ok) clients;
setup_handlers : Forall (Forall (handler_ok Answers)) servers }.

Context (Hsetup : ring_setup).

Lemma setup_ring :
geom_ok g (len m0) ∧ ∀ n, inv g (len m0) Answers m1 (replicate n ∅).
Proof using Hsetup.
destruct Hsetup as [Ha Hi _ _]. pose proof (run_init count cap m0 Ha) as H.
destruct (_ >? _); [congruence|]. destruct H as (Hg & m' & Hrun & Hm' & Hh & Hst).
rewrite Hi in Hrun. injection Hrun as -> ->. split; [done|]. intros n. apply inv_init; [done| |done].
destruct Hh as (_ & _ & _ & _ & _ & ->). done.
Qed.

Definition client_post (cs : list call) (o : thread_out) (v : view) : Prop :=
v = ∅ ∧ ∃ out, o = inl out ∧ Forall2 (outcome_ok g Answers) cs out.
Definition server_post (_ : list (Z → RingReq → Z * bytes)) (o : thread_out) (v : view) : Prop :=
v = ∅ ∧ ∃ out, o = inr out ∧ Forall served out.
Definition posts : list (thread_out → view → Prop) :=
(client_post <$> clients) ++ (server_post <$> servers).

Lemma threads_spec i p Q :
threads g clients servers !! i = Some p → posts !! i = Some Q →
wp (inv g (len m0) Answers) ∅ p Q.
Proof using Hsetup.
destruct setup_ring as [Hg _]. destruct Hsetup as [_ _ Hc Hs].
unfold threads, posts. rewrite !lookup_app, !length_fmap, !list_lookup_fmap.
destruct (clients !! i) as [cs|] eqn:Hcs; cbn.
- intros [= <-] [= <-]. eapply wp_call; [apply client_thread_spec; [done|by eapply Forall_lookup_1]|].
  intros out v' [-> Hout]. split; [done|]. by exists out.
- destruct (servers !! (i - length clients)%nat) as [hs|] eqn:Hhs; cbn; [|done].
  intros [= <-] [= <-]. eapply wp_call; [apply server_thread_spec; [done|by eapply Forall_lookup_1]|].
  intros out v' [-> Hout]. split; [done|]. by exists out.
Qed.

Lemma ring_adequacy m' ps' :
reachable (m1, threads g clients servers) (m', ps') →
∃ vs, inv g (len m0) Answers m' vs ∧ length vs = length ps' ∧
  ∀ i v a Q, vs !! i = Some v → ps' !! i = Some (Ret a) → posts !! i = Some Q → Q a v.
Proof using Hsetup.
intros Hr. destruct setup_ring as [_ Hinv].
eapply (adequacy _ (inv_perm _ _ _) posts m1 _ (replicate (length (threads g clients servers)) ∅));
  [apply Hinv|by rewrite length_replicate| | |exact Hr].
- unfold posts, threads. by rewrite !length_app, !length_fmap.
- intros i v p Q Hv Hp HQ. apply lookup_replicate in Hv as [-> _]. by eapply threads_spec.
Qed.

(** When every thread has returned no token is held. *)
Lemma ring_all_done m' ps' :
reachable (m1, threads g clients servers) (m', ps') → Forall (λ p, ∃ a, p = Ret a) ps' →
∃ vs, inv g (len m0) Answers m' vs ∧ ∀ k, held vs k = [].
Proof using Hsetup.
intros Hr Hdone. destruct (ring_adequacy m' ps' Hr) as (vs & Hinv & Hlen & H).
exists vs. split; [done|]. intros k. apply held_nil. intros v [i Hv]%list_elem_of_lookup.
destruct (lookup_lt_is_Some_2 ps' i) as [p Hp]; [rewrite <- Hlen; by eapply lookup_lt_Some|].
destruct (lookup_lt_is_Some_2 posts i) as [Q HQ].
{ apply reachable_length in Hr. cbn [snd] in Hr. unfold posts. unfold threads in Hr.
  rewrite length_app, !length_fmap in Hr. rewrite length_app, !length_fmap. rewrite <- Hr. by eapply lookup_lt_Some. }
destruct (Forall_lookup_1 _ _ _ _ Hdone Hp) as [a ->].
pose proof (H i v a Q Hv Hp HQ) as HQa. unfold posts in HQ.
apply lookup_app_Some in HQ as [HQ|[_ HQ]]; apply list_lookup_fmap_Some in HQ as (x & -> & _);
  destruct HQa as [-> _]; apply lookup_empty.
Qed.

End top.

(** C1: whatever the threads and the schedule, what a client thread has
    received when it returns is, for each request, an answer to that very
    request, or one of the documented failures: never a late reply that was
    meant for another. *)
Theorem ring_answers count cap m0 g m1 Answers clients servers m' ps' i cs out :
  ring_setup count cap m0 g m1 Answers clients servers →
  reachable (m1, threads g clients servers) (m', ps') →
  clients !! i = Some cs → ps' !! i = Some (Ret (inl out)) →
  Forall2 (outcome_ok g Answers) cs out.
Proof.
  intros Hs Hr Hcs Hout.
  destruct (ring_adequacy _ _ _ _ _ _ _ _ Hs m' ps' Hr) as (vs & _ & Hlen & H).
  destruct (lookup_lt_is_Some_2 vs i) as [v Hv]; [rewrite Hlen; by eapply lookup_lt_Some|].
  destruct (H i v _ (client_post g Answers cs) Hv Hout) as [_ (out' & [= ->] & Hres)]; [|done].
  unfold posts. rewrite lookup_app_l, list_lookup_fmap, Hcs; [done|].
  rewrite length_fmap. by eapply lookup_lt_Some.
Qed.

(** Property: no round of a server thread ever fails: it finds nothing to do, or
    its reply is delivered, or dropped because the client had stopped waiting. *)
Theorem ring_serves count cap m0 g m1 Answers clients servers m' ps' j hs out :
  ring_setup count cap m0 g m1 Answers clients servers →
  reachable (m1, threads g clients servers) (m', ps') →
  servers !! j = Some hs → ps' !! (length clients + j)%nat = Some (Ret (inr out)) →
  Forall served out.
Proof.
  intros Hs Hr Hhs Hout.
  destruct (ring_adequacy _ _ _ _ _ _ _ _ Hs m' ps' Hr) as (vs & _ & Hlen & H).
  destruct (lookup_lt_is_Some_2 vs (length clients + j)) as [v Hv];
    [rewrite Hlen; by eapply lookup_lt_Some|].
  destruct (H _ v _ (server_post hs) Hv Hout) as [_ (out' & [= ->] & Hres)]; [|done].
  unfold posts. rewrite lookup_app_r by (rewrite length_fmap; lia).
  rewrite length_fmap, list_lookup_fmap. replace (length clients + j - length clients)%nat with j by lia.
  by rewrite Hhs.
Qed.

(** C2: no slot is lost: once every thread has returned, whatever timed out
    or was abandoned on the way, every slot of the ring is free. *)
Theorem ring_no_slot_lost count cap m0 g m1 Answers clients servers m' ps' s :
  ring_setup count cap m0 g m1 Answers clients servers →
  reachable (m1, threads g clients servers) (m', ps') →
  Forall (λ p, ∃ a, p = Ret a) ps' → slot_in g s →
  run (slot_state g s) m' = (Some ST_FREE, m').
Proof.
  intros Hs Hr Hdone Hin. destruct (setup_ring _ _ _ _ _ _ _ _ Hs) as [Hg _].
  destruct (ring_all_done _ _ _ _ _ _ _ _ Hs m' ps' Hr Hdone) as (vs & (Hm & _ & Hok) & Hheld).
  specialize (Hok s Hin). rewrite !Hheld in Hok. apply slot_ok_nil in Hok.
  cbn [run slot_state state_load do]. rewrite (exec_load _ _ Hg) by done. cbn. by rewrite Hok.
Qed.

(** ** A run

    A client gives up on its first request while the server has it, sends a
    second one from another slot, and gets the answer to the second; the late
    reply to the first is dropped. *)

Definition demo_echo (_ : Z) (q : RingReq) : Z * bytes := (9, q_payload q).
Definition demo_answers (q : RingReq) (a : Z * bytes) : Prop := a = (9, q_payload q).
Definition demo_geom : Geom := init_geom 2 8.
Definition demo_mem : bytes := (run (init 2 8) (replicate 160 0)).2.
Definition demo_calls : list call :=
  [CallOne (mkPatience 0 0) (mkSend 7 0 [1; 2; 3]); CallOne (mkPatience 0 5) (mkSend 8 1 [4; 5])].
Definition demo_out : list outcome :=
  [OutOne (Err (mkUnanswered Timeout [0])); OutOne (Ok (9, [4; 5]))].
Definition demo_end : config (T := thread_out) :=
  sched_run (replicate 10 0%nat ++ replicate 6 1%nat ++ replicate 14 0%nat ++ replicate 40 1%nat ++
             replicate 20 0%nat)
    (demo_mem, threads demo_geom [demo_calls] [[demo_echo; demo_echo]]).

Lemma demo_setup :
  ring_setup 2 8 (replicate 160 0) demo_geom demo_mem demo_answers [demo_calls] [[demo_echo; demo_echo]].
Proof.
  split; [by split_and!|by vm_compute|by repeat constructor|].
  repeat constructor; done.
Qed.

Lemma demo_reachable :
  reachable (demo_mem, threads demo_geom [demo_calls] [[demo_echo; demo_echo]]) (demo_end.1, demo_end.2).
Proof. rewrite <- surjective_pairing. apply sched_reachable. Qed.

Lemma demo_done : demo_end.2 = [Ret (inl demo_out); Ret (inr [Ok true; Ok true])].
Proof. vm_compute. reflexivity. Qed.

Lemma ring_answers_witness : Forall2 (outcome_ok demo_geom demo_answers) demo_calls demo_out.
Proof.
  apply (ring_answers 2 8 (replicate 160 0) demo_geom demo_mem demo_answers [demo_calls]
    [[demo_echo; demo_echo]] demo_end.1 demo_end.2 0 demo_calls demo_out demo_setup demo_reachable);
    [reflexivity|rewrite demo_done; reflexivity].
Defined.

Lemma ring_serves_witness : Forall served [Ok true; Ok true].
Proof.
  apply (ring_serves 2 8 (replicate 160 0) demo_geom demo_mem demo_answers [demo_calls]
    [[demo_echo; demo_echo]] demo_end.1 demo_end.2 0 [demo_echo; demo_echo] _ demo_setup demo_reachable);
    [reflexivity|rewrite demo_done; reflexivity].
Defined.

Lemma ring_no_slot_lost_witness : run (slot_state demo_geom 0) demo_end.1 = (Some ST_FREE, demo_end.1).
Proof.
  apply (ring_no_slot_lost 2 8 (replicate 160 0) demo_geom demo_mem demo_answers [demo_calls]
    [[demo_echo; demo_echo]] demo_end.1 demo_end.2 0 demo_setup demo_reachable).
  - rewrite demo_done. repeat constructor; eauto.
  - split; reflexivity.
Defined.
