(* ===== verification/Provider.v ===== *)
(** Provider: the contract between the parts that serve files
    (rust/crates/vfs-provider/src), the capabilities they declare and the
    table of open handles they keep.

    A provider's methods take [&self] and may change state behind it, so each
    is a function on the provider's own state [S]; a composition's state
    contains its children's. *)

From S2P Require Import Prelude.

(** ** status.rs *)

Definition ST_OK : Z := 0.
Definition ST_NOT_FOUND : Z := -1.
Definition ST_NOT_A_DIRECTORY : Z := -2.
Definition ST_BAD_REQUEST : Z := -3.
Definition ST_IO_ERROR : Z := -4.
Definition ST_IS_DIR : Z := -5.
Definition ST_BAD_FH : Z := -6.
Definition ST_NO_SPACE : Z := -7.
Definition ST_NOT_SUPPORTED : Z := -8.
Definition ST_READ_ONLY : Z := -9.
Definition ST_EXISTS : Z := -10.

Definition OPEN_READ : Z := 1.
Definition OPEN_WRITE : Z := 2.
Definition OPEN_CREATE : Z := 4.
Definition OPEN_EXCL : Z := 8.
Definition OPEN_TRUNC : Z := 16.
Definition OPEN_APPEND : Z := 32.

(** ** model.rs and path.rs *)

Abbreviation Handle := Z (only parsing).

Definition KIND_FILE : Z := 1.
Definition KIND_DIR : Z := 2.

Record Stat := mkStat { st_kind : Z; st_size : Z; st_mtime : Z }.
Record DirEntry := mkDirEntry { de_name : str; de_stat : Stat }.
Record SetAttr := mkSetAttr { sa_mtime : option Z; sa_size : option Z }.
Record VPath := mkVPath { vp_root : Z; vp_rel : str }.

#[export] Instance Stat_eq_dec : EqDecision Stat.
Proof. solve_decision. Defined.
#[export] Instance DirEntry_eq_dec : EqDecision DirEntry.
Proof. solve_decision. Defined.

(** ** caps.rs *)

Inductive Access := SeqRead | Read | ReadWrite.
Inductive CaseMatch := Insensitive | Sensitive.

#[export] Instance Access_eq_dec : EqDecision Access.
Proof. solve_decision. Defined.
#[export] Instance CaseMatch_eq_dec : EqDecision CaseMatch.
Proof. solve_decision. Defined.

(** [derive(PartialOrd, Ord)]: the order of the constructors. *)
Definition access_rank (a : Access) : Z := match a with SeqRead => 0 | Read => 1 | ReadWrite => 2 end.
Definition access_min (a b : Access) : Access := if access_rank b <? access_rank a then b else a.
Definition access_max (a b : Access) : Access := if access_rank b <? access_rank a then a else b.

Record Capabilities := mkCaps {
  access : Access;
  immutable : bool;
  slow : bool;
  preferred_block : option Z;
  case : CaseMatch }.

Definition caps_read_only : Capabilities := mkCaps Read false false None Insensitive.

(** [false]: the declaration contradicts itself. *)
Definition caps_validate (c : Capabilities) : bool :=
  negb (bool_decide (access c = ReadWrite) && immutable c).

Definition caps_with_access (a : Access) (c : Capabilities) : Capabilities :=
  mkCaps a (immutable c) (slow c) (preferred_block c) (case c).

Definition caps_seekable (c : Capabilities) : Capabilities :=
  caps_with_access (if bool_decide (access c = SeqRead) then Read else access c) c.

Definition caps_cached (c : Capabilities) : Capabilities :=
  mkCaps (access c) (immutable c) false (preferred_block c) (case c).

Definition read_only_clamp (c : Capabilities) : Capabilities :=
  caps_with_access (if bool_decide (access c = ReadWrite) then Read else access c) c.

(** One round of the loop of [weakest]. *)
Definition weaker (acc c : Capabilities) : Capabilities :=
  mkCaps (access_min (access acc) (access c))
    (immutable acc && immutable c) (slow acc || slow c)
    (match preferred_block acc, preferred_block c with
     | Some a, Some b => Some (Z.min a b)
     | None, b => b
     | a, None => a
     end)
    (match case acc, case c with Insensitive, Insensitive => Insensitive | _, _ => Sensitive end).

Definition weakest (children : list Capabilities) : Capabilities :=
  default caps_read_only
    (foldl (λ out c, Some (match out with None => c | Some acc => weaker acc c end)) None children).

(** ** Methods *)

(** A method of a provider with state [S]. *)
Definition PM (S A : Type) : Type := S → result Z A * S.

#[export] Instance PM_ret S : MRet (PM S) := λ A a s, (Ok a, s).
#[export] Instance PM_bind S : MBind (PM S) := λ A B f m s,
  match m s with (Ok a, s) => f a s | (Err e, s) => (Err e, s) end.

Definition pm_err {S A} (e : Z) : PM S A := λ s, (Err e, s).
Definition pm_modify {S A} (f : S → S) (a : A) : PM S A := λ s, (Ok a, f s).

(** A child's method, run on its part of the state. *)
Definition zoom {S T R} (get : T → S) (put : S → T → T) (m : S → R * S) : T → R * T := λ t,
  let '(r, s) := m (get t) in (r, put s t).

(** ** handle_table.rs *)

Record HandleTable (T : Type) := mkTable { h_next : Z; h_map : gmap Z T; h_poisoned : bool }.
Arguments mkTable {T}.
Arguments h_next {T}.
Arguments h_map {T}.
Arguments h_poisoned {T}.

Section table.
Context {T : Type}.

Definition table_new : HandleTable T := mkTable 1 ∅ false.

(** [fetch_add(1)]: the counter wraps. *)
Definition fresh (t : HandleTable T) : Handle * HandleTable T :=
(h_next t, mkTable (as_u64 (h_next t + 1)) (h_map t) (h_poisoned t)).

Definition with_map (t : HandleTable T) (m : gmap Z T) : HandleTable T := mkTable (h_next t) m (h_poisoned t).

Definition table_insert (value : T) : PM (HandleTable T) Handle := λ t,
let '(h, t) := fresh t in
if h_poisoned t then (Err ST_IO_ERROR, t) else (Ok h, with_map t (<[h := value]> (h_map t))).

(** [with]: [f] runs on the state for [h] and may change it. *)
Definition table_with {R} (h : Handle) (f : T → R * T) : PM (HandleTable T) R := λ t,
if h_poisoned t then (Err ST_IO_ERROR, t) else
match h_map t !! h with
| None => (Err ST_BAD_FH, t)
| Some v => let '(r, v) := f v in (Ok r, with_map t (<[h := v]> (h_map t)))
end.

Definition table_remove (h : Handle) : PM (HandleTable T) T := λ t,
if h_poisoned t then (Err ST_IO_ERROR, t) else
match h_map t !! h with
| None => (Err ST_BAD_FH, t)
| Some v => (Ok v, with_map t (delete h (h_map t)))
end.

Definition table_contains (h : Handle) (t : HandleTable T) : bool :=
negb (h_poisoned t) && bool_decide (is_Some (h_map t !! h)).

(** The order of a [HashMap]'s entries is unspecified. *)
Definition table_drain : PM (HandleTable T) (list (Handle * T)) := λ t,
if h_poisoned t then (Err ST_IO_ERROR, t) else (Ok (map_to_list (h_map t)), with_map t ∅).

Definition table_get (h : Handle) : PM (HandleTable T) T := table_with h (λ v, (v, v)).

Definition table_values : PM (HandleTable T) (list T) := λ t,
if h_poisoned t then (Err ST_IO_ERROR, t) else (Ok (map_to_list (h_map t)).*2, t).

End table.

(** ** provider.rs *)

(** The trait. [read_at] and [read_next] fill a buffer: what they leave in it,
    whatever they answer, is part of the result. Capabilities are constant for
    the provider's lifetime. *)
Record Provider (S : Type) := mkProvider {
  p_capabilities : Capabilities;
  p_getattr : VPath → PM S (option Stat);
  p_readdir : VPath → PM S (list DirEntry);
  p_open : VPath → Z → PM S (Handle * Z * bool);
  p_close : Handle → PM S unit;
  p_read_at : Handle → Z → bytes → S → (result Z Z * bytes) * S;
  p_read_next : Handle → bytes → S → (result Z Z * bytes) * S;
  p_write_at : Handle → Z → bytes → PM S Z;
  p_set_len : Handle → Z → PM S unit;
  p_flush : Handle → PM S unit;
  p_mkdir : VPath → PM S unit;
  p_remove : VPath → PM S unit;
  p_rename : VPath → VPath → PM S unit;
  p_set_attr : VPath → SetAttr → PM S unit;
  p_stored_name : VPath → PM S (option str);
  p_is_immutable : Handle → S → bool }.
Arguments mkProvider {S}.
Arguments p_capabilities {S}.
Arguments p_getattr {S}.
Arguments p_readdir {S}.
Arguments p_open {S}.
Arguments p_close {S}.
Arguments p_read_at {S}.
Arguments p_read_next {S}.
Arguments p_write_at {S}.
Arguments p_set_len {S}.
Arguments p_flush {S}.
Arguments p_mkdir {S}.
Arguments p_remove {S}.
Arguments p_rename {S}.
Arguments p_set_attr {S}.
Arguments p_stored_name {S}.
Arguments p_is_immutable {S}.

(** A method a provider does not implement. *)
Definition not_supported {S A} : PM S A := pm_err ST_NOT_SUPPORTED.
Definition no_read {S} (buf : bytes) : S → (result Z Z * bytes) * S := λ s, ((Err ST_NOT_SUPPORTED, buf), s).

(** A provider that implements the read core and [read_at] only: every other
    method is the trait's default. *)
Definition read_provider {S} (caps : Capabilities) (getattr : VPath → PM S (option Stat))
    (readdir : VPath → PM S (list DirEntry)) (open : VPath → Z → PM S (Handle * Z * bool))
    (close : Handle → PM S unit) (read_at : Handle → Z → bytes → S → (result Z Z * bytes) * S)
    : Provider S :=
  mkProvider caps getattr readdir open close read_at
    (λ _ buf, no_read buf) (λ _ _ _, not_supported) (λ _ _, not_supported) (λ _, not_supported)
    (λ _, not_supported) (λ _, not_supported) (λ _ _, not_supported) (λ _ _, not_supported)
    (λ _, not_supported) (λ _ _, immutable caps).

(** ** Operations, as data *)

Inductive op :=
  | OGetattr (p : VPath) | OReaddir (p : VPath) | OStoredName (p : VPath)
  | OOpen (p : VPath) (flags : Z) | OClose (h : Handle)
  | OReadAt (h : Handle) (off : Z) (buf : bytes) | OReadNext (h : Handle) (buf : bytes)
  | OWriteAt (h : Handle) (off : Z) (buf : bytes) | OSetLen (h : Handle) (n : Z) | OFlush (h : Handle)
  | OMkdir (p : VPath) | ORemove (p : VPath) | ORename (from to : VPath) | OSetAttr (p : VPath) (a : SetAttr).

(** The state after one call, and after several. *)
Definition op_state {S} (P : Provider S) (o : op) (s : S) : S :=
  match o with
  | OGetattr p => (p_getattr P p s).2
  | OReaddir p => (p_readdir P p s).2
  | OStoredName p => (p_stored_name P p s).2
  | OOpen p f => (p_open P p f s).2
  | OClose h => (p_close P h s).2
  | OReadAt h off buf => (p_read_at P h off buf s).2
  | OReadNext h buf => (p_read_next P h buf s).2
  | OWriteAt h off buf => (p_write_at P h off buf s).2
  | OSetLen h n => (p_set_len P h n s).2
  | OFlush h => (p_flush P h s).2
  | OMkdir p => (p_mkdir P p s).2
  | ORemove p => (p_remove P p s).2
  | ORename from to => (p_rename P from to s).2
  | OSetAttr p a => (p_set_attr P p a s).2
  end.

Definition ops_state {S} (P : Provider S) (os : list op) (s : S) : S :=
  foldl (λ s o, op_state P o s) s os.
