(* ===== verification/Compose.v ===== *)
(** Compose: providers built out of other providers
    (rust/crates/vfs-compose/src: layered.rs, readonly.rs, subdir.rs and the
    shared functions of lib.rs). *)

From S2P Require Import Prelude Text Path Provider.

(** The state of [LayeredProvider] (layered.rs). *)
Inductive Layer := Top | Bottom.

Record Layered (S1 S2 : Type) := mkLayered {
  l_top : S1; l_bottom : S2; l_opens : HandleTable (Layer * Handle) }.
Arguments mkLayered {S1 S2}.
Arguments l_top {S1 S2}.
Arguments l_bottom {S1 S2}.
Arguments l_opens {S1 S2}.

Section compose.
Context {CT : CaseTable}.

(** ** lib.rs *)

Definition sorted_by_folded_name (by_folded : gmap str DirEntry) : list DirEntry :=
(bt_iter by_folded).*2.

Definition merge_upper_entry (by_folded : gmap str DirEntry) (key : str) (upper : DirEntry)
  : gmap str DirEntry :=
match by_folded !! key with
| Some lower => <[key := mkDirEntry (de_name lower) (de_stat upper)]> by_folded
| None => <[key := upper]> by_folded
end.

(** [stored_name]: the provider's own answer, or the name found in a listing
  of the parent. *)
Definition find_name (entries : list DirEntry) (name : str) : option str :=
List.find (λ n, str_eqb (fold n) (fold name)) (de_name <$> entries).

Definition stored_name {S} (P : Provider S) (p : VPath) : PM S (option str) := λ s,
match p_stored_name P p s with
| (Err e, s) =>
    if e =? ST_NOT_SUPPORTED then
      let rel := trim_matches slash (vp_rel p) in
      if bool_decide (rel = []) then (Ok None, s) else
      let '(parent, name) := split_parent rel in
      match p_readdir P (mkVPath (vp_root p) parent) s with
      | (Ok entries, s) => (Ok (find_name entries name), s)
      | (Err e, s) =>
          if (e =? ST_NOT_FOUND) || (e =? ST_NOT_A_DIRECTORY) then (Ok None, s) else (Err e, s)
      end
    else (Err e, s)
| answered => answered
end.

Definition merge_stored_name {S} (lower upper : VPath → PM S (option str)) (p : VPath) : PM S (option str) :=
λ s, match lower p s with
     | (Ok (Some name), s) => (Ok (Some name), s)
     | (Ok None, s) => upper p s
     | (Err e, s) => (Err e, s)
     end.

(** ** layered.rs *)

Section layered.
Context {S1 S2 : Type} (top : Provider S1) (bottom : Provider S2).
Local Abbreviation L := (Layered S1 S2).

Definition layered_new (s1 : S1) (s2 : S2) : L := mkLayered s1 s2 table_new.

Definition on_top {R} : (S1 → R * S1) → L → R * L :=
zoom l_top (λ s1 t, mkLayered s1 (l_bottom t) (l_opens t)).
Definition on_bottom {R} : (S2 → R * S2) → L → R * L :=
zoom l_bottom (λ s2 t, mkLayered (l_top t) s2 (l_opens t)).
Definition on_opens {R} : (HandleTable (Layer * Handle) → R * HandleTable (Layer * Handle)) → L → R * L :=
zoom l_opens (λ o t, mkLayered (l_top t) (l_bottom t) o).

(** [self.routed(&layer).m(..)] *)
Definition routed {R} (layer : Layer) (m1 : S1 → R * S1) (m2 : S2 → R * S2) : L → R * L :=
match layer with Top => on_top m1 | Bottom => on_bottom m2 end.

Definition write_target : option Layer :=
if bool_decide (access (p_capabilities top) = ReadWrite) then Some Top
else if bool_decide (access (p_capabilities bottom) = ReadWrite) then Some Bottom
else None.

Definition layered_lookup (h : Handle) : PM L (Layer * Handle) := on_opens (table_get h).

Definition layered_capabilities : Capabilities :=
let t := p_capabilities top in
let b := p_capabilities bottom in
caps_with_access (access_max (access t) (access b)) (weakest [t; b]).

Definition layered_getattr (p : VPath) : PM L (option Stat) :=
s ← (on_top (p_getattr top p) : PM L (option Stat));
match s with
| Some s => mret (Some s)
| None => on_bottom (p_getattr bottom p)
end.

(** The merged listing of [readdir]. *)
Definition merge_listing (top_entries bottom_entries : list DirEntry) : list DirEntry :=
let seen := foldl (λ seen e, <[fold (de_name e) := e]> seen) ∅ bottom_entries in
let seen := foldl (λ seen e, merge_upper_entry seen (fold (de_name e)) e) seen top_entries in
sorted_by_folded_name seen.

Definition layered_readdir (p : VPath) : PM L (list DirEntry) := λ s,
match on_top (p_readdir top p) s with
| (Ok top_entries, s) =>
    let '(r, s) := on_bottom (p_readdir bottom p) s in
    let bottom_entries := match r with Ok es => es | Err _ => [] end in
    (Ok (merge_listing top_entries bottom_entries), s)
| (Err e, s) =>
    if e =? ST_NOT_FOUND then on_bottom (p_readdir bottom p) s else (Err e, s)
end.

Definition layered_stored_name : VPath → PM L (option str) :=
merge_stored_name (λ p, on_bottom (stored_name bottom p)) (λ p, on_top (stored_name top p)).

(** The child that opens [p], and its answer: a write goes to the one child
  that takes writes, a read falls through from the top. *)
Definition layered_open_write (p : VPath) (flags : Z) : PM L (Layer * (Handle * Z * bool)) :=
match write_target with
| None => pm_err ST_READ_ONLY
| Some layer =>
    r ← (routed layer (p_open top p flags) (p_open bottom p flags) : PM L (Handle * Z * bool));
    mret (layer, r)
end.

Definition layered_open_read (p : VPath) (flags : Z) : PM L (Layer * (Handle * Z * bool)) := λ s,
match on_top (p_open top p flags) s with
| (Ok r, s) => (Ok (Top, r), s)
| (Err e, s) =>
    if e =? ST_NOT_FOUND then
      match on_bottom (p_open bottom p flags) s with
      | (Ok r, s) => (Ok (Bottom, r), s)
      | (Err e, s) => (Err e, s)
      end
    else (Err e, s)
end.

Definition layered_open (p : VPath) (flags : Z) : PM L (Handle * Z * bool) :=
r ← (if negb (Z.land flags OPEN_WRITE =? 0) then layered_open_write p flags
     else layered_open_read p flags);
let '(layer, (bh, size, is_dir)) := r in
h ← (on_opens (table_insert (layer, bh)) : PM L Handle);
mret (h, size, is_dir).

(** The methods that address an open handle. *)
Definition layered_handle {A} (h : Handle) (m1 : Handle → PM S1 A) (m2 : Handle → PM S2 A) : PM L A :=
r ← layered_lookup h;
routed r.1 (m1 r.2) (m2 r.2).

Definition layered_read_at (h : Handle) (off : Z) (buf : bytes) (s : L) : (result Z Z * bytes) * L :=
match layered_lookup h s with
| (Ok (layer, inner), s) => routed layer (p_read_at top inner off buf) (p_read_at bottom inner off buf) s
| (Err e, s) => ((Err e, buf), s)
end.

Definition layered_is_immutable (h : Handle) (s : L) : bool :=
match layered_lookup h s with
| (Ok (Top, inner), s) => p_is_immutable top inner (l_top s)
| (Ok (Bottom, inner), s) => p_is_immutable bottom inner (l_bottom s)
| (Err _, _) => false
end.

Definition layered_close (h : Handle) : PM L unit :=
r ← (on_opens (table_remove h) : PM L (Layer * Handle));
routed r.1 (p_close top r.2) (p_close bottom r.2).

(** The methods that change a path. *)
Definition layered_write {A} (m1 : PM S1 A) (m2 : PM S2 A) : PM L A :=
match write_target with
| None => pm_err ST_READ_ONLY
| Some layer => routed layer m1 m2
end.

Definition layered : Provider L := {|
p_capabilities := layered_capabilities;
p_getattr := layered_getattr;
p_readdir := layered_readdir;
p_open := layered_open;
p_close := layered_close;
p_read_at := layered_read_at;
p_read_next := λ _ buf, no_read buf;
p_write_at := λ h off buf, layered_handle h (λ h, p_write_at top h off buf) (λ h, p_write_at bottom h off buf);
p_set_len := λ h n, layered_handle h (λ h, p_set_len top h n) (λ h, p_set_len bottom h n);
p_flush := λ h, layered_handle h (p_flush top) (p_flush bottom);
p_mkdir := λ p, layered_write (p_mkdir top p) (p_mkdir bottom p);
p_remove := λ p, layered_write (p_remove top p) (p_remove bottom p);
p_rename := λ from to, layered_write (p_rename top from to) (p_rename bottom from to);
p_set_attr := λ p a, layered_write (p_set_attr top p a) (p_set_attr bottom p a);
p_stored_name := layered_stored_name;
p_is_immutable := layered_is_immutable |}.

End layered.

(** ** readonly.rs *)

Definition MUTATING_FLAGS : Z :=
Z.lor (Z.lor (Z.lor OPEN_WRITE OPEN_CREATE) OPEN_TRUNC) OPEN_APPEND.

Definition readonly {S} (inner : Provider S) : Provider S := {|
p_capabilities := read_only_clamp (p_capabilities inner);
p_getattr := p_getattr inner;
p_readdir := p_readdir inner;
p_open := λ p flags,
  if negb (Z.land flags MUTATING_FLAGS =? 0) then pm_err ST_READ_ONLY else p_open inner p flags;
p_close := p_close inner;
p_read_at := p_read_at inner;
p_read_next := p_read_next inner;
p_write_at := λ _ _ _, pm_err ST_READ_ONLY;
p_set_len := λ _ _, pm_err ST_READ_ONLY;
p_flush := p_flush inner;
p_mkdir := λ _, pm_err ST_READ_ONLY;
p_remove := λ _, pm_err ST_READ_ONLY;
p_rename := λ _ _, pm_err ST_READ_ONLY;
p_set_attr := λ _ _, pm_err ST_READ_ONLY;
p_stored_name := p_stored_name inner;
p_is_immutable := p_is_immutable inner |}.

(** ** subdir.rs *)

Definition map_path (prefix path : str) : str :=
let path := trim_rel path in
if bool_decide (path = []) then prefix else prefix ++ [slash] ++ path.

Definition under (prefix : str) (p : VPath) : VPath := mkVPath (vp_root p) (map_path prefix (vp_rel p)).

(** [SubdirProvider::new], then the trait. *)
Definition subdir {S} (inner : Provider S) (prefix : str) : Provider S :=
let prefix := trim_rel prefix in {|
p_capabilities := p_capabilities inner;
p_getattr := λ p, p_getattr inner (under prefix p);
p_readdir := λ p, p_readdir inner (under prefix p);
p_open := λ p flags, p_open inner (under prefix p) flags;
p_close := p_close inner;
p_read_at := p_read_at inner;
p_read_next := λ _ buf, no_read buf;
p_write_at := p_write_at inner;
p_set_len := p_set_len inner;
p_flush := p_flush inner;
p_mkdir := λ p, p_mkdir inner (under prefix p);
p_remove := λ p, p_remove inner (under prefix p);
p_rename := λ from to, p_rename inner (under prefix from) (under prefix to);
p_set_attr := λ p a, p_set_attr inner (under prefix p) a;
p_stored_name := λ p,
  if forallb is_sep (vp_rel p) then mret None else p_stored_name inner (under prefix p);
p_is_immutable := p_is_immutable inner |}.

(** ** stack_layers (lib.rs) *)

(** A provider with its state: [Arc<dyn Provider>]. *)
Record AnyProvider := mkAny { ap_state : Type; ap_provider : Provider ap_state; ap_now : ap_state }.

Definition layer_over (upper acc : AnyProvider) : AnyProvider :=
mkAny _ (layered (ap_provider upper) (ap_provider acc)) (layered_new (ap_now upper) (ap_now acc)).

(** [None]: the empty input is refused. *)
Definition stack_layers (layers_bottom_to_top : list AnyProvider) : option AnyProvider :=
match layers_bottom_to_top with
| [] => None
| acc :: uppers => Some (foldl (λ acc upper, layer_over upper acc) acc uppers)
end.

End compose.
