(* ===== verification/ComposeProps.v ===== *)
(** ComposeProps: what the compositions promise: the base behind a read-only
    wrapper is never changed, a handle stays with the child that opened it, a
    merged listing has one entry per name. *)

From S2P Require Import Prelude Text Path Provider Compose.

(** ** Who may change what

    [obs] is what can be observed of a provider's content. [ReadPure] is the
    promise a provider makes for the calls that only read, [Frozen] for all of
    them. *)

(** A call that does not ask for a change. *)
Definition op_reads (o : op) : bool :=
  match o with
  | OGetattr _ | OReaddir _ | OStoredName _ | OClose _ | OReadAt _ _ _ | OReadNext _ _ | OFlush _ => true
  | OOpen _ flags => Z.land flags MUTATING_FLAGS =? 0
  | _ => false
  end.

Class ReadPure {S X} (P : Provider S) (obs : S → X) : Prop :=
  read_pure o s : op_reads o = true → obs (op_state P o s) = obs s.

Class Frozen {S X} (P : Provider S) (obs : S → X) : Prop :=
  frozen o s : obs (op_state P o s) = obs s.

#[export] Instance frozen_read_pure {S X} (P : Provider S) (obs : S → X) : Frozen P obs → ReadPure P obs.
Proof. intros H o s _. apply H. Qed.

Lemma frozen_ops {S X} (P : Provider S) (obs : S → X) `{!Frozen P obs} os s :
  obs (ops_state P os s) = obs s.
Proof.
  unfold ops_state. revert s. induction os as [|o os IH]; intros s; [done|]. cbn.
  rewrite IH. apply frozen.
Qed.

Section props.
Context {CT : CaseTable}.

#[export] Instance readonly_frozen {S X} (P : Provider S) (obs : S → X) :
ReadPure P obs → Frozen (readonly P) obs.
Proof.
intros HP o s. destruct o; try done; try (by apply (HP (OGetattr _) s) || by apply (HP (OReaddir _) s)).
- exact (HP (OStoredName p) s eq_refl).
- cbn. destruct (Z.land flags MUTATING_FLAGS =? 0) eqn:E; [|done]. exact (HP (OOpen p flags) s E).
- exact (HP (OClose h) s eq_refl).
- exact (HP (OReadAt h off buf) s eq_refl).
- exact (HP (OReadNext h buf) s eq_refl).
- exact (HP (OFlush h) s eq_refl).
Qed.

(** The operation that [subdir] passes on, if it passes one on. *)
Definition subdir_op (prefix : str) (o : op) : op :=
match o with
| OGetattr p => OGetattr (under prefix p)
| OReaddir p => OReaddir (under prefix p)
| OStoredName p => OStoredName (under prefix p)
| OOpen p f => OOpen (under prefix p) f
| OMkdir p => OMkdir (under prefix p)
| ORemove p => ORemove (under prefix p)
| ORename from to => ORename (under prefix from) (under prefix to)
| OSetAttr p a => OSetAttr (under prefix p) a
| o => o
end.

Lemma subdir_state {S} (P : Provider S) prefix o s :
op_state (subdir P prefix) o s = op_state P (subdir_op (trim_rel prefix) o) s ∨
op_state (subdir P prefix) o s = s.
Proof. destruct o; auto. cbn. destruct (forallb is_sep (vp_rel p)); auto. Qed.

(** A sequential provider cannot be read through [subdir]. *)
Lemma subdir_drops_read_next {S} (P : Provider S) prefix h buf s :
access (p_capabilities (subdir P prefix)) = access (p_capabilities P) ∧
p_read_next (subdir P prefix) h buf s = ((Err ST_NOT_SUPPORTED, buf), s).
Proof. done. Qed.

#[export] Instance subdir_frozen {S X} (P : Provider S) prefix (obs : S → X) :
Frozen P obs → Frozen (subdir P prefix) obs.
Proof. intros HP o s. destruct (subdir_state P prefix o s) as [-> | ->]; [apply HP|done]. Qed.

#[export] Instance subdir_read_pure {S X} (P : Provider S) prefix (obs : S → X) :
ReadPure P obs → ReadPure (subdir P prefix) obs.
Proof.
intros HP o s Ho. destruct (subdir_state P prefix o s) as [-> | ->]; [apply HP|done]. by destruct o.
Qed.

(** *** Layers: a child only changes by calls to it *)

Section layered.
Context {S1 S2 : Type} (top : Provider S1) (bottom : Provider S2).
Local Abbreviation L := (Layered S1 S2).

(** What a call to the stack does to one side of it: a sequence of calls to
  that child, and nothing else. *)
Definition top_moves (t t' : L) : Prop := ∃ os, l_top t' = ops_state top os (l_top t).
Definition bottom_moves (t t' : L) : Prop := ∃ os, l_bottom t' = ops_state bottom os (l_bottom t).
Definition moves (t t' : L) : Prop := top_moves t t' ∧ bottom_moves t t'.

Lemma moves_refl t : moves t t.
Proof. split; by exists []. Qed.

Lemma moves_trans t1 t2 t3 : moves t1 t2 → moves t2 t3 → moves t1 t3.
Proof.
intros [[a Ha] [b Hb]] [[a' Ha'] [b' Hb']]. split.
- exists (a ++ a'). unfold ops_state in *. by rewrite foldl_app, <- Ha.
- exists (b ++ b'). unfold ops_state in *. by rewrite foldl_app, <- Hb.
Qed.

(** A method of the stack that respects its children. *)
Definition respects {R} (m : L → R * L) : Prop := ∀ t, moves t (m t).2.

Lemma respects_top {R} (m : S1 → R * S1) :
(∀ s, ∃ os, (m s).2 = ops_state top os s) → respects (on_top m).
Proof.
intros H t. destruct (H (l_top t)) as [os Ho]. unfold on_top, zoom. destruct (m (l_top t)) as [r s].
split; [by exists os|by exists []].
Qed.

Lemma respects_bottom {R} (m : S2 → R * S2) :
(∀ s, ∃ os, (m s).2 = ops_state bottom os s) → respects (on_bottom m).
Proof.
intros H t. destruct (H (l_bottom t)) as [os Ho]. unfold on_bottom, zoom. destruct (m (l_bottom t)) as [r s].
split; [by exists []|by exists os].
Qed.

Lemma respects_opens {R} (m : HandleTable (Layer * Handle) → R * HandleTable (Layer * Handle)) :
respects (on_opens m).
Proof. intros t. unfold on_opens, zoom. destruct (m (l_opens t)). split; by exists []. Qed.

Lemma respects_bind {A B} (m : PM L A) (f : A → PM L B) :
respects m → (∀ a, respects (f a)) → respects (m ≫= f).
Proof.
intros Hm Hf t. unfold mbind, PM_bind. specialize (Hm t). destruct (m t) as [[a|e] t']; [|done].
eapply moves_trans; [exact Hm|apply Hf].
Qed.

Lemma respects_ret {A} (a : A) : respects (mret a : PM L A).
Proof. intros t. apply moves_refl. Qed.
Lemma respects_err {A} e : respects (pm_err e : PM L A).
Proof. intros t. apply moves_refl. Qed.

Lemma respects_routed {R} layer (m1 : S1 → R * S1) (m2 : S2 → R * S2) :
(∀ s, ∃ os, (m1 s).2 = ops_state top os s) → (∀ s, ∃ os, (m2 s).2 = ops_state bottom os s) →
respects (routed layer m1 m2).
Proof. intros. destruct layer; [by apply respects_top|by apply respects_bottom]. Qed.

(** A single call to a child. *)
Ltac one_call o := intros ?; by exists [o].

Lemma stored_name_calls {S} (P : Provider S) p s : ∃ os, (stored_name P p s).2 = ops_state P os s.
Proof.
unfold stored_name. destruct (p_stored_name P p s) as [[a|e] s1] eqn:E1.
{ exists [OStoredName p]. cbn. by rewrite E1. }
assert (s1 = ops_state P [OStoredName p] s) as Hs1 by (cbn; by rewrite E1).
destruct (e =? ST_NOT_SUPPORTED); [|by exists [OStoredName p]].
case_bool_decide; [by exists [OStoredName p]|]. destruct (split_parent _) as [parent name].
exists [OStoredName p; OReaddir (mkVPath (vp_root p) parent)]. cbn. rewrite E1. cbn.
destruct (p_readdir P _ s1) as [[es|e'] s2]; cbn; [done|]. by destruct (_ || _).
Qed.

Lemma respects_lookup h : respects (layered_lookup h).
Proof. apply respects_opens. Qed.

Lemma respects_handle {A} h (m1 : Handle → PM S1 A) (m2 : Handle → PM S2 A) :
(∀ h s, ∃ os, (m1 h s).2 = ops_state top os s) → (∀ h s, ∃ os, (m2 h s).2 = ops_state bottom os s) →
respects (layered_handle h m1 m2).
Proof. intros. apply respects_bind; [apply respects_lookup|]. intros r. by apply respects_routed. Qed.

Lemma respects_write {A} (m1 : PM S1 A) (m2 : PM S2 A) :
(∀ s, ∃ os, (m1 s).2 = ops_state top os s) → (∀ s, ∃ os, (m2 s).2 = ops_state bottom os s) →
respects (layered_write top bottom m1 m2).
Proof.
intros. unfold layered_write. destruct (write_target top bottom); [by apply respects_routed|apply respects_err].
Qed.

Lemma respects_readdir p : respects (layered_readdir top bottom p).
Proof.
intros t. unfold layered_readdir.
pose proof (respects_top (p_readdir top p) ltac:(one_call (OReaddir p)) t) as Ht.
destruct (on_top (p_readdir top p) t) as [[es|e] t1].
- pose proof (respects_bottom (p_readdir bottom p) ltac:(one_call (OReaddir p)) t1) as Hb.
  destruct (on_bottom (p_readdir bottom p) t1) as [r t2]. by eapply moves_trans.
- destruct (e =? ST_NOT_FOUND); [|done]. eapply moves_trans; [exact Ht|].
  apply respects_bottom. one_call (OReaddir p).
Qed.

Lemma respects_stored_name p : respects (layered_stored_name top bottom p).
Proof.
intros t. unfold layered_stored_name, merge_stored_name.
pose proof (respects_bottom (stored_name bottom p) (stored_name_calls bottom p) t) as Hb.
destruct (on_bottom (stored_name bottom p) t) as [[[n|]|e] t1]; [done| |done].
eapply moves_trans; [exact Hb|]. apply respects_top, stored_name_calls.
Qed.

Lemma respects_open p flags : respects (layered_open top bottom p flags).
Proof.
apply respects_bind.
- destruct (negb _).
  + unfold layered_open_write. destruct (write_target top bottom); [|apply respects_err].
    apply respects_bind; [|intros; apply respects_ret].
    apply respects_routed; one_call (OOpen p flags).
  + intros t. unfold layered_open_read.
    pose proof (respects_top (p_open top p flags) ltac:(one_call (OOpen p flags)) t) as Ht.
    destruct (on_top (p_open top p flags) t) as [[r|e] t1]; [done|].
    destruct (e =? ST_NOT_FOUND); [|done].
    pose proof (respects_bottom (p_open bottom p flags) ltac:(one_call (OOpen p flags)) t1) as Hb.
    destruct (on_bottom (p_open bottom p flags) t1) as [[r|e'] t2]; by eapply moves_trans.
- intros [layer [[bh size] d]]. apply respects_bind; [apply respects_opens|intros; apply respects_ret].
Qed.

Lemma layered_moves o t : moves t (op_state (layered top bottom) o t).
Proof.
destruct o; cbn.
- apply respects_bind; [apply respects_top; one_call (OGetattr p)|].
  intros [st|]; [apply respects_ret|apply respects_bottom; one_call (OGetattr p)].
- apply respects_readdir.
- apply respects_stored_name.
- apply respects_open.
- apply respects_bind; [apply respects_opens|]. intros [ly h']. apply respects_routed; one_call (OClose h').
- unfold layered_read_at. pose proof (respects_lookup h t) as Hl.
  destruct (layered_lookup h t) as [[[ly h']|e] t1]; [|done]. eapply moves_trans; [exact Hl|].
  apply respects_routed; one_call (OReadAt h' off buf).
- apply moves_refl.
- apply respects_handle; intros h'; one_call (OWriteAt h' off buf).
- apply respects_handle; intros h'; one_call (OSetLen h' n).
- apply respects_handle; intros h'; one_call (OFlush h').
- apply respects_write; one_call (OMkdir p).
- apply respects_write; one_call (ORemove p).
- apply respects_write; one_call (ORename from to).
- apply respects_write; one_call (OSetAttr p a).
Qed.

#[export] Instance layered_bottom_frozen {X} (obs : S2 → X) :
Frozen bottom obs → Frozen (layered top bottom) (λ t, obs (l_bottom t)).
Proof. intros H o t. destruct (layered_moves o t) as [_ [os ->]]. apply (frozen_ops bottom obs). Qed.

#[export] Instance layered_top_frozen {X} (obs : S1 → X) :
Frozen top obs → Frozen (layered top bottom) (λ t, obs (l_top t)).
Proof. intros H o t. destruct (layered_moves o t) as [[os ->] _]. apply (frozen_ops top obs). Qed.

End layered.

(** Property: a base mounted read-only under a stack keeps its content whatever
  is called on the stack and whatever the writable layer above it does, as
  long as the base itself does not change on calls that only read. *)
Theorem base_protected {S1 S2 X} (upper : Provider S1) (base : Provider S2) (prefix : str)
  (obs : S2 → X) (os : list op) (t : Layered S1 S2) :
ReadPure base obs →
obs (l_bottom (ops_state (layered upper (subdir (readonly base) prefix)) os t)) = obs (l_bottom t).
Proof.
intros H. apply (frozen_ops (layered upper (subdir (readonly base) prefix)) (λ t, obs (l_bottom t))).
Qed.

End props.

(** ** An example

    A writable provider of the single file [f], whose state is the file's
    bytes. *)

Definition demo_f : str := lit "f".
Definition demo_stat (d : bytes) : Stat := mkStat 1 (len d) 0.

Definition demo_file : Provider bytes := {|
  p_capabilities := mkCaps ReadWrite false false None Insensitive;
  p_getattr := λ p d, (Ok (if bool_decide (vp_rel p = demo_f) then Some (demo_stat d) else None), d);
  p_readdir := λ p d, (Ok [mkDirEntry demo_f (demo_stat d)], d);
  p_open := λ p flags d,
    if bool_decide (vp_rel p = demo_f)
    then (Ok (1, len d, false), if Z.land flags OPEN_TRUNC =? 0 then d else [])
    else (Err ST_NOT_FOUND, d);
  p_close := λ h d, (Ok (), d);
  p_read_at := λ h off buf d, ((Ok (Z.min (len d) (len buf)), take (length buf) d ++ drop (length d) buf), d);
  p_read_next := λ h buf, no_read buf;
  p_write_at := λ h off buf d, (Ok (len buf), buf);
  p_set_len := λ h n d, (Ok (), take (Z.to_nat n) d);
  p_flush := λ h d, (Ok (), d);
  p_mkdir := λ p, not_supported;
  p_remove := λ p d, (Ok (), []);
  p_rename := λ from to, not_supported;
  p_set_attr := λ p a, not_supported;
  p_stored_name := λ p, not_supported;
  p_is_immutable := λ h d, false |}.

Lemma land_trunc flags : Z.land flags MUTATING_FLAGS = 0 → Z.land flags OPEN_TRUNC = 0.
Proof.
  intros H. change OPEN_TRUNC with (Z.land MUTATING_FLAGS OPEN_TRUNC).
  by rewrite Z.land_assoc, H.
Qed.

Lemma demo_file_read_pure : ReadPure demo_file (λ d, d).
Proof.
  intros o s Ho. destruct o; try done. cbn in *. apply Z.eqb_eq, land_trunc in Ho. rewrite Ho.
  by case_bool_decide.
Qed.

Lemma base_protected_witness :
  let t := layered_new [1] [2; 3] in
  let P := layered (CT := demo_table) demo_file (subdir (readonly demo_file) []) in
  l_bottom (ops_state P [OOpen (mkVPath 0 demo_f) 2; OWriteAt 1 0 [9]; ORemove (mkVPath 0 demo_f)] t) =
    [2; 3].
Proof.
  exact (base_protected (CT := demo_table) demo_file demo_file [] (λ d, d)
    [OOpen (mkVPath 0 demo_f) 2; OWriteAt 1 0 [9]; ORemove (mkVPath 0 demo_f)]
    (layered_new [1] [2; 3]) demo_file_read_pure).
Defined.

