(* ===== verification/Handles.v ===== *)
(** Handles: the handle table hands out every handle once, and a handle of a
    layered stack stays with the child that opened it. *)

From S2P Require Import Prelude Text Path Provider Compose ComposeProps.

(** ** The table *)

Section table.
Context {T : Type}.
Implicit Types (t : HandleTable T) (h : Z) (v : T).

Inductive table_op :=
| TFresh | TInsert (v : T) | TRemove (h : Z) | TWith (h : Z) (f : T → T) | TDrain.

(** One call: the handle it issues, if it issues one, and the table. *)
Definition table_step (t : HandleTable T) (o : table_op) : option Z * HandleTable T :=
match o with
| TFresh => let '(h, t) := fresh t in (Some h, t)
| TInsert v => match table_insert v t with (Ok h, t) => (Some h, t) | (Err _, t) => (None, t) end
| TRemove h => (None, (table_remove h t).2)
| TWith h f => (None, (table_with h (λ v, ((), f v)) t).2)
| TDrain => (None, (table_drain t).2)
end.

Fixpoint table_run (t : HandleTable T) (os : list table_op) : list Z * HandleTable T :=
match os with
| [] => ([], t)
| o :: os => let '(i, t) := table_step t o in
             let '(l, t) := table_run t os in (option_list i ++ l, t)
end.

Lemma table_run_app t os os' :
table_run t (os ++ os') =
  ((table_run t os).1 ++ (table_run (table_run t os).2 os').1, (table_run (table_run t os).2 os').2).
Proof.
revert t. induction os as [|o os IH]; intros t; cbn; [by destruct (table_run t os')|].
destruct (table_step t o) as [i t1]. rewrite IH. destruct (table_run t1 os) as [l t2]. cbn.
by rewrite app_assoc.
Qed.

(** The handles that [n] calls starting at [k] issue. *)
Definition handles_from (k : Z) (n : nat) : list Z := (λ i, as_u64 (k + Z.of_nat i)) <$> seq 0 n.

Lemma handles_from_S k n : in_u64 k → handles_from k (S n) = k :: handles_from (as_u64 (k + 1)) n.
Proof.
intros Hk. unfold handles_from. cbn. f_equal.
- rewrite Z.add_0_r. by apply Z.mod_small.
- rewrite <- fmap_S_seq, <- list_fmap_compose. apply list_fmap_ext. intros i x _. cbn.
  unfold as_u64. rewrite Zplus_mod_idemp_l. f_equal. lia.
Qed.

Lemma handles_from_nodup k n : Z.of_nat n ≤ u64_max → NoDup (handles_from k n).
Proof.
intros Hn. apply NoDup_fmap_2_strong; [|apply NoDup_seq].
intros x y Hx%elem_of_seq Hy%elem_of_seq Heq. unfold as_u64, u64_max in *.
assert ((Z.of_nat x - Z.of_nat y) mod 2 ^ 64 = 0) as Hm.
{ replace (Z.of_nat x - Z.of_nat y) with ((k + Z.of_nat x) - (k + Z.of_nat y)) by lia.
  rewrite Zminus_mod, Heq, Z.sub_diag. done. }
apply Z.mod_divide in Hm as [q Hq]; [|done]. nia.
Qed.

(** A healthy table. *)
Definition table_ok (t : HandleTable T) : Prop := h_poisoned t = false ∧ in_u64 (h_next t).

Lemma table_step_next t o : table_ok t →
table_ok (table_step t o).2 ∧
((table_step t o).1 = None ∧ h_next (table_step t o).2 = h_next t ∨
 (table_step t o).1 = Some (h_next t) ∧ h_next (table_step t o).2 = as_u64 (h_next t + 1)).
Proof.
intros [Hp Hn]. assert (in_u64 (as_u64 (h_next t + 1))) by (apply Z.mod_pos_bound; done).
destruct o; cbn; unfold table_insert, table_remove, table_with, table_drain; cbn; rewrite ?Hp; cbn;
  repeat case_head; cbn; unfold table_ok; cbn; auto.
Qed.

Lemma table_run_ok t os : table_ok t → table_ok (table_run t os).2.
Proof.
revert t. induction os as [|o os IH]; intros t Ht; [done|]. cbn.
destruct (table_step_next t o Ht) as [Hok _]. destruct (table_step t o) as [i t1]. cbn in Hok.
specialize (IH t1 Hok). by destruct (table_run t1 os).
Qed.

(** The handles issued by a run are consecutive. *)
Lemma table_run_issued t os : table_ok t →
(table_run t os).1 = handles_from (h_next t) (length (table_run t os).1).
Proof.
revert t. induction os as [|o os IH]; intros t Ht; [done|]. cbn.
destruct (table_step_next t o Ht) as [Hok Hi]. destruct (table_step t o) as [i t1]. cbn in Hok, Hi.
specialize (IH t1 Hok). destruct (table_run t1 os) as [l t2]. cbn [fst snd] in IH |- *.
destruct Hi as [[-> Hn]|[-> Hn]]; rewrite Hn in IH; [done|].
change (h_next t :: l = handles_from (h_next t) (S (length l))). rewrite handles_from_S by apply Ht.
f_equal. exact IH.
Qed.

(** What is open was open before, or has been issued since. *)
Lemma table_run_open t os h : table_ok t →
is_Some (h_map (table_run t os).2 !! h) → is_Some (h_map t !! h) ∨ h ∈ (table_run t os).1.
Proof.
revert t. induction os as [|o os IH]; intros t Ht; [auto|]. cbn.
destruct (table_step_next t o Ht) as [Hok _].
assert (is_Some (h_map (table_step t o).2 !! h) → is_Some (h_map t !! h) ∨ (table_step t o).1 = Some h) as Hs.
{ destruct Ht as [Hp _].
  destruct o as [|v|h'|h' f|]; cbn; unfold table_insert, table_remove, table_with, table_drain; cbn;
    rewrite ?Hp; cbn; auto.
  - destruct (decide (h_next t = h)) as [->|]; [auto|]. rewrite lookup_insert_ne by done. auto.
  - destruct (h_map t !! h') eqn:E; cbn; auto. rewrite lookup_delete_is_Some. tauto.
  - destruct (h_map t !! h') eqn:E; cbn; auto. intros [|[_ ?]]%lookup_insert_is_Some; subst; eauto.
  - rewrite lookup_empty. by intros []. }
destruct (table_step t o) as [i t1]. cbn in Hok, Hs. specialize (IH t1 Hok).
destruct (table_run t1 os) as [l t2]. cbn in IH |- *. intros H. rewrite elem_of_app.
destruct (IH H) as [H1|]; [|auto]. destruct (Hs H1) as [| ->]; [auto|]. right. left. cbn. set_solver.
Qed.

End table.

(** Property: a table hands out every handle once: whatever is inserted, removed
    or drained, no two handles it issues are the same (within [2^64] of them),
    and one that has been removed is [ST_BAD_FH] from then on. *)
Theorem handles_never_reused {T} (os os' : list (table_op (T := T))) (h : Z) :
  let r := table_run table_new (os ++ TRemove h :: os') in
  len r.1 ≤ u64_max → h ∈ (table_run (T := T) table_new os).1 →
  NoDup r.1 ∧ (table_get h r.2).1 = Err ST_BAD_FH.
Proof.
  intros r Hlen Hh. assert (table_ok (T := T) table_new) as Hnew by done.
  assert (NoDup r.1) as Hnd.
  { unfold r. rewrite (table_run_issued _ _ Hnew). apply handles_from_nodup. exact Hlen. }
  split; [done|].
  unfold r in *. rewrite table_run_app in *. cbn in *.
  set (t1 := (table_run table_new os).2) in *. assert (table_ok t1) as Ht1 by (by apply table_run_ok).
  set (t2 := (table_remove h t1).2) in *.
  assert (table_ok t2) as Ht2 by exact (proj1 (table_step_next t1 (TRemove h) Ht1)).
  assert (h_map t2 !! h = None) as Hnone.
  { unfold t2, table_remove. destruct Ht1 as [-> _]. destruct (h_map t1 !! h) eqn:E; cbn; [|done].
    apply lookup_delete_eq. }
  pose proof (table_run_open t2 os' h Ht2) as Hopen. pose proof (table_run_ok t2 os' Ht2) as [Hp _].
  destruct (table_run t2 os') as [l t3]. cbn in *.
  unfold table_get, table_with. rewrite Hp. destruct (h_map t3 !! h) eqn:E; [|done]. exfalso.
  apply NoDup_app in Hnd as (_ & Hd & _). destruct Hopen as [[]|Hl]; [by eexists|congruence|].
  by apply (Hd h Hh).
Qed.

Lemma handles_never_reused_witness :
  let r := table_run (T := Z) table_new ([TInsert 7; TInsert 8] ++ TRemove 1 :: [TInsert 9]) in
  r.1 = [1; 2; 3] ∧ NoDup r.1 ∧ (table_get 1 r.2).1 = Err ST_BAD_FH.
Proof.
  split; [vm_compute; reflexivity|].
  apply (handles_never_reused [TInsert 7; TInsert 8] [TInsert 9] 1).
  - vm_compute. discriminate.
  - vm_compute. left.
Defined.

(** ** Handles of a layered stack *)

Section layered.
Context {CT : CaseTable} {S1 S2 : Type} (top : Provider S1) (bottom : Provider S2).
Local Abbreviation L := (Layered S1 S2).

(** A method that leaves the table of open handles as it is. *)
Definition same_opens {R} (m : L → R * L) : Prop := ∀ t, l_opens (m t).2 = l_opens t.

Lemma same_top {R} (m : S1 → R * S1) : same_opens (on_top m).
Proof. intros t. unfold on_top, zoom. by destruct (m (l_top t)). Qed.
Lemma same_bottom {R} (m : S2 → R * S2) : same_opens (on_bottom m).
Proof. intros t. unfold on_bottom, zoom. by destruct (m (l_bottom t)). Qed.
Lemma same_routed {R} layer (m1 : S1 → R * S1) (m2 : S2 → R * S2) : same_opens (routed layer m1 m2).
Proof. destruct layer; [apply same_top|apply same_bottom]. Qed.

Lemma table_get_same {T} h (t : HandleTable T) : (table_get h t).2 = t.
Proof.
unfold table_get, table_with. destruct (h_poisoned t); [done|].
destruct (h_map t !! h) eqn:E; [|done]. cbn. unfold with_map. rewrite insert_id by done. by destruct t.
Qed.

Lemma lookup_same h (t : L) : (layered_lookup h t).2 = t.
Proof.
unfold layered_lookup, on_opens, zoom. pose proof (table_get_same h (l_opens t)) as H.
destruct (table_get h (l_opens t)) as [r o]. cbn in *. subst. by destruct t.
Qed.

Lemma same_bind {A B} (m : PM L A) (f : A → PM L B) :
same_opens m → (∀ a, same_opens (f a)) → same_opens (m ≫= f).
Proof.
intros Hm Hf t. unfold mbind, PM_bind. specialize (Hm t). destruct (m t) as [[a|e] t']; [|done].
cbn in Hm. by rewrite Hf.
Qed.

Lemma same_lookup h : same_opens (layered_lookup h).
Proof. intros t. by rewrite lookup_same. Qed.

Lemma same_handle {A} h (m1 : Handle → PM S1 A) (m2 : Handle → PM S2 A) :
same_opens (layered_handle h m1 m2).
Proof. apply same_bind; [apply same_lookup|]. intros. apply same_routed. Qed.

Lemma same_write {A} (m1 : PM S1 A) (m2 : PM S2 A) : same_opens (layered_write top bottom m1 m2).
Proof. unfold layered_write. destruct (write_target top bottom); [apply same_routed|done]. Qed.

(** The child that [open] asks leaves the table alone; only its success is
  then recorded. *)
Lemma open_child_same p flags :
same_opens (if negb (Z.land flags OPEN_WRITE =? 0) then layered_open_write top bottom p flags
            else layered_open_read top bottom p flags).
Proof.
destruct (negb _).
- unfold layered_open_write. destruct (write_target top bottom); [|done].
  apply same_bind; [apply same_routed|done].
- intros t. unfold layered_open_read. pose proof (same_top (p_open top p flags) t) as Ht.
  destruct (on_top (p_open top p flags) t) as [[r|e] t1]; [done|]. cbn in Ht.
  destruct (e =? ST_NOT_FOUND); [|done]. pose proof (same_bottom (p_open bottom p flags) t1) as Hb.
  destruct (on_bottom (p_open bottom p flags) t1) as [[r|e'] t2]; cbn in *; congruence.
Qed.

(** [h] is open on [layer] as [inner]; the counter has passed it and is at
  most [n]. *)
Definition open_as (h : Z) (layer : Layer) (inner n : Z) (t : L) : Prop :=
table_ok (l_opens t) ∧ h_map (l_opens t) !! h = Some (layer, inner) ∧ h < h_next (l_opens t) ≤ n.

Lemma open_as_same h ly i n t t' : l_opens t' = l_opens t → open_as h ly i n t → open_as h ly i n t'.
Proof. unfold open_as. by intros ->. Qed.

Lemma open_as_mono h ly i n n' t : n ≤ n' → open_as h ly i n t → open_as h ly i n' t.
Proof. intros ? (? & ? & ?). split_and!; [done|done|lia|lia]. Qed.

Lemma open_as_open h ly i n t p flags :
open_as h ly i n t → n + 1 < u64_max →
open_as h ly i (n + 1) (layered_open top bottom p flags t).2.
Proof.
intros Ho Hn. unfold layered_open. pose proof (open_child_same p flags t) as Hc.
set (m := if negb (Z.land flags OPEN_WRITE =? 0) then _ else _) in *. clearbody m.
unfold mbind, PM_bind. destruct (m t) as [[[layer [[bh size] d]]|e] t1]; cbn in Hc |- *.
2: { apply (open_as_mono _ _ _ n); [lia|]. by eapply open_as_same. }
unfold on_opens, zoom, table_insert. rewrite Hc. destruct Ho as ([Hp Hu] & Hh & Hlt & Hle).
cbn. rewrite Hp. unfold as_u64. cbn. split_and!; cbn.
- split; cbn; [done|]. apply Z.mod_pos_bound. done.
- by rewrite lookup_insert_ne by lia.
- rewrite Z.mod_small; unfold_width; lia.
- rewrite Z.mod_small; unfold_width; lia.
Qed.

Lemma open_as_close h ly i n t h' :
open_as h ly i n t → h' ≠ h → open_as h ly i (n + 1) (layered_close top bottom h' t).2.
Proof.
intros Ho Hne. unfold layered_close, mbind, PM_bind.
assert (open_as h ly i (n + 1) (on_opens (table_remove h') t).2) as Hr.
{ destruct Ho as ([Hp Hu] & Hh & ? & ?). unfold on_opens, zoom, table_remove. rewrite Hp.
  destruct (h_map (l_opens t) !! h') eqn:E; cbn; (split_and!; cbn; [done| |done|lia]); [|done].
  by rewrite lookup_delete_ne. }
destruct (on_opens (table_remove h') t) as [[[ly' h2]|e] t1]; [|done]. cbn in *.
eapply open_as_same; [apply same_routed|done].
Qed.

(** No call but [close] on that very handle can unmake it. *)
Lemma open_as_step h ly i n t o :
open_as h ly i n t → o ≠ OClose h → n + 1 < u64_max →
open_as h ly i (n + 1) (op_state (layered top bottom) o t).
Proof.
intros Ho Hne Hn. assert (∀ R (m : L → R * L), same_opens m → open_as h ly i (n + 1) (m t).2) as Hsame.
{ intros R m Hm. apply (open_as_mono _ _ _ n); [lia|]. eapply open_as_same; [apply Hm|done]. }
destruct o as [p|p|p|p flags|h'|h' off buf|h' buf|h' off buf|h' k|h'|p|p|from to|p a]; cbn;
  try (apply Hsame, same_handle || apply Hsame, same_write).
- apply Hsame, same_bind; [apply same_top|]. intros [st|]; [done|apply same_bottom].
- apply Hsame. intros t'. unfold layered_readdir. pose proof (same_top (p_readdir top p) t') as Ht.
  destruct (on_top (p_readdir top p) t') as [[es|e] t1]; cbn in Ht.
  + pose proof (same_bottom (p_readdir bottom p) t1) as Hb.
    destruct (on_bottom (p_readdir bottom p) t1) as [r t2]. cbn in *. congruence.
  + destruct (e =? ST_NOT_FOUND); [|done]. by rewrite same_bottom.
- apply Hsame. intros t'. unfold layered_stored_name, merge_stored_name.
  pose proof (same_bottom (stored_name bottom p) t') as Hb.
  destruct (on_bottom (stored_name bottom p) t') as [[[nm|]|e] t1]; cbn in *; [done| |done].
  by rewrite same_top.
- by apply open_as_open.
- by apply open_as_close; [|congruence].
- apply Hsame. intros t'. unfold layered_read_at. pose proof (lookup_same h' t') as Hl.
  destruct (layered_lookup h' t') as [[[ly' h2]|e] t1]; cbn in Hl; [|by subst]. rewrite same_routed. by subst.
- by apply (Hsame _ (no_read buf)).
Qed.

Lemma open_as_steps h ly i n t os :
open_as h ly i n t → OClose h ∉ os → n + len os < u64_max →
open_as h ly i (n + len os) (ops_state (layered top bottom) os t).
Proof.
revert n t. induction os as [|o os IH]; intros n t Ho Hne Hn; cbn.
{ rewrite len_nil, Z.add_0_r. done. }
rewrite len_cons in *. pose proof (len_nonneg os).
replace (n + (1 + len os)) with (n + 1 + len os) in * by lia.
apply IH; [|set_solver|done]. apply open_as_step; [done|set_solver|lia].
Qed.

(** The answer of the child that opened [p]. *)
Definition child_opened (ly : Layer) (p : VPath) (flags : Z) (t : L) (r : Handle * Z * bool) : Prop :=
match ly with
| Top => (p_open top p flags (l_top t)).1 = Ok r
| Bottom => (p_open bottom p flags (l_bottom t)).1 = Ok r
end.

(** Which child a successful [open] asks: the one that takes writes, or the
  top before the bottom. *)
Definition child_chosen (ly : Layer) (p : VPath) (flags : Z) (t : L) : Prop :=
if negb (Z.land flags OPEN_WRITE =? 0) then write_target top bottom = Some ly
else ly = Bottom → (p_open top p flags (l_top t)).1 = Err ST_NOT_FOUND.

Lemma routed_open ly p flags t r t1 :
routed ly (p_open top p flags) (p_open bottom p flags) t = (Ok r, t1) → child_opened ly p flags t r.
Proof.
destruct ly; cbn; unfold on_top, on_bottom, zoom;
  [destruct (p_open top p flags (l_top t)) as [x s]|destruct (p_open bottom p flags (l_bottom t)) as [x s]];
  intros [= -> _]; done.
Qed.

Lemma layered_open_child p flags t h size d t1 :
table_ok (l_opens t) → h_next (l_opens t) + 1 < u64_max →
layered_open top bottom p flags t = (Ok (h, size, d), t1) →
∃ ly inner, child_opened ly p flags t (inner, size, d) ∧ child_chosen ly p flags t ∧
  open_as h ly inner (h_next (l_opens t) + 1) t1.
Proof.
intros [Hp Hu] Hn. unfold layered_open. pose proof (open_child_same p flags t) as Hc.
set (m := if negb (Z.land flags OPEN_WRITE =? 0) then _ else _) in *.
assert (∀ ly r t2, m t = (Ok (ly, r), t2) → child_opened ly p flags t r ∧ child_chosen ly p flags t) as Hm.
{ clear Hc. intros ly r t2. unfold m, child_chosen. clear m. destruct (negb _).
  - unfold layered_open_write. destruct (write_target top bottom) as [ly'|]; [|done].
    unfold mbind, PM_bind. destruct (routed ly' _ _ t) as [[r'|e] t3] eqn:E; [|done].
    intros [= -> -> _]. split; [by eapply routed_open|done].
  - unfold layered_open_read. unfold on_top, on_bottom, zoom.
    destruct (p_open top p flags (l_top t)) as [[r'|e] s] eqn:E1; cbn.
    + intros [= <- <- _]. cbn. by rewrite E1.
    + destruct (Z.eqb_spec e ST_NOT_FOUND) as [->|]; [|done].
      destruct (p_open bottom p flags (l_bottom t)) as [[r'|e'] s'] eqn:E2; [|done].
      intros [= <- <- _]. cbn. by rewrite E2. }
clearbody m. unfold mbind, PM_bind. destruct (m t) as [[[ly [[bh sz] d']]|e] t2]; [|done].
destruct (Hm ly (bh, sz, d') t2 eq_refl) as [Ho Hch]. cbn in Hc.
unfold on_opens, zoom, table_insert. rewrite Hc. cbn. rewrite Hp. cbn. intros [= <- <- <- <-].
exists ly, bh. split_and!; [done|done|]. unfold as_u64. split_and!; cbn.
- split; cbn; [done|]. apply Z.mod_pos_bound. done.
- apply lookup_insert_eq.
- rewrite Z.mod_small; unfold_width; lia.
- rewrite Z.mod_small; unfold_width; lia.
Qed.

Lemma open_as_lookup h ly i n t : open_as h ly i n t → layered_lookup h t = (Ok (ly, i), t).
Proof.
intros ([Hp _] & Hh & _). pose proof (lookup_same h t) as Hl. unfold layered_lookup, on_opens, zoom in *.
destruct (table_get h (l_opens t)) as [r o] eqn:E. cbn in Hl. rewrite Hl. f_equal.
unfold table_get, table_with in E. rewrite Hp, Hh in E. by injection E as <- _.
Qed.

End layered.

(** Property: a handle of a layered stack stays with the child that opened it.
    After any calls but its own [close], reads, writes and the close itself go
    to that child, with the child's own handle; the child is the one that takes
    writes for an open for writing, and the top unless it does not have the
    file for one for reading. *)
Theorem layered_handle_stays {CT : CaseTable} {S1 S2} (top : Provider S1) (bottom : Provider S2)
    p flags t h size d t1 os :
  table_ok (l_opens t) → h_next (l_opens t) + 1 + len os < u64_max →
  p_open (layered top bottom) p flags t = (Ok (h, size, d), t1) → OClose h ∉ os →
  ∃ ly inner, child_opened top bottom ly p flags t (inner, size, d) ∧
    child_chosen top bottom ly p flags t ∧
    let t' := ops_state (layered top bottom) os t1 in
    (∀ off buf, p_read_at (layered top bottom) h off buf t' =
       routed ly (p_read_at top inner off buf) (p_read_at bottom inner off buf) t') ∧
    (∀ off buf, p_write_at (layered top bottom) h off buf t' =
       routed ly (p_write_at top inner off buf) (p_write_at bottom inner off buf) t') ∧
    (p_close (layered top bottom) h t').1 = (routed ly (p_close top inner) (p_close bottom inner) t').1.
Proof.
  intros Ht Hn Hopen Hos. pose proof (len_nonneg os).
  destruct (layered_open_child top bottom p flags t h size d t1) as (ly & inner & Hch & Hcc & Has); [done|lia|done|].
  pose proof (open_as_steps top bottom h ly inner _ t1 os Has Hos Hn) as Has'.
  exists ly, inner. split_and!; [done|done|]. cbn zeta.
  set (t' := ops_state (layered top bottom) os t1) in *. clearbody t'.
  pose proof (open_as_lookup _ _ _ _ _ Has') as Hl. split_and!.
  - intros off buf. cbn. unfold layered_read_at. by rewrite Hl.
  - intros off buf. cbn. unfold layered_handle, mbind, PM_bind. by rewrite Hl.
  - destruct Has' as ([Hp _] & Hh & _). cbn. unfold layered_close, mbind, PM_bind, on_opens, zoom, table_remove.
    rewrite Hp, Hh. cbn. destruct ly; cbn; unfold on_top, on_bottom, zoom; cbn;
      [by destruct (p_close top inner (l_top t'))|by destruct (p_close bottom inner (l_bottom t'))].
Qed.

Lemma layered_handle_stays_witness :
  let P := layered (CT := demo_table) (subdir demo_file demo_f) demo_file in
  let t := layered_new [1] [2; 3] in
  ∃ ly inner, child_opened (subdir demo_file demo_f) demo_file ly (mkVPath 0 demo_f) 1 t (inner, 2, false) ∧
    child_chosen (subdir demo_file demo_f) demo_file ly (mkVPath 0 demo_f) 1 t ∧
    let t' := ops_state P [OClose 7; OGetattr (mkVPath 0 [])] (p_open P (mkVPath 0 demo_f) 1 t).2 in
    ∀ off buf, p_read_at P 1 off buf t' =
      routed ly (p_read_at (subdir demo_file demo_f) inner off buf) (p_read_at demo_file inner off buf) t'.
Proof.
  destruct (layered_handle_stays (CT := demo_table) (subdir demo_file demo_f) demo_file (mkVPath 0 demo_f) 1
    (layered_new [1] [2; 3]) 1 2 false
    (p_open (layered (CT := demo_table) (subdir demo_file demo_f) demo_file) (mkVPath 0 demo_f) 1
       (layered_new [1] [2; 3])).2
    [OClose 7; OGetattr (mkVPath 0 [])]) as (ly & inner & H1 & H2 & H3 & _).
  - by split.
  - by vm_compute.
  - by vm_compute.
  - intros [H|[H|H%elem_of_nil]%elem_of_cons]%elem_of_cons; [discriminate H|discriminate H|done].
  - exists ly, inner. cbn zeta. split_and!; [exact H1|exact H2|exact H3].
Defined.
