(* ===== verification/Listing.v ===== *)
(** Listing: the merged directory listing of a layered stack, and the stack
    of several layers. *)

From S2P Require Import Prelude Text Path Provider Compose ComposeProps.

Section listing.
Context {CT : CaseTable}.

(** The folded name of an entry, the key every listing is merged by. *)
Definition fold_key (e : DirEntry) : str := fold (de_name e).

(** ** The two loops of [readdir] *)

Section loop.
Context (upd : option DirEntry → DirEntry → DirEntry) (g : gmap str DirEntry → DirEntry → gmap str DirEntry).
Context (g_upd : ∀ m e, g m e = <[fold_key e := upd (m !! fold_key e) e]> m).

Lemma loop_other l m k : k ∉ fold_key <$> l → foldl g m l !! k = m !! k.
Proof using g_upd.
revert m. induction l as [|e l IH]; intros m Hk; [done|]. cbn in *.
rewrite IH by set_solver. rewrite g_upd. apply lookup_insert_ne. set_solver.
Qed.

Lemma loop_in l m e : NoDup (fold_key <$> l) → e ∈ l →
foldl g m l !! fold_key e = Some (upd (m !! fold_key e) e).
Proof using g_upd.
revert m. induction l as [|x l IH]; intros m Hnd He; [by apply elem_of_nil in He|]. cbn in *.
apply NoDup_cons in Hnd as [Hx Hnd]. apply elem_of_cons in He as [->|He].
- rewrite loop_other by done. rewrite g_upd. apply lookup_insert_eq.
- rewrite IH by done. rewrite g_upd, lookup_insert_ne; [done|].
  intros Heq. apply Hx. rewrite Heq. by apply list_elem_of_fmap_2.
Qed.
End loop.

Definition bottom_map (bottom : list DirEntry) : gmap str DirEntry :=
foldl (λ seen e, <[fold (de_name e) := e]> seen) ∅ bottom.
Definition listing_map (top bottom : list DirEntry) : gmap str DirEntry :=
foldl (λ seen e, merge_upper_entry seen (fold (de_name e)) e) (bottom_map bottom) top.

Lemma bottom_map_in bottom e : NoDup (fold_key <$> bottom) → e ∈ bottom →
bottom_map bottom !! fold_key e = Some e.
Proof. exact (loop_in (λ _ e, e) _ (λ m e, eq_refl) bottom ∅ e). Qed.
Lemma bottom_map_out bottom k : k ∉ fold_key <$> bottom → bottom_map bottom !! k = None.
Proof. intros Hk. exact (loop_other (λ _ e, e) _ (λ m e, eq_refl) bottom ∅ k Hk). Qed.

(** The entry for a name of the top: its spelling is the lower one's. *)
Definition upper_upd (lower : option DirEntry) (e : DirEntry) : DirEntry :=
match lower with Some l => mkDirEntry (de_name l) (de_stat e) | None => e end.

Lemma merge_upper_upd m e :
merge_upper_entry m (fold_key e) e = <[fold_key e := upper_upd (m !! fold_key e) e]> m.
Proof. unfold merge_upper_entry. by destruct (m !! fold_key e). Qed.

Lemma listing_map_in top bottom e : NoDup (fold_key <$> top) → e ∈ top →
listing_map top bottom !! fold_key e = Some (upper_upd (bottom_map bottom !! fold_key e) e).
Proof. intros. apply (loop_in upper_upd (λ seen e, merge_upper_entry seen (fold_key e) e) merge_upper_upd); done. Qed.
Lemma listing_map_out top bottom k : k ∉ fold_key <$> top →
listing_map top bottom !! k = bottom_map bottom !! k.
Proof. intros. apply (loop_other upper_upd (λ seen e, merge_upper_entry seen (fold_key e) e) merge_upper_upd); done. Qed.

(** ** What the merged listing holds *)

(** An entry of the merged listing: of both, with the bottom's spelling and
  the top's status; or of one of them only. *)
Definition merged (top bottom : list DirEntry) (e : DirEntry) : Prop :=
(∃ t b, t ∈ top ∧ b ∈ bottom ∧ fold_key t = fold_key b ∧ e = mkDirEntry (de_name b) (de_stat t)) ∨
(e ∈ top ∧ fold_key e ∉ fold_key <$> bottom) ∨
(e ∈ bottom ∧ fold_key e ∉ fold_key <$> top).

Lemma key_of (l : list DirEntry) k : k ∈ fold_key <$> l → ∃ e, e ∈ l ∧ fold_key e = k.
Proof. intros (e & -> & He)%list_elem_of_fmap. eauto. Qed.

Lemma listing_map_merged top bottom k e :
NoDup (fold_key <$> top) → NoDup (fold_key <$> bottom) →
listing_map top bottom !! k = Some e → merged top bottom e ∧ fold_key e = k.
Proof.
intros Ht Hb. destruct (decide (k ∈ fold_key <$> top)) as [Hk|Hk].
- apply key_of in Hk as (t & Hin & <-). rewrite listing_map_in by done.
  destruct (decide (fold_key t ∈ fold_key <$> bottom)) as [Hkb|Hkb].
  + apply key_of in Hkb as (b & Hbin & Hbt). rewrite <- Hbt, bottom_map_in by done. cbn.
    intros [= <-]. split; [left; by eauto 10|done].
  + rewrite bottom_map_out by done. cbn. intros [= <-]. split; [right; by left|done].
- rewrite listing_map_out by done. destruct (decide (k ∈ fold_key <$> bottom)) as [Hkb|Hkb].
  + apply key_of in Hkb as (b & Hbin & <-). rewrite bottom_map_in by done. intros [= <-].
    split; [right; by right|done].
  + by rewrite bottom_map_out.
Qed.

Lemma merged_listing_map top bottom e :
NoDup (fold_key <$> top) → NoDup (fold_key <$> bottom) →
merged top bottom e → listing_map top bottom !! fold_key e = Some e.
Proof.
intros Ht Hb [(t & b & Hin & Hbin & Heq & ->)|[[He Hn]|[He Hn]]].
- change (fold_key (mkDirEntry (de_name b) (de_stat t))) with (fold_key b). rewrite <- Heq.
  rewrite listing_map_in by done. by rewrite Heq, bottom_map_in.
- rewrite listing_map_in by done. by rewrite bottom_map_out.
- rewrite listing_map_out by done. by apply bottom_map_in.
Qed.

(** The order of a listing. *)
Definition fold_le (a b : DirEntry) : Prop := str_le (fold_key a) (fold_key b).

Lemma bt_iter_keyed (m : gmap str DirEntry) :
(∀ k e, m !! k = Some e → fold_key e = k) → fold_key <$> (bt_iter m).*2 = (bt_iter m).*1.
Proof.
intros H. rewrite <- list_fmap_compose. apply list_fmap_ext. intros i [k e] Hi. cbn.
apply H, bt_iter_elem. by eapply list_elem_of_lookup_2.
Qed.

Lemma StronglySorted_fmap {A B} (f : A → B) (R : relation A) (Q : relation B) l :
(∀ x y, x ∈ l → y ∈ l → R x y → Q (f x) (f y)) → StronglySorted R l → StronglySorted Q (f <$> l).
Proof.
intros H Hs. induction Hs as [|x l Hs IH Hx]; cbn; constructor.
- apply IH. intros. apply H; [by right|by right|done].
- apply Forall_fmap, Forall_forall. intros y Hy. apply H; [by left|by right|].
  exact (proj1 (Forall_forall _ _) Hx y Hy).
Qed.

Lemma sorted_listing (m : gmap str DirEntry) :
(∀ k e, m !! k = Some e → fold_key e = k) →
StronglySorted fold_le (sorted_by_folded_name m) ∧ NoDup (fold_key <$> sorted_by_folded_name m).
Proof.
intros H. unfold sorted_by_folded_name. split.
- apply (StronglySorted_fmap snd key_le); [|apply bt_iter_sorted].
  intros [k e] [k' e'] He He'. apply bt_iter_elem, H in He, He'. unfold fold_le. cbn. by subst.
- rewrite bt_iter_keyed by done. apply bt_iter_nodup.
Qed.

Lemma sorted_elem (m : gmap str DirEntry) e : e ∈ sorted_by_folded_name m ↔ ∃ k, m !! k = Some e.
Proof.
unfold sorted_by_folded_name. rewrite list_elem_of_fmap. split.
- intros ([k e'] & -> & H%bt_iter_elem). eauto.
- intros [k H%bt_iter_elem]. by exists (k, e).
Qed.

End listing.

(** Property: the listing of a layered directory has each name once, whatever its
    spellings, ordered by folded name: a name of both layers with the bottom's
    spelling and the top's status, every other name as the layer that has it
    shows it, and nothing else. *)
Theorem layered_listing {CT : CaseTable} {S1 S2} (top : Provider S1) (bottom : Provider S2) p t te be :
  (p_readdir top p (l_top t)).1 = Ok te → (p_readdir bottom p (l_bottom t)).1 = Ok be →
  NoDup (fold_key <$> te) → NoDup (fold_key <$> be) →
  ∃ out, (p_readdir (layered top bottom) p t).1 = Ok out ∧
    StronglySorted fold_le out ∧ NoDup (fold_key <$> out) ∧ ∀ e, e ∈ out ↔ merged te be e.
Proof.
  intros Ht Hb Hnt Hnb. exists (merge_listing te be). split.
  - cbn. unfold layered_readdir, on_top, on_bottom, zoom.
    destruct (p_readdir top p (l_top t)) as [r s]. cbn in Ht |- *. rewrite Ht.
    destruct (p_readdir bottom p (l_bottom t)) as [r' s']. cbn in Hb |- *. by rewrite Hb.
  - change (merge_listing te be) with (sorted_by_folded_name (listing_map te be)).
    assert (∀ k e, listing_map te be !! k = Some e → merged te be e ∧ fold_key e = k) as Hm.
    { intros k e. by apply listing_map_merged. }
    destruct (sorted_listing (listing_map te be)) as [Hs Hn]; [intros k e H; by apply Hm|].
    split_and!; [done|done|]. intros e. rewrite sorted_elem. split.
    + intros [k H]. by apply Hm in H as [? _].
    + intros H. exists (fold_key e). by apply merged_listing_map.
Qed.

Lemma layered_listing_witness :
  ∃ out, (p_readdir (layered (CT := demo_table) demo_file demo_file) (mkVPath 0 [])
            (layered_new [1] [2; 3])).1 = Ok out ∧
    StronglySorted (fold_le (CT := demo_table)) out ∧ NoDup (fold_key (CT := demo_table) <$> out) ∧
    ∀ e, e ∈ out ↔ merged (CT := demo_table) [mkDirEntry demo_f (demo_stat [1])]
                          [mkDirEntry demo_f (demo_stat [2; 3])] e.
Proof.
  apply (layered_listing (CT := demo_table) demo_file demo_file (mkVPath 0 []) (layered_new [1] [2; 3]));
    [reflexivity|reflexivity|apply NoDup_singleton|apply NoDup_singleton].
Defined.

(** ** Several layers *)

(** The answer of the topmost layer that has one. *)
Fixpoint first_answer (layers : list AnyProvider) (p : VPath) : result Z (option Stat) :=
  match layers with
  | [] => Ok None
  | l :: layers =>
      match (p_getattr (ap_provider l) p (ap_now l)).1 with
      | Ok None => first_answer layers p
      | answered => answered
      end
  end.

Lemma layer_over_answer {CT : CaseTable} upper acc p :
  (p_getattr (ap_provider (layer_over upper acc)) p (ap_now (layer_over upper acc))).1 =
    match (p_getattr (ap_provider upper) p (ap_now upper)).1 with
    | Ok None => (p_getattr (ap_provider acc) p (ap_now acc)).1
    | answered => answered
    end.
Proof.
  cbn. unfold layered_getattr, mbind, PM_bind, on_top, on_bottom, zoom. cbn.
  destruct (p_getattr (ap_provider upper) p (ap_now upper)) as [[[st|]|e] s]; cbn; [done| |done].
  by destruct (p_getattr (ap_provider acc) p (ap_now acc)).
Qed.

(** Property: a stack answers for a path as its topmost layer that has the path
    does, or with the first error met on the way down; the empty stack is
    refused. *)
Theorem stack_top_wins {CT : CaseTable} layers :
  match stack_layers layers with
  | None => layers = []
  | Some P => ∀ p, (p_getattr (ap_provider P) p (ap_now P)).1 = first_answer (rev layers) p
  end.
Proof.
  destruct layers as [|acc uppers]; [done|]. cbn. intros p.
  assert (∀ uppers acc below,
    (p_getattr (ap_provider acc) p (ap_now acc)).1 = first_answer below p →
    let P := foldl (λ acc upper, layer_over upper acc) acc uppers in
    (p_getattr (ap_provider P) p (ap_now P)).1 = first_answer (rev uppers ++ below) p) as H.
  { clear. induction uppers as [|u uppers IH]; intros acc below Hb; [done|]. cbn.
    rewrite <- app_assoc. apply IH. rewrite layer_over_answer. cbn.
    destruct (p_getattr (ap_provider u) p (ap_now u)).1 as [[st|]|e]; done. }
  apply H. cbn. by destruct (p_getattr (ap_provider acc) p (ap_now acc)).1 as [[st|]|e].
Qed.
