(* ===== verification/Router.v ===== *)
(** Router: the patterns of the router (rust/crates/vfs-compose/src/glob.rs),
    that its matcher decides what a pattern means, and routing by pattern
    (router.rs). *)

From S2P Require Import Prelude Text Path Provider Compose ComposeProps Handles.


(** ** Model *)

Definition g_star : Z := 42.
Definition g_qm : Z := 63.
Definition star2 : str := [42; 42].

(** [while i < pb.len() && pb[i] == b'*'], then [i == pb.len()]. *)
Fixpoint all_stars (p : bytes) : bool :=
  match p with [] => true | c :: p => if c =? g_star then all_stars p else false end.

(** The loop of [match_one]: [p] is [pb[i..]], [s] is [sb[j..]], and [star] the
    pattern after the last star with the segment where it stood. [None] when
    the fuel runs out. *)
Fixpoint match_loop (fuel : nat) (p s : bytes) (star : option (bytes * bytes)) : option bool :=
  match fuel with
  | O => None
  | S fuel =>
      match s with
      | [] => Some (all_stars p)
      | x :: s' =>
          let back :=
            match star with
            | Some (sp, _ :: ss) => match_loop fuel sp ss (Some (sp, ss))
            | _ => Some false
            end in
          match p with
          | c :: p' =>
              if (c =? g_qm) || (c =? x) then match_loop fuel p' s' star
              else if c =? g_star then match_loop fuel p' s (Some (p', s))
              else back
          | [] => back
          end
      end
  end.

(** The bound on the loop's rounds. *)
Definition match_fuel (p s : bytes) : nat := S (S (length s) * S (length p) + length p).

(** [match_loop_spec] shows that the fuel is never spent. *)
Definition match_one (pat seg : str) : bool :=
  if str_eqb pat [g_star] then true
  else default false (match_loop (match_fuel (utf8 pat) (utf8 seg)) (utf8 pat) (utf8 seg) None).

(** [match_rec(pat, pi, path, si)] on [pat[pi..]] and [path[si..]]; the inner
    [fix] is its recursion on [**]. *)
Fixpoint match_rec (pat path : list str) : bool :=
  match pat with
  | [] => match path with [] => true | _ => false end
  | p :: pat' =>
      if str_eqb p star2 then
        (fix stars (path : list str) : bool :=
           if match_rec pat' path then true
           else match path with [] => false | _ :: path' => stars path' end) path
      else
        match path with
        | [] => false
        | s :: path' => if match_one p s then match_rec pat' path' else false
        end
  end.

Section glob.
Context {CT : CaseTable}.

Definition glob_normalize (s : str) : str := fold (trim_rel s).

Definition split_segs (s : str) : list str := filter (λ c, c ≠ []) (split_on is_slash s).

Definition glob_matches (pattern path : str) : bool :=
  match_rec (split_segs (glob_normalize pattern)) (split_segs (glob_normalize path)).

End glob.

(** ** Specification *)

(** What one segment of a pattern means, on bytes. *)
Inductive SegMatch : bytes → bytes → Prop :=
  | sm_end : SegMatch [] []
  | sm_star p a s : SegMatch p s → SegMatch (g_star :: p) (a ++ s)
  | sm_qm p x s : SegMatch p s → SegMatch (g_qm :: p) (x :: s)
  | sm_char c p s : c ≠ g_star → c ≠ g_qm → SegMatch p s → SegMatch (c :: p) (c :: s).

(** What a pattern means, on segments: [**] stands for any number of them. *)
Inductive PathMatch : list str → list str → Prop :=
  | pm_end : PathMatch [] []
  | pm_stars pat a path : PathMatch pat path → PathMatch (star2 :: pat) (a ++ path)
  | pm_seg p pat s path : p ≠ star2 → SegMatch (utf8 p) (utf8 s) → PathMatch pat path →
      PathMatch (p :: pat) (s :: path).

#[local] Hint Constructors SegMatch PathMatch : vfs.

(** ** One segment *)

Lemma seg_star p s : SegMatch (g_star :: p) s ↔ ∃ a b, s = a ++ b ∧ SegMatch p b.
Proof.
  split; [|intros (a & b & -> & H); auto with vfs].
  intros H. inversion H; subst; [eauto|done].
Qed.

Lemma seg_qm p x s : SegMatch (g_qm :: p) (x :: s) ↔ SegMatch p s.
Proof. split; [|auto with vfs]. intros H. inversion H; subst; done. Qed.

Lemma seg_char c p x s : c ≠ g_star → c ≠ g_qm → SegMatch (c :: p) (x :: s) ↔ c = x ∧ SegMatch p s.
Proof. intros Hs Hq. split; [|intros [-> ?]; auto with vfs]. intros H. inversion H; subst; done. Qed.

Lemma all_stars_spec p : all_stars p = true ↔ SegMatch p [].
Proof.
  induction p as [|c p IH]; cbn; [split; auto with vfs|].
  destruct (Z.eqb_spec c g_star) as [->|Hc].
  - rewrite IH, seg_star. split; [intros; by exists [], []|].
    intros (a & b & Hab & H). symmetry in Hab. by apply app_eq_nil in Hab as [_ ->].
  - split; [done|]. intros H. inversion H; subst; done.
Qed.

(** A pattern without stars takes as many bytes as it has. *)
Lemma seg_prefix q p s : g_star ∉ q → SegMatch (q ++ p) s → SegMatch p (drop (length q) s).
Proof.
  revert s. induction q as [|c q IH]; intros s Hq H; [done|]. cbn in *.
  rewrite not_elem_of_cons in Hq. destruct Hq as [Hc Hq].
  inversion H; subst; [congruence|by apply IH..].
Qed.

(** A star takes more, if it takes a suffix. *)
Lemma seg_star_more p s n : SegMatch (g_star :: p) (drop n s) → SegMatch (g_star :: p) s.
Proof.
  rewrite !seg_star. intros (a & b & Hd & H). exists (take n s ++ a), b.
  by rewrite <- app_assoc, <- Hd, take_drop.
Qed.

(** What is left to try at the last star. *)
Definition later (star : option (bytes * bytes)) : Prop :=
  match star with
  | Some (sp, ss) => ∃ n, (0 < n)%nat ∧ (n ≤ length ss)%nat ∧ SegMatch sp (drop n ss)
  | None => False
  end.

(** The loop got from the last star to [p] and [s] by single bytes. *)
Definition star_ok (p s : bytes) (star : option (bytes * bytes)) : Prop :=
  match star with
  | Some (sp, ss) => ∃ q, sp = q ++ p ∧ (g_star ∉ q) ∧ (length q ≤ length ss)%nat ∧ s = drop (length q) ss
  | None => True
  end.

Definition star_len (n : nat) (star : option (bytes * bytes)) : nat :=
  match star with Some (_, ss) => length ss | None => n end.

(** An older star need not be tried again once a new one is reached. *)
Lemma later_star p s star : star_ok (g_star :: p) s star → later star → SegMatch (g_star :: p) s.
Proof.
  destruct star as [[sp ss]|]; cbn; [|done]. intros (q & -> & Hq & Hl & ->) (n & Hn & Hn' & H).
  apply seg_prefix in H; [|done]. rewrite drop_drop in H. apply (seg_star_more p _ n).
  rewrite drop_drop. by rewrite Nat.add_comm.
Qed.

Lemma seg_prefix_len q p s : g_star ∉ q → SegMatch (q ++ p) s → (length q ≤ length s)%nat.
Proof.
  revert s. induction q as [|c q IH]; intros s Hq H; cbn in *; [lia|].
  rewrite not_elem_of_cons in Hq. destruct Hq as [Hc Hq].
  inversion H; subst; [congruence|..]; cbn; (cut (length q ≤ length s0)%nat; [lia|]); by apply IH.
Qed.

(** Trying the next place for the last star. *)
Lemma later_cons sp y ss : later (Some (sp, y :: ss)) ↔ SegMatch sp ss ∨ later (Some (sp, ss)).
Proof.
  cbn. split.
  - intros (n & Hn & Hl & H). destruct n as [|[|n]]; [lia|by left|]. right. exists (S n).
    cbn in *. split_and!; [lia|lia|done].
  - intros [H|(n & Hn & Hl & H)]; [exists 1%nat; cbn; split_and!; [lia|lia|done]|].
    exists (S n). cbn in *. split_and!; [lia|lia|done].
Qed.

Lemma later_new p s : SegMatch (g_star :: p) s ↔ SegMatch p s ∨ later (Some (p, s)).
Proof.
  rewrite seg_star. split.
  - intros (a & b & -> & H). destruct a as [|x a]; [by left|]. right. exists (length (x :: a)).
    rewrite drop_app_length, length_app. cbn. split_and!; [lia|lia|done].
  - intros [H|(n & _ & _ & H)]; [by exists [], s|]. exists (take n s), (drop n s).
    by rewrite take_drop.
Qed.

Section loop.
Context (K N : nat).

(** The rounds that are left at most. *)
Definition rounds (p : bytes) (star : option (bytes * bytes)) : nat :=
  star_len (S N) star * S K + length p.

Record loop_ok (p s : bytes) (star : option (bytes * bytes)) : Prop := {
  lo_pat : (length p ≤ K)%nat;
  lo_seg : (length s ≤ N)%nat;
  lo_plain : g_star ∉ s;
  lo_star : star_ok p s star;
  lo_star_plain : ∀ sp ss, star = Some (sp, ss) → (length sp ≤ K ∧ length ss ≤ N)%nat ∧ (g_star ∉ ss) }.

Lemma star_ok_new p s : star_ok p s (Some (p, s)).
Proof. exists []. split_and!; [done|apply not_elem_of_nil|cbn; lia|done]. Qed.

Lemma star_ok_snoc p s c x star :
  c ≠ g_star → star_ok (c :: p) (x :: s) star → star_ok p s star.
Proof.
  intros Hc. destruct star as [[sp ss]|]; cbn; [|done]. intros (q & -> & Hq & Hl & Hs).
  exists (q ++ [c]). assert (length q < length ss)%nat as Hlt.
  { apply (f_equal length) in Hs. rewrite length_drop in Hs. cbn in Hs. lia. }
  rewrite <- app_assoc, length_app. cbn. split_and!; [done|set_solver|lia|].
  by rewrite <- drop_drop, <- Hs.
Qed.

Lemma match_loop_spec fuel p s star :
  loop_ok p s star → (rounds p star < fuel)%nat →
  ∃ b : bool, match_loop fuel p s star = Some b ∧ (b = true ↔ SegMatch p s ∨ later star).
Proof.
  revert p s star. induction fuel as [|fuel IH]; intros p s star [Hp Hs Hpl Hok Hst] Hf; [lia|].
  unfold rounds in *. cbn [match_loop]. destruct s as [|x s'].
  { eexists. split; [done|]. rewrite all_stars_spec. split; [by left|]. intros [H|H]; [done|].
    destruct star as [[sp ss]|]; cbn in *; [|done]. exfalso.
    destruct Hok as (q & -> & Hq & Hl & Hd). destruct H as (n & Hn & Hn' & H).
    apply seg_prefix_len in H; [|done]. rewrite length_drop in H.
    apply (f_equal length) in Hd. rewrite length_drop in Hd. cbn in Hd. lia. }
  assert (∃ b : bool, match star with
      | Some (sp, _ :: ss) => match_loop fuel sp ss (Some (sp, ss))
      | _ => Some false end = Some b ∧ (b = true ↔ later star)) as (b & Hb & Hlater).
  { destruct star as [[sp [|y ss]]|]; cbn -[later].
    - exists false. split; [done|]. split; [done|]. cbn. intros (n & ? & ? & _). lia.
    - destruct (Hst sp (y :: ss) eq_refl) as [[Hsp Hss] Hy]. cbn in Hss.
      destruct (IH sp ss (Some (sp, ss))) as (b & Hb & Hspec).
      + split; [done|lia|set_solver|apply star_ok_new|]. intros ?? [= <- <-]. split_and!; [done|lia|set_solver].
      + cbn in *. lia.
      + exists b. split; [done|]. by rewrite Hspec, later_cons.
    - by exists false. }
  destruct p as [|c p'].
  { exists b. split; [done|]. rewrite Hlater. split; [by right|]. intros [H|H]; [inversion H|done]. }
  cbn in Hp. assert (x ≠ g_star) as Hx by set_solver.
  destruct ((c =? g_qm) || (c =? x)) eqn:Ecx.
  { assert (c ≠ g_star) as Hc
      by (intros ->; apply orb_true_iff in Ecx as [E|E%Z.eqb_eq]; [done|congruence]).
    destruct (IH p' s' star) as (b' & Hb' & Hspec).
    - split; [lia|cbn in Hs; lia|set_solver|by eapply star_ok_snoc|done].
    - cbn in Hf. lia.
    - exists b'. split; [done|]. rewrite Hspec. f_equiv.
      destruct (Z.eqb_spec c g_qm) as [->|Hq]; [by rewrite seg_qm|].
      cbn in Ecx. apply Z.eqb_eq in Ecx as ->. rewrite seg_char by done. tauto. }
  apply orb_false_iff in Ecx as [Hq%Z.eqb_neq Hcx%Z.eqb_neq].
  destruct (Z.eqb_spec c g_star) as [->|Hc].
  - destruct (IH p' (x :: s') (Some (p', x :: s'))) as (b' & Hb' & Hspec).
    + split; [lia|done|done|apply star_ok_new|]. intros ?? [= <- <-]. split_and!; [lia|done|done].
    + assert (length (x :: s') ≤ star_len (S N) star)%nat as Hle.
      { destruct star as [[sp ss]|]; cbn [star_len]; [|lia]. destruct Hok as (q & _ & _ & _ & ->).
        rewrite length_drop. lia. }
      cbn [star_len] in *. cbn [length] in Hf. nia.
    + exists b'. split; [done|]. rewrite Hspec, <- later_new. split; [by left|].
      intros [H|H]; [done|]. by eapply later_star.
  - exists b. split; [done|]. rewrite Hlater. split; [by right|]. intros [H|H]; [|done].
    by apply seg_char in H as [-> _].
Qed.

End loop.

(** ** Segments and paths *)

Lemma star_in_utf8 s : g_star ∈ utf8 s → g_star ∈ s.
Proof.
  unfold utf8. rewrite list_elem_of_In, in_flat_map. intros (c & Hc & Hin%list_elem_of_In).
  apply list_elem_of_In in Hc. unfold utf8_char, g_star in *.
  repeat case_match; rewrite ?elem_of_cons, ?elem_of_nil in Hin; destruct_or!;
    try done; try (subst; done); exfalso; Z.div_mod_to_equations; lia.
Qed.

Lemma match_one_spec pat seg : g_star ∉ seg →
  match_one pat seg = true ↔ SegMatch (utf8 pat) (utf8 seg).
Proof.
  intros Hs. unfold match_one. destruct (str_eqb_spec pat [g_star]) as [->|_].
  - split; [|done]. intros _. change (utf8 [g_star]) with [g_star].
    apply seg_star. exists (utf8 seg), []. split; [by rewrite app_nil_r|constructor].
  - destruct (match_loop_spec (length (utf8 pat)) (length (utf8 seg))
      (match_fuel (utf8 pat) (utf8 seg)) (utf8 pat) (utf8 seg) None) as (b & Hb & Hspec).
    + split; [done|done| |done|done]. intros H. by apply Hs, star_in_utf8.
    + unfold rounds, match_fuel, star_len. lia.
    + rewrite Hb. cbn in *. rewrite Hspec. tauto.
Qed.

Lemma path_stars pat path :
  PathMatch (star2 :: pat) path ↔ ∃ a b, path = a ++ b ∧ PathMatch pat b.
Proof.
  split; [|intros (a & b & -> & H); auto with vfs].
  intros H. inversion H; subst; [eauto|done].
Qed.

Lemma path_seg p pat s path : p ≠ star2 →
  PathMatch (p :: pat) (s :: path) ↔ SegMatch (utf8 p) (utf8 s) ∧ PathMatch pat path.
Proof.
  intros Hp. split; [intros H; inversion H; subst; done|]. intros []. by constructor.
Qed.

Lemma match_rec_stars pat path :
  match_rec (star2 :: pat) path =
    if match_rec pat path then true
    else match path with [] => false | _ :: path' => match_rec (star2 :: pat) path' end.
Proof. by destruct path. Qed.

Lemma match_rec_spec pat path : Forall (λ s, g_star ∉ s) path →
  match_rec pat path = true ↔ PathMatch pat path.
Proof.
  revert path. induction pat as [|p pat IH]; intros path Hpath.
  { cbn. destruct path; split; try done; auto with vfs. intros H; inversion H. }
  destruct (decide (p = star2)) as [->|Hp].
  - induction path as [|s path IHp]; rewrite match_rec_stars, path_stars.
    + specialize (IH [] Hpath). destruct (match_rec pat []).
      * split; [|done]. intros _. exists [], []. split; [done|by apply IH].
      * split; [done|]. intros (x & y & Hxy & H). symmetry in Hxy. apply app_eq_nil in Hxy as [_ ->].
        by apply IH.
    + pose proof (IH (s :: path) Hpath) as Hhere. apply Forall_cons in Hpath as [_ Hpath].
      destruct (match_rec pat (s :: path)).
      * split; [|done]. intros _. exists [], (s :: path). split; [done|by apply Hhere].
      * rewrite (IHp Hpath), path_stars. split.
        -- intros (x & y & -> & H). by exists (s :: x), y.
        -- intros (x & y & Hxy & H). destruct x as [|z x]; cbn in Hxy; [subst y; by apply Hhere in H|].
           injection Hxy as _ ->. eauto.
  - cbn. destruct (str_eqb_spec p star2) as [|_]; [done|]. destruct path as [|s path].
    + split; [done|]. intros H. inversion H; subst; done.
    + apply Forall_cons in Hpath as [Hs Hpath]. rewrite (path_seg p pat s path Hp), <- (IH path Hpath).
      rewrite <- (match_one_spec p s Hs). destruct (match_one p s); naive_solver.
Qed.

Section paths.
Context {CT : CaseTable}.

Lemma split_on_elem (p : char → bool) s c w : w ∈ split_on p s → c ∈ w → c ∈ s.
Proof.
  revert w. induction s as [|x s IH]; intros w; cbn.
  { intros ->%list_elem_of_singleton. done. }
  destruct (p x) eqn:E.
  - intros [->|Hw]%elem_of_cons Hc; [by apply elem_of_nil in Hc|]. right. by eapply IH.
  - destruct (split_on p s) as [|w0 ws] eqn:Es; intros [->|Hw]%elem_of_cons Hc.
    + apply list_elem_of_singleton in Hc as ->. left.
    + by apply elem_of_nil in Hw.
    + apply elem_of_cons in Hc as [->|Hc]; [left|]. right. apply (IH w0); [left|done].
    + right. apply (IH w); [by right|done].
Qed.

Lemma trim_start_elem sep s c : c ∈ trim_start sep s → c ∈ s.
Proof.
  induction s as [|x s IH]; [done|]. cbn. destruct (x =? sep); [|done]. intros H. right. auto.
Qed.

Lemma elem_of_rev {A} (x : A) l : x ∈ rev l ↔ x ∈ l.
Proof. rewrite !list_elem_of_In. symmetry. apply in_rev. Qed.

Lemma trim_rel_star s : g_star ∈ trim_rel s → g_star ∈ s.
Proof.
  unfold trim_rel, trim_matches. rewrite elem_of_rev. intros H%trim_start_elem.
  rewrite elem_of_rev in H. apply trim_start_elem in H.
  apply list_elem_of_fmap in H as (c & Hc & Hin). destruct (c =? backslash); [done|]. by subst.
Qed.

Lemma fixed_star : fold_fixed g_star.
Proof. split; [done|]. unfold g_star. lia. Qed.

Lemma segs_plain path : g_star ∉ path → Forall (λ s, g_star ∉ s) (split_segs (glob_normalize path)).
Proof.
  intros Hp. apply Forall_forall. intros s [_ Hs]%list_elem_of_filter Hin.
  apply (split_on_elem _ _ _ _ Hs) in Hin. unfold glob_normalize in Hin.
  rewrite fold_elem_fixed in Hin by apply fixed_star.
  apply Hp. by apply trim_rel_star.
Qed.

End paths.

(** Property: a route pattern matches a path exactly when it means it: [**] stands
    for any number of segments, [*] within a segment for any bytes, [?] for one,
    everything else for itself, all up to case; for every path without a star,
    which no Windows file name has. *)
Theorem glob_matches_correct {CT : CaseTable} pattern path :
  g_star ∉ path →
  glob_matches pattern path = true ↔
    PathMatch (split_segs (glob_normalize pattern)) (split_segs (glob_normalize path)).
Proof. intros Hp. by apply match_rec_spec, segs_plain. Qed.

Lemma glob_matches_correct_witness :
  glob_matches (CT := demo_table) (lit "/Game/**/*.exe") (lit "/game/a/b/app.EXE") = true ∧
  (glob_matches (CT := demo_table) (lit "/Game/**/*.exe") (lit "/game/a/b/app.EXE") = true ↔
    PathMatch (split_segs (glob_normalize (CT := demo_table) (lit "/Game/**/*.exe")))
              (split_segs (glob_normalize (CT := demo_table) (lit "/game/a/b/app.EXE")))).
Proof.
  split; [vm_compute; reflexivity|]. apply (glob_matches_correct (CT := demo_table)).
  apply (bool_decide_unpack _). vm_compute. exact I.
Defined.

(** With a star in the path the matcher can miss: the star of the pattern is
    taken for the path's own, and is not tried again. *)
Example glob_literal_star :
  match_one (lit "*a") (lit "*ba") = false ∧ SegMatch (utf8 (lit "*a")) (utf8 (lit "*ba")).
Proof. split; [vm_compute; reflexivity|]. apply (sm_star [97] [42; 98] [97]). by repeat constructor. Qed.

(** ** Routing by pattern to a provider per path
    (rust/crates/vfs-compose/src/router.rs).

    The providers behind the routes share one state [S], which holds what each
    of them keeps; an entry of the handle table is the provider that answered
    and the handle it gave, as in the source. *)


Section router.
Context {CT : CaseTable} {S : Type}.

Record Route := mkRoute { pattern : str; provider : Provider S }.

Record Router := mkRouter { r_state : S; r_opens : HandleTable (Provider S * Handle) }.

Context (dflt : Provider S) (routes : list Route).

Definition router_new (s : S) : Router := mkRouter s table_new.

Definition with_slash (path : str) : str :=
  match path with
  | c :: _ => if c =? slash then path else slash :: path
  | [] => [slash]
  end.

Definition provider_for (path : str) : Provider S :=
  match List.find (λ r, glob_matches (pattern r) (with_slash path)) routes with
  | Some r => provider r
  | None => dflt
  end.

Definition on_state {R} : (S → R * S) → Router → R * Router :=
  zoom r_state (λ s t, mkRouter s (r_opens t)).
Definition on_table {R} : (HandleTable (Provider S * Handle) → R * HandleTable (Provider S * Handle)) →
    Router → R * Router := zoom r_opens (λ o t, mkRouter (r_state t) o).

Definition router_capabilities : Capabilities :=
  weakest (p_capabilities dflt :: ((λ r, p_capabilities (provider r)) <$> routes)).

Definition router_open (p : VPath) (flags : Z) : PM Router (Handle * Z * bool) :=
  let pr := provider_for (vp_rel p) in
  r ← (on_state (p_open pr p flags) : PM Router (Handle * Z * bool));
  let '(inner, size, is_dir) := r in
  h ← (on_table (table_insert (pr, inner)) : PM Router Handle);
  mret (h, size, is_dir).

(** The methods that address an open handle. *)
Definition router_handle {A} (h : Handle) (m : Provider S → Handle → PM S A) : PM Router A :=
  r ← (on_table (table_get h) : PM Router (Provider S * Handle));
  on_state (m r.1 r.2).

Definition router_read_at (h : Handle) (off : Z) (buf : bytes) (t : Router)
    : (result Z Z * bytes) * Router :=
  match on_table (table_get h) t with
  | (Ok (pr, inner), t) => on_state (p_read_at pr inner off buf) t
  | (Err e, t) => ((Err e, buf), t)
  end.

Definition router_is_immutable (h : Handle) (t : Router) : bool :=
  match on_table (table_get h) t with
  | (Ok (pr, inner), t) => p_is_immutable pr inner (r_state t)
  | (Err _, _) => false
  end.

Definition router_close (h : Handle) : PM Router unit :=
  r ← (on_table (table_remove h) : PM Router (Provider S * Handle));
  on_state (p_close r.1 r.2).

Definition router : Provider Router := {|
  p_capabilities := router_capabilities;
  p_getattr := λ p, on_state (p_getattr (provider_for (vp_rel p)) p);
  p_readdir := λ p, on_state (p_readdir (provider_for (vp_rel p)) p);
  p_open := router_open;
  p_close := router_close;
  p_read_at := router_read_at;
  p_read_next := λ _ buf, no_read buf;
  p_write_at := λ h off buf, router_handle h (λ pr h, p_write_at pr h off buf);
  p_set_len := λ h n, router_handle h (λ pr h, p_set_len pr h n);
  p_flush := λ h, router_handle h (λ pr h, p_flush pr h);
  p_mkdir := λ p, on_state (p_mkdir (provider_for (vp_rel p)) p);
  p_remove := λ p, on_state (p_remove (provider_for (vp_rel p)) p);
  p_rename := λ from to, on_state (p_rename (provider_for (vp_rel from)) from to);
  p_set_attr := λ p a, on_state (p_set_attr (provider_for (vp_rel p)) p a);
  p_stored_name := λ p, on_state (p_stored_name (provider_for (vp_rel p)) p);
  p_is_immutable := router_is_immutable |}.

(** ** The route of a path *)

(** What a route's pattern means. *)
Definition route_means (path : str) (r : Route) : Prop :=
  PathMatch (split_segs (glob_normalize (pattern r))) (split_segs (glob_normalize (with_slash path))).

Lemma with_slash_plain path : g_star ∉ path → g_star ∉ with_slash path.
Proof.
  destruct path as [|c path]; cbn; intros H.
  - intros Hs%list_elem_of_singleton. discriminate Hs.
  - destruct (c =? slash); [done|]. apply not_elem_of_cons. split; [done|exact H].
Qed.

Lemma find_first (f : Route → bool) (l : list Route) :
  match List.find f l with
  | Some r => ∃ l1 l2, l = l1 ++ r :: l2 ∧ f r = true ∧ Forall (λ x, f x = false) l1
  | None => Forall (λ x, f x = false) l
  end.
Proof.
  induction l as [|x l IH]; cbn; [constructor|]. destruct (f x) eqn:E; [by exists [], l|].
  destruct (List.find f l) as [r|]; [|by constructor].
  destruct IH as (l1 & l2 & -> & Hr & Hl). exists (x :: l1), l2. by split_and!; [| |constructor].
Qed.

End router.

(** Property: a path is served by the first route whose pattern means it, and by
    the default provider when no route's pattern does. *)
Theorem provider_for_first {CT : CaseTable} {S} (dflt : Provider S) (routes : list Route) path :
  g_star ∉ path →
  (∃ l1 r l2, routes = l1 ++ r :: l2 ∧ provider_for dflt routes path = provider r ∧
     route_means path r ∧ Forall (λ x, ¬ route_means path x) l1) ∨
  (provider_for dflt routes path = dflt ∧ Forall (λ x, ¬ route_means path x) routes).
Proof.
  intros Hp. unfold provider_for.
  set (f := λ r : Route, glob_matches (pattern r) (with_slash path)).
  assert (∀ r, f r = true ↔ route_means path r) as Hf.
  { intros r. unfold f, route_means.
    rewrite <- (match_rec_spec _ _ (segs_plain _ (with_slash_plain path Hp))). done. }
  assert (∀ l, Forall (λ x, f x = false) l → Forall (λ x, ¬ route_means path x) l) as Hno.
  { intros l H. eapply Forall_impl; [exact H|]. cbn. intros x Hx Hm. apply Hf in Hm. congruence. }
  pose proof (find_first f routes) as H. destruct (List.find f routes) as [r|]; [left|right; auto].
  destruct H as (l1 & l2 & -> & Hr & Hl). exists l1, r, l2. split_and!; [done|done|by apply Hf|auto].
Qed.

Lemma provider_for_first_witness :
  let route := mkRoute (lit "/data/**") (readonly demo_file) in
  (∃ l1 r l2, [route] = l1 ++ r :: l2 ∧
     provider_for (CT := demo_table) demo_file [route] (lit "Data/x") = provider r ∧
     route_means (CT := demo_table) (lit "Data/x") r ∧
     Forall (λ x, ¬ route_means (CT := demo_table) (lit "Data/x") x) l1) ∨
  (provider_for (CT := demo_table) demo_file [route] (lit "Data/x") = demo_file ∧
     Forall (λ x, ¬ route_means (CT := demo_table) (lit "Data/x") x) [route]).
Proof.
  apply (provider_for_first (CT := demo_table) demo_file
    [mkRoute (lit "/data/**") (readonly demo_file)] (lit "Data/x")).
  apply (bool_decide_unpack _). vm_compute. exact I.
Defined.
