(* ===== verification/ComposePath.v ===== *)
(** ComposePath: the paths of vfs-compose (rust/crates/vfs-compose/src/path.rs,
    casefold.rs and the first half of mount_graph.rs): the normalisation the
    director applies to every path it is sent, and how a path is taken apart
    along a mount's prefix. *)

From S2P Require Import Prelude Text Path.


(** ** Model *)

(** [s.split_once(sep)]. *)
Fixpoint split_once (sep : char) (s : str) : option (str * str) :=
  match s with
  | [] => None
  | c :: s => if c =? sep then Some ([], s) else
      match split_once sep s with Some (a, b) => Some (c :: a, b) | None => None end
  end.

(** [PathError] has no fields. The loop is that of vfs-core. *)
Definition normalize (raw : str) : result unit str :=
  let s := trim_rel raw in
  if bool_decide (s = []) then Ok [] else
  match vpath_loop (split_on is_slash s) [] with
  | Ok out => Ok (join slash out)
  | Err _ => Err tt
  end.

(** [s.split('/').filter(|c| !c.is_empty())]. *)
Definition slash_pieces (s : str) : list str := filter (λ c, c ≠ []) (split_on is_slash s).

Section compose_path.
Context {CT : CaseTable}.

Fixpoint strip_loop (wants : list str) (rest : str) : option str :=
match wants with
| [] => Some rest
| want :: wants =>
    let '(hd, tl) := match split_once slash rest with Some ht => ht | None => (rest, []) end in
    if negb (str_eqb (fold hd) (fold want)) then None else strip_loop wants tl
end.

(** path.rs [strip_prefix]. *)
Definition mount_strip (path prefix : str) : option str :=
let prefix := trim_matches slash prefix in
if bool_decide (prefix = []) then Some path else strip_loop (slash_pieces prefix) path.

Fixpoint child_loop (haves : list str) (rest : str) : option str :=
match haves with
| [] => Some rest
| have :: haves =>
    '(hd, tl) ← split_once slash rest;
    if negb (str_eqb (fold hd) (fold have)) then None else child_loop haves tl
end.

Definition mount_child_name (path mount_prefix : str) : option str :=
let mount_prefix := trim_matches slash mount_prefix in
if bool_decide (mount_prefix = []) then None else
rest ← child_loop (slash_pieces path) mount_prefix;
name ← head (split_on is_slash rest);
if bool_decide (name = []) then None else Some name.

Definition fold_components (path : str) : list str :=
if bool_decide (path = []) then [] else fold <$> split_on is_slash path.

(** The remaining components, which the code slices off [key] itself. *)
Definition fold_strip_prefix (key : str) (query : list str) : option str :=
let kc := split_on is_slash key in
if (length kc <=? length query)%nat then None else
if negb (bool_decide ((fold <$> take (length query) kc) = query)) then None else
Some (join slash (drop (length query) kc)).
End compose_path.

(** ** Lemmas *)

Lemma split_once_piece c s : no_char is_slash c → split_once slash (c ++ slash :: s) = Some (c, s).
Proof.
  induction 1 as [|x c Hx Hc IH]; [done|]. cbn [app split_once]. unfold is_slash in Hx. by rewrite Hx, IH.
Qed.
Lemma split_once_last c : no_char is_slash c → split_once slash c = None.
Proof. induction 1 as [|x c Hx Hc IH]; [done|]. cbn [split_once]. unfold is_slash in Hx. by rewrite Hx, IH. Qed.

(** Reversing a path reverses its pieces. *)
Lemma rev_join sep ws : rev (join sep ws) = join sep (rev (rev (A:=Z) <$> ws)).
Proof.
  induction ws as [|w ws IH]; [done|]. destruct (decide (ws = [])) as [->|Hne]; [done|].
  rewrite join_cons by done. rewrite fmap_cons. cbn [rev]. rewrite rev_app_distr. cbn [rev].
  rewrite join_snoc; [by rewrite IH, <- app_assoc|]. intros E%(f_equal length).
  rewrite length_rev, length_fmap in E. destruct ws; done.
Qed.

Lemma split_on_rev s : split_on is_slash (rev s) = rev (rev (A:=Z) <$> split_on is_slash s).
Proof.
  rewrite <- (join_split slash s) at 1. rewrite rev_join. apply (split_join is_slash slash); [done| |].
  - intros E%(f_equal length). rewrite length_rev, length_fmap in E.
    pose proof (split_on_nonempty is_slash s). change (λ c, c =? slash) with is_slash in E.
    destruct (split_on is_slash s); done.
  - apply Forall_rev, Forall_fmap. eapply Forall_impl; [apply (split_on_pieces is_slash)|].
    intros w Hw. by apply Forall_rev.
Qed.

Lemma slash_pieces_start s : slash_pieces (trim_start slash s) = slash_pieces s.
Proof.
  induction s as [|c s IH]; [done|]. cbn [trim_start]. destruct (Z.eqb_spec c slash) as [->|]; [|done].
  rewrite IH. unfold slash_pieces. change (split_on is_slash (slash :: s)) with ([] :: split_on is_slash s).
  rewrite filter_cons_False by auto. done.
Qed.

Lemma slash_pieces_rev s : slash_pieces (rev s) = rev (rev (A:=Z) <$> slash_pieces s).
Proof.
  unfold slash_pieces. rewrite split_on_rev. generalize (split_on is_slash s). intros l.
  induction l as [|w l IH]; [done|]. cbn [fmap list_fmap rev]. rewrite filter_app, IH.
  rewrite (filter_cons (λ c, c ≠ []) w l), (filter_cons (λ c, c ≠ []) (rev w) []), filter_nil.
  destruct (decide (w = [])) as [->|Hw].
  - rewrite !decide_False by auto. apply app_nil_r.
  - assert (rev w ≠ []) as Hr by (intros E%(f_equal length); rewrite length_rev in E; by destruct w).
    by rewrite !decide_True by done.
Qed.

(** Trimming slashes changes no piece. *)
Lemma slash_pieces_trim s : slash_pieces (trim_matches slash s) = slash_pieces s.
Proof.
  unfold trim_matches. rewrite slash_pieces_rev, slash_pieces_start, slash_pieces_rev, slash_pieces_start.
  assert (∀ l : list str, rev (A:=Z) <$> (rev (A:=Z) <$> l) = l) as Hl.
  { intros l. rewrite <- list_fmap_compose. induction l as [|w l IH]; [done|]. cbn. by rewrite rev_involutive, IH. }
  change (rev (A:=Z) <$> rev ?l) with (map (rev (A:=Z)) (rev l)). rewrite map_rev, rev_involutive. apply Hl.
Qed.

Lemma split_on_unify s :
  split_on is_slash ((λ c, if c =? backslash then slash else c) <$> s) = split_on is_sep s.
Proof.
  induction s as [|c s IH]; [done|]. cbn [fmap list_fmap split_on]. rewrite IH.
  destruct (Z.eqb_spec c backslash) as [->|]; [done|]. 
  unfold is_sep, is_slash. rewrite (proj2 (Z.eqb_neq c backslash)) by done. rewrite orb_false_r. done.
Qed.

Lemma slash_pieces_trim_rel raw : slash_pieces (trim_rel raw) = pieces raw.
Proof. unfold trim_rel. rewrite slash_pieces_trim. unfold slash_pieces, pieces. by rewrite split_on_unify. Qed.

(** The loop skips empty pieces. *)
Lemma vpath_loop_nonempty cs out : vpath_loop cs out = vpath_loop (filter (λ c, c ≠ []) cs) out.
Proof.
  revert out. induction cs as [|c cs IH]; intros out; [done|]. destruct (decide (c = [])) as [->|Hc].
  - rewrite filter_cons_False by auto. cbn [vpath_loop]. apply IH.
  - rewrite filter_cons_True by done. cbn [vpath_loop]. destruct (_ || _); [apply IH|].
    destruct (str_eqb c dotdot); [destruct out; [done|apply IH]|apply IH].
Qed.

Lemma normalize_loop raw :
  normalize raw = match vpath_loop (pieces raw) [] with Ok out => Ok (join slash out) | Err _ => Err tt end.
Proof.
  unfold normalize. rewrite <- slash_pieces_trim_rel. case_bool_decide as E.
  - by rewrite E.
  - by rewrite vpath_loop_nonempty.
Qed.

Lemma normalize_comps raw p : normalize raw = Ok p → ∃ cs, p = join slash cs ∧ Forall comp_ok cs.
Proof.
  rewrite normalize_loop. destruct (vpath_loop (pieces raw) []) as [out|e] eqn:E; [|done]. intros [= <-].
  exists out. split; [done|]. eapply (vpath_loop_comp (pieces raw) []); [|constructor|done].
  eapply Forall_impl; [apply pieces_ok|]. naive_solver.
Qed.

Lemma normalize_join cs : Forall comp_ok cs → normalize (join slash cs) = Ok (join slash cs).
Proof.
  intros H. rewrite normalize_loop, pieces_join by (by apply comp_ok_piece). by rewrite vpath_loop_plain.
Qed.

Lemma slash_pieces_join cs : Forall comp_ok cs → slash_pieces (join slash cs) = cs.
Proof.
  intros H. destruct (decide (cs = [])) as [->|Hne]; [done|]. unfold slash_pieces.
  rewrite split_slash_join by done. clear Hne. induction H as [|c cs (Hc & _) H IH]; [done|].
  rewrite filter_cons_True by done. by rewrite IH.
Qed.

(** Property: the two normalisations agree: the director's [normalize] and the
    tree's [normalize_vpath] accept the same paths and give them the same
    spelling, except that only the latter first drops an NT prefix. *)
Theorem normalize_agrees raw :
  strip_first nt_prefixes raw = raw →
  normalize raw = match normalize_vpath raw with Ok p => Ok p | Err _ => Err tt end.
Proof.
  intros H. unfold normalize_vpath, vpath_components. rewrite H, normalize_loop, (vpath_loop_nonempty (split_on _ _)).
  by destruct (vpath_loop _ []).
Qed.

Lemma normalize_agrees_witness :
  normalize (lit "Data\..\./Mods//a.esp") = Ok (lit "Mods/a.esp") ∧
  normalize_vpath (lit "Data\..\./Mods//a.esp") = Ok (lit "Mods/a.esp").
Proof.
  assert (strip_first nt_prefixes (lit "Data\..\./Mods//a.esp") = lit "Data\..\./Mods//a.esp") as H by reflexivity.
  split; [rewrite (normalize_agrees _ H)|]; reflexivity.
Defined.

Section strip.
Context {CT : CaseTable}.

Lemma strip_loop_spec ps cs :
Forall (λ c, c ≠ []) ps → Forall comp_ok cs →
strip_loop ps (join slash cs) =
  if bool_decide ((fold <$> take (length ps) cs) = (fold <$> ps)) then Some (join slash (drop (length ps) cs)) else None.
Proof.
intros Hp. revert cs. induction Hp as [|p ps Hne Hp IH]; intros cs Hc; [done|]. cbn [strip_loop length].
assert (∀ tl, (match split_once slash (join slash cs) with Some ht => ht | None => (join slash cs, []) end) = tl →
  tl = (default [] (head cs), join slash (tail cs))) as Hsplit.
{ intros tl <-. destruct Hc as [|c cs (_ & _ & _ & Hs) Hc]; [done|].
  apply no_sep_no_slash in Hs. destruct cs as [|d cs]; [by cbn; rewrite split_once_last|].
  rewrite join_cons by done. by rewrite split_once_piece. }
rewrite (Hsplit _ eq_refl). destruct Hc as [|c cs Hcc Hc].
- cbn [head tail default take fmap list_fmap]. rewrite bool_decide_false by done.
  destruct (str_eqb_spec (fold []) (fold p)) as [E|]; [|done].
  symmetry in E. rewrite fold_nil in E. by apply fold_nil_inv in E.
- cbn [tail take drop fmap list_fmap length]. change (default [] (head (c :: cs))) with c.
  destruct (str_eqb_spec (fold c) (fold p)) as [E|E]; cbn [negb].
  + rewrite IH by done. rewrite E.
    case_bool_decide as E1; case_bool_decide as E2; [done|destruct E2; by f_equal|destruct E1; by injection E2|done].
  + rewrite bool_decide_false by (by intros [=]). done.
Qed.

(** A mount's prefix is matched whole component by whole component. *)
Lemma mount_strip_spec ps cs :
Forall comp_ok ps → Forall comp_ok cs →
mount_strip (join slash cs) (join slash ps) =
  if bool_decide ((fold <$> take (length ps) cs) = (fold <$> ps)) then Some (join slash (drop (length ps) cs)) else None.
Proof.
intros Hp Hc. unfold mount_strip. rewrite trim_canonical by done. case_bool_decide as E.
- apply join_comp_nil in E; [|done]. subst ps. done.
- rewrite slash_pieces_join by done. apply strip_loop_spec; [by apply comp_ok_nonempty|done].
Qed.
End strip.

(** The process-wide record of writes that were refused because no
    provider on the path is writable
    (rust/crates/vfs-compose/src/rejected_writes.rs). The lock is never
    poisoned: what runs under it cannot panic. *)


(** [p.trim()] of ASCII and other white space. *)
Definition is_space (c : char) : bool :=
  ((9 <=? c) && (c <=? 13)) || (c =? 32) || (c =? 133) || (c =? 160) || (c =? 5760) ||
  ((8192 <=? c) && (c <=? 8202)) || (c =? 8232) || (c =? 8233) || (c =? 8239) || (c =? 8287) || (c =? 12288).
Fixpoint trim_start_space (s : str) : str :=
  match s with c :: s' => if is_space c then trim_start_space s' else s | [] => [] end.
Definition trim_space (s : str) : str := rev (trim_start_space (rev (trim_start_space s))).

Definition norm_path (p : str) : str :=
  let p := trim_start backslash (trim_start slash (trim_space p)) in
  if bool_decide (p = []) || str_eqb p dot then [slash] else (λ c, if c =? backslash then slash else c) <$> p.

Definition record_rejected_write (path : str) (t : gmap str Z) : gmap str Z :=
  let path := norm_path path in <[path := as_u64 (default 0 (t !! path) + 1)]> t.

(** The order of a [HashMap]'s entries is unspecified. *)
Definition rejected_writes (t : gmap str Z) : list (str * Z) := map_to_list t.
Definition reset_rejected_writes (t : gmap str Z) : gmap str Z := ∅.
