(* ===== verification/MountProps.v ===== *)
(** MountProps: several providers placed at sub-paths of one root
    (rust/crates/vfs-compose/src/mount_graph.rs), and what the graph shows.

    The providers act on one state [S], of which the process-wide record of
    refused writes is a part. The graph's own table of handles, a mutex with a
    map and a counter beside it, behaves as a [HandleTable]. *)

From S2P Require Import Prelude Text Path Provider Compose Listing ComposePath.


Section graph.
Context {CT : CaseTable} {S : Type} (rejected : S → gmap str Z) (set_rejected : gmap str Z → S → S).

Record Mount := mkMount { m_prefix : str; m_backend : Provider S }.

Record MountGraph := mkGraph { g_state : S; g_opens : HandleTable (Provider S * Handle) }.

(** [MountGraph::new]: the first prefix that does not normalise is refused. *)
Fixpoint graph_mounts (l : list (str * Provider S)) : result Z (list Mount) :=
match l with
| [] => Ok []
| (prefix, backend) :: l =>
    match normalize prefix with
    | Err _ => Err ST_BAD_REQUEST
    | Ok prefix => cons (mkMount prefix backend) <$> graph_mounts l
    end
end.
Definition graph_new (s : S) : MountGraph := mkGraph s table_new.

Definition on_world {R} : (S → R * S) → MountGraph → R * MountGraph :=
zoom g_state (λ s g, mkGraph s (g_opens g)).
Definition on_handles {R} : (HandleTable (Provider S * Handle) → R * HandleTable (Provider S * Handle)) →
    MountGraph → R * MountGraph := zoom g_opens (λ o g, mkGraph (g_state g) o).
Local Abbreviation GM := (PM MountGraph).

Context (mounts : list Mount).

Definition graph_capabilities : Capabilities :=
match mounts with
| [] => caps_read_only
| m :: ms =>
    let caps := p_capabilities ∘ m_backend <$> mounts in
    caps_with_access (foldl access_max (access (p_capabilities (m_backend m))) (access <$> caps)) (weakest caps)
end.

(** [normalize(p.rel).map_err(|_| bad_request())?] *)
Definition graph_path (p : VPath) : GM str := λ g,
(match normalize (vp_rel p) with Ok path => Ok path | Err _ => Err ST_BAD_REQUEST end, g).

(** The mounts whose prefix the path has, each with the rest of the path; the
  others are passed over by [let Some(rel) = .. else { continue }]. *)
Definition at_mount (path : str) (m : Mount) : option (Provider S * str) :=
(λ rel, (m_backend m, rel)) <$> mount_strip path (m_prefix m).
Definition matching (path : str) : list (Provider S * str) := omap (at_mount path) (rev mounts).

Fixpoint first_stat (root : Z) (l : list (Provider S * str)) : GM (option Stat) :=
match l with
| [] => mret None
| (b, rel) :: l =>
    st ← (on_world (p_getattr b (mkVPath root rel)) : GM (option Stat));
    match st with Some s => mret (Some s) | None => first_stat root l end
end.

Definition virtual_dir : Stat := mkStat KIND_DIR 0 0.

Definition graph_getattr (p : VPath) : GM (option Stat) :=
path ← graph_path p;
st ← first_stat (vp_root p) (matching path);
match st with
| Some s => mret (Some s)
| None => mret (if bool_decide (path = []) && negb (bool_decide (mounts = [])) then Some virtual_dir else None)
end.

Fixpoint first_name (root : Z) (l : list (Provider S * str)) : GM (option str) :=
match l with
| [] => mret None
| (b, rel) :: l =>
    if bool_decide (rel = []) then first_name root l else
    n ← (on_world (stored_name b (mkVPath root rel)) : GM (option str));
    match n with Some n => mret (Some n) | None => first_name root l end
end.

Definition graph_stored_name (p : VPath) : GM (option str) :=
path ← graph_path p;
if bool_decide (path = []) then mret None else
n ← first_name (vp_root p) (matching path);
match n with
| Some n => mret (Some n)
| None =>
    let '(parent, lst) := default ([], path) (rsplit_once slash path) in
    mret (List.find (λ name, str_eqb (fold name) (fold lst)) (omap (λ m, mount_child_name parent (m_prefix m)) mounts))
end.

(** The first loop of [readdir]: the map, [saw_dir] and [not_dir]. *)
Definition add_entries (map : gmap str DirEntry) (es : list DirEntry) : gmap str DirEntry :=
foldl (λ map e, <[fold (de_name e) := e]> map) map es.

Fixpoint list_mounts (root : Z) (l : list (Provider S * str)) (map : gmap str DirEntry) (saw not_dir : bool)
    : GM (gmap str DirEntry * bool * bool) :=
match l with
| [] => mret (map, saw, not_dir)
| (b, rel) :: l => λ g,
    match on_world (p_readdir b (mkVPath root rel)) g with
    | (Ok es, g) => list_mounts root l (add_entries map es) true not_dir g
    | (Err e, g) =>
        if e =? ST_NOT_FOUND then list_mounts root l map saw not_dir g
        else if e =? ST_NOT_A_DIRECTORY then list_mounts root l map saw true g
        else (Err e, g)
    end
end.

(** The second: the mounts below the directory. *)
Fixpoint list_deeper (root : Z) (path : str) (l : list Mount) (map : gmap str DirEntry) (derived : bool)
    : MountGraph → (gmap str DirEntry * bool) * MountGraph :=
match l with
| [] => λ g, ((map, derived), g)
| m :: l => λ g,
    match mount_child_name path (m_prefix m) with
    | None => list_deeper root path l map derived g
    | Some name =>
        let key := fold name in
        if bool_decide (is_Some (map !! key)) then list_deeper root path l map derived g else
        match on_world (p_getattr (m_backend m) (mkVPath root [])) g with
        | (Ok (Some stat), g) => list_deeper root path l (<[key := mkDirEntry name stat]> map) true g
        | (_, g) => list_deeper root path l map derived g
        end
    end
end.

Definition graph_readdir (p : VPath) : GM (list DirEntry) :=
path ← graph_path p;
r ← list_mounts (vp_root p) (omap (at_mount path) mounts) ∅ false false;
let '(map, saw_dir, not_dir) := (r : gmap str DirEntry * bool * bool) in
(λ g,
  let '((map, mount_derived), g) := list_deeper (vp_root p) path mounts map false g in
  if negb saw_dir && negb mount_derived then
    (if not_dir then Err ST_NOT_A_DIRECTORY
     else if bool_decide (path = []) && negb (bool_decide (mounts = [])) then Ok []
     else Err ST_NOT_FOUND, g)
  else (Ok (sorted_by_folded_name map), g)) : GM (list DirEntry).

Definition mount_writable (b : Provider S) : bool :=
negb (access_rank (access (p_capabilities b)) <? access_rank ReadWrite).
Definition refuse_write (path : str) (g : MountGraph) : MountGraph :=
mkGraph (set_rejected (record_rejected_write path (rejected (g_state g))) (g_state g)) (g_opens g).

Fixpoint open_first (root : Z) (path : str) (flags : Z) (l : list (Provider S * str)) : GM (Handle * Z * bool) :=
match l with
| [] => pm_err ST_NOT_FOUND
| (b, rel) :: l => λ g,
    if negb (Z.land flags OPEN_WRITE =? 0) && negb (mount_writable b) then
      match on_world (p_getattr b (mkVPath root rel)) g with
      | (Ok None, g) => open_first root path flags l g
      | (_, g) => (Err ST_READ_ONLY, refuse_write path g)
      end
    else
      match on_world (p_open b (mkVPath root rel) flags) g with
      | (Ok (bh, size, is_dir_flag), g) =>
          (h ← (on_handles (table_insert (b, bh)) : GM Handle); (mret (h, size, is_dir_flag) : GM (Handle * Z * bool))) g
      | (Err e, g) => if e =? ST_NOT_FOUND then open_first root path flags l g else (Err e, g)
      end
end.

Definition graph_open (p : VPath) (flags : Z) : GM (Handle * Z * bool) :=
path ← graph_path p; open_first (vp_root p) path flags (matching path).

Definition graph_lookup (h : Handle) : GM (Provider S * Handle) := on_handles (table_get h).

Definition graph_read_at (h : Handle) (off : Z) (buf : bytes) (g : MountGraph) : (result Z Z * bytes) * MountGraph :=
match graph_lookup h g with
| (Ok (b, bh), g) => on_world (p_read_at b bh off buf) g
| (Err e, g) => ((Err e, buf), g)
end.

Definition graph_close (h : Handle) : GM unit :=
r ← (on_handles (table_remove h) : GM (Provider S * Handle)); on_world (p_close r.1 r.2).

Definition graph_is_immutable (h : Handle) (g : MountGraph) : bool :=
match graph_lookup h g with
| (Ok (b, bh), g) => p_is_immutable b bh (g_state g)
| (Err _, _) => false
end.

(** [write_at], [set_len], [flush]. *)
Definition graph_handle {A} (h : Handle) (m : Provider S → Handle → PM S A) : GM A :=
r ← graph_lookup h; on_world (m r.1 r.2).

(** [mkdir], [remove], [set_attr]: the first mount that matches answers. *)
Definition graph_first {A} (p : VPath) (m : Provider S → VPath → PM S A) : GM A :=
path ← graph_path p;
match matching path with
| [] => pm_err ST_NOT_FOUND
| (b, rel) :: _ => on_world (m b (mkVPath (vp_root p) rel))
end.

(** The first mount that matches both paths. *)
Definition at_both (from to : str) (m : Mount) : option (Provider S * str * str) :=
match mount_strip from (m_prefix m), mount_strip to (m_prefix m) with
| Some f, Some t => Some (m_backend m, f, t)
| _, _ => None
end.
Definition graph_rename (from to : VPath) : GM unit :=
from_path ← graph_path from;
to_path ← graph_path to;
match omap (at_both from_path to_path) (rev mounts) with
| [] => pm_err ST_BAD_REQUEST
| (b, f, t) :: _ => on_world (p_rename b (mkVPath (vp_root from) f) (mkVPath (vp_root to) t))
end.

Definition mount_graph : Provider MountGraph := {|
p_capabilities := graph_capabilities;
p_getattr := graph_getattr;
p_readdir := graph_readdir;
p_open := graph_open;
p_close := graph_close;
p_read_at := graph_read_at;
p_read_next := λ _ buf, no_read buf;
p_write_at := λ h off buf, graph_handle h (λ b h, p_write_at b h off buf);
p_set_len := λ h n, graph_handle h (λ b h, p_set_len b h n);
p_flush := λ h, graph_handle h (λ b h, p_flush b h);
p_mkdir := λ p, graph_first p (λ b p, p_mkdir b p);
p_remove := λ p, graph_first p (λ b p, p_remove b p);
p_rename := graph_rename;
p_set_attr := λ p a, graph_first p (λ b p, p_set_attr b p a);
p_stored_name := graph_stored_name;
p_is_immutable := graph_is_immutable |}.
End graph.
Arguments Mount : clear implicits.
Arguments MountGraph : clear implicits.

(** ** What a mount graph shows: the listing of a directory and the
    look-up of a path agree, except on the directories above a deep mount;
    a write never passes a read-only mount that holds the path; handles stay
    with the mount that opened them. *)


Section listing.
Context {CT : CaseTable} {W : Type} (root : Z) (s : W).

(** The provider has something at a path. *)
Definition has (b : Provider W) (cs : list str) : Prop :=
∃ st, p_getattr b (mkVPath root (join slash cs)) s = (Ok (Some st), s).

(** What a mounted provider promises in the state [s]: looking changes nothing
  and a listing has a name exactly if looking it up finds something. *)
Record Listable (b : Provider W) : Prop := {
  lst_getattr cs : Forall comp_ok cs → ∃ o, p_getattr b (mkVPath root (join slash cs)) s = (Ok o, s);
  lst_readdir cs : Forall comp_ok cs → ∃ r, p_readdir b (mkVPath root (join slash cs)) s = (r, s) ∧
    match r with
    | Ok es => ∀ n, comp_ok n → (∃ e, e ∈ es ∧ fold (de_name e) = fold n) ↔ has b (cs ++ [n])
    | Err e => (e = ST_NOT_FOUND ∨ e = ST_NOT_A_DIRECTORY) ∧ ∀ n, comp_ok n → ¬ has b (cs ++ [n])
    end }.

Definition prefix_of (m : Mount W) (ps : list str) : Prop := m_prefix m = join slash ps ∧ Forall comp_ok ps.

(** ** One mount *)

(** The rest of a path below a mount, component by component. *)
Definition below (ps cs : list str) : Prop := fold <$> take (length ps) cs = fold <$> ps.

Lemma at_mount_spec m ps cs :
prefix_of m ps → Forall comp_ok cs →
(below ps cs ∧ at_mount (join slash cs) m = Some (m_backend m, join slash (drop (length ps) cs))) ∨
(¬ below ps cs ∧ at_mount (join slash cs) m = None).
Proof.
intros [E Hp] Hc. unfold at_mount. rewrite E, mount_strip_spec by done. unfold below. case_bool_decide; [by left|by right].
Qed.

Lemma child_loop_spec haves ps :
Forall comp_ok ps → ps ≠ [] →
child_loop haves (join slash ps) =
  if bool_decide ((fold <$> take (length haves) ps) = (fold <$> haves) ∧ (length haves < length ps)%nat)
  then Some (join slash (drop (length haves) ps)) else None.
Proof.
revert ps. induction haves as [|h haves IH]; intros ps Hp Hne.
- cbn [child_loop length]. rewrite bool_decide_true; [by rewrite drop_0|]. split; [by rewrite take_0|].
  destruct ps; [done|]. cbn. lia.
- cbn [child_loop]. destruct Hp as [|p ps (_ & _ & _ & Hs) Hp]; [done|]. apply no_sep_no_slash in Hs.
  destruct ps as [|q ps].
  + cbn [join]. rewrite split_once_last by done. rewrite bool_decide_false; [done|]. cbn. lia.
  + rewrite join_cons, split_once_piece by done. cbn [mbind option_bind length take drop].
    destruct (str_eqb_spec (fold p) (fold h)) as [E|E]; cbn [negb].
    * rewrite IH by done. rewrite !fmap_cons, E. cbn [length].
      case_bool_decide as H1; case_bool_decide as H2; [done| | |done]; exfalso.
      -- apply H2. destruct H1 as [-> ?]. split; [done|lia].
      -- apply H1. destruct H2 as [[=] ?]. split; [done|lia].
    * rewrite bool_decide_false; [done|]. rewrite !fmap_cons. intros [[=] _]. done.
Qed.

Lemma child_name_spec m ps cs :
prefix_of m ps → Forall comp_ok cs →
mount_child_name (join slash cs) (m_prefix m) =
  if bool_decide ((fold <$> take (length cs) ps) = (fold <$> cs)) then ps !! length cs else None.
Proof.
intros [-> Hp] Hc. unfold mount_child_name. rewrite trim_canonical by done. destruct (decide (ps = [])) as [->|Hne].
{ rewrite bool_decide_true by done. by case_bool_decide. }
rewrite bool_decide_false by (rewrite join_comp_nil; done).
rewrite slash_pieces_join, child_loop_spec by done.
case_bool_decide as H1.
- destruct H1 as [H1 Hl]. rewrite (bool_decide_true (_ = _)) by done. cbn [mbind option_bind].
  destruct (lookup_lt_is_Some_2 ps (length cs) Hl) as [p Ep]. rewrite Ep.
  rewrite (drop_S _ _ _ Ep). pose proof (Forall_lookup_1 _ _ _ _ Hp Ep) as Hpc.
  rewrite split_slash_join by first [done|apply Forall_cons; split; [done|by apply Forall_drop]]. cbn [head mbind option_bind].
  by rewrite bool_decide_false by (destruct Hpc; done).
- case_bool_decide as H2; [|done]. cbn [mbind option_bind]. symmetry. apply lookup_ge_None. destruct (decide (length cs < length ps)%nat); [naive_solver|lia].
Qed.

(** ** Looking up *)

Context (mounts : list (Mount W)).
Context (Hmounts : Forall (λ m, (∃ ps, prefix_of m ps) ∧ Listable (m_backend m)) mounts).

Lemma on_world_same {R} (m : W → R * W) (g : MountGraph W) r : g_state g = s → m s = (r, s) → on_world m g = (r, g).
Proof. intros Hg E. destruct g as [s' o]. cbn in Hg. subst s'. unfold on_world, zoom. cbn [g_state]. by rewrite E. Qed.

(** A mount with the rest of the path, as the loops meet them. *)
Definition good (x : Provider W * str) : Prop := ∃ ds, Forall comp_ok ds ∧ x.2 = join slash ds ∧ Listable x.1.
Definition has_at (x : Provider W * str) : Prop := ∃ st, p_getattr x.1 (mkVPath root x.2) s = (Ok (Some st), s).

Lemma matching_good cs : Forall comp_ok cs → Forall good (omap (at_mount (join slash cs)) mounts).
Proof.
intros Hc. apply Forall_forall. intros x (m & Hm & E)%list_elem_of_omap.
destruct (proj1 (Forall_forall _ _) Hmounts _ Hm) as [[ps Hp] Hl].
destruct (at_mount_spec m ps cs Hp Hc) as [[_ E']|[_ E']]; rewrite E' in E; [|done]. injection E as <-.
exists (drop (length ps) cs). split_and!; [by apply Forall_drop|done|done].
Qed.

Lemma first_stat_spec l (g : MountGraph W) :
g_state g = s → Forall good l →
∃ o, first_stat root l g = (Ok o, g) ∧ (is_Some o ↔ ∃ x, x ∈ l ∧ has_at x).
Proof.
intros Hg. induction 1 as [|[b rel] l (ds & Hd & Er & Hl) Hgood IH].
- exists None. split; [done|]. split; [by intros []|]. intros (x & Hx & _). by apply elem_of_nil in Hx.
- cbn in Er, Hl. subst rel. destruct (lst_getattr b Hl ds Hd) as [o Eo]. cbn [first_stat].
  unfold mbind at 1, PM_bind. rewrite (on_world_same _ g _ Hg Eo). destruct o as [st|].
  + exists (Some st). split; [done|]. split; [|done]. intros _. exists (b, join slash ds). split; [by left|]. by exists st.
  + destruct IH as (o & E & Ho). exists o. split; [done|]. rewrite Ho. split.
    * intros (x & Hx & Hh). exists x. split; [by right|done].
    * intros (x & [->|Hx]%elem_of_cons & [st Hst]); [cbn in Hst; congruence|]. exists x. split; [done|by exists st].
Qed.

(** ** Listing *)

Definition key_at (k : str) (x : Provider W * str) : Prop :=
∃ es e, p_readdir x.1 (mkVPath root x.2) s = (Ok es, s) ∧ e ∈ es ∧ fold (de_name e) = k.
Definition ok_at (x : Provider W * str) : Prop := ∃ es, p_readdir x.1 (mkVPath root x.2) s = (Ok es, s).

Lemma add_entries_dom (map : gmap str DirEntry) es k :
is_Some (add_entries map es !! k) ↔ is_Some (map !! k) ∨ ∃ e, e ∈ es ∧ fold (de_name e) = k.
Proof.
revert map. induction es as [|e es IH]; intros map; cbn.
- split; [by left|]. intros [H|(e & He & _)]; [done|]. by apply elem_of_nil in He.
- unfold add_entries in IH. rewrite IH, lookup_insert_is_Some'. setoid_rewrite elem_of_cons. naive_solver.
Qed.

(** The map of a listing is keyed by the folds of the names. *)
Definition keyed (map : gmap str DirEntry) : Prop := map_Forall (λ k e, fold (de_name e) = k) map.

Lemma add_entries_keyed map es : keyed map → keyed (add_entries map es).
Proof.
unfold add_entries. revert map. induction es as [|e es IH]; intros map H; [done|]. cbn [foldl]. apply IH.
by apply map_Forall_insert_2.
Qed.

Lemma list_mounts_keyed l map saw nd (g g' : MountGraph W) map' saw' nd' :
keyed map → list_mounts root l map saw nd g = (Ok (map', saw', nd'), g') → keyed map'.
Proof.
revert map saw nd g. induction l as [|[b rel] l IH]; intros map saw nd g H; cbn [list_mounts]; [by intros [= <- <- <-]|].
destruct (on_world _ g) as [[es|e] g1]; [by apply IH, add_entries_keyed|]. destruct (e =? ST_NOT_FOUND); [by apply IH|].
destruct (e =? ST_NOT_A_DIRECTORY); [by apply IH|done].
Qed.

Lemma list_deeper_keyed path l map der (g : MountGraph W) : keyed map → keyed (list_deeper root path l map der g).1.1.
Proof.
revert map der g. induction l as [|m l IH]; intros map der g H; cbn [list_deeper]; [done|].
destruct (mount_child_name path (m_prefix m)) as [name|]; [|by apply IH]. case_bool_decide; [by apply IH|].
destruct (on_world _ g) as [[[st|]|e] g1]; try (by apply IH). apply IH. by apply map_Forall_insert_2.
Qed.

Lemma list_mounts_spec l map saw nd (g : MountGraph W) :
g_state g = s → Forall good l →
∃ map' saw' nd', list_mounts root l map saw nd g = (Ok (map', saw', nd'), g) ∧
  (∀ k, is_Some (map' !! k) ↔ is_Some (map !! k) ∨ ∃ x, x ∈ l ∧ key_at k x) ∧
  (saw' = true ↔ saw = true ∨ ∃ x, x ∈ l ∧ ok_at x).
Proof.
intros Hg H. revert map saw nd. induction H as [|[b rel] l (ds & Hd & Er & Hl) Hgood IH]; intros map saw nd.
- exists map, saw, nd. split; [done|]. split; [intros k|]; (split; [by left|]); intros [H|(x & Hx & _)]; try done; by apply elem_of_nil in Hx.
- cbn in Er, Hl. subst rel. destruct (lst_readdir b Hl ds Hd) as (r & Er & Hr). cbn [list_mounts].
  rewrite (on_world_same _ g _ Hg Er).
  assert (∀ map saw nd, (∀ k, ¬ key_at k (b, join slash ds)) → ¬ ok_at (b, join slash ds) →
    ∃ map' saw' nd', list_mounts root l map saw nd g = (Ok (map', saw', nd'), g) ∧
      (∀ k, is_Some (map' !! k) ↔ is_Some (map !! k) ∨ ∃ x, x ∈ (b, join slash ds) :: l ∧ key_at k x) ∧
      (saw' = true ↔ saw = true ∨ ∃ x, x ∈ (b, join slash ds) :: l ∧ ok_at x)) as Hskip.
  { intros map0 saw0 nd0 H1 H2. destruct (IH map0 saw0 nd0) as (map' & saw' & nd' & E & Hm & Hs).
    exists map', saw', nd'. split; [done|]. setoid_rewrite elem_of_cons. split; [intros k; rewrite Hm|rewrite Hs]; naive_solver. }
  destruct r as [es|e].
  + destruct (IH (add_entries map es) true nd) as (map' & saw' & nd' & E & Hm & Hs).
    exists map', saw', nd'. split; [done|]. split.
    * intros k. rewrite Hm, add_entries_dom. setoid_rewrite elem_of_cons. unfold key_at. split.
      -- intros [[H|(e & He & Hk)]|(x & Hx & Hk)]; [by left|right; exists (b, join slash ds); split; [by left|by exists es, e]|right; eauto].
      -- intros [H|(x & [->|Hx] & Hk)]; [by left; left| |right; eauto]. destruct Hk as (es' & e & Er' & He & Hk).
         cbn in Er'. rewrite Er in Er'. injection Er' as <-. left. right. eauto.
    * rewrite Hs. split; [|by left]. intros _. right. exists (b, join slash ds). split; [by left|by exists es].
  + destruct Hr as [He _].
    assert (∀ k, ¬ key_at k (b, join slash ds)) by (intros k (es & e' & Er' & _); cbn in Er'; congruence).
    assert (¬ ok_at (b, join slash ds)) by (intros (es & Er'); cbn in Er'; congruence).
    destruct He as [->| ->]; cbn; by apply Hskip.
Qed.

Definition deeper_at (path : str) (k : str) (m : Mount W) : Prop :=
∃ name, mount_child_name path (m_prefix m) = Some name ∧ fold name = k ∧ has (m_backend m) [].

Lemma list_deeper_spec path l map der (g : MountGraph W) :
g_state g = s → Forall (λ m, Listable (m_backend m)) l →
∃ map' der', list_deeper root path l map der g = ((map', der'), g) ∧
  (∀ k, is_Some (map' !! k) ↔ is_Some (map !! k) ∨ ∃ m, m ∈ l ∧ deeper_at path k m) ∧
  (der = true → der' = true) ∧ (der' = false → map' = map).
Proof.
intros Hg H. revert map der. induction H as [|m l Hl Hgood IH]; intros map der.
- exists map, der. split; [done|]. split; [|done]. intros k; (split; [by left|]); intros [H|(x & Hx & _)]; try done; by apply elem_of_nil in Hx.
- cbn [list_deeper].
  assert (∀ map der, (∀ k, deeper_at path k m → is_Some (map !! k)) →
    ∃ map' der', list_deeper root path l map der g = ((map', der'), g) ∧
      (∀ k, is_Some (map' !! k) ↔ is_Some (map !! k) ∨ ∃ m0, m0 ∈ m :: l ∧ deeper_at path k m0) ∧
      (der = true → der' = true) ∧ (der' = false → map' = map)) as Hskip.
  { intros map0 der0 H1. destruct (IH map0 der0) as (map' & der' & E & Hm & Hd). exists map', der'.
    split; [done|]. split; [|done]. intros k. rewrite Hm. setoid_rewrite elem_of_cons. naive_solver. }
  destruct (mount_child_name path (m_prefix m)) as [name|] eqn:En.
  2:{ apply Hskip. intros k (name & E & _). congruence. }
  case_bool_decide as Hk.
  { apply Hskip. intros k (name' & E & <- & _). rewrite En in E. by injection E as <-. }
  destruct (lst_getattr _ Hl [] (Forall_nil_2 _)) as [o Eo]. cbn [join] in Eo. rewrite (on_world_same _ g _ Hg Eo).
  destruct o as [st|].
  + destruct (IH (<[fold name := mkDirEntry name st]> map) true) as (map' & der' & E & Hm & Hd1 & Hd2).
    exists map', der'. split; [done|]. split; [|split; [by intros _; apply Hd1|]].
    * intros k. rewrite Hm, lookup_insert_is_Some'. setoid_rewrite elem_of_cons. split.
      -- intros [[<-|H]|(x & Hx & Hk')]; [right; exists m; split; [by left|]; exists name; split_and!; [done|done|by exists st]|by left|right; eauto].
      -- intros [H|(x & [->|Hx] & Hk')]; [by left; right| |right; eauto]. destruct Hk' as (name' & E' & Hk' & _).
         rewrite En in E'. injection E' as <-. by left; left.
    * intros Hd. rewrite Hd1 in Hd; done.
  + apply Hskip. intros k (name' & _ & _ & st & Est). cbn [join] in Est. congruence.
Qed.

(** A mount strictly below [cs ++ [n]], whose provider has a root: its prefix
  names directories that no provider need have. *)
Definition deep_mount (cs : list str) (n : str) : Prop :=
∃ m ps, m ∈ mounts ∧ prefix_of m ps ∧ (S (length cs) < length ps)%nat ∧
  fold <$> take (S (length cs)) ps = fold <$> (cs ++ [n]) ∧ has (m_backend m) [].

Lemma take_snoc_fold (ps cs : list str) (p n : str) :
ps !! length cs = Some p →
fold <$> take (S (length cs)) ps = fold <$> (cs ++ [n]) ↔ fold <$> take (length cs) ps = fold <$> cs ∧ fold p = fold n.
Proof.
intros Hp. rewrite (take_S_r _ _ _ Hp), !fmap_app. split; [|intros [-> E]; cbn; by rewrite E].
intros [E1 E2]%app_inj_2; [|done]. by injection E2.
Qed.

(** A provider's listing has the names its look-up finds. *)
Lemma mount_key m ds n :
Listable (m_backend m) → Forall comp_ok ds → comp_ok n →
(∃ x, Some (m_backend m, join slash ds) = Some x ∧ key_at (fold n) x) ↔ has_at (m_backend m, join slash (ds ++ [n])).
Proof.
intros Hl Hd Hn. destruct (lst_readdir _ Hl ds Hd) as (r & Er & Hr). split.
- intros (x & [= <-] & es & e & E & He & Hk). cbn in E. rewrite Er in E. injection E as ->. apply (Hr n Hn). eauto.
- intros H. destruct r as [es|e]; [|by destruct Hr as [_ Hr]; apply Hr in H].
  apply (Hr n Hn) in H as (e & He & Hk). eexists. split; [done|]. by exists es, e.
Qed.

(** What a listing and a look-up see of one mount. *)
Lemma mount_sees m cs n :
m ∈ mounts → Forall comp_ok cs → comp_ok n →
((∃ x, at_mount (join slash cs) m = Some x ∧ key_at (fold n) x) ∨ deeper_at (join slash cs) (fold n) m) ↔
((∃ x, at_mount (join slash (cs ++ [n])) m = Some x ∧ has_at x) ∨
 ∃ ps, prefix_of m ps ∧ (S (length cs) < length ps)%nat ∧
   fold <$> take (S (length cs)) ps = fold <$> (cs ++ [n]) ∧ has (m_backend m) []).
Proof using Hmounts.
intros Hm Hc Hn. destruct (proj1 (Forall_forall _ _) Hmounts _ Hm) as [[ps Hp] Hl].
assert (Forall comp_ok (cs ++ [n])) as Hcn by (apply Forall_app; split; [done|by apply Forall_singleton]).
assert (∀ ps', prefix_of m ps' → ps' = ps) as Hps.
{ intros ps' [E' Hp']. destruct Hp as [E Hp]. rewrite E in E'. symmetry. by apply (canonical_inj (join slash ps)). }
unfold deeper_at. rewrite (child_name_spec m ps cs Hp Hc).
destruct (decide (length ps ≤ length cs)%nat) as [Hle|Hgt].
- assert (∀ l, take (length ps) (cs ++ l) = take (length ps) cs) as Ht by (intros l; by apply take_app_le).
  assert (below ps (cs ++ [n]) ↔ below ps cs) as Hb by (unfold below; by rewrite Ht).
  assert (ps !! length cs = None) as -> by (by apply lookup_ge_None).
  destruct (at_mount_spec m ps cs Hp Hc) as [[B E]|[B E]], (at_mount_spec m ps _ Hp Hcn) as [[B' E']|[B' E']];
    try (exfalso; tauto); rewrite E, E'.
  + rewrite drop_app_le in E' |- * by done. set (ds := drop (length ps) cs) in *.
    assert (Forall comp_ok ds) as Hd by (by apply Forall_drop).
    rewrite (mount_key m ds n Hl Hd Hn). split.
    * intros [H|(name & H & _)]; [left; eauto|by case_bool_decide].
    * intros [(x & [= <-] & H)|(ps' & Hp' & Hlt & _)]; [by left|]. apply Hps in Hp' as ->. lia.
  + split.
    * intros [(x & [=] & _)|(name & H & _)]. by case_bool_decide.
    * intros [(x & [=] & _)|(ps' & Hp' & Hlt & _)]. apply Hps in Hp' as ->. lia.
- assert (¬ below ps cs) as Hnb.
  { unfold below. intros E%(f_equal length). rewrite !length_fmap, length_take in E. lia. }
  destruct (lookup_lt_is_Some_2 ps (length cs)) as [q Eq]; [lia|]. rewrite Eq.
  pose proof (take_snoc_fold ps cs q n Eq) as Hts.
  destruct (at_mount_spec m ps cs Hp Hc) as [[B E]|[_ E]]; [done|]. rewrite E.
  assert ((∃ name, (if bool_decide (fold <$> take (length cs) ps = fold <$> cs) then Some q else None) = Some name ∧
    fold name = fold n ∧ has (m_backend m) []) ↔ fold <$> take (S (length cs)) ps = fold <$> (cs ++ [n]) ∧ has (m_backend m) []) as Hdeep.
  { rewrite Hts. case_bool_decide; naive_solver. }
  rewrite Hdeep. destruct (decide (length ps = S (length cs))) as [El|Nl].
  + assert (below ps (cs ++ [n]) ↔ fold <$> take (S (length cs)) ps = fold <$> (cs ++ [n])) as Hb.
    { unfold below. rewrite El. rewrite !take_ge by (rewrite ?length_app; cbn; lia). by split. }
    destruct (at_mount_spec m ps _ Hp Hcn) as [[B' E']|[B' E']]; rewrite E'.
    * rewrite drop_ge by (rewrite length_app; cbn; lia). split.
      -- intros [(x & [=] & _)|[_ H]]. left. eexists. split; [done|]. exact H.
      -- intros [(x & [= <-] & H)|(ps' & Hp' & Hlt & _)]; [|apply Hps in Hp' as ->; lia]. right. split; [by apply Hb|exact H].
    * split; [intros [(x & [=] & _)|[H _]]; by apply Hb in H|].
      intros [(x & [=] & _)|(ps' & Hp' & Hlt & _)]. apply Hps in Hp' as ->. lia.
  + destruct (at_mount_spec m ps _ Hp Hcn) as [[B' E']|[B' E']].
    { exfalso. unfold below in B'. apply (f_equal length) in B'. rewrite !length_fmap, length_take, length_app in B'. cbn in B'. lia. }
    rewrite E'. split.
    * intros [(x & [=] & _)|[H1 H2]]. right. exists ps. split_and!; try done. lia.
    * intros [(x & [=] & _)|(ps' & Hp' & Hlt & H1 & H2)]. apply Hps in Hp' as ->. by right.
Qed.

Context (rej : W → gmap str Z) (set_rej : gmap str Z → W → W).
Local Abbreviation graph := (mount_graph rej set_rej mounts).

Definition lists (g : MountGraph W) (cs : list str) (n : str) : Prop :=
∃ es e, p_readdir graph (mkVPath root (join slash cs)) g = (Ok es, g) ∧ e ∈ es ∧ fold (de_name e) = fold n.
Definition finds (g : MountGraph W) (cs : list str) : Prop :=
∃ st, p_getattr graph (mkVPath root (join slash cs)) g = (Ok (Some st), g).

Lemma elem_of_rev_mounts {A} (x : A) l : x ∈ rev l ↔ x ∈ l.
Proof. rewrite !list_elem_of_In. symmetry. apply in_rev. Qed.

Lemma graph_path_ok (g : MountGraph W) cs :
Forall comp_ok cs → graph_path (mkVPath root (join slash cs)) g = (Ok (join slash cs), g).
Proof. intros Hc. unfold graph_path. cbn [vp_rel]. by rewrite normalize_join. Qed.

Lemma finds_iff (g : MountGraph W) cs :
g_state g = s → Forall comp_ok cs → cs ≠ [] →
finds g cs ↔ ∃ m, m ∈ mounts ∧ ∃ x, at_mount (join slash cs) m = Some x ∧ has_at x.
Proof using Hmounts.
intros Hg Hc Hne. unfold finds. cbn [mount_graph p_getattr]. unfold graph_getattr, mbind, PM_bind.
rewrite (graph_path_ok g cs Hc). destruct (first_stat_spec (matching mounts (join slash cs)) g Hg) as (o & E & Ho).
{ unfold matching. rewrite Forall_forall. intros x (m & Hm%(proj1 (elem_of_rev_mounts _ _)) & Em)%list_elem_of_omap.
  pose proof (matching_good cs Hc) as HG. rewrite Forall_forall in HG. apply HG, list_elem_of_omap. eauto. }
cbn [vp_root]. rewrite E. rewrite (bool_decide_false (join slash cs = [])) by (rewrite join_comp_nil; done). cbn [andb].
trans (is_Some o).
{ destruct o as [st|]; cbn; split; intros [st' H]; first [done|by eexists]. }
rewrite Ho. unfold matching. setoid_rewrite list_elem_of_omap. split.
- intros (x & (m & Hm%(proj1 (elem_of_rev_mounts _ _)) & Em) & Hx). eauto.
- intros (m & Hm & x & Em & Hx). exists x. split; [|done]. exists m. split; [by apply elem_of_rev_mounts|done].
Qed.

Lemma lists_iff (g : MountGraph W) cs n :
g_state g = s → Forall comp_ok cs →
lists g cs n ↔ ∃ m, m ∈ mounts ∧
  ((∃ x, at_mount (join slash cs) m = Some x ∧ key_at (fold n) x) ∨ deeper_at (join slash cs) (fold n) m).
Proof using Hmounts.
intros Hg Hc. unfold lists. cbn [mount_graph p_readdir]. unfold graph_readdir, mbind, PM_bind.
rewrite (graph_path_ok g cs Hc). cbn [vp_root].
destruct (list_mounts_spec (omap (at_mount (join slash cs)) mounts) ∅ false false g Hg (matching_good cs Hc))
  as (map1 & saw & nd & E1 & Hm1 & Hs). rewrite E1.
destruct (list_deeper_spec (join slash cs) mounts map1 false g Hg) as (map2 & der & E2 & Hm2 & _ & Hd).
{ eapply Forall_impl; [exact Hmounts|]. by intros m [_ Hl]. }
rewrite E2.
assert (∀ k, is_Some (map2 !! k) ↔ ∃ m, m ∈ mounts ∧
  ((∃ x, at_mount (join slash cs) m = Some x ∧ key_at k x) ∨ deeper_at (join slash cs) k m)) as Hmap.
{ intros k. rewrite Hm2, Hm1, lookup_empty. setoid_rewrite list_elem_of_omap. split.
  - intros [[[? [=]]|(x & (m & Hm & Em) & Hk)]|(m & Hm & Hk)]; exists m; (split; [done|]); [left; eauto|by right].
  - intros (m & Hm & [(x & Em & Hk)|Hk]); [left; right|right]; eauto 10. }
rewrite <- Hmap. destruct (negb saw && negb der) eqn:En.
- apply andb_true_iff in En as [Es%negb_true_iff Ed%negb_true_iff]. subst saw der.
  rewrite (Hd eq_refl). split.
  + intros (es & e & H & He & _). destruct nd; [done|]. destruct (_ && _); [|done]. injection H as <-. by apply elem_of_nil in He.
  + rewrite Hm1, lookup_empty. intros [[? [=]]|(x & Hx & es & e & Er & _)]. exfalso.
    assert (false = true) by (apply Hs; right; exists x; split; [done|by exists es]). done.
- assert (keyed map2) as Hkey.
  { change map2 with ((map2, der, g).1.1). rewrite <- E2. apply list_deeper_keyed. by eapply list_mounts_keyed, E1. }
  split.
  + intros (es & e & [= <-] & He & Hk). apply sorted_elem in He as [k Ek]. rewrite <- Hk, (Hkey _ _ Ek). by eexists.
  + intros [e Ee]. exists (sorted_by_folded_name map2), e. split; [done|]. split; [apply sorted_elem; eauto|].
    exact (Hkey _ _ Ee).
Qed.

(** Property: what a directory of the graph lists and what can be looked up in it
  agree: a name is listed exactly if its path is found, or if it is a
  component of the prefix of a mount that lies deeper still and whose own
  root is there. Those last names are the only ones listed that cannot be
  looked up. *)
Theorem graph_listing (g : MountGraph W) cs n :
g_state g = s → Forall comp_ok cs → comp_ok n →
lists g cs n ↔ finds g (cs ++ [n]) ∨ deep_mount cs n.
Proof using Hmounts.
intros Hg Hc Hn. rewrite lists_iff by done. rewrite finds_iff; [|done| |by destruct cs].
2:{ apply Forall_app. split; [done|by apply Forall_singleton]. }
unfold deep_mount. split.
- intros (m & Hm & H). apply (mount_sees m cs n Hm Hc Hn) in H as [(x & Ex & Hx)|(ps & H1 & H2 & H3 & H4)]; [left; eauto|].
  right. by exists m, ps.
- intros [(m & Hm & H)|(m & ps & Hm & H)]; exists m; (split; [done|]); apply (mount_sees m cs n Hm Hc Hn); [by left|right; eauto].
Qed.
End listing.

(** ** Who opens a path *)

Section routing.
Context {CT : CaseTable} {W : Type} (rej : W → gmap str Z) (set_rej : gmap str Z → W → W).
Context (mounts : list (Mount W)).

Definition writes (flags : Z) : bool := negb (Z.land flags OPEN_WRITE =? 0).

(** A mount that does not have the path: read-only and asked to write, it does
  not find it; otherwise it does not open it. *)
Definition passes (root flags : Z) (s : W) (x : Provider W * str) : Prop :=
if writes flags && negb (mount_writable x.1) then p_getattr x.1 (mkVPath root x.2) s = (Ok None, s)
else p_open x.1 (mkVPath root x.2) flags s = (Err ST_NOT_FOUND, s).

Lemma open_first_skip root path flags l k (g : MountGraph W) :
Forall (passes root flags (g_state g)) l →
open_first rej set_rej root path flags (l ++ k) g = open_first rej set_rej root path flags k g.
Proof.
induction 1 as [|[b rel] l Hp Hl IH]; [done|]. cbn [app open_first]. unfold passes, writes in Hp. cbn [fst snd] in Hp.
destruct (_ && _); rewrite (on_world_same (g_state g) _ g _ eq_refl Hp); exact IH.
Qed.

Lemma matching_split path l1 m l2 rel :
mounts = l1 ++ m :: l2 → mount_strip path (m_prefix m) = Some rel →
matching mounts path = omap (at_mount path) (rev l2) ++ (m_backend m, rel) :: omap (at_mount path) (rev l1).
Proof.
intros -> E. unfold matching. rewrite rev_app_distr. cbn [rev]. rewrite <- app_assoc, !omap_app. cbn [app omap list_omap].
unfold at_mount at 2. by rewrite E.
Qed.

(** C33: the last-registered mount that has a path decides about it. With
  the mounts registered after it out of the way, a read-only mount that holds
  the path (or cannot say) refuses a write, which is recorded and reaches no
  mount registered before it; any other mount's own open is the answer, and
  the handle given out leads back to that mount with its handle. *)
Theorem graph_open_decided p flags path l1 m l2 rel (g : MountGraph W) :
mounts = l1 ++ m :: l2 → normalize (vp_rel p) = Ok path → mount_strip path (m_prefix m) = Some rel →
Forall (passes (vp_root p) flags (g_state g)) (omap (at_mount path) (rev l2)) →
let P := mount_graph rej set_rej mounts in
let here := mkVPath (vp_root p) rel in
if writes flags && negb (mount_writable (m_backend m)) then
  ∀ r, p_getattr (m_backend m) here (g_state g) = (r, g_state g) → r ≠ Ok None →
    p_open P p flags g = (Err ST_READ_ONLY, refuse_write rej set_rej path g)
else
  ∀ bh size dir s', p_open (m_backend m) here flags (g_state g) = (Ok (bh, size, dir), s') →
    h_poisoned (g_opens g) = false →
    ∃ h g', p_open P p flags g = (Ok (h, size, dir), g') ∧ g_state g' = s' ∧
      ∀ off buf, p_read_at P h off buf g' = on_world (p_read_at (m_backend m) bh off buf) g'.
Proof.
intros Hm Hn Hs Hp P here.
assert (p_open P p flags g = open_first rej set_rej (vp_root p) path flags
  ((m_backend m, rel) :: omap (at_mount path) (rev l1)) g) as E.
{ cbn [P mount_graph p_open]. unfold graph_open, mbind, PM_bind, graph_path. rewrite Hn.
  rewrite (matching_split path l1 m l2 rel Hm Hs). by apply open_first_skip. }
rewrite E. cbn [open_first]. unfold writes. destruct (_ && _).
- intros r Er Hr. fold here. rewrite (on_world_same (g_state g) _ g r eq_refl Er). destruct r as [[st|]|e]; done.
- intros bh size dir s' Eo Hpo. unfold on_world at 1, zoom at 1. fold here. rewrite Eo.
  unfold mbind, PM_bind, on_handles, zoom, table_insert, fresh. cbn [g_opens h_poisoned]. rewrite Hpo.
  eexists _, _. split; [reflexivity|]. split; [done|]. intros off buf. cbn [P mount_graph p_read_at].
  unfold graph_read_at, graph_lookup, on_handles, zoom, table_get, table_with. cbn [g_opens with_map h_poisoned h_map h_next].
  rewrite lookup_insert_eq. unfold with_map. cbn [h_next h_map h_poisoned g_state]. by rewrite insert_insert_eq.
Qed.
End routing.
