(* ===== verification/StubDirs.v ===== *)
(** StubDirs: a read-only tree of empty directories, the folder chain to
    somewhere else (rust/crates/vfs-compose/src/stub_dirs.rs), that it shows
    the chains it was made of, and a mount graph over two of them. *)

From S2P Require Import Prelude Text Path Provider Compose Listing ComposePath MountProps.

(** [path.push('/')] unless empty, then [path.push_str(c)]. *)
Definition push_dir (at_ c : str) : str := if bool_decide (at_ = []) then c else at_ ++ slash :: c.

Section stub.
Context {CT : CaseTable}.

Fixpoint stub_chain (at_ : str) (cs : list str) (dirs : gmap str str) : gmap str str :=
match cs with
| [] => dirs
| c :: cs =>
    let at_ := push_dir at_ c in
    stub_chain at_ cs (match dirs !! fold at_ with Some _ => dirs | None => <[fold at_ := at_]> dirs end)
end.

(** [StubDirsProvider::new]: the directories; the table of handles is the state. *)
Definition stub_dirs_new (paths : list str) : gmap str str :=
foldl (λ dirs p, stub_chain [] (slash_pieces (trim_rel p)) dirs) {[ [] := [] ]} paths.

Context (dirs : gmap str str).
Local Abbreviation T := (HandleTable unit).

Definition known (p : VPath) : option str := dirs !! fold (trim_rel (vp_rel p)).
Definition stub_DIR : Stat := mkStat KIND_DIR 0 0.
(** [s.rsplit('/').next().unwrap_or(s)]. *)
Definition last_part (s : str) : str := default s (last (split_on is_slash s)).

Definition stub_entry (prefix : str) (kd : str * str) : option DirEntry :=
rest ← strip_prefix prefix kd.1;
if negb (bool_decide (rest = [])) && negb (existsb is_slash rest) then Some (mkDirEntry (last_part kd.2) stub_DIR) else None.

Definition stub_readdir (p : VPath) : PM T (list DirEntry) :=
match known p with
| None => pm_err ST_NOT_FOUND
| Some dir =>
    let prefix := if bool_decide (dir = []) then [] else fold dir ++ [slash] in
    mret (omap (stub_entry prefix) (bt_iter dirs))
end.

Definition stub_open (p : VPath) (flags : Z) : PM T (Handle * Z * bool) :=
match known p with
| None => pm_err ST_NOT_FOUND
| Some _ =>
    if negb (Z.land flags OPEN_WRITE =? 0) then pm_err ST_READ_ONLY else
    h ← table_insert (); mret (h, 0, true)
end.

Definition stub_caps : Capabilities := mkCaps Read true false None Insensitive.

Definition stub_dirs : Provider T := {|
p_capabilities := stub_caps;
p_getattr := λ p, mret ((λ _, stub_DIR) <$> known p);
p_readdir := stub_readdir;
p_open := stub_open;
p_close := λ h, _ ← table_remove h; mret ();
p_read_at := λ _ _ buf t, ((Err ST_IS_DIR, buf), t);
p_read_next := λ _ buf, no_read buf;
p_write_at := λ _ _ _, not_supported;
p_set_len := λ _ _, not_supported;
p_flush := λ _, not_supported;
p_mkdir := λ p, pm_err (match known p with Some _ => ST_EXISTS | None => ST_READ_ONLY end);
p_remove := λ _, pm_err ST_READ_ONLY;
p_rename := λ _ _, pm_err ST_READ_ONLY;
p_set_attr := λ _ _, not_supported;
p_stored_name := λ p, mret (last_part <$> (d ← known p; if bool_decide (d = []) then None else Some d));
p_is_immutable := λ _ _, immutable stub_caps |}.
End stub.

(** ** The chains *)

Definition part (c : str) : Prop := c ≠ [] ∧ no_char is_sep c.

Section chains.
Context {CT : CaseTable}.

Lemma part_fold cs : Forall part cs → Forall part (fold <$> cs).
Proof.
intros H. apply Forall_fmap. eapply Forall_impl; [exact H|]. intros c [Hne Hs]. split; cbn.
- intros E. by apply fold_nil_inv in E.
- apply Forall_forall. intros x Hx. pose proof (proj1 (Forall_forall _ _) Hs) as Hs'. unfold is_sep. apply orb_false_iff.
  split; apply Z.eqb_neq; intros ->.
  + apply (proj1 (fold_elem_fixed _ c fixed_slash)) in Hx. by specialize (Hs' _ Hx).
  + apply (proj1 (fold_elem_fixed _ c fixed_backslash)) in Hx. by specialize (Hs' _ Hx).
Qed.

(** A key is the folded components, joined. *)
Definition dir_key (cs : list str) : str := join slash (fold <$> cs).
Lemma dir_key_fold cs : fold (join slash cs) = dir_key cs.
Proof. apply fold_join, fixed_slash. Qed.
Lemma join_part_inj xs ys : Forall part xs → Forall part ys → join slash xs = join slash ys → xs = ys.
Proof. intros Hx Hy E. by rewrite <- (pieces_join xs), <- (pieces_join ys), E. Qed.
Lemma dir_key_inj xs ys : Forall part xs → Forall part ys → dir_key xs = dir_key ys ↔ fold <$> xs = fold <$> ys.
Proof.
intros Hx Hy. unfold dir_key. split; [|by intros ->]. apply join_part_inj; by apply part_fold.
Qed.

Lemma push_dir_join cs c : Forall part cs → push_dir (join slash cs) c = join slash (cs ++ [c]).
Proof.
intros H. unfold push_dir. case_bool_decide as E.
- apply join_nil_inv in E; [by subst|]. eapply Forall_impl; [exact H|]. by intros x [? _].
- symmetry. apply join_snoc. by intros ->.
Qed.

(** Every directory is kept under its fold. *)
Definition dirs_ok (dirs : gmap str str) : Prop :=
dirs !! [] = Some [] ∧ map_Forall (λ k d, ∃ cs, Forall part cs ∧ d = join slash cs ∧ k = dir_key cs) dirs.

Lemma stub_chain_spec dn cs dirs :
Forall part dn → Forall part cs → dirs_ok dirs →
dirs_ok (stub_chain (join slash dn) cs dirs) ∧
∀ xs, Forall part xs →
  is_Some (stub_chain (join slash dn) cs dirs !! dir_key xs) ↔
  is_Some (dirs !! dir_key xs) ∨ ∃ i, (0 < i ≤ length cs)%nat ∧ fold <$> xs = fold <$> (dn ++ take i cs).
Proof.
intros Hd Hc. revert dn dirs Hd. induction Hc as [|c cs Hcc Hc IH]; intros dn dirs Hd Hok; cbn [stub_chain].
- split; [done|]. intros xs Hx. split; [by left|]. intros [H|(i & Hi & _)]; [done|]. cbn in Hi. lia.
- rewrite push_dir_join by done.
  assert (Forall part (dn ++ [c])) as Hdc by (apply Forall_app; split; [done|by apply Forall_singleton]).
  set (dirs' := match dirs !! fold _ with Some _ => dirs | None => _ end).
  assert (dirs_ok dirs' ∧ ∀ xs, Forall part xs →
    is_Some (dirs' !! dir_key xs) ↔ is_Some (dirs !! dir_key xs) ∨ fold <$> xs = fold <$> (dn ++ [c])) as [Hok' Hdom].
  { unfold dirs'. rewrite dir_key_fold. destruct (dirs !! dir_key (dn ++ [c])) as [d|] eqn:E.
    - split; [done|]. intros xs Hx. split; [by left|]. intros [H|H%(dir_key_inj xs _ Hx Hdc)]; [done|]. rewrite H. by eexists.
    - split.
      + destruct Hok as [H1 H2]. split.
        * rewrite lookup_insert_ne; [done|]. intros E'. rewrite E' in E. congruence.
        * apply map_Forall_insert_2; [by exists (dn ++ [c])|done].
      + intros xs Hx. rewrite lookup_insert_is_Some', (dir_key_inj _ _ Hdc Hx). naive_solver. }
  destruct (IH (dn ++ [c]) dirs' Hdc Hok') as [H1 H2]. split; [done|]. intros xs Hx. rewrite H2, Hdom by done.
  setoid_rewrite <- (assoc app). cbn [app length]. split.
  + intros [[H|H]|(i & Hi & H)]; [by left|right; exists 1%nat; split; [lia|done]|right; exists (S i); split; [lia|done]].
  + intros [H|(i & Hi & H)]; [by left; left|]. destruct i as [|[|i]]; [lia| |].
    * by left; right.
    * right. exists (S i). split; [lia|done].
Qed.

Lemma stub_dirs_new_spec paths :
dirs_ok (stub_dirs_new paths) ∧
∀ xs, Forall part xs →
  is_Some (stub_dirs_new paths !! dir_key xs) ↔ xs = [] ∨ ∃ p, p ∈ paths ∧ (fold <$> xs) `prefix_of` (fold <$> pieces p).
Proof.
unfold stub_dirs_new. induction paths as [|p paths [IH1 IH2]] using rev_ind; cbn [foldl].
- split.
  + split; [by rewrite lookup_singleton_eq|]. apply map_Forall_singleton. by exists [].
  + intros xs Hx. rewrite lookup_singleton_is_Some. change [] with (dir_key []) at 1. rewrite dir_key_inj by done.
    split; [left; by destruct xs|]. intros [->|(p & Hp & _)]; [done|]. by apply elem_of_nil in Hp.
- rewrite foldl_app. cbn [foldl]. rewrite slash_pieces_trim_rel. set (d := foldl _ _ paths) in *.
  destruct (stub_chain_spec [] (pieces p) d (Forall_nil_2 _) (pieces_ok p) IH1) as [H1 H2]. split; [done|].
  intros xs Hx. rewrite H2, IH2 by done. cbn [app]. setoid_rewrite elem_of_app. setoid_rewrite list_elem_of_singleton. split.
  + intros [[->|(q & Hq & Hpre)]|(i & Hi & E)]; [by left|right; eauto|right]. exists p. split; [by right|].
    rewrite E, fmap_take. exists (drop i (fold <$> pieces p)). by rewrite take_drop.
  + intros [->|(q & [Hq| ->] & Hpre)]; [by left; left|left; right; eauto|].
    destruct (decide (xs = [])) as [->|Hne]; [by left; left|]. right. exists (length xs).
    assert (length xs ≤ length (pieces p))%nat by (apply prefix_length in Hpre; by rewrite !length_fmap in Hpre).
    split; [destruct xs; [done|cbn in *; lia]|]. destruct Hpre as [l E]. rewrite fmap_take, E, take_app_length'; [done|].
    by rewrite length_fmap.
Qed.

(** ** What the provider shows *)

Lemma last_part_snoc cs c : Forall part (cs ++ [c]) → last_part (join slash (cs ++ [c])) = c.
Proof.
intros H. unfold last_part. rewrite (split_join is_slash slash) ; [by rewrite last_snoc|done|by destruct cs|].
eapply Forall_impl; [exact H|]. intros x [_ Hx]. by apply no_sep_no_slash.
Qed.

Lemma comp_part cs : Forall comp_ok cs → Forall part cs.
Proof. exact (comp_ok_piece cs). Qed.

Lemma trim_rel_join cs : Forall comp_ok cs → trim_rel (join slash cs) = join slash cs.
Proof.
intros H. unfold trim_rel.
assert (∀ c, Forall (λ x, x ≠ backslash) c → (λ x, if x =? backslash then slash else x) <$> c = c) as Hid.
{ induction 1 as [|x c Hx Hc IH]; [done|]. rewrite fmap_cons, IH. by rewrite (proj2 (Z.eqb_neq x backslash)). }
rewrite Hid; [by apply trim_canonical|]. clear Hid.
assert (∀ c, comp_ok c → Forall (λ x, x ≠ backslash) c) as Hc.
{ intros c (_ & _ & _ & Hs). eapply Forall_impl; [exact Hs|]. cbn. intros x Hx ->. done. }
induction H as [|c cs Hcc H IH]; [done|]. destruct (decide (cs = [])) as [->|Hne]; [by apply Hc|].
rewrite join_cons by done. apply Forall_app. split; [by apply Hc|]. by constructor.
Qed.

Lemma known_join dirs root cs : Forall comp_ok cs → known dirs (mkVPath root (join slash cs)) = dirs !! dir_key cs.
Proof. intros H. unfold known. cbn [vp_rel]. rewrite trim_rel_join by done. by rewrite dir_key_fold. Qed.

Lemma dir_key_snoc cs c : cs ≠ [] → dir_key (cs ++ [c]) = dir_key cs ++ slash :: fold c.
Proof. intros H. unfold dir_key. rewrite fmap_app. apply join_snoc. by destruct cs. Qed.

Lemma part_slash c : part c → slash ∉ fold c.
Proof. intros [_ H] Hx%(proj1 (fold_elem_fixed _ c fixed_slash)). by apply (proj1 (Forall_forall _ _) H) in Hx. Qed.

Definition below_key (cs : list str) : str := if bool_decide (cs = []) then [] else dir_key cs ++ [slash].

(** A key directly below a directory is the directory's with one more component. *)
Lemma below_key_spec cs xs c rest :
Forall part cs → Forall part (xs ++ [c]) → slash ∉ rest →
dir_key (xs ++ [c]) = below_key cs ++ rest → dir_key xs = dir_key cs ∧ rest = fold c.
Proof.
intros Hc Hx Hr E. apply Forall_app in Hx as [Hx Hcc%Forall_inv]. apply part_slash in Hcc as Hs.
unfold below_key in E. destruct (decide (xs = [])) as [->|Hxs].
- change (dir_key ([] ++ [c])) with (fold c) in E. case_bool_decide as Ec; [by subst|].
  destruct Hs. rewrite E. apply elem_of_app. left. apply elem_of_app. right. by left.
- rewrite dir_key_snoc in E by done. case_bool_decide as Ec.
  + destruct Hr. cbn in E. rewrite <- E. apply elem_of_app. right. by left.
  + assert (rsplit_once slash (dir_key xs ++ slash :: fold c) = Some (dir_key xs, fold c)) as E1 by (by apply rsplit_once_Some).
    assert (rsplit_once slash (dir_key xs ++ slash :: fold c) = Some (dir_key cs, rest)) as E2.
    { apply rsplit_once_Some. split; [|done]. by rewrite E, <- app_assoc. }
    rewrite E1 in E2. by injection E2.
Qed.

Lemma below_key_snoc cs c : dir_key (cs ++ [c]) = below_key cs ++ fold c.
Proof.
unfold below_key. case_bool_decide as E; [by subst|]. rewrite dir_key_snoc by done. by rewrite <- app_assoc.
Qed.

Lemma no_slashb rest : existsb is_slash rest = false ↔ slash ∉ rest.
Proof.
rewrite <- not_true_iff_false, existsb_exists. split.
- intros H Hx. apply H. exists slash. split; [by apply list_elem_of_In|done].
- intros H (x & Hx & E). unfold is_slash in E. apply Z.eqb_eq in E as ->. by apply H, list_elem_of_In.
Qed.

Lemma stub_prefix cs ds :
Forall part cs → Forall part ds → dir_key cs = dir_key ds →
(if bool_decide (join slash ds = []) then [] else fold (join slash ds) ++ [slash]) = below_key cs.
Proof.
intros Hc Hd Ek. apply dir_key_inj in Ek as Ef; [|done|done]. rewrite dir_key_fold, <- Ek. unfold below_key.
case_bool_decide as E1; case_bool_decide as E2; try done; exfalso.
- apply E2. apply join_nil_inv in E1; [|eapply Forall_impl; [exact Hd|]; by intros x [? _]]. subst ds. by destruct cs.
- apply E1. subst cs. by destruct ds.
Qed.

(** The entries of a directory are the keys directly below it. *)
Lemma stub_listed dirs cs n :
dirs_ok dirs → Forall part (cs ++ [n]) →
(∃ e, e ∈ omap (stub_entry (below_key cs)) (bt_iter dirs) ∧ fold (de_name e) = fold n) ↔ is_Some (dirs !! dir_key (cs ++ [n])).
Proof.
intros [_ Hok] Hcn. apply Forall_app in Hcn as Hcn'. destruct Hcn' as [Hc Hn%Forall_inv]. split.
- intros (e & ([k d] & Hk%bt_iter_elem & He)%list_elem_of_omap & Hf). unfold stub_entry in He. cbn [fst snd] in He.
  apply bind_Some in He as (rest & Hrest%strip_prefix_Some & He). destruct (_ && _) eqn:Eb; [|done]. injection He as <-.
  apply andb_true_iff in Eb as [Hne%negb_true_iff%bool_decide_eq_false Hsl%negb_true_iff%no_slashb].
  destruct (Hok _ _ Hk) as (xs & Hxs & -> & Ekx). destruct xs as [|c xs _] using rev_ind.
  { rewrite Ekx in Hrest. destruct (below_key cs), rest; done. }
  cbn [de_name] in Hf. rewrite last_part_snoc in Hf by done.
  destruct (below_key_spec cs xs c rest Hc Hxs Hsl) as [E1 E2]; [congruence|].
  rewrite below_key_snoc, <- Hf, <- E2, <- Hrest. by eexists.
- intros [d Hd]. destruct (Hok _ _ Hd) as (xs & Hxs & -> & Ekx). apply dir_key_inj in Ekx as Ef; [|done|done].
  destruct xs as [|c xs _] using rev_ind; [by destruct cs|].
  rewrite !fmap_app in Ef. apply app_inj_2 in Ef as [_ Ef]; [|done]. injection Ef as Ef.
  exists (mkDirEntry c stub_DIR). split; [|done]. apply list_elem_of_omap. exists (dir_key (cs ++ [n]), join slash (xs ++ [c])).
  split; [by apply bt_iter_elem|]. unfold stub_entry. cbn [fst snd]. rewrite below_key_snoc, strip_prefix_app.
  cbn [mbind option_bind]. rewrite last_part_snoc by done.
  rewrite bool_decide_false by (intros E; destruct Hn as [Hnn _]; by apply fold_nil_inv in E).
  by rewrite (proj2 (no_slashb _) (part_slash n Hn)).
Qed.

Lemma stub_has dirs root (t : HandleTable unit) cs :
Forall comp_ok cs → has root t (stub_dirs dirs) cs ↔ is_Some (dirs !! dir_key cs).
Proof.
intros Hc. unfold has. cbn [stub_dirs p_getattr]. rewrite known_join by done.
destruct (dirs !! dir_key cs); split; intros [x H]; first [done|by eexists].
Qed.

(** Every directory lists exactly the names that are found in it. *)
Lemma stub_listable paths root (t : HandleTable unit) : Listable root t (stub_dirs (stub_dirs_new paths)).
Proof.
destruct (stub_dirs_new_spec paths) as [Hok Hdom]. set (dirs := stub_dirs_new paths) in *.
assert (∀ cs n, Forall comp_ok cs → comp_ok n → Forall comp_ok (cs ++ [n])) as Hsnoc.
{ intros cs n Hc Hn. apply Forall_app. split; [done|by apply Forall_singleton]. }
constructor; intros cs Hc; [by eexists|]. cbn [stub_dirs p_readdir]. unfold stub_readdir. rewrite known_join by done.
apply comp_part in Hc as Hcp. destruct (dirs !! dir_key cs) as [d|] eqn:Ed.
- eexists. split; [reflexivity|]. cbn. destruct (proj2 Hok _ _ Ed) as (ds & Hds & -> & Ek).
  rewrite (stub_prefix cs ds) by done. intros n Hn. rewrite stub_has by auto. apply stub_listed; [done|]. by apply comp_part, Hsnoc.
- exists (Err ST_NOT_FOUND). split; [done|]. split; [by left|]. intros n Hn. rewrite stub_has by auto.
  rewrite (Hdom _ (comp_part _ (Hsnoc cs n Hc Hn))). intros [E|(p & Hp & Hpre)]; [by destruct cs|].
  assert (is_Some (dirs !! dir_key cs)) as [x Hx]; [|congruence]. apply (Hdom _ Hcp). right. exists p. split; [done|].
  rewrite fmap_app in Hpre. by eapply prefix_app_l.
Qed.

(** Property: a tree of stub directories shows exactly the chains it was made of:
  in any spelling, a path is found if and only if it is an ancestor of one of
  the paths given (or one of them), and every directory lists exactly the
  names that are found in it. *)
Theorem stub_dirs_show_chains paths root (t : HandleTable unit) :
let P := stub_dirs (stub_dirs_new paths) in
Listable root t P ∧
∀ cs, Forall comp_ok cs →
  has root t P cs ↔ cs = [] ∨ ∃ p, p ∈ paths ∧ (fold <$> cs) `prefix_of` (fold <$> pieces p).
Proof.
intros P. split; [apply stub_listable|]. intros cs Hc. unfold P. rewrite stub_has by done. by apply stub_dirs_new_spec, comp_part.
Qed.
End chains.

(** ** A mount graph over stub directories *)

Module MountDemo.
#[local] Existing Instance demo_table.
Local Abbreviation T := (HandleTable unit).

Definition game : Provider T := stub_dirs (stub_dirs_new [lit "Data/Meshes"]).
Definition mod_dirs : Provider T := stub_dirs (stub_dirs_new [lit "Textures"]).
(** Two mods: one in a directory that is there, one in a directory that is not. *)
Definition mounts : list (Mount T) :=
  [mkMount [] game; mkMount (lit "data/SomeMod") mod_dirs; mkMount (lit "extra/tools") mod_dirs].
Definition graph : Provider (MountGraph T) := mount_graph (λ _, ∅) (λ _ s, s) mounts.
Definition start : MountGraph T := mkGraph table_new table_new.

Lemma mounts_ok : Forall (λ m, (∃ ps, prefix_of m ps) ∧ Listable 0 table_new (m_backend m)) mounts.
Proof.
  assert (∀ paths, Listable 0 (table_new : T) (stub_dirs (stub_dirs_new paths))) as Hl
    by (intros paths; apply stub_listable).
  repeat constructor; try apply Hl.
  - by exists [].
  - exists [lit "data"; lit "SomeMod"]. split; [done|]. by apply comps_okb.
  - exists [lit "extra"; lit "tools"]. split; [done|]. by apply comps_okb.
Qed.
End MountDemo.
Import MountDemo.
#[local] Existing Instance demo_table.

(** The mod shows up in the listing of [DATA], and is found there. *)
Lemma graph_listing_witness : lists 0 mounts (λ _, ∅) (λ _ s, s) start [lit "DATA"] (lit "somemod").
Proof.
  apply (graph_listing 0 table_new mounts mounts_ok (λ _, ∅) (λ _ s, s) start [lit "DATA"] (lit "somemod")).
  - reflexivity.
  - by apply comps_okb.
  - by apply Forall_inv with (l := []), comps_okb.
  - left. by eexists.
Defined.

Lemma graph_open_decided_witness :
  p_open graph (mkVPath 0 (lit "Data/SOMEMOD/textures")) OPEN_WRITE start = (Err ST_READ_ONLY, start).
Proof.
  refine (graph_open_decided (λ _, ∅) (λ _ s, s) mounts (mkVPath 0 (lit "Data/SOMEMOD/textures")) OPEN_WRITE
    (lit "Data/SOMEMOD/textures") [mkMount [] game] (mkMount (lit "data/SomeMod") mod_dirs)
    [mkMount (lit "extra/tools") mod_dirs] (lit "textures") start eq_refl eq_refl eq_refl _ (Ok (Some stub_DIR)) eq_refl _).
  - constructor.
  - discriminate.
Defined.

(** The listing of the root shows the directory above a deep mount, but a look
    at it and an open of it find nothing. *)
Example graph_deep_mount_unreachable :
  (de_name <$> match (p_readdir graph (mkVPath 0 []) start).1 with Ok es => es | Err _ => [] end) = [lit "Data"; lit "extra"] ∧
  (p_getattr graph (mkVPath 0 (lit "extra")) start).1 = Ok None ∧
  (p_open graph (mkVPath 0 (lit "extra")) OPEN_READ start).1 = Err ST_NOT_FOUND.
Proof. repeat split; vm_compute; reflexivity. Qed.
