(* ===== verification/Memory.v ===== *)
(** Memory: the in-memory read-write provider
    (rust/crates/vfs-compose/src/memory.rs).

    The four fields of [MemoryProvider] are [Memory]; a method takes its locks
    together and so is one step on it. The locks are never poisoned: no method
    panics while it holds one as long as [offset + len] stays in a [usize],
    which the theorems on writing assume. Where the source iterates a
    [HashMap] the model uses one fixed order. *)

From S2P Require Import Prelude Text Path Provider Compose.

(** ** Model *)

Record Memory := mkMemory {
  m_files : gmap str bytes;
  m_dirs : gset str;
  m_opens : HandleTable str;
  m_by_fold : gmap str str }.

Definition dir_stat : Stat := mkStat KIND_DIR 0 0.
Definition file_stat (b : bytes) : Stat := mkStat KIND_FILE (len b) 0.

Definition mem_child_prefix (path : str) : str :=
  if bool_decide (path = []) then [] else path ++ [slash].

(** The text before the first slash: [rel.split('/').next().unwrap_or("")]. *)
Definition first_piece (rel : str) : str := default [] (head (split_on is_slash rel)).

Definition direct_child (path prefix key : str) : option (str * bool) :=
  rel ← (if bool_decide (path = []) then Some key else strip_prefix prefix key);
  let name := first_piece rel in
  if bool_decide (name = []) then None else Some (name, str_len name =? str_len rel).

Section memory.
Context {CT : CaseTable}.

(** [files.keys().any(p)], [dirs.iter().any(p)]. *)
Definition any_file (p : str → bool) (files : gmap str bytes) : bool := existsb p (map_to_list files).*1.
Definition any_dir (p : str → bool) (dirs : gset str) : bool := existsb p (elements dirs).

Definition stat_of (files : gmap str bytes) (dirs : gset str) (path : str) : option Stat :=
if bool_decide (path = []) then Some dir_stat else
match files !! path with
| Some b => Some (file_stat b)
| None =>
    if bool_decide (path ∈ dirs) then Some dir_stat else
    let prefix := path ++ [slash] in
    if any_file (starts_with prefix) files || any_dir (starts_with prefix) dirs
    then Some dir_stat else None
end.

(** The smallest name of a child of [prefix] that folds to [folded_part]. *)
Definition better (prefix folded_part : str) (best : option str) (k : str) : option str :=
match strip_prefix prefix k with
| None => best
| Some rest =>
    let name := first_piece rest in
    if bool_decide (name = []) || negb (str_eqb (fold name) folded_part) then best else
    match best with
    | Some prev => if str_leb prev name then Some prev else Some name
    | None => Some name
    end
end.

Definition best_child (files : gmap str bytes) (dirs : gset str) (prefix part : str) : option str :=
foldl (better prefix (fold part)) None ((map_to_list files).*1 ++ elements dirs).

Fixpoint canonical_loop (files : gmap str bytes) (dirs : gset str) (parts : list str) (cur : str) : str :=
match parts with
| [] => cur
| part :: parts =>
    let prefix := mem_child_prefix cur in
    let exact := prefix ++ part in
    if bool_decide (is_Some (stat_of files dirs exact)) then canonical_loop files dirs parts exact else
    match best_child files dirs prefix part with
    | Some name => canonical_loop files dirs parts (prefix ++ name)
    | None => foldl (λ cur rest, cur ++ slash :: rest) exact parts
    end
end.

Definition canonical_in (files : gmap str bytes) (dirs : gset str) (by_fold : gmap str str) (path : str) : str :=
if bool_decide (path = []) then [] else
if bool_decide (is_Some (files !! path)) || bool_decide (path ∈ dirs) then path else
match by_fold !! fold path with
| Some hit => hit
| None => canonical_loop files dirs (filter (λ p, p ≠ []) (split_on is_slash path)) []
end.

Definition index_insert (by_fold : gmap str str) (key : str) : gmap str str := <[fold key := key]> by_fold.
Definition index_remove (by_fold : gmap str str) (key : str) : gmap str str := delete (fold key) by_fold.
Definition reindex (by_fold : gmap str str) (old new : str) : gmap str str :=
<[fold new := new]> (delete (fold old) by_fold).

(** [from_files]: a later entry of a name replaces an earlier one. *)
Definition mem_add (s : Memory) (e : str * bytes) : Memory :=
let key := trim_rel e.1 in
mkMemory (<[key := e.2]> (m_files s)) (m_dirs s) (m_opens s) (<[fold key := key]> (m_by_fold s)).
Definition from_files (entries : list (str * bytes)) : Memory :=
foldl mem_add (mkMemory ∅ ∅ table_new ∅) entries.

Definition mem_resolve (s : Memory) (path : str) : str :=
canonical_in (m_files s) (m_dirs s) (m_by_fold s) path.

Definition mem_caps : Capabilities := mkCaps ReadWrite false false None Insensitive.

Definition mem_getattr (p : VPath) : PM Memory (option Stat) := λ s,
(Ok (stat_of (m_files s) (m_dirs s) (mem_resolve s (trim_rel (vp_rel p)))), s).

(** [names.entry(name).or_insert(st)]. *)
Definition or_insert (names : gmap str Stat) (name : str) (st : Stat) : gmap str Stat :=
match names !! name with Some _ => names | None => <[name := st]> names end.

Definition list_file (path prefix : str) (names : gmap str Stat) (e : str * bytes) : gmap str Stat :=
match direct_child path prefix e.1 with
| None => names
| Some (name, is_leaf) => or_insert names name (if is_leaf : bool then file_stat e.2 else dir_stat)
end.
Definition list_dir (path prefix : str) (names : gmap str Stat) (d : str) : gmap str Stat :=
match direct_child path prefix d with
| None => names
| Some (name, _) => or_insert names name dir_stat
end.

Definition mem_names (files : gmap str bytes) (dirs : gset str) (path : str) : gmap str Stat :=
let prefix := mem_child_prefix path in
foldl (list_dir path prefix) (foldl (list_file path prefix) ∅ (map_to_list files)) (elements dirs).

Definition mem_readdir (p : VPath) : PM Memory (list DirEntry) := λ s,
let path := mem_resolve s (trim_rel (vp_rel p)) in
match stat_of (m_files s) (m_dirs s) path with
| None => (Err ST_NOT_FOUND, s)
| Some st =>
    if negb (st_kind st =? KIND_DIR) then (Err ST_NOT_A_DIRECTORY, s) else
    (Ok ((λ e, mkDirEntry e.1 e.2) <$> map_to_list (mem_names (m_files s) (m_dirs s) path)), s)
end.

Definition mem_on_opens {R} : (HandleTable str → R * HandleTable str) → Memory → R * Memory :=
zoom m_opens (λ o s, mkMemory (m_files s) (m_dirs s) o (m_by_fold s)).

(** The part of [open] under the locks: the path opened and the file's size. *)
Definition mem_open_path (p : VPath) (flags : Z) : PM Memory (str * Z) := λ s,
let path := mem_resolve s (trim_rel (vp_rel p)) in
let exists_ := bool_decide (is_Some (m_files s !! path)) in
if negb (Z.land flags OPEN_EXCL =? 0) && exists_ then (Err ST_BAD_REQUEST, s) else
if (Z.land flags OPEN_CREATE =? 0) && negb exists_ then (Err ST_NOT_FOUND, s) else
let s :=
  if negb (Z.land flags OPEN_CREATE =? 0) && negb exists_
  then mkMemory (<[path := []]> (m_files s)) (m_dirs s) (m_opens s) (index_insert (m_by_fold s) path)
  else s in
let s :=
  if negb (Z.land flags OPEN_TRUNC =? 0)
  then mkMemory (<[path := []]> (m_files s)) (m_dirs s) (m_opens s) (m_by_fold s)
  else s in
(Ok (path, match m_files s !! path with Some b => len b | None => 0 end), s).

Definition mem_open (p : VPath) (flags : Z) : PM Memory (Handle * Z * bool) :=
r ← mem_open_path p flags;
h ← (mem_on_opens (table_insert r.1) : PM Memory Handle);
mret (h, r.2, false).

Definition mem_close (h : Handle) : PM Memory unit :=
_ ← (mem_on_opens (table_remove h) : PM Memory str); mret ().

(** What [read_at] copies into the buffer. *)
Definition read_into (body : bytes) (offset : Z) (buf : bytes) : Z * bytes :=
let start := Z.min offset (len body) in
let n := Z.min (len body - start) (len buf) in
(n, take (Z.to_nat n) (drop (Z.to_nat start) body) ++ drop (Z.to_nat n) buf).

Definition mem_read_at (h : Handle) (offset : Z) (buf : bytes) (s : Memory) : (result Z Z * bytes) * Memory :=
match mem_on_opens (table_get h) s with
| (Err e, s) => ((Err e, buf), s)
| (Ok path, s) =>
    match m_files s !! path with
    | None => ((Err ST_BAD_FH, buf), s)
    | Some body => let '(n, buf) := read_into body offset buf in ((Ok n, buf), s)
    end
end.

(** [body.resize(n, 0)]. *)
Definition resize_bytes (n : Z) (body : bytes) : bytes :=
take (Z.to_nat n) body ++ replicate (Z.to_nat n - length body) 0.

(** Grow to [offset + buf.len()] if shorter, then copy [buf] in. *)
Definition write_bytes (body : bytes) (offset : Z) (buf : bytes) : bytes :=
let end_ := offset + len buf in
let body := if len body <? end_ then resize_bytes end_ body else body in
take (Z.to_nat offset) body ++ buf ++ drop (Z.to_nat end_) body.

(** Update the body of an open file; a file removed since it was opened is
  made again. *)
Definition mem_update (path : str) (f : bytes → bytes) (s : Memory) : Memory :=
match m_files s !! path with
| Some body => mkMemory (<[path := f body]> (m_files s)) (m_dirs s) (m_opens s) (m_by_fold s)
| None => mkMemory (<[path := f []]> (m_files s)) (m_dirs s) (m_opens s) (index_insert (m_by_fold s) path)
end.

Definition mem_write_at (h : Handle) (offset : Z) (buf : bytes) : PM Memory Z :=
path ← (mem_on_opens (table_get h) : PM Memory str);
pm_modify (mem_update path (λ body, write_bytes body offset buf)) (len buf).

Definition mem_set_len (h : Handle) (n : Z) : PM Memory unit :=
path ← (mem_on_opens (table_get h) : PM Memory str);
pm_modify (mem_update path (resize_bytes n)) ().

Definition mem_mkdir (p : VPath) : PM Memory unit := λ s,
let path := mem_resolve s (trim_rel (vp_rel p)) in
if bool_decide (path ∈ m_dirs s) then (Ok (), s) else
(Ok (), mkMemory (m_files s) ({[path]} ∪ m_dirs s) (m_opens s) (index_insert (m_by_fold s) path)).

Definition mem_remove (p : VPath) : PM Memory unit := λ s,
let path := mem_resolve s (trim_rel (vp_rel p)) in
match m_files s !! path with
| Some _ => (Ok (), mkMemory (delete path (m_files s)) (m_dirs s) (m_opens s) (index_remove (m_by_fold s) path))
| None =>
    let prefix := mem_child_prefix path in
    if any_file (starts_with prefix) (m_files s) || any_dir (starts_with prefix) (m_dirs s)
    then (Err ST_IS_DIR, s) else
    if bool_decide (path ∈ m_dirs s)
    then (Ok (), mkMemory (m_files s) (m_dirs s ∖ {[path]}) (m_opens s) (index_remove (m_by_fold s) path))
    else (Err ST_NOT_FOUND, s)
end.

(** The file case of [rename], once the destination is known to be free. *)
Definition rename_file (from_c base : str) (body : bytes) (s : Memory) : Memory :=
mkMemory (<[base := body]> (delete from_c (m_files s))) (m_dirs s) (m_opens s)
  (reindex (m_by_fold s) from_c base).

(** The rewritten key of an entry of a moved directory. *)
Definition rewrite_key (from_prefix to_prefix base old : str) : str :=
match strip_prefix from_prefix old with Some rest => to_prefix ++ rest | None => base end.

Definition move_file (rw : str → str) (s : Memory) (old : str) : Memory :=
let body := default [] (m_files s !! old) in
mkMemory (<[rw old := body]> (delete old (m_files s))) (m_dirs s) (m_opens s)
  (reindex (m_by_fold s) old (rw old)).
Definition move_dir (rw : str → str) (s : Memory) (old : str) : Memory :=
mkMemory (m_files s) ({[rw old]} ∪ (m_dirs s ∖ {[old]})) (m_opens s)
  (reindex (m_by_fold s) old (rw old)).

Definition mem_rename (from to : VPath) : PM Memory unit := λ s,
if negb (vp_root from =? vp_root to) then (Err ST_BAD_REQUEST, s) else
let from_p := trim_rel (vp_rel from) in
let to_p := trim_rel (vp_rel to) in
if str_eqb from_p to_p then (Ok (), s) else
let from_c := mem_resolve s from_p in
let to_c := mem_resolve s to_p in
let to_stat := stat_of (m_files s) (m_dirs s) to_c in
let to_exists := bool_decide (is_Some to_stat) in
let base := if to_exists then to_p else to_c in
match m_files s !! from_c with
| Some body =>
    if to_exists && negb (str_eqb to_c from_c) then
      if match to_stat with Some st => st_kind st =? KIND_DIR | None => false end
      then (Err ST_EXISTS, s)
      else (Ok (), rename_file from_c base body
              (mkMemory (delete to_c (m_files s)) (m_dirs s) (m_opens s) (index_remove (m_by_fold s) to_c)))
    else (Ok (), rename_file from_c base body s)
| None =>
    let from_prefix := mem_child_prefix from_c in
    let moving := filter (λ k, starts_with from_prefix k = true) (map_to_list (m_files s)).*1 in
    let moving_dirs := filter (λ d, d = from_c ∨ starts_with from_prefix d = true) (elements (m_dirs s)) in
    if bool_decide (moving = []) && bool_decide (moving_dirs = []) then (Err ST_NOT_FOUND, s) else
    if starts_with (fold from_prefix) (fold to_p) then (Err ST_BAD_REQUEST, s) else
    if to_exists && negb (str_eqb to_c from_c) then (Err ST_EXISTS, s) else
    let rw := rewrite_key from_prefix (mem_child_prefix base) base in
    (Ok (), foldl (move_dir rw) (foldl (move_file rw) s moving) moving_dirs)
end.

Definition memory : Provider Memory := {|
p_capabilities := mem_caps;
p_getattr := mem_getattr;
p_readdir := mem_readdir;
p_open := mem_open;
p_close := mem_close;
p_read_at := mem_read_at;
p_read_next := λ _ buf, no_read buf;
p_write_at := mem_write_at;
p_set_len := mem_set_len;
p_flush := λ _, mret ();
p_mkdir := mem_mkdir;
p_remove := mem_remove;
p_rename := mem_rename;
p_set_attr := λ _ _, mret ();
p_stored_name := λ _, not_supported;
p_is_immutable := λ _ _, false |}.
End memory.
