(* ===== verification/MemoryProps.v ===== *)
(** MemoryProps: what the in-memory provider guarantees: its case index is
    never stale, a write is read back and touches nothing else, a new file is
    found under every spelling, and renaming a directory moves all it holds. *)

From S2P Require Import Prelude Text Path Provider Compose Memory.

Section index.
Context {CT : CaseTable}.

(** ** The case index *)

Definition mem_stored (s : Memory) (k : str) : Prop := is_Some (m_files s !! k) ∨ k ∈ m_dirs s.

(** Every entry of the index names a live entry, under its own fold. *)
Definition IndexOk (s : Memory) : Prop :=
∀ f k, m_by_fold s !! f = Some k → fold k = f ∧ mem_stored s k.

(** Keys not stored any more were removed from the index under their fold. *)
Lemma IndexOk_step s s' idx old :
IndexOk s → m_by_fold s' = idx →
(∀ f k, idx !! f = Some k → (fold k = f ∧ mem_stored s' k) ∨ (f ≠ fold old ∧ m_by_fold s !! f = Some k)) →
(∀ k, k ≠ old → mem_stored s k → mem_stored s' k) → IndexOk s'.
Proof.
intros HI <- Hidx Hkeep f k Hf. destruct (Hidx f k Hf) as [?|[Hne Hk]]; [done|].
destruct (HI f k Hk) as [Ek Hs]. split; [done|]. apply Hkeep; [|done]. intros ->. congruence.
Qed.

Lemma IndexOk_more s s' key :
IndexOk s → m_by_fold s' = index_insert (m_by_fold s) key → mem_stored s' key →
(∀ k, mem_stored s k → mem_stored s' k) → IndexOk s'.
Proof.
intros HI E Hk Hmore f k Hf. rewrite E in Hf. unfold index_insert in Hf.
apply lookup_insert_Some in Hf as [[<- <-]|[_ Hf]]; [done|]. destruct (HI f k Hf). auto.
Qed.

Lemma IndexOk_same s s' :
IndexOk s → m_by_fold s' = m_by_fold s → (∀ k, mem_stored s k → mem_stored s' k) → IndexOk s'.
Proof. intros HI E Hm f k Hf. rewrite E in Hf. destruct (HI f k Hf). auto. Qed.

Lemma IndexOk_removed s s' old :
IndexOk s → m_by_fold s' = index_remove (m_by_fold s) old →
(∀ k, k ≠ old → mem_stored s k → mem_stored s' k) → IndexOk s'.
Proof.
intros HI E Hkeep. apply (IndexOk_step s s' _ old HI E); [|done]. unfold index_remove.
intros f k [? ?]%lookup_delete_Some. right. auto.
Qed.

Lemma IndexOk_moved s s' old new :
IndexOk s → m_by_fold s' = reindex (m_by_fold s) old new → mem_stored s' new →
(∀ k, k ≠ old → mem_stored s k → mem_stored s' k) → IndexOk s'.
Proof.
intros HI E Hn Hkeep. apply (IndexOk_step s s' _ old HI E); [|done]. unfold reindex.
intros f k [[<- <-]|[_ [? ?]%lookup_delete_Some]]%lookup_insert_Some; [by left|right; auto].
Qed.

Lemma stored_insert s files' dirs' k key b :
files' = <[key := b]> (m_files s) → m_dirs s ⊆ dirs' → mem_stored s k →
is_Some (files' !! k) ∨ k ∈ dirs'.
Proof. intros -> Hd [H|H]; [left; auto with vfs|right; set_solver]. Qed.

Lemma mem_update_IndexOk path f s : IndexOk s → IndexOk (mem_update path f s).
Proof.
intros HI. unfold mem_update. destruct (m_files s !! path) as [b|] eqn:E.
- apply (IndexOk_same s); [done|done|]. intros k Hk. by eapply stored_insert.
- apply (IndexOk_more s _ path); [done|done| |].
  + left. cbn. rewrite lookup_insert_eq. by eexists.
  + intros k Hk. by eapply stored_insert.
Qed.

Lemma mem_on_opens_frame {R} (m : HandleTable str → R * HandleTable str) s :
let s' := (mem_on_opens m s).2 in
m_files s' = m_files s ∧ m_dirs s' = m_dirs s ∧ m_by_fold s' = m_by_fold s.
Proof. unfold mem_on_opens, zoom. by destruct (m (m_opens s)). Qed.

Lemma mem_on_opens_IndexOk {R} (m : HandleTable str → R * HandleTable str) s :
IndexOk s → IndexOk (mem_on_opens m s).2.
Proof.
intros HI. destruct (mem_on_opens_frame m s) as (E1 & E2 & E3). apply (IndexOk_same s); [done|done|].
intros k. unfold mem_stored. by rewrite E1, E2.
Qed.

Lemma mem_open_path_IndexOk p flags s : IndexOk s → IndexOk (mem_open_path p flags s).2.
Proof.
intros HI. unfold mem_open_path. case_match; [done|]. case_match; [done|].
match goal with |- IndexOk (snd (_, ?s2)) => change (IndexOk s2) end.
set (path := mem_resolve s (trim_rel (vp_rel p))).
assert (IndexOk (if negb (Z.land flags OPEN_CREATE =? 0) && negb (bool_decide (is_Some (m_files s !! path)))
  then mkMemory (<[path := []]> (m_files s)) (m_dirs s) (m_opens s) (index_insert (m_by_fold s) path) else s)) as H1.
{ case_match; [|done]. apply (IndexOk_more s _ path); [done|done|left; cbn; rewrite lookup_insert_eq; by eexists|].
  intros k Hk. by eapply stored_insert. }
revert H1. generalize (if negb (Z.land flags OPEN_CREATE =? 0) && negb (bool_decide (is_Some (m_files s !! path)))
  then mkMemory (<[path := []]> (m_files s)) (m_dirs s) (m_opens s) (index_insert (m_by_fold s) path) else s).
intros s1 H1. case_match; [|done]. apply (IndexOk_same s1); [done|done|]. intros k Hk. by eapply stored_insert.
Qed.

Lemma mem_remove_IndexOk p s : IndexOk s → IndexOk (mem_remove p s).2.
Proof.
intros HI. unfold mem_remove. set (path := mem_resolve _ _). destruct (m_files s !! path) eqn:E.
- apply (IndexOk_removed s _ path); [done|done|]. intros k Hk [H|H]; [left|by right]. cbn.
  by rewrite lookup_delete_ne.
- case_match; [done|]. case_bool_decide; [|done]. apply (IndexOk_removed s _ path); [done|done|].
  intros k Hk [H'|H']; [by left|right; cbn; set_solver].
Qed.

Lemma rename_file_IndexOk from base body s : IndexOk s → IndexOk (rename_file from base body s).
Proof.
intros HI. apply (IndexOk_moved s _ from base); [done|done|left; cbn; rewrite lookup_insert_eq; by eexists|].
intros k Hk [H|H]; [left|by right]. cbn. apply insert_is_Some_mono. by rewrite lookup_delete_ne.
Qed.

Lemma move_file_IndexOk rw s old : IndexOk s → IndexOk (move_file rw s old).
Proof. apply rename_file_IndexOk. Qed.

Lemma move_dir_IndexOk rw s old : IndexOk s → IndexOk (move_dir rw s old).
Proof.
intros HI. apply (IndexOk_moved s _ old (rw old)); [done|done|right; cbn; set_solver|].
intros k Hk [H|H]; [by left|right; cbn; set_solver].
Qed.

Lemma foldl_keeps {A B} (P : A → Prop) (f : A → B → A) l a :
(∀ a b, P a → P (f a b)) → P a → P (foldl f a l).
Proof. intros Hf. revert a. induction l as [|b l IH]; intros a Ha; [done|]. apply IH, Hf, Ha. Qed.

Lemma mem_rename_IndexOk from to s : IndexOk s → IndexOk (mem_rename from to s).2.
Proof.
intros HI. unfold mem_rename. case_match; [done|]. case_match; [done|].
set (from_c := mem_resolve s (trim_rel (vp_rel from))). set (to_c := mem_resolve s (trim_rel (vp_rel to))).
destruct (m_files s !! from_c) as [body|].
- destruct (_ && _).
  + case_match; [done|]. apply rename_file_IndexOk. apply (IndexOk_removed s _ to_c); [done|done|].
    intros k Hk [H'|H']; [left|by right]. cbn. by rewrite lookup_delete_ne.
  + by apply rename_file_IndexOk.
- case_match; [done|]. case_match; [done|]. case_match; [done|]. cbn [snd].
  apply foldl_keeps; [intros; by apply move_dir_IndexOk|].
  apply foldl_keeps; [intros; by apply move_file_IndexOk|done].
Qed.

Lemma PM_bind_state {S A B} (I : S → Prop) (m : PM S A) (f : A → PM S B) s :
I (m s).2 → (∀ a s, I s → I (f a s).2) → I ((m ≫= f) s).2.
Proof. unfold mbind, PM_bind. destruct (m s) as [[a|e] s']; cbn; auto. Qed.

Lemma mem_op_IndexOk o s : IndexOk s → IndexOk (op_state memory o s).
Proof.
intros HI. destruct o; cbn [op_state memory p_getattr p_readdir p_stored_name p_open p_close p_read_at
  p_read_next p_write_at p_set_len p_flush p_mkdir p_remove p_rename p_set_attr]; try done.
- unfold mem_readdir. repeat case_match; done.
- unfold mem_open. apply PM_bind_state; [by apply mem_open_path_IndexOk|]. intros a s' H'.
  apply PM_bind_state; [by apply mem_on_opens_IndexOk|done].
- unfold mem_close. apply PM_bind_state; [by apply mem_on_opens_IndexOk|done].
- unfold mem_read_at. pose proof (mem_on_opens_IndexOk (table_get h) s HI) as H'.
  destruct (mem_on_opens (table_get h) s) as [[path|e] s']; [|done]. destruct (m_files s' !! path); [|done].
  by destruct (read_into _ _ _).
- unfold mem_write_at. apply PM_bind_state; [by apply mem_on_opens_IndexOk|]. intros a s' H'.
  by apply mem_update_IndexOk.
- unfold mem_set_len. apply PM_bind_state; [by apply mem_on_opens_IndexOk|]. intros a s' H'.
  by apply mem_update_IndexOk.
- unfold mem_mkdir. case_bool_decide; [done|]. eapply (IndexOk_more s); [done|done|right; cbn; set_solver|].
  intros k [H'|H']; [by left|right; cbn; set_solver].
- by apply mem_remove_IndexOk.
- by apply mem_rename_IndexOk.
Qed.

Lemma from_files_IndexOk es : IndexOk (from_files es).
Proof.
unfold from_files. apply foldl_keeps.
- intros s [p b] HI. apply (IndexOk_more s _ (trim_rel p)); [done|done|left; cbn; rewrite lookup_insert_eq; by eexists|].
  intros k Hk. by eapply stored_insert.
- intros f k H. cbn in H. by rewrite lookup_empty in H.
Qed.

Lemma mem_ops_IndexOk os s : IndexOk s → IndexOk (ops_state memory os s).
Proof. intros HI. unfold ops_state. apply foldl_keeps; [|done]. intros s' o. apply mem_op_IndexOk. Qed.

(** Property: the case index is never stale: after any calls on a provider
  made from any files, every spelling it holds is that of a file or
  directory that exists, filed under the fold of its name. *)
Theorem memory_index_sound (entries : list (str * bytes)) (os : list op) f k :
m_by_fold (ops_state memory os (from_files entries)) !! f = Some k →
fold k = f ∧ mem_stored (ops_state memory os (from_files entries)) k.
Proof.
exact (mem_ops_IndexOk os _ (from_files_IndexOk entries) f k).
Qed.
End index.

(** ** Content *)

(** The byte of a file at a position; past its end there are zeros. *)
Definition byte_at (b : bytes) (i : Z) : Z := if i <? 0 then 0 else default 0 (b !! Z.to_nat i).

Lemma byte_at_out b i : len b ≤ i → byte_at b i = 0.
Proof.
  intros H. unfold byte_at. destruct (i <? 0) eqn:E; [done|].
  rewrite lookup_ge_None_2; [done|]. unfold len in H. lia.
Qed.

Lemma byte_at_app a b i : byte_at (a ++ b) i = if i <? len a then byte_at a i else byte_at b (i - len a).
Proof.
  unfold byte_at, len. destruct (Z.ltb_spec i 0), (Z.ltb_spec i (Z.of_nat (length a))),
    (Z.ltb_spec (i - Z.of_nat (length a)) 0); try lia; try done.
  - rewrite lookup_app_l by lia. done.
  - rewrite lookup_app_r by lia. do 2 f_equal. lia.
Qed.

Lemma byte_at_zeros n i : byte_at (replicate n 0) i = 0.
Proof.
  unfold byte_at. destruct (i <? 0); [done|]. destruct (replicate n 0 !! Z.to_nat i) eqn:E; [|done].
  by apply lookup_replicate in E as [-> _].
Qed.

Lemma byte_at_take n b i : 0 ≤ n → byte_at (take (Z.to_nat n) b) i = if i <? n then byte_at b i else 0.
Proof.
  intros Hn. unfold byte_at. destruct (Z.ltb_spec i 0), (Z.ltb_spec i n); try lia; try done.
  - rewrite lookup_take_lt by lia. done.
  - rewrite lookup_take_ge by lia. done.
Qed.

Lemma byte_at_drop n b i : 0 ≤ n → 0 ≤ i → byte_at (drop (Z.to_nat n) b) i = byte_at b (n + i).
Proof.
  intros Hn Hi. unfold byte_at. destruct (Z.ltb_spec i 0), (Z.ltb_spec (n + i) 0); try lia.
  rewrite lookup_drop. do 2 f_equal. lia.
Qed.

Lemma bytes_ext a b : len a = len b → (∀ i, 0 ≤ i < len a → byte_at a i = byte_at b i) → a = b.
Proof.
  intros Hl H. apply list_eq. intros i. unfold len in *. destruct (decide (i < length a)%nat) as [Hi|Hi].
  - specialize (H (Z.of_nat i) ltac:(lia)). unfold byte_at in H. rewrite Nat2Z.id in H.
    destruct (Z.ltb_spec (Z.of_nat i) 0); [lia|].
    destruct (lookup_lt_is_Some_2 a i Hi) as [x Hx]. destruct (lookup_lt_is_Some_2 b i ltac:(lia)) as [y Hy].
    rewrite Hx, Hy in *. cbn in H. congruence.
  - rewrite !lookup_ge_None_2 by lia. done.
Qed.

Lemma len_resize n b : 0 ≤ n → len (resize_bytes n b) = n.
Proof. intros H. unfold resize_bytes, len. rewrite length_app, length_take, length_replicate. lia. Qed.

Lemma byte_at_resize n b i : 0 ≤ n → byte_at (resize_bytes n b) i = if i <? n then byte_at b i else 0.
Proof.
  intros Hn. unfold resize_bytes. rewrite byte_at_app, byte_at_take, byte_at_zeros by done.
  unfold len. rewrite length_take. destruct (Z.ltb_spec i n), (Z.ltb_spec i (Z.of_nat (Z.to_nat n `min` length b)));
    try done; try lia. rewrite byte_at_out; [done|]. unfold len. lia.
Qed.

(** A write replaces its range and nothing else, growing the file with zeros. *)
Lemma write_bytes_spec body off buf :
  0 ≤ off →
  len (write_bytes body off buf) = Z.max (len body) (off + len buf) ∧
  ∀ i, byte_at (write_bytes body off buf) i =
    if (off <=? i) && (i <? off + len buf) then byte_at buf (i - off) else byte_at body i.
Proof.
  intros Ho. pose proof (len_nonneg buf). unfold write_bytes.
  set (body' := if len body <? off + len buf then resize_bytes (off + len buf) body else body).
  assert (len body' = Z.max (len body) (off + len buf)) as Hl.
  { unfold body'. destruct (Z.ltb_spec (len body) (off + len buf)); [rewrite len_resize|]; lia. }
  assert (∀ i, byte_at body' i = byte_at body i) as Hb.
  { intros i. unfold body'. destruct (Z.ltb_spec (len body) (off + len buf)); [|done].
    rewrite byte_at_resize by lia. destruct (Z.ltb_spec i (off + len buf)); [done|].
    rewrite byte_at_out by lia. done. }
  assert (len (take (Z.to_nat off) body') = off) as Ht by (unfold len in *; rewrite length_take; lia).
  split.
  - rewrite !len_app, Ht. unfold len at 2. rewrite length_drop. unfold len in *. lia.
  - intros i. rewrite !byte_at_app, Ht, byte_at_take by done. rewrite !Hb.
    destruct (Z.leb_spec off i), (Z.ltb_spec i off), (Z.ltb_spec i (off + len buf)), (Z.ltb_spec (i - off) (len buf));
      cbn [andb]; try lia; try done.
    rewrite byte_at_drop by lia. rewrite Hb. f_equal. lia.
Qed.

(** A read copies what there is from the offset on and leaves the rest of the
    buffer alone. *)
Lemma read_into_spec body off buf n buf' :
  0 ≤ off → read_into body off buf = (n, buf') →
  n = Z.max 0 (Z.min (len body - off) (len buf)) ∧ len buf' = len buf ∧
  ∀ i, 0 ≤ i → byte_at buf' i = if i <? n then byte_at body (off + i) else byte_at buf i.
Proof.
  intros Ho [= <- <-]. pose proof (len_nonneg buf). pose proof (len_nonneg body).
  set (start := Z.min off (len body)). set (m := Z.min (len body - start) (len buf)).
  assert (m = Z.max 0 (Z.min (len body - off) (len buf))) as Hm by lia.
  assert (len (take (Z.to_nat m) (drop (Z.to_nat start) body)) = m) as Ht
    by (unfold len in *; rewrite length_take, length_drop; lia).
  split; [done|]. split.
  - rewrite len_app, Ht. unfold len at 1. rewrite length_drop. unfold len in *. lia.
  - intros i Hi. rewrite byte_at_app, Ht, byte_at_take by lia. destruct (Z.ltb_spec i m).
    + rewrite byte_at_drop by lia. destruct (Z.min_spec off (len body)) as [[? E]|[? E]]; [by unfold start; rewrite E|].
      rewrite !byte_at_out by lia. done.
    + rewrite byte_at_drop by lia. f_equal. lia.
Qed.

Section content.
Context {CT : CaseTable}.

(** The content behind an open handle. *)
Definition file_of (s : Memory) (h : Handle) : option bytes :=
path ← h_map (m_opens s) !! h; m_files s !! path.

Lemma table_get_ok {T} (t : HandleTable T) h v :
h_poisoned t = false → h_map t !! h = Some v → table_get h t = (Ok v, t).
Proof.
intros Hp Hv. unfold table_get, table_with. rewrite Hp, Hv. unfold with_map. rewrite insert_id by done.
by destruct t.
Qed.

Lemma mem_get s h path :
h_poisoned (m_opens s) = false → h_map (m_opens s) !! h = Some path →
mem_on_opens (table_get h) s = (Ok path, s).
Proof. intros Hp Hh. unfold mem_on_opens, zoom. rewrite (table_get_ok _ _ _ Hp Hh). by destruct s. Qed.

Lemma mem_read_ok s h off buf body :
h_poisoned (m_opens s) = false → file_of s h = Some body →
mem_read_at h off buf s = ((Ok (read_into body off buf).1, (read_into body off buf).2), s).
Proof.
intros Hp (path & Hh & Hf)%bind_Some. unfold mem_read_at. rewrite (mem_get s h path Hp Hh), Hf.
by destruct (read_into body off buf).
Qed.

Lemma mem_write_ok s h off buf body :
h_poisoned (m_opens s) = false → file_of s h = Some body →
∃ s', mem_write_at h off buf s = (Ok (len buf), s') ∧ m_opens s' = m_opens s ∧
  file_of s' h = Some (write_bytes body off buf) ∧
  ∀ h', h_map (m_opens s) !! h' ≠ h_map (m_opens s) !! h → file_of s' h' = file_of s h'.
Proof.
intros Hp (path & Hh & Hf)%bind_Some. unfold mem_write_at, mbind, PM_bind. rewrite (mem_get s h path Hp Hh).
unfold pm_modify, mem_update. rewrite Hf. eexists. split; [done|]. split; [done|].
unfold file_of. cbn. rewrite Hh. cbn. split; [apply lookup_insert_eq|]. intros h' Hne.
destruct (h_map (m_opens s) !! h') as [path'|]; [|done]. cbn. apply lookup_insert_ne. congruence.
Qed.

End content.

(** ** Resolution of spellings *)

Section resolve.
Context {CT : CaseTable}.

(** A relative path without empty components. *)
Definition piece_ok (c : str) : Prop := c ≠ [] ∧ no_char is_slash c.
Definition clean (path : str) : Prop := ∃ cs, path = join slash cs ∧ Forall piece_ok cs.

Definition path_step (cur part : str) : str := mem_child_prefix cur ++ part.

Lemma fold_step cur part : fold (path_step cur part) = path_step (fold cur) (fold part).
Proof.
unfold path_step, mem_child_prefix. rewrite fold_app. destruct cur as [|c cur].
{ rewrite fold_nil. by rewrite !bool_decide_true. }
rewrite !bool_decide_false; [|by intros ?%fold_nil_inv|done].
rewrite fold_app, (fold_cons slash), lower_fixed by auto with vfs. done.
Qed.

Lemma path_steps_join c cs : c ≠ [] → foldl path_step c cs = join slash (c :: cs).
Proof.
revert c. induction cs as [|d cs IH]; intros c Hc; [done|]. cbn [foldl].
rewrite join_cons by done. rewrite IH.
- unfold path_step, mem_child_prefix. rewrite bool_decide_false by done. destruct cs as [|e cs].
  + cbn. by rewrite <- app_assoc.
  + rewrite !join_cons by done. by rewrite <- !app_assoc.
- unfold path_step, mem_child_prefix. rewrite bool_decide_false by done. by destruct c.
Qed.

Lemma better_spec prefix fp best k name :
better prefix fp best k = Some name → best = Some name ∨
  (fold name = fp ∧ name ≠ [] ∧ ∃ rest, k = prefix ++ rest ∧ name = first_piece rest).
Proof.
unfold better. destruct (strip_prefix prefix k) as [rest|] eqn:E; [|by left].
apply strip_prefix_Some in E as ->. case_bool_decide as Hn; [by left|].
destruct (str_eqb_spec (fold (first_piece rest)) fp) as [Hf|]; [|by left]. cbn [orb negb].
destruct best as [prev|]; [destruct (str_leb prev _)|]; intros [= <-]; auto; right; eauto.
Qed.

Lemma best_child_spec files dirs prefix part name :
best_child files dirs prefix part = Some name → fold name = fold part ∧ name ≠ [].
Proof.
unfold best_child. generalize ((map_to_list files).*1 ++ elements dirs). intros l.
assert (∀ best, (∀ n, best = Some n → fold n = fold part ∧ n ≠ []) →
  ∀ n, foldl (better prefix (fold part)) best l = Some n → fold n = fold part ∧ n ≠ []) as H;
  [|by apply (H None)].
induction l as [|k l IH]; intros best Hb n; cbn [foldl]; [apply Hb|].
apply IH. intros m [?|(? & ? & _)]%better_spec; auto.
Qed.

Lemma canonical_loop_fold files dirs parts cur :
Forall (λ p, p ≠ []) parts →
fold (canonical_loop files dirs parts cur) = foldl path_step (fold cur) (fold <$> parts).
Proof.
intros Hp. revert cur. induction Hp as [|part parts Hne Hp IH]; intros cur; [done|].
cbn [canonical_loop fmap list_fmap foldl]. change (mem_child_prefix cur ++ part) with (path_step cur part).
case_bool_decide; [by rewrite IH, fold_step|].
destruct (best_child files dirs (mem_child_prefix cur) part) as [name|] eqn:Eb.
- apply best_child_spec in Eb as [Ef _].
  change (mem_child_prefix cur ++ name) with (path_step cur name). by rewrite IH, fold_step, Ef.
- rewrite <- fold_step. assert (path_step cur part ≠ []) as Hn
    by (unfold path_step; intros [_ ?]%app_nil; done).
  generalize dependent (path_step cur part). clear -Hp. intros c _ Hc. revert c Hc.
  induction Hp as [|q parts Hq Hp IH]; intros c Hc; [done|]. cbn [foldl fmap list_fmap].
  rewrite IH by (by destruct c). rewrite <- fold_step. unfold path_step, mem_child_prefix.
  rewrite bool_decide_false by done. by rewrite <- app_assoc.
Qed.

Lemma clean_parts cs : cs ≠ [] → Forall piece_ok cs →
filter (λ p, p ≠ []) (split_on is_slash (join slash cs)) = cs.
Proof.
intros Hne H. rewrite (split_join is_slash slash) by first [done | eapply Forall_impl; [exact H|]; by intros ? [??]].
clear Hne. induction H as [|c cs [Hc _] H IH]; [done|]. rewrite filter_cons_True by done. by rewrite IH.
Qed.

(** Resolving a path changes its spelling only. *)
Lemma resolve_fold s path : IndexOk s → clean path → fold (mem_resolve s path) = fold path.
Proof.
intros HI (cs & -> & Hcs). unfold mem_resolve, canonical_in. case_bool_decide as Hp; [by rewrite Hp|].
destruct (_ || _); [done|]. destruct (m_by_fold s !! _) as [hit|] eqn:E; [by apply HI in E as [? _]|].
destruct cs as [|c cs]; [done|]. rewrite clean_parts by done.
pose proof Hcs as [[Hc _] _]%Forall_cons.
rewrite canonical_loop_fold by (eapply Forall_impl; [exact Hcs|]; by intros ? [??]).
rewrite fold_join, fmap_cons by auto with vfs. rewrite fold_nil. cbn [foldl].
rewrite <- path_steps_join; [|by intros ?%fold_nil_inv]. unfold path_step at 2, mem_child_prefix.
by rewrite bool_decide_true.
Qed.

(** Property: a file that is created is found under every spelling: once
  [open] has created it where nothing was, [getattr] of any path that differs
  in case only has an answer. *)
Theorem memory_create_visible (s s' : Memory) (p : VPath) (flags : Z) r :
IndexOk s → clean (trim_rel (vp_rel p)) → Z.land flags OPEN_CREATE ≠ 0 →
p_getattr memory p s = (Ok None, s) → p_open memory p flags s = (Ok r, s') →
∀ q, fold (trim_rel (vp_rel q)) = fold (trim_rel (vp_rel p)) →
  ∃ st, p_getattr memory q s' = (Ok (Some st), s').
Proof.
intros HI Hcl Hfl Hno Hop q Hq. cbn [memory p_getattr p_open] in *. unfold mem_getattr in Hno.
injection Hno as Hno. set (c := mem_resolve s (trim_rel (vp_rel p))) in *.
pose proof (resolve_fold s _ HI Hcl) as Hc. fold c in Hc.
assert (m_files s !! c = None) as Hf.
{ unfold stat_of in Hno. case_bool_decide; [done|]. by destruct (m_files s !! c). }
assert (∃ b, m_files s' !! c = Some b ∧ m_by_fold s' !! fold c = Some c ∧ m_dirs s' = m_dirs s) as (b & F1 & F2 & F3).
{ unfold mem_open, mbind, PM_bind, mem_open_path in Hop. fold c in Hop.
  rewrite Hf in Hop. rewrite bool_decide_false in Hop by (by intros [? ?]).
  rewrite andb_false_r in Hop. apply Z.eqb_neq in Hfl. rewrite Hfl in Hop. cbn [negb andb] in Hop.
  unfold mem_on_opens, zoom in Hop. cbn [m_opens] in Hop. unfold index_insert in Hop.
  destruct (Z.land flags OPEN_TRUNC =? 0); cbn [negb m_opens] in Hop;
    (destruct (table_insert _ (m_opens s)) as [[h'|e] t]; [|done]); injection Hop as _ <-;
    eexists; cbn; rewrite ?lookup_insert_eq; done. }
unfold mem_getattr. enough (is_Some (stat_of (m_files s') (m_dirs s') (mem_resolve s' (trim_rel (vp_rel q))))) as [st ->]
  by eauto.
unfold mem_resolve, canonical_in. case_bool_decide as Hn; [by eexists|].
assert (∀ k, mem_stored s' k → is_Some (stat_of (m_files s') (m_dirs s') k)) as Hst.
{ intros k Hk. unfold stat_of. case_bool_decide; [by eexists|]. destruct (m_files s' !! k) eqn:E; [by eexists|].
  destruct Hk as [Hk|Hk]; [rewrite E in Hk; by destruct Hk|]. rewrite bool_decide_true by done. by eexists. }
destruct (bool_decide (is_Some (m_files s' !! _)) || bool_decide (_ ∈ m_dirs s')) eqn:E.
- apply Hst. apply orb_true_iff in E as [E|E]; apply bool_decide_eq_true in E; [by left|by right].
- rewrite Hq, <- Hc, F2. apply Hst. left. by rewrite F1.
Qed.
End resolve.

(** ** Renaming a directory *)

Section rename.
Context {CT : CaseTable}.

(** Of two directories above one file, one is the other or above it. *)
Lemma slash_prefixes (a b x y : str) :
a ++ slash :: x = b ++ slash :: y → a = b ∨ (∃ r, a = b ++ slash :: r) ∨ ∃ r, b = a ++ slash :: r.
Proof.
revert b. induction a as [|c a IH]; intros [|d b] E; cbn [app] in E; [by left| | |].
- injection E as <- E. right. right. by exists b.
- injection E as -> E. right. left. by exists a.
- injection E as -> E. destruct (IH b E) as [->|[[r ->]|[r ->]]]; [by left|right; left; by exists r|right; right; by exists r].
Qed.

Definition file_under (d k : str) : Prop := ∃ rest, k = d ++ slash :: rest.

Lemma file_under_prefix d k : d ≠ [] → starts_with (mem_child_prefix d) k = true ↔ file_under d k.
Proof.
intros Hd. unfold mem_child_prefix, starts_with, file_under. rewrite bool_decide_false by done.
destruct (strip_prefix (d ++ [slash]) k) as [r|] eqn:E.
- apply strip_prefix_Some in E as ->. split; [|done]. intros _. exists r. by rewrite <- app_assoc.
- split; [done|]. intros [r ->]. replace (d ++ slash :: r) with ((d ++ [slash]) ++ r) in E by (by rewrite <- app_assoc).
  by rewrite strip_prefix_app in E.
Qed.

(** Moving files to new keys, none of which is a file already. *)
Lemma move_files_spec rw l s :
NoDup l → (∀ k, k ∈ l → is_Some (m_files s !! k)) →
(∀ k k', k ∈ l → k' ∈ l → rw k = rw k' → k = k') →
(∀ k, k ∈ l → m_files s !! rw k = None) →
let s' := foldl (move_file rw) s l in
(∀ k, k ∈ l → m_files s' !! rw k = m_files s !! k) ∧ (∀ k, k ∈ l → m_files s' !! k = None) ∧
(∀ k, k ∉ l → (∀ j, j ∈ l → k ≠ rw j) → m_files s' !! k = m_files s !! k).
Proof.
intros Hnd. revert s. induction Hnd as [|x l Hx Hnd IH]; intros s Hin Hinj Hfree.
{ split; [by intros k ?%elem_of_nil|]. split; [by intros k ?%elem_of_nil|done]. }
cbn [foldl]. set (s1 := move_file rw s x). destruct (Hin x ltac:(by left)) as [b Hb].
assert (∀ k, m_files s1 !! k = if decide (k = rw x) then Some b else if decide (k = x) then None else m_files s !! k) as H1.
{ intros k. unfold s1, move_file. cbn. rewrite Hb. cbn. destruct (decide (k = rw x)) as [->|Hn]; [apply lookup_insert_eq|].
  rewrite lookup_insert_ne by done. destruct (decide (k = x)) as [->|Hn']; [apply lookup_delete_eq|].
  by rewrite lookup_delete_ne. }
assert (∀ k, k ∈ x :: l → ∀ j, j ∈ x :: l → k ≠ rw j) as Hd.
{ intros k Hk j Hj ->. destruct (Hin _ Hk) as [y Hy]. rewrite (Hfree j Hj) in Hy. done. }
assert (x ≠ rw x) as Hxx by (apply Hd; by left).
destruct (IH s1) as (A & B & C).
- intros k Hk. rewrite H1. rewrite decide_False by (apply Hd; [by right|by left]).
  rewrite decide_False by congruence. apply Hin. by right.
- intros k k' Hk Hk'. apply Hinj; by right.
- intros k Hk. rewrite H1. rewrite decide_False; [|intros E; apply Hinj in E; [congruence|by right|by left]].
  destruct (decide (rw k = x)); [done|]. apply Hfree. by right.
- split; [|split].
  + intros k [->|Hk]%elem_of_cons.
    * rewrite C; [rewrite H1, decide_True by done; congruence| |].
      -- intros Hl. by apply (Hd (rw x) ltac:(by right) x ltac:(by left)).
      -- intros j Hj E. apply Hinj in E; [congruence|by left|by right].
    * rewrite A by done. rewrite H1. rewrite decide_False by (apply Hd; [by right|by left]).
      rewrite decide_False; [done|congruence].
  + intros k [->|Hk]%elem_of_cons; [|by apply B]. rewrite C; [|done|].
    * rewrite H1, decide_False, decide_True by done. done.
    * intros j Hj. apply Hd; [by left|by right].
  + intros k Hk Hj. apply not_elem_of_cons in Hk as [Hkx Hkl]. rewrite C; [|done|].
    * rewrite H1, decide_False, decide_False by (done || apply Hj; by left). done.
    * intros j Hjl. apply Hj. by right.
Qed.

Lemma move_dirs_files rw l s : m_files (foldl (move_dir rw) s l) = m_files s.
Proof. revert s. induction l as [|x l IH]; intros s; [done|]. cbn [foldl]. by rewrite IH. Qed.

Lemma stat_none_under files dirs d k :
stat_of files dirs d = None → is_Some (files !! k) → ¬ file_under d k ∧ k ≠ d.
Proof.
unfold stat_of. case_bool_decide as Hd; [done|]. destruct (files !! d) eqn:Ed; [done|].
case_bool_decide; [done|]. destruct (any_file _ files) eqn:Ea; [done|]. intros _ Hk. split.
- intros Hu. apply (file_under_prefix d k Hd) in Hu. unfold mem_child_prefix in Hu.
  rewrite bool_decide_false in Hu by done. unfold any_file in Ea.
  assert (existsb (starts_with (d ++ [slash])) (map_to_list files).*1 = true) as Hx; [|congruence].
  apply existsb_exists. exists k. split; [|done]. apply list_elem_of_In, list_elem_of_fmap.
  destruct Hk as [b Hb]. exists (k, b). split; [done|]. by apply elem_of_map_to_list.
- intros ->. rewrite Ed in Hk. by destruct Hk.
Qed.

(** Property: renaming a directory to a free name moves every file below it,
  with its content and relative path, leaves nothing behind under the old
  name, and changes no other file. *)
Theorem memory_rename_dir (s s' : Memory) (from to : VPath) (from_c to_c : str) :
IndexOk s → clean (trim_rel (vp_rel to)) →
from_c = mem_resolve s (trim_rel (vp_rel from)) → to_c = mem_resolve s (trim_rel (vp_rel to)) →
from_c ≠ [] → m_files s !! from_c = None → stat_of (m_files s) (m_dirs s) to_c = None →
trim_rel (vp_rel from) ≠ trim_rel (vp_rel to) → p_rename memory from to s = (Ok (), s') →
(∀ rest, m_files s' !! (to_c ++ slash :: rest) = m_files s !! (from_c ++ slash :: rest)) ∧
(∀ rest, m_files s' !! (from_c ++ slash :: rest) = None) ∧
(∀ k, ¬ file_under from_c k → ¬ file_under to_c k → m_files s' !! k = m_files s !! k).
Proof.
intros HI Hcl Ef Et Hne Hnf Hfree Hsp. cbn [memory p_rename]. unfold mem_rename.
rewrite <- Ef, <- Et, Hfree, Hnf. case_match; [done|]. destruct (str_eqb_spec (trim_rel (vp_rel from)) (trim_rel (vp_rel to))); [done|].
case_match; [done|]. case_match eqn:Hnest; [done|]. cbn [bool_decide andb].
rewrite bool_decide_false by (by intros [? ?]). cbn [andb]. intros [= <-]. rewrite move_dirs_files.
set (l := filter (λ k, starts_with (mem_child_prefix from_c) k = true) (map_to_list (m_files s)).*1).
assert (to_c ≠ []) as Htn by (intros ->; done).
assert (∀ k, k ∈ l ↔ file_under from_c k ∧ is_Some (m_files s !! k)) as Hl.
{ intros k. unfold l. rewrite list_elem_of_filter, file_under_prefix by done. split; intros [H1 H2]; split; try done.
  - apply list_elem_of_fmap in H2 as ([k' b] & -> & Hin). apply elem_of_map_to_list in Hin. by eexists.
  - destruct H2 as [b Hb]. apply list_elem_of_fmap. exists (k, b). split; [done|]. by apply elem_of_map_to_list. }
assert (∀ rest, rewrite_key (mem_child_prefix from_c) (mem_child_prefix to_c) to_c (from_c ++ slash :: rest) =
  to_c ++ slash :: rest) as Hrw.
{ intros rest. unfold rewrite_key, mem_child_prefix. rewrite !bool_decide_false by done.
  replace (from_c ++ slash :: rest) with ((from_c ++ [slash]) ++ rest) by (by rewrite <- app_assoc).
  by rewrite strip_prefix_app, <- app_assoc. }
destruct (move_files_spec (rewrite_key (mem_child_prefix from_c) (mem_child_prefix to_c) to_c) l s) as (A & B & C).
- apply NoDup_filter, NoDup_fst_map_to_list.
- by intros k [_ ?]%Hl.
- intros k k' [[r ->] _]%Hl [[r' ->] _]%Hl. rewrite !Hrw. intros E. apply app_inv_head in E. congruence.
- intros k [[r ->] _]%Hl. rewrite Hrw. destruct (m_files s !! (to_c ++ slash :: r)) eqn:E; [|done].
  destruct (stat_none_under _ _ _ _ Hfree (ex_intro _ _ E)) as [Hn _]. destruct Hn. by exists r.
- assert (∀ k, file_under to_c k → ¬ is_Some (m_files s !! k)) as Hto.
  { intros k Hk Hs. by destruct (stat_none_under _ _ _ _ Hfree Hs). }
  split; [|split].
  + intros rest. destruct (m_files s !! (from_c ++ slash :: rest)) eqn:E.
    * rewrite <- Hrw, A; [done|]. apply Hl. split; [by eexists|by eexists].
    * rewrite C; [apply eq_None_not_Some, Hto; by eexists| |].
      -- intros [_ Hs]%Hl. apply (Hto _ ltac:(by eexists) Hs).
      -- intros j [[r ->] Hj]%Hl E'. rewrite Hrw in E'. apply app_inv_head in E'. injection E' as <-.
         rewrite E in Hj. by destruct Hj.
  + intros rest. destruct (decide (from_c ++ slash :: rest ∈ l)) as [Hin|Hin]; [by apply B|].
    assert (m_files s !! (from_c ++ slash :: rest) = None) as En.
    { apply eq_None_not_Some. intros Hs. apply Hin, Hl. split; [by eexists|done]. }
    rewrite C; [done|done|]. intros j [[r ->] Hj]%Hl E. rewrite Hrw in E.
    destruct (slash_prefixes _ _ _ _ E) as [<-|[[q ->]|[q Eq]]].
    * apply (Hto (from_c ++ slash :: r) ltac:(by eexists) Hj).
    * apply (Hto ((to_c ++ slash :: q) ++ slash :: r) ltac:(exists (q ++ slash :: r); by rewrite <- app_assoc) Hj).
    * assert (fold (trim_rel (vp_rel to)) = fold to_c) as Eto by (rewrite Et; symmetry; by apply resolve_fold).
      rewrite Eto, Eq in Hnest. unfold mem_child_prefix, starts_with in Hnest. rewrite bool_decide_false in Hnest by done.
      replace (from_c ++ slash :: q) with ((from_c ++ [slash]) ++ q) in Hnest by (by rewrite <- app_assoc).
      rewrite (fold_app (from_c ++ [slash]) q), strip_prefix_app in Hnest. done.
  + intros k Hk1 Hk2. rewrite C; [done| |].
    * by intros [? _]%Hl.
    * intros j [[r ->] _]%Hl ->. apply Hk2. rewrite Hrw. by eexists.
Qed.
End rename.

(** ** A concrete tree *)

Module MemoryDemo.
#[local] Existing Instance demo_table.

Definition demo : Memory :=
  from_files [(lit "Data/Skyrim.esm", [1; 2; 3]); (lit "Data/Sub/x.txt", [7]); (lit "readme", [9])].
Definition at_ (p : str) : VPath := mkVPath 0 p.
(** [Data/Skyrim.esm] open under another spelling. *)
Definition opened : Memory := (p_open memory (at_ (lit "data\SKYRIM.esm")) OPEN_WRITE demo).2.

Lemma demo_index : IndexOk demo.
Proof. apply from_files_IndexOk. Qed.

Lemma clean_new : clean (trim_rel (lit "data/New.ini")) ∧ clean (trim_rel (lit "Textures")).
Proof.
  assert (∀ s, forallb (λ x, negb (is_slash x)) s = true → s ≠ [] → piece_ok s) as H.
  { intros s Hs Hn. split; [done|]. apply Forall_forall. intros x Hx. rewrite forallb_forall in Hs.
    apply list_elem_of_In in Hx. specialize (Hs x Hx). by destruct (is_slash x). }
  split; [exists [lit "data"; lit "New.ini"]|exists [lit "Textures"]]; (split; [done|]);
    repeat (apply Forall_cons; split); try apply Forall_nil; try done; by apply H.
Qed.
End MemoryDemo.
Import MemoryDemo.

Lemma memory_index_sound_witness :
  let s := ops_state (memory (CT := demo_table)) [ORemove (at_ (lit "README")); OMkdir (at_ (lit "Empty"))]
             (from_files (CT := demo_table) [(lit "readme", [9])]) in
  mem_stored s (lit "Empty").
Proof.
  exact (proj2 (memory_index_sound (CT := demo_table) [(lit "readme", [9])]
    [ORemove (at_ (lit "README")); OMkdir (at_ (lit "Empty"))] (lit "empty") (lit "Empty")
    ltac:(vm_compute; reflexivity))).
Defined.


Lemma memory_create_visible_witness :
  let s' := (p_open (memory (CT := demo_table)) (at_ (lit "data/New.ini")) OPEN_CREATE demo).2 in
  ∃ st, p_getattr (memory (CT := demo_table)) (at_ (lit "DATA\new.INI")) s' = (Ok (Some st), s').
Proof.
  intros s'. destruct (p_open (memory (CT := demo_table)) (at_ (lit "data/New.ini")) OPEN_CREATE demo) as [r s1] eqn:E.
  assert (r = Ok (1, 0, false)) as -> by (apply (f_equal fst) in E; cbn [fst] in E; rewrite <- E; vm_compute; reflexivity).
  exact (memory_create_visible (CT := demo_table) demo s1 (at_ (lit "data/New.ini")) OPEN_CREATE (1, 0, false)
    demo_index (proj1 clean_new) ltac:(done) ltac:(vm_compute; reflexivity) E (at_ (lit "DATA\new.INI")) ltac:(vm_compute; reflexivity)).
Defined.

Lemma memory_rename_dir_witness :
  let s' := (p_rename (memory (CT := demo_table)) (at_ (lit "DATA")) (at_ (lit "Textures")) demo).2 in
  m_files s' !! lit "Textures/Sub/x.txt" = Some [7] ∧ m_files s' !! lit "Data/Sub/x.txt" = None.
Proof.
  intros s'. destruct (memory_rename_dir (CT := demo_table) demo s' (at_ (lit "DATA")) (at_ (lit "Textures"))
    (lit "Data") (lit "Textures") demo_index (proj2 clean_new) ltac:(vm_compute; reflexivity)
    ltac:(vm_compute; reflexivity) ltac:(done) ltac:(vm_compute; reflexivity) ltac:(vm_compute; reflexivity)
    ltac:(vm_compute; done) ltac:(vm_compute; reflexivity)) as (H1 & H2 & _).
  split; [exact (eq_trans (H1 (lit "Sub/x.txt")) ltac:(vm_compute; reflexivity))|exact (H2 (lit "Sub/x.txt"))].
Defined.
