(* ===== verification/OverlayFs.v ===== *)
(** OverlayFs: a writable upper over a base that is only read
    (rust/crates/vfs-compose/src/overlay: mod.rs, copy_up.rs, whiteout.rs),
    with whiteout markers and copy-up.

    A call is one step on the overlay's state. The set of copies in flight
    (copy_up.rs [InFlight]) is empty between calls and every claim of it
    succeeds at once; within a call the index's generation does not change
    between a walk and the store of its scan. [whiteout_rounds] is the walk
    with other threads in between, whose changes throw a scan away. *)

From S2P Require Import Prelude Text Path Provider Compose.

Definition WHITEOUT_PREFIX : str := lit ".wh.".
Definition COPY_UP_PREFIX : str := lit ".cu.".
Definition whiteout_name (name : str) : str := WHITEOUT_PREFIX ++ name.

(** [n.to_string()], by its digits. *)
Fixpoint digits (fuel : nat) (n : Z) (acc : str) : str :=
  match fuel with
  | O => acc
  | S fuel => let acc := (48 + n mod 10) :: acc in if n <? 10 then acc else digits fuel (n / 10) acc
  end.
Definition u64_to_string (n : Z) : str := digits 20 n [].
Definition copy_up_name (n : Z) (name : str) : str :=
  COPY_UP_PREFIX ++ u64_to_string n ++ lit "." ++ name.

Inductive OLayer := Upper | Base.

(** [ov_gen] and [ov_dirs] are the whiteout index: the folded names hidden in
    each scanned directory, by root and folded path. *)
Record OverlayS (SB SU : Type) := mkOv {
  ov_base : SB;
  ov_upper : SU;
  ov_opens : HandleTable (OLayer * Handle);
  ov_next : Z;
  ov_gen : Z;
  ov_dirs : gmap (Z * str) (gset str) }.
Arguments mkOv {SB SU}.
Arguments ov_base {SB SU}.
Arguments ov_upper {SB SU}.
Arguments ov_opens {SB SU}.
Arguments ov_next {SB SU}.
Arguments ov_gen {SB SU}.
Arguments ov_dirs {SB SU}.

(** Where the walk of the index ends. *)
Inductive Walk := Hidden | Visible | Unscanned (raw_dir fol_dir : str).

(** [path.rsplit_once('/')], the name replaced by a sibling's. *)
Definition sibling (path : str) (mk : str → str) : str :=
  match rsplit_once slash path with
  | Some (parent, name) => parent ++ slash :: mk name
  | None => mk path
  end.

(** The inner loop of [whiteout_walk]. A parent is shorter, so the length of
    the path is fuel enough ([walk_index_fuel]). *)
Fixpoint walk_index (fuel : nat) (dirs : gmap (Z * str) (gset str)) (root : Z) (ancestors check : bool)
    (raw fol : str) : Walk :=
  match fuel with
  | O => Visible
  | S fuel =>
      let raw_parent := (split_parent raw).1 in
      let '(fol_parent, fol_name) := split_parent fol in
      let on :=
        if negb ancestors || negb (bool_decide (slash ∈ raw)) then Visible
        else walk_index fuel dirs root ancestors true raw_parent fol_parent in
      if check then
        match dirs !! (root, fol_parent) with
        | Some hidden => if bool_decide (fol_name ∈ hidden) then Hidden else on
        | None => Unscanned raw_parent fol_parent
        end
      else on
  end.

Section overlay_fs.
Context {CT : CaseTable} {SB SU : Type} (base : Provider SB) (upper : Provider SU).
Local Abbreviation OV := (OverlayS SB SU).

Definition on_base {R} : (SB → R * SB) → OV → R * OV :=
zoom ov_base (λ b s, mkOv b (ov_upper s) (ov_opens s) (ov_next s) (ov_gen s) (ov_dirs s)).
Definition on_upper {R} : (SU → R * SU) → OV → R * OV :=
zoom ov_upper (λ u s, mkOv (ov_base s) u (ov_opens s) (ov_next s) (ov_gen s) (ov_dirs s)).
Definition ov_on_opens {R} : (HandleTable (OLayer * Handle) → R * HandleTable (OLayer * Handle)) → OV → R * OV :=
zoom ov_opens (λ t s, mkOv (ov_base s) (ov_upper s) t (ov_next s) (ov_gen s) (ov_dirs s)).
Definition set_index (gen : Z) (dirs : gmap (Z * str) (gset str)) (s : OV) : OV :=
mkOv (ov_base s) (ov_upper s) (ov_opens s) (ov_next s) gen dirs.

(** [from_arcs]: [None] when the upper takes no writes. *)
Definition overlay_from_arcs (b : SB) (u : SU) : option OV :=
if bool_decide (access (p_capabilities upper) = ReadWrite)
then Some (mkOv b u table_new 1 0 ∅) else None.

Definition ov_track (layer : OLayer) (inner : Handle) : PM OV Handle := ov_on_opens (table_insert (layer, inner)).
Definition ov_lookup (h : Handle) : PM OV (OLayer * Handle) := ov_on_opens (table_get h).

(** *** whiteout.rs *)

Definition whiteout_path (path : str) : str := sibling path whiteout_name.

(** The names the markers of a listing hide. *)
Definition marked (entries : list DirEntry) : gset str :=
foldl (λ hidden e, match strip_prefix WHITEOUT_PREFIX (de_name e) with
                   | Some b => {[fold b]} ∪ hidden
                   | None => hidden
                   end) ∅ entries.

Definition scan_whiteouts (dir : VPath) : PM OV (gset str) := λ s,
match on_upper (p_readdir upper dir) s with
| (Ok entries, s) => (Ok (marked entries), s)
| (Err e, s) =>
    if (e =? ST_NOT_FOUND) || (e =? ST_NOT_A_DIRECTORY) then (Ok ∅, s) else (Err e, s)
end.

(** The outer loop: a round that meets an unscanned directory scans it and
  starts over. [None]: the fuel ran out. *)
Fixpoint whiteout_loop (fuel : nat) (p : VPath) (own ancestors : bool) (s : OV)
  : option (result Z bool * OV) :=
match fuel with
| O => None
| S fuel =>
    let folded := fold (vp_rel p) in
    match walk_index (S (length (vp_rel p))) (ov_dirs s) (vp_root p) ancestors own (vp_rel p) folded with
    | Hidden => Some (Ok true, s)
    | Visible => Some (Ok false, s)
    | Unscanned raw_dir fol_dir =>
        let generation := ov_gen s in
        match scan_whiteouts (mkVPath (vp_root p) raw_dir) s with
        | (Err e, s) => Some (Err e, s)
        | (Ok hidden, s) =>
            let s := if ov_gen s =? generation
                     then set_index (ov_gen s) (<[(vp_root p, fol_dir) := hidden]> (ov_dirs s)) s
                     else s in
            whiteout_loop fuel p own ancestors s
        end
    end
end.

(** A round among other threads: the lock of the index is free between the look
  and the scan, and between the scan and the storing, when others do
  [env.1] and [env.2]. [None]: the walk starts over. *)
Definition whiteout_round (env : (OV → OV) * (OV → OV)) (p : VPath) (own ancestors : bool) (s : OV)
  : option (result Z bool) * OV :=
match walk_index (S (length (vp_rel p))) (ov_dirs s) (vp_root p) ancestors own (vp_rel p) (fold (vp_rel p)) with
| Hidden => (Some (Ok true), s)
| Visible => (Some (Ok false), s)
| Unscanned raw_dir fol_dir =>
    let generation := ov_gen s in
    match scan_whiteouts (mkVPath (vp_root p) raw_dir) (env.1 s) with
    | (Err e, s) => (Some (Err e), s)
    | (Ok hidden, s) =>
        let s := env.2 s in
        (None, if ov_gen s =? generation
               then set_index (ov_gen s) (<[(vp_root p, fol_dir) := hidden]> (ov_dirs s)) s
               else s)
    end
end.

(** The loop among other threads, as many rounds as [envs]. *)
Fixpoint whiteout_rounds (envs : list ((OV → OV) * (OV → OV))) (p : VPath) (own ancestors : bool) (s : OV)
  : option (result Z bool) * OV :=
match envs with
| [] => (None, s)
| env :: envs =>
    match whiteout_round env p own ancestors s with
    | (Some r, s) => (Some r, s)
    | (None, s) => whiteout_rounds envs p own ancestors s
    end
end.

(** Undisturbed, each round but the last scans one more of the directories
  above [p], so these are rounds enough ([whiteout_loop_total]). *)
Definition whiteout_walk (p : VPath) (own ancestors : bool) : PM OV bool := λ s,
default (Err ST_IO_ERROR, s) (whiteout_loop (S (S (length (vp_rel p)))) p own ancestors s).

Definition is_whiteout (p : VPath) : PM OV bool := whiteout_walk p true false.
Definition ancestor_whited_out (p : VPath) : PM OV bool := whiteout_walk p false true.
Definition hidden_by_whiteout (p : VPath) : PM OV bool := whiteout_walk p true true.

Definition note_whiteout (p : VPath) (hidden : bool) (s : OV) : OV :=
let '(parent, name) := split_parent (vp_rel p) in
let key := (vp_root p, fold parent) in
set_index (as_u64 (ov_gen s + 1))
  (match ov_dirs s !! key with
   | Some names =>
       <[key := if hidden then {[fold name]} ∪ names else names ∖ {[fold name]}]> (ov_dirs s)
   | None => ov_dirs s
   end) s.

Definition invalidate_if_marker (p : VPath) (s : OV) : OV :=
let '(parent, name) := split_parent (vp_rel p) in
if starts_with WHITEOUT_PREFIX name
then set_index (as_u64 (ov_gen s + 1)) (delete (vp_root p, fold parent) (ov_dirs s)) s
else s.

Definition clear_whiteout (p : VPath) : PM OV unit := λ s,
match on_upper (p_remove upper (mkVPath (vp_root p) (whiteout_path (vp_rel p)))) s with
| (Ok _, s) => (Ok (), note_whiteout p false s)
| (Err e, s) => if e =? ST_NOT_FOUND then (Ok (), note_whiteout p false s) else (Err e, s)
end.

Definition write_whiteout (p : VPath) : PM OV unit :=
r ← (on_upper (p_open upper (mkVPath (vp_root p) (whiteout_path (vp_rel p)))
       (Z.lor (Z.lor OPEN_WRITE OPEN_CREATE) OPEN_TRUNC)) : PM OV (Handle * Z * bool));
_ ← (on_upper (p_close upper r.1.1) : PM OV unit);
pm_modify (note_whiteout p true) ().

(** *** copy_up.rs *)

Definition temp_copy_path (path : str) (n : Z) : str := sibling path (copy_up_name n).

Definition COPY_CHUNK : Z := 65536.

(** A read that answers more than the buffer holds would be a panic of
  [&buf[..n]]; a read that answers 0 ends the loop. Every other round
  advances, so that [size] rounds are enough. *)
Fixpoint copy_loop (fuel : nat) (bh uh : Handle) (size off : Z) (buf : bytes) : PM OV unit := λ s,
if negb (off <? size) then (Ok (), s) else
match fuel with
| O%nat => (Ok (), s)
| S fuel =>
    match on_base (p_read_at base bh off buf) s with
    | ((Err e, _), s) => (Err e, s)
    | ((Ok n, buf), s) =>
        if n =? 0 then (Ok (), s) else
        match on_upper (p_write_at upper uh off (take (Z.to_nat n) buf)) s with
        | (Err e, s) => (Err e, s)
        | (Ok _, s) => copy_loop fuel bh uh size (off + n) buf s
        end
    end
end.

(** [a.and(b)]: the first error. *)
Definition res_and {A B} (a : result Z A) (b : result Z B) : result Z B :=
match a with Ok _ => b | Err e => Err e end.

Definition copy_bytes (bh : Handle) (size : Z) (dest : VPath) : PM OV unit := λ s,
match on_upper (p_open upper dest (Z.lor (Z.lor OPEN_WRITE OPEN_CREATE) OPEN_TRUNC)) s with
| (Err e, s) => (Err e, s)
| (Ok (uh, _, _), s) =>
    let '(copied, s) :=
      (copy_loop (Z.to_nat size) bh uh size 0 (replicate (Z.to_nat COPY_CHUNK) 0)
         ≫= λ _, (on_upper (p_flush upper uh) : PM OV unit)) s in
    let '(closed, s) := on_upper (p_close upper uh) s in
    (res_and copied closed, s)
end.

Definition take_next (s : OV) : Z * OV :=
(ov_next s, mkOv (ov_base s) (ov_upper s) (ov_opens s) (as_u64 (ov_next s + 1)) (ov_gen s) (ov_dirs s)).

Definition copy_file_up (p : VPath) : PM OV unit := λ s,
let '(n, s) := take_next s in
let tmp := mkVPath (vp_root p) (temp_copy_path (vp_rel p) n) in
match on_base (p_open base p OPEN_READ) s with
| (Err e, s) => (Err e, s)
| (Ok (bh, size, _), s) =>
    let '(copied, s) := copy_bytes bh size tmp s in
    let '(_, s) := on_base (p_close base bh) s in
    let '(r, s) := match copied with
                   | Ok _ => on_upper (p_rename upper tmp p) s
                   | Err e => (Err e, s)
                   end in
    match r with
    | Ok _ => (Ok (), s)
    | Err e => let '(_, s) := on_upper (p_remove upper tmp) s in (Err e, s)
    end
end.

Definition copy_up_if_needed (p : VPath) : PM OV unit :=
u ← (on_upper (p_getattr upper p) : PM OV (option Stat));
match u with
| Some _ => mret ()
| None =>
    b ← (on_base (p_getattr base p) : PM OV (option Stat));
    match b with
    | None => mret ()
    | Some st =>
        if negb (st_kind st =? KIND_FILE) then mret () else
        u ← (on_upper (p_getattr upper p) : PM OV (option Stat));
        match u with Some _ => mret () | None => copy_file_up p end
    end
end.

(** What [open_for_write] does when the upper does not have the path. *)
Definition prepare_write (p : VPath) (flags : Z) : PM OV unit :=
a ← ancestor_whited_out p;
if (a : bool) then pm_err ST_NOT_FOUND else
w ← is_whiteout p;
if (w : bool) then
  if Z.land flags OPEN_CREATE =? 0 then pm_err ST_NOT_FOUND else clear_whiteout p
else
  b ← (on_base (p_getattr base p) : PM OV (option Stat));
  match b with
  | Some st => if st_kind st =? KIND_DIR then pm_err ST_IS_DIR else copy_up_if_needed p
  | None => copy_up_if_needed p
  end.

Definition open_for_write (p : VPath) (flags : Z) : PM OV (Handle * Z * bool) :=
u ← (on_upper (p_getattr upper p) : PM OV (option Stat));
_ ← (match u with Some _ => mret () | None => prepare_write p flags end : PM OV unit);
r ← (on_upper (p_open upper p flags) : PM OV (Handle * Z * bool));
_ ← (pm_modify (invalidate_if_marker p) () : PM OV unit);
h ← ov_track Upper r.1.1;
mret (h, r.1.2, r.2).

(** *** mod.rs *)

Definition overlay_capabilities : Capabilities :=
let w := weakest [p_capabilities base; p_capabilities upper] in
mkCaps ReadWrite false (slow w) (preferred_block w) (case w).

Definition overlay_getattr (p : VPath) : PM OV (option Stat) :=
if bool_decide (vp_rel p = []) then mret (Some (mkStat KIND_DIR 0 0)) else
h ← hidden_by_whiteout p;
if (h : bool) then mret None else
u ← (on_upper (p_getattr upper p) : PM OV (option Stat));
match u with
| Some st => mret (Some st)
| None => on_base (p_getattr base p)
end.

(** A child's listing: [None] when it is not there, with a flag when it is
  not a directory. *)
Definition try_listing (m : PM OV (list DirEntry)) : PM OV (option (list DirEntry) * bool) := λ s,
match m s with
| (Ok es, s) => (Ok (Some es, false), s)
| (Err e, s) =>
    if e =? ST_NOT_FOUND then (Ok (None, false), s)
    else if e =? ST_NOT_A_DIRECTORY then (Ok (None, true), s)
    else (Err e, s)
end.

Definition upper_entry (map : gmap str DirEntry) (e : DirEntry) : gmap str DirEntry :=
match strip_prefix WHITEOUT_PREFIX (de_name e) with
| Some target => delete (fold target) map
| None =>
    if starts_with COPY_UP_PREFIX (de_name e) then map
    else merge_upper_entry map (fold (de_name e)) e
end.

Definition overlay_readdir (p : VPath) : PM OV (list DirEntry) :=
h ← hidden_by_whiteout p;
b ← (if (h : bool) then mret (None, false)
     else try_listing (on_base (p_readdir base p)) : PM OV (option (list DirEntry) * bool));
u ← try_listing (on_upper (p_readdir upper p));
let map := foldl (λ m e, <[fold (de_name e) := e]> m) ∅ (default [] b.1) in
let map := foldl upper_entry map (default [] u.1) in
let listed := sorted_by_folded_name map in
match b.1, u.1 with
| None, None =>
    if b.2 || u.2 then pm_err ST_NOT_A_DIRECTORY else
    if bool_decide (vp_rel p = []) then mret listed else
    g ← overlay_getattr p;
    match g with None => pm_err ST_NOT_FOUND | Some _ => mret listed end
| _, _ => mret listed
end.

Definition overlay_open (p : VPath) (flags : Z) : PM OV (Handle * Z * bool) :=
if negb (Z.land flags OPEN_WRITE =? 0) then open_for_write p flags else
h ← hidden_by_whiteout p;
if (h : bool) then pm_err ST_NOT_FOUND else λ s,
match on_upper (p_open upper p flags) s with
| (Ok (uh, size, d), s) => (ov_track Upper uh ≫= λ h, (mret (h, size, d) : PM OV (Handle * Z * bool))) s
| (Err e, s) =>
    if e =? ST_NOT_FOUND then
      (r ← (on_base (p_open base p flags) : PM OV (Handle * Z * bool));
       h ← ov_track Base r.1.1;
       (mret (h, r.1.2, r.2) : PM OV (Handle * Z * bool))) s
    else (Err e, s)
end.

Definition overlay_read_at (h : Handle) (off : Z) (buf : bytes) (s : OV) : (result Z Z * bytes) * OV :=
match ov_lookup h s with
| (Ok (Upper, inner), s) => on_upper (p_read_at upper inner off buf) s
| (Ok (Base, inner), s) => on_base (p_read_at base inner off buf) s
| (Err e, s) => ((Err e, buf), s)
end.

Definition overlay_close (h : Handle) : PM OV unit :=
r ← (ov_on_opens (table_remove h) : PM OV (OLayer * Handle));
match r.1 with Upper => on_upper (p_close upper r.2) | Base => on_base (p_close base r.2) end.

Definition overlay_is_immutable (h : Handle) (s : OV) : bool :=
match ov_lookup h s with
| (Ok (Base, inner), s) => p_is_immutable base inner (ov_base s)
| _ => false
end.

(** The methods that write through a handle. *)
Definition write_handle {A} (h : Handle) (m : Handle → PM SU A) : PM OV A :=
r ← ov_lookup h;
match r.1 with Upper => on_upper (m r.2) | Base => not_supported end.

Definition overlay_mkdir (p : VPath) : PM OV unit :=
a ← ancestor_whited_out p;
if (a : bool) then pm_err ST_NOT_FOUND else
_ ← clear_whiteout p;
on_upper (p_mkdir upper p).

Definition overlay_remove (p : VPath) : PM OV unit :=
h ← hidden_by_whiteout p;
if (h : bool) then pm_err ST_NOT_FOUND else
u ← (on_upper (p_getattr upper p) : PM OV (option Stat));
b ← (on_base (p_getattr base p) : PM OV (option Stat));
match u, b with
| None, None => pm_err ST_NOT_FOUND
| _, _ =>
    _ ← (match u with Some _ => on_upper (p_remove upper p) | None => mret () end : PM OV unit);
    match b with Some _ => write_whiteout p | None => mret () end
end.

Definition overlay_rename (from to : VPath) : PM OV unit :=
if negb (vp_root from =? vp_root to) then pm_err ST_BAD_REQUEST else
h ← hidden_by_whiteout from;
if (h : bool) then pm_err ST_NOT_FOUND else
if str_eqb (fold (vp_rel from)) (fold (vp_rel to)) then
  u ← (on_upper (p_getattr upper from) : PM OV (option Stat));
  match u with
  | Some _ => on_upper (p_rename upper from to)
  | None =>
      b ← (on_base (p_getattr base from) : PM OV (option Stat));
      match b with Some _ => mret () | None => pm_err ST_NOT_FOUND end
  end
else
  _ ← copy_up_if_needed from;
  b ← (on_base (p_getattr base from) : PM OV (option Stat));
  _ ← (on_upper (p_rename upper from to) : PM OV unit);
  _ ← clear_whiteout to;
  match b with Some _ => write_whiteout from | None => mret () end.

Definition overlay_set_attr (p : VPath) (a : SetAttr) : PM OV unit :=
h ← hidden_by_whiteout p;
if (h : bool) then pm_err ST_NOT_FOUND else
_ ← copy_up_if_needed p;
on_upper (p_set_attr upper p a).

Definition overlay_stored_name (p : VPath) : PM OV (option str) :=
if bool_decide (vp_rel p = []) then mret None else
h ← hidden_by_whiteout p;
if (h : bool) then mret None else
merge_stored_name (λ p, on_base (stored_name base p)) (λ p, on_upper (stored_name upper p)) p.

Definition overlay_fs : Provider OV := {|
p_capabilities := overlay_capabilities;
p_getattr := overlay_getattr;
p_readdir := overlay_readdir;
p_open := overlay_open;
p_close := overlay_close;
p_read_at := overlay_read_at;
p_read_next := λ _ buf, no_read buf;
p_write_at := λ h off buf, write_handle h (λ h, p_write_at upper h off buf);
p_set_len := λ h n, write_handle h (λ h, p_set_len upper h n);
p_flush := λ h, write_handle h (p_flush upper);
p_mkdir := overlay_mkdir;
p_remove := overlay_remove;
p_rename := overlay_rename;
p_set_attr := overlay_set_attr;
p_stored_name := overlay_stored_name;
p_is_immutable := overlay_is_immutable |}.
End overlay_fs.
