(* ===== verification/OverlayProps.v ===== *)
(** OverlayProps: what the overlay guarantees whatever its children are: its
    whiteout walk ends, its base is only read, and a removed entry stays
    removed until something is created in its place. *)

From S2P Require Import Prelude Text Path Provider Compose ComposeProps OverlayFs.

(** ** The walk of the index *)

Lemma split_parent_slash s : slash ∈ s → (length (split_parent s).1 < length s)%nat.
Proof.
  intros Hs. unfold split_parent. destruct (rsplit_once slash s) as [[a b]|] eqn:E.
  - apply rsplit_once_Some in E as [-> _]. cbn. rewrite length_app. cbn. lia.
  - by apply rsplit_once_None in E.
Qed.

(** The directories whose index a walk from [raw] may look at. *)
Fixpoint walk_dirs (fuel : nat) (raw fol : str) : list str :=
  match fuel with
  | O => []
  | S fuel => (split_parent fol).1 :: walk_dirs fuel (split_parent raw).1 (split_parent fol).1
  end.

Lemma walk_dirs_length fuel raw fol : length (walk_dirs fuel raw fol) = fuel.
Proof. revert raw fol. induction fuel as [|fuel IH]; intros; [done|]. cbn. by rewrite IH. Qed.

Lemma walk_index_unscanned fuel dirs root anc check raw fol d f :
  walk_index fuel dirs root anc check raw fol = Unscanned d f →
  f ∈ walk_dirs fuel raw fol ∧ dirs !! (root, f) = None.
Proof.
  revert check raw fol. induction fuel as [|fuel IH]; intros check raw fol; [done|].
  cbn [walk_index walk_dirs]. destruct (split_parent fol) as [fp fn] eqn:Ef. cbn [fst].
  assert ((if negb anc || negb (bool_decide (slash ∈ raw)) then Visible
    else walk_index fuel dirs root anc true (split_parent raw).1 fp) = Unscanned d f →
    f ∈ fp :: walk_dirs fuel (split_parent raw).1 fp ∧ dirs !! (root, f) = None) as Hon.
  { destruct (_ || _); [done|]. intros [H1 H2]%IH. split; [by right|exact H2]. }
  destruct check; [|done]. destruct (dirs !! (root, fp)) eqn:Ed.
  - destruct (bool_decide (fn ∈ _)); [done|exact Hon].
  - intros [= _ <-]. split; [by left|done].
Qed.

(** The fuel of the inner loop is enough: more gives the same answer. *)
Lemma walk_index_fuel fuel fuel' dirs root anc check raw fol :
  (length raw < fuel)%nat → (fuel ≤ fuel')%nat →
  walk_index fuel' dirs root anc check raw fol = walk_index fuel dirs root anc check raw fol.
Proof.
  revert fuel' check raw fol. induction fuel as [|fuel IH]; intros fuel' check raw fol Hf Hle; [lia|].
  destruct fuel' as [|fuel']; [lia|]. cbn [walk_index]. destruct (split_parent fol) as [fp fn].
  destruct (bool_decide (slash ∈ raw)) eqn:Hs; [|by destruct anc].
  apply bool_decide_eq_true in Hs. pose proof (split_parent_slash raw Hs).
  rewrite (IH fuel') by lia. done.
Qed.

(** Unscanned directories on the way of a walk. *)
Definition unscanned (dirs : gmap (Z * str) (gset str)) (root : Z) (ds : list str) : nat :=
  length (filter (λ f, dirs !! (root, f) = None) ds).

Lemma filter_len_le {A} (P Q : A → Prop) `{∀ x, Decision (P x), ∀ x, Decision (Q x)} l :
  (∀ x, P x → Q x) → (length (filter P l) ≤ length (filter Q l))%nat.
Proof.
  intros HPQ. induction l as [|x l IH]; [done|]. rewrite !filter_cons.
  destruct (decide (P x)) as [HP|HP]; [rewrite decide_True by auto; cbn; lia|].
  destruct (decide (Q x)); cbn; lia.
Qed.

Lemma unscanned_less dirs root ds f hidden :
  f ∈ ds → dirs !! (root, f) = None →
  (unscanned (<[(root, f) := hidden]> dirs) root ds < unscanned dirs root ds)%nat.
Proof.
  unfold unscanned. intros Hin Hf. induction ds as [|x ds IH]; [by apply elem_of_nil in Hin|].
  assert (∀ l, (length (filter (λ f0, <[(root, f) := hidden]> dirs !! (root, f0) = None) l) ≤
    length (filter (λ f0, dirs !! (root, f0) = None) l))%nat) as Hle.
  { intros l. apply filter_len_le. intros y [Hy _]%lookup_insert_None. done. }
  rewrite !filter_cons. destruct (decide (x = f)) as [->|Hne].
  - rewrite lookup_insert_eq, decide_False, decide_True by done. cbn. specialize (Hle ds). lia.
  - apply elem_of_cons in Hin as [->|Hin]; [done|]. specialize (IH Hin).
    rewrite lookup_insert_ne by congruence. destruct (decide (dirs !! (root, x) = None)); cbn; lia.
Qed.

Section walk.
Context {CT : CaseTable} {SB SU : Type} (base : Provider SB) (upper : Provider SU).
Local Abbreviation OV := (OverlayS SB SU).

Lemma scan_index dir (s : OV) :
let s' := (scan_whiteouts upper dir s).2 in ov_dirs s' = ov_dirs s ∧ ov_gen s' = ov_gen s.
Proof.
unfold scan_whiteouts, on_upper, zoom. destruct (p_readdir upper dir (ov_upper s)) as [[es|e] u]; [done|].
by destruct (_ || _).
Qed.

Lemma whiteout_loop_ends fuel p own anc (s : OV) :
(unscanned (ov_dirs s) (vp_root p) (walk_dirs (S (length (vp_rel p))) (vp_rel p) (fold (vp_rel p))) < fuel)%nat →
is_Some (whiteout_loop upper fuel p own anc s).
Proof.
revert s. induction fuel as [|fuel IH]; intros s Hf; [lia|]. cbn [whiteout_loop].
destruct (walk_index _ _ _ _ _ _ _) as [| |rd fd] eqn:Ew; [by eexists|by eexists|].
apply walk_index_unscanned in Ew as [Hin Hno].
pose proof (scan_index (mkVPath (vp_root p) rd) s) as [Ed Eg].
destruct (scan_whiteouts upper (mkVPath (vp_root p) rd) s) as [[hidden|e] s1]; [|by eexists]. cbn [snd] in *.
apply IH. rewrite Eg, Z.eqb_refl. cbn [set_index ov_dirs]. rewrite Ed.
pose proof (unscanned_less (ov_dirs s) (vp_root p) _ fd hidden Hin Hno). lia.
Qed.

Lemma unscanned_bound (p : VPath) dirs :
(unscanned dirs (vp_root p) (walk_dirs (S (length (vp_rel p))) (vp_rel p) (fold (vp_rel p))) < S (S (length (vp_rel p))))%nat.
Proof.
unfold unscanned. pose proof (length_filter (λ f, dirs !! (vp_root p, f) = None)
  (walk_dirs (S (length (vp_rel p))) (vp_rel p) (fold (vp_rel p)))) as H.
rewrite walk_dirs_length in H. lia.
Qed.

Lemma whiteout_loop_total (p : VPath) (own anc : bool) (s : OV) :
is_Some (whiteout_loop upper (S (S (length (vp_rel p)))) p own anc s).
Proof. apply whiteout_loop_ends, unscanned_bound. Qed.

(** The loop is its rounds with nobody else about. *)
Lemma whiteout_loop_rounds fuel p own anc (s : OV) :
whiteout_loop upper fuel p own anc s =
  match whiteout_rounds upper (replicate fuel (id, id)) p own anc s with (Some r, s') => Some (r, s') | (None, _) => None end.
Proof.
revert s. induction fuel as [|fuel IH]; intros s; [done|]. cbn [whiteout_loop whiteout_rounds replicate]. unfold whiteout_round.
destruct (walk_index _ _ _ _ _ _ _) as [| |rd fd]; [done|done|]. cbn [fst snd id].
destruct (scan_whiteouts _ _ s) as [[hidden|e] s1]; [|done]. apply IH.
Qed.

(** Nothing is written or cleared meanwhile: no marker changes, so the
  generation stays and no scanned directory is dropped. *)
Definition calm_index (e : OV → OV) : Prop :=
∀ s, ov_gen (e s) = ov_gen s ∧ ∀ k, is_Some (ov_dirs s !! k) → is_Some (ov_dirs (e s) !! k).
Definition calm_round (env : (OV → OV) * (OV → OV)) : Prop := calm_index env.1 ∧ calm_index env.2.

Lemma unscanned_mono dirs dirs' root ds :
(∀ k, is_Some (dirs !! k) → is_Some (dirs' !! k)) → (unscanned dirs' root ds ≤ unscanned dirs root ds)%nat.
Proof.
intros H. apply filter_len_le. intros f Hf. destruct (dirs !! (root, f)) eqn:E; [|done].
destruct (H (root, f)) as [x Hx]; [by eexists|]. congruence.
Qed.

(** A calm round ends the walk or scans a directory that was not in the index. *)
Lemma calm_round_scans env p own anc (s s' : OV) :
let n (s : OV) := unscanned (ov_dirs s) (vp_root p) (walk_dirs (S (length (vp_rel p))) (vp_rel p) (fold (vp_rel p))) in
calm_round env → whiteout_round upper env p own anc s = (None, s') → (n s' < n s)%nat.
Proof.
intros n [H1 H2] E. unfold whiteout_round in E. destruct (walk_index _ _ _ _ _ _ _) as [| |rd fd] eqn:Ew; [done|done|].
apply walk_index_unscanned in Ew as [Hin Hno]. destruct (H1 s) as [G1 K1].
pose proof (scan_index (mkVPath (vp_root p) rd) (env.1 s)) as [Ed Eg].
destruct (scan_whiteouts upper (mkVPath (vp_root p) rd) (env.1 s)) as [[hidden|e] s1]; [|done]. cbn [snd] in *.
destruct (H2 s1) as [G2 K2]. injection E as <-. rewrite G2, Eg, G1, Z.eqb_refl. unfold n. cbn [set_index ov_dirs].
eapply Nat.le_lt_trans; [|apply (unscanned_less (ov_dirs s) (vp_root p) _ fd hidden Hin Hno)].
apply unscanned_mono. intros k. rewrite !lookup_insert_is_Some'. intros [?|Hk]; [by left|right].
apply K2. rewrite Ed. by apply K1.
Qed.

Lemma rounds_end envs p own anc (s : OV) :
Forall calm_round envs →
(unscanned (ov_dirs s) (vp_root p) (walk_dirs (S (length (vp_rel p))) (vp_rel p) (fold (vp_rel p))) < length envs)%nat →
∃ r s', whiteout_rounds upper envs p own anc s = (Some r, s').
Proof.
intros Hc. revert s. induction Hc as [|env envs He Hc IH]; intros s Hn; cbn [length] in Hn; [lia|]. cbn [whiteout_rounds].
destruct (whiteout_round upper env p own anc s) as [[r|] s1] eqn:E; [by eexists _, _|]. apply IH.
pose proof (calm_round_scans env p own anc s s1 He E). cbn zeta in *. lia.
Qed.

(** C39: the loop of the whiteout walk ends once other threads leave the
  markers alone for long enough: whatever they did to the overlay between the
  steps of earlier rounds, so that scans were thrown away or scanned
  directories dropped, the walk answers or reports the upper's error within as
  many more rounds as the path has characters, and two, in which no marker is
  written or cleared; with nobody else about, the walk is those rounds. *)
Theorem whiteout_walk_terminates (p : VPath) (own anc : bool) (s : OV) envs1 envs2 :
Forall calm_round envs2 → (S (length (vp_rel p)) < length envs2)%nat →
(∃ r s', whiteout_rounds upper (envs1 ++ envs2) p own anc s = (Some r, s')) ∧
∃ r s', whiteout_rounds upper (replicate (S (S (length (vp_rel p)))) (id, id)) p own anc s = (Some r, s') ∧ whiteout_walk upper p own anc s = (r, s').
Proof.
intros Hc Hl. split.
- revert s. induction envs1 as [|env envs1 IH]; intros s; cbn [app].
  + apply rounds_end; [done|]. pose proof (unscanned_bound p (ov_dirs s)). lia.
  + cbn [whiteout_rounds]. destruct (whiteout_round upper env p own anc s) as [[r|] s1]; [by eexists _, _|]. apply IH.
- destruct (rounds_end (replicate (S (S (length (vp_rel p)))) (id, id)) p own anc s) as (r & s' & E).
  + apply Forall_replicate. by split.
  + rewrite length_replicate. apply unscanned_bound.
  + exists r, s'. split; [exact E|]. unfold whiteout_walk. by rewrite whiteout_loop_rounds, E.
Qed.
End walk.

(** ** What a call can do to the overlay

    [I] is a preorder on states that the primitive steps keep; then every
    method keeps it. *)

Section steps.
Context {CT : CaseTable} {SB SU : Type} (base : Provider SB) (upper : Provider SU).
Local Abbreviation OV := (OverlayS SB SU).

(** A method of the base that makes only calls that read. *)
Definition base_reads {R} (m : SB → R * SB) : Prop :=
∀ b, ∃ os, Forall (λ o, op_reads o = true) os ∧ (m b).2 = ops_state base os b.

Context (I : OV → OV → Prop) (I_refl : ∀ s, I s s) (I_trans : ∀ s1 s2 s3, I s1 s2 → I s2 s3 → I s1 s3).
Context (open_ok : Z → Prop) (clear_ok inval_ok : VPath → Prop).
Context (I_base : ∀ R (m : SB → R * SB) s, base_reads m → I s (on_base m s).2).
Context (I_base_open : ∀ p flags s, open_ok flags → I s (on_base (p_open base p flags) s).2).
Context (I_upper : ∀ R (m : SU → R * SU) s, I s (on_upper m s).2).
Context (I_opens : ∀ R (m : HandleTable (OLayer * Handle) → R * HandleTable (OLayer * Handle)) s,
  I s (ov_on_opens m s).2).
Context (I_next : ∀ s, I s (take_next s).2).
Context (I_scan : ∀ key hidden s, ov_dirs s !! key = None →
  I s (set_index (ov_gen s) (<[key := hidden]> (ov_dirs s)) s)).
Context (I_hide : ∀ p s, I s (note_whiteout p true s)).
Context (I_clear : ∀ p s, clear_ok p → I s (note_whiteout p false s)).
Context (I_inval : ∀ p s, inval_ok p → I s (invalidate_if_marker p s)).

Definition keeps {R} (m : OV → R * OV) : Prop := ∀ s, I s (m s).2.

Lemma keeps_bind {A B} (m : PM OV A) (f : A → PM OV B) : keeps m → (∀ a, keeps (f a)) → keeps (m ≫= f).
Proof using I_trans.
intros Hm Hf s. unfold mbind, PM_bind. specialize (Hm s). destruct (m s) as [[a|e] s']; [|done].
eapply I_trans; [exact Hm|apply Hf].
Qed.

Lemma keeps_ret {A} (a : A) : keeps (mret a : PM OV A).
Proof using I_refl. intros s. apply I_refl. Qed.
Lemma keeps_err {A} e : keeps (pm_err e : PM OV A).
Proof using I_refl. intros s. apply I_refl. Qed.

Lemma one_read {R} (m : SB → R * SB) o : op_reads o = true → (∀ b, (m b).2 = op_state base o b) → base_reads m.
Proof. intros Ho Hm b. exists [o]. split; [by constructor|apply Hm]. Qed.

Lemma base_stored_name p : base_reads (stored_name base p).
Proof.
intros s. unfold stored_name. destruct (p_stored_name base p s) as [[a|e] s1] eqn:E1.
{ exists [OStoredName p]. split; [by constructor|]. cbn. by rewrite E1. }
destruct (e =? ST_NOT_SUPPORTED); [|exists [OStoredName p]; split; [by constructor|cbn; by rewrite E1]].
case_bool_decide; [exists [OStoredName p]; split; [by constructor|cbn; by rewrite E1]|].
destruct (split_parent _) as [parent name].
exists [OStoredName p; OReaddir (mkVPath (vp_root p) parent)]. split; [by repeat constructor|].
cbn. rewrite E1. cbn. destruct (p_readdir base _ s1) as [[es|e'] s2]; cbn; [done|]. by destruct (_ || _).
Qed.

Lemma keeps_base_getattr p : keeps (on_base (p_getattr base p)).
Proof using I_base. intros s. apply I_base, (one_read _ (OGetattr p)); done. Qed.

Lemma keeps_scan dir : keeps (scan_whiteouts upper dir).
Proof using I_upper.
intros s. unfold scan_whiteouts. pose proof (I_upper _ (p_readdir upper dir) s) as H.
destruct (on_upper (p_readdir upper dir) s) as [[es|e] s']; [done|]. by destruct (_ || _).
Qed.

Lemma keeps_loop fuel p own anc s r s' :
whiteout_loop upper fuel p own anc s = Some (r, s') → I s s'.
Proof using I_refl I_trans I_upper I_scan.
revert s. induction fuel as [|fuel IH]; intros s; [done|]. cbn [whiteout_loop].
destruct (walk_index _ _ _ _ _ _ _) as [| |rd fd] eqn:Ew; [intros [= _ <-]; apply I_refl|intros [= _ <-]; apply I_refl|].
apply walk_index_unscanned in Ew as [_ Hno].
pose proof (scan_index upper (mkVPath (vp_root p) rd) s) as [Ed Eg].
pose proof (keeps_scan (mkVPath (vp_root p) rd) s) as Hs.
destruct (scan_whiteouts upper (mkVPath (vp_root p) rd) s) as [[hidden|e] s1]; cbn [snd] in *;
  [|intros [= _ <-]; done].
rewrite Eg, Z.eqb_refl. intros H. eapply I_trans; [exact Hs|]. eapply I_trans; [|by eapply IH].
rewrite <- Eg. apply I_scan. by rewrite Ed.
Qed.

Lemma keeps_walk p own anc : keeps (whiteout_walk upper p own anc).
Proof using I_refl I_trans I_upper I_scan.
intros s. unfold whiteout_walk. destruct (whiteout_loop upper _ p own anc s) as [[r s']|] eqn:E; [|apply I_refl].
by eapply keeps_loop.
Qed.

Lemma keeps_modify {A} (f : OV → OV) (a : A) : (∀ s, I s (f s)) → keeps (pm_modify f a).
Proof. intros H s. apply H. Qed.

Lemma keeps_clear p : clear_ok p → keeps (clear_whiteout upper p).
Proof using I_trans I_upper I_clear.
intros Hp s. unfold clear_whiteout.
pose proof (I_upper _ (p_remove upper (mkVPath (vp_root p) (whiteout_path (vp_rel p)))) s) as H.
destruct (on_upper _ s) as [[[]|e] s1]; cbn [snd] in *; [eapply I_trans; [exact H|]; by apply I_clear|].
destruct (e =? ST_NOT_FOUND); [eapply I_trans; [exact H|]; by apply I_clear|done].
Qed.

Lemma keeps_hide p : keeps (write_whiteout upper p).
Proof using I_trans I_upper I_hide.
apply keeps_bind; [intros s; apply I_upper|]. intros r. apply keeps_bind; [intros s; apply I_upper|].
intros _. by apply keeps_modify.
Qed.

Lemma keeps_copy_loop fuel bh uh size off buf : keeps (copy_loop base upper fuel bh uh size off buf).
Proof using I_refl I_trans I_upper I_base.
revert off buf. induction fuel as [|fuel IH]; intros off buf s; cbn [copy_loop].
{ destruct (negb _); apply I_refl. }
destruct (negb _); [apply I_refl|].
pose proof (I_base _ (p_read_at base bh off buf) s (one_read _ (OReadAt bh off buf) eq_refl (λ _, eq_refl))) as H.
destruct (on_base (p_read_at base bh off buf) s) as [[[n|e] buf'] s1]; cbn [snd] in *; [|done].
destruct (n =? 0); [done|].
pose proof (I_upper _ (p_write_at upper uh off (take (Z.to_nat n) buf')) s1) as H'.
destruct (on_upper _ s1) as [[w|e] s2]; cbn [snd] in *; [|by eapply I_trans].
eapply I_trans; [exact H|]. eapply I_trans; [exact H'|]. apply IH.
Qed.

Lemma keeps_copy_bytes bh size dest : keeps (copy_bytes base upper bh size dest).
Proof using I_refl I_trans I_upper I_base.
intros s. unfold copy_bytes.
pose proof (I_upper _ (p_open upper dest (Z.lor (Z.lor OPEN_WRITE OPEN_CREATE) OPEN_TRUNC)) s) as H.
destruct (on_upper _ s) as [[[[uh sz] d]|e] s1]; cbn [snd] in *; [|done].
pose proof (keeps_bind _ (λ _, on_upper (p_flush upper uh)) (keeps_copy_loop (Z.to_nat size) bh uh size 0
  (replicate (Z.to_nat COPY_CHUNK) 0)) (λ _ s, I_upper _ (p_flush upper uh) s) s1) as H1.
match type of H1 with I _ (snd ?x) => destruct x as [copied s2] end. cbn [snd] in *. pose proof (I_upper _ (p_close upper uh) s2) as H2.
destruct (on_upper (p_close upper uh) s2) as [closed s3]. cbn [snd] in *.
eapply I_trans; [exact H|]. by eapply I_trans.
Qed.

Lemma keeps_copy_file_up p : keeps (copy_file_up base upper p).
Proof using I_refl I_trans I_upper I_base I_next.
intros s. unfold copy_file_up. pose proof (I_next s) as H0. destruct (take_next s) as [n s0]. cbn [snd] in *.
set (tmp := mkVPath _ _).
pose proof (I_base _ (p_open base p OPEN_READ) s0 (one_read _ (OOpen p OPEN_READ) eq_refl (λ _, eq_refl))) as H1.
destruct (on_base (p_open base p OPEN_READ) s0) as [[[[bh size] d]|e] s1]; cbn [snd] in *; [|by eapply I_trans].
pose proof (keeps_copy_bytes bh size tmp s1) as H2. destruct (copy_bytes base upper bh size tmp s1) as [copied s2].
pose proof (I_base _ (p_close base bh) s2 (one_read _ (OClose bh) eq_refl (λ _, eq_refl))) as H3.
destruct (on_base (p_close base bh) s2) as [cl s3]. cbn [snd] in *.
assert (I s s3) as H4 by (do 3 (eapply I_trans; [eassumption|]); assumption || apply I_refl).
pose proof (I_upper _ (p_rename upper tmp p) s3) as H5.
pose proof (λ s4, I_upper _ (p_remove upper tmp) s4) as H6.
destruct copied as [[]|e].
- destruct (on_upper (p_rename upper tmp p) s3) as [[[]|e] s4]; cbn [snd] in *; [by eapply I_trans|].
  specialize (H6 s4). destruct (on_upper (p_remove upper tmp) s4) as [r s5]. cbn [snd] in *.
  eapply I_trans; [exact H4|]. by eapply I_trans.
- specialize (H6 s3). destruct (on_upper (p_remove upper tmp) s3) as [r s5]. by eapply I_trans.
Qed.

Lemma keeps_copy_up p : keeps (copy_up_if_needed base upper p).
Proof using I_refl I_trans I_upper I_base I_next.
apply keeps_bind; [intros s; apply I_upper|]. intros [u|]; [apply keeps_ret|].
apply keeps_bind; [apply keeps_base_getattr|]. intros [st|]; [|apply keeps_ret].
destruct (negb _); [apply keeps_ret|]. apply keeps_bind; [intros s; apply I_upper|].
intros [u|]; [apply keeps_ret|apply keeps_copy_file_up].
Qed.

Lemma keeps_open_for_write p flags : clear_ok p → inval_ok p → keeps (open_for_write base upper p flags).
Proof using I_refl I_trans I_upper I_base I_next I_scan I_clear I_inval I_opens.
intros Hc Hi. apply keeps_bind; [intros s; apply I_upper|]. intros u. apply keeps_bind.
{ destruct u; [apply keeps_ret|]. apply keeps_bind; [apply keeps_walk|]. intros [|]; [apply keeps_err|].
  apply keeps_bind; [apply keeps_walk|]. intros [|].
  - destruct (_ =? 0); [apply keeps_err|by apply keeps_clear].
  - apply keeps_bind; [apply keeps_base_getattr|]. intros [st|]; [|apply keeps_copy_up].
    destruct (_ =? KIND_DIR); [apply keeps_err|apply keeps_copy_up]. }
intros _. apply keeps_bind; [intros s; apply I_upper|]. intros r.
apply keeps_bind; [apply keeps_modify; intros s; by apply I_inval|]. intros _.
apply keeps_bind; [intros s; apply I_opens|]. intros h. apply keeps_ret.
Qed.

Lemma keeps_getattr p : keeps (overlay_getattr base upper p).
Proof using I_refl I_trans I_upper I_base I_scan.
unfold overlay_getattr. case_bool_decide; [apply keeps_ret|].
apply keeps_bind; [apply keeps_walk|]. intros [|]; [apply keeps_ret|].
apply keeps_bind; [intros s; apply I_upper|]. intros [st|]; [apply keeps_ret|apply keeps_base_getattr].
Qed.

Lemma keeps_listing (m : PM OV (list DirEntry)) : keeps m → keeps (try_listing m).
Proof. intros Hm s. unfold try_listing. specialize (Hm s). destruct (m s) as [[es|e] s']; repeat case_match; done. Qed.

Lemma keeps_readdir p : keeps (overlay_readdir base upper p).
Proof using I_refl I_trans I_upper I_base I_scan.
apply keeps_bind; [apply keeps_walk|]. intros hd. apply keeps_bind.
{ destruct hd; [apply keeps_ret|]. apply keeps_listing. intros s.
  apply I_base, (one_read _ (OReaddir p)); done. }
intros b. apply keeps_bind; [apply keeps_listing; intros s; apply I_upper|]. intros u.
destruct b as [[bs|] bd], u as [[us|] ud]; cbn; try apply keeps_ret.
destruct (bd || ud); [apply keeps_err|]. case_bool_decide; [apply keeps_ret|].
apply keeps_bind; [apply keeps_getattr|]. intros [st|]; [apply keeps_ret|apply keeps_err].
Qed.

Lemma keeps_open p flags :
(if Z.land flags OPEN_WRITE =? 0 then open_ok flags else clear_ok p ∧ inval_ok p) →
keeps (overlay_open base upper p flags).
Proof using I_refl I_trans I_upper I_base I_base_open I_next I_scan I_clear I_inval I_opens.
intros Hok. unfold overlay_open. destruct (Z.land flags OPEN_WRITE =? 0); cbn [negb].
- apply keeps_bind; [apply keeps_walk|]. intros [|]; [apply keeps_err|]. intros s.
  pose proof (I_upper _ (p_open upper p flags) s) as H.
  destruct (on_upper (p_open upper p flags) s) as [[[[uh size] d]|e] s1]; cbn [snd] in *.
  + eapply I_trans; [exact H|]. apply keeps_bind; [intros s2; apply I_opens|]. intros h. apply keeps_ret.
  + destruct (e =? ST_NOT_FOUND); [|done]. eapply I_trans; [exact H|].
    apply keeps_bind; [intros s2; by apply I_base_open|]. intros r.
    apply keeps_bind; [intros s2; apply I_opens|]. intros h. apply keeps_ret.
- destruct Hok. by apply keeps_open_for_write.
Qed.

Lemma keeps_lookup h : keeps (ov_lookup h).
Proof using I_opens. intros s. apply I_opens. Qed.

Lemma keeps_read_at h off buf : keeps (overlay_read_at base upper h off buf).
Proof using I_trans I_upper I_base I_opens.
intros s. unfold overlay_read_at. pose proof (keeps_lookup h s) as H.
destruct (ov_lookup h s) as [[[[|] inner]|e] s1]; cbn [snd] in *; [| |done]; (eapply I_trans; [exact H|]).
- apply I_upper.
- apply I_base, (one_read _ (OReadAt inner off buf)); done.
Qed.

Lemma keeps_write_handle {A} h (m : Handle → PM SU A) : keeps (write_handle h m).
Proof using I_refl I_trans I_upper I_opens.
apply keeps_bind; [apply keeps_lookup|]. intros [[|] inner]; [intros s; apply I_upper|apply keeps_err].
Qed.

Lemma keeps_remove p : keeps (overlay_remove base upper p).
Proof using I_refl I_trans I_upper I_base I_scan I_hide.
apply keeps_bind; [apply keeps_walk|]. intros [|]; [apply keeps_err|].
apply keeps_bind; [intros s; apply I_upper|]. intros u.
apply keeps_bind; [apply keeps_base_getattr|]. intros b.
assert (keeps (_ ← (match u with Some _ => on_upper (p_remove upper p) | None => mret () end : PM OV unit);
  match b with Some _ => write_whiteout upper p | None => mret () end)) as H.
{ apply keeps_bind; [destruct u; [intros s'; apply I_upper|apply keeps_ret]|].
  intros _. destruct b; [apply keeps_hide|apply keeps_ret]. }
destruct u, b; first [exact H|apply keeps_err].
Qed.

Lemma keeps_rename from to : clear_ok to → keeps (overlay_rename base upper from to).
Proof using I_refl I_trans I_upper I_base I_next I_scan I_hide I_clear.
intros Hc. unfold overlay_rename. destruct (negb _); [apply keeps_err|].
apply keeps_bind; [apply keeps_walk|]. intros [|]; [apply keeps_err|]. destruct (str_eqb _ _).
- apply keeps_bind; [intros s; apply I_upper|]. intros [u|]; [intros s; apply I_upper|].
  apply keeps_bind; [apply keeps_base_getattr|]. intros [b|]; [apply keeps_ret|apply keeps_err].
- apply keeps_bind; [apply keeps_copy_up|]. intros _. apply keeps_bind; [apply keeps_base_getattr|].
  intros b. apply keeps_bind; [intros s; apply I_upper|]. intros _.
  apply keeps_bind; [by apply keeps_clear|]. intros _. destruct b; [apply keeps_hide|apply keeps_ret].
Qed.

Lemma keeps_stored_name p : keeps (overlay_stored_name base upper p).
Proof using I_refl I_trans I_upper I_base I_scan.
unfold overlay_stored_name. case_bool_decide; [apply keeps_ret|].
apply keeps_bind; [apply keeps_walk|]. intros [|]; [apply keeps_ret|]. intros s. unfold merge_stored_name.
pose proof (I_base _ (stored_name base p) s (base_stored_name p)) as Hb.
destruct (on_base (stored_name base p) s) as [[[n|]|e] s1]; cbn [snd] in *; [done| |done].
eapply I_trans; [exact Hb|]. apply I_upper.
Qed.

(** The calls whose path or flags matter to [I]. *)
Definition allowed (o : op) : Prop :=
match o with
| OOpen p flags => if Z.land flags OPEN_WRITE =? 0 then open_ok flags else clear_ok p ∧ inval_ok p
| OMkdir p => clear_ok p
| ORename _ to => clear_ok to
| _ => True
end.

Lemma overlay_keeps o s : allowed o → I s (op_state (overlay_fs base upper) o s).
Proof using I_refl I_trans I_upper I_base I_base_open I_next I_scan I_hide I_clear I_inval I_opens.
intros Ho. destruct o; cbn [op_state overlay_fs p_getattr p_readdir p_stored_name p_open p_close p_read_at
  p_read_next p_write_at p_set_len p_flush p_mkdir p_remove p_rename p_set_attr allowed] in *.
- apply keeps_getattr.
- apply keeps_readdir.
- apply keeps_stored_name.
- by apply keeps_open.
- unfold overlay_close. apply keeps_bind; [intros s'; apply I_opens|].
  intros [[|] inner]; cbn [fst snd]; intros s'; [apply I_upper|apply I_base, (one_read _ (OClose inner)); done].
- apply keeps_read_at.
- apply I_refl.
- apply keeps_write_handle.
- apply keeps_write_handle.
- apply keeps_write_handle.
- unfold overlay_mkdir. apply keeps_bind; [apply keeps_walk|]. intros [|]; [apply keeps_err|].
  apply keeps_bind; [by apply keeps_clear|]. intros _ s'. apply I_upper.
- apply keeps_remove.
- by apply keeps_rename.
- unfold overlay_set_attr. apply keeps_bind; [apply keeps_walk|]. intros [|]; [apply keeps_err|].
  apply keeps_bind; [apply keeps_copy_up|]. intros _ s'. apply I_upper.
Qed.
End steps.

(** ** The base is only read *)

Section theorems.
Context {CT : CaseTable} {SB SU : Type} (base : Provider SB) (upper : Provider SU).
Local Abbreviation OV := (OverlayS SB SU).

Lemma read_pure_ops {X} (obs : SB → X) os b :
ReadPure base obs → Forall (λ o, op_reads o = true) os → obs (ops_state base os b) = obs b.
Proof.
intros HR Ho. unfold ops_state. revert b. induction Ho as [|o os Ho Hos IH]; intros b; [done|]. cbn.
rewrite IH. by apply HR.
Qed.

Lemma ops_keep (I : OV → OV → Prop) (P : op → Prop) os s :
(∀ s, I s s) → (∀ s1 s2 s3, I s1 s2 → I s2 s3 → I s1 s3) →
(∀ o s, P o → I s (op_state (overlay_fs base upper) o s)) → Forall P os →
I s (ops_state (overlay_fs base upper) os s).
Proof.
intros Hr Ht Hs HP. unfold ops_state. revert s. induction HP as [|o os Ho HP IH]; intros s; [apply Hr|].
cbn. eapply Ht; [by apply Hs|apply IH].
Qed.

(** A caller that opens without [OPEN_WRITE] does not ask for a change. *)
Definition open_sane (o : op) : Prop :=
match o with
| OOpen _ flags => Z.land flags OPEN_WRITE = 0 → Z.land flags MUTATING_FLAGS = 0
| _ => True
end.

(** C21: the base of an overlay is never changed: whatever is called on
  the overlay, writes, copy-ups, removals and renames included, and whatever
  the upper does, the base's content stays what it was, provided the base
  itself does not change on calls that only read and no caller asks to
  create or truncate without asking to write. *)
Theorem overlay_base_untouched {X} (obs : SB → X) (os : list op) (s : OV) :
ReadPure base obs → Forall open_sane os →
obs (ov_base (ops_state (overlay_fs base upper) os s)) = obs (ov_base s).
Proof.
intros HR Hos. symmetry.
apply (ops_keep (λ s s', obs (ov_base s) = obs (ov_base s')) open_sane); [done|intros; congruence| |done].
clear s os Hos. intros o s Ho. apply (overlay_keeps base upper (λ s s', obs (ov_base s) = obs (ov_base s')))
  with (open_ok := λ flags, Z.land flags MUTATING_FLAGS = 0) (clear_ok := λ _, True) (inval_ok := λ _, True);
  try done.
- intros. congruence.
- intros R m s' Hm. unfold on_base, zoom. destruct (Hm (ov_base s')) as (os & Hos & E).
  destruct (m (ov_base s')) as [r b]. cbn in E |- *. rewrite E. symmetry. by apply read_pure_ops.
- intros p flags s' Hf. unfold on_base, zoom.
  pose proof (HR (OOpen p flags) (ov_base s') ltac:(by apply Z.eqb_eq)) as E. cbn in E.
  by destruct (p_open base p flags (ov_base s')) as [r b].
- intros R m s'. unfold on_upper, zoom. by destruct (m (ov_upper s')).
- intros R m s'. unfold ov_on_opens, zoom. by destruct (m (ov_opens s')).
- intros p s'. unfold note_whiteout. by destruct (split_parent (vp_rel p)).
- intros p s' _. unfold note_whiteout. by destruct (split_parent (vp_rel p)).
- intros p s' _. unfold invalidate_if_marker. destruct (split_parent (vp_rel p)). by case_match.
- destruct o; try done. cbn in *. destruct (Z.eqb_spec (Z.land flags OPEN_WRITE) 0); [|done]. by apply Ho.
Qed.

(** ** What is removed stays removed *)

Lemma split_parent_fold s : split_parent (fold s) = (fold (split_parent s).1, fold (split_parent s).2).
Proof.
unfold split_parent. destruct (rsplit_once slash s) as [[a b]|] eqn:E.
- apply rsplit_once_Some in E as [-> Hb].
  rewrite (proj2 (rsplit_once_Some slash _ (fold a) (fold b))); [done|].
  split; [by rewrite fold_app, fold_cons, lower_fixed by auto with vfs|].
  by rewrite fold_elem_fixed by auto with vfs.
- apply rsplit_once_None in E. rewrite <- (fold_elem_fixed slash s) in E by auto with vfs.
  apply rsplit_once_None in E as ->. done.
Qed.

(** The index entry of a path: its directory and its folded name. *)
Definition dir_key (p : VPath) : Z * str := (vp_root p, fold (split_parent (vp_rel p)).1).
Definition name_key (p : VPath) : str := fold (split_parent (vp_rel p)).2.

Definition hides (s : OV) (p : VPath) : Prop :=
∃ names, ov_dirs s !! dir_key p = Some names ∧ name_key p ∈ names.

Definition marker_name (p : VPath) : bool := starts_with WHITEOUT_PREFIX (split_parent (vp_rel p)).2.

(** Something is made at [p], or a marker is handled as a file next to it. *)
Definition revives (p : VPath) (o : op) : Prop :=
match o with
| OOpen q flags => Z.land flags OPEN_WRITE ≠ 0 ∧
    ((dir_key q = dir_key p ∧ name_key q = name_key p) ∨ (marker_name q = true ∧ dir_key q = dir_key p))
| OMkdir q | ORename _ q => dir_key q = dir_key p ∧ name_key q = name_key p
| _ => False
end.

Lemma hides_op p o s : ¬ revives p o → hides s p → hides (op_state (overlay_fs base upper) o s) p.
Proof.
intros Ho. apply (overlay_keeps base upper (λ s s', hides s p → hides s' p)) with (open_ok := λ _, True)
  (clear_ok := λ q, ¬ (dir_key q = dir_key p ∧ name_key q = name_key p))
  (inval_ok := λ q, ¬ (marker_name q = true ∧ dir_key q = dir_key p)); try done.
- naive_solver.
- intros R m s' _. unfold on_base, zoom. by destruct (m (ov_base s')).
- intros q flags s' _. unfold on_base, zoom. by destruct (p_open base q flags (ov_base s')).
- intros R m s'. unfold on_upper, zoom. by destruct (m (ov_upper s')).
- intros R m s'. unfold ov_on_opens, zoom. by destruct (m (ov_opens s')).
- intros key hidden s' Hk (names & Hn & Hin). exists names. split; [|done]. cbn.
  rewrite lookup_insert_ne; [done|]. intros ->. congruence.
- intros q s' (names & Hn & Hin). unfold note_whiteout, hides, dir_key, name_key in *.
  destruct (split_parent (vp_rel q)) as [qp qn]. cbn.
  destruct (ov_dirs s' !! (vp_root q, fold qp)) as [ns|] eqn:E; [|by exists names].
  destruct (decide ((vp_root q, fold qp) = (vp_root p, fold (split_parent (vp_rel p)).1))) as [Ek|Hne].
  + rewrite Ek in *. rewrite lookup_insert_eq. eexists. split; [done|]. simplify_eq. set_solver.
  + rewrite lookup_insert_ne by done. by exists names.
- intros q s' Hq (names & Hn & Hin). unfold note_whiteout, hides, dir_key, name_key in *.
  destruct (split_parent (vp_rel q)) as [qp qn]. cbn in *.
  destruct (ov_dirs s' !! (vp_root q, fold qp)) as [ns|] eqn:E; [|by exists names].
  destruct (decide ((vp_root q, fold qp) = (vp_root p, fold (split_parent (vp_rel p)).1))) as [Ek|Hne].
  + rewrite Ek in *. rewrite lookup_insert_eq. eexists. split; [done|]. simplify_eq.
    apply elem_of_difference. split; [done|]. rewrite elem_of_singleton. intros E'. by apply Hq.
  + rewrite lookup_insert_ne by done. by exists names.
- intros q s' Hq (names & Hn & Hin). unfold invalidate_if_marker, hides, dir_key, name_key, marker_name in *.
  destruct (split_parent (vp_rel q)) as [qp qn]. cbn [fst snd] in *. destruct (starts_with WHITEOUT_PREFIX qn); [|by exists names].
  exists names. split; [|done]. cbn [set_index ov_dirs]. rewrite lookup_delete_ne; [done|]. intros E. by apply Hq.
- destruct o; cbn in *; try done. destruct (Z.eqb_spec (Z.land flags OPEN_WRITE) 0); [done|]. split; intros H; apply Ho; auto.
Qed.

(** A hidden path is answered from the index alone. *)
Lemma hidden_walk p anc s : hides s p → whiteout_walk upper p true anc s = (Ok true, s).
Proof.
intros (names & Hn & Hin). unfold whiteout_walk. cbn [whiteout_loop walk_index]. rewrite split_parent_fold.
unfold dir_key, name_key in *. rewrite Hn, bool_decide_true by done. done.
Qed.

Lemma loop_answer fuel p own anc (s s' : OV) b :
whiteout_loop upper fuel p own anc s = Some (Ok b, s') →
walk_index (S (length (vp_rel p))) (ov_dirs s') (vp_root p) anc own (vp_rel p) (fold (vp_rel p)) =
  if b then Hidden else Visible.
Proof.
revert s. induction fuel as [|fuel IH]; intros s; [done|]. cbn [whiteout_loop].
destruct (walk_index _ (ov_dirs s) _ _ _ _ _) as [| |rd fd] eqn:Ew; [by intros [= <- <-]|by intros [= <- <-]|].
destruct (scan_whiteouts _ _ _) as [[hidden|e] s1]; [apply IH|done].
Qed.

Lemma walk_frame p own anc (s s' : OV) r :
whiteout_walk upper p own anc s = (r, s') → ov_base s' = ov_base s.
Proof.
intros E. pose proof (keeps_walk upper (λ s s' : OV, ov_base s' = ov_base s) (λ _, eq_refl)
  ltac:(intros; congruence)) as H. specialize (H ltac:(intros R m s0; unfold on_upper, zoom; by destruct (m (ov_upper s0)))).
specialize (H ltac:(done) p own anc s). by rewrite E in H.
Qed.

(** A path the walk found visible is in a scanned directory. *)
Lemma walk_scanned p anc (s s' : OV) b :
whiteout_walk upper p true anc s = (Ok b, s') → is_Some (ov_dirs s' !! dir_key p).
Proof.
unfold whiteout_walk. destruct (whiteout_loop_total upper p true anc s) as [[r s1] E]. rewrite E.
cbn [default]. intros [= -> ->]. apply loop_answer in E. cbn [walk_index] in E. rewrite split_parent_fold in E.
unfold dir_key. destruct (ov_dirs s' !! _); [by eexists|]. by destruct b.
Qed.

Lemma remove_hides p s s1 st :
(p_getattr base p (ov_base s)).1 = Ok (Some st) → overlay_remove base upper p s = (Ok (), s1) → hides s1 p.
Proof.
intros Hb. unfold overlay_remove, hidden_by_whiteout, mbind, PM_bind at 1.
destruct (whiteout_walk upper p true true s) as [[[|]|e] s2] eqn:Ew; [done| |done].
pose proof (walk_frame _ _ _ _ _ _ Ew) as Eb. apply walk_scanned in Ew as [names Hn].
unfold PM_bind at 1, on_upper at 1, zoom at 1.
destruct (p_getattr upper p (ov_upper s2)) as [[u|e] u1]; [|done].
unfold PM_bind at 1, on_base, zoom. cbn [ov_base]. rewrite Eb.
destruct (p_getattr base p (ov_base s)) as [r b1]. cbn [fst] in Hb. subst r. cbn [ov_upper ov_opens ov_next ov_gen ov_dirs].
assert (∀ s3 : OV, ov_dirs s3 = ov_dirs s2 → write_whiteout upper p s3 = (Ok (), s1) → hides s1 p) as Hw.
{ intros s3 Ed. unfold write_whiteout, mbind, PM_bind, on_upper, zoom, pm_modify.
  destruct (p_open upper _ _ (ov_upper s3)) as [[h|e] u3]; [|done]. cbn [ov_upper].
  destruct (p_close upper _ u3) as [[[]|e] u4]; [|done]. intros [= <-]. unfold hides, note_whiteout, dir_key, name_key in *.
  destruct (split_parent (vp_rel p)) as [pp pn]. cbn in *. rewrite Ed, Hn, lookup_insert_eq. eexists. split; [done|]. set_solver. }
destruct u as [us|].
- unfold PM_bind, on_upper, zoom. cbn [ov_upper]. destruct (p_remove upper p u1) as [[[]|e] u2]; [|done].
  intros H. by apply Hw in H.
- unfold PM_bind, mret, PM_ret. intros H. by apply Hw in H.
Qed.

End theorems.
