(* ===== verification/CopyUp.v ===== *)
(** CopyUp: an overlay's copy-up copies.

    [ReadsFile] and [WritesFile] say what an open handle promises its user;
    the copy loop of the overlay is correct for any base and upper that keep
    those promises, and the in-memory provider keeps both. [FlatStore] is what
    a provider promises about a directory of plain files. *)

From S2P Require Import Prelude Text Path Provider Compose ComposeProps Memory MemoryProps OverlayFs OverlayProps.


(** ** What a handle promises *)

(** Reading through [h] gives the bytes of [content], perhaps fewer than asked
    for but none only at the end, as long as the provider stays in [R]. *)
Class ReadsFile {S} (P : Provider S) (h : Handle) (content : bytes) (R : S → Prop) : Prop :=
  reads_file s off buf : R s → 0 ≤ off →
    ∃ n buf' s', p_read_at P h off buf s = ((Ok n, buf'), s') ∧ R s' ∧
      0 ≤ n ≤ len buf ∧ (n = 0 → len buf = 0 ∨ len content ≤ off) ∧ len buf' = len buf ∧
      (0 < n → off + n ≤ len content) ∧
      take (Z.to_nat n) buf' = take (Z.to_nat n) (drop (Z.to_nat off) content).

(** Writing through [h] takes all the bytes given and changes the content as
    [write_bytes] does. A provider may also take fewer and say so; the copy
    loop does not look at that count ([short_write_corrupts_copy]). *)
Class WritesFile {S} (P : Provider S) (h : Handle) (W : bytes → S → Prop) : Prop := {
  writes_file s c off d : W c s → 0 ≤ off →
    ∃ n s', p_write_at P h off d s = (Ok n, s') ∧ W (write_bytes c off d) s';
  flushes_file s c : W c s → ∃ s', p_flush P h s = (Ok (), s') ∧ W c s' }.

Section memory.
Context {CT : CaseTable}.

(** The in-memory provider behind an open handle on a file of content [c]. *)
Definition mem_holds (h : Handle) (c : bytes) (s : Memory) : Prop :=
h_poisoned (m_opens s) = false ∧ file_of s h = Some c.

#[export] Instance memory_reads_file h c : ReadsFile memory h c (mem_holds h c).
Proof.
intros s off buf [Hp Hf] Ho. destruct (read_into c off buf) as [n buf'] eqn:E. exists n, buf', s.
cbn [memory p_read_at]. rewrite (mem_read_ok s h off buf c Hp Hf), E. split; [done|]. split; [done|].
apply read_into_spec in E as (-> & El & Hb); [|done].
pose proof (len_nonneg buf). pose proof (len_nonneg c). set (n := Z.max 0 _) in *.
split; [lia|]. split; [lia|]. split; [done|]. split; [lia|].
assert (0 < n → off + n ≤ len c) as Hn by lia.
apply bytes_ext; [unfold len in *; rewrite !length_take, length_drop; lia|].
intros i Hi. assert (len (take (Z.to_nat n) buf') ≤ n) as Hle by (unfold len; rewrite length_take; lia).
rewrite !byte_at_take by lia. destruct (Z.ltb_spec i n); [|lia]. rewrite Hb, byte_at_drop by lia.
by destruct (Z.ltb_spec i n); [|lia].
Qed.

#[export] Instance memory_writes_file h : WritesFile memory h (mem_holds h).
Proof.
split.
- intros s c off d [Hp Hf] Ho. destruct (mem_write_ok s h off d c Hp Hf) as (s' & E & Eo & Ef & _).
  exists (len d), s'. split; [done|]. split; [by rewrite Eo|done].
- intros s c H. by exists s.
Qed.
End memory.

(** ** The copy loop *)

(** Writing the next piece of a file after its beginning. *)
Lemma write_next content off n :
  0 ≤ off → 0 ≤ n → off + n ≤ len content →
  write_bytes (take (Z.to_nat off) content) off (take (Z.to_nat n) (drop (Z.to_nat off) content)) =
  take (Z.to_nat (off + n)) content.
Proof.
  intros Ho Hn Hle. set (d := take (Z.to_nat n) (drop (Z.to_nat off) content)).
  assert (len d = n) as Hd by (unfold d, len in *; rewrite length_take, length_drop; lia).
  destruct (write_bytes_spec (take (Z.to_nat off) content) off d Ho) as [Hl Hb].
  assert (len (take (Z.to_nat off) content) = off) as Ht by (unfold len in *; rewrite length_take; lia).
  apply bytes_ext.
  - rewrite Hl, Ht, Hd. unfold len in *. rewrite length_take. lia.
  - rewrite Hl, Ht, Hd. intros i Hi. rewrite Hb, Hd, !byte_at_take by lia.
    destruct (Z.leb_spec off i), (Z.ltb_spec i (off + n)), (Z.ltb_spec i off); cbn [andb]; try lia; try done.
    unfold d. rewrite byte_at_take by lia. destruct (Z.ltb_spec (i - off) n); [|lia].
    rewrite byte_at_drop by lia. f_equal. lia.
Qed.

Section copy.
Context {CT : CaseTable} {SB SU : Type} (base : Provider SB) (upper : Provider SU).
Context (bh uh : Handle) (content : bytes) (R : SB → Prop) (W : bytes → SU → Prop).
Context `{HR : !ReadsFile base bh content R} `{HW : !WritesFile upper uh W}.
Local Abbreviation OV := (OverlayS SB SU).

Lemma copy_loop_from fuel off buf (s : OV) :
0 ≤ off ≤ len content → 0 < len buf → len content - off ≤ Z.of_nat fuel →
R (ov_base s) → W (take (Z.to_nat off) content) (ov_upper s) →
∃ s', copy_loop base upper fuel bh uh (len content) off buf s = (Ok (), s') ∧
  R (ov_base s') ∧ W content (ov_upper s').
Proof using HR HW.
revert off buf s. induction fuel as [|fuel IH]; intros off buf s Ho Hbuf Hf HRs HWs; cbn [copy_loop].
{ assert (off = len content) as -> by lia. rewrite Z.ltb_irrefl. cbn [negb]. exists s. split; [done|]. split; [done|].
  unfold len in HWs. rewrite Nat2Z.id, firstn_all in HWs. done. }
destruct (Z.ltb_spec off (len content)) as [Hlt|Hge]; cbn [negb].
- destruct (HR (ov_base s) off buf HRs ltac:(lia)) as (n & buf' & b' & E & HR' & Hn & Hz & Hl & Hle & Hd).
  unfold on_base, zoom. rewrite E. assert (n ≠ 0) as Hn0 by (intros ->; destruct (Hz eq_refl); lia).
  rewrite (proj2 (Z.eqb_neq _ _) Hn0). unfold on_upper, zoom. cbn [ov_upper].
  destruct (writes_file (ov_upper s) (take (Z.to_nat off) content) off (take (Z.to_nat n) buf') HWs ltac:(lia))
    as (w & u' & Ew & HW'). rewrite Ew. rewrite Hd, write_next in HW' by lia.
  apply IH; [lia|lia|lia|done|done].
- assert (off = len content) as -> by lia. exists s. split; [done|]. split; [done|].
  unfold len in HWs. rewrite Nat2Z.id, firstn_all in HWs. done.
Qed.

(** C23: copy-up copies the whole file: for any base whose handle reads a
  content, in reads however short, and any upper whose handle takes every write
  whole, the loop ends within one round per byte without an error and the
  upper's file then holds exactly that content. *)
Theorem copy_up_content (s : OV) :
R (ov_base s) → W [] (ov_upper s) →
∃ s', copy_loop base upper (Z.to_nat (len content)) bh uh (len content) 0
        (replicate (Z.to_nat COPY_CHUNK) 0) s = (Ok (), s') ∧
  R (ov_base s') ∧ W content (ov_upper s').
Proof using HR HW.
intros HRs HWs. pose proof (len_nonneg content). apply copy_loop_from; [lia| |lia|done|done].
unfold len. rewrite length_replicate. unfold COPY_CHUNK. lia.
Qed.
End copy.

(** ** A concrete overlay *)

Section memory_pure.
Context {CT : CaseTable}.

(** Reading an in-memory provider does not change its files. *)
#[export] Instance memory_read_pure : ReadPure memory m_files.
Proof.
intros o s Ho. destruct o; try done; cbn [op_state memory p_getattr p_readdir p_stored_name p_open p_close
  p_read_at p_read_next p_flush] in *.
- unfold mem_readdir. repeat case_match; done.
- unfold mem_open. apply (PM_bind_state (λ s', m_files s' = m_files s)).
  + unfold mem_open_path. cbn in Ho. apply Z.eqb_eq in Ho. unfold MUTATING_FLAGS in Ho.
    assert (Z.land flags OPEN_CREATE = 0 ∧ Z.land flags OPEN_TRUNC = 0) as [E1 E2].
    { rewrite !Z.land_lor_distr_r in Ho. apply Z.lor_eq_0_iff in Ho as [Ho _].
      apply Z.lor_eq_0_iff in Ho as [Ho E2]. apply Z.lor_eq_0_iff in Ho as [_ E1]. done. }
    rewrite E1, E2. cbn [Z.eqb negb andb]. repeat case_match; done.
  + intros r s1 E. rewrite <- E. apply (PM_bind_state (λ s', m_files s' = m_files s1)); [|done].
    apply (mem_on_opens_frame (table_insert r.1) s1).
- unfold mem_close. apply (PM_bind_state (λ s', m_files s' = m_files s)); [|done].
  apply (mem_on_opens_frame (table_remove h) s).
- unfold mem_read_at. pose proof (mem_on_opens_frame (table_get h) s) as [E _].
  destruct (mem_on_opens (table_get h) s) as [[path|e] s']; [|done]. cbn [snd] in E.
  destruct (m_files s' !! path); [|done]. by destruct (read_into _ _ _).
Qed.
End memory_pure.

Module OverlayDemo.
#[local] Existing Instance demo_table.

Definition mem_base : Memory := from_files [(lit "dir/x.ini", [1; 2; 3]); (lit "dir/y.ini", [4])].
Definition mem_upper : Memory := from_files [].
Definition ov : Provider (OverlayS Memory Memory) := overlay_fs memory memory.
Definition start : OverlayS Memory Memory := mkOv mem_base mem_upper table_new 1 0 ∅.
Definition x_ini : VPath := mkVPath 0 (lit "dir/x.ini").
Definition removed : OverlayS Memory Memory := (p_remove ov x_ini start).2.
Definition later : list op :=
  [OGetattr x_ini; OMkdir (mkVPath 0 (lit "dir/sub")); OOpen (mkVPath 0 (lit "dir/y.ini")) OPEN_WRITE].

(** A file of the base open for reading, and a new file of the upper. *)
Definition copying : OverlayS Memory Memory :=
  mkOv (p_open memory x_ini OPEN_READ mem_base).2
    (p_open memory (mkVPath 0 (lit "dir/.cu.1.x.ini")) (Z.lor OPEN_WRITE OPEN_CREATE) mem_upper).2 table_new 2 0 ∅.

(** An upper that takes one byte of a write, and says so. *)
Definition short_upper : Provider Memory :=
  mkProvider (p_capabilities memory) (p_getattr memory) (p_readdir memory) (p_open memory) (p_close memory) (p_read_at memory)
    (p_read_next memory) (λ h off d, p_write_at memory h off (take 1 d)) (p_set_len memory) (p_flush memory) (p_mkdir memory)
    (p_remove memory) (p_rename memory) (p_set_attr memory) (p_stored_name memory) (p_is_immutable memory).

(** Another thread removes a file of the directory while it is being scanned. *)
Definition marks : (OverlayS Memory Memory → OverlayS Memory Memory) * (OverlayS Memory Memory → OverlayS Memory Memory) :=
  (id, λ s, (write_whiteout memory (mkVPath 0 (lit "dir/y.ini")) s).2).

(** A marker made as a directory. *)
Definition with_marker : OverlayS Memory Memory :=
  ops_state ov [OGetattr x_ini; OMkdir (mkVPath 0 (lit "dir/.wh.x.ini"))] start.
End OverlayDemo.
Import OverlayDemo.

Lemma overlay_base_untouched_witness :
  m_files (ov_base (ops_state ov [ORemove x_ini; OOpen (mkVPath 0 (lit "dir/y.ini")) OPEN_WRITE] start)) = m_files mem_base.
Proof.
  exact (overlay_base_untouched (CT := demo_table) (memory (CT := demo_table)) (memory (CT := demo_table)) m_files
    [ORemove x_ini; OOpen (mkVPath 0 (lit "dir/y.ini")) OPEN_WRITE] start _
    ltac:(repeat apply Forall_cons_2; [done|intros H; vm_compute in H; done|apply Forall_nil; done])).
Defined.


Lemma copy_up_content_witness :
  ∃ s', copy_loop (memory (CT := demo_table)) (memory (CT := demo_table)) 3 1 1 3 0
          (replicate (Z.to_nat COPY_CHUNK) 0) copying = (Ok (), s') ∧
    file_of (ov_upper s') 1 = Some [1; 2; 3].
Proof.
  destruct (copy_up_content (memory (CT := demo_table)) (memory (CT := demo_table)) 1 1 [1; 2; 3]
    (mem_holds 1 [1; 2; 3]) (mem_holds 1) copying ltac:(split; vm_compute; reflexivity)
    ltac:(split; vm_compute; reflexivity)) as (s' & E & _ & _ & H).
  exists s'. split; [exact E|exact H].
Defined.

(** The first scan is thrown away; the walk answers all the same. *)
Lemma whiteout_walk_terminates_witness :
  ov_dirs (whiteout_rounds (CT := demo_table) (memory (CT := demo_table)) [marks] x_ini true true start).2 = ∅ ∧
  (∃ r s', whiteout_rounds (CT := demo_table) (memory (CT := demo_table)) ([marks] ++ replicate 11 (id, id)) x_ini true true start = (Some r, s')).
Proof.
  split; [vm_compute; reflexivity|].
  apply (whiteout_walk_terminates (CT := demo_table) (memory (CT := demo_table)) x_ini true true start [marks] (replicate 11 (id, id))).
  - apply Forall_replicate. split; intros s; split; [reflexivity|intros k Hk; exact Hk|reflexivity|intros k Hk; exact Hk].
  - vm_compute. lia.
Defined.

(** Property: copy-up loses what the upper does not take: the loop goes on by
  the bytes it read, not by those written, so over an upper that takes one byte
  of a write, as [write_at] may, a file of three bytes is copied as one and no
  error is reported. *)
Example short_write_corrupts_copy :
  let r := copy_loop (memory (CT := demo_table)) short_upper 3 1 1 3 0 (replicate (Z.to_nat COPY_CHUNK) 0) copying in
  (p_write_at short_upper 1 0 [1; 2; 3] (ov_upper copying)).1 = Ok 1 ∧
  r.1 = Ok () ∧ file_of (ov_base r.2) 1 = Some [1; 2; 3] ∧ file_of (ov_upper r.2) 1 = Some [1].
Proof. vm_compute. split_and!; reflexivity. Qed.

(** Property: a directory made under a marker's name hides its sibling from
  listings but not from lookups: [mkdir], like a rename onto such a name, does
  not drop the scanned index as an open for writing does, so [readdir] and
  [getattr] of the overlay disagree. *)
Example marker_mkdir_disagrees :
  (p_getattr ov x_ini with_marker).1 = Ok (Some (mkStat KIND_FILE 3 0)) ∧
  match (p_readdir ov (mkVPath 0 (lit "dir")) with_marker).1 with
  | Ok es => Some (de_name <$> es)
  | Err _ => None
  end = Some [lit "y.ini"].
Proof. split; vm_compute; reflexivity. Qed.

(** ** What a provider promises about a directory of plain files, the
    interface the registry host and moves between roots are proved against,
    and the in-memory provider as an instance of it. *)


(** ** What a store promises *)

(** A name all providers spell alike: lower-case ASCII, no separator. *)
Definition flat_char (c : char) : bool :=
  ascii c && negb ((65 <=? c) && (c <=? 90)) && negb (is_sep c).
Definition flat_name (n : str) : Prop := n ≠ [] ∧ forallb flat_char n = true.

(** [F] is the content of the store's files and [H h n] says that [h] is open
    on the file [n], in the states of [I]. A write may take fewer bytes than
    it was given, but at least one. *)
Class FlatStore {W} (P : Provider W) (root : Z) (F : W → gmap str bytes) (I : W → Prop) (H : Handle → str → W → Prop) : Prop := {
  fs_create n w : flat_name n → I w →
    ∃ h sz d w', p_open P (mkVPath root n) (Z.lor (Z.lor OPEN_WRITE OPEN_CREATE) OPEN_TRUNC) w = (Ok (h, sz, d), w') ∧
      I w' ∧ H h n w' ∧ F w' = <[n := []]> (F w);
  fs_write h n c off d w : I w → H h n w → F w !! n = Some c → 0 ≤ off → d ≠ [] →
    ∃ k w', p_write_at P h off d w = (Ok k, w') ∧ 0 < k ≤ len d ∧
      I w' ∧ H h n w' ∧ F w' = <[n := write_bytes c off (take (Z.to_nat k) d)]> (F w);
  fs_flush h n w : I w → H h n w → ∃ w', p_flush P h w = (Ok (), w') ∧ I w' ∧ H h n w' ∧ F w' = F w;
  fs_close h n w : I w → H h n w → ∃ w', p_close P h w = (Ok (), w') ∧ I w' ∧ F w' = F w;
  fs_rename a b c w : flat_name a → flat_name b → a ≠ b → I w → F w !! a = Some c →
    ∃ w', p_rename P (mkVPath root a) (mkVPath root b) w = (Ok (), w') ∧ I w' ∧ F w' = <[b := c]> (delete a (F w));
  fs_remove a c w : flat_name a → I w → F w !! a = Some c →
    ∃ w', p_remove P (mkVPath root a) w = (Ok (), w') ∧ I w' ∧ F w' = delete a (F w);
  fs_getattr n c w : flat_name n → I w → F w !! n = Some c →
    ∃ st w', p_getattr P (mkVPath root n) w = (Ok (Some st), w') ∧ st_kind st = KIND_FILE ∧ I w' ∧ F w' = F w;
  fs_open n w : flat_name n → I w →
    match F w !! n with
    | None => ∃ w', p_open P (mkVPath root n) OPEN_READ w = (Err ST_NOT_FOUND, w') ∧ I w' ∧ F w' = F w
    | Some c => ∃ h d w', p_open P (mkVPath root n) OPEN_READ w = (Ok (h, len c, d), w') ∧
        I w' ∧ H h n w' ∧ F w' = F w
    end;
  fs_read h n c off buf w : I w → H h n w → F w !! n = Some c → 0 ≤ off →
    ∃ k buf' w', p_read_at P h off buf w = ((Ok k, buf'), w') ∧ I w' ∧ H h n w' ∧ F w' = F w ∧
      0 ≤ k ≤ len buf ∧ (k = 0 → len buf = 0 ∨ len c ≤ off) ∧ len buf' = len buf ∧ (0 < k → off + k ≤ len c) ∧
      take (Z.to_nat k) buf' = take (Z.to_nat k) (drop (Z.to_nat off) c) }.

(** ** The in-memory store *)

Section memory_store.
Context {CT : CaseTable} (root : Z).

Lemma flat_fold n : forallb flat_char n = true → fold n = n.
Proof.
induction n as [|c n IH]; [done|]. cbn [forallb]. intros [Hc Hn]%andb_true_iff. rewrite fold_cons, IH by done.
unfold flat_char in Hc. apply andb_true_iff in Hc as [[Ha Hu]%andb_true_iff _].
rewrite lower_ascii by done. unfold ascii_lower. by destruct ((65 <=? c) && (c <=? 90)).
Qed.

Lemma flat_no_sep n : forallb flat_char n = true → no_char is_sep n.
Proof.
intros Hn. apply Forall_forall. intros c Hc. rewrite forallb_forall in Hn.
apply list_elem_of_In, Hn in Hc. unfold flat_char in Hc. apply andb_true_iff in Hc as [_ Hc].
by destruct (is_sep c).
Qed.

Lemma flat_piece n : flat_name n → piece_ok n.
Proof. intros [? Hn%flat_no_sep]. split; [done|]. by apply no_sep_no_slash. Qed.

Lemma flat_trim n : flat_name n → trim_rel n = n.
Proof.
intros [Hne Hn]. pose proof (flat_no_sep n Hn) as Hs. unfold trim_rel.
assert ((λ c, if c =? backslash then slash else c) <$> n = n) as ->.
{ clear -Hs. induction Hs as [|c n Hc Hs IH]; [done|]. cbn. f_equal; [|done].
  unfold is_sep in Hc. by destruct (Z.eqb_spec c backslash); [rewrite orb_true_r in Hc|]. }
assert (∀ m, no_char is_sep m → head m ≠ Some slash) as Hh.
{ intros m Hm. destruct Hm as [|c m Hc _]; [done|]. cbn. intros [= ->]. done. }
unfold trim_matches. rewrite (trim_start_head _ n) by auto. rewrite trim_start_head.
- apply rev_involutive.
- apply Hh. by apply Forall_rev.
Qed.

(** Plain files only, each indexed under its own name, and usable handles. *)
Record MemFlat (s : Memory) : Prop := {
  mf_opens : h_poisoned (m_opens s) = false;
  mf_dirs : m_dirs s = ∅;
  mf_index : IndexOk s;
  mf_files : map_Forall (λ k _, flat_name k) (m_files s) }.

Definition mem_open_on (h : Handle) (n : str) (s : Memory) : Prop := h_map (m_opens s) !! h = Some n.

Lemma first_piece_flat k : flat_name k → first_piece k = k.
Proof.
intros [_ Hk]%flat_piece. unfold first_piece.
by rewrite (split_on_piece is_slash k Hk).
Qed.

(** The child chosen for a name is the beginning of a stored path. *)
Lemma best_child_stored files dirs prefix part name :
best_child files dirs prefix part = Some name →
fold name = fold part ∧ ∃ rest, (is_Some (files !! (prefix ++ rest)) ∨ prefix ++ rest ∈ dirs) ∧ name = first_piece rest.
Proof.
unfold best_child. set (l := (map_to_list files).*1 ++ elements dirs).
assert (∀ k, k ∈ l → is_Some (files !! k) ∨ k ∈ dirs) as Hl.
{ intros k [Hk|Hk]%elem_of_app; [left|right; by apply elem_of_elements].
  apply list_elem_of_fmap in Hk as ([k' b] & -> & Hk%elem_of_map_to_list). by exists b. }
assert (∀ best, (∀ n, best = Some n → fold n = fold part ∧ ∃ rest, prefix ++ rest ∈ l ∧ n = first_piece rest) →
  ∀ l', l' ⊆ l → ∀ n, foldl (better prefix (fold part)) best l' = Some n →
  fold n = fold part ∧ ∃ rest, prefix ++ rest ∈ l ∧ n = first_piece rest) as Hg.
{ intros best Hb l'. revert best Hb. induction l' as [|k l' IH]; intros best Hb Hs n; cbn [foldl]; [apply Hb|].
  apply IH; [|set_solver]. intros m [?|(? & ? & rest & -> & ->)]%better_spec; [auto|]. split; [done|].
  exists rest. split; [set_solver|done]. }
intros E. destruct (Hg None ltac:(done) l ltac:(done) name E) as (Hf & rest & Hr & ->). split; [done|]. eauto.
Qed.

(** A plain name means the file of that name. *)
Lemma flat_resolve s n : MemFlat s → flat_name n → mem_resolve s n = n.
Proof.
intros HM Hn. pose proof Hn as [Hne Hc]. pose proof (resolve_fold s n (mf_index _ HM)) as Hf.
unfold mem_resolve, canonical_in in *. rewrite bool_decide_false in * by done.
destruct (_ || _) eqn:E0; [done|]. apply orb_false_iff in E0 as [E1 _]. apply bool_decide_eq_false in E1.
destruct (m_by_fold s !! fold n) as [hit|] eqn:Eh.
- apply (mf_index _ HM) in Eh as [Eh [[b Hb]|Hd]]; [|rewrite (mf_dirs _ HM) in Hd; set_solver].
  pose proof (mf_files _ HM _ _ Hb) as [_ Hh]. rewrite !flat_fold in Eh by done. done.
- assert (filter (λ p, p ≠ []) (split_on is_slash n) = [n]) as ->.
  { rewrite (split_on_piece is_slash n) by apply (flat_piece n Hn). by rewrite filter_cons_True, filter_nil. }
  cbn [canonical_loop]. change (mem_child_prefix [] ++ n) with n. case_bool_decide; [done|].
  destruct (best_child _ _ _ n) as [name|] eqn:Eb; [|done].
  apply best_child_stored in Eb as (Ef & k & Hk & Ek). change (mem_child_prefix [] ++ k) with k in Hk. rewrite (mf_dirs _ HM) in Hk.
  destruct Hk as [[b Hb]|Hd]; [|set_solver]. pose proof (mf_files _ HM _ _ Hb) as Hfk.
  subst name. rewrite first_piece_flat in Ef |- * by done.
  destruct Hfk as [_ Hh]. rewrite !flat_fold in Ef by done. by subst k.
Qed.

Lemma flat_opens s t : MemFlat s → h_poisoned t = false → MemFlat (mkMemory (m_files s) (m_dirs s) t (m_by_fold s)).
Proof. intros [Ho Hd Hi Hf] Ht. by split. Qed.

(** Setting the content of a plain file that exists, and making one. *)
Lemma flat_set s n b : MemFlat s → is_Some (m_files s !! n) →
MemFlat (mkMemory (<[n := b]> (m_files s)) (m_dirs s) (m_opens s) (m_by_fold s)).
Proof.
intros [Ho Hd Hi Hf] [c Hn]. split; try done.
- apply (IndexOk_same s); [done|done|]. intros k. unfold mem_stored. cbn [m_files m_dirs].
  destruct (decide (k = n)) as [->|]; [rewrite lookup_insert_eq; eauto|by rewrite lookup_insert_ne].
- apply map_Forall_insert_2; [by eapply Hf|done].
Qed.
Lemma flat_new s n b : MemFlat s → flat_name n →
MemFlat (mkMemory (<[n := b]> (m_files s)) (m_dirs s) (m_opens s) (index_insert (m_by_fold s) n)).
Proof.
intros [Ho Hd Hi Hf] Hn. split; try done.
- apply (IndexOk_more s _ n); [done|done|left; cbn; rewrite lookup_insert_eq; eauto|].
  intros k. unfold mem_stored. cbn [m_files m_dirs].
  destruct (decide (k = n)) as [->|]; [rewrite lookup_insert_eq; eauto|by rewrite lookup_insert_ne].
- by apply map_Forall_insert_2.
Qed.

(** Opening registers the name under a new handle. *)
Lemma flat_open n flags s s1 sz :
MemFlat s1 → mem_open_path (mkVPath root n) flags s = (Ok (n, sz), s1) →
∃ h s', mem_open (mkVPath root n) flags s = (Ok (h, sz, false), s') ∧
  MemFlat s' ∧ mem_open_on h n s' ∧ m_files s' = m_files s1.
Proof.
intros HM E. exists (h_next (m_opens s1)). unfold mem_open, mbind, PM_bind. rewrite E. cbn [fst snd].
unfold mem_on_opens, zoom, table_insert, fresh. cbn [h_poisoned]. rewrite (mf_opens _ HM). cbn [m_files].
eexists. split; [done|]. split; [by apply (flat_opens s1)|]. split; [|done].
unfold mem_open_on, with_map. cbn. apply lookup_insert_eq.
Qed.

Lemma flat_rename s a b c :
MemFlat s → flat_name a → flat_name b → a ≠ b → m_files s !! a = Some c →
∃ s', mem_rename (mkVPath root a) (mkVPath root b) s = (Ok (), s') ∧ MemFlat s' ∧
  m_files s' = <[b := c]> (delete a (m_files s)).
Proof.
intros HM Ha Hb Hne Hc.
assert (mem_rename (mkVPath root a) (mkVPath root b) s = (Ok (), (mem_rename (mkVPath root a) (mkVPath root b) s).2) ∧
  let s' := (mem_rename (mkVPath root a) (mkVPath root b) s).2 in
  m_opens s' = m_opens s ∧ m_dirs s' = m_dirs s ∧ m_files s' = <[b := c]> (delete a (m_files s))) as (E & Eo & Ed & Ef).
{ unfold mem_rename. cbn [vp_root vp_rel]. rewrite Z.eqb_refl. cbn [negb]. rewrite !flat_trim by done.
  destruct (str_eqb_spec a b); [done|]. rewrite !flat_resolve by done. rewrite Hc.
  unfold stat_of. rewrite (bool_decide_false (b = [])) by apply Hb.
  destruct (m_files s !! b) as [cb|] eqn:Eb.
  - rewrite bool_decide_true by eauto. destruct (str_eqb_spec b a); [done|]. cbn [andb negb file_stat st_kind].
    change (KIND_FILE =? KIND_DIR) with false. cbn. split; [done|]. split; [done|]. split; [done|].
    rewrite delete_delete. by rewrite insert_delete_eq.
  - rewrite (mf_dirs _ HM). rewrite (bool_decide_false (b ∈ _)) by set_solver.
    assert (any_file (starts_with (b ++ [slash])) (m_files s) = false) as ->.
    { apply not_true_iff_false. unfold any_file. intros (k & Hk & Hp)%existsb_exists.
      apply list_elem_of_In, list_elem_of_fmap in Hk as ([k' x] & -> & Hk%elem_of_map_to_list). cbn in Hp.
      pose proof (mf_files _ HM _ _ Hk) as [_ Hs]%flat_piece. unfold starts_with in Hp.
      destruct (strip_prefix _ k') as [r|] eqn:Er; [|done]. apply strip_prefix_Some in Er. rewrite Er in Hs.
      rewrite <- app_assoc in Hs. apply Forall_app in Hs as [_ Hs]. apply Forall_cons in Hs as [Hs _]. done. }
    cbn [orb any_dir elements existsb]. unfold any_dir. rewrite elements_empty. cbn. by rewrite (mf_dirs _ HM). }
exists (mem_rename (mkVPath root a) (mkVPath root b) s).2. split; [done|]. split; [|done]. split.
- by rewrite Eo, (mf_opens _ HM).
- by rewrite Ed, (mf_dirs _ HM).
- apply mem_rename_IndexOk, HM.
- rewrite Ef. apply map_Forall_insert_2; [done|]. apply map_Forall_delete, HM.
Qed.

(** The tests of [open]'s flags, for the flags the host uses. *)
Ltac open_flags :=
  change (Z.land (Z.lor (Z.lor OPEN_WRITE OPEN_CREATE) OPEN_TRUNC) OPEN_EXCL) with 0;
  change (Z.land (Z.lor (Z.lor OPEN_WRITE OPEN_CREATE) OPEN_TRUNC) OPEN_CREATE) with 4;
  change (Z.land (Z.lor (Z.lor OPEN_WRITE OPEN_CREATE) OPEN_TRUNC) OPEN_TRUNC) with 16;
  change (Z.land OPEN_READ OPEN_EXCL) with 0; change (Z.land OPEN_READ OPEN_CREATE) with 0;
  change (Z.land OPEN_READ OPEN_TRUNC) with 0; cbn [Z.eqb negb andb m_files].

#[export] Instance memory_flat_store : FlatStore memory root m_files MemFlat mem_open_on.
Proof.
split.
- intros n s Hn HM. destruct (m_files s !! n) as [c|] eqn:Hc.
  + destruct (flat_open n (Z.lor (Z.lor OPEN_WRITE OPEN_CREATE) OPEN_TRUNC) s
      (mkMemory (<[n := []]> (m_files s)) (m_dirs s) (m_opens s) (m_by_fold s)) 0) as (h & s' & E & ? & ? & ?);
      [by apply flat_set; [done|eexists]| |by exists h, 0, false, s'].
    unfold mem_open_path. cbn [vp_rel]. rewrite flat_trim, flat_resolve, Hc by done.
    rewrite bool_decide_true by eauto. open_flags. by rewrite lookup_insert_eq.
  + destruct (flat_open n (Z.lor (Z.lor OPEN_WRITE OPEN_CREATE) OPEN_TRUNC) s
      (mkMemory (<[n := []]> (m_files s)) (m_dirs s) (m_opens s) (index_insert (m_by_fold s) n)) 0)
      as (h & s' & E & ? & ? & ?); [by apply flat_new| |by exists h, 0, false, s'].
    unfold mem_open_path. cbn [vp_rel]. rewrite flat_trim, flat_resolve, Hc by done.
    rewrite bool_decide_false by (by intros [? [=]]). open_flags. by rewrite insert_insert_eq, lookup_insert_eq.
- intros h n c off d s HM Hh Hc Ho Hd. exists (len d), (mem_update n (λ body, write_bytes body off d) s).
  assert (0 < len d) as Hl by (destruct d; [done|unfold len; cbn; lia]).
  split. { cbn [memory p_write_at]. unfold mem_write_at, mbind, PM_bind. by rewrite (mem_get s h n (mf_opens _ HM) Hh). }
  unfold mem_update. rewrite Hc. rewrite take_ge by (unfold len; lia).
  split; [lia|]. split; [apply flat_set; [done|by eexists]|]. done.
- intros h n s HM Hh. by exists s.
- intros h n s HM Hh. cbn [memory p_close]. unfold mem_close, mbind, PM_bind, mem_on_opens, zoom, table_remove.
  rewrite (mf_opens _ HM), Hh. eexists. split; [done|]. split; [|done]. apply flat_opens; [done|apply (mf_opens _ HM)].
- intros a b c s Ha Hb Hne HM Hc. by apply flat_rename.
- intros n c s Hn HM Hc. cbn [memory p_remove]. unfold mem_remove. cbn [vp_rel]. rewrite flat_trim, flat_resolve, Hc by done.
  eexists. split; [done|]. split; [|done]. split; [apply HM|apply HM| |].
  + apply (IndexOk_removed s _ n); [apply HM|done|]. intros k Hk. unfold mem_stored. cbn [m_files m_dirs].
    by rewrite lookup_delete_ne.
  + apply map_Forall_delete, HM.
- intros n c s Hn HM Hc. exists (file_stat c), s. cbn [memory p_getattr]. unfold mem_getattr. cbn [vp_rel].
  rewrite flat_trim, flat_resolve by done. unfold stat_of. rewrite bool_decide_false by apply Hn. by rewrite Hc.
- intros n s Hn HM. cbn [memory p_open]. destruct (m_files s !! n) as [c|] eqn:Hc.
  + destruct (flat_open n OPEN_READ s s (len c)) as (h & s' & E & ? & ? & ?);
      [done| |by exists h, false, s'].
    unfold mem_open_path. cbn [vp_rel]. rewrite flat_trim, flat_resolve, Hc by done.
    rewrite bool_decide_true by eauto. open_flags. by rewrite Hc.
  + exists s. split; [|done]. unfold mem_open, mem_open_path, mbind, PM_bind. cbn [vp_rel].
    rewrite flat_trim, flat_resolve, Hc by done. by rewrite bool_decide_false by (by intros [? [=]]).
- intros h n c off buf s HM Hh Hc Ho.
  assert (mem_holds h c s) as Hm.
  { split; [apply (mf_opens _ HM)|]. unfold file_of. unfold mem_open_on in Hh. by rewrite Hh. }
  destruct (memory_reads_file h c s off buf Hm Ho) as (k & buf' & s' & E & _ & Hk & Hz & Hl & Hle & Ht).
  exists k, buf', s'. cbn [memory p_read_at] in E |- *. rewrite (mem_read_ok s h off buf c (mf_opens _ HM) (proj2 Hm)) in E.
  rewrite (mem_read_ok s h off buf c (mf_opens _ HM) (proj2 Hm)). injection E as <- <- <-. done.
Qed.
End memory_store.
