(* ===== verification/RegHost.v ===== *)
(** RegHost: the director's registry host (rust/crates/vfs-director/src/registry.rs).

    The host keeps the session's overlay in memory, saves it to one file of a
    store provider and publishes a generation after each write. A store is a
    provider whose methods act on a shared world [W], so that two owners of one
    provider see each other's changes. Clocks are arguments. Reading a whole
    file loops until the store answers 0 and so takes fuel; running out of it
    is [None], as is a panic of the overlay. Locks are never poisoned unless
    the overlay panics. *)

From S2P Require Import Prelude Text Path RegTypes RegPath Wire Protocol RegOverlay RegFormat Provider OverlayFs.

(** ** Constants *)

Definition OVERLAY_FILE : str := lit "overlay.reg".
Definition TMP_FILE : str := lit "overlay.reg.tmp".
Definition CORRUPT_PREFIX : str := lit "overlay.reg.corrupt-".
(** In nanoseconds. *)
Definition SAVE_INTERVAL : Z := 1000000000.
Definition SYNC_INTERVAL : Z := 300 * 1000000000.
Definition FILETIME_UNIX_EPOCH : Z := 11644473600.

(** [unix_ns] is the system clock, negative before 1970. *)
Definition filetime_now (unix_ns : Z) : Z :=
  let d := Z.max 0 unix_ns in
  as_u64 ((d / 1000000000 + FILETIME_UNIX_EPOCH) * 10000000 + (d mod 1000000000) / 100).

Definition reg_status (e : RegError) : Z :=
  match e with
  | NameTooLong | DataTooLarge | InvalidPath | TooDeep => ST_BAD_REQUEST
  | RegNotFound => ST_NOT_FOUND
  | AlreadyExists => ST_EXISTS
  end.

Definition lookup_state (l : Lookup) : Z :=
  match l with
  | LAbsent => 0
  | LPresent false => 1
  | LPresent true => 2
  | LTombstoned => 3
  end.

(** ** The generation *)

(** A sink is held weakly: [None] is one that is gone, [Some v] one that was
    last told [v]. *)
Record RegGeneration := mkGen { generation : Z; sinks : list (option Z) }.

Definition gen_new : RegGeneration := mkGen 1 [].
Definition add_sink (alive : bool) (g : RegGeneration) : RegGeneration :=
  if alive then mkGen (generation g) (sinks g ++ [Some (generation g)]) else g.
Definition gen_changed (g : RegGeneration) : RegGeneration :=
  let n := as_u64 (generation g + 1) in
  mkGen n (omap (λ s, match s with Some _ => Some (Some n) | None => None end) (sinks g)).

(** ** The host *)

Section host.
Context {CT : CaseTable} {W : Type}.

Record RegHost := mkHost {
  rh_overlay : Overlay;
  rh_store : Provider W;
  rh_saved : Z;
  rh_sync : option (W → result Z unit * W);
  rh_unsynced : bool;
  rh_kicked : bool;
  rh_stop : bool;
  (* [Some]: attached to the director's generation *)
  rh_publishes : bool }.

Definition set_overlay (o : Overlay) (h : RegHost) : RegHost :=
mkHost o (rh_store h) (rh_saved h) (rh_sync h) (rh_unsynced h) (rh_kicked h) (rh_stop h) (rh_publishes h).
Definition set_saved (v : Z) (h : RegHost) : RegHost :=
mkHost (rh_overlay h) (rh_store h) v (rh_sync h) (rh_unsynced h) (rh_kicked h) (rh_stop h) (rh_publishes h).
Definition set_unsynced (b : bool) (h : RegHost) : RegHost :=
mkHost (rh_overlay h) (rh_store h) (rh_saved h) (rh_sync h) b (rh_kicked h) (rh_stop h) (rh_publishes h).
Definition set_kicked (b : bool) (h : RegHost) : RegHost :=
mkHost (rh_overlay h) (rh_store h) (rh_saved h) (rh_sync h) (rh_unsynced h) b (rh_stop h) (rh_publishes h).
Definition set_stop (h : RegHost) : RegHost :=
mkHost (rh_overlay h) (rh_store h) (rh_saved h) (rh_sync h) (rh_unsynced h) (rh_kicked h) true (rh_publishes h).
Definition publish_to (h : RegHost) : RegHost :=
mkHost (rh_overlay h) (rh_store h) (rh_saved h) (rh_sync h) (rh_unsynced h) (rh_kicked h) (rh_stop h) true.

Definition host_valid_path (p : str) : bool :=
match reg_canonical p None with
| Ok c => str_eqb (fold c) (fold p) &&
    negb (existsb (λ c, str_eqb c dot || str_eqb c dotdot) (split_on is_bs p))
| Err _ => false
end.

Definition check_path (p : str) : result Z unit :=
if host_valid_path p then Ok () else Err ST_BAD_REQUEST.

(** *** Saving and loading *)

Definition at_default (rel : str) : VPath := mkVPath 0 rel.

(** The loop of [write_whole]; every round writes at least a byte. *)
Fixpoint write_loop (fuel : nat) (store : Provider W) (h : Handle) (bytes : list Z) (off : Z) : PM W unit := λ w,
if negb (off <? len bytes) then (Ok (), w) else
match fuel with
| O%nat => (Ok (), w)
| S fuel =>
    match p_write_at store h off (drop (Z.to_nat off) bytes) w with
    | (Err e, w) => (Err e, w)
    | (Ok n, w) => if n =? 0 then (Err ST_IO_ERROR, w) else write_loop fuel store h bytes (off + n) w
    end
end.

Definition write_whole (store : Provider W) (name : str) (bytes : list Z) : PM W unit := λ w,
match p_open store (at_default name) (Z.lor (Z.lor OPEN_WRITE OPEN_CREATE) OPEN_TRUNC) w with
| (Err e, w) => (Err e, w)
| (Ok (h, _, _), w) =>
    let '(res, w) := write_loop (length bytes) store h bytes 0 w in
    let '(closed, w) := p_close store h w in
    (res_and res closed, w)
end.

(** The loop of [read_whole]: [out] grows until the store answers 0. *)
Fixpoint read_loop (fuel : nat) (store : Provider W) (h : Handle) (out buf : bytes) (w : W)
    : option ((result Z unit * bytes) * W) :=
match fuel with
| O%nat => None
| S fuel =>
    match p_read_at store h (len out) buf w with
    | ((Err e, _), w) => Some ((Err e, out), w)
    | ((Ok n, buf), w) =>
        if n =? 0 then Some ((Ok (), out), w)
        else read_loop fuel store h (out ++ take (Z.to_nat n) buf) buf w
    end
end.

Definition read_whole (fuel : nat) (store : Provider W) (name : str) (w : W)
    : option (result Z (option bytes) * W) :=
match p_open store (at_default name) OPEN_READ w with
| (Err st, w) => Some (if st =? ST_NOT_FOUND then Ok None else Err st, w)
| (Ok (h, _, _), w) =>
    '((res, out), w) ← read_loop fuel store h [] (replicate (Z.to_nat (64 * 1024)) 0) w;
    let '(closed, w) := p_close store h w in
    Some ((λ _, Some out) <$> res_and res closed, w)
end.

(** A save in two halves: what is encoded under the overlay's lock ([None] when
  there is nothing to save), and the writing with only the saves' own lock
  held, during which the overlay may change. *)
Definition save_snapshot (h : RegHost) : option (option (bytes * Z)) :=
if version (rh_overlay h) =? rh_saved h then Some None else
b ← encode (rh_overlay h); Some (Some (b, version (rh_overlay h))).

Definition save_finish (bv : bytes * Z) (h : RegHost) (w : W) : result Z unit * (RegHost * W) :=
let h := set_unsynced true h in
match write_whole (rh_store h) TMP_FILE bv.1 w with
| (Err e, w) => (Err e, (h, w))
| (Ok _, w) =>
    match p_rename (rh_store h) (at_default TMP_FILE) (at_default OVERLAY_FILE) w with
    | (Err e, w) => (Err e, (h, w))
    | (Ok _, w) => (Ok (), (set_saved bv.2 h, w))
    end
end.

Definition save_if_dirty (h : RegHost) (w : W) : option (result Z unit * (RegHost * W)) :=
r ← save_snapshot h;
match r with
| None => Some (Ok (), (h, w))
| Some bv => Some (save_finish bv h w)
end.

Definition sync_if_unsynced (h : RegHost) (w : W) : result Z unit * (RegHost * W) :=
match rh_sync h with
| None => (Ok (), (h, w))
| Some sync =>
    if negb (rh_unsynced h) then (Ok (), (h, w)) else
    let '(r, w) := sync w in
    (r, (set_unsynced (match r with Ok _ => false | Err _ => true end) h, w))
end.

Definition host_durable (h : RegHost) (w : W) : option (result Z unit * (RegHost * W)) :=
'(r, (h, w)) ← save_if_dirty h w;
match r with Err e => Some (Err e, (h, w)) | Ok _ => Some (sync_if_unsynced h w) end.

Definition host_flush : RegHost → W → option (result Z unit * (RegHost * W)) := save_if_dirty.

(** A number as [format!] prints it. *)
Fixpoint decimal_loop (fuel : nat) (n : Z) (acc : str) : str :=
match fuel with
| O%nat => acc
| S fuel =>
    let acc := (48 + n mod 10) :: acc in
    if n <? 10 then acc else decimal_loop fuel (n / 10) acc
end.
(** A [u64] has at most twenty digits. *)
Definition decimal (n : Z) : str := decimal_loop 20 n [].

(** [open_inner]; [secs] is the unix time in seconds. Spawning the saver
  thread does not fail here. *)
Definition host_open (fuel : nat) (secs : Z) (store : Provider W) (sync : option (W → result Z unit * W)) (w : W)
    : option (result Z RegHost * W) :=
'(r, w) ← read_whole fuel store OVERLAY_FILE w;
let loaded (o : Overlay) := mkHost o store (version o) sync false false false false in
match r with
| Err e => Some (Err e, w)
| Ok None => Some (Ok (loaded overlay_new), w)
| Ok (Some b) =>
    match decode b with
    | Ok o => Some (Ok (loaded o), w)
    | Err _ =>
        match p_rename store (at_default OVERLAY_FILE) (at_default (CORRUPT_PREFIX ++ decimal secs)) w with
        | (Err e, w) => Some (Err e, w)
        | (Ok _, w) => Some (Ok (loaded overlay_new), w)
        end
    end
end.

(** *** Reading *)

Definition host_version (h : RegHost) : Z := version (rh_overlay h).

Definition host_lookup (path : str) (h : RegHost) : result Z (Lookup * bool * Z) :=
_ ← check_path path; Ok (reg_lookup (rh_overlay h) path, version (rh_overlay h)).
Definition host_key (path : str) (h : RegHost) : result Z (option RegNode * Z) :=
_ ← check_path path; Ok (reg_node (rh_overlay h) path, version (rh_overlay h)).
Definition host_key_reply (path : str) (h : RegHost) : result Z bytes :=
_ ← check_path path; Ok (encode_reg_key_reply (reg_node (rh_overlay h) path) (version (rh_overlay h))).
Definition host_changed (path : str) (subtree : bool) (since : Z) (h : RegHost) : result Z (bool * Z) :=
_ ← check_path path;
Ok (changed_since (rh_overlay h) path subtree since, version (rh_overlay h)).

(** *** Writing *)

(** The part of [mutate] under the overlay's lock. *)
Definition mutate_overlay (path : str) (f : Overlay → option (result RegError Z * Overlay)) (h : RegHost)
    : option (result Z Z * RegHost) :=
match check_path path with
| Err e => Some (Err e, h)
| Ok _ =>
    '(r, o) ← f (rh_overlay h);
    Some (match r with Ok v => Ok v | Err e => Err (reg_status e) end, set_overlay o h)
end.

Definition mutate_publish (h : RegHost) (g : RegGeneration) : RegGeneration :=
if rh_publishes h then gen_changed g else g.

Definition host_kick (h : RegHost) : RegHost := set_kicked true h.

Definition mutate (path : str) (f : Overlay → option (result RegError Z * Overlay)) (h : RegHost) (g : RegGeneration)
    : option (result Z Z * (RegHost * RegGeneration)) :=
'(r, h) ← mutate_overlay path f h;
match r with
| Err e => Some (Err e, (h, g))
| Ok v => Some (Ok v, (host_kick h, mutate_publish h g))
end.

Definition host_set_value (path name : str) (ty : Z) (data : bytes) (now : Z) :=
mutate path (set_value path name ty data (filetime_now now)).
Definition host_delete_value (path name : str) (now : Z) :=
mutate path (delete_value path name (filetime_now now)).
Definition host_create_key (path : str) (vol : bool) (now : Z) :=
mutate path (create_key path vol false (filetime_now now)).
Definition host_delete_key (path : str) (now : Z) :=
mutate path (delete_key path (filetime_now now)).
Definition host_rename_key (path new_leaf : str) (now : Z) (h : RegHost) (g : RegGeneration) :=
if str_eqb new_leaf dot || str_eqb new_leaf dotdot then Some (Err ST_BAD_REQUEST, (h, g)) else
mutate path (rename_key path new_leaf (filetime_now now)) h g.

(** *** The saver thread *)

(** What one look under the saver's lock decides. *)
Inductive SaverNext :=
| SReturn
| SWork (save sync : bool)
| SWait (due : option Z).

Definition saver_look (now : Z) (last : option Z) (last_sync interval : Z) (h : RegHost) : SaverNext :=
if rh_stop h then SReturn else
let save_due := match last with None => now | Some t => t + SAVE_INTERVAL end in
let sync_due :=
  if bool_decide (is_Some (rh_sync h)) && rh_unsynced h then Some (last_sync + interval) else None in
let save := rh_kicked h && (save_due <=? now) in
let sync := match sync_due with Some d => d <=? now | None => false end in
if save || sync then SWork save sync else
SWait (match (if rh_kicked h then Some save_due else None), sync_due with
       | Some a, Some b => Some (Z.min a b)
       | Some a, None => Some a
       | None, d => d
       end).

(** After a save: a failed one is tried again. *)
Definition saver_saved (r : result Z unit) (h : RegHost) : RegHost :=
match r with Ok _ => h | Err _ => host_kick h end.
Definition saver_sync (h : RegHost) (w : W) : RegHost * W := (sync_if_unsynced h w).2.

(** [Drop]: the saver is stopped and joined, then a last save. *)
Definition host_drop (h : RegHost) (w : W) : option W :=
'(_, (_, w)) ← save_if_dirty (set_stop h) w; Some w.
End host.
Arguments RegHost : clear implicits.
