(* ===== verification/RegHostProps.v ===== *)
(** RegHostProps: the registry host as a machine of several threads.

    Ring workers write the overlay, publish the generation and wake the saver,
    each a step of its own; the saver looks, snapshots, writes the file and
    syncs; a host may flush at any time. No write is forgotten by the saver,
    and an answer cached under a generation is current while that generation
    is. *)

From S2P Require Import Prelude Text Path RegTypes RegPath RegOverlay RegInv RegOps RegProps RegRename RegMachine.
From S2P Require Import RegFormat RegPersist RegLoad Provider OverlayFs RegHost.

(** ** The machine *)

(** Where the saver thread is. *)
Inductive SaverPc := Looking | Working (save sync : bool) | Ended.

(** Who holds the saves' lock, with the snapshot. *)
Inductive Owner := Saver | Flusher.

(** Whose step it is. *)
Inductive Actor := AWriter | AFlush | ASaver | AFinish | ATime | ADrop.

Section machine.
Context {CT : CaseTable} {W : Type} (interval : Z).

Record HS := mkHS {
  s_host : RegHost W;
  s_gen : RegGeneration;
  s_world : W;
  s_unpub : nat;
  s_unkicked : nat;
  s_pc : SaverPc;
  s_active : option (Owner * (bytes * Z));
  s_last : option Z;
  s_last_sync : Z;
  s_clock : Z }.

(** After the saves' lock holder [who] finished with [r]. *)
Definition finish_host (who : Owner) (r : result Z unit) (h : RegHost W) : RegHost W :=
match who with Saver => saver_saved r h | Flusher => h end.
Definition finish_pc (who : Owner) (pc : SaverPc) : SaverPc :=
match who, pc with Saver, Working _ sync => Working false sync | _, pc => pc end.

Inductive hstep : Actor → HS → HS → Prop :=
(* [mutate]: the write, the publication, the kick *)
| step_write op v h' h g w u k pc a l ls c :
    mutate_overlay (op_path op) (run_op op) h = Some (Ok v, h') →
    hstep AWriter (mkHS h g w u k pc a l ls c) (mkHS h' g w (S u) k pc a l ls c)
| step_refused op e h' h g w u k pc a l ls c :
    mutate_overlay (op_path op) (run_op op) h = Some (Err e, h') →
    hstep AWriter (mkHS h g w u k pc a l ls c) (mkHS h' g w u k pc a l ls c)
| step_publish h g w u k pc a l ls c :
    hstep AWriter (mkHS h g w (S u) k pc a l ls c) (mkHS h (mutate_publish h g) w u (S k) pc a l ls c)
| step_kick h g w u k pc a l ls c :
    hstep AWriter (mkHS h g w u (S k) pc a l ls c) (mkHS (host_kick h) g w u k pc a l ls c)
(* [flush] *)
| step_flush bv h g w u k pc l ls c :
    save_snapshot h = Some (Some bv) →
    hstep AFlush (mkHS h g w u k pc None l ls c) (mkHS h g w u k pc (Some (Flusher, bv)) l ls c)
(* the saver *)
| step_look save sync h g w u k a l ls c :
    saver_look c l ls interval h = SWork save sync →
    hstep ASaver (mkHS h g w u k Looking a l ls c)
          (mkHS (if save then set_kicked false h else h) g w u k (Working save sync) a l ls c)
| step_end h g w u k a l ls c :
    saver_look c l ls interval h = SReturn →
    hstep ASaver (mkHS h g w u k Looking a l ls c) (mkHS h g w u k Ended a l ls c)
| step_save bv sync h g w u k l ls c :
    save_snapshot h = Some (Some bv) →
    hstep ASaver (mkHS h g w u k (Working true sync) None l ls c)
          (mkHS h g w u k (Working true sync) (Some (Saver, bv)) (Some c) ls c)
| step_clean sync h g w u k l ls c :
    save_snapshot h = Some None →
    hstep ASaver (mkHS h g w u k (Working true sync) None l ls c)
          (mkHS h g w u k (Working false sync) None (Some c) ls c)
| step_sync h' w' h g w u k l ls c :
    saver_sync h w = (h', w') →
    hstep ASaver (mkHS h g w u k (Working false true) None l ls c) (mkHS h' g w' u k Looking None l c c)
| step_again h g w u k a l ls c :
    hstep ASaver (mkHS h g w u k (Working false false) a l ls c) (mkHS h g w u k Looking a l ls c)
(* whoever holds the saves' lock *)
| step_finish who bv r h' w' h g w u k pc l ls c :
    save_finish bv h w = (r, (h', w')) →
    hstep AFinish (mkHS h g w u k pc (Some (who, bv)) l ls c)
          (mkHS (finish_host who r h') g w' u k (finish_pc who pc) None l ls c)
| step_tick d h g w u k pc a l ls c :
    0 ≤ d → hstep ATime (mkHS h g w u k pc a l ls c) (mkHS h g w u k pc a l ls (c + d))
(* the host is dropped *)
| step_stop h g w u k pc a l ls c :
    hstep ADrop (mkHS h g w u k pc a l ls c) (mkHS (set_stop h) g w u k pc a l ls c).

Definition hmove (s s' : HS) : Prop := ∃ a, hstep a s s'.
(** The saver, the clock and a save under way. *)
Definition background (s s' : HS) : Prop :=
∃ a, hstep a s s' ∧ (a = ASaver ∨ a = AFinish ∨ a = ATime).

(** A host that has just been opened and attached. *)
Definition started (s : HS) : Prop :=
Inv (rh_overlay (s_host s)) ∧ version (rh_overlay (s_host s)) = rh_saved (s_host s) ∧
rh_publishes (s_host s) = true ∧ s_unpub s = O ∧ s_unkicked s = O ∧ s_pc s = Looking ∧ s_active s = None ∧
s_last s = None.

Definition dirty (s : HS) : Prop := version (rh_overlay (s_host s)) ≠ rh_saved (s_host s).

(** Someone will see to a save that starts from now on. *)
Definition promised (s : HS) : Prop :=
(0 < s_unpub s)%nat ∨ (0 < s_unkicked s)%nat ∨ rh_kicked (s_host s) = true ∨
(s_active s = None ∨ (∃ bv, s_active s = Some (Flusher, bv))) ∧ ∃ sync, s_pc s = Working true sync.

(** The saver's own save is the one under way only while it is saving. *)
Record HInv (s : HS) : Prop := {
  hi_inv : Inv (rh_overlay (s_host s));
  hi_pub : rh_publishes (s_host s) = true;
  hi_dirty : dirty s → promised s ∨
    ∃ bv, s_active s = Some (Saver, bv) ∧ bv.2 = version (rh_overlay (s_host s));
  hi_active who bv : s_active s = Some (who, bv) → bv.2 ≠ version (rh_overlay (s_host s)) → promised s;
  hi_saver bv : s_active s = Some (Saver, bv) → ∃ sync, s_pc s = Working true sync;
  hi_last t : s_last s = Some t → t ≤ s_clock s;
  hi_ended : s_pc s = Ended → rh_stop (s_host s) = true }.

(** *** What the steps do to the host *)

Lemma mutate_overlay_cases op h r h' :
Inv (rh_overlay h) → mutate_overlay (W := W) (op_path op) (run_op op) h = Some (r, h') →
(∃ e, r = Err e ∧ h' = h) ∨
(∃ o', r = Ok (version o') ∧ Inv o' ∧ version o' = next (rh_overlay h) ∧ h' = set_overlay o' h).
Proof.
intros HI. unfold mutate_overlay. destruct (check_path (op_path op)) as [[]|e]; [|intros [= <- <-]; left; eauto].
destruct (run_op_outcome op _ HI) as [[e E]|(o' & E & HI' & He & _)]; rewrite E; cbn [mbind option_bind]; intros [= <- <-].
- left. destruct h. eauto.
- right. exists o'. rewrite (ev_version _ _ _ He). auto.
Qed.

Lemma save_finish_cases bv h w r h' w' :
save_finish (W := W) bv h w = (r, (h', w')) →
match r with Ok _ => h' = set_saved bv.2 (set_unsynced true h) | Err _ => h' = set_unsynced true h end.
Proof.
unfold save_finish. repeat case_match; intros; simplify_eq; done.
Qed.

Lemma save_snapshot_cases h x :
save_snapshot (W := W) h = Some x →
match x with
| None => version (rh_overlay h) = rh_saved h
| Some bv => encode (rh_overlay h) = Some bv.1 ∧ bv.2 = version (rh_overlay h)
end.
Proof.
unfold save_snapshot. destruct (Z.eqb_spec (version (rh_overlay h)) (rh_saved h)); [by intros [= <-]|].
destruct (encode _) eqn:E; [|done]. by intros [= <-].
Qed.

Lemma saver_sync_cases h w h' w' :
saver_sync (W := W) h w = (h', w') → ∃ b, h' = set_unsynced b h.
Proof.
unfold saver_sync, sync_if_unsynced. repeat case_match; cbn [snd]; intros; simplify_eq; eauto.
all: exists (rh_unsynced h'); by destruct h'.
Qed.

Lemma started_HInv s : started s → HInv s.
Proof.
intros (HI & Hv & Hp & Hu & Hk & Hpc & Ha & Hl). split; [done|done|..].
- intros Hd. by destruct Hd.
- intros who bv. by rewrite Ha.
- intros bv. by rewrite Ha.
- intros t. by rewrite Hl.
- by rewrite Hpc.
Qed.

(** *** The invariant is kept *)

(** The reason for which a save is promised is at hand. *)
Ltac promise := unfold promised; cbn [s_unpub s_unkicked s_host s_active s_pc] in *; first
  [ left; done | right; left; done | right; right; left; done
  | right; right; right; split; [first [by left | right; by eexists] | by eexists] ].

(** A step that leaves the overlay, the saved version and the save under way
  alone, and breaks no promise. *)
Lemma HInv_quiet s s' :
HInv s → rh_overlay (s_host s') = rh_overlay (s_host s) → rh_publishes (s_host s') = rh_publishes (s_host s) →
rh_saved (s_host s') = rh_saved (s_host s) → s_active s' = s_active s →
(promised s → promised s') → (∀ sync, s_pc s = Working true sync → is_Some (s_active s) → s_pc s' = s_pc s) →
(∀ t, s_last s' = Some t → t ≤ s_clock s') → (s_pc s' = Ended → rh_stop (s_host s') = true) → HInv s'.
Proof.
intros [HI Hp Hd Ha Hs Hl He] Eo Ep Es Ea P Epc Hl' He'. split.
- by rewrite Eo.
- by rewrite Ep.
- unfold dirty. rewrite Eo, Es, Ea. intros [?|?]%Hd; [left; auto|by right].
- intros who bv. rewrite Ea, Eo. intros ? ?. by eapply P, Ha.
- intros bv E. rewrite Ea in E. destruct (Hs bv E) as [sync E']. exists sync.
  rewrite (Epc sync); [done|done|]. rewrite E. by eexists.
- done.
- done.
Qed.

(** A step after which a save is due whatever the overlay holds. *)
Lemma HInv_promised s s' :
HInv s → Inv (rh_overlay (s_host s')) → rh_publishes (s_host s') = true → promised s' →
s_active s' = s_active s → s_pc s' = s_pc s → (∀ t, s_last s' = Some t → t ≤ s_clock s') → (s_pc s' = Ended → rh_stop (s_host s') = true) → HInv s'.
Proof.
intros H HI Hp P Ea Epc Hl' He'. split; [done|done|by left|done| |done|done].
intros bv E. rewrite Ea in E. rewrite Epc. by eapply hi_saver.
Qed.

Lemma promised_mono s s' :
(s_unpub s <= s_unpub s')%nat → (s_unkicked s <= s_unkicked s')%nat → rh_kicked (s_host s') = rh_kicked (s_host s) →
s_active s' = s_active s → s_pc s' = s_pc s → promised s → promised s'.
Proof. intros ?? Ek Ea Epc [?|[?|[?|?]]]; unfold promised; rewrite Ek, Ea, Epc; auto with lia. Qed.

Lemma HInv_finish who bv r h h' g w w' u k pc l ls c :
HInv (mkHS h g w u k pc (Some (who, bv)) l ls c) → save_finish bv h w = (r, (h', w')) →
HInv (mkHS (finish_host who r h') g w' u k (finish_pc who pc) None l ls c).
Proof.
intros [HI Hp Hd Ha Hs Hl He] E. apply save_finish_cases in E. cbn [s_host s_active s_pc s_last s_clock] in *.
assert (bv.2 ≠ version (rh_overlay h) → (0 < u)%nat ∨ (0 < k)%nat ∨ rh_kicked h = true ∨
  who = Flusher ∧ ∃ sync, pc = Working true sync) as HP.
{ intros Hne. destruct (Ha who bv eq_refl Hne) as [?|[?|[?|[[?|[? ?]] ?]]]]; simplify_eq/=; auto. }
split; cbn [s_host s_active s_pc s_last s_clock]; try done.
- by destruct who, r; subst h'.
- by destruct who, r; subst h'.
- intros Hne. left. unfold promised, dirty in *. cbn [s_host s_active s_pc s_unpub s_unkicked] in *.
  destruct who, r as [[]|e]; subst h'; cbn [finish_host finish_pc saver_saved host_kick set_kicked rh_kicked
    set_saved set_unsynced rh_overlay rh_saved] in *; auto.
  + destruct (HP (not_eq_sym Hne)) as [?|[?|[?|[??]]]]; auto; done.
  + destruct (HP (not_eq_sym Hne)) as [?|[?|[?|[??]]]]; auto 10.
  + destruct (Hd Hne) as [[?|[?|[?|[? ?]]]]|(? & [=] & _)]; auto 10.
- intros Hpc. destruct who, r, pc; subst; try done; by apply He.
Qed.

Lemma hstep_HInv act s s' : hstep act s s' → HInv s → HInv s'.
Proof.
intros Hstep H. pose proof H as [HI Hp Hd Ha Hs Hl He].
inversion Hstep; subst; cbn [s_host s_active s_pc s_last s_clock] in *.
- destruct (mutate_overlay_cases op h _ h' HI H0) as [(e & [=] & _)|(o' & _ & HI' & _ & ->)].
  apply (HInv_promised _ _ H); try done. left. cbn. lia.
- destruct (mutate_overlay_cases op h _ h' HI H0) as [(e' & _ & ->)|(o' & [=] & _)]. done.
- apply (HInv_quiet _ _ H); try done. intros _. right. left. cbn. lia.
- apply (HInv_promised _ _ H); try done. right. right. by left.
- pose proof (save_snapshot_cases _ _ H0) as [_ Ev]. split; try done; cbn [s_host s_active].
  + intros D. destruct (Hd D) as [P|(? & [=] & _)]. left. destruct P as [?|[?|[?|[_ [? ?]]]]]; promise.
  + intros who bv' [= <- <-] Hne. by destruct Hne.
- assert (rh_kicked h = true ∨ save = false) as Hk.
  { unfold saver_look in H0. destruct (rh_stop h); [done|]. repeat case_match; simplify_eq/=; auto;
      destruct (rh_kicked h); auto. }
  split; cbn [s_host s_active s_pc s_last s_clock]; try done.
  + by destruct save.
  + by destruct save.
  + intros D. assert (dirty (mkHS h g w u k Looking a l ls c)) as D' by (by destruct save).
    destruct a as [[[] bv]|].
    * destruct (Hs bv eq_refl) as [? [=]].
    * destruct (Hd D') as [P|(? & [=] & _)]. left. destruct P as [?|[?|[?|[_ [? [=]]]]]]; destruct save; promise.
    * destruct (Hd D') as [P|(? & [=] & _)]. left. destruct P as [?|[?|[?|[_ [? [=]]]]]]; destruct save; promise.
  + intros who bv E Hne. destruct (Ha who bv E) as [?|[?|[?|[? [? [=]]]]]]; [by destruct save|..];
      unfold promised; cbn [s_unpub s_unkicked s_host s_active s_pc] in *; auto.
    destruct save; [|auto]. right; right; right. split; [|eauto]. destruct who; [|subst; eauto].
    subst. destruct (Hs bv eq_refl) as [? [=]].
  + intros bv E. destruct (Hs bv E) as [? [=]].
- apply (HInv_quiet _ _ H); try done.
  + intros [?|[?|[?|[_ [? [=]]]]]]; unfold promised; cbn [s_unpub s_unkicked s_host] in *; auto.
  + intros _. cbn [s_host]. unfold saver_look in H0. destruct (rh_stop h); [done|]. repeat case_match; done.
- pose proof (save_snapshot_cases _ _ H0) as [_ Ev]. split; cbn [s_host s_active s_pc s_last s_clock]; try done.
  + intros _. right. by exists bv.
  + intros who bv' [= <- <-] Hne. by destruct Hne.
  + intros. eauto.
  + intros t [= <-]. lia.
- pose proof (save_snapshot_cases _ _ H0) as Ev. cbn in Ev. split; cbn [s_host s_active s_pc s_last s_clock]; try done.
  + intros t [= <-]. lia.
- destruct (saver_sync_cases _ _ _ _ H0) as [b ->]. apply (HInv_quiet _ _ H); try done.
  intros [?|[?|[?|[_ [? [=]]]]]]; unfold promised; cbn [s_unpub s_unkicked s_host set_unsynced rh_kicked] in *; auto.
- apply (HInv_quiet _ _ H); try done.
  intros [?|[?|[?|[_ [? [=]]]]]]; unfold promised; cbn [s_unpub s_unkicked s_host] in *; auto.
- by eapply HInv_finish.
- apply (HInv_quiet _ _ H); try done. intros t E. specialize (Hl t E). cbn. lia.
- by apply (HInv_quiet _ _ H).
Qed.

Lemma reachable_HInv s0 s : started s0 → rtc hmove s0 s → HInv s.
Proof.
intros H0 Hr. apply started_HInv in H0. induction Hr as [|x y z [a Ha] _ IH]; [done|]. apply IH. by eapply hstep_HInv.
Qed.

(** ** Every write is saved *)

(** A store that serves the saves, as long as its world stays in [I]. *)
Definition store_works (P : Provider W) (sync : option (W → result Z unit * W)) (I : W → Prop) : Prop :=
(∀ b w, I w → ∃ w1 w2, write_whole P TMP_FILE b w = (Ok (), w1) ∧
   p_rename P (at_default TMP_FILE) (at_default OVERLAY_FILE) w1 = (Ok (), w2) ∧ I w2) ∧
(∀ f w, sync = Some f → I w → I (f w).2).

(** What the saver leaves alone. *)
Definition settled (P : Provider W) (sync : option (W → result Z unit * W)) (I : W → Prop) (o : Overlay) (s : HS) : Prop :=
HInv s ∧ rh_overlay (s_host s) = o ∧ rh_store (s_host s) = P ∧ rh_sync (s_host s) = sync ∧ I (s_world s) ∧
rh_stop (s_host s) = false ∧ s_unpub s = O ∧ s_unkicked s = O.

Section saves.
Context (P : Provider W) (sync : option (W → result Z unit * W)) (I : W → Prop) (o : Overlay).
Context (Works : store_works P sync I).
Local Abbreviation good := (settled P sync I o).
Local Abbreviation saved s := (good s ∧ version o = rh_saved (s_host s)).

Lemma save_finish_works bv h w :
rh_store h = P → I w → ∃ w', save_finish bv h w = (Ok (), (set_saved bv.2 (set_unsynced true h), w')) ∧ I w'.
Proof using Works.
intros <- Hw. destruct Works as [H _]. destruct (H bv.1 w Hw) as (w1 & w2 & E1 & E2 & Hw2).
exists w2. unfold save_finish. cbn [rh_store set_unsynced]. by rewrite E1, E2.
Qed.

Lemma bg a s s' : hstep a s s' → a = ASaver ∨ a = AFinish ∨ a = ATime → rtc background s s'.
Proof. intros. apply rtc_once. by exists a. Qed.

(** Finishing a save under way. *)
Lemma run_finish s who bv :
good s → s_active s = Some (who, bv) →
∃ s', rtc background s s' ∧ good s' ∧ s_active s' = None ∧ s_pc s' = finish_pc who (s_pc s) ∧
  rh_saved (s_host s') = bv.2.
Proof using Works.
destruct s as [h g w u k pc a l ls c]. intros (Hi & Ho & HP & Hs & Hw & Hst & Hu & Hk) Ea.
cbn [s_host s_active s_world s_unpub s_unkicked s_pc] in *. subst a.
destruct (save_finish_works bv h w HP Hw) as (w' & E & Hw').
pose proof (step_finish who bv _ _ _ _ g _ u k pc l ls c E) as Hstep.
eexists. split; [apply (bg _ _ _ Hstep); auto|]. split.
- split; [by eapply hstep_HInv|]. by destruct who.
- by destruct who.
Qed.

(** A saver at work finishes its save. *)
Lemma run_working s b :
good s → s_active s = None → s_pc s = Working true b → ∃ s', rtc background s s' ∧ saved s'.
Proof using Works.
destruct s as [h g w u k pc a l ls c]. intros Hg Ea Epc. pose proof Hg as (Hi & Ho & HP & Hs & Hw & Hst & Hu & Hk).
cbn [s_host s_active s_world s_unpub s_unkicked s_pc] in *. subst a pc.
assert (∃ x, save_snapshot h = Some x) as [[bv|] E].
{ unfold save_snapshot. case_match; [eauto|]. destruct (encode_Some _ (hi_inv _ Hi)) as [bs Eb].
  cbn [s_host] in Eb. rewrite Eb. cbn. eauto. }
- pose proof (step_save bv b h g w u k l ls c E) as Hstep. apply save_snapshot_cases in E as [_ Ev].
  destruct (run_finish (mkHS h g w u k (Working true b) (Some (Saver, bv)) (Some c) ls c) Saver bv)
    as (s' & Hr & Hg' & _ & _ & Es); [|done|].
  { split; [by eapply hstep_HInv|]. done. }
  exists s'. split; [eapply rtc_l; [exists ASaver; split; [exact Hstep|auto]|done]|]. split; [done|].
  rewrite Es, Ev, Ho. done.
- pose proof (step_clean b h g w u k l ls c E) as Hstep. apply save_snapshot_cases in E.
  eexists. split; [apply (bg _ _ _ Hstep); auto|]. split; [split; [by eapply hstep_HInv|done]|].
  cbn [s_host]. by rewrite <- Ho.
Qed.

(** A saver that looks at a dirty overlay waits until it may save. *)
Lemma run_looking s :
good s → s_active s = None → s_pc s = Looking → ∃ s', rtc background s s' ∧ saved s'.
Proof using Works.
destruct s as [h g w u k pc a l ls c]. intros Hg Ea Epc. pose proof Hg as (Hi & Ho & HP & Hs & Hw & Hst & Hu & Hk).
cbn [s_host s_active s_world s_unpub s_unkicked s_pc] in *. subst a pc u k.
destruct (decide (version (rh_overlay h) = rh_saved h)) as [E|E].
{ eexists. split; [apply rtc_refl|]. split; [done|]. cbn [s_host]. by rewrite <- Ho. }
assert (rh_kicked h = true) as Ek.
{ destruct (hi_dirty _ Hi E) as [Hpr|(? & [=] & _)].
  destruct Hpr as [Hp|[Hp|[Hp|[_ [? Hp]]]]]; cbn in Hp; [lia|lia|done|done]. }
pose proof (step_tick SAVE_INTERVAL h g w 0 0 Looking None l ls c ltac:(done)) as H1.
assert (∃ b, saver_look (c + SAVE_INTERVAL) l ls interval h = SWork true b) as [b Eb].
{ unfold saver_look. rewrite Hst, Ek. destruct l as [t|].
  - pose proof (hi_last _ Hi t eq_refl) as Ht. cbn in Ht.
    rewrite (proj2 (Z.leb_le _ _)) by lia. cbn [andb orb]. eauto.
  - rewrite Z.leb_refl. cbn [andb orb]. eauto. }
pose proof (step_look true b h g w 0 0 None l ls _ Eb) as H2.
assert (∀ a x y, hstep a x y → HInv x → HInv y) as HI by (intros a x y Hx Hy; by eapply hstep_HInv).
destruct (run_working _ b ltac:(split; [exact (HI _ _ _ H2 (HI _ _ _ H1 Hi))|done]) eq_refl eq_refl)
  as (s' & Hr & Hg').
exists s'. split; [|done]. eapply rtc_l; [exists ATime; split; [exact H1|auto]|].
eapply rtc_l; [exists ASaver; split; [exact H2|auto]|]. done.
Qed.

Lemma run_idle s :
good s → s_active s = None → ∃ s', rtc background s s' ∧ saved s'.
Proof using Works.
destruct s as [h g w u k pc a l ls c]. intros Hg Ea. pose proof Hg as (Hi & Ho & HP & Hs & Hw & Hst & Hu & Hk).
cbn [s_host s_active s_world s_unpub s_unkicked s_pc] in *. subst a.
assert (∀ a x y, hstep a x y → HInv x → HInv y) as HI by (intros a x y Hx Hy; by eapply hstep_HInv).
destruct pc as [|[] b|].
- by apply run_looking.
- by eapply run_working.
- destruct b.
  + destruct (saver_sync h w) as [h' w'] eqn:E. pose proof (step_sync h' w' h g w u k l ls c E) as H1.
    assert (I w') as Hw'.
    { unfold saver_sync, sync_if_unsynced in E. destruct Works as [_ Hf].
      destruct (rh_sync h) as [f|] eqn:Ef; cbn in E; [|by simplify_eq].
      destruct (negb (rh_unsynced h)); cbn in E; [by simplify_eq|].
      pose proof (Hf f w (eq_sym Hs) Hw) as Hfw. destruct (f w) as [r w2]. cbn in E, Hfw. by simplify_eq. }
    destruct (saver_sync_cases _ _ _ _ E) as [x ->].
    destruct (run_looking _ ltac:(split; [exact (HI _ _ _ H1 Hi)|done]) eq_refl eq_refl) as (s' & Hr & Hg').
    exists s'. split; [|done]. eapply rtc_l; [exists ASaver; split; [exact H1|auto]|done].
  + pose proof (step_again h g w u k None l ls c) as H1.
    destruct (run_looking _ ltac:(split; [exact (HI _ _ _ H1 Hi)|done]) eq_refl eq_refl) as (s' & Hr & Hg').
    exists s'. split; [|done]. eapply rtc_l; [exists ASaver; split; [exact H1|auto]|done].
- pose proof (hi_ended _ Hi eq_refl) as He. cbn in He. congruence.
Qed.
End saves.

(** C17: every write is saved: from any state the host can reach, under
  any interleaving of writers, flushes, failed saves and the saver, once the
  writers have returned, the saver alone (with the clock and a save already
  under way) reaches a state in which the version saved is the overlay's, if
  the store works from then on. *)
Theorem writes_are_saved s0 s (I : W → Prop) :
started s0 → rtc hmove s0 s → s_unpub s = O → s_unkicked s = O → rh_stop (s_host s) = false →
store_works (rh_store (s_host s)) (rh_sync (s_host s)) I → I (s_world s) →
∃ s', rtc background s s' ∧ rh_overlay (s_host s') = rh_overlay (s_host s) ∧
  rh_saved (s_host s') = version (rh_overlay (s_host s)) ∧ I (s_world s').
Proof.
intros H0 Hr Hu Hk Hst Hw HI. pose proof (reachable_HInv _ _ H0 Hr) as Hi.
set (P := rh_store (s_host s)) in *. set (y := rh_sync (s_host s)) in *. set (o := rh_overlay (s_host s)) in *.
assert (settled P y I o s) as Hg by done.
assert (∃ s1, rtc background s s1 ∧ settled P y I o s1 ∧ s_active s1 = None) as (s1 & H1 & Hg1 & Ha1).
{ destruct (s_active s) as [[who bv]|] eqn:Ea; [|exists s; by split; [apply rtc_refl|]].
  destruct (run_finish P y I o Hw s who bv Hg Ea) as (s' & ? & ? & ? & _). eauto. }
destruct (run_idle P y I o Hw s1 Hg1 Ha1) as (s2 & H2 & Hg2 & Es). exists s2.
split; [by etrans|]. destruct Hg2 as (_ & ? & _ & _ & ? & _). done.
Qed.

(** ** The generation *)

(** The generation a ring's readers see is the director's. *)
Definition sinks_current (g : RegGeneration) : Prop :=
Forall (λ v, v = Some (generation g)) (sinks g).

Lemma gen_changed_current g : sinks_current g → sinks_current (gen_changed g).
Proof.
intros _. apply Forall_forall. intros v (x & _ & Hx)%list_elem_of_omap. destruct x; by simplify_eq.
Qed.

(** A step applies a write or leaves the overlay alone; what is published
  never falls behind. *)
Lemma hstep_gen a s s' :
hstep a s s' → HInv s → in_u64 (generation (s_gen s)) → generation (s_gen s) + 1 < u64_max →
let φ s := generation (s_gen s) + Z.of_nat (s_unpub s) in
in_u64 (generation (s_gen s')) ∧ generation (s_gen s) ≤ generation (s_gen s') ≤ generation (s_gen s) + 1 ∧
(sinks_current (s_gen s) → sinks_current (s_gen s')) ∧
φ s ≤ φ s' ∧ (φ s' = φ s → rh_overlay (s_host s') = rh_overlay (s_host s)).
Proof.
intros Hstep Hi Hr Hb φ. subst φ. inversion Hstep; subst; cbn [s_gen s_unpub s_host] in *.
3: { pose proof (hi_pub _ Hi) as Hp. cbn in Hp. unfold mutate_publish. rewrite Hp.
  unfold gen_changed at 1 2 3 5. cbn [generation]. unfold in_u64, as_u64 in *.
  rewrite Z.mod_small by lia. split_and!; [lia|lia|lia|lia|apply gen_changed_current|lia|done]. }
2: { destruct (mutate_overlay_cases op h _ h' (hi_inv _ Hi) H) as [(e' & _ & ->)|(o' & [=] & _)]. by split_and!; try lia. }
all: split_and!; try done; try lia.
- by destruct save.
- destruct (saver_sync_cases _ _ _ _ H) as [b ->]. done.
- apply save_finish_cases in H. destruct who, r; subst h'; done.
Qed.

End machine.
