(* ===== verification/RegStore.v ===== *)
(** RegStore: the registry host over its store: what is saved is what is loaded,
    also when the machine stops in the middle of a save.

    The theorems are proved from what [FlatStore] says of a store, for the root
    [VPath::at_default] names. *)

From S2P Require Import Prelude Text Path RegTypes RegPath RegOverlay RegInv RegOps RegMachine RegFormat.
From S2P Require Import RegPersist RegLoad RegDecode Provider Compose Memory MemoryProps OverlayFs OverlayProps.
From S2P Require Import CopyUp RegHost RegHostProps.

Lemma flat_OVERLAY_FILE : flat_name OVERLAY_FILE.
Proof. by split. Qed.
Lemma flat_TMP_FILE : flat_name TMP_FILE.
Proof. by split. Qed.
#[export] Hint Resolve flat_OVERLAY_FILE flat_TMP_FILE : vfs.

(** ** Whole files *)

Section whole.
Context {W : Type} (P : Provider W) (F : W → gmap str bytes) (I : W → Prop) (H : Handle → str → W → Prop).
Context `{FS : !FlatStore P 0 F I H}.

Lemma write_loop_ok fuel h n b off w :
I w → H h n w → F w !! n = Some (take (Z.to_nat off) b) → 0 ≤ off ≤ len b → len b - off ≤ Z.of_nat fuel →
∃ w', write_loop fuel P h b off w = (Ok (), w') ∧ I w' ∧ H h n w' ∧ F w' = <[n := b]> (F w).
Proof using FS.
revert off w. induction fuel as [|fuel IH]; intros off w HI HH HF Ho Hf; cbn [write_loop];
  (destruct (Z.ltb_spec off (len b)) as [Hlt|Hge]; cbn [negb]; [|
    exists w; split; [done|]; split; [done|]; split; [done|];
    rewrite take_ge in HF by (unfold len in *; lia); by rewrite insert_id]).
- lia.
- assert (drop (Z.to_nat off) b ≠ []) as Hd.
  { intros E%(f_equal length). rewrite length_drop in E. unfold len in *. cbn in E. lia. }
  destruct (fs_write h n _ off _ w HI HH HF ltac:(lia) Hd) as (k & w' & E & Hk & HI' & HH' & HF').
  assert (len (drop (Z.to_nat off) b) = len b - off) as Hl by (unfold len in *; rewrite length_drop; lia).
  rewrite E. rewrite (proj2 (Z.eqb_neq _ _)) by lia. rewrite write_next in HF' by lia.
  destruct (IH (off + k) w' HI' HH') as (w2 & E2 & HI2 & HH2 & HF2); [by rewrite HF', lookup_insert_eq|lia|lia|].
  exists w2. split; [done|]. split; [done|]. split; [done|]. rewrite HF2, HF'. apply insert_insert_eq.
Qed.

Lemma write_whole_ok n b w :
flat_name n → I w → ∃ w', write_whole P n b w = (Ok (), w') ∧ I w' ∧ F w' = <[n := b]> (F w).
Proof using FS.
intros Hn HI. unfold write_whole, at_default. destruct (fs_create n w Hn HI) as (h & sz & d & w1 & E & HI1 & HH1 & HF1). rewrite E.
destruct (write_loop_ok (length b) h n b 0 w1 HI1 HH1) as (w2 & E2 & HI2 & HH2 & HF2);
  [by rewrite HF1, lookup_insert_eq|unfold len; lia|unfold len; lia|]. rewrite E2.
destruct (fs_close h n w2 HI2 HH2) as (w3 & E3 & HI3 & HF3). rewrite E3. exists w3.
split; [done|]. split; [done|]. by rewrite HF3, HF2, HF1, insert_insert_eq.
Qed.

Lemma read_loop_ok fuel h n c out buf w :
I w → H h n w → F w !! n = Some c → out = take (length out) c → 0 < len buf → len c - len out < Z.of_nat fuel →
∃ w', read_loop fuel P h out buf w = Some ((Ok (), c), w') ∧ I w' ∧ H h n w' ∧ F w' = F w.
Proof using FS.
revert out buf w. induction fuel as [|fuel IH]; intros out buf w HI HH HF Ho Hb Hf; cbn [read_loop].
{ assert (len out ≤ len c) by (rewrite Ho; unfold len; rewrite length_take; lia). lia. }
destruct (fs_read h n c (len out) buf w HI HH HF ltac:(unfold len; lia))
  as (k & buf' & w' & E & HI' & HH' & HF' & Hk & Hz & Hl & Hle & Ht).
rewrite E. destruct (Z.eqb_spec k 0) as [->|Hne].
- exists w'. destruct (Hz eq_refl); [lia|]. split; [|done].
  rewrite take_ge in Ho by (unfold len in *; lia). by rewrite <- Ho.
- assert (len (take (Z.to_nat k) buf') = k) as Hlk by (unfold len in *; rewrite length_take; lia).
  destruct (IH (out ++ take (Z.to_nat k) buf') buf' w' HI' HH') as (w2 & E2 & HI2 & HH2 & HF2).
  + by rewrite HF'.
  + rewrite length_app, <- take_take_drop, <- Ho. f_equal.
    assert (length (take (Z.to_nat k) buf') = Z.to_nat k) as -> by (unfold len in Hlk; lia).
    rewrite Ht. unfold len. by rewrite Nat2Z.id.
  + lia.
  + rewrite len_app. lia.
  + exists w2. split; [done|]. split; [done|]. split; [done|]. by rewrite HF2.
Qed.

Lemma read_whole_ok fuel n w :
flat_name n → I w → (∀ c, F w !! n = Some c → len c < Z.of_nat fuel) →
∃ w', read_whole fuel P n w = Some (Ok (F w !! n), w') ∧ I w' ∧ F w' = F w.
Proof using FS.
intros Hn HI Hf. unfold read_whole, at_default. pose proof (fs_open n w Hn HI) as Ho.
destruct (F w !! n) as [c|] eqn:Hc.
- destruct Ho as (h & d & w1 & E & HI1 & HH1 & HF1). rewrite E.
  destruct (read_loop_ok fuel h n c [] (replicate (Z.to_nat (64 * 1024)) 0) w1 HI1 HH1) as (w2 & E2 & HI2 & HH2 & HF2);
    [by rewrite HF1|done|unfold len; rewrite length_replicate; lia|specialize (Hf c eq_refl); change (len []) with 0; lia|].
  rewrite E2. cbn [mbind option_bind]. destruct (fs_close h n w2 HI2 HH2) as (w3 & E3 & HI3 & HF3). rewrite E3.
  exists w3. cbn [res_and fmap result_fmap]. split; [done|]. split; [done|]. by rewrite HF3, HF2.
- destruct Ho as (w1 & E & HI1 & HF1). rewrite E. exists w1. by rewrite Z.eqb_refl.
Qed.

(** A store that keeps its promises works for the saver. *)
Lemma flat_store_works : store_works P None I.
Proof using FS.
split; [|done]. intros b w HI. destruct (write_whole_ok TMP_FILE b w) as (w1 & E1 & HI1 & HF1); [auto with vfs|done|].
destruct (fs_rename TMP_FILE OVERLAY_FILE b w1) as (w2 & E2 & HI2 & _); [auto with vfs|auto with vfs|done|done| |].
{ by rewrite HF1, lookup_insert_eq. }
by exists w1, w2.
Qed.
End whole.

(** ** A machine that stops *)

(** The store after [k] more calls does nothing any more. *)
Definition crash_call {W A} (e : A) (m : W → A * W) : W * nat → A * (W * nat) := λ wk,
  match wk.2 with
  | O%nat => (e, wk)
  | S k => let '(r, w) := m wk.1 in (r, (w, k))
  end.

Definition crashing {W} (P : Provider W) : Provider (W * nat) := {|
  p_capabilities := p_capabilities P;
  p_getattr := λ p, crash_call (Err ST_IO_ERROR) (p_getattr P p);
  p_readdir := λ p, crash_call (Err ST_IO_ERROR) (p_readdir P p);
  p_open := λ p f, crash_call (Err ST_IO_ERROR) (p_open P p f);
  p_close := λ h, crash_call (Err ST_IO_ERROR) (p_close P h);
  p_read_at := λ h off buf, crash_call (Err ST_IO_ERROR, buf) (p_read_at P h off buf);
  p_read_next := λ h buf, crash_call (Err ST_IO_ERROR, buf) (p_read_next P h buf);
  p_write_at := λ h off d, crash_call (Err ST_IO_ERROR) (p_write_at P h off d);
  p_set_len := λ h n, crash_call (Err ST_IO_ERROR) (p_set_len P h n);
  p_flush := λ h, crash_call (Err ST_IO_ERROR) (p_flush P h);
  p_mkdir := λ p, crash_call (Err ST_IO_ERROR) (p_mkdir P p);
  p_remove := λ p, crash_call (Err ST_IO_ERROR) (p_remove P p);
  p_rename := λ a b, crash_call (Err ST_IO_ERROR) (p_rename P a b);
  p_set_attr := λ p a, crash_call (Err ST_IO_ERROR) (p_set_attr P p a);
  p_stored_name := λ p, crash_call (Err ST_IO_ERROR) (p_stored_name P p);
  p_is_immutable := λ h wk, p_is_immutable P h wk.1 |}.

Section crash.
Context {CT : CaseTable} {W : Type} (P : Provider W) (F : W → gmap str bytes) (I : W → Prop) (H : Handle → str → W → Prop).
Context `{FS : !FlatStore P 0 F I H}.

(** Whatever happens while the temporary file is written, no other file
  changes; and if it is said to be written, it is. *)
Lemma write_loop_crash fuel h n b off w k r w' k' :
write_loop fuel (crashing P) h b off (w, k) = (r, (w', k')) →
I w → H h n w → F w !! n = Some (take (Z.to_nat off) b) → 0 ≤ off ≤ len b → len b - off ≤ Z.of_nat fuel →
I w' ∧ H h n w' ∧ delete n (F w') = delete n (F w) ∧ (r = Ok () → F w' !! n = Some b).
Proof using FS.
revert off w k. induction fuel as [|fuel IH]; intros off w k E HI HH HF Ho Hf; cbn [write_loop] in E;
  (destruct (Z.ltb_spec off (len b)) as [Hlt|Hge]; cbn [negb] in E; [|
    injection E as <- <- <-; split_and!; try done; intros _;
    by rewrite take_ge in HF by (unfold len in *; lia)]).
- lia.
- assert (drop (Z.to_nat off) b ≠ []) as Hd.
  { intros E'%(f_equal length). rewrite length_drop in E'. unfold len in *. cbn in E'. lia. }
  destruct k as [|k]; [by injection E as <- <- <-|].
  destruct (fs_write h n _ off _ w HI HH HF ltac:(lia) Hd) as (m & w1 & Em & Hm & HI' & HH' & HF').
  assert (len (drop (Z.to_nat off) b) = len b - off) as Hl by (unfold len in *; rewrite length_drop; lia).
  unfold crashing, crash_call in E. cbn [p_write_at fst snd] in E. rewrite Em in E.
  rewrite (proj2 (Z.eqb_neq _ _)) in E by lia. rewrite write_next in HF' by lia.
  destruct (IH (off + m) w1 k E HI' HH') as (HI2 & HH2 & HF2 & Hr);
    [by rewrite HF', lookup_insert_eq|lia|lia|].
  split_and!; try done. by rewrite HF2, HF', delete_insert_eq.
Qed.

Lemma write_whole_crash n b w k r w' k' :
write_whole (crashing P) n b (w, k) = (r, (w', k')) → flat_name n → I w →
I w' ∧ delete n (F w') = delete n (F w) ∧ (r = Ok () → F w' !! n = Some b).
Proof using FS.
intros E Hn HI. unfold write_whole, at_default in E. destruct k as [|k]; [by injection E as <- <- <-|].
destruct (fs_create n w Hn HI) as (h & sz & d & w1 & E1 & HI1 & HH1 & HF1).
change (p_open (crashing P) ?p ?f) with (crash_call (W := W) (Err ST_IO_ERROR) (p_open P p f)) in E.
unfold crash_call in E. cbn [fst snd] in E. rewrite E1 in E.
destruct (write_loop _ _ _ _ _ _) as [res [w2 k2]] eqn:E2.
eapply write_loop_crash in E2 as (HI2 & HH2 & HF2 & Hr); [|done|done|by rewrite HF1, lookup_insert_eq|unfold len; lia|unfold len; lia].
assert (delete n (F w2) = delete n (F w)) as Hd by (by rewrite HF2, HF1, delete_insert_eq).
unfold crashing, crash_call in E. cbn [p_close fst snd] in E. destruct k2 as [|k2].
- destruct res; injection E as <- <- <-; by split_and!.
- destruct (fs_close h n w2 HI2 HH2) as (w3 & E3 & HI3 & HF3). rewrite E3 in E.
  destruct res as [[]|e]; injection E as <- <- <-; rewrite ?HF3; split_and!; try done.
Qed.

(** The file is always the old one or the new one. *)
Lemma save_crash (bv : bytes * Z) (h : RegHost (W * nat)) w k r h' w' k' :
rh_store h = crashing P → I w → save_finish bv h (w, k) = (r, (h', (w', k'))) →
I w' ∧ (F w' !! OVERLAY_FILE = F w !! OVERLAY_FILE ∨ F w' !! OVERLAY_FILE = Some bv.1) ∧
(r = Ok () → F w' !! OVERLAY_FILE = Some bv.1 ∧ rh_saved h' = bv.2).
Proof using FS.
intros EP HI E. unfold save_finish, at_default in E. cbn [set_unsynced rh_store] in E. rewrite EP in E.
destruct (write_whole _ TMP_FILE _ _) as [r1 [w1 k1]] eqn:E1.
apply write_whole_crash in E1 as (HI1 & Hd & Hr); [|auto with vfs|done].
assert (F w1 !! OVERLAY_FILE = F w !! OVERLAY_FILE) as Hs.
{ pose proof (f_equal (.!! OVERLAY_FILE) Hd) as Hl. cbn beta in Hl. by rewrite !lookup_delete_ne in Hl. }
destruct r1 as [[]|e]; [|injection E as <- <- <- <-; rewrite Hs; by split_and!; [| left|]].
unfold crashing, crash_call in E. cbn [p_rename fst snd] in E. destruct k1 as [|k1].
{ injection E as <- <- <- <-. rewrite Hs. by split_and!; [| left|]. }
destruct (fs_rename TMP_FILE OVERLAY_FILE bv.1 w1) as (w2 & E2 & HI2 & HF2); auto with vfs.
rewrite E2 in E. injection E as <- <- <- <-. rewrite HF2, lookup_insert_eq. auto.
Qed.

(** ** Opening again *)

(** What a start loads from the file. *)
Lemma host_open_ok fuel secs sync w b o :
I w → F w !! OVERLAY_FILE = Some b → decode b = Ok o → len b < Z.of_nat fuel →
∃ w', host_open fuel secs P sync w = Some (Ok (mkHost o P (version o) sync false false false false), w') ∧
  I w' ∧ F w' = F w.
Proof using FS.
intros HI HF Hd Hf. unfold host_open.
destruct (read_whole_ok P F I H fuel OVERLAY_FILE w) as (w' & E & HI' & HF'); [auto with vfs|done|naive_solver|].
rewrite E, HF. cbn [mbind option_bind]. rewrite Hd. by exists w'.
Qed.

(** C19: saving and starting again gives the overlay back, if its names,
  sizes and depth are within the limits the decoder checks ([Fits]; deleting a
  key can leave a name that is not, [overlong_delete_unloadable]): a host with
  unsaved changes saves without an error on a store that keeps its promises,
  and a host opened on that store afterwards holds exactly what is persistent
  of the overlay, in a well-formed state with nothing left to save. *)
Theorem save_then_open (h : RegHost W) w secs sync :
rh_store h = P → I w → Inv (rh_overlay h) → Fits (rh_overlay h) → version (rh_overlay h) ≠ rh_saved h →
∃ h' w' fuel h2 w2, save_if_dirty h w = Some (Ok (), (h', w')) ∧
  rh_saved h' = version (rh_overlay h) ∧ rh_overlay h' = rh_overlay h ∧
  host_open fuel secs P sync w' = Some (Ok h2, w2) ∧
  Reloaded (rh_overlay h) (rh_overlay h2) ∧ Inv (rh_overlay h2) ∧ rh_saved h2 = version (rh_overlay h2).
Proof using FS.
intros EP HI HInv HFits Hne. destruct (load_reloaded _ HInv HFits) as (b & o' & Ee & Ed & _ & HR).
unfold save_if_dirty, save_snapshot. rewrite (proj2 (Z.eqb_neq _ _)), Ee by done. cbn [mbind option_bind].
unfold save_finish, at_default. cbn [set_unsynced rh_store fst snd]. rewrite EP.
destruct (write_whole_ok P F I H TMP_FILE b w) as (w1 & E1 & HI1 & HF1); [auto with vfs|done|]. rewrite E1.
destruct (fs_rename TMP_FILE OVERLAY_FILE b w1) as (w2 & E2 & HI2 & HF2); [auto with vfs|auto with vfs|done|done| |].
{ by rewrite HF1, lookup_insert_eq. }
rewrite E2. eexists _, w2, (S (length b)).
destruct (host_open_ok (S (length b)) secs sync w2 b o') as (w3 & E3 & _); [done|by rewrite HF2, lookup_insert_eq|done|unfold len; lia|].
eexists _, w3. split; [done|]. split; [done|]. split; [done|]. split; [exact E3|].
split; [exact HR|]. split; [|done]. by eapply reloaded_Inv.
Qed.

(** C18: a crash loses at most the save it interrupts, if the file held
  something the decoder accepts before and the overlay being saved is within
  the decoder's limits ([Fits]): wherever the store
  stops answering in the course of a save, a host opened on it afterwards
  loads, and it loads either what the file held before or the overlay that
  was being saved; the latter if the save was reported to have succeeded. *)
Theorem crash_keeps_saved (h : RegHost (W * nat)) w k r h' w' k' b0 o0 secs :
rh_store h = crashing P → I w → F w !! OVERLAY_FILE = Some b0 → decode b0 = Ok o0 →
Inv (rh_overlay h) → Fits (rh_overlay h) → version (rh_overlay h) ≠ rh_saved h →
save_if_dirty h (w, k) = Some (r, (h', (w', k'))) →
∃ fuel h2 w2, host_open fuel secs P None w' = Some (Ok h2, w2) ∧
  (rh_overlay h2 = o0 ∨ Reloaded (rh_overlay h) (rh_overlay h2)) ∧
  (r = Ok () → Reloaded (rh_overlay h) (rh_overlay h2) ∧ rh_saved h' = version (rh_overlay h)).
Proof using FS.
intros EP HI HF Hd0 HInv HFits Hne E. destruct (load_reloaded _ HInv HFits) as (b & o1 & Ee & Ed & _ & HR).
unfold save_if_dirty, save_snapshot in E. rewrite (proj2 (Z.eqb_neq _ _)), Ee in E by done. cbn [mbind option_bind] in E.
injection E as E. apply save_crash in E as (HI' & Hold & Hnew); [|done|done]. cbn [fst snd] in *.
destruct (decide (F w' !! OVERLAY_FILE = Some b)) as [Hb|Hb].
- destruct (host_open_ok (S (length b)) secs None w' b o1) as (w2 & E2 & _); [done|done|done|unfold len; lia|].
  exists (S (length b)). eexists _, w2. split; [exact E2|].
  split; [by right|]. intros Hr. split; [done|]. apply (Hnew Hr).
- destruct Hold as [Hold|Hold]; [|done]. rewrite HF in Hold.
  destruct (host_open_ok (S (length b0)) secs None w' b0 o0) as (w2 & E2 & _); [done|done|done|unfold len; lia|].
  exists (S (length b0)). eexists _, w2. split; [exact E2|]. split; [by left|].
  intros Hr. destruct (Hnew Hr) as [? _]. done.
Qed.
End crash.

(** ** A concrete host *)

Module StoreDemo.
#[local] Existing Instance demo_table.

Definition old_file : bytes := default [] (encode overlay_new).
Definition old_overlay : Overlay := match decode old_file with Ok o => o | Err _ => overlay_new end.
Definition disk : Memory := from_files [(OVERLAY_FILE, old_file)].

(** Unsaved changes, on a store that works or that stops after [k] calls. *)
Definition host {W} (P : Provider W) : RegHost W := mkHost FormatDemo.demo P 0 None false true false true.

Lemma disk_flat : MemFlat disk.
Proof.
  split; [done|done|apply from_files_IndexOk|].
  apply map_Forall_insert_2; [|apply map_Forall_empty]. change (trim_rel OVERLAY_FILE) with OVERLAY_FILE. auto with vfs.
Qed.
Lemma disk_file : m_files disk !! OVERLAY_FILE = Some old_file.
Proof. apply lookup_insert_eq. Qed.
Lemma old_loads : decode old_file = Ok old_overlay.
Proof. vm_compute. reflexivity. Qed.
Lemma host_dirty : version FormatDemo.demo ≠ 0.
Proof. by vm_compute. Qed.

Lemma crash_result k :
  ∃ r h' w' k', save_if_dirty (host (crashing memory)) (disk, k) = Some (r, (h', (w', k'))).
Proof.
  unfold save_if_dirty, save_snapshot. rewrite (proj2 (Z.eqb_neq _ _)) by apply host_dirty.
  destruct (encode_Some FormatDemo.demo FormatDemo.saved_demo_Inv) as [b Eb]. cbn [host rh_overlay]. rewrite Eb.
  cbn [mbind option_bind]. destruct (save_finish _ _ _) as [r [h' [w' k']]]. by exists r, h', w', k'.
Qed.

(** A host that has just been opened on that store, and the write it applies. *)
Definition started_host : HS (W := Memory) :=
  mkHS (mkHost overlay_new memory 0 None false false false true) gen_new disk 0 0 Looking None None 0 0.
Definition a_write : RegOp := OpSetValue FormatDemo.key (lit "Str") 1 [104; 0] 10.

Lemma started_ok : started started_host.
Proof. repeat (split; [first [done | apply Inv_new]|]). done. Qed.

Lemma write_applies : ∃ v h', mutate_overlay (W := Memory) (op_path a_write) (run_op a_write) (s_host started_host) = Some (Ok v, h').
Proof.
  assert (match mutate_overlay (W := Memory) (op_path a_write) (run_op a_write) (s_host started_host) with
    Some (Ok v, _) => v | _ => 0 end = 1) as H by (vm_compute; reflexivity).
  destruct (mutate_overlay _ _ _) as [[[v|e] h']|]; [eauto|done|done].
Qed.
End StoreDemo.
Import StoreDemo.
#[local] Existing Instance demo_table.

Lemma save_then_open_witness :
  ∃ h' w' fuel h2 w2, save_if_dirty (host memory) disk = Some (Ok (), (h', w')) ∧
    host_open fuel 7 memory None w' = Some (Ok h2, w2) ∧
    Reloaded (rh_overlay (host memory)) (rh_overlay h2).
Proof.
  destruct (save_then_open memory m_files MemFlat mem_open_on (host memory) disk 7 None
    eq_refl disk_flat FormatDemo.saved_demo_Inv FormatDemo.demo_Fits host_dirty)
    as (h' & w' & fuel & h2 & w2 & E & _ & _ & E2 & HR & _).
  exists h', w', fuel, h2, w2. split; [exact E|]. split; [exact E2|exact HR].
Defined.

(** The machine stops after the second call: opening the temporary file and a
    first write. *)
Lemma crash_keeps_saved_witness :
  ∃ r h' w' k', save_if_dirty (host (crashing memory)) (disk, 2%nat) = Some (r, (h', (w', k'))) ∧
  ∃ fuel h2 w2, host_open fuel 7 memory None w' = Some (Ok h2, w2) ∧
    (rh_overlay h2 = old_overlay ∨ Reloaded (rh_overlay (host (crashing memory))) (rh_overlay h2)).
Proof.
  destruct (crash_result 2) as (r & h' & w' & k' & E). exists r, h', w', k'. split; [exact E|].
  destruct (crash_keeps_saved memory m_files MemFlat mem_open_on (host (crashing memory)) disk 2
    r h' w' k' old_file old_overlay 7 eq_refl disk_flat disk_file old_loads FormatDemo.saved_demo_Inv FormatDemo.demo_Fits
    host_dirty E) as (fuel & h2 & w2 & E2 & Ho & _).
  exists fuel, h2, w2. split; [exact E2|exact Ho].
Defined.

(** A write is applied, published and kicked; then the saver saves it. *)
Lemma writes_are_saved_witness :
  ∃ s s', rtc (hmove SYNC_INTERVAL) started_host s ∧ s ≠ started_host ∧
    rtc (background SYNC_INTERVAL) s s' ∧
    rh_saved (s_host s') = version (rh_overlay (s_host s)).
Proof.
  destruct write_applies as (v & h' & E).
  pose proof (step_write SYNC_INTERVAL a_write v h' _ gen_new disk 0 0 Looking None None 0 0 E) as H1.
  set (s := mkHS (host_kick h') (mutate_publish h' gen_new) disk 0 0 Looking None None 0 0).
  assert (rtc (hmove SYNC_INTERVAL) started_host s) as Hr.
  { eapply rtc_l; [eexists; exact H1|]. eapply rtc_l; [eexists; apply step_publish|].
    eapply rtc_l; [eexists; apply step_kick|]. apply rtc_refl. }
  destruct (mutate_overlay_cases a_write (s_host started_host) _ _ Inv_new E) as [(e & [=] & _)|(o' & _ & _ & _ & Eh)].
  destruct (writes_are_saved SYNC_INTERVAL started_host s MemFlat started_ok Hr eq_refl eq_refl)
    as (s' & Hb & _ & Es & _).
  - subst h'. reflexivity.
  - subst h'. exact (flat_store_works memory m_files MemFlat mem_open_on).
  - exact disk_flat.
  - exists s, s'. split; [exact Hr|]. split; [|split; [exact Hb|exact Es]].
    intros Hs%(f_equal (λ s, rh_kicked (s_host s))). discriminate Hs.
Defined.

