(* ===== verification/Director.v ===== *)
(** Director: the file operations of the host (rust/crates/vfs-director/src/director.rs):
    one provider per root, and the handles given to the shim.

    An [Arc<dyn Provider>] is a provider whose methods act on the world [W]
    that all providers of the process share, so a root and an open handle that
    name one provider see one state. What runs under the director's locks
    cannot panic, so they are never poisoned; sums of offsets wrap as in a
    release build. *)

From S2P Require Import Prelude Text Path Provider Compose ComposePath OverlayFs RegHost.

Definition ST_CROSS_ROOT : Z := -12.

Section director.
Context {CT : CaseTable} {W : Type}.

(** ** State *)

Record OpenRec := mkOpenRec {
  rec_backend : Provider W;
  rec_bh : Handle;
  rec_size : Z;
  rec_is_dir : bool;
  rec_cursor : option Z }.

Record Director := mkDirector {
  d_roots : gmap Z (Provider W);
  d_opens : gmap Z OpenRec;
  d_next_fh : Z;
  d_mount_gen : Z;
  d_registry : option (RegHost W);
  d_reg_gen : RegGeneration;
  d_exec_stager : option (Z → str → W → result Z str * W);
  (* the process-wide record of refused writes *)
  d_rejected : gmap str Z;
  d_world : W }.

Record OpenInfo := mkOpenInfo {
  oi_fh : Z; oi_size : Z; oi_is_dir : bool; oi_immutable : bool; oi_mount_gen : Z }.

Definition director_new (w : W) : Director := mkDirector ∅ ∅ 1 1 None gen_new None ∅ w.

Definition set_roots (r : gmap Z (Provider W)) (g : Z) (d : Director) : Director :=
mkDirector r (d_opens d) (d_next_fh d) g (d_registry d) (d_reg_gen d) (d_exec_stager d) (d_rejected d) (d_world d).
Definition set_opens (o : gmap Z OpenRec) (d : Director) : Director :=
mkDirector (d_roots d) o (d_next_fh d) (d_mount_gen d) (d_registry d) (d_reg_gen d) (d_exec_stager d)
  (d_rejected d) (d_world d).
Definition set_next_fh (n : Z) (d : Director) : Director :=
mkDirector (d_roots d) (d_opens d) n (d_mount_gen d) (d_registry d) (d_reg_gen d) (d_exec_stager d)
  (d_rejected d) (d_world d).
Definition set_reg (r : option (RegHost W)) (g : RegGeneration) (d : Director) : Director :=
mkDirector (d_roots d) (d_opens d) (d_next_fh d) (d_mount_gen d) r g (d_exec_stager d)
  (d_rejected d) (d_world d).
Definition set_exec_stager (s : option (Z → str → W → result Z str * W)) (d : Director) : Director :=
mkDirector (d_roots d) (d_opens d) (d_next_fh d) (d_mount_gen d) (d_registry d) (d_reg_gen d) s
  (d_rejected d) (d_world d).
Definition set_rejected (t : gmap str Z) (d : Director) : Director :=
mkDirector (d_roots d) (d_opens d) (d_next_fh d) (d_mount_gen d) (d_registry d) (d_reg_gen d) (d_exec_stager d)
  t (d_world d).
Definition set_world (w : W) (d : Director) : Director :=
mkDirector (d_roots d) (d_opens d) (d_next_fh d) (d_mount_gen d) (d_registry d) (d_reg_gen d) (d_exec_stager d)
  (d_rejected d) w.

(** A provider's method, run on the world. *)
Definition call {R} : (W → R * W) → Director → R * Director := zoom d_world set_world.

Local Abbreviation DM := (PM Director).
(** The same, as a method of the director. *)
Definition pcall {A} (m : PM W A) : DM A := call m.
Definition dm_of {A} (r : result Z A) : DM A := λ d, (r, d).

(** ** Mounting *)

Definition d_mount (root : Z) (backend : Provider W) (d : Director) : Director :=
set_roots (<[root := backend]> (d_roots d)) (as_u32 (d_mount_gen d + 1)) d.
Definition d_unmount (root : Z) (d : Director) : Director :=
set_roots (delete root (d_roots d)) (as_u32 (d_mount_gen d + 1)) d.
Definition d_serves (root : Z) (d : Director) : bool := bool_decide (is_Some (d_roots d !! root)).

Definition director_set_registry (host : option (RegHost W)) (d : Director) : Director :=
set_reg (publish_to <$> host) (gen_changed (d_reg_gen d)) d.

(** [normalize(path).map_err(|_| bad_request())?] *)
Definition d_normalize (path : str) : DM str :=
dm_of (match normalize path with Ok p => Ok p | Err _ => Err ST_BAD_REQUEST end).
(** [self.provider_for(root)?.ok_or_else(..)?] *)
Definition need_provider (e : Z) (root : Z) : DM (Provider W) := λ d,
(match d_roots d !! root with Some p => Ok p | None => Err e end, d).

Definition stage_exec (root : Z) (vpath : str) : DM str :=
path ← d_normalize vpath;
(λ d, match d_exec_stager d with
      | None => (Err ST_NOT_SUPPORTED, d)
      | Some stager => pcall (stager root path) d
      end) : DM str.

(** ** Paths *)

Definition d_getattr (root : Z) (path : str) : DM (option Stat) :=
path ← d_normalize path;
(λ d, match d_roots d !! root with
      | Some p => pcall (p_getattr p (mkVPath root path)) d
      | None => (Ok None, d)
      end) : DM (option Stat).

Definition d_readdir (root : Z) (path : str) : DM (list DirEntry) :=
path ← d_normalize path;
p ← need_provider ST_NOT_FOUND root;
pcall (p_readdir p (mkVPath root path)).

(** The loop of [stored_names]; [before] is what precedes the component. *)
Fixpoint names_loop (p : Provider W) (root : Z) (comps : list str) (i skip : Z) (before : list str)
    : DM (list str) :=
match comps with
| [] => mret []
| comp :: comps =>
    let before := before ++ [comp] in
    if i <? skip then names_loop p root comps (i + 1) skip before else
    stored ← pcall (stored_name p (mkVPath root (join slash before)));
    rest ← names_loop p root comps (i + 1) skip before;
    mret (default comp stored :: rest)
end.

Definition d_stored_names (root : Z) (path : str) (skip : Z) : DM (list str) :=
path ← d_normalize path;
p ← need_provider ST_NOT_FOUND root;
names_loop p root (slash_pieces path) 0 skip [].

Definition d_mkdir (root : Z) (path : str) : DM unit :=
path ← d_normalize path;
p ← need_provider ST_NOT_FOUND root;
pcall (p_mkdir p (mkVPath root path)).

Definition d_remove (root : Z) (path : str) : DM unit :=
path ← d_normalize path;
p ← need_provider ST_NOT_FOUND root;
pcall (p_remove p (mkVPath root path)).

Definition d_rename (root : Z) (from to : str) : DM unit :=
from ← d_normalize from;
to ← d_normalize to;
p ← need_provider ST_BAD_REQUEST root;
pcall (p_rename p (mkVPath root from) (mkVPath root to)).

Definition d_set_attr (root : Z) (path : str) (attr : SetAttr) : DM unit :=
path ← d_normalize path;
p ← need_provider ST_NOT_FOUND root;
pcall (p_set_attr p (mkVPath root path) attr).

(** ** Handles *)

Definition writable (p : Provider W) : bool := negb (access_rank (access (p_capabilities p)) <? access_rank ReadWrite).

Definition open_info (root : Z) (path : str) (flags : Z) : DM OpenInfo :=
path ← d_normalize path;
(λ d,
  let mount_gen := d_mount_gen d in
  match d_roots d !! root with
  | None => (Err ST_NOT_FOUND, d)
  | Some p =>
      if negb (Z.land flags OPEN_WRITE =? 0) && negb (writable p)
      then (Err ST_READ_ONLY, set_rejected (record_rejected_write path (d_rejected d)) d) else
      match pcall (p_open p (mkVPath root path) flags) d with
      | (Err e, d) => (Err e, d)
      | (Ok (bh, size, is_dir), d) =>
          let imm := (Z.land flags OPEN_WRITE =? 0) && negb is_dir && p_is_immutable p bh (d_world d) in
          let fh := d_next_fh d in
          let d := set_next_fh (as_u64 (fh + 1)) d in
          let cursor := if negb (Z.land flags OPEN_APPEND =? 0) then Some size else None in
          let d := set_opens (<[fh := mkOpenRec p bh size is_dir cursor]> (d_opens d)) d in
          (Ok (mkOpenInfo fh size is_dir imm mount_gen), d)
      end
  end) : DM OpenInfo.

Definition d_open (root : Z) (path : str) (flags : Z) : DM (Z * Z * bool) :=
o ← open_info root path flags; mret (oi_fh o, oi_size o, oi_is_dir o).

(** [g.get(&fh).ok_or_else(bad_fh)?] *)
Definition get_rec (fh : Z) : DM OpenRec := λ d,
(match d_opens d !! fh with Some r => Ok r | None => Err ST_BAD_FH end, d).

Definition d_read (fh offset : Z) (buf : bytes) (d : Director) : (result Z Z * bytes) * Director :=
match d_opens d !! fh with
| None => ((Err ST_BAD_FH, buf), d)
| Some r => if rec_is_dir r then ((Err ST_IS_DIR, buf), d) else call (p_read_at (rec_backend r) (rec_bh r) offset buf) d
end.

Definition d_close (fh : Z) : DM unit :=
r ← get_rec fh;
(λ d, pcall (p_close (rec_backend r) (rec_bh r)) (set_opens (delete fh (d_opens d)) d)) : DM unit.

Definition rec_wrote (end_ : Z) (r : OpenRec) : OpenRec :=
mkOpenRec (rec_backend r) (rec_bh r) (Z.max (rec_size r) end_) (rec_is_dir r)
  (match rec_cursor r with Some _ => Some end_ | None => None end).
Definition rec_resized (n : Z) (r : OpenRec) : OpenRec :=
mkOpenRec (rec_backend r) (rec_bh r) n (rec_is_dir r) ((λ c, Z.min c n) <$> rec_cursor r).

Definition d_write (fh offset : Z) (buf : bytes) : DM Z :=
r ← get_rec fh;
if rec_is_dir r then pm_err ST_IS_DIR else
let effective_offset := default offset (rec_cursor r) in
n ← pcall (p_write_at (rec_backend r) (rec_bh r) effective_offset buf);
pm_modify (λ d, set_opens (alter (rec_wrote (as_u64 (effective_offset + n))) fh (d_opens d)) d) n.

Definition d_set_len (fh n : Z) : DM unit :=
r ← get_rec fh;
_ ← pcall (p_set_len (rec_backend r) (rec_bh r) n);
pm_modify (λ d, set_opens (alter (rec_resized n) fh (d_opens d)) d) ().

Definition d_flush (fh : Z) : DM unit :=
r ← get_rec fh; pcall (p_flush (rec_backend r) (rec_bh r)).

(** ** Across roots *)

(** The inner loop of the copy: [None] means it left the whole copy. *)
Fixpoint put_loop (fuel : nat) (dst : Provider W) (dh at_ : Z) (data : bytes) (done_ : Z) : PM W unit := λ w,
if negb (done_ <? len data) then (Ok (), w) else
match fuel with
| O%nat => (Ok (), w)
| S fuel =>
    match p_write_at dst dh (at_ + done_) (drop (Z.to_nat done_) data) w with
    | (Err e, w) => (Err e, w)
    | (Ok n, w) => if n =? 0 then (Err ST_IO_ERROR, w) else put_loop fuel dst dh at_ data (done_ + n) w
    end
end.

(** The outer loop: an error of the source leaves the loop, one of the
  destination leaves the closure with the destination still open. *)
Inductive copied := CopyDone (r : result Z unit) | CopyLeft (e : Z).

Fixpoint across_loop (fuel : nat) (src dst : Provider W) (sh dh size at_ : Z) (buf : bytes) (w : W) : copied * W :=
if negb (at_ <? size) then (CopyDone (Ok ()), w) else
match fuel with
| O%nat => (CopyDone (Ok ()), w)
| S fuel =>
    match p_read_at src sh at_ buf w with
    | ((Err e, _), w) => (CopyDone (Err e), w)
    | ((Ok n, buf), w) =>
        if n =? 0 then (CopyDone (Ok ()), w) else
        match put_loop (Z.to_nat n) dst dh at_ (take (Z.to_nat n) buf) 0 w with
        | (Err e, w) => (CopyLeft e, w)
        | (Ok _, w) => across_loop fuel src dst sh dh size (at_ + n) buf w
        end
    end
end.

Definition across_copy (src dst : Provider W) (sh size : Z) (to : VPath) : PM W unit := λ w,
match p_open dst to (Z.lor (Z.lor OPEN_WRITE OPEN_CREATE) OPEN_TRUNC) w with
| (Err e, w) => (Err e, w)
| (Ok (dh, _, _), w) =>
    match across_loop (Z.to_nat size) src dst sh dh size 0 (replicate (Z.to_nat (Z.shiftl 1 20)) 0) w with
    | (CopyLeft e, w) => (Err e, w)
    | (CopyDone result, w) =>
        let '(flushed, w) := p_flush dst dh w in
        let '(closed, w) := p_close dst dh w in
        (res_and (res_and result flushed) closed, w)
    end
end.

(** The body once the two providers are known. *)
Definition across (src dst : Provider W) (from to : VPath) : PM W unit :=
stat ← p_getattr src from;
match stat with
| None => pm_err ST_NOT_FOUND
| Some stat =>
    if st_kind stat =? KIND_DIR then pm_err ST_CROSS_ROOT else
    if negb (writable dst) then pm_err ST_READ_ONLY else
    o ← p_open src from OPEN_READ;
    let '(sh, size, _) := o in
    (λ w,
      let '(r, w) := across_copy src dst sh size to w in
      let '(_, w) := p_close src sh w in
      match r with Err e => (Err e, w) | Ok _ => p_remove src from w end) : PM W unit
end.

Definition d_rename_across (from_root : Z) (from : str) (to_root : Z) (to : str) : DM unit :=
if from_root =? to_root then d_rename from_root from to else
from ← d_normalize from;
to ← d_normalize to;
src ← need_provider ST_NOT_FOUND from_root;
dst ← need_provider ST_NOT_FOUND to_root;
pcall (across src dst (mkVPath from_root from) (mkVPath to_root to)).
End director.
Arguments Director : clear implicits.
Arguments OpenRec : clear implicits.
