(* ===== verification/Dispatch.v ===== *)
(** Dispatch: a request of the ring answered by the director
    (rust/crates/vfs-director/src/ring_dispatch.rs and ring_dispatch/registry.rs).

    A panic of the registry overlay is [None]. The statistics of io_stats.rs,
    which no reply depends on, are left out. *)

From S2P Require Import Prelude Text Path RegTypes RegPath RegOverlay Seg Arena Wire Protocol Provider OverlayFs.
From S2P Require Import RegHost Director.

Definition BULK_THRESHOLD : Z := 64 * 1024.
Definition FLAG_READ_BULK : Z := 1.
Definition ST_REPLY_TOO_LARGE : Z := -11.

(** The status, then the reply payload. *)
Definition Reply : Type := Z * bytes.

Definition bad : Reply := (ST_BAD_REQUEST, []).
Definition reply (r : result Z bytes) : Reply := match r with Ok b => (ST_OK, b) | Err st => (st, []) end.
Definition max_read_data (payload_cap : Z) : Z := sat_sub payload_cap 8.

Section dispatch.
Context {CT : CaseTable} {W : Type}.

(** ** The registry's opcodes *)

Definition version_reply {S} (x : option (result Z Z * S)) : option (Reply * S) :=
'(r, s) ← x; Some (reply (encode_reg_version_reply <$> r), s).

Definition dispatch_registry (now : Z) (host : RegHost W) (g : RegGeneration) (opcode : Z) (payload : bytes) (payload_cap : Z)
    : option (Reply * (RegHost W * RegGeneration)) :=
if opcode =? OP_REG_LOOKUP then
  Some (match decode_reg_path payload with
        | Some p => reply ((λ '(l, below, v), encode_reg_lookup_reply (lookup_state l) below v) <$> host_lookup p host)
        | None => bad
        end, (host, g))
else if opcode =? OP_REG_KEY then
  Some (match decode_reg_path payload with
        | Some p =>
            match host_key_reply p host with
            | Ok b => if len b >? max_read_data payload_cap then (ST_REPLY_TOO_LARGE, []) else reply (Ok b)
            | r => reply r
            end
        | None => bad
        end, (host, g))
else if opcode =? OP_REG_SET_VALUE then
  match decode_reg_set_value payload with
  | Some (p, name, ty, data) => version_reply (host_set_value p name ty data now host g)
  | None => Some (bad, (host, g))
  end
else if opcode =? OP_REG_DELETE_VALUE then
  match decode_reg_delete_value payload with
  | Some (p, name) => version_reply (host_delete_value p name now host g)
  | None => Some (bad, (host, g))
  end
else if opcode =? OP_REG_CREATE_KEY then
  match decode_reg_create_key payload with
  | Some (p, vol) => version_reply (host_create_key p vol now host g)
  | None => Some (bad, (host, g))
  end
else if opcode =? OP_REG_DELETE_KEY then
  match decode_reg_path payload with
  | Some p => version_reply (host_delete_key p now host g)
  | None => Some (bad, (host, g))
  end
else if opcode =? OP_REG_RENAME_KEY then
  match decode_reg_rename_key payload with
  | Some (p, leaf) => version_reply (host_rename_key p leaf now host g)
  | None => Some (bad, (host, g))
  end
else if opcode =? OP_REG_CHANGED then
  Some (match decode_reg_changed payload with
        | Some (p, subtree, since) =>
            reply ((λ '(changed, v), encode_reg_changed_reply changed v) <$> host_changed p subtree since host)
        | None => bad
        end, (host, g))
else Some (bad, (host, g)).

(** ** The file opcodes *)

Definition attr_resp (s : option Stat) : AttrResp :=
match s with
| Some s => {| ar_found := true; ar_is_dir := st_kind s =? KIND_DIR; ar_size := st_size s; ar_mtime := st_mtime s |}
| None => {| ar_found := false; ar_is_dir := false; ar_size := 0; ar_mtime := 0 |}
end.

Definition wire_entry (e : DirEntry) : DirEntryWire :=
{| Protocol.de_name := Provider.de_name e; de_is_dir := st_kind (de_stat e) =? KIND_DIR;
   de_size := st_size (de_stat e); de_mtime := st_mtime (de_stat e) |}.

Definition open_resp (o : OpenInfo) : OpenResp :=
{| or_fh := oi_fh o; or_size := oi_size o; or_is_dir := oi_is_dir o; or_immutable := oi_immutable o;
   or_mount_gen := oi_mount_gen o |}.

(** An operation whose result is encoded as the reply. *)
Definition answer {A} (enc : A → bytes) (m : PM (Director W) A) (d : Director W) : Reply * Director W :=
let '(r, d) := m d in (reply (enc <$> r), d).

(** [arena.fill_bank(slot, max, |buf| director.read(..))]: the bank's bytes are
  read once, and only if there are any. *)
Definition read_bulk (a : DataArena) (slot mx : Z) (req : ReadReq) (d : Director W) (m : bytes)
    : Reply * Director W * bytes :=
let f buf := let '((r, buf), _) := d_read (rr_fh req) (rr_offset req) buf d in (buf, r) in
let n := Z.min mx (bank_size a) in
let off := bank_mapping_offset a slot in
let d' :=
  if (n =? 0) || negb (in_bounds m off n) then d
  else (d_read (rr_fh req) (rr_offset req) (mem_get m off n) d).2 in
let '(r, m) := Seg.run (fill_bank a slot mx f) m in
(reply ((λ '(off, n), encode_read_resp_bulk (as_u32 n) off) <$> r), d', m).

Definition read_inline (payload_cap : Z) (req : ReadReq) (d : Director W) : Reply * Director W :=
let mx := max_read_data payload_cap in
let '((r, buf), d) := d_read (rr_fh req) (rr_offset req) (replicate (Z.to_nat (Z.min (rr_len req) mx)) 0) d in
(reply ((λ n, encode_read_resp (take (Z.to_nat n) buf)) <$> r), d).

(** Every opcode but READ and the registry's. *)
Definition dispatch_file (opcode : Z) (payload : bytes) (d : Director W) : Reply * Director W :=
if opcode =? OP_GETATTR then
  match decode_path_req payload with
  | Some (root, vp) => answer (λ s, encode_getattr_resp (attr_resp s)) (d_getattr root vp) d
  | None => (bad, d)
  end
else if opcode =? OP_READDIR then
  match decode_path_req payload with
  | Some (root, vp) => answer (λ es, encode_readdir_resp (wire_entry <$> es)) (d_readdir root vp) d
  | None => (bad, d)
  end
else if opcode =? OP_HEARTBEAT then ((ST_OK, []), d)
else if opcode =? OP_OPEN then
  match decode_open_req payload with
  | Some (root, oflags, path) =>
      let flags := if oflags =? 0 then OPEN_READ else oflags in
      answer (λ o, encode_open_resp (open_resp o)) (open_info root path flags) d
  | None => (bad, d)
  end
else if opcode =? OP_CLOSE then
  match decode_close_req payload with
  | Some fh => answer (λ _, []) (d_close fh) d
  | None => (bad, d)
  end
else if opcode =? OP_WRITE then
  match decode_write_req payload with
  | Some (req, data) => answer (λ n, encode_write_resp (as_u32 n)) (d_write (wr_fh req) (wr_offset req) data) d
  | None => (bad, d)
  end
else if opcode =? OP_SETATTR then
  match decode_setattr_req payload with
  | Some req => answer (λ _, []) (d_set_len (sr_fh req) (sr_size req)) d
  | None => (bad, d)
  end
else if opcode =? OP_RENAME then
  match decode_rename_req payload with
  | Some (root, from, to) => answer (λ _, []) (d_rename root from to) d
  | None => (bad, d)
  end
else if opcode =? OP_RENAME_X then
  match decode_rename_x_req payload with
  | Some (from_root, from, to_root, to) => answer (λ _, []) (d_rename_across from_root from to_root to) d
  | None => (bad, d)
  end
else if opcode =? OP_STAGE_EXEC then
  match decode_path_req payload with
  | Some (root, path) => answer utf8 (stage_exec root path) d
  | None => (bad, d)
  end
else if opcode =? OP_DELETE then
  match decode_path_req payload with
  | Some (root, path) => answer (λ _, []) (d_remove root path) d
  | None => (bad, d)
  end
else if opcode =? OP_STORED_NAMES then
  match decode_names_req payload with
  | Some (root, skip, path) => answer encode_names_resp (d_stored_names root path skip) d
  | None => (bad, d)
  end
else if opcode =? OP_MKDIR then
  match decode_mkdir_req payload with
  | Some (root, _, path) => answer (λ _, []) (d_mkdir root path) d
  | None => (bad, d)
  end
else (bad, d).

(** [arena] comes with the request's slot, [m] is the shared segment. *)
Definition dispatch_director (now : Z) (opcode : Z) (payload : bytes) (flags payload_cap : Z)
    (arena : option (DataArena * Z)) (d : Director W) (m : bytes) : option (Reply * Director W * bytes) :=
if opcode =? OP_READ then
  Some (match decode_read_req payload with
        | Some req =>
            let want_bulk := negb (Z.land flags FLAG_READ_BULK =? 0) || (BULK_THRESHOLD <=? rr_len req) in
            match want_bulk, arena with
            | true, Some (a, slot) => read_bulk a slot (Z.min (bank_size a) (rr_len req)) req d m
            | _, _ => (read_inline payload_cap req d, m)
            end
        | None => (bad, d, m)
        end)
else if (OP_REG_LOOKUP <=? opcode) && (opcode <=? OP_REG_CHANGED) then
  match d_registry d with
  | Some host =>
      '(r, (host, g)) ← dispatch_registry now host (d_reg_gen d) opcode payload payload_cap;
      Some (r, set_reg (Some host) g d, m)
  | None => Some ((ST_NOT_SUPPORTED, []), d, m)
  end
else Some (dispatch_file opcode payload d, m).
End dispatch.
