(* ===== verification/DirectorProps.v ===== *)
(** DirectorProps: the director as a state machine: its handles stay with the
    provider that opened them, a mount generation names one set of providers,
    an append handle appends, and a file moves between roots. *)

From S2P Require Import Prelude Text Path Provider Compose ComposePath Memory MemoryProps OverlayFs OverlayProps CopyUp RegHost Director.


(** ** Operations, as data *)

Section machine.
Context {CT : CaseTable} {W : Type}.

Inductive dop :=
| DMount (root : Z) (p : Provider W) | DUnmount (root : Z)
| DSetRegistry (h : option (RegHost W)) | DSetStager (f : option (Z → str → W → result Z str * W))
| DStageExec (root : Z) (path : str)
| DGetattr (root : Z) (path : str) | DReaddir (root : Z) (path : str) | DStoredNames (root : Z) (path : str) (skip : Z)
| DOpen (root : Z) (path : str) (flags : Z) | DClose (fh : Z)
| DRead (fh off : Z) (buf : bytes) | DWrite (fh off : Z) (buf : bytes) | DSetLen (fh n : Z) | DFlush (fh : Z)
| DMkdir (root : Z) (path : str) | DRemove (root : Z) (path : str) | DRename (root : Z) (from to : str)
| DRenameX (from_root : Z) (from : str) (to_root : Z) (to : str) | DSetAttr (root : Z) (path : str) (a : SetAttr).

Definition dop_state (o : dop) (d : Director W) : Director W :=
match o with
| DMount root p => d_mount root p d
| DUnmount root => d_unmount root d
| DSetRegistry h => director_set_registry h d
| DSetStager f => set_exec_stager f d
| DStageExec root path => (stage_exec root path d).2
| DGetattr root path => (d_getattr root path d).2
| DReaddir root path => (d_readdir root path d).2
| DStoredNames root path skip => (d_stored_names root path skip d).2
| DOpen root path flags => (open_info root path flags d).2
| DClose fh => (d_close fh d).2
| DRead fh off buf => (d_read fh off buf d).2
| DWrite fh off buf => (d_write fh off buf d).2
| DSetLen fh n => (d_set_len fh n d).2
| DFlush fh => (d_flush fh d).2
| DMkdir root path => (d_mkdir root path d).2
| DRemove root path => (d_remove root path d).2
| DRename root from to => (d_rename root from to d).2
| DRenameX fr from tr to => (d_rename_across fr from tr to d).2
| DSetAttr root path a => (d_set_attr root path a d).2
end.

Definition dops_state (os : list dop) (d : Director W) : Director W := foldl (λ d o, dop_state o d) d os.

(** ** What the operations leave alone *)

(** Everything but the world and the record of refused writes. *)
Definition same_tables (d d' : Director W) : Prop :=
d_roots d' = d_roots d ∧ d_opens d' = d_opens d ∧ d_next_fh d' = d_next_fh d ∧ d_mount_gen d' = d_mount_gen d.

(** An operation of which that is true. *)
Definition keeps {A} (m : PM (Director W) A) : Prop := ∀ d, same_tables d (m d).2.

Lemma tables_ret {A} (a : A) : keeps (mret a).
Proof. done. Qed.
Lemma tables_err {A} e : keeps (pm_err (A := A) e).
Proof. done. Qed.
Lemma tables_of {A} (r : result Z A) : keeps (dm_of r).
Proof. done. Qed.
Lemma call_tables {R} (m : W → R * W) d : same_tables d (call m d).2.
Proof. unfold call, zoom. by destruct (m (d_world d)). Qed.
Lemma tables_call {A} (m : PM W A) : keeps (pcall m).
Proof. intros d. apply (call_tables m d). Qed.
Lemma tables_provider e root : keeps (need_provider e root).
Proof. done. Qed.
Lemma tables_rec fh : keeps (get_rec fh).
Proof. done. Qed.
Lemma tables_bind {A B} (m : PM (Director W) A) (f : A → PM (Director W) B) :
keeps m → (∀ a, keeps (f a)) → keeps (m ≫= f).
Proof.
intros Hm Hf d. unfold mbind, PM_bind. specialize (Hm d). destruct (m d) as [[a|e] d1]; cbn [snd] in *; [|done].
specialize (Hf a d1). destruct Hm as (?&?&?&?), Hf as (?&?&?&?). unfold same_tables. by split_and!; etrans.
Qed.
End machine.
Arguments dop : clear implicits.

Create HintDb keeps.
#[export] Hint Resolve tables_ret tables_err tables_of tables_call tables_provider tables_rec : keeps.
#[export] Hint Extern 1 (keeps (_ ≫= _)) => (apply tables_bind; [|intros]) : keeps.
#[export] Hint Extern 1 (keeps (d_normalize _)) => apply tables_of : keeps.

Section handles.
Context {CT : CaseTable} {W : Type}.

Lemma tables_names p root comps i skip before : keeps (W := W) (names_loop p root comps i skip before).
Proof.
revert i before. induction comps as [|c comps IH]; intros i before; cbn [names_loop]; [auto with keeps|].
destruct (i <? skip); [apply IH|]. apply tables_bind; [auto with keeps|]. intros a. apply tables_bind; [apply IH|].
auto with keeps.
Qed.

Lemma tables_getattr root path : keeps (W := W) (d_getattr root path).
Proof.
apply tables_bind; [auto with keeps|]. intros p d. destruct (d_roots d !! root); [apply tables_call|done].
Qed.
Lemma tables_stage root path : keeps (W := W) (stage_exec root path).
Proof.
apply tables_bind; [auto with keeps|]. intros p d. destruct (d_exec_stager d); [apply tables_call|done].
Qed.
Lemma tables_rename root from to : keeps (W := W) (d_rename root from to).
Proof. unfold d_rename. auto 10 with keeps. Qed.

(** The operations that touch neither a root nor a handle. *)
Definition plain_op (o : dop W) : bool :=
match o with
| DMount _ _ | DUnmount _ | DOpen _ _ _ | DClose _ | DWrite _ _ _ | DSetLen _ _ => false
| _ => true
end.

Lemma plain_op_tables o d : plain_op o = true → same_tables d (dop_state o d).
Proof.
destruct o; intros Ho; try done; cbn [dop_state].
- apply tables_stage.
- apply tables_getattr.
- unfold d_readdir. generalize d. change (keeps (d_readdir (W := W) root path)). unfold d_readdir. auto 10 with keeps.
- generalize d. change (keeps (d_stored_names (W := W) root path skip)). unfold d_stored_names.
  apply tables_bind; [auto with keeps|]. intros. apply tables_bind; [auto with keeps|]. intros. apply tables_names.
- unfold d_read. destruct (d_opens d !! fh) as [r|]; [|done]. destruct (rec_is_dir r); [done|]. apply call_tables.
- generalize d. change (keeps (d_flush (W := W) fh)). unfold d_flush. auto 10 with keeps.
- generalize d. change (keeps (d_mkdir (W := W) root path)). unfold d_mkdir. auto 10 with keeps.
- generalize d. change (keeps (d_remove (W := W) root path)). unfold d_remove. auto 10 with keeps.
- apply tables_rename.
- unfold d_rename_across. destruct (from_root =? to_root); [apply tables_rename|].
  revert d. apply tables_bind; [auto with keeps|]. intros. auto 10 with keeps.
- generalize d. change (keeps (d_set_attr (W := W) root path a)). unfold d_set_attr. auto 10 with keeps.
Qed.

(** Who serves a handle, and whether it appends. *)
Definition rec_id (r : OpenRec W) : Provider W * Handle * bool * bool :=
(rec_backend r, rec_bh r, rec_is_dir r, match rec_cursor r with Some _ => true | None => false end).

Definition ids (d : Director W) : gmap Z (Provider W * Handle * bool * bool) := rec_id <$> d_opens d.

Lemma ids_alter (f : OpenRec W → OpenRec W) fh (m : gmap Z (OpenRec W)) : (∀ r, rec_id (f r) = rec_id r) → rec_id <$> alter f fh m = rec_id <$> m.
Proof.
intros Hf. apply map_eq. intros k. rewrite !lookup_fmap. destruct (decide (k = fh)) as [->|Hne].
- rewrite lookup_alter_eq. destruct (m !! fh); cbn; [by rewrite Hf|done].
- by rewrite lookup_alter_ne.
Qed.

Lemma open_info_cases root path flags d r d' :
open_info (W := W) root path flags d = (r, d') →
d_roots d' = d_roots d ∧ d_mount_gen d' = d_mount_gen d ∧
match r with
| Err _ => d_opens d' = d_opens d ∧ d_next_fh d' = d_next_fh d
| Ok o => oi_fh o = d_next_fh d ∧ oi_mount_gen o = d_mount_gen d ∧ d_next_fh d' = as_u64 (d_next_fh d + 1) ∧
    ∃ p bh size dir c, d_roots d !! root = Some p ∧ d_opens d' = <[oi_fh o := mkOpenRec p bh size dir c]> (d_opens d) ∧
      oi_size o = size ∧ oi_is_dir o = dir ∧ c = (if negb (Z.land flags OPEN_APPEND =? 0) then Some size else None) ∧
      ∃ q, normalize path = Ok q ∧ (p_open p (mkVPath root q) flags (d_world d)).1 = Ok (bh, size, dir)
end.
Proof.
unfold open_info, mbind, PM_bind, d_normalize, dm_of. destruct (normalize path) as [p|e]; [|by intros [= <- <-]].
destruct (d_roots d !! root) as [P|] eqn:EP; [|by intros [= <- <-]]. destruct (_ && _); [by intros [= <- <-]|].
pose proof (call_tables (p_open P (mkVPath root p) flags) d) as (E1 & E2 & E3 & E4).
unfold pcall. destruct (call _ d) as [[[[bh size] dir]|e] d1] eqn:Ec; cbn [snd] in *; intros [= <- <-]; [|done].
cbn [set_opens set_next_fh d_roots d_mount_gen d_opens d_next_fh oi_fh oi_mount_gen oi_size oi_is_dir].
rewrite E1, E2, E3, E4. split_and!; try done. eexists P, bh, size, dir, _. split_and!; try done. exists p. split; [done|].
unfold call, zoom in Ec. destruct (p_open _ _ _ _) as [r w]. by injection Ec as -> _.
Qed.

(** One operation: a handle is issued by opening, dropped by closing, and
  otherwise stays with its provider. *)
Lemma dop_ids o d :
ids (dop_state o d) = ids d ∨
(∃ fh, o = DClose fh ∧ ids (dop_state o d) = delete fh (ids d)) ∨
(∃ root path flags x, o = DOpen root path flags ∧ ids (dop_state o d) = <[d_next_fh d := x]> (ids d) ∧
   d_next_fh (dop_state o d) = as_u64 (d_next_fh d + 1)).
Proof.
destruct (plain_op o) eqn:Ho; [left; unfold ids; by destruct (plain_op_tables o d Ho) as (_ & -> & _)|].
destruct o; try done; cbn [dop_state]; [by left|by left|..].
- destruct (open_info root path flags d) as [[o|e] d'] eqn:E; cbn [snd].
  + apply open_info_cases in E as (_ & _ & Ef & _ & En & p & bh & size & dir & c & _ & Eo & _). right. right.
    eexists root, path, flags, _. split; [done|]. unfold ids. by rewrite Eo, fmap_insert, Ef.
  + apply open_info_cases in E as (_ & _ & Eo & _). left. unfold ids. by rewrite Eo.
- unfold d_close, mbind, PM_bind, get_rec. destruct (d_opens d !! fh) as [r|] eqn:Er; [|by left].
  right. left. exists fh. split; [done|]. unfold ids. pose proof (call_tables (p_close (rec_backend r) (rec_bh r))
    (set_opens (delete fh (d_opens d)) d)) as (_ & E & _). unfold pcall. rewrite E. cbn. by rewrite fmap_delete.
- left. unfold d_write, mbind, PM_bind, get_rec. destruct (d_opens d !! fh) as [r|] eqn:Er; [|done].
  destruct (rec_is_dir r); [done|]. pose proof (call_tables (p_write_at (rec_backend r) (rec_bh r)
    (default off (rec_cursor r)) buf) d) as (_ & E & _). unfold pcall. destruct (call _ d) as [[n|e] d1]; cbn [snd] in E;
    unfold ids; cbn; rewrite E; [|done]. apply ids_alter. intros r'. unfold rec_id. cbn. by destruct (rec_cursor r').
- left. unfold d_set_len, mbind, PM_bind, get_rec. destruct (d_opens d !! fh) as [r|] eqn:Er; [|done].
  pose proof (call_tables (p_set_len (rec_backend r) (rec_bh r) n) d) as (_ & E & _).
  unfold pcall. destruct (call _ d) as [[[]|e] d1]; cbn [snd] in E; unfold ids; cbn; rewrite E; [|done].
  apply ids_alter. intros r'. unfold rec_id. cbn. by destruct (rec_cursor r').
Qed.

(** ** Handles stay with their provider *)

Lemma dops_cons o os d : dops_state (W := W) (o :: os) d = dops_state os (dop_state o d).
Proof. done. Qed.

Lemma ids_dom d fh : is_Some (ids d !! fh) ↔ is_Some (d_opens d !! fh).
Proof. unfold ids. by rewrite lookup_fmap, fmap_is_Some. Qed.

(** Handles are issued in order, below the next one. *)
Definition issued (d : Director W) : Prop :=
1 ≤ d_next_fh d ∧ ∀ fh, is_Some (ids d !! fh) → 1 ≤ fh < d_next_fh d.

Lemma dop_next o (d : Director W) : d_next_fh (dop_state o d) = d_next_fh d ∨ d_next_fh (dop_state o d) = as_u64 (d_next_fh d + 1).
Proof.
destruct (plain_op o) eqn:Ho; [left; apply (plain_op_tables o d Ho)|].
destruct o; try done; cbn [dop_state]; [by left|by left|..].
- destruct (open_info root path flags d) as [[o|e] d'] eqn:E; apply open_info_cases in E; cbn [snd]; [right|left]; apply E.
- left. unfold d_close, mbind, PM_bind, get_rec. destruct (d_opens d !! fh) as [r|]; [|done].
  pose proof (call_tables (p_close (rec_backend r) (rec_bh r)) (set_opens (delete fh (d_opens d)) d)) as (_ & _ & E & _).
  unfold pcall. by rewrite E.
- left. unfold d_write, mbind, PM_bind, get_rec. destruct (d_opens d !! fh) as [r|]; [|done].
  destruct (rec_is_dir r); [done|]. pose proof (call_tables (p_write_at (rec_backend r) (rec_bh r)
    (default off (rec_cursor r)) buf) d) as (_ & _ & E & _). unfold pcall. by destruct (call _ d) as [[n|e] d1].
- left. unfold d_set_len, mbind, PM_bind, get_rec. destruct (d_opens d !! fh) as [r|]; [|done].
  pose proof (call_tables (p_set_len (rec_backend r) (rec_bh r) n) d) as (_ & _ & E & _).
  unfold pcall. by destruct (call _ d) as [[[]|e] d1].
Qed.

Lemma issued_step o (d : Director W) :
issued d → d_next_fh d + 1 < u64_max → issued (dop_state o d) ∧ d_next_fh d ≤ d_next_fh (dop_state o d) ≤ d_next_fh d + 1.
Proof.
intros [Hn Hi] Hb. assert (as_u64 (d_next_fh d + 1) = d_next_fh d + 1) as Ea by (apply Z.mod_small; lia).
assert (d_next_fh d ≤ d_next_fh (dop_state o d) ≤ d_next_fh d + 1) as Hle by (destruct (dop_next o d) as [->| ->]; lia).
split; [|done]. split; [lia|]. intros fh.
destruct (dop_ids o d) as [->|[(fh' & _ & ->)|(root & path & flags & x & _ & -> & En)]].
- intros ?%Hi. lia.
- rewrite lookup_delete_is_Some. intros [_ ?%Hi]. lia.
- rewrite lookup_insert_is_Some. rewrite En, Ea. intros [<-|[_ ?%Hi]]; lia.
Qed.

Lemma issued_ops os d :
issued d → d_next_fh d + len os < u64_max →
issued (dops_state os d) ∧ d_next_fh d ≤ d_next_fh (dops_state os d) ≤ d_next_fh d + len os.
Proof.
revert d. induction os as [|o os IH]; intros d Hi Hb; [rewrite len_nil; cbn; split; [done|lia]|].
rewrite len_cons in *. pose proof (len_nonneg os). destruct (issued_step o d Hi ltac:(lia)) as [Hi' Hle].
rewrite dops_cons. destruct (IH _ Hi' ltac:(lia)) as [Hi2 Hle2]. split; [done|lia].
Qed.

(** A handle that is not closed keeps its identity. *)
Lemma id_stays os d fh x :
issued d → d_next_fh d + len os < u64_max → ids d !! fh = Some x → DClose fh ∉ os → ids (dops_state os d) !! fh = Some x.
Proof.
revert d. induction os as [|o os IH]; intros d Hi Hb Hx Hc; [done|].
rewrite len_cons in *. pose proof (len_nonneg os). apply not_elem_of_cons in Hc as [Hne Hc].
destruct (issued_step o d Hi ltac:(lia)) as [Hi' Hle]. rewrite dops_cons. apply IH; [done|lia| |done].
pose proof (proj2 Hi fh (mk_is_Some _ _ Hx)) as Hlt.
destruct (dop_ids o d) as [->|[(fh' & -> & ->)|(root & path & flags & y & _ & -> & _)]]; [done|..].
- rewrite lookup_delete_ne by congruence. done.
- rewrite lookup_insert_ne by lia. done.
Qed.

(** Every operation on the handle [fh] is the provider [p]'s on its handle [bh];
  a handle that appends puts its own offset for the caller's. *)
Record served_by (p : Provider W) (bh : Handle) (dir : bool) (cursor : option Z) (fh : Z) (d : Director W) : Prop := {
sv_read off buf : d_read fh off buf d = if dir then ((Err ST_IS_DIR, buf), d) else call (p_read_at p bh off buf) d;
sv_write off buf : let r := p_write_at p bh (default off cursor) buf (d_world d) in
  (d_write fh off buf d).1 = (if dir then Err ST_IS_DIR else r.1) ∧ d_world (d_write fh off buf d).2 = (if dir then d_world d else r.2);
sv_set_len n : let r := p_set_len p bh n (d_world d) in (d_set_len fh n d).1 = r.1 ∧ d_world (d_set_len fh n d).2 = r.2;
sv_flush : d_flush fh d = pcall (p_flush p bh) d;
sv_close : let r := p_close p bh (d_world d) in (d_close fh d).1 = r.1 ∧ d_world (d_close fh d).2 = r.2 ∧ d_opens (d_close fh d).2 !! fh = None }.

Lemma rec_served fh r d : d_opens d !! fh = Some r → served_by (rec_backend r) (rec_bh r) (rec_is_dir r) (rec_cursor r) fh d.
Proof.
intros Er. split.
- intros off buf. unfold d_read. by rewrite Er.
- intros off buf. unfold d_write, mbind, PM_bind, get_rec. rewrite Er. destruct (rec_is_dir r); [done|].
  unfold pcall, call, zoom. by destruct (p_write_at _ _ _ _ _) as [[n|e] w'].
- intros n. unfold d_set_len, mbind, PM_bind, get_rec. rewrite Er. unfold pcall, call, zoom. by destruct (p_set_len _ _ _ _) as [[[]|e] w'].
- unfold d_flush, mbind, PM_bind, get_rec. by rewrite Er.
- unfold d_close, mbind, PM_bind, get_rec. rewrite Er. unfold pcall, call, zoom. cbn [d_world set_opens].
  destruct (p_close _ _ _) as [[[]|e] w']; cbn; by rewrite lookup_delete_eq.
Qed.

(** C30: a handle stays with the provider that opened it: in any
  execution, [open] issues a handle that is not in use, and until it is
  closed every read, write, change of length, flush and the close itself of it
  go to the provider its root had when it was opened, with the handle that
  provider's open returned, whatever is opened, closed, written, mounted and
  unmounted in between; a write goes to the offset given, or, exactly if the
  handle was opened to append, to the handle's own. *)
Theorem handle_keeps_provider (w : W) os1 root path flags o d1 os2 :
open_info root path flags (dops_state os1 (director_new w)) = (Ok o, d1) →
DClose (oi_fh o) ∉ os2 → len os1 + len os2 + 3 < u64_max →
let d := dops_state os1 (director_new w) in
d_opens d !! oi_fh o = None ∧
∃ p q bh cursor, d_roots d !! root = Some p ∧ normalize path = Ok q ∧
  (p_open p (mkVPath root q) flags (d_world d)).1 = Ok (bh, oi_size o, oi_is_dir o) ∧
  (is_Some cursor ↔ Z.land flags OPEN_APPEND ≠ 0) ∧
  served_by p bh (oi_is_dir o) cursor (oi_fh o) (dops_state os2 d1).
Proof.
intros E Hc Hb d. pose proof (len_nonneg os1). pose proof (len_nonneg os2).
assert (issued (director_new w)) as Hnew.
{ split; [done|]. intros fh [r Hr]%ids_dom. cbn in Hr. by rewrite lookup_empty in Hr. }
destruct (issued_ops os1 _ Hnew) as [Hi Hn]; [cbn; lia|]. fold d in E, Hi, Hn. cbn in Hn.
pose proof (issued_step (DOpen root path flags) d Hi ltac:(lia)) as [Hi1 Hn1]. cbn [dop_state] in Hi1, Hn1. rewrite E in Hi1, Hn1.
cbn [snd] in *. apply open_info_cases in E as (_ & _ & Ef & _ & _ & p & bh & size & dir & c & Ep & Eo & Es & Ed & Ecur & q & Eq & Eopen).
split.
{ destruct (d_opens d !! oi_fh o) eqn:Ex; [|done]. destruct (proj2 Hi (oi_fh o)); [apply ids_dom; eauto|lia]. }
assert (ids (dops_state os2 d1) !! oi_fh o = Some (p, bh, dir, match c with Some _ => true | None => false end)) as Hid.
{ apply id_stays; [done|lia| |done]. unfold ids. rewrite Eo, lookup_fmap, lookup_insert_eq. done. }
unfold ids in Hid. rewrite lookup_fmap in Hid. apply fmap_Some in Hid as (r & Er & Eid). unfold rec_id in Eid. injection Eid as Ep' Eb Edir Ecr.
exists p, q, bh, (rec_cursor r). rewrite Es, Ed. split_and!; [done|done|done| |].
- rewrite Ecur in Ecr. destruct (Z.eqb_spec (Z.land flags OPEN_APPEND) 0); cbn in Ecr; destruct (rec_cursor r); try done; by (split; [by intros []|]).
- rewrite Ep', Eb, Edir. by apply rec_served.
Qed.

(** ** Generations *)

Lemma dop_gen o (d : Director W) :
(d_roots (dop_state (W := W) o d) = d_roots d ∧ d_mount_gen (dop_state o d) = d_mount_gen d) ∨
d_mount_gen (dop_state o d) = as_u32 (d_mount_gen d + 1).
Proof.
destruct (plain_op o) eqn:Ho; [left; by destruct (plain_op_tables o d Ho) as (? & _ & _ & ?)|].
destruct o; try done; cbn [dop_state]; [by right|by right|left..].
- destruct (open_info root path flags d) as [r d'] eqn:E. apply open_info_cases in E as (? & ? & _). done.
- unfold d_close, mbind, PM_bind, get_rec. destruct (d_opens d !! fh) as [r|]; [|done].
  pose proof (call_tables (p_close (rec_backend r) (rec_bh r)) (set_opens (delete fh (d_opens d)) d)) as (E1 & _ & _ & E2).
  unfold pcall. by rewrite E1, E2.
- unfold d_write, mbind, PM_bind, get_rec. destruct (d_opens d !! fh) as [r|]; [|done].
  destruct (rec_is_dir r); [done|]. pose proof (call_tables (p_write_at (rec_backend r) (rec_bh r)
    (default off (rec_cursor r)) buf) d) as (E1 & _ & _ & E2). unfold pcall. by destruct (call _ d) as [[n|e] d1].
- unfold d_set_len, mbind, PM_bind, get_rec. destruct (d_opens d !! fh) as [r|]; [|done].
  pose proof (call_tables (p_set_len (rec_backend r) (rec_bh r) n) d) as (E1 & _ & _ & E2).
  unfold pcall. by destruct (call _ d) as [[[]|e] d1].
Qed.

Lemma gen_mono os (d : Director W) :
0 ≤ d_mount_gen d → d_mount_gen d + len os < u32_max →
d_mount_gen d ≤ d_mount_gen (dops_state (W := W) os d) ∧
(d_mount_gen (dops_state os d) = d_mount_gen d → d_roots (dops_state os d) = d_roots d).
Proof.
revert d. induction os as [|o os IH]; intros d H0 Hb; [done|]. rewrite len_cons in Hb. pose proof (len_nonneg os).
rewrite dops_cons. destruct (dop_gen o d) as [[Er Eg]|Eg].
- destruct (IH (dop_state o d)) as [H1 H2]; [lia|lia|]. rewrite Eg, Er in *. done.
- unfold as_u32 in Eg. rewrite Z.mod_small in Eg by lia. destruct (IH (dop_state o d)) as [H1 _]; [lia|lia|].
  split; lia.
Qed.

(** C31: a mount generation names one content: two opens of the same root
  that report the same generation, with any operations in between (fewer
  than 2^32 of them), went to the same provider, so bytes a client has cached
  under that generation are never those of another mount. *)
Theorem mount_gen_names_provider root path1 flags1 path2 flags2 os o1 o2 (d d1 d2 : Director W) :
in_u32 (d_mount_gen d) → d_mount_gen d + len os < u32_max →
open_info root path1 flags1 d = (Ok o1, d1) → open_info root path2 flags2 (dops_state os d1) = (Ok o2, d2) →
oi_mount_gen o1 = oi_mount_gen o2 →
∃ p : Provider W, d_roots d !! root = Some p ∧ d_roots (dops_state os d1) !! root = Some p.
Proof.
intros [Hg _] Hb E1 E2 Eg. apply open_info_cases in E1 as (Er1 & Eg1 & _ & Ei1 & _ & p & ? & ? & ? & ? & Hp & _).
apply open_info_cases in E2 as (_ & _ & _ & Ei2 & _).
destruct (gen_mono os d1) as [_ Hr]; [lia|lia|]. exists p. split; [done|]. rewrite Hr by congruence. by rewrite Er1.
Qed.

(** ** Refused writes *)

(** Property: opening for writing on a root whose provider cannot be written
  never reaches the provider: the answer is [ST_READ_ONLY], nothing but the
  count of refused writes of that path changes, and it goes up by one. *)
Theorem write_open_refused root path flags (d : Director W) p c :
normalize path = Ok p → d_roots d !! root = Some c → Z.land flags OPEN_WRITE ≠ 0 →
access (p_capabilities c) ≠ ReadWrite →
∃ d', open_info root path flags d = (Err ST_READ_ONLY, d') ∧
  d' = set_rejected (d_rejected d') d ∧
  d_rejected d' !! norm_path p = Some (as_u64 (default 0 (d_rejected d !! norm_path p) + 1)) ∧
  ∀ q, q ≠ norm_path p → d_rejected d' !! q = d_rejected d !! q.
Proof.
intros Hp Hc Hf Ha. unfold open_info, mbind, PM_bind, d_normalize, dm_of. rewrite Hp, Hc.
rewrite (proj2 (Z.eqb_neq _ _)) by done. assert (writable c = false) as ->
  by (unfold writable; destruct (access (p_capabilities c)); done).
eexists. split; [done|]. split; [done|]. cbn [set_rejected d_rejected]. unfold record_rejected_write.
split; [apply lookup_insert_eq|]. intros q Hq. by apply lookup_insert_ne.
Qed.
End handles.

(** ** Append handles *)

(** What a provider promises behind an open handle: a write is complete, and a
    resize is exact. *)
Class FullWrites {W} (P : Provider W) (h : Handle) (K : bytes → W → Prop) : Prop := {
  full_write w c off d : K c w → 0 ≤ off →
    ∃ w', p_write_at P h off d w = (Ok (len d), w') ∧ K (write_bytes c off d) w';
  full_set_len w c n : K c w → 0 ≤ n → ∃ w', p_set_len P h n w = (Ok (), w') ∧ K (resize_bytes n c) w' }.

#[export] Instance memory_full_writes {CT : CaseTable} h : FullWrites memory h (mem_holds h).
Proof.
  split.
  - intros s c off d [Hp Hf] Ho. destruct (mem_write_ok s h off d c Hp Hf) as (s' & E & Eo & Ef & _).
    exists s'. split; [done|]. split; [by rewrite Eo|done].
  - intros s c n [Hp Hf] Hn. cbn [memory p_set_len]. unfold mem_set_len, mbind, PM_bind.
    apply bind_Some in Hf as (path & Hh & Hc). rewrite (mem_get s h path Hp Hh). unfold pm_modify, mem_update. rewrite Hc.
    eexists. split; [done|]. split; [done|]. unfold file_of. cbn. rewrite Hh. cbn. apply lookup_insert_eq.
Qed.

(** A client's calls on an append handle: writes at whatever offsets, and
    truncations. *)
Inductive aop := App (off : Z) (d : bytes) | Cut (n : Z).

(** What they make of a content. *)
Definition aop_content (c : bytes) (o : aop) : bytes :=
  match o with App _ d => c ++ d | Cut n => take (Z.to_nat n) c end.

(** Truncations only shorten. *)
Fixpoint cuts_ok (c : bytes) (os : list aop) : Prop :=
  match os with
  | [] => True
  | o :: os => match o with App _ _ => True | Cut n => 0 ≤ n ≤ len c end ∧ cuts_ok (aop_content c o) os
  end.

Lemma write_at_end c d : write_bytes c (len c) d = c ++ d.
Proof.
  destruct (write_bytes_spec c (len c) d (len_nonneg c)) as [Hl Hb]. pose proof (len_nonneg d).
  apply bytes_ext; [rewrite Hl, len_app; lia|]. intros i Hi. rewrite Hl in Hi. rewrite Hb, byte_at_app.
  destruct (Z.leb_spec (len c) i), (Z.ltb_spec i (len c)), (Z.ltb_spec i (len c + len d)); cbn [andb]; try lia; done.
Qed.

Lemma resize_cut n c : 0 ≤ n ≤ len c → resize_bytes n c = take (Z.to_nat n) c.
Proof.
  intros Hn. unfold resize_bytes. assert (Z.to_nat n - length c = 0)%nat as -> by (unfold len in Hn; lia).
  apply app_nil_r.
Qed.

Section append.
Context {CT : CaseTable} {W : Type} (P : Provider W) (bh : Handle) (K : bytes → W → Prop).
Context `{HK : !FullWrites P bh K}.

Definition aop_run (fh : Z) (o : aop) (d : Director W) : Director W :=
match o with App off data => (d_write fh off data d).2 | Cut n => (d_set_len fh n d).2 end.

(** The handle is open for appending, at the end of the content. *)
Definition appending (fh : Z) (c : bytes) (d : Director W) : Prop :=
K c (d_world d) ∧ ∃ size, d_opens d !! fh = Some (mkOpenRec P bh size false (Some (len c))).

Lemma aop_step fh o c d :
appending fh c d → match o with App _ _ => True | Cut n => 0 ≤ n ≤ len c end →
len (aop_content c o) < u64_max → appending fh (aop_content c o) (aop_run fh o d).
Proof using HK.
intros [Hk [size Hr]] Ho Hb. destruct o as [off data|n]; cbn [aop_run aop_content] in *.
- destruct (full_write (d_world d) c (len c) data Hk (len_nonneg c)) as (w' & E & Hk').
  rewrite write_at_end in Hk'. unfold d_write, mbind, PM_bind, get_rec. rewrite Hr. cbn [rec_is_dir rec_cursor rec_backend rec_bh default].
  unfold pcall, call, zoom. change (id (len c)) with (len c). rewrite E. cbn [pm_modify snd].
  split; [done|]. cbn [set_opens set_world d_opens]. rewrite lookup_alter_eq, Hr. cbn [fmap option_fmap option_map rec_wrote].
  rewrite len_app in Hb. pose proof (len_nonneg c). pose proof (len_nonneg data).
  unfold as_u64. rewrite Z.mod_small by lia. unfold rec_wrote. cbn. rewrite len_app. by eexists.
- destruct (full_set_len (d_world d) c n Hk ltac:(lia)) as (w' & E & Hk'). rewrite resize_cut in Hk' by done.
  unfold d_set_len, mbind, PM_bind, get_rec. rewrite Hr. cbn [rec_backend rec_bh].
  unfold pcall, call, zoom. rewrite E. cbn [pm_modify snd]. split; [done|]. cbn [set_opens set_world d_opens].
  rewrite lookup_alter_eq, Hr. unfold rec_resized. cbn. assert (len (take (Z.to_nat n) c) = n) as ->
    by (unfold len in *; rewrite length_take; lia). rewrite Z.min_r by lia. by eexists.
Qed.

(** Property: an append handle appends: whatever offsets the client gives, the
  writes through it land one after the other at the end of the file, also
  after truncations through the same handle, with no hole and nothing
  overwritten, and the cursor is the length of the file again. *)
Theorem append_appends fh os c d :
appending fh c d → cuts_ok c os →
(∀ k, len (foldl aop_content c (take k os)) < u64_max) →
appending fh (foldl aop_content c os) (foldl (λ d o, aop_run fh o d) d os).
Proof using HK.
revert c d. induction os as [|o os IH]; intros c d Ha Hc Hb; [done|]. destruct Hc as [Ho Hc]. cbn [foldl].
apply IH; [|done|intros k; exact (Hb (S k))]. apply aop_step; [done|done|]. exact (Hb 1%nat).
Qed.
End append.

(** ** A concrete director *)

Module DirectorDemo.
#[local] Existing Instance demo_table.

Definition disk : Memory := from_files [(lit "log.txt", [1; 2; 3]); (lit "b.ini", [4])].
(** Root 1 is writable, root 2 is the same store behind a read-only view. *)
Definition mounts : list (dop Memory) := [DMount 1 memory; DMount 2 (readonly memory)].
Definition start : Director Memory := dops_state mounts (director_new disk).

Definition opened (flags : Z) : result Z OpenInfo * Director Memory := open_info 1 (lit "LOG.txt") flags start.
Definition read_only_open : result Z OpenInfo * Director Memory := opened OPEN_READ.
Definition appender : Director Memory := (opened (Z.lor OPEN_WRITE OPEN_APPEND)).2.

Lemma opened_ok : read_only_open = (Ok (mkOpenInfo 1 3 false false 3), read_only_open.2).
Proof. rewrite (surjective_pairing read_only_open) at 1. by f_equal. Qed.

(** Another file, after other operations. *)
Definition between : list (dop Memory) := [DGetattr 2 (lit "b.ini"); DClose 1].
Definition reopened : result Z OpenInfo * Director Memory :=
  open_info 1 (lit "b.ini") OPEN_READ (dops_state between read_only_open.2).
Lemma reopened_ok : reopened = (Ok (mkOpenInfo 2 1 false false 3), reopened.2).
Proof. rewrite (surjective_pairing reopened) at 1. by f_equal. Qed.

Lemma appender_ok : appending memory 1 (mem_holds 1) 1 [1; 2; 3] appender.
Proof.
  split; [split; vm_compute; reflexivity|]. exists 3. reflexivity.
Qed.
End DirectorDemo.
Import DirectorDemo.
#[local] Existing Instance demo_table.

(** The root is taken away and mounted with something else meanwhile. *)
Lemma handle_keeps_provider_witness :
  let d2 := dops_state [DUnmount 1; DMount 1 (readonly memory); DOpen 1 (lit "b.ini") OPEN_READ] read_only_open.2 in
  d_opens start !! 1 = None ∧
  ∃ p q bh cursor, d_roots start !! 1 = Some p ∧ (p_open p (mkVPath 1 q) OPEN_READ (d_world start)).1 = Ok (bh, 3, false) ∧
    served_by p bh false cursor 1 d2.
Proof.
  intros d2.
  destruct (handle_keeps_provider disk mounts 1 (lit "LOG.txt") OPEN_READ _ _
    [DUnmount 1; DMount 1 (readonly memory); DOpen 1 (lit "b.ini") OPEN_READ] opened_ok)
    as (H1 & p & q & bh & cursor & Hp & _ & Ho & _ & H2).
  - intros H. repeat (apply elem_of_cons in H as [H|H]; [discriminate H|]). by apply elem_of_nil in H.
  - reflexivity.
  - split; [exact H1|]. exists p, q, bh, cursor. split; [exact Hp|]. split; [exact Ho|exact H2].
Defined.

Lemma mount_gen_names_provider_witness :
  ∃ p : Provider Memory, d_roots start !! 1 = Some p ∧
    d_roots (dops_state between read_only_open.2) !! 1 = Some p.
Proof.
  refine (mount_gen_names_provider 1 (lit "LOG.txt") OPEN_READ (lit "b.ini") OPEN_READ
    between _ _ start _ _ _ _ opened_ok reopened_ok eq_refl).
  - split; vm_compute; [discriminate|reflexivity].
  - vm_compute. reflexivity.
Defined.

Lemma write_open_refused_witness :
  ∃ d', open_info 2 (lit "b.ini") OPEN_WRITE start = (Err ST_READ_ONLY, d') ∧
    d_rejected d' !! norm_path (lit "b.ini") = Some 1.
Proof.
  destruct (write_open_refused 2 (lit "b.ini") OPEN_WRITE start (lit "b.ini") (readonly memory)) as (d' & E & _ & Hr & _).
  - reflexivity.
  - reflexivity.
  - vm_compute. discriminate.
  - vm_compute. discriminate.
  - exists d'. split; [exact E|exact Hr].
Defined.

Lemma append_appends_witness :
  appending memory 1 (mem_holds 1) 1 [1; 2; 9; 8]
    (foldl (λ d o, aop_run 1 o d) appender [App 0 [7; 7]; Cut 2; App 17 [9]; App 0 [8]]).
Proof.
  refine (append_appends memory 1 (mem_holds 1) 1 [App 0 [7; 7]; Cut 2; App 17 [9]; App 0 [8]] [1; 2; 3] appender appender_ok _ _).
  - cbn. unfold len. cbn. lia.
  - intros k. do 5 (destruct k as [|k]; [vm_compute; reflexivity|]). vm_compute. reflexivity.
Defined.

(** ** Moving a file from one root to another
    ([Director::rename_across]), over any two stores that keep the promises of
    [FlatStore], each with its own part of the world. *)


(** ** A provider on its part of the world *)

Definition provider_on {S W} (get : W → S) (put : S → W → W) (P : Provider S) : Provider W := {|
  p_capabilities := p_capabilities P;
  p_getattr := λ p, zoom get put (p_getattr P p);
  p_readdir := λ p, zoom get put (p_readdir P p);
  p_open := λ p f, zoom get put (p_open P p f);
  p_close := λ h, zoom get put (p_close P h);
  p_read_at := λ h off buf, zoom get put (p_read_at P h off buf);
  p_read_next := λ h buf, zoom get put (p_read_next P h buf);
  p_write_at := λ h off d, zoom get put (p_write_at P h off d);
  p_set_len := λ h n, zoom get put (p_set_len P h n);
  p_flush := λ h, zoom get put (p_flush P h);
  p_mkdir := λ p, zoom get put (p_mkdir P p);
  p_remove := λ p, zoom get put (p_remove P p);
  p_rename := λ a b, zoom get put (p_rename P a b);
  p_set_attr := λ p a, zoom get put (p_set_attr P p a);
  p_stored_name := λ p, zoom get put (p_stored_name P p);
  p_is_immutable := λ h w, p_is_immutable P h (get w) |}.

Definition on_fst {A B} (P : Provider A) : Provider (A * B) := provider_on fst (λ a w, (a, w.2)) P.
Definition on_snd {A B} (P : Provider B) : Provider (A * B) := provider_on snd (λ b w, (w.1, b)) P.

(** ** The copy *)

Section across.
Context {CT : CaseTable} {A B : Type} (P : Provider A) (Q : Provider B) (ra rb : Z).
Context (F : A → gmap str bytes) (I : A → Prop) (H : Handle → str → A → Prop).
Context (G : B → gmap str bytes) (J : B → Prop) (K : Handle → str → B → Prop).
Context `{FP : !FlatStore P ra F I H} `{FQ : !FlatStore Q rb G J K}.

(** One block: the bytes of [c] from [at_] on are added to the file [b]. *)
Lemma put_loop_ok fuel dh b c at_ n done_ (wa : A) (wb : B) :
J wb → K dh b wb → G wb !! b = Some (take (Z.to_nat (at_ + done_)) c) →
0 ≤ at_ → 0 ≤ done_ ≤ n → at_ + n ≤ len c → n - done_ ≤ Z.of_nat fuel →
∃ wb', put_loop fuel (on_snd Q) dh at_ (take (Z.to_nat n) (drop (Z.to_nat at_) c)) done_ (wa, wb) = (Ok (), (wa, wb')) ∧
  J wb' ∧ K dh b wb' ∧ G wb' = <[b := take (Z.to_nat (at_ + n)) c]> (G wb).
Proof using FQ.
intros HJ HK HG Ha Hd Hn Hf. set (data := take (Z.to_nat n) (drop (Z.to_nat at_) c)).
assert (len data = n) as Hl by (unfold data, len in *; rewrite length_take, length_drop; lia).
revert done_ wb HJ HK HG Hd Hf. induction fuel as [|fuel IH]; intros done_ wb HJ HK HG Hd Hf; cbn [put_loop]; rewrite Hl;
  (destruct (Z.ltb_spec done_ n) as [Hlt|Hge]; cbn [negb]; [|
    exists wb; split; [done|]; split; [done|]; split; [done|];
    assert (done_ = n) as -> by lia; by rewrite insert_id]).
- lia.
- assert (drop (Z.to_nat done_) data = take (Z.to_nat (n - done_)) (drop (Z.to_nat (at_ + done_)) c)) as Ed.
  { unfold data. rewrite skipn_firstn_comm, drop_drop. f_equal; [lia|f_equal; lia]. }
  assert (len (drop (Z.to_nat done_) data) = n - done_) as Hdl by (unfold len in *; rewrite length_drop; lia).
  assert (drop (Z.to_nat done_) data ≠ []) as Hne by (intros E; rewrite E, len_nil in Hdl; lia).
  destruct (fs_write dh b _ (at_ + done_) _ wb HJ HK HG ltac:(lia) Hne) as (k & wb1 & E & Hk & HJ1 & HK1 & HG1).
  cbn [on_snd provider_on p_write_at]. unfold zoom. cbn [snd]. rewrite E. rewrite (proj2 (Z.eqb_neq _ _)) by lia.
  assert (take (Z.to_nat k) (drop (Z.to_nat done_) data) = take (Z.to_nat k) (drop (Z.to_nat (at_ + done_)) c)) as Et.
  { rewrite Ed, take_take. f_equal. lia. }
  rewrite Et, write_next in HG1 by lia. cbn [fst snd].
  destruct (IH (done_ + k) wb1 HJ1 HK1) as (wb2 & E2 & HJ2 & HK2 & HG2);
    [rewrite HG1, lookup_insert_eq; do 3 f_equal; lia|lia|lia|].
  exists wb2. split; [done|]. split; [done|]. split; [done|]. rewrite HG2, HG1. apply insert_insert_eq.
Qed.

Lemma across_loop_ok fuel sh dh a b c at_ buf wa wb :
I wa → H sh a wa → F wa !! a = Some c → J wb → K dh b wb → G wb !! b = Some (take (Z.to_nat at_) c) →
0 ≤ at_ ≤ len c → 0 < len buf → len c - at_ ≤ Z.of_nat fuel →
∃ wa' wb', across_loop fuel (on_fst P) (on_snd Q) sh dh (len c) at_ buf (wa, wb) = (CopyDone (Ok ()), (wa', wb')) ∧
  I wa' ∧ H sh a wa' ∧ F wa' = F wa ∧ J wb' ∧ K dh b wb' ∧ G wb' = <[b := c]> (G wb).
Proof using FP FQ.
revert at_ buf wa wb. induction fuel as [|fuel IH]; intros at_ buf wa wb HI HH HF HJ HK HG Ha Hb Hf; cbn [across_loop];
  (destruct (Z.ltb_spec at_ (len c)) as [Hlt|Hge]; cbn [negb]; [|
    exists wa, wb; split_and!; try done; rewrite take_ge in HG by (unfold len in *; lia); by rewrite insert_id]).
- lia.
- destruct (fs_read sh a c at_ buf wa HI HH HF ltac:(lia)) as (n & buf' & wa1 & E & HI1 & HH1 & HF1 & Hn & Hz & Hl & Hle & Ht).
  cbn [on_fst provider_on p_read_at]. unfold zoom. cbn [fst]. rewrite E. cbn [snd].
  assert (n ≠ 0) as Hn0 by (intros ->; destruct (Hz eq_refl); lia). rewrite (proj2 (Z.eqb_neq _ _)) by done. rewrite Ht.
  destruct (put_loop_ok (Z.to_nat n) dh b c at_ n 0 wa1 wb HJ HK) as (wb1 & E1 & HJ1 & HK1 & HG1);
    [rewrite Z.add_0_r; done|lia|lia|lia|lia|].
  fold (@on_snd A B Q). rewrite E1.
  destruct (IH (at_ + n) buf' wa1 wb1 HI1 HH1) as (wa2 & wb2 & E2 & ? & ? & HF2 & ? & ? & HG2);
    [by rewrite HF1|done|done|by rewrite HG1, lookup_insert_eq|lia|lia|lia|].
  exists wa2, wb2. split; [exact E2|]. split_and!; try done; [by rewrite HF2|]. by rewrite HG2, HG1, insert_insert_eq.
Qed.

(** The whole move, on the two stores. *)
Lemma across_ok a b c wa wb :
flat_name a → flat_name b → I wa → J wb → F wa !! a = Some c → access (p_capabilities Q) = ReadWrite →
∃ wa' wb', across (on_fst P) (on_snd Q) (mkVPath ra a) (mkVPath rb b) (wa, wb) = (Ok (), (wa', wb')) ∧
  I wa' ∧ J wb' ∧ F wa' = delete a (F wa) ∧ G wb' = <[b := c]> (G wb).
Proof using FP FQ.
intros Ha Hb HI HJ Hc Hw. unfold across, mbind, PM_bind.
destruct (fs_getattr a c wa Ha HI Hc) as (st & wa1 & E1 & Ek & HI1 & HF1).
assert (p_getattr (on_fst P) (mkVPath ra a) (wa, wb) = (Ok (Some st), (wa1, wb))) as -> by (cbn; unfold zoom; cbn; by rewrite E1).
rewrite Ek. change (KIND_FILE =? KIND_DIR) with false. cbn match.
assert (writable (@on_snd A B Q) = true) as -> by (unfold writable; cbn; by rewrite Hw). cbn [negb].
pose proof (fs_open a wa1 Ha HI1) as Ho. rewrite HF1, Hc in Ho. destruct Ho as (sh & sd & wa2 & E2 & HI2 & HH2 & HF2).
assert (p_open (on_fst P) (mkVPath ra a) OPEN_READ (wa1, wb) = (Ok (sh, len c, sd), (wa2, wb))) as ->
  by (cbn; unfold zoom; cbn; by rewrite E2).
destruct (fs_create b wb Hb HJ) as (dh & sz & dd & wb1 & E3 & HJ1 & HK1 & HG1).
assert (p_open (on_snd Q) (mkVPath rb b) (Z.lor (Z.lor OPEN_WRITE OPEN_CREATE) OPEN_TRUNC) (wa2, wb) =
  (Ok (dh, sz, dd), (wa2, wb1))) as E3' by (cbn [on_snd provider_on p_open]; unfold zoom; cbn [snd]; by rewrite E3).
unfold across_copy. rewrite E3'.
destruct (across_loop_ok (Z.to_nat (len c)) sh dh a b c 0 (replicate (Z.to_nat (Z.shiftl 1 20)) 0) wa2 wb1)
  as (wa3 & wb3 & E4 & HI3 & HH3 & HF3 & HJ3 & HK3 & HG3); try done.
{ by rewrite HF2. }
{ by rewrite HG1, lookup_insert_eq. }
{ pose proof (len_nonneg c). lia. }
{ pose proof (len_nonneg c). lia. }
rewrite E4. destruct (fs_flush dh b wb3 HJ3 HK3) as (wb4 & E5 & HJ4 & HK4 & HG4).
destruct (fs_close dh b wb4 HJ4 HK4) as (wb5 & E6 & HJ5 & HG5).
destruct (fs_close sh a wa3 HI3 HH3) as (wa4 & E7 & HI4 & HF4).
destruct (fs_remove a c wa4 Ha HI4) as (wa5 & E8 & HI5 & HF5); [by rewrite HF4, HF3, HF2|].
cbn [on_fst on_snd provider_on p_flush p_close p_remove]. unfold zoom. cbn [snd fst].
rewrite E5. cbn [snd fst]. rewrite E6. cbn [res_and fst snd]. rewrite E7. cbn [fst snd]. rewrite E8. cbn [fst snd].
exists wa5, wb5. split; [done|]. split; [done|]. split; [done|]. split; [by rewrite HF5, HF4, HF3, HF2|].
by rewrite HG5, HG4, HG3, HG1, insert_insert_eq.
Qed.

(** C32: a move between roots moves a file at the top of its root: for any
  two stores with states of their own that keep the promises of [FlatStore]
  (and may read and write in pieces), the destination taking writes, and names
  of one component in lower-case ASCII ([flat_name]), [rename_across] ends without an error, the destination then has exactly the file's bytes,
  in place of what was there, the source no longer has it, and no other file
  and none of the director's tables changed. *)
Theorem rename_across_moves (d : Director (A * B)) a b c :
flat_name a → flat_name b → normalize a = Ok a → normalize b = Ok b → ra ≠ rb →
d_roots d !! ra = Some (on_fst P) → d_roots d !! rb = Some (on_snd Q) → access (p_capabilities Q) = ReadWrite →
I (d_world d).1 → J (d_world d).2 → F (d_world d).1 !! a = Some c →
∃ d', d_rename_across ra a rb b d = (Ok (), d') ∧ same_tables d d' ∧
  F (d_world d').1 = delete a (F (d_world d).1) ∧ G (d_world d').2 = <[b := c]> (G (d_world d).2).
Proof using FP FQ.
intros Ha Hb Na Nb Hr Ra Rb Hw HI HJ Hc. unfold d_rename_across. rewrite (proj2 (Z.eqb_neq _ _)) by done.
unfold mbind, PM_bind, d_normalize, dm_of, need_provider. rewrite Na, Nb, Ra, Rb.
destruct (d_world d) as [wa wb] eqn:Ew. cbn [fst snd] in *.
destruct (across_ok a b c wa wb Ha Hb HI HJ Hc Hw) as (wa' & wb' & E & _ & _ & HF & HG).
unfold pcall, call, zoom. rewrite Ew, E. eexists. split; [done|]. split; [done|]. done.
Qed.
End across.

(** ** Concrete roots *)

Module AcrossDemo.
#[local] Existing Instance demo_table.

Definition profile : Memory := from_files [(lit "t.tmp", [1; 2; 3])].
Definition game : Memory := from_files [(lit "old.tmp", [9])].
Definition two_roots (dst : Provider Memory) : Director (Memory * Memory) :=
  d_mount 1 (on_snd dst) (d_mount 4 (on_fst memory) (director_new (profile, game))).

Lemma flat_files es : forallb (λ e, forallb flat_char (trim_rel e.1) && negb (str_eqb (trim_rel e.1) [])) es = true →
  MemFlat (from_files es).
Proof.
  intros Hes. assert (map_Forall (λ k _, flat_name k) (m_files (from_files es)) ∧
    h_poisoned (m_opens (from_files es)) = false ∧ m_dirs (from_files es) = ∅) as (Hf & Ho & Hd).
  { unfold from_files. assert (∀ s, map_Forall (λ k _, flat_name k) (m_files s) ∧ h_poisoned (m_opens s) = false ∧ m_dirs s = ∅ →
      map_Forall (λ k _, flat_name k) (m_files (foldl mem_add s es)) ∧ h_poisoned (m_opens (foldl mem_add s es)) = false ∧
      m_dirs (foldl mem_add s es) = ∅) as Hg; [|by apply Hg; split; [apply map_Forall_empty|]].
    induction es as [|e es IH]; intros s Hs; [done|]. cbn [foldl forallb] in *.
    apply andb_true_iff in Hes as [[He1 He2]%andb_true_iff Hes]. apply IH; [done|]. destruct Hs as (H1 & H2 & H3).
    split; [|done]. apply map_Forall_insert_2; [|done]. split; [|done].
    intros E. rewrite E in He2. done. }
  split; [done|done|apply from_files_IndexOk|done].
Qed.

(** A destination that is full. *)
Definition full : Provider Memory := {|
  p_capabilities := p_capabilities memory; p_getattr := p_getattr memory; p_readdir := p_readdir memory;
  p_open := p_open memory; p_close := p_close memory; p_read_at := p_read_at memory; p_read_next := p_read_next memory;
  p_write_at := λ _ _ _, pm_err ST_NO_SPACE; p_set_len := p_set_len memory; p_flush := p_flush memory;
  p_mkdir := p_mkdir memory; p_remove := p_remove memory; p_rename := p_rename memory; p_set_attr := p_set_attr memory;
  p_stored_name := p_stored_name memory; p_is_immutable := p_is_immutable memory |}.
End AcrossDemo.
Import AcrossDemo.
#[local] Existing Instance demo_table.

Lemma rename_across_moves_witness :
  ∃ d', d_rename_across 4 (lit "t.tmp") 1 (lit "old.tmp") (two_roots memory) = (Ok (), d') ∧
    m_files (d_world d').1 = delete (lit "t.tmp") (m_files profile) ∧
    m_files (d_world d').2 = <[lit "old.tmp" := [1; 2; 3]]> (m_files game).
Proof.
  destruct (rename_across_moves memory memory 4 1 m_files MemFlat mem_open_on m_files MemFlat mem_open_on
    (two_roots memory) (lit "t.tmp") (lit "old.tmp") [1; 2; 3]) as (d' & E & _ & H1 & H2).
  - split; [discriminate|reflexivity].
  - split; [discriminate|reflexivity].
  - reflexivity.
  - reflexivity.
  - discriminate.
  - reflexivity.
  - reflexivity.
  - reflexivity.
  - apply flat_files. reflexivity.
  - apply flat_files. reflexivity.
  - reflexivity.
  - exists d'. split; [exact E|]. split; [exact H1|exact H2].
Defined.

(** Property: when a write to the destination fails, [rename_across] returns
    with the destination's handle still open (nobody knows its number, so
    nobody can close it) and the file that was there truncated. *)
Example rename_across_leaks :
  let r := d_rename_across 4 (lit "t.tmp") 1 (lit "old.tmp") (two_roots full) in
  r.1 = Err ST_NO_SPACE ∧
  h_map (m_opens (d_world r.2).2) !! 1 = Some (lit "old.tmp") ∧ d_opens r.2 !! 1 = None ∧
  h_map (m_opens (d_world r.2).1) !! 1 = None ∧
  m_files (d_world r.2).2 !! lit "old.tmp" = Some [] ∧
  m_files (d_world (two_roots full)).2 !! lit "old.tmp" = Some [9].
Proof. vm_compute. repeat split. Qed.
