(* ===== verification/DispatchProps.v ===== *)
(** DispatchProps: what the ring's requests get from the director: an answer to
    every request, whatever its bytes; replies that fit the slot they are
    written to; and, for the shim's own requests, the director's result. *)

From S2P Require Import Prelude Text Path RegTypes RegPath RegOverlay RegInv RegOps RegProps RegMachine Seg Arena.
From S2P Require Import Wire Protocol Provider Compose ComposePath Memory MemoryProps OverlayFs RegHost Director.
From S2P Require Import DirectorProps Dispatch.

Section registry.
Context {CT : CaseTable} {W : Type}.

(** ** No request panics *)

Lemma mutate_Inv path f (h : RegHost W) g op :
Inv (rh_overlay h) → f = run_op op → path = op_path op →
∃ r h' g', mutate path f h g = Some (r, (h', g')) ∧ Inv (rh_overlay h').
Proof.
intros HI -> ->. unfold mutate, mutate_overlay. destruct (check_path (op_path op)) as [[]|e]; [|by eexists _, _, _].
destruct (run_op_outcome op _ HI) as [[e E]|(o' & E & HI' & _)]; rewrite E; cbn [mbind option_bind]; by eexists _, _, _.
Qed.

Lemma version_reply_total {S} (x : option (result Z Z * S)) (I : S → Prop) :
(∃ r s, x = Some (r, s) ∧ I s) → ∃ y s, version_reply x = Some (y, s) ∧ I s.
Proof. intros (r & s & -> & Hs). by eexists _, s. Qed.

Lemma dispatch_registry_total now (h : RegHost W) g opcode payload cap :
Inv (rh_overlay h) →
∃ r h' g', dispatch_registry now h g opcode payload cap = Some (r, (h', g')) ∧ Inv (rh_overlay h').
Proof.
intros HI. assert (∃ r s, dispatch_registry now h g opcode payload cap = Some (r, s) ∧ Inv (rh_overlay s.1)) as (r & [h' g'] & E & HI');
  [|by exists r, h', g'].
pose proof (λ path f op, mutate_Inv path f h g op HI) as Hm.
assert (∀ path f op, f = run_op op → path = op_path op →
  ∃ r s, mutate path f h g = Some (r, s) ∧ Inv (rh_overlay s.1)) as Hm'.
{ intros path f op Hf Hp. destruct (Hm path f op Hf Hp) as (r & h' & g' & E & ?). by exists r, (h', g'). }
unfold dispatch_registry. repeat case_match; try (by eexists _, (h, g)).
- apply (version_reply_total _ (λ s, Inv (rh_overlay s.1))). by eapply (Hm' _ _ (OpSetValue _ _ _ _ _)).
- apply (version_reply_total _ (λ s, Inv (rh_overlay s.1))). by eapply (Hm' _ _ (OpDeleteValue _ _ _)).
- apply (version_reply_total _ (λ s, Inv (rh_overlay s.1))). by eapply (Hm' _ _ (OpCreateKey _ _ false _)).
- apply (version_reply_total _ (λ s, Inv (rh_overlay s.1))). by eapply (Hm' _ _ (OpDeleteKey _ _)).
- apply (version_reply_total _ (λ s, Inv (rh_overlay s.1))). unfold host_rename_key.
  destruct (_ || _); [by eexists _, (h, g)|]. by eapply (Hm' _ _ (OpRenameKey _ _ _)).
Qed.
End registry.

Section total.
Context {CT : CaseTable} {W : Type}.

Definition registry_ok (d : Director W) : Prop :=
match d_registry d with Some h => Inv (rh_overlay h) | None => True end.

(** The file operations leave the registry alone. *)
Definition no_reg {A} (m : PM (Director W) A) : Prop := ∀ d, d_registry (m d).2 = d_registry d.

Lemma no_reg_bind {A B} (m : PM (Director W) A) (f : A → PM (Director W) B) :
no_reg m → (∀ a, no_reg (f a)) → no_reg (m ≫= f).
Proof.
intros Hm Hf d. unfold mbind, PM_bind. specialize (Hm d). destruct (m d) as [[a|e] d1]; cbn [snd] in *; [|done].
by rewrite Hf.
Qed.
Lemma no_reg_call {R} (m : W → R * W) (d : Director W) : d_registry (call m d).2 = d_registry d.
Proof. unfold call, zoom. by destruct (m (d_world d)). Qed.
Lemma no_reg_pcall {A} (m : PM W A) : no_reg (pcall m).
Proof. intros d. apply (no_reg_call m d). Qed.
Lemma no_reg_same {A} (r : Director W → result Z A) : no_reg (λ d, (r d, d)).
Proof. done. Qed.
End total.

Create HintDb no_reg.
#[export] Hint Resolve no_reg_pcall no_reg_same : no_reg.
#[export] Hint Extern 2 (no_reg (_ ≫= _)) => (apply no_reg_bind; [|intros]) : no_reg.
#[export] Hint Extern 3 (no_reg (d_normalize _)) => apply (no_reg_same (λ _, _)) : no_reg.
#[export] Hint Extern 3 (no_reg (need_provider _ _)) => (intros ?; reflexivity) : no_reg.
#[export] Hint Extern 3 (no_reg (get_rec _)) => (intros ?; reflexivity) : no_reg.
#[export] Hint Extern 3 (no_reg (pm_modify _ _)) => (intros ?; reflexivity) : no_reg.
#[export] Hint Extern 3 (no_reg (pm_err _)) => (intros ?; reflexivity) : no_reg.
#[export] Hint Extern 3 (no_reg (mret _)) => (intros ?; reflexivity) : no_reg.

Section total2.
Context {CT : CaseTable} {W : Type}.

Lemma no_reg_names p root comps i skip before : no_reg (W := W) (names_loop p root comps i skip before).
Proof.
revert i before. induction comps as [|c comps IH]; intros i before; cbn [names_loop]; [auto with no_reg|].
destruct (i <? skip); [apply IH|]. auto 10 with no_reg.
Qed.

Lemma no_reg_open root path flags : no_reg (W := W) (open_info root path flags).
Proof.
apply no_reg_bind; [auto with no_reg|]. intros p d. destruct (d_roots d !! root) as [P|]; [|done].
destruct (_ && _); [done|]. pose proof (no_reg_pcall (p_open P (mkVPath root p) flags) d) as E.
by destruct (pcall _ d) as [[[[bh size] dir]|e] d1].
Qed.

Lemma no_reg_close fh : no_reg (W := W) (d_close fh).
Proof.
apply no_reg_bind; [auto with no_reg|]. intros r d. rewrite no_reg_pcall. done.
Qed.

Lemma no_reg_write fh off buf : no_reg (W := W) (d_write fh off buf).
Proof. apply no_reg_bind; [auto with no_reg|]. intros r. destruct (rec_is_dir r); [done|]. cbv zeta. auto with no_reg. Qed.

Lemma no_reg_getattr root path : no_reg (W := W) (d_getattr root path).
Proof. apply no_reg_bind; [auto with no_reg|]. intros p d. destruct (d_roots d !! root); [apply no_reg_pcall|done]. Qed.
Lemma no_reg_stage root path : no_reg (W := W) (stage_exec root path).
Proof. apply no_reg_bind; [auto with no_reg|]. intros p d. destruct (d_exec_stager d); [apply no_reg_pcall|done]. Qed.
Lemma no_reg_rename root from to : no_reg (W := W) (d_rename root from to).
Proof. unfold d_rename. auto 10 with no_reg. Qed.
Lemma no_reg_across fr from tr to : no_reg (W := W) (d_rename_across fr from tr to).
Proof. unfold d_rename_across. destruct (fr =? tr); [apply no_reg_rename|]. auto 12 with no_reg. Qed.

Lemma no_reg_answer {A} (enc : A → bytes) (m : PM (Director W) A) d :
no_reg m → d_registry (answer enc m d).2 = d_registry d.
Proof. intros Hm. unfold answer. specialize (Hm d). by destruct (m d). Qed.

Lemma dispatch_file_reg opcode payload (d : Director W) : d_registry (dispatch_file opcode payload d).2 = d_registry d.
Proof.
unfold dispatch_file, d_readdir, d_remove, d_mkdir, d_set_len, d_stored_names.
repeat case_match; try done; apply no_reg_answer;
  auto 10 using no_reg_getattr, no_reg_open, no_reg_close, no_reg_write, no_reg_rename, no_reg_across, no_reg_stage,
    no_reg_names with no_reg.
Qed.

Lemma d_read_reg fh off buf (d : Director W) : d_registry (d_read fh off buf d).2 = d_registry d.
Proof. unfold d_read. repeat case_match; try done. apply no_reg_call. Qed.

(** Property: the director answers every request: for any opcode, any payload
  bytes and any flags there is a reply, and the registry overlay stays well
  formed, so a request a broken or hostile client sends cannot bring the
  director down. *)
Theorem dispatch_never_panics now opcode payload flags cap arena (d : Director W) m :
registry_ok d → ∃ r d' m', dispatch_director now opcode payload flags cap arena d m = Some (r, d', m') ∧ registry_ok d'.
Proof.
intros Hr. unfold dispatch_director. destruct (opcode =? OP_READ).
- assert (∀ d', d_registry d' = d_registry d → registry_ok d') as Hk by (intros d' E; unfold registry_ok; by rewrite E).
  destruct (decode_read_req payload) as [req|]; [|by eexists _, d, m].
  assert (∃ r d' m', Some (read_inline cap req d, m) = Some (r, d', m') ∧ registry_ok d') as Hin.
  { unfold read_inline. pose proof (d_read_reg (rr_fh req) (rr_offset req)
      (replicate (Z.to_nat (Z.min (rr_len req) (max_read_data cap))) 0) d) as E.
    destruct (d_read _ _ _ d) as [[r b] d']. cbn [snd] in E. eexists _, d', m. split; [done|]. by apply Hk. }
  destruct (_ || _); [|done]. destruct arena as [[a slot]|]; [|done]. unfold read_bulk.
  destruct (Seg.run _ m) as [r m']. eexists _, _, m'. split; [done|]. apply Hk.
  destruct (_ || _); [done|]. apply d_read_reg.
- destruct (_ && _).
  + unfold registry_ok in Hr. destruct (d_registry d) as [h|] eqn:Eh.
    * destruct (dispatch_registry_total now h (d_reg_gen d) opcode payload cap Hr) as (r & h' & g' & E & HI).
      rewrite E. cbn [mbind option_bind]. by eexists r, _, m.
    * eexists _, d, m. split; [done|]. unfold registry_ok. by rewrite Eh.
  + pose proof (dispatch_file_reg opcode payload d) as E. destruct (dispatch_file opcode payload d) as [r d'].
    cbn [snd] in E. exists r, d', m. split; [done|]. unfold registry_ok in *. by rewrite E.
Qed.
End total2.

(** ** Replies fit *)

Section bounds.
Context {CT : CaseTable} {W : Type}.

(** [&mut [u8]]: a provider fills the buffer it is given, whose length stays. *)
Definition keeps_buffer (P : Provider W) : Prop :=
∀ h off buf w, 0 ≤ off → len ((p_read_at P h off buf w).1.2) = len buf.

(** The replies as long as what the provider lists or names. *)
Definition listing (opcode : Z) : bool :=
(opcode =? OP_READDIR) || (opcode =? OP_STORED_NAMES) || (opcode =? OP_STAGE_EXEC).

Lemma answer_len {A} (enc : A → bytes) n (m : PM (Director W) A) d :
0 ≤ n → (∀ a, len (enc a) ≤ n) → len (answer enc m d).1.2 ≤ n.
Proof. intros Hn Hm. unfold answer. destruct (m d) as [[a|e] d']; [apply Hm|done]. Qed.

Lemma dispatch_file_len opcode payload (d : Director W) :
listing opcode = false → len (dispatch_file opcode payload d).1.2 ≤ 24.
Proof.
intros [[H1 H2]%orb_false_iff H3]%orb_false_iff. unfold dispatch_file. rewrite H1, H2, H3.
repeat case_match; try done; apply answer_len; try done; intros a;
  unfold encode_getattr_resp, encode_open_resp, encode_write_resp; autorewrite with vfs_len; cbn; lia.
Qed.

Lemma reply_len {A} (enc : A → bytes) (r : result Z A) n :
0 ≤ n → (∀ a, len (enc a) ≤ n) → len (reply (enc <$> r)).2 ≤ n.
Proof. intros Hn Hm. destruct r as [a|e]; [apply Hm|done]. Qed.

Lemma version_reply_len {S} (x : option (result Z Z * S)) y s : version_reply x = Some (y, s) → len y.2 ≤ 8.
Proof.
intros ([v s1] & _ & E)%bind_Some. injection E as <- <-. apply reply_len; [done|]. intros v'.
unfold encode_reg_version_reply. by rewrite len_to_le.
Qed.

Lemma dispatch_registry_len now (h : RegHost W) g opcode payload cap r s :
32 ≤ cap → dispatch_registry now h g opcode payload cap = Some (r, s) → len r.2 ≤ cap.
Proof.
intros Hc H.
assert (∀ x, version_reply (S := RegHost W * RegGeneration) x = Some (r, s) → len r.2 ≤ cap) as Hv.
{ intros x E%version_reply_len. lia. }
unfold dispatch_registry in H.
repeat match type of H with (if ?b then _ else _) = _ => destruct b end;
  repeat match type of H with match ?x with _ => _ end = Some _ => destruct x as [y|]; [destruct_and?; repeat destruct y as [y ?]|] end;
  eauto 2; clear Hv; injection H as <- <-; try (unfold bad; cbn [snd]; rewrite len_nil; lia).
- destruct (decode_reg_path payload) as [p|]; [|change (len _) with 0; lia]. apply reply_len; [lia|]. intros [[l b] v].
  unfold encode_reg_lookup_reply. autorewrite with vfs_len. cbn. lia.
- destruct (decode_reg_path payload) as [p|]; [|change (len _) with 0; lia]. destruct (host_key_reply p h) as [b|e]; [|change (len _) with 0; lia].
  destruct (Z.gtb_spec (len b) (max_read_data cap)) as [Hl|Hl]; [change (len _) with 0; lia|]. cbn [reply snd].
  unfold max_read_data, sat_sub in Hl. lia.
- destruct (decode_reg_changed payload) as [[[p sub] since]|]; [|change (len _) with 0; lia]. apply reply_len; [lia|]. intros [c v].
  unfold encode_reg_changed_reply. autorewrite with vfs_len. cbn. lia.
Qed.

Lemma d_read_len fh off buf (d : Director W) :
map_Forall (λ _ r, keeps_buffer (rec_backend r)) (d_opens d) → 0 ≤ off → len (d_read fh off buf d).1.2 = len buf.
Proof.
intros Hk Ho. unfold d_read. destruct (d_opens d !! fh) as [r|] eqn:E; [|done]. destruct (rec_is_dir r); [done|].
specialize (Hk _ _ E (rec_bh r) off buf (d_world d) Ho). unfold call, zoom.
by destruct (p_read_at (rec_backend r) (rec_bh r) off buf (d_world d)) as [[r' b'] w'].
Qed.

Lemma read_req_offset b req : Forall byte_ok b → decode_read_req b = Some req → 0 ≤ rr_offset req.
Proof.
intros Hb ([req' t] & E & Hq)%fmap_Some. cbn in Hq. subst req'. unfold mbind, Rd_bind in E.
destruct (rd_u64 b) as [[fh b1]|] eqn:E1; [|done]. apply rd_u64_inv in E1 as (_ & _ & Hb1); [|done].
destruct (rd_u64 b1) as [[off b2]|] eqn:E2; [|done]. apply rd_u64_inv in E2 as (_ & Ho & _); [|done].
destruct (rd_u32 b2) as [[n b3]|]; [|done]. injection E as <- <-. apply Ho.
Qed.

Lemma read_inline_len cap req (d : Director W) :
8 ≤ cap → 0 ≤ rr_offset req → map_Forall (λ _ r, keeps_buffer (rec_backend r)) (d_opens d) →
len (read_inline cap req d).1.2 ≤ cap.
Proof.
intros Hc Ho Hk. unfold read_inline. set (buf := replicate _ 0).
assert (len buf ≤ cap - 8) as Hb.
{ unfold len, buf. rewrite length_replicate. unfold max_read_data, sat_sub. lia. }
pose proof (d_read_len (rr_fh req) (rr_offset req) buf d Hk Ho) as Hl.
destruct (d_read _ _ _ d) as [[r b] d']. cbn [fst snd] in *. apply reply_len; [lia|]. intros n.
unfold encode_read_resp. autorewrite with vfs_len. unfold len in *. rewrite length_take. lia.
Qed.

Lemma read_bulk_len a slot mx req (d : Director W) m : len (read_bulk a slot mx req d m).1.1.2 ≤ 16.
Proof.
unfold read_bulk. destruct (Seg.run _ m) as [r m']. cbn [fst snd]. apply reply_len; [done|]. intros [off n].
unfold encode_read_resp_bulk. autorewrite with vfs_len. lia.
Qed.

(** Property: a reply fits the payload area it is copied to: for every opcode but
  the three that list or name what a provider has, whatever the request asks
  for, the reply is no longer than the capacity; a READ is clamped to it or
  goes through the bulk bank, a registry key that does not fit is answered
  with a status. *)
Theorem replies_fit now opcode payload flags cap arena (d : Director W) m r d' m' :
32 ≤ cap → listing opcode = false → Forall byte_ok payload →
map_Forall (λ _ r, keeps_buffer (rec_backend r)) (d_opens d) →
dispatch_director now opcode payload flags cap arena d m = Some (r, d', m') → len r.2 ≤ cap.
Proof.
intros Hc Hl Hb Hk. unfold dispatch_director. destruct (opcode =? OP_READ).
- destruct (decode_read_req payload) as [req|] eqn:Er; [|intros [= <- <- <-]; change (len _) with 0; lia].
  apply read_req_offset in Er; [|done]. pose proof (read_inline_len cap req d ltac:(lia) Er Hk) as Hi.
  destruct (_ || _); [destruct arena as [[a slot]|]|]; intros [= E]; [|by rewrite E in Hi..].
  pose proof (read_bulk_len a slot (Z.min (bank_size a) (rr_len req)) req d m) as Hr. rewrite E in Hr. cbn in Hr. cbn. lia.
- destruct (_ && _).
  + destruct (d_registry d) as [h|]; [|intros [= <- <- <-]; change (len _) with 0; lia].
    intros ([r1 [h' g']] & E%dispatch_registry_len & E1)%bind_Some; [|done]. by injection E1 as <- <- <-.
  + intros [= E]. pose proof (dispatch_file_len opcode payload d Hl) as Hf. rewrite E in Hf. cbn in *. lia.
Qed.
End bounds.

(** ** The shim's requests *)

Section client.
Context {CT : CaseTable} {W : Type}.
Context (now flags cap : Z) (arena : option (DataArena * Z)) (m : bytes) (d : Director W).

Definition dispatched (opcode : Z) (payload : bytes) : option (Reply * Director W * bytes) :=
dispatch_director now opcode payload flags cap arena d m.

(** The reply [x] says what [r] says, through the decoder [dec]. *)
Definition says {A B} (dec : bytes → option B) (r : result Z A) (f : A → B) (x : Reply) : Prop :=
match r with
| Ok a => x.1 = ST_OK ∧ dec x.2 = Some (f a)
| Err e => x = (e, [])
end.

Lemma answer_says {A B} (enc : A → bytes) (dec : bytes → option B) f (c : PM (Director W) A) :
(∀ a, (c d).1 = Ok a → dec (enc a) = Some (f a)) →
∃ x, answer enc c d = (x, (c d).2) ∧ says dec (c d).1 f x.
Proof.
intros H. unfold answer, says. destruct (c d) as [[a|e] d']; cbn [fst snd] in *; (eexists; split; [reflexivity|]); [|done].
split; [done|]. by apply H.
Qed.

Lemma dispatched_file opcode payload :
(opcode =? OP_READ) = false → (OP_REG_LOOKUP <=? opcode) && (opcode <=? OP_REG_CHANGED) = false →
dispatched opcode payload = Some (dispatch_file opcode payload d, m).
Proof. intros H1 H2. unfold dispatched, dispatch_director. by rewrite H1, H2. Qed.

Definition stat_fits (s : option Stat) : Prop :=
match s with Some s => in_u64 (st_size s) ∧ in_i64 (st_mtime s) | None => True end.

(** Property: the ring's path requests are the director's operations: a shim
  that encodes a GETATTR or an OPEN and decodes the reply gets exactly what
  the director answers for that root and path, errors as the status, and the
  director's state changes as that operation changes it. *)
Theorem path_requests_answered root path oflags :
in_u32 root → valid_str path → in_u32 oflags → oflags ≠ 0 → in_u64 (d_next_fh d) → in_u32 (d_mount_gen d) →
(∀ s, (d_getattr root path d).1 = Ok s → stat_fits s) →
(∀ o, (open_info root path oflags d).1 = Ok o → in_u64 (oi_size o)) →
(∃ x, dispatched OP_GETATTR (encode_path_req root path) = Some (x, (d_getattr root path d).2, m) ∧
   says decode_getattr_resp (d_getattr root path d).1 attr_resp x) ∧
(∃ x, dispatched OP_OPEN (encode_open_req root oflags path) = Some (x, (open_info root path oflags d).2, m) ∧
   says decode_open_resp (open_info root path oflags d).1 open_resp x).
Proof.
intros Hr Hp Ho Ho0 Hn Hg Hs Hi. split.
- destruct (answer_says (λ s, encode_getattr_resp (attr_resp s)) decode_getattr_resp attr_resp (d_getattr root path))
    as (x & E & Hx).
  { intros s E. specialize (Hs s E). apply getattr_resp_rt; destruct s as [s|]; cbn in *; try apply Hs; done. }
  exists x. split; [|done]. rewrite dispatched_file, <- E by done. do 2 f_equal. unfold dispatch_file.
  change (OP_GETATTR =? OP_GETATTR) with true. cbv iota. by rewrite path_req_rt.
- destruct (answer_says (λ o, encode_open_resp (open_resp o)) decode_open_resp open_resp (open_info root path oflags))
    as (x & E & Hx).
  { intros o E. destruct (open_info_cases root path oflags d (Ok o) (open_info root path oflags d).2) as (_ & _ & E1 & E2 & _).
    { by rewrite <- E, <- surjective_pairing. }
    apply open_resp_rt; unfold open_resp; cbn [or_fh or_size or_mount_gen]; [by rewrite E1|by apply Hi|by rewrite E2]. }
  exists x. split; [|done]. rewrite dispatched_file, <- E by done. do 2 f_equal.
  change (dispatch_file OP_OPEN (encode_open_req root oflags path) d) with
    (match decode_open_req (encode_open_req root oflags path) with
     | Some (root, oflags, path) =>
         answer (λ o, encode_open_resp (open_resp o)) (open_info root path (if oflags =? 0 then OPEN_READ else oflags)) d
     | None => (bad, d)
     end).
  rewrite open_req_rt by done. by rewrite (proj2 (Z.eqb_neq _ _) Ho0).
Qed.

(** What the director answers a read of [n] bytes with: the result, and the
  bytes it is about. *)
Definition read_answer (fh off : Z) (buf : bytes) : result Z bytes :=
let '((r, b), _) := d_read fh off buf d in (λ k, take (Z.to_nat k) b) <$> r.

Lemma read_inline_says fh off n :
map_Forall (λ _ r, keeps_buffer (rec_backend r)) (d_opens d) → 0 ≤ off → cap < u32_max →
let buf := replicate (Z.to_nat (Z.min n (max_read_data cap))) 0 in
∃ x, read_inline cap {| rr_fh := fh; rr_offset := off; rr_len := n |} d = (x, (d_read fh off buf d).2) ∧
  says decode_read_resp (read_answer fh off buf) id x.
Proof.
intros Hk Ho Hc buf. unfold read_inline, read_answer. cbn [rr_fh rr_offset rr_len]. fold buf.
pose proof (d_read_len fh off buf d Hk Ho) as Hl. destruct (d_read fh off buf d) as [[r b] d'].
cbn [fst snd] in *. eexists. split; [reflexivity|]. destruct r as [k|e]; cbn; [|done]. split; [done|].
apply read_resp_rt. unfold len, buf in *. rewrite length_replicate in Hl. rewrite length_take.
unfold max_read_data, sat_sub, u32_max in *. lia.
Qed.

Lemma bulk_resp_rt n off :
0 ≤ n < 2 ^ 31 → in_u64 off → decode_read_bulk_resp (encode_read_resp_bulk n off) = Some (n, off).
Proof.
intros Hn Hoff. destruct (bulk_bit_set n Hn) as (E1 & E2 & E3). unfold decode_read_bulk_resp, encode_read_resp_bulk.
rewrite E1. erewrite run_bind by (apply Reads_u32; unfold in_u32, u32_max; lia). rewrite E2.
change (2 ^ 31 =? 0) with false. cbv iota. rd_field. rewrite E3. apply run_Reads, (Reads_last rd_u64 _ off (λ o, (n, o))).
by apply Reads_u64.
Qed.

Lemma read_bulk_says a slot fh off n :
map_Forall (λ _ r, keeps_buffer (rec_backend r)) (d_opens d) → 0 ≤ off →
let bank := bank_mapping_offset a slot in
0 < n ≤ bank_size a → n < 2 ^ 31 → in_bounds m bank n = true → in_u64 bank →
(∀ k, (d_read fh off (Seg.mem_get m bank n) d).1.1 = Ok k → 0 ≤ k ≤ n) →
∃ x m', read_bulk a slot n {| rr_fh := fh; rr_offset := off; rr_len := n |} d m =
    (x, (d_read fh off (Seg.mem_get m bank n) d).2, m') ∧
  match read_answer fh off (Seg.mem_get m bank n) with
  | Ok data => x.1 = ST_OK ∧ decode_read_bulk_resp x.2 = Some (len data, bank) ∧ Seg.mem_get m' bank (len data) = data
  | Err e => x = (e, [])
  end.
Proof.
intros Hk Ho bank Hn Hn2 Hib Hb Hr. unfold read_bulk. cbn [rr_fh rr_offset]. unfold fill_bank.
rewrite Z.min_l by lia. rewrite (proj2 (Z.eqb_neq n 0)) by lia. fold bank.
cbn [Seg.run do prog_bind exec orb]. unfold read_bytes. rewrite Hib. cbn [negb].
apply andb_true_iff in Hib as Hin. destruct Hin as [Hin1 Hin2%Z.leb_le].
assert (0 ≤ bank) by (unfold in_u64 in Hb; lia).
pose proof (mem_get_len m bank n ltac:(lia) ltac:(lia) Hin2) as Hml.
pose proof (d_read_len fh off (Seg.mem_get m bank n) d Hk Ho) as Hl. rewrite Hml in Hl. unfold read_answer.
destruct (d_read fh off (Seg.mem_get m bank n) d) as [[r b] d'] eqn:Er. cbn [fst snd] in *.
cbn [Seg.run do prog_bind exec]. unfold Seg.write_bytes. rewrite Hl, Hib.
destruct r as [k|e]; cbn [fmap result_fmap reply]; (eexists _, _; split; [reflexivity|]); [|done].
specialize (Hr k eq_refl).
assert (len (take (Z.to_nat k) b) = k) as Hlk by (unfold len in *; rewrite length_take; lia).
rewrite Hlk, Hml, Z.min_l by lia. split_and!; [done| |].
- change (decode_read_bulk_resp (encode_read_resp_bulk (as_u32 k) bank) = Some (k, bank)).
unfold as_u32. rewrite Z.mod_small by (unfold u32_max; lia). apply bulk_resp_rt; [lia|done].
- rewrite <- (mem_get_put_same m bank b) at 2 by lia. unfold Seg.mem_get. rewrite take_take. f_equal. unfold len in *. lia.
Qed.

(** Property: the ring's data requests are the director's reads and writes. A
  READ that asks for less than the bulk threshold is answered in the reply
  with what the director reads into a buffer of the length asked for, cut to
  the reply's room; a READ marked bulk is answered with the place of the bytes
  the director read into the slot's bank; a WRITE reports how many bytes the
  director wrote. Errors are the status. *)
Theorem data_requests_answered a slot fh off n data :
map_Forall (λ _ r, keeps_buffer (rec_backend r)) (d_opens d) →
in_u64 fh → in_u64 off → 0 < n < BULK_THRESHOLD → cap < u32_max → len data < u32_max →
let bank := bank_mapping_offset a slot in
n ≤ bank_size a → in_bounds m bank n = true → in_u64 bank →
(∀ k, (d_read fh off (Seg.mem_get m bank n) d).1.1 = Ok k → 0 ≤ k ≤ n) →
(∀ k, (d_write fh off data d).1 = Ok k → in_u32 k) →
let req := encode_read_req {| rr_fh := fh; rr_offset := off; rr_len := n |} in
let buf := replicate (Z.to_nat (Z.min n (max_read_data cap))) 0 in
(∃ x, dispatch_director now OP_READ req 0 cap (Some (a, slot)) d m = Some (x, (d_read fh off buf d).2, m) ∧
   says decode_read_resp (read_answer fh off buf) id x) ∧
(∃ x m', dispatch_director now OP_READ req FLAG_READ_BULK cap (Some (a, slot)) d m =
     Some (x, (d_read fh off (Seg.mem_get m bank n) d).2, m') ∧
   match read_answer fh off (Seg.mem_get m bank n) with
   | Ok data => x.1 = ST_OK ∧ decode_read_bulk_resp x.2 = Some (len data, bank) ∧ Seg.mem_get m' bank (len data) = data
   | Err e => x = (e, [])
   end) ∧
(∃ x, dispatched OP_WRITE (encode_write_req {| wr_fh := fh; wr_offset := off; wr_len := len data |} data) =
     Some (x, (d_write fh off data d).2, m) ∧
   says decode_write_resp (d_write fh off data d).1 id x).
Proof.
intros Hk Hf Ho Hn Hc Hd bank Hbs Hib Hb Hr Hw req buf. unfold BULK_THRESHOLD in Hn.
assert (decode_read_req req = Some {| rr_fh := fh; rr_offset := off; rr_len := n |}) as Er.
{ apply read_req_prefix; [done|done|]. unfold in_u32, u32_max. lia. }
assert ((BULK_THRESHOLD <=? n) = false) as Hlt by (apply Z.leb_gt; unfold BULK_THRESHOLD; lia).
split_and!.
- destruct (read_inline_says fh off n Hk ltac:(apply Ho) Hc) as (x & E & Hx). exists x. split; [|done].
  unfold dispatch_director. change (OP_READ =? OP_READ) with true. cbv iota. rewrite Er. cbn [rr_len].
  rewrite Hlt. by rewrite E.
- destruct (read_bulk_says a slot fh off n Hk ltac:(apply Ho)) as (x & m' & E & Hx); try done; try lia. exists x, m'. split; [|done].
  unfold dispatch_director. change (OP_READ =? OP_READ) with true. cbv iota. rewrite Er. cbn [rr_len].
  rewrite Hlt, Z.min_r by done. by rewrite E.
- destruct (answer_says (λ n, encode_write_resp (as_u32 n)) decode_write_resp id (d_write fh off data)) as (x & E & Hx).
  { intros k E. specialize (Hw k E). unfold as_u32. rewrite Z.mod_small by (unfold in_u32, u32_max in *; lia).
    by apply write_resp_rt. }
  exists x. split; [|done]. rewrite dispatched_file, <- E by done. do 2 f_equal.
  change (dispatch_file OP_WRITE ?p d) with
    (match decode_write_req p with
     | Some (req, data) => answer (λ n, encode_write_resp (as_u32 n)) (d_write (wr_fh req) (wr_offset req) data) d
     | None => (bad, d)
     end). by rewrite write_req_rt.
Qed.
End client.

(** ** The demonstration director *)

Import DirectorDemo.
#[local] Existing Instance demo_table.

Definition with_registry : Director Memory :=
  set_reg (Some (mkHost overlay_new memory 0 None false false false true)) gen_new start.

Lemma dispatch_never_panics_witness :
  ∃ r d' m', dispatch_director 7 OP_REG_SET_VALUE [255; 1; 0] 3 64 None with_registry [] = Some (r, d', m').
Proof.
  destruct (dispatch_never_panics 7 OP_REG_SET_VALUE [255; 1; 0] 3 64 None with_registry []) as (r & d' & m' & E & _).
  - exact Inv_new.
  - exists r, d', m'. exact E.
Defined.

Lemma memory_keeps_buffer : keeps_buffer (memory (CT := demo_table)).
Proof.
  intros h off buf w Ho. cbn [memory p_read_at]. unfold mem_read_at.
  destruct (mem_on_opens (table_get h) w) as [[path|e] s]; [|done]. destruct (m_files s !! path) as [body|]; [|done].
  cbn [fst snd read_into]. unfold read_into. cbn [fst snd]. rewrite len_app. unfold len.
  rewrite length_take, !length_drop. lia.
Qed.

Definition with_open : Director Memory := read_only_open.2.
Lemma with_open_keeps : map_Forall (λ _ r, keeps_buffer (rec_backend r)) (d_opens with_open).
Proof.
  change (d_opens with_open) with (<[1 := mkOpenRec memory 1 3 false None]> (d_opens start)).
  apply map_Forall_insert_2; [apply memory_keeps_buffer|]. apply map_Forall_empty.
Qed.

(** A READ of far more than the 56 bytes there is room for. *)
Definition huge_read : bytes := encode_read_req {| rr_fh := 1; rr_offset := 0; rr_len := 65535 |}.
Lemma replies_fit_witness :
  ∃ r d' m', dispatch_director 7 OP_READ huge_read 0 64 None with_open [] = Some (r, d', m') ∧ len r.2 ≤ 64.
Proof.
  eexists _, _, _. split; [reflexivity|].
  refine (replies_fit 7 OP_READ huge_read 0 64 None with_open [] _ _ _ _ eq_refl _ with_open_keeps eq_refl); [lia|].
  apply bytes_okb. reflexivity.
Defined.

Lemma path_requests_answered_witness :
  ∃ x, dispatched 7 0 64 None [] start OP_OPEN (encode_open_req 1 OPEN_READ (lit "LOG.txt")) = Some (x, with_open, []) ∧
    decode_open_resp x.2 = Some (open_resp (mkOpenInfo 1 3 false false 3)).
Proof.
  destruct (path_requests_answered 7 0 64 None [] start 1 (lit "LOG.txt") OPEN_READ) as [_ (x & E & Hx)].
  - split; vm_compute; [discriminate|reflexivity].
  - apply valid_strb. reflexivity.
  - split; vm_compute; [discriminate|reflexivity].
  - discriminate.
  - split; vm_compute; [discriminate|reflexivity].
  - split; vm_compute; [discriminate|reflexivity].
  - intros s H. change ((d_getattr 1 (lit "LOG.txt") start).1) with (Ok (E := Z) (Some (mkStat KIND_FILE 3 0))) in H.
    injection H as <-. repeat split; vm_compute; congruence.
  - intros o H. change ((open_info 1 (lit "LOG.txt") OPEN_READ start).1) with
      (Ok (E := Z) (mkOpenInfo 1 3 false false 3)) in H.
    injection H as <-. split; vm_compute; congruence.
  - exists x. split; [exact E|]. exact (proj2 Hx).
Defined.

(** Three bytes asked for, at the second: two are there. *)
Lemma data_requests_answered_witness :
  ∃ x, dispatch_director 7 OP_READ (encode_read_req {| rr_fh := 1; rr_offset := 1; rr_len := 3 |}) 0 64
      (Some (arena_new 0 4096 1, 0)) with_open (replicate 16 0) = Some (x, with_open, replicate 16 0) ∧
    decode_read_resp x.2 = Some [2; 3].
Proof.
  destruct (data_requests_answered 7 0 64 None (replicate 16 0) with_open (arena_new 0 4096 1) 0 1 1 3 [5] with_open_keeps)
    as [(x & E & Hx) _].
  - split; vm_compute; congruence.
  - split; vm_compute; congruence.
  - split; vm_compute; congruence.
  - vm_compute. congruence.
  - vm_compute. congruence.
  - vm_compute. congruence.
  - vm_compute. congruence.
  - split; vm_compute; congruence.
  - intros k H. change ((d_read 1 1 (Seg.mem_get (replicate 16 0) (bank_mapping_offset (arena_new 0 4096 1) 0) 3) with_open).1.1)
      with (Ok (E := Z) 2) in H. injection H as <-. lia.
  - intros k H. change ((d_write 1 1 [5] with_open).1) with (Ok (E := Z) 1) in H. injection H as <-. split; vm_compute; congruence.
  - exists x. split; [exact E|]. exact (proj2 Hx).
Defined.
