(* ===== verification/Canon.v ===== *)
(** Canon: every NT spelling of a path brought to one form, and the NT string
    conventions (rust/crates/vfs-redirect/src/canon.rs, nt.rs, whiteout.rs).
    The table of devices, volumes and junctions is built from the operating
    system elsewhere and is an argument. *)

From S2P Require Import Prelude Text Path ComposePath.


(** ** nt.rs and whiteout.rs *)

Inductive CountedErr := OddLength | NullBuffer.
Definition counted_units (length_bytes : Z) (buffer_is_null : bool) : result CountedErr Z :=
  if negb (Z.land length_bytes 1 =? 0) then Err OddLength
  else if length_bytes =? 0 then Ok 0
  else if buffer_is_null then Err NullBuffer
  else Ok (length_bytes / 2).

Definition nt_prefix : str := [92; 63; 63; 92].
Definition verbatim_prefix : str := [92; 92; 63; 92].
Definition redirect_to_nt (path : str) : str :=
  if starts_with nt_prefix path || starts_with verbatim_prefix path then path else nt_prefix ++ path.

Definition is_alpha (c : char) : bool := ((65 <=? c) && (c <=? 90)) || ((97 <=? c) && (c <=? 122)).
Definition colon : char := 58.

Definition nt_to_volume_relative (nt_path : str) : str :=
  let s := match strip_prefix nt_prefix nt_path with
           | Some r => r
           | None => default nt_path (strip_prefix verbatim_prefix nt_path)
           end in
  match s with
  | a :: b :: rest => if (b =? colon) && is_alpha a then rest else s
  | _ => s
  end.

Definition WHITEOUT_SUFFIX : str := lit ".__vfs_wh__".
(** [name.strip_suffix(..)]. *)
Definition redirect_is_whiteout (name : str) : option str :=
  rev (A:=Z) <$> strip_prefix (rev WHITEOUT_SUFFIX) (rev name).

(** ** canon.rs *)

Inductive Namespace := DosDevicesCanonical | DosDevicesAliased | Elsewhere.

Definition NAMESPACE_TOKENS : list (str * Namespace) :=
  [ (lit "?", Elsewhere); (lit "??", DosDevicesCanonical); (lit "GLOBAL??", DosDevicesAliased);
    (lit "Global", DosDevicesAliased); (lit "GLOBALROOT", Elsewhere) ].

Definition MAX_PREFIX_STEPS : nat := 16.

(** [VolumeMap]: the entries, in the order they were registered. *)
Definition VolumeMap : Type := list (str * str).
Definition volumes_empty : VolumeMap := [].
Definition insert_alias (prefix replacement : str) (v : VolumeMap) : VolumeMap := v ++ [(prefix, replacement)].
Definition volumes_insert (prefix : str) (drive : char) (v : VolumeMap) : VolumeMap :=
  insert_alias prefix [drive; colon] v.

(** [(s.get(..n)?, &s[n..])]: [None] past the end or inside a character. *)
Fixpoint split_bytes (n : Z) (s : str) : option (str * str) :=
  if n =? 0 then Some ([], s) else
  match s with
  | [] => None
  | c :: s =>
      let k := str_len [c] in
      if n <? k then None else '(a, b) ← split_bytes (n - k) s; Some (c :: a, b)
  end.

(** [s.trim_start_matches(['\\', '/'])]. *)
Fixpoint trim_seps (s : str) : str :=
  match s with c :: s' => if is_sep c then trim_seps s' else s | [] => [] end.
(** [s.find(['\\', '/'])] and [split_at]. *)
Fixpoint split_sep (s : str) : str * str :=
  match s with
  | [] => ([], [])
  | c :: s' => if is_sep c then ([], s) else let '(a, b) := split_sep s' in (c :: a, b)
  end.

Definition starts_with_sep (s : str) : bool := match s with c :: _ => is_sep c | [] => false end.

Section canon.
Context {CT : CaseTable}.

(** One round of the loop of [resolve]: the best match so far, its replacement
  and the length of its prefix. *)
Definition resolve_step (path : str) (best : option (str * Z)) (e : str * str) : option (str * Z) :=
let '(prefix, replacement) := e in
match split_bytes (str_len prefix) path with
| None => best
| Some (candidate, rest) =>
    if negb (str_eqb (fold candidate) (fold prefix)) then best
    else if negb (bool_decide (rest = [])) && negb (starts_with_sep rest) then best
    else
      let is_longer := match best with Some (_, n) => n <? str_len prefix | None => true end in
      if is_longer then Some (replacement, str_len prefix) else best
end.
Definition volumes_resolve (v : VolumeMap) (path : str) : option (str * Z) := foldl (resolve_step path) None v.

(** [eq_ignore_ascii_case]. *)
Definition eq_ascii_ci (a b : str) : bool := bool_decide ((ascii_lower <$> a) = (ascii_lower <$> b)).

Definition strip_one_namespace_token (s : str) : option (str * Namespace) :=
let body := trim_seps s in
if str_eqb body s then None else
let '(token, rest) := split_sep body in
(λ tn : str * Namespace, (rest, tn.2)) <$> List.find (λ tn, eq_ascii_ci tn.1 token) NAMESPACE_TOKENS.

(** Each round shortens the path: its length is fuel enough. *)
Fixpoint strip_tokens (fuel : nat) (s : str) : str :=
match fuel with
| O => s
| S fuel => match strip_one_namespace_token s with Some (rest, _) => strip_tokens fuel rest | None => s end
end.
Definition strip_all_nt_prefixes (s : str) : str := trim_seps (strip_tokens (length s) s).

(** [raw.rfind(['\\', '/'])]: what is up to and with the last separator, and
  the final component. *)
Fixpoint rsplit_sep (s : str) : str * str :=
match s with
| [] => ([], [])
| c :: s' =>
    let '(dir, comp) := rsplit_sep s' in
    if bool_decide (dir = []) && negb (is_sep c) then ([], c :: comp) else (c :: dir, comp)
end.

(** The final component up to its first colon after a drive letter's. *)
Definition comp_base (comp : str) : str :=
let cut s := match split_once colon s with Some (a, _) => a | None => s end in
match comp with
| a :: b :: rest => if is_alpha a && (b =? colon) then a :: b :: cut rest else cut comp
| _ => cut comp
end.

Definition strip_stream_suffix (raw : str) : str := let '(dir, comp) := rsplit_sep raw in dir ++ comp_base comp.
Definition split_stream_suffix (raw : str) : str * option str :=
let base := strip_stream_suffix raw in
if str_len base =? str_len raw then (base, None) else (base, Some (drop (length base) raw)).

Definition resolve_alias (path : str) (v : VolumeMap) : option str :=
'(replacement, matched_len) ← volumes_resolve v path;
'(_, rest) ← split_bytes matched_len path;
Some (replacement ++ rest).

(** The loop, for the steps that are left. *)
Fixpoint prefix_loop (steps : nat) (cur : str) (respell : bool) (v : VolumeMap) : str :=
match steps with
| O => cur
| S steps =>
    match resolve_alias cur v with
    | Some next => prefix_loop steps next false v
    | None =>
        match (if respell then resolve_alias ([92; 63; 63] ++ cur) v else None) with
        | Some next => prefix_loop steps next false v
        | None =>
            match strip_one_namespace_token cur with
            | Some (rest, namespace) =>
                prefix_loop steps rest (match namespace with DosDevicesAliased => true | _ => false end) v
            | None => cur
            end
        end
    end
end.
Definition resolve_aliases_and_strip_prefixes (path : str) (v : VolumeMap) : str :=
trim_seps (prefix_loop MAX_PREFIX_STEPS path false v).

(** [comp.trim_end_matches(['.', ' '])]. *)
Definition is_dot_space (c : char) : bool := (c =? 46) || (c =? 32).
Fixpoint trim_start_dots (s : str) : str :=
match s with c :: s' => if is_dot_space c then trim_start_dots s' else s | [] => [] end.
Definition trim_end_dots (s : str) : str := rev (trim_start_dots (rev s)).
Definition trim_comp (comp : str) : str :=
if str_eqb comp dot || str_eqb comp dotdot then comp else trim_end_dots comp.
Definition strip_trailing_punctuation (path : str) : str := join slash (trim_comp <$> split_on is_sep path).

Definition is_drive_relative (s : str) : bool :=
match s with a :: b :: c :: _ => is_alpha a && (b =? colon) && negb (is_sep c) | _ => false end.
Definition is_drive_component (s : str) : bool :=
match s with [a; b] => is_alpha a && (b =? colon) | _ => false end.

(** The loop of [clamp_dotdot]; [out] is the vector, last component first. *)
Fixpoint clamp_loop (cs out : list str) : list str :=
match cs with
| [] => rev out
| c :: cs =>
    if str_eqb c [] || str_eqb c dot then clamp_loop cs out
    else if str_eqb c dotdot then clamp_loop cs (tail out)
    else clamp_loop cs (c :: out)
end.
Definition clamp_dotdot (remainder : str) : str := join slash (clamp_loop (split_on is_sep remainder) []).

Definition canonicalise (raw : str) (v : VolumeMap) : result PathError str :=
let no_stream := strip_stream_suffix raw in
let resolved := resolve_aliases_and_strip_prefixes no_stream v in
let unprefixed := strip_all_nt_prefixes resolved in
if is_drive_relative unprefixed then Err EscapesRoot else
let trimmed := strip_trailing_punctuation unprefixed in
match split_once slash trimmed with
| Some (maybe_drive, rest) =>
    if is_drive_component maybe_drive then normalize_vpath (maybe_drive ++ slash :: clamp_dotdot rest)
    else normalize_vpath trimmed
| None => normalize_vpath trimmed
end.
End canon.

(** The spellings of a path that name one file come out the same:
    whatever directories of the object manager are spelled in front of it, and
    whatever dots, spaces, separators and parent steps are in it, a path on a
    drive is brought to one form that never leaves the drive. *)


(** ** Separators *)

Lemma trim_seps_app l s : Forall (λ c, is_sep c = true) l → trim_seps (l ++ s) = trim_seps s.
Proof. induction 1 as [|c l Hc Hl IH]; [done|]. cbn [app trim_seps]. by rewrite Hc. Qed.
Lemma trim_seps_head s : starts_with_sep s = false → trim_seps s = s.
Proof. destruct s as [|c s]; [done|]. cbn. by intros ->. Qed.
Lemma trim_seps_no_sep s : starts_with_sep (trim_seps s) = false.
Proof. induction s as [|c s IH]; [done|]. cbn [trim_seps]. destruct (is_sep c) eqn:E; [done|]. cbn. done. Qed.
Lemma trim_seps_length s : (length (trim_seps s) ≤ length s)%nat.
Proof. induction s as [|c s IH]; [done|]. cbn [trim_seps]. destruct (is_sep c); cbn [length] in *; lia. Qed.

Lemma split_sep_app a s :
  no_char is_sep a → s = [] ∨ starts_with_sep s = true → split_sep (a ++ s) = (a, s).
Proof.
  intros Ha Hs. induction Ha as [|c a Hc Ha IH]; cbn [app split_sep].
  - destruct Hs as [->|Hs]; [done|]. destruct s as [|d s]; [done|]. cbn in Hs. cbn. by rewrite Hs.
  - by rewrite Hc, IH.
Qed.

Lemma rsplit_sep_spec s :
  s = (rsplit_sep s).1 ++ (rsplit_sep s).2 ∧ no_char is_sep (rsplit_sep s).2 ∧
  ((rsplit_sep s).1 = [] ↔ no_char is_sep s) ∧ (starts_with_sep s = true → starts_with_sep (rsplit_sep s).1 = true).
Proof.
  induction s as [|c s (E & H1 & H2 & H3)].
  { cbn. split_and!; [done|apply Forall_nil_2|split; [intros _; apply Forall_nil_2|done]|done]. }
  cbn [rsplit_sep]. destruct (rsplit_sep s) as [dir comp].
  cbn [fst snd] in *. subst s. case_bool_decide as Ed; cbn [andb].
  - subst dir. destruct (is_sep c) eqn:Ec; cbn [negb fst snd].
    + split_and!; [done|done|split; [done|]|done]. intros H. inversion H. congruence.
    + split_and!; [done|by constructor|split; [|done]|]. { intros _. by constructor. } cbn. by rewrite Ec.
  - cbn [fst snd]. split_and!; [done|done|split; [done|]|by cbn].
    intros H. destruct Ed. apply H2. by inversion H.
Qed.

Lemma rsplit_sep_app a s : (rsplit_sep s).1 ≠ [] → rsplit_sep (a ++ s) = (a ++ (rsplit_sep s).1, (rsplit_sep s).2).
Proof.
  intros Hs. induction a as [|c a IH]; cbn [app rsplit_sep]; [by destruct (rsplit_sep s)|].
  rewrite IH. rewrite bool_decide_false by (by destruct a; [|intros [=]]). done.
Qed.

Lemma strip_stream_app a s : starts_with_sep s = true → strip_stream_suffix (a ++ s) = a ++ strip_stream_suffix s.
Proof.
  intros Hs. unfold strip_stream_suffix. rewrite rsplit_sep_app; [destruct (rsplit_sep s); cbn; by rewrite app_assoc|].
  destruct (rsplit_sep_spec s) as (_ & _ & H & _). rewrite H. intros Hn. destruct s as [|c s]; [done|].
  cbn in Hs. inversion Hn. congruence.
Qed.

Lemma strip_stream_starts s : starts_with_sep s = true → starts_with_sep (strip_stream_suffix s) = true.
Proof.
  intros Hs. unfold strip_stream_suffix. destruct (rsplit_sep_spec s) as (_ & _ & _ & H). specialize (H Hs).
  destruct (rsplit_sep s) as [[|c dir] comp]; done.
Qed.

Section spellings.
Context {CT : CaseTable}.

(** ** Namespace tokens *)

(** A spelling of a token, in any case. *)
Definition is_token (tok : str) : bool := existsb (λ tn, eq_ascii_ci tn.1 tok) NAMESPACE_TOKENS.

Lemma ascii_ci_no_sep t tok : eq_ascii_ci t tok = true → no_char is_sep t → no_char is_sep tok.
Proof.
unfold eq_ascii_ci. rewrite bool_decide_eq_true. intros E H. revert tok E.
induction H as [|c t Hc H IH]; intros [|d tok] E; try done; [apply Forall_nil_2|].
cbn in E. injection E as E1 E2. constructor; [|by apply IH]. revert Hc. unfold is_sep, ascii_lower, slash, backslash in *.
repeat case_match; lia.
Qed.

Lemma token_plain tok : is_token tok = true → no_char is_sep tok ∧ tok ≠ [].
Proof.
unfold is_token. intros ([t n] & Ht & E)%existsb_exists. cbn [fst] in E. split.
- apply (ascii_ci_no_sep t tok E). repeat (destruct Ht as [Ht|Ht]; [injection Ht as <- <-; by repeat constructor|]). done.
- intros ->. repeat (destruct Ht as [Ht|Ht]; [injection Ht as <- <-; discriminate E|]). done.
Qed.

Definition all_seps (l : str) : Prop := l ≠ [] ∧ Forall (λ c, is_sep c = true) l.

Lemma strip_one_token seps tok s :
all_seps seps → is_token tok = true → s = [] ∨ starts_with_sep s = true →
∃ ns, strip_one_namespace_token (seps ++ tok ++ s) = Some (s, ns).
Proof.
intros [Hne Hs] Ht Hst. destruct (token_plain tok Ht) as [Hp Htne]. unfold strip_one_namespace_token.
rewrite trim_seps_app by done. rewrite (trim_seps_head (tok ++ s)).
2:{ destruct tok as [|c tok]; [done|]. cbn. by inversion Hp. }
destruct (str_eqb_spec (tok ++ s) (seps ++ tok ++ s)) as [E|_].
{ exfalso. apply (f_equal length) in E. rewrite !length_app in E. destruct seps; [done|cbn in E; lia]. }
rewrite split_sep_app by done. unfold is_token in Ht.
destruct (List.find (λ tn, eq_ascii_ci tn.1 tok) NAMESPACE_TOKENS) as [[t n]|] eqn:E; [by exists n|].
exfalso. apply existsb_exists in Ht as (tn & Hin & Htn). pose proof (List.find_none _ _ E tn Hin) as Hf. cbn in Hf. congruence.
Qed.

(** No entry of the table applies to a path, as it stands or looked up again
  under the usual name of the DosDevices directory. *)
Definition unaliased (v : VolumeMap) (s : str) : Prop :=
resolve_alias s v = None ∧ resolve_alias ([92; 63; 63] ++ s) v = None.

Lemma loop_step v steps s r : unaliased v s →
prefix_loop (S steps) s r v =
  match strip_one_namespace_token s with
  | Some (rest, n) => prefix_loop steps rest (match n with DosDevicesAliased => true | _ => false end) v
  | None => s
  end.
Proof. intros [H1 H2]. cbn [prefix_loop]. rewrite H1. by destruct r; rewrite ?H2. Qed.

(** [s] is [t] with [n] tokens in front, none of the spellings on the way an
  alias, and [t] not a token itself. *)
Inductive spelled (v : VolumeMap) : nat → str → str → Prop :=
| spelled_here t : starts_with_sep t = true → unaliased v (strip_stream_suffix t) →
    strip_one_namespace_token (strip_stream_suffix t) = None → spelled v 0 t t
| spelled_token n seps tok s t : all_seps seps → is_token tok = true →
    unaliased v (strip_stream_suffix (seps ++ tok ++ s)) → spelled v n s t → spelled v (S n) (seps ++ tok ++ s) t.

Lemma spelled_starts v n s t : spelled v n s t → starts_with_sep s = true.
Proof. intros [t' H|n' seps tok s' t' [Hne Hs] _ _ _]; [done|]. destruct Hs; [done|]. done. Qed.

Lemma spelled_loop v n s t r steps :
spelled v n s t → (n ≤ steps)%nat → prefix_loop steps (strip_stream_suffix s) r v = strip_stream_suffix t.
Proof.
intros H. revert r steps. induction H as [t Ht Hu Hs|n seps tok s t Hsep Htok Hu H IH]; intros r steps Hn.
- destruct steps as [|steps]; [done|]. rewrite loop_step by done. by rewrite Hs.
- destruct steps as [|steps]; [lia|]. rewrite loop_step by done. apply spelled_starts in H as Hst.
  rewrite (app_assoc seps tok s), strip_stream_app, <- app_assoc by done.
  destruct (strip_one_token seps tok (strip_stream_suffix s) Hsep Htok) as [ns E]; [right; by apply strip_stream_starts|].
  rewrite E. apply IH. lia.
Qed.

Lemma spelled_end v n s t : spelled v n s t → unaliased v (strip_stream_suffix t).
Proof. by induction 1. Qed.

Lemma spelled_canonical v n s t :
spelled v n s t → (n ≤ MAX_PREFIX_STEPS)%nat → canonicalise s v = canonicalise t v.
Proof.
intros H Hn. unfold canonicalise, resolve_aliases_and_strip_prefixes.
rewrite (spelled_loop v n s t false MAX_PREFIX_STEPS H Hn).
assert (∃ t0, spelled v 0 t t0 ∧ t0 = t) as (t0 & H0 & ->).
{ clear Hn. induction H as [t|]; [|done]. exists t. split; [by constructor|done]. }
by rewrite (spelled_loop v 0 t t false MAX_PREFIX_STEPS H0 ltac:(lia)).
Qed.

(** Property: the object directories spelled in front of a path do not matter:
  up to 16 namespace tokens, in any case, any order and with any separators,
  can precede a path and its canonical form stays the same, as long as no
  alias of the table is named on the way. *)
Theorem namespace_spellings_agree v n s t :
spelled v n s t → (n ≤ MAX_PREFIX_STEPS)%nat → canonicalise s v = canonicalise t v.
Proof. apply spelled_canonical. Qed.

(** ** Paths on a drive *)

Lemma alpha_plain a : is_alpha a = true → is_sep a = false ∧ a ≠ 46 ∧ a ≠ 32.
Proof. unfold is_alpha, is_sep, slash, backslash. intros H. lia. Qed.

Lemma drive_no_token a rest : is_alpha a = true →
existsb (λ tn, eq_ascii_ci tn.1 (a :: colon :: rest)) NAMESPACE_TOKENS = false.
Proof.
intros Ha. cbn. unfold eq_ascii_ci. cbn [fmap list_fmap]. rewrite !bool_decide_false; [done|..]; cbn; intros [=]; done.
Qed.

Lemma drive_strip_one s a c rest :
is_alpha a = true → is_sep c = true → trim_seps s = a :: colon :: c :: rest → strip_one_namespace_token s = None.
Proof.
intros Ha Hc E. unfold strip_one_namespace_token. rewrite E. destruct (str_eqb _ s); [done|].
destruct (alpha_plain a Ha) as (Hs & _). cbn [split_sep]. rewrite Hs. change (is_sep colon) with false. rewrite Hc. cbn [fst].
pose proof (drive_no_token a [] Ha) as H. destruct (List.find _ NAMESPACE_TOKENS) as [tn|] eqn:Ef; [|done].
apply List.find_some in Ef as [Hin Hf]. rewrite <- not_true_iff_false in H. destruct H. apply existsb_exists. eauto.
Qed.

Lemma strip_all_plain s : starts_with_sep s = false → strip_all_nt_prefixes s = s.
Proof.
intros H. unfold strip_all_nt_prefixes.
assert (strip_one_namespace_token s = None) as E.
{ unfold strip_one_namespace_token. rewrite trim_seps_head by done. by destruct (str_eqb_spec s s). }
destruct (length s); cbn [strip_tokens]; rewrite ?E; by apply trim_seps_head.
Qed.

Lemma trim_end_no_sep c : no_char is_sep c → no_char is_sep (trim_comp c).
Proof.
intros H. unfold trim_comp, trim_end_dots. destruct (_ || _); [done|]. apply Forall_rev.
assert (Forall (λ x, is_sep x = false) (rev c)) as Hr by (by apply Forall_rev).
induction Hr as [|x l Hx Hl IH]; cbn [trim_start_dots]; [apply Forall_nil_2|]. destruct (is_dot_space x); [done|by constructor].
Qed.

Lemma clamp_loop_ok cs out :
Forall (no_char is_sep) cs → Forall comp_ok out → Forall comp_ok (clamp_loop cs out).
Proof.
intros H. revert out. induction H as [|c cs Hc H IH]; intros out Ho; cbn [clamp_loop]; [by apply Forall_rev|].
destruct (str_eqb_spec c []), (str_eqb_spec c dot), (str_eqb_spec c dotdot); cbn [orb]; try (by apply IH).
- apply IH. by destruct Ho.
- apply IH. constructor; [|done]. by unfold comp_ok.
Qed.

(** The components of the rest of a drive path. *)
Definition drive_comps (rest : str) : list str := clamp_loop (trim_comp <$> split_on is_sep rest) [].

Lemma normalize_comps_dir d cs :
Forall comp_ok (d :: cs) → normalize_vpath (d ++ slash :: join slash cs) = Ok (join slash (d :: cs)).
Proof.
intros H. destruct (decide (cs = [])) as [->|Hne].
- inversion H as [|? ? Hd _]; subst. unfold normalize_vpath, vpath_components.
  assert (strip_first nt_prefixes (d ++ slash :: join slash []) = d ++ [slash]) as ->.
  { change (d ++ slash :: join slash []) with (d ++ [slash]). destruct Hd as (Hne & _ & _ & Hs).
    destruct d as [|x d]; [done|]. inversion Hs as [|? ? Hx _]; subst. unfold is_sep, slash, backslash in Hx.
    apply orb_false_iff in Hx as [Hx1 Hx2]. unfold strip_first, nt_prefixes. cbn [strip_prefix app].
    rewrite !(Z.eqb_sym _ x), Hx1, Hx2. done. }
  assert (split_on is_sep (d ++ [slash]) = [d; []]) as ->.
  { change (d ++ [slash]) with (join slash [d; []]). apply (split_join is_sep slash); [done|done|].
    constructor; [by destruct Hd as (_ & _ & _ & Hs)|by repeat constructor]. }
  rewrite vpath_loop_nonempty. rewrite filter_cons_True by (by destruct Hd). rewrite filter_cons_False by auto.
  by rewrite vpath_loop_plain.
- rewrite <- join_cons by done. apply normalize_vpath_ok. exists (d :: cs). split; [|done]. unfold vpath_components.
  rewrite strip_first_canonical by done. rewrite (split_join is_sep slash); [by rewrite vpath_loop_plain|done|done|].
  eapply Forall_impl; [exact H|]. by intros c (_ & _ & _ & Hs).
Qed.

Lemma drive_canonical v raw a c rest :
is_alpha a = true → is_sep c = true → trim_seps (strip_stream_suffix raw) = a :: colon :: c :: rest →
unaliased v (strip_stream_suffix raw) →
canonicalise raw v = Ok (join slash ([a; colon] :: drive_comps rest)) ∧ Forall comp_ok ([a; colon] :: drive_comps rest).
Proof.
intros Ha Hc E Hu. destruct (alpha_plain a Ha) as (Hs & Hd & Hsp).
assert (comp_ok [a; colon]) as Hdrive.
{ split_and!; [done|by intros [=]|by intros [=]|]. constructor; [done|by repeat constructor]. }
set (cs := split_on is_sep rest).
assert (Forall (no_char is_sep) (trim_comp <$> cs)) as Hcs.
{ apply Forall_fmap. eapply Forall_impl; [apply (split_on_pieces is_sep)|]. intros x. apply trim_end_no_sep. }
assert (Forall comp_ok ([a; colon] :: drive_comps rest)) as Hok by (constructor; [done|by apply clamp_loop_ok]).
split; [|done]. unfold canonicalise, resolve_aliases_and_strip_prefixes, MAX_PREFIX_STEPS.
rewrite loop_step by done. rewrite (drive_strip_one _ a c rest) by done. rewrite E. rewrite strip_all_plain by done.
cbn [is_drive_relative]. rewrite Hc, andb_false_r. unfold strip_trailing_punctuation.
assert (split_on is_sep (a :: colon :: c :: rest) = [a; colon] :: cs) as ->.
{ cbn [split_on]. rewrite Hs. change (is_sep colon) with false. by rewrite Hc. }
assert (trim_comp [a; colon] = [a; colon]) as Ht by (unfold trim_comp; by destruct (_ || _)).
assert (cs ≠ []) as Hne by apply split_on_nonempty.
rewrite fmap_cons, Ht, join_cons by (by destruct cs). rewrite split_once_piece.
2:{ constructor; [unfold is_sep in Hs; by apply orb_false_iff in Hs as [? _]|by repeat constructor]. }
cbn [is_drive_component]. rewrite Ha. cbn [andb]. change (colon =? colon) with true. cbv iota.
unfold clamp_dotdot. rewrite (split_join is_sep slash); [|done|by destruct cs|done]. by apply normalize_comps_dir.
Qed.

(** Property: a path on a drive stays on it: behind separators, however its
  components are spelled, a drive-rooted path always has a canonical form; it
  starts with that drive, its other components are the given ones without
  trailing dots and spaces, with empty and dot components dropped and every
  parent step taken off the component before it but never past the drive. *)
Theorem drive_path_kept v raw a c rest :
is_alpha a = true → is_sep c = true → trim_seps (strip_stream_suffix raw) = a :: colon :: c :: rest →
unaliased v (strip_stream_suffix raw) →
canonicalise raw v = Ok (join slash ([a; colon] :: drive_comps rest)) ∧ Forall comp_ok ([a; colon] :: drive_comps rest).
Proof. apply drive_canonical. Qed.
End spellings.
