(* ===== verification/RootMap.v ===== *)
(** RootMap: which declared root an NT path falls under, with the cache of the
    answers (rust/crates/vfs-redirect/src/rootmap.rs, cache.rs).

    The roots and the table of volumes are fixed when the map is made; the
    cache is the state, shared by all threads behind a lock, so a look-up and
    an insertion are atomic steps. The two thread-local counters and the
    operating system's listing of a directory, which may change between any
    two calls, are arguments of each call. *)

From S2P Require Import Prelude Text Path ComposePath Canon.

(** ** Model *)

Definition RootHit : Type := Z * list str.
Record Root := mkRoot { root_id : Z; root_comps : list str }.

(** *** cache.rs *)

Record PathCache := mkCache { pc_map : gmap str (option RootHit); pc_order : list str }.
Definition DEFAULT_CACHE_CAPACITY : Z := 4096.
Definition cache_new : PathCache := mkCache ∅ [].
Definition cache_get (key : str) (c : PathCache) : option (option RootHit) := pc_map c !! key.

Definition cache_insert (capacity : Z) (key : str) (value : option RootHit) (c : PathCache) : PathCache :=
  if bool_decide (is_Some (pc_map c !! key)) then c else
  let c := if Z.max capacity 1 <=? len (pc_order c) then
             match pc_order c with
             | oldest :: order => mkCache (delete oldest (pc_map c)) order
             | [] => c
             end
           else c in
  mkCache (<[key := value]> (pc_map c)) (pc_order c ++ [key]).

(** [OsConsultGuard::enter] with the depth this thread is at, and [Drop]. *)
Definition guard_enter (depth : Z) : option Z := if 0 <? depth then None else Some 1.
Definition guard_drop (depth : Z) : Z := sat_sub depth 1.
(** [UncachedScope]. *)
Definition uncached_enter (depth : Z) : Z := depth + 1.
Definition uncached_drop (depth : Z) : Z := sat_sub depth 1.
Definition cache_suppressed (depth : Z) : bool := 0 <? depth.

(** *** rootmap.rs *)

(** [sort_by_key(|r| Reverse(r.comps.len()))], which is stable. *)
Fixpoint insert_root (r : Root) (l : list Root) : list Root :=
  match l with
  | [] => [r]
  | x :: l' => if (length (root_comps x) <=? length (root_comps r))%nat then r :: l else x :: insert_root r l'
  end.
Definition sort_roots (l : list Root) : list Root := foldr insert_root [] l.

Fixpoint parse_roots (l : list (Z * str)) : result PathError (list Root) :=
  match l with
  | [] => Ok []
  | (id, path) :: l =>
      match normalize_vpath path with
      | Err e => Err e
      | Ok norm =>
          if bool_decide (norm = []) then Err EmptyRoot
          else cons (mkRoot id (split_on is_slash norm)) <$> parse_roots l
      end
  end.

Record RootMap := mkRootMap { rm_roots : list Root; rm_volumes : VolumeMap; rm_capacity : Z }.
Definition with_capacity (roots : list (Z * str)) (v : VolumeMap) (capacity : Z) : result PathError RootMap :=
  (λ parsed, mkRootMap (sort_roots parsed) v capacity) <$> parse_roots roots.
Definition with_roots (roots : list (Z * str)) (v : VolumeMap) : result PathError RootMap :=
  with_capacity roots v DEFAULT_CACHE_CAPACITY.

Inductive RootResolution := Deterministic (r : option RootHit) | OsConsulted (r : option RootHit).

Section rootmap.
Context {CT : CaseTable}.

(** The inner loop: [zip] and compare. *)
Fixpoint zip_folds (rs cs : list str) : bool :=
match rs, cs with
| r :: rs, c :: cs => str_eqb (fold r) (fold c) && zip_folds rs cs
| _, _ => true
end.

Fixpoint match_roots (roots : list Root) (comps : list str) : option RootHit :=
match roots with
| [] => None
| r :: roots =>
    if (length comps <? length (root_comps r))%nat then match_roots roots comps
    else if zip_folds (root_comps r) comps then Some (root_id r, fold <$> drop (length (root_comps r)) comps)
    else match_roots roots comps
end.

Definition match_canonical (m : RootMap) (canon : str) : option RootHit :=
match_roots (rm_roots m) (if bool_decide (canon = []) then [] else split_on is_slash canon).

(** [expand_above_roots]; [os dir name] is the long name the directory lists
  for a short one now. *)
Definition tilde : char := 126.
Fixpoint expand_loop (m : RootMap) (os : str → str → option str) (comps out : list str) : option (list str) :=
match comps with
| [] => Some out
| c :: comps' =>
    if existsb (λ x, x =? tilde) c then
      if bool_decide (is_Some (match_canonical m (join slash out))) then Some (out ++ comps)
      else long ← os (join backslash out) c; expand_loop m os comps' (out ++ [long])
    else expand_loop m os comps' (out ++ [c])
end.
Definition expand_above_roots (m : RootMap) (os : str → str → option str) (canon : str) : option str :=
match split_on is_slash canon with
| [] => Some (join slash [])
| c :: comps => join slash <$> expand_loop m os comps [c]
end.

Definition compute_under_root (m : RootMap) (os : str → str → option str) (os_depth : Z) (nt_path : str) : RootResolution :=
match canonicalise nt_path (rm_volumes m) with
| Err _ => Deterministic None
| Ok canon =>
    match match_canonical m canon with
    | Some folded => Deterministic (Some folded)
    | None =>
        if negb (existsb (λ x, x =? tilde) canon) then Deterministic None else
        match guard_enter os_depth with
        | None => OsConsulted None
        | Some _ =>
            OsConsulted (match expand_above_roots m os canon with Some e => match_canonical m e | None => None end)
        end
    end
end.

Definition under_root (m : RootMap) (os : str → str → option str) (os_depth suppress : Z) (nt_path : str) (c : PathCache)
    : option RootHit * PathCache :=
let suppressed := cache_suppressed suppress in
match (if suppressed then None else cache_get nt_path c) with
| Some cached => (cached, c)
| None =>
    match compute_under_root m os os_depth nt_path with
    | Deterministic result => (result, if suppressed then c else cache_insert (rm_capacity m) nt_path result c)
    | OsConsulted result => (result, c)
    end
end.
End rootmap.

(** ** The deepest root *)

Section props.
Context {CT : CaseTable}.

(** The path's components start with the root's, up to case. *)
Definition under (cs : list str) (r : Root) : Prop :=
fold <$> take (length (root_comps r)) cs = fold <$> root_comps r.
Definition deeper (r r' : Root) : Prop := (length (root_comps r) < length (root_comps r'))%nat.

Lemma zip_folds_spec rs cs : (length rs ≤ length cs)%nat →
zip_folds rs cs = true ↔ fold <$> take (length rs) cs = fold <$> rs.
Proof.
revert cs. induction rs as [|r rs IH]; intros [|c cs] Hl; cbn [length zip_folds take] in *; try done; [lia|].
rewrite !fmap_cons, andb_true_iff, IH by lia. destruct (str_eqb_spec (fold r) (fold c)) as [->|E].
- split; [by intros [_ ->]|]. by intros [=].
- split; [by intros [[=] _]|]. intros [=]. congruence.
Qed.

Lemma under_length cs r : under cs r → (length (root_comps r) ≤ length cs)%nat.
Proof. unfold under. intros E%(f_equal length). rewrite !length_fmap, length_take in E. lia. Qed.

Lemma match_roots_spec roots cs :
match match_roots roots cs with
| Some h => ∃ l1 r l2, roots = l1 ++ r :: l2 ∧ under cs r ∧ Forall (λ x, ¬ under cs x) l1 ∧
    h = (root_id r, fold <$> drop (length (root_comps r)) cs)
| None => Forall (λ x, ¬ under cs x) roots
end.
Proof.
induction roots as [|r roots IH]; cbn [match_roots]; [apply Forall_nil_2|].
assert (¬ under cs r → match match_roots roots cs with
  | Some h => ∃ l1 r0 l2, r :: roots = l1 ++ r0 :: l2 ∧ under cs r0 ∧ Forall (λ x, ¬ under cs x) l1 ∧
      h = (root_id r0, fold <$> drop (length (root_comps r0)) cs)
  | None => Forall (λ x, ¬ under cs x) (r :: roots)
  end) as Hskip.
{ intros Hn. destruct (match_roots roots cs) as [h|]; [|by constructor]. destruct IH as (l1 & r0 & l2 & -> & H1 & H2 & H3).
  exists (r :: l1), r0, l2. split_and!; [done|done|by constructor|done]. }
destruct (Nat.ltb_spec (length cs) (length (root_comps r))) as [Hl|Hl].
- apply Hskip. intros H%under_length. lia.
- destruct (zip_folds (root_comps r) cs) eqn:E.
  + apply zip_folds_spec in E; [|done]. exists [], r, roots. split_and!; [done|done|apply Forall_nil_2|done].
  + apply Hskip. unfold under. rewrite <- zip_folds_spec by done. congruence.
Qed.

(** *** Sorting *)

Lemma insert_root_perm r l : insert_root r l ≡ₚ r :: l.
Proof. induction l as [|x l IH]; cbn; [done|]. destruct (_ <=? _)%nat; [done|]. rewrite IH. apply Permutation_swap. Qed.
Lemma sort_roots_perm l : sort_roots l ≡ₚ l.
Proof. induction l as [|r l IH]; cbn; [done|]. by rewrite insert_root_perm, IH. Qed.

(** Before [r] in the sorted list stand the deeper roots and those as deep that
  were declared before it. *)
Lemma sort_roots_before l l1 r l2 x :
sort_roots l = l1 ++ r :: l2 → x ∈ l2 → ¬ deeper r x.
Proof.
assert (∀ l, StronglySorted (λ a b, ¬ deeper a b) (sort_roots l)) as Hsort.
{ clear. induction l as [|r l IH]; [constructor|]. change (sort_roots (r :: l)) with (insert_root r (sort_roots l)). revert IH. generalize (sort_roots l). clear l.
  induction 1 as [|x k Hs IH Hx]; cbn; [constructor; [constructor|apply Forall_nil_2]|]. unfold deeper in *.
  destruct (Nat.leb_spec (length (root_comps x)) (length (root_comps r))).
  - constructor; [by constructor|]. constructor; [lia|]. eapply Forall_impl; [exact Hx|]. cbn. lia.
  - constructor; [done|]. rewrite insert_root_perm. constructor; [lia|done]. }
intros E Hx. specialize (Hsort l). rewrite E in Hsort. apply StronglySorted_app_1_r in Hsort.
inversion Hsort as [|? ? _ Hall]; subst. exact (proj1 (Forall_forall _ _) Hall x Hx).
Qed.

Definition depth_is (n : nat) (r : Root) : Prop := length (root_comps r) = n.
#[local] Instance depth_is_dec n r : Decision (depth_is n r).
Proof. unfold depth_is. apply _. Defined.

Lemma insert_root_filter n r l : filter (depth_is n) (insert_root r l) = filter (depth_is n) (r :: l).
Proof.
induction l as [|x l IH]; cbn [insert_root]; [done|]. destruct (Nat.leb_spec (length (root_comps x)) (length (root_comps r))); [done|].
rewrite (filter_cons _ x), IH, (filter_cons _ r (x :: l)), (filter_cons _ r l), (filter_cons _ x l). unfold depth_is.
repeat case_decide; try done. lia.
Qed.
(** Roots of one depth keep the order they were declared in. *)
Lemma sort_roots_stable n l : filter (depth_is n) (sort_roots l) = filter (depth_is n) l.
Proof.
induction l as [|r l IH]; [done|]. change (sort_roots (r :: l)) with (insert_root r (sort_roots l)).
by rewrite insert_root_filter, !filter_cons, IH.
Qed.

Lemma filter_split {A} (P : A → Prop) `{∀ x, Decision (P x)} l a r b :
filter P l = a ++ r :: b → ∃ d1 d2, l = d1 ++ r :: d2 ∧ filter P d1 = a.
Proof.
revert a. induction l as [|x l IH]; intros a; [by destruct a|]. rewrite filter_cons. case_decide as Hx.
- destruct a as [|y a]; intros [= -> E]; [by exists [], l|]. destruct (IH a E) as (d1 & d2 & -> & E1).
  exists (y :: d1), d2. split; [done|]. by rewrite filter_cons_True, E1.
- intros E. destruct (IH a E) as (d1 & d2 & -> & E1). exists (x :: d1), d2. split; [done|]. by rewrite filter_cons_False.
Qed.

(** The root that wins: no declared root that has the path is deeper, and none
  as deep was declared before it. *)
Definition wins (decl : list Root) (cs : list str) (r : Root) : Prop :=
∃ d1 d2, decl = d1 ++ r :: d2 ∧ under cs r ∧ Forall (λ x, under cs x → deeper x r) d1 ∧
  Forall (λ x, under cs x → ¬ deeper r x) d2.

Lemma match_sorted_wins decl cs :
match match_roots (sort_roots decl) cs with
| Some h => ∃ r, wins decl cs r ∧ h = (root_id r, fold <$> drop (length (root_comps r)) cs)
| None => Forall (λ x, ¬ under cs x) decl
end.
Proof.
pose proof (match_roots_spec (sort_roots decl) cs) as H. destruct (match_roots (sort_roots decl) cs) as [h|].
2:{ by rewrite sort_roots_perm in H. }
destruct H as (l1 & r & l2 & E & Hu & H1 & ->). exists r. split; [|done].
pose proof (sort_roots_stable (length (root_comps r)) decl) as Hst. rewrite E, filter_app, filter_cons_True in Hst by done.
symmetry in Hst. destruct (filter_split _ _ _ _ _ Hst) as (d1 & d2 & -> & Ef). exists d1, d2.
assert (∀ x, x ∈ d1 ++ r :: d2 → under cs x → x = r ∨ x ∈ l2) as Hmem.
{ intros x Hx Hux. rewrite <- sort_roots_perm, E in Hx. apply elem_of_app in Hx as [Hx|[Hx|Hx]%elem_of_cons]; [|by left|by right].
  by apply (proj1 (Forall_forall _ _) H1) in Hx. }
assert (∀ x, x ∈ d1 ++ r :: d2 → under cs x → ¬ deeper r x) as Hdeep.
{ intros x Hx Hux. destruct (Hmem x Hx Hux) as [->|Hl]; [unfold deeper; lia|]. by eapply sort_roots_before. }
split_and!; [done|done| |]; apply Forall_forall; intros x Hx Hux.
- assert (¬ deeper r x) as Hn by (apply Hdeep; [apply elem_of_app; by left|done]). unfold deeper in *.
  destruct (decide (length (root_comps x) = length (root_comps r))) as [Eq|]; [exfalso|lia].
  assert (x ∈ l1) as Hl1; [|by apply (proj1 (Forall_forall _ _) H1) in Hl1].
  apply (list_elem_of_filter (depth_is (length (root_comps r)))). rewrite <- Ef. by apply list_elem_of_filter.
- apply Hdeep; [|done]. apply elem_of_app. right. by right.
Qed.

Lemma match_canonical_comps m cs :
Forall comp_ok cs → match_canonical m (join slash cs) = match_roots (rm_roots m) cs.
Proof.
intros H. unfold match_canonical. case_bool_decide as E.
- apply join_comp_nil in E; [|done]. by subst.
- rewrite split_slash_join; [done| |done]. by intros ->.
Qed.

(** C25: the deepest declared root wins: of the roots declared, a canonical
  path is answered with one that has it, that no other root having it is
  deeper than, and that was declared before those as deep; the remainder is
  what the path has below that root, folded. A path that no declared root has
  is outside. *)
Theorem deepest_root_wins roots v cap m cs :
with_capacity roots v cap = Ok m → Forall comp_ok cs →
∃ decl, parse_roots roots = Ok decl ∧
match match_canonical m (join slash cs) with
| Some h => ∃ r, wins decl cs r ∧ h = (root_id r, fold <$> drop (length (root_comps r)) cs)
| None => Forall (λ x, ¬ under cs x) decl
end.
Proof.
unfold with_capacity. intros Hm Hc. destruct (parse_roots roots) as [decl|e]; [|done]. injection Hm as <-.
exists decl. split; [done|]. rewrite match_canonical_comps by done. apply match_sorted_wins.
Qed.

(** ** The cache *)

Definition answer_of (r : RootResolution) : option RootHit := match r with Deterministic a | OsConsulted a => a end.

(** What does not depend on the operating system does not change. *)
Lemma deterministic_stable m os d os' d' k r :
compute_under_root m os d k = Deterministic r → compute_under_root m os' d' k = Deterministic r.
Proof. unfold compute_under_root. repeat case_match; done. Qed.

(** A thread puts an answer in that it computed, at whatever moment. *)
Inductive cache_step (m : RootMap) (c : PathCache) : PathCache → Prop :=
| cache_put os d k r : compute_under_root m os d k = Deterministic r → cache_step m c (cache_insert (rm_capacity m) k r c).

Record CacheOk (m : RootMap) (c : PathCache) : Prop := {
  ck_pure k r : pc_map c !! k = Some r → ∃ os d, compute_under_root m os d k = Deterministic r;
  ck_order k : k ∈ pc_order c ↔ is_Some (pc_map c !! k);
  ck_nodup : NoDup (pc_order c);
  ck_bound : len (pc_order c) ≤ Z.max (rm_capacity m) 1 }.

Lemma cache_put_ok m c0 k r os d :
(∀ k r, pc_map c0 !! k = Some r → ∃ os d, compute_under_root m os d k = Deterministic r) →
(∀ k, k ∈ pc_order c0 ↔ is_Some (pc_map c0 !! k)) → NoDup (pc_order c0) →
len (pc_order c0) < Z.max (rm_capacity m) 1 → pc_map c0 !! k = None → compute_under_root m os d k = Deterministic r →
CacheOk m (mkCache (<[k := r]> (pc_map c0)) (pc_order c0 ++ [k])).
Proof.
intros Hpure Ho Hn Hb Hk Hr. constructor; cbn [pc_map pc_order].
- intros k' r'. destruct (decide (k' = k)) as [->|Hne]; [rewrite lookup_insert_eq; intros [= <-]; eauto|].
  rewrite lookup_insert_ne by done. apply Hpure.
- intros k'. rewrite elem_of_app, list_elem_of_singleton, lookup_insert_is_Some', Ho. naive_solver.
- apply NoDup_app. split_and!; [done| |apply NoDup_singleton]. intros x Hx ->%list_elem_of_singleton.
  apply Ho in Hx. rewrite Hk in Hx. by destruct Hx.
- rewrite len_app. change (len [k]) with 1. lia.
Qed.

Lemma cache_step_ok m c c' : CacheOk m c → cache_step m c c' → CacheOk m c'.
Proof.
intros [Hp Ho Hn Hb] [os d k r Hr]. unfold cache_insert. case_bool_decide as Hk; [done|].
apply eq_None_not_Some in Hk. destruct (Z.leb_spec (Z.max (rm_capacity m) 1) (len (pc_order c))) as [Hfull|Hroom].
- destruct (pc_order c) as [|old order] eqn:Eo; [change (len []) with 0 in Hfull; lia|].
  apply NoDup_cons in Hn as [Hold Hn]. eapply (cache_put_ok m (mkCache (delete old (pc_map c)) order)); cbn [pc_map pc_order].
  + intros k' r' [_ H]%lookup_delete_Some. by apply Hp.
  + intros k'. specialize (Ho k'). rewrite elem_of_cons in Ho. destruct (decide (k' = old)) as [->|Hne].
    * rewrite lookup_delete_eq. split; [done|]. by intros [? [=]].
    * rewrite lookup_delete_ne by done. naive_solver.
  + done.
  + rewrite len_cons in Hb. lia.
  + by rewrite lookup_delete_None; right.
  + exact Hr.
- destruct c as [mp ord]. by eapply (cache_put_ok m (mkCache mp ord)).
Qed.

Lemma cache_reach_ok m c : rtc (cache_step m) cache_new c → CacheOk m c.
Proof.
intros H. assert (CacheOk m cache_new) as H0.
{ constructor; cbn; [done| |constructor|change (len []) with 0; lia]. intros k.
  rewrite lookup_empty, elem_of_nil. split; [done|by intros [? [=]]]. }
revert H0. induction H as [c|c1 c2 c3 H12 _ IH]; [done|]. intros H0. eapply IH, cache_step_ok, H12. done.
Qed.

Lemma root_cache_answer m c os d suppress k :
rtc (cache_step m) cache_new c → (under_root m os d suppress k c).1 = answer_of (compute_under_root m os d k).
Proof.
intros Hc%cache_reach_ok. unfold under_root.
destruct (cache_suppressed suppress); [by destruct (compute_under_root m os d k)|]. unfold cache_get.
destruct (pc_map c !! k) as [r|] eqn:E; [|by destruct (compute_under_root m os d k)].
destruct (ck_pure m c Hc k r E) as (os' & d' & H). by rewrite (deterministic_stable _ _ _ os d _ _ H).
Qed.

(** C26: the cache never changes an answer: whatever the threads have looked
  up and put in before, in any order, a look-up answers what would be computed
  from the path and the operating system's state now, also for the answers
  that depend on that state; and the cache never outgrows its capacity. *)
Theorem root_cache_transparent m c os d suppress k :
rtc (cache_step m) cache_new c →
(under_root m os d suppress k c).1 = answer_of (compute_under_root m os d k) ∧
((under_root m os d suppress k c).2 = c ∨ cache_step m c (under_root m os d suppress k c).2) ∧
Z.of_nat (size (pc_map c)) ≤ Z.max (rm_capacity m) 1.
Proof.
intros Hc. split; [by apply root_cache_answer|]. apply cache_reach_ok in Hc as [Hp Ho Hn Hb]. unfold under_root. split.
- destruct (cache_suppressed suppress).
  { destruct (compute_under_root m os d k); by left. }
  unfold cache_get. destruct (pc_map c !! k) as [r|]; [by left|].
  destruct (compute_under_root m os d k) as [r|r] eqn:E; [|by left]. right. by apply (cache_put m c os d).
- rewrite <- size_dom. replace (dom (pc_map c)) with (list_to_set (C := gset str) (pc_order c)).
  + by rewrite size_list_to_set.
  + apply set_eq. intros x. by rewrite elem_of_list_to_set, elem_of_dom.
Qed.

(** C24: no spelling slips past the roots: a path on a drive, spelled behind
  up to 16 object directories, with any dots, spaces, separators, parent steps
  and stream suffix, is recognised under every root its plain components are
  under, whatever the cache holds, so it never reaches the real file system
  by looking unfamiliar. *)
Theorem spellings_reach_root m c os d suppress n raw t a sep rest h :
rtc (cache_step m) cache_new c → spelled (rm_volumes m) n raw t → (n ≤ MAX_PREFIX_STEPS)%nat →
is_alpha a = true → is_sep sep = true → trim_seps (strip_stream_suffix t) = a :: colon :: sep :: rest →
match_roots (rm_roots m) ([a; colon] :: drive_comps rest) = Some h →
(under_root m os d suppress raw c).1 = Some h.
Proof.
intros Hc Hs Hn Ha Hsep Ht Hm.
assert ((under_root m os d suppress raw c).1 = answer_of (compute_under_root m os d raw)) as ->
  by (by apply root_cache_answer).
destruct (drive_canonical (rm_volumes m) t a sep rest) as [E Hok]; [done|done|done|by eapply spelled_end|].
unfold compute_under_root. rewrite (spelled_canonical (rm_volumes m) n raw t) by done. rewrite E.
rewrite match_canonical_comps by done. by rewrite Hm.
Qed.
End props.

(** ** A concrete map *)

Module RedirectDemo.
#[local] Existing Instance demo_table.

Definition volumes : VolumeMap := volumes_insert (lit "\Device\HarddiskVolume3") 67 volumes_empty.
Definition declared : list (Z * str) := [(7, lit "C:\Games\Skyrim"); (8, lit "\??\C:\Games\Skyrim\Data")].
Definition map : RootMap := match with_roots declared volumes with Ok m => m | Err _ => mkRootMap [] [] 0 end.

(** The data directory, spelled behind three object directories. *)
Definition plain : str := lit "\c:\games\.\x\..\SKYRIM.\data \a.esp:s".
Definition wrapped : str := lit "\??" ++ lit "/GlobalRoot" ++ lit "\\global??" ++ plain.

Lemma wrapped_ok : spelled volumes 3 wrapped plain.
Proof.
  apply (spelled_token volumes 2 [92] (lit "??")).
  { split; [discriminate|by repeat constructor]. } { reflexivity. } { split; reflexivity. }
  apply (spelled_token volumes 1 [47] (lit "GlobalRoot")).
  { split; [discriminate|by repeat constructor]. } { reflexivity. } { split; reflexivity. }
  apply (spelled_token volumes 0 [92; 92] (lit "global??")).
  { split; [discriminate|by repeat constructor]. } { reflexivity. } { split; reflexivity. }
  constructor; [reflexivity|split; reflexivity|reflexivity].
Qed.

(** An answer is in the cache already. *)
Definition warm : PathCache := cache_insert (rm_capacity map) (lit "C:\Windows") None cache_new.
Lemma warm_reached : rtc (cache_step map) cache_new warm.
Proof. apply rtc_once, (cache_put map cache_new (λ _ _, None) 0). reflexivity. Qed.
End RedirectDemo.
Import RedirectDemo.
#[local] Existing Instance demo_table.

Lemma namespace_spellings_agree_witness : canonicalise wrapped volumes = canonicalise plain volumes.
Proof. refine (namespace_spellings_agree volumes 3 wrapped plain wrapped_ok _). unfold MAX_PREFIX_STEPS. lia. Defined.

Lemma drive_path_kept_witness :
  canonicalise (lit "C:\..\..\Windows\..\a. .\b") volumes = Ok (lit "C:/a/b").
Proof.
  refine (proj1 (drive_path_kept volumes (lit "C:\..\..\Windows\..\a. .\b") 67 92 (lit "..\..\Windows\..\a. .\b")
    eq_refl eq_refl eq_refl _)).
  split; reflexivity.
Defined.

Lemma deepest_root_wins_witness :
  ∃ decl, parse_roots declared = Ok decl ∧
    ∃ r, wins decl [lit "c:"; lit "games"; lit "SKYRIM"; lit "data"; lit "a.esp"] r ∧ (8, [lit "a.esp"]) = (root_id r, fold <$>
      drop (length (root_comps r)) [lit "c:"; lit "games"; lit "SKYRIM"; lit "data"; lit "a.esp"]).
Proof.
  refine (deepest_root_wins declared volumes DEFAULT_CACHE_CAPACITY map
    [lit "c:"; lit "games"; lit "SKYRIM"; lit "data"; lit "a.esp"] eq_refl _).
  by apply comps_okb.
Defined.

Lemma root_cache_transparent_witness :
  (under_root map (λ _ _, Some (lit "Games")) 0 0 (lit "C:\GAMES~1\Skyrim") warm).1 =
    answer_of (compute_under_root map (λ _ _, Some (lit "Games")) 0 (lit "C:\GAMES~1\Skyrim")).
Proof.
  exact (proj1 (root_cache_transparent map warm (λ _ _, Some (lit "Games")) 0 0 (lit "C:\GAMES~1\Skyrim") warm_reached)).
Defined.

Lemma spellings_reach_root_witness : (under_root map (λ _ _, None) 0 0 wrapped warm).1 = Some (8, [lit "a.esp"]).
Proof.
  refine (spellings_reach_root map warm (λ _ _, None) 0 0 3 wrapped plain 99 92 (lit "games\.\x\..\SKYRIM.\data \a.esp") _
    warm_reached wrapped_ok _ eq_refl eq_refl eq_refl eq_refl).
  unfold MAX_PREFIX_STEPS. lia.
Defined.

(** One token more than the loop has steps for: the path comes out with the
    token as a directory, under no root. *)
Example seventeen_tokens_slip_past :
  let raw := lit "\??" ++ flat_map (λ _, lit "\GLOBALROOT\GLOBAL??") (seq 0 8) ++ lit "\C:\Games\Skyrim\a.esp" in
  canonicalise raw volumes = Ok (lit "GLOBAL??/C:/Games/Skyrim/a.esp") ∧
  (under_root map (λ _ _, None) 0 0 raw warm).1 = None.
Proof. split; vm_compute; reflexivity. Qed.
