(* ===== verification/NtBuf.v ===== *)
(** NtBuf: the buffers the NT layouts are written into.

    UTF-16 as Rust's [str::encode_utf16] and [String::from_utf16_lossy] have
    it, the little-endian bytes of a name, and writes to a sub-slice of a
    caller's buffer ([buf[a..b].copy_from_slice(..)]), which panic out of
    range: a definition that would panic is [None].  Shared by NtLayout
    (rust/crates/vfs-ntlayout) and RegLayout
    (rust/crates/vfs-registry/src/layout). *)

From S2P Require Import Prelude Text Seg.

(** ** UTF-16 *)

(** [char::encode_utf16]. *)
Definition encode_char16 (c : char) : list Z :=
  if c <? 0x10000 then [c]
  else [0xD800 + (c - 0x10000) / 1024; 0xDC00 + (c - 0x10000) mod 1024].
Definition encode_utf16 (s : str) : list Z := flat_map encode_char16 s.

Definition is_low (u : Z) : bool := (0xDC00 <=? u) && (u <? 0xE000).

(** [String::from_utf16_lossy]: an unpaired surrogate becomes U+FFFD. *)
Fixpoint from_utf16_lossy (us : list Z) : str :=
  match us with
  | [] => []
  | u :: r =>
      if (u <? 0xD800) || (0xE000 <=? u) then u :: from_utf16_lossy r
      else if 0xDC00 <=? u then 0xFFFD :: from_utf16_lossy r
      else match r with
      | v :: r' =>
          if is_low v
          then 0x10000 + (u - 0xD800) * 1024 + (v - 0xDC00) :: from_utf16_lossy r'
          else 0xFFFD :: from_utf16_lossy r
      | [] => [0xFFFD]
      end
  end.

(** [units.iter().flat_map(|u| u.to_le_bytes())], and
    [as_chunks::<2>().0] with [u16::from_le_bytes]: a last odd byte is left. *)
Definition units_le (us : list Z) : bytes := flat_map (to_le 2) us.
Fixpoint chunks16 (b : bytes) : list Z :=
  match b with x :: y :: r => from_le [x; y] :: chunks16 r | _ => [] end.

(** [name.encode_utf16()] as bytes, and their number. *)
Definition utf16le (s : str) : bytes := units_le (encode_utf16 s).

Lemma encode_utf16_cons c s : encode_utf16 (c :: s) = encode_char16 c ++ encode_utf16 s.
Proof. done. Qed.

Lemma encode_char16_units c : scalarb c = true → Forall (λ u, 0 ≤ u < u16_max) (encode_char16 c).
Proof.
  intros Hc%scalarb_spec. unfold encode_char16, u16_max.
  case_match; repeat constructor; dlia.
Qed.

Lemma encode_utf16_units s : valid_str s → Forall (λ u, 0 ≤ u < u16_max) (encode_utf16 s).
Proof.
  induction 1; [constructor|]. rewrite encode_utf16_cons.
  apply Forall_app. auto using encode_char16_units.
Qed.

Lemma from_utf16_char c r :
  scalarb c = true → from_utf16_lossy (encode_char16 c ++ r) = c :: from_utf16_lossy r.
Proof.
  intros Hc%scalarb_spec. unfold encode_char16.
  destruct (Z.ltb_spec c 0x10000); cbn [app from_utf16_lossy].
  { destruct Hc; bdecide; done. }
  unfold is_low. bdecide. f_equal. dlia.
Qed.

(** Decoding gives the encoded string back. *)
Lemma from_utf16_encode s : valid_str s → from_utf16_lossy (encode_utf16 s) = s.
Proof.
  induction 1 as [|c s Hc Hs IH]; [done|].
  by rewrite encode_utf16_cons, from_utf16_char, IH.
Qed.

Lemma encode_utf16_len s : len (encode_utf16 s) = utf16_len s.
Proof.
  induction s as [|c s IH]; [done|]. rewrite encode_utf16_cons, len_app, IH. cbn [utf16_len].
  unfold encode_char16, utf16_units. by case_match.
Qed.

Lemma units_le_len us : len (units_le us) = 2 * len us.
Proof.
  induction us as [|u us IH]; [done|]. unfold units_le. cbn [flat_map].
  rewrite len_app, len_to_le, len_cons. fold (units_le us). lia.
Qed.

Lemma chunks16_units us : Forall (λ u, 0 ≤ u < u16_max) us → chunks16 (units_le us) = us.
Proof.
  induction 1 as [|u us Hu Hus IH]; [done|].
  change (chunks16 (units_le (u :: us))) with (from_le (to_le 2 u) :: chunks16 (units_le us)).
  rewrite IH. f_equal. exact (from_to_le_small 2 u Hu).
Qed.

Lemma utf16le_len s : len (utf16le s) = 2 * utf16_len s.
Proof. unfold utf16le. by rewrite units_le_len, encode_utf16_len. Qed.

Lemma utf16_len_nonneg s : 0 ≤ utf16_len s.
Proof. rewrite <- encode_utf16_len. apply len_nonneg. Qed.

#[export] Hint Rewrite utf16le_len units_le_len encode_utf16_len : vfs_len.
#[export] Hint Resolve utf16_len_nonneg : vfs.

(** The name read out of its bytes. *)
Definition read_name (b : bytes) : str := from_utf16_lossy (chunks16 b).

Lemma read_name_utf16le s : valid_str s → read_name (utf16le s) = s.
Proof.
  intros H. unfold read_name, utf16le.
  by rewrite chunks16_units, from_utf16_encode by auto using encode_utf16_units.
Qed.

(** ** Writing to a slice *)

(** [buf[off..off + d.len()].copy_from_slice(d)]. *)
Definition slice_put (b : bytes) (off : Z) (d : bytes) : option bytes :=
  if (0 <=? off) && (off + len d <=? len b) then Some (mem_put b off d) else None.

(** [buf[off..off + n].fill(0)]. *)
Definition slice_zero (b : bytes) (off n : Z) : option bytes :=
  slice_put b off (replicate (Z.to_nat n) 0).

(** [put_u32], [put_i64] and their like: [v.to_le_bytes()] at [off]. *)
Definition put_u16 (b : bytes) (off v : Z) : option bytes := slice_put b off (to_le 2 v).
Definition put_u32 (b : bytes) (off v : Z) : option bytes := slice_put b off (to_le 4 v).
Definition put_u64 (b : bytes) (off v : Z) : option bytes := slice_put b off (to_le 8 v).

(** What a caller reads back. *)
Definition u16_at (b : bytes) (off : Z) : Z := from_le (mem_get b off 2).
Definition u32_at (b : bytes) (off : Z) : Z := from_le (mem_get b off 4).
Definition u64_at (b : bytes) (off : Z) : Z := from_le (mem_get b off 8).
Definition i64_at (b : bytes) (off : Z) : Z := as_i64 (u64_at b off).

Lemma slice_put_ok b off d :
  0 ≤ off → off + len d ≤ len b → slice_put b off d = Some (mem_put b off d).
Proof. intros. unfold slice_put. by bdecide. Qed.

Lemma slice_put_Some b off d b' :
  slice_put b off d = Some b' → 0 ≤ off ∧ off + len d ≤ len b ∧ b' = mem_put b off d.
Proof.
  unfold slice_put. case_match eqn:E; [|done]. intros [= <-].
  apply andb_true_iff in E as [?%Z.leb_le ?%Z.leb_le]. done.
Qed.

Lemma len_replicate {A} n (x : A) : len (replicate n x) = Z.of_nat n.
Proof. unfold len. by rewrite length_replicate. Qed.
#[export] Hint Rewrite @len_replicate : vfs_len.

(** A region written in pieces is written whole: the rest of the buffer is
    out of the reach of a write inside it. *)
Lemma mem_put_put_in b off x t d :
  0 ≤ off → 0 ≤ t → off + len x ≤ len b → t + len d ≤ len x →
  mem_put (mem_put b off x) (off + t) d = mem_put b off (mem_put x t d).
Proof.
  intros. pose proof (len_nonneg d). pose proof (len_nonneg x).
  pose proof (mem_put_len b off x). pose proof (mem_put_len x t d).
  apply list_eq. intros i. rewrite !lookup_mem_put by lia. repeat case_decide; try lia; try done.
  all: rewrite ?lookup_mem_put by lia; repeat case_decide; try lia; try done; f_equal; lia.
Qed.

Lemma slice_put_in b off x t d :
  0 ≤ off → 0 ≤ t → off + len x ≤ len b → t + len d ≤ len x →
  slice_put (mem_put b off x) (off + t) d = Some (mem_put b off (mem_put x t d)).
Proof.
  intros. rewrite slice_put_ok by (rewrite ?mem_put_len by lia; lia).
  by rewrite mem_put_put_in.
Qed.

Lemma mem_put_all b d : len d = len b → mem_put b 0 d = d.
Proof.
  intros E. unfold mem_put, len in *. cbn [Z.to_nat take app].
  rewrite drop_ge by lia. by rewrite app_nil_r.
Qed.

Lemma mem_put_app_l a b t d : 0 ≤ t → t + len d ≤ len a → mem_put (a ++ b) t d = mem_put a t d ++ b.
Proof.
  intros. pose proof (len_nonneg d). pose proof (mem_put_len a t d). pose proof (len_app a b).
  pose proof (len_nonneg b). apply list_eq. intros i. rewrite lookup_mem_put by lia.
  destruct (decide (i < length a)%nat) as [Hi|Hi].
  - rewrite (lookup_app_l (mem_put a t d)) by (unfold len in *; lia). rewrite lookup_mem_put by lia.
    case_decide; [done|]. by rewrite lookup_app_l.
  - rewrite (lookup_app_r (mem_put a t d)) by (unfold len in *; lia).
    case_decide; [unfold len in *; lia|]. rewrite lookup_app_r by lia. f_equal.
    unfold len in *. lia.
Qed.

Lemma mem_put_app_r a d' d : len d = len d' → mem_put (a ++ d') (len a) d = a ++ d.
Proof.
  intros E. unfold mem_put, len in *. rewrite Nat2Z.id, take_app_length.
  f_equal. rewrite drop_ge, app_nil_r by (rewrite length_app; lia). done.
Qed.

Lemma mem_get_app_l a b t n : 0 ≤ t → 0 ≤ n → t + n ≤ len a → mem_get (a ++ b) t n = mem_get a t n.
Proof.
  intros. apply list_eq. intros i. rewrite !lookup_mem_get. case_decide; [|done].
  rewrite lookup_app_l by (unfold len in *; lia). done.
Qed.

Lemma mem_get_app_r a b n : len b = n → mem_get (a ++ b) (len a) n = b.
Proof.
  intros <-. unfold mem_get, len. rewrite !Nat2Z.id, drop_app_length. by rewrite take_ge.
Qed.

Lemma mem_get_put_region b off x t n :
  0 ≤ off → 0 ≤ t → 0 ≤ n → off + len x ≤ len b → t + n ≤ len x →
  mem_get (mem_put b off x) (off + t) n = mem_get x t n.
Proof.
  intros. rewrite <- mem_get_get with (n := len x) by lia. by rewrite mem_get_put_same.
Qed.

Lemma mem_put_get b off n : 0 ≤ off → 0 ≤ n → off + n ≤ len b → mem_put b off (mem_get b off n) = b.
Proof.
  intros. pose proof (mem_get_len b off n). apply list_eq. intros i.
  rewrite lookup_mem_put by lia. case_decide; [|done]. rewrite lookup_mem_get.
  case_decide; [f_equal; lia|lia].
Qed.

Lemma mem_get_put_eq b off d k :
  k = len d → 0 ≤ off → off + k ≤ len b → mem_get (mem_put b off d) off k = d.
Proof. intros ->. apply mem_get_put_same. Qed.

Lemma mem_put_nil b off : 0 ≤ off → mem_put b off [] = b.
Proof. intros. unfold mem_put. rewrite len_nil, Z.add_0_r. apply take_drop. Qed.

(** Adjacent reads are one read. *)
Lemma mem_get_app_adj (b : bytes) a n m :
  0 ≤ a → 0 ≤ n → 0 ≤ m → mem_get b a n ++ mem_get b (a + n) m = mem_get b a (n + m).
Proof.
  intros. unfold mem_get. rewrite !Z2Nat.inj_add, <- drop_drop by lia. apply take_take_drop.
Qed.

(** A read is as long as what it gives. *)
Lemma mem_get_own_len (b : bytes) a n : mem_get b a (len (mem_get b a n)) = mem_get b a n.
Proof.
  unfold mem_get, len. rewrite Nat2Z.id, length_take.
  destruct (Nat.min_spec (Z.to_nat n) (length (drop (Z.to_nat a) b))) as [[_ ->]|[? ->]]; [done|]. by rewrite !take_ge by lia.
Qed.

(** Adjacent writes are one write. *)
Lemma mem_put_adjacent b off x y :
  0 ≤ off → off + len x + len y ≤ len b →
  mem_put (mem_put b off x) (off + len x) y = mem_put b off (x ++ y).
Proof.
  intros. pose proof (len_nonneg x). pose proof (len_nonneg y). pose proof (mem_put_len b off x).
  pose proof (len_app x y). apply list_eq. intros i. rewrite !lookup_mem_put by lia.
  repeat case_decide; try lia; try done.
  all: first [ rewrite lookup_app_r by (unfold len in *; lia); f_equal; unfold len in *; lia
             | rewrite lookup_app_l by (unfold len in *; lia); done ].
Qed.

(** Solve the length side conditions of the rewrites above. *)
Ltac len_solve :=
  repeat match goal with
  | |- context [len (mem_put ?b ?o ?d)] => rewrite (mem_put_len b o d) by len_solve
  | |- context [len (mem_get ?b ?o ?n)] => rewrite (mem_get_len b o n) by len_solve
  end; autorewrite with vfs_len; lia.

(** Read a field through the writes to other fields. *)
Lemma mem_get_put_le b off n v k :
  k = Z.of_nat n → 0 ≤ off → off + k ≤ len b → mem_get (mem_put b off (to_le n v)) off k = to_le n v.
Proof. intros -> ??. rewrite <- (len_to_le n v). apply mem_get_put_same; rewrite ?len_to_le; lia. Qed.

Ltac read_field :=
  repeat first [ rewrite mem_get_put_other by len_solve
               | rewrite mem_get_put_le by first [ reflexivity | len_solve ] ].
