(* ===== verification/NtLayout.v ===== *)
(** NtLayout: the NT byte layouts and decisions of the shim's hooks
    (rust/crates/vfs-ntlayout/src).

    Directory listings (dirinfo.rs), the file-information classes
    (info.rs), create dispositions and access masks (disposition.rs), the
    name [NtQueryObject] reports (objname.rs) and the parsing of a rename
    request (rename.rs).  A writer gets the caller's buffer and returns what
    it holds after; [None] is the panic of an index out of range. *)

From S2P Require Import Prelude Text Path Seg NtBuf Provider.

(** ** info.rs: attributes and the fixed structures *)

Definition FILE_ATTRIBUTE_DIRECTORY : Z := 0x10.
Definition FILE_ATTRIBUTE_NORMAL : Z := 0x80.
Definition CLASS_BASIC : Z := 4.
Definition CLASS_STANDARD : Z := 5.
Definition CLASS_NETWORK_OPEN : Z := 34.
Definition CLASS_STAT : Z := 68.
Definition CLASS_STAT_BASIC : Z := 77.
Definition BASIC_LEN : Z := 40.
Definition STANDARD_LEN : Z := 24.
Definition NETWORK_OPEN_LEN : Z := 56.
Definition STAT_LEN : Z := 72.
Definition STAT_BASIC_LEN : Z := 104.
Definition ALL_PREFIX_LEN : Z := 100.
Definition ID_LEN : Z := 24.
Definition ATTRIBUTE_TAG_LEN : Z := 8.

Definition attributes (is_dir : bool) : Z :=
  if is_dir then FILE_ATTRIBUTE_DIRECTORY else FILE_ATTRIBUTE_NORMAL.

(** [for off in offs { put_i64(b, off, time) }]. *)
Fixpoint put_times (offs : list Z) (time : Z) (b : bytes) : option bytes :=
  match offs with
  | [] => Some b
  | o :: offs => b ← put_u64 b o time; put_times offs time b
  end.

Definition put_basic (b : bytes) (time attrs : Z) : option bytes :=
  b ← put_times [0; 8; 16; 24] time b;
  put_u32 b 32 attrs.

(** [size as i64], little-endian, has the bytes of [size]. *)
Definition put_standard (b : bytes) (size : Z) (is_dir : bool) : option bytes :=
  b ← put_u64 b 0 size;
  b ← put_u64 b 8 size;
  b ← put_u32 b 16 1;
  b ← slice_put b 20 [0];
  b ← slice_put b 21 [Z.b2z is_dir];
  slice_zero b 22 2.

Definition put_network_open (b : bytes) (time size attrs : Z) : option bytes :=
  b ← put_times [0; 8; 16; 24] time b;
  b ← put_u64 b 32 size;
  b ← put_u64 b 40 size;
  put_u32 b 48 attrs.

Definition put_stat (b : bytes) (file_id time size attrs effective_access : Z) : option bytes :=
  b ← put_u64 b 0 file_id;
  b ← put_times [8; 16; 24; 32] time b;
  b ← put_u64 b 40 size;
  b ← put_u64 b 48 size;
  b ← put_u32 b 56 attrs;
  b ← put_u32 b 64 1;
  put_u32 b 68 effective_access.

(** The structure's size for a class answered by path. *)
Definition by_name_need (class_raw : Z) : option Z :=
  if class_raw =? CLASS_BASIC then Some BASIC_LEN
  else if class_raw =? CLASS_STANDARD then Some STANDARD_LEN
  else if class_raw =? CLASS_NETWORK_OPEN then Some NETWORK_OPEN_LEN
  else if class_raw =? CLASS_STAT then Some STAT_LEN
  else if class_raw =? CLASS_STAT_BASIC then Some STAT_BASIC_LEN
  else None.

Definition by_name_fill (class_raw : Z) (b : bytes) (is_dir : bool) (size : Z) : option bytes :=
  let attrs := attributes is_dir in
  if class_raw =? CLASS_BASIC then put_basic b 0 attrs
  else if class_raw =? CLASS_STANDARD then put_standard b size is_dir
  else if class_raw =? CLASS_NETWORK_OPEN then put_network_open b 0 size attrs
  else put_stat b 0 0 size attrs 0.

(** Fill a sub-slice [buf[off..off + n]] with [f]; the rest stays. *)
Definition in_slice (b : bytes) (off n : Z) (f : bytes → option bytes) : option bytes :=
  x ← f (mem_get b off n);
  slice_put b off x.

(** The buffer after the call, and its result. *)
Definition by_name_info (class_raw : Z) (buf : bytes) (is_dir : bool) (size : Z) : option (bytes * option Z) :=
  match by_name_need class_raw with
  | None => Some (buf, None)
  | Some need =>
      if len buf <? need then Some (buf, None) else
      b ← in_slice buf 0 need (λ b, b ← slice_zero b 0 need; by_name_fill class_raw b is_dir size);
      Some (b, Some need)
  end.

Definition put_all_prefix (b : bytes) (time : Z) (is_dir : bool) (size index_number position : Z) : option bytes :=
  if len b <? ALL_PREFIX_LEN then None else
  in_slice b 0 ALL_PREFIX_LEN (λ b,
    b ← slice_zero b 0 ALL_PREFIX_LEN;
    b ← in_slice b 0 BASIC_LEN (λ x, put_basic x time (attributes is_dir));
    b ← in_slice b BASIC_LEN STANDARD_LEN (λ x, put_standard x size is_dir);
    b ← put_u64 b 64 index_number;
    put_u64 b 80 position).

Definition put_id (b : bytes) (volume_serial file_id : Z) : option bytes :=
  if len b <? ID_LEN then None else
  in_slice b 0 ID_LEN (λ b,
    b ← slice_zero b 0 ID_LEN;
    b ← put_u64 b 0 volume_serial;
    put_u64 b 8 file_id).

Definition put_attribute_tag (b : bytes) (is_dir : bool) : option bytes :=
  b ← put_u32 b 0 (attributes is_dir);
  put_u32 b 4 0.

Inductive Fit := Fits | Overflow | Mismatch.
#[export] Instance Fit_eq_dec : EqDecision Fit.
Proof. solve_decision. Defined.

(** [for (i, u) in units.enumerate() { buf[off + i*2..][..2] = u }]. *)
Fixpoint put_units (b : bytes) (off : Z) (us : list Z) : option bytes :=
  match us with
  | [] => Some b
  | u :: us => b ← put_u16 b off u; put_units b (off + 2) us
  end.

Definition put_file_name (name : str) (buf : bytes) : option (bytes * (Fit * Z)) :=
  if len buf <? 8 then Some (buf, (Mismatch, 0)) else
  let units := encode_utf16 name in
  let fits := Z.min (len units) ((len buf - 4) / 2) in
  b ← put_u32 buf 0 (as_u32 (len units * 2));
  b ← put_units b 4 (take (Z.to_nat fits) units);
  Some (b, (if fits =? len units then Fits else Overflow, 4 + fits * 2)).

(** ** dirinfo.rs: directory listings *)

Record DirItem := mkDirItem {
  di_name : str;
  di_is_dir : bool;
  di_size : Z;
  di_mtime : Z }.

Definition SYNTH_FILETIME : Z := 133485408000000000.
Definition UNIX_EPOCH_IN_FILETIME_SECS : Z := 11644473600.

(** [checked_add] and [checked_mul] on [i64]. *)
Definition checked_i64 (x : Z) : option Z :=
  if (- 2 ^ 63 <=? x) && (x <? 2 ^ 63) then Some x else None.

Definition filetime_of (mtime : Z) : Z :=
  if mtime <=? 0 then SYNTH_FILETIME else
  default SYNTH_FILETIME
    (s ← checked_i64 (mtime + UNIX_EPOCH_IN_FILETIME_SECS); checked_i64 (s * 10000000)).

Inductive DirInfoClass :=
  Directory | FullDirectory | BothDirectory | Names | IdBothDirectory | IdFullDirectory.

Definition dir_class_from_u32 (v : Z) : option DirInfoClass :=
  if v =? 1 then Some Directory
  else if v =? 2 then Some FullDirectory
  else if v =? 3 then Some BothDirectory
  else if v =? 12 then Some Names
  else if v =? 37 then Some IdBothDirectory
  else if v =? 38 then Some IdFullDirectory
  else None.

Definition name_offset (c : DirInfoClass) : Z :=
  match c with
  | Names => 12 | Directory => 64 | FullDirectory => 68
  | IdFullDirectory => 80 | BothDirectory => 94 | IdBothDirectory => 104
  end.
Definition name_len_offset (c : DirInfoClass) : Z := match c with Names => 8 | _ => 60 end.
Definition has_metadata (c : DirInfoClass) : bool := match c with Names => false | _ => true end.

Inductive DirStatus := DSuccess | DNoMoreFiles | DBufferOverflow.
Record DirWriteResult := mkDirWrite { dw_bytes : Z; dw_count : Z; dw_status : DirStatus }.

(** One record at [off], and the [NextEntryOffset] of the one before it. *)
Definition write_metadata (class : DirInfoClass) (it : DirItem) (off : Z) (buf : bytes) : option bytes :=
  if negb (has_metadata class) then Some buf else
  buf ← put_times [off + 8; off + 16; off + 24; off + 32] (filetime_of (di_mtime it)) buf;
  buf ← put_u64 buf (off + 40) (di_size it);
  buf ← put_u64 buf (off + 48) (di_size it);
  put_u32 buf (off + 56) (attributes (di_is_dir it)).

Definition write_record (class : DirInfoClass) (it : DirItem) (off : Z) (buf : bytes) : option bytes :=
  buf ← slice_zero buf off (name_offset class);
  buf ← write_metadata class it off buf;
  buf ← put_u32 buf (off + name_len_offset class) (as_u32 (len (encode_utf16 (di_name it)) * 2));
  slice_put buf (off + name_offset class) (units_le (encode_utf16 (di_name it))).

Definition link_prev (prev : option Z) (off : Z) (buf : bytes) : option bytes :=
  match prev with
  | Some p => put_u32 buf p (as_u32 (off - p))
  | None => Some buf
  end.

(** [(rec + 7) & !7]. *)
Definition align8 (n : Z) : Z := Z.land (n + 7) (Z.lnot 7).

(** The loop: buffer, bytes used and records written. *)
Fixpoint dir_loop (class : DirInfoClass) (single : bool) (items : list DirItem)
    (buf : bytes) (off count : Z) (prev : option Z) (last_end : Z) : option (bytes * Z * Z) :=
  match items with
  | [] => Some (buf, last_end, count)
  | it :: items =>
      let rec := name_offset class + len (encode_utf16 (di_name it)) * 2 in
      if off + rec >? len buf then Some (buf, last_end, count) else
      buf ← write_record class it off buf;
      buf ← link_prev prev off buf;
      if single then Some (buf, off + rec, count + 1) else
      dir_loop class single items buf (off + align8 rec) (count + 1) (Some off) (off + rec)
  end.

Definition write_dir_info (class : DirInfoClass) (items : list DirItem) (buf : bytes) (single : bool) :
    option (bytes * DirWriteResult) :=
  r ← dir_loop class single items buf 0 0 None 0;
  let '(buf, last_end, count) := r in
  Some (buf, mkDirWrite last_end count
    (if count =? 0 then if items is [] then DNoMoreFiles else DBufferOverflow else DSuccess)).

(** ** disposition.rs *)

Definition FILE_SUPERSEDE : Z := 0.
Definition FILE_OPEN : Z := 1.
Definition FILE_CREATE : Z := 2.
Definition FILE_OPEN_IF : Z := 3.
Definition FILE_OVERWRITE : Z := 4.
Definition FILE_OVERWRITE_IF : Z := 5.
Definition FILE_WRITE_DATA : Z := 0x2.
Definition FILE_APPEND_DATA : Z := 0x4.
Definition GENERIC_WRITE : Z := 0x40000000.
Definition GENERIC_ALL : Z := 0x10000000.
Definition WRITE_ACCESS : Z := Z.lor (Z.lor FILE_WRITE_DATA FILE_APPEND_DATA) GENERIC_WRITE.
Definition FILE_SUPERSEDED : Z := 0.
Definition FILE_OPENED : Z := 1.
Definition FILE_CREATED : Z := 2.
Definition FILE_OVERWRITTEN : Z := 3.

Definition is_write_open (access disposition : Z) : bool :=
  negb (Z.land access WRITE_ACCESS =? 0)
  || existsb (Z.eqb disposition) [FILE_SUPERSEDE; FILE_CREATE; FILE_OPEN_IF; FILE_OVERWRITE; FILE_OVERWRITE_IF].

Definition is_append_only (access : Z) : bool :=
  negb (Z.land access FILE_APPEND_DATA =? 0)
  && (Z.land access (Z.lor FILE_WRITE_DATA GENERIC_WRITE) =? 0).

Definition open_create_flags (disposition : Z) : Z :=
  if (disposition =? FILE_SUPERSEDE) || (disposition =? FILE_OVERWRITE_IF) then Z.lor OPEN_CREATE OPEN_TRUNC
  else if disposition =? FILE_CREATE then Z.lor OPEN_CREATE OPEN_EXCL
  else if disposition =? FILE_OPEN_IF then OPEN_CREATE
  else if disposition =? FILE_OVERWRITE then OPEN_TRUNC
  else 0.

Definition dir_open_downgrades (disposition : Z) : bool :=
  (disposition =? FILE_OPEN) || (disposition =? FILE_OPEN_IF).

Definition disposition_needs_existence_probe (disposition : Z) : bool :=
  (disposition =? FILE_SUPERSEDE) || (disposition =? FILE_OPEN_IF) || (disposition =? FILE_OVERWRITE_IF).

Definition disposition_information (disposition : Z) (existed_before : bool) : Z :=
  if disposition =? FILE_SUPERSEDE then if existed_before then FILE_SUPERSEDED else FILE_CREATED
  else if disposition =? FILE_CREATE then FILE_CREATED
  else if disposition =? FILE_OPEN_IF then if existed_before then FILE_OPENED else FILE_CREATED
  else if disposition =? FILE_OVERWRITE then FILE_OVERWRITTEN
  else if disposition =? FILE_OVERWRITE_IF then if existed_before then FILE_OVERWRITTEN else FILE_CREATED
  else FILE_OPENED.

(** ** objname.rs *)

(** ["\??\"], ["\\?\"] and ["\Device\"]. *)
Definition NT_PREFIX : str := lit "\??\".
Definition WIN32_PREFIX : str := lit "\\?\".
Definition DEVICE_PREFIX : str := lit "\Device\".

(** [dos]: the virtual path with no NT prefix. *)
Definition dos_part (vpath : str) : str :=
  match strip_prefix NT_PREFIX vpath with
  | Some r => r
  | None => default vpath (strip_prefix WIN32_PREFIX vpath)
  end.

Definition ascii_alphabetic (c : Z) : bool :=
  (65 <=? c) && (c <=? 90) || (97 <=? c) && (c <=? 122).

(** The bytes [b] looks at are ASCII when they match, so the characters at
    their places are the same. *)
Definition is_drive_path (dos : str) : bool :=
  match dos with
  | l :: colon :: rest =>
      ascii_alphabetic l && (colon =? 58)
      && match rest with c :: _ => c =? 92 | [] => true end
  | _ => false
  end.

Definition spoofed_object_name (real vpath : str) (device_of : str → option str) : option str :=
  let dos := dos_part vpath in
  if negb (is_drive_path dos) then None
  else if starts_with NT_PREFIX real then Some (NT_PREFIX ++ dos)
  else if starts_with DEVICE_PREFIX real then
    dev ← device_of (take 2 dos);
    Some (dev ++ drop 2 dos)
  else None.

Definition OBJECT_NAME_INFORMATION_HEADER : Z := 16.
Record ObjectNameReply := mkObjectNameReply { on_required : Z; on_fit : Fit }.

(** [buffer_addr.wrapping_add(16)], and the name with its NUL. *)
Definition fill_object_name (units : list Z) (buf : bytes) (buffer_addr required : Z) : option bytes :=
  let name_bytes := len units * 2 in
  b ← put_u16 buf 0 name_bytes;
  b ← put_u16 b 2 (name_bytes + 2);
  b ← slice_zero b 4 4;
  b ← put_u64 b 8 (as_u64 (buffer_addr + OBJECT_NAME_INFORMATION_HEADER));
  b ← put_units b OBJECT_NAME_INFORMATION_HEADER units;
  slice_zero b (OBJECT_NAME_INFORMATION_HEADER + name_bytes)
    (required - OBJECT_NAME_INFORMATION_HEADER - name_bytes).

Definition put_object_name (name : str) (buf : bytes) (buffer_addr : Z) : option (bytes * option ObjectNameReply) :=
  let units := encode_utf16 name in
  let name_bytes := len units * 2 in
  if name_bytes + 2 >? 65535 then Some (buf, None) else
  let required := OBJECT_NAME_INFORMATION_HEADER + name_bytes + 2 in
  let fit :=
    if len buf <? OBJECT_NAME_INFORMATION_HEADER then Mismatch
    else if len buf <? required then Overflow else Fits in
  b ← (if bool_decide (fit = Fits) then fill_object_name units buf buffer_addr required else Some buf);
  Some (b, Some (mkObjectNameReply required fit)).

(** ** rename.rs *)

Record RenameTarget := mkRenameTarget { rt_root_dir : Z; rt_name : str }.

Definition parse_rename_info (b : bytes) : option RenameTarget :=
  if len b <? 20 then None else
  let root_dir := u64_at b 8 in
  let namelen := u32_at b 16 in
  if 20 + namelen >? len b then None else
  Some (mkRenameTarget root_dir (read_name (mem_get b 20 namelen))).
