(* ===== verification/NtDir.v ===== *)
(** NtDir: directory listings read back as a program reads them
    (rust/crates/vfs-ntlayout/src/dirinfo.rs).

    The reader follows [NextEntryOffset] from the start of the buffer to the
    record whose offset is zero, taking the fields at the offsets of the
    class, as [FindNextFile] does.  What it reads of a written buffer is the
    longest prefix of the items whose records fit. *)

From S2P Require Import Prelude Text Path Seg NtBuf Provider NtLayout.

(** ** What a caller reads *)

(** An entry as the class carries it. *)
Record Shown := mkShown {
  sh_name : str;
  sh_meta : option (bool * Z * Z) (* directory, size, write time *) }.

Definition shown (class : DirInfoClass) (it : DirItem) : Shown :=
  mkShown (di_name it)
    (if has_metadata class then Some (di_is_dir it, di_size it, filetime_of (di_mtime it)) else None).

(** The fields of the record at [off]. *)
Definition read_fields (class : DirInfoClass) (b : bytes) (off : Z) : Shown :=
  mkShown (read_name (mem_get b (off + name_offset class) (u32_at b (off + name_len_offset class))))
    (if has_metadata class
     then Some (negb (Z.land (u32_at b (off + 56)) FILE_ATTRIBUTE_DIRECTORY =? 0),
                u64_at b (off + 40), i64_at b (off + 24))
     else None).

(** [None]: the chain is longer than [n] records or leaves the buffer. *)
Fixpoint read_chain (n : nat) (class : DirInfoClass) (b : bytes) (off : Z) : option (list Shown) :=
  match n with
  | O => None
  | S n =>
      if len b <? off + name_offset class then None else
      let next := u32_at b off in
      if next =? 0 then Some [read_fields class b off]
      else cons (read_fields class b off) <$> read_chain n class b (off + next)
  end.

(** ** Sizes *)

Definition record_len (class : DirInfoClass) (it : DirItem) : Z :=
  name_offset class + 2 * utf16_len (di_name it).

(** A record padded to 8 bytes. *)
Definition step (class : DirInfoClass) (it : DirItem) : Z := 8 * ((record_len class it + 7) / 8).

(** Bytes a listing of [items] takes: every record but the last is padded
    to 8 bytes. *)
Fixpoint listing_len (class : DirInfoClass) (items : list DirItem) : Z :=
  match items with
  | [] => 0
  | [it] => record_len class it
  | it :: items => step class it + listing_len class items
  end.

Definition item_ok (it : DirItem) : Prop :=
  valid_str (di_name it) ∧ in_u64 (di_size it) ∧ in_i64 (di_mtime it).

Lemma dir_align8_spec n : align8 n = 8 * ((n + 7) / 8).
Proof.
  unfold align8. change 7 with (Z.ones 3) at 2. rewrite <- Z.ldiff_land.
  rewrite Z.ldiff_ones_r by lia. rewrite Z.shiftl_mul_pow2, Z.shiftr_div_pow2 by lia.
  change (2 ^ 3) with 8. lia.
Qed.

Lemma record_len_ge class it : 12 ≤ record_len class it.
Proof.
  pose proof (utf16_len_nonneg (di_name it)). unfold record_len. destruct class; cbn [name_offset]; lia.
Qed.

Lemma filetime_of_range t : in_i64 t → in_i64 (filetime_of t) ∧ 0 < filetime_of t.
Proof.
  unfold in_i64, filetime_of, checked_i64, SYNTH_FILETIME, UNIX_EPOCH_IN_FILETIME_SECS. intros H.
  destruct (Z.leb_spec t 0); [lia|]. simpl.
  repeat (case_match; simplify_option_eq); lia.
Qed.

Lemma listing_len_nonneg class items : 0 ≤ listing_len class items.
Proof.
  induction items as [|it items IH]; [done|]. pose proof (record_len_ge class it).
  cbn [listing_len]. destruct items; [lia|]. unfold step. dlia.
Qed.

Lemma listing_len_cons class it d l :
  listing_len class (it :: d :: l) = step class it + listing_len class (d :: l).
Proof. done. Qed.

(** ** One record *)

(** A record's bytes: the header with the metadata, then the name. *)
Definition metadata (class : DirInfoClass) (it : DirItem) : bytes :=
  let z := replicate (Z.to_nat (name_offset class)) 0 in
  let t := to_le 8 (filetime_of (di_mtime it)) in
  if has_metadata class then
    mem_put (mem_put (mem_put (mem_put (mem_put (mem_put (mem_put z 8 t) 16 t) 24 t) 32 t)
      40 (to_le 8 (di_size it))) 48 (to_le 8 (di_size it))) 56 (to_le 4 (attributes (di_is_dir it)))
  else z.
Definition header (class : DirInfoClass) (it : DirItem) : bytes :=
  mem_put (metadata class it) (name_len_offset class) (to_le 4 (2 * utf16_len (di_name it))).

Definition record (class : DirInfoClass) (it : DirItem) : bytes := header class it ++ utf16le (di_name it).

Lemma metadata_len class it : len (metadata class it) = name_offset class.
Proof. unfold metadata. destruct class; cbn [name_offset has_metadata]; len_solve. Qed.

Lemma header_len class it : len (header class it) = name_offset class.
Proof.
  unfold header. pose proof (metadata_len class it) as E.
  rewrite mem_put_len; rewrite ?len_to_le, ?E; destruct class; simpl; lia.
Qed.

Lemma record_len_eq class it : len (record class it) = record_len class it.
Proof. unfold record. rewrite len_app, header_len, utf16le_len. done. Qed.

Lemma as_u32_small x : in_u32 x → as_u32 x = x.
Proof. unfold as_u32, in_u32. intros. by apply Z.mod_small. Qed.

(** A region of the buffer, to be rewritten in pieces. *)
Lemma region_split b off n m :
  0 ≤ off → 0 ≤ n → 0 ≤ m → off + (n + m) ≤ len b →
  ∃ h t, len h = n ∧ len t = m ∧ b = mem_put b off (h ++ t).
Proof.
  intros. exists (mem_get b off n), (mem_get b (off + n) m).
  rewrite !mem_get_len by lia. split_and!; [done..|].
  rewrite <- (mem_put_get b off (n + m)) at 1 by lia. f_equal.
  unfold mem_get. rewrite !Z2Nat.inj_add, <- drop_drop by lia. by rewrite take_take_drop.
Qed.

Lemma write_record_ok class it off buf :
  0 ≤ off → off + record_len class it ≤ len buf → len buf < u32_max →
  write_record class it off buf = Some (mem_put buf off (record class it)).
Proof.
  intros Hoff Hfit Hbuf. pose proof (utf16_len_nonneg (di_name it)) as Hn.
  unfold record_len in Hfit. assert (0 < name_offset class) as Hno by (destruct class; simpl; lia).
  destruct (region_split buf off (name_offset class) (2 * utf16_len (di_name it)))
    as (h & t & Hh & Ht & E); [lia..|].
  assert (∀ x o d, len x = name_offset class → 0 ≤ o → o + len d ≤ name_offset class →
    slice_put (mem_put buf off (x ++ t)) (off + o) d = Some (mem_put buf off (mem_put x o d ++ t))) as W.
  { intros x o d Hx ??. rewrite slice_put_in, mem_put_app_l by (rewrite ?len_app; lia). done. }
  assert (mem_put h 0 (replicate (Z.to_nat (name_offset class)) 0)
    = replicate (Z.to_nat (name_offset class)) 0) as Ez by (apply mem_put_all; len_solve).
  unfold write_record, slice_zero. rewrite E at 1. rewrite <- (Z.add_0_r off) at 2.
  rewrite (W h 0) by (rewrite ?len_replicate; lia).
  cbn [mbind option_bind]. rewrite Ez.
  assert (write_metadata class it off
      (mem_put buf off (replicate (Z.to_nat (name_offset class)) 0 ++ t)) =
    Some (mem_put buf off (metadata class it ++ t))) as ->.
  { unfold write_metadata, metadata, put_u64, put_u32.
    destruct class; cbn [has_metadata negb put_times mbind option_bind name_offset] in *; [| | |done| |]; unfold put_u64;
    repeat (rewrite W by len_solve; cbn [mbind option_bind]). all: done. }
  cbn [mbind option_bind]. unfold put_u32.
  rewrite encode_utf16_len, (Z.mul_comm _ 2), as_u32_small by (unfold in_u32; lia).
  rewrite W by (rewrite ?metadata_len, ?len_to_le; destruct class; simpl in *; lia).
  cbn [mbind option_bind]. fold (header class it). fold (utf16le (di_name it)).
  rewrite slice_put_in by (rewrite ?len_app, ?header_len, ?utf16le_len; lia).
  rewrite <- (header_len class it) at 1. by rewrite mem_put_app_r by (rewrite utf16le_len; lia).
Qed.

Ltac fields := unfold u32_at, u64_at, i64_at, u64_at; read_field.

(** The record of [it] at [off], but for its [NextEntryOffset]. *)
Definition holds_record (class : DirInfoClass) (b : bytes) (off : Z) (it : DirItem) : Prop :=
  ∀ o n, 4 ≤ o → 0 ≤ n → o + n ≤ record_len class it →
    mem_get b (off + o) n = mem_get (record class it) o n.

Lemma i64_of_le x : in_i64 x → as_i64 (from_le (to_le 8 x)) = x.
Proof.
  unfold in_i64. intros. rewrite from_to_le. change (256 ^ Z.of_nat 8) with u64_max.
  unfold as_i64, u64_max. rewrite Z.mod_mod by lia. destruct (decide (0 ≤ x)).
  - rewrite Z.mod_small by lia. case_match; lia.
  - rewrite <- (Z_mod_plus_full x 1 (2 ^ 64)), Z.mod_small by lia. case_match; lia.
Qed.

(** The fields of a record, read back. *)
Lemma read_fields_ok class b off it :
  item_ok it → 2 * utf16_len (di_name it) < u32_max → holds_record class b off it →
  read_fields class b off = shown class it.
Proof.
  intros (Hv & Hs & Ht) Hn H. pose proof (utf16_len_nonneg (di_name it)).
  assert (∀ o n, 4 ≤ o → 0 ≤ n → o + n ≤ name_offset class →
    mem_get b (off + o) n = mem_get (header class it) o n) as Hh.
  { intros. rewrite H by (unfold record_len; lia). unfold record.
    rewrite mem_get_app_l by (rewrite ?header_len; lia). done. }
  assert (u32_at b (off + name_len_offset class) = 2 * utf16_len (di_name it)) as El.
  { unfold u32_at, header in *. rewrite Hh by (destruct class; simpl; lia).
    rewrite (mem_get_put_same _ _ (to_le 4 _))
      by (rewrite ?metadata_len, ?len_to_le; destruct class; simpl; lia).
    apply from_to_le_small. unfold u32_max in Hn. lia. }
  unfold read_fields, shown. rewrite El.
  rewrite H by (unfold record_len; destruct class; simpl; lia). unfold record.
  rewrite <- (header_len class it) at 1. rewrite mem_get_app_r, read_name_utf16le by (rewrite ?utf16le_len; done).
  f_equal. destruct (has_metadata class) eqn:Em; [|done].
  destruct (filetime_of_range (di_mtime it) Ht) as [Hf _].
  assert (∀ o n, 4 ≤ o → 0 ≤ n → o + n ≤ 60 →
    mem_get b (off + o) n = mem_get (metadata class it) o n) as Hm.
  { intros. rewrite Hh by (destruct class; simpl in *; lia). unfold header.
    rewrite mem_get_put_other by (rewrite ?metadata_len, ?len_to_le; destruct class; simpl in *; lia).
    done. }
  unfold u32_at, i64_at, u64_at. rewrite !Hm by lia. unfold metadata. rewrite Em.
  assert (64 ≤ name_offset class) by (destruct class; simpl in *; done || lia).
  pose proof (len_replicate (Z.to_nat (name_offset class)) 0) as Hz.
  rewrite Z2Nat.id in Hz by lia. clear Hm Hh H El.
  set (z := replicate _ 0) in *. clearbody z. do 3 f_equal.
  - read_field.
    rewrite from_to_le_small by (unfold attributes; destruct (di_is_dir it); done).
    by destruct (di_is_dir it).
  - read_field. by apply from_to_le_small.
  - read_field. by apply i64_of_le.
Qed.

(** ** The chain of records *)

Lemma step_ge class it : record_len class it ≤ step class it < record_len class it + 8.
Proof. unfold step. dlia. Qed.

(** Records of [items] from [off] on, linked, the last one ending the chain. *)
Fixpoint Chain (class : DirInfoClass) (b : bytes) (off : Z) (items : list DirItem) : Prop :=
  match items with
  | [] => True
  | it :: items =>
      holds_record class b off it ∧ off + record_len class it ≤ len b ∧
      u32_at b off = (match items with [] => 0 | _ => step class it end) ∧
      Chain class b (off + step class it) items
  end.

(** The items whose records fit. *)
Fixpoint fit_from (class : DirInfoClass) (single : bool) (cap off : Z) (items : list DirItem) : list DirItem :=
  match items with
  | [] => []
  | it :: items =>
      if off + record_len class it >? cap then []
      else if single then [it]
      else it :: fit_from class single cap (off + step class it) items
  end.

(** A read before [off] and clear of the link field at [prev]. *)
Definition clear_of (prev : option Z) (o n : Z) : Prop :=
  match prev with Some p => o + n ≤ p ∨ p + 4 ≤ o | None => True end.

Definition prev_ok (prev : option Z) (off : Z) : Prop :=
  match prev with Some p => 0 ≤ p ∧ p + 4 ≤ off | None => True end.

Definition linked (b : bytes) (prev : option Z) (off : Z) : Prop :=
  match prev with Some p => u32_at b p = off - p | None => True end.

(** One round of the loop. *)
Lemma round_ok class it off prev buf :
  0 ≤ off → off + record_len class it ≤ len buf → len buf < u32_max → prev_ok prev off →
  ∃ b, (b1 ← write_record class it off buf; link_prev prev off b1) = Some b ∧
    len b = len buf ∧ mem_get b off (record_len class it) = record class it ∧ linked b prev off ∧
    (∀ o n, 0 ≤ o → 0 ≤ n → o + n ≤ off → clear_of prev o n → mem_get b o n = mem_get buf o n) ∧
    (∀ o n, 0 ≤ n → off + record_len class it ≤ o → mem_get b o n = mem_get buf o n).
Proof.
  intros Hoff Hfit Hbuf Hp. pose proof (record_len_eq class it) as El.
  pose proof (record_len_ge class it).
  rewrite write_record_ok by done. cbn [mbind option_bind].
  assert (len (mem_put buf off (record class it)) = len buf) as Eb by (apply mem_put_len; lia).
  destruct prev as [p|]; cbn [link_prev prev_ok linked clear_of] in *.
  - unfold put_u32. rewrite slice_put_ok by (rewrite ?len_to_le; lia).
    eexists; split_and!; [done|..].
    + rewrite mem_put_len; rewrite ?len_to_le; lia.
    + rewrite mem_get_put_other by (rewrite ?len_to_le; lia).
      rewrite <- El. apply mem_get_put_same; lia.
    + unfold u32_at. rewrite mem_get_put_le by (reflexivity || lia).
      rewrite from_to_le_small; [apply as_u32_small|change (256 ^ Z.of_nat 4) with u32_max; unfold as_u32];
        unfold in_u32, u32_max in *; dlia.
    + intros. rewrite !mem_get_put_other by (rewrite ?len_to_le; lia). done.
    + intros. rewrite !mem_get_put_other by (rewrite ?len_to_le; lia). done.
  - eexists; split_and!; [done|done| |done| |].
    + rewrite <- El. apply mem_get_put_same; lia.
    + intros. rewrite !mem_get_put_other by lia. done.
    + intros. rewrite !mem_get_put_other by lia. done.
Qed.

Lemma record_next class it : mem_get (record class it) 0 4 = [0; 0; 0; 0].
Proof.
  unfold record. rewrite mem_get_app_l by (rewrite ?header_len; destruct class; simpl; lia).
  unfold header. rewrite mem_get_put_other
    by (rewrite ?metadata_len, ?len_to_le; destruct class; simpl; lia).
  unfold metadata.
  destruct class; cbn [has_metadata name_offset]; read_field; reflexivity.
Qed.

Lemma holds_record_at class it b off :
  0 ≤ off → mem_get b off (record_len class it) = record class it →
  holds_record class b off it ∧ u32_at b off = 0.
Proof.
  intros Hoff E. pose proof (record_len_ge class it). split.
  - intros o n ???. rewrite <- E, mem_get_get by lia. done.
  - unfold u32_at. rewrite <- (Z.add_0_r off), <- (mem_get_get b off (record_len class it)) by lia.
    by rewrite E, record_next.
Qed.

(** The loop writes the items that fit, and nothing else of the buffer. *)
Lemma dir_loop_ok class single items buf off count prev last_end :
  0 ≤ off → len buf < u32_max → prev_ok prev off →
  let k := fit_from class single (len buf) off items in
  ∃ b, dir_loop class single items buf off count prev last_end
      = Some (b, match k with [] => last_end | _ => off + listing_len class k end, count + len k) ∧
    len b = len buf ∧ (k = [] → b = buf) ∧ (k ≠ [] → linked b prev off) ∧ Chain class b off k ∧
    (∀ o n, 0 ≤ o → 0 ≤ n → o + n ≤ off → clear_of prev o n → mem_get b o n = mem_get buf o n) ∧
    (∀ o n, 0 ≤ n → off + listing_len class k ≤ o → mem_get b o n = mem_get buf o n).
Proof.
  intros Hoff Hbuf. revert buf off count prev last_end Hoff Hbuf.
  induction items as [|it items IH]; intros buf off count prev last_end Hoff Hbuf Hp k; subst k.
  { eexists. cbn [dir_loop fit_from]. rewrite len_nil, Z.add_0_r. by split_and!. }
  cbn [dir_loop fit_from]. rewrite encode_utf16_len.
  replace (name_offset class + utf16_len (di_name it) * 2) with (record_len class it)
    by (unfold record_len; lia).
  destruct (Z.gtb_spec (off + record_len class it) (len buf)) as [Hno|Hfit].
  { eexists. rewrite len_nil, Z.add_0_r. by split_and!. }
  destruct (round_ok class it off prev buf) as (b & Eb & Hlen & Hrec & Hlink & Hlo & Hhi); [done..|].
  destruct (write_record class it off buf) as [b1|]; [|done]. cbn [mbind option_bind] in *.
  rewrite Eb. cbn [mbind option_bind].
  destruct (holds_record_at class it b off Hoff Hrec) as [Hholds Hzero].
  destruct single.
  { exists b. rewrite len_cons, len_nil. cbn [Chain listing_len]. rewrite Hlen. by split_and!. }
  pose proof (step_ge class it). pose proof (record_len_ge class it).
  destruct (IH b (off + step class it) (count + 1) (Some off) (off + record_len class it))
    as (b' & Eb' & Hlen' & Hnil & Hlink' & Hchain & Hlo' & Hhi'); [lia|lia|cbn; lia|].
  rewrite Hlen in *. rewrite dir_align8_spec. fold (step class it). rewrite Eb'.
  set (k := fit_from class false (len buf) (off + step class it) items) in *.
  exists b'. cbn [linked clear_of] in *. split_and!; [|done|done|..].
  - rewrite len_cons. f_equal. f_equal; [|lia]. f_equal. destruct k; [done|]. rewrite listing_len_cons. lia.
  - intros _. destruct prev as [p|]; [|done]. cbn [linked prev_ok] in *. unfold u32_at in *.
    rewrite Hlo' by lia. done.
  - split_and!; [|lia| |done].
    + intros o n ???. rewrite <- Hholds, Hlo' by lia. done.
    + destruct k; [by rewrite Hnil|]. rewrite Hlink' by done. lia.
  - intros. rewrite Hlo' by lia. auto.
  - intros o n ? Ho. destruct k as [|d k]; [rewrite Hnil by done; auto|].
    rewrite listing_len_cons in Ho. rewrite Hhi' by lia. apply Hhi; [done|].
    pose proof (listing_len_nonneg class (d :: k)). lia.
Qed.

(** ** The listing as a whole *)

Lemma chain_read class b off k :
  0 ≤ off → len b < u32_max → Forall item_ok k → k ≠ [] → Chain class b off k →
  read_chain (length k) class b off = Some (shown class <$> k).
Proof.
  revert off. induction k as [|it k IH]; intros off Hoff Hb Hk Hne Hc; [done|].
  apply Forall_cons in Hk as [Hit Hk]. destruct Hc as (Hrec & Hfit & Hnext & Hc).
  pose proof (record_len_ge class it). pose proof (step_ge class it).
  pose proof (utf16_len_nonneg (di_name it)). cbn [length read_chain fmap list_fmap].
  assert (name_offset class ≤ record_len class it) by (unfold record_len; lia).
  assert (0 ≤ name_offset class) by (destruct class; simpl; lia).
  destruct (Z.ltb_spec (len b) (off + name_offset class)); [lia|].
  rewrite Hnext, (read_fields_ok class b off it) by (try done; unfold record_len in *; lia).
  destruct k as [|d k]; [done|]. bdecide.
  destruct (Z.eqb_spec (step class it) 0); [lia|]. rewrite IH by (done || lia). done.
Qed.

Lemma fit_from_take class single cap off items :
  let k := length (fit_from class single cap off items) in
  fit_from class single cap off items = take k items ∧ (k ≤ length items)%nat ∧
  (single = true → (k ≤ 1)%nat) ∧
  ∀ j, (0 < j ≤ length items)%nat → (single = true → (j ≤ 1)%nat) →
    off + listing_len class (take j items) ≤ cap ↔ (j ≤ k)%nat.
Proof.
  revert off. induction items as [|it items IH]; intros off k; subst k.
  { cbn. split_and!; [done|lia|lia|]. intros j [? ?]. lia. }
  pose proof (step_ge class it). cbn [fit_from].
  destruct (Z.gtb_spec (off + record_len class it) cap) as [Hno|Hfit].
  { cbn [length take]. split_and!; [done|lia|lia|]. intros j ? _. split; [|lia]. intros Hj.
    destruct j as [|j]; [lia|]. cbn [take] in Hj. destruct (take j items) as [|d l] eqn:E.
    { cbn in Hj. lia. }
    rewrite listing_len_cons in Hj. pose proof (listing_len_nonneg class (d :: l)). lia. }
  destruct single.
  { cbn [length take]. split_and!; [done|lia|lia|]. intros j ? Hj.
    assert (j = 1%nat) as -> by (specialize (Hj eq_refl); lia). cbn [take listing_len]. split; [lia|done]. }
  destruct (IH (off + step class it)) as (E & Hl & _ & Hj). cbn [length take].
  split_and!; [by rewrite <- E|lia|done|].
  intros [|[|j]] Hr _; [lia|cbn [take]|].
  { rewrite (take_0 items : take O items = []). cbn [listing_len]. split; lia. }
  specialize (Hj (S j)). cbn [take] in *.
  destruct items as [|d items]; [cbn in Hr; lia|]. cbn [take] in *. rewrite listing_len_cons.
  cbn [length] in *. rewrite <- Z.add_assoc in Hj. split; intros; [apply le_n_S, Hj|apply Hj]; try lia; done.
Qed.

(** C35: a directory listing written into a buffer reads back. For
    every information class and any buffer under 4 GiB, the writer does not
    run out of the buffer; a reader that follows the chain of records finds
    exactly the names, kinds, sizes and times of the first [k] items, with
    [k] the most whose records fit (one at most for a single-entry query),
    the chain ends there, nothing past the reported length is touched, and
    the status tells an empty directory from a buffer too small for its
    first entry. *)
Theorem dir_listing_reads_back (class : DirInfoClass) (items : list DirItem) (buf : bytes) (single : bool) :
  Forall item_ok items → len buf < u32_max →
  ∃ b r k, write_dir_info class items buf single = Some (b, r) ∧
    len b = len buf ∧ (k ≤ length items)%nat ∧ (single = true → (k ≤ 1)%nat) ∧
    dw_count r = Z.of_nat k ∧ dw_bytes r = listing_len class (take k items) ∧ dw_bytes r ≤ len buf ∧
    drop (Z.to_nat (dw_bytes r)) b = drop (Z.to_nat (dw_bytes r)) buf ∧
    ((0 < k)%nat → read_chain k class b 0 = Some (shown class <$> take k items)) ∧
    (∀ j, (0 < j ≤ length items)%nat → (single = true → (j ≤ 1)%nat) →
       listing_len class (take j items) ≤ len buf ↔ (j ≤ k)%nat) ∧
    dw_status r = (if decide (0 < k)%nat then DSuccess
                   else if items is [] then DNoMoreFiles else DBufferOverflow).
Proof.
  intros Hitems Hbuf.
  destruct (dir_loop_ok class single items buf 0 0 None 0) as (b & E & Hlen & _ & _ & Hc & _ & Hhi); [done..|].
  destruct (fit_from_take class single (len buf) 0 items) as (Ek & Hk & Hs & Hj).
  set (l := fit_from class single (len buf) 0 items) in *.
  unfold write_dir_info. rewrite E. cbn [mbind option_bind].
  assert (match l with [] => 0 | _ => 0 + listing_len class l end = listing_len class l) as -> by (by destruct l).
  exists b. eexists. exists (length l). split; [done|]. cbn [dw_bytes dw_count dw_status]. rewrite <- Ek.
  split_and!; [done|done|done|by unfold len|done| | | |exact Hj|].
  - destruct l as [|d l'] eqn:El; [apply len_nonneg|]. rewrite Ek. apply Hj; [|done|done].
    cbn [length] in *. lia.
  - specialize (Hhi (listing_len class l) (len buf) (len_nonneg _) ltac:(lia)). unfold mem_get in Hhi.
    rewrite !take_ge in Hhi; [done|rewrite length_drop; unfold len in *; lia..].
  - intros Hl. apply chain_read; [lia|lia| | |done].
    + rewrite Ek. by apply Forall_take.
    + by destruct l; [simpl in Hl; lia|].
  - by destruct l.
Qed.

(** ** A listing of two entries *)

Module DirDemo.
Definition items : list DirItem :=
  [mkDirItem (lit "a.esp") false 5 1791062025; mkDirItem (lit "sub") true 0 0].
Definition buf : bytes := replicate 200 170.

Lemma items_ok : Forall item_ok items.
Proof.
  repeat constructor; try (by apply valid_strb; vm_compute); unfold u64_max; cbn; lia.
Qed.
End DirDemo.

Lemma dir_listing_reads_back_witness :
  ∃ b r, write_dir_info FullDirectory DirDemo.items DirDemo.buf false = Some (b, r) ∧
    read_chain 2 FullDirectory b 0 =
      Some [mkShown (lit "a.esp") (Some (false, 5, 134355356250000000));
            mkShown (lit "sub") (Some (true, 0, SYNTH_FILETIME))].
Proof.
  destruct (dir_listing_reads_back FullDirectory DirDemo.items DirDemo.buf false DirDemo.items_ok eq_refl)
    as (b & r & k & E & _ & Hk & _ & _ & _ & _ & _ & Hr & Hmax & _).
  exists b, r. split; [exact E|].
  assert (2 ≤ k)%nat as H2.
  { apply Hmax; [simpl; lia|done|]. vm_compute. discriminate. }
  assert (k = 2%nat) as -> by (simpl in Hk; lia). rewrite Hr by lia. reflexivity.
Defined.
