(* ===== verification/NtProps.v ===== *)
(** NtProps: what the file-information answers, the open dispositions and
    the names mean to the program that reads them
    (rust/crates/vfs-ntlayout/src/info.rs, disposition.rs, objname.rs,
    rename.rs). *)

From S2P Require Import Prelude Text Path Provider Memory MemoryProps Seg NtBuf NtLayout NtDir.

(** ** Stat by path *)

(** Where a class keeps its attributes, its end of file and its directory
    flag. *)
Definition attrs_offset (class_raw : Z) : option Z :=
  if class_raw =? CLASS_BASIC then Some 32
  else if class_raw =? CLASS_STANDARD then None
  else if class_raw =? CLASS_NETWORK_OPEN then Some 48
  else Some 56.
Definition eof_offset (class_raw : Z) : option Z :=
  if class_raw =? CLASS_BASIC then None
  else if class_raw =? CLASS_STANDARD then Some 8
  else if class_raw =? CLASS_NETWORK_OPEN then Some 40
  else Some 48.
Definition dir_offset (class_raw : Z) : option Z :=
  if class_raw =? CLASS_STANDARD then Some 21 else None.

Definition reads_stat (class_raw : Z) (b : bytes) (is_dir : bool) (size : Z) : Prop :=
  (∀ o, attrs_offset class_raw = Some o → u32_at b o = attributes is_dir) ∧
  (∀ o, eof_offset class_raw = Some o → u64_at b o = size) ∧
  (∀ o, dir_offset class_raw = Some o → mem_get b o 1 = [Z.b2z is_dir]).

Lemma attributes_u32 d : from_le (to_le 4 (attributes d)) = attributes d.
Proof. by destruct d. Qed.

(** Run a sequence of writes whose offsets are constants. *)
Ltac puts :=
  unfold put_basic, put_standard, put_network_open, put_stat, slice_zero, put_u16, put_u32, put_u64;
  cbn [put_times mbind option_bind]; unfold put_u64;
  repeat (rewrite slice_put_ok by (len_solve || (unfold len in *; simpl; lia)); cbn [mbind option_bind]).

Lemma by_name_need_inv class_raw need :
  by_name_need class_raw = Some need →
  class_raw = CLASS_BASIC ∧ need = 40 ∨ class_raw = CLASS_STANDARD ∧ need = 24 ∨
  class_raw = CLASS_NETWORK_OPEN ∧ need = 56 ∨ class_raw = CLASS_STAT ∧ need = 72 ∨
  class_raw = CLASS_STAT_BASIC ∧ need = 104.
Proof.
  unfold by_name_need. intros H.
  repeat (case_match eqn:E; [apply Z.eqb_eq in E; injection H as <-; tauto|clear E]). done.
Qed.

Lemma by_name_fill_ok class_raw need z is_dir size :
  in_u64 size → by_name_need class_raw = Some need → len z = need →
  ∃ x, by_name_fill class_raw z is_dir size = Some x ∧ len x = need ∧ reads_stat class_raw x is_dir size.
Proof.
  intros Hs Hn Hz. assert (from_le (to_le 8 size) = size) as Es by (by apply from_to_le_small).
  apply by_name_need_inv in Hn. unfold by_name_fill, reads_stat.
  destruct_or! Hn; destruct Hn as [-> ->];
    cbn [Z.eqb Pos.eqb CLASS_BASIC CLASS_STANDARD CLASS_NETWORK_OPEN CLASS_STAT CLASS_STAT_BASIC];
    puts; eexists; (split; [done|]); (split; [len_solve|]);
    split_and!; intros o Ho; vm_compute in Ho; (discriminate Ho || injection Ho as <-); unfold u32_at, u64_at;
    read_field; first [done | apply attributes_u32 | apply (mem_get_put_same _ 21 [_]); len_solve].
Qed.

(** A stat by path writes the structure of its class, and only that. *)
Lemma by_name_info_ok class_raw need buf is_dir size :
  in_u64 size → by_name_need class_raw = Some need → need ≤ len buf →
  ∃ x, by_name_info class_raw buf is_dir size = Some (x ++ drop (Z.to_nat need) buf, Some need) ∧
    len x = need ∧ reads_stat class_raw x is_dir size.
Proof.
  intros Hs Hn Hl. assert (0 < need) by (apply by_name_need_inv in Hn; lia).
  destruct (by_name_fill_ok class_raw need (replicate (Z.to_nat need) 0) is_dir size)
    as (x & Ex & Hx & Hr); [done|done|len_solve|].
  exists x. split; [|done]. unfold by_name_info. rewrite Hn. bdecide. unfold in_slice, slice_zero.
  rewrite slice_put_ok by len_solve. rewrite mem_put_all by len_solve. cbn [mbind option_bind].
  rewrite Ex. cbn [mbind option_bind]. rewrite slice_put_ok by lia. cbn [mbind option_bind].
  unfold mem_put. rewrite Hx. done.
Qed.

Lemma reads_stat_app class_raw need x y is_dir size :
  by_name_need class_raw = Some need → len x = need →
  reads_stat class_raw x is_dir size → reads_stat class_raw (x ++ y) is_dir size.
Proof.
  intros Hn Hx (Ha & He & Hd). apply by_name_need_inv in Hn. unfold reads_stat, u32_at, u64_at in *.
  split_and!; intros o Ho; rewrite mem_get_app_l; auto;
    destruct_or! Hn; destruct Hn as [-> ->]; vm_compute in Ho; (discriminate Ho || injection Ho as <-); lia.
Qed.

(** Property: a stat by path tells every asker the same. For each class the
    shim answers, a buffer that holds the structure gets it, with the
    file's attributes, size and directory flag wherever the class has them,
    and nothing of the buffer past the structure changes; any other class,
    and any shorter buffer, is declined with the buffer untouched. *)
Theorem stat_by_name_agrees (class_raw : Z) (buf : bytes) (is_dir : bool) (size : Z) :
  in_u64 size →
  match by_name_need class_raw with
  | Some need =>
      if decide (need ≤ len buf) then
        ∃ b, by_name_info class_raw buf is_dir size = Some (b, Some need) ∧ len b = len buf ∧
          drop (Z.to_nat need) b = drop (Z.to_nat need) buf ∧ reads_stat class_raw b is_dir size
      else by_name_info class_raw buf is_dir size = Some (buf, None)
  | None => by_name_info class_raw buf is_dir size = Some (buf, None)
  end.
Proof.
  intros Hs. destruct (by_name_need class_raw) as [need|] eqn:Hn; [|unfold by_name_info; by rewrite Hn].
  case_decide as Hl; [|unfold by_name_info; rewrite Hn; by bdecide].
  destruct (by_name_info_ok class_raw need buf is_dir size) as (x & E & Hx & Hr); [done..|].
  eexists. split; [exact E|]. assert (0 < need) by (apply by_name_need_inv in Hn; lia).
  split_and!; [| |by eapply reads_stat_app].
  - rewrite len_app. unfold len in *. rewrite length_drop. lia.
  - rewrite drop_app_length'; [done|]. unfold len in Hx. lia.
Qed.

(** ** Opening with a disposition *)

(** What NT says an open of a file with contents [old] (or of none) does:
    the contents after it and the [Information] reported, or an error; a name
    collision is the status the hook turns into STATUS_OBJECT_NAME_COLLISION. *)
Definition nt_open (d : Z) (old : option bytes) : result Z (bytes * Z) :=
  match old with
  | Some c =>
      if d =? FILE_SUPERSEDE then Ok ([], FILE_SUPERSEDED)
      else if d =? FILE_OPEN then Ok (c, FILE_OPENED)
      else if d =? FILE_CREATE then Err ST_EXISTS
      else if d =? FILE_OPEN_IF then Ok (c, FILE_OPENED)
      else Ok ([], FILE_OVERWRITTEN)
  | None =>
      if (d =? FILE_OPEN) || (d =? FILE_OVERWRITE) then Err ST_NOT_FOUND else Ok ([], FILE_CREATED)
  end.

(** The memory provider has another status for a collision. *)
Definition memory_status (e : Z) : Z := if e =? ST_EXISTS then ST_BAD_REQUEST else e.

Section open.
Context {CT : CaseTable}.

Definition open_flags (d : Z) : Z := Z.lor OPEN_WRITE (open_create_flags d).

#[local] Ltac flag_tests :=
  repeat match goal with |- context [Z.land (open_flags ?k) ?f =? 0] =>
    let t := eval vm_compute in (Z.land (open_flags k) f =? 0) in
    change (Z.land (open_flags k) f =? 0) with t end.

(** The open's effect on the files, disposition by disposition. *)
Lemma open_path_disposition s p d :
0 ≤ d ≤ 5 →
let path := mem_resolve s (trim_rel (vp_rel p)) in
match nt_open d (m_files s !! path) with
| Err e => mem_open_path p (open_flags d) s = (Err (memory_status e), s)
| Ok (c, _) => ∃ s', mem_open_path p (open_flags d) s = (Ok (path, len c), s') ∧ m_opens s' = m_opens s ∧
    m_files s' = <[path := c]> (m_files s)
end.
Proof.
intros Hd path. unfold mem_open_path. fold path.
assert (d = 0 ∨ d = 1 ∨ d = 2 ∨ d = 3 ∨ d = 4 ∨ d = 5) as Hc by lia.
destruct (m_files s !! path) as [c|] eqn:E;
  [rewrite (bool_decide_true (is_Some (Some c))) by done|rewrite (bool_decide_false (is_Some None)) by (by intros [? ?])];
  destruct_or! Hc; subst d; flag_tests; cbn; rewrite ?lookup_insert_eq, ?E; try done;
  eexists; (split; [done|]); (split; [done|]); cbn; rewrite ?insert_insert_eq; try done.
all: by rewrite insert_id.
Qed.

(** C36: the six NT create dispositions over the in-memory provider. An open
    for writing with the flags the shim sends for a disposition succeeds
    exactly when NT's table says so; on success the handle holds the old
    contents or an empty file as the table has it, no other file changes, and
    the [Information] reported to the caller is the table's, needing the probe
    for existence only where it is made. Where the table has an error the open
    fails and leaves the provider as it was, with the table's status but in one
    case: for FILE_CREATE on a file that exists the provider answers
    [ST_BAD_REQUEST], not the [ST_EXISTS] of a name collision. *)
Theorem open_disposition_table (s : Memory) (p : VPath) (d : Z) :
0 ≤ d ≤ 5 → h_poisoned (m_opens s) = false →
let path := mem_resolve s (trim_rel (vp_rel p)) in
let old := m_files s !! path in
match nt_open d old with
| Err e => p_open memory p (open_flags d) s = (Err (memory_status e), s)
| Ok (c, info) => ∃ h s', p_open memory p (open_flags d) s = (Ok (h, len c, false), s') ∧
    file_of s' h = Some c ∧ (∀ k, k ≠ path → m_files s' !! k = m_files s !! k) ∧
    ∀ probe, (disposition_needs_existence_probe d = true → probe = bool_decide (is_Some old)) →
      disposition_information d probe = info
end.
Proof.
intros Hd Hp path old. pose proof (open_path_disposition s p d Hd) as H. cbv zeta in H. fold path in H. fold old in H.
cbn [memory p_open]. unfold mem_open, mbind, PM_bind.
destruct (nt_open d old) as [[c info]|e] eqn:En; [|by rewrite H].
destruct H as (s1 & -> & Eo & Ef). unfold mem_on_opens, zoom, table_insert. cbn [fresh].
rewrite Eo. cbn. rewrite Hp. cbn. do 2 eexists. split; [done|]. unfold file_of. cbn.
rewrite lookup_insert_eq. cbn. rewrite Ef, lookup_insert_eq. split_and!; [done|..].
- intros k Hk. by rewrite lookup_insert_ne.
- assert (d = 0 ∨ d = 1 ∨ d = 2 ∨ d = 3 ∨ d = 4 ∨ d = 5) as Hc by lia. intros probe Hprobe.
  destruct old as [c0|]; destruct_or! Hc; subst d; cbn in En; (discriminate En || injection En as <- <-);
  cbn in Hprobe; try (rewrite Hprobe by done); done.
Qed.
End open.

(** ** Names *)

Lemma put_units_ok b off us :
  0 ≤ off → off + 2 * len us ≤ len b → put_units b off us = Some (mem_put b off (units_le us)).
Proof.
  revert b off. induction us as [|u us IH]; intros b off Ho Hl; cbn [put_units].
  { by rewrite mem_put_nil. }
  rewrite len_cons in Hl. pose proof (len_nonneg us). unfold put_u16.
  rewrite slice_put_ok by len_solve. cbn [mbind option_bind]. rewrite IH by len_solve. f_equal.
  change (units_le (u :: us)) with (to_le 2 u ++ units_le us).
  rewrite <- mem_put_adjacent by len_solve. by rewrite len_to_le.
Qed.

Lemma fill_object_name_ok name buf addr n :
  valid_str name → n = utf16_len name * 2 → n + 2 ≤ 65535 → n + 18 ≤ len buf →
  ∃ b, fill_object_name (encode_utf16 name) buf addr (n + 18) = Some b ∧
    len b = len buf ∧ u16_at b 0 = n ∧ u16_at b 2 = n + 2 ∧ u64_at b 8 = as_u64 (addr + 16) ∧
    read_name (mem_get b 16 (u16_at b 0)) = name ∧ mem_get b (16 + n) 2 = [0; 0] ∧
    drop (Z.to_nat (n + 18)) b = drop (Z.to_nat (n + 18)) buf.
Proof.
  intros Hv En Hn Hl. pose proof (utf16_len_nonneg name). unfold fill_object_name.
  rewrite encode_utf16_len, <- En. unfold OBJECT_NAME_INFORMATION_HEADER.
  replace (n + 18 - 16 - n) with 2 by lia. puts.
  rewrite put_units_ok by len_solve. cbn [mbind option_bind]. fold (utf16le name).
  rewrite slice_put_ok by len_solve. eexists. split; [done|].
  assert (∀ b, len b = len buf →
    u16_at (mem_put (mem_put (mem_put (mem_put (mem_put (mem_put b 0 (to_le 2 n)) 2 (to_le 2 (n + 2)))
      4 (replicate (Z.to_nat 4) 0)) 8 (to_le 8 (as_u64 (addr + 16)))) 16 (utf16le name))
      (16 + n) (replicate (Z.to_nat 2) 0)) 0 = n) as E0.
  { intros b Hb. unfold u16_at. read_field. apply from_to_le_small. simpl. lia. }
  rewrite E0 by done. split_and!.
  - len_solve.
  - done.
  - unfold u16_at. read_field. apply from_to_le_small. simpl. lia.
  - unfold u64_at. read_field. apply from_to_le_small. unfold as_u64, u64_max. dlia.
  - rewrite mem_get_put_other by len_solve. rewrite mem_get_put_eq by len_solve. by apply read_name_utf16le.
  - apply (mem_get_put_same _ _ [0; 0]); len_solve.
  - apply list_eq. intros i. rewrite !lookup_drop.
    rewrite !lookup_mem_put by len_solve. autorewrite with vfs_len.
    repeat case_decide; lia || done.
Qed.

(** Property: the name of an object is answered by the contract of
    [NtQueryObject]. The size needed is always told; a buffer without room
    for the header, or for the whole answer, is told so with nothing
    written; a buffer with room gets the name, its two lengths, the address
    the name is at and the terminating NUL, and nothing more. A name no
    [UNICODE_STRING] can describe is declined. *)
Theorem object_name_contract (name : str) (buf : bytes) (addr : Z) :
  valid_str name →
  let n := 2 * utf16_len name in
  if decide (n + 2 ≤ 65535) then
    ∃ b fit, put_object_name name buf addr = Some (b, Some (mkObjectNameReply (n + 18) fit)) ∧
      fit = (if decide (len buf < 16) then Mismatch else if decide (len buf < n + 18) then Overflow else Fits) ∧
      (fit ≠ Fits → b = buf) ∧
      (fit = Fits → len b = len buf ∧ u16_at b 0 = n ∧ u16_at b 2 = n + 2 ∧ u64_at b 8 = as_u64 (addr + 16) ∧
         read_name (mem_get b 16 (u16_at b 0)) = name ∧ mem_get b (16 + n) 2 = [0; 0] ∧
         drop (Z.to_nat (n + 18)) b = drop (Z.to_nat (n + 18)) buf)
  else put_object_name name buf addr = Some (buf, None).
Proof.
  intros Hv n. pose proof (utf16_len_nonneg name). assert (n = utf16_len name * 2) as En by lia. clearbody n.
  unfold put_object_name. rewrite encode_utf16_len, <- En. unfold OBJECT_NAME_INFORMATION_HEADER.
  destruct (Z.gtb_spec (n + 2) 65535); [by rewrite decide_False by lia|rewrite decide_True by lia].
  replace (16 + n + 2) with (n + 18) by lia.
  destruct (Z.ltb_spec (len buf) 16) as [?|Hh]; [|destruct (Z.ltb_spec (len buf) (n + 18))].
  - do 2 eexists. split; [done|]. rewrite decide_True by done. by split_and!.
  - do 2 eexists. split; [done|]. rewrite decide_False, decide_True by lia. by split_and!.
  - rewrite bool_decide_true, !decide_False by (done || lia).
    destruct (fill_object_name_ok name buf addr n) as (b & -> & Hb); [done|lia..|].
    by exists b, Fits.
Qed.

(** A caller's [FILE_NAME_INFORMATION] holds the name's full length and as
    much of the name as fits, cut at a whole unit. *)
Theorem file_name_contract (name : str) (buf : bytes) :
  valid_str name → 2 * utf16_len name < u32_max →
  if decide (len buf < 8) then put_file_name name buf = Some (buf, (Mismatch, 0))
  else ∃ b n, put_file_name name buf = Some (b, (if decide (n = utf16_len name) then Fits else Overflow, 4 + 2 * n)) ∧
    len b = len buf ∧ u32_at b 0 = 2 * utf16_len name ∧
    n = Z.min (utf16_len name) ((len buf - 4) / 2) ∧
    chunks16 (mem_get b 4 (2 * n)) = take (Z.to_nat n) (encode_utf16 name) ∧
    (n = utf16_len name → read_name (mem_get b 4 (u32_at b 0)) = name).
Proof.
  intros Hv Hn. pose proof (utf16_len_nonneg name). unfold put_file_name. rewrite encode_utf16_len.
  case_decide as Hb; [by bdecide|]. destruct (Z.ltb_spec (len buf) 8); [lia|].
  rewrite (Z.mul_comm (utf16_len name)), as_u32_small by (unfold in_u32; lia).
  set (n := Z.min (utf16_len name) ((len buf - 4) / 2)). assert (0 ≤ n ≤ utf16_len name ∧ 4 + 2 * n ≤ len buf) by (subst n; dlia).
  assert (len (take (Z.to_nat n) (encode_utf16 name)) = n) as El.
  { pose proof (encode_utf16_len name). unfold len in *. rewrite length_take. lia. }
  unfold put_u32. rewrite slice_put_ok by len_solve. cbn [mbind option_bind].
  rewrite put_units_ok by len_solve. cbn [mbind option_bind]. eexists. exists n.
  assert (Forall (λ u, 0 ≤ u < u16_max) (take (Z.to_nat n) (encode_utf16 name))) as Hu
    by (by apply Forall_take, encode_utf16_units).
  assert (u32_at (mem_put (mem_put buf 0 (to_le 4 (2 * utf16_len name))) 4
      (units_le (take (Z.to_nat n) (encode_utf16 name)))) 0 = 2 * utf16_len name) as E0.
  { unfold u32_at. read_field. apply from_to_le_small. unfold u32_max in Hn. simpl. lia. }
  split_and!; [| |done|done| |].
  - do 3 f_equal; [|lia]. case_decide; [by rewrite (proj2 (Z.eqb_eq _ _))|by rewrite (proj2 (Z.eqb_neq _ _))].
  - len_solve.
  - rewrite mem_get_put_eq by (rewrite ?units_le_len; len_solve). by apply chunks16_units.
  - intros En. rewrite E0, mem_get_put_eq by (rewrite ?units_le_len; len_solve).
    unfold read_name. rewrite chunks16_units by done. rewrite take_ge.
    + by apply from_utf16_encode.
    + pose proof (encode_utf16_len name). unfold len in *. lia.
Qed.

(** A rename request's fields, at the front of a buffer. *)
Definition rename_request (flags : bytes) (root_dir : Z) (name : str) : bytes :=
  flags ++ to_le 8 root_dir ++ to_le 4 (2 * utf16_len name) ++ utf16le name.

Lemma rename_request_fields flags root_dir name y :
  len flags = 8 →
  let request := rename_request flags root_dir name in
  mem_get (request ++ y) 8 8 = to_le 8 root_dir ∧
  mem_get (request ++ y) 16 4 = to_le 4 (2 * utf16_len name) ∧
  mem_get (request ++ y) 20 (2 * utf16_len name) = utf16le name.
Proof.
  intros Hf request. subst request. unfold mem_get, rename_request. rewrite <- !app_assoc. split_and!.
  - rewrite drop_app_length' by (unfold len in Hf; lia). rewrite take_app_length'; [done|].
    by rewrite length_to_le.
  - rewrite (app_assoc flags). rewrite drop_app_length' by (rewrite length_app, length_to_le; unfold len in Hf; lia).
    rewrite take_app_length'; [done|]. by rewrite length_to_le.
  - rewrite (app_assoc flags), (app_assoc (flags ++ _)).
    rewrite drop_app_length' by (rewrite !length_app, !length_to_le; unfold len in Hf; lia).
    rewrite take_app_length'; [done|]. pose proof (utf16le_len name). unfold len in *. lia.
Qed.

(** Property: a rename request is understood as it was written. Of a
    [FILE_RENAME_INFORMATION] with any flags, target directory handle and
    valid name, whatever follows it in the buffer, the parser finds that
    handle and that name; and it finds a target only where the header and
    the whole declared name lie within the buffer. *)
Theorem rename_request_parsed (flags rest : bytes) (root_dir : Z) (name : str) :
  len flags = 8 → in_u64 root_dir → valid_str name → 2 * utf16_len name < u32_max →
  let request := rename_request flags root_dir name in
  parse_rename_info (request ++ rest) = Some (mkRenameTarget root_dir name) ∧
  ∀ m, (m < length request)%nat → parse_rename_info (take m request) = None.
Proof.
  intros Hf Hr Hv Hn request. pose proof (utf16_len_nonneg name).
  assert (len request = 20 + 2 * utf16_len name) as El
    by (subst request; unfold rename_request; len_solve).
  assert (∀ y, _) as Hg by (intros y; exact (rename_request_fields flags root_dir name y Hf)).
  cbv zeta in Hg. fold request in Hg.
  clearbody request. split.
  - destruct (Hg rest) as (E1 & E2 & E3). pose proof (len_nonneg rest).
    unfold parse_rename_info, u64_at, u32_at. rewrite E1, E2, !from_to_le_small by (unfold u32_max, in_u64, u64_max in *; simpl; lia). rewrite E3, len_app.
    destruct (Z.ltb_spec (len request + len rest) 20); [lia|].
    destruct (Z.gtb_spec (20 + 2 * utf16_len name) (len request + len rest)); [lia|].
    by rewrite read_name_utf16le.
  - intros m Hm. unfold parse_rename_info.
    assert (len (take m request) = Z.of_nat m) as Em by (unfold len; rewrite length_take; lia).
    rewrite Em. destruct (Z.ltb_spec (Z.of_nat m) 20); [done|].
    destruct (Hg []) as (_ & E2 & _). rewrite app_nil_r in E2. unfold u32_at.
    rewrite <- (take_drop m request), mem_get_app_l in E2 by lia. rewrite E2, from_to_le_small by (unfold u32_max in *; simpl; lia).
    unfold len in El. destruct (Z.gtb_spec (20 + 2 * utf16_len name) (Z.of_nat m)); [done|lia].
Qed.

(** Property: the name of a redirected handle never shows where the file
    really is. The host's own answer is looked at only for which of its two
    prefixes it has: two answers with the same prefix give the same name,
    and the name built is the virtual path's, under the host's prefix or
    under the device its own drive letter maps to. *)
Theorem object_name_hides_backing (real real' vpath : str) (device_of : str → option str) :
  starts_with NT_PREFIX real = starts_with NT_PREFIX real' →
  starts_with DEVICE_PREFIX real = starts_with DEVICE_PREFIX real' →
  spoofed_object_name real vpath device_of = spoofed_object_name real' vpath device_of ∧
  ∀ n, spoofed_object_name real vpath device_of = Some n →
    n = NT_PREFIX ++ dos_part vpath ∨
    ∃ drive rest dev, dos_part vpath = drive ++ rest ∧ len drive = 2 ∧ device_of drive = Some dev ∧ n = dev ++ rest.
Proof.
  intros E1 E2. unfold spoofed_object_name. rewrite E1, E2. split; [done|]. intros n.
  destruct (is_drive_path (dos_part vpath)) eqn:Ed; [|done]. cbn [negb].
  repeat case_match; [intros [= <-]; by left| |done].
  intros (dev & Hd & [= <-])%bind_Some. right. exists (take 2 (dos_part vpath)), (drop 2 (dos_part vpath)), dev.
  rewrite take_drop. split_and!; [done| |done|done].
  destruct (dos_part vpath) as [|? [|? ?]]; done.
Qed.

(** ** Witnesses *)

Lemma stat_by_name_agrees_witness :
  ∃ b, by_name_info CLASS_STAT_BASIC (replicate 110 170) true 7 = Some (b, Some 104) ∧
    reads_stat CLASS_STAT_BASIC b true 7.
Proof.
  destruct (stat_by_name_agrees CLASS_STAT_BASIC (replicate 110 170) true 7 ltac:(unfold in_u64, u64_max; lia))
    as (b & E & _ & _ & H).
  exists b. split; [exact E|exact H].
Defined.

Lemma object_name_contract_witness :
  ∃ b, put_object_name (lit "\??\C:\root\mod.esp") (replicate 64 170) 4096
         = Some (b, Some (mkObjectNameReply 56 Fits)) ∧ u64_at b 8 = 4112.
Proof.
  destruct (object_name_contract (lit "\??\C:\root\mod.esp") (replicate 64 170) 4096
    ltac:(by apply valid_strb; vm_compute)) as (b & fit & E & Ef & _ & H).
  assert (fit = Fits) as -> by (rewrite Ef; reflexivity). exists b. split; [exact E|].
  destruct (H eq_refl) as (_ & _ & _ & H8 & _). exact H8.
Defined.

Lemma rename_request_parsed_witness :
  parse_rename_info (rename_request (replicate 8 0) 0x4321 (lit "new.esp") ++ [9; 9])
    = Some (mkRenameTarget 0x4321 (lit "new.esp")).
Proof.
  exact (proj1 (rename_request_parsed (replicate 8 0) [9; 9] 0x4321 (lit "new.esp") eq_refl
    ltac:(unfold in_u64, u64_max; lia) ltac:(by apply valid_strb; vm_compute) ltac:(vm_compute; reflexivity))).
Defined.

Lemma object_name_hides_backing_witness :
  spoofed_object_name (lit "\Device\HarddiskVolume7\blob") (lit "\??\C:\m.esp") (λ _, Some (lit "\Device\V3"))
  = spoofed_object_name (lit "\Device\V3\other") (lit "\??\C:\m.esp") (λ _, Some (lit "\Device\V3")).
Proof.
  exact (proj1 (object_name_hides_backing (lit "\Device\HarddiskVolume7\blob") (lit "\Device\V3\other")
    (lit "\??\C:\m.esp") (λ _, Some (lit "\Device\V3")) eq_refl eq_refl)).
Defined.

Lemma open_disposition_table_witness :
  p_open (memory (CT := demo_table)) (MemoryDemo.at_ (lit "data\SKYRIM.esm")) (open_flags FILE_CREATE) MemoryDemo.demo =
    (Err ST_BAD_REQUEST, MemoryDemo.demo) ∧
  ∃ h s', p_open (memory (CT := demo_table)) (MemoryDemo.at_ (lit "data\SKYRIM.esm"))
            (open_flags FILE_OVERWRITE_IF) MemoryDemo.demo = (Ok (h, 0, false), s') ∧
    file_of s' h = Some [] ∧ disposition_information FILE_OVERWRITE_IF true = FILE_OVERWRITTEN.
Proof.
  split.
  { exact (open_disposition_table (CT := demo_table) MemoryDemo.demo (MemoryDemo.at_ (lit "data\SKYRIM.esm"))
      FILE_CREATE ltac:(unfold FILE_CREATE; lia) eq_refl). }
  destruct (open_disposition_table (CT := demo_table) MemoryDemo.demo (MemoryDemo.at_ (lit "data\SKYRIM.esm"))
    FILE_OVERWRITE_IF ltac:(unfold FILE_OVERWRITE_IF; lia) eq_refl) as (h & s' & E & Ef & _ & Hi).
  exists h, s'. split; [exact E|]. split; [exact Ef|]. apply (Hi true). reflexivity.
Defined.
