(* ===== verification/RegLayout.v ===== *)
(** RegLayout: the NT registry information classes
    (rust/crates/vfs-registry/src/layout).

    [NtQueryKey], [NtEnumerateKey], [NtQueryValueKey],
    [NtEnumerateValueKey] and [NtQueryMultipleValueKey]: explicit bytes at
    documented offsets into the caller's buffer.  A writer returns the buffer
    after it and its answer; [None] is the panic of an index out of range. *)

From S2P Require Import Prelude Text RegTypes RegPath RegMerge Seg NtBuf.

(** ** mod.rs *)

Definition i32_of (x : Z) : Z := if x <? 2 ^ 31 then x else x - 2 ^ 32.
Definition STATUS_SUCCESS : Z := 0.
Definition STATUS_BUFFER_OVERFLOW : Z := i32_of 0x80000005.
Definition STATUS_INVALID_PARAMETER : Z := i32_of 0xC000000D.
Definition STATUS_BUFFER_TOO_SMALL : Z := i32_of 0xC0000023.
Definition STATUS_OBJECT_NAME_NOT_FOUND : Z := i32_of 0xC0000034.

Inductive KeyInfoClass := KBasic | KNode | KFull | KName | KCached | KFlags | KVirtualization | KHandleTags.
Inductive ValueInfoClass := VBasic | VFull | VPartial | VFullAlign64 | VPartialAlign64.

Record Written := mkWritten { w_status : Z; w_result_length : Z }.
Record ValueEntry := mkValueEntry { ve_data_length : Z; ve_data_offset : Z; ve_ty : Z }.
Record MultipleWritten := mkMultiple { mw_status : Z; mw_buffer_length : Z; mw_result_length : Z }.

(** [Out::tail]: as much of [d] as fits at [off]; whether all did. *)
Definition out_tail (b : bytes) (off : Z) (d : bytes) : bytes * bool :=
  let room := sat_sub (len b) off in
  let k := Z.min (len d) room in
  (if k >? 0 then mem_put b off (take (Z.to_nat k) d) else b, k =? len d).

Definition len32 (n : Z) : Z := if n <? u32_max then n else u32_max - 1.
Definition utf16_bytes (s : str) : Z := len32 (utf16_len s * 2).
Definition align_to (n to : Z) : Z := (n + to - 1) / to * to.
Definition fit_status (fit : bool) : Z := if fit then STATUS_SUCCESS else STATUS_BUFFER_OVERFLOW.
Definition too_small (result_length : Z) : Written := mkWritten STATUS_BUFFER_TOO_SMALL (len32 result_length).

(** The writes of a fixed part, in order: [o.u32(off, v)] and
    [o.u64(off, v)]. *)
Inductive Word := W32 (v : Z) | W64 (v : Z).
Definition word_le (w : Word) : bytes := match w with W32 v => to_le 4 v | W64 v => to_le 8 v end.
Fixpoint out_words (b : bytes) (ws : list (Z * Word)) : option bytes :=
  match ws with
  | [] => Some b
  | (off, w) :: ws => b ← slice_put b off (word_le w); out_words b ws
  end.

(** ** key.rs *)

Definition class_bytes (k : KeyView) : bytes := units_le (default [] (kv_class k)).

Record Counts := mkCounts {
  c_subkeys : Z; c_max_name : Z; c_max_class : Z; c_values : Z; c_max_value_name : Z; c_max_value_data : Z }.

(** [iter().map(f).max().unwrap_or(0)]. *)
Definition max_of {A} (f : A → Z) (l : list A) : Z := foldr (λ x m, Z.max (f x) m) 0 l.

Definition counts (k : KeyView) : Counts :=
  mkCounts (len32 (len (kv_subkeys k))) (max_of utf16_bytes (kv_subkeys k)) (kv_max_subkey_class_len k)
    (len32 (len (kv_values k))) (max_of (λ v, utf16_bytes (v_name v)) (kv_values k))
    (max_of (λ v, len32 (len (v_data v))) (kv_values k)).

Definition Answer : Type := option (bytes * Written).

Definition key_basic (name : str) (k : KeyView) (buf : bytes) : Answer :=
  let name := utf16le name in
  let total := 16 + len name in
  if len buf <? 16 then Some (buf, too_small total) else
  b ← out_words buf [(0, W64 (kv_last_write k)); (8, W32 0); (12, W32 (len32 (len name)))];
  let '(b, fit) := out_tail b 16 name in
  Some (b, mkWritten (fit_status fit) (len32 total)).

Definition key_node (name : str) (k : KeyView) (buf : bytes) : Answer :=
  let name := utf16le name in
  let class := class_bytes k in
  let total := 24 + len name + len class in
  if len buf <? 24 then Some (buf, too_small total) else
  b ← out_words buf [(0, W64 (kv_last_write k)); (8, W32 0); (16, W32 (len32 (len class))); (20, W32 (len32 (len name)))];
  let '(b, fit) := out_tail b 24 name in
  if len class =? 0 then
    b ← out_words b [(12, W32 (u32_max - 1))];
    Some (b, mkWritten (fit_status fit) (len32 total))
  else
    let off := align_to (24 + len name) 4 in
    b ← out_words b [(12, W32 (len32 off))];
    let '(b, fit') := out_tail b off class in
    Some (b, mkWritten (fit_status (fit && fit')) (len32 total)).

Definition key_full (k : KeyView) (buf : bytes) : Answer :=
  let class := class_bytes k in
  let total := 44 + len class in
  if len buf <? 44 then Some (buf, too_small total) else
  let c := counts k in
  b ← out_words buf
    [(0, W64 (kv_last_write k)); (8, W32 0); (12, W32 (if len class =? 0 then u32_max - 1 else 44));
     (16, W32 (len32 (len class))); (20, W32 (c_subkeys c)); (24, W32 (c_max_name c)); (28, W32 (c_max_class c));
     (32, W32 (c_values c)); (36, W32 (c_max_value_name c)); (40, W32 (c_max_value_data c))];
  let '(b, fit) := out_tail b 44 class in
  Some (b, mkWritten (fit_status fit) (len32 total)).

Definition key_name (path : str) (buf : bytes) : Answer :=
  let name := utf16le path in
  let total := 4 + len name in
  if len buf <? 4 then Some (buf, too_small total) else
  b ← out_words buf [(0, W32 (len32 (len name)))];
  let '(b, fit) := out_tail b 4 name in
  Some (b, mkWritten (fit_status fit) (len32 total)).

Definition key_cached (path : str) (k : KeyView) (buf : bytes) : Answer :=
  if len buf <? 40 then Some (buf, too_small 40) else
  let c := counts k in
  b ← out_words buf
    [(0, W64 (kv_last_write k)); (8, W32 0); (12, W32 (c_subkeys c)); (16, W32 (c_max_name c));
     (20, W32 (c_values c)); (24, W32 (c_max_value_name c)); (28, W32 (c_max_value_data c));
     (32, W32 (utf16_bytes (reg_leaf path)))];
  Some (b, mkWritten STATUS_SUCCESS 40).

Definition key_zeroed (size : Z) (buf : bytes) : Answer :=
  if len buf <? size then Some (buf, too_small size) else
  b ← slice_zero buf 0 size;
  Some (b, mkWritten STATUS_SUCCESS (len32 size)).

Definition write_key_info (class : KeyInfoClass) (key : KeyView) (name_for_name_class : str) (buf : bytes) : Answer :=
  match class with
  | KBasic => key_basic (reg_leaf name_for_name_class) key buf
  | KNode => key_node (reg_leaf name_for_name_class) key buf
  | KFull => key_full key buf
  | KName => key_name name_for_name_class buf
  | KCached => key_cached name_for_name_class key buf
  | KFlags => key_zeroed 12 buf
  | KVirtualization | KHandleTags => key_zeroed 4 buf
  end.

Definition write_subkey_info (class : KeyInfoClass) (name : str) (sub : KeyView) (buf : bytes) : Answer :=
  match class with
  | KBasic => key_basic name sub buf
  | KNode => key_node name sub buf
  | KFull => key_full sub buf
  | _ => Some (buf, mkWritten STATUS_INVALID_PARAMETER 0)
  end.

(** ** value.rs *)

Definition value_basic (v : Value) (buf : bytes) : Answer :=
  let name := utf16le (v_name v) in
  let total := 12 + len name in
  if len buf <? 12 then Some (buf, too_small total) else
  b ← out_words buf [(0, W32 0); (4, W32 (v_ty v)); (8, W32 (len32 (len name)))];
  let '(b, fit) := out_tail b 12 name in
  Some (b, mkWritten (fit_status fit) (len32 total)).

(** Where [Full] has the data. *)
Definition data_offset (v : Value) : Z :=
  let base := 20 + len (utf16le (v_name v)) in
  if len (v_data v) =? 0 then base else align_to base 8.

Definition value_full (v : Value) (buf : bytes) : Answer :=
  let name := utf16le (v_name v) in
  let off := data_offset v in
  let total := off + len (v_data v) in
  if len buf <? 20 then Some (buf, too_small total) else
  b ← out_words buf [(0, W32 0); (4, W32 (v_ty v)); (12, W32 (len32 (len (v_data v)))); (16, W32 (len32 (len name)))];
  let '(b, fit) := out_tail b 20 name in
  b ← out_words b [(8, W32 (len32 off))];
  let '(b, fit') := out_tail b off (v_data v) in
  Some (b, mkWritten (fit_status (fit && fit')) (len32 total)).

Definition value_partial (v : Value) (buf : bytes) : Answer :=
  let total := 12 + len (v_data v) in
  if len buf <? 12 then Some (buf, too_small total) else
  b ← out_words buf [(0, W32 0); (4, W32 (v_ty v)); (8, W32 (len32 (len (v_data v))))];
  let '(b, fit) := out_tail b 12 (v_data v) in
  Some (b, mkWritten (fit_status fit) (len32 total)).

Definition value_partial_align64 (v : Value) (buf : bytes) : Answer :=
  let total := 8 + len (v_data v) in
  if len buf <? 8 then Some (buf, too_small total) else
  b ← out_words buf [(0, W32 (v_ty v)); (4, W32 (len32 (len (v_data v))))];
  let '(b, fit) := out_tail b 8 (v_data v) in
  Some (b, mkWritten (fit_status fit) (len32 total)).

Definition write_value_info (class : ValueInfoClass) (v : Value) (buf : bytes) : Answer :=
  match class with
  | VBasic => value_basic v buf
  | VFull | VFullAlign64 => value_full v buf
  | VPartial => value_partial v buf
  | VPartialAlign64 => value_partial_align64 v buf
  end.

(** The loop of [NtQueryMultipleValueKey] over the values and their entries:
    the buffer, the entries, and the answer. *)
Fixpoint multiple_loop (values : list (option Value)) (entries : list ValueEntry) (buf : bytes)
    (used required : Z) (full : bool) (status : Z) : option (bytes * list ValueEntry * MultipleWritten) :=
  match values, entries with
  | v :: values, entry :: entries =>
      match v with
      | None =>
          Some (buf, entry :: entries, mkMultiple STATUS_OBJECT_NAME_NOT_FOUND (len32 used) (len32 required))
      | Some v =>
          let n := len (v_data v) in
          let used := align_to used 4 in
          let required := align_to required 4 in
          if negb full && (used + n <=? len buf) then
            buf ← slice_put buf used (v_data v);
            r ← multiple_loop values entries buf (used + n) (required + n) full status;
            let '(buf, entries, m) := r in
            Some (buf, mkValueEntry (len32 n) (len32 used) (v_ty v) :: entries, m)
          else
            r ← multiple_loop values entries buf used (required + n) true STATUS_BUFFER_OVERFLOW;
            let '(buf, entries, m) := r in
            Some (buf, entry :: entries, m)
      end
  | _, _ => Some (buf, entries, mkMultiple status (len32 used) (len32 required))
  end.

Definition write_multiple_values (values : list (option Value)) (entries : list ValueEntry) (buf : bytes) :=
  multiple_loop values entries buf 0 0 false STATUS_SUCCESS.

Definition KEY_VALUE_ENTRY_SIZE : Z := 24.
Definition entry_store (e : ValueEntry) (slot : bytes) : option bytes :=
  out_words slot [(8, W32 (ve_data_length e)); (12, W32 (ve_data_offset e)); (16, W32 (ve_ty e))].
