(* ===== verification/RegLayoutProps.v ===== *)
(** RegLayoutProps: what a caller's buffer holds after a registry query
    (rust/crates/vfs-registry/src/layout).

    Every information class follows one buffer discipline ([Truncates]):
    too small for the fixed part is told and nothing written, otherwise the
    caller holds a prefix of the whole answer, and the size of the whole
    answer is told either way.  A whole answer reads back, and so do the
    values of a multiple-value query. *)

From S2P Require Import Prelude Text RegTypes RegPath RegMerge Seg NtBuf RegLayout.

(** ** The buffer discipline *)

(** [w] on a buffer and on the same buffer with [more] behind it: equal
    sizes reported; once the fixed part fits, the shorter buffer holds what
    the longer one does, up to its length; and an answer that fits writes
    nothing behind it. *)
Definition Truncates (w : bytes → Answer) (fixed : Z) : Prop :=
  ∀ buf more, ∃ b r b' r', w buf = Some (b, r) ∧ w (buf ++ more) = Some (b', r') ∧ len b = len buf ∧
    w_result_length r = w_result_length r' ∧
    if decide (len buf < fixed) then b = buf ∧ w_status r = STATUS_BUFFER_TOO_SMALL
    else ∃ e, b' = b ++ e ∧
      (w_status r = STATUS_BUFFER_OVERFLOW ∨
       w_status r = STATUS_SUCCESS ∧ w_status r' = STATUS_SUCCESS ∧ e = more).

(** A buffer and its extension, mid-way: [f] tells whether all fit so far. *)
Definition Ext (more : bytes) (b : bytes) (f : bool) (b' : bytes) (f' : bool) : Prop :=
  ∃ e, b' = b ++ e ∧ (f = true → f' = true ∧ e = more).

Definition words_in (n : Z) (ws : list (Z * Word)) : bool :=
  forallb (λ w, (0 <=? w.1) && (w.1 + len (word_le w.2) <=? n)) ws.

Lemma words_in_le n m ws : n ≤ m → words_in n ws = true → words_in m ws = true.
Proof.
  unfold words_in. rewrite !forallb_forall. intros ? H w Hw. specialize (H w Hw). lia.
Qed.

Lemma out_words_ok b ws e :
  words_in (len b) ws = true →
  ∃ b1, out_words b ws = Some b1 ∧ len b1 = len b ∧ out_words (b ++ e) ws = Some (b1 ++ e).
Proof.
  revert b. induction ws as [|[off w] ws IH]; intros b Hw; [by exists b|].
  cbn in Hw. apply andb_true_iff in Hw as [[?%Z.leb_le ?%Z.leb_le]%andb_true_iff Hw].
  pose proof (len_nonneg e). pose proof (mem_put_len b off (word_le w)) as El.
  destruct (IH (mem_put b off (word_le w))) as (b1 & E1 & L1 & E2); [by rewrite El|].
  exists b1. cbn [out_words]. rewrite !slice_put_ok by (rewrite ?len_app; lia). cbn [mbind option_bind].
  rewrite mem_put_app_l by done. split_and!; [done|lia|done].
Qed.

Lemma out_words_Ext more b f b' f' ws :
  words_in (len b) ws = true → Ext more b f b' f' →
  ∃ b1 b1', out_words b ws = Some b1 ∧ out_words b' ws = Some b1' ∧ len b1 = len b ∧ Ext more b1 f b1' f'.
Proof.
  intros Hw (e & -> & He). destruct (out_words_ok b ws e Hw) as (b1 & E1 & L & E2).
  exists b1, (b1 ++ e). split_and!; [done..|]. by exists e.
Qed.

Lemma out_tail_len b off d : 0 ≤ off → len (out_tail b off d).1 = len b.
Proof.
  intros Ho. unfold out_tail, sat_sub. cbn [fst]. pose proof (len_nonneg d).
  destruct (Z.gtb_spec (Z.min (len d) (Z.max 0 (len b - off))) 0); [|done].
  apply mem_put_len; [done|]. unfold len in *. rewrite length_take. lia.
Qed.

(** What fits is written whole. *)
Lemma out_tail_fits b off d : 0 ≤ off → off + len d ≤ len b → out_tail b off d = (mem_put b off d, true).
Proof.
  intros. pose proof (len_nonneg d). unfold out_tail, sat_sub.
  rewrite Z.min_l by lia. rewrite Z.eqb_refl. destruct (Z.gtb_spec (len d) 0).
  - rewrite take_ge by (unfold len; lia). done.
  - destruct d; [by rewrite mem_put_nil|]. rewrite len_cons in *. pose proof (len_nonneg d). lia.
Qed.

Lemma lookup_out_tail b off d i :
  0 ≤ off → (i < length b)%nat →
  (out_tail b off d).1 !! i =
    if decide (off ≤ Z.of_nat i < off + len d) then d !! Z.to_nat (Z.of_nat i - off) else b !! i.
Proof.
  intros Ho Hi. unfold out_tail, sat_sub. cbn [fst]. pose proof (len_nonneg d).
  set (k := Z.min (len d) (Z.max 0 (len b - off))).
  assert (len b = Z.of_nat (length b)) by done.
  destruct (Z.gtb_spec k 0); [|case_decide; [lia|done]].
  assert (len (take (Z.to_nat k) d) = k) as Ek by (unfold len in *; rewrite length_take; lia).
  rewrite lookup_mem_put, Ek by lia. repeat case_decide; try lia; [|done].
  rewrite lookup_take_lt by lia. f_equal. lia.
Qed.

Lemma out_tail_nil b off : out_tail b off [] = (b, true).
Proof.
  unfold out_tail, sat_sub. rewrite len_nil, Z.min_l by lia. done.
Qed.

Lemma out_tail_true b off d : 0 ≤ off → (out_tail b off d).2 = true → d = [] ∨ off + len d ≤ len b.
Proof.
  unfold out_tail, sat_sub. cbn [snd]. intros ? E%Z.eqb_eq. pose proof (len_nonneg d).
  destruct d; [by left|right]. rewrite len_cons in *. pose proof (len_nonneg d). lia.
Qed.

Lemma out_tail_Ext more b f b' f' off d :
  0 ≤ off → Ext more b f b' f' →
  Ext more (out_tail b off d).1 (f && (out_tail b off d).2) (out_tail b' off d).1 (f' && (out_tail b' off d).2).
Proof.
  intros Ho (e & -> & He). pose proof (out_tail_len b off d Ho) as L1. pose proof (out_tail_len (b ++ e) off d Ho) as L2.
  pose proof (len_nonneg e). rewrite len_app in L2.
  destruct (out_tail b off d).2 eqn:Ef.
  - rewrite andb_true_r. apply out_tail_true in Ef as [->|Hfit]; [rewrite !out_tail_nil|..|done].
    + exists e. by rewrite andb_true_r.
    + rewrite !out_tail_fits by (rewrite ?len_app; lia). cbn [fst snd]. rewrite mem_put_app_l by done.
      exists e. by rewrite andb_true_r.
  - exists (drop (length b) (out_tail (b ++ e) off d).1). split; [|by rewrite andb_false_r].
    rewrite <- (take_drop (length b) (out_tail (b ++ e) off d).1) at 1. f_equal.
    apply list_eq. intros i. destruct (decide (i < length b)%nat) as [Hi|Hi].
    + rewrite lookup_take_lt by done. rewrite !lookup_out_tail by (rewrite ?length_app; lia).
      case_decide; [done|]. by rewrite lookup_app_l.
    + rewrite lookup_take_ge by lia. symmetry. apply lookup_ge_None. unfold len in L1. lia.
Qed.

Lemma Ext_refl more b : Ext more b true (b ++ more) true.
Proof. by exists more. Qed.

(** The end of a writer. *)
Lemma Ext_status more b f b' f' :
  Ext more b f b' f' → ∃ e, b' = b ++ e ∧
    (fit_status f = STATUS_BUFFER_OVERFLOW ∨ fit_status f = STATUS_SUCCESS ∧ fit_status f' = STATUS_SUCCESS ∧ e = more).
Proof.
  intros (e & -> & He). exists e. split; [done|]. destruct f; [right|by left].
  by destruct (He eq_refl) as [-> ->].
Qed.

(** A writer that checks for its fixed part and then follows the
    discipline. *)
Lemma Truncates_intro w fixed total body :
  (∀ buf, w buf = if len buf <? fixed then Some (buf, too_small total) else body buf) →
  (∀ buf more, fixed ≤ len buf → ∃ b f b' f',
     body buf = Some (b, mkWritten (fit_status f) (len32 total)) ∧
     body (buf ++ more) = Some (b', mkWritten (fit_status f') (len32 total)) ∧
     len b = len buf ∧ Ext more b f b' f') →
  Truncates w fixed.
Proof.
  intros Hw Hb buf more. rewrite !Hw, len_app. pose proof (len_nonneg more).
  destruct (decide (len buf < fixed)), (Z.ltb_spec (len buf) fixed); try lia.
  - destruct (Z.ltb_spec (len buf + len more) fixed); [by do 4 eexists|].
    destruct (Hb (buf ++ more) []) as (b & f & _ & _ & E & _); [rewrite len_app; lia|]. rewrite E. by do 4 eexists.
  - destruct (Z.ltb_spec (len buf + len more) fixed); [lia|].
    destruct (Hb buf more) as (b & f & b' & f' & E & E' & L & HE); [done|]. rewrite E, E'.
    do 4 eexists. do 4 (split; [done|]). exact (Ext_status _ _ _ _ _ HE).
Qed.

(** One fixed part of words, one variable part. *)
Lemma Truncates_words_tail fixed words d :
  words_in fixed words = true → 0 ≤ fixed →
  Truncates (λ buf,
    if len buf <? fixed then Some (buf, too_small (fixed + len d)) else
    b ← out_words buf words;
    let '(b, fit) := out_tail b fixed d in
    Some (b, mkWritten (fit_status fit) (len32 (fixed + len d)))) fixed.
Proof.
  intros Hw Hf. eapply Truncates_intro; [done|]. intros buf more Hl. cbn beta.
  destruct (out_words_Ext more buf true (buf ++ more) true words) as (b & b' & -> & -> & L & HE);
    [|apply Ext_refl|].
  { by apply words_in_le with fixed. }
  apply (out_tail_Ext _ _ _ _ _ fixed d Hf) in HE. pose proof (out_tail_len b fixed d Hf).
  cbn [mbind option_bind]. destruct (out_tail b fixed d) as [c f], (out_tail b' fixed d) as [c' f'].
  cbn [fst snd andb] in *. do 4 eexists. do 2 (split; [done|]). split; [congruence|done].
Qed.

(** Two variable parts, the second's place written between them. *)
Lemma Truncates_two_tails fixed words d words' off d' total :
  words_in fixed words = true → words_in fixed words' = true → 0 ≤ fixed → 0 ≤ off →
  Truncates (λ buf,
    if len buf <? fixed then Some (buf, too_small total) else
    b ← out_words buf words;
    let '(b, fit) := out_tail b fixed d in
    b ← out_words b words';
    let '(b, fit') := out_tail b off d' in
    Some (b, mkWritten (fit_status (fit && fit')) (len32 total))) fixed.
Proof.
  intros Hw Hw' Hf Ho. eapply Truncates_intro; [done|]. intros buf more Hl. cbn beta.
  destruct (out_words_Ext more buf true (buf ++ more) true words) as (b & b' & -> & -> & L & HE);
    [by apply words_in_le with fixed|apply Ext_refl|].
  apply (out_tail_Ext _ _ _ _ _ fixed d Hf) in HE. pose proof (out_tail_len b fixed d Hf) as L1.
  cbn [mbind option_bind]. destruct (out_tail b fixed d) as [c f], (out_tail b' fixed d) as [c' f'].
  cbn [fst snd andb] in *.
  destruct (out_words_Ext more c f c' f' words') as (b1 & b1' & -> & -> & L2 & HE');
    [apply words_in_le with fixed; [lia|done]|done|].
  apply (out_tail_Ext _ _ _ _ _ off d' Ho) in HE'. pose proof (out_tail_len b1 off d' Ho) as L3.
  cbn [mbind option_bind]. destruct (out_tail b1 off d') as [e g], (out_tail b1' off d') as [e' g'].
  cbn [fst snd] in *. do 4 eexists. do 2 (split; [done|]). split; [congruence|done].
Qed.

(** A fixed part and nothing else. *)
Lemma Truncates_fixed fixed total (f : bytes → option bytes) :
  (∀ buf more, fixed ≤ len buf → ∃ b, f buf = Some b ∧ len b = len buf ∧ f (buf ++ more) = Some (b ++ more)) →
  Truncates (λ buf, if len buf <? fixed then Some (buf, too_small total) else
    b ← f buf; Some (b, mkWritten STATUS_SUCCESS (len32 total))) fixed.
Proof.
  intros Hf. eapply Truncates_intro; [done|]. intros buf more Hl. cbn beta.
  destruct (Hf buf more Hl) as (b & -> & L & ->). exists b, true, (b ++ more), true. by split_and!; try apply Ext_refl.
Qed.

Lemma Truncates_ext w w' fixed : (∀ buf, w buf = w' buf) → Truncates w' fixed → Truncates w fixed.
Proof. intros E H buf more. rewrite !E. apply H. Qed.

Definition key_fixed (class : KeyInfoClass) : Z :=
  match class with
  | KBasic => 16 | KNode => 24 | KFull => 44 | KName => 4 | KCached => 40 | KFlags => 12
  | KVirtualization | KHandleTags => 4
  end.
Definition value_fixed (class : ValueInfoClass) : Z :=
  match class with VBasic | VPartial => 12 | VFull | VFullAlign64 => 20 | VPartialAlign64 => 8 end.

Lemma key_zeroed_truncates size : 0 ≤ size → Truncates (key_zeroed size) size.
Proof.
  intros Hs. apply Truncates_fixed. intros buf more Hl. unfold slice_zero. pose proof (len_nonneg more).
  rewrite !slice_put_ok by len_solve. eexists. split; [done|]. split; [len_solve|].
  by rewrite mem_put_app_l by len_solve.
Qed.

Lemma key_node_truncates name k : Truncates (key_node name k) 24.
Proof.
  eapply Truncates_ext; [|apply (Truncates_two_tails 24
    [(0, W64 (kv_last_write k)); (8, W32 0); (16, W32 (len32 (len (class_bytes k)))); (20, W32 (len32 (len (utf16le name))))]
    (utf16le name)
    [(12, W32 (if len (class_bytes k) =? 0 then u32_max - 1 else len32 (align_to (24 + len (utf16le name)) 4)))]
    (align_to (24 + len (utf16le name)) 4) (class_bytes k)
    (24 + len (utf16le name) + len (class_bytes k))); [reflexivity|reflexivity|lia|]].
  - intros buf. unfold key_node. case_match; [done|]. destruct (out_words buf _) as [b|]; [|done]. cbn [mbind option_bind].
    destruct (out_tail b 24 _) as [c f]. destruct (Z.eqb_spec (len (class_bytes k)) 0) as [E|E]; [|done].
    destruct (class_bytes k) as [|x l]; [|rewrite len_cons in E; pose proof (len_nonneg l); lia].
    destruct (out_words c _) as [c1|]; [|done]. cbn [mbind option_bind]. rewrite out_tail_nil. by rewrite andb_true_r.
  - unfold align_to. pose proof (len_nonneg (utf16le name)). dlia.
Qed.

Lemma key_info_truncates class k name : Truncates (write_key_info class k name) (key_fixed class).
Proof.
  destruct class; cbn [key_fixed].
  - apply (Truncates_words_tail 16); [reflexivity|lia].
  - apply key_node_truncates.
  - apply (Truncates_words_tail 44); [reflexivity|lia].
  - apply (Truncates_words_tail 4); [reflexivity|lia].
  - apply (Truncates_fixed 40 40 (λ buf, out_words buf _)). intros buf more Hl.
    apply out_words_ok. apply words_in_le with 40; [done|reflexivity].
  - apply key_zeroed_truncates. lia.
  - apply key_zeroed_truncates. lia.
  - apply key_zeroed_truncates. lia.
Qed.

Lemma data_offset_ge v : 20 + len (utf16le (v_name v)) ≤ data_offset v.
Proof. unfold data_offset, align_to. case_match; [lia|]. dlia. Qed.

Lemma value_info_truncates class v : Truncates (write_value_info class v) (value_fixed class).
Proof.
  pose proof (data_offset_ge v). pose proof (len_nonneg (utf16le (v_name v))).
  destruct class; cbn [value_fixed].
  - apply (Truncates_words_tail 12); [reflexivity|lia].
  - apply (Truncates_two_tails 20); [reflexivity..|lia|lia].
  - apply (Truncates_words_tail 12); [reflexivity|lia].
  - apply (Truncates_two_tails 20); [reflexivity..|lia|lia].
  - apply (Truncates_words_tail 8); [reflexivity|lia].
Qed.

(** Property: no registry query writes past what it says or hides how much it
    needs. For every class of [NtQueryKey], [NtEnumerateKey] and
    [NtQueryValueKey]: the size of the whole answer is reported whatever the
    buffer; a buffer without room for the fixed part is left untouched and
    told too small; any other buffer holds exactly a prefix of what a
    longer one would, told as an overflow when cut; an answer that fits
    changes nothing behind it; and a class not valid for a subkey writes
    nothing. *)
Theorem registry_answers_truncate (k : KeyView) (name : str) (v : Value) :
  (∀ class, Truncates (write_key_info class k name) (key_fixed class)) ∧
  (∀ class, match class with
            | KBasic | KNode | KFull => Truncates (write_subkey_info class name k) (key_fixed class)
            | _ => ∀ buf, write_subkey_info class name k buf = Some (buf, mkWritten STATUS_INVALID_PARAMETER 0)
            end) ∧
  (∀ class, Truncates (write_value_info class v) (value_fixed class)).
Proof.
  split_and!.
  - intros class. apply key_info_truncates.
  - intros []; try done.
    + apply (Truncates_words_tail 16); [reflexivity|lia].
    + apply key_node_truncates.
    + apply (Truncates_words_tail 44); [reflexivity|lia].
  - intros class. apply value_info_truncates.
Qed.

(** ** A value read back *)

Definition value_total (class : ValueInfoClass) (v : Value) : Z :=
  match class with
  | VBasic => 12 + 2 * utf16_len (v_name v)
  | VFull | VFullAlign64 => data_offset v + len (v_data v)
  | VPartial => 12 + len (v_data v)
  | VPartialAlign64 => 8 + len (v_data v)
  end.

(** The structure of a class, read by its documented offsets. *)
Definition reads_value (class : ValueInfoClass) (v : Value) (b : bytes) : Prop :=
  match class with
  | VBasic => u32_at b 4 = v_ty v ∧ read_name (mem_get b 12 (u32_at b 8)) = v_name v
  | VFull | VFullAlign64 =>
      u32_at b 4 = v_ty v ∧ read_name (mem_get b 20 (u32_at b 16)) = v_name v ∧
      mem_get b (u32_at b 8) (u32_at b 12) = v_data v ∧ (v_data v ≠ [] → u32_at b 8 mod 8 = 0)
  | VPartial => u32_at b 4 = v_ty v ∧ mem_get b 12 (u32_at b 8) = v_data v
  | VPartialAlign64 => u32_at b 0 = v_ty v ∧ mem_get b 8 (u32_at b 4) = v_data v
  end.

Lemma len32_small n : n < u32_max → len32 n = n.
Proof. intros. unfold len32. by bdecide. Qed.

Lemma u32_back x : in_u32 x → from_le (to_le 4 x) = x.
Proof. intros. by apply from_to_le_small. Qed.

(** Run the words of a fixed part that fits. *)
Ltac words := cbn [out_words word_le mbind option_bind];
  repeat (rewrite slice_put_ok by len_solve; cbn [mbind option_bind]).

Ltac back := unfold u32_at; read_field; rewrite ?u32_back by (unfold in_u32 in *; lia).

Ltac field o x :=
  match goal with |- context [u32_at ?b o] => assert (u32_at b o = x) as -> by (back; done) end.

Lemma value_basic_back v buf :
  valid_str (v_name v) → in_u32 (v_ty v) → value_total VBasic v < u32_max → value_total VBasic v ≤ len buf →
  ∃ b, value_basic v buf = Some (b, mkWritten STATUS_SUCCESS (value_total VBasic v)) ∧ reads_value VBasic v b.
Proof.
  cbn [value_total reads_value]. intros Hv Ht Hm Hl. pose proof (utf16_len_nonneg (v_name v)).
  unfold value_basic. rewrite utf16le_len, !len32_small by lia. destruct (Z.ltb_spec (len buf) 12); [lia|]. words.
  rewrite out_tail_fits by len_solve. eexists. split; [done|]. field 4 (v_ty v).
  field 8 (2 * utf16_len (v_name v)). split; [done|]. rewrite mem_get_put_eq by len_solve. by apply read_name_utf16le.
Qed.

Lemma value_partial_back v buf :
  in_u32 (v_ty v) → value_total VPartial v < u32_max → value_total VPartial v ≤ len buf →
  ∃ b, value_partial v buf = Some (b, mkWritten STATUS_SUCCESS (value_total VPartial v)) ∧ reads_value VPartial v b.
Proof.
  cbn [value_total reads_value]. intros Ht Hm Hl. pose proof (len_nonneg (v_data v)).
  unfold value_partial. rewrite !len32_small by lia. destruct (Z.ltb_spec (len buf) 12); [lia|]. words.
  rewrite out_tail_fits by len_solve. eexists. split; [done|]. field 4 (v_ty v). field 8 (len (v_data v)).
  by rewrite mem_get_put_eq by len_solve.
Qed.

Lemma value_partial64_back v buf :
  in_u32 (v_ty v) → value_total VPartialAlign64 v < u32_max → value_total VPartialAlign64 v ≤ len buf →
  ∃ b, value_partial_align64 v buf = Some (b, mkWritten STATUS_SUCCESS (value_total VPartialAlign64 v)) ∧
    reads_value VPartialAlign64 v b.
Proof.
  cbn [value_total reads_value]. intros Ht Hm Hl. pose proof (len_nonneg (v_data v)).
  unfold value_partial_align64. rewrite !len32_small by lia. destruct (Z.ltb_spec (len buf) 8); [lia|]. words.
  rewrite out_tail_fits by len_solve. eexists. split; [done|]. field 0 (v_ty v). field 4 (len (v_data v)).
  by rewrite mem_get_put_eq by len_solve.
Qed.

Lemma value_full_back v buf :
  valid_str (v_name v) → in_u32 (v_ty v) → value_total VFull v < u32_max → value_total VFull v ≤ len buf →
  ∃ b, value_full v buf = Some (b, mkWritten STATUS_SUCCESS (value_total VFull v)) ∧ reads_value VFull v b.
Proof.
  cbn [value_total reads_value]. intros Hv Ht Hm Hl. pose proof (utf16_len_nonneg (v_name v)).
  pose proof (len_nonneg (v_data v)). pose proof (data_offset_ge v) as Ho. rewrite utf16le_len in Ho.
  assert (v_data v ≠ [] → data_offset v mod 8 = 0) as Hmod.
  { intros Hne. unfold data_offset, align_to. destruct (v_data v) as [|x d]; [done|]. rewrite len_cons.
    pose proof (len_nonneg d). destruct (Z.eqb_spec (1 + len d) 0); [lia|]. apply Z.mod_mul. lia. }
  unfold value_full. rewrite utf16le_len, !len32_small by lia. destruct (Z.ltb_spec (len buf) 20); [lia|]. words.
  rewrite out_tail_fits by len_solve. words. rewrite out_tail_fits by len_solve. eexists. split; [done|].
  generalize dependent (data_offset v). intros off Hm Hl Ho Hmod.
  field 4 (v_ty v). field 8 off. field 12 (len (v_data v)). field 16 (2 * utf16_len (v_name v)).
  split_and!; [done| | |done].
  - rewrite !mem_get_put_other by len_solve. rewrite mem_get_put_eq by len_solve. by apply read_name_utf16le.
  - by rewrite mem_get_put_eq by len_solve.
Qed.

(** Property: a registry value asked for is the value answered. With a
    buffer of at least the size reported, every information class succeeds
    and the caller, reading type, lengths, offsets, name and data at the
    documented places, finds the value's own, its data 8-aligned in the
    full classes. *)
Theorem value_info_reads_back (class : ValueInfoClass) (v : Value) (buf : bytes) :
  valid_str (v_name v) → in_u32 (v_ty v) → value_total class v < u32_max → value_total class v ≤ len buf →
  ∃ b, write_value_info class v buf = Some (b, mkWritten STATUS_SUCCESS (value_total class v)) ∧ reads_value class v b.
Proof.
  intros Hv Ht Hm Hl. destruct class; cbn [write_value_info].
  - by apply value_basic_back.
  - by apply value_full_back.
  - by apply value_partial_back.
  - by apply value_full_back.
  - by apply value_partial64_back.
Qed.

(** ** Many values at once *)

(** The values up to the first that is missing, and whether one is. *)
Fixpoint found (values : list (option Value)) : list Value :=
  match values with Some v :: values => v :: found values | _ => [] end.
Definition missing (values : list (option Value)) : bool := existsb (λ v, negb (bool_decide (is_Some v))) values.

(** Where data packed at 4-byte boundaries from [u] on ends. *)
Definition pack (u : Z) (vs : list Value) : Z := foldl (λ u v, align_to u 4 + len (v_data v)) u vs.

Lemma align_to_ge n : n ≤ align_to n 4 < n + 4.
Proof. unfold align_to. dlia. Qed.

Lemma pack_ge u vs : u ≤ pack u vs.
Proof.
  revert u. induction vs as [|v vs IH]; intros u; [done|]. pose proof (align_to_ge u).
  pose proof (len_nonneg (v_data v)). etrans; [|exact (IH (align_to u 4 + len (v_data v)))]. lia.
Qed.

Lemma pack_cons u v vs : pack u (v :: vs) = pack (align_to u 4 + len (v_data v)) vs.
Proof. done. Qed.

(** Once one value did not fit, nothing more is copied. *)
Lemma multiple_full values entries buf used required :
  length values = length entries →
  ∃ n, multiple_loop values entries buf used required true STATUS_BUFFER_OVERFLOW
    = Some (buf, entries, mkMultiple (if missing values then STATUS_OBJECT_NAME_NOT_FOUND else STATUS_BUFFER_OVERFLOW)
              n (len32 (pack required (found values)))).
Proof.
  revert entries used required.
  induction values as [|[v|] values IH]; intros [|e entries] used required Hl; try done; [by eexists| |by eexists].
  cbn [multiple_loop negb andb]. injection Hl as Hl.
  destruct (IH entries (align_to used 4) (align_to required 4 + len (v_data v)) Hl) as [n ->]. by exists n.
Qed.

Definition entry_at (u : Z) (vs : list Value) (cap : Z) (i : nat) (v : Value) (e : ValueEntry) : ValueEntry :=
  let start := align_to (pack u (take i vs)) 4 in
  if decide (start + len (v_data v) ≤ cap)
  then mkValueEntry (len32 (len (v_data v))) (len32 start) (v_ty v) else e.

Lemma multiple_loop_ok values entries buf u :
  0 ≤ u → length values = length entries →
  ∃ b es m, multiple_loop values entries buf u u false STATUS_SUCCESS = Some (b, es, m) ∧
    len b = len buf ∧ length es = length entries ∧
    (∀ o n, 0 ≤ o → 0 ≤ n → o + n ≤ u → mem_get b o n = mem_get buf o n) ∧
    mw_result_length m = len32 (pack u (found values)) ∧
    mw_status m = (if missing values then STATUS_OBJECT_NAME_NOT_FOUND
                   else if decide (pack u (found values) ≤ len buf ∨ found values = []) then STATUS_SUCCESS
                   else STATUS_BUFFER_OVERFLOW) ∧
    (∀ i v e, found values !! i = Some v → entries !! i = Some e →
       es !! i = Some (entry_at u (found values) (len buf) i v e) ∧
       (align_to (pack u (take i (found values))) 4 + len (v_data v) ≤ len buf →
        mem_get b (align_to (pack u (take i (found values))) 4) (len (v_data v)) = v_data v)) ∧
    (∀ i, (length (found values) ≤ i)%nat → es !! i = entries !! i).
Proof.
  revert entries buf u.
  induction values as [|[v|] values IH]; intros [|e entries] buf u Hu Hl; try done.
  { do 3 eexists. split_and!; try done. cbn. by rewrite decide_True by auto. }
  2:{ do 3 eexists. by split_and!. }
  injection Hl as Hl. cbn [multiple_loop negb andb found missing existsb]. pose proof (align_to_ge u) as Ha.
  pose proof (len_nonneg (v_data v)) as Hd. rewrite pack_cons.
  set (s := align_to u 4) in *. destruct (Z.leb_spec (s + len (v_data v)) (len buf)) as [Hfit|Hno].
  - rewrite slice_put_ok by lia. cbn [mbind option_bind].
    destruct (IH entries (mem_put buf s (v_data v)) (s + len (v_data v))) as
      (b & es & m & E & Lb & Le & Hlow & Hr & Hs & Hf & Hrest); [lia|done|].
    rewrite E. cbn [mbind option_bind]. rewrite mem_put_len in * by lia. exists b. do 2 eexists. split; [done|].
    split_and!; [lia|by cbn; f_equal| | | | |].
    + intros o n ???. rewrite Hlow by lia. apply mem_get_put_other; lia.
    + done.
    + rewrite Hs. cbn [negb orb]. fold (missing values). case_match; [done|].
      destruct (found values) as [|w ws]; [by rewrite !decide_True by (cbn; auto)|].
      destruct (decide (pack (s + len (v_data v)) (w :: ws) ≤ len buf)); [by rewrite !decide_True by auto|].
      by rewrite !decide_False by (intros [?|?]; done).
    + intros [|i] w e' Hw He; cbn in Hw, He.
      * injection Hw as <-. injection He as <-. split.
        -- unfold entry_at. change (align_to (pack u (take 0 (v :: found values))) 4) with s.
           by rewrite decide_True.
        -- intros _. change (align_to (pack u (take 0 (v :: found values))) 4) with s.
           rewrite Hlow by lia. by apply mem_get_put_same; lia.
      * destruct (Hf i w e' Hw He) as [H1 H2]. split; [exact H1|exact H2].
    + intros [|i] Hi; [cbn in Hi; lia|]. apply Hrest. cbn in Hi. lia.
  - destruct (multiple_full values entries buf s (s + len (v_data v)) Hl) as [n ->]. cbn [mbind option_bind].
    exists buf. do 2 eexists. split; [done|]. split_and!; [done|done|done|done| | |].
    + cbn [negb orb]. fold (missing values). cbn [mw_status]. case_match; [done|].
      rewrite decide_False; [done|]. pose proof (pack_ge (s + len (v_data v)) (found values)). intros [?|?]; [lia|done].
    + intros [|i] w e' Hw He; cbn in Hw, He.
      * injection Hw as <-. injection He as <-. unfold entry_at.
        change (align_to (pack u (take 0 (v :: found values))) 4) with s. rewrite decide_False by lia.
        split; [done|lia].
      * pose proof (pack_ge (s + len (v_data v)) (take i (found values))) as Hge.
        pose proof (align_to_ge (pack (s + len (v_data v)) (take i (found values)))) as Hal.
        pose proof (len_nonneg (v_data w)). unfold entry_at.
        change (pack u (take (S i) (v :: found values))) with (pack (s + len (v_data v)) (take i (found values))).
        rewrite decide_False by lia. split; [done|lia].
    + done.
Qed.

(** Property: a query for many values hands each back once. With one entry
    per value, the query never leaves the buffer; the values up to the first
    missing one are packed at 4-byte boundaries in order, each that fits is
    found whole at the offset and length its entry names, and the entry of
    every other value is left as the caller had it; the size reported is
    what all of them take, and the status tells a missing value from a short
    buffer from success. *)
Theorem multiple_values_read_back (values : list (option Value)) (entries : list ValueEntry) (buf : bytes) :
  length values = length entries →
  ∃ b es m, write_multiple_values values entries buf = Some (b, es, m) ∧
    len b = len buf ∧ length es = length entries ∧
    mw_result_length m = len32 (pack 0 (found values)) ∧
    mw_status m = (if missing values then STATUS_OBJECT_NAME_NOT_FOUND
                   else if decide (pack 0 (found values) ≤ len buf) then STATUS_SUCCESS
                   else STATUS_BUFFER_OVERFLOW) ∧
    (∀ i v e, found values !! i = Some v → entries !! i = Some e →
       let start := align_to (pack 0 (take i (found values))) 4 in
       if decide (start + len (v_data v) ≤ len buf)
       then es !! i = Some (mkValueEntry (len32 (len (v_data v))) (len32 start) (v_ty v)) ∧
            mem_get b start (len (v_data v)) = v_data v
       else es !! i = Some e) ∧
    (∀ i, (length (found values) ≤ i)%nat → es !! i = entries !! i).
Proof.
  intros Hl. destruct (multiple_loop_ok values entries buf 0) as (b & es & m & E & Lb & Le & _ & Hr & Hs & Hf & Hrest);
    [done..|].
  exists b, es, m. split_and!; [done..| | |done].
  - rewrite Hs. case_match; [done|]. pose proof (len_nonneg buf).
    destruct (found values) as [|v vs]; [by rewrite !decide_True by auto|].
    destruct (decide (pack 0 (v :: vs) ≤ len buf)); [by rewrite decide_True by auto|].
    by rewrite decide_False by (intros [?|?]; done).
  - intros i v e Hv He start. destruct (Hf i v e Hv He) as [H1 H2]. rewrite H1. unfold entry_at. fold start.
    fold start in H2.
    destruct (decide (start + len (v_data v) ≤ len buf)); [|done]. split; [done|auto].
Qed.

(** ** Witnesses *)

Module LayoutDemo.
Definition v1 : Value := mkValue (lit "Path") 1 [1; 2; 3; 4; 5].
Definition v2 : Value := mkValue (lit "Flags") 4 [9; 9; 9; 9].
Definition blank : ValueEntry := mkValueEntry 0 0 0.
End LayoutDemo.

Lemma value_info_reads_back_witness :
  ∃ b, write_value_info VFull LayoutDemo.v1 (replicate 40 170) = Some (b, mkWritten STATUS_SUCCESS 37) ∧
    reads_value VFull LayoutDemo.v1 b.
Proof.
  apply (value_info_reads_back VFull LayoutDemo.v1 (replicate 40 170));
    [by apply valid_strb; vm_compute|unfold in_u32, u32_max; cbn; lia|vm_compute; reflexivity|vm_compute; discriminate].
Defined.

Lemma multiple_values_read_back_witness :
  ∃ b es m, write_multiple_values [Some LayoutDemo.v1; Some LayoutDemo.v2] [LayoutDemo.blank; LayoutDemo.blank]
      (replicate 16 170) = Some (b, es, m) ∧
    es !! 1%nat = Some (mkValueEntry 4 8 4) ∧ mem_get b 8 4 = [9; 9; 9; 9].
Proof.
  destruct (multiple_values_read_back [Some LayoutDemo.v1; Some LayoutDemo.v2] [LayoutDemo.blank; LayoutDemo.blank]
    (replicate 16 170) eq_refl) as (b & es & m & E & _ & _ & _ & _ & H & _).
  exists b, es, m. split; [exact E|]. exact (H 1%nat LayoutDemo.v2 LayoutDemo.blank eq_refl eq_refl).
Defined.
