(* ===== verification/ReadCache.v ===== *)
(** ReadCache: the client's block cache for small reads of immutable files
    (rust/crates/vfs-ipc/src/readcache).

    Several threads read, register and invalidate at once.  The source takes
    a lock for each look at a file and none across a fetch, so a call is a
    sequence of critical sections; here each is one step of a thread ([pc]),
    a function on the shared cache, and the threads interleave between
    steps.  An [Arc<Entry>] is an index into [cc_entries], an [Arc<Flight>]
    one into [cc_flights].  The tick, the lock of the LRU index and the
    counter [used] are touched inside those sections.  Statistics
    (counters, [FileDiag]), which no answer depends on, are left out. *)

From S2P Require Import Prelude Text Seg.

(** ** config.rs *)

Definition COLD_AFTER_MISSES : Z := 16.
Definition COLD_READS : Z := 4096.
Definition COLD_MAX_READS : Z := 65536.
Definition COLD_AFTER_FAILED_FETCHES : Z := 4.
Definition PRESSURE_MEMORY : Z := 4096.
Definition SWEEP_MIN : Z := 1024.

(** [wait], the fetch deadline, shows as the choice of when a fetch is
    overdue. *)
Record CacheConfig := mkCacheConfig {
  cf_block : Z;
  cf_max_run : Z;
  cf_threshold : Z;
  cf_blocks_per_file : Z;
  cf_max_bytes : Z;
  cf_cold_hits_per_miss : Z;
  cf_cold_counts_first_fetch : bool }.

(** [Default]: what the shim uses. *)
Definition DEFAULT_BLOCK : Z := 64 * 1024.
Definition DEFAULT_MAX_RUN : Z := 16.
Definition DEFAULT_THRESHOLD : Z := 64 * 1024.
Definition DEFAULT_BLOCKS_PER_FILE : Z := 256.
Definition DEFAULT_MAX_BYTES : Z := Z.shiftl 256 20.
Definition DEFAULT_COLD_HITS_PER_MISS : Z := 8.
Definition config_default : CacheConfig :=
  mkCacheConfig DEFAULT_BLOCK DEFAULT_MAX_RUN DEFAULT_THRESHOLD DEFAULT_BLOCKS_PER_FILE DEFAULT_MAX_BYTES
    DEFAULT_COLD_HITS_PER_MISS false.

(** The two [assert!]s of [ReadCache::new]. *)
Definition config_ok (cf : CacheConfig) : bool :=
  (0 <? cf_block cf) && (0 <? cf_blocks_per_file cf) && (0 <? cf_max_run cf) && (cf_threshold cf <=? cf_block cf).

(** ** file.rs *)

(** Root and folded path. *)
Definition Name : Type := Z * str.
Record Version := mkVersion { vs_size : Z; vs_mount_gen : Z }.
#[export] Instance Version_eq_dec : EqDecision Version.
Proof. solve_decision. Defined.

Record FileRef := mkFileRef { fr_entry : nat; fr_version : option Version }.

Inductive SlotKind := Ready (data : bytes) (last lru_key : Z) | Loading (flight : nat).
Record Slot := mkSlot { sl_idx : Z; sl_kind : SlotKind }.

Record CState := mkCState {
  cs_poisoned : bool;
  cs_version : option Version;
  cs_slots : list Slot;
  cs_hits : Z;
  cs_misses : Z;
  cs_cold_left : Z;
  cs_cold_next : Z;
  cs_failed_fetches : Z;
  cs_next_seq : option Z;
  cs_run : Z;
  cs_pressure_evicted : gset Z;
  cs_fetched_before : list Z }.

Definition state_default : CState := mkCState false None [] 0 0 0 0 0 None 0 ∅ [].

Record CEntry := mkCEntry { ce_name : Name; ce_state : CState }.

(** [refetch]: a bit per unit, in words of 64. *)
Definition refetch (words : list Z) (idx : Z) : bool * list Z :=
  let w := Z.to_nat (idx / 64) in
  let b := idx mod 64 in
  let words := if (length words <=? w)%nat then words ++ replicate (w + 1 - length words) 0 else words in
  let x := default 0 (words !! w) in
  (Z.testbit x b, <[w := Z.lor x (2 ^ b)]> words).

(** What a fetch gives its waiters: the first unit's index and the bytes. *)
Definition Fetched : Type := option (Z * bytes).

(** ** The cache *)

Record Cache := mkCache {
  cc_entries : list CEntry;
  cc_by_name : gmap Name nat;
  cc_sweep_at : Z;
  cc_lru : gmap Z (nat * Z);
  cc_used : Z;
  cc_tick : Z;
  (** [Flight::done] of each fetch. *)
  cc_flights : list (option Fetched);
  (** Clones of each entry's [Arc] outside the file table. *)
  cc_held : list nat;
  (** Whether a call holds the lock of the file table between steps. *)
  cc_locked : bool }.

Definition cache_empty : Cache := mkCache [] ∅ SWEEP_MIN ∅ 0 1 [] [] false.

Definition set_entries (f : list CEntry → list CEntry) (c : Cache) : Cache :=
  mkCache (f (cc_entries c)) (cc_by_name c) (cc_sweep_at c) (cc_lru c) (cc_used c) (cc_tick c) (cc_flights c) (cc_held c) (cc_locked c).
Definition set_lru (f : gmap Z (nat * Z) → gmap Z (nat * Z)) (c : Cache) : Cache :=
  mkCache (cc_entries c) (cc_by_name c) (cc_sweep_at c) (f (cc_lru c)) (cc_used c) (cc_tick c) (cc_flights c) (cc_held c) (cc_locked c).
(** [fetch_add] and [fetch_sub] wrap. *)
Definition set_used (f : Z → Z) (c : Cache) : Cache :=
  mkCache (cc_entries c) (cc_by_name c) (cc_sweep_at c) (cc_lru c) (as_u64 (f (cc_used c))) (cc_tick c) (cc_flights c) (cc_held c) (cc_locked c).
Definition set_flights (f : list (option Fetched) → list (option Fetched)) (c : Cache) : Cache :=
  mkCache (cc_entries c) (cc_by_name c) (cc_sweep_at c) (cc_lru c) (cc_used c) (cc_tick c) (f (cc_flights c)) (cc_held c) (cc_locked c).
Definition set_tick (c : Cache) : Cache :=
  mkCache (cc_entries c) (cc_by_name c) (cc_sweep_at c) (cc_lru c) (cc_used c) (as_u64 (cc_tick c + 1)) (cc_flights c) (cc_held c) (cc_locked c).
Definition set_names (f : gmap Name nat → gmap Name nat) (at_ : Z) (c : Cache) : Cache :=
  mkCache (cc_entries c) (f (cc_by_name c)) at_ (cc_lru c) (cc_used c) (cc_tick c) (cc_flights c) (cc_held c) (cc_locked c).
Definition set_held (f : list nat → list nat) (c : Cache) : Cache :=
  mkCache (cc_entries c) (cc_by_name c) (cc_sweep_at c) (cc_lru c) (cc_used c) (cc_tick c) (cc_flights c) (f (cc_held c)) (cc_locked c).
Definition set_locked (b : bool) (c : Cache) : Cache :=
  mkCache (cc_entries c) (cc_by_name c) (cc_sweep_at c) (cc_lru c) (cc_used c) (cc_tick c) (cc_flights c) (cc_held c) b.

(** The state behind an entry's lock. *)
Definition state_of (c : Cache) (e : nat) : CState :=
  match cc_entries c !! e with Some en => ce_state en | None => state_default end.
Definition name_of (c : Cache) (e : nat) : Name :=
  match cc_entries c !! e with Some en => ce_name en | None => (0, []) end.
Definition put_state (e : nat) (st : CState) (c : Cache) : Cache :=
  set_entries (λ es, match es !! e with Some en => <[e := mkCEntry (ce_name en) st]> es | None => es end) c.

Definition with_slots (f : list Slot → list Slot) (st : CState) : CState :=
  mkCState (cs_poisoned st) (cs_version st) (f (cs_slots st)) (cs_hits st) (cs_misses st) (cs_cold_left st)
    (cs_cold_next st) (cs_failed_fetches st) (cs_next_seq st) (cs_run st) (cs_pressure_evicted st) (cs_fetched_before st).

(** [Flight::complete]: the first completion wins. *)
Definition complete (fl : nat) (v : Fetched) (c : Cache) : Cache :=
  set_flights (λ fs, match fs !! fl with Some None => <[fl := Some v]> fs | _ => fs end) c.

(** One slot given up by [clear_slots]. *)
Definition drop_slot (c : Cache) (s : Slot) : Cache :=
  match sl_kind s with
  | Ready data _ lru_key => set_used (λ u, u - len data) (set_lru (delete lru_key) c)
  | Loading fl => complete fl None c
  end.

Definition clear_slots (e : nat) (c : Cache) : Cache :=
  let st := state_of c e in
  foldl drop_slot (put_state e (with_slots (λ _, []) st) c) (cs_slots st).

Definition poison (e : nat) (c : Cache) : Cache :=
  let c := clear_slots e c in
  let st := state_of c e in
  put_state e (mkCState true None (cs_slots st) (cs_hits st) (cs_misses st) (cs_cold_left st) (cs_cold_next st)
    (cs_failed_fetches st) (cs_next_seq st) (cs_run st) ∅ (cs_fetched_before st)) c.

Definition go_cold (e : nat) (c : Cache) : Cache :=
  let st := state_of c e in
  let spell := if cs_cold_next st =? 0 then COLD_READS else cs_cold_next st in
  clear_slots e (put_state e
    (mkCState (cs_poisoned st) (cs_version st) (cs_slots st) (cs_hits st) (cs_misses st) spell
       (Z.min (spell * 2) COLD_MAX_READS) 0 None (cs_run st) ∅ (cs_fetched_before st)) c).

(** ** Registering *)

(** [sweep]: [busy] are the entries another thread has locked. *)
Definition sweep_keeps (busy : list nat) (c : Cache) (e : nat) : bool :=
  (0 <? default 0%nat (cc_held c !! e))%nat || bool_decide (e ∈ busy)
  || cs_poisoned (state_of c e) || negb (bool_decide (cs_slots (state_of c e) = [])).
Definition sweep (busy : list nat) (c : Cache) : Cache :=
  let kept := filter (λ p, sweep_keeps busy c p.2 = true) (cc_by_name c) in
  set_names (λ _, kept) (Z.max (Z.of_nat (size kept) * 2) SWEEP_MIN) c.

(** A new entry, in the table. *)
Definition new_entry (name : Name) (st : CState) (c : Cache) : Cache :=
  let e := length (cc_entries c) in
  set_held (λ h, h ++ [0%nat])
    (set_names (insert name e) (cc_sweep_at c) (set_entries (λ es, es ++ [mkCEntry name st]) c)).

Definition hold (e : nat) (c : Cache) : Cache :=
  set_held (λ h, match h !! e with Some n => <[e := S n]> h | None => h end) c.
Definition release (e : nat) (c : Cache) : Cache :=
  set_held (λ h, match h !! e with Some n => <[e := pred n]> h | None => h end) c.

(** [register] under the table's lock. *)
Definition register_table (busy : list nat) (name : Name) (c : Cache) : nat * Cache :=
  let c := if cc_sweep_at c <=? Z.of_nat (size (cc_by_name c)) then sweep busy c else c in
  match cc_by_name c !! name with
  | Some e => (e, hold e c)
  | None => let e := length (cc_entries c) in (e, hold e (new_entry name state_default c))
  end.

(** [register] under the entry's lock. *)
Definition register_entry (e : nat) (v : Version) (immutable write : bool) (c : Cache) : FileRef * Cache :=
  if write || negb immutable then (mkFileRef e None, poison e c) else
  let st := state_of c e in
  if cs_poisoned st then (mkFileRef e None, c) else
  if bool_decide (cs_version st = Some v) then (mkFileRef e (Some v), c) else
  let c := clear_slots e c in
  let st := state_of c e in
  (mkFileRef e (Some v),
   put_state e (mkCState (cs_poisoned st) (Some v) (cs_slots st) (cs_hits st) (cs_misses st) (cs_cold_left st)
     (cs_cold_next st) (cs_failed_fetches st) None (cs_run st) ∅ []) c).

(** ** Invalidating *)

Definition trim_slashes (s : str) : str :=
  let drop_slashes := fix go (l : str) : str := match l with x :: r => if x =? 47 then go r else l | [] => [] end in
  rev (drop_slashes (rev (drop_slashes s))).

(** Whether [name] is [path] or lies under it. *)
Definition under_path (root : Z) (path : str) (name : Name) : bool :=
  let whole_root := bool_decide (path = []) || bool_decide (path = lit ".") in
  (name.1 =? root)
  && (whole_root || bool_decide (name.2 = path) || starts_with (path ++ [47]) name.2).

(** [invalidate_path] under the table's lock: the entries to poison. *)
Definition invalidate_table (root : Z) (path : str) (c : Cache) : list nat * Cache :=
  let path := trim_slashes path in
  let whole_root := bool_decide (path = []) || bool_decide (path = lit ".") in
  let hit := snd <$> filter (λ p, under_path root path p.1 = true) (map_to_list (cc_by_name c)) in
  (hit,
   if whole_root then c else
   match cc_by_name c !! (root, path) with
   | Some _ => c
   | None => new_entry (root, path)
       (mkCState true None [] 0 0 0 0 0 None 0 ∅ []) c
   end).

(** ** Reading *)

Inductive Got := Hit | GFetched (counts pressure : bool) | Waited.

(** [how = match (how, got) ..]. *)
Definition got_join (a b : Got) : Got :=
  match a, b with
  | GFetched c1 p1, GFetched c2 p2 => GFetched (c1 || c2) (p1 || p2)
  | GFetched _ _, _ => a
  | _, GFetched _ _ => b
  | Waited, _ | _, Waited => Waited
  | Hit, Hit => Hit
  end.

(** A read under way: the ref, offset and buffer length it was called with,
    the version and the length cut at the end of the file, and [buf[..done]]
    so far. *)
Record Ctx := mkCtx {
  x_ref : FileRef;
  x_off : Z;
  x_want : Z;
  x_ver : Version;
  x_len : Z;
  x_buf : bytes;
  x_how : Got }.

(** A fetch this thread makes of units [ld_idx, ld_end). *)
Record Load := mkLoad { ld_idx : Z; ld_end : Z; ld_flight : nat; ld_counts : bool; ld_pressure : bool }.

(** Where a thread is, between two critical sections. *)
Inductive pc :=
| PRead (f : FileRef) (off want : Z)
| PUnit (x : Ctx) (idx : Z)
| PWait (x : Ctx) (idx : Z) (fl : nat)
| PAbandon (x : Ctx) (fl : nat)
| PCancelWait (x : Ctx) (fl : nat)
| PReserve (x : Ctx) (ld : Load)
| PPop (x : Ctx) (ld : Load)
| PEvict (x : Ctx) (ld : Load) (key : Z) (e : nat) (idx : Z)
| PFetch (x : Ctx) (ld : Load)
| PFailed (x : Ctx) (ld : Load)
| PInstall (x : Ctx) (ld : Load) (run : bytes)
| PComplete (x : Ctx) (ld : Load) (run first : bytes)
| PUnreserve (x : Ctx) (ld : Load)
| PUnload (x : Ctx) (ld : Load)
| PCancel (x : Ctx) (ld : Load)
| PJudge (x : Ctx)
| PDone (f : FileRef) (off want : Z) (r : option bytes)
| PRegister (name : Name) (v : Version) (immutable write : bool)
| PRegEntry (e : nat) (v : Version) (immutable write : bool)
| PRegistered (f : FileRef)
| PInvalidate (f : FileRef)
| PInvalidatePath (root : Z) (path : str)
| PPoison (root : Z) (path : str) (es : list nat)
| PInvalidated
| PPanic.

(** What the thread does not decide: whether a fetch it meets or waits for is
    past its deadline, which entries others have locked, and what the fetch
    answers and leaves in the buffer. *)
Inductive env := Go | Late | Busy (es : list nat) | Answer (r : result Z Z) (b : bytes).

Section cache.
Context (cf : CacheConfig).

Definition wants (n : Z) : bool := (0 <? n) && (n <? cf_threshold cf).

(** [now]. *)
Definition cache_now (c : Cache) : Z * Cache := (cc_tick c, set_tick c).

Definition declined (x : Ctx) : pc := PDone (x_ref x) (x_off x) (x_want x) None.

(** The head of [read], up to the first unit. *)
Definition read_start (f : FileRef) (off want : Z) (c : Cache) : Cache * pc :=
  match fr_version f with
  | None => (c, PDone f off want None)
  | Some ver =>
      if negb (wants want) || (vs_size ver <=? off) then (c, PDone f off want None) else
      let n := Z.min want (vs_size ver - off) in
      let st := state_of c (fr_entry f) in
      if cs_poisoned st || negb (bool_decide (cs_version st = Some ver)) then (c, PDone f off want None)
      else if 0 <? cs_cold_left st then
        (put_state (fr_entry f)
           (mkCState (cs_poisoned st) (cs_version st) (cs_slots st) (cs_hits st) (cs_misses st) (cs_cold_left st - 1)
              (cs_cold_next st) (cs_failed_fetches st) (cs_next_seq st) (cs_run st) (cs_pressure_evicted st)
              (cs_fetched_before st)) c,
         PDone f off want None)
      else (c, PUnit (mkCtx f off want ver n [] Hit) (off / cf_block cf))
  end.

(** The rest of the loop body of [read] once unit [idx] is had. *)
Definition deliver (x : Ctx) (idx : Z) (data : bytes) (got : Got) : pc :=
  let done := len (x_buf x) in
  let from := x_off x + done - idx * cf_block cf in
  if len data <? from then PPanic else
  let n := Z.min (x_len x - done) (len data - from) in
  let x' := mkCtx (x_ref x) (x_off x) (x_want x) (x_ver x) (x_len x) (x_buf x ++ mem_get data from n)
              (got_join (x_how x) got) in
  if idx =? (x_off x + x_len x - 1) / cf_block cf then PJudge x' else PUnit x' (idx + 1).

Definition is_loading (fl : nat) (s : Slot) : bool :=
  match sl_kind s with Loading f => (f =? fl)%nat | Ready _ _ _ => false end.
Definition not_loading (fl : nat) (s : Slot) : bool := negb (is_loading fl s).

(** [st.slots.retain(|s| !matches!(.. Loading(fl) if ptr_eq))]. *)
Definition unload (fl : nat) (st : CState) : CState := with_slots (List.filter (not_loading fl)) st.

(** [slots.swap_remove(i)]. *)
Definition swap_remove {A} (i : nat) (l : list A) : list A :=
  match last l with
  | Some x => take (length l - 1) (<[i := x]> l)
  | None => l
  end.

(** [.filter_map(Ready => (last, i)).min()]. *)
Fixpoint oldest_ready (i : nat) (l : list Slot) : option (Z * nat) :=
  match l with
  | [] => None
  | s :: l =>
      match sl_kind s, oldest_ready (S i) l with
      | Ready _ last _, Some (t, j) => if last <=? t then Some (last, i) else Some (t, j)
      | Ready _ last _, None => Some (last, i)
      | Loading _, r => r
      end
  end.

Definition evict_in_file (e : nat) (c : Cache) : bool * Cache :=
  let st := state_of c e in
  match oldest_ready 0 (cs_slots st) with
  | None => (false, c)
  | Some (_, i) =>
      let c' := put_state e (with_slots (swap_remove i) st) c in
      (true, match cs_slots st !! i with
             | Some (mkSlot _ (Ready data _ lru_key)) => set_used (λ u, u - len data) (set_lru (delete lru_key) c')
             | _ => c'
             end)
  end.

(** The loop that makes room in the file: the end of the run, or [None] when
    every slot is mid-fetch.  Each round but the last drops a slot. *)
Fixpoint make_room (n : nat) (e : nat) (idx end_ : Z) (c : Cache) : option Z * Cache :=
  let slots := len (cs_slots (state_of c e)) in
  if slots + (end_ - idx) <=? cf_blocks_per_file cf then (Some end_, c) else
  match n with
  | O => (None, c)
  | S n =>
      match evict_in_file e c with
      | (true, c) => make_room n e idx end_ c
      | (false, c) =>
          if slots <? cf_blocks_per_file cf then (Some (idx + (cf_blocks_per_file cf - slots)), c) else (None, c)
      end
  end.

(** [while end < idx + run && end < units && !any(idx == end) { end += 1 }]. *)
Fixpoint run_end (n : nat) (slots : list Slot) (end_ limit units : Z) : Z :=
  match n with
  | O => end_
  | S n =>
      if (end_ <? limit) && (end_ <? units) && negb (existsb (λ s, sl_idx s =? end_) slots)
      then run_end n slots (end_ + 1) limit units else end_
  end.

Definition div_ceil (a b : Z) : Z := (a + b - 1) / b.

(** [for j in idx..end { st.slots.push(Loading) }]. *)
Definition loading_slots (idx end_ : Z) (fl : nat) : list Slot :=
  (λ j, mkSlot j (Loading fl)) <$> seqZ idx (end_ - idx).

(** [miss], up to the fetch; the file's lock is still held. *)
Definition miss (x : Ctx) (idx : Z) (c : Cache) : Cache * pc :=
  let e := fr_entry (x_ref x) in
  let st := state_of c e in
  let units := div_ceil (vs_size (x_ver x)) (cf_block cf) in
  let pressure := bool_decide (idx ∈ cs_pressure_evicted st) in
  let '(counts, before) :=
    if pressure then (false, cs_fetched_before st)
    else let '(was, before) := refetch (cs_fetched_before st) idx in
         (was || cf_cold_counts_first_fetch cf, before) in
  let run := if bool_decide (cs_next_seq st = Some idx) then Z.max (cs_run st) 1 else 1 in
  let end_ := run_end (Z.to_nat run) (cs_slots st) (idx + 1) (idx + run) units in
  let c := put_state e
    (mkCState (cs_poisoned st) (cs_version st) (cs_slots st) (cs_hits st) (cs_misses st) (cs_cold_left st)
       (cs_cold_next st) (cs_failed_fetches st) (cs_next_seq st) (cs_run st)
       (cs_pressure_evicted st ∖ {[idx]}) before) c in
  match make_room (S (length (cs_slots st))) e idx end_ c with
  | (None, c) => (c, declined x)
  | (Some end_, c) =>
      let st := state_of c e in
      let fl := length (cc_flights c) in
      let c := put_state e
        (mkCState (cs_poisoned st) (cs_version st) (cs_slots st ++ loading_slots idx end_ fl) (cs_hits st)
           (cs_misses st) (cs_cold_left st) (cs_cold_next st) (cs_failed_fetches st) (Some end_)
           (Z.min (run * 2) (cf_max_run cf)) (cs_pressure_evicted st) (cs_fetched_before st)) c in
      (set_flights (λ fs, fs ++ [None]) c, PReserve x (mkLoad idx end_ fl counts pressure))
  end.

Fixpoint touch_slot (idx tick : Z) (l : list Slot) : list Slot :=
  match l with
  | [] => []
  | s :: l =>
      if sl_idx s =? idx
      then mkSlot (sl_idx s) (match sl_kind s with Ready d _ k => Ready d tick k | k => k end) :: l
      else s :: touch_slot idx tick l
  end.

(** [slots.iter_mut().find(|s| s.idx == idx)]. *)
Definition find_slot (idx : Z) (l : list Slot) : option Slot := List.find (λ s, sl_idx s =? idx) l.

(** One round of the loop of [unit]. *)
Definition unit_look (ev : env) (x : Ctx) (idx : Z) (c : Cache) : Cache * pc :=
  let e := fr_entry (x_ref x) in
  let st := state_of c e in
  if cs_poisoned st || negb (bool_decide (cs_version st = Some (x_ver x))) then (c, declined x) else
  let '(tick, c) := cache_now c in
  match find_slot idx (cs_slots st) with
  | Some (mkSlot _ (Ready data _ _)) =>
      (put_state e (with_slots (touch_slot idx tick) st) c, deliver x idx data Hit)
  | Some (mkSlot _ (Loading fl)) =>
      match ev with
      | Late => (complete fl None (put_state e (unload fl st) c), PUnit x idx)
      | _ => (c, PWait x idx fl)
      end
  | None => miss x idx c
  end.

(** [Flight::wait] and what [unit] makes of it. *)
Definition unit_wait (ev : env) (x : Ctx) (idx : Z) (fl : nat) (c : Cache) : option (Cache * pc) :=
  match cc_flights c !! fl with
  | Some (Some (Some (base, run))) =>
      let from := (idx - base) * cf_block cf in
      let to := Z.min (from + cf_block cf) (len run) in
      if (idx <? base) || (to <? from) then Some (c, PPanic)
      else Some (c, deliver x idx (mem_get run from (to - from)) Waited)
  | Some (Some None) => Some (c, declined x)
  | _ => match ev with Late => Some (c, PAbandon x fl) | _ => None end
  end.

(** [reserve]: the load and the exchange that did not lose a race. *)
Definition load_want (x : Ctx) (ld : Load) : Z :=
  Z.min (ld_end ld * cf_block cf) (vs_size (x_ver x)) - ld_idx ld * cf_block cf.
Definition reserve_try (x : Ctx) (ld : Load) (c : Cache) : Cache * pc :=
  let n := load_want x ld in
  if cf_max_bytes cf <? n then (c, PUnload x ld)
  else if cc_used c + n <=? cf_max_bytes cf then (set_used (λ u, u + n) c, PFetch x ld)
  else (c, PPop x ld).

(** [lru.pop_first()]. *)
Definition first_key (m : gmap Z (nat * Z)) : option Z :=
  foldr (λ k o, match o with Some j => Some (Z.min k j) | None => Some k end) None (map_to_list m).*1.
Definition evict_pop (x : Ctx) (ld : Load) (c : Cache) : Cache * pc :=
  match first_key (cc_lru c) with
  | None => (c, PUnload x ld)
  | Some key =>
      match cc_lru c !! key with
      | Some (e, idx) => (set_lru (delete key) c, PEvict x ld key e idx)
      | None => (c, PUnload x ld)
      end
  end.

(** [position(|s| s.idx == idx && Ready { lru_key } if lru_key == key)]. *)
Fixpoint lru_pos (i : nat) (idx key : Z) (l : list Slot) : option nat :=
  match l with
  | [] => None
  | s :: l =>
      if (sl_idx s =? idx) && match sl_kind s with Ready _ _ k => k =? key | Loading _ => false end
      then Some i else lru_pos (S i) idx key l
  end.

Definition refile (i : nat) (l : list Slot) : list Slot :=
  match l !! i with
  | Some (mkSlot idx (Ready d last _)) => <[i := mkSlot idx (Ready d last last)]> l
  | _ => l
  end.

(** The rest of a round of [evict_oldest], under the entry's lock. *)
Definition evict_entry (x : Ctx) (ld : Load) (key : Z) (e : nat) (idx : Z) (c : Cache) : Cache * pc :=
  let st := state_of c e in
  match lru_pos 0 idx key (cs_slots st) with
  | None => (c, PPop x ld)
  | Some i =>
      match cs_slots st !! i with
      | Some (mkSlot _ (Ready data last _)) =>
          if key <? last then
            (set_lru (insert last (e, idx)) (put_state e (with_slots (refile i) st) c), PPop x ld)
          else
            let c := set_used (λ u, u - len data) (put_state e (with_slots (swap_remove i) st) c) in
            let st := state_of c e in
            let marked :=
              if Z.of_nat (size (cs_pressure_evicted st)) <? PRESSURE_MEMORY
              then {[idx]} ∪ cs_pressure_evicted st else cs_pressure_evicted st in
            (put_state e
               (mkCState (cs_poisoned st) (cs_version st) (cs_slots st) (cs_hits st) (cs_misses st) (cs_cold_left st)
                  (cs_cold_next st) (cs_failed_fetches st) (cs_next_seq st) (cs_run st) marked (cs_fetched_before st)) c,
             PReserve x ld)
      | _ => (c, PPop x ld)
      end
  end.

(** What [load] does with the fetch's answer. *)
Definition fetch_answer (x : Ctx) (ld : Load) (r : result Z Z) (b : bytes) : pc :=
  match r with
  | Ok n => if n =? load_want x ld then PInstall x ld b else PFailed x ld
  | Err _ => PFailed x ld
  end.

(** A fetch that failed or came back short. *)
Definition fetch_failed (x : Ctx) (ld : Load) (c : Cache) : Cache * pc :=
  let e := fr_entry (x_ref x) in
  let st := state_of c e in
  let st := mkCState (cs_poisoned st) (cs_version st) (cs_slots st) (cs_hits st) (cs_misses st) (cs_cold_left st)
    (cs_cold_next st) (cs_failed_fetches st + 1) (cs_next_seq st) (cs_run st) (cs_pressure_evicted st)
    (cs_fetched_before st) in
  let c := put_state e st c in
  (if (COLD_AFTER_FAILED_FETCHES <=? cs_failed_fetches st) && (cs_cold_left st =? 0) then go_cold e c else c,
   PUnreserve x ld).

(** Unit [j] of the run fetched for [idx]. *)
Definition run_unit (run : bytes) (idx j : Z) : bytes :=
  let from := (j - idx) * cf_block cf in
  mem_get run from (Z.min (from + cf_block cf) (len run) - from).

(** The slot a finished fetch fills: [find(|s| s.idx == j && Loading(flight))]. *)
Fixpoint fill_slot (j : Z) (fl : nat) (data : bytes) (tick : Z) (l : list Slot) : option (list Slot) :=
  match l with
  | [] => None
  | s :: l =>
      if (sl_idx s =? j) && is_loading fl s
      then Some (mkSlot j (Ready data tick tick) :: l)
      else cons s <$> fill_slot j fl data tick l
  end.

(** [for j in idx..end]: the bytes installed. *)
Fixpoint install_units (js : list Z) (e : nat) (idx : Z) (fl : nat) (run : bytes) (c : Cache) : Z * Cache :=
  match js with
  | [] => (0, c)
  | j :: js =>
      let st := state_of c e in
      let data := run_unit run idx j in
      match fill_slot j fl data (cc_tick c) (cs_slots st) with
      | None => install_units js e idx fl run c
      | Some slots =>
          let tick := cc_tick c in
          let c := set_lru (insert tick (e, j)) (put_state e (with_slots (λ _, slots) st) (set_tick c)) in
          let '(n, c) := install_units js e idx fl run c in
          (len data + n, c)
      end
  end.

Definition install (x : Ctx) (ld : Load) (run : bytes) (c : Cache) : Cache * pc :=
  let e := fr_entry (x_ref x) in
  let st := state_of c e in
  if cs_poisoned st || negb (bool_decide (cs_version st = Some (x_ver x))) then (c, PUnreserve x ld) else
  let first := existsb (λ s, (sl_idx s =? ld_idx ld) && is_loading (ld_flight ld) s) (cs_slots st) in
  let '(installed, c) := install_units (seqZ (ld_idx ld) (ld_end ld - ld_idx ld)) e (ld_idx ld) (ld_flight ld) run c in
  let c := set_used (λ u, u - (load_want x ld - installed)) c in
  (c, if first then PComplete x ld run (run_unit run (ld_idx ld) (ld_idx ld)) else PUnload x ld).

Definition judge (x : Ctx) (c : Cache) : Cache * pc :=
  let e := fr_entry (x_ref x) in
  let st := state_of c e in
  let fin := PDone (x_ref x) (x_off x) (x_want x) (Some (x_buf x)) in
  let counted hits misses := put_state e
    (mkCState (cs_poisoned st) (cs_version st) (cs_slots st) hits misses (cs_cold_left st)
       (cs_cold_next st) (cs_failed_fetches st) (cs_next_seq st) (cs_run st) (cs_pressure_evicted st)
       (cs_fetched_before st)) in
  match x_how x with
  | Hit => (counted (Z.min (cs_hits st + 1) (u32_max - 1)) (cs_misses st) c, fin)
  | Waited | GFetched _ true | GFetched false _ => (c, fin)
  | GFetched true false =>
      let misses := cs_misses st + 1 in
      if misses <? COLD_AFTER_MISSES then (counted (cs_hits st) misses c, fin) else
      let c := counted (cs_hits st) misses c in
      let c := if cs_hits st <? misses * cf_cold_hits_per_miss cf then go_cold e c else c in
      let st := state_of c e in
      (put_state e
         (mkCState (cs_poisoned st) (cs_version st) (cs_slots st) 0 0 (cs_cold_left st)
            (cs_cold_next st) (cs_failed_fetches st) (cs_next_seq st) (cs_run st) (cs_pressure_evicted st)
            (cs_fetched_before st)) c, fin)
  end.

(** ** A thread's next critical section *)

Definition busy_of (ev : env) : list nat := match ev with Busy es => es | _ => [] end.

(** [None]: the call has returned, or waits for another thread, for the lock
    of the file table (which [invalidate_path] keeps while it poisons) or
    for the director. *)
Definition step (ev : env) (c : Cache) (p : pc) : option (Cache * pc) :=
  match p with
  | PRead f off want => Some (read_start f off want c)
  | PUnit x idx => Some (unit_look ev x idx c)
  | PWait x idx fl => unit_wait ev x idx fl c
  | PAbandon x fl =>
      let e := fr_entry (x_ref x) in
      Some (put_state e (unload fl (state_of c e)) c, PCancelWait x fl)
  | PCancelWait x fl => Some (complete fl None c, declined x)
  | PReserve x ld => Some (reserve_try x ld c)
  | PPop x ld => Some (evict_pop x ld c)
  | PEvict x ld key e idx => Some (evict_entry x ld key e idx c)
  | PFetch x ld => match ev with Answer r b => Some (c, fetch_answer x ld r b) | _ => None end
  | PFailed x ld => Some (fetch_failed x ld c)
  | PInstall x ld run => Some (install x ld run c)
  | PComplete x ld run first =>
      Some (complete (ld_flight ld) (Some (ld_idx ld, run)) c,
            deliver x (ld_idx ld) first (GFetched (ld_counts ld) (ld_pressure ld)))
  | PUnreserve x ld => Some (set_used (λ u, u - load_want x ld) c, PUnload x ld)
  | PUnload x ld =>
      let e := fr_entry (x_ref x) in
      Some (put_state e (unload (ld_flight ld) (state_of c e)) c, PCancel x ld)
  | PCancel x ld => Some (complete (ld_flight ld) None c, declined x)
  | PJudge x => Some (judge x c)
  | PRegister name v immutable write =>
      if cc_locked c then None else
      let '(e, c) := register_table (busy_of ev) name c in Some (c, PRegEntry e v immutable write)
  | PRegEntry e v immutable write =>
      let '(f, c) := register_entry e v immutable write c in Some (c, PRegistered f)
  | PInvalidate f => Some (poison (fr_entry f) c, PInvalidated)
  | PInvalidatePath root path =>
      if cc_locked c then None else
      let '(es, c) := invalidate_table root path c in Some (set_locked true c, PPoison root path es)
  | PPoison root path (e :: es) => Some (poison e c, PPoison root path es)
  | PPoison _ _ [] => Some (set_locked false c, PInvalidated)
  | PDone _ _ _ _ | PRegistered _ | PInvalidated | PPanic => None
  end.
End cache.
