(* ===== verification/CacheInv.v ===== *)
(** CacheInv: what holds of the read cache between any two steps
    (rust/crates/vfs-ipc/src/readcache).

    [content] is what the director serves for each version of each file; a
    fetch that succeeds in full brings those bytes.  [Inv] says that every
    unit held, every finished fetch and every partly served read agrees with
    it; [Acc] that the budget counts exactly the units held and the bytes
    reserved by fetches under way. *)

From S2P Require Import Prelude Text Seg NtBuf ReadCache.

(** ** Entries and their states *)

Lemma lookup_put_state e st c e' :
  cc_entries (put_state e st c) !! e' =
    if decide (e' = e) then (λ en, mkCEntry (ce_name en) st) <$> cc_entries c !! e else cc_entries c !! e'.
Proof.
  unfold put_state, set_entries. cbn. destruct (cc_entries c !! e) as [en|] eqn:E.
  - destruct (decide (e' = e)) as [->|Hne]; [|by rewrite list_lookup_insert_ne].
    rewrite list_lookup_insert_eq; [done|]. by eapply lookup_lt_Some.
  - case_decide; [by subst|done].
Qed.

Lemma put_state_length e st c : length (cc_entries (put_state e st c)) = length (cc_entries c).
Proof. unfold put_state, set_entries. cbn. case_match; [|done]. apply length_insert. Qed.

Lemma state_put_same e st c : is_Some (cc_entries c !! e) → state_of (put_state e st c) e = st.
Proof. intros [en He]. unfold state_of. by rewrite lookup_put_state, decide_True, He. Qed.

Lemma state_put_other e st c e' : e' ≠ e → state_of (put_state e st c) e' = state_of c e'.
Proof. intros. unfold state_of. by rewrite lookup_put_state, decide_False. Qed.

(** What a reader and the budget see of a state. *)
Definition core (st : CState) : bool * option Version * list Slot := (cs_poisoned st, cs_version st, cs_slots st).

(** ** The budget *)

Definition sum_by {A} (f : A → Z) (l : list A) : Z := foldr (λ x n, f x + n) 0 l.

Lemma sum_by_cons {A} (f : A → Z) x l : sum_by f (x :: l) = f x + sum_by f l.
Proof. done. Qed.

Lemma sum_by_app {A} (f : A → Z) l k : sum_by f (l ++ k) = sum_by f l + sum_by f k.
Proof. induction l as [|x l IH]; [done|]. cbn [app]. rewrite !sum_by_cons, IH. lia. Qed.

Lemma sum_by_perm {A} (f : A → Z) l k : l ≡ₚ k → sum_by f l = sum_by f k.
Proof. induction 1; rewrite ?sum_by_cons; lia. Qed.

Lemma sum_by_nonneg {A} (f : A → Z) l : (∀ x, 0 ≤ f x) → 0 ≤ sum_by f l.
Proof. intros H. induction l as [|x l IH]; [done|]. rewrite sum_by_cons. specialize (H x). lia. Qed.

Lemma sum_by_insert {A} (f : A → Z) l i x y :
  l !! i = Some x → sum_by f (<[i := y]> l) = sum_by f l - f x + f y.
Proof.
  revert i. induction l as [|z l IH]; intros [|i] Hi; try done.
  - injection Hi as <-. change (<[0%nat:=y]> (z :: l)) with (y :: l). rewrite !sum_by_cons. lia.
  - change (<[S i:=y]> (z :: l)) with (z :: <[i:=y]> l). rewrite !sum_by_cons, (IH i) by done. lia.
Qed.

Lemma sum_by_elem {A} (f : A → Z) l i x : (∀ x, 0 ≤ f x) → l !! i = Some x → f x ≤ sum_by f l.
Proof.
  intros H. revert i. induction l as [|z l IH]; intros [|i] Hi; try done; rewrite sum_by_cons.
  - injection Hi as <-. pose proof (sum_by_nonneg f l H). lia.
  - specialize (IH i Hi). specialize (H z). lia.
Qed.

Definition slot_bytes (s : Slot) : Z := match sl_kind s with Ready d _ _ => len d | Loading _ => 0 end.
Definition slots_bytes (l : list Slot) : Z := sum_by slot_bytes l.
Definition entry_bytes (en : CEntry) : Z := slots_bytes (cs_slots (ce_state en)).
Definition total (c : Cache) : Z := sum_by entry_bytes (cc_entries c).

Lemma slot_bytes_nonneg s : 0 ≤ slot_bytes s.
Proof. unfold slot_bytes. case_match; [apply len_nonneg|done]. Qed.

Lemma slots_bytes_nonneg l : 0 ≤ slots_bytes l.
Proof. apply sum_by_nonneg, slot_bytes_nonneg. Qed.

Lemma slots_bytes_app l k : slots_bytes (l ++ k) = slots_bytes l + slots_bytes k.
Proof. apply sum_by_app. Qed.

Lemma total_nonneg c : 0 ≤ total c.
Proof. apply sum_by_nonneg. intros en. apply slots_bytes_nonneg. Qed.

Lemma state_le_total c e : slots_bytes (cs_slots (state_of c e)) ≤ total c.
Proof.
  unfold state_of. destruct (cc_entries c !! e) as [en|] eqn:He; [|apply total_nonneg].
  apply (sum_by_elem entry_bytes _ _ _ (λ en, slots_bytes_nonneg _) He).
Qed.

Lemma total_put e st c :
  is_Some (cc_entries c !! e) →
  total (put_state e st c) = total c - slots_bytes (cs_slots (state_of c e)) + slots_bytes (cs_slots st).
Proof.
  intros [en He]. unfold total, put_state, set_entries, state_of. cbn. rewrite He.
  exact (sum_by_insert entry_bytes _ _ _ (mkCEntry (ce_name en) st) He).
Qed.

Lemma put_missing e st c : cc_entries c !! e = None → put_state e st c = c.
Proof. intros He. unfold put_state, set_entries. cbn. rewrite He. by destruct c. Qed.

(** ** Slots *)

Lemma swap_remove_perm {A} (i : nat) (l : list A) x : l !! i = Some x → x :: swap_remove i l ≡ₚ l.
Proof.
  intros Hi. unfold swap_remove. destruct (last l) as [y|] eqn:Hy; [|by apply last_None in Hy as ->].
  apply last_Some in Hy as [k ->]. rewrite length_app. cbn [length].
  replace (length k + 1 - 1)%nat with (length k) by lia.
  destruct (decide (i < length k)%nat) as [Hlt|Hge].
  - rewrite insert_app_l, take_app_length' by (rewrite ?length_insert; lia).
    rewrite lookup_app_l in Hi by done. rewrite <- (take_drop_middle k i x Hi) at 2.
    rewrite insert_take_drop by done. rewrite <- app_assoc. cbn [app].
    rewrite (Permutation_middle (take i k) _ x). apply Permutation_app_head.
    apply perm_skip. by rewrite Permutation_cons_append.
  - rewrite lookup_app_r in Hi by lia. apply list_lookup_singleton_Some in Hi as [Hi ->].
    rewrite insert_app_r_alt, take_app_length' by lia. apply Permutation_cons_append.
Qed.

Lemma oldest_ready_at i l t j :
  oldest_ready i l = Some (t, j) → (i ≤ j)%nat ∧ ∃ s d k, l !! (j - i)%nat = Some s ∧ sl_kind s = Ready d t k.
Proof.
  revert i t j. induction l as [|s l IH]; intros i t j H; [done|]. cbn [oldest_ready] in H.
  assert (∀ t j, oldest_ready (S i) l = Some (t, j) →
    (i ≤ j)%nat ∧ ∃ s' d k, (s :: l) !! (j - i)%nat = Some s' ∧ sl_kind s' = Ready d t k) as Hrec.
  { intros t' j' (? & s' & d & k & Hl & Hk)%IH. split; [lia|]. exists s', d, k.
    by replace (j' - i)%nat with (S (j' - S i)) by lia. }
  destruct (sl_kind s) as [d la k|fl] eqn:Ek; [|by apply Hrec].
  assert ((i ≤ i)%nat ∧ ∃ s' d' k', (s :: l) !! (i - i)%nat = Some s' ∧ sl_kind s' = Ready d' la k') as Hhere.
  { split; [done|]. rewrite Nat.sub_diag. by exists s, d, k. }
  destruct (oldest_ready (S i) l) as [[t' j']|]; [case_match|]; injection H as <- <-; auto.
Qed.

Lemma unload_bytes fl l : slots_bytes (List.filter (not_loading fl) l) = slots_bytes l.
Proof.
  unfold slots_bytes. induction l as [|s l IH]; [done|]. cbn [List.filter]. unfold not_loading, is_loading in *.
  destruct (negb _) eqn:E; rewrite ?sum_by_cons; [lia|]. unfold slot_bytes at 2.
  destruct (sl_kind s); [done|lia].
Qed.

Lemma touch_bytes idx tick l : slots_bytes (touch_slot idx tick l) = slots_bytes l.
Proof.
  unfold slots_bytes. induction l as [|s l IH]; [done|]. cbn [touch_slot]. case_match; rewrite !sum_by_cons; [|lia].
  unfold slot_bytes at 1 3. cbn. by destruct (sl_kind s).
Qed.

Lemma refile_bytes i l : slots_bytes (refile i l) = slots_bytes l.
Proof.
  unfold refile. repeat case_match; try done. subst. unfold slots_bytes.
  erewrite sum_by_insert by done. unfold slot_bytes. cbn. lia.
Qed.

Lemma loading_bytes idx end_ fl : slots_bytes (loading_slots idx end_ fl) = 0.
Proof. unfold loading_slots, slots_bytes. induction (seqZ idx (end_ - idx)); [done|]. done. Qed.

Lemma fill_slot_bytes j fl d tick l l' :
  fill_slot j fl d tick l = Some l' → slots_bytes l' = slots_bytes l + len d.
Proof.
  unfold slots_bytes. revert l'. induction l as [|s l IH]; intros l' H; [done|]. cbn [fill_slot] in H.
  destruct ((sl_idx s =? j) && is_loading fl s) eqn:E.
  - injection H as <-. rewrite !sum_by_cons. apply andb_true_iff in E as [_ E]. unfold is_loading in E.
    unfold slot_bytes at 1 3. cbn. destruct (sl_kind s); [done|]. lia.
  - apply fmap_Some in H as (k & Hk & ->). rewrite !sum_by_cons, (IH k) by done. lia.
Qed.

Lemma swap_remove_bytes i l s : l !! i = Some s → slots_bytes (swap_remove i l) = slots_bytes l - slot_bytes s.
Proof.
  intros Hi. unfold slots_bytes. rewrite <- (sum_by_perm _ _ _ (swap_remove_perm i l s Hi)), sum_by_cons. lia.
Qed.

Section budget.
Context (cf : CacheConfig).

(** [r]: bytes reserved and not yet installed. *)
Definition Acc (r : Z) (c : Cache) : Prop :=
  cc_used c = total c + r ∧ 0 ≤ r ∧ cc_used c ≤ cf_max_bytes cf < u64_max.

Lemma Acc_sub r c n k :
  Acc r c → 0 ≤ n ≤ k → k ≤ cc_used c → cc_used (set_used (λ u, u - n) c) = cc_used c - n.
Proof.
  intros (E & ? & ?) ??. pose proof (total_nonneg c). unfold set_used, as_u64. cbn.
  apply Z.mod_small. unfold u64_max in *. lia.
Qed.

(** Slots out of their entry but not yet given back. *)
Lemma drop_slots_Acc l c r :
  0 ≤ r → cc_used c = total c + r + slots_bytes l → cc_used c ≤ cf_max_bytes cf < u64_max →
  Acc r (foldl drop_slot c l).
Proof.
  intros Hr. revert c. induction l as [|s l IH]; intros c E Hm; [by rewrite Z.add_0_r in E|].
  cbn [foldl]. unfold slots_bytes in E. rewrite sum_by_cons in E. fold (slots_bytes l) in E.
  pose proof (slots_bytes_nonneg l). pose proof (total_nonneg c). unfold slot_bytes, drop_slot in *.
  destruct (sl_kind s) as [d la k|fl].
  - pose proof (len_nonneg d).
    assert (cc_used (set_used (λ u, u - len d) (set_lru (delete k) c)) = cc_used c - len d) as Eu.
    { cbn. unfold as_u64. apply Z.mod_small. lia. }
    apply IH; rewrite Eu; [|lia].
    change (total (set_used (λ u, u - len d) (set_lru (delete k) c))) with (total c). lia.
  - apply IH; [|done]. change (total (complete fl None c)) with (total c). cbn in *. lia.
Qed.

Lemma drop_slots_entries l c : cc_entries (foldl drop_slot c l) = cc_entries c.
Proof. revert c. induction l as [|s l IH]; intros c; [done|]. cbn [foldl]. rewrite IH. unfold drop_slot. by case_match. Qed.

Lemma clear_slots_Acc e r c : Acc r c → Acc r (clear_slots e c).
Proof.
  intros HA. pose proof HA as (E & Hr & Hm). unfold clear_slots. destruct (cc_entries c !! e) eqn:He.
  - apply drop_slots_Acc; [done| |done]. rewrite total_put by done. cbn. lia.
  - rewrite put_missing by done. unfold state_of. rewrite He. done.
Qed.

(** A state with as many bytes. *)
Lemma put_Acc e st r c :
  slots_bytes (cs_slots st) = slots_bytes (cs_slots (state_of c e)) → Acc r c → Acc r (put_state e st c).
Proof.
  intros Es HA. pose proof HA as (E & ? & ?). destruct (cc_entries c !! e) eqn:He; [|by rewrite put_missing].
  unfold Acc. change (cc_used (put_state e st c)) with (cc_used c). rewrite total_put by done. lia.
Qed.

Lemma put_same_Acc e st r c : cs_slots st = cs_slots (state_of c e) → Acc r c → Acc r (put_state e st c).
Proof. intros Es. apply put_Acc. by rewrite Es. Qed.

Lemma complete_Acc fl v r c : Acc r c → Acc r (complete fl v c).
Proof. done. Qed.
Lemma lru_Acc f r c : Acc r c → Acc r (set_lru f c).
Proof. done. Qed.
Lemma tick_Acc r c : Acc r c → Acc r (set_tick c).
Proof. done. Qed.
Lemma held_Acc f r c : Acc r c → Acc r (set_held f c).
Proof. done. Qed.
Lemma names_Acc f n r c : Acc r c → Acc r (set_names f n c).
Proof. done. Qed.
Lemma flights_Acc f r c : Acc r c → Acc r (set_flights f c).
Proof. done. Qed.
Lemma locked_Acc b r c : Acc r c → Acc r (set_locked b c).
Proof. done. Qed.

Lemma poison_Acc e r c : Acc r c → Acc r (poison e c).
Proof. intros H. unfold poison. apply put_same_Acc; [done|]. by apply clear_slots_Acc. Qed.

Lemma go_cold_Acc e r c : Acc r c → Acc r (go_cold e c).
Proof. intros H. unfold go_cold. apply clear_slots_Acc. by apply put_same_Acc. Qed.

Lemma slots_entry c e i s : cs_slots (state_of c e) !! i = Some s → is_Some (cc_entries c !! e).
Proof. unfold state_of. destruct (cc_entries c !! e); [done|]. by cbn. Qed.

(** A ready unit leaves with its bytes. *)
Lemma remove_ready_Acc e i s r c :
  cs_slots (state_of c e) !! i = Some s →
  Acc r c → Acc r (set_used (λ u, u - slot_bytes s) (put_state e (with_slots (swap_remove i) (state_of c e)) c)).
Proof.
  intros Hi (E & Hr & Hm). pose proof (slots_entry _ _ _ _ Hi) as He.
  pose proof (slot_bytes_nonneg s). pose proof (state_le_total c e).
  pose proof (sum_by_elem slot_bytes _ _ _ slot_bytes_nonneg Hi) as Hs. fold (slots_bytes (cs_slots (state_of c e))) in Hs.
  set (c1 := put_state e (with_slots (swap_remove i) (state_of c e)) c).
  assert (total c1 = total c - slot_bytes s) as Et.
  { unfold c1. rewrite total_put by done. cbn [with_slots cs_slots]. rewrite (swap_remove_bytes _ _ _ Hi). lia. }
  unfold Acc. change (total (set_used (λ u, u - slot_bytes s) c1)) with (total c1).
  change (cc_used (set_used (λ u, u - slot_bytes s) c1)) with (as_u64 (cc_used c - slot_bytes s)).
  unfold as_u64. rewrite Z.mod_small by lia. lia.
Qed.

Lemma evict_in_file_Acc e r c : Acc r c → Acc r (evict_in_file e c).2.
Proof.
  intros HA. unfold evict_in_file. destruct (oldest_ready 0 (cs_slots (state_of c e))) as [[t i]|] eqn:Eo; [|done].
  apply oldest_ready_at in Eo as (_ & [j k'] & d & k & Hi & Hk). rewrite Nat.sub_0_r in Hi. cbn in Hk. subst k'.
  rewrite Hi. cbn [snd]. exact (remove_ready_Acc e i _ r c Hi HA).
Qed.

Lemma make_room_Acc n e idx end_ r c : Acc r c → Acc r (make_room cf n e idx end_ c).2.
Proof.
  revert c. induction n as [|n IH]; intros c HA; cbn [make_room]; case_match; try done.
  pose proof (evict_in_file_Acc e r c HA) as HA'. destruct (evict_in_file e c) as [[] c']; cbn [snd] in *; [auto|].
  by case_match.
Qed.

Lemma miss_Acc x idx r c : Acc r c → Acc r (miss cf x idx c).1.
Proof.
  intros HA. unfold miss. set (e := fr_entry (x_ref x)). destruct (if bool_decide _ then _ else _) as [counts before].
  match goal with |- context [make_room cf ?n e idx ?en ?c1] =>
    assert (Acc r c1) as H1 by (by apply put_same_Acc); pose proof (make_room_Acc n e idx en r c1 H1) as H2;
    destruct (make_room cf n e idx en c1) as [[end_|] c2] end; [|done].
  cbn [fst snd] in *. apply flights_Acc.
  apply put_Acc; [|done]. cbn [cs_slots]. rewrite slots_bytes_app, loading_bytes. lia.
Qed.

Lemma unit_look_Acc ev x idx r c : Acc r c → Acc r (unit_look cf ev x idx c).1.
Proof.
  intros HA. unfold unit_look, cache_now. case_match; [done|].
  destruct (find_slot _ _) as [[? [d la k|fl]]|].
  - cbn [fst]. apply put_Acc; [|done]. apply touch_bytes.
  - destruct ev; try done. cbn [fst]. apply complete_Acc, put_Acc; [|done]. apply unload_bytes.
  - by apply miss_Acc.
Qed.

Lemma evict_entry_Acc x ld key e idx r c : Acc r c → Acc r (evict_entry x ld key e idx c).1.
Proof.
  intros HA. unfold evict_entry. destruct (lru_pos _ _ _ _) as [i|]; [|done].
  destruct (cs_slots (state_of c e) !! i) as [[j [d la k|fl]]|] eqn:Hi; [|done..].
  case_match; cbn [fst].
  - apply lru_Acc, put_Acc; [|done]. apply refile_bytes.
  - apply put_same_Acc; [done|]. exact (remove_ready_Acc e i _ r c Hi HA).
Qed.

Lemma fetch_failed_Acc x ld r c : Acc r c → Acc r (fetch_failed x ld c).1.
Proof.
  intros HA. unfold fetch_failed. cbn [fst]. case_match; [apply go_cold_Acc|]; by apply put_same_Acc.
Qed.

Lemma judge_Acc x r c : Acc r c → Acc r (judge cf x c).1.
Proof.
  intros HA. unfold judge. destruct (x_how x) as [|[] []|]; cbn [fst]; try done; [by apply put_same_Acc|].
  case_match; cbn [fst]; [by apply put_same_Acc|]. apply put_same_Acc; [done|].
  case_match; [apply go_cold_Acc|]; by apply put_same_Acc.
Qed.

Lemma read_start_Acc f off want r c : Acc r c → Acc r (read_start cf f off want c).1.
Proof. intros HA. unfold read_start. repeat case_match; try done. cbn [fst]. by apply put_same_Acc. Qed.

Lemma new_entry_Acc name st r c : cs_slots st = [] → Acc r c → Acc r (new_entry name st c).
Proof.
  intros Es (E & ? & ?). split; [|done].
  change (total (new_entry name st c)) with (sum_by entry_bytes (cc_entries c ++ [mkCEntry name st])).
  change (cc_used (new_entry name st c)) with (cc_used c).
  rewrite sum_by_app, sum_by_cons. unfold entry_bytes at 2. cbn [ce_state]. rewrite Es. cbn. unfold total in E. lia.
Qed.

Lemma register_table_Acc busy name r c : Acc r c → Acc r (register_table busy name c).2.
Proof.
  intros HA. unfold register_table. set (c1 := if cc_sweep_at c <=? _ then sweep busy c else c). assert (Acc r c1) as H1 by (unfold c1; by case_match).
  case_match; cbn [snd]; [done|]. apply held_Acc. by apply new_entry_Acc.
Qed.

Lemma register_entry_Acc e v im wr r c : Acc r c → Acc r (register_entry e v im wr c).2.
Proof.
  intros HA. unfold register_entry. case_match; cbn [snd]; [by apply poison_Acc|].
  repeat case_match; cbn [snd]; try done. apply put_same_Acc; [done|]. by apply clear_slots_Acc.
Qed.

Lemma invalidate_table_Acc root path r c : Acc r c → Acc r (invalidate_table root path c).2.
Proof. intros HA. unfold invalidate_table. cbn [snd]. repeat case_match; try done. by apply new_entry_Acc. Qed.

(** What is installed is paid for. *)
Lemma install_units_Acc js e idx fl run r c :
  Acc r c →
  let '(n, c') := install_units cf js e idx fl run c in
  0 ≤ n ≤ sum_by (λ j, len (run_unit cf run idx j)) js ∧
  cc_used c' = cc_used c ∧ cc_used c' = total c' + r - n.
Proof.
  intros (E & _). revert r c E. induction js as [|j js IH]; intros r c E; cbn [install_units].
  { split; [done|]. split; [done|]. rewrite E. lia. }
  pose proof (len_nonneg (run_unit cf run idx j)). rewrite sum_by_cons.
  destruct (fill_slot _ _ _ _ _) as [l|] eqn:Ef.
  - set (d := run_unit cf run idx j) in *.
    set (c1 := set_lru _ (put_state e _ (set_tick c))).
    assert (total c1 = total c + len d) as Et.
    { assert (is_Some (cc_entries (set_tick c) !! e)) as He.
      { change (cc_entries (set_tick c)) with (cc_entries c). unfold state_of in Ef.
        destruct (cc_entries c !! e); [done|]. done. }
      unfold c1. match goal with |- total (set_lru ?f ?y) = _ => change (total (set_lru f y)) with (total y) end.
      rewrite total_put by done.
      cbn [with_slots cs_slots]. rewrite (fill_slot_bytes _ _ _ _ _ _ Ef).
      change (total (set_tick c)) with (total c). change (state_of (set_tick c) e) with (state_of c e). lia. }
    specialize (IH (r - len d) c1). destruct (install_units cf js e idx fl run c1) as [n c'].
    change (cc_used c1) with (cc_used c) in IH. destruct IH as (? & -> & E'); [lia|].
    split; [lia|]. split; [done|lia].
  - specialize (IH r c E). destruct (install_units cf js e idx fl run c) as [n c']. lia.
Qed.
End budget.
