(* ===== verification/CacheSafe.v ===== *)
(** CacheSafe: the read cache serves only the file's own bytes
    (rust/crates/vfs-ipc/src/readcache).

    The invariant of the content behind CacheInv's budget: every ready unit
    is the file's, every fetch a reader may wait for brings the units its
    slots promise, and no file holds a unit twice or more units than it may. *)

From S2P Require Import Prelude Text Seg NtBuf ReadCache CacheInv.

Lemma submseteq_keeps_NoDup {A} (l k : list A) : l ⊆+ k → NoDup k → NoDup l.
Proof.
  intros Hs Hk. apply submseteq_Permutation in Hs as [l' Hl]. rewrite Hl in Hk.
  by apply NoDup_app in Hk as [? _].
Qed.

(** What a fetch was started for. *)
Record Ghost := mkGhost { gh_entry : nat; gh_name : Name; gh_ver : Version; gh_base : Z; gh_end : Z }.

Section safe.
Context (cf : CacheConfig) (content : Name → Version → bytes).
Context (Hcf : config_ok cf = true).
Context (Hsize : ∀ nm v, 0 ≤ vs_size v → len (content nm v) = vs_size v).

Abbreviation unit_ := (cf_block cf).

Lemma cf_pos : 0 < unit_ ∧ 0 < cf_blocks_per_file cf ∧ cf_threshold cf ≤ unit_.
Proof using Hcf.
  clear - Hcf. unfold config_ok in Hcf. rewrite !andb_true_iff, !Z.ltb_lt, Z.leb_le in Hcf. lia.
Qed.

(** Unit [idx] of a file, and the units a fetch brings. *)
Definition unit_bytes (nm : Name) (v : Version) (idx : Z) : bytes :=
  mem_get (content nm v) (idx * unit_) (Z.min unit_ (vs_size v - idx * unit_)).
Definition run_of (g : Ghost) : bytes :=
  mem_get (content (gh_name g) (gh_ver g)) (gh_base g * unit_)
    (Z.min (gh_end g * unit_) (vs_size (gh_ver g)) - gh_base g * unit_).

Definition GhostOk (g : Ghost) : Prop :=
  0 ≤ gh_base g < gh_end g ∧ gh_base g * unit_ < vs_size (gh_ver g).

Definition SlotOk (g : list Ghost) (e : nat) (nm : Name) (v : Version) (s : Slot) : Prop :=
  0 ≤ sl_idx s ∧ sl_idx s * unit_ < vs_size v ∧
  match sl_kind s with
  | Ready d _ _ => d = unit_bytes nm v (sl_idx s)
  | Loading fl => ∃ gi, g !! fl = Some gi ∧ gh_entry gi = e ∧ gh_name gi = nm ∧ gh_ver gi = v ∧
      gh_base gi ≤ sl_idx s < gh_end gi
  end.

Definition StOk (g : list Ghost) (e : nat) (nm : Name) (st : CState) : Prop :=
  (cs_poisoned st = true → cs_version st = None) ∧
  (∀ v, cs_version st = Some v → 0 ≤ vs_size v) ∧
  (∀ s, s ∈ cs_slots st → ∃ v, cs_version st = Some v ∧ SlotOk g e nm v s) ∧
  NoDup (sl_idx <$> cs_slots st) ∧ len (cs_slots st) ≤ cf_blocks_per_file cf.

Definition Inv (g : list Ghost) (c : Cache) : Prop :=
  (∀ e en, cc_entries c !! e = Some en → StOk g e (ce_name en) (ce_state en)) ∧
  length g = length (cc_flights c) ∧
  (∀ fl base run, cc_flights c !! fl = Some (Some (Some (base, run))) →
     ∃ gi, g !! fl = Some gi ∧ base = gh_base gi ∧ run = run_of gi) ∧
  (∀ fl gi, g !! fl = Some gi → GhostOk gi).

(** ** Moving the invariant *)

Lemma StOk_more g k e nm st : StOk g e nm st → StOk (g ++ k) e nm st.
Proof.
  intros (Hp & Hv & Hs & Hnd & Hl). split_and!; try done. intros s Hin.
  destruct (Hs s Hin) as (v & Ev & ? & ? & Hk). exists v. split; [done|]. split_and!; [done..|].
  destruct (sl_kind s); [done|]. destruct Hk as (gi & Hg & ?). exists gi. split; [|done].
  by apply lookup_app_l_Some.
Qed.

Lemma Inv_ext g c c' : cc_entries c' = cc_entries c → cc_flights c' = cc_flights c → Inv g c → Inv g c'.
Proof. unfold Inv. by intros -> ->. Qed.

Lemma put_Inv g e st c :
  (∀ en, cc_entries c !! e = Some en → StOk g e (ce_name en) st) → Inv g c → Inv g (put_state e st c).
Proof.
  intros Hst (He & Hl & Hf & Hg). split_and!; [|done..]. intros e' en' Hen. rewrite lookup_put_state in Hen.
  case_decide as Heq; [|by apply He]. apply fmap_Some in Hen as (en & Hen & ->). subst e'. exact (Hst en Hen).
Qed.

Lemma StOk_state g c e : Inv g c → is_Some (cc_entries c !! e) → ∃ en, cc_entries c !! e = Some en ∧
  StOk g e (ce_name en) (state_of c e).
Proof. intros (He & _) [en Hen]. exists en. split; [done|]. unfold state_of. rewrite Hen. by apply He. Qed.

(** Fewer slots, nothing else a reader sees. *)
Lemma StOk_fewer g e nm st st' :
  cs_poisoned st' = cs_poisoned st → cs_version st' = cs_version st → cs_slots st' ⊆+ cs_slots st →
  StOk g e nm st → StOk g e nm st'.
Proof.
  intros Ep Ev Hsub (Hp & Hv & Hs & Hnd & Hl). unfold StOk. rewrite Ep, Ev. split_and!; try done.
  - intros s Hin. apply Hs. by apply (elem_of_submseteq _ _ _ Hin).
  - eapply submseteq_keeps_NoDup; [|exact Hnd]. by apply fmap_submseteq.
  - apply submseteq_length in Hsub. unfold len in *. lia.
Qed.

Lemma put_fewer_Inv g e st c :
  cs_poisoned st = cs_poisoned (state_of c e) → cs_version st = cs_version (state_of c e) →
  cs_slots st ⊆+ cs_slots (state_of c e) → Inv g c → Inv g (put_state e st c).
Proof.
  intros ??? HI. apply put_Inv; [|done]. intros en Hen.
  destruct (StOk_state g c e HI ltac:(by eexists)) as (en' & Hen' & Hok).
  replace en' with en in * by congruence. by eapply StOk_fewer.
Qed.

Lemma put_same_Inv g e st c :
  core st = core (state_of c e) → Inv g c → Inv g (put_state e st c).
Proof. unfold core. intros [= E1 E2 E3]. apply put_fewer_Inv; [done|done|by rewrite E3]. Qed.

Lemma complete_None_Inv g fl c : Inv g c → Inv g (complete fl None c).
Proof.
  intros (He & Hl & Hf & Hg). unfold complete, set_flights. split_and!; cbn; [done| | |done].
  - by repeat case_match; rewrite ?length_insert.
  - intros fl' base run Hfl. apply Hf. repeat case_match; try done.
    destruct (decide (fl' = fl)) as [->|Hne]; [|by rewrite list_lookup_insert_ne in Hfl].
    rewrite list_lookup_insert_eq in Hfl by (by eapply lookup_lt_Some). done.
Qed.

Lemma drop_slots_Inv g l c : Inv g c → Inv g (foldl drop_slot c l).
Proof.
  revert c. induction l as [|s l IH]; intros c HI; [done|]. cbn [foldl]. apply IH.
  unfold drop_slot. case_match; [by eapply Inv_ext; [..|exact HI]|by apply complete_None_Inv].
Qed.

Lemma clear_slots_Inv g e c : Inv g c → Inv g (clear_slots e c).
Proof.
  intros HI. unfold clear_slots. apply drop_slots_Inv, put_fewer_Inv; [done|done| |done].
  cbn. apply submseteq_nil_l.
Qed.

Lemma clear_slots_state e c : cs_slots (state_of (clear_slots e c) e) = [].
Proof.
  unfold clear_slots, state_of at 1. rewrite drop_slots_entries, lookup_put_state, decide_True by done.
  by destruct (cc_entries c !! e).
Qed.

Lemma poison_Inv g e c : Inv g c → Inv g (poison e c).
Proof.
  intros HI. apply (clear_slots_Inv g e) in HI. unfold poison. apply put_Inv; [|done]. intros en Hen.
  unfold StOk. cbn. rewrite clear_slots_state. split_and!; try done.
  - intros s Hs. by apply elem_of_nil in Hs.
  - constructor.
  - pose proof cf_pos. change (len []) with 0. lia.
Qed.

Lemma go_cold_Inv g e c : Inv g c → Inv g (go_cold e c).
Proof. intros HI. unfold go_cold. apply clear_slots_Inv. by apply put_same_Inv. Qed.

(** ** Threads *)

Definition has_entry (c : Cache) (e : nat) : Prop := is_Some (cc_entries c !! e).

(** A read under way holds a prefix of what it was asked for. *)
Definition CtxOk (c : Cache) (x : Ctx) : Prop :=
  let nm := name_of c (fr_entry (x_ref x)) in
  has_entry c (fr_entry (x_ref x)) ∧ fr_version (x_ref x) = Some (x_ver x) ∧
  0 ≤ x_off x < vs_size (x_ver x) ∧ 0 < x_len x ∧ x_len x = Z.min (x_want x) (vs_size (x_ver x) - x_off x) ∧
  len (x_buf x) ≤ x_len x ∧ x_buf x = mem_get (content nm (x_ver x)) (x_off x) (len (x_buf x)).

(** ... up to the start of unit [idx], which it still needs. *)
Definition PosOk (x : Ctx) (idx : Z) : Prop :=
  x_off x + len (x_buf x) = Z.max (x_off x) (idx * unit_) ∧
  x_off x / unit_ ≤ idx ≤ (x_off x + x_len x - 1) / unit_.

Definition ghost_of (c : Cache) (x : Ctx) (ld : Load) : Ghost :=
  mkGhost (fr_entry (x_ref x)) (name_of c (fr_entry (x_ref x))) (x_ver x) (ld_idx ld) (ld_end ld).

Definition LoadOk (g : list Ghost) (c : Cache) (x : Ctx) (ld : Load) : Prop :=
  CtxOk c x ∧ PosOk x (ld_idx ld) ∧ g !! ld_flight ld = Some (ghost_of c x ld).

Definition ThOk (g : list Ghost) (c : Cache) (p : pc) : Prop :=
  match p with
  | PRead f off _ => has_entry c (fr_entry f) ∧ 0 ≤ off
  | PUnit x idx => CtxOk c x ∧ PosOk x idx
  | PWait x idx fl => CtxOk c x ∧ PosOk x idx ∧ ∃ gi, g !! fl = Some gi ∧
      gh_name gi = name_of c (fr_entry (x_ref x)) ∧ gh_ver gi = x_ver x ∧ gh_base gi ≤ idx < gh_end gi
  | PReserve x ld | PPop x ld | PEvict x ld _ _ _ | PFetch x ld | PFailed x ld
  | PUnreserve x ld | PUnload x ld | PCancel x ld => LoadOk g c x ld
  | PInstall x ld run => LoadOk g c x ld ∧ run = run_of (ghost_of c x ld)
  | PComplete x ld run first => LoadOk g c x ld ∧ run = run_of (ghost_of c x ld) ∧
      first = unit_bytes (name_of c (fr_entry (x_ref x))) (x_ver x) (ld_idx ld)
  | PJudge x => CtxOk c x ∧ len (x_buf x) = x_len x
  | PDone f off want (Some b) => has_entry c (fr_entry f) ∧ ∃ v, fr_version f = Some v ∧ 0 ≤ off < vs_size v ∧
      b = mem_get (content (name_of c (fr_entry f)) v) off (Z.min want (vs_size v - off))
  | PRegister _ v _ _ => 0 ≤ vs_size v
  | PRegEntry e v _ _ => has_entry c e ∧ 0 ≤ vs_size v
  | PRegistered f => has_entry c (fr_entry f)
  | PPanic => False
  | _ => True
  end.

(** Entries stay, with their names. *)
Definition Grows (c c' : Cache) : Prop :=
  ∀ e, has_entry c e → has_entry c' e ∧ name_of c' e = name_of c e.

Lemma ThOk_grows g k c c' p : Grows c c' → ThOk g c p → ThOk (g ++ k) c' p.
Proof.
  intros Hgr. assert (∀ x, CtxOk c x → CtxOk c' x ∧ name_of c' (fr_entry (x_ref x)) = name_of c (fr_entry (x_ref x))) as Hx.
  { intros x (He & H). destruct (Hgr _ He) as [He' En]. unfold CtxOk. rewrite En. done. }
  assert (∀ x ld, LoadOk g c x ld → LoadOk (g ++ k) c' x ld ∧ ghost_of c' x ld = ghost_of c x ld) as Hl.
  { intros x ld (Hc & Hp & Hg). destruct (Hx x Hc) as [Hc' En]. unfold LoadOk, ghost_of in *. rewrite En.
    split; [|done]. split_and!; [done..|]. by apply lookup_app_l_Some. }
  destruct p; cbn [ThOk]; try done.
  - intros [He ?]. by destruct (Hgr _ He).
  - intros [Hc ?]. by destruct (Hx _ Hc).
  - intros (Hc & ? & gi & Hgi & Hn & ?). destruct (Hx _ Hc) as [? ->]. split_and!; [done..|]. exists gi.
    split; [by apply lookup_app_l_Some|done].
  - apply Hl.
  - apply Hl.
  - apply Hl.
  - apply Hl.
  - apply Hl.
  - intros [HL ->]. by destruct (Hl _ _ HL) as [? ->].
  - intros (HL & -> & ->). destruct (Hl _ _ HL) as [? Eg]. pose proof HL as (Hc & _). destruct (Hx _ Hc) as [_ En].
    by rewrite Eg, En.
  - apply Hl.
  - apply Hl.
  - apply Hl.
  - intros [Hc ?]. by destruct (Hx _ Hc).
  - destruct r as [b|]; [|done]. intros (He & v & Ev & Ho & ->). destruct (Hgr _ He) as [? En]. split; [done|].
    exists v. by rewrite En.
  - intros [He ?]. by destruct (Hgr _ He).
  - intros He. by destruct (Hgr _ He).
Qed.

(** ** Bytes of a file *)

Lemma unit_len nm v idx :
  0 ≤ idx → idx * unit_ < vs_size v → len (unit_bytes nm v idx) = Z.min unit_ (vs_size v - idx * unit_).
Proof using Hcf Hsize.
  intros. pose proof cf_pos. unfold unit_bytes. apply mem_get_len; rewrite ?Hsize by nia; nia.
Qed.

(** A unit of a fetched run is the file's unit. *)
Lemma run_unit_of gi j :
  GhostOk gi → gh_base gi ≤ j < gh_end gi → j * unit_ < vs_size (gh_ver gi) →
  run_unit cf (run_of gi) (gh_base gi) j = unit_bytes (gh_name gi) (gh_ver gi) j.
Proof using Hcf Hsize.
  intros [Hb Hs] Hj Hlt. pose proof cf_pos. unfold run_unit, run_of, unit_bytes.
  rewrite mem_get_len by (rewrite ?Hsize by nia; nia).
  rewrite mem_get_get by nia. f_equal; nia.
Qed.

(** Where a unit lies against the read that needs it. *)
Lemma pos_facts c x idx :
  CtxOk c x → PosOk x idx →
  let from := x_off x + len (x_buf x) - idx * unit_ in
  0 ≤ idx ∧ idx * unit_ < vs_size (x_ver x) ∧ 0 ≤ from < unit_ ∧ x_off x + len (x_buf x) < x_off x + x_len x ∧
  x_off x + x_len x ≤ vs_size (x_ver x) ∧
  if decide (idx = (x_off x + x_len x - 1) / unit_)
  then x_off x + x_len x ≤ (idx + 1) * unit_ else (idx + 1) * unit_ < x_off x + x_len x.
Proof using Hcf.
  intros (_ & _ & Ho & Hn & En & Hb & _) (Hm & Hi1 & Hi2). destruct cf_pos as (Hu & _).
  pose proof (len_nonneg (x_buf x)).
  pose proof (Z.mul_div_le (x_off x) unit_ Hu). pose proof (Z.mul_succ_div_gt (x_off x) unit_ Hu).
  pose proof (Z.mul_div_le (x_off x + x_len x - 1) unit_ Hu).
  pose proof (Z.mul_succ_div_gt (x_off x + x_len x - 1) unit_ Hu).
  assert (0 ≤ x_off x / unit_) by (apply Z.div_pos; lia).
  assert (idx * unit_ ≤ x_off x + x_len x - 1) by nia.
  set (q := x_off x / unit_) in *. set (r := (x_off x + x_len x - 1) / unit_) in *. clearbody q r.
  assert (idx * unit_ > x_off x - unit_) by nia.
  cbv zeta. split_and!; try lia. case_decide; nia.
Qed.

(** A unit copied out leaves the read a longer prefix. *)
Lemma deliver_ok g c x idx data got :
  CtxOk c x → PosOk x idx → data = unit_bytes (name_of c (fr_entry (x_ref x))) (x_ver x) idx →
  ThOk g c (deliver cf x idx data got).
Proof using Hcf Hsize.
  intros HC HP ->. pose proof (pos_facts c x idx HC HP) as (Hi & Hlt & Hf & Hlen & Hsz & Hd).
  pose proof HC as (He & Ev & Ho & Hn & En & Hb & Ebuf). pose proof HP as (Hm & Hi1 & Hi2).
  pose proof (len_nonneg (x_buf x)) as Hb0.
  unfold deliver. rewrite unit_len by done. set (nm := name_of c (fr_entry (x_ref x))) in *.
  set (from := x_off x + len (x_buf x) - idx * unit_) in *.
  destruct (Z.ltb_spec (Z.min unit_ (vs_size (x_ver x) - idx * unit_)) from); [lia|].
  set (n := Z.min (x_len x - len (x_buf x)) (Z.min unit_ (vs_size (x_ver x) - idx * unit_) - from)).
  assert (0 ≤ n ∧ n ≤ x_len x - len (x_buf x)) as Hn' by lia.
  assert (x_buf x ++ mem_get (unit_bytes nm (x_ver x) idx) from n
    = mem_get (content nm (x_ver x)) (x_off x) (len (x_buf x) + n)) as Eb.
  { assert (0 ≤ idx * unit_) by (pose proof cf_pos; nia). unfold unit_bytes. rewrite mem_get_get by lia.
    rewrite <- mem_get_app_adj by (rewrite ?Hsize; lia). f_equal; [done|]. f_equal. lia. }
  rewrite Eb. assert (len (mem_get (content nm (x_ver x)) (x_off x) (len (x_buf x) + n)) = len (x_buf x) + n) as El.
  { apply mem_get_len; rewrite ?Hsize by lia; lia. }
  assert (CtxOk c (mkCtx (x_ref x) (x_off x) (x_want x) (x_ver x) (x_len x)
    (mem_get (content nm (x_ver x)) (x_off x) (len (x_buf x) + n)) (got_join (x_how x) got))) as HC'.
  { unfold CtxOk. cbn [x_ref x_off x_want x_ver x_len x_buf]. rewrite El. by split_and!; try lia. }
  destruct (Z.eqb_spec idx ((x_off x + x_len x - 1) / unit_)) as [E|E].
  - rewrite decide_True in Hd by done. split; [done|]. cbn [x_buf x_len]. rewrite El. lia.
  - rewrite decide_False in Hd by done. split; [done|]. unfold PosOk. cbn [x_off x_len x_buf]. rewrite El.
    split; [|lia]. lia.
Qed.

(** ** Steps that keep the entries *)

Lemma Grows_refl c : Grows c c.
Proof. by intros e He. Qed.

Lemma Grows_trans c1 c2 c3 : Grows c1 c2 → Grows c2 c3 → Grows c1 c3.
Proof. intros H1 H2 e He. destruct (H1 e He) as [He2 <-]. by apply H2. Qed.

Lemma Grows_entries c c' : cc_entries c' = cc_entries c → Grows c c'.
Proof. intros E e He. unfold has_entry, name_of. by rewrite E. Qed.

Lemma Grows_put e st c : Grows c (put_state e st c).
Proof.
  intros e' [en Hen]. unfold has_entry, name_of. rewrite lookup_put_state. case_decide; [subst|]; rewrite Hen; by cbn.
Qed.

Lemma Grows_drop l c : Grows c (foldl drop_slot c l).
Proof. apply Grows_entries, drop_slots_entries. Qed.

Lemma Grows_clear e c : Grows c (clear_slots e c).
Proof. eapply Grows_trans; [apply Grows_put|apply Grows_drop]. Qed.

Lemma Grows_poison e c : Grows c (poison e c).
Proof. eapply Grows_trans; [apply Grows_clear|apply Grows_put]. Qed.

Lemma Grows_cold e c : Grows c (go_cold e c).
Proof. eapply Grows_trans; [apply Grows_put|apply Grows_clear]. Qed.

(** A step keeps the invariant and its own thread's. *)
Definition Good (g : list Ghost) (c c' : Cache) (p : pc) : Prop :=
  Grows c c' ∧ ∃ k, Inv (g ++ k) c' ∧ ThOk (g ++ k) c' p.

Lemma Good_intro g c c' p : Grows c c' → Inv g c' → (Grows c c' → ThOk g c' p) → Good g c c' p.
Proof. intros Hgr HI HT. split; [done|]. exists []. rewrite app_nil_r. auto. Qed.

Lemma CtxOk_grows c c' x : Grows c c' → CtxOk c x → CtxOk c' x ∧ name_of c' (fr_entry (x_ref x)) = name_of c (fr_entry (x_ref x)).
Proof. intros Hgr (He & H). destruct (Hgr _ He) as [He' En]. unfold CtxOk. by rewrite En. Qed.

Lemma ThOk_same g c c' p : Grows c c' → ThOk g c p → ThOk g c' p.
Proof. intros Hgr H. rewrite <- (app_nil_r g). by eapply ThOk_grows. Qed.

(** The state a reader that passed its check sees. *)
Lemma seen_state g c x :
  Inv g c → CtxOk c x →
  let e := fr_entry (x_ref x) in
  (cs_poisoned (state_of c e) || negb (bool_decide (cs_version (state_of c e) = Some (x_ver x)))) = false →
  cs_version (state_of c e) = Some (x_ver x) ∧ StOk g e (name_of c e) (state_of c e).
Proof.
  intros HI (He & _) e Hv. apply orb_false_iff in Hv as [_ Hv]. apply negb_false_iff, bool_decide_eq_true in Hv.
  split; [done|]. destruct (StOk_state g c e HI He) as (en & Hen & Hok). unfold name_of. by rewrite Hen.
Qed.

Lemma read_start_ok g c f off want :
  Inv g c → ThOk g c (PRead f off want) →
  Good g c (read_start cf f off want c).1 (read_start cf f off want c).2.
Proof using Hcf.
  intros HI [He Ho]. unfold read_start. destruct (fr_version f) as [v|] eqn:Ev; [|by apply Good_intro; [apply Grows_refl|..]].
  destruct (negb (wants cf want) || (vs_size v <=? off)) eqn:Ew; [by apply Good_intro; [apply Grows_refl|..]|].
  destruct (cs_poisoned (state_of c (fr_entry f)) || _) eqn:Es; [by apply Good_intro; [apply Grows_refl|..]|].
  case_match; [apply Good_intro; [apply Grows_put|by apply put_same_Inv|done]|].
  apply Good_intro; [apply Grows_refl|done|]. intros _. unfold wants in Ew.
  apply orb_false_iff in Ew as [Hw%negb_false_iff Hlt%Z.leb_gt]. apply andb_true_iff in Hw as [Hw1%Z.ltb_lt Hw2%Z.ltb_lt].
  destruct cf_pos as (Hu & _). split.
  - unfold CtxOk. cbn [x_ref x_off x_want x_ver x_len x_buf]. change (len []) with 0.
    split_and!; try done; try lia.
  - unfold PosOk. cbn [x_off x_len x_buf]. change (len []) with 0.
    pose proof (Z.mul_div_le off unit_ Hu). split; [lia|]. split; [done|]. apply Z.div_le_mono; lia.
Qed.

Lemma find_slot_Some idx l s : find_slot idx l = Some s → s ∈ l ∧ sl_idx s = idx.
Proof. unfold find_slot. intros [Hin E%Z.eqb_eq]%find_some. by rewrite list_elem_of_In. Qed.

Lemma find_slot_None idx l : find_slot idx l = None → idx ∉ (sl_idx <$> l).
Proof.
  unfold find_slot. intros H (s & -> & Hs)%list_elem_of_fmap. rewrite list_elem_of_In in Hs.
  apply (find_none _ _ H) in Hs. lia.
Qed.

(** Slots renewed in place: same indices, the same bytes. *)
Definition Renews (g : list Ghost) (e : nat) (nm : Name) : list Slot → list Slot → Prop :=
  Forall2 (λ s s', sl_idx s' = sl_idx s ∧ ∀ v, SlotOk g e nm v s → SlotOk g e nm v s').

Lemma Renews_refl g e nm l : Renews g e nm l l.
Proof. induction l; by constructor. Qed.

Lemma StOk_renew g e nm st st' :
  cs_poisoned st' = cs_poisoned st → cs_version st' = cs_version st →
  Renews g e nm (cs_slots st) (cs_slots st') → StOk g e nm st → StOk g e nm st'.
Proof.
  intros Ep Ev HF (Hp & Hv & Hs & Hnd & Hl). unfold StOk. rewrite Ep, Ev. split_and!; try done.
  - intros s' Hin. apply list_elem_of_lookup in Hin as [i Hi].
    destruct (Forall2_lookup_r _ _ _ _ _ HF Hi) as (s & Hi' & _ & Hok).
    destruct (Hs s) as (v & ? & ?); [by eapply list_elem_of_lookup_2|]. eauto.
  - replace (sl_idx <$> cs_slots st') with (sl_idx <$> cs_slots st); [done|].
    clear - HF. induction HF as [|s s' l l' [E _] HF IH]; [done|]. cbn. by rewrite E, IH.
  - apply Forall2_length in HF. unfold len in *. lia.
Qed.

Lemma touch_renews g e nm idx tick l : Renews g e nm l (touch_slot idx tick l).
Proof.
  induction l as [|s l IH]; [constructor|]. cbn [touch_slot]. case_match; constructor; try done; [|apply Renews_refl].
  split; [done|]. intros v. unfold SlotOk. cbn. by destruct (sl_kind s).
Qed.

Lemma refile_renews g e nm i l : Renews g e nm l (refile i l).
Proof.
  unfold refile. destruct (l !! i) as [[j [d la k|fl]]|] eqn:Hi; [|apply Renews_refl..].
  rewrite <- (list_insert_id l i _ Hi) at 1. apply Forall2_insert; [apply Renews_refl|]. done.
Qed.

Lemma put_renew_Inv g e f c :
  (∀ nm, Renews g e nm (cs_slots (state_of c e)) (f (cs_slots (state_of c e)))) →
  Inv g c → Inv g (put_state e (with_slots f (state_of c e)) c).
Proof.
  intros HF HI. apply put_Inv; [|done]. intros en Hen.
  destruct (StOk_state g c e HI ltac:(by eexists)) as (en' & Hen' & Hok).
  replace en' with en in * by congruence. by apply (StOk_renew g e _ (state_of c e)).
Qed.

(** ** Making room *)

(** Only the slots of [e] changed, and only by going. *)
Definition Shrunk (e : nat) (c c' : Cache) : Prop :=
  cc_flights c' = cc_flights c ∧ ∃ st, cc_entries c' = cc_entries (put_state e st c) ∧
    cs_poisoned st = cs_poisoned (state_of c e) ∧ cs_version st = cs_version (state_of c e) ∧
    cs_slots st ⊆+ cs_slots (state_of c e).

Lemma put_state_id e c : has_entry c e → cc_entries (put_state e (state_of c e) c) = cc_entries c.
Proof.
  intros [en He]. apply list_eq. intros i. rewrite lookup_put_state. case_decide; [subst|done].
  unfold state_of. rewrite He. by destruct en.
Qed.

Lemma Shrunk_refl e c : has_entry c e → Shrunk e c c.
Proof. intros He. split; [done|]. exists (state_of c e). by rewrite put_state_id. Qed.

Lemma Shrunk_state e c c' : has_entry c e → Shrunk e c c' →
  has_entry c' e ∧ cs_poisoned (state_of c' e) = cs_poisoned (state_of c e) ∧
  cs_version (state_of c' e) = cs_version (state_of c e) ∧ cs_slots (state_of c' e) ⊆+ cs_slots (state_of c e) ∧
  Grows c c'.
Proof.
  intros He (_ & st & E & Hst). assert (state_of c' e = st) as ->.
  { unfold state_of. rewrite E. exact (state_put_same e st c He). }
  assert (Grows c c') as Hg.
  { intros e' He'. unfold has_entry, name_of. rewrite E. exact (Grows_put e st c e' He'). }
  split_and!; try apply Hst; [by apply Hg|done].
Qed.

Lemma Shrunk_trans e c1 c2 c3 : has_entry c1 e → Shrunk e c1 c2 → Shrunk e c2 c3 → Shrunk e c1 c3.
Proof.
  intros He H12 H23. destruct (Shrunk_state e c1 c2 He H12) as (He2 & Ep & Ev & Hs & _).
  destruct H12 as (F12 & st2 & E2 & _), H23 as (F23 & st3 & E3 & Ep3 & Ev3 & Hs3).
  split; [congruence|]. exists st3. split_and!; [|congruence|congruence|by etrans].
  rewrite E3. apply list_eq. intros i. destruct (decide (i = e)) as [->|Hne].
  - rewrite !lookup_put_state, !(decide_True (P := e = e)), E2 by done.
    rewrite lookup_put_state, decide_True by done. by destruct (cc_entries c1 !! e).
  - rewrite !lookup_put_state, !(decide_False (P := i = e)), E2 by done. by rewrite lookup_put_state, decide_False.
Qed.

Lemma Shrunk_Inv g e c c' : Shrunk e c c' → Inv g c → Inv g c'.
Proof.
  intros (EF & st & EE & Ep & Ev & Hs) HI. eapply (Inv_ext g (put_state e st c)); [done|by rewrite EF|].
  by apply put_fewer_Inv.
Qed.

Lemma evict_in_file_shrinks e c : has_entry c e → Shrunk e c (evict_in_file e c).2.
Proof.
  intros He. unfold evict_in_file. destruct (oldest_ready 0 (cs_slots (state_of c e))) as [[t i]|] eqn:Eo; [|by apply Shrunk_refl].
  apply oldest_ready_at in Eo as (_ & [j k'] & d & k & Hi & Hk). rewrite Nat.sub_0_r in Hi. cbn in Hk. subst k'.
  rewrite Hi. cbn [snd]. split; [done|]. eexists. split; [done|]. cbn [with_slots cs_poisoned cs_version cs_slots].
  split_and!; [done..|]. rewrite <- (swap_remove_perm i _ _ Hi) at 2. by apply submseteq_cons.
Qed.

Lemma make_room_ok n e idx end_ c :
  has_entry c e → idx < end_ →
  Shrunk e c (make_room cf n e idx end_ c).2 ∧
  ∀ end', (make_room cf n e idx end_ c).1 = Some end' → idx < end' ≤ end_ ∧
    len (cs_slots (state_of (make_room cf n e idx end_ c).2 e)) + (end' - idx) ≤ cf_blocks_per_file cf.
Proof.
  revert c. induction n as [|n IH]; intros c He Hi; cbn [make_room];
    destruct (Z.leb_spec (len (cs_slots (state_of c e)) + (end_ - idx)) (cf_blocks_per_file cf)) as [Hl|Hl]; cbn [fst snd].
  1,3: split; [by apply Shrunk_refl|]; intros ? [= <-]; lia.
  { split; [by apply Shrunk_refl|done]. }
  pose proof (evict_in_file_shrinks e c He) as Hs.
  destruct (evict_in_file e c) as [[] c'] eqn:Ee; cbn [snd] in Hs.
  - destruct (Shrunk_state e c c' He Hs) as (He' & _). destruct (IH c' He' Hi) as [H1 H2].
    split; [by eapply Shrunk_trans|done].
  - assert (c' = c) as ->.
    { unfold evict_in_file in Ee. by destruct (oldest_ready 0 (cs_slots (state_of c e))) as [[]|]; simplify_eq Ee. }
    destruct (Z.ltb_spec (len (cs_slots (state_of c e))) (cf_blocks_per_file cf)); cbn [fst snd];
      (split; [by apply Shrunk_refl|]); [|done]. intros ? [= <-]. lia.
Qed.

Lemma run_end_spec n slots start limit units :
  start ≤ run_end n slots start limit units ∧
  (∀ j, start ≤ j < run_end n slots start limit units → (j ∉ (sl_idx <$> slots)) ∧ j < units).
Proof.
  revert start. induction n as [|n IH]; intros start; cbn [run_end]; [split; [done|lia]|].
  case_match eqn:E; [|split; [done|lia]]. destruct (IH (start + 1)) as [Hle Hj]. split; [lia|].
  intros j Hjr. destruct (decide (j = start)) as [->|]; [|apply Hj; lia].
  apply andb_true_iff in E as [[? ?%Z.ltb_lt]%andb_true_iff Hn%negb_true_iff]. split; [|done].
  intros (s & -> & Hs)%list_elem_of_fmap. rewrite list_elem_of_In in Hs.
  assert (existsb (λ s0, sl_idx s0 =? sl_idx s) slots = true) as Hx
    by (apply existsb_exists; exists s; split; [done|apply Z.eqb_refl]). congruence.
Qed.

Lemma div_ceil_lt a j : j < div_ceil a unit_ → j * unit_ < a.
Proof using Hcf.
  intros H. destruct cf_pos as (Hu & _). unfold div_ceil in H.
  pose proof (Z.mul_div_le (a + unit_ - 1) unit_ Hu). nia.
Qed.

Lemma loading_slots_spec idx end_ fl s :
  s ∈ loading_slots idx end_ fl ↔ idx ≤ sl_idx s < end_ ∧ sl_kind s = Loading fl.
Proof.
  unfold loading_slots. rewrite list_elem_of_fmap. split.
  - intros (j & -> & Hj%elem_of_seqZ). cbn. split; [lia|done].
  - intros [Hj Hk]. exists (sl_idx s). split; [destruct s; cbn in *; by subst|]. apply elem_of_seqZ. lia.
Qed.

Lemma loading_slots_idx idx end_ fl : sl_idx <$> loading_slots idx end_ fl = seqZ idx (end_ - idx).
Proof. unfold loading_slots. rewrite <- list_fmap_compose. by apply list_fmap_id. Qed.

(** New loading slots for units the file does not hold. *)
Lemma StOk_loading g e nm st st' v idx end_ gi :
  StOk g e nm st → cs_poisoned st' = cs_poisoned st → cs_version st' = cs_version st → cs_version st = Some v →
  cs_slots st' = cs_slots st ++ loading_slots idx end_ (length g) →
  gi = mkGhost e nm v idx end_ → 0 ≤ idx < end_ →
  (∀ j, idx ≤ j < end_ → (j ∉ (sl_idx <$> cs_slots st)) ∧ j * unit_ < vs_size v) →
  len (cs_slots st) + (end_ - idx) ≤ cf_blocks_per_file cf →
  StOk (g ++ [gi]) e nm st'.
Proof.
  intros Hok Ep Ev Hv Es -> Hi Hj Hl. destruct (StOk_more g [mkGhost e nm v idx end_] e nm st Hok) as (Hp & Hvs & Hs & Hnd & _).
  unfold StOk. rewrite Ep, Ev, Es. split_and!; try done.
  - intros s [Hin|Hin]%elem_of_app; [by apply Hs|]. exists v. split; [done|].
    apply loading_slots_spec in Hin as [Hr Hk]. destruct (Hj (sl_idx s) Hr) as [_ Hlt].
    unfold SlotOk. rewrite Hk. split_and!; [lia|done|]. eexists. split; [by apply list_lookup_middle|].
    by cbn.
  - rewrite fmap_app, loading_slots_idx. apply NoDup_app. split_and!; [done| |apply NoDup_seqZ].
    intros j Hin Hr%elem_of_seqZ. apply (Hj j); [lia|done].
  - rewrite len_app. unfold loading_slots. rewrite len_fmap. unfold len at 2. rewrite length_seqZ. lia.
Qed.

(** A fetch started for slots just installed. *)
Lemma new_flight_Inv g gi e st en c :
  Inv g c → cc_entries c !! e = Some en → StOk (g ++ [gi]) e (ce_name en) st → GhostOk gi →
  Inv (g ++ [gi]) (set_flights (λ fs, fs ++ [None]) (put_state e st c)).
Proof.
  intros (HE & HL & HF & HG) Hen Hok Hgi. split_and!.
  - intros e' en' Hen'. change (cc_entries (put_state e st c) !! e' = Some en') in Hen'. rewrite lookup_put_state in Hen'.
    case_decide; [subst e'; rewrite Hen in Hen'; injection Hen' as <-; exact Hok|].
    apply StOk_more. by apply HE.
  - cbn. rewrite !length_app. cbn. lia.
  - intros fl base r Hfl. cbn in Hfl. apply lookup_app_Some in Hfl as [Hfl|[_ Hfl]].
    + destruct (HF fl base r Hfl) as (gj & ? & ?). exists gj. split; [by apply lookup_app_l_Some|done].
    + by apply list_lookup_singleton_Some in Hfl as [_ ?].
  - intros fl gj [Hfl|[_ Hfl]]%lookup_app_Some; [by eapply HG|].
    by apply list_lookup_singleton_Some in Hfl as [_ <-].
Qed.

Lemma miss_ok g c x idx :
  Inv g c → CtxOk c x → PosOk x idx →
  cs_version (state_of c (fr_entry (x_ref x))) = Some (x_ver x) →
  find_slot idx (cs_slots (state_of c (fr_entry (x_ref x)))) = None →
  Good g c (miss cf x idx c).1 (miss cf x idx c).2.
Proof using Hcf.
  intros HI HC HP Hv Hn. pose proof HC as (He & _). pose proof (pos_facts c x idx HC HP) as (Hi & Hlt & _).
  unfold miss. set (e := fr_entry (x_ref x)) in *. destruct (if bool_decide _ then _ else _) as [counts before].
  set (run := if bool_decide _ then _ else 1).
  set (en := run_end (Z.to_nat run) (cs_slots (state_of c e)) (idx + 1) (idx + run) _).
  destruct (run_end_spec (Z.to_nat run) (cs_slots (state_of c e)) (idx + 1) (idx + run)
    (div_ceil (vs_size (x_ver x)) unit_)) as [Hle Hends]. fold en in Hle, Hends.
  match goal with |- context [make_room cf ?n e idx en ?y] => set (c1 := y); set (fuel := n) end.
  assert (has_entry c1 e) as He1 by (by apply (Grows_put e _ c)).
  assert (Inv g c1) as HI1 by (by apply put_same_Inv).
  assert (state_of c1 e = _) as Est1 by (by apply state_put_same).
  destruct (make_room_ok fuel e idx en c1 He1 ltac:(lia)) as [Hsh Hend].
  destruct (make_room cf fuel e idx en c1) as [oend c2]. cbn [fst snd] in *.
  destruct (Shrunk_state e c1 c2 He1 Hsh) as (He2 & Ep2 & Ev2 & Hs2 & Hg2). rewrite Est1 in Ep2, Ev2, Hs2.
  cbn [cs_poisoned cs_version cs_slots] in Ep2, Ev2, Hs2.
  assert (Grows c c2) as Hg by (eapply Grows_trans; [apply Grows_put|exact Hg2]).
  pose proof (Shrunk_Inv g e c1 c2 Hsh HI1) as HI2.
  destruct oend as [end'|]; cbn [fst snd]; [|apply Good_intro; [done|done|done]].
  destruct (Hend end' eq_refl) as [Her Hfit].
  destruct (StOk_state g c2 e HI2 He2) as (en2 & Hen2 & Hok2).
  assert (length g = length (cc_flights c2)) as Hlen by apply HI2. rewrite <- Hlen.
  set (gi := mkGhost e (name_of c2 e) (x_ver x) idx end').
  match goal with |- context [put_state e ?y c2] => set (st3 := y) end.
  assert (StOk (g ++ [gi]) e (ce_name en2) st3) as Hok3.
  { eapply StOk_loading with (v := x_ver x) (idx := idx) (end_ := end'); [exact Hok2|done|done|by rewrite Ev2|done| |lia| |done].
    - unfold gi, name_of. by rewrite Hen2.
    - intros j Hj. assert ((j ∉ (sl_idx <$> cs_slots (state_of c e))) ∧ j * unit_ < vs_size (x_ver x)) as [Hj1 Hj2].
      { destruct (decide (j = idx)) as [->|]; [split; [by apply find_slot_None|done]|].
        destruct (Hends j) as [? ?]; [lia|]. split; [done|by apply div_ceil_lt]. }
      split; [|done]. intros Hin. apply Hj1. by eapply elem_of_submseteq; [exact Hin|apply fmap_submseteq]. }
  split; [eapply Grows_trans; [exact Hg|]; eapply Grows_trans; [apply (Grows_put e st3)|by apply Grows_entries]|].
  exists [gi]. split.
  - apply (new_flight_Inv g gi e st3 en2 c2); [done|done|done|]. unfold GhostOk, gi. cbn. lia.
  - cbn [ThOk]. unfold LoadOk. cbn [ld_idx ld_flight].
    match goal with |- CtxOk ?y x ∧ _ => assert (Grows c y) as Hgy end.
    { eapply Grows_trans; [exact Hg|]. eapply Grows_trans; [apply (Grows_put e st3)|by apply Grows_entries]. }
    destruct (CtxOk_grows _ _ x Hgy HC) as [? En]. split_and!; [done|done|].
    unfold ghost_of. rewrite En. cbn [ld_idx ld_end]. rewrite list_lookup_middle by done.
    destruct (Hg e He) as [_ En2]. unfold gi. by rewrite En2.
Qed.

Lemma unload_submseteq fl st : cs_slots (unload fl st) ⊆+ cs_slots st.
Proof.
  apply sublist_submseteq. cbn. induction (cs_slots st) as [|s l IH]; [done|]. cbn. case_match; by constructor.
Qed.

(** ** The steps of a read *)

Lemma unit_look_ok g c ev x idx :
  Inv g c → CtxOk c x → PosOk x idx →
  Good g c (unit_look cf ev x idx c).1 (unit_look cf ev x idx c).2.
Proof using Hcf Hsize.
  intros HI HC HP. unfold unit_look, cache_now. set (e := fr_entry (x_ref x)).
  destruct (cs_poisoned (state_of c e) || _) eqn:Es; [apply Good_intro; [apply Grows_refl|done|done]|].
  destruct (seen_state g c x HI HC Es) as [Hv Hok]. fold e in Hv, Hok.
  assert (Inv g (set_tick c)) as HIt by (by eapply Inv_ext; [..|exact HI]).
  assert (Grows c (set_tick c)) as Hgt by (by apply Grows_entries).
  destruct (find_slot idx (cs_slots (state_of c e))) as [[j [d la k|fl]]|] eqn:Ef; cbn [fst snd].
  - assert (Grows c (put_state e (with_slots (touch_slot idx (cc_tick c)) (state_of c e)) (set_tick c))) as Hg
      by (eapply Grows_trans; [exact Hgt|apply Grows_put]).
    apply Good_intro; [done| |].
    + apply (put_renew_Inv g e _ (set_tick c)); [|done]. intros nm. apply touch_renews.
    + intros _. destruct (CtxOk_grows _ _ x Hg HC) as [HC' En]. apply deliver_ok; [done|done|].
      apply find_slot_Some in Ef as [Hin Ej]. cbn in Ej. subst j.
      destruct Hok as (_ & _ & Hs & _). destruct (Hs _ Hin) as (v & Ev & _ & _ & Hd). cbn in Hd.
      rewrite En. fold e. by replace (x_ver x) with v by congruence.
  - apply find_slot_Some in Ef as [Hin Ej]. cbn in Ej. subst j.
    assert (Good g c (set_tick c) (PWait x idx fl)) as Hwait.
    { apply Good_intro; [done|done|]. intros _. destruct (CtxOk_grows _ _ x Hgt HC) as [HC' En].
      destruct Hok as (_ & _ & Hs & _). destruct (Hs _ Hin) as (v & Ev & _ & _ & gi & Hgi & _ & Hnm & Hver & Hr).
      split_and!; [done|done|]. exists gi. rewrite En.
      split_and!; [done|done|congruence|cbn in Hr; lia..]. }
    destruct ev; try exact Hwait. cbn [fst snd].
    assert (Grows c (complete fl None (put_state e (unload fl (state_of c e)) (set_tick c)))) as Hg.
    { eapply Grows_trans; [exact Hgt|]. eapply Grows_trans; [apply Grows_put|by apply Grows_entries]. }
    apply Good_intro; [done| |].
    + apply complete_None_Inv. apply put_fewer_Inv; [done|done| |done].
      apply unload_submseteq.
    + intros _. split; [|done]. by apply (CtxOk_grows c).
  - destruct (miss_ok g (set_tick c) x idx HIt) as [Hg Hk]; [by apply (CtxOk_grows c)|done|done|done|].
    split; [by eapply Grows_trans|done].
Qed.

Lemma unit_wait_ok g c ev x idx fl c' p :
  Inv g c → ThOk g c (PWait x idx fl) → unit_wait cf ev x idx fl c = Some (c', p) → Good g c c' p.
Proof using Hcf Hsize.
  intros HI (HC & HP & gi & Hgi & Hnm & Hver & Hr) Hw. unfold unit_wait in Hw.
  pose proof HI as (_ & _ & HF & HG). pose proof (pos_facts c x idx HC HP) as (Hi & Hlt & _).
  destruct (cc_flights c !! fl) as [[[[base run]|]|]|] eqn:Efl.
  - destruct (HF _ _ _ Efl) as (gj & Hgj & -> & ->). replace gj with gi in * by congruence.
    pose proof (HG _ _ Hgi) as Hgok. pose proof Hgok as [Hb Hs].
    pose proof (run_unit_of gi idx Hgok Hr ltac:(by rewrite Hver)) as Hu. rewrite Hnm, Hver in Hu.
    unfold run_unit in Hu. pose proof cf_pos.
    assert (len (run_of gi) = Z.min (gh_end gi * unit_) (vs_size (gh_ver gi)) - gh_base gi * unit_) as Hl.
    { unfold run_of. apply mem_get_len; rewrite ?Hsize by nia; nia. }
    rewrite Hver in Hl. destruct (Z.ltb_spec idx (gh_base gi)); [lia|]. cbn [orb] in Hw.
    destruct (Z.ltb_spec (Z.min ((idx - gh_base gi) * unit_ + unit_) (len (run_of gi))) ((idx - gh_base gi) * unit_)); [nia|].
    injection Hw as <- <-. apply Good_intro; [apply Grows_refl|done|]. intros _. by apply deliver_ok.
  - injection Hw as <- <-. apply Good_intro; [apply Grows_refl|done|done].
  - destruct ev; try discriminate Hw. injection Hw as <- <-. apply Good_intro; [apply Grows_refl|done|done].
  - destruct ev; try discriminate Hw. injection Hw as <- <-. apply Good_intro; [apply Grows_refl|done|done].
Qed.

(** A fetched run fills the slots that wait for it. *)
Lemma fill_renews g e nm gi fl j data tick l l' :
  g !! fl = Some gi → GhostOk gi → data = run_unit cf (run_of gi) (gh_base gi) j →
  fill_slot j fl data tick l = Some l' → Renews g e nm l l'.
Proof using Hcf Hsize.
  intros Hgi Hok ->. revert l'. induction l as [|s l IH]; intros l' H; [done|]. cbn [fill_slot] in H.
  case_match eqn:E.
  - injection H as <-. constructor; [|apply Renews_refl].
    apply andb_true_iff in E as [E1%Z.eqb_eq E2]. split; [done|]. intros v (Hi & Hlt & Hk). unfold is_loading in E2.
    destruct (sl_kind s) as [|fl']; [done|]. apply Nat.eqb_eq in E2 as ->.
    destruct Hk as (gi' & Hgi' & _ & Hnm & Hver & Hr). replace gi' with gi in * by congruence.
    unfold SlotOk. cbn. rewrite E1 in *. split_and!; [done..|].
    rewrite (run_unit_of gi j Hok) by (done || by rewrite Hver). by rewrite Hnm, Hver.
  - apply fmap_Some in H as (k & Hk & ->). constructor; [done|by apply IH].
Qed.

Lemma install_units_ok g js e gi fl c :
  Inv g c → g !! fl = Some gi →
  let r := install_units cf js e (gh_base gi) fl (run_of gi) c in
  Inv g r.2 ∧ Grows c r.2 ∧ cc_flights r.2 = cc_flights c.
Proof using Hcf Hsize.
  intros HI Hgi. pose proof (proj2 (proj2 (proj2 HI)) _ _ Hgi) as Hok. revert c HI.
  induction js as [|j js IH]; intros c HI; cbn [install_units]; [split_and!; [done|apply Grows_refl|done]|].
  destruct (fill_slot _ _ _ _ _) as [l|] eqn:Ef; [|by apply IH].
  match goal with |- context [install_units cf js e _ fl _ ?y] => set (c1 := y) end.
  assert (Inv g c1) as H1.
  { eapply (Inv_ext g (put_state e (with_slots (λ _, l) (state_of (set_tick c) e)) (set_tick c))); [done|done|].
    apply put_renew_Inv; [|by eapply Inv_ext; [..|exact HI]]. intros nm. by eapply fill_renews. }
  assert (Grows c c1) as Hg1.
  { eapply Grows_trans; [|by apply Grows_entries]. eapply Grows_trans; [by apply (Grows_entries c (set_tick c))|apply Grows_put]. }
  specialize (IH c1 H1). cbv zeta in IH. destruct (install_units cf js e (gh_base gi) fl (run_of gi) c1) as [n c'].
  cbn [snd] in *. destruct IH as (? & ? & EF). split_and!; [done|by eapply Grows_trans|by rewrite EF].
Qed.

Lemma install_ok g c x ld run :
  Inv g c → ThOk g c (PInstall x ld run) → Good g c (install cf x ld run c).1 (install cf x ld run c).2.
Proof using Hcf Hsize.
  intros HI (HL & Hrun). pose proof HL as (HC & HP & Hgi). unfold install.
  destruct (cs_poisoned _ || _); [apply Good_intro; [apply Grows_refl|done|done]|].
  pose proof (install_units_ok g (seqZ (ld_idx ld) (ld_end ld - ld_idx ld)) (fr_entry (x_ref x)) _ _ c HI Hgi) as Hi.
  cbv zeta in Hi. cbn [ghost_of gh_base] in Hi. rewrite <- Hrun in Hi.
  destruct (install_units cf _ _ _ _ run c) as [n c']. cbn [snd] in Hi. destruct Hi as (HI' & Hg & EF).
  cbn [fst snd]. set (c'' := set_used _ c'). assert (Grows c c'') as Hg'' by (eapply Grows_trans; [exact Hg|by apply Grows_entries]).
  apply Good_intro; [done|by eapply Inv_ext; [..|exact HI']|]. intros _.
  pose proof (ThOk_same g c c'' (PUnload x ld) Hg'' HL) as HL''. case_match; [|done]. split; [done|].
  destruct (CtxOk_grows _ _ x Hg'' HC) as [_ En]. unfold ghost_of. rewrite En. split; [done|]. rewrite Hrun.
  pose proof (pos_facts c x _ HC HP) as (Hi & Hlt & _). pose proof (proj2 (proj2 (proj2 HI)) _ _ Hgi) as Hok.
  pose proof (proj1 Hok) as Hb. cbn in Hb.
  apply (run_unit_of (ghost_of c x ld)); [done|cbn; lia|done].
Qed.

Lemma evict_entry_ok g c x ld key e idx :
  Inv g c → LoadOk g c x ld → Good g c (evict_entry x ld key e idx c).1 (evict_entry x ld key e idx c).2.
Proof.
  intros HI HL. unfold evict_entry. destruct (lru_pos _ _ _ _) as [i|]; [|apply Good_intro; [apply Grows_refl|done|done]].
  destruct (cs_slots (state_of c e) !! i) as [[j [d la k|fl]]|] eqn:Hi; try (apply Good_intro; [apply Grows_refl|done|done]).
  assert (∀ c', Grows c c' → ThOk g c' (PPop x ld)) as HT by (intros; by apply (ThOk_same g c _ (PPop x ld))).
  case_match; cbn [fst snd].
  - apply Good_intro; [eapply Grows_trans; [apply Grows_put|by apply Grows_entries]| |exact (HT _)].
    eapply Inv_ext; [..|apply (put_renew_Inv g e (refile i) c)]; [done|done| |done]. intros nm. apply refile_renews.
  - set (c1 := set_used _ _). assert (Inv g c1) as H1.
    { eapply Inv_ext; [..|apply (put_fewer_Inv g e (with_slots (swap_remove i) (state_of c e)) c)]; [done..| |done].
      cbn. rewrite <- (swap_remove_perm i _ _ Hi) at 2. by apply submseteq_cons. }
    apply Good_intro; [|by apply put_same_Inv|exact (HT _)].
    eapply Grows_trans; [|apply Grows_put]. eapply Grows_trans; [apply Grows_put|by apply Grows_entries].
Qed.

Lemma complete_ok g c x ld run :
  Inv g c → g !! ld_flight ld = Some (ghost_of c x ld) → run = run_of (ghost_of c x ld) →
  Inv g (complete (ld_flight ld) (Some (ld_idx ld, run)) c).
Proof.
  intros (He & Hl & Hf & Hg) Hgi ->. unfold complete, set_flights. split_and!; cbn; [done| | |done].
  - by repeat case_match; rewrite ?length_insert.
  - intros fl' base r Hfl. repeat case_match; try by apply Hf.
    destruct (decide (fl' = ld_flight ld)) as [->|Hne]; [|rewrite list_lookup_insert_ne in Hfl by done; by apply Hf].
    rewrite list_lookup_insert_eq in Hfl by (by eapply lookup_lt_Some). injection Hfl as <- <-. by eexists.
Qed.

Lemma fetch_failed_ok g c x ld :
  Inv g c → LoadOk g c x ld → Good g c (fetch_failed x ld c).1 (fetch_failed x ld c).2.
Proof using Hcf.
  intros HI HL. unfold fetch_failed. cbn [fst snd].
  match goal with |- context [put_state ?e ?y c] => set (c1 := put_state e y c) end.
  assert (Inv g c1) as H1 by (by apply put_same_Inv). assert (Grows c c1) as Hg1 by apply Grows_put.
  case_match; apply Good_intro; try done.
  - eapply Grows_trans; [exact Hg1|apply Grows_cold].
  - by apply go_cold_Inv.
  - intros Hg. by apply (ThOk_same g c _ (PUnreserve x ld)).
  - intros Hg. by apply (ThOk_same g c _ (PUnreserve x ld)).
Qed.

Lemma judge_ok g c x : Inv g c → ThOk g c (PJudge x) → Good g c (judge cf x c).1 (judge cf x c).2.
Proof using Hcf.
  intros HI HT. assert (∀ c', Grows c c' → ThOk g c' (PDone (x_ref x) (x_off x) (x_want x) (Some (x_buf x)))) as HD.
  { intros c' Hg. destruct (ThOk_same g c c' (PJudge x) Hg HT) as (HC & Hl). pose proof HC as (He & Ev & Ho & Hn & En & _ & Eb).
    split; [done|]. exists (x_ver x). split_and!; [done|lia..|]. by rewrite Eb, Hl, En at 1. }
  unfold judge. destruct (x_how x) as [|[] []|]; cbn [fst snd];
    try (apply Good_intro; [apply Grows_refl|done|exact (HD c)]);
    try (apply Good_intro; [apply Grows_put|by apply put_same_Inv|exact (HD _)]).
  case_match; cbn [fst snd]; [apply Good_intro; [apply Grows_put|by apply put_same_Inv|exact (HD _)]|].
  match goal with |- context [put_state ?e ?y c] => set (c1 := put_state e y c) end.
  assert (Inv g c1) as H1 by (by apply put_same_Inv). assert (Grows c c1) as Hg1 by apply Grows_put.
  case_match.
  - apply Good_intro; [|apply put_same_Inv; [done|by apply go_cold_Inv]|exact (HD _)].
    eapply Grows_trans; [exact Hg1|]. eapply Grows_trans; [apply Grows_cold|apply Grows_put].
  - apply Good_intro; [|by apply put_same_Inv|exact (HD _)]. eapply Grows_trans; [exact Hg1|apply Grows_put].
Qed.

(** ** Registering and invalidating *)

Lemma StOk_empty g e nm st :
  cs_slots st = [] → (cs_poisoned st = true → cs_version st = None) → (∀ v, cs_version st = Some v → 0 ≤ vs_size v) →
  StOk g e nm st.
Proof using Hcf.
  intros Es Hp Hv. unfold StOk. rewrite Es. split_and!; [done|done| |constructor|].
  - intros s Hs. by apply elem_of_nil in Hs.
  - pose proof cf_pos. change (len []) with 0. lia.
Qed.

Lemma new_entry_ok g nm st c :
  Inv g c → StOk g (length (cc_entries c)) nm st →
  Inv g (new_entry nm st c) ∧ Grows c (new_entry nm st c) ∧ has_entry (new_entry nm st c) (length (cc_entries c)).
Proof.
  intros (He & Hl & Hf & Hg) Hst. split_and!; [split_and!; [|done..]|..].
  - intros e en Hen. cbn in Hen. apply lookup_app_Some in Hen as [Hen|[Hle Hen]]; [by apply He|].
    apply list_lookup_singleton_Some in Hen as [Hz <-]. cbn. by replace e with (length (cc_entries c)) by lia.
  - intros e [en Hen]. unfold has_entry, name_of. cbn. rewrite (lookup_app_l_Some _ _ _ _ Hen). by rewrite Hen.
  - unfold has_entry. cbn. rewrite list_lookup_middle by done. by eexists.
Qed.

(** The file table only names entries that exist. *)
Definition TableOk (c : Cache) : Prop := ∀ nm e, cc_by_name c !! nm = Some e → has_entry c e ∧ name_of c e = nm.

Lemma register_table_ok g busy nm c :
  Inv g c → TableOk c →
  let r := register_table busy nm c in Inv g r.2 ∧ Grows c r.2 ∧ has_entry r.2 r.1 ∧ name_of r.2 r.1 = nm.
Proof using Hcf.
  intros HI HT. unfold register_table. set (c1 := if cc_sweep_at c <=? _ then sweep busy c else c).
  assert (Inv g c1) as H1 by (unfold c1; case_match; [by eapply Inv_ext; [..|exact HI]|done]).
  assert (cc_entries c1 = cc_entries c) as EE by (unfold c1; by case_match).
  assert (TableOk c1) as HT1.
  { intros n e Hn. unfold has_entry, name_of. rewrite EE. apply (HT n e). unfold c1 in Hn. case_match; [|done].
    cbn in Hn. by apply map_lookup_filter_Some in Hn as [? _]. }
  assert (Grows c c1) as Hg1 by (by apply Grows_entries).
  destruct (cc_by_name c1 !! nm) as [e|] eqn:En; cbn [fst snd].
  - destruct (HT1 _ _ En) as [? ?]. split_and!; [by eapply Inv_ext; [..|exact H1]|eapply Grows_trans; [exact Hg1|by apply Grows_entries]|done|done].
  - destruct (new_entry_ok g nm state_default c1 H1) as (HI' & Hg' & He'); [by apply StOk_empty|].
    split_and!; [by eapply Inv_ext; [..|exact HI']| |done|].
    + eapply Grows_trans; [exact Hg1|]. eapply Grows_trans; [exact Hg'|by apply Grows_entries].
    + unfold name_of. cbn. by rewrite list_lookup_middle.
Qed.

Lemma register_entry_ok g e v im wr c :
  Inv g c → has_entry c e → 0 ≤ vs_size v →
  let r := register_entry e v im wr c in Inv g r.2 ∧ Grows c r.2 ∧ fr_entry r.1 = e.
Proof using Hcf.
  intros HI He Hv. unfold register_entry. destruct (wr || negb im); cbn [fst snd].
  { split_and!; [by apply poison_Inv|apply Grows_poison|done]. }
  destruct (cs_poisoned (state_of c e)) eqn:Ep; cbn [fst snd]; [split_and!; [done|apply Grows_refl|done]|].
  case_bool_decide; cbn [fst snd]; [split_and!; [done|apply Grows_refl|done]|].
  split_and!; [|eapply Grows_trans; [apply Grows_clear|apply Grows_put]|done].
  pose proof (clear_slots_Inv g e c HI) as HI'. apply put_Inv; [|done]. intros en Hen.
  apply StOk_empty; cbn; [apply clear_slots_state| |by intros ? [= <-]].
  unfold clear_slots, state_of at 1. rewrite drop_slots_entries, lookup_put_state, decide_True by done.
  destruct He as [en' Hen']. rewrite Hen'. cbn. unfold state_of in Ep |- *. rewrite Hen' in Ep |- *. by rewrite Ep.
Qed.

Lemma invalidate_table_ok g root path c :
  Inv g c → Inv g (invalidate_table root path c).2 ∧ Grows c (invalidate_table root path c).2.
Proof using Hcf.
  intros HI. unfold invalidate_table. cbn [snd]. case_match; [split; [done|apply Grows_refl]|].
  case_match; [split; [done|apply Grows_refl]|].
  destruct (new_entry_ok g (root, trim_slashes path) (mkCState true None [] 0 0 0 0 0 None 0 ∅ []) c HI)
    as (? & ? & _); [by apply StOk_empty|done].
Qed.

(** ** Any step *)

(** What the director promises of a fetch that succeeds in full. *)
Definition honest (c : Cache) (p : pc) (ev : env) : Prop :=
  match p, ev with
  | PFetch x ld, Answer (Ok n) b =>
      n = load_want cf x ld →
      b = mem_get (content (name_of c (fr_entry (x_ref x))) (x_ver x)) (ld_idx ld * unit_) (load_want cf x ld)
  | _, _ => True
  end.

Lemma step_ok g c p ev c' p' :
  Inv g c → TableOk c → ThOk g c p → honest c p ev → step cf ev c p = Some (c', p') → Good g c c' p'.
Proof using Hcf Hsize.
  intros HI HTab HT Hh Hs.
  assert (∀ c2 q, Grows c c2 → Inv g c2 → (ThOk g c p → ThOk g c q) → Good g c c2 q) as Hsame.
  { intros c2 q Hg HI2 Hq. apply Good_intro; [done|done|]. intros _. by apply (ThOk_same g c), Hq. }
  destruct p; cbn [step] in Hs; try discriminate Hs.
  - injection Hs as Hs. pose proof (read_start_ok g c f off want HI HT) as HG. by rewrite Hs in HG.
  - injection Hs as Hs. destruct HT as [HC HP]. pose proof (unit_look_ok g c ev x idx HI HC HP) as HG. by rewrite Hs in HG.
  - by eapply unit_wait_ok.
  - injection Hs as <- <-. apply Hsame; [apply Grows_put|apply put_fewer_Inv; [done|done|apply unload_submseteq|done]|done].
  - injection Hs as <- <-. apply Hsame; [by apply Grows_entries|by apply complete_None_Inv|done].
  - injection Hs as Hs. unfold reserve_try in Hs. repeat case_match; injection Hs as <- <-;
      (apply Hsame; [by apply Grows_entries|by eapply Inv_ext; [..|exact HI]|done]).
  - injection Hs as Hs. unfold evict_pop in Hs. repeat case_match; injection Hs as <- <-;
      (apply Hsame; [by apply Grows_entries|by eapply Inv_ext; [..|exact HI]|done]).
  - injection Hs as Hs. pose proof (evict_entry_ok g c x ld key e idx HI HT) as HG. by rewrite Hs in HG.
  - destruct ev as [| | |r b]; try discriminate Hs. injection Hs as <- <-.
    apply Hsame; [apply Grows_refl|done|]. intros HL. unfold fetch_answer.
    destruct r as [n|]; [|done]. destruct (Z.eqb_spec n (load_want cf x ld)) as [En|En]; [|done].
    split; [done|]. exact (Hh En).
  - injection Hs as <- <-. exact (fetch_failed_ok g c x ld HI HT).
  - injection Hs as Hs. pose proof (install_ok g c x ld run HI HT) as HG. by rewrite Hs in HG.
  - injection Hs as <- <-. destruct HT as ((HC & HP & Hgi) & Hrun & ->).
    assert (Grows c (complete (ld_flight ld) (Some (ld_idx ld, run)) c)) as Hg by (by apply Grows_entries).
    apply Good_intro; [done|by eapply complete_ok|]. intros _. by apply deliver_ok.
  - injection Hs as <- <-. apply Hsame; [by apply Grows_entries|by eapply Inv_ext; [..|exact HI]|done].
  - injection Hs as <- <-. apply Hsame; [apply Grows_put|apply put_fewer_Inv; [done|done|apply unload_submseteq|done]|done].
  - injection Hs as <- <-. apply Hsame; [by apply Grows_entries|by apply complete_None_Inv|done].
  - injection Hs as Hs. pose proof (judge_ok g c x HI HT) as HG. by rewrite Hs in HG.
  - destruct (cc_locked c); [discriminate Hs|].
    pose proof (register_table_ok g (busy_of ev) name c HI HTab) as HG. cbv zeta in HG.
    destruct (register_table (busy_of ev) name c) as [e c2]. injection Hs as <- <-. cbn [fst snd] in HG.
    destruct HG as (? & ? & ? & _). by apply Good_intro.
  - destruct HT as [He Hv]. pose proof (register_entry_ok g e v immutable write c HI He Hv) as HG. cbv zeta in HG.
    destruct (register_entry e v immutable write c) as [f c2]. injection Hs as <- <-. cbn [fst snd] in HG.
    destruct HG as (? & Hg & Ef). apply Good_intro; [done|done|]. intros _. cbn. rewrite Ef. by apply Hg.
  - injection Hs as <- <-. apply Hsame; [apply Grows_poison|by apply poison_Inv|done].
  - destruct (cc_locked c); [discriminate Hs|]. destruct (invalidate_table_ok g root path c HI) as [HI' Hg'].
    destruct (invalidate_table root path c) as [es c2]. injection Hs as <- <-. cbn [snd] in *.
    apply Hsame; [eapply Grows_trans; [exact Hg'|by apply Grows_entries]|by eapply Inv_ext; [..|exact HI']|done].
  - destruct es as [|e es]; injection Hs as <- <-.
    + apply Hsame; [by apply Grows_entries|by eapply Inv_ext; [..|exact HI]|done].
    + apply Hsame; [apply Grows_poison|by apply poison_Inv|done].
Qed.
End safe.
