(* ===== verification/CacheProps.v ===== *)
(** CacheProps: the read cache under any interleaving of its callers, and what
    it promises them (rust/crates/vfs-ipc/src/readcache).

    A system is the cache and its threads.  A thread takes its next critical
    section, a new call starts through a live reference, a reference is
    cloned or dropped.  The director's promise is that a fetch which answers
    in full brings the version's content ([honest]). *)

From S2P Require Import Prelude Text Seg NtBuf ReadCache CacheInv CacheSafe.


Definition Sys : Type := Cache * list pc.

(** The entry a running read or invalidation borrows its reference of. *)
Definition borrowed (p : pc) : option nat :=
  match p with
  | PRead f _ _ | PInvalidate f => Some (fr_entry f)
  | PUnit x _ | PWait x _ _ | PAbandon x _ | PCancelWait x _ | PReserve x _ | PPop x _ | PEvict x _ _ _ _
  | PFetch x _ | PFailed x _ | PInstall x _ _ | PComplete x _ _ _ | PUnreserve x _ | PUnload x _ | PCancel x _
  | PJudge x => Some (fr_entry (x_ref x))
  | _ => None
  end.

(** A call a caller may make. *)
Definition starts (ths : list pc) (p : pc) : Prop :=
  match p with
  | PRead f off _ => PRegistered f ∈ ths ∧ 0 ≤ off
  | PRegister _ v _ _ => 0 ≤ vs_size v
  | PInvalidate f => PRegistered f ∈ ths
  | PInvalidatePath _ _ => True
  | _ => False
  end.

Lemma elem_of_insert_inv {A} (l : list A) i x y : y ∈ <[i := x]> l → y = x ∨ y ∈ l.
Proof.
  intros (j & Hj)%list_elem_of_lookup_1. destruct (decide (j = i)) as [->|].
  - apply list_lookup_insert_Some in Hj as [(_ & <- & _)|[? _]]; [by left|done].
  - rewrite list_lookup_insert_ne in Hj by done. right. by eapply list_elem_of_lookup_2.
Qed.

Section sys.
Context (cf : CacheConfig) (content : Name → Version → bytes).

Inductive sys_step : Sys → Sys → Prop :=
| sys_thread c ths i p ev c' p' :
    ths !! i = Some p → honest cf content c p ev → step cf ev c p = Some (c', p') →
    sys_step (c, ths) (c', <[i := p']> ths)
| sys_call c ths p : starts ths p → sys_step (c, ths) (c, ths ++ [p])
| sys_clone c ths f : PRegistered f ∈ ths → sys_step (c, ths) (hold (fr_entry f) c, ths ++ [PRegistered f])
| sys_drop c ths i f :
    ths !! i = Some (PRegistered f) →
    (∀ p, p ∈ ths → borrowed p = Some (fr_entry f) →
       ∃ j f', j ≠ i ∧ ths !! j = Some (PRegistered f') ∧ fr_entry f' = fr_entry f) →
    sys_step (c, ths) (release (fr_entry f) c, <[i := PInvalidated]> ths).

Definition runs : Sys → Sys → Prop := rtc sys_step.
Definition reachable (s : Sys) : Prop := runs (cache_empty, []) s.

(** ** The file table *)

Lemma TableOk_same c c' : cc_by_name c' = cc_by_name c → Grows c c' → TableOk c → TableOk c'.
Proof. intros E Hg HT nm e Hn. rewrite E in Hn. destruct (HT nm e Hn) as [He <-]. by apply Hg. Qed.

Lemma TableOk_new nm st c : TableOk c → TableOk (new_entry nm st c).
Proof.
  intros HT n e Hn. cbn in Hn. apply lookup_insert_Some in Hn as [[<- <-]|[Hne Hn]].
  - unfold has_entry, name_of. cbn. rewrite list_lookup_middle by done. split; [by eexists|done].
  - destruct (HT n e Hn) as [[en Hen] Enm]. unfold has_entry, name_of in *. cbn.
    rewrite (lookup_app_l_Some _ _ _ _ Hen). rewrite Hen in Enm. split; [by eexists|done].
Qed.

(** ** What a step leaves alone *)

(** The file table, the references and the table's lock; a poisoned entry
    stays poisoned. *)
Definition Quiet (c c' : Cache) : Prop :=
  cc_by_name c' = cc_by_name c ∧ cc_held c' = cc_held c ∧ cc_locked c' = cc_locked c ∧
  length (cc_entries c') = length (cc_entries c) ∧
  ∀ e, cs_poisoned (state_of c e) = true → cs_poisoned (state_of c' e) = true.

Lemma Quiet_refl c : Quiet c c.
Proof. by split_and!. Qed.

Lemma Quiet_trans c1 c2 c3 : Quiet c1 c2 → Quiet c2 c3 → Quiet c1 c3.
Proof. intros (? & ? & ? & ? & ?) (? & ? & ? & ? & ?). split_and!; [congruence..|auto]. Qed.

Lemma Quiet_put e st c : (cs_poisoned (state_of c e) = true → cs_poisoned st = true) → Quiet c (put_state e st c).
Proof.
  intros Hp. split_and!; try done; [apply put_state_length|]. intros e' He'.
  destruct (decide (e' = e)) as [->|]; [|by rewrite state_put_other].
  destruct (cc_entries c !! e) as [en|] eqn:E; [rewrite state_put_same by (by eexists); auto|by rewrite put_missing].
Qed.

Lemma Quiet_entries c c' :
  cc_entries c' = cc_entries c → cc_by_name c' = cc_by_name c → cc_held c' = cc_held c → cc_locked c' = cc_locked c →
  Quiet c c'.
Proof. intros E ???. split_and!; [done..|by rewrite E|]. intros e. unfold state_of. by rewrite E. Qed.

(** The outermost change of a term, peeled off. *)
Lemma Quiet_then_put e st c c' :
  (cs_poisoned (state_of c' e) = true → cs_poisoned st = true) → Quiet c c' → Quiet c (put_state e st c').
Proof. intros Hp HQ. apply (Quiet_trans c c'); [done|by apply Quiet_put]. Qed.
Lemma Quiet_then_lru f c c' : Quiet c c' → Quiet c (set_lru f c').
Proof. done. Qed.
Lemma Quiet_then_used f c c' : Quiet c c' → Quiet c (set_used f c').
Proof. done. Qed.
Lemma Quiet_then_flights f c c' : Quiet c c' → Quiet c (set_flights f c').
Proof. done. Qed.
Lemma Quiet_then_tick c c' : Quiet c c' → Quiet c (set_tick c').
Proof. done. Qed.
Lemma Quiet_then_complete fl v c c' : Quiet c c' → Quiet c (complete fl v c').
Proof. done. Qed.

Ltac quiet :=
  repeat first
    [ done | apply Quiet_refl | apply Quiet_then_lru | apply Quiet_then_used | apply Quiet_then_flights
    | apply Quiet_then_tick | apply Quiet_then_complete | (apply Quiet_then_put; [by auto|]) ].

Lemma Quiet_drop l c : Quiet c (foldl drop_slot c l).
Proof.
  revert c. induction l as [|s l IH]; intros c; [apply Quiet_refl|]. cbn [foldl]. eapply Quiet_trans; [|apply IH].
  unfold drop_slot. case_match; quiet.
Qed.

Lemma Quiet_clear e c : Quiet c (clear_slots e c).
Proof. eapply Quiet_trans; [|apply Quiet_drop]. quiet. Qed.

Lemma Quiet_poison e c : Quiet c (poison e c).
Proof. unfold poison. quiet. apply Quiet_clear. Qed.

Lemma Quiet_cold e c : Quiet c (go_cold e c).
Proof. eapply Quiet_trans; [|apply Quiet_clear]. quiet. Qed.

Lemma Quiet_evict e c : Quiet c (evict_in_file e c).2.
Proof.
  unfold evict_in_file. destruct (oldest_ready _ _) as [[t i]|]; [|quiet]. cbn [snd]. repeat case_match; quiet.
Qed.

Lemma Quiet_room n e idx end_ c : Quiet c (make_room cf n e idx end_ c).2.
Proof.
  revert c. induction n as [|n IH]; intros c; cbn [make_room]; case_match; try apply Quiet_refl.
  pose proof (Quiet_evict e c) as HE. destruct (evict_in_file e c) as [[] c1]; cbn [snd] in *; [by eapply Quiet_trans|].
  by case_match.
Qed.

Lemma Quiet_miss x idx c : Quiet c (miss cf x idx c).1.
Proof.
  unfold miss. destruct (if bool_decide _ then _ else _) as [counts before].
  match goal with |- context [make_room cf ?n ?e ?i ?en ?y] =>
    pose proof (Quiet_room n e i en y) as HR; assert (Quiet c y) as H1 by quiet;
    destruct (make_room cf n e i en y) as [[end_|] c2] end; cbn [fst snd] in *; [|by eapply Quiet_trans].
  quiet. by eapply Quiet_trans.
Qed.

Lemma Quiet_look ev x idx c : Quiet c (unit_look cf ev x idx c).1.
Proof.
  unfold unit_look, cache_now. case_match; [apply Quiet_refl|].
  destruct (find_slot _ _) as [[? [d la k|fl]]|]; [|destruct ev|]; cbn [fst]; quiet.
  apply (Quiet_trans c (set_tick c)); [quiet|apply Quiet_miss].
Qed.

Lemma Quiet_evict_entry x ld key e idx c : Quiet c (evict_entry x ld key e idx c).1.
Proof.
  unfold evict_entry. destruct (lru_pos _ _ _ _) as [i|]; [|apply Quiet_refl].
  destruct (_ !! i) as [[j [d la k|fl]]|]; try apply Quiet_refl. case_match; cbn [fst]; quiet.
Qed.

Lemma Quiet_install_units js e idx fl run c : Quiet c (install_units cf js e idx fl run c).2.
Proof.
  revert c. induction js as [|j js IH]; intros c; cbn [install_units]; [apply Quiet_refl|].
  destruct (fill_slot _ _ _ _ _) as [l|]; [|apply IH].
  match goal with |- context [install_units cf js e idx fl run ?y] =>
    specialize (IH y); assert (Quiet c y) as H1 by quiet end.
  destruct (install_units _ _ _ _ _ _ _) as [n c']. cbn [snd] in *. by eapply Quiet_trans.
Qed.

Lemma Quiet_install x ld run c : Quiet c (install cf x ld run c).1.
Proof.
  unfold install. case_match; [apply Quiet_refl|].
  match goal with |- context [install_units cf ?js ?e ?i ?fl run c] =>
    pose proof (Quiet_install_units js e i fl run c) as HQ; destruct (install_units cf js e i fl run c) as [n c'] end.
  cbn [fst snd] in *. quiet.
Qed.

Lemma Quiet_judge x c : Quiet c (judge cf x c).1.
Proof.
  unfold judge. destruct (x_how x) as [|[] []|]; cbn [fst]; quiet. case_match; cbn [fst]; quiet.
  case_match; quiet. match goal with |- Quiet _ (go_cold _ ?y) => apply (Quiet_trans c y); [quiet|apply Quiet_cold] end.
Qed.

Lemma Quiet_failed x ld c : Quiet c (fetch_failed x ld c).1.
Proof.
  unfold fetch_failed. cbn [fst]. case_match; quiet.
  match goal with |- Quiet _ (go_cold _ ?y) => apply (Quiet_trans c y); [quiet|apply Quiet_cold] end.
Qed.

Lemma Quiet_read_start f off want c : Quiet c (read_start cf f off want c).1.
Proof. unfold read_start. repeat case_match; cbn [fst]; quiet. Qed.

Lemma Quiet_register_entry e v im wr c : Quiet c (register_entry e v im wr c).2.
Proof.
  unfold register_entry. repeat case_match; cbn [snd]; try apply Quiet_refl; [apply Quiet_poison|].
  apply Quiet_then_put; [by auto|apply Quiet_clear].
Qed.

Lemma step_quiet ev c p c' p' :
  step cf ev c p = Some (c', p') →
  match p with PRegister _ _ _ _ | PInvalidatePath _ _ | PPoison _ _ [] => True | _ => Quiet c c' end.
Proof.
  intros Hs. destruct p; cbn [step] in Hs; try discriminate Hs; try done.
  all: try (apply (f_equal (option_map fst)) in Hs; cbn [option_map fst] in Hs; injection Hs as <-).
  - apply Quiet_read_start.
  - apply Quiet_look.
  - unfold unit_wait in Hs. repeat case_match; simplify_eq; apply Quiet_refl.
  - quiet.
  - quiet.
  - unfold reserve_try. repeat case_match; cbn [fst]; quiet.
  - unfold evict_pop. repeat case_match; cbn [fst]; quiet.
  - apply Quiet_evict_entry.
  - destruct ev; simplify_eq. apply Quiet_refl.
  - exact (Quiet_failed x ld c).
  - apply Quiet_install.
  - quiet.
  - quiet.
  - quiet.
  - quiet.
  - apply Quiet_judge.
  - pose proof (Quiet_register_entry e v immutable write c) as HQ. destruct (register_entry _ _ _ _ _). by simplify_eq.
  - apply Quiet_poison.
  - destruct es as [|e es]; [done|]. simplify_eq. apply Quiet_poison.
Qed.

(** ** The steps under the table's lock *)

Lemma sweep_table busy c nm e : cc_by_name (sweep busy c) !! nm = Some e → cc_by_name c !! nm = Some e.
Proof. intros H. cbn in H. by apply map_lookup_filter_Some in H as [? _]. Qed.

Lemma register_table_TableOk busy nm c : TableOk c → TableOk (register_table busy nm c).2.
Proof.
  intros HT. unfold register_table. set (c1 := if cc_sweep_at c <=? _ then sweep busy c else c).
  assert (TableOk c1) as H1.
  { unfold c1. case_match; [|done]. intros n e Hn. apply (HT n e). by eapply sweep_table. }
  clearbody c1. case_match; cbn [snd]; [done|]. exact (TableOk_new nm state_default c1 H1).
Qed.

Lemma invalidate_table_TableOk root path c : TableOk c → TableOk (invalidate_table root path c).2.
Proof. intros HT. unfold invalidate_table. cbn [snd]. repeat case_match; try done. by apply TableOk_new. Qed.

Lemma step_table ev c p c' p' : TableOk c → Grows c c' → step cf ev c p = Some (c', p') → TableOk c'.
Proof.
  intros HT Hg Hs. pose proof (step_quiet _ _ _ _ _ Hs) as HQ.
  destruct p; try (by eapply TableOk_same; [apply HQ|..]).
  - cbn [step] in Hs. destruct (cc_locked c); [done|].
    pose proof (register_table_TableOk (busy_of ev) name c HT). destruct (register_table _ _ _). by simplify_eq.
  - cbn [step] in Hs. destruct (cc_locked c); [done|].
    pose proof (invalidate_table_TableOk root path c HT). destruct (invalidate_table _ _ _). by simplify_eq.
  - destruct es; [|by eapply TableOk_same; [apply HQ|..]]. cbn [step] in Hs. by simplify_eq.
Qed.
End sys.

(** ** What the read cache promises its callers: the bytes it answers are the file's,
    it stays within its budget, and a file it was told has changed is never
    answered from it again. *)


(** ** Contents *)

Section content.
Context (cf : CacheConfig) (content : Name → Version → bytes).
Context (Hcf : config_ok cf = true).
Context (Hsize : ∀ nm v, 0 ≤ vs_size v → len (content nm v) = vs_size v).

Definition SysOk (s : Sys) : Prop :=
  ∃ g, Inv cf content g s.1 ∧ TableOk s.1 ∧ ∀ p, p ∈ s.2 → ThOk cf content g s.1 p.

Lemma SysOk_call c ths p : SysOk (c, ths) → starts ths p → SysOk (c, ths ++ [p]).
Proof using.
  intros (g & HI & HT & Hth) Hst. exists g. cbn [fst snd] in *. split_and!; [done..|]. intros q Hq.
  apply elem_of_app in Hq as [Hq|Hq%list_elem_of_singleton]; [auto|]. subst q.
  destruct p; cbn in Hst |- *; try done.
  - destruct Hst as [Hr ?]. split; [exact (Hth _ Hr)|done].
Qed.

Lemma SysOk_step s s' : SysOk s → sys_step cf content s s' → SysOk s'.
Proof using Hcf Hsize.
  intros HS Hst. destruct Hst as [c ths i p ev c' p' Hi Hh Hs|c ths p Hst|c ths f Hf|c ths i f Hi _].
  - destruct HS as (g & HI & HT & Hth). cbn [fst snd] in *. pose proof (list_elem_of_lookup_2 _ _ _ Hi) as Hp.
    destruct (step_ok cf content Hcf Hsize g c p ev c' p' HI HT (Hth _ Hp) Hh Hs) as (Hg & k & HI' & Hp').
    exists (g ++ k). cbn [fst snd]. split_and!; [done|by eapply step_table|]. intros q Hq.
    apply elem_of_insert_inv in Hq as [->|Hq]; [done|]. eapply ThOk_grows; [done|auto].
  - by apply SysOk_call.
  - destruct HS as (g & HI & HT & Hth). exists g. cbn [fst snd] in *. split_and!; [by eapply Inv_ext; [..|exact HI]|done|].
    intros q Hq. apply (ThOk_same cf content g c); [by apply Grows_entries|].
    apply elem_of_app in Hq as [Hq|Hq%list_elem_of_singleton]; [auto|]. subst q. exact (Hth _ Hf).
  - destruct HS as (g & HI & HT & Hth). exists g. cbn [fst snd] in *. split_and!; [by eapply Inv_ext; [..|exact HI]|done|].
    intros q Hq. apply elem_of_insert_inv in Hq as [->|Hq]; [done|].
    apply (ThOk_same cf content g c); [by apply Grows_entries|auto].
Qed.

Lemma SysOk_reachable s : reachable cf content s → SysOk s.
Proof using Hcf Hsize.
  apply (rtc_ind_r (λ s, SysOk s)); [|intros s1 s2 _ Hst IH; by eapply SysOk_step].
  exists []. cbn. split_and!; [|by intros ??|by intros ? ?%not_elem_of_nil].
  split_and!; [by intros ? ? ?|done|by intros ? ? ? ?|by intros ? ? ?].
Qed.

(** C8: whatever threads read, register and invalidate in whatever
    interleaving, a read the cache answers has the bytes of the version its
    reference was registered with, from the offset asked for to the end of
    the buffer or of the file, and no call panics: no slice is out of range
    and no subtraction wraps. *)
Theorem cache_read_exact s p :
  reachable cf content s → p ∈ s.2 →
  p ≠ PPanic ∧
  match p with
  | PDone f off want (Some b) => ∃ v, fr_version f = Some v ∧ 0 ≤ off < vs_size v ∧
      b = mem_get (content (name_of s.1 (fr_entry f)) v) off (Z.min want (vs_size v - off))
  | _ => True
  end.
Proof using Hcf Hsize.
  intros Hr Hp. destruct (SysOk_reachable s Hr) as (g & _ & _ & Hth). specialize (Hth p Hp).
  split; [by intros ->|]. destruct p as [| | | | | | | | | | | | | | | |f off want [b|]| | | | | | | |]; try done.
  by destruct Hth as (_ & v & ? & ? & ?); exists v.
Qed.
End content.

(** ** The budget *)

Lemma sum_by_elem_in {A} (f : A → Z) l x : (∀ y, y ∈ l → 0 ≤ f y) → x ∈ l → f x ≤ sum_by f l.
Proof.
  intros Hf. assert (∀ k, k ⊆ l → 0 ≤ sum_by f k) as Hn.
  { induction k as [|y k IH]; intros Hk; [done|]. rewrite sum_by_cons.
    pose proof (Hf y (Hk y ltac:(by left))). pose proof (IH (λ z Hz, Hk z (list_elem_of_further z y k Hz))). lia. }
  intros (l1 & l2 & ->)%list_elem_of_split. rewrite sum_by_app, sum_by_cons.
  pose proof (Hn l1 ltac:(set_solver)). pose proof (Hn l2 ltac:(set_solver)). lia.
Qed.

Section memory.
Context (cf : CacheConfig) (content : Name → Version → bytes).
Context (Hcf : config_ok cf = true).
Context (Hsize : ∀ nm v, 0 ≤ vs_size v → len (content nm v) = vs_size v).

(** What a thread holds of the budget for a fetch under way. *)
Definition reserved (p : pc) : Z :=
  match p with
  | PFetch x ld | PFailed x ld | PInstall x ld _ | PUnreserve x ld => load_want cf x ld
  | _ => 0
  end.

Lemma load_want_pos g c x ld : Inv cf content g c → LoadOk cf content g c x ld → 0 < load_want cf x ld.
Proof using Hcf.
  intros HI (HC & HP & Hgi). pose proof (proj2 (proj2 (proj2 HI)) _ _ Hgi) as [Hb Hs]. cbn in Hb, Hs.
  pose proof (cf_pos cf Hcf). unfold load_want. nia.
Qed.

Lemma reserved_nonneg g c p : Inv cf content g c → ThOk cf content g c p → 0 ≤ reserved p.
Proof using Hcf.
  intros HI HT. destruct p; cbn [reserved]; try lia; cbn [ThOk] in HT;
    [| |destruct HT as [HT _]|]; pose proof (load_want_pos _ _ _ _ HI HT); lia.
Qed.

(** The units of a run are no more than the run. *)
Lemma run_units_bytes run idx a n :
  idx ≤ a → sum_by (λ j, len (run_unit cf run idx j)) (seqZ a n) ≤ Z.max 0 (len run - (a - idx) * cf_block cf).
Proof using Hcf.
  destruct (cf_pos cf Hcf) as [Hu _]. revert a. destruct (Z.le_gt_cases n 0) as [Hn|Hn].
  { intros. rewrite seqZ_nil by lia. cbn. lia. }
  replace n with (Z.of_nat (Z.to_nat n)) by lia. clear Hn. induction (Z.to_nat n) as [|m IH]; intros a Ha.
  { rewrite seqZ_nil by lia. cbn. lia. }
  rewrite seqZ_cons by lia. rewrite sum_by_cons. replace (Z.pred (Z.of_nat (S m))) with (Z.of_nat m) by lia.
  specialize (IH (Z.succ a)). assert (len (run_unit cf run idx a) ≤ Z.max 0 (Z.min (cf_block cf) (len run - (a - idx) * cf_block cf))).
  { unfold run_unit, mem_get, len. rewrite length_take, length_drop. lia. }
  nia.
Qed.

Lemma reserved_deliver x idx data got : reserved (deliver cf x idx data got) = 0.
Proof. unfold deliver. by repeat case_match. Qed.

Lemma reserved_look ev x idx c : reserved (unit_look cf ev x idx c).2 = 0.
Proof.
  unfold unit_look. case_match; [done|]. cbn [cache_now]. destruct (find_slot _ _) as [[? [d la k|fl]]|].
  - apply reserved_deliver.
  - by destruct ev.
  - unfold miss. destruct (if bool_decide _ then _ else _). by destruct (make_room _ _ _ _ _ _) as [[]].
Qed.

Lemma install_Acc g x ld run r c :
  Inv cf content g c → ThOk cf content g c (PInstall x ld run) → 0 ≤ r → Acc cf (r + load_want cf x ld) c →
  Acc cf (r + reserved (install cf x ld run c).2) (install cf x ld run c).1.
Proof using Hcf Hsize.
  intros HI (HL & Hrun) Hr HA. pose proof (load_want_pos _ _ _ _ HI HL) as Hw. unfold install. case_match; [done|].
  assert (len run = load_want cf x ld) as El.
  { destruct HL as (HC & HP & Hgi). pose proof (proj2 (proj2 (proj2 HI)) _ _ Hgi) as [Hb Hs]. cbn in Hb, Hs.
    pose proof (cf_pos cf Hcf). subst run. unfold run_of. cbn. unfold load_want in *.
    apply mem_get_len; rewrite ?Hsize by nia; nia. }
  pose proof (install_units_Acc cf (seqZ (ld_idx ld) (ld_end ld - ld_idx ld)) (fr_entry (x_ref x)) (ld_idx ld)
    (ld_flight ld) run _ _ HA) as Hi.
  pose proof (run_units_bytes run (ld_idx ld) (ld_idx ld) (ld_end ld - ld_idx ld) ltac:(lia)) as Hn.
  destruct (install_units _ _ _ _ _ _ _) as [n c']. destruct Hi as (Hb & Eu & Et). destruct HA as (_ & _ & Hm).
  set (m := load_want cf x ld - n) in *. cbn [fst snd]. set (q := if existsb _ _ then _ else _).
  assert (reserved q = 0) as -> by (unfold q; by case_match). pose proof (total_nonneg c').
  unfold Acc. change (total (set_used (λ u, u - m) c')) with (total c').
  change (cc_used (set_used (λ u, u - m) c')) with (as_u64 (cc_used c' - m)).
  unfold as_u64. rewrite Z.mod_small by lia. lia.
Qed.

Lemma reserve_Acc g x ld r c :
  Inv cf content g c → LoadOk cf content g c x ld → Acc cf r c →
  Acc cf (r + reserved (reserve_try cf x ld c).2) (reserve_try cf x ld c).1.
Proof using Hcf.
  intros HI HL HA. pose proof (load_want_pos _ _ _ _ HI HL) as Hw. pose proof HA as (E & ? & Hm).
  assert (Acc cf (r + 0) c) as HA0 by (by rewrite Z.add_0_r). unfold reserve_try.
  case_match; [done|]. destruct (Z.leb_spec (cc_used c + load_want cf x ld) (cf_max_bytes cf)); [|done].
  set (n := load_want cf x ld) in *. cbn [fst snd reserved]. fold n. unfold Acc. pose proof (total_nonneg c).
  change (total (set_used (λ u, u + n) c)) with (total c).
  change (cc_used (set_used (λ u, u + n) c)) with (as_u64 (cc_used c + n)).
  unfold as_u64. rewrite Z.mod_small by lia. lia.
Qed.

Lemma unreserve_Acc n r c : 0 ≤ r → 0 ≤ n → Acc cf (r + n) c → Acc cf (r + 0) (set_used (λ u, u - n) c).
Proof using.
  intros Hr Hn (E & ? & Hm). pose proof (total_nonneg c). unfold Acc.
  change (total (set_used (λ u, u - n) c)) with (total c).
  change (cc_used (set_used (λ u, u - n) c)) with (as_u64 (cc_used c - n)).
  unfold as_u64. rewrite Z.mod_small by lia. lia.
Qed.

(** A step moves between what the threads hold and what is installed. *)
Lemma step_Acc g ev c p c' p' r :
  Inv cf content g c → ThOk cf content g c p → 0 ≤ r → Acc cf (r + reserved p) c →
  step cf ev c p = Some (c', p') → Acc cf (r + reserved p') c'.
Proof using Hcf Hsize.
  intros HI HT Hr HA Hs. pose proof (reserved_nonneg _ _ _ HI HT) as Hn.
  assert (∀ q, (c', p') = q → Acc cf (r + reserved q.2) q.1 → Acc cf (r + reserved p') c') as Hq by (by intros q <-).
  destruct p; cbn [step] in Hs; try discriminate Hs; cbn [reserved] in HA, Hn.
  - injection Hs as Hs. apply (Hq _ (eq_sym Hs)).
    assert (reserved (read_start cf f off want c).2 = 0) as -> by (unfold read_start; by repeat case_match).
    by apply read_start_Acc.
  - injection Hs as Hs. apply (Hq _ (eq_sym Hs)). rewrite reserved_look. by apply unit_look_Acc.
  - unfold unit_wait in Hs. repeat case_match; simplify_eq; try done. by rewrite reserved_deliver.
  - injection Hs as <- <-. apply put_Acc; [apply unload_bytes|done].
  - injection Hs as <- <-. done.
  - injection Hs as Hs. apply (Hq _ (eq_sym Hs)). rewrite Z.add_0_r in HA. by eapply reserve_Acc.
  - injection Hs as Hs. unfold evict_pop in Hs. repeat case_match; injection Hs as <- <-; done.
  - injection Hs as Hs. apply (Hq _ (eq_sym Hs)).
    assert (reserved (evict_entry x ld key e idx c).2 = 0) as -> by (unfold evict_entry; by repeat case_match).
    by apply evict_entry_Acc.
  - destruct ev as [| | |a b]; try discriminate Hs. injection Hs as <- <-. unfold fetch_answer. by repeat case_match.
  - injection Hs as <- <-. exact (fetch_failed_Acc cf x ld _ c HA).
  - injection Hs as Hs. apply (Hq _ (eq_sym Hs)). by eapply install_Acc.
  - injection Hs as <- <-. by rewrite reserved_deliver.
  - injection Hs as <- <-. by apply unreserve_Acc.
  - injection Hs as <- <-. apply put_Acc; [apply unload_bytes|done].
  - injection Hs as <- <-. done.
  - injection Hs as Hs. apply (Hq _ (eq_sym Hs)).
    assert (reserved (judge cf x c).2 = 0) as -> by (unfold judge; by repeat case_match). by apply judge_Acc.
  - destruct (cc_locked c); [done|]. pose proof (register_table_Acc cf (busy_of ev) name _ c HA).
    destruct (register_table _ _ _). by simplify_eq.
  - pose proof (register_entry_Acc cf e v immutable write _ c HA). destruct (register_entry _ _ _ _ _). by simplify_eq.
  - injection Hs as <- <-. by apply poison_Acc.
  - destruct (cc_locked c); [done|]. pose proof (invalidate_table_Acc cf root path _ c HA).
    destruct (invalidate_table _ _ _). by simplify_eq.
  - destruct es as [|e es]; injection Hs as <- <-; [done|by apply poison_Acc].
Qed.

Context (Hmax : 0 ≤ cf_max_bytes cf < u64_max).

Lemma budget_reachable s : reachable cf content s → Acc cf (sum_by reserved s.2) s.1.
Proof using Hcf Hsize Hmax.
  intros Hr. cut (SysOk cf content s ∧ Acc cf (sum_by reserved s.2) s.1); [by intros [_ ?]|].
  revert s Hr. apply (rtc_ind_r (λ s, SysOk cf content s ∧ Acc cf (sum_by reserved s.2) s.1)).
  { split; [apply SysOk_reachable; [done|done|apply rtc_refl]|]. unfold Acc. cbn. lia. }
  intros s1 s2 _ Hst [HS HA]. split; [by eapply SysOk_step|].
  destruct Hst as [c ths i p ev c' p' Hi Hh Hs|c ths p Hst|c ths f Hf|c ths i f Hi _]; cbn [fst snd] in *.
  - destruct HS as (g & HI & HT & Hth). cbn [fst snd] in *. rewrite (sum_by_insert reserved ths i p p' Hi).
    pose proof (Hth p (list_elem_of_lookup_2 _ _ _ Hi)) as Hp.
    assert (reserved p ≤ sum_by reserved ths) as Hle.
    { apply (sum_by_elem_in reserved ths p); [|by eapply list_elem_of_lookup_2].
      intros q Hq. exact (reserved_nonneg _ _ _ HI (Hth q Hq)). }
    replace (sum_by reserved ths - reserved p + reserved p') with ((sum_by reserved ths - reserved p) + reserved p') by lia.
    eapply step_Acc; [done|done|lia| |done]. by replace (sum_by reserved ths - reserved p + reserved p) with (sum_by reserved ths) by lia.
  - rewrite sum_by_app, sum_by_cons. assert (reserved p = 0) as -> by (by destruct p). cbn. by rewrite Z.add_0_r.
  - rewrite sum_by_app, sum_by_cons. cbn. by rewrite Z.add_0_r.
  - rewrite (sum_by_insert reserved ths i _ _ Hi). cbn [reserved].
    by replace (sum_by reserved ths - 0 + 0) with (sum_by reserved ths) by lia.
Qed.

(** C9: in every reachable state the counter of bytes in use is exactly
    what the files hold plus what the fetches under way have reserved, and at
    most the budget; no file has more than its share of units, nor two of
    the same index. *)
Theorem cache_memory_bounded s :
  reachable cf content s →
  cc_used s.1 = total s.1 + sum_by reserved s.2 ∧ total s.1 ≤ cc_used s.1 ≤ cf_max_bytes cf ∧
  ∀ e, len (cs_slots (state_of s.1 e)) ≤ cf_blocks_per_file cf ∧ NoDup (sl_idx <$> cs_slots (state_of s.1 e)).
Proof using Hcf Hsize Hmax.
  intros Hr. pose proof (budget_reachable s Hr) as (E & ? & ?). split_and!; [done|lia|lia|]. intros e.
  destruct (SysOk_reachable cf content Hcf Hsize s Hr) as (g & HI & _). unfold state_of.
  destruct (cc_entries s.1 !! e) as [en|] eqn:He.
  - destruct (proj1 HI e en He) as (_ & _ & _ & ? & ?). done.
  - cbn. pose proof (cf_pos cf Hcf). split; [unfold len; cbn; lia|constructor].
Qed.
End memory.
