(* ===== verification/CacheTable.v ===== *)
(** CacheTable: the file table of the read cache and what invalidating a path
    leaves behind (rust/crates/vfs-ipc/src/readcache/mod.rs).

    A reference in use keeps its entry in the table (the sweep looks at the
    [Arc] count), a poisoned entry stays there for good, and the lock which
    [invalidate_path] keeps lets nothing in while it poisons. *)

From S2P Require Import Prelude Text Seg NtBuf ReadCache CacheInv CacheSafe CacheProps.


(** ** What the table keeps *)

(** The entry whose [Arc] a caller or a registration owns. *)
Definition holds (p : pc) : option nat :=
  match p with PRegEntry e _ _ _ => Some e | PRegistered f => Some (fr_entry f) | _ => None end.
Definition owns (e : nat) (p : pc) : Z := if decide (holds p = Some e) then 1 else 0.
Definition poisons (p : pc) : Z := match p with PPoison _ _ _ => 1 | _ => 0 end.

Definition held_of (c : Cache) (e : nat) : nat := default 0%nat (cc_held c !! e).
Definition is_poisoned (c : Cache) (e : nat) : Prop := cs_poisoned (state_of c e) = true.

(** [c'] has every entry of [c]'s table that is in use or poisoned. *)
Definition Keeps (c c' : Cache) : Prop :=
  (∀ nm e, cc_by_name c !! nm = Some e → (0 < held_of c e)%nat ∨ is_poisoned c e → cc_by_name c' !! nm = Some e) ∧
  (∀ e, is_poisoned c e → is_poisoned c' e).

Lemma Keeps_quiet c c' : Quiet c c' → Keeps c c'.
Proof. intros (E & _ & _ & _ & Hp). split; [|done]. intros nm e Hn _. by rewrite E. Qed.

Lemma Keeps_entries c c' : cc_entries c' = cc_entries c → cc_by_name c' = cc_by_name c → Keeps c c'.
Proof. intros E E'. split; [intros; by rewrite E'|]. intros e. unfold is_poisoned, state_of. by rewrite E. Qed.

Lemma new_entry_state nm st c e : has_entry c e → state_of (new_entry nm st c) e = state_of c e.
Proof. intros [en He]. unfold state_of. cbn. by rewrite (lookup_app_l_Some _ _ _ _ He), He. Qed.

Lemma poisoned_has c e : is_poisoned c e → has_entry c e.
Proof. unfold is_poisoned, has_entry, state_of. destruct (cc_entries c !! e); [by eexists|done]. Qed.

Lemma Keeps_new nm st c : cc_by_name c !! nm = None → Keeps c (new_entry nm st c).
Proof.
  intros Hn. split.
  - intros n e Hne _. cbn. rewrite lookup_insert_ne; [done|]. congruence.
  - intros e He. unfold is_poisoned. by rewrite new_entry_state by (by apply poisoned_has).
Qed.

Lemma Keeps_sweep busy c : Keeps c (sweep busy c).
Proof.
  split; [|done]. intros nm e Hn Hk. cbn. apply map_lookup_filter_Some. split; [done|]. cbn. unfold sweep_keeps.
  destruct Hk as [Hk|Hk]; [|by rewrite Hk, orb_true_r].
  apply orb_true_iff; left. apply orb_true_iff; left. apply orb_true_iff; left. by apply Nat.ltb_lt.
Qed.

Lemma hold_held e c e' : length (cc_held c) = length (cc_entries c) → has_entry c e →
  held_of (hold e c) e' = if decide (e' = e) then S (held_of c e) else held_of c e'.
Proof.
  intros El [en He]. unfold held_of. cbn. assert (is_Some (cc_held c !! e)) as [n Hn].
  { apply lookup_lt_is_Some. rewrite El. by eapply lookup_lt_Some. }
  rewrite Hn. case_decide; [subst; by rewrite list_lookup_insert_eq by (by eapply lookup_lt_Some)|].
  by rewrite list_lookup_insert_ne.
Qed.

Lemma release_held e c e' : held_of (release e c) e' = if decide (e' = e) then pred (held_of c e) else held_of c e'.
Proof.
  unfold held_of. cbn. destruct (cc_held c !! e) as [n|] eqn:Hn.
  - case_decide; [subst; by rewrite list_lookup_insert_eq by (by eapply lookup_lt_Some)|]. by rewrite list_lookup_insert_ne.
  - case_decide; [subst; by rewrite Hn|done].
Qed.

Lemma hold_length e c : length (cc_held (hold e c)) = length (cc_held c).
Proof. cbn. case_match; [apply length_insert|done]. Qed.
Lemma release_length e c : length (cc_held (release e c)) = length (cc_held c).
Proof. cbn. case_match; [apply length_insert|done]. Qed.

(** ** The two calls that change the table *)

Lemma register_table_keeps busy nm c :
  TableOk c → length (cc_held c) = length (cc_entries c) →
  let r := register_table busy nm c in
  (∀ n e, cc_by_name c !! n = Some e → (0 < held_of c e)%nat ∨ is_poisoned c e → cc_by_name r.2 !! n = Some e) ∧
  (∀ e, is_poisoned c e → is_poisoned r.2 e) ∧
  length (cc_held r.2) = length (cc_entries r.2) ∧ cc_locked r.2 = cc_locked c ∧ cc_by_name r.2 !! nm = Some r.1 ∧
  ∀ e, has_entry c e ∨ e = r.1 → (held_of c e + (if decide (e = r.1) then 1 else 0) ≤ held_of r.2 e)%nat.
Proof.
  intros HT El. unfold register_table. set (c1 := if cc_sweep_at c <=? _ then sweep busy c else c).
  assert (Keeps c c1) as [HK1 HK2] by (unfold c1; case_match; [apply Keeps_sweep|by apply Keeps_entries]).
  assert (cc_entries c1 = cc_entries c ∧ cc_held c1 = cc_held c ∧ cc_locked c1 = cc_locked c) as (E1 & E2 & E3)
    by (unfold c1; by case_match).
  assert (TableOk c1) as HT1.
  { unfold c1. case_match; [|done]. intros n e Hn. apply (HT n e). by eapply sweep_table. }
  assert (∀ e, held_of c1 e = held_of c e) as Eh by (intros e; unfold held_of; by rewrite E2). clearbody c1.
  destruct (cc_by_name c1 !! nm) as [e0|] eqn:Hn; cbv zeta; cbn [fst snd].
  - split_and!; [done|done|by rewrite hold_length, E2, El, <- E1|done|done|]. intros e _.
    rewrite hold_held by (congruence || by apply (HT1 nm)). case_decide; subst; rewrite ?Eh; lia.
  - set (c2 := new_entry nm state_default c1). destruct (Keeps_new nm state_default c1 Hn) as [HK3 HK4]. fold c2 in HK3, HK4.
    assert (length (cc_held c2) = length (cc_entries c2)) as El2 by (cbn; rewrite !length_app, E1, E2; cbn; lia).
    assert (has_entry c2 (length (cc_entries c1))) as He2 by (unfold has_entry; cbn; rewrite list_lookup_middle by done; by eexists).
    split_and!; [|intros e He; apply HK4; auto|by rewrite hold_length|done|by cbn; rewrite lookup_insert_eq|].
    + intros n e Hne Hk. cbn. apply HK3; [by apply HK1|]. rewrite Eh. destruct Hk; [by left|right; auto].
    + intros e He. rewrite hold_held by done. assert (∀ k, (held_of c k ≤ held_of c2 k)%nat) as Hle.
      { intros k. unfold held_of. cbn. rewrite E2. destruct (cc_held c !! k) eqn:Hk; [|cbn; lia].
        by rewrite (lookup_app_l_Some _ _ _ _ Hk). }
      case_decide; [subst e; pose proof (Hle (length (cc_entries c1)))|pose proof (Hle e)]; lia.
Qed.

Definition whole_root (path : str) : bool := bool_decide (path = []) || bool_decide (path = lit ".").

(** While a path is invalidated: what the table has of it is poisoned, or is
    about to be. *)
Definition Poisoning (c : Cache) (root : Z) (path : str) (es : list nat) : Prop :=
  (∀ nm e, cc_by_name c !! nm = Some e → under_path root (trim_slashes path) nm = true → e ∈ es ∨ is_poisoned c e) ∧
  (whole_root (trim_slashes path) = false → ∃ e, cc_by_name c !! (root, trim_slashes path) = Some e).

Lemma invalidate_table_keeps root path c :
  TableOk c → length (cc_held c) = length (cc_entries c) →
  let r := invalidate_table root path c in
  Keeps c r.2 ∧ length (cc_held r.2) = length (cc_entries r.2) ∧ cc_locked r.2 = cc_locked c ∧
  (∀ e, (held_of c e ≤ held_of r.2 e)%nat) ∧ Poisoning r.2 root path r.1.
Proof.
  intros HT El. unfold invalidate_table. fold (whole_root (trim_slashes path)). set (pa := trim_slashes path). cbv zeta.
  cbn [fst snd]. assert (∀ nm e, cc_by_name c !! nm = Some e → under_path root pa nm = true →
    e ∈ snd <$> filter (λ p, under_path root pa p.1 = true) (map_to_list (cc_by_name c))) as Hhit.
  { intros nm e Hn Hu. apply list_elem_of_fmap. exists (nm, e). split; [done|]. apply list_elem_of_filter. split; [done|].
    by apply elem_of_map_to_list. }
  destruct (whole_root pa) eqn:Ew; [|destruct (cc_by_name c !! (root, pa)) as [e|] eqn:Hn].
  - split_and!; [by apply Keeps_entries|done|done|done|]. split; [intros; left; by eapply Hhit|]. fold pa. by rewrite Ew.
  - split_and!; [by apply Keeps_entries|done|done|done|]. split; [intros; left; by eapply Hhit|]. fold pa. by eexists.
  - split_and!; [by apply Keeps_new|cbn; rewrite !length_app, El; cbn; lia|done| |].
    + intros e. unfold held_of. cbn. destruct (cc_held c !! e) eqn:Hk; [|cbn; lia]. by rewrite (lookup_app_l_Some _ _ _ _ Hk).
    + split; fold pa.
      * intros nm e Hne Hu. cbn in Hne. apply lookup_insert_Some in Hne as [[<- <-]|[_ Hne]]; [|left; by eapply Hhit].
        right. unfold is_poisoned, state_of. cbn. by rewrite list_lookup_middle.
      * intros _. cbn. rewrite lookup_insert_eq. by eexists.
Qed.

(** ** The invariant of the table and its references *)

Section table.
Context (cf : CacheConfig) (content : Name → Version → bytes).
Context (Hcf : config_ok cf = true).
Context (Hsize : ∀ nm v, 0 ≤ vs_size v → len (content nm v) = vs_size v).

Record TabInv (s : Sys) : Prop := mkTabInv {
  ti_len : length (cc_held s.1) = length (cc_entries s.1);
  ti_held : ∀ e, has_entry s.1 e → sum_by (owns e) s.2 ≤ Z.of_nat (held_of s.1 e);
  ti_live : ∀ p e, p ∈ s.2 → holds p = Some e → cc_by_name s.1 !! name_of s.1 e = Some e;
  ti_lock : sum_by poisons s.2 = if cc_locked s.1 then 1 else 0;
  ti_poison : ∀ root path es, PPoison root path es ∈ s.2 → Poisoning s.1 root path es }.

Lemma owns_nonneg e p : 0 ≤ owns e p.
Proof. unfold owns. case_decide; lia. Qed.
Lemma poisons_nonneg p : 0 ≤ poisons p.
Proof. by destruct p. Qed.

Lemma held_pos s p e : TabInv s → has_entry s.1 e → p ∈ s.2 → holds p = Some e → (0 < held_of s.1 e)%nat.
Proof.
  intros HI He Hp Hh. pose proof (ti_held s HI e He). pose proof (sum_by_elem_in (owns e) s.2 p (λ y _, owns_nonneg e y) Hp) as H1.
  unfold owns at 1 in H1. rewrite decide_True in H1 by done. lia.
Qed.

Lemma unlocked_no_poison s root path es : TabInv s → cc_locked s.1 = false → PPoison root path es ∉ s.2.
Proof.
  intros HI Hl Hp. pose proof (ti_lock s HI) as E. rewrite Hl in E.
  pose proof (sum_by_elem_in poisons s.2 _ (λ y _, poisons_nonneg y) Hp) as H1. cbn [poisons] in H1. lia.
Qed.

Lemma has_entry_holds g c p e : ThOk cf content g c p → holds p = Some e → has_entry c e.
Proof. destruct p; try done; cbn; intros H [= <-]; [by destruct H|done]. Qed.

Lemma Poisoning_quiet c c' root path es : Quiet c c' → Poisoning c root path es → Poisoning c' root path es.
Proof.
  intros (E & _ & _ & _ & Hp) [H1 H2]. split; rewrite E; [|done]. intros nm e Hn Hu.
  destruct (H1 nm e Hn Hu); [by left|right; by apply Hp].
Qed.

Lemma poison_poisons e c : has_entry c e → is_poisoned (poison e c) e.
Proof.
  intros He. unfold is_poisoned, poison. rewrite state_put_same; [done|].
  by apply (Grows_clear e c e).
Qed.

Definition HasHeld (c : Cache) (ths : list pc) : Prop := ∀ p e, p ∈ ths → holds p = Some e → has_entry c e.

Lemma owned_none c ths e : HasHeld c ths → ¬ has_entry c e → sum_by (owns e) ths = 0.
Proof.
  intros HH Hc. induction ths as [|q ths IH]; [done|]. rewrite sum_by_cons, IH by (intros p e' Hp; apply HH; by right).
  unfold owns. rewrite decide_False; [done|]. intros Hq. apply Hc. by apply (HH q); [left|].
Qed.

Lemma TabInv_quiet c ths i p c' p' :
  TabInv (c, ths) → HasHeld c ths → ths !! i = Some p → Quiet c c' → Grows c c' →
  holds p' = holds p → poisons p' = poisons p →
  (∀ root path es, p' = PPoison root path es → Poisoning c' root path es) →
  TabInv (c', <[i := p']> ths).
Proof.
  intros HI HH Hi HQ Hg Eh Ep Hpo. pose proof HI as [H1 H2 H3 H4 H5]. pose proof HQ as (E1 & E2 & E3 & E4 & E5). cbn [fst snd] in *.
  pose proof (list_elem_of_lookup_2 _ _ _ Hi) as Hp. split; cbn [fst snd].
  - by rewrite E2, E4.
  - intros e He. rewrite (sum_by_insert _ _ _ _ _ Hi). unfold owns at 2 3. rewrite Eh. unfold held_of. rewrite E2.
    assert (has_entry c e) as Hc.
    { unfold has_entry in *. apply lookup_lt_is_Some. apply lookup_lt_is_Some in He. lia. }
    specialize (H2 e Hc). unfold held_of in H2. lia.
  - intros q e Hq Hh. apply elem_of_insert_inv in Hq as [->|Hq].
    + rewrite Eh in Hh. destruct (Hg e (HH _ _ Hp Hh)) as [_ ->]. rewrite E1. by eapply H3.
    + destruct (Hg e (HH _ _ Hq Hh)) as [_ ->]. rewrite E1. by eapply H3.
  - rewrite (sum_by_insert _ _ _ _ _ Hi), Ep, E3. lia.
  - intros root path es Hq. apply elem_of_insert_inv in Hq as [<-|Hq]; [by apply Hpo|].
    eapply Poisoning_quiet; [exact HQ|auto].
Qed.

Lemma TabInv_unlock c ths i root path :
  TabInv (c, ths) → ths !! i = Some (PPoison root path []) → TabInv (set_locked false c, <[i := PInvalidated]> ths).
Proof.
  intros HI Hi. pose proof HI as [H1 H2 H3 H4 H5]. cbn [fst snd] in *. split; cbn [fst snd].
  - done.
  - intros e He. rewrite (sum_by_insert _ _ _ _ _ Hi). specialize (H2 e He). unfold owns at 2 3. cbn [holds].
    rewrite !decide_False by done. unfold held_of in *. cbn. lia.
  - intros q e Hq Hh. apply elem_of_insert_inv in Hq as [->|Hq]; [done|]. by eapply H3.
  - rewrite (sum_by_insert _ _ _ _ _ Hi). cbn [poisons cc_locked set_locked].
    pose proof (sum_by_elem_in poisons ths _ (λ y _, poisons_nonneg y) (list_elem_of_lookup_2 _ _ _ Hi)) as Hle.
    cbn [poisons] in Hle. destruct (cc_locked c); lia.
  - intros r pa es Hq. apply elem_of_insert_inv in Hq as [?|Hq]; [done|]. by apply H5.
Qed.

Lemma TabInv_register c ths i nm v im wr busy :
  TabInv (c, ths) → TableOk c → HasHeld c ths → cc_locked c = false → ths !! i = Some (PRegister nm v im wr) →
  let r := register_table busy nm c in
  Grows c r.2 → name_of r.2 r.1 = nm → TabInv (r.2, <[i := PRegEntry r.1 v im wr]> ths).
Proof.
  intros HI HT HH Hl Hi r Hg En. pose proof HI as [H1 H2 H3 H4 H5]. cbn [fst snd] in *.
  destruct (register_table_keeps busy nm c HT H1) as (K1 & K2 & K3 & K4 & K5 & K6). fold r in K1, K2, K3, K4, K5, K6.
  split; cbn [fst snd].
  - done.
  - intros e He. rewrite (sum_by_insert _ _ _ _ _ Hi). unfold owns at 2 3. cbn [holds]. rewrite decide_False by done.
    destruct (decide (has_entry c e)) as [Hc|Hc].
    + specialize (H2 e Hc). specialize (K6 e (or_introl Hc)). repeat case_decide; simplify_eq; lia.
    + rewrite (owned_none c ths e HH Hc). case_decide as Ee; [|lia]. injection Ee as <-. specialize (K6 _ (or_intror eq_refl)). rewrite decide_True in K6 by done. lia.
  - intros q e Hq Hh. apply elem_of_insert_inv in Hq as [->|Hq]; [injection Hh as <-; by rewrite En|].
    pose proof (HH _ _ Hq Hh) as He. destruct (Hg e He) as [_ ->]. apply K1; [by eapply H3|]. left. by eapply (held_pos (c, ths)).
  - rewrite (sum_by_insert _ _ _ _ _ Hi), K4. cbn [poisons]. lia.
  - intros r' pa es Hq. apply elem_of_insert_inv in Hq as [?|Hq]; [done|]. by destruct (unlocked_no_poison (c, ths) r' pa es HI Hl).
Qed.

Lemma TabInv_invalidate c ths i root path :
  TabInv (c, ths) → TableOk c → HasHeld c ths → cc_locked c = false → ths !! i = Some (PInvalidatePath root path) →
  let r := invalidate_table root path c in
  Grows c r.2 → TabInv (set_locked true r.2, <[i := PPoison root path r.1]> ths).
Proof.
  intros HI HT HH Hl Hi r Hg. pose proof HI as [H1 H2 H3 H4 H5]. cbn [fst snd] in *.
  destruct (invalidate_table_keeps root path c HT H1) as ([K1 K2] & K3 & K4 & K5 & K6). fold r in K1, K2, K3, K4, K5, K6.
  split; cbn [fst snd].
  - done.
  - intros e He. rewrite (sum_by_insert _ _ _ _ _ Hi). unfold owns at 2 3. cbn [holds]. rewrite !decide_False by done.
    specialize (K5 e). change (held_of (set_locked true r.2) e) with (held_of r.2 e).
    destruct (decide (has_entry c e)) as [Hc|Hc]; [specialize (H2 e Hc); lia|].
    rewrite (owned_none c ths e HH Hc). lia.
  - intros q e Hq Hh. apply elem_of_insert_inv in Hq as [->|Hq]; [done|].
    pose proof (HH _ _ Hq Hh) as He. change (name_of (set_locked true r.2) e) with (name_of r.2 e).
    destruct (Hg e He) as [_ ->]. apply K1; [by eapply H3|]. left. by eapply (held_pos (c, ths)).
  - rewrite (sum_by_insert _ _ _ _ _ Hi). cbn [poisons cc_locked set_locked]. rewrite H4, Hl. lia.
  - intros r' pa es Hq. apply elem_of_insert_inv in Hq as [[= -> -> ->]|Hq]; [exact K6|].
    by destruct (unlocked_no_poison (c, ths) r' pa es HI Hl).
Qed.

(** A pc no reference or table lock goes with. *)
Definition plain (p : pc) : Prop := holds p = None ∧ poisons p = 0.

Lemma plain_deliver x idx data got : plain (deliver cf x idx data got).
Proof. unfold deliver. by repeat case_match. Qed.

Lemma plain_miss x idx c : plain (miss cf x idx c).2.
Proof. unfold miss. destruct (if bool_decide _ then _ else _). by destruct (make_room _ _ _ _ _ _) as [[]]. Qed.

Lemma plain_look ev x idx c : plain (unit_look cf ev x idx c).2.
Proof.
  unfold unit_look. case_match; [done|]. cbn [cache_now]. destruct (find_slot _ _) as [[? [d la k|fl]]|].
  - apply plain_deliver.
  - by destruct ev.
  - apply plain_miss.
Qed.

(** Reads start and end without a reference of their own. *)
Lemma step_plain ev c p c' p' :
  step cf ev c p = Some (c', p') →
  match p with
  | PRegister _ _ _ _ | PInvalidatePath _ _ | PPoison _ _ _ => True
  | PRegEntry e _ _ _ => ∃ f, p' = PRegistered f ∧ fr_entry f = e
  | _ => plain p'
  end.
Proof.
  intros Hs. destruct p; try done; cbn [step] in Hs; try discriminate Hs.
  all: try (apply (f_equal (option_map snd)) in Hs; cbn [option_map snd] in Hs; injection Hs as <-); try done.
  - unfold read_start. by repeat case_match.
  - apply plain_look.
  - unfold unit_wait in Hs. repeat case_match; simplify_eq; try done. apply plain_deliver.
  - unfold reserve_try. by repeat case_match.
  - unfold evict_pop. by repeat case_match.
  - unfold evict_entry. by repeat case_match.
  - destruct ev; simplify_eq. unfold fetch_answer. by repeat case_match.
  - unfold install. case_match; [done|]. destruct (install_units _ _ _ _ _ _ _). by case_match.
  - apply plain_deliver.
  - unfold judge. by repeat case_match.
  - unfold register_entry in Hs. repeat case_match; simplify_eq; by eexists.
Qed.

Lemma TabInv_thread c ths i p ev c' p' g :
  TabInv (c, ths) → Inv cf content g c → TableOk c → (∀ p, p ∈ ths → ThOk cf content g c p) →
  ths !! i = Some p → Grows c c' → step cf ev c p = Some (c', p') → TabInv (c', <[i := p']> ths).
Proof using Hcf.
  intros HV HI HT Hth Hi Hg Hs. pose proof (step_plain _ _ _ _ _ Hs) as Hpl. pose proof (step_quiet _ _ _ _ _ _ Hs) as HQ.
  assert (HasHeld c ths) as HH by (intros q e Hq; by eapply has_entry_holds, Hth).
  destruct p; cbn [step] in Hs; try discriminate Hs;
    try (eapply TabInv_quiet; [done|done|exact Hi|done|done|exact (proj1 Hpl)|exact (proj2 Hpl)|by intros ? ? ? ->; destruct Hpl]).
  - destruct (cc_locked c) eqn:Hl; [done|]. pose proof (register_table_ok cf content Hcf g (busy_of ev) name c HI HT) as HR.
    pose proof (TabInv_register c ths i name v immutable write (busy_of ev) HV HT HH Hl Hi) as HN.
    destruct (register_table (busy_of ev) name c) as [e c2]. cbv zeta in HR, HN. cbn [fst snd] in HR, HN.
    destruct HR as (_ & ? & _ & ?). simplify_eq. by apply HN.
  - destruct Hpl as (f & -> & Ef). eapply TabInv_quiet; [done|done|exact Hi|done|done|by cbn; rewrite Ef|done|done].
  - destruct (cc_locked c) eqn:Hl; [done|].
    pose proof (TabInv_invalidate c ths i root path HV HT HH Hl Hi) as HN.
    destruct (invalidate_table root path c) as [es c2]. cbv zeta in HN. cbn [fst snd] in HN. injection Hs as <- <-. by apply HN.
  - destruct es as [|e es]; injection Hs as <- <-; [by eapply TabInv_unlock|].
    eapply TabInv_quiet; [done|done|exact Hi|done|done|done|done|]. intros ? ? ? [= <- <- <-].
    pose proof (ti_poison _ HV _ _ _ (list_elem_of_lookup_2 _ _ _ Hi)) as HP. cbn [fst] in HP.
    pose proof HQ as (E1 & _). destruct HP as [HP1 HP2]. split; rewrite E1; [|done]. intros nm e' Hn Hu.
    destruct (HP1 nm e' Hn Hu) as [[->|Hin]%elem_of_cons|Hp]; [right|by left|right; by apply HQ].
    apply poison_poisons. by destruct (HT nm e Hn).
Qed.

Lemma TabInv_call c ths p : TabInv (c, ths) → starts ths p → TabInv (c, ths ++ [p]).
Proof.
  intros [H1 H2 H3 H4 H5] Hst. assert (plain p) as [Hpl Hpo] by (by destruct p). cbn [fst snd] in *. split; cbn [fst snd].
  - done.
  - intros e He. rewrite sum_by_app, sum_by_cons. unfold owns at 2. rewrite Hpl, decide_False by done. specialize (H2 e He). cbn [sum_by foldr]. lia.
  - intros q e Hq Hh. apply elem_of_app in Hq as [Hq|Hq%list_elem_of_singleton]; [by eapply H3|congruence].
  - rewrite sum_by_app, sum_by_cons, Hpo. cbn. lia.
  - intros r pa es Hq. apply elem_of_app in Hq as [Hq|Hq%list_elem_of_singleton]; [by apply H5|by subst p].
Qed.

Lemma TabInv_clone c ths f :
  TabInv (c, ths) → has_entry c (fr_entry f) → PRegistered f ∈ ths → TabInv (hold (fr_entry f) c, ths ++ [PRegistered f]).
Proof.
  intros [H1 H2 H3 H4 H5] He Hf. cbn [fst snd] in *. split; cbn [fst snd].
  - by rewrite hold_length.
  - intros e Hc. rewrite hold_held by done. rewrite sum_by_app, sum_by_cons. specialize (H2 e Hc). unfold owns at 2. cbn [holds].
    cbn [sum_by foldr]. repeat case_decide; simplify_eq; lia.
  - intros q e Hq Hh. apply elem_of_app in Hq as [Hq|Hq%list_elem_of_singleton]; [by eapply H3|]. subst q.
    injection Hh as <-. by apply (H3 (PRegistered f)).
  - rewrite sum_by_app, sum_by_cons. cbn. lia.
  - intros r pa es Hq. apply elem_of_app in Hq as [Hq|?%list_elem_of_singleton]; [by apply H5|done].
Qed.

Lemma TabInv_drop c ths i f :
  TabInv (c, ths) → ths !! i = Some (PRegistered f) → TabInv (release (fr_entry f) c, <[i := PInvalidated]> ths).
Proof.
  intros [H1 H2 H3 H4 H5] Hi. cbn [fst snd] in *. split; cbn [fst snd].
  - by rewrite release_length.
  - intros e Hc. rewrite release_held, (sum_by_insert _ _ _ _ _ Hi). specialize (H2 e Hc). unfold owns at 2 3. cbn [holds].
    repeat case_decide; simplify_eq; lia.
  - intros q e Hq Hh. apply elem_of_insert_inv in Hq as [->|Hq]; [done|]. by eapply H3.
  - rewrite (sum_by_insert _ _ _ _ _ Hi). cbn [poisons]. cbn. lia.
  - intros r pa es Hq. apply elem_of_insert_inv in Hq as [?|Hq]; [done|]. by apply H5.
Qed.

Lemma TabInv_step s s' : SysOk cf content s → TabInv s → sys_step cf content s s' → TabInv s'.
Proof using Hcf Hsize.
  intros (g & HI & HT & Hth) HV Hst.
  destruct Hst as [c ths i p ev c' p' Hi Hh Hs|c ths p Hst|c ths f Hf|c ths i f Hi _]; cbn [fst snd] in *.
  - pose proof (Hth p (list_elem_of_lookup_2 _ _ _ Hi)) as Hp.
    destruct (step_ok cf content Hcf Hsize g c p ev c' p' HI HT Hp Hh Hs) as (Hg & _). by eapply TabInv_thread.
  - by apply TabInv_call.
  - apply TabInv_clone; [done|exact (Hth _ Hf)|done].
  - by apply TabInv_drop.
Qed.

Lemma TabInv_reachable s : reachable cf content s → TabInv s.
Proof using Hcf Hsize.
  revert s. apply (rtc_ind_r (λ s, TabInv s)).
  - split; cbn [fst snd]; [done|intros e _; cbn; lia|by intros p e ?%not_elem_of_nil|done|by intros ? ? ? ?%not_elem_of_nil].
  - intros s1 s2 Hr Hst IH. eapply TabInv_step; [by apply SysOk_reachable|done|done].
Qed.

(** ** After an invalidation *)

Lemma step_keeps s s' : SysOk cf content s → TabInv s → sys_step cf content s s' → Keeps s.1 s'.1.
Proof using.
  intros (g & HI & HT & Hth) HV Hst.
  destruct Hst as [c ths i p ev c' p' Hi Hh Hs|c ths p Hst|c ths f Hf|c ths i f Hi _]; cbn [fst snd] in *;
    try (by apply Keeps_entries).
  pose proof (step_quiet _ _ _ _ _ _ Hs) as HQ. destruct p; try (by apply Keeps_quiet); cbn [step] in Hs.
  - destruct (cc_locked c); [done|]. destruct (register_table_keeps (busy_of ev) name c HT (ti_len _ HV)) as (K1 & K2 & _).
    destruct (register_table _ _ _). by simplify_eq.
  - destruct (cc_locked c); [done|]. destruct (invalidate_table_keeps root path c HT (ti_len _ HV)) as (K & _).
    destruct (invalidate_table _ _ _). by simplify_eq.
  - destruct es; [|by apply Keeps_quiet]. simplify_eq. by apply Keeps_entries.
Qed.

Lemma poisoned_stays s s' e :
  reachable cf content s → runs cf content s s' → is_poisoned s.1 e →
  is_poisoned s'.1 e ∧ ∀ nm, cc_by_name s.1 !! nm = Some e → cc_by_name s'.1 !! nm = Some e.
Proof using Hcf Hsize.
  intros Hr Hrun He. cut (reachable cf content s' ∧ is_poisoned s'.1 e ∧
    ∀ nm, cc_by_name s.1 !! nm = Some e → cc_by_name s'.1 !! nm = Some e); [by intros (_ & ?)|].
  revert s' Hrun. apply (rtc_ind_r (λ s', reachable cf content s' ∧ is_poisoned s'.1 e ∧
    ∀ nm, cc_by_name s.1 !! nm = Some e → cc_by_name s'.1 !! nm = Some e)); [done|].
  intros s1 s2 _ Hst (Hr1 & Hp & Hn).
  destruct (step_keeps s1 s2) as [K1 K2]; [by apply SysOk_reachable|by apply TabInv_reachable|done|].
  split; [by eapply rtc_r|]. split; [by apply K2|]. intros nm Hnm. apply K1; [by apply Hn|by right].
Qed.

Lemma poisoned_declines c f off want ev :
  is_poisoned c (fr_entry f) → step cf ev c (PRead f off want) = Some (c, PDone f off want None).
Proof using.
  intros Hp. cbn [step]. unfold read_start. destruct (fr_version f); [|done]. case_match; [done|]. by rewrite Hp.
Qed.

(** C10: once [invalidate_path] has returned, no read that begins then or
    later is answered from the cache, whatever runs meanwhile and ever after:
    through a reference that was in use when it returned and names the path or
    something under it, nor through any reference, old or registered since, to
    the path itself. A read that had begun before may still be answered, with
    the bytes of its version: the flag is looked at when a read begins. *)
Theorem cache_invalidated_stays s0 s i root path f off want ev :
  reachable cf content s0 → s0.2 !! i = Some (PPoison root path []) → runs cf content s0 s →
  (PRegistered f ∈ s0.2 ∧ under_path root (trim_slashes path) (name_of s0.1 (fr_entry f)) = true) ∨
  (PRegistered f ∈ s.2 ∧ whole_root (trim_slashes path) = false ∧ name_of s.1 (fr_entry f) = (root, trim_slashes path)) →
  step cf ev s.1 (PRead f off want) = Some (s.1, PDone f off want None).
Proof using Hcf Hsize.
  intros Hr Hi Hrun Hf. apply poisoned_declines. pose proof (TabInv_reachable s0 Hr) as HV.
  destruct (ti_poison _ HV _ _ _ (list_elem_of_lookup_2 _ _ _ Hi)) as [HP1 HP2].
  assert (∀ nm e, cc_by_name s0.1 !! nm = Some e → under_path root (trim_slashes path) nm = true → is_poisoned s0.1 e) as HP.
  { intros nm e Hn Hu. by destruct (HP1 nm e Hn Hu) as [?%not_elem_of_nil|]. }
  destruct Hf as [[Hf Hu]|(Hf & Hw & En)].
  - apply (poisoned_stays s0 s); [done|done|]. eapply HP; [|exact Hu]. by apply (ti_live _ HV (PRegistered f)).
  - destruct (HP2 Hw) as [e He].
    assert (is_poisoned s0.1 e) as Hpe.
    { apply (HP _ _ He). unfold under_path. cbn [fst snd]. fold (whole_root (trim_slashes path)). rewrite Z.eqb_refl, Hw.
      by rewrite bool_decide_true by done. }
    destruct (poisoned_stays s0 s e Hr Hrun Hpe) as [Hp Hn].
    assert (reachable cf content s) as Hr' by (by eapply rtc_trans).
    pose proof (ti_live _ (TabInv_reachable s Hr') (PRegistered f) _ Hf eq_refl) as Hl.
    rewrite En, (Hn _ He) in Hl. by injection Hl as <-.
Qed.
End table.

(** A run of the read cache: a file of ten bytes is registered,
    read through a fetch, read again from memory, and invalidated with its
    directory.  The theorems of the cache are applied to it. *)


Module CacheDemo.

Definition cf : CacheConfig := mkCacheConfig 4 16 4 8 16 8 false.
Definition content (nm : Name) (v : Version) : bytes := (λ i, i mod 256) <$> seqZ 0 (vs_size v).

Lemma content_size nm v : 0 ≤ vs_size v → len (content nm v) = vs_size v.
Proof. intros. unfold content, len. rewrite length_fmap, length_seqZ. lia. Qed.

(** Thread [i] takes its next step, if it can. *)
Definition advance (i : nat) (ev : env) (s : Sys) : Sys :=
  match s.2 !! i with
  | Some p => match step cf ev s.1 p with Some (c, p') => (c, <[i := p']> s.2) | None => s end
  | None => s
  end.

Lemma advance_runs i ev s :
  (∀ p, s.2 !! i = Some p → honest cf content s.1 p ev) → runs cf content s (advance i ev s).
Proof.
  intros Hh. unfold advance. destruct (s.2 !! i) as [p|] eqn:Hi; [|apply rtc_refl].
  destruct (step cf ev s.1 p) as [[c p']|] eqn:Hs; [|apply rtc_refl]. apply rtc_once. destruct s as [c0 ths].
  by eapply sys_thread; [exact Hi|apply Hh|exact Hs].
Qed.

Definition goes (i : nat) (s : Sys) : Sys := advance i Go s.

Lemma goes_runs n i s : runs cf content s (Nat.iter n (goes i) s).
Proof.
  induction n as [|n IH]; [apply rtc_refl|]. eapply rtc_trans; [exact IH|]. cbn. apply advance_runs. intros p _. by destruct p.
Qed.

Definition ver : Version := mkVersion 10 7.
Definition file : FileRef := mkFileRef 0 (Some ver).
Definition called (p : pc) (s : Sys) : Sys := (s.1, s.2 ++ [p]).

Definition registered : Sys := Nat.iter 2 (goes 0) (called (PRegister (1, lit "a/b") ver true false) (cache_empty, [])).
Definition asked : Sys := Nat.iter 3 (goes 1) (called (PRead file 5 2) registered).
Definition answered : Sys := Nat.iter 3 (goes 1) (advance 1 (Answer (Ok 4) [4; 5; 6; 7]) asked).
Definition again : Sys := Nat.iter 3 (goes 2) (called (PRead file 4 3) answered).
Definition invalidated : Sys := Nat.iter 2 (goes 3) (called (PInvalidatePath 1 (lit "a")) again).

Lemma called_runs p s : starts s.2 p → runs cf content s (called p s).
Proof. intros Hs. apply rtc_once. destruct s as [c ths]. by apply sys_call. Qed.

Lemma registered_ok : reachable cf content registered.
Proof. eapply rtc_trans; [apply called_runs|apply goes_runs]. done. Qed.

Lemma asked_ok : reachable cf content asked.
Proof.
  eapply rtc_trans; [exact registered_ok|]. eapply rtc_trans; [apply (called_runs (PRead file 5 2))|apply goes_runs].
  split; [|done]. vm_compute. apply list_elem_of_here.
Qed.

Lemma answered_ok : reachable cf content answered.
Proof.
  eapply rtc_trans; [exact asked_ok|]. eapply rtc_trans; [|apply goes_runs]. apply advance_runs. intros p Hp.
  vm_compute in Hp. injection Hp as <-. intros _. by vm_compute.
Qed.

Lemma again_ok : reachable cf content again.
Proof.
  eapply rtc_trans; [exact answered_ok|]. eapply rtc_trans; [apply (called_runs (PRead file 4 3))|apply goes_runs].
  split; [|done]. vm_compute. apply list_elem_of_here.
Qed.

Lemma invalidated_ok : reachable cf content invalidated.
Proof.
  eapply rtc_trans; [exact again_ok|].
  eapply rtc_trans; [apply (called_runs (PInvalidatePath 1 (lit "a")))|apply goes_runs]. done.
Qed.

(** A file under an invalidated directory that had no entry then is cached
    when it is opened later. *)
Definition later : Sys :=
  let s := Nat.iter 2 (goes 0) (called (PInvalidatePath 1 (lit "a")) (cache_empty, [])) in
  let s := Nat.iter 2 (goes 1) (called (PRegister (1, lit "a/b") ver true false) s) in
  let file' := match s.2 !! 1%nat with Some (PRegistered f) => f | _ => file end in
  Nat.iter 3 (goes 2) (advance 2 (Answer (Ok 4) [4; 5; 6; 7]) (Nat.iter 3 (goes 2) (called (PRead file' 5 2) s))).
End CacheDemo.

Example invalidated_directory_caches_later_opens :
  CacheDemo.later.2 !! 0%nat = Some PInvalidated ∧
  CacheDemo.later.2 !! 2%nat = Some (PDone (mkFileRef 1 (Some CacheDemo.ver)) 5 2 (Some [5; 6])).
Proof. by vm_compute. Qed.

Example config_default_ok : config_ok config_default = true ∧ 0 ≤ cf_max_bytes config_default < u64_max.
Proof. by vm_compute. Qed.

Lemma cache_read_exact_witness :
  CacheDemo.again.2 !! 1%nat = Some (PDone CacheDemo.file 5 2 (Some [5; 6])) ∧
  CacheDemo.again.2 !! 2%nat = Some (PDone CacheDemo.file 4 3 (Some [4; 5; 6])) ∧
  PDone CacheDemo.file 4 3 (Some [4; 5; 6]) ≠ PPanic ∧
  ∃ v, fr_version CacheDemo.file = Some v ∧ 0 ≤ 4 < vs_size v ∧
    [4; 5; 6] = mem_get (CacheDemo.content (name_of CacheDemo.again.1 0) v) 4 (Z.min 3 (vs_size v - 4)).
Proof.
  assert (CacheDemo.again.2 !! 2%nat = Some (PDone CacheDemo.file 4 3 (Some [4; 5; 6]))) as Hi by (by vm_compute).
  split; [by vm_compute|]. split; [exact Hi|].
  exact (cache_read_exact CacheDemo.cf CacheDemo.content eq_refl CacheDemo.content_size CacheDemo.again
    (PDone CacheDemo.file 4 3 (Some [4; 5; 6])) CacheDemo.again_ok
    (list_elem_of_lookup_2 CacheDemo.again.2 2%nat _ Hi)).
Defined.

Lemma cache_memory_bounded_witness :
  cc_used CacheDemo.asked.1 = total CacheDemo.asked.1 + sum_by (reserved CacheDemo.cf) CacheDemo.asked.2 ∧
  sum_by (reserved CacheDemo.cf) CacheDemo.asked.2 = 4 ∧ total CacheDemo.again.1 = 4 ∧
  total CacheDemo.asked.1 ≤ cc_used CacheDemo.asked.1 ≤ 16.
Proof.
  assert (0 ≤ cf_max_bytes CacheDemo.cf < u64_max) as Hm by (by vm_compute).
  destruct (cache_memory_bounded CacheDemo.cf CacheDemo.content eq_refl CacheDemo.content_size Hm CacheDemo.asked
    CacheDemo.asked_ok) as (E & Hb & _).
  split; [exact E|]. split; [by vm_compute|]. split; [by vm_compute|exact Hb].
Defined.

Lemma cache_invalidated_stays_witness :
  step CacheDemo.cf Go CacheDemo.invalidated.1 (PRead CacheDemo.file 4 3)
  = Some (CacheDemo.invalidated.1, PDone CacheDemo.file 4 3 None).
Proof.
  apply (cache_invalidated_stays CacheDemo.cf CacheDemo.content eq_refl CacheDemo.content_size CacheDemo.invalidated
    CacheDemo.invalidated 3%nat 1 (lit "a") CacheDemo.file 4 3 Go CacheDemo.invalidated_ok).
  - by vm_compute.
  - apply rtc_refl.
  - left. split; [|by vm_compute]. apply (list_elem_of_lookup_2 _ 0%nat). by vm_compute.
Defined.
