(* ===== verification/Seekable.v ===== *)
(** Seekable: the wrappers of a single provider (rust/crates/vfs-compose/src):
    guarded.rs, which protects directories from being moved or deleted, and
    seekable.rs, which gives a forward-only provider positional reads; what
    each promises its caller. *)

From S2P Require Import Prelude Text Path Provider Compose Listing ComposePath Seg MountProps StubDirs.

(** ** guarded.rs *)

Section guarded.
Context {CT : CaseTable}.

Fixpoint guard_chain (at_ : str) (cs : list str) (dirs : gset str) : gset str :=
  match cs with
  | [] => dirs
  | c :: cs => let at_ := push_dir at_ c in guard_chain at_ cs ({[ fold at_ ]} ∪ dirs)
  end.

(** [GuardedProvider::new]: the protected directories. *)
Definition guarded_new (dirs : list str) : gset str :=
  foldl (λ set d, guard_chain [] (slash_pieces (trim_rel d)) set) ∅ dirs.

Context (protected : gset str).

Definition guards (p : VPath) : bool := bool_decide (fold (trim_rel (vp_rel p)) ∈ protected).

Definition guarded {W} (inner : Provider W) : Provider W := {|
  p_capabilities := p_capabilities inner;
  p_getattr := p_getattr inner;
  p_readdir := p_readdir inner;
  p_open := p_open inner;
  p_close := p_close inner;
  p_read_at := p_read_at inner;
  p_read_next := p_read_next inner;
  p_write_at := p_write_at inner;
  p_set_len := p_set_len inner;
  p_flush := p_flush inner;
  p_mkdir := p_mkdir inner;
  p_remove := λ p, if guards p then pm_err ST_READ_ONLY else p_remove inner p;
  p_rename := λ from to, if guards from || guards to then pm_err ST_READ_ONLY else p_rename inner from to;
  p_set_attr := p_set_attr inner;
  p_stored_name := p_stored_name inner;
  p_is_immutable := p_is_immutable inner |}.
End guarded.

(** ** seekable.rs *)

Definition SKIP_CHUNK : Z := 64 * 1024.
(** Of a [u32]. *)
Definition REOPEN_MASK : Z :=
  Z.lxor (u32_max - 1) (Z.lor (Z.lor (Z.lor OPEN_CREATE OPEN_TRUNC) OPEN_EXCL) OPEN_APPEND).

Record SeekRec := mkSeekRec { sr_inner : Handle; sr_root : Z; sr_path : str; sr_flags : Z; sr_cursor : Z }.

Record Seekable (W : Type) := mkSeekable { sk_inner : W; sk_opens : HandleTable SeekRec }.
Arguments mkSeekable {W}.
Arguments sk_inner {W}.
Arguments sk_opens {W}.

Section seekable.
Context {W : Type} (inner : Provider W).

Definition seekable_new (w : W) : Seekable W := mkSeekable w table_new.
Definition sequential : bool := bool_decide (access (p_capabilities inner) = SeqRead).

Definition on_inner {R} (m : W → R * W) : Seekable W → R * Seekable W :=
  zoom sk_inner (λ w s, mkSeekable w (sk_opens s)) m.
Definition on_opens {R} (m : HandleTable SeekRec → R * HandleTable SeekRec) : Seekable W → R * Seekable W :=
  zoom sk_opens (λ t s, mkSeekable (sk_inner s) t) m.

(** [rec], with what happens under the record's lock stored back. *)
Definition seek_rec (h : Handle) : PM (Seekable W) SeekRec := on_opens (table_get h).
Definition seek_put (h : Handle) (r : SeekRec) (s : Seekable W) : Seekable W :=
  mkSeekable (sk_inner s) (with_map (sk_opens s) (<[h := r]> (h_map (sk_opens s)))).

(** The record changes even where an error follows. *)
Definition reopen (r : SeekRec) (w : W) : (result Z unit * SeekRec) * W :=
  let '(_, w) := p_close inner (sr_inner r) w in
  match p_open inner (mkVPath (sr_root r) (sr_path r)) (Z.land (sr_flags r) REOPEN_MASK) w with
  | (Ok (h, _, _), w) => ((Ok (), mkSeekRec h (sr_root r) (sr_path r) (sr_flags r) 0), w)
  | (Err e, w) => ((Err e, r), w)
  end.

Definition advance_cursor (n : Z) (r : SeekRec) : SeekRec :=
  mkSeekRec (sr_inner r) (sr_root r) (sr_path r) (sr_flags r) (sr_cursor r + n).

(** [while rec.cursor < offset]; [skip] keeps what was read before.  Each
    round but the last moves the cursor. *)
Fixpoint skip_loop (fuel : nat) (skip : bytes) (offset : Z) (r : SeekRec) (w : W) : (result Z bool * SeekRec) * W :=
  if offset <=? sr_cursor r then ((Ok true, r), w) else
  match fuel with
  | O => ((Ok false, r), w)
  | S fuel =>
      let want := Z.min (offset - sr_cursor r) SKIP_CHUNK in
      let skip := if len skip <? want then skip ++ replicate (Z.to_nat (want - len skip)) 0 else skip in
      let '((n, b), w) := p_read_next inner (sr_inner r) (take (Z.to_nat want) skip) w in
      let skip := b ++ drop (Z.to_nat want) skip in
      match n with
      | Err e => ((Err e, r), w)
      | Ok n => if n =? 0 then ((Ok false, r), w) else skip_loop fuel skip offset (advance_cursor n r) w
      end
  end.

Definition seek_to (offset : Z) (r : SeekRec) (w : W) : (result Z bool * SeekRec) * W :=
  let '((e, r), w) := if offset <? sr_cursor r then reopen r w else ((Ok (), r), w) in
  match e with
  | Err e => ((Err e, r), w)
  | Ok _ => skip_loop (Z.to_nat (offset - sr_cursor r)) [] offset r w
  end.

Definition seek_next (r : SeekRec) (buf : bytes) (w : W) : ((result Z Z * bytes) * SeekRec) * W :=
  let '((n, b), w) := p_read_next inner (sr_inner r) buf w in
  (((n, b), match n with Ok n => advance_cursor n r | Err _ => r end), w).

Definition seek_read_at (h : Handle) (offset : Z) (buf : bytes) (s : Seekable W) : (result Z Z * bytes) * Seekable W :=
  match seek_rec h s with
  | (Err e, s) => ((Err e, buf), s)
  | (Ok r, s) =>
      if negb sequential then on_inner (p_read_at inner (sr_inner r) offset buf) s else
      let '((at_, r), w) := seek_to offset r (sk_inner s) in
      let s := seek_put h r (mkSeekable w (sk_opens s)) in
      match at_ with
      | Err e => ((Err e, buf), s)
      | Ok false => ((Ok 0, buf), s)
      | Ok true =>
          let '((res, r), w) := seek_next r buf w in
          (res, seek_put h r (mkSeekable w (sk_opens s)))
      end
  end.

Definition seek_read_next (h : Handle) (buf : bytes) (s : Seekable W) : (result Z Z * bytes) * Seekable W :=
  match seek_rec h s with
  | (Err e, s) => ((Err e, buf), s)
  | (Ok r, s) =>
      let '((res, r), w) := seek_next r buf (sk_inner s) in
      (res, seek_put h r (mkSeekable w (sk_opens s)))
  end.

Definition seek_open (p : VPath) (flags : Z) : PM (Seekable W) (Handle * Z * bool) :=
  o ← on_inner (p_open inner p flags);
  let '(ih, size, is_dir) := o in
  h ← on_opens (table_insert (mkSeekRec ih (vp_root p) (vp_rel p) flags 0));
  mret (h, size, is_dir).

Definition seek_close (h : Handle) : PM (Seekable W) unit :=
  r ← on_opens (table_remove h);
  on_inner (p_close inner (sr_inner r)).

(** The methods that neither seek nor stream. *)
Definition seek_handle {A} (h : Handle) (m : Handle → PM W A) : PM (Seekable W) A :=
  r ← seek_rec h; on_inner (m (sr_inner r)).

Definition seekable_caps : Capabilities := caps_seekable (p_capabilities inner).

(** [is_immutable] is the trait's default. *)
Definition seekable : Provider (Seekable W) := {|
  p_capabilities := seekable_caps;
  p_getattr := λ p, on_inner (p_getattr inner p);
  p_readdir := λ p, on_inner (p_readdir inner p);
  p_open := seek_open;
  p_close := seek_close;
  p_read_at := seek_read_at;
  p_read_next := seek_read_next;
  p_write_at := λ h off buf, seek_handle h (λ ih, p_write_at inner ih off buf);
  p_set_len := λ h n, seek_handle h (λ ih, p_set_len inner ih n);
  p_flush := λ h, seek_handle h (p_flush inner);
  p_mkdir := λ p, on_inner (p_mkdir inner p);
  p_remove := λ p, on_inner (p_remove inner p);
  p_rename := λ from to, on_inner (p_rename inner from to);
  p_set_attr := λ p a, on_inner (p_set_attr inner p a);
  p_stored_name := λ p, on_inner (p_stored_name inner p);
  p_is_immutable := λ _ _, immutable seekable_caps |}.
End seekable.

(** ** What the guard protects *)

Section guards.
Context {CT : CaseTable}.

Lemma guard_chain_spec dn cs dirs xs :
  Forall part dn → Forall part cs → Forall part xs →
  dir_key xs ∈ guard_chain (join slash dn) cs dirs ↔
  dir_key xs ∈ dirs ∨ ∃ i, (0 < i ≤ length cs)%nat ∧ fold <$> xs = fold <$> (dn ++ take i cs).
Proof.
  intros Hd Hc Hx. revert dn dirs Hd. induction Hc as [|c cs Hcc Hc IH]; intros dn dirs Hd; cbn [guard_chain].
  - split; [by left|]. intros [H|(i & Hi & _)]; [done|]. cbn in Hi. lia.
  - rewrite push_dir_join by done.
    assert (Forall part (dn ++ [c])) as Hdc by (apply Forall_app; split; [done|by apply Forall_singleton]).
    rewrite IH, elem_of_union, elem_of_singleton, dir_key_fold, (dir_key_inj _ _ Hx Hdc) by done.
    setoid_rewrite <- (assoc app). cbn [app length]. split.
    + intros [[H|H]|(i & Hi & H)]; [right; exists 1%nat; split; [lia|done]|by left|right; exists (S i); split; [lia|done]].
    + intros [H|(i & Hi & H)]; [by left; right|]. destruct i as [|[|i]]; [lia| |].
      * by left; left.
      * right. exists (S i). split; [lia|done].
Qed.

Lemma guarded_new_spec dirs xs :
  Forall part xs →
  dir_key xs ∈ guarded_new dirs ↔ xs ≠ [] ∧ ∃ d, d ∈ dirs ∧ (fold <$> xs) `prefix_of` (fold <$> pieces d).
Proof.
  intros Hx. unfold guarded_new. induction dirs as [|d dirs IH] using rev_ind.
  { cbn. split; [set_solver|]. by intros (_ & d & ?%elem_of_nil & _). }
  rewrite foldl_app. cbn [foldl]. rewrite slash_pieces_trim_rel.
  rewrite (guard_chain_spec [] (pieces d) _ xs (Forall_nil_2 _) (pieces_ok d) Hx), IH. cbn [app].
  setoid_rewrite elem_of_app. setoid_rewrite list_elem_of_singleton. split.
  - intros [(Hne & q & Hq & Hpre)|(i & Hi & E)]; [split; [done|]; eauto|]. split.
    + intros ->. destruct i, (pieces d); cbn in *; lia || done.
    + exists d. split; [by right|]. rewrite E, fmap_take. exists (drop i (fold <$> pieces d)). by rewrite take_drop.
  - intros (Hne & q & [Hq| ->] & Hpre); [left; eauto|]. right. exists (length xs).
    assert (length xs ≤ length (pieces d))%nat by (apply prefix_length in Hpre; by rewrite !length_fmap in Hpre).
    split; [destruct xs; [done|cbn in *; lia]|]. destruct Hpre as [l E]. rewrite fmap_take, E, take_app_length'; [done|].
    by rewrite length_fmap.
Qed.

Lemma guards_spec dirs root cs :
  Forall comp_ok cs →
  guards (guarded_new dirs) (mkVPath root (join slash cs)) = true ↔
  cs ≠ [] ∧ ∃ d, d ∈ dirs ∧ (fold <$> cs) `prefix_of` (fold <$> pieces d).
Proof.
  intros Hc. unfold guards. cbn [vp_rel]. rewrite bool_decide_eq_true, trim_rel_join, dir_key_fold by done.
  apply guarded_new_spec. by apply comp_part.
Qed.

(** Property: the folders on the way to a nested root can be neither deleted
    nor renamed, nor replaced by a rename, in any spelling and whatever the
    provider behind the guard is, which is not even asked; every other
    removal and rename is that provider's. *)
Theorem guard_protects_chains {W} (inner : Provider W) dirs root cs to (w : W) :
  Forall comp_ok cs → Forall comp_ok to →
  let P := guarded (guarded_new dirs) inner in
  let chain l := l ≠ [] ∧ ∃ d, d ∈ dirs ∧ (fold <$> l) `prefix_of` (fold <$> pieces d) in
  let at_ l := mkVPath root (join slash l) in
  (chain cs → p_remove P (at_ cs) w = (Err ST_READ_ONLY, w)) ∧
  (¬ chain cs → p_remove P (at_ cs) w = p_remove inner (at_ cs) w) ∧
  (chain cs ∨ chain to → p_rename P (at_ cs) (at_ to) w = (Err ST_READ_ONLY, w)) ∧
  (¬ chain cs ∧ ¬ chain to → p_rename P (at_ cs) (at_ to) w = p_rename inner (at_ cs) (at_ to) w).
Proof.
  intros Hc Ht P chain at_. pose proof (guards_spec dirs root cs Hc) as Gc. pose proof (guards_spec dirs root to Ht) as Gt.
  fold (at_ cs) in Gc. fold (at_ to) in Gt. fold (chain cs) in Gc. fold (chain to) in Gt. cbn [P guarded p_remove p_rename].
  destruct (guards _ (at_ cs)), (guards _ (at_ to)); cbn [orb]; naive_solver.
Qed.
End guards.

(** ** Positional reads over a stream *)

(** Opened for reading and nothing else. *)
Definition reading (flags : Z) : Prop :=
  Z.land flags (Z.lor OPEN_WRITE (Z.lor (Z.lor (Z.lor OPEN_CREATE OPEN_TRUNC) OPEN_EXCL) OPEN_APPEND)) = 0.

(** A forward-only provider of files with the contents [C]: [live] has what
    each open handle is on and how far it has been read, in the states of [I].
    A read may bring fewer bytes than asked for, but none only at the end. *)
Class SeqSource {W} (P : Provider W) (C : VPath → option bytes) (live : W → gmap Handle (bytes * Z)) (I : W → Prop) : Prop := {
  sq_access : access (p_capabilities P) = SeqRead;
  sq_open p flags c w : I w → C p = Some c → reading flags →
    ∃ h w', p_open P p flags w = (Ok (h, len c, false), w') ∧ I w' ∧ live w !! h = None ∧ live w' = <[h := (c, 0)]> (live w);
  sq_close h x w : I w → live w !! h = Some x → ∃ w', p_close P h w = (Ok (), w') ∧ I w' ∧ live w' = delete h (live w);
  sq_next h c pos buf w : I w → live w !! h = Some (c, pos) →
    ∃ n b w', p_read_next P h buf w = ((Ok n, b), w') ∧ I w' ∧ live w' = <[h := (c, pos + n)]> (live w) ∧
      0 ≤ n ≤ len buf ∧ len b = len buf ∧ take (Z.to_nat n) b = mem_get c pos n ∧ len (mem_get c pos n) = n ∧
      (n = 0 → len buf = 0 ∨ len c ≤ pos) }.

(** A provider of the same files that can be read anywhere. *)
Class PosSource {W} (P : Provider W) (C : VPath → option bytes) (live : W → gmap Handle bytes) (I : W → Prop) : Prop := {
  ps_access : access (p_capabilities P) ≠ SeqRead;
  ps_open p flags c w : I w → C p = Some c → reading flags →
    ∃ h w', p_open P p flags w = (Ok (h, len c, false), w') ∧ I w' ∧ live w' = <[h := c]> (live w);
  ps_close h x w : I w → live w !! h = Some x → ∃ w', p_close P h w = (Ok (), w') ∧ I w' ∧ live w' = delete h (live w);
  ps_read h c off buf w : I w → live w !! h = Some c → 0 ≤ off →
    ∃ n b w', p_read_at P h off buf w = ((Ok n, b), w') ∧ I w' ∧ live w' = live w ∧
      0 ≤ n ≤ len buf ∧ len b = len buf ∧ take (Z.to_nat n) b = mem_get c off n ∧ len (mem_get c off n) = n ∧
      (n = 0 → len buf = 0 ∨ len c ≤ off) }.

Section positional.
Context {W : Type} (P : Provider W) (C : VPath → option bytes) (live : W → gmap Handle (bytes * Z)) (I : W → Prop).
Context `{HP : !SeqSource P C live I}.

Definition seek_path (r : SeekRec) : VPath := mkVPath (sr_root r) (sr_path r).

(** A record is on its file, at its cursor. *)
Definition RecOk (w : W) (r : SeekRec) (c : bytes) : Prop :=
  I w ∧ live w !! sr_inner r = Some (c, sr_cursor r) ∧ 0 ≤ sr_cursor r ∧ C (seek_path r) = Some c ∧ reading (sr_flags r).

(** Work on one record leaves every other handle as it was. *)
Definition Frame (w : W) (r : SeekRec) (w' : W) (r' : SeekRec) : Prop :=
  seek_path r' = seek_path r ∧
  ∀ k x, k ≠ sr_inner r → live w !! k = Some x → k ≠ sr_inner r' ∧ live w' !! k = Some x.

Lemma Frame_refl w r : Frame w r w r.
Proof. by split. Qed.

Lemma Frame_trans w1 r1 w2 r2 w3 r3 : Frame w1 r1 w2 r2 → Frame w2 r2 w3 r3 → Frame w1 r1 w3 r3.
Proof. intros [E1 H1] [E2 H2]. split; [congruence|]. intros k x Hk Hx. destruct (H1 k x Hk Hx). by apply H2. Qed.

Lemma reading_mask flags : reading flags → reading (Z.land flags REOPEN_MASK).
Proof.
  unfold reading. intros H. rewrite <- Z.land_assoc, (Z.land_comm REOPEN_MASK), Z.land_assoc, H. apply Z.land_0_l.
Qed.

Lemma reopen_ok w r c : RecOk w r c →
  ∃ r' w', reopen P r w = ((Ok (), r'), w') ∧ RecOk w' r' c ∧ Frame w r w' r' ∧ sr_cursor r' = 0.
Proof using HP.
  intros (HI & Hl & Hc & HC & Hf). unfold reopen. destruct (sq_close _ _ w HI Hl) as (w1 & -> & HI1 & E1).
  destruct (sq_open (seek_path r) _ c w1 HI1 HC (reading_mask _ Hf)) as (h & w2 & Eo & HI2 & Hn & E2).
  unfold seek_path in Eo. rewrite Eo. eexists _, w2. split; [done|]. split_and!.
  - split_and!; [done| |done|done|done]. cbn. by rewrite E2, lookup_insert_eq.
  - split; [done|]. cbn [sr_inner]. intros k x Hk Hx. assert (live w1 !! k = Some x) as Hx1 by (by rewrite E1, lookup_delete_ne).
    split; [congruence|]. rewrite E2, lookup_insert_ne by congruence. done.
  - done.
Qed.

Lemma seek_next_ok w r c buf : RecOk w r c →
  ∃ n b r' w', seek_next P r buf w = (((Ok n, b), r'), w') ∧ RecOk w' r' c ∧ Frame w r w' r' ∧ sr_cursor r' = sr_cursor r + n ∧
    0 ≤ n ≤ len buf ∧ len b = len buf ∧ take (Z.to_nat n) b = mem_get c (sr_cursor r) n ∧
    len (mem_get c (sr_cursor r) n) = n ∧ (n = 0 → len buf = 0 ∨ len c ≤ sr_cursor r).
Proof using HP.
  intros (HI & Hl & Hc & HC & Hf). unfold seek_next.
  destruct (sq_next _ c _ buf w HI Hl) as (n & b & w' & -> & HI' & E & Hn & Hb & Ht & Hlen & Hz).
  exists n, b, (advance_cursor n r), w'. split; [done|]. split_and!; try done; try lia.
  - unfold RecOk. cbn [advance_cursor sr_inner sr_cursor sr_flags]. split_and!; try done; [|lia]. by rewrite E, lookup_insert_eq.
  - split; [done|]. intros k x Hk Hx. split; [done|]. by rewrite E, lookup_insert_ne.
Qed.

Lemma skip_ok fuel skip off w r c :
  RecOk w r c → off - sr_cursor r ≤ Z.of_nat fuel → 0 ≤ off →
  ∃ at_ r' w', skip_loop P fuel skip off r w = ((Ok at_, r'), w') ∧ RecOk w' r' c ∧ Frame w r w' r' ∧
    (if at_ then sr_cursor r' = Z.max off (sr_cursor r) else len c ≤ off).
Proof using HP.
  revert skip w r. induction fuel as [|fuel IH]; intros skip w r HR Hfu Ho; cbn [skip_loop].
  { rewrite (proj2 (Z.leb_le _ _)) by lia. exists true, r, w. split_and!; try done. lia. }
  destruct (Z.leb_spec off (sr_cursor r)).
  { exists true, r, w. split_and!; try done. lia. }
  set (want := Z.min _ SKIP_CHUNK). set (skip' := if _ <? want then _ else _).
  assert (len (take (Z.to_nat want) skip') = want) as Hw.
  { assert (0 < want) by (unfold want, SKIP_CHUNK; lia).
    assert (want ≤ len skip').
    { unfold skip'. destruct (Z.ltb_spec (len skip) want); [|done]. rewrite len_app. unfold len at 2. rewrite length_replicate.
      pose proof (len_nonneg skip). lia. }
    unfold len in *. rewrite length_take. lia. }
  pose proof (seek_next_ok w r c (take (Z.to_nat want) skip') HR) as (n & b & r' & w' & E & HR' & HF & Ec & Hn & _ & _ & Hlen & Hz).
  unfold seek_next in E. destruct (p_read_next P (sr_inner r) _ w) as [[n0 b0] w0]. injection E as -> -> <- ->.
  destruct (Z.eqb_spec n 0) as [->|Hne].
  - exists false, r, w'. split; [done|]. assert (advance_cursor 0 r = r) as Ead.
    { destruct r. unfold advance_cursor. cbn. f_equal. lia. }
    rewrite Ead in HR', HF. split_and!; [done|done|]. destruct Hz; [done| |lia]. unfold want, SKIP_CHUNK in *. lia.
  - rewrite Hw in Hn. destruct (IH (b ++ drop (Z.to_nat want) skip') w' (advance_cursor n r) HR') as (at_ & r2 & w2 & E2 & HR2 & HF2 & Hend);
      [cbn [advance_cursor sr_cursor] in *; lia|done|].
    exists at_, r2, w2. split; [done|]. split_and!; [done|by eapply Frame_trans|]. cbn [advance_cursor sr_cursor] in *.
    destruct at_; [unfold want in *; lia|done].
Qed.

Lemma seek_to_ok off w r c : RecOk w r c → 0 ≤ off →
  ∃ at_ r' w', seek_to P off r w = ((Ok at_, r'), w') ∧ RecOk w' r' c ∧ Frame w r w' r' ∧
    (if at_ then sr_cursor r' = off else len c ≤ off).
Proof using HP.
  intros HR Ho. unfold seek_to. destruct (Z.ltb_spec off (sr_cursor r)).
  - destruct (reopen_ok w r c HR) as (r1 & w1 & -> & HR1 & HF1 & E1).
    destruct (skip_ok (Z.to_nat (off - sr_cursor r1)) [] off w1 r1 c HR1) as (at_ & r2 & w2 & -> & HR2 & HF2 & Hend); [lia|done|].
    exists at_, r2, w2. split_and!; [done|done|by eapply Frame_trans|]. destruct at_; [lia|done].
  - destruct (skip_ok (Z.to_nat (off - sr_cursor r)) [] off w r c HR) as (at_ & r2 & w2 & -> & HR2 & HF2 & Hend); [lia|done|].
    exists at_, r2, w2. split_and!; [done|done|done|]. destruct at_; [lia|done].
Qed.

(** The wrapper's handles: each on a record of its own, at its cursor. *)
Definition seek_live (s : Seekable W) : gmap Handle bytes := omap (λ r, C (seek_path r)) (h_map (sk_opens s)).
Definition SeekOk (s : Seekable W) : Prop :=
  h_poisoned (sk_opens s) = false ∧ I (sk_inner s) ∧
  (∀ h r, h_map (sk_opens s) !! h = Some r → ∃ c, RecOk (sk_inner s) r c) ∧
  (∀ h1 h2 r1 r2, h_map (sk_opens s) !! h1 = Some r1 → h_map (sk_opens s) !! h2 = Some r2 → sr_inner r1 = sr_inner r2 → h1 = h2).

Lemma seek_live_Some s h c : SeekOk s → seek_live s !! h = Some c →
  ∃ r, h_map (sk_opens s) !! h = Some r ∧ RecOk (sk_inner s) r c.
Proof.
  intros (_ & _ & Hr & _) Hl. unfold seek_live in Hl. rewrite lookup_omap in Hl.
  destruct (h_map (sk_opens s) !! h) as [r|] eqn:Hh; [|done]. exists r. split; [done|].
  destruct (Hr h r Hh) as (c' & HR). cbn in Hl. pose proof HR as (_ & _ & _ & HC & _). by rewrite HC in Hl; injection Hl as ->.
Qed.

(** A record moved on, with its state. *)
Lemma SeekOk_put s h r r' w c :
  SeekOk s → h_map (sk_opens s) !! h = Some r → RecOk w r' c → Frame (sk_inner s) r w r' →
  SeekOk (seek_put h r' (mkSeekable w (sk_opens s))) ∧ seek_live (seek_put h r' (mkSeekable w (sk_opens s))) = seek_live s.
Proof.
  intros (Hp & HI & Hr & Hd) Hh HR [Ep HF]. split.
  - assert (∀ h1 r1, h1 ≠ h → h_map (sk_opens s) !! h1 = Some r1 → sr_inner r1 ≠ sr_inner r' ∧ ∃ c, RecOk w r1 c) as Ho.
    { intros h1 r1 Hne Hh1. destruct (Hr _ _ Hh1) as (c1 & HR1). pose proof HR1 as (_ & Hl1 & ? & ? & ?).
      destruct (HF (sr_inner r1) _ (λ E, Hne (Hd _ _ _ _ Hh1 Hh E)) Hl1) as [Hne' Hl']. split; [done|]. exists c1.
      split_and!; try done. apply HR. }
    split_and!; [done|apply HR| |]; cbn [seek_put sk_inner sk_opens with_map h_map].
    + intros h1 r1 [[-> ->]|[Hne Hh1]]%lookup_insert_Some; [by exists c|]. by apply (Ho h1 r1).
    + intros h1 h2 r1 r2 [[-> ->]|[Hne1 Hh1]]%lookup_insert_Some [[-> ->]|[Hne2 Hh2]]%lookup_insert_Some E; try done.
      * by destruct (Ho h2 r2) as [? _].
      * by destruct (Ho h1 r1) as [? _].
      * by apply (Hd h1 h2 r1 r2).
  - unfold seek_live. cbn [seek_put sk_inner sk_opens with_map h_map]. apply map_eq. intros k. rewrite !lookup_omap.
    destruct (decide (k = h)) as [->|]; [|by rewrite lookup_insert_ne]. rewrite lookup_insert_eq, Hh. cbn. by rewrite Ep.
Qed.

Lemma seek_rec_ok s h r : SeekOk s → h_map (sk_opens s) !! h = Some r → seek_rec h s = (Ok r, s).
Proof.
  intros (Hp & _) Hh. unfold seek_rec, on_opens, zoom, table_get, table_with. rewrite Hp, Hh. unfold with_map.
  destruct s as [w [n m p]]. cbn in *. by rewrite insert_id.
Qed.

Lemma seek_read_ok s h r c off buf :
  SeekOk s → h_map (sk_opens s) !! h = Some r → RecOk (sk_inner s) r c → 0 ≤ off →
  ∃ n b s', seek_read_at P h off buf s = ((Ok n, b), s') ∧ SeekOk s' ∧ seek_live s' = seek_live s ∧
    0 ≤ n ≤ len buf ∧ len b = len buf ∧ take (Z.to_nat n) b = mem_get c off n ∧ len (mem_get c off n) = n ∧
    (n = 0 → len buf = 0 ∨ len c ≤ off).
Proof using HP.
  intros HS Hh HR Ho. unfold seek_read_at. rewrite (seek_rec_ok s h r) by done.
  unfold sequential. rewrite bool_decide_true by apply sq_access. cbn [negb].
  destruct (seek_to_ok off (sk_inner s) r c HR Ho) as (at_ & r1 & w1 & -> & HR1 & HF1 & Hend).
  destruct (SeekOk_put s h r r1 w1 c HS Hh HR1 HF1) as [HS1 HL1].
  destruct at_.
  - destruct (seek_next_ok w1 r1 c buf HR1) as (n & b & r2 & w2 & -> & HR2 & HF2 & _ & Hn & Hb & Ht & Hlen & Hz).
    rewrite Hend in Ht, Hlen, Hz. set (s1 := seek_put h r1 _) in *.
    assert (h_map (sk_opens s1) !! h = Some r1) as Hh1 by (cbn; by rewrite lookup_insert_eq).
    destruct (SeekOk_put s1 h r1 r2 w2 c HS1 Hh1 HR2 HF2) as [HS2 HL2].
    eexists n, b, _. split; [done|]. split_and!; [exact HS2|by rewrite HL2|lia|lia|done|done|done|done].
  - eexists 0, buf, _. pose proof (len_nonneg buf). split; [done|]. split_and!; [done|done|lia|lia|done|done|done|by right].
Qed.

Lemma seek_open_ok s p flags c :
  SeekOk s → C p = Some c → reading flags →
  ∃ h s', seek_open P p flags s = (Ok (h, len c, false), s') ∧ SeekOk s' ∧ seek_live s' = <[h := c]> (seek_live s).
Proof using HP.
  intros (Hp & HI & Hr & Hd) HC Hf. destruct (sq_open p flags c (sk_inner s) HI HC Hf) as (ih & w & Eo & HI' & Hn & E).
  unfold seek_open, mbind, PM_bind, on_inner, on_opens, zoom, table_insert, fresh. rewrite Eo. cbn. rewrite Hp.
  eexists (h_next (sk_opens s)), _. split; [done|]. set (r := mkSeekRec ih (vp_root p) (vp_rel p) flags 0).
  assert (seek_path r = p) as Epath by (by destruct p). split.
  - assert (∀ h1 r1, h_map (sk_opens s) !! h1 = Some r1 → sr_inner r1 ≠ ih ∧ ∃ c, RecOk w r1 c) as Ho.
    { intros h1 r1 Hh1. destruct (Hr _ _ Hh1) as (c1 & _ & Hl1 & ? & ? & ?). split; [congruence|]. exists c1.
      split_and!; try done. by rewrite E, lookup_insert_ne by congruence. }
    split_and!; [done|done| |]; cbn [sk_inner sk_opens with_map h_map].
    + intros h1 r1 [[_ <-]|[_ Hh1]]%lookup_insert_Some; [|by apply (Ho h1)]. exists c. unfold RecOk.
      split_and!; [done| |done|by rewrite Epath|done]. cbn. by rewrite E, lookup_insert_eq.
    + intros h1 h2 r1 r2 [[<- <-]|[_ Hh1]]%lookup_insert_Some [[<- <-]|[_ Hh2]]%lookup_insert_Some E'; try done.
      * destruct (Ho h2 r2 Hh2) as [[] _]. by rewrite <- E'.
      * by destruct (Ho h1 r1 Hh1) as [[] _].
      * by apply (Hd h1 h2 r1 r2).
  - unfold seek_live. cbn [sk_opens with_map h_map]. apply map_eq. intros k. rewrite lookup_omap.
    destruct (decide (k = h_next (sk_opens s))) as [->|].
    + rewrite !lookup_insert_eq. cbn. by rewrite Epath.
    + rewrite !lookup_insert_ne, lookup_omap by done. done.
Qed.

Lemma seek_close_ok s h r c :
  SeekOk s → h_map (sk_opens s) !! h = Some r → RecOk (sk_inner s) r c →
  ∃ s', seek_close P h s = (Ok (), s') ∧ SeekOk s' ∧ seek_live s' = delete h (seek_live s).
Proof using HP.
  intros (Hp & HI & Hr & Hd) Hh (_ & Hl & _). destruct (sq_close _ _ (sk_inner s) HI Hl) as (w & Ec & HI' & E).
  unfold seek_close, mbind, PM_bind, on_inner, on_opens, zoom, table_remove. rewrite Hp, Hh. cbn. rewrite Ec.
  eexists. split; [done|]. split.
  - split_and!; [done|done| |]; cbn [sk_inner sk_opens with_map h_map].
    + intros h1 r1 [Hne Hh1]%lookup_delete_Some. destruct (Hr _ _ Hh1) as (c1 & _ & Hl1 & ? & ? & ?). exists c1.
      split_and!; try done. rewrite E, lookup_delete_ne; [done|]. intros Ei. by apply Hne, (Hd h h1 r r1).
    + intros h1 h2 r1 r2 [_ Hh1]%lookup_delete_Some [_ Hh2]%lookup_delete_Some. by apply Hd.
  - unfold seek_live. cbn [sk_opens with_map h_map]. apply map_eq. intros k. rewrite lookup_omap.
    destruct (decide (k = h)) as [->|]; [by rewrite !lookup_delete_eq|]. by rewrite !lookup_delete_ne, lookup_omap.
Qed.

(** C16: [seekable] turns any forward-only provider into a positional one:
    whatever was read before through this or other handles, a read at any
    offset succeeds with the file's bytes from there, short only as the
    stream is short and empty only at or past the end; opens and closes stay
    those of the files, and the skipping always arrives. *)
Theorem seekable_positional : PosSource (seekable P) C seek_live SeekOk.
Proof using HP.
  split.
  - cbn. unfold seekable_caps, caps_seekable. by rewrite bool_decide_true by apply sq_access.
  - intros p flags c s. apply seek_open_ok.
  - intros h x s HS Hl. destruct (seek_live_Some s h x HS Hl) as (r & Hh & HR). by eapply seek_close_ok.
  - intros h c off buf s HS Hl Ho. destruct (seek_live_Some s h c HS Hl) as (r & Hh & HR). by eapply seek_read_ok.
Qed.
End positional.

(** ** Examples *)

(** A stream of five bytes that comes two at a time. *)
Module SeqDemo.
Definition State : Type := Z * gmap Z (bytes * Z).
Definition C (p : VPath) : option bytes := if bool_decide (vp_rel p = lit "a") then Some [1; 2; 3; 4; 5] else None.
Definition live (s : State) : gmap Z (bytes * Z) := s.2.
Definition I (s : State) : Prop := map_Forall (λ h x, h < s.1 ∧ 0 ≤ x.2 ≤ len x.1) s.2.

Definition next (h : Z) (buf : bytes) (s : State) : (result Z Z * bytes) * State :=
  match s.2 !! h with
  | None => ((Err ST_BAD_FH, buf), s)
  | Some (c, pos) =>
      let n := Z.min (Z.min (len buf) 2) (len c - pos) in
      ((Ok n, mem_get c pos n ++ drop (Z.to_nat n) buf), (s.1, <[h := (c, pos + n)]> s.2))
  end.

Definition source : Provider State := {|
  p_capabilities := mkCaps SeqRead true true None Insensitive;
  p_getattr := λ p, mret ((λ c, mkStat KIND_FILE (len c) 0) <$> C p);
  p_readdir := λ _, not_supported;
  p_open := λ p _ s, match C p with
    | Some c => (Ok (s.1, len c, false), (s.1 + 1, <[s.1 := (c, 0)]> s.2))
    | None => (Err ST_NOT_FOUND, s) end;
  p_close := λ h s, match s.2 !! h with Some _ => (Ok (), (s.1, delete h s.2)) | None => (Err ST_BAD_FH, s) end;
  p_read_at := λ _ _ buf, no_read buf;
  p_read_next := next;
  p_write_at := λ _ _ _, not_supported;
  p_set_len := λ _ _, not_supported;
  p_flush := λ _, not_supported;
  p_mkdir := λ _, not_supported;
  p_remove := λ _, not_supported;
  p_rename := λ _ _, not_supported;
  p_set_attr := λ _ _, not_supported;
  p_stored_name := λ _, not_supported;
  p_is_immutable := λ _ _, true |}.

#[export] Instance source_seq : SeqSource source C live I.
Proof.
  split; cbn [source p_capabilities access p_open p_close p_read_next].
  - done.
  - intros p flags c s HI Hc _. rewrite Hc. eexists _, _. split; [done|]. assert (s.2 !! s.1 = None) as Hn.
    { destruct (s.2 !! s.1) eqn:E; [|done]. apply HI in E as [E _]. lia. }
    split_and!; [|done|done]. pose proof (len_nonneg c). apply map_Forall_insert_2; [cbn; lia|].
    eapply map_Forall_impl; [exact HI|]. cbn. intros. lia.
  - intros h x s HI Hl. unfold live in Hl. rewrite Hl. eexists. split; [done|]. split; [|done]. by apply map_Forall_delete.
  - intros h c pos buf s HI Hl. unfold live in Hl. unfold next. rewrite Hl. destruct (HI _ _ Hl) as [Hh Hp]. cbn in Hp.
    set (n := Z.min (Z.min (len buf) 2) (len c - pos)). pose proof (len_nonneg buf).
    assert (0 ≤ n ≤ len buf) as Hn by (unfold n; lia).
    assert (len (mem_get c pos n) = n) as Hlen by (apply mem_get_len; unfold n; lia).
    eexists _, _, _. split; [done|]. split_and!; try lia.
    + apply map_Forall_insert_2; [cbn; unfold n; lia|done].
    + done.
    + rewrite len_app, Hlen. unfold len in *. rewrite length_drop. lia.
    + apply take_app_length'. unfold len in Hlen. lia.
Qed.

Definition opened : Seekable State := (p_open (seekable source) (mkVPath 0 (lit "a")) OPEN_READ (seekable_new (1, ∅))).2.
Definition forth : Seekable State := (p_read_at (seekable source) 1 3 [0; 0] opened).2.
End SeqDemo.

Lemma seekable_positional_witness :
  PosSource (seekable SeqDemo.source) SeqDemo.C (seek_live SeqDemo.C) (SeekOk SeqDemo.C SeqDemo.live SeqDemo.I) ∧
  (p_read_at (seekable SeqDemo.source) 1 3 [0; 0] SeqDemo.opened).1 = (Ok 2, [4; 5]) ∧
  (p_read_at (seekable SeqDemo.source) 1 1 [0; 0] SeqDemo.forth).1 = (Ok 2, [2; 3]) ∧
  (p_read_at (seekable SeqDemo.source) 1 9 [0; 0] SeqDemo.forth).1 = (Ok 0, [0; 0]).
Proof.
  split; [|by vm_compute].
  exact (@seekable_positional _ SeqDemo.source SeqDemo.C SeqDemo.live SeqDemo.I SeqDemo.source_seq).
Defined.

#[local] Existing Instance demo_table.

Definition demo_stubs : Provider (HandleTable unit) := stub_dirs (stub_dirs_new [lit "documents"]).

Lemma guard_protects_chains_witness :
  let P := guarded (guarded_new [lit "Documents/My Games"]) demo_stubs in
  p_remove P (mkVPath 0 (join slash [lit "documents"])) table_new = (Err ST_READ_ONLY, table_new) ∧
  p_remove P (mkVPath 0 (join slash [lit "other"])) table_new
  = p_remove demo_stubs (mkVPath 0 (join slash [lit "other"])) table_new.
Proof.
  assert (Forall comp_ok [lit "documents"]) as H1 by (apply comps_okb; reflexivity).
  assert (Forall comp_ok [lit "other"]) as H2 by (apply comps_okb; reflexivity). split.
  - apply (proj1 (guard_protects_chains demo_stubs [lit "Documents/My Games"] 0 [lit "documents"] [lit "other"] table_new H1 H2)).
    split; [done|]. exists (lit "Documents/My Games"). split; [by left|]. exists [lit "my games"]. by vm_compute.
  - apply (proj1 (proj2 (guard_protects_chains demo_stubs [lit "Documents/My Games"] 0 [lit "other"] [lit "other"] table_new H2 H2))).
    intros (_ & d & Hd%list_elem_of_singleton & Hpre). subst d. destruct Hpre as [k E]. by vm_compute in E.
Defined.
