(* ===== verification/ReadFrag.v ===== *)
(** ReadFrag: the client's read in pieces (rust/crates/vfs-ipc/src/concurrent.rs,
    [read_fragmented] and [submit_data]), against what the ring and the gate
    promise it.

    The requests of a batch travel through the ring, their permits come from
    the gate: both are behind the record [Link], so that the theorem on the
    read holds for any ring and gate that keep the promises of [FileLink]. *)

From S2P Require Import Prelude Provider Wire Protocol Seg Ring Director Dispatch NtBuf.

Record ReadPlan := mkPlan {
  bulk_threshold : Z;
  bulk_chunk : Z;
  inline_chunk : Z;
  plan_depth : Z;
  depth_stream : Z;
  stream_bytes : Z }.

(** What a read uses of its client: [DataGate::acquire], the endpoint's
    [submit_many_held_reporting] and [submit_reporting], the shared segment,
    [Permits::retire], [release_slots], and the drop of the permits. *)
Record Link (W : Type) := mkLink {
  lk_slots : Z;
  lk_acquire : Z → W → option Z * W;
  lk_submit_many : list SendReq → W → result Unanswered (list (Z * bytes) * list Z) * W;
  lk_submit : SendReq → W → result Unanswered (Z * bytes) * W;
  lk_seg : W → bytes;
  lk_retire : list Z → W → W;
  lk_release : list Z → W → W;
  lk_drop : W → W }.
Arguments lk_slots {W}.
Arguments lk_acquire {W}.
Arguments lk_submit_many {W}.
Arguments lk_submit {W}.
Arguments lk_seg {W}.
Arguments lk_retire {W}.
Arguments lk_release {W}.
Arguments lk_drop {W}.

Section read.
Context {W : Type} (L : Link W) (plan : ReadPlan) (fh offset : Z).

Definition pipeline_depth (n : Z) : Z :=
  let slots := Z.max (lk_slots L) 1 in
  Z.max 1 (Z.min (if stream_bytes plan <=? n then depth_stream plan else plan_depth plan) slots).

(** How many requests are asked for. *)
Definition batch_want (depth rem : Z) : Z :=
  let per := Z.max (if bulk_threshold plan <=? rem then bulk_chunk plan else inline_chunk plan) 1 in
  Z.min ((rem + per - 1) / per) depth.

Definition is_bulk (rem : Z) : bool := bulk_threshold plan <=? rem.
Definition frag_len (rem : Z) : Z := Z.min rem (if is_bulk rem then bulk_chunk plan else inline_chunk plan).
Definition frag_flags (rem : Z) : Z := if is_bulk rem then FLAG_READ_BULK else 0.

(** A READ of [n] bytes at [off]. *)
Definition read_send (flags off n : Z) : SendReq :=
  mkSend OP_READ flags (encode_read_req {| rr_fh := fh; rr_offset := off; rr_len := as_u32 n |}).

(** [while reqs.len() < permits.count() && batch_off < buf.len()]: the
    requests and how long an answer to each may be. *)
Fixpoint batch_reqs (count : nat) (total batch_off : Z) : list (SendReq * Z) :=
  match count with
  | O => []
  | S count =>
      if total <=? batch_off then [] else
      let rem := total - batch_off in
      let chunk := frag_len rem in
      if chunk =? 0 then [] else
      (read_send (frag_flags rem) (offset + batch_off) chunk, chunk) :: batch_reqs count total (batch_off + chunk)
  end.

(** One response's bytes into [dest]: the bytes copied, and [dest]. *)
Definition copy_frag (seg : bytes) (resp : Z * bytes) (dest : bytes) : result Z (Z * bytes) :=
  if negb (resp.1 =? ST_OK) then Err resp.1 else
  if is_read_resp_bulk resp.2 then
    match decode_read_bulk_resp resp.2 with
    | None => Err ST_BAD_REQUEST
    | Some (bn, aoff) =>
        let n := Z.min bn (len dest) in
        if n >? 0 then
          if in_bounds seg aoff n then Ok (n, mem_get seg aoff n ++ drop (Z.to_nat n) dest) else Err ST_IO_ERROR
        else Ok (n, dest)
    end
  else
    match decode_read_resp_into resp.2 dest with
    | Some x => Ok x
    | None => Err ST_BAD_REQUEST
    end.

(** The loop over the responses: the buffer, the bytes of this batch, whether
    the end of the file was met, and the error. *)
Fixpoint copy_batch (seg : bytes) (rs : list ((Z * bytes) * Z)) (buf : bytes) (filled done : Z) : bytes * Z * bool * option Z :=
  match rs with
  | [] => (buf, done, false, None)
  | (resp, want) :: rs =>
      let start := filled + done in
      match copy_frag seg resp (mem_get buf start want) with
      | Err e => (buf, done, false, Some e)
      | Ok (n, dest) =>
          let buf := mem_put buf start dest in
          if n <? want then (buf, done + n, true, None) else copy_batch seg rs buf filled (done + n)
      end
  end.

(** [while filled < buf.len()]: each round but the last adds a byte. *)
Fixpoint read_loop (fuel : nat) (depth filled : Z) (buf : bytes) (w : W) : (result Z Z * bytes) * W :=
  if len buf <=? filled then ((Ok filled, buf), w) else
  match fuel with
  | O => ((Ok filled, buf), w)
  | S fuel =>
      match lk_acquire L (batch_want depth (len buf - filled)) w with
      | (None, w) => ((Err ST_IO_ERROR, buf), w)
      | (Some permits, w) =>
          let reqs := batch_reqs (Z.to_nat (Z.max permits 1)) (len buf) filled in
          if bool_decide (reqs = []) then ((Ok filled, buf), lk_drop L w) else
          match lk_submit_many L reqs.*1 w with
          | (Err u, w) => ((Err ST_IO_ERROR, buf), lk_drop L (lk_retire L (u_retired u) w))
          | (Ok (rs, held), w) =>
              let '(buf, got, eof, err) := copy_batch (lk_seg L w) (zip rs reqs.*2) buf filled 0 in
              let w := lk_drop L (lk_release L held w) in
              match err with
              | Some e => ((Err e, buf), w)
              | None =>
                  if eof || (got =? 0) then ((Ok (filled + got), buf), w)
                  else read_loop fuel depth (filled + got) buf w
              end
          end
      end
  end.

Definition read_fragmented (buf : bytes) (w : W) : (result Z Z * bytes) * W :=
  if len buf =? 0 then ((Ok 0, buf), w) else read_loop (length buf) (pipeline_depth (len buf)) 0 buf w.

(** One data request that is not a read. *)
Definition submit_data (rq : SendReq) (w : W) : result IpcError (Z * bytes) * W :=
  match lk_acquire L 1 w with
  | (None, w) => (Err Timeout, w)
  | (Some _, w) =>
      match lk_submit L rq w with
      | (Ok r, w) => (Ok r, lk_drop L w)
      | (Err u, w) => (Err (u_error u), lk_drop L (lk_retire L (u_retired u) w))
      end
  end.
End read.

(** ** What the ring and the gate promise a reader *)

(** A reply that brings [d]: inline, or through the segment. *)
Definition Carries (seg payload d : bytes) : Prop :=
  payload = encode_read_resp d ∨
  ∃ aoff, payload = encode_read_resp_bulk (len d) aoff ∧ in_u64 aoff ∧ in_bounds seg aoff (len d) = true ∧
    mem_get seg aoff (len d) = d.

(** A READ of [n] bytes of [fh] at [off], no longer than the plan allows. *)
Definition ReadOf (plan : ReadPlan) (fh : Z) (rq : SendReq) (off n : Z) : Prop :=
  in_u64 off ∧ 0 < n < 2 ^ 31 ∧
  (rq = read_send fh FLAG_READ_BULK off n ∧ n ≤ bulk_chunk plan ∨
   rq = read_send fh 0 off n ∧ n ≤ inline_chunk plan ∧ n < bulk_threshold plan).

(** The request says which bytes it asks for. *)
Lemma ReadOf_inj plan fh rq off n off' n' :
  in_u64 fh → ReadOf plan fh rq off n → ReadOf plan fh rq off' n' → off' = off ∧ n' = n.
Proof.
  intros Hf (Ho & Hn & H) (Ho' & Hn' & H').
  assert (∃ flags flags', read_send fh flags off n = read_send fh flags' off' n') as (f & f' & E)
    by (destruct H as [[-> _]|[-> _]], H' as [[E _]|[E _]]; eauto).
  apply (f_equal (λ rq, decode_read_req (s_payload rq))) in E. unfold read_send, as_u32 in E. cbn [s_payload] in E. rewrite !Z.mod_small in E by (unfold u32_max; lia).
  unfold encode_read_req in E. cbn [rr_fh rr_offset rr_len] in E.
  rewrite !read_req_prefix in E by (done || (unfold in_u32, u32_max; lia)). by injection E.
Qed.

(** Reads of [fh], no more of them than there are slots. *)
Definition Batch (plan : ReadPlan) (fh slots : Z) (reqs : list SendReq) : Prop :=
  Forall (λ rq, ∃ off n, ReadOf plan fh rq off n) reqs ∧ Z.of_nat (length reqs) ≤ Z.max slots 1.

(** The answer to a READ of the open file [fh], whose content is [c]: an
    error, or bytes of [c] from there on, perhaps fewer than asked for. *)
Definition Answered (plan : ReadPlan) (fh : Z) (c seg : bytes) (rq : SendReq) (resp : Z * bytes) : Prop :=
  ∀ off n, ReadOf plan fh rq off n → resp.1 = ST_OK → ∃ m, 0 ≤ m ≤ n ∧ Carries seg resp.2 (mem_get c off m).
(** The same, and fewer than asked for only at the end of the file. *)
Definition AnsweredWhole (plan : ReadPlan) (fh : Z) (c seg : bytes) (rq : SendReq) (resp : Z * bytes) : Prop :=
  ∀ off n, ReadOf plan fh rq off n → resp.1 = ST_OK → Carries seg resp.2 (mem_get c off n).

Lemma whole_answered plan fh c seg rq resp : AnsweredWhole plan fh c seg rq resp → Answered plan fh c seg rq resp.
Proof. intros H off n Hr Hok. exists n. split; [destruct Hr as (_ & ? & _); lia|by apply H]. Qed.

(** Whatever state the client is in ([I]), a batch that comes back has an
    answer to each of its requests, readable until its slots are released;
    the gate grants no more than it is asked for. *)
Class FileLink {W} (L : Link W) (plan : ReadPlan) (fh : Z) (c : bytes) (I : W → Prop) : Prop := {
  fl_acquire n w : I w → I (lk_acquire L n w).2;
  fl_permits n w k : I w → (lk_acquire L n w).1 = Some k → k ≤ n;
  fl_submit reqs w : I w → Batch plan fh (lk_slots L) reqs → I (lk_submit_many L reqs w).2;
  fl_answers reqs w rs held : I w → Batch plan fh (lk_slots L) reqs → (lk_submit_many L reqs w).1 = Ok (rs, held) →
    Forall2 (Answered plan fh c (lk_seg L (lk_submit_many L reqs w).2)) reqs rs;
  fl_retire slots w : I w → I (lk_retire L slots w);
  fl_release slots w : I w → I (lk_release L slots w);
  fl_drop w : I w → I (lk_drop L w) }.

(** The director never answers with less than there is. *)
Definition whole_replies {W} (L : Link W) (plan : ReadPlan) (fh : Z) (c : bytes) (I : W → Prop) : Prop :=
  ∀ reqs w rs held, I w → Batch plan fh (lk_slots L) reqs → (lk_submit_many L reqs w).1 = Ok (rs, held) →
    Forall2 (AnsweredWhole plan fh c (lk_seg L (lk_submit_many L reqs w).2)) reqs rs.

(** ** Copying a batch *)

Lemma copy_frag_ok seg resp d dest :
  resp.1 = ST_OK → Carries seg resp.2 d → len d ≤ len dest → len d < 2 ^ 31 →
  copy_frag seg resp dest = Ok (len d, d ++ drop (Z.to_nat (len d)) dest).
Proof.
  intros Hs Hc Hl H31. pose proof (len_nonneg d). unfold copy_frag. rewrite Hs. cbn [negb Z.eqb ST_OK].
  change (ST_OK =? ST_OK) with true. cbn [negb].
  destruct Hc as [->|(aoff & -> & Ha & Hb & Hg)].
  - destruct (read_replies_distinct d dest 0 0) as (_ & _ & _ & -> & _ & ->); [done|lia|unfold in_u64, u64_max; lia|].
    rewrite Z.min_l by done. rewrite take_ge by (unfold len in *; lia). unfold len. by rewrite Nat2Z.id.
  - destruct (read_replies_distinct [] dest (len d) aoff) as (-> & -> & _); [done|lia|done|].
    rewrite Z.min_l by done. rewrite Hb, Hg. destruct (Z.gtb_spec (len d) 0) as [|Hz]; [done|].
    assert (d = []) as -> by (destruct d; [done|unfold len in *; cbn in *; lia]). done.
Qed.

(** A fragment with its unread tail kept is a write of what was read. *)
Lemma put_prefix buf start want d :
  0 ≤ start → len d ≤ want → start + want ≤ len buf →
  mem_put buf start (d ++ drop (Z.to_nat (len d)) (mem_get buf start want)) = mem_put buf start d.
Proof.
  intros Hs Hd Hw. pose proof (len_nonneg d).
  assert (drop (Z.to_nat (len d)) (mem_get buf start want) = mem_get buf (start + len d) (want - len d)) as ->.
  { unfold mem_get. rewrite skipn_firstn_comm, drop_drop. f_equal; [lia|]. f_equal. lia. }
  apply list_eq. intros i. rewrite !lookup_mem_put by (rewrite ?len_app, ?mem_get_len by lia; lia).
  rewrite len_app, mem_get_len by lia. repeat case_decide; try lia; try done.
  - rewrite lookup_app_l by (unfold len in *; lia). done.
  - rewrite lookup_app_r by (unfold len in *; lia). rewrite lookup_mem_get. case_decide; [|unfold len in *; lia].
    f_equal. unfold len in *. lia.
Qed.

Section exact.
Context (plan : ReadPlan) (fh offset : Z) (c : bytes).
Context (Hoff : 0 ≤ offset).
Context (Hplan : 0 < bulk_chunk plan < 2 ^ 31 ∧ 0 < inline_chunk plan < 2 ^ 31).

(** The first [k] bytes of [buf] are read, and the rest is [buf0]'s. *)
Definition ReadTo (buf0 buf : bytes) (k : Z) : Prop :=
  len buf = len buf0 ∧ 0 ≤ k ≤ len buf0 ∧ take (Z.to_nat k) buf = mem_get c offset k ∧ len (mem_get c offset k) = k ∧
  drop (Z.to_nat k) buf = drop (Z.to_nat k) buf0.

Lemma frag_bounds rem : 0 < rem → 0 < frag_len plan rem ≤ rem ∧ frag_len plan rem < 2 ^ 31.
Proof using Hplan. intros. unfold frag_len. case_match; lia. Qed.

(** Another fragment read. *)
Lemma ReadTo_put buf0 buf k d want :
  ReadTo buf0 buf k → d = mem_get c (offset + k) want → 0 ≤ want → k + want ≤ len buf0 →
  ReadTo buf0 (mem_put buf k d) (k + len d) ∧ len d ≤ want.
Proof using Hoff.
  intros (Hl & Hk & Ht & Hm & Hd) -> Hw Hle.
  assert (len (mem_get c (offset + k) want) ≤ want) as Hdw by (unfold mem_get, len; rewrite length_take; lia).
  set (d := mem_get c (offset + k) want) in *. pose proof (len_nonneg d). split; [|done].
  assert (mem_get c offset (k + len d) = mem_get c offset k ++ d) as Eapp.
  { rewrite <- mem_get_app_adj by lia. f_equal. apply mem_get_own_len. }
  split_and!.
  - rewrite mem_put_len; lia.
  - lia.
  - lia.
  - rewrite Eapp, <- Ht. unfold mem_put. rewrite !Z2Nat.inj_add by lia. rewrite app_assoc.
    apply take_app_length'. rewrite length_app, length_take. unfold len in *. lia.
  - rewrite Eapp, len_app. lia.
  - unfold mem_put. rewrite app_assoc. rewrite drop_app_length'.
    + rewrite Z2Nat.inj_add, <- drop_drop, Hd, drop_drop by lia. f_equal.
    + rewrite length_app, length_take. unfold len in *. lia.
Qed.

Lemma mem_get_short (b : bytes) a n : 0 ≤ a → len (mem_get b a n) < n → len b ≤ a + len (mem_get b a n).
Proof using. clear. unfold mem_get, len. rewrite length_take, length_drop. lia. Qed.

(** Every request of a batch is one the plan allows. *)
Lemma frag_read_of rem off :
  0 < rem → in_u64 off → ReadOf plan fh (read_send fh (frag_flags plan rem) off (frag_len plan rem)) off (frag_len plan rem).
Proof using Hplan.
  intros Hr Ho. pose proof (frag_bounds rem Hr). split; [done|]. split; [lia|].
  unfold frag_flags, frag_len, is_bulk in *. destruct (Z.leb_spec (bulk_threshold plan) rem); [left|right]; (split; [done|lia]).
Qed.

Lemma batch_reads count total batch_off :
  0 ≤ batch_off → offset + total ≤ u64_max →
  Forall (λ rq, ∃ off n, ReadOf plan fh rq off n) (batch_reqs plan fh offset count total batch_off).*1 ∧
  (length (batch_reqs plan fh offset count total batch_off).*1 ≤ count)%nat.
Proof using Hoff Hplan.
  revert batch_off. induction count as [|count IH]; intros off Ho Ht; cbn [batch_reqs]; [by split; [constructor|]|].
  destruct (Z.leb_spec total off); [split; [constructor|cbn; lia]|]. pose proof (frag_bounds (total - off) ltac:(lia)).
  rewrite (proj2 (Z.eqb_neq (frag_len _ _) 0)) by lia. cbn [fmap list_fmap fst length].
  destruct (IH (off + frag_len plan (total - off)) ltac:(lia) Ht) as [Hf Hl]. split; [|cbn; lia].
  constructor; [|done]. eexists _, _. apply frag_read_of; [lia|]. unfold in_u64. lia.
Qed.

Lemma copy_batch_ok seg count buf0 buf filled done rs :
  ReadTo buf0 buf (filled + done) → offset + len buf0 ≤ u64_max →
  let reqs := batch_reqs plan fh offset count (len buf0) (filled + done) in
  Forall2 (Answered plan fh c seg) reqs.*1 rs →
  ∃ buf' got eof err, copy_batch seg (zip rs reqs.*2) buf filled done = (buf', got, eof, err) ∧
    done ≤ got ∧ ReadTo buf0 buf' (filled + got) ∧
    (err = None → eof = true → Forall2 (AnsweredWhole plan fh c seg) reqs.*1 rs → len c ≤ offset + (filled + got)) ∧
    (err = None → eof = false → reqs ≠ [] → done < got) ∧
    (∀ e, err = Some e → ∃ r, r ∈ rs ∧ r.1 = e ∧ e ≠ ST_OK).
Proof using Hoff Hplan.
  revert buf done rs. induction count as [|count IH]; intros buf done rs HR Hu reqs Ha.
  { apply Forall2_nil_inv_l in Ha as ->. exists buf, done, false, None. by split_and!. }
  unfold reqs in *. clear reqs. cbn [batch_reqs] in *. destruct (Z.leb_spec (len buf0) (filled + done)).
  { apply Forall2_nil_inv_l in Ha as ->. exists buf, done, false, None. by split_and!. }
  set (rem := len buf0 - (filled + done)) in *. pose proof (frag_bounds rem ltac:(lia)) as [Hf H31].
  rewrite (proj2 (Z.eqb_neq (frag_len plan rem) 0)) in * by lia. set (want := frag_len plan rem) in *.
  cbn [fmap list_fmap fst snd] in *.
  apply Forall2_cons_inv_l in Ha as (resp & rs' & Hresp & Hrs & ->). cbn [zip zip_with copy_batch].
  pose proof HR as (Hlb & Hk & _).
  destruct (decide (resp.1 = ST_OK)) as [Hok|Hbad].
  - pose proof (frag_read_of rem (offset + (filled + done)) ltac:(lia) ltac:(unfold in_u64; lia)) as Hro.
    destruct (Hresp _ _ Hro Hok) as (m & Hm & Hcar). fold want in Hm, Hro. set (d := mem_get c (offset + (filled + done)) m) in *.
    destruct (ReadTo_put buf0 buf (filled + done) d m HR eq_refl ltac:(lia) ltac:(lia)) as [HR' Hdm]. assert (len d ≤ want) as Hdw by lia.
    assert (len (mem_get buf (filled + done) want) = want) as Hgl by (apply mem_get_len; lia).
    rewrite (copy_frag_ok seg resp d) by (done || lia). rewrite put_prefix by lia. pose proof (len_nonneg d) as Hd0.
    destruct (Z.ltb_spec (len d) want) as [Hsh|Hfull].
    + exists (mem_put buf (filled + done) d), (done + len d), true, None. split; [done|].
      rewrite <- Z.add_assoc in HR'. split_and!; try done; try lia.
      intros _ _ Hwh. apply Forall2_cons_1 in Hwh as [Hw _]. specialize (Hw _ _ Hro Hok). set (d' := mem_get c (offset + (filled + done)) want) in *.
      assert (len d' ≤ want) by (unfold d', mem_get, len; rewrite length_take; lia).
      pose proof (copy_frag_ok seg resp d' (mem_get buf (filled + done) want) Hok Hw ltac:(lia) ltac:(lia)) as E1.
      rewrite (copy_frag_ok seg resp d (mem_get buf (filled + done) want) Hok Hcar ltac:(lia) ltac:(lia)) in E1. injection E1 as E1 _.
      pose proof (mem_get_short c (offset + (filled + done)) want ltac:(lia)) as Hend. fold d' in Hend. lia.
    + assert (len d = want) as Ed by lia. rewrite Ed in *. rewrite <- Z.add_assoc in HR'.
      rewrite <- Z.add_assoc in Hrs.
      destruct (IH (mem_put buf (filled + done) d) (done + want) rs' HR' Hu Hrs) as (buf' & got & eof & err & E & Hg & HR2 & He1 & He2 & He3).
      rewrite <- Z.add_assoc, E. exists buf', got, eof, err. split_and!; try done; [lia|intros He Heof Hwh; apply He1; [done|done|by apply Forall2_cons_1 in Hwh as [_ ?]]|intros; lia|].
      intros e He. destruct (He3 e He) as (r & ? & ?). exists r. split; [by right|done].
  - assert (copy_frag seg resp (mem_get buf (filled + done) want) = Err resp.1) as ->.
    { unfold copy_frag. rewrite (proj2 (Z.eqb_neq _ _)) by done. done. }
    exists buf, done, false, (Some resp.1). split_and!; try done. intros e [= <-]. exists resp. split; [by left|done].
Qed.

Context {W : Type} (L : Link W) (I : W → Prop) `{HL : !FileLink L plan fh c I}.

(** An error the director answered one of the requests with. *)
Definition told (e : Z) : Prop :=
  ∃ reqs w rs held r, I w ∧ Batch plan fh (lk_slots L) reqs ∧ (lk_submit_many L reqs w).1 = Ok (rs, held) ∧ r ∈ rs ∧ r.1 = e ∧ e ≠ ST_OK.

(** Neither the gate nor the ring nor the director gives up. *)
Definition responsive : Prop :=
  (∀ n w, I w → is_Some (lk_acquire L n w).1) ∧
  (∀ reqs w, I w → Batch plan fh (lk_slots L) reqs → ∃ rs held, (lk_submit_many L reqs w).1 = Ok (rs, held) ∧ Forall (λ r, r.1 = ST_OK) rs).

(** How a read may end. *)
Definition ReadEnd (buf0 : bytes) (r : result Z Z) (buf : bytes) : Prop :=
  len buf = len buf0 ∧
  match r with
  | Ok k => ReadTo buf0 buf k ∧ (whole_replies L plan fh c I → k < len buf0 → len c ≤ offset + k)
  | Err e => ¬ responsive ∧ (e = ST_IO_ERROR ∨ told e)
  end.

Lemma batch_nonempty count total batch_off :
  0 ≤ batch_off < total → batch_reqs plan fh offset (S count) total batch_off ≠ [].
Proof using Hplan.
  intros Hb. cbn [batch_reqs]. rewrite (proj2 (Z.leb_gt _ _)) by lia.
  pose proof (frag_bounds (total - batch_off) ltac:(lia)). by rewrite (proj2 (Z.eqb_neq (frag_len _ _) 0)) by lia.
Qed.

Lemma frag_loop fuel depth buf0 buf filled w :
  I w → ReadTo buf0 buf filled → len buf0 - filled ≤ Z.of_nat fuel →
  depth ≤ Z.max (lk_slots L) 1 → offset + len buf0 ≤ u64_max →
  let out := read_loop L plan fh offset fuel depth filled buf w in I out.2 ∧ ReadEnd buf0 out.1.1 out.1.2.
Proof using Hoff Hplan HL.
  revert buf filled w. induction fuel as [|fuel IH]; intros buf filled w HI HR Hf Hdep Hu; cbn [read_loop];
    pose proof HR as (Hlb & Hk & _); rewrite Hlb.
  { rewrite (proj2 (Z.leb_le _ _)) by lia. split; [done|]. split; [done|]. split; [done|]. cbn. lia. }
  destruct (Z.leb_spec (len buf0) filled); [split; [done|]; split; [done|]; split; [done|]; cbn; lia|].
  pose proof (fl_acquire (batch_want plan depth (len buf0 - filled)) w HI) as HI1.
  pose proof (fl_permits (batch_want plan depth (len buf0 - filled)) w) as HP.
  destruct (lk_acquire L _ w) as [[permits|] w1] eqn:Ea; cbn [snd] in HI1.
  2:{ split; [done|]. split; [done|]. split; [|by left]. intros [Hr _]. destruct (Hr (batch_want plan depth (len buf0 - filled)) w HI) as [? Hx]. by rewrite Ea in Hx. }
  specialize (HP permits HI eq_refl). assert (permits ≤ depth) as Hpd by (unfold batch_want in HP; lia).
  assert (∃ n, Z.to_nat (Z.max permits 1) = S n) as [n En] by (exists (pred (Z.to_nat (Z.max permits 1))); lia).
  rewrite En.
  set (reqs := batch_reqs plan fh offset (S n) (len buf0) filled).
  assert (reqs ≠ []) as Hne by (apply batch_nonempty; lia). rewrite bool_decide_false by done.
  assert (Batch plan fh (lk_slots L) reqs.*1) as HB.
  { destruct (batch_reads (S n) (len buf0) filled) as [Hall Hlen]; [lia|done|]. split; [done|]. fold reqs in Hlen. lia. }
  pose proof (fl_submit reqs.*1 w1 HI1 HB) as HI2. pose proof (λ rs held, fl_answers reqs.*1 w1 rs held HI1 HB) as HA.
  destruct (lk_submit_many L reqs.*1 w1) as [[[rs held]|u] w2] eqn:Es; cbn [fst snd] in HI2, HA.
  2:{ split; [by apply fl_drop, fl_retire|]. split; [done|]. split; [|by left].
      intros [_ Hr]. destruct (Hr reqs.*1 w1 HI1 HB) as (? & ? & Hx & _). by rewrite Es in Hx. }
  specialize (HA rs held eq_refl).
  destruct (copy_batch_ok (lk_seg L w2) (S n) buf0 buf filled 0 rs) as (buf' & got & eof & err & E & Hg & HR2 & He1 & He2 & He3);
    [by rewrite Z.add_0_r|done|by rewrite Z.add_0_r|].
  rewrite Z.add_0_r in E, He2. fold reqs in E, He2. rewrite E.
  assert (I (lk_drop L (lk_release L held w2))) as HI3 by (apply fl_drop; by apply fl_release).
  destruct err as [e|].
  { split; [done|]. destruct HR2 as (? & _). split; [done|]. destruct (He3 e eq_refl) as (r & Hr & Hre & Hne').
    split; [|right; exists reqs.*1, w1, rs, held, r; by rewrite Es].
    intros [_ Hre']. destruct (Hre' reqs.*1 w1 HI1 HB) as (rs' & held' & Hx & Hall). rewrite Es in Hx. injection Hx as <- <-.
    by eapply Forall_forall in Hall; [|exact Hr]; congruence. }
  destruct eof; cbn [orb].
  { split; [done|]. pose proof HR2 as (? & _). split; [done|]. split; [done|]. intros Hwh _. apply He1; [done|done|]. specialize (Hwh reqs.*1 w1 rs held HI1 HB). rewrite Es in Hwh. rewrite Z.add_0_r. by apply Hwh. }
  rewrite (proj2 (Z.eqb_neq got 0)) by (specialize (He2 eq_refl eq_refl Hne); lia).
  apply IH; [done|done| |done|done]. specialize (He2 eq_refl eq_refl Hne). lia.
Qed.

Lemma read_ends buf w :
  I w → offset + len buf ≤ u64_max →
  let out := read_fragmented L plan fh offset buf w in I out.2 ∧ ReadEnd buf out.1.1 out.1.2.
Proof using Hoff Hplan HL.
  intros HI Hu. cbv zeta. pose proof (len_nonneg buf).
  assert (ReadTo buf buf 0) as HR by (unfold ReadTo; rewrite !drop_0; unfold mem_get; cbn; by split_and!; try lia).
  unfold read_fragmented. destruct (Z.eqb_spec (len buf) 0) as [Hz|Hz].
  { split; [done|]. split; [done|]. split; [done|]. cbn. lia. }
  apply frag_loop; [done|done|unfold len; lia|unfold pipeline_depth; lia|done].
Qed.

(** The bytes a finished read has: the file's from the offset on, and all there
    are, as far as the buffer goes, if it went to the end. *)
Lemma ReadTo_exact buf0 buf k :
  ReadTo buf0 buf k →
  0 ≤ k ≤ Z.max 0 (Z.min (len buf0) (len c - offset)) ∧ buf = mem_get c offset k ++ drop (Z.to_nat k) buf0 ∧
  ((k < len buf0 → len c ≤ offset + k) → k = Z.max 0 (Z.min (len buf0) (len c - offset))).
Proof using Hoff.
  intros (Hlb & Hk & Ht & Hm & Hd).
  assert (k ≤ Z.max 0 (len c - offset)) by (rewrite <- Hm; unfold mem_get, len; rewrite length_take, length_drop; lia).
  split; [lia|]. split; [|lia]. rewrite <- Ht, <- Hd. by rewrite take_drop.
Qed.

(** C15: a read in pieces is one read: whatever the plan, however many
    permits each batch is granted, in whichever way each piece comes back and
    however short, a read that succeeds has the file's bytes from the offset
    on, as many as it says, and leaves the rest of the buffer alone; it has all
    that the buffer holds or the file has if the director never answers a
    request with less than there is. It fails only if the gate or the ring gave
    up or with an error the director answered, so with a responsive ring it
    succeeds. *)
Theorem read_fragmented_exact buf w :
  I w → offset + len buf ≤ u64_max →
  let out := read_fragmented L plan fh offset buf w in
  I out.2 ∧ len out.1.2 = len buf ∧
  match out.1.1 with
  | Ok k => 0 ≤ k ≤ Z.max 0 (Z.min (len buf) (len c - offset)) ∧
      out.1.2 = mem_get c offset k ++ drop (Z.to_nat k) buf ∧
      (whole_replies L plan fh c I → k = Z.max 0 (Z.min (len buf) (len c - offset)))
  | Err e => ¬ responsive ∧ (e = ST_IO_ERROR ∨ told e)
  end.
Proof using Hoff Hplan HL.
  intros HI Hu. destruct (read_ends buf w HI Hu) as (HI' & Hl & HE). split; [done|]. split; [done|].
  destruct (read_fragmented _ _ _ _ _ _) as [[[k|e] b] w']; cbn [fst snd] in *; [|done].
  destruct HE as [HR Hend]. apply ReadTo_exact in HR as (H1 & H2 & H3). split; [done|]. split; [done|]. auto.
Qed.
End exact.
