(* ===== verification/FuseClient.v ===== *)
(** FuseClient: the client a game process talks to the director with
    (rust/crates/vfs-shim/src/director.rs): one method per operation over the
    ring, the names it remembers, and how a path of the program becomes a root
    and a path under it.

    The ring and the gate are the [Link] of ReadFrag; the operating system's
    short-name lookup of the root map is a function, as in RootMap. Opening the
    shared mapping and the wake-up event is not modelled. *)

From S2P Require Import Prelude Text Path FinalName Wire Protocol Seg Ring Provider ComposePath Dispatch Canon RootMap ReadFrag.


(** ** Text *)

(** [char::is_whitespace]. *)
Definition is_whitespace (c : char) : bool :=
  ((9 <=? c) && (c <=? 13)) || (c =? 32) || (c =? 0x85) || (c =? 0xA0) || (c =? 0x1680) ||
  ((0x2000 <=? c) && (c <=? 0x200A)) || (c =? 0x2028) || (c =? 0x2029) || (c =? 0x202F) || (c =? 0x205F) || (c =? 0x3000).

Fixpoint trim_ws_start (s : str) : str :=
  match s with
  | c :: s' => if is_whitespace c then trim_ws_start s' else s
  | [] => []
  end.

(** [str::trim]. *)
Definition trim (s : str) : str := rev (trim_ws_start (rev (trim_ws_start s))).

(** [str::parse::<u32>]: a [+] is allowed, an empty number and one too large
    are not. *)
Fixpoint parse_digits (acc : Z) (s : str) : option Z :=
  match s with
  | [] => Some acc
  | c :: s =>
      if (48 <=? c) && (c <=? 57) then
        let acc := acc * 10 + (c - 48) in
        if acc <? u32_max then parse_digits acc s else None
      else None
  end.
Definition parse_u32 (s : str) : option Z :=
  let s := match s with c :: s' => if c =? 43 then s' else s | [] => s end in
  if bool_decide (s = []) then None else parse_digits 0 s.

Definition semicolon : char := 59.
Definition equals : char := 61.

(** ** Configuration *)

Inductive RingSource :=
  | Section_ (name : str)
  | File (path : str).

Definition ring_source (ring_path section : option str) : option RingSource :=
  match (match ring_path with Some p => if bool_decide (p = []) then None else Some p | None => None end) with
  | Some path => Some (File path)
  | None => Section_ <$> section
  end.

Definition strip_nt_device (p : str) : str :=
  match strip_prefix [92; 63; 63; 92] p with
  | Some r => r
  | None => match strip_prefix [92; 92; 63; 92] p with Some r => r | None => p end
  end.

Definition normalize_path_for_root (p : str) : str :=
  ascii_lower <$> ((λ c, if c =? slash then backslash else c) <$> strip_nt_device p).

(** [out.iter_mut().find(..)]: replace the root's path, or add the root. *)
Fixpoint put_root (id : Z) (path : str) (out : list (Z * str)) : list (Z * str) :=
  match out with
  | [] => [(id, path)]
  | (r, p) :: out => if r =? id then (r, path) :: out else (r, p) :: put_root id path out
  end.

(** One entry of [id=path;id=path]. *)
Definition root_entry (entry : str) : option (Z * str) :=
  '(id, path) ← split_once equals (trim entry);
  id ← parse_u32 (trim id);
  let path := trim path in
  if bool_decide (path = []) then None else Some (id, path).

Definition merge_extra_roots (virtual_dir : str) (spec : option str) : list (Z * str) :=
  let out := [(0, virtual_dir)] in
  match spec with
  | None => out
  | Some extra =>
      foldl (λ out entry, match root_entry entry with Some (id, path) => put_root id path out | None => out end)
        out (split_on (λ c, c =? semicolon) extra)
  end.

Definition parse_backings (spec : option str) : list (Z * str) :=
  omap (λ entry, prod_map id normalize_path_for_root <$> root_entry entry)
    (split_on (λ c, c =? semicolon) (default [] spec)).

(** ** Requests *)

Definition FC_BULK_THRESHOLD : Z := 64 * 1024.
Definition PIPELINE_DEPTH : Z := 4.
Definition PIPELINE_DEPTH_STREAM : Z := 8.
Definition STREAM_BYTES : Z := 4 * 1024 * 1024.
Definition NAME_TTL_MS : Z := 2000.
Definition NAME_CACHE_ENTRIES : Z := 8192.
Definition usize_max : Z := 2 ^ 64 - 1.

(** What does not change after [connect]. *)
Record FuseClient := mkFuse {
  fc_slot_count : Z;
  fc_payload_cap : Z;
  fc_roots : RootMap;
  fc_declared : list (Z * str);
  fc_arena_len : Z }.

Section requests.
Context {W : Type} (L : Link W) (fc : FuseClient).

(** [submit(..).map_err(ST_IO_ERROR)?] and the test of the status. *)
Definition checked {E} (r : result E (Z * bytes)) : result Z bytes :=
  match r with
  | Ok (st, p) => if st =? ST_OK then Ok p else Err st
  | Err _ => Err ST_IO_ERROR
  end.
Definition fc_submit (op : Z) (payload : bytes) : PM W bytes :=
  λ w, let '(r, w) := lk_submit L (mkSend op 0 payload) w in (checked r, w).
Definition fc_submit_data (op : Z) (payload : bytes) : PM W bytes :=
  λ w, let '(r, w) := submit_data L (mkSend op 0 payload) w in (checked r, w).
Definition decoded {A} (e : Z) (x : option A) : PM W A := match x with Some a => mret a | None => pm_err e end.

Definition fc_getattr (root : Z) (vpath : str) : PM W AttrResp :=
  p ← fc_submit OP_GETATTR (encode_path_req root vpath); decoded ST_BAD_REQUEST (decode_getattr_resp p).
Definition fc_readdir (root : Z) (vpath : str) : PM W (list DirEntryWire) :=
  p ← fc_submit OP_READDIR (encode_path_req root vpath); decoded ST_BAD_REQUEST (decode_readdir_resp p).
Definition fc_open (root : Z) (vpath : str) : PM W OpenResp :=
  p ← fc_submit OP_OPEN (encode_open_req root OPEN_READ vpath); decoded ST_BAD_REQUEST (decode_open_resp p).
Definition fc_open_write (root : Z) (vpath : str) (create_flags : Z) : PM W OpenResp :=
  p ← fc_submit_data OP_OPEN (encode_open_req root (Z.lor OPEN_WRITE create_flags) vpath);
  decoded ST_BAD_REQUEST (decode_open_resp p).

(** [while written < data.len()]: each round but the last writes a byte. *)
Fixpoint write_loop (fuel : nat) (fh offset chunk : Z) (data : bytes) (written : Z) : PM W Z :=
  if len data <=? written then mret written else
  match fuel with
  | O => mret written
  | S fuel =>
      let end_ := Z.min (written + chunk) (len data) in
      let piece := mem_get data written (end_ - written) in
      p ← fc_submit_data OP_WRITE
            (encode_write_req {| wr_fh := fh; wr_offset := offset + written; wr_len := as_u32 (len piece) |} piece);
      n ← decoded ST_BAD_REQUEST (decode_write_resp p);
      if n <? len piece then mret (written + n) else write_loop fuel fh offset chunk data (written + n)
  end.
Definition fc_write (fh offset : Z) (data : bytes) : PM W Z :=
  if len data =? 0 then mret 0 else
  write_loop (length data) fh offset (Z.max (sat_sub (fc_payload_cap fc) 24) 1) data 0.

Definition bulk_bank_bytes : Z :=
  if fc_arena_len fc =? 0 then sat_sub (fc_payload_cap fc) 8 else
  Z.min (Z.max (fc_arena_len fc / Z.max (fc_slot_count fc) 1) (256 * 1024)) (1024 * 1024).

Definition fc_plan : ReadPlan :=
  mkPlan (if 0 <? fc_arena_len fc then FC_BULK_THRESHOLD else usize_max) bulk_bank_bytes
    (sat_sub (fc_payload_cap fc) 8) PIPELINE_DEPTH PIPELINE_DEPTH_STREAM STREAM_BYTES.
Definition fc_read_fragmented (fh offset : Z) (buf : bytes) (w : W) : (result Z Z * bytes) * W :=
  read_fragmented L fc_plan fh offset buf w.

Definition done_ok (m : PM W bytes) : PM W unit := _ ← m; mret ().

Definition fc_delete (root : Z) (vpath : str) : PM W unit := done_ok (fc_submit OP_DELETE (encode_path_req root vpath)).
Definition fc_rename (root : Z) (from to : str) : PM W unit :=
  done_ok (fc_submit OP_RENAME (encode_rename_req root from to)).
Definition fc_rename_across (from_root : Z) (from : str) (to_root : Z) (to : str) : PM W unit :=
  done_ok (fc_submit OP_RENAME_X (encode_rename_x_req from_root from to_root to)).
Definition fc_stage_exec (root : Z) (vpath : str) : PM W str :=
  p ← fc_submit OP_STAGE_EXEC (encode_path_req root vpath); decoded ST_IO_ERROR (from_utf8 p).
Definition fc_mkdir (root : Z) (vpath : str) (mode : Z) : PM W unit :=
  done_ok (fc_submit OP_MKDIR (encode_mkdir_req root mode vpath)).
Definition fc_truncate (fh size : Z) : PM W unit :=
  done_ok (fc_submit_data OP_SETATTR (encode_setattr_req {| sr_fh := fh; sr_size := size |})).
Definition fc_close (fh : Z) : PM W unit := done_ok (fc_submit OP_CLOSE (encode_close_req fh)).
Definition fc_reg_request (opcode : Z) (payload : bytes) : PM W bytes := fc_submit opcode payload.
Definition fc_heartbeat : PM W unit := done_ok (fc_submit OP_HEARTBEAT []).
End requests.

(** ** Names *)

(** What the client keeps between calls: the spellings it was told (and
    whether that table's lock is poisoned), and the root map's cache. *)
Record FcState (W : Type) := mkFcState {
  fc_names : NameCache;
  fc_names_poisoned : bool;
  fc_paths : PathCache;
  fc_world : W }.
Arguments mkFcState {W}.
Arguments fc_names {W}.
Arguments fc_names_poisoned {W}.
Arguments fc_paths {W}.
Arguments fc_world {W}.

Section names.
Context {CT : CaseTable} {W : Type} (L : Link W) (fc : FuseClient).
(** The operating system's expansion of a short name, and the counters of the
    root map's two guards on this thread. *)
Context (os : str → str → option str) (os_depth suppress : Z).

Definition fc_resolve (path : str) (s : FcState W) : option RootHit * FcState W :=
let '(r, c) := under_root (fc_roots fc) os os_depth suppress path (fc_paths s) in
(r, mkFcState (fc_names s) (fc_names_poisoned s) c (fc_world s)).

Definition fc_stored_names (now root : Z) (under : list str) (s : FcState W) : list str * FcState W :=
let known := if fc_names_poisoned s then [] else leading (fc_names s) root under now in
if (length known =? length under)%nat then (known, s) else
let '(r, w) := lk_submit L (mkSend OP_STORED_NAMES 0
                 (encode_names_req root (as_u32 (len known)) (join slash under))) (fc_world s) in
let asked := match r with Ok (st, p) => if st =? ST_OK then decode_names_resp p else None | Err _ => None end in
let s := mkFcState (fc_names s) (fc_names_poisoned s) (fc_paths s) w in
match asked with
| None => (known, s)
| Some rest =>
    if negb (length rest =? length under - length known)%nat then (known, s) else
    let names := if fc_names_poisoned s then fc_names s else remember (fc_names s) root under (length known) rest now in
    (known ++ rest, mkFcState names (fc_names_poisoned s) (fc_paths s) w)
end.

Definition fc_final_path (now : Z) (nt_path : str) (s : FcState W) : option str * FcState W :=
let '(path, stream) := split_stream_suffix nt_path in
match fc_resolve path s with
| (None, s) => (None, s)
| (Some (root, under), s) =>
    let spellings := snd <$> filter (λ x, x.1 = root) (fc_declared fc) in
    let '(stored, s) := fc_stored_names now root under s in
    (Some (final_dos_path path under spellings (λ i, stored !! i) ++ default [] stream), s)
end.

Definition fc_names_changed (root : Z) (vpath : str) (s : FcState W) : FcState W :=
if fc_names_poisoned s then s
else mkFcState (forget (fc_names s) root vpath) (fc_names_poisoned s) (fc_paths s) (fc_world s).

(** ** Routing *)

Definition fc_vpath_under_root (path : str) (s : FcState W) : option (Z * str) * FcState W :=
let stream := (split_stream_suffix path).2 in
match fc_resolve path s with
| (None, s) => (None, s)
| (Some (root, comps), s) =>
    (Some (root, join slash comps ++ match stream with Some st => fold st | None => [] end), s)
end.

Definition fc_vpath_as_spelled (path : str) (s : FcState W) : option (Z * str) * FcState W :=
match fc_vpath_under_root path s with
| (None, s) => (None, s)
| (Some (root, folded), s) =>
    let '(plain, stream) := split_stream_suffix path in
    match stream with
    | Some _ => (Some (root, folded), s)
    | None =>
        match fc_resolve plain s with
        | (None, s) => (None, s)
        | (Some (_, under), s) =>
            match opened_tail plain under with
            | Some tail => (Some (root, join slash tail), s)
            | None => (Some (root, folded), s)
            end
        end
    end
end.

Definition wire_vpath (vpath : str) : str := if bool_decide (vpath = []) then dot else vpath.
Definition fc_route (path : str) (s : FcState W) : option (Z * str) * FcState W :=
let '(r, s) := fc_vpath_under_root path s in (prod_map id wire_vpath <$> r, s).
Definition fc_route_as_spelled (path : str) (s : FcState W) : option (Z * str) * FcState W :=
let '(r, s) := fc_vpath_as_spelled path s in (prod_map id wire_vpath <$> r, s).
End names.

(** The client's routing, its remembered names and its declared
    roots. *)


Section route.
Context {CT : CaseTable} {W : Type} (L : Link W) (fc : FuseClient).
Context (os : str → str → option str) (os_depth suppress : Z).

Lemma under_root_again m path c :
let out := under_root m os os_depth suppress path c in
(under_root m os os_depth suppress path out.2).1 = out.1.
Proof using.
unfold under_root, cache_get. destruct (cache_suppressed suppress); cbv zeta.
- by destruct (compute_under_root _ _ _ _) eqn:E.
- destruct (pc_map c !! path) as [r|] eqn:Hc; cbn [fst snd]; [by rewrite Hc|].
  destruct (compute_under_root _ _ _ _) as [r|r] eqn:E; cbn [fst snd]; [|by rewrite Hc].
  unfold cache_insert. rewrite Hc, bool_decide_false by (by intros [? ?]). cbn [pc_map]. by rewrite lookup_insert_eq.
Qed.

Lemma fc_resolve_again path (s : FcState W) :
let out := fc_resolve fc os os_depth suppress path s in
(fc_resolve fc os os_depth suppress path out.2).1 = out.1.
Proof using.
unfold fc_resolve. pose proof (under_root_again (fc_roots fc) path (fc_paths s)) as H. cbv zeta in *.
destruct (under_root _ _ _ _ path (fc_paths s)) as [r c]. cbn [fst snd fc_paths] in *.
destruct (under_root _ _ _ _ path c) as [r' c']. exact H.
Qed.

Lemma opened_tail_folds opened us tail : opened_tail opened us = Some tail → fold <$> tail = us.
Proof using.
intros H. pose proof (opened_tail_fold opened us tail) as Hf. apply list_eq. intros j. rewrite list_lookup_fmap.
assert (length tail = length us) as Hl.
{ unfold opened_tail in H. destruct (Z.ltb_spec (len (components opened)) (len us)); [done|].
  destruct (zip_folds_to _ _); [|done]. injection H as <-. rewrite length_drop. unfold len in *. lia. }
destruct (us !! j) as [u|] eqn:Hu.
- destruct (Hf j u H Hu) as (x & -> & <-). done.
- rewrite lookup_ge_None_2; [done|]. apply lookup_ge_None in Hu. lia.
Qed.

End route.

(** A stream suffix that is absent leaves the path alone. *)
Lemma split_once_prefix x s a b : split_once x s = Some (a, b) → a `prefix_of` s.
Proof.
  revert a b. induction s as [|c s IH]; intros a b; cbn [split_once]; [done|]. destruct (c =? x); [intros [= <- <-]; apply prefix_nil|].
  destruct (split_once x s) as [[a' b']|]; [|done]. intros [= <- <-]. apply prefix_cons. by eapply IH.
Qed.

Lemma comp_base_prefix s : comp_base s `prefix_of` s.
Proof.
  assert (∀ s, match split_once colon s with Some (a, _) => a | None => s end `prefix_of` s) as Hcut.
  { intros t. destruct (split_once colon t) as [[a b]|] eqn:E; [by eapply split_once_prefix|done]. }
  unfold comp_base. destruct s as [|x [|y rest]]; try apply Hcut. destruct (_ && _); [|apply Hcut].
  do 2 apply prefix_cons. apply Hcut.
Qed.

Lemma strip_stream_prefix s : strip_stream_suffix s `prefix_of` s.
Proof.
  unfold strip_stream_suffix. pose proof (rsplit_sep_spec s) as H. destruct (rsplit_sep s) as [dir comp]. cbn in H.
  destruct H as (-> & _). apply prefix_app, comp_base_prefix.
Qed.

Lemma split_stream_none path base : split_stream_suffix path = (base, None) → base = path.
Proof.
  unfold split_stream_suffix. destruct (Z.eqb_spec (str_len (strip_stream_suffix path)) (str_len path)) as [E|]; [|done].
  intros [= <-]. destruct (strip_stream_prefix path) as [k Hk]. revert E. rewrite Hk at 2. unfold str_len, utf8.
  rewrite flat_map_app, len_app. destruct k as [|x k]; [by rewrite app_nil_r in Hk|]. cbn [flat_map]. rewrite len_app.
  pose proof (utf8_char_pos x). pose proof (len_nonneg (flat_map utf8_char k)). lia.
Qed.

Section client.
Context {CT : CaseTable} {W : Type} (L : Link W) (fc : FuseClient).
Context (os : str → str → option str) (os_depth suppress : Z).

(** Property: a request that creates a name and every other request about the
  same path go to the same place: the path as the program spelled it has the
  same root as the folded one, and folds to it (or is it, where the spelling
  cannot be read off the path or the path names a stream). *)
Theorem spelled_route_same path (s : FcState W) :
match (fc_vpath_under_root fc os os_depth suppress path s).1 with
| None => (fc_vpath_as_spelled fc os os_depth suppress path s).1 = None
| Some (root, v) => ∃ v', (fc_vpath_as_spelled fc os os_depth suppress path s).1 = Some (root, v') ∧ (v' = v ∨ fold v' = v)
end.
Proof using.
unfold fc_vpath_as_spelled, fc_vpath_under_root. pose proof (fc_resolve_again fc os os_depth suppress path s) as Hag. cbv zeta in Hag.
destruct (fc_resolve fc os os_depth suppress path s) as [[[root comps]|] s1]; cbn [fst snd] in *; [|done].
destruct (split_stream_suffix path) as [plain [st|]] eqn:Es; cbn [fst snd]; [eexists; split; [done|by left]|].
rewrite (split_stream_none path plain Es), app_nil_r.
destruct (fc_resolve fc os os_depth suppress path s1) as [r s2]. cbn [fst] in Hag. subst r.
destruct (opened_tail path comps) as [tail|] eqn:Et; cbn [fst]; eexists; (split; [done|]); [right|by left].
by rewrite fold_join, (opened_tail_folds path comps tail Et) by auto with vfs.
Qed.

(** What a client that remembers nothing of a path is told is remembered: asked
  again while it is fresh, it answers the same without the ring. *)
Lemma stored_names_warm now later root under (s : FcState W) ns s1 pa w :
leading (fc_names s) root under now = [] → fc_names_poisoned s = false →
fc_stored_names L now root under s = (ns, s1) → length ns = length under → Forall comp_ok under →
0 ≤ now ≤ later → later - now < ttl_ms (fc_names s) →
let s2 := mkFcState (fc_names s1) (fc_names_poisoned s1) pa w in
fc_stored_names L later root under s2 = (ns, s2).
Proof using.
intros Hcold Hp E Hl Hc Hn Ht s2. unfold fc_stored_names in E. rewrite Hp, Hcold in E. cbn [length app] in E.
destruct under as [|u us].
{ destruct ns; [|done]. unfold fc_stored_names. by destruct (fc_names_poisoned s2). }
cbn [Nat.eqb length] in E. destruct (lk_submit L _ _) as [r w1].
destruct (match r with Ok (st, p) => _ | Err _ => _ end) as [rest|]; [|injection E as <- _; done].
rewrite Nat.sub_0_r in E. destruct (Nat.eqb_spec (length rest) (S (length us))) as [Er|Er]; cbn [negb] in E; [|injection E as <- _; done].
cbn [fc_names_poisoned] in E. injection E as <- <-.
destruct (name_cache_remember (fc_names s) root (u :: us) rest now later Hc Hl Hn Ht) as [Hw _].
unfold fc_stored_names, s2. cbn [fc_names fc_names_poisoned fc_paths fc_world] in *.
rewrite Hw, Hl, Nat.eqb_refl. done.
Qed.

(** ** Declared roots *)

Lemma put_root_ids id path out :
(put_root id path out).*1 = if bool_decide (id ∈ out.*1) then out.*1 else out.*1 ++ [id].
Proof using.
induction out as [|[r p] out IH]; [done|]. cbn [put_root]. destruct (Z.eqb_spec r id) as [->|Hne].
- rewrite bool_decide_true by left. done.
- cbn [fmap list_fmap fst]. rewrite IH. destruct (decide (id ∈ out.*1)) as [Hi|Hi].
  + rewrite !bool_decide_true by (by right || done). done.
  + rewrite !bool_decide_false; [done| |done]. intros [?|?]%elem_of_cons; [congruence|done].
Qed.

(** Property: whatever the configuration says, the declared roots begin with
  root 0 and no root is declared twice. *)
Theorem declared_roots_distinct dir spec :
∃ path rest, merge_extra_roots dir spec = (0, path) :: rest ∧ NoDup (merge_extra_roots dir spec).*1.
Proof using.
assert (∀ es out, (∃ path rest, out = (0, path) :: rest) → NoDup out.*1 →
  let out' := foldl (λ out entry, match root_entry entry with Some (id, path) => put_root id path out | None => out end) out es in
  (∃ path rest, out' = (0, path) :: rest) ∧ NoDup out'.*1) as H.
{ induction es as [|e es IH]; intros out Hh Hd; [done|]. cbn [foldl]. apply IH.
  - destruct (root_entry e) as [[id path]|]; [|done]. destruct Hh as (p & rest & ->). cbn [put_root].
    destruct (0 =? id); eauto.
  - destruct (root_entry e) as [[id path]|]; [|done]. rewrite put_root_ids. case_bool_decide; [done|].
    apply NoDup_app. split_and!; [done| |apply NoDup_singleton]. intros x Hx ->%list_elem_of_singleton. done. }
unfold merge_extra_roots. destruct spec as [extra|].
- destruct (H (split_on (λ c, c =? semicolon) extra) [(0, dir)]) as [(path & rest & E) Hd]; [eauto|apply NoDup_singleton|]. eauto.
- eexists _, _. split; [done|apply NoDup_singleton].
Qed.

(** Property: a file's final name is asked for once: when the director has named
  every component of a path nothing was remembered of, the same query within
  the cache's lifetime gives the same name without any request, whatever
  happened on the ring in between. *)
Theorem final_path_asks_once now later path root under (s : FcState W) w :
(fc_resolve fc os os_depth suppress (split_stream_suffix path).1 s).1 = Some (root, under) →
leading (fc_names s) root under now = [] → fc_names_poisoned s = false → Forall comp_ok under →
(let s' := (fc_resolve fc os os_depth suppress (split_stream_suffix path).1 s).2 in
 length (fc_stored_names L now root under s').1 = length under) →
0 ≤ now ≤ later → later - now < ttl_ms (fc_names s) →
let out := fc_final_path L fc os os_depth suppress now path s in
let s2 := mkFcState (fc_names out.2) (fc_names_poisoned out.2) (fc_paths out.2) w in
let again := fc_final_path L fc os os_depth suppress later path s2 in
is_Some out.1 ∧ again.1 = out.1 ∧ fc_world again.2 = w.
Proof using.
intros Hr Hcold Hp Hc Hl Hn Ht. unfold fc_final_path. destruct (split_stream_suffix path) as [plain stream]. cbn [fst] in *.
unfold fc_resolve in *. pose proof (under_root_again os os_depth suppress (fc_roots fc) plain (fc_paths s)) as Hag. cbv zeta in Hag.
destruct (under_root (fc_roots fc) os os_depth suppress plain (fc_paths s)) as [r c]. cbn [fst snd] in *. subst r.
set (s0 := mkFcState (fc_names s) (fc_names_poisoned s) c (fc_world s)) in *.
destruct (fc_stored_names L now root under s0) as [ns s1] eqn:E. cbn [fst] in Hl.
assert (fc_paths s1 = c) as Ep.
{ unfold fc_stored_names in E. destruct (_ =? _)%nat; [injection E as _ <-; done|]. destruct (lk_submit L _ _) as [r w1].
  destruct (match r with Ok (st, p) => _ | Err _ => _ end) as [rest|]; [|injection E as _ <-; done].
  destruct (negb _); injection E as _ <-; done. }
cbn [fst snd fc_names fc_names_poisoned fc_paths fc_world]. rewrite Ep.
destruct (under_root (fc_roots fc) os os_depth suppress plain c) as [r' c'] eqn:Ec. cbn [fst] in Hag. subst r'.
assert (fc_stored_names L later root under (mkFcState (fc_names s1) (fc_names_poisoned s1) c' w) =
  (ns, mkFcState (fc_names s1) (fc_names_poisoned s1) c' w)) as ->.
{ by apply (stored_names_warm now later root under s0). }
done.
Qed.
End client.

(** ** Examples *)

Module FuseDemo.
#[local] Existing Instance demo_table.
(** A director that spells the two components, and counts the requests. *)
Definition link : Link Z :=
  mkLink Z 1 (λ n w, (Some n, w)) (λ _ w, (Ok ([], []), w))
    (λ _ w, (Ok (ST_OK, encode_names_resp [lit "Data"; lit "A.esp"]), w + 1)) (λ _, []) (λ _ w, w) (λ _ w, w) (λ w, w).
Definition roots : RootMap :=
  match with_roots [(7, lit "C:\Games\Skyrim")] volumes_empty with Ok m => m | Err _ => mkRootMap [] [] 0 end.
Definition fc : FuseClient := mkFuse 1 64 roots [(7, lit "C:\Games\Skyrim")] 0.
Definition fresh : FcState Z := mkFcState (NameCache_new NAME_TTL_MS NAME_CACHE_ENTRIES) false cache_new 0.
Definition os (_ _ : str) : option str := None.
Definition path : str := lit "c:\games\SKYRIM\data\a.ESP".
End FuseDemo.

Lemma final_path_asks_once_witness :
  let first := fc_final_path (CT := demo_table) FuseDemo.link FuseDemo.fc FuseDemo.os 0 0 5 FuseDemo.path FuseDemo.fresh in
  let s2 := mkFcState (fc_names first.2) (fc_names_poisoned first.2) (fc_paths first.2) 41 in
  let again := fc_final_path (CT := demo_table) FuseDemo.link FuseDemo.fc FuseDemo.os 0 0 1900 FuseDemo.path s2 in
  first.1 = Some (lit "C:\Games\Skyrim\Data\A.esp") ∧ fc_world first.2 = 1 ∧ again.1 = first.1 ∧ fc_world again.2 = 41.
Proof.
  intros first s2 again. split; [vm_compute; reflexivity|]. split; [vm_compute; reflexivity|].
  exact (proj2 (final_path_asks_once (CT := demo_table) FuseDemo.link FuseDemo.fc FuseDemo.os 0 0 5 1900 FuseDemo.path 7
    [lit "data"; lit "a.esp"] FuseDemo.fresh 41 ltac:(vm_compute; reflexivity) ltac:(vm_compute; reflexivity) ltac:(reflexivity)
    ltac:(apply comps_okb; reflexivity) ltac:(vm_compute; reflexivity) ltac:(vm_compute; split; discriminate) ltac:(vm_compute; reflexivity))).
Defined.
