(* ===== verification/ClientPath.v ===== *)
(** ClientPath: from the game's client to the director and back
    (rust/crates/vfs-shim/src/director.rs over
    rust/crates/vfs-director/src/dispatch.rs).

    [direct] is a link whose other end is the director's dispatcher, with the
    segment's arena banks between them: the requests of a batch are served in
    order, each on a slot of its own. That the ring delivers each request once
    and its reply to the one who asked is RingTop's; here it is what the two
    ends make of the payloads. *)

From S2P Require Import Prelude Text Path Wire Protocol Provider Memory MemoryProps Seg Ring Arena Director.
From S2P Require Import RootMap DirectorProps Dispatch DispatchProps NtBuf Seekable ReadFrag FuseClient.

Section direct.
Context {CT : CaseTable} {W : Type} (now cap slots : Z) (a : DataArena).

(** The director and the shared segment. *)
Definition Served : Type := Director W * bytes.

(** A request on its slot: one that does not fit is not sent, a reply that does
  not fit is a failure, and a panic in the dispatcher is never answered. *)
Definition direct_one (slot : Z) (rq : SendReq) (s : Served) : result Unanswered Reply * Served :=
if cap <? len (s_payload rq) then (Err (mkUnanswered PayloadTooLarge []), s) else
match dispatch_director now (s_opcode rq) (s_payload rq) (s_flags rq) cap (Some (a, slot)) s.1 s.2 with
| Some (r, d, m) => (Ok (if cap <? len r.2 then (I32_MIN, []) else r), (d, m))
| None => (Err (mkUnanswered Timeout [slot]), s)
end.

Fixpoint direct_many (slot : Z) (reqs : list SendReq) (s : Served) : result Unanswered (list Reply * list Z) * Served :=
match reqs with
| [] => (Ok ([], []), s)
| rq :: reqs =>
    match direct_one slot rq s with
    | (Err u, s) => (Err u, s)
    | (Ok r, s) =>
        match direct_many (slot + 1) reqs s with
        | (Ok (rs, held), s) => (Ok (r :: rs, slot :: held), s)
        | (Err u, s) => (Err u, s)
        end
    end
end.

Definition direct : Link Served :=
mkLink Served slots (λ n s, (Some n, s)) (direct_many 0) (direct_one 0) snd (λ _ s, s) (λ _ s, s) (λ s, s).
End direct.

(** ** A provider of whole reads and writes *)

(** The open file [bh] has the content [content] says; a read gives all there
    is, a write is taken whole. *)
Class WholeFile {W} (P : Provider W) (bh : Handle) (content : W → option bytes) : Prop := {
  wf_read off buf w c : content w = Some c → 0 ≤ off →
    let got := Seg.mem_get c off (len buf) in
    ∃ w', p_read_at P bh off buf w = ((Ok (len got), got ++ drop (length got) buf), w') ∧ content w' = Some c;
  wf_write off buf w c : content w = Some c → 0 ≤ off →
    ∃ w', p_write_at P bh off buf w = (Ok (len buf), w') ∧ content w' = Some (Memory.write_bytes c off buf) }.

Definition mem_content (h : Handle) (s : Memory) : option bytes :=
  if h_poisoned (m_opens s) then None else file_of s h.

#[export] Instance memory_whole `{CT : CaseTable} h : WholeFile memory h (mem_content h).
Proof.
  split; unfold mem_content; intros off buf w c Hc Ho; destruct (h_poisoned (m_opens w)) eqn:Hp; try done.
  - exists w. rewrite Hp. split; [|done]. change (p_read_at memory h off buf w) with (mem_read_at h off buf w).
    rewrite (mem_read_ok w h off buf c Hp Hc).
    pose proof (len_nonneg buf). pose proof (len_nonneg c). unfold read_into. cbn [fst snd].
    set (n := Z.min (len c - Z.min off (len c)) (len buf)).
    assert (take (Z.to_nat n) (drop (Z.to_nat (Z.min off (len c))) c) = Seg.mem_get c off (len buf)) as E.
    { unfold Seg.mem_get. destruct (decide (off ≤ len c)).
      - rewrite Z.min_l by done. unfold n. rewrite (Z.min_l off) by done.
        destruct (decide (len buf ≤ len c - off)); [by rewrite Z.min_r|].
        rewrite Z.min_l by lia. rewrite !take_ge; [done| |]; rewrite length_drop; unfold len in *; lia.
      - rewrite !(drop_ge c); [by rewrite !take_nil| |]; unfold len in *; lia. }
    assert (n = len (Seg.mem_get c off (len buf))) as En.
    { rewrite <- E. unfold len, n in *. rewrite length_take, length_drop. unfold len. lia. }
    rewrite E, En. do 4 f_equal. unfold len. lia.
  - destruct (mem_write_ok w h off buf c Hp Hc) as (s' & E & Eo & Ef & _). exists s'.
    split; [done|]. by rewrite Eo, Hp.
Qed.

Section open_file.
Context {CT : CaseTable} {W : Type} (P : Provider W) (bh : Handle) (content : W → option bytes).
Context `{HW : !WholeFile P bh content}.

(** [fh] is the file [bh] of [P], not opened for appending, with the content [c]. *)
Definition OpenOn (fh : Z) (c : bytes) (d : Director W) : Prop :=
(∃ r, d_opens d !! fh = Some r ∧ rec_backend r = P ∧ rec_bh r = bh ∧ rec_is_dir r = false ∧ rec_cursor r = None) ∧
content (d_world d) = Some c.

Lemma d_read_whole fh c off buf d :
OpenOn fh c d → 0 ≤ off →
let got := Seg.mem_get c off (len buf) in
∃ d', d_read fh off buf d = ((Ok (len got), got ++ drop (length got) buf), d') ∧ OpenOn fh c d'.
Proof using HW.
intros [(r & Hr & <- & <- & Hd & Hc) Hcon] Ho got. unfold d_read. rewrite Hr, Hd.
destruct (wf_read off buf _ c Hcon Ho) as (w' & E & Hcon'). unfold call, zoom. fold got in E. rewrite E.
eexists. split; [done|]. split; [by exists r|done].
Qed.

Lemma d_write_whole fh c off buf d :
OpenOn fh c d → 0 ≤ off →
∃ d', d_write fh off buf d = (Ok (len buf), d') ∧ OpenOn fh (Memory.write_bytes c off buf) d'.
Proof using HW.
intros [(r & Hr & <- & <- & Hd & Hc) Hcon] Ho. unfold d_write, mbind, PM_bind, get_rec. rewrite Hr, Hd. cbv zeta.
rewrite Hc. cbn [default from_option id].
destruct (wf_write off buf _ c Hcon Ho) as (w' & E & Hcon'). unfold pcall, call, zoom. cbn [id default from_option]. rewrite E.
eexists. split; [done|]. split; [|done]. exists (rec_wrote (as_u64 (off + len buf)) r). split_and!; try done.
- cbn. rewrite lookup_alter_eq, Hr. done.
- unfold rec_wrote. cbn. by rewrite Hc.
Qed.
End open_file.

(** ** Reading over the direct link *)

Lemma read_req_len r : len (encode_read_req r) = 24.
Proof. done. Qed.
Lemma bulk_resp_len n off : len (encode_read_resp_bulk n off) = 16.
Proof. done. Qed.
Lemma read_resp_len d : len (encode_read_resp d) = 8 + len d.
Proof. unfold encode_read_resp. rewrite !len_app. unfold len. rewrite !length_to_le. lia. Qed.

(** The client's plan matches the ring and the arena it reads through: a
    fragment that comes inline fits a reply, one that comes by the arena fits a
    bank, and every slot has a bank. *)
Record PlanFits (plan : ReadPlan) (cap slots : Z) (a : DataArena) : Prop := {
  pf_bulk : 0 < bulk_chunk plan ≤ bank_size a;
  pf_inline : 0 < inline_chunk plan ≤ cap - 8;
  pf_threshold : bulk_threshold plan ≤ BULK_THRESHOLD;
  pf_cap : 32 ≤ cap < 2 ^ 31;
  pf_bank : bank_size a < 2 ^ 31;
  pf_banks : Z.max slots 1 ≤ banks a;
  pf_offset : 0 ≤ mapping_offset a }.

Section reading.
Context {CT : CaseTable} {W : Type} (P : Provider W) (bh : Handle) (content : W → option bytes).
Context `{HW : !WholeFile P bh content}.
Context (now cap slots : Z) (a : DataArena) (plan : ReadPlan) (HF : PlanFits plan cap slots a).
Context (fh : Z) (Hfh : in_u64 fh).

(** The file is open, and the arena lies in the segment. *)
Definition Mapped (c : bytes) (s : Served (W := W)) : Prop :=
OpenOn P bh content fh c s.1 ∧ mapping_offset a + banks a * bank_size a ≤ len s.2 ∧ len s.2 < u64_max.

Lemma bank_at slot : 0 ≤ slot < banks a →
bank_index a slot = slot ∧ 0 ≤ bank_mapping_offset a slot ∧
bank_mapping_offset a slot + bank_size a ≤ mapping_offset a + banks a * bank_size a.
Proof using HF.
destruct HF. intros Hs. assert (bank_index a slot = slot) as E by (by apply Z.mod_small). unfold bank_mapping_offset.
rewrite E. split; [done|]. nia.
Qed.

(** The bank of a slot is filled with what the file has there. *)
Lemma read_bulk_whole c slot n off (d : Director W) (m : bytes) :
Mapped c (d, m) → 0 ≤ off → 0 ≤ slot < banks a → 0 < n ≤ bank_size a →
let bank := bank_mapping_offset a slot in let data := Seg.mem_get c off n in
∃ d' b, read_bulk a slot (Z.min (bank_size a) n) {| rr_fh := fh; rr_offset := off; rr_len := n |} d m
    = ((ST_OK, encode_read_resp_bulk (len data) bank), d', mem_put m bank b) ∧
  OpenOn P bh content fh c d' ∧ len b = n ∧ Seg.mem_get (mem_put m bank b) bank (len data) = data.
Proof using HF HW.
intros (Hop & Hm1 & Hm2) Ho Hs Hn bank data. destruct (bank_at slot Hs) as (_ & Hb0 & Hb1). fold bank in Hb0, Hb1.
cbn [fst snd] in *. pose proof (pf_bank _ _ _ _ HF).
assert (in_bounds m bank n = true) as Hib by (unfold in_bounds; apply andb_true_iff; split; [lia|apply Z.leb_le; lia]).
pose proof (mem_get_len m bank n ltac:(lia) ltac:(lia) ltac:(lia)) as Hml.
destruct (d_read_whole P bh content fh c off (Seg.mem_get m bank n) d Hop Ho) as (d' & E & Hop'). cbv zeta in E. rewrite Hml in E. fold data in E.
assert (len data ≤ n) as Hdn by (unfold data, Seg.mem_get, len; rewrite length_take; lia).
pose proof (len_nonneg data). set (b := data ++ drop (length data) (Seg.mem_get m bank n)) in *.
assert (len b = n) as Hbl by (unfold b; rewrite len_app; unfold len in *; rewrite length_drop; lia).
exists d', b. split; [|split; [done|split; [done|]]].
- unfold read_bulk. rewrite Z.min_r, Z.min_l by lia. cbn [rr_fh rr_offset]. unfold fill_bank. rewrite Z.min_l by lia.
  rewrite (proj2 (Z.eqb_neq n 0)) by lia. fold bank. cbn [Seg.run do prog_bind exec orb]. unfold read_bytes. rewrite Hib.
  cbn [negb]. rewrite E. cbn [fst snd Seg.run do prog_bind exec]. unfold Seg.write_bytes. rewrite Hbl, Hib.
  cbn [Seg.run do prog_bind exec fmap result_fmap reply]. rewrite Hml, Z.min_l by lia. unfold as_u32. by rewrite Z.mod_small by (unfold u32_max; lia).
- unfold Seg.mem_get at 1, mem_put. rewrite drop_app_length' by (unfold len in *; rewrite length_take; lia).
  unfold b at 1. rewrite <- app_assoc. apply take_app_length'. unfold len. lia.
Qed.

Lemma read_inline_whole c n off (d : Director W) :
OpenOn P bh content fh c d → 0 ≤ off → 0 < n ≤ cap - 8 →
∃ d', read_inline cap {| rr_fh := fh; rr_offset := off; rr_len := n |} d
    = ((ST_OK, encode_read_resp (Seg.mem_get c off n)), d') ∧ OpenOn P bh content fh c d'.
Proof using HW.
intros Hop Ho Hn. unfold read_inline, max_read_data, sat_sub. cbn [rr_fh rr_offset rr_len].
rewrite Z.min_l by lia. assert (len (replicate (Z.to_nat n) 0) = n) as Hl by (unfold len; rewrite length_replicate; lia).
destruct (d_read_whole P bh content fh c off (replicate (Z.to_nat n) 0) d Hop Ho) as (d' & E & Hop').
cbv zeta in E. rewrite Hl in E. rewrite E. exists d'. split; [|done]. cbn [fmap result_fmap reply]. do 4 f_equal.
apply take_app_length'. unfold len. lia.
Qed.

(** What a served request leaves behind: an inline reply, or its slot's bank. *)
Definition ServedBy (slot : Z) (m m' payload data : bytes) : Prop :=
(m' = m ∧ payload = encode_read_resp data) ∨
∃ b, m' = mem_put m (bank_mapping_offset a slot) b ∧ len b ≤ bank_size a ∧
  payload = encode_read_resp_bulk (len data) (bank_mapping_offset a slot) ∧ len data ≤ bank_size a ∧
  Seg.mem_get m' (bank_mapping_offset a slot) (len data) = data.

Lemma direct_read c slot rq off n s :
Mapped c s → ReadOf plan fh rq off n → 0 ≤ slot < banks a →
∃ p s', direct_one now cap a slot rq s = (Ok (ST_OK, p), s') ∧ Mapped c s' ∧ len s'.2 = len s.2 ∧
  ServedBy slot s.2 s'.2 p (Seg.mem_get c off n).
Proof using HF HW Hfh.
destruct s as [d m]. intros HM (Ho & Hn & Hrq) Hs. pose proof HM as (Hop & Hm1 & Hm2). cbn [fst snd] in *.
destruct (bank_at slot Hs) as (_ & Hb0 & Hb1). destruct HF.
assert (∀ n, 0 < n < 2 ^ 31 → decode_read_req (encode_read_req {| rr_fh := fh; rr_offset := off; rr_len := as_u32 n |}) =
  Some {| rr_fh := fh; rr_offset := off; rr_len := n |}) as Er.
{ intros k Hk. unfold as_u32. rewrite Z.mod_small by (unfold u32_max; lia). apply read_req_prefix; [done|done|]. unfold in_u32, u32_max. lia. }
unfold in_u64 in Ho. destruct Hrq as [[-> Hle]|(-> & Hle & Hlt)]; unfold direct_one, read_send; cbn [s_opcode s_payload s_flags];
  rewrite (proj2 (Z.ltb_ge _ _)) by (rewrite read_req_len; lia);
  unfold dispatch_director; change (OP_READ =? OP_READ) with true; cbv iota; rewrite Er by done; cbn [rr_len].
- change (negb (Z.land FLAG_READ_BULK FLAG_READ_BULK =? 0)) with true. cbn [orb].
  destruct (read_bulk_whole c slot n off d m HM ltac:(lia) Hs ltac:(lia)) as (d' & b & E & Hop' & Hbl & Hg). cbv zeta in E. cbn [fst snd].
  rewrite E. cbn [snd]. rewrite (proj2 (Z.ltb_ge _ _)) by (rewrite bulk_resp_len; lia). eexists _, _. split; [done|].
  assert (len (mem_put m (bank_mapping_offset a slot) b) = len m) as Hl by (apply mem_put_len; lia).
  split; [by split; [|cbn [snd]; rewrite Hl]|]. split; [done|]. right. exists b. split_and!; try done; [lia|].
  unfold Seg.mem_get, len. rewrite length_take. lia.
- change (negb (Z.land 0 FLAG_READ_BULK =? 0)) with false. rewrite (proj2 (Z.leb_gt BULK_THRESHOLD n)) by lia. cbn [orb].
  destruct (read_inline_whole c n off d Hop ltac:(lia) ltac:(lia)) as (d' & E & Hop'). cbn [fst snd]. rewrite E. cbn [snd].
  assert (len (Seg.mem_get c off n) ≤ n) by (unfold Seg.mem_get, len; rewrite length_take; lia).
  rewrite (proj2 (Z.ltb_ge _ _)) by (rewrite read_resp_len; lia). eexists _, _. split; [done|].
  split; [by split|]. split; [done|]. by left.
Qed.

(** Serving a later slot leaves an earlier slot's bank alone. *)
Lemma ServedBy_other slot slot' m m' p data o n :
ServedBy slot' m m' p data → 0 ≤ slot < banks a → 0 ≤ slot' < banks a → slot ≠ slot' →
mapping_offset a + banks a * bank_size a ≤ len m →
o = bank_mapping_offset a slot → 0 ≤ n ≤ bank_size a → Seg.mem_get m' o n = Seg.mem_get m o n.
Proof using HF.
intros [[-> _]|(b & -> & Hb & _)] Hs Hs' Hne Hm -> Hn; [done|]. destruct (bank_at slot Hs) as (E & ? & ?), (bank_at slot' Hs') as (E' & ? & ?).
pose proof (banks_apart a slot slot' ltac:(lia) ltac:(lia)). apply mem_get_put_other; lia.
Qed.

Lemma direct_batch c slot reqs s :
Mapped c s → Forall (λ rq, ∃ off n, ReadOf plan fh rq off n) reqs → 0 ≤ slot → slot + Z.of_nat (length reqs) ≤ banks a →
∃ rs held s', direct_many now cap a slot reqs s = (Ok (rs, held), s') ∧ Mapped c s' ∧ len s'.2 = len s.2 ∧
  Forall (λ r, r.1 = ST_OK) rs ∧ Forall2 (AnsweredWhole plan fh c s'.2) reqs rs ∧
  (∀ slot' n, 0 ≤ slot' < slot → 0 ≤ n ≤ bank_size a →
     Seg.mem_get s'.2 (bank_mapping_offset a slot') n = Seg.mem_get s.2 (bank_mapping_offset a slot') n).
Proof using HF HW Hfh.
revert slot s. induction reqs as [|rq reqs IH]; intros slot s HM Hall Hs Hlen; cbn [direct_many].
{ exists [], [], s. by split_and!. }
apply Forall_cons in Hall as [(off & n & Hrq) Hall]. cbn [length] in Hlen.
destruct (direct_read c slot rq off n s HM Hrq ltac:(lia)) as (p & s1 & E1 & HM1 & Hl1 & HS). rewrite E1.
destruct (IH (slot + 1) s1 HM1 Hall ltac:(lia) ltac:(lia)) as (rs & held & s2 & E2 & HM2 & Hl2 & Hok & HA & Hkeep). rewrite E2.
pose proof HM as (_ & Hm1 & Hm2). pose proof HM1 as (_ & Hm3 & _).
exists ((ST_OK, p) :: rs), (slot :: held), s2. split_and!; try done; [lia|by constructor| |].
- constructor; [|done]. intros off' n' Hrq' _. cbn [snd].
  assert (off' = off ∧ n' = n) as [-> ->] by (eapply ReadOf_inj; done).
  destruct HS as [[E ->]|(b & E & Hb & -> & Hd & Hg)]; [by left|]. right. exists (bank_mapping_offset a slot).
  destruct (bank_at slot ltac:(lia)) as (_ & Hb0 & Hb1). pose proof (len_nonneg (Seg.mem_get c off n)).
  split_and!; [done|unfold in_u64; lia| |].
  + unfold in_bounds. apply andb_true_iff. split; [apply Z.ltb_lt|apply Z.leb_le]; lia.
  + rewrite Hkeep by lia. done.
- intros slot' k Hs' Hk. rewrite Hkeep by lia. eapply ServedBy_other; try done; lia.
Qed.

#[local] Instance direct_file_link c : FileLink (direct now cap slots a) plan fh c (Mapped c).
Proof using HF HW Hfh.
destruct HF. split; cbn [direct lk_acquire lk_submit_many lk_seg lk_retire lk_release lk_drop lk_slots fst snd]; try done.
- by intros n w k _ [= ->].
- intros reqs s HM [Hall Hlen]. destruct (direct_batch c 0 reqs s HM Hall) as (rs & held & s' & -> & ? & _); [lia..|done].
- intros reqs s rs held HM [Hall Hlen]. destruct (direct_batch c 0 reqs s HM Hall) as (rs' & held' & s' & -> & _ & _ & _ & HA & _); [lia..|].
  intros [= <- <-]. eapply Forall2_impl; [exact HA|]. intros rq r. apply whole_answered.
Qed.

Lemma direct_whole c : whole_replies (direct now cap slots a) plan fh c (Mapped c).
Proof using HF HW Hfh.
destruct HF. intros reqs s rs held HM [Hall Hlen]. cbn [direct lk_submit_many lk_seg lk_slots] in *.
destruct (direct_batch c 0 reqs s HM Hall) as (rs' & held' & s' & -> & _ & _ & _ & HA & _); [lia..|]. by intros [= <- <-].
Qed.

Lemma direct_responsive c : responsive plan fh (direct now cap slots a) (Mapped c).
Proof using HF HW Hfh.
destruct HF. split; [by eexists|]. intros reqs s HM [Hall Hlen].
destruct (direct_batch c 0 reqs s HM Hall) as (rs & held & s' & E & _ & _ & ? & _); [lia| |]; [cbn in Hlen; lia|].
exists rs, held. cbn [direct lk_submit_many]. by rewrite E.
Qed.

(** Over a director that answers, the read is the file's. *)
Lemma read_fragmented_full c offset buf s :
Mapped c s → 0 ≤ offset → offset + len buf ≤ u64_max →
let k := Z.max 0 (Z.min (len buf) (len c - offset)) in
(read_fragmented (direct now cap slots a) plan fh offset buf s).1 = (Ok k, Seg.mem_get c offset k ++ drop (Z.to_nat k) buf).
Proof using HF HW Hfh.
intros HM Ho Hu k. pose proof (direct_file_link c) as HFL. pose proof HF as [].
assert (0 < bulk_chunk plan < 2 ^ 31 ∧ 0 < inline_chunk plan < 2 ^ 31) as Hpl by lia.
destruct (read_ends plan fh offset c Ho Hpl (direct now cap slots a) (Mapped c) buf s HM Hu) as (_ & _ & H).
destruct (read_fragmented _ _ _ _ _ _) as [[[k'|e] b] s']; cbn [fst snd] in *.
- destruct H as [HR Hend]. destruct (ReadTo_exact offset c Ho buf b k' HR) as (_ & -> & E). by rewrite (E (Hend (direct_whole c))).
- destruct H as [H _]. destruct (H (direct_responsive c)).
Qed.
End reading.

(** ** The client's calls are the director's *)

Lemma lor_u32 x y : in_u32 x → in_u32 y → in_u32 (Z.lor x y).
Proof.
  unfold in_u32, u32_max. intros Hx Hy. assert (0 ≤ Z.lor x y) by (apply Z.lor_nonneg; lia). split; [done|].
  destruct (decide (x = 0)) as [->|]; [rewrite Z.lor_0_l; lia|]. destruct (decide (y = 0)) as [->|]; [rewrite Z.lor_0_r; lia|].
  apply Z.log2_lt_cancel. rewrite Z.log2_lor, Z.log2_pow2 by lia.
  apply Z.max_lub_lt; apply Z.log2_lt_pow2; lia.
Qed.

Section calls.
Context {CT : CaseTable} {W : Type} (now cap slots : Z) (a : DataArena).
Context (Hcap : 32 ≤ cap < u32_max).
Local Abbreviation D := (direct (W := W) now cap slots a).

(** The client's call [cm] is the director's [m]: the same result, up to how it
  travels, the same error, and the director left as [m] leaves it; provided
  [m] does not fail with the status of success and its result can travel. *)
Definition agrees {A B} (travels : A → Prop) (f : A → B) (cm : PM Served B) (m : PM (Director W) A) (s : Served) : Prop :=
(m s.1).1 ≠ Err ST_OK → (∀ x, (m s.1).1 = Ok x → travels x) →
cm s = (f <$> (m s.1).1, ((m s.1).2, s.2)).

Definition file_op (op : Z) : Prop := op ≠ OP_READ ∧ (OP_REG_LOOKUP <=? op) && (op <=? OP_REG_CHANGED) = false.

Lemma direct_answer {A} (gated : bool) op payload (enc : A → bytes) (m : PM (Director W) A) s :
file_op op → len payload ≤ cap → dispatch_file op payload s.1 = answer enc m s.1 →
agrees (λ x, len (enc x) ≤ cap) enc ((if gated then fc_submit_data D else fc_submit D) op payload) m s.
Proof using Hcap.
intros [Hop1 Hop2] Hp Hd Hz Hx.
assert (direct_one now cap a 0 (mkSend op 0 payload) s = (Ok (reply (enc <$> (m s.1).1)), ((m s.1).2, s.2))) as E.
{ unfold direct_one. cbn [s_opcode s_payload s_flags]. rewrite (proj2 (Z.ltb_ge _ _)) by done. unfold dispatch_director.
  rewrite (proj2 (Z.eqb_neq _ _) Hop1), Hop2, Hd. unfold answer. destruct (m s.1) as [[x|e] d'] eqn:Em; cbn [fst snd] in *.
  - cbn [fmap result_fmap reply snd]. rewrite (proj2 (Z.ltb_ge _ _)); [done|]. by apply Hx.
  - cbn [fmap result_fmap reply snd]. rewrite (proj2 (Z.ltb_ge _ _)); [done|]. unfold len; cbn; lia. }
assert (∀ E, checked (E := E) (Ok (reply (enc <$> (m s.1).1))) = enc <$> (m s.1).1) as E2.
{ intros E0. destruct (m s.1) as [[x|e] d'] eqn:Em; cbn [fst snd fmap result_fmap reply checked] in *; [done|].
  rewrite (proj2 (Z.eqb_neq e ST_OK)); [done|]. congruence. }
destruct gated.
- unfold fc_submit_data, submit_data. cbn [direct lk_acquire lk_submit lk_drop]. rewrite E. cbv beta iota zeta. by rewrite E2.
- unfold fc_submit. cbn [direct lk_submit]. rewrite E. cbv beta iota zeta. by rewrite E2.
Qed.

(** A call whose reply says nothing. *)
Lemma agrees_done {A} (gated : bool) op payload (m : PM (Director W) A) s :
file_op op → len payload ≤ cap → dispatch_file op payload s.1 = answer (λ _, []) m s.1 →
agrees (λ _, True) (λ _, ()) (done_ok ((if gated then fc_submit_data D else fc_submit D) op payload)) m s.
Proof using Hcap.
intros Hop Hp Hd Hz _. unfold done_ok, mbind, PM_bind.
rewrite (direct_answer gated op payload _ m s Hop Hp Hd Hz) by (intros; unfold len; cbn; lia).
by destruct (m s.1) as [[x|e] d'].
Qed.

(** A call whose reply is decoded. *)
Lemma agrees_decoded {A B} (gated : bool) op payload (enc : A → bytes) (dec : bytes → option B) (f : A → B) e0
  (travels : A → Prop) (m : PM (Director W) A) s :
file_op op → len payload ≤ cap → dispatch_file op payload s.1 = answer enc m s.1 →
(∀ x, travels x → len (enc x) ≤ cap ∧ dec (enc x) = Some (f x)) →
agrees travels f (p ← (if gated then fc_submit_data D else fc_submit D) op payload; decoded e0 (dec p)) m s.
Proof using Hcap.
intros Hop Hp Hd Ht Hz Hx. unfold mbind, PM_bind.
rewrite (direct_answer gated op payload enc m s Hop Hp Hd Hz) by (intros x E; by apply Ht, Hx).
destruct (m s.1) as [[x|e] d']; cbn [fst snd fmap result_fmap] in *; [|done].
destruct (Ht x (Hx x eq_refl)) as [_ ->]. done.
Qed.

Definition open_fits (o : OpenInfo) : Prop := in_u64 (oi_fh o) ∧ in_u64 (oi_size o) ∧ in_u32 (oi_mount_gen o).
Definition listing_fits (es : list DirEntry) : Prop :=
len (encode_readdir_resp (wire_entry <$> es)) ≤ cap ∧ Forall dir_entry_ok (wire_entry <$> es) ∧ len (wire_entry <$> es) < u32_max.
Definition text_fits (t : str) : Prop := valid_str t ∧ str_len t ≤ cap.

Ltac serve_req rt :=
  unfold dispatch_file;
  repeat match goal with
  | |- context [?x =? ?y] =>
      let v := eval vm_compute in (x =? y) in
      lazymatch v with true => change (x =? y) with true | false => change (x =? y) with false end
  end; cbv iota; rewrite rt by done.
Ltac reply_len := unfold encode_getattr_resp, encode_open_resp, encode_setattr_req, encode_close_req; autorewrite with vfs_len; cbn; lia.
Ltac req_len := unfold encode_path_req, encode_open_req, encode_mkdir_req, encode_rename_req, encode_rename_x_req; rewrite ?len_app;
  unfold str_len, len in *; rewrite ?length_to_le; cbn; lia.

(** C12: the client's calls are the director's: each call of the game's
  client — attributes, listing, opening to read or to write, removing,
  renaming within a root and across roots, staging a program, making a
  directory, truncating, closing — sent and answered over the wire gives
  exactly what the director's own operation gives for the same root, path
  and handle, an error as its status, and changes the director as that
  operation does. *)
Theorem client_calls_director root root' path to create mode fh n s :
in_u32 root → in_u32 root' → in_u32 create → in_u32 mode → in_u64 fh → in_u64 n →
str_ok path → str_ok to → 16 + str_len path + str_len to ≤ cap →
agrees stat_fits attr_resp (fc_getattr D root path) (d_getattr root path) s ∧
agrees listing_fits (fmap wire_entry) (fc_readdir D root path) (d_readdir root path) s ∧
agrees open_fits open_resp (fc_open D root path) (open_info root path OPEN_READ) s ∧
agrees open_fits open_resp (fc_open_write D root path create) (open_info root path (Z.lor OPEN_WRITE create)) s ∧
agrees (λ _, True) (λ _, ()) (fc_delete D root path) (d_remove root path) s ∧
agrees (λ _, True) (λ _, ()) (fc_rename D root path to) (d_rename root path to) s ∧
agrees (λ _, True) (λ _, ()) (fc_rename_across D root path root' to) (d_rename_across root path root' to) s ∧
agrees text_fits id (fc_stage_exec D root path) (stage_exec root path) s ∧
agrees (λ _, True) (λ _, ()) (fc_mkdir D root path mode) (d_mkdir root path) s ∧
agrees (λ _, True) (λ _, ()) (fc_truncate D fh n) (d_set_len fh n) s ∧
agrees (λ _, True) (λ _, ()) (fc_close D fh) (d_close fh) s.
Proof using Hcap.
intros Hr Hr' Hc Hm Hf Hn Hp Ht Hl. assert (valid_str path) as Hv by apply Hp. assert (valid_str to) as Hv' by apply Ht.
assert (0 ≤ str_len path ∧ 0 ≤ str_len to) as [? ?] by (unfold str_len, len; lia).
pose proof (path_requests_roundtrip root root' path to Hr Hr' Hp Hv') as (E1 & _ & _ & _ & E5 & E6).
pose proof (path_requests_roundtrip root mode path to Hr Hm Hp Hv') as (_ & _ & E3 & _).
split_and!.
- eapply (agrees_decoded false); [done|req_len|serve_req E1; reflexivity|]. intros x Hx. split; [reply_len|].
  apply getattr_resp_rt; destruct x as [x|]; cbn in *; try apply Hx; done.
- eapply (agrees_decoded false); [done|req_len|serve_req E1; reflexivity|]. intros x (? & ? & ?). split; [done|]. by apply readdir_resp_rt.
- eapply (agrees_decoded false); [done|req_len|serve_req open_req_rt; reflexivity|]. intros x (? & ? & ?).
  split; [reply_len|]. by apply open_resp_rt.
- eapply (agrees_decoded true); [done|req_len| |].
  + assert (in_u32 (Z.lor OPEN_WRITE create)) by (by apply lor_u32). serve_req open_req_rt. rewrite (proj2 (Z.eqb_neq (Z.lor OPEN_WRITE create) 0)) by (intros [? _]%Z.lor_eq_0_iff; done).
    reflexivity.
  + intros x (? & ? & ?). split; [reply_len|]. by apply open_resp_rt.
- apply (agrees_done false); [done|req_len|by serve_req E1].
- apply (agrees_done false); [done|req_len|by serve_req E5].
- apply (agrees_done false); [done|req_len|by serve_req E6].
- eapply (agrees_decoded false); [done|req_len|serve_req E1; reflexivity|]. intros x [? ?]. split; [done|]. by apply from_utf8_utf8.
- apply (agrees_done false); [done|req_len|by serve_req E3].
- apply (agrees_done true); [done|reply_len|].
  serve_req (proj1 (proj2 (proj2 (proj2 (handle_requests_roundtrip fh n 0 [] Hf Hn ltac:(done) ltac:(done)))))). done.
- apply (agrees_done false); [done|reply_len|]. by serve_req close_req_rt.
Qed.
End calls.

(** ** Writing and reading back *)

Lemma write_bytes_nil c off : 0 ≤ off ≤ len c → Memory.write_bytes c off [] = c.
Proof.
  intros Ho. unfold Memory.write_bytes. change (len (A := Z) []) with 0. rewrite Z.add_0_r.
  rewrite (proj2 (Z.ltb_ge _ _)) by lia. cbn [app]. apply take_drop.
Qed.

(** Two writes in a row are one. *)
Lemma write_bytes_app c off x y :
  0 ≤ off → Memory.write_bytes (Memory.write_bytes c off x) (off + len x) y = Memory.write_bytes c off (x ++ y).
Proof.
  intros Ho. pose proof (len_nonneg x). pose proof (len_nonneg y).
  destruct (write_bytes_spec c off x Ho) as [L1 B1], (write_bytes_spec c off (x ++ y) Ho) as [L2 B2].
  destruct (write_bytes_spec (Memory.write_bytes c off x) (off + len x) y ltac:(lia)) as [L3 B3].
  rewrite len_app in L2, B2. apply bytes_ext; [lia|]. intros i Hi. rewrite B3, B2, B1, byte_at_app.
  repeat match goal with |- context [?x <=? ?y] => destruct (Z.leb_spec x y) | |- context [?x <? ?y] => destruct (Z.ltb_spec x y) end;
    cbn [andb]; try lia; try done. f_equal. lia.
Qed.

(** The client knows the ring it is connected to, and its arena has a bank of
    at least a quarter of a mebibyte for every slot. *)
Record Connected (fc : FuseClient) (cap slots : Z) : Prop := {
  cn_cap : fc_payload_cap fc = cap;
  cn_slots : fc_slot_count fc = slots;
  cn_some : 1 ≤ slots;
  cn_range : 32 ≤ cap < 2 ^ 31;
  cn_bank : 256 * 1024 ≤ fc_arena_len fc / slots < 2 ^ 31 }.

Lemma connected_fits fc cap slots mo :
  Connected fc cap slots → 0 ≤ mo → PlanFits (fc_plan fc) cap slots (arena_new mo (fc_arena_len fc) slots).
Proof.
  intros [<- <- H1 H2 H3] Hmo.
  assert (0 < fc_arena_len fc) by (apply Z.nle_gt; intros ?; assert (fc_arena_len fc / fc_slot_count fc ≤ 0) by (apply Z.div_le_upper_bound; lia); lia).
  unfold fc_plan, bulk_bank_bytes. rewrite (proj2 (Z.eqb_neq _ _)), (proj2 (Z.ltb_lt _ _)) by lia.
  split; unfold arena_new, sat_sub; cbn [bulk_chunk inline_chunk bulk_threshold bank_size banks mapping_offset];
    rewrite ?(Z.max_l (fc_slot_count fc) 1) by lia; try lia. done.
Qed.

Section files.
Context {CT : CaseTable} {W : Type} (P : Provider W) (bh : Handle) (content : W → option bytes).
Context `{HW : !WholeFile P bh content}.
Context (now cap slots mo : Z) (fc : FuseClient) (HC : Connected fc cap slots) (Hmo : 0 ≤ mo).
Context (fh : Z) (Hfh : in_u64 fh).
Local Abbreviation a := (arena_new mo (fc_arena_len fc) slots).
Local Abbreviation D := (direct (W := W) now cap slots a).
Local Abbreviation Mapped' := (Mapped P bh content a fh).

Lemma direct_write c off piece (s : Served) :
Mapped' c s → in_u64 off → len piece + 24 ≤ cap →
∃ p s', fc_submit_data D OP_WRITE (encode_write_req {| wr_fh := fh; wr_offset := off; wr_len := as_u32 (len piece) |} piece) s = (Ok p, s') ∧
  decode_write_resp p = Some (len piece) ∧ Mapped' (Memory.write_bytes c off piece) s'.
Proof using HW HC Hfh.
destruct HC. intros (Hop & Hm) Ho Hp. pose proof (len_nonneg piece). assert (0 ≤ off) as Ho' by (unfold in_u64 in Ho; lia).
destruct (d_write_whole P bh content fh c off piece s.1 Hop Ho') as (d' & E & Hop').
assert (encode_write_resp (as_u32 (len piece)) = encode_write_resp (len piece)) as Ew by (unfold as_u32; rewrite Z.mod_small by (unfold u32_max; lia); done).
rewrite (direct_answer (W := W) now cap slots a ltac:(unfold u32_max; lia) true OP_WRITE _ (λ n, encode_write_resp (as_u32 n)) (d_write fh off piece) s).
- rewrite E. cbn [fst snd fmap result_fmap]. rewrite Ew. eexists _, _. split; [done|]. split; [|by split].
  apply write_resp_rt. unfold in_u32, u32_max. lia.
- done.
- unfold encode_write_req. autorewrite with vfs_len. lia.
- unfold dispatch_file. change (OP_WRITE =? OP_WRITE) with true.
  repeat match goal with |- context [OP_WRITE =? ?y] => change (OP_WRITE =? y) with false end. cbv iota.
  rewrite write_req_rt by (done || (unfold u32_max; lia)). done.
- rewrite E. done.
- rewrite E. intros k [= <-]. rewrite Ew. unfold encode_write_resp. rewrite len_app. unfold len. rewrite !length_to_le. lia.
Qed.

(** What is written so far, and what writing the rest would make of it. *)
Definition Writing (c : bytes) (off : Z) (data c1 : bytes) (written : Z) : Prop :=
Memory.write_bytes c1 (off + written) (drop (Z.to_nat written) data) = Memory.write_bytes c off data ∧
(written = 0 ∨ off + written ≤ len c1).

Lemma client_write_loop fuel c off chunk data c1 written s :
Mapped' c1 s → Writing c off data c1 written → 0 ≤ off → off + len data ≤ u64_max → 0 < len data →
0 ≤ written ≤ len data → 0 < chunk → chunk + 24 ≤ cap → len data - written ≤ Z.of_nat fuel →
∃ s', write_loop D fuel fh off chunk data written s = (Ok (len data), s') ∧ Mapped' (Memory.write_bytes c off data) s'.
Proof using HW HC Hfh.
intros HM HW' Ho Hu Hd Hwr Hch Hcap. revert c1 written s HM HW' Hwr.
induction fuel as [|fuel IH]; intros c1 written s HM [HW1 HW2] Hwr Hf; cbn [write_loop];
  (destruct (Z.leb_spec (len data) written) as [Hend|Hend]; [|try lia]).
1,2: (replace written with (len data) in * by lia; exists s; split; [done|]; rewrite <- HW1, drop_ge by (unfold len; lia);
  rewrite write_bytes_nil by lia; done).
set (n := Z.min (written + chunk) (len data) - written). set (piece := Seg.mem_get data written n).
assert (len piece = n) as Hpl by (apply mem_get_len; lia).
destruct (direct_write c1 (off + written) piece s HM) as (p & s1 & E & Hdec & HM1); [unfold in_u64; lia|lia|].
unfold mbind, PM_bind. fold n. fold piece. rewrite E. unfold decoded at 1. rewrite Hdec. unfold mret at 1, PM_ret at 1.
rewrite (proj2 (Z.ltb_ge _ _)) by lia.
destruct (IH (Memory.write_bytes c1 (off + written) piece) (written + len piece) s1) as (s2 & E2 & HM2); [done| |lia|lia|by exists s2].
split.
- rewrite <- HW1, Z.add_assoc, write_bytes_app by lia. f_equal.
  assert (drop (Z.to_nat (written + len piece)) data = drop (Z.to_nat n) (drop (Z.to_nat written) data)) as ->
    by (rewrite drop_drop; f_equal; lia). apply take_drop.
- right. destruct (write_bytes_spec c1 (off + written) piece ltac:(lia)) as [-> _]. lia.
Qed.

(** C11: what a game writes it reads back, through a handle that is not
  open for append, of a file whose provider reads and writes whole
  ([WholeFile], which the memory provider is), on a ring that answers and whose
  arena has at least 256 KiB for every slot ([Connected]): the client's write of any length, sent to the director in pieces that fit the
  ring, writes exactly its bytes at its offset, and the client's read of that
  range afterwards, cut into pieces through replies and arena banks, brings
  back exactly those bytes. Without the premises it does not:
  [short_reads_truncate], [small_bank_truncates]. *)
Theorem client_write_read c off data buf s :
Mapped' c s → 0 ≤ off → off + len data ≤ u64_max → 0 < len data → len buf = len data →
∃ s1, fc_write D fc fh off data s = (Ok (len data), s1) ∧ Mapped' (Memory.write_bytes c off data) s1 ∧
  (fc_read_fragmented D fc fh off buf s1).1 = (Ok (len data), data).
Proof using HW HC Hfh Hmo.
intros HM Ho Hu Hd Hl. pose proof HC as [Hc1 Hc2 Hc3 Hc4 Hc5].
destruct (client_write_loop (length data) c off (Z.max (sat_sub (fc_payload_cap fc) 24) 1) data c 0 s) as (s1 & E & HM1); try done; try lia.
{ split; [by rewrite Z.add_0_r|by left]. }
{ unfold sat_sub. lia. }
{ unfold len. lia. }
exists s1. split; [by unfold fc_write; rewrite (proj2 (Z.eqb_neq _ _)) by lia|]. split; [done|].
destruct (write_bytes_spec c off data Ho) as [Hwl Hwb]. set (c' := Memory.write_bytes c off data) in *.
pose proof (connected_fits fc cap slots mo HC Hmo) as HF.
assert (Seg.mem_get c' off (len data) = data) as Hg.
{ unfold c', Memory.write_bytes. set (body := if _ <? _ then _ else _).
  assert (off ≤ len body) by (unfold body; destruct (Z.ltb_spec (len c) (off + len data)); [rewrite len_resize|]; lia).
  unfold Seg.mem_get. rewrite drop_app_length' by (unfold len in *; rewrite length_take; lia).
  apply take_app_length'. unfold len. lia. }
unfold fc_read_fragmented. pose proof (read_fragmented_full P bh content now cap slots a (fc_plan fc) HF fh Hfh c' off buf s1 HM1 Ho ltac:(lia)) as Er.
rewrite Er. replace (Z.max 0 (Z.min (len buf) (len c' - off))) with (len data) by lia. rewrite Hg.
rewrite drop_ge by (unfold len in *; lia). by rewrite app_nil_r.
Qed.
End files.

(** ** The demonstration client *)

Import DirectorDemo.
#[local] Existing Instance demo_table.

Module ClientDemo.
(** One slot, and an arena of one bank of a quarter of a mebibyte. *)
Definition fc : FuseClient := mkFuse 1 64 (mkRootMap [] [] 0) [] (256 * 1024).
Definition served : Served := (with_open, replicate (Z.to_nat (256 * 1024)) 0).

Lemma fc_connected : Connected fc 64 1.
Proof. split; done || lia. Qed.

Lemma served_mapped : Mapped memory 1 (mem_content 1) (arena_new 0 (fc_arena_len fc) 1) 1 [1; 2; 3] served.
Proof.
  split; [split|].
  - exists (mkOpenRec memory 1 3 false None). split_and!; reflexivity.
  - vm_compute. reflexivity.
  - assert (len served.2 = 256 * 1024) as -> by (unfold served, len; cbn [snd]; rewrite length_replicate; lia).
    split; [vm_compute; discriminate|reflexivity].
Qed.
End ClientDemo.

(** Two bytes written past the end and read back. *)
Lemma client_write_read_witness :
  let D := direct (W := Memory) 7 64 1 (arena_new 0 (fc_arena_len ClientDemo.fc) 1) in
  ∃ s1, fc_write D ClientDemo.fc 1 4 [8; 9] ClientDemo.served = (Ok 2, s1) ∧
    (fc_read_fragmented D ClientDemo.fc 1 4 [0; 0] s1).1 = (Ok 2, [8; 9]).
Proof.
  intros D.
  destruct (client_write_read memory 1 (mem_content 1) 7 64 1 0 ClientDemo.fc ClientDemo.fc_connected (Z.le_refl 0) 1
    ltac:(split; [discriminate|reflexivity]) [1; 2; 3] 4 [8; 9] [0; 0] ClientDemo.served ClientDemo.served_mapped)
    as (s1 & E & _ & Er); [discriminate|vm_compute; discriminate|reflexivity|reflexivity|].
  exists s1. split; [exact E|exact Er].
Defined.

(** A buffer longer than the file, read from its second byte. *)
Lemma read_fragmented_exact_witness :
  let L := direct (W := Memory) 7 64 1 (arena_new 0 (fc_arena_len ClientDemo.fc) 1) in
  let out := read_fragmented L (fc_plan ClientDemo.fc) 1 1 [0; 0; 0; 0] ClientDemo.served in
  match out.1.1 with
  | Ok k => k = 2 ∧ out.1.2 = [2; 3; 0; 0]
  | Err e => ¬ responsive (fc_plan ClientDemo.fc) 1 L (Mapped memory 1 (mem_content 1) (arena_new 0 (fc_arena_len ClientDemo.fc) 1) 1 [1; 2; 3])
  end.
Proof.
  intros L out. pose proof (connected_fits ClientDemo.fc 64 1 0 ClientDemo.fc_connected (Z.le_refl 0)) as HF.
  destruct (@read_fragmented_exact (fc_plan ClientDemo.fc) 1 1 [1; 2; 3] ltac:(lia) ltac:(vm_compute; split; split; reflexivity)
    _ L _ (direct_file_link memory 1 (mem_content 1) 7 64 1 _ _ HF 1 ltac:(split; [discriminate|reflexivity]) [1; 2; 3])
    [0; 0; 0; 0] ClientDemo.served ClientDemo.served_mapped ltac:(vm_compute; discriminate)) as (_ & _ & H).
  fold out in H. destruct out.1.1 as [k|e]; [|exact (proj1 H)]. destruct H as (_ & E & Hk).
  specialize (Hk (direct_whole memory 1 (mem_content 1) 7 64 1 _ _ HF 1 ltac:(split; [discriminate|reflexivity]) [1; 2; 3])). subst k. split; [reflexivity|exact E].
Defined.

Lemma client_calls_director_witness :
  (fc_getattr (direct 7 64 1 (arena_new 0 4096 1)) 1 (lit "LOG.txt") (start, []) =
    (Ok {| ar_found := true; ar_is_dir := false; ar_size := 3; ar_mtime := 0 |}, (start, []))).
Proof.
  destruct (client_calls_director (W := Memory) 7 64 1 (arena_new 0 4096 1) ltac:(unfold u32_max; lia) 1 2 (lit "LOG.txt") (lit "x") 0 0 1 0
    (start, [])) as [H _].
  1-6: split; [discriminate|reflexivity].
  1-2: apply str_okb; reflexivity.
  - vm_compute. discriminate.
  - apply H; [discriminate|]. intros x E. cbn [fst] in E.
    change ((d_getattr 1 (lit "LOG.txt") start).1) with (Ok (E := Z) (Some (mkStat KIND_FILE 3 0))) in E.
    injection E as <-. repeat split; vm_compute; congruence.
Defined.

(** A stream of five bytes that comes two at a time, behind [seekable], mounted
    and opened. *)
Definition streamed : Director (Seekable SeqDemo.State) :=
  (open_info 1 (lit "a") OPEN_READ (d_mount 1 (seekable SeqDemo.source) (director_new (seekable_new (1, ∅))))).2.

(** The provider contract allows a short read anywhere, the director passes it
    on, and the client takes it for the end of the file: of five bytes it reads
    two and reports the file finished. *)
Example short_reads_truncate :
  (fc_read_fragmented (direct 7 64 1 (arena_new 0 (256 * 1024) 1)) ClientDemo.fc 1 0 [0; 0; 0; 0; 0] (streamed, [])).1
    = (Ok 2, [1; 2; 0; 0; 0]) ∧
  (p_read_at (seekable SeqDemo.source) 1 2 [0; 0; 0] SeqDemo.forth).1 = (Ok 2, [3; 4; 0]).
Proof. by vm_compute. Qed.

(** A file of 64 KiB, read over a ring whose arena has one bank of 4 KiB: the
    client asks for a quarter of a mebibyte at a time, the director answers
    with a bank, and the client takes that for the end of the file. *)
Example small_bank_truncates :
  let content := replicate (Z.to_nat BULK_THRESHOLD) 7 in
  let d := (open_info 1 (lit "big") OPEN_READ (d_mount 1 memory (director_new (from_files [(lit "big", content)])))).2 in
  let fc := mkFuse 1 64 (mkRootMap [] [] 0) [] 4096 in
  bulk_bank_bytes fc = 256 * 1024 ∧ bank_size (arena_new 0 4096 1) = 4096 ∧
  (fc_read_fragmented (direct 7 64 1 (arena_new 0 4096 1)) fc 1 0 content (d, replicate (Z.to_nat 4096) 0)).1.1 = Ok 4096.
Proof. vm_compute. split_and!; reflexivity. Qed.
