(* ===== verification/Gate.v ===== *)
(** Gate: the bound on the data requests one process has in flight
    (rust/crates/vfs-ipc/src/concurrent.rs, [DataGate], [Permits],
    [data_limit]).

    Many threads take and return permits at once, by atomic operations, with a
    line of waiters behind a lock. A thread is a program ([gprog]) of those
    operations, and an execution is an interleaving of the threads' operations
    ([gstep]). What depends on time or on the processor — whether a spurious
    compare-and-swap failure happens, whether a lock was free in time, whether
    a waiter's patience has run out or a place in line is stale — may come out
    either way at any time. Sleeping and waking only delay a thread, so they
    are left out: a waiter may look again at any time. Each mutex-protected
    section of [retired] is one step.

    A call whose requests time out gives up some of their slots ([Back]); the
    director goes on with those ([g_busy]) until it is done with one, at any
    time ([gstep_director]). [reclaim] sees the slots one by one while they
    change: it keeps every slot the director is busy with, except that it may
    have looked at one just before a call gave it up, and so before that call
    could record it ([g_loose]); it may keep others.

    A loop has as many rounds as its fuel, and a thread whose fuel is spent
    never moves again ([Out]): since the theorems hold for every fuel, they
    hold at every point of every execution. *)

From S2P Require Import Prelude.

Definition DEFAULT_WORKER_COUNT : Z := 4.

Definition data_limit (workers slots : Z) : Z :=
  let workers := Z.min (if workers =? 0 then DEFAULT_WORKER_COUNT else workers) (Z.max slots 1) in
  let reserve := Z.max (workers / 4) 1 in
  Z.max (sat_sub workers reserve) 1.

(** ** State *)

Definition WAITING : Z := 0.
Definition GRANTED : Z := 1.
Definition GONE : Z := 2.

Record GateConf := mkGateConf { limit : Z; reserve : Z; per_call : Z }.
(** [g_waiters] are the places in line ever taken, by number. The last four
    fields are not part of the code's state: [g_sent] counts the requests out
    that a call waits on, [g_busy] are the slots given up whose request the
    director still has, [g_loose] those given up and not recorded since, and
    [g_missed] counts the times [retire] did not get the lock of [retired]. *)
Record Gate := mkGate {
  g_avail : Z;
  g_queued : Z;
  g_line : list nat;
  g_locked : bool;
  g_waiters : list Z;
  g_retired : list Z;
  g_retired_count : Z;
  g_sent : Z;
  g_busy : gset Z;
  g_loose : gset Z;
  g_missed : Z }.

Definition gate_conf (n : Z) : GateConf :=
  let limit := Z.max n 1 in
  mkGateConf limit (Z.min (Z.max (limit / 4) 1) (limit - 1)) ((limit + 1) / 2).
Definition gate_new (n : Z) : Gate := mkGate (limit (gate_conf n)) 0 [] false [] [] 0 0 ∅ ∅ 0.

Definition in_flight (c : GateConf) (g : Gate) : Z := limit c - Z.min (g_avail g) (limit c).

(** ** Operations *)

Inductive gact : Type → Type :=
  | LoadAvail : gact Z
  | CasAvail (cur new : Z) : gact (bool * Z)
  | AddAvail (n : Z) : gact unit
  | LoadQueued : gact Z
  | AddQueued (n : Z) : gact unit
  | Lock : gact bool
  | Unlock : gact unit
  | NewWaiter : gact nat
  | PushBack (w : nat) : gact unit
  | Front : gact (option nat)
  | PopFront : gact unit
  | LoadState (w : nat) : gact Z
  | CasState (w : nat) (from to : Z) : gact bool
  | LoadRetired : gact Z
  | PutRetired (slot : Z) : gact (option bool)
  | TakeRetired : gact (option Z)
  | Clock : gact bool
  | Sent (n : Z) : gact unit
  | Back (n : Z) : gact (list Z).

Definition set_avail (n : Z) (g : Gate) : Gate :=
  mkGate n (g_queued g) (g_line g) (g_locked g) (g_waiters g) (g_retired g) (g_retired_count g) (g_sent g) (g_busy g) (g_loose g) (g_missed g).
Definition set_queued (n : Z) (g : Gate) : Gate :=
  mkGate (g_avail g) n (g_line g) (g_locked g) (g_waiters g) (g_retired g) (g_retired_count g) (g_sent g) (g_busy g) (g_loose g) (g_missed g).
Definition set_line (l : list nat) (g : Gate) : Gate :=
  mkGate (g_avail g) (g_queued g) l (g_locked g) (g_waiters g) (g_retired g) (g_retired_count g) (g_sent g) (g_busy g) (g_loose g) (g_missed g).
Definition set_locked (b : bool) (g : Gate) : Gate :=
  mkGate (g_avail g) (g_queued g) (g_line g) b (g_waiters g) (g_retired g) (g_retired_count g) (g_sent g) (g_busy g) (g_loose g) (g_missed g).
Definition set_waiters (ws : list Z) (g : Gate) : Gate :=
  mkGate (g_avail g) (g_queued g) (g_line g) (g_locked g) ws (g_retired g) (g_retired_count g) (g_sent g) (g_busy g) (g_loose g) (g_missed g).
Definition set_retired (l : list Z) (g : Gate) : Gate :=
  mkGate (g_avail g) (g_queued g) (g_line g) (g_locked g) (g_waiters g) l (len l) (g_sent g) (g_busy g) (g_loose g) (g_missed g).
Definition set_sent (n : Z) (g : Gate) : Gate :=
  mkGate (g_avail g) (g_queued g) (g_line g) (g_locked g) (g_waiters g) (g_retired g) (g_retired_count g) n (g_busy g) (g_loose g) (g_missed g).
Definition set_slots (busy loose : gset Z) (missed : Z) (g : Gate) : Gate :=
  mkGate (g_avail g) (g_queued g) (g_line g) (g_locked g) (g_waiters g) (g_retired g) (g_retired_count g) (g_sent g) busy loose missed.
Definition recorded (slot : Z) (g : Gate) : Gate := set_slots (g_busy g) (g_loose g ∖ {[slot]}) (g_missed g) g.

(** What an operation may return, and the state after it. *)
Definition gexec {X} (x : gact X) : Gate → X → Gate → Prop :=
  match x in gact X return Gate → X → Gate → Prop with
  | LoadAvail => λ g r g', r = g_avail g ∧ g' = g
  | CasAvail cur new => λ g r g',
      (g_avail g = cur ∧ r = (true, cur) ∧ g' = set_avail new g) ∨ (r = (false, g_avail g) ∧ g' = g)
  | AddAvail n => λ g _ g', g' = set_avail (as_u32 (g_avail g + n)) g
  | LoadQueued => λ g r g', r = g_queued g ∧ g' = g
  | AddQueued n => λ g _ g', g' = set_queued (as_u32 (g_queued g + n)) g
  | Lock => λ g r g', (g_locked g = false ∧ r = true ∧ g' = set_locked true g) ∨ (r = false ∧ g' = g)
  | Unlock => λ g _ g', g' = set_locked false g
  | NewWaiter => λ g r g', r = length (g_waiters g) ∧ g' = set_waiters (g_waiters g ++ [WAITING]) g
  | PushBack w => λ g _ g', g' = set_line (g_line g ++ [w]) g
  | Front => λ g r g', r = head (g_line g) ∧ g' = g
  | PopFront => λ g _ g', g' = set_line (tail (g_line g)) g
  | LoadState w => λ g r g', r = default GONE (g_waiters g !! w) ∧ g' = g
  | CasState w from to => λ g r g',
      if decide (g_waiters g !! w = Some from) then r = true ∧ g' = set_waiters (<[w := to]> (g_waiters g)) g
      else r = false ∧ g' = g
  | LoadRetired => λ g r g', r = g_retired_count g ∧ g' = g
  | PutRetired slot => λ g r g',
      (r = None ∧ g' = set_slots (g_busy g) (g_loose g) (g_missed g + 1) g) ∨
      (slot ∈ g_retired g ∧ r = Some true ∧ g' = recorded slot g) ∨
      (slot ∉ g_retired g ∧ r = Some false ∧ g' = set_retired (g_retired g ++ [slot]) (recorded slot g))
  | TakeRetired => λ g r g',
      (r = None ∧ g' = g) ∨
      ∃ abandoned : Z → bool, (∀ slot, slot ∈ g_busy g → slot ∉ g_loose g → abandoned slot = true) ∧ let kept := filter (λ slot, abandoned slot = true) (g_retired g) in
        r = Some (len (g_retired g) - len kept) ∧ g' = set_retired kept g
  | Clock => λ g _ g', g' = g
  | Sent n => λ g _ g', g' = set_sent (g_sent g + n) g
  | Back n => λ g slots g', len slots ≤ n ∧ ∃ still : gset Z, still ⊆ list_to_set slots ∧
      g' = set_slots (g_busy g ∪ still) (g_loose g ∪ list_to_set slots) (g_missed g) (set_sent (g_sent g - n) g)
  end.

Inductive gprog (A : Type) : Type :=
  | Ret (a : A)
  | Step {X} (x : gact X) (k : X → gprog A)
  | Out.
Arguments Ret {A}.
Arguments Step {A X}.
Arguments Out {A}.

Fixpoint gbind {A B} (f : A → gprog B) (p : gprog A) : gprog B :=
  match p with
  | Ret a => f a
  | Step x k => Step x (λ r, gbind f (k r))
  | Out => Out
  end.
#[export] Instance gprog_ret : MRet gprog := λ A a, Ret a.
#[export] Instance gprog_bind : MBind gprog := λ A B f p, gbind f p.
Definition act {X} (x : gact X) : gprog X := Step x Ret.

Section gate.
Context (c : GateConf).

Fixpoint take_loop (fuel : nat) (want cur : Z) : gprog Z :=
  match fuel with
  | O => Out
  | S fuel =>
      if cur =? 0 then mret 0 else
      let extras := Z.min (sat_sub (cur - 1) (reserve c)) (want - 1) in
      let n := 1 + extras in
      '(done, seen) ← act (CasAvail cur (cur - n));
      if done : bool then mret n else take_loop fuel want seen
  end.
Definition take (fuel : nat) (want : Z) : gprog Z := cur ← act LoadAvail; take_loop fuel want cur.

Fixpoint take_one_loop (fuel : nat) (cur : Z) : gprog bool :=
  match fuel with
  | O => Out
  | S fuel =>
      if cur <=? 0 then mret false else
      '(done, now) ← act (CasAvail cur (cur - 1));
      if done : bool then mret true else take_one_loop fuel now
  end.
Definition take_one (fuel : nat) : gprog bool := cur ← act LoadAvail; take_one_loop fuel cur.

(** [while let Some(front) = line.front()]. *)
Fixpoint hand_out_loop (fuel : nat) : gprog unit :=
  match fuel with
  | O => Out
  | S fuel =>
      front ← act Front;
      match front with
      | None => mret ()
      | Some w =>
          st ← act (LoadState w);
          if negb (st =? WAITING) then act PopFront ≫= λ _, hand_out_loop fuel else
          stale ← act Clock;
          if stale : bool then
            won ← act (CasState w WAITING GONE);
            _ ← (if won : bool then act (AddQueued (-1)) else mret ());
            act PopFront ≫= λ _, hand_out_loop fuel
          else
            got ← take_one fuel;
            if negb got then mret () else
            won ← act (CasState w WAITING GRANTED);
            _ ← (if won : bool then act (AddQueued (-1)) else act (AddAvail 1));
            act PopFront ≫= λ _, hand_out_loop fuel
      end
  end.
Definition hand_out (fuel : nat) : gprog unit :=
  queued ← act LoadQueued;
  if queued =? 0 then mret () else
  locked ← act Lock;
  if negb locked then mret () else
  hand_out_loop fuel ≫= λ _, act Unlock.

Definition release (fuel : nat) (n : Z) : gprog unit :=
  if n =? 0 then mret () else
  act (AddAvail n) ≫= λ _, hand_out fuel.

Fixpoint retire_loop (tries fuel : nat) (slot : Z) : gprog bool :=
  match tries with
  | O => mret false
  | S tries =>
      r ← act (PutRetired slot);
      match r with
      | None => retire_loop tries fuel slot
      | Some true => release fuel 1 ≫= λ _, mret true
      | Some false => mret true
      end
  end.
Definition retire (fuel : nat) (slot : Z) : gprog bool := retire_loop 50 fuel slot.

Definition reclaim (fuel : nat) : gprog Z :=
  n ← act LoadRetired;
  if n =? 0 then mret 0 else
  r ← act TakeRetired;
  match r with
  | None => mret 0
  | Some freed => release fuel freed ≫= λ _, mret freed
  end.

(** Until the lock is had, or patience runs out. The place is made when it is
    put in line: before that nobody else has it. *)
Fixpoint join_line (fuel : nat) : gprog (option nat) :=
  match fuel with
  | O => Out
  | S fuel =>
      locked ← act Lock;
      if locked : bool then
        me ← act NewWaiter;
        _ ← act (PushBack me); _ ← act (AddQueued 1); _ ← act Unlock; mret (Some me)
      else
        late ← act Clock;
        if late : bool then mret None else join_line fuel
  end.

Fixpoint wait_loop (fuel : nat) (me : nat) : gprog bool :=
  match fuel with
  | O => Out
  | S fuel =>
      st ← act (LoadState me);
      if st =? GRANTED then mret true else
      if st =? GONE then
        again ← join_line fuel;
        match again with
        | None => mret false
        | Some me => hand_out fuel ≫= λ _, wait_loop fuel me
        end
      else
        late ← act Clock;
        if late : bool then
          left_ ← act (CasState me WAITING GONE);
          if left_ : bool then act (AddQueued (-1)) ≫= λ _, mret false else wait_loop fuel me
        else
          watch ← act Clock;
          if watch : bool then wait_loop fuel me else
          _ ← reclaim fuel;
          _ ← hand_out fuel;
          locked ← act Lock;
          if locked : bool then _ ← act (LoadState me); _ ← act Unlock; wait_loop fuel me
          else wait_loop fuel me
  end.
Definition wait_in_line (fuel : nat) : gprog bool :=
  me ← join_line fuel;
  match me with
  | None => mret false
  | Some me => hand_out fuel ≫= λ _, wait_loop fuel me
  end.

Definition SPINS : nat := 256.
Fixpoint spin_take (spins fuel : nat) (want n : Z) : gprog Z :=
  match spins with
  | O => mret n
  | S spins =>
      if negb (n =? 0) then mret n else
      queued ← act LoadQueued;
      if negb (queued =? 0) then mret n else
      n ← take fuel want; spin_take spins fuel want n
  end.

Definition acquire (fuel : nat) (want : Z) : gprog (option Z) :=
  let want := Z.min (Z.max want 1) (per_call c) in
  let in_line := (got ← wait_in_line fuel; mret (if got : bool then Some 1 else None)) in
  queued ← act LoadQueued;
  if queued =? 0 then
    n ← take fuel want;
    n ← (if n =? 0 then freed ← reclaim fuel; if 0 <? freed then take fuel want else mret n else mret n);
    n ← spin_take SPINS fuel want n;
    if 0 <? n then mret (Some n) else in_line
  else in_line.

(** [Permits::retire]: the permits left to return. *)
Fixpoint permits_retire (fuel : nat) (n : Z) (slots : list Z) : gprog Z :=
  match slots with
  | [] => mret n
  | slot :: slots =>
      if n =? 0 then mret n else
      kept ← retire fuel slot;
      permits_retire fuel (if kept : bool then n - 1 else n) slots
  end.

(** A data call: permits, as many requests as permits, the slots given up on,
    which stay with the director, and the drop of the rest. *)
Definition data_call (fuel : nat) (want : Z) : gprog unit :=
  p ← acquire fuel want;
  match p with
  | None => mret ()
  | Some n =>
      _ ← act (Sent n);
      slots ← act (Back n);
      n ← permits_retire fuel n slots;
      release fuel n
  end.

Fixpoint data_calls (fuel : nat) (calls : list Z) : gprog unit :=
  match calls with
  | [] => mret ()
  | want :: calls => data_call fuel want ≫= λ _, data_calls fuel calls
  end.
End gate.

(** ** Threads *)

Definition gconfig : Type := Gate * list (gprog unit).

Inductive gstep : gconfig → gconfig → Prop :=
  | gstep_thread g ps i X (x : gact X) k r g' :
      ps !! i = Some (Step x k) → gexec x g r g' → gstep (g, ps) (g', <[i := k r]> ps)
  | gstep_director g ps slot :
      slot ∈ g_busy g → gstep (g, ps) (set_slots (g_busy g ∖ {[slot]}) (g_loose g) (g_missed g) g, ps).

Definition greachable : gconfig → gconfig → Prop := rtc gstep.
