(* ===== verification/GateProps.v ===== *)
(** GateProps: what the gate guarantees, whatever its threads do and however
    their operations interleave.

    Each thread has a [view], its share of the bookkeeping: the permits it
    holds, its place in line and whether that place is counted, the decrements
    of the line's count it still owes, whether it has the line's lock, the
    place in line it is looking at, the slots it has given up and still has to
    record (each with a permit that is not in [v_permits]) and how often it has
    not got the lock to record the first of them. [GInv] ties the gate to all the views; the
    programs are checked one operation at a time against it ([gwp]). *)

From S2P Require Import Prelude Gate.

Record view := mkView {
  v_permits : Z;
  v_mine : option nat;
  v_counted : bool;
  v_owes : Z;
  v_locked : bool;
  v_front : option nat;
  v_sent : Z;
  v_pending : list Z;
  v_tries : nat }.

Definition idle : view := mkView 0 None false 0 false None 0 [] 0.

Definition total (f : view → Z) (vs : list view) : Z := foldr (λ v n, f v + n) 0 vs.

#[export] Instance total_perm f : Proper ((≡ₚ) ==> (=)) (total f).
Proof. unfold total. induction 1; cbn; lia. Qed.

Lemma total_cons f v vs : total f (v :: vs) = f v + total f vs.
Proof. done. Qed.

Lemma total_ext f f' vs : (∀ v, v ∈ vs → f v = f' v) → total f vs = total f' vs.
Proof.
  induction vs as [|v vs IH]; intros H; [done|]. rewrite !total_cons, (H v) by left. rewrite IH; [done|].
  intros v' ?. apply H. by right.
Qed.

Lemma total_le f f' vs : (∀ v, v ∈ vs → f v ≤ f' v) → total f vs ≤ total f' vs.
Proof.
  induction vs as [|v vs IH]; intros H; [done|]. rewrite !total_cons. specialize (H v ltac:(left)) as Hv.
  specialize (IH (λ v' Hv', H v' ltac:(by right))). lia.
Qed.

(** Does a view's place in line have the state [x]? *)
Definition place (ws : list Z) (x : Z) (v : view) : bool :=
  match v_mine v with Some w => bool_decide (ws !! w = Some x) | None => false end.
Definition granted (ws : list Z) (v : view) : Z := if place ws GRANTED v then 1 else 0.
Definition counts (ws : list Z) (v : view) : Z := (if place ws WAITING v && v_counted v then 1 else 0) + v_owes v.
Definition locks (v : view) : Z := if v_locked v then 1 else 0.
Definition pends (v : view) : Z := len (v_pending v).
Definition tries (v : view) : Z := Z.of_nat (v_tries v).

Record view_ok (v : view) : Prop := {
  vo_permits : 0 ≤ v_permits v;
  vo_owes : 0 ≤ v_owes v ≤ 1;
  vo_sent : 0 ≤ v_sent v ≤ v_permits v }.

(** The part of the invariant that is about places in line. *)
Record Places (ws : list Z) (line : list nat) (vs : list view) : Prop := {
  pl_own : ∀ w, ws !! w = Some WAITING → ∃ v, v ∈ vs ∧ v_mine v = Some w;
  pl_dup : NoDup (omap v_mine vs);
  pl_line : ∀ w v, w ∈ line → v ∈ vs → v_mine v = Some w → v_counted v = true ∨ v_locked v = true;
  pl_new : ∀ w v, v ∈ vs → v_mine v = Some w → v_counted v = false → ws !! w = Some WAITING;
  pl_front : ∀ w v v', v ∈ vs → v' ∈ vs → v_front v = Some w → v_mine v' = Some w → v_counted v' = true;
  pl_range : ∀ w v, v ∈ vs → v_mine v = Some w ∨ v_front v = Some w → (w < length ws)%nat;
  pl_queue : ∀ w, w ∈ line → (w < length ws)%nat }.

(** The part about slots given up: what the director is busy with is recorded,
    or still to be recorded by a thread, or was lost after fifty attempts. *)
Record Slots (busy loose : gset Z) (retired : list Z) (missed : Z) (vs : list view) : Prop := {
  sl_busy : ∀ s, s ∈ busy → s ∈ retired ∨ s ∈ loose;
  sl_loose : ∃ lost : list Z, (∀ s, s ∈ loose → s ∈ lost ∨ ∃ v, v ∈ vs ∧ s ∈ v_pending v) ∧
               50 * len lost + total tries vs ≤ missed }.

Record GInv (c : GateConf) (g : Gate) (vs : list view) : Prop := {
  gi_ok : Forall view_ok vs;
  gi_avail : 0 ≤ g_avail g;
  gi_total : g_avail g + total v_permits vs + total (granted (g_waiters g)) vs + total pends vs + len (g_retired g) = limit c;
  gi_queued : g_queued g = total (counts (g_waiters g)) vs;
  gi_lock : total locks vs = if g_locked g then 1 else 0;
  gi_places : Places (g_waiters g) (g_line g) vs;
  gi_sent : g_sent g = total v_sent vs;
  gi_many : Z.of_nat (length vs) < 2 ^ 30;
  gi_slots : Slots (g_busy g) (g_loose g) (g_retired g) (g_missed g) vs }.

Lemma Slots_permuted busy loose retired missed vs vs' : vs ≡ₚ vs' → Slots busy loose retired missed vs → Slots busy loose retired missed vs'.
Proof.
  intros Hp [H1 (lost & H2 & H3)]. split; [done|]. exists lost. split; [|by rewrite <- Hp].
  intros s Hs. destruct (H2 s Hs) as [?|(v & Hv & ?)]; [by left|]. right. exists v. by rewrite <- Hp.
Qed.

Lemma Slots_view busy loose retired missed v v' vs :
  v_pending v' = v_pending v → v_tries v' = v_tries v →
  Slots busy loose retired missed (v :: vs) → Slots busy loose retired missed (v' :: vs).
Proof.
  intros E1 E2 [H1 (lost & H2 & H3)]. split; [done|]. exists lost. split.
  - intros s Hs. destruct (H2 s Hs) as [?|(x & [->|Hx]%elem_of_cons & Hin)]; [by left| |].
    + right. exists v'. split; [left|by rewrite E1].
    + right. exists x. split; [by right|done].
  - rewrite total_cons in *. unfold tries at 1. by rewrite E2.
Qed.

Lemma Places_permuted ws line vs vs' : vs ≡ₚ vs' → Places ws line vs → Places ws line vs'.
Proof.
  intros Hp [H1 H2 H3 H4 H5 H6 H0]. assert (∀ v, v ∈ vs' → v ∈ vs) as Hin by (intros v; by rewrite Hp). split; eauto.
  - intros w Hw. destruct (H1 w Hw) as (v & Hv & ?). exists v. by rewrite <- Hp.
  - by rewrite <- Hp.
Qed.

(** Another view of the same place in line. *)
Lemma Places_change ws line v v' vs :
  v_mine v' = v_mine v → (v_counted v = true → v_counted v' = true) →
  (∀ w, w ∈ line → v_mine v = Some w → v_counted v' = true ∨ v_locked v' = true) →
  (∀ w, v_front v' = Some w → v_front v = Some w ∨
     (w < length ws)%nat ∧ ∀ x, x ∈ v' :: vs → v_mine x = Some w → v_counted x = true) →
  Places ws line (v :: vs) → Places ws line (v' :: vs).
Proof.
  intros E1 E2 E3 E4 [H1 H2 H3 H4 H5 H6 H0].
  assert (∀ x, x ∈ v' :: vs → x = v' ∨ x ∈ v :: vs) as Hin
    by (intros x [->|Hx]%elem_of_cons; [by left|right; by right]).
  split.
  - intros w Hw. destruct (H1 w Hw) as (x & [->|Hx]%elem_of_cons & Hm).
    + exists v'. split; [left|by rewrite E1].
    + exists x. split; [by right|done].
  - cbn [omap list_omap] in *. by rewrite E1.
  - intros w x Hw [->|Hx]%Hin Hm; [|eauto]. rewrite E1 in Hm. by apply (E3 w).
  - intros w x [->|Hx]%Hin Hm Hc; [|eauto]. rewrite E1 in Hm. apply (H4 w v); [left|done|].
    destruct (v_counted v) eqn:E; [|done]. rewrite E2 in Hc; done.
  - assert (∀ w x y, x ∈ v :: vs → y ∈ v' :: vs → v_front x = Some w → v_mine y = Some w → v_counted y = true) as Hold.
    { intros w x y Hx [->|Hy]%Hin Hf Hm; [|eauto]. rewrite E1 in Hm. apply E2. by apply (H5 w x v Hx ltac:(left)). }
    intros w x y Hx Hy Hf Hm. destruct (Hin x Hx) as [->|Hx']; [|by eapply Hold].
    destruct (E4 w Hf) as [Hf'|[_ Hall]]; [|by apply Hall]. by apply (Hold w v y); [left| | |].
  - intros w x Hx [Hm|Hf]; destruct (Hin x Hx) as [->|Hx'].
    + rewrite E1 in Hm. apply (H6 w v); [left|by left].
    + apply (H6 w x); [done|by left].
    + destruct (E4 w Hf) as [Hf'|[? _]]; [|done]. apply (H6 w v); [left|by right].
    + apply (H6 w x); [done|by right].
  - done.
Qed.

Lemma Places_view ws line v v' vs :
  v_mine v' = v_mine v → v_counted v' = v_counted v → v_locked v' = v_locked v → v_front v' = v_front v →
  Places ws line (v :: vs) → Places ws line (v' :: vs).
Proof.
  intros E1 E2 E3 E4 HP. apply (Places_change ws line v); [done|by rewrite E2| |rewrite E4; by left|done].
  intros w Hw Hm. rewrite E2, E3. apply (pl_line _ _ _ HP w v Hw); [left|done].
Qed.

#[export] Instance GInv_perm c g : Proper ((≡ₚ) ==> iff) (GInv c g).
Proof.
  assert (∀ vs vs', vs ≡ₚ vs' → GInv c g vs → GInv c g vs') as H.
  { intros vs vs' Hp []. split; try (rewrite <- Hp; done); try done; [by eapply Places_permuted|by eapply Slots_permuted]. }
  intros vs vs' Hp. split; by apply H.
Qed.

(** ** Programs against the invariant *)

Section wp.
Context (c : GateConf).

(** Whatever the other threads' views are, each operation of the program keeps
    the invariant when this thread's view changes with it, and [Q] holds of
    the result and the view when it returns. *)
Fixpoint gwp {A} (v : view) (p : gprog A) (Q : A → view → Prop) : Prop :=
  match p with
  | Ret a => Q a v
  | Step x k => ∀ g vs r g', GInv c g (v :: vs) → gexec x g r g' → ∃ v', GInv c g' (v' :: vs) ∧ gwp v' (k r) Q
  | Out => True
  end.

Lemma gwp_mono {A} v (p : gprog A) (Q Q' : A → view → Prop) : (∀ a v, Q a v → Q' a v) → gwp v p Q → gwp v p Q'.
Proof using.
  intros HQ. revert v. induction p as [a|X x k IH|]; intros v; cbn; [apply HQ| |done].
  intros H g vs r g' HI Hx. destruct (H g vs r g' HI Hx) as (v' & ? & ?). eauto.
Qed.

Lemma gwp_call {A B} v (p : gprog A) (f : A → gprog B) (R : A → view → Prop) Q :
  gwp v p R → (∀ a v', R a v' → gwp v' (f a) Q) → gwp v (p ≫= f) Q.
Proof using.
  intros Hp Hf. revert v Hp. induction p as [a|X x k IH|]; intros v; cbn; [apply Hf| |done].
  intros H g vs r g' HI Hx. destruct (H g vs r g' HI Hx) as (v' & ? & ?). exists v'. split; [done|]. by apply IH.
Qed.

Lemma gwp_act {A X} v (x : gact X) (f : X → gprog A) Q :
  (∀ g vs r g', GInv c g (v :: vs) → gexec x g r g' → ∃ v', GInv c g' (v' :: vs) ∧ gwp v' (f r) Q) →
  gwp v (act x ≫= f) Q.
Proof using. done. Qed.
End wp.

(** ** Operations against the invariant *)

Section ops.
Context (c : GateConf) (Hlim : limit c < u32_max).

Lemma place_view ws x v v' : v_mine v' = v_mine v → place ws x v' = place ws x v.
Proof using. clear. unfold place. by intros ->. Qed.

Lemma votes_nonneg f vs : (∀ v, v ∈ vs → 0 ≤ f v) → 0 ≤ total f vs.
Proof using. clear. intros H. pose proof (total_le (λ _, 0) f vs H). assert (total (λ _, 0) vs = 0) by (clear; induction vs; [done|rewrite total_cons; lia]). lia. Qed.

(** The permits accounted for, by kind, in a state with this thread first. *)
Lemma GInv_sums g v vs :
  GInv c g (v :: vs) →
  view_ok v ∧ 0 ≤ g_avail g ∧ g_avail g + v_permits v ≤ limit c ∧ 0 ≤ granted (g_waiters g) v ∧
  g_queued g = counts (g_waiters g) v + total (counts (g_waiters g)) vs ∧ 0 ≤ total (counts (g_waiters g)) vs ∧
  g_queued g < 2 ^ 31.
Proof using.
  clear Hlim. intros [H1 H2 H3 H4 H5 H6 H7 H8 H9]. apply Forall_cons in H1 as [Hv Hvs]. rewrite Forall_forall in Hvs.
  rewrite !total_cons in *. pose proof (len_nonneg (g_retired g)).
  assert (0 ≤ total v_permits vs) by (apply votes_nonneg; intros; by apply Hvs).
  assert (∀ v, 0 ≤ granted (g_waiters g) v) as Hg by (intros v'; unfold granted; destruct (place _ _ _); lia).
  assert (0 ≤ total (granted (g_waiters g)) vs) by (apply votes_nonneg; intros; apply Hg).
  assert (∀ v, view_ok v → 0 ≤ counts (g_waiters g) v ≤ 2) as Hc by (intros v' [_ ? _]; unfold counts; destruct (place _ _ _ && _); lia).
  assert (0 ≤ total (counts (g_waiters g)) vs) by (apply votes_nonneg; intros; by apply Hc, Hvs).
  assert (total (counts (g_waiters g)) vs ≤ total (λ _, 2) vs) by (apply total_le; intros; by apply Hc, Hvs).
  assert (total (λ _, 2) vs = 2 * Z.of_nat (length vs)) by (clear; induction vs as [|? ? IH]; [done|rewrite total_cons, IH; cbn [length]; lia]).
  assert (0 ≤ pends v ∧ 0 ≤ total pends vs) as [? ?] by (split; [apply len_nonneg|apply votes_nonneg; intros; apply len_nonneg]).
  specialize (Hg v). specialize (Hc v Hv). cbn [length] in H8. split_and!; try done; lia.
Qed.

(** A thread's permits change hands with those in the gate. *)
Lemma GInv_avail g v v' vs n r busy loose missed :
  GInv c g (v :: vs) → view_ok v' → 0 ≤ g_avail g - n →
  v_mine v' = v_mine v → v_counted v' = v_counted v → v_locked v' = v_locked v → v_front v' = v_front v →
  v_owes v' = v_owes v → v_sent v' = v_sent v → len r + pends v' = len (g_retired g) + pends v + (v_permits v + n - v_permits v') →
  Slots busy loose r missed (v' :: vs) →
  ∀ count, GInv c (mkGate (g_avail g - n) (g_queued g) (g_line g) (g_locked g) (g_waiters g) r count (g_sent g) busy loose missed) (v' :: vs).
Proof using.
  clear Hlim. intros [H1 H2 H3 H4 H5 H6 H7 H8 H9] Hok Hn E1 E2 E3 E4 E5 E6 El Hsl count. apply Forall_cons in H1 as [Hv Hvs].
  rewrite !total_cons in *.
  assert (granted (g_waiters g) v' = granted (g_waiters g) v) as Eg by (unfold granted; by rewrite (place_view _ _ v v')).
  assert (counts (g_waiters g) v' = counts (g_waiters g) v) as Ec by (unfold counts; by rewrite (place_view _ _ v v'), E2, E5).
  assert (locks v' = locks v) as Eo by (unfold locks; by rewrite E3).
  split; cbn [g_avail g_queued g_line g_locked g_waiters g_retired g_sent g_busy g_loose g_missed]; try (by constructor); try done;
    rewrite ?total_cons, ?Eg, ?Ec, ?Eo, ?E6; try lia; try done; by eapply Places_view.
Qed.

(** *** Changes of a view *)

Definition with_permits (n : Z) (v : view) : view :=
  mkView n (v_mine v) (v_counted v) (v_owes v) (v_locked v) (v_front v) (v_sent v) (v_pending v) (v_tries v).
Definition with_place (m : option nat) (counted : bool) (v : view) : view :=
  mkView (v_permits v) m counted (v_owes v) (v_locked v) (v_front v) (v_sent v) (v_pending v) (v_tries v).
Definition with_owes (n : Z) (v : view) : view :=
  mkView (v_permits v) (v_mine v) (v_counted v) n (v_locked v) (v_front v) (v_sent v) (v_pending v) (v_tries v).
Definition with_lock (b : bool) (v : view) : view :=
  mkView (v_permits v) (v_mine v) (v_counted v) (v_owes v) b (v_front v) (v_sent v) (v_pending v) (v_tries v).
Definition with_front (w : option nat) (v : view) : view :=
  mkView (v_permits v) (v_mine v) (v_counted v) (v_owes v) (v_locked v) w (v_sent v) (v_pending v) (v_tries v).
Definition with_sent (n : Z) (v : view) : view :=
  mkView (v_permits v) (v_mine v) (v_counted v) (v_owes v) (v_locked v) (v_front v) n (v_pending v) (v_tries v).
Definition with_pending (l : list Z) (k : nat) (v : view) : view :=
  mkView (v_permits v) (v_mine v) (v_counted v) (v_owes v) (v_locked v) (v_front v) (v_sent v) l k.

(** *** Permits *)

Lemma gwp_load_avail {A} v (f : Z → gprog A) Q :
  (∀ n, 0 ≤ n → gwp c v (f n) Q) → gwp c v (act LoadAvail ≫= f) Q.
Proof using. intros H g vs r g' HI [-> ->]. exists v. split; [done|]. apply H. apply HI. Qed.

(** A thread's permits and the gate's, with the slots as they are. *)
Lemma GInv_move g v vs n :
  GInv c g (v :: vs) → 0 ≤ g_avail g - n → v_sent v ≤ v_permits v + n →
  GInv c (set_avail (g_avail g - n) g) (with_permits (v_permits v + n) v :: vs).
Proof using.
  clear Hlim. intros HI Hn Hs. destruct (GInv_sums g v vs HI) as (Hv & _).
  refine (GInv_avail g v (with_permits (v_permits v + n) v) vs n (g_retired g) _ _ _ HI _ Hn eq_refl eq_refl eq_refl eq_refl eq_refl eq_refl _ _ _).
  - destruct Hv. split; cbn; lia.
  - unfold pends. cbn. lia.
  - by apply (Slots_view _ _ _ _ v); [| |apply HI].
Qed.

Lemma gwp_cas_avail {A} v cur n (f : bool * Z → gprog A) Q :
  0 ≤ n ≤ cur →
  gwp c (with_permits (v_permits v + n) v) (f (true, cur)) Q → (∀ m, 0 ≤ m → gwp c v (f (false, m)) Q) →
  gwp c v (act (CasAvail cur (cur - n)) ≫= f) Q.
Proof using.
  intros Hn H1 H2 g vs r g' HI [(Ha & -> & ->)|(-> & ->)].
  - destruct (GInv_sums g v vs HI) as ([_ _ ?] & _). exists (with_permits (v_permits v + n) v). split; [|done]. subst cur.
    apply GInv_move; [done|lia|lia].
  - exists v. split; [done|]. apply H2, HI.
Qed.

Lemma gwp_add_avail {A} v n (f : unit → gprog A) Q :
  0 ≤ n ≤ v_permits v - v_sent v →
  gwp c (with_permits (v_permits v - n) v) (f ()) Q → gwp c v (act (AddAvail n) ≫= f) Q.
Proof using Hlim.
  intros Hn H g vs [] g' HI ->. exists (with_permits (v_permits v - n) v). split; [|done].
  destruct (GInv_sums g v vs HI) as (Hv & Ha & Hs & _). pose proof (vo_sent v Hv).
  unfold as_u32. rewrite Z.mod_small by lia.
  replace (g_avail g + n) with (g_avail g - (- n)) by lia. apply (GInv_move g v vs (- n)); [done|lia|lia].
Qed.

(** *** Slots given up *)

Lemma Slots_recorded slot slots v v' vs busy loose retired retired' missed :
  v_pending v = slot :: slots → v_pending v' = slots → v_tries v' = 0%nat → slot ∈ retired' → (∀ s, s ∈ retired → s ∈ retired') →
  Slots busy loose retired missed (v :: vs) → Slots busy (loose ∖ {[slot]}) retired' missed (v' :: vs).
Proof using.
  clear. intros E1 E2 E3 Hin Hsub [Hbusy (lost & Hlost & Hmiss)]. split.
  - intros s Hs. destruct (decide (s = slot)) as [->|]; [by left|]. destruct (Hbusy s Hs); [left; auto|right; set_solver].
  - exists lost. split.
    + intros s [Hs Hne%not_elem_of_singleton]%elem_of_difference. destruct (Hlost s Hs) as [?|(x & [->|Hx]%elem_of_cons & Hi)]; [by left| |right; exists x; split; [by right|done]].
      rewrite E1 in Hi. apply elem_of_cons in Hi as [?|Hi]; [done|]. right. exists v'. split; [left|by rewrite E2].
    + rewrite total_cons in *. unfold tries at 1 in Hmiss. unfold tries at 1. rewrite E3. lia.
Qed.

(** The first slot still to record is recorded, or was found recorded already,
    or the lock was not had; the last time of fifty the slot is lost. *)
Lemma gwp_put_retired {A} v slot slots (f : option bool → gprog A) Q :
  v_pending v = slot :: slots → (v_tries v < 50)%nat →
  (S (v_tries v) = 50%nat → gwp c (with_permits (v_permits v + 1) (with_pending slots 0 v)) (f None) Q) →
  ((S (v_tries v) < 50)%nat → gwp c (with_pending (slot :: slots) (S (v_tries v)) v) (f None) Q) →
  gwp c (with_permits (v_permits v + 1) (with_pending slots 0 v)) (f (Some true)) Q →
  gwp c (with_pending slots 0 v) (f (Some false)) Q →
  gwp c v (act (PutRetired slot) ≫= f) Q.
Proof using.
  clear Hlim. intros Hp Ht H1 H2 H3 H4 g vs r g' HI Hx. destruct (GInv_sums g v vs HI) as (Hv & Ha & _).
  destruct (gi_slots _ _ _ HI) as [Hbusy (lost & Hlost & Hmiss)]. rewrite total_cons in Hmiss. unfold tries at 1 in Hmiss.
  replace (g_avail g) with (g_avail g - 0) in Ha by lia.
  destruct Hx as [(-> & ->)|[(Hin & -> & ->)|(Hin & -> & ->)]].
  - destruct (decide (S (v_tries v) = 50%nat)) as [E|E].
    + exists (with_permits (v_permits v + 1) (with_pending slots 0 v)). split; [|by apply H1].
      unfold set_slots. replace (g_avail g) with (g_avail g - 0) by lia. apply (GInv_avail g v); try done; [destruct Hv; split; cbn; lia| |].
      * unfold pends. rewrite Hp, len_cons. cbn. lia.
      * split; [done|]. exists (slot :: lost). split; [|rewrite total_cons, len_cons; unfold tries at 1; cbn; lia].
        intros s Hs. destruct (Hlost s Hs) as [?|(x & [->|Hx]%elem_of_cons & Hin)]; [left; by right| |right; exists x; split; [by right|done]].
        rewrite Hp in Hin. apply elem_of_cons in Hin as [->|Hin]; [left; by left|]. right. eexists. split; [by left|done].
    + exists (with_pending (slot :: slots) (S (v_tries v)) v). split; [|apply H2; lia].
      unfold set_slots. replace (g_avail g) with (g_avail g - 0) by lia. apply (GInv_avail g v); try done; [by destruct Hv|unfold pends; rewrite Hp; cbn; lia|].
      split; [done|]. exists lost. split; [|rewrite total_cons; unfold tries at 1; cbn; lia].
      intros s Hs. destruct (Hlost s Hs) as [?|(x & [->|Hx]%elem_of_cons & Hin)]; [by left| |right; exists x; split; [by right|done]].
      right. eexists. split; [by left|]. cbn. by rewrite <- Hp.
  - exists (with_permits (v_permits v + 1) (with_pending slots 0 v)). split; [|done].
    unfold recorded, set_slots. replace (g_avail g) with (g_avail g - 0) by lia. apply (GInv_avail g v); try done; [destruct Hv; split; cbn; lia| |].
    + unfold pends. rewrite Hp, len_cons. cbn. lia.
    + apply (Slots_recorded slot slots v _ _ _ _ (g_retired g)); [done|done|done|done|done|apply HI].
  - exists (with_pending slots 0 v). split; [|done].
    unfold recorded, set_slots, set_retired. cbn [g_avail g_queued g_line g_locked g_waiters g_retired g_sent g_busy g_loose g_missed].
    replace (g_avail g) with (g_avail g - 0) by lia. apply (GInv_avail g v); try done; [by destruct Hv| |].
    + unfold pends. rewrite Hp, len_cons, len_app. cbn [with_pending v_pending v_permits]. change (len [slot]) with 1. lia.
    + apply (Slots_recorded slot slots v _ _ _ _ (g_retired g)); [done|done|done|set_solver|set_solver|apply HI].
Qed.

Lemma gwp_take_retired {A} v (f : option Z → gprog A) Q :
  gwp c v (f None) Q → (∀ n, 0 ≤ n → gwp c (with_permits (v_permits v + n) v) (f (Some n)) Q) →
  gwp c v (act TakeRetired ≫= f) Q.
Proof using.
  clear Hlim. intros H1 H2 g vs r g' HI [(-> & ->)|(ab & Hab & -> & ->)]; [by exists v|]. destruct (GInv_sums g v vs HI) as (Hv & Ha & _).
  set (kept := filter _ _). assert (len kept ≤ len (g_retired g)) by (unfold len; apply inj_le; apply length_filter).
  exists (with_permits (v_permits v + (len (g_retired g) - len kept)) v). split; [|apply H2; lia].
  unfold set_retired. replace (g_avail g) with (g_avail g - 0) by lia. apply (GInv_avail g v); try done; [destruct Hv; split; cbn; lia|lia|unfold pends; cbn; lia|].
  destruct (gi_slots _ _ _ HI) as [Hbusy Hl]. apply (Slots_view _ _ _ _ v); [done|done|]. split; [|done].
  intros s Hs. destruct (decide (s ∈ g_loose g)) as [?|Hn]; [by right|]. destruct (Hbusy s Hs) as [Hr|?]; [|done].
  left. apply list_elem_of_filter. split; [by apply Hab|done].
Qed.

(** The requests come back, and some of their slots stay with the director. *)
Lemma gwp_back {A} v n (f : list Z → gprog A) Q :
  n = v_sent v → v_pending v = [] → v_tries v = 0%nat →
  (∀ slots, len slots ≤ n → gwp c (with_pending slots 0 (with_permits (v_permits v - len slots) (with_sent 0 v))) (f slots) Q) →
  gwp c v (act (Back n) ≫= f) Q.
Proof using.
  clear Hlim. intros Hn Hp Ht H g vs slots g' HI (Hlen & still & Hst & ->). pose proof (len_nonneg slots).
  eexists. split; [|by apply H]. destruct HI as [H1 H2 H3 H4 H5 H6 H7 H8 H9]. apply Forall_cons in H1 as [Hv Hvs].
  assert (pends v = 0) by (unfold pends; by rewrite Hp).
  split; cbn [set_slots set_sent g_avail g_queued g_line g_locked g_waiters g_retired g_sent g_busy g_loose g_missed]; rewrite ?total_cons in *; try done.
  - constructor; [|done]. destruct Hv. split; cbn; lia.
  - change (granted (g_waiters g) (with_pending _ _ _)) with (granted (g_waiters g) v).
    change (pends (with_pending _ _ _)) with (len slots). cbn [with_pending with_permits v_permits]. lia.
  - by apply (Places_view _ _ v).
  - cbn [with_pending with_permits with_sent v_sent]. lia.
  - destruct H9 as [Hbusy (lost & Hlost & Hmiss)]. split; [set_solver|]. exists lost. split.
    + intros s [Hs|Hs%elem_of_list_to_set]%elem_of_union; [|right; eexists; split; [by left|done]].
      destruct (Hlost s Hs) as [?|(x & [->|Hx]%elem_of_cons & Hin)]; [by left| |right; exists x; split; [by right|done]].
      rewrite Hp in Hin. by apply elem_of_nil in Hin.
    + rewrite total_cons in *. unfold tries at 1 in Hmiss. rewrite Ht in Hmiss. exact Hmiss.
Qed.

(** *** The line *)

Lemma gwp_look {A X} v (x : gact X) (f : X → gprog A) Q :
  (∀ g r g', gexec x g r g' → g' = g) → (∀ r, gwp c v (f r) Q) → gwp c v (act x ≫= f) Q.
Proof using. intros Hx H g vs r g' HI E. rewrite (Hx _ _ _ E). exists v. split; [done|apply H]. Qed.

Lemma gwp_owed {A} v (f : unit → gprog A) Q :
  v_owes v = 1 → gwp c (with_owes 0 v) (f ()) Q → gwp c v (act (AddQueued (-1)) ≫= f) Q.
Proof using.
  clear Hlim. intros Ho H g vs [] g' HI ->. exists (with_owes 0 v). split; [|done].
  destruct (GInv_sums g v vs HI) as (Hv & _ & _ & _ & Hq & Hqs & Hq31).
  assert (counts (g_waiters g) v = counts (g_waiters g) (with_owes 0 v) + 1) as Ec.
  { unfold counts. rewrite (place_view _ _ v (with_owes 0 v)) by done. cbn. lia. }
  assert (0 ≤ counts (g_waiters g) (with_owes 0 v)) by (unfold counts; destruct (place _ _ _ && _); cbn; lia).
  unfold as_u32, set_queued. rewrite Z.mod_small by (unfold u32_max; lia).
  destruct HI as [H1 H2 H3 H4 H5 H6 H7 H8 H9]. apply Forall_cons in H1 as [_ Hvs]. rewrite !total_cons in *.
  split; cbn [g_avail g_queued g_line g_locked g_waiters g_retired g_sent g_busy g_loose g_missed]; rewrite ?total_cons; try done; try lia; try (by apply (Slots_view _ _ _ _ v)).
  - constructor; [|done]. destruct Hv. split; cbn; lia.
  - by apply (Places_view _ _ v).
Qed.

Lemma gwp_lock {A} v (f : bool → gprog A) Q :
  (v_locked v = false → gwp c (with_lock true v) (f true) Q) → gwp c v (f false) Q → gwp c v (act Lock ≫= f) Q.
Proof using.
  clear Hlim. intros Hy Hn g vs r g' HI [(Hl & -> & ->)|(-> & ->)]; [|by exists v]. destruct HI as [H1 H2 H3 H4 H5 H6 H7 H8 H9].
  rewrite Hl in H5. rewrite total_cons in H5.
  assert (0 ≤ total locks vs) by (apply votes_nonneg; intros x _; unfold locks; destruct (v_locked x); lia).
  assert (v_locked v = false) as Hu by (unfold locks in H5 at 1; destruct (v_locked v); [lia|done]).
  exists (with_lock true v). split; [|by apply Hy]. apply Forall_cons in H1 as [Hv Hvs].
  split; cbn [set_locked g_avail g_queued g_line g_locked g_waiters g_retired g_sent g_busy g_loose g_missed]; rewrite ?total_cons in *; try done; try lia; try (by apply (Slots_view _ _ _ _ v)).
  - constructor; [|done]. by destruct Hv.
  - unfold locks at 1 in H5. rewrite Hu in H5. cbn. lia.
  - apply (Places_change _ _ v); [done|done|by right|by left|done].
Qed.

Lemma gwp_unlock {A} v (f : unit → gprog A) Q :
  v_locked v = true → (∀ w, v_mine v = Some w → v_counted v = true) →
  gwp c (with_front None (with_lock false v)) (f ()) Q → gwp c v (act Unlock ≫= f) Q.
Proof using.
  clear Hlim. intros Hl Hc H g vs [] g' HI ->. exists (with_front None (with_lock false v)). split; [|done].
  destruct HI as [H1 H2 H3 H4 H5 H6 H7 H8 H9]. apply Forall_cons in H1 as [Hv Hvs]. rewrite total_cons in H5.
  assert (0 ≤ total locks vs) by (apply votes_nonneg; intros x _; unfold locks; destruct (v_locked x); lia).
  unfold locks at 1 in H5. rewrite Hl in H5.
  split; cbn [set_locked g_avail g_queued g_line g_locked g_waiters g_retired g_sent g_busy g_loose g_missed]; rewrite ?total_cons in *; try done; try lia; try (by apply (Slots_view _ _ _ _ v)).
  - constructor; [|done]. by destruct Hv.
  - cbn. destruct (g_locked g); lia.
  - apply (Places_change _ _ v); [done|done| |done|done]. intros w _ Hm. left. by apply (Hc w).
Qed.

Lemma gwp_sent {A} v n (f : unit → gprog A) Q :
  0 ≤ v_sent v + n ≤ v_permits v → gwp c (with_sent (v_sent v + n) v) (f ()) Q → gwp c v (act (Sent n) ≫= f) Q.
Proof using.
  clear Hlim. intros Hn H g vs [] g' HI ->. exists (with_sent (v_sent v + n) v). split; [|done].
  destruct HI as [H1 H2 H3 H4 H5 H6 H7 H8 H9]. apply Forall_cons in H1 as [Hv Hvs].
  split; cbn [set_sent g_avail g_queued g_line g_locked g_waiters g_retired g_sent g_busy g_loose g_missed]; rewrite ?total_cons in *; try done; try (cbn; lia); try (by apply (Slots_view _ _ _ _ v)).
  - constructor; [|done]. destruct Hv. split; cbn; lia.
  - by apply (Places_view _ _ v).
Qed.

(** The line is only changed by the thread that has its lock. *)
Lemma gwp_pop {A} v (f : unit → gprog A) Q :
  gwp c v (f ()) Q → gwp c v (act PopFront ≫= f) Q.
Proof using.
  clear Hlim. intros H g vs [] g' HI ->. exists v. split; [|done]. destruct HI as [H1 H2 H3 H4 H5 H6 H7 H8 H9].
  split; cbn [set_line g_avail g_queued g_line g_locked g_waiters g_retired g_sent g_busy g_loose g_missed]; try done.
  destruct H6 as [P1 P2 P3 P4 P5 P6 P7]. assert (∀ w, w ∈ tail (g_line g) → w ∈ g_line g) as Ht
    by (intros w Hw; destruct (g_line g); [done|by right]). split; eauto.
Qed.

Lemma gwp_front {A} v (f : option nat → gprog A) Q :
  v_locked v = true → (∀ w, v_mine v = Some w → v_counted v = true) →
  gwp c v (f None) Q → (∀ w, gwp c (with_front (Some w) v) (f (Some w)) Q) → gwp c v (act Front ≫= f) Q.
Proof using.
  clear Hlim. intros Hl Hc Hn Hw g vs r g' HI [-> ->]. destruct (g_line g) as [|w l] eqn:El; cbn [head]; [by exists v|].
  exists (with_front (Some w) v). split; [|apply Hw]. destruct HI as [H1 H2 H3 H4 H5 H6 H7 H8 H9].
  apply Forall_cons in H1 as [Hv Hvs].
  assert (total locks vs = 0) as Hz.
  { rewrite total_cons in H5. unfold locks at 1 in H5. rewrite Hl in H5.
    assert (0 ≤ total locks vs) by (apply votes_nonneg; intros x _; unfold locks; destruct (v_locked x); lia).
    destruct (g_locked g); lia. }
  assert (∀ x, x ∈ vs → v_locked x = false) as Hunl.
  { clear -Hz. induction vs as [|y vs IH]; [by intros x ?%elem_of_nil|]. rewrite total_cons in Hz.
    assert (0 ≤ total locks vs) by (apply votes_nonneg; intros x _; unfold locks; destruct (v_locked x); lia).
    assert (locks y = 0 ∧ total locks vs = 0) as [Hy Hr] by (unfold locks at 1 in Hz; unfold locks at 1; destruct (v_locked y); lia).
    intros x [->|Hx]%elem_of_cons; [|by apply IH]. unfold locks in Hy. by destruct (v_locked y). }
  split; rewrite ?total_cons in *; try done; try (by apply (Slots_view _ _ _ _ v)).
  - constructor; [|done]. by destruct Hv.
  - apply (Places_change _ _ v); [done|done| | |done].
    + intros w' Hw' Hm. left. by apply (Hc w').
    + intros w' [= <-]. right. assert (w ∈ g_line g) as Hin by (rewrite El; left).
      split; [by apply H6|]. intros x [->|Hx]%elem_of_cons Hm; [by apply (Hc w)|].
      destruct (pl_line _ _ _ H6 w x Hin ltac:(by right) Hm) as [?|Hlk]; [done|]. by rewrite Hunl in Hlk.
Qed.

Lemma gwp_push {A} v w (f : unit → gprog A) Q :
  v_locked v = true → v_mine v = Some w → gwp c v (f ()) Q → gwp c v (act (PushBack w) ≫= f) Q.
Proof using.
  clear Hlim. intros Hl Hm H g vs [] g' HI ->. exists v. split; [|done]. destruct HI as [H1 H2 H3 H4 H5 H6 H7 H8 H9].
  split; cbn [set_line g_avail g_queued g_line g_locked g_waiters g_retired g_sent g_busy g_loose g_missed]; try done.
  destruct H6 as [P1 P2 P3 P4 P5 P6 P7]. split; try done.
  - intros w' x [Hw|Hw%list_elem_of_singleton]%elem_of_app Hx Hmx; [eauto|]. subst w'.
    apply elem_of_cons in Hx as [->|Hx]; [by right|]. exfalso. cbn [omap list_omap] in P2. rewrite Hm in P2.
    apply NoDup_cons in P2 as [P2 _]. apply P2. apply list_elem_of_omap. eauto.
  - intros w' [Hw|Hw%list_elem_of_singleton]%elem_of_app; [eauto|]. subst w'. apply (P6 w v); [left|by left].
Qed.

Lemma gwp_count {A} v w (f : unit → gprog A) Q :
  v_mine v = Some w → v_counted v = false → v_owes v = 0 →
  gwp c (with_place (Some w) true v) (f ()) Q → gwp c v (act (AddQueued 1) ≫= f) Q.
Proof using.
  clear Hlim. intros Hm Hc Ho H g vs [] g' HI ->. exists (with_place (Some w) true v). split; [|done].
  destruct (GInv_sums g v vs HI) as (Hv & _ & _ & _ & Hq & Hqs & Hq31).
  destruct HI as [H1 H2 H3 H4 H5 H6 H7 H8 H9]. apply Forall_cons in H1 as [_ Hvs].
  pose proof (pl_new _ _ _ H6 w v ltac:(left) Hm Hc) as Hst.
  assert (counts (g_waiters g) (with_place (Some w) true v) = counts (g_waiters g) v + 1) as Ec.
  { unfold counts, place. cbn. rewrite Hm, Hc, Hst. rewrite bool_decide_true by done. cbn. lia. }
  assert (granted (g_waiters g) (with_place (Some w) true v) = granted (g_waiters g) v) as Eg
    by (unfold granted; by rewrite (place_view _ _ v) by done).
  assert (0 ≤ counts (g_waiters g) v) by (unfold counts; rewrite Ho; destruct (_ && _); lia).
  unfold as_u32, set_queued. rewrite Z.mod_small by (unfold u32_max; lia).
  split; cbn [g_avail g_queued g_line g_locked g_waiters g_retired g_sent g_busy g_loose g_missed]; rewrite ?total_cons in *; try done; try lia; try (by apply (Slots_view _ _ _ _ v)).
  - constructor; [|done]. destruct Hv. by split.
  - unfold pends in *. cbn in *. lia.
  - apply (Places_change _ _ v); [done|done|by left|by left|done].
Qed.

(** *** Places *)

Lemma place_app ws x y v : (∀ w, v_mine v = Some w → (w < length ws)%nat) → place (ws ++ [x]) y v = place ws y v.
Proof using. clear. intros H. unfold place. destruct (v_mine v) as [w|]; [|done]. by rewrite lookup_app_l by (by apply H). Qed.

Lemma gwp_new {A} v (f : nat → gprog A) Q :
  v_mine v = None → (∀ w, gwp c (with_place (Some w) false v) (f w) Q) → gwp c v (act NewWaiter ≫= f) Q.
Proof using.
  clear Hlim. intros Hm H g vs r g' HI [-> ->]. set (ws := g_waiters g). set (v' := with_place (Some (length ws)) false v).
  exists v'. split; [|apply H]. destruct HI as [H1 H2 H3 H4 H5 H6 H7 H8 H9]. apply Forall_cons in H1 as [Hv Hvs]. fold ws in H3, H4, H6.
  assert (∀ y x, y ∈ vs → place (ws ++ [WAITING]) x y = place ws x y) as Hpl.
  { intros y x Hy. apply place_app. intros w Hw. apply (pl_range _ _ _ H6 w y); [by right|by left]. }
  assert (granted (ws ++ [WAITING]) v' = granted ws v) as Eg.
  { unfold granted, place, v'. cbn. rewrite Hm, list_lookup_middle by done. done. }
  assert (counts (ws ++ [WAITING]) v' = counts ws v) as Ec.
  { unfold counts, place, v'. cbn. rewrite Hm. by rewrite andb_false_r. }
  assert (total (granted (ws ++ [WAITING])) vs = total (granted ws) vs) as Tg
    by (apply total_ext; intros y Hy; unfold granted; by rewrite Hpl).
  assert (total (counts (ws ++ [WAITING])) vs = total (counts ws) vs) as Tc
    by (apply total_ext; intros y Hy; unfold counts; by rewrite Hpl).
  split; cbn [set_waiters g_avail g_queued g_line g_locked g_waiters g_retired g_sent g_busy g_loose g_missed]; rewrite ?total_cons in *; try done; try (by apply (Slots_view _ _ _ _ v));
    try (rewrite ?Eg, ?Ec, ?Tg, ?Tc; unfold pends in *; cbn in *; lia); [constructor; [by destruct Hv|done]|].
  destruct H6 as [P1 P2 P3 P4 P5 P6 P7].
  assert (∀ y w, y ∈ v :: vs → v_mine y = Some w → w ≠ length ws) as Hold by (intros y w Hy Hw ->; specialize (P6 (length ws) y Hy ltac:(by left)); lia).
  assert (∀ y, y ∈ v' :: vs → y = v' ∨ y ∈ v :: vs) as Hin by (intros y [->|Hy]%elem_of_cons; [by left|right; by right]).
  split.
  - intros w [Hw|[Hlen Hw]]%lookup_app_Some.
    + destruct (P1 w Hw) as (y & [->|Hy]%elem_of_cons & Hmy); [congruence|]. exists y. split; [by right|done].
    + assert (w = length ws) as -> by (apply lookup_lt_Some in Hw; cbn in Hw; lia). exists v'. split; [left|done].
  - cbn [omap list_omap v' with_place v_mine] in *. rewrite Hm in P2. constructor; [|done].
    intros (y & Hy & Hw)%list_elem_of_omap. by apply (Hold y (length ws)); [right| |].
  - intros w y Hw [->|Hy]%Hin Hmy; [|eauto]. injection Hmy as <-. apply P7 in Hw. lia.
  - intros w y [->|Hy]%Hin Hmy Hc.
    + injection Hmy as <-. by rewrite list_lookup_middle.
    + apply lookup_app_l_Some. eauto.
  - assert (∀ y w, y ∈ v' :: vs → v_front y = Some w → (w < length ws)%nat) as Hfr.
    { intros y w [->|Hy]%elem_of_cons Hf; [apply (P6 w v); [left|by right]|apply (P6 w y); [by right|by right]]. }
    intros w y y' Hy Hy' Hf Hmy. specialize (Hfr y w Hy Hf). destruct (Hin y' Hy') as [->|Hy'2]; [injection Hmy as <-; lia|].
    destruct (Hin y Hy) as [->|Hy2]; [|eauto]. apply (P5 w v y'); [left|done|done|done].
  - intros w y Hy Hor. rewrite length_app. cbn. destruct (Hin y Hy) as [->|Hy2].
    + destruct Hor as [[= <-]|Hf]; [lia|]. specialize (P6 w v ltac:(left) ltac:(by right)). lia.
    + specialize (P6 w y Hy2 Hor). lia.
  - intros w Hw%P7. rewrite length_app. lia.
Qed.

(** A place given up, or its permit collected. *)
Lemma GInv_drop g v vs me st :
  GInv c g (v :: vs) → v_mine v = Some me → g_waiters g !! me = Some st → st ≠ WAITING →
  GInv c g (with_permits (v_permits v + (if bool_decide (st = GRANTED) then 1 else 0)) (with_place None false v) :: vs).
Proof using.
  clear Hlim. intros [H1 H2 H3 H4 H5 H6 H7 H8 H9] Hm Hst Hne. set (v' := with_permits _ _). apply Forall_cons in H1 as [Hv Hvs].
  assert (granted (g_waiters g) v = (if bool_decide (st = GRANTED) then 1 else 0)) as Eg.
  { unfold granted, place. rewrite Hm, Hst. destruct (decide (st = GRANTED)) as [->|]; [by rewrite !bool_decide_true|].
    by rewrite !bool_decide_false by congruence. }
  assert (counts (g_waiters g) v' = counts (g_waiters g) v) as Ec.
  { unfold counts, place, v'. cbn. rewrite Hm, Hst. rewrite bool_decide_false by congruence. done. }
  split; rewrite ?total_cons in *; try done; try (rewrite ?Ec; unfold pends in *; cbn in *; lia); try (by apply (Slots_view _ _ _ _ v)).
  - constructor; [|done]. destruct Hv. split; cbn; destruct (bool_decide _); lia.
  - destruct H6 as [P1 P2 P3 P4 P5 P6 P7].
    assert (∀ y, y ∈ v' :: vs → y = v' ∨ y ∈ v :: vs) as Hin by (intros y [->|Hy]%elem_of_cons; [by left|right; by right]). split.
    + intros w Hw. destruct (P1 w Hw) as (y & [->|Hy]%elem_of_cons & Hmy); [congruence|]. exists y. split; [by right|done].
    + cbn [omap list_omap] in *. rewrite Hm in P2. by apply NoDup_cons in P2 as [_ P2].
    + intros w y Hw [->|Hy]%Hin Hmy; [done|eauto].
    + intros w y [->|Hy]%Hin Hmy Hc; [done|eauto].
    + intros w y y' Hy [->|Hy']%Hin Hf Hmy; [done|]. destruct (Hin y Hy) as [->|Hy2]; [|eauto].
      apply (P5 w v y'); [left|done|done|done].
    + intros w y [->|Hy]%Hin Hor; [|eauto]. destruct Hor as [Hx|Hf]; [done|]. apply (P6 w v); [left|by right].
    + done.
Qed.

Lemma gwp_load_own {A} v me (f : Z → gprog A) Q :
  v_mine v = Some me →
  gwp c (with_permits (v_permits v + 1) (with_place None false v)) (f GRANTED) Q →
  gwp c (with_permits (v_permits v + 0) (with_place None false v)) (f GONE) Q →
  (∀ st, st ≠ GRANTED → st ≠ GONE → gwp c v (f st) Q) → gwp c v (act (LoadState me) ≫= f) Q.
Proof using.
  clear Hlim. intros Hm H1 H2 H3 g vs r g' HI [-> ->].
  pose proof (pl_range _ _ _ (gi_places _ _ _ HI) me v ltac:(left) ltac:(by left)) as Hr.
  apply lookup_lt_is_Some in Hr as [st Hst]. rewrite Hst. cbn [default from_option id].
  destruct (decide (st = GRANTED)) as [->|]; [|destruct (decide (st = GONE)) as [->|]].
  - eexists. split; [by eapply (GInv_drop g v vs me GRANTED)|]. exact H1.
  - eexists. split; [by eapply (GInv_drop g v vs me GONE)|]. exact H2.
  - exists v. split; [done|]. by apply H3.
Qed.

(** What a place's change from waiting does to the sums. *)
Lemma total_update ws w x vs :
  ws !! w = Some WAITING → x ≠ WAITING → NoDup (omap v_mine vs) → (∃ v, v ∈ vs ∧ v_mine v = Some w ∧ v_counted v = true) →
  total (granted (<[w := x]> ws)) vs = total (granted ws) vs + (if bool_decide (x = GRANTED) then 1 else 0) ∧
  total (counts (<[w := x]> ws)) vs = total (counts ws) vs - 1.
Proof using.
  clear. intros Hw Hx Hd (v & Hv & Hm & Hc). apply list_elem_of_split in Hv as (l1 & l2 & ->).
  rewrite <- Permutation_middle in *. set (rest := l1 ++ l2) in *. cbn [omap list_omap] in Hd. rewrite Hm in Hd.
  apply NoDup_cons in Hd as [Hni _].
  assert (∀ y z, y ∈ rest → place (<[w := x]> ws) z y = place ws z y) as Hpl.
  { intros y z Hy. unfold place. destruct (v_mine y) as [w'|] eqn:E; [|done]. rewrite list_lookup_insert_ne; [done|].
    intros <-. apply Hni, list_elem_of_omap. eauto. }
  rewrite !total_cons.
  assert (total (granted (<[w := x]> ws)) rest = total (granted ws) rest) as ->
    by (apply total_ext; intros y Hy; unfold granted; by rewrite Hpl).
  assert (total (counts (<[w := x]> ws)) rest = total (counts ws) rest) as ->
    by (apply total_ext; intros y Hy; unfold counts; by rewrite Hpl).
  unfold granted, counts, place. rewrite Hm, Hc, Hw, list_lookup_insert_eq by (by eapply lookup_lt_Some).
  rewrite (bool_decide_false (Some x = Some WAITING)), (bool_decide_true (Some WAITING = Some WAITING)) by congruence.
  rewrite (bool_decide_false (Some WAITING = Some GRANTED)) by done. cbn [andb].
  destruct (decide (x = GRANTED)) as [->|]; [rewrite !bool_decide_true by done; lia|].
  rewrite !bool_decide_false by congruence. lia.
Qed.

Lemma GInv_cas g v vs w x :
  let k := if bool_decide (x = GRANTED) then 1 else 0 in
  GInv c g (v :: vs) → g_waiters g !! w = Some WAITING → x ≠ WAITING → v_owes v = 0 → k ≤ v_permits v - v_sent v →
  (∀ y, y ∈ v :: vs → v_mine y = Some w → v_counted y = true) →
  GInv c (set_waiters (<[w := x]> (g_waiters g)) g) (with_owes 1 (with_permits (v_permits v - k) v) :: vs).
Proof using.
  clear Hlim. intros k [H1 H2 H3 H4 H5 H6 H7 H8 H9] Hw Hx Ho Hk Hall. set (v' := with_owes _ _). apply Forall_cons in H1 as [Hv Hvs].
  destruct (pl_own _ _ _ H6 w Hw) as (v0 & Hv0 & Hm0).
  destruct (total_update (g_waiters g) w x (v :: vs) Hw Hx (pl_dup _ _ _ H6)) as [Tg Tc]; [eauto|]. fold k in Tg.
  set (ws := <[w := x]> (g_waiters g)) in *.
  assert (granted ws v' = granted ws v) as Eg by done. assert (counts ws v' = counts ws v + 1) as Ec.
  { unfold counts. rewrite (place_view ws WAITING v v') by done. change (v_counted v') with (v_counted v).
    change (v_owes v') with 1. rewrite Ho. lia. }
  split; cbn [set_waiters g_avail g_queued g_line g_locked g_waiters g_retired g_sent g_busy g_loose g_missed]; rewrite ?total_cons in *; try done; try (by apply (Slots_view _ _ _ _ v));
    try (rewrite ?Eg, ?Ec; unfold pends in *; cbn in *; lia).
  - constructor; [|done]. destruct Hv. assert (0 ≤ k ≤ 1) by (unfold k; destruct (bool_decide _); lia). split; cbn; lia.
  - apply (Places_view ws (g_line g) v); [done..|]. destruct H6 as [P1 P2 P3 P4 P5 P6 P7]. unfold ws. split; try done.
    + intros w' [[<- [? _]]|[Hne Hw']]%list_lookup_insert_Some; [done|eauto].
    + intros w' y Hy Hmy Hc. rewrite list_lookup_insert_ne; [eauto|]. intros <-. by rewrite (Hall y Hy Hmy) in Hc.
    + setoid_rewrite length_insert. done.
    + setoid_rewrite length_insert. done.
Qed.

(** Deciding the fate of the place at the front. *)
Lemma gwp_cas_front {A} v w x (f : bool → gprog A) Q :
  let k := if bool_decide (x = GRANTED) then 1 else 0 in
  v_front v = Some w → x ≠ WAITING → v_owes v = 0 → k ≤ v_permits v - v_sent v →
  gwp c (with_owes 1 (with_permits (v_permits v - k) v)) (f true) Q → gwp c v (f false) Q →
  gwp c v (act (CasState w WAITING x) ≫= f) Q.
Proof using.
  clear Hlim. intros k Hf Hx Ho Hk H1 H2 g vs r g' HI E. cbn [gexec] in E. destruct (decide _) as [Hw|Hw]; destruct E as [-> ->].
  - eexists. split; [|exact H1]. apply GInv_cas; try done. intros y Hy Hm.
    apply (pl_front _ _ _ (gi_places _ _ _ HI) w v y); [left|done|done|done].
  - by exists v.
Qed.

Lemma gwp_cas_gone {A} v w (f : bool → gprog A) Q :
  v_front v = Some w → v_owes v = 0 → 0 ≤ v_permits v - v_sent v →
  gwp c (with_owes 1 v) (f true) Q → gwp c v (f false) Q → gwp c v (act (CasState w WAITING GONE) ≫= f) Q.
Proof using.
  intros Hf Ho Hk H1 H2. apply (gwp_cas_front v w GONE); [done|done|done|exact Hk| |done].
  change (if bool_decide (GONE = GRANTED) then 1 else 0) with 0. rewrite Z.sub_0_r. by destruct v.
Qed.

Lemma gwp_cas_grant {A} v w (f : bool → gprog A) Q :
  v_front v = Some w → v_owes v = 0 → 1 ≤ v_permits v - v_sent v →
  gwp c (with_owes 1 (with_permits (v_permits v - 1) v)) (f true) Q → gwp c v (f false) Q →
  gwp c v (act (CasState w WAITING GRANTED) ≫= f) Q.
Proof using. intros Hf Ho Hk H1 H2. by apply (gwp_cas_front v w GRANTED). Qed.

(** Leaving the line. *)
Lemma gwp_leave {A} v me (f : bool → gprog A) Q :
  v_mine v = Some me → v_counted v = true → v_owes v = 0 →
  gwp c (with_owes 1 (with_place None false v)) (f true) Q → gwp c v (f false) Q →
  gwp c v (act (CasState me WAITING GONE) ≫= f) Q.
Proof using.
  clear Hlim. intros Hm Hc Ho H1 H2 g vs r g' HI E. cbn [gexec] in E. destruct (decide _) as [Hw|Hw]; destruct E as [-> ->]; [|by exists v].
  eexists. split; [|exact H1].
  destruct (GInv_sums g v vs HI) as (Hv & _). pose proof (vo_sent v Hv).
  assert (GInv c (set_waiters (<[me := GONE]> (g_waiters g)) g) (with_owes 1 (with_permits (v_permits v - 0) v) :: vs)) as HI1.
  { apply (GInv_cas g v vs me GONE); try done; [rewrite bool_decide_false by done; lia|]. intros y Hy Hmy.
    pose proof (pl_dup _ _ _ (gi_places _ _ _ HI)) as Hd. cbn [omap list_omap] in Hd. rewrite Hm in Hd. apply NoDup_cons in Hd as [Hd _].
    apply elem_of_cons in Hy as [->|Hy]; [done|]. destruct Hd. apply list_elem_of_omap. eauto. }
  apply (GInv_drop _ _ _ me GONE) in HI1; [|done|cbn; apply list_lookup_insert_eq; by eapply lookup_lt_Some|done].
  cbn in HI1. rewrite Z.sub_0_r, Z.add_0_r in HI1. exact HI1.
Qed.

(** ** The operations of the gate *)

Context (Hres : 0 ≤ reserve c).

(** A thread between operations: it owes nothing and holds no lock. *)
Definition calm (v : view) : Prop :=
  v_owes v = 0 ∧ v_locked v = false ∧ v_front v = None ∧ ∀ w, v_mine v = Some w → v_counted v = true.
Definition out_of_line (v : view) : Prop := v_mine v = None ∧ v_counted v = false.

Lemma with_permits_same n v : n = v_permits v → with_permits n v = v.
Proof using. clear. intros ->. by destruct v. Qed.

Ltac view_eq :=
  unfold with_front, with_owes, with_permits, with_lock, with_place, with_sent, with_pending in *; cbn in *; f_equal; (done || lia || congruence).

Lemma gwp_eq {A} v v' (p : gprog A) Q : gwp c v' p Q → v = v' → gwp c v p Q.
Proof using. by intros ? ->. Qed.

Lemma take_ok fuel want v :
  1 ≤ want → gwp c v (take c fuel want) (λ n v', 0 ≤ n ≤ want ∧ v' = with_permits (v_permits v + n) v).
Proof using Hres.
  intros Hw. apply gwp_load_avail. intros cur Hc. revert cur Hc. induction fuel as [|fuel IH]; intros cur Hc; [done|]. cbn [take_loop].
  destruct (Z.eqb_spec cur 0).
  { split; [lia|]. symmetry. apply with_permits_same. lia. }
  set (extras := Z.min _ _). assert (0 ≤ extras ≤ want - 1 ∧ extras ≤ cur - 1) by (unfold extras, sat_sub; lia).
  apply gwp_cas_avail; [lia| |done]. split; [lia|done].
Qed.

Lemma take_one_ok fuel v :
  gwp c v (take_one fuel) (λ b v', v' = with_permits (v_permits v + (if b : bool then 1 else 0)) v).
Proof using.
  apply gwp_load_avail. intros cur Hc. revert cur Hc. induction fuel as [|fuel IH]; intros cur Hc; [done|]. cbn [take_one_loop].
  destruct (Z.leb_spec cur 0); [symmetry; apply with_permits_same; lia|]. by apply gwp_cas_avail; [lia| |].
Qed.

(** Looking at the front of the line with the lock, and letting go of it. *)
Definition held (v : view) : Prop :=
  v_owes v = 0 ∧ v_locked v = true ∧ ∀ w, v_mine v = Some w → v_counted v = true.
Definition same_but_front (v v' : view) : Prop := ∃ w, v' = with_front w v.

Lemma hand_out_loop_ok fuel v v0 :
  held v0 → 0 ≤ v_permits v0 - v_sent v0 → same_but_front v0 v →
  gwp c v (hand_out_loop fuel) (λ _ v', same_but_front v0 v').
Proof using Hlim.
  intros (Ho & Hl & Hc) Hp. revert v. induction fuel as [|fuel IH]; intros v [w0 ->]; [done|]. cbn [hand_out_loop].
  apply gwp_front; [done|done|by exists w0|]. intros w. set (v := with_front (Some w) (with_front w0 v0)).
  assert (same_but_front v0 v) as Hs by (by exists (Some w)).
  apply gwp_look; [by intros g r g' [_ ->]|]. intros st. destruct (st =? WAITING); cbn [negb]; [|apply gwp_pop; by apply IH].
  apply gwp_look; [by intros g r g' ->|]. intros [].
  - apply gwp_cas_gone; [done|done|cbn; lia| |by apply gwp_pop, IH].
    apply gwp_owed; [done|]. apply gwp_pop, IH. exists (Some w). unfold v. view_eq.
  - eapply gwp_call; [apply take_one_ok|]. intros [] v1 ->; cbn [negb]; [|exists (Some w); unfold v; view_eq].
    apply gwp_cas_grant; [done|done|cbn; lia| |].
    + apply gwp_owed; [done|]. apply gwp_pop, IH. exists (Some w). unfold v. view_eq.
    + apply gwp_add_avail; [cbn; lia|]. apply gwp_pop, IH. exists (Some w). unfold v. view_eq.
Qed.

Lemma hand_out_ok fuel v :
  calm v → 0 ≤ v_permits v - v_sent v → gwp c v (hand_out fuel) (λ _ v', v' = v).
Proof using Hlim.
  intros (Ho & Hl & Hf & Hc) Hp. apply gwp_look; [by intros g r g' [_ ->]|]. intros q. destruct (q =? 0); [done|].
  apply gwp_lock; [|done]. intros _. eapply gwp_call.
  { apply (hand_out_loop_ok fuel (with_lock true v) (with_lock true v)); [done|done|]. exists None. destruct v; cbn in *. by subst. }
  intros [] v' [w ->]. apply (gwp_unlock _ Ret); [done|done|]. destruct v; cbn in *. by subst.
Qed.

Lemma release_ok fuel n v :
  calm v → 0 ≤ n ≤ v_permits v - v_sent v → gwp c v (release fuel n) (λ _ v', v' = with_permits (v_permits v - n) v).
Proof using Hlim.
  intros Hv Hn. unfold release. destruct (Z.eqb_spec n 0); [symmetry; apply with_permits_same; lia|].
  apply gwp_add_avail; [done|]. apply hand_out_ok; [done|cbn; lia].
Qed.

Lemma retire_ok fuel slot slots v :
  calm v → 0 ≤ v_permits v - v_sent v → v_pending v = slot :: slots → v_tries v = 0%nat →
  gwp c v (retire fuel slot) (λ b v', v' = with_permits (v_permits v + (if b : bool then 0 else 1)) (with_pending slots 0 v)).
Proof using Hlim.
  intros Hv Hn Hp Ht. unfold retire.
  assert (∀ m k, (S m + k = 50)%nat → gwp c (with_pending (slot :: slots) k v) (retire_loop (S m) fuel slot)
    (λ b v', v' = with_permits (v_permits v + (if b : bool then 0 else 1)) (with_pending slots 0 v))) as Hgo.
  { induction m as [|m IH]; intros k Hk; cbn [retire_loop].
    all: apply (gwp_put_retired _ slot slots); [done|cbn; lia|cbn|cbn| |].
    1: { intros _. done. }
    1: { lia. }
    3: { lia. }
    3: { intros _. apply (IH (S k)). lia. }
    1, 3: eapply gwp_call; [apply release_ok; [done|cbn; lia]|]; intros [] v' ->; cbn; view_eq.
    all: cbn; view_eq. }
  apply (gwp_eq _ (with_pending (slot :: slots) 0 v)); [apply (Hgo 49%nat 0%nat); lia|]. destruct v; view_eq.
Qed.

Lemma reclaim_ok fuel v :
  calm v → 0 ≤ v_permits v - v_sent v → gwp c v (reclaim fuel) (λ _ v', v' = v).
Proof using Hlim.
  intros Hv Hp. apply gwp_look; [by intros g r g' [_ ->]|]. intros n. destruct (n =? 0); [done|].
  apply gwp_take_retired; [done|]. intros k Hk. eapply gwp_call; [apply release_ok; [done|cbn; lia]|].
  intros [] v' ->. cbn. destruct v; view_eq.
Qed.

Lemma join_line_ok fuel v :
  calm v → v_mine v = None →
  gwp c v (join_line fuel) (λ r v', v' = match r with Some me => with_place (Some me) true v | None => v end).
Proof using.
  intros (Ho & Hl & Hf & Hc) Hm. induction fuel as [|fuel IH]; [done|]. cbn [join_line].
  apply gwp_lock.
  - intros _. apply gwp_new; [done|]. intros w. apply gwp_push; [done|done|]. apply (gwp_count _ w); [done|done|done|].
    apply gwp_unlock; [done|done|]. cbn. destruct v; view_eq.
  - apply gwp_look; [by intros g r g' ->|]. by intros [].
Qed.

Lemma calm_place v w : calm v → calm (with_place (Some w) true v).
Proof using. intros (? & ? & ? & ?). by split_and!. Qed.
Lemma calm_permits v n : calm v → calm (with_permits n v).
Proof using. done. Qed.

Lemma wait_loop_ok fuel me v :
  calm v → out_of_line v → 0 ≤ v_permits v - v_sent v →
  gwp c (with_place (Some me) true v) (wait_loop fuel me)
    (λ b v', v' = with_permits (v_permits v + (if b : bool then 1 else 0)) v).
Proof using Hlim.
  intros Hv [Hm Hc] Hp. revert me. induction fuel as [|fuel IH]; intros me; [done|]. cbn [wait_loop].
  set (v1 := with_place (Some me) true v). assert (calm v1) as Hv1 by (by apply calm_place).
  assert (∀ b : bool, with_place None false v = v) as Eout by (intros _; destruct v; view_eq).
  pose proof Hv as (Ho & Hl & Hf & _).
  apply (gwp_load_own _ me); [done| | |].
  - change (GRANTED =? GRANTED) with true. cbv iota. cbn. destruct v; view_eq.
  - change (GONE =? GRANTED) with false. change (GONE =? GONE) with true. cbv iota.
    apply (gwp_eq _ v); [|destruct v; view_eq].
    eapply gwp_call; [by apply join_line_ok|]. intros [me'|] v' ->; [|symmetry; apply with_permits_same; lia].
    eapply gwp_call; [apply hand_out_ok; [by apply calm_place|done]|]. intros [] v' ->. apply IH.
  - intros st Hs1 Hs2. rewrite (proj2 (Z.eqb_neq _ _) Hs1), (proj2 (Z.eqb_neq _ _) Hs2).
    apply gwp_look; [by intros g r g' ->|]. intros [].
    + apply (gwp_leave _ me); [done|done|done| |by apply IH]. apply gwp_owed; [done|]. cbn. destruct v; view_eq.
    + apply gwp_look; [by intros g r g' ->|]. intros []; [by apply IH|].
      eapply gwp_call; [by apply reclaim_ok|]. intros _ v' ->. eapply gwp_call; [by apply hand_out_ok|]. intros [] v' ->.
      apply gwp_lock; [|by apply IH]. intros _. apply gwp_look; [by intros g r g' [_ ->]|]. intros _.
      apply gwp_unlock; [done|done|]. apply (gwp_eq _ v1); [by apply IH|]. unfold v1. view_eq.
Qed.

Lemma wait_in_line_ok fuel v :
  calm v → out_of_line v → 0 ≤ v_permits v - v_sent v →
  gwp c v (wait_in_line fuel) (λ b v', v' = with_permits (v_permits v + (if b : bool then 1 else 0)) v).
Proof using Hlim.
  intros Hv Ho Hp. eapply gwp_call; [by apply join_line_ok, Ho|]. intros [me|] v' ->; [|symmetry; apply with_permits_same; lia].
  eapply gwp_call; [apply hand_out_ok; [by apply calm_place|done]|]. intros [] v' ->. by apply wait_loop_ok.
Qed.

Context (Hper : 1 ≤ per_call c).

Lemma spin_take_ok spins fuel want n v v0 :
  1 ≤ want → 0 ≤ n ≤ want → v = with_permits (v_permits v0 + n) v0 →
  gwp c v (spin_take c spins fuel want n) (λ n v', 0 ≤ n ≤ want ∧ v' = with_permits (v_permits v0 + n) v0).
Proof using Hres.
  intros Hw. revert n v. induction spins as [|spins IH]; intros n v Hn ->; cbn [spin_take]; [done|].
  destruct (Z.eqb_spec n 0) as [->|]; cbn [negb]; [|done]. apply gwp_look; [by intros g r g' [_ ->]|]. intros q.
  destruct (q =? 0); cbn [negb]; [|done]. rewrite with_permits_same by lia.
  eapply gwp_call; [by apply take_ok|]. intros k v' [Hk ->]. by apply IH.
Qed.

Lemma acquire_ok fuel want v :
  calm v → out_of_line v → 0 ≤ v_permits v - v_sent v →
  gwp c v (acquire c fuel want) (λ r v', match r with
    | Some n => 1 ≤ n ≤ Z.min (Z.max want 1) (per_call c) ∧ v' = with_permits (v_permits v + n) v
    | None => v' = v
    end).
Proof using Hlim Hres Hper.
  intros Hv Ho Hp. unfold acquire. set (want' := Z.min (Z.max want 1) (per_call c)). assert (1 ≤ want') as Hw by (unfold want'; lia).
  assert (gwp c v (got ← wait_in_line fuel; mret (if got : bool then Some 1 else None)) (λ r v', match r with
    | Some n => 1 ≤ n ≤ want' ∧ v' = with_permits (v_permits v + n) v | None => v' = v end)) as Hline.
  { eapply gwp_call; [by apply wait_in_line_ok|]. intros [] v' ->; [split; [lia|done]|apply with_permits_same; lia]. }
  apply gwp_look; [by intros g r g' [_ ->]|]. intros q. destruct (q =? 0); [|done].
  eapply gwp_call; [by apply take_ok|]. intros n v' [Hn ->].
  eapply (gwp_call _ _ _ _ (λ n v', 0 ≤ n ≤ want' ∧ v' = with_permits (v_permits v + n) v)).
  { destruct (Z.eqb_spec n 0) as [->|]; [|done]. eapply gwp_call; [by apply reclaim_ok; [|cbn; lia]|]. intros k v' ->.
    destruct (0 <? k); [|done]. rewrite with_permits_same by lia. by apply take_ok. }
  intros k v' [Hk ->]. eapply gwp_call; [by apply (spin_take_ok SPINS fuel want' k _ v)|]. intros m v' [Hm ->].
  destruct (Z.ltb_spec 0 m); [split; [lia|done]|]. rewrite with_permits_same by lia. done.
Qed.

(** [k] of the [n] permits are not for the slots still to record. *)
Lemma permits_retire_ok fuel n slots v :
  calm v → v_pending v = slots → v_tries v = 0%nat → 0 ≤ n - len slots ≤ v_permits v - v_sent v →
  gwp c v (permits_retire fuel n slots) (λ m v', n - len slots ≤ m ∧ v' = with_permits (v_permits v + (m - (n - len slots))) (with_pending [] 0 v)).
Proof using Hlim.
  revert n v. induction slots as [|slot slots IH]; intros n v Hv Hp Ht Hn; cbn [permits_retire].
  { change (len (@nil Z)) with 0 in *. split; [lia|]. destruct v; view_eq. }
  rewrite len_cons in *. pose proof (len_nonneg slots). destruct (Z.eqb_spec n 0); [lia|].
  eapply gwp_call; [apply (retire_ok _ slot slots); [done|lia|done|done]|]. intros b v' ->.
  eapply gwp_mono; [|apply IH; [done|done|done|cbn; destruct b; lia]].
  cbn. intros m v' [Hm ->]. split; [destruct b; lia|]. destruct b; view_eq.
Qed.

Lemma data_calls_ok fuel calls : gwp c idle (data_calls c fuel calls) (λ _ v', v' = idle).
Proof using Hlim Hres Hper.
  induction calls as [|want calls IH]; cbn [data_calls]; [done|].
  eapply (gwp_call _ _ _ _ (λ _ v', v' = idle)); [|by intros [] v' ->].
  eapply gwp_call; [by apply acquire_ok|]. intros [n|] v'; [|done]. intros [Hn ->].
  apply gwp_sent; [cbn; lia|]. apply gwp_back; [done|done|done|]. intros slots Hs.
  eapply gwp_call; [apply (permits_retire_ok _ n slots); [done|done|done|cbn; lia]|]. cbn. intros m v' [Hm ->].
  eapply gwp_mono; [|apply release_ok; [done|cbn; lia]]. cbn. intros [] v' ->. unfold idle. view_eq.
Qed.
End ops.

(** ** All threads together *)

Section threads.
Context (c : GateConf) (Hlim : limit c < u32_max).

(** The director is done with a slot. *)
Lemma GInv_finish g vs slot : GInv c g vs → GInv c (set_slots (g_busy g ∖ {[slot]}) (g_loose g) (g_missed g) g) vs.
Proof using.
  clear. intros [H1 H2 H3 H4 H5 H6 H7 H8 [Hb Hl]]. split; try done. split; [|done]. intros s [Hs _]%elem_of_difference. by apply Hb.
Qed.

(** The slots the director is busy with: each is recorded, or to be recorded,
    or one of those lost. *)
Lemma GInv_busy g vs : GInv c g vs →
  ∃ lost, 0 ≤ lost ∧ 50 * lost ≤ g_missed g ∧ Z.of_nat (size (g_busy g)) ≤ len (g_retired g) + total pends vs + lost.
Proof using.
  clear. intros HI. destruct (gi_slots _ _ _ HI) as [Hb (lost & Hl & Hm)]. exists (len lost). pose proof (len_nonneg lost).
  assert (0 ≤ total tries vs) by (apply votes_nonneg; intros; unfold tries; lia). split_and!; [lia|lia|].
  assert (total pends vs = len (vs ≫= v_pending)) as ->.
  { clear. induction vs as [|v vs IH]; [done|]. rewrite total_cons, IH. cbn [mbind list_bind]. rewrite len_app. done. }
  set (l := g_retired g ++ (vs ≫= v_pending) ++ lost).
  assert (g_busy g ⊆ list_to_set l) as Hsub.
  { intros s Hs. apply elem_of_list_to_set. unfold l. rewrite !elem_of_app. destruct (Hb s Hs) as [?|Hlo]; [by left|].
    destruct (Hl s Hlo) as [?|(v & Hv & Hin)]; [by right; right|]. right. left. apply list_elem_of_bind. eauto. }
  apply subseteq_size in Hsub. assert (∀ k : list Z, (size (list_to_set k : gset Z) ≤ length k)%nat) as Hsz.
  { clear. induction k as [|x k IH]; cbn; [done|]. pose proof (size_union_alt {[x]} (list_to_set k : gset Z)) as E. rewrite E, size_singleton.
    pose proof (subseteq_size ((list_to_set k : gset Z) ∖ {[x]}) (list_to_set k) ltac:(set_solver)). lia. }
  specialize (Hsz l). unfold l in Hsz. rewrite !length_app in Hsz. unfold len. fold l in Hsz. lia.
Qed.

(** The threads' views, and what is left of each to check. *)
Definition gate_ok (cfg : gconfig) : Prop :=
  ∃ vs, GInv c cfg.1 vs ∧ length vs = length cfg.2 ∧
    ∀ i v p, vs !! i = Some v → cfg.2 !! i = Some p → gwp c v p (λ _ v', v' = idle).

Lemma gate_ok_step cfg cfg' : gstep cfg cfg' → gate_ok cfg → gate_ok cfg'.
Proof using.
  destruct 1 as [g ps i X x k r g' Hp Hx|g ps slot Hs]; intros (vs & HI & Hlen & Hwp); cbn [fst snd] in *; [|exists vs; split; [by apply GInv_finish|done]].
  assert (is_Some (vs !! i)) as [v Hv] by (apply lookup_lt_is_Some; rewrite Hlen; by eapply lookup_lt_Some).
  assert (vs ≡ₚ v :: delete i vs) as Hperm by (by apply delete_Permutation).
  destruct (Hwp i v _ Hv Hp g (delete i vs) r g') as (v' & HI' & Hk); [by rewrite <- Hperm|done|].
  exists (<[i := v']> vs). cbn [fst snd]. split_and!.
  - rewrite insert_take_drop by (by eapply lookup_lt_Some). rewrite delete_take_drop in HI'. by rewrite <- Permutation_middle.
  - by rewrite !length_insert.
  - intros j vj pj Hvj Hpj. destruct (decide (i = j)) as [<-|Hij].
    + rewrite list_lookup_insert_eq in Hvj by (by eapply lookup_lt_Some).
      rewrite list_lookup_insert_eq in Hpj by (by eapply lookup_lt_Some). by simplify_eq.
    + rewrite list_lookup_insert_ne in Hvj by done. rewrite list_lookup_insert_ne in Hpj by done. eauto.
Qed.

Lemma gate_ok_reachable cfg cfg' : greachable cfg cfg' → gate_ok cfg → gate_ok cfg'.
Proof using. induction 1; [done|]. eauto using gate_ok_step. Qed.
End threads.

Lemma gate_conf_ok n : n < u32_max →
  limit (gate_conf n) < u32_max ∧ 0 ≤ reserve (gate_conf n) ∧ 1 ≤ per_call (gate_conf n) ∧ 1 ≤ limit (gate_conf n).
Proof.
  unfold gate_conf, u32_max. cbn [limit reserve per_call]. intros Hn.
  pose proof (Z.div_le_lower_bound (Z.max n 1 + 1) 2 1 ltac:(lia) ltac:(lia)). lia.
Qed.

Lemma total_idle f k : f idle = 0 → total f (replicate k idle) = 0.
Proof. intros E. induction k as [|k IH]; [done|]. cbn [replicate]. rewrite total_cons, E, IH. done. Qed.

Lemma gate_new_ok n fuel (css : list (list Z)) :
  n < u32_max → Z.of_nat (length css) < 2 ^ 30 →
  gate_ok (gate_conf n) (gate_new n, data_calls (gate_conf n) fuel <$> css).
Proof.
  intros Hn Hm. destruct (gate_conf_ok n Hn) as (H1 & H2 & H3 & H4). exists (replicate (length css) idle). cbn [fst snd].
  rewrite length_replicate, length_fmap. split_and!; [|done|].
  - split; cbn [gate_new g_avail g_queued g_line g_locked g_waiters g_retired g_sent g_busy g_loose g_missed]; rewrite ?total_idle, ?length_replicate by done; try done.
    + apply Forall_replicate. by split.
    + lia.
    + unfold len. cbn [length]. lia.
    + split.
      * intros w ?. done.
      * clear Hm. induction (length css); [constructor|done].
      * intros w v ?%elem_of_nil. done.
      * intros w v Hv. apply elem_of_replicate in Hv as [-> _]. done.
      * intros w v v' Hv. apply elem_of_replicate in Hv as [-> _]. done.
      * intros w v Hv. apply elem_of_replicate in Hv as [-> _]. naive_solver.
      * intros w ?%elem_of_nil. done.
    + split; [set_solver|]. exists []. split; [set_solver|]. by rewrite total_idle.
  - intros i v p [-> _]%lookup_replicate Hp. apply list_lookup_fmap_Some in Hp as (calls & -> & _). by apply data_calls_ok.
Qed.

Lemma data_limit_spare workers slots :
  let w := Z.min (if workers =? 0 then DEFAULT_WORKER_COUNT else workers) (Z.max slots 1) in
  2 ≤ w → 1 ≤ data_limit workers slots < w.
Proof.
  intros w Hw. unfold data_limit. fold w. unfold sat_sub.
  assert (w / 4 < w) by (apply Z.div_lt; lia). assert (0 ≤ w / 4) by (apply Z.div_pos; lia). lia.
Qed.

(** C13: a worker is always left: on a ring with at least two workers and
    slots, whatever data calls any number of threads make and however their
    operations interleave, with each other and with the director, the requests
    the calls wait on and those they gave up on that the director still has are
    together fewer than the workers, unless [retire] has failed fifty times to
    get the lock of the retired list; each request beyond the limit takes fifty
    such failures. The free permits never exceed the limit, and neither count
    ever wraps around. *)
Theorem gate_leaves_worker workers slots fuel css g ps :
  let w := Z.min (if workers =? 0 then DEFAULT_WORKER_COUNT else workers) (Z.max slots 1) in
  let n := data_limit workers slots in
  2 ≤ w < u32_max → Z.of_nat (length css) < 2 ^ 30 →
  greachable (gate_new n, data_calls (gate_conf n) fuel <$> css) (g, ps) →
  let out := g_sent g + Z.of_nat (size (g_busy g)) in
  (g_missed g < 50 → out < w ∧ out + g_avail g ≤ n) ∧
  (n < out + g_avail g → 50 * (out + g_avail g - n) ≤ g_missed g) ∧
  0 ≤ g_sent g ∧ g_sent g + len (g_retired g) + g_avail g ≤ n ∧ 0 ≤ g_avail g ∧ 0 ≤ g_queued g ≤ 2 * Z.of_nat (length css).
Proof.
  intros w n Hw Hm Hr out. pose proof (data_limit_spare workers slots) as Hn. cbv zeta in Hn. fold w n in Hn. specialize (Hn ltac:(lia)).
  destruct (gate_ok_reachable _ _ _ Hr (gate_new_ok n fuel css ltac:(lia) Hm)) as (vs & HI & Hlen & _). cbn [fst snd] in *.
  assert (length ps = length css) as Hps.
  { assert (∀ cfg cfg', greachable cfg cfg' → length cfg'.2 = length cfg.2) as Hl.
    { induction 1 as [|x y z Hs _ IH]; [done|]. rewrite IH. destruct Hs; cbn; [apply length_insert|done]. }
    specialize (Hl _ _ Hr). cbn [snd] in Hl. by rewrite length_fmap in Hl. }
  destruct (GInv_busy _ _ _ HI) as (lost & Hl0 & Hlost & Hbusy).
  destruct HI as [H1 H2 H3 H4 H5 H6 H7 H8 H9]. rewrite Forall_forall in H1.
  assert (limit (gate_conf n) = n) as El by (unfold gate_conf; cbn [limit]; lia). rewrite El in H3.
  assert (0 ≤ total (granted (g_waiters g)) vs) by (apply votes_nonneg; intros v _; unfold granted; destruct (place _ _ _); lia).
  assert (0 ≤ total pends vs) by (apply votes_nonneg; intros; apply len_nonneg).
  assert (0 ≤ total v_sent vs) by (apply votes_nonneg; intros v Hv; by apply H1).
  assert (total v_sent vs ≤ total v_permits vs) by (apply total_le; intros v Hv; by apply H1).
  assert (∀ v, v ∈ vs → 0 ≤ counts (g_waiters g) v ≤ 2) as Hc by (intros v [_ ? _]%H1; unfold counts; destruct (place _ _ _ && _); lia).
  assert (0 ≤ total (counts (g_waiters g)) vs) by (apply votes_nonneg; intros v Hv; by apply Hc).
  assert (total (counts (g_waiters g)) vs ≤ total (λ _, 2) vs) by (apply total_le; intros v Hv; by apply Hc).
  assert (total (λ _, 2) vs = 2 * Z.of_nat (length vs)) by (clear; induction vs as [|? ? IH]; [done|rewrite total_cons, IH; cbn [length]; lia]).
  assert (out + g_avail g ≤ n + lost) by (unfold out; lia). split_and!; lia.
Qed.

(** C14: no permit is lost: when every thread has returned from all its
    calls, each permit is either free or kept for an abandoned slot, nobody is
    counted as waiting, and nothing is in flight; so once the director is done
    with the abandoned slots the whole gate is free again. *)
Theorem gate_gives_back n fuel css g ps :
  n < u32_max → Z.of_nat (length css) < 2 ^ 30 →
  greachable (gate_new n, data_calls (gate_conf n) fuel <$> css) (g, ps) →
  Forall (λ p, p = Ret ()) ps →
  g_avail g + len (g_retired g) = limit (gate_conf n) ∧ g_queued g = 0 ∧ g_sent g = 0 ∧ g_locked g = false.
Proof.
  intros Hn Hm Hr Hdone. destruct (gate_ok_reachable _ _ _ Hr (gate_new_ok n fuel css Hn Hm)) as (vs & HI & Hlen & Hwp). cbn [fst snd] in *.
  assert (vs = replicate (length vs) idle) as Evs.
  { symmetry. apply replicate_as_elem_of. split; [done|]. intros v (i & Hv)%list_elem_of_lookup.
    assert (is_Some (ps !! i)) as [p Hp] by (apply lookup_lt_is_Some; rewrite <- Hlen; by eapply lookup_lt_Some).
    pose proof (Hwp i v p Hv Hp) as H. rewrite Forall_lookup in Hdone. rewrite (Hdone i p Hp) in H. exact H. }
  rewrite Evs in HI. destruct HI as [H1 H2 H3 H4 H5 H6 H7 H8 H9]. rewrite total_idle in H3, H4, H5, H7 by done. rewrite !total_idle in H3 by done.
  split_and!; try done; [lia|]. by destruct (g_locked g).
Qed.

(** ** Example runs *)

Ltac run_step i := eapply rtc_l; [eapply (gstep_thread _ _ i); [reflexivity|]|].

Ltac unit_step i := eapply rtc_l; [eapply (gstep_thread _ _ i _ _ _ tt); reflexivity|].

Module GateDemo.
(** Four workers, eight slots: three permits; two threads, the first asking for
    five. *)
Definition css : list (list Z) := [[5]; [1]].
Definition start : gconfig := (gate_new (data_limit 4 8), data_calls (gate_conf (data_limit 4 8)) 3 <$> css).

(** The first thread had two requests in flight and has given up one, whose
    slot it has recorded; the second has one in flight. *)
Definition one_given_up : Gate := mkGate 0 0 [] false [] [7] 1 1 {[7]} (({[7]} : gset Z) ∖ {[7]}) 0.
Lemma given_up : ∃ ps, greachable start (one_given_up, ps).
Proof.
  eexists. unfold start. cbn [css fmap list_fmap].
  run_step 0%nat. { split; reflexivity. }
  run_step 0%nat. { split; reflexivity. }
  run_step 0%nat. { left. split_and!; reflexivity. }
  unit_step 0%nat.
  eapply rtc_l. { eapply (gstep_thread _ _ 0 _ _ _ [7]); [reflexivity|]. split; [by vm_compute|]. exists {[7]}. split; [set_solver|reflexivity]. }
  eapply rtc_l. { eapply (gstep_thread _ _ 0 _ _ _ (Some false)); [reflexivity|]. right. right. split_and!; [apply not_elem_of_nil|reflexivity|reflexivity]. }
  run_step 1%nat. { split; reflexivity. }
  run_step 1%nat. { split; reflexivity. }
  run_step 1%nat. { left. split_and!; reflexivity. }
  unit_step 1%nat.
  match goal with |- rtc _ (?g, _) _ => replace g with one_given_up end; [apply rtc_refl|].
  vm_compute. reflexivity.
Qed.

(** One thread, one call, to the end. *)
Definition one : gconfig := (gate_new 3, data_calls (gate_conf 3) 2 <$> [[1]]).
Definition one_end : Gate := mkGate 3 0 [] false [] [] 0 0 ∅ ∅ 0.
Lemma one_done : greachable one (one_end, [Ret ()]).
Proof.
  unfold one. cbn [fmap list_fmap].
  run_step 0%nat. { split; reflexivity. }
  run_step 0%nat. { split; reflexivity. }
  run_step 0%nat. { left. split_and!; reflexivity. }
  unit_step 0%nat.
  eapply rtc_l. { eapply (gstep_thread _ _ 0 _ _ _ []); [reflexivity|]. split; [by vm_compute|]. exists ∅. split; [set_solver|reflexivity]. }
  unit_step 0%nat.
  run_step 0%nat. { split; reflexivity. }
  match goal with |- rtc _ (?g, _) _ => replace g with one_end end; [apply rtc_refl|].
  vm_compute. reflexivity.
Qed.
End GateDemo.

Lemma gate_leaves_worker_witness :
  ∃ g ps, greachable GateDemo.start (g, ps) ∧ g_sent g = 1 ∧ size (g_busy g) = 1%nat ∧ g_sent g + Z.of_nat (size (g_busy g)) < 4.
Proof.
  destruct GateDemo.given_up as [ps Hr]. exists GateDemo.one_given_up, ps. split; [exact Hr|]. split; [reflexivity|]. split; [vm_compute; reflexivity|].
  exact (proj1 (proj1 (gate_leaves_worker 4 8 3 GateDemo.css _ ps ltac:(split; vm_compute; congruence) ltac:(reflexivity) Hr) ltac:(reflexivity))).
Defined.

Lemma gate_gives_back_witness :
  ∃ g ps, greachable GateDemo.one (g, ps) ∧ g_avail g + len (g_retired g) = 3 ∧ g_queued g = 0.
Proof.
  exists GateDemo.one_end, [Ret ()]. split; [exact GateDemo.one_done|].
  destruct (gate_gives_back 3 2 [[1]] GateDemo.one_end [Ret ()]) as (H1 & H2 & _).
  - reflexivity.
  - reflexivity.
  - exact GateDemo.one_done.
  - apply Forall_singleton. reflexivity.
  - split; [exact H1|exact H2].
Defined.
