(* ===== verification/BlockIndex.v ===== *)
(** BlockIndex: the block store's formats and its metadata index
    (addons/crates/aether-block-store/src: codec.rs, manifest.rs, index.rs,
    files.rs and the transactions of write.rs, store.rs, read.rs, compact.rs).

    A transaction of the index is a function on the tables that gives a
    result and the tables after it, or an error; [index_update] commits it or
    leaves the tables. Values are kept as the bytes the tables hold. A panic
    inside a transaction drops it, as an error does, so panics are a value of
    the error type; so is arithmetic that overflows, which panics. What redb
    itself can fail with is not modelled: it leaves the tables alone. *)

From S2P Require Import Prelude Seg.

(** ** error.rs *)

Inductive BErr :=
  | Io | NotFound | Unaligned | OutOfRange | FileIdTooLong | Locked | Corrupt | Config
  | PartialWrite (blocks_written : Z) (source : BErr)
  | Panicked
  (** the model's fuel ran out: the code would not return *)
  | Diverged.

(** ** codec.rs *)

Definition MAGIC : Z := from_le (lit "SBLK").
Definition HEADER_LEN : Z := 40.
Definition FLAG_COMPRESSED : Z := 1.

(** The hash, the checksum and zstd are libraries. [bc_frame] is the frame an
    encoder of a write class makes of a block, on the CPU or the GPU, and
    [bc_decompress f n] what a frame decodes to in a buffer of [n] bytes. *)
Inductive WriteClass := Foreground | Bulk.
Class BlockCodec := {
  hash128 : bytes → bytes;
  checksum : bytes → Z;
  bc_frame : WriteClass → bytes → option bytes;
  bc_decompress : bytes → Z → option bytes }.

(** What their documentation says of them. *)
Class BlockCodecOk `{BlockCodec} : Prop := {
  hash128_len b : len (hash128 b) = 16;
  checksum_range b : in_u64 (checksum b);
  frame_decodes c b f : bc_frame c b = Some f → bc_decompress f (len b) = Some b }.

Record RecordHeader := mkRecordHeader {
  h_flags : Z; h_raw_len : Z; h_stored_len : Z; h_hash : bytes; h_checksum : Z }.

Definition header_encode (h : RecordHeader) : bytes :=
  to_le 4 MAGIC ++ [h_flags h] ++ [0; 0; 0] ++ to_le 4 (h_raw_len h) ++ to_le 4 (h_stored_len h) ++
  h_hash h ++ to_le 8 (h_checksum h).

Inductive Reason :=
  | ShortHeader | BadMagic | UnknownFlags | PayloadLengthMismatch | OutputLengthMismatch | ChecksumMismatch
  | DecompressionFailed | DecompressedLengthMismatch | RawPayloadLengthMismatch
  | RecordTruncated | RecordDoesNotMatchIndex | UnreadableRecord.

Definition header_decode (b : bytes) : result Reason RecordHeader :=
  if len b <? HEADER_LEN then Err ShortHeader else
  if negb (from_le (mem_get b 0 4) =? MAGIC) then Err BadMagic else
  let flags := default 0 (b !! 4%nat) in
  if negb (Z.land flags (Z.lxor 255 FLAG_COMPRESSED) =? 0) || negb (bool_decide (mem_get b 5 3 = [0; 0; 0]))
  then Err UnknownFlags else
  Ok (mkRecordHeader flags (from_le (mem_get b 8 4)) (from_le (mem_get b 12 4)) (mem_get b 16 16)
        (from_le (mem_get b 32 8))).

Definition header_record_len (h : RecordHeader) : Z := HEADER_LEN + h_stored_len h.

Record EncodedBlock := mkEncodedBlock { eb_header : RecordHeader; eb_payload : bytes }.

Section codec.
Context `{BlockCodec}.

Definition from_frame (data hash frame : bytes) : EncodedBlock :=
  let '(flags, payload) := if len frame <? len data then (FLAG_COMPRESSED, frame) else (0, data) in
  mkEncodedBlock
    (mkRecordHeader flags (as_u32 (len data)) (as_u32 (len payload)) hash (checksum payload)) payload.

Definition encode_block (data hash : bytes) (class : WriteClass) : result BErr EncodedBlock :=
  match bc_frame class data with Some frame => Ok (from_frame data hash frame) | None => Err Io end.

(** [decode_payload]: what is written into [out], of [out_len] bytes. *)
Definition decode_payload (h : RecordHeader) (payload : bytes) (out_len : Z) : result Reason bytes :=
  if negb (len payload =? h_stored_len h) then Err PayloadLengthMismatch else
  if negb (out_len =? h_raw_len h) then Err OutputLengthMismatch else
  if negb (checksum payload =? h_checksum h) then Err ChecksumMismatch else
  if negb (Z.land (h_flags h) FLAG_COMPRESSED =? 0) then
    match bc_decompress payload out_len with
    | None => Err DecompressionFailed
    | Some d => if negb (len d =? out_len) then Err DecompressedLengthMismatch else Ok d
    end
  else if negb (len payload =? out_len) then Err RawPayloadLengthMismatch else Ok payload.
End codec.

(** ** manifest.rs *)

Definition BLOCKS_PER_SEGMENT : Z := 4096.
Definition FILE_HEADER_LEN : Z := 16.
Definition MISSING : Z := 0.

Definition div_ceil (a b : Z) : Z := (a + b - 1) / b.
Definition block_count (len block_size : Z) : Z := div_ceil len block_size.
Definition len_fits (len block_size : Z) : bool :=
  div_ceil (block_count len block_size) BLOCKS_PER_SEGMENT <=? u32_max - 1.
Definition segment_count (blocks : Z) : Z := as_u32 (Z.max (div_ceil blocks BLOCKS_PER_SEGMENT) 1).
Definition slots_in_segment (blocks seg : Z) : Z :=
  let start := seg * BLOCKS_PER_SEGMENT in sat_sub (Z.min blocks (start + BLOCKS_PER_SEGMENT)) start.
(** [idx * block_size] is in range for every block of a file. *)
Definition block_len (len block_size idx : Z) : Z := Z.min (sat_sub len (idx * block_size)) block_size.

Definition encode_segment (file_len : option Z) (ids : list Z) : bytes :=
  match file_len with Some l => to_le 8 l ++ replicate 8 0 | None => [] end ++ flat_map (to_le 8) ids.

(** A slice out of range panics: [None]. *)
Definition ids_bytes (value : bytes) (seg : Z) : option bytes :=
  if seg =? 0 then (if FILE_HEADER_LEN <=? len value then Some (drop (Z.to_nat FILE_HEADER_LEN) value) else None)
  else Some value.
Definition file_len (seg0 : bytes) : option Z :=
  if 8 <=? len seg0 then Some (from_le (mem_get seg0 0 8)) else None.
Definition slot (value : bytes) (seg i : Z) : option Z :=
  b ← ids_bytes value seg; if i * 8 + 8 <=? len b then Some (from_le (mem_get b (i * 8) 8)) else None.

(** [as_chunks::<8>]: a shorter rest is left out. *)
Fixpoint chunks8 (b : bytes) : list Z :=
  match b with
  | x0 :: x1 :: x2 :: x3 :: x4 :: x5 :: x6 :: x7 :: b' => from_le [x0; x1; x2; x3; x4; x5; x6; x7] :: chunks8 b'
  | _ => []
  end.
Definition decode_ids (value : bytes) (seg : Z) : option (list Z) := chunks8 <$> ids_bytes value seg.

(** ** index.rs: the rows *)

Record BlockLoc := mkBlockLoc {
  l_pack : Z; l_offset : Z; l_stored_len : Z; l_raw_len : Z; l_refcount : Z; l_hash : bytes }.

Definition loc_encode (l : BlockLoc) : bytes :=
  to_le 4 (l_pack l) ++ to_le 8 (l_offset l) ++ to_le 4 (l_stored_len l) ++ to_le 4 (l_raw_len l) ++
  to_le 4 (l_refcount l) ++ l_hash l.
Definition loc_decode (b : bytes) : BlockLoc :=
  mkBlockLoc (from_le (mem_get b 0 4)) (from_le (mem_get b 4 8)) (from_le (mem_get b 12 4))
    (from_le (mem_get b 16 4)) (from_le (mem_get b 20 4)) (mem_get b 24 16).
Definition loc_record_len (l : BlockLoc) : Z := HEADER_LEN + l_stored_len l.

Definition with_refcount (l : BlockLoc) (n : Z) : BlockLoc :=
  mkBlockLoc (l_pack l) (l_offset l) (l_stored_len l) (l_raw_len l) n (l_hash l).
Definition with_place (l : BlockLoc) (pack off : Z) : BlockLoc :=
  mkBlockLoc pack off (l_stored_len l) (l_raw_len l) (l_refcount l) (l_hash l).

Inductive PackState := Active | Sealed | Retired.
#[export] Instance PackState_eq_dec : EqDecision PackState.
Proof. solve_decision. Defined.
Record PackInfo := mkPackInfo { live_bytes : Z; p_state : PackState }.

Definition state_byte (s : PackState) : Z := match s with Active => 0 | Sealed => 1 | Retired => 2 end.
Definition info_encode (p : PackInfo) : bytes := to_le 8 (live_bytes p) ++ [state_byte (p_state p)].
Definition info_decode (b : bytes) : PackInfo :=
  let s := default 0 (b !! 8%nat) in
  mkPackInfo (from_le (mem_get b 0 8)) (if s =? 0 then Active else if s =? 1 then Sealed else Retired).

(** ** index.rs: the tables *)

Record Tables := mkTables {
  t_files : gmap (bytes * Z) bytes;
  t_blocks : gmap Z bytes;
  t_dedup : gmap bytes Z;
  t_packs : gmap Z bytes;
  t_meta : gmap str Z }.

Definition META_SCHEMA_VERSION := lit "schema_version".
Definition META_BLOCK_SIZE := lit "block_size".
Definition META_NEXT_BLOCK_ID := lit "next_block_id".
Definition META_NEXT_PACK_ID := lit "next_pack_id".
Definition META_CLEAN_SHUTDOWN := lit "clean_shutdown".
Definition SCHEMA_VERSION : Z := 1.

(** A transaction. *)
Definition TM (A : Type) : Type := Tables → result BErr (A * Tables).
#[export] Instance TM_ret : MRet TM := λ A a t, Ok (a, t).
#[export] Instance TM_bind : MBind TM := λ A B f m t,
  match m t with Ok (a, t') => f a t' | Err e => Err e end.
Definition tfail {A} (e : BErr) : TM A := λ _, Err e.
Definition tread {A} (f : Tables → A) : TM A := λ t, Ok (f t, t).
Definition twrite (f : Tables → Tables) : TM unit := λ t, Ok (tt, f t).
Definition tor {A} (e : BErr) (o : option A) : TM A := match o with Some a => mret a | None => tfail e end.
(** [for x in l { f(x)? }] *)
Fixpoint titer {A} (f : A → TM unit) (l : list A) : TM unit :=
  match l with [] => mret tt | x :: l => f x ≫= λ _, titer f l end.
(** [l.map(f).collect::<Result<Vec<_>>>()] *)
Fixpoint tmap {A B} (f : A → TM B) (l : list A) : TM (list B) :=
  match l with [] => mret [] | x :: l => y ← f x; ys ← tmap f l; mret (y :: ys) end.

(** [Index::update]: the transaction's tables are kept when it returns [Ok]. *)
Definition index_update {A} (f : TM A) (t : Tables) : result BErr A * Tables :=
  match f t with Ok (a, t') => (Ok a, t') | Err e => (Err e, t) end.

Definition set_files x t := mkTables x (t_blocks t) (t_dedup t) (t_packs t) (t_meta t).
Definition set_blocks x t := mkTables (t_files t) x (t_dedup t) (t_packs t) (t_meta t).
Definition set_dedup x t := mkTables (t_files t) (t_blocks t) x (t_packs t) (t_meta t).
Definition set_packs x t := mkTables (t_files t) (t_blocks t) (t_dedup t) x (t_meta t).
Definition set_meta x t := mkTables (t_files t) (t_blocks t) (t_dedup t) (t_packs t) x.

(** The lookups, of a snapshot ([IndexRead]) and of a transaction's tables. *)
Definition segment (f : bytes) (seg : Z) (t : Tables) : option bytes := t_files t !! (f, seg).
Definition block (id : Z) (t : Tables) : option BlockLoc := loc_decode <$> t_blocks t !! id.
Definition dedup (h : bytes) (t : Tables) : option Z := t_dedup t !! h.
Definition meta (k : str) (t : Tables) : option Z := t_meta t !! k.
Definition pack (id : Z) (t : Tables) : option PackInfo := info_decode <$> t_packs t !! id.
Definition id_le {V} (p q : Z * V) : Prop := p.1 ≤ q.1.
#[export] Instance id_le_dec {V} : RelDecision (@id_le V) := λ p q, decide (p.1 ≤ q.1).
Definition packs (t : Tables) : list (Z * PackInfo) :=
  (λ '(k, v), (k, info_decode v)) <$> merge_sort id_le (map_to_list (t_packs t)).

Definition put_segment (f : bytes) (seg : Z) (v : bytes) : TM unit :=
  twrite (λ t, set_files (<[(f, seg) := v]> (t_files t)) t).
Definition remove_segment (f : bytes) (seg : Z) : TM unit :=
  twrite (λ t, set_files (delete (f, seg) (t_files t)) t).
Definition put_block (id : Z) (l : BlockLoc) : TM unit :=
  twrite (λ t, set_blocks (<[id := loc_encode l]> (t_blocks t)) t).
Definition put_meta (k : str) (v : Z) : TM unit := twrite (λ t, set_meta (<[k := v]> (t_meta t)) t).
Definition put_pack (id : Z) (p : PackInfo) : TM unit :=
  twrite (λ t, set_packs (<[id := info_encode p]> (t_packs t)) t).
Definition remove_pack (id : Z) : TM unit := twrite (λ t, set_packs (delete id (t_packs t)) t).

Definition add_live (p delta : Z) : TM unit :=
  i ← tread (pack p); info ← tor Corrupt i;
  let n := live_bytes info + delta in
  if (0 <=? n) && (n <? u64_max) then put_pack p (mkPackInfo n (p_state info)) else tfail Corrupt.

Definition insert_block (l : BlockLoc) : TM Z :=
  m ← tread (meta META_NEXT_BLOCK_ID);
  let id := default 1 m in
  if u64_max - 1 <=? id then tfail Panicked else
  _ ← put_meta META_NEXT_BLOCK_ID (id + 1);
  let l := with_refcount l 0 in
  _ ← put_block id l;
  _ ← twrite (λ t, set_dedup (<[l_hash l := id]> (t_dedup t)) t);
  _ ← add_live (l_pack l) (loc_record_len l);
  mret id.

Definition incref (id : Z) : TM unit :=
  b ← tread (block id); l ← tor Corrupt b;
  if u32_max - 1 <=? l_refcount l then tfail Panicked else put_block id (with_refcount l (l_refcount l + 1)).

Definition remove_block (id : Z) (l : BlockLoc) : TM unit :=
  _ ← twrite (λ t, set_blocks (delete id (t_blocks t)) t);
  d ← tread (dedup (l_hash l));
  _ ← (if bool_decide (d = Some id) then twrite (λ t, set_dedup (delete (l_hash l) (t_dedup t)) t) else mret tt);
  add_live (l_pack l) (- loc_record_len l).

Definition decref (id : Z) : TM unit :=
  b ← tread (block id);
  match b with
  | None => mret tt
  | Some l =>
      if 1 <? l_refcount l then put_block id (with_refcount l (l_refcount l - 1)) else remove_block id l
  end.

(** ** files.rs *)

Definition files_len (f : bytes) : TM (option Z) :=
  s ← tread (segment f 0);
  match s with None => mret None | Some v => n ← tor Panicked (file_len v); mret (Some n) end.

Definition the_segment (f : bytes) (seg : Z) : TM bytes := s ← tread (segment f seg); tor Corrupt s.

(** The loop of [set_slots] at [block], with the ids still to place. *)
Fixpoint set_slots_loop (fuel : nat) (f : bytes) (len0 block : Z) (ids : list Z) (old : list Z) : TM (list Z) :=
  match ids, fuel with
  | [], _ => mret old
  | _, O => tfail Diverged
  | _, S fuel =>
      let seg := as_u32 (block / BLOCKS_PER_SEGMENT) in
      let off := block mod BLOCKS_PER_SEGMENT in
      value ← the_segment f seg;
      slots ← tor Panicked (decode_ids value seg);
      if len slots <? off then tfail Panicked else
      let take_ := Z.min (len slots - off) (len ids) in
      let now := take (Z.to_nat take_) ids in
      let old := old ++ mem_get slots off take_ in
      _ ← put_segment f seg (encode_segment (if seg =? 0 then Some len0 else None) (mem_put slots off now));
      set_slots_loop fuel f len0 (block + take_) (drop (Z.to_nat take_) ids) old
  end.
Definition set_slots (f : bytes) (len0 first : Z) (ids : list Z) : TM (list Z) :=
  set_slots_loop (length ids) f len0 first ids [].

Definition put_missing_segment (f : bytes) (len0 blocks s : Z) : TM unit :=
  put_segment f s
    (encode_segment (if s =? 0 then Some len0 else None) (replicate (Z.to_nat (slots_in_segment blocks s)) MISSING)).

(** [for s in a..b] *)
Definition range (a b : Z) : list Z := seqZ a (b - a).

(** [slots.resize(n, MISSING)] *)
Definition vec_resize (slots : list Z) (n : Z) : list Z := resize (Z.to_nat n) MISSING slots.

Definition files_resize (f : bytes) (new_len bs : Z) : TM (list Z) :=
  let nb := block_count new_len bs in
  let new_segs := segment_count nb in
  s0 ← tread (segment f 0);
  match s0 with
  | None => _ ← titer (put_missing_segment f new_len nb) (range 0 new_segs); mret []
  | Some seg0 =>
      old_len ← tor Panicked (file_len seg0);
      let ob := block_count old_len bs in
      let old_segs := segment_count ob in
      let common := Z.min ob nb in
      let first_seg := as_u32 (sat_sub common 1 / BLOCKS_PER_SEGMENT) in
      let base := first_seg * BLOCKS_PER_SEGMENT in
      value ← (if first_seg =? 0 then mret seg0 else the_segment f first_seg);
      slots ← tor Panicked (decode_ids value first_seg);
      '(dropped, slots) ←
        (if 0 <? common then
           let last := common - 1 in
           if negb (block_len old_len bs last =? block_len new_len bs last) then
             id ← tor Panicked (slots !! Z.to_nat (last - base));
             mret ([id], <[Z.to_nat (last - base) := MISSING]> slots)
           else mret ([], slots)
         else mret ([], slots));
      let keep := slots_in_segment nb first_seg in
      let '(dropped, slots) :=
        if keep <? len slots then (dropped ++ drop (Z.to_nat keep) slots, take (Z.to_nat keep) slots)
        else (dropped, vec_resize slots keep) in
      _ ← put_segment f first_seg (encode_segment (if first_seg =? 0 then Some new_len else None) slots);
      _ ← (if 0 <? first_seg then
             ids ← tor Panicked (decode_ids seg0 0); put_segment f 0 (encode_segment (Some new_len) ids)
           else mret tt);
      _ ← titer (put_missing_segment f new_len nb) (range (first_seg + 1) new_segs);
      more ← tmap (λ s, value ← the_segment f s; ids ← tor Panicked (decode_ids value s);
                        _ ← remove_segment f s; mret ids) (range (first_seg + 1) old_segs);
      mret (filter (λ id, id ≠ MISSING) (dropped ++ concat more))
  end.

Definition files_remove (f : bytes) (bs : Z) : TM (option (list Z)) :=
  s0 ← tread (segment f 0);
  match s0 with
  | None => mret None
  | Some seg0 =>
      l ← tor Panicked (file_len seg0);
      ids ← tmap (λ s, value ← (if s =? 0 then mret seg0 else the_segment f s);
                       ids ← tor Panicked (decode_ids value s);
                       _ ← remove_segment f s; mret (filter (λ id, id ≠ MISSING) ids))
              (range 0 (segment_count (block_count l bs)));
      mret (Some (concat ids))
  end.

(** ** The transactions of write.rs *)

Definition validate_write (len0 bs first data_len : Z) : result BErr unit :=
  if data_len =? 0 then Ok tt else
  let count := div_ceil data_len bs in
  let end_ := first + count in
  if u64_max <=? end_ then Err OutOfRange else
  if block_count len0 bs <? end_ then Err OutOfRange else
  let tail := data_len - (count - 1) * bs in
  if negb (tail =? block_len len0 bs (end_ - 1)) then Err Unaligned else Ok tt.

Definition tresult {A} (r : result BErr A) : TM A := match r with Ok a => mret a | Err e => tfail e end.

Definition pack_accepts_records (p : Z) : TM bool :=
  i ← tread (pack p); mret (match i with Some i => negb (bool_decide (p_state i = Retired)) | None => false end).

(** The indices whose block is neither stored nor among the new records that
    may still be committed. *)
Fixpoint still_missing (new_records : gmap bytes BlockLoc) (i : nat) (hashes : list bytes) : TM (list nat) :=
  match hashes with
  | [] => mret []
  | h :: hashes =>
      d ← tread (dedup h);
      ok ← (match d, new_records !! h with
            | Some _, _ => mret true
            | None, Some l => pack_accepts_records (l_pack l)
            | None, None => mret false
            end);
      rest ← still_missing new_records (S i) hashes;
      mret (if ok : bool then rest else i :: rest)
  end.

(** [t.dedup(h)?], or a new block row; [new_records[h]] panics without it. *)
Definition block_for (new_records : gmap bytes BlockLoc) (h : bytes) : TM Z :=
  d ← tread (dedup h);
  match d with Some id => mret id | None => l ← tor Panicked (new_records !! h); insert_block l end.

(** The new ids of a run of slots take the place of the old ones, references
    counted up before they are counted down. *)
Definition repoint (f : bytes) (len0 first : Z) (ids : list Z) : TM unit :=
  old ← set_slots f len0 first ids;
  _ ← titer incref ids;
  titer (λ id, if negb (id =? MISSING) then decref id else mret tt) old.

Definition write_txn (bs : Z) (f : bytes) (first chunk_len : Z) (hashes : list bytes)
    (new_records : gmap bytes BlockLoc) : TM (option (list nat)) :=
  l ← files_len f; len0 ← tor NotFound l;
  _ ← tresult (validate_write len0 bs first chunk_len);
  missing ← still_missing new_records 0 hashes;
  match missing with
  | [] =>
      ids ← tmap (block_for new_records) hashes;
      _ ← repoint f len0 first ids;
      mret None
  | _ => mret (Some missing)
  end.

(** One file of [put_files]: [hs] are the hashes of its blocks. *)
Definition put_file_txn (bs : Z) (new_records : gmap bytes BlockLoc) (fd : bytes * bytes) (hs : list bytes) : TM unit :=
  let len0 := len fd.2 in
  dropped ← files_resize fd.1 len0 bs;
  _ ← titer decref dropped;
  ids ← tmap (block_for new_records) hs;
  repoint fd.1 len0 0 ids.

(** [hashes[starts[k]..starts[k + 1]]] *)
Definition hashes_of (hashes : list bytes) (starts : list Z) (k : nat) : list bytes :=
  let a := default 0 (starts !! k) in let b := default 0 (starts !! S k) in
  take (Z.to_nat (b - a)) (drop (Z.to_nat a) hashes).

Definition put_files_txn (bs : Z) (files : list (bytes * bytes)) (hashes : list bytes) (starts : list Z)
    (new_records : gmap bytes BlockLoc) : TM (option (list nat)) :=
  missing ← still_missing new_records 0 hashes;
  match missing with
  | [] => _ ← titer (λ '(k, fd), put_file_txn bs new_records fd (hashes_of hashes starts k)) (imap pair files); mret None
  | _ => mret (Some missing)
  end.

(** ** The transactions of store.rs, read.rs and compact.rs *)

Definition set_len_txn (bs : Z) (f : bytes) (len0 : Z) : TM unit :=
  ids ← files_resize f len0 bs; titer decref ids.

Definition delete_txn (bs : Z) (f : bytes) : TM unit :=
  o ← files_remove f bs; ids ← tor NotFound o; titer decref ids.

(** A pack begins: the one before it is sealed. *)
Definition register_txn (old : option Z) (id : Z) : TM unit :=
  _ ← (match old with
       | None => mret tt
       | Some o =>
           i ← tread (pack o);
           match i with Some i => put_pack o (mkPackInfo (live_bytes i) Sealed) | None => mret tt end
       end);
  _ ← put_pack id (mkPackInfo 0 Active);
  put_meta META_NEXT_PACK_ID (id + 1).

Definition heal_txn (id : Z) (l : BlockLoc) : TM bool :=
  b ← tread (block id);
  match b with
  | Some cur =>
      if (l_pack cur =? l_pack l) && (l_offset cur =? l_offset l)
      then _ ← remove_block id cur; mret true
      else mret false
  | None => mret false
  end.

(** A live record that compaction copied, and where the copy is. *)
Definition move_one (m : Z * BlockLoc * (Z * Z)) : TM Z :=
  let '(id, l, (new_pack, new_offset)) := m in
  b ← tread (block id);
  match b with
  | None => mret 0
  | Some cur =>
      if negb (l_pack cur =? l_pack l) || negb (l_offset cur =? l_offset l) then mret 0 else
      let n := loc_record_len cur in
      _ ← put_block id (with_place cur new_pack new_offset);
      _ ← add_live (l_pack cur) (- n);
      _ ← add_live new_pack n;
      mret n
  end.
Definition move_txn (ms : list (Z * BlockLoc * (Z * Z))) : TM Z :=
  ns ← tmap move_one ms; mret (foldr Z.add 0 ns).

Definition retire_txn (p : Z) : TM bool :=
  i ← tread (pack p); info ← tor Corrupt i;
  if negb (live_bytes info =? 0) then mret false else
  _ ← put_pack p (mkPackInfo (live_bytes info) Retired); mret true.
