(* ===== verification/BlockProps.v ===== *)
(** BlockProps: what the block store's formats and index mean. Records, rows
    and manifest segments read back as what was encoded; the operations on
    manifests are operations on one list of block ids per file
    ([set_slots_list], [resize_list], [remove_list]); and the transactions
    keep the index consistent ([IdxInv]). *)

From S2P Require Import Prelude Seg BlockIndex.

(** ** Formats *)

(** Reads of the parts of a concatenation. *)
Lemma mem_get_left (a b : bytes) n : 0 ≤ n → n = len a → mem_get (a ++ b) 0 n = a.
Proof.
  intros ? ->. unfold mem_get, len. cbn. rewrite drop_0, Nat2Z.id. apply take_app_length.
Qed.
Lemma mem_get_skip (a b : bytes) o n : 0 ≤ n → len a ≤ o → mem_get (a ++ b) o n = mem_get b (o - len a) n.
Proof.
  intros. unfold mem_get, len in *. rewrite drop_app_ge by lia. repeat f_equal. lia.
Qed.
Lemma mem_get_exact (a : bytes) n : 0 ≤ n → n = len a → mem_get a 0 n = a.
Proof. intros. rewrite <- (app_nil_r a) at 1. by apply mem_get_left. Qed.

Ltac field_step :=
  first [ rewrite mem_get_skip by (autorewrite with vfs_len; cbn; lia); autorewrite with vfs_len; cbn [Z.sub Z.add Z.opp Z.of_nat Z.pos_sub Pos.of_succ_nat Pos.succ]
        | rewrite mem_get_left by (autorewrite with vfs_len; cbn; lia)
        | rewrite mem_get_exact by (autorewrite with vfs_len; cbn; lia) ].

Definition loc_ok (l : BlockLoc) : Prop :=
  in_u32 (l_pack l) ∧ in_u64 (l_offset l) ∧ in_u32 (l_stored_len l) ∧ in_u32 (l_raw_len l) ∧
  in_u32 (l_refcount l) ∧ len (l_hash l) = 16.
Definition info_ok (i : PackInfo) : Prop := in_u64 (live_bytes i).

Lemma loc_roundtrip l : loc_ok l → loc_decode (loc_encode l) = l.
Proof.
  destruct l as [p o s r c h]. intros (Hp & Ho & Hs & Hr & Hc & Hh). cbn in *.
  unfold loc_decode, loc_encode. cbn [l_pack l_offset l_stored_len l_raw_len l_refcount l_hash].
  unfold in_u32, in_u64, u32_max, u64_max in *. f_equal.
  all: repeat field_step; rewrite ?from_to_le_small by (cbn; lia); done.
Qed.

Lemma info_roundtrip i : info_ok i → info_decode (info_encode i) = i.
Proof.
  destruct i as [n s]. intros Hn. unfold info_ok, in_u64, u64_max in Hn. cbn in Hn.
  unfold info_decode, info_encode. cbn [live_bytes p_state].
  rewrite mem_get_left by (rewrite ?len_to_le; lia). rewrite from_to_le_small by (cbn; lia).
  rewrite lookup_app_r by (rewrite length_to_le; lia). rewrite length_to_le.
  by destruct s.
Qed.

Lemma in_u64_forall_le ids : Forall in_u64 ids → chunks8 (flat_map (to_le 8) ids) = ids.
Proof.
  induction 1 as [|x ids Hx Hi IH]; [done|]. cbn [flat_map].
  assert (to_le 8 x = [x mod 256; x / 256 mod 256; x / 256 / 256 mod 256; x / 256 / 256 / 256 mod 256;
    x / 256 / 256 / 256 / 256 mod 256; x / 256 / 256 / 256 / 256 / 256 mod 256;
    x / 256 / 256 / 256 / 256 / 256 / 256 mod 256; x / 256 / 256 / 256 / 256 / 256 / 256 / 256 mod 256]) as E by done.
  rewrite E. cbn [app chunks8]. rewrite <- E, from_to_le_small by (unfold in_u64, u64_max in Hx; cbn; lia).
  by rewrite IH.
Qed.

(** The header of a segment: only the first has the file's length. *)
Definition seg_head (s len0 : Z) : option Z := if s =? 0 then Some len0 else None.

Lemma decode_encode_segment s len0 ids :
  Forall in_u64 ids → decode_ids (encode_segment (seg_head s len0) ids) s = Some ids.
Proof.
  intros Hi. unfold decode_ids, ids_bytes, encode_segment, seg_head. destruct (s =? 0).
  - assert (len ((to_le 8 len0 ++ replicate 8 0) ++ flat_map (to_le 8) ids) = 16 + len (flat_map (to_le 8) ids)) as E
      by (rewrite !len_app, len_to_le; change (len (replicate 8 0)) with 8; lia).
    rewrite E. pose proof (len_nonneg (flat_map (to_le 8) ids)).
    rewrite (proj2 (Z.leb_le _ _)) by (unfold FILE_HEADER_LEN; lia). cbn [fmap option_fmap option_map].
    rewrite (drop_app_length' _ _ (Z.to_nat FILE_HEADER_LEN)) by (rewrite length_app, length_to_le; done).
    f_equal. by apply in_u64_forall_le.
  - cbn. f_equal. by apply in_u64_forall_le.
Qed.

Lemma file_len_encode len0 ids : in_u64 len0 → file_len (encode_segment (Some len0) ids) = Some len0.
Proof.
  intros H. unfold file_len, encode_segment. rewrite <- app_assoc.
  rewrite (proj2 (Z.leb_le _ _)).
  - rewrite mem_get_left by (rewrite ?len_to_le; lia). by rewrite from_to_le_small by (unfold in_u64, u64_max in H; cbn; lia).
  - rewrite len_app, len_to_le. pose proof (len_nonneg (replicate 8 0 ++ flat_map (to_le 8) ids)). lia.
Qed.

Lemma file_len_head len0 ids : in_u64 len0 → file_len (encode_segment (seg_head 0 len0) ids) = Some len0.
Proof. apply file_len_encode. Qed.

Lemma flat_le_len ids : len (flat_map (to_le 8) ids) = 8 * len ids.
Proof. induction ids as [|x ids IH]; [done|]. cbn [flat_map]. rewrite len_app, len_to_le, IH, len_cons. lia. Qed.

Lemma flat_le_get ids i x :
  ids !! i = Some x → mem_get (flat_map (to_le 8) ids) (Z.of_nat i * 8) 8 = to_le 8 x.
Proof.
  revert i. induction ids as [|y ids IH]; intros [|i]; [done|done|intros [= ->]|intros Hi]; cbn [flat_map].
  - by rewrite mem_get_left by (rewrite ?len_to_le; lia).
  - rewrite mem_get_skip by (rewrite ?len_to_le; lia). rewrite len_to_le, <- (IH i Hi). f_equal. lia.
Qed.

Lemma slot_encode s len0 ids i x :
  Forall in_u64 ids → 0 ≤ i → ids !! Z.to_nat i = Some x → slot (encode_segment (seg_head s len0) ids) s i = Some x.
Proof.
  intros Hi H0 Hx. pose proof (lookup_lt_Some _ _ _ Hx) as Hlt.
  assert (in_u64 x) as Hu by (by eapply Forall_lookup_1 in Hi).
  assert (ids_bytes (encode_segment (seg_head s len0) ids) s = Some (flat_map (to_le 8) ids)) as E.
  { unfold ids_bytes, encode_segment, seg_head. destruct (s =? 0); [|done].
    rewrite (proj2 (Z.leb_le _ _)).
    - by rewrite (drop_app_length' _ _ (Z.to_nat FILE_HEADER_LEN)) by (rewrite length_app, length_to_le; done).
    - rewrite !len_app, len_to_le, flat_le_len. change (len (replicate 8 0)) with 8. unfold FILE_HEADER_LEN, len. lia. }
  unfold slot. rewrite E. cbn [mbind option_bind].
  rewrite (proj2 (Z.leb_le _ _)) by (rewrite flat_le_len; unfold len; lia).
  apply flat_le_get in Hx. rewrite Z2Nat.id in Hx by lia. rewrite Hx.
  by rewrite from_to_le_small by (unfold in_u64, u64_max in Hu; cbn; lia).
Qed.

(** ** Manifests as lists of ids *)

Section manifest.
Context (bs : Z) (Hbs : 0 < bs).
Implicit Types (f : bytes) (t : Tables) (ids : list Z).

Definition seg_slots ids (s : Z) : list Z := mem_get ids (s * BLOCKS_PER_SEGMENT) BLOCKS_PER_SEGMENT.
Definition seg_row (len0 : Z) ids (s : Z) : option bytes :=
  if (0 <=? s) && (s <? segment_count (block_count len0 bs))
  then Some (encode_segment (seg_head s len0) (seg_slots ids s)) else None.

(** A file of [len0] bytes whose blocks are [ids]. *)
Definition file_ok (len0 : Z) ids : Prop :=
  in_u64 len0 ∧ len_fits len0 bs = true ∧ len ids = block_count len0 bs ∧ Forall in_u64 ids.
Definition Manifest t f (len0 : Z) ids : Prop :=
  file_ok len0 ids ∧ ∀ s, t_files t !! (f, s) = seg_row len0 ids s.
Definition NoFile t f : Prop := ∀ s, t_files t !! (f, s) = None.

(** [t'] differs from [t] in the segments of [f] only. *)
Definition only_file f t t' : Prop :=
  t' = set_files (t_files t') t ∧ ∀ f' s, f' ≠ f → t_files t' !! (f', s) = t_files t !! (f', s).

Lemma only_file_refl f t : only_file f t t.
Proof. split; [by destruct t|done]. Qed.
Lemma only_file_trans f t1 t2 t3 : only_file f t1 t2 → only_file f t2 t3 → only_file f t1 t3.
Proof.
  intros [E1 H1] [E2 H2]. split; [rewrite E2; rewrite E1; done|].
  intros f' s Hf. by rewrite H2, H1.
Qed.
Lemma only_file_put f s v t : only_file f t (set_files (<[(f, s) := v]> (t_files t)) t).
Proof. split; [done|]. intros f' s' Hf. cbn. by rewrite lookup_insert_ne by congruence. Qed.
Lemma only_file_delete f s t : only_file f t (set_files (delete (f, s) (t_files t)) t).
Proof. split; [done|]. intros f' s' Hf. cbn. by rewrite lookup_delete_ne by congruence. Qed.

Lemma blocks_nonneg len0 : 0 ≤ len0 → 0 ≤ block_count len0 bs.
Proof using Hbs. unfold block_count, div_ceil. intros. apply Z.div_pos; lia. Qed.

Lemma segment_count_spec blocks :
  0 ≤ blocks → div_ceil blocks BLOCKS_PER_SEGMENT ≤ u32_max - 1 →
  segment_count blocks = Z.max (div_ceil blocks BLOCKS_PER_SEGMENT) 1 ∧
  1 ≤ segment_count blocks < u32_max ∧ blocks ≤ segment_count blocks * BLOCKS_PER_SEGMENT ∧
  (blocks = 0 ∨ (segment_count blocks - 1) * BLOCKS_PER_SEGMENT < blocks).
Proof.
  unfold segment_count, div_ceil, BLOCKS_PER_SEGMENT, as_u32, u32_max. intros ??.
  rewrite Z.mod_small by dlia. split; [done|]. dlia.
Qed.

Lemma file_segments len0 ids :
  file_ok len0 ids →
  1 ≤ segment_count (len ids) < u32_max ∧ len ids ≤ segment_count (len ids) * BLOCKS_PER_SEGMENT ∧
  (len ids = 0 ∨ (segment_count (len ids) - 1) * BLOCKS_PER_SEGMENT < len ids).
Proof using Hbs.
  intros (Hu & Hf & Hl & _). unfold len_fits in Hf. apply Z.leb_le in Hf. rewrite Hl.
  destruct Hu as [? _]. destruct (segment_count_spec (block_count len0 bs)) as (_ & ?); [by apply blocks_nonneg|done|done].
Qed.

(** The segment of a block of the file. *)
Lemma block_segment len0 ids b :
  file_ok len0 ids → 0 ≤ b < len ids →
  as_u32 (b / BLOCKS_PER_SEGMENT) = b / BLOCKS_PER_SEGMENT ∧ 0 ≤ b / BLOCKS_PER_SEGMENT < segment_count (len ids).
Proof using Hbs.
  intros Hok Hb. destruct (file_segments _ _ Hok) as (? & ? & ?).
  assert (0 ≤ b / BLOCKS_PER_SEGMENT < segment_count (len ids)) by (unfold BLOCKS_PER_SEGMENT in *; dlia).
  split; [|done]. unfold as_u32. apply Z.mod_small. lia.
Qed.

Lemma seg_row_in len0 ids s :
  file_ok len0 ids → 0 ≤ s < segment_count (len ids) →
  seg_row len0 ids s = Some (encode_segment (seg_head s len0) (seg_slots ids s)).
Proof.
  intros (_ & _ & Hl & _) Hs. unfold seg_row. rewrite <- Hl.
  rewrite (proj2 (Z.leb_le _ _)), (proj2 (Z.ltb_lt _ _)) by lia. done.
Qed.

Lemma seg_slots_u64 ids s : Forall in_u64 ids → Forall in_u64 (seg_slots ids s).
Proof. intros. by apply Forall_take, Forall_drop. Qed.

Lemma mem_put_u64 ids o d : Forall in_u64 ids → Forall in_u64 d → Forall in_u64 (mem_put ids o d).
Proof. intros. unfold mem_put. apply Forall_app; split; [by apply Forall_take|]. apply Forall_app; split; [done|by apply Forall_drop]. Qed.

(** Reading a segment of a file. *)
Lemma the_segment_ok t f len0 ids s :
  Manifest t f len0 ids → 0 ≤ s < segment_count (len ids) →
  the_segment f s t = Ok (encode_segment (seg_head s len0) (seg_slots ids s), t).
Proof.
  intros [Hok Ht] Hs. unfold the_segment, segment, tread, mbind, TM_bind. by rewrite Ht, seg_row_in.
Qed.

Lemma seg_slots_len ids s :
  0 ≤ s → len (seg_slots ids s) = slots_in_segment (len ids) s.
Proof.
  intros. unfold seg_slots, slots_in_segment, sat_sub, mem_get, BLOCKS_PER_SEGMENT, len. rewrite length_take, length_drop. lia.
Qed.

(** A write of slots within one segment. *)
Lemma seg_slots_put ids b d s :
  0 ≤ b → b + len d ≤ len ids → b mod BLOCKS_PER_SEGMENT + len d ≤ BLOCKS_PER_SEGMENT →
  0 ≤ s → seg_slots (mem_put ids b d) s =
    if s =? b / BLOCKS_PER_SEGMENT then mem_put (seg_slots ids s) (b mod BLOCKS_PER_SEGMENT) d else seg_slots ids s.
Proof.
  intros ???. assert (b = BLOCKS_PER_SEGMENT * (b / BLOCKS_PER_SEGMENT) + b mod BLOCKS_PER_SEGMENT) as Eb
    by (apply Z.div_mod; unfold BLOCKS_PER_SEGMENT; lia).
  pose proof (Z.mod_pos_bound b BLOCKS_PER_SEGMENT). assert (0 ≤ b / BLOCKS_PER_SEGMENT) by (apply Z.div_pos; unfold BLOCKS_PER_SEGMENT; lia).
  pose proof (len_nonneg d).
  intros. unfold seg_slots, BLOCKS_PER_SEGMENT in *. destruct (Z.eqb_spec s (b / 4096)) as [->|].
  - apply list_eq. intros i. rewrite lookup_mem_get, lookup_mem_put by lia.
    rewrite lookup_mem_put; [|lia|unfold mem_get, len in *; rewrite length_take, length_drop; lia].
    rewrite lookup_mem_get. repeat case_decide; try lia; try done. f_equal. lia.
  - destruct (decide (len d = 0)) as [E|].
    + unfold len in E. assert (d = []) as -> by (apply length_zero_iff_nil; lia). f_equal.
      unfold mem_put. change (len (@nil Z)) with 0. rewrite Z.add_0_r. cbn. apply take_drop.
    + apply mem_get_put_other; lia.
Qed.
End manifest.

Section list_ops.
Context (bs : Z) (Hbs : 0 < bs).
Local Abbreviation Manifest := (Manifest bs).
Local Abbreviation file_ok := (file_ok bs).

Lemma tbind_ok {A B} (m : TM A) (k : A → TM B) t a t1 : m t = Ok (a, t1) → (m ≫= k) t = k a t1.
Proof. intros E. unfold mbind, TM_bind. by rewrite E. Qed.

Lemma Manifest_put t f len0 ids s d b :
  Manifest t f len0 ids → s = b / BLOCKS_PER_SEGMENT → 0 ≤ b → 0 < len d → b + len d ≤ len ids →
  b mod BLOCKS_PER_SEGMENT + len d ≤ BLOCKS_PER_SEGMENT → Forall in_u64 d →
  Manifest (set_files (<[(f, s) := encode_segment (seg_head s len0) (mem_put (seg_slots ids s) (b mod BLOCKS_PER_SEGMENT) d)]>
     (t_files t)) t) f len0 (mem_put ids b d).
Proof using Hbs.
  intros [Hok Ht] -> ???? Hd. destruct (block_segment bs Hbs len0 ids b) as [_ Hs]; [done|lia|].
  destruct Hok as (Hk1 & Hk2 & Hk3 & Hk4).
  assert (file_ok len0 (mem_put ids b d)) as Hok'.
  { split_and!; [done|done|by rewrite mem_put_len by lia|by apply mem_put_u64]. }
  split; [done|]. intros s. cbn [t_files set_files].
  destruct (decide (s = b / BLOCKS_PER_SEGMENT)) as [->|Hne].
  - rewrite lookup_insert. case_decide; [|done]. rewrite seg_row_in by (rewrite ?mem_put_len by lia; done).
    rewrite seg_slots_put by lia. by rewrite Z.eqb_refl.
  - rewrite lookup_insert_ne by congruence. rewrite Ht. unfold seg_row. destruct (Z.leb_spec 0 s); [|done].
    cbn [andb]. rewrite seg_slots_put by lia. by rewrite (proj2 (Z.eqb_neq _ _)) by done.
Qed.

Lemma mem_put_put (ids : list Z) b d1 d2 :
  0 ≤ b → b + len d1 + len d2 ≤ len ids → mem_put (mem_put ids b d1) (b + len d1) d2 = mem_put ids b (d1 ++ d2).
Proof.
  intros. pose proof (len_nonneg d1). pose proof (len_nonneg d2). apply list_eq. intros i.
  rewrite !lookup_mem_put by (rewrite ?mem_put_len by lia; rewrite ?len_app; lia).
  rewrite len_app. repeat case_decide; try lia; try done.
  - rewrite lookup_app_r by (unfold len in *; lia). f_equal. unfold len in *; lia.
  - rewrite lookup_app_l by (unfold len in *; lia). done.
Qed.

Lemma mem_get_split (ids : list Z) b n1 n2 :
  0 ≤ b → 0 ≤ n1 → 0 ≤ n2 → mem_get ids b (n1 + n2) = mem_get ids b n1 ++ mem_get ids (b + n1) n2.
Proof.
  intros. unfold mem_get. rewrite !Z2Nat.inj_add by lia. rewrite <- drop_drop. rewrite take_take_drop. done.
Qed.

Lemma set_slots_loop_ok fuel t f len0 ids b new old :
  Manifest t f len0 ids → 0 ≤ b → b + len new ≤ len ids → Forall in_u64 new → (length new ≤ fuel)%nat →
  ∃ t', set_slots_loop fuel f len0 b new old t = Ok (old ++ mem_get ids b (len new), t') ∧
    Manifest t' f len0 (mem_put ids b new) ∧ only_file f t t'.
Proof using Hbs.
  revert t ids b new old. induction fuel as [|fuel IH]; intros t ids b new old HM Hb Hle Hnew Hf.
  - destruct new; [|cbn in Hf; lia]. exists t. change (len (@nil Z)) with 0 in *.
    rewrite app_nil_r. split_and!; [done| |apply only_file_refl].
    replace (mem_put ids b []) with ids; [done|].
    unfold mem_put. change (len (@nil Z)) with 0. rewrite Z.add_0_r. cbn. by rewrite take_drop.
  - destruct new as [|x new0] eqn:En.
    { exists t. change (len (@nil Z)) with 0 in *. rewrite app_nil_r. split_and!; [done| |apply only_file_refl].
      replace (mem_put ids b []) with ids; [done|].
      unfold mem_put. change (len (@nil Z)) with 0. rewrite Z.add_0_r. cbn. by rewrite take_drop. }
    rewrite <- En in *. assert (0 < len new) as Hpos by (subst; unfold len; cbn; lia).
    assert (set_slots_loop (S fuel) f len0 b new old =
      (let seg := as_u32 (b / BLOCKS_PER_SEGMENT) in
      let off := b mod BLOCKS_PER_SEGMENT in
      value ← the_segment f seg;
      slots ← tor Panicked (decode_ids value seg);
      if len slots <? off then tfail Panicked else
      let take_ := Z.min (len slots - off) (len new) in
      let now := take (Z.to_nat take_) new in
      let old := old ++ mem_get slots off take_ in
      _ ← put_segment f seg (encode_segment (if seg =? 0 then Some len0 else None) (mem_put slots off now));
      set_slots_loop fuel f len0 (b + take_) (drop (Z.to_nat take_) new) old)) as -> by (by subst new).
    clear En x new0. destruct (block_segment bs Hbs len0 ids b) as [Es Hs]; [apply HM|lia|].
    cbv zeta. rewrite Es. set (s := b / BLOCKS_PER_SEGMENT) in *. set (off := b mod BLOCKS_PER_SEGMENT).
    assert (b = BLOCKS_PER_SEGMENT * s + off) as Eb by (apply Z.div_mod; unfold BLOCKS_PER_SEGMENT; lia).
    assert (0 ≤ off < BLOCKS_PER_SEGMENT) by (apply Z.mod_pos_bound; unfold BLOCKS_PER_SEGMENT; lia).
    rewrite (tbind_ok _ _ _ _ _ (the_segment_ok bs t f len0 ids s HM Hs)).
    assert (Forall in_u64 ids) as Hi by apply HM.
    rewrite decode_encode_segment by (by apply seg_slots_u64). cbn [tor].
    rewrite (tbind_ok (mret _) _ t (seg_slots ids s) t) by done.
    rewrite seg_slots_len by lia.
    assert (off < slots_in_segment (len ids) s) as Hoff by (unfold slots_in_segment, sat_sub, BLOCKS_PER_SEGMENT in *; lia).
    rewrite (proj2 (Z.ltb_ge _ _)) by lia.
    set (n := Z.min (slots_in_segment (len ids) s - off) (len new)).
    assert (0 < n ≤ len new) as Hn by lia.
    assert (off + n ≤ BLOCKS_PER_SEGMENT) as HnB by (unfold slots_in_segment, sat_sub, BLOCKS_PER_SEGMENT in *; lia).
    set (now := take (Z.to_nat n) new).
    assert (len now = n) as Elen by (unfold now, len in *; rewrite length_take; lia).
    rewrite (tbind_ok (put_segment f s _) _ t tt _ eq_refl).
    destruct (IH (set_files (<[(f, s) := encode_segment (seg_head s len0) (mem_put (seg_slots ids s) off now)]> (t_files t)) t)
      (mem_put ids b now) (b + n) (drop (Z.to_nat n) new) (old ++ mem_get (seg_slots ids s) off n)) as (t' & E & HM' & Ho).
    + apply Manifest_put; try done; try lia. by apply Forall_take.
    + lia.
    + rewrite mem_put_len by lia. unfold len in *. rewrite length_drop. lia.
    + by apply Forall_drop.
    + rewrite length_drop. unfold len in *. lia.
    + exists t'. assert (len (drop (Z.to_nat n) new) = len new - n) as Edrop by (unfold len in *; rewrite length_drop; lia).
      split_and!.
      * unfold seg_head in E. rewrite E. f_equal. f_equal. rewrite <- app_assoc. f_equal.
        rewrite Edrop, mem_get_put_other by lia.
        replace (len new) with (n + (len new - n)) at 2 by lia. rewrite mem_get_split by lia. f_equal.
        unfold seg_slots. rewrite mem_get_get by (unfold BLOCKS_PER_SEGMENT in *; lia). f_equal. lia.
      * replace (mem_put ids b new) with (mem_put (mem_put ids b now) (b + n) (drop (Z.to_nat n) new)); [done|].
        rewrite <- Elen at 1. rewrite mem_put_put by lia. unfold now. by rewrite take_drop.
      * eapply only_file_trans; [apply only_file_put|done].
Qed.

(** [set_slots] replaces a run of the file's ids and gives back the old ones. *)
Lemma set_slots_list t f len0 ids b new :
  Manifest t f len0 ids → 0 ≤ b → b + len new ≤ len ids → Forall in_u64 new →
  ∃ t', set_slots f len0 b new t = Ok (mem_get ids b (len new), t') ∧
    Manifest t' f len0 (mem_put ids b new) ∧ only_file f t t'.
Proof using Hbs.
  intros. destruct (set_slots_loop_ok (length new) t f len0 ids b new []) as (t' & E & ?); try done. by exists t'.
Qed.
End list_ops.

(** ** Changing a file's length *)

Section resize.
Context (bs : Z) (Hbs : 0 < bs).
Local Abbreviation Manifest := (Manifest bs).
Local Abbreviation file_ok := (file_ok bs).

Lemma put_missing_loop f len0 nb l t :
  ∃ t', titer (put_missing_segment f len0 nb) l t = Ok (tt, t') ∧ only_file f t t' ∧
    ∀ s, t_files t' !! (f, s) =
      if decide (s ∈ l) then Some (encode_segment (seg_head s len0) (replicate (Z.to_nat (slots_in_segment nb s)) MISSING))
      else t_files t !! (f, s).
Proof.
  revert t. induction l as [|x l IH]; intros t; cbn [titer].
  { exists t. split_and!; [done|apply only_file_refl|]. intros s. by rewrite decide_False by (apply not_elem_of_nil). }
  rewrite (tbind_ok (put_missing_segment f len0 nb x) _ t tt _ eq_refl).
  match goal with |- ∃ t', titer _ _ ?t1 = _ ∧ _ => destruct (IH t1) as (t' & E & Ho & Ht) end.
  exists t'. rewrite E. split_and!; [done|eapply only_file_trans; [apply only_file_put|done]|].
  intros s. rewrite Ht. cbn [t_files set_files]. destruct (decide (s ∈ l)) as [Hin|Hin].
  { by rewrite decide_True by (by right). }
  destruct (decide (s = x)) as [->|Hne].
  - rewrite lookup_insert. rewrite decide_True by done. by rewrite decide_True by (by left).
  - rewrite lookup_insert_ne by congruence. rewrite decide_False; [done|]. by rewrite elem_of_cons; intros [|].
Qed.

(** The segments that [l] names are read, in order, and removed. *)
Lemma drop_segments_loop f (g : Z → TM (list Z)) (ids : Z → list Z) l t :
  NoDup l →
  (∀ s t1, s ∈ l → t_files t1 !! (f, s) = t_files t !! (f, s) →
     g s t1 = Ok (ids s, set_files (delete (f, s) (t_files t1)) t1)) →
  ∃ t', tmap g l t = Ok (ids <$> l, t') ∧ only_file f t t' ∧
    ∀ s, t_files t' !! (f, s) = if decide (s ∈ l) then None else t_files t !! (f, s).
Proof.
  revert t. induction l as [|x l IH]; intros t Hnd Hg; cbn [tmap].
  { exists t. split_and!; [done|apply only_file_refl|]. intros s. by rewrite decide_False by (apply not_elem_of_nil). }
  apply NoDup_cons in Hnd as [Hx Hnd].
  rewrite (tbind_ok (g x) _ t _ _ (Hg x t (list_elem_of_here _ _) eq_refl)).
  destruct (IH (set_files (delete (f, x) (t_files t)) t)) as (t' & E & Ho & Ht); [done| |].
  { intros s t1 Hs E. apply Hg; [by right|]. rewrite E. cbn. rewrite lookup_delete_ne by (intros [=]; by subst). done. }
  rewrite (tbind_ok _ _ _ _ _ E). exists t'. split_and!; [done|eapply only_file_trans; [apply only_file_delete|done]|].
  intros s. rewrite Ht. cbn [t_files set_files]. destruct (decide (s ∈ l)) as [Hin|Hin].
  { by rewrite decide_True by (by right). }
  destruct (decide (s = x)) as [->|Hne].
  - rewrite lookup_delete. rewrite decide_True by done. by rewrite decide_True by (by left).
  - rewrite lookup_delete_ne by congruence. rewrite decide_False; [done|]. by rewrite elem_of_cons; intros [|].
Qed.

Lemma elem_of_range a b s : s ∈ range a b ↔ a ≤ s < b.
Proof. unfold range. rewrite elem_of_seqZ. lia. Qed.
Lemma NoDup_range a b : NoDup (range a b).
Proof. apply NoDup_seqZ. Qed.
Lemma range_cons a b : a < b → range a b = a :: range (a + 1) b.
Proof. intros. unfold range. rewrite seqZ_cons by lia. unfold Z.succ, Z.pred. repeat f_equal; lia. Qed.
Lemma range_nil a b : b ≤ a → range a b = [].
Proof. intros. unfold range. by rewrite seqZ_nil by lia. Qed.

Lemma concat_segments ids a b :
  0 ≤ a ≤ b → len ids ≤ b * BLOCKS_PER_SEGMENT →
  concat (seg_slots ids <$> range a b) = drop (Z.to_nat (a * BLOCKS_PER_SEGMENT)) ids.
Proof.
  intros Hab Hl. remember (Z.to_nat (b - a)) as n eqn:En. revert a Hab En. induction n as [|n IH]; intros a Hab En.
  - assert (a = b) as -> by lia. rewrite range_nil by lia. cbn. rewrite drop_ge; [done|]. unfold len in Hl. lia.
  - rewrite range_cons by lia. cbn [fmap list_fmap concat]. rewrite IH by lia.
    unfold seg_slots, mem_get. rewrite <- (take_drop (Z.to_nat BLOCKS_PER_SEGMENT) (drop (Z.to_nat (a * BLOCKS_PER_SEGMENT)) ids)) at 2.
    f_equal. rewrite drop_drop. f_equal. unfold BLOCKS_PER_SEGMENT. lia.
Qed.

Definition nonmissing (l : list Z) : list Z := filter (λ id, id ≠ MISSING) l.

(** The last block both lengths share is dropped when its length changes. *)
Definition last_changes (ol nl : Z) : bool :=
  let common := Z.min (block_count ol bs) (block_count nl bs) in
  (0 <? common) && negb (block_len ol bs (common - 1) =? block_len nl bs (common - 1)).
Definition last_index (ol nl : Z) : nat := Z.to_nat (Z.min (block_count ol bs) (block_count nl bs) - 1).
Definition cut_last (ol nl : Z) (ids : list Z) : list Z :=
  if last_changes ol nl then <[last_index ol nl := MISSING]> ids else ids.
Definition resize_ids (ol nl : Z) (ids : list Z) : list Z :=
  resize (Z.to_nat (block_count nl bs)) MISSING (cut_last ol nl ids).
Definition resize_dropped (ol nl : Z) (ids : list Z) : list Z :=
  nonmissing ((if last_changes ol nl then [default MISSING (ids !! last_index ol nl)] else []) ++
              drop (Z.to_nat (block_count nl bs)) ids).

Definition new_len_ok (nl : Z) : Prop := in_u64 nl ∧ len_fits nl bs = true.

Lemma resize_ids_ok ol nl ids : file_ok ol ids → new_len_ok nl → file_ok nl (resize_ids ol nl ids).
Proof using Hbs.
  intros (_ & _ & Hl & Hi) [Hu Hf]. split_and!; [done|done| |].
  - unfold resize_ids, len. rewrite length_resize. pose proof (blocks_nonneg bs Hbs nl). destruct Hu. lia.
  - unfold resize_ids. apply Forall_resize; [by unfold in_u64, MISSING, u64_max; lia|].
    unfold cut_last. destruct (last_changes ol nl); [|done]. apply Forall_insert; [done|]. by unfold in_u64, MISSING, u64_max; lia.
Qed.

Lemma resize_new f nl t :
  NoFile t f → new_len_ok nl →
  ∃ t', files_resize f nl bs t = Ok ([], t') ∧
    Manifest t' f nl (replicate (Z.to_nat (block_count nl bs)) MISSING) ∧ only_file f t t'.
Proof using Hbs.
  intros Hno [Hu Hf]. unfold files_resize.
  rewrite (tbind_ok (tread (segment f 0)) _ t None t) by (unfold tread, segment; by rewrite Hno).
  destruct (put_missing_loop f nl (block_count nl bs) (range 0 (segment_count (block_count nl bs))) t) as (t' & E & Ho & Ht).
  rewrite (tbind_ok _ _ _ _ _ E). exists t'. split_and!; [done| |done].
  assert (0 ≤ block_count nl bs) as Hnb by (apply blocks_nonneg; [done|by destruct Hu]).
  assert (len (replicate (Z.to_nat (block_count nl bs)) MISSING) = block_count nl bs) as El
    by (unfold len; rewrite length_replicate; lia).
  split; [split_and!; [done|done|done|]|].
  { apply Forall_replicate. by unfold in_u64, MISSING, u64_max; lia. }
  intros s. rewrite Ht, Hno. unfold seg_row. case_decide as Hs; rewrite elem_of_range in Hs.
  - rewrite (proj2 (Z.leb_le _ _)), (proj2 (Z.ltb_lt _ _)) by lia. cbn [andb]. repeat f_equal.
    unfold seg_slots, mem_get. rewrite drop_replicate, take_replicate. f_equal.
    unfold slots_in_segment, sat_sub, BLOCKS_PER_SEGMENT. lia.
  - destruct (Z.leb_spec 0 s), (Z.ltb_spec s (segment_count (block_count nl bs))); try done. lia.
Qed.

Lemma lookup_resize_def (l : list Z) n x i :
  resize n x l !! i = if decide (i < n)%nat then Some (default x (l !! i)) else None.
Proof.
  case_decide; [|by apply lookup_resize_old; lia].
  destruct (decide (i < length l)%nat) as [Hi|Hi].
  - rewrite lookup_resize by done. by destruct (lookup_lt_is_Some_2 l i Hi) as [y ->].
  - rewrite lookup_resize_new by lia. by rewrite (lookup_ge_None_2 l i) by lia.
Qed.

Lemma seg_slots_resize ids nb s :
  0 ≤ s → 0 ≤ nb →
  seg_slots (resize (Z.to_nat nb) MISSING ids) s = vec_resize (seg_slots ids s) (slots_in_segment nb s).
Proof.
  intros. apply list_eq. intros i. unfold seg_slots, vec_resize, slots_in_segment, sat_sub, BLOCKS_PER_SEGMENT.
  rewrite lookup_mem_get, !lookup_resize_def, lookup_mem_get. repeat case_decide; try lia; try done.
Qed.

Lemma seg_slots_insert ids i x s :
  0 ≤ s → 0 ≤ i → seg_slots (<[Z.to_nat i := x]> ids) s =
    if i / BLOCKS_PER_SEGMENT =? s then <[Z.to_nat (i - s * BLOCKS_PER_SEGMENT) := x]> (seg_slots ids s) else seg_slots ids s.
Proof.
  intros. unfold seg_slots, mem_get, BLOCKS_PER_SEGMENT in *. destruct (Z.eqb_spec (i / 4096) s) as [<-|].
  - rewrite drop_insert_ge by dlia. rewrite take_insert_lt by dlia. f_equal. dlia.
  - destruct (decide (Z.to_nat i < Z.to_nat (s * 4096))%nat).
    + by rewrite drop_insert_lt by dlia.
    + rewrite drop_insert_ge by dlia. by rewrite take_insert_ge by dlia.
Qed.

Lemma vec_resize_take slots n :
  0 ≤ n → vec_resize slots n = if n <? len slots then take (Z.to_nat n) slots else vec_resize slots n.
Proof.
  intros. destruct (Z.ltb_spec n (len slots)); [|done]. unfold vec_resize, len in *. by rewrite resize_le by lia.
Qed.

(** Where the segment of the last shared block is. *)
Section lengths.
Context (ol nl : Z) (ids : list Z) (Hok : file_ok ol ids) (Hnl : new_len_ok nl).
Local Abbreviation ob := (block_count ol bs).
Local Abbreviation nb := (block_count nl bs).
Local Abbreviation fs := (sat_sub (Z.min ob nb) 1 / BLOCKS_PER_SEGMENT).

Lemma lengths_facts :
  0 ≤ ob ∧ 0 ≤ nb ∧ len ids = ob ∧ 0 ≤ fs < segment_count ob ∧ fs < segment_count nb ∧
  as_u32 fs = fs ∧ ob ≤ segment_count ob * BLOCKS_PER_SEGMENT ∧ nb ≤ segment_count nb * BLOCKS_PER_SEGMENT ∧
  (fs + 1 < segment_count nb → ob ≤ (fs + 1) * BLOCKS_PER_SEGMENT ∧ segment_count ob = fs + 1) ∧
  (fs + 1 < segment_count ob → nb ≤ (fs + 1) * BLOCKS_PER_SEGMENT ∧ segment_count nb = fs + 1).
Proof using All.
  destruct Hok as (Hu & Hf & Hl & _), Hnl as [Hu' Hf']. unfold len_fits in *. apply Z.leb_le in Hf, Hf'.
  destruct Hu as [Hu0 _], Hu' as [Hu0' _].
  pose proof (blocks_nonneg bs Hbs ol Hu0) as Ho. pose proof (blocks_nonneg bs Hbs nl Hu0') as Hn.
  destruct (segment_count_spec ob Ho Hf) as (Es & Hs1 & Hs2 & Hs3).
  destruct (segment_count_spec nb Hn Hf') as (En & Hn1 & Hn2 & Hn3).
  assert (ob = 0 → segment_count ob = 1) by (intros E0; rewrite Es, E0; done).
  assert (nb = 0 → segment_count nb = 1) by (intros E0; rewrite En, E0; done). clear Es En.
  assert (0 ≤ fs < segment_count ob) by (unfold sat_sub, BLOCKS_PER_SEGMENT in *; dlia).
  split_and!; try done; try lia.
  - unfold sat_sub, BLOCKS_PER_SEGMENT in *; dlia.
  - unfold as_u32. apply Z.mod_small. lia.
  - intros. unfold sat_sub, BLOCKS_PER_SEGMENT in *; dlia.
  - intros. unfold sat_sub, BLOCKS_PER_SEGMENT in *; dlia.
Qed.

Lemma cut_last_seg s :
  0 ≤ s → seg_slots (cut_last ol nl ids) s =
    if last_changes ol nl && (s =? fs) then <[Z.to_nat (Z.min ob nb - 1 - fs * BLOCKS_PER_SEGMENT) := MISSING]> (seg_slots ids s)
    else seg_slots ids s.
Proof using All.
  intros Hs. unfold cut_last. destruct (last_changes ol nl) eqn:Ec; [|done]. unfold last_changes in Ec.
  apply andb_true_iff in Ec as [Hc%Z.ltb_lt _]. unfold last_index. rewrite seg_slots_insert by lia.
  assert (fs = (Z.min ob nb - 1) / BLOCKS_PER_SEGMENT) as -> by (unfold sat_sub; f_equal; lia).
  rewrite Z.eqb_sym. cbn [andb]. destruct (Z.eqb_spec s ((Z.min ob nb - 1) / BLOCKS_PER_SEGMENT)) as [->|]; done.
Qed.

(** The segments before that one do not change. *)
Lemma resize_ids_before s : 0 ≤ s < fs → seg_slots (resize_ids ol nl ids) s = seg_slots ids s.
Proof using All.
  intros Hs. destruct lengths_facts as (Ho & Hn & Hl & Hf & _). unfold resize_ids.
  rewrite seg_slots_resize by lia. rewrite cut_last_seg by lia.
  rewrite (proj2 (Z.eqb_neq _ _)) by lia. rewrite andb_false_r. unfold vec_resize. apply resize_all_alt.
  pose proof (seg_slots_len ids s). unfold len, slots_in_segment, sat_sub, BLOCKS_PER_SEGMENT in *. dlia.
Qed.

(** Those after it are new and empty. *)
Lemma resize_ids_after s :
  fs < s < segment_count nb →
  seg_slots (resize_ids ol nl ids) s = replicate (Z.to_nat (slots_in_segment nb s)) MISSING.
Proof using All.
  intros Hs. destruct lengths_facts as (Ho & Hn & Hl & Hf & _ & _ & _ & _ & Hg & _).
  destruct Hg as [Hg _]; [lia|]. unfold resize_ids. rewrite seg_slots_resize by lia. rewrite cut_last_seg by lia.
  rewrite (proj2 (Z.eqb_neq _ _)) by lia. rewrite andb_false_r.
  assert (seg_slots ids s = []) as ->.
  { unfold seg_slots, mem_get. rewrite drop_ge, take_nil; [done|]. unfold len, BLOCKS_PER_SEGMENT in *. nia. }
  unfold vec_resize. apply resize_nil.
Qed.

(** What is dropped: the changed block, the rest of its segment, the segments after. *)
Lemma resize_dropped_parts slots :
  slots = seg_slots (cut_last ol nl ids) fs →
  drop (Z.to_nat nb) ids =
    (if slots_in_segment nb fs <? len slots then drop (Z.to_nat (slots_in_segment nb fs)) slots else []) ++
    concat (seg_slots ids <$> range (fs + 1) (segment_count ob)).
Proof using All.
  intros ->. destruct lengths_facts as (Ho & Hn & Hl & Hf & Hf' & _ & Hso & Hsn & Hg & Hsh).
  rewrite concat_segments by (rewrite ?Hl; lia).
  assert (len (seg_slots (cut_last ol nl ids) fs) = slots_in_segment ob fs) as El.
  { transitivity (slots_in_segment (len ids) fs); [|by rewrite Hl]. rewrite <- seg_slots_len by lia.
    rewrite cut_last_seg by lia. unfold len. case_match; by rewrite ?length_insert. }
  rewrite El.
  assert (fs * BLOCKS_PER_SEGMENT ≤ Z.min ob nb ≤ (fs + 1) * BLOCKS_PER_SEGMENT) as Hfs
    by (unfold sat_sub, BLOCKS_PER_SEGMENT in *; dlia).
  destruct (Z.ltb_spec (slots_in_segment nb fs) (slots_in_segment ob fs)) as [Hlt|Hge].
  - assert (nb < ob ∧ slots_in_segment nb fs = nb - fs * BLOCKS_PER_SEGMENT) as [Hlt' ->]
      by (unfold slots_in_segment, sat_sub, BLOCKS_PER_SEGMENT in *; lia).
    rewrite cut_last_seg by lia.
    assert (∀ l, drop (Z.to_nat (nb - fs * BLOCKS_PER_SEGMENT)) (if last_changes ol nl && (fs =? fs)
      then <[Z.to_nat (Z.min ob nb - 1 - fs * BLOCKS_PER_SEGMENT) := MISSING]> l else l) =
      drop (Z.to_nat (nb - fs * BLOCKS_PER_SEGMENT)) l) as ->.
    { intros l. unfold last_changes. destruct (Z.ltb_spec 0 (Z.min ob nb)); [|done].
      case_match; [|done]. apply drop_insert_lt.
      assert (fs * BLOCKS_PER_SEGMENT ≤ Z.min ob nb - 1) by (unfold sat_sub, BLOCKS_PER_SEGMENT in *; dlia). lia. }
    rewrite <- (take_drop (Z.to_nat ((fs + 1) * BLOCKS_PER_SEGMENT - nb)) (drop (Z.to_nat nb) ids)). f_equal.
    + unfold seg_slots, mem_get. rewrite skipn_firstn_comm, drop_drop. repeat f_equal; unfold BLOCKS_PER_SEGMENT in *; lia.
    + rewrite drop_drop. f_equal. unfold BLOCKS_PER_SEGMENT in *. lia.
  - cbn [app]. destruct (decide (nb < ob)).
    + f_equal. f_equal. unfold slots_in_segment, sat_sub, BLOCKS_PER_SEGMENT in *. lia.
    + rewrite !drop_ge; [done| |]; unfold len, BLOCKS_PER_SEGMENT in *; lia.
Qed.

(** The last shared block goes when its length changes. *)
Lemma cut_block_ok t :
  (if 0 <? Z.min ob nb then
     if negb (block_len ol bs (Z.min ob nb - 1) =? block_len nl bs (Z.min ob nb - 1)) then
       id ← tor Panicked (seg_slots ids fs !! Z.to_nat (Z.min ob nb - 1 - fs * BLOCKS_PER_SEGMENT));
       mret ([id], <[Z.to_nat (Z.min ob nb - 1 - fs * BLOCKS_PER_SEGMENT) := MISSING]> (seg_slots ids fs))
     else mret ([], seg_slots ids fs)
   else mret ([], seg_slots ids fs) : TM (list Z * list Z)) t =
  Ok (if last_changes ol nl then [default MISSING (ids !! last_index ol nl)] else [], seg_slots (cut_last ol nl ids) fs, t).
Proof using All.
  destruct lengths_facts as (Ho & Hn & Hl & Hf & _). rewrite cut_last_seg by lia. rewrite Z.eqb_refl, andb_true_r. unfold last_changes, last_index.
  destruct (Z.ltb_spec 0 (Z.min ob nb)) as [Hc|]; [|done]. cbn [andb]. destruct (negb _) eqn:En; [|done].
  assert (fs * BLOCKS_PER_SEGMENT ≤ Z.min ob nb - 1 < (fs + 1) * BLOCKS_PER_SEGMENT) as Hfs by (unfold sat_sub, BLOCKS_PER_SEGMENT in *; dlia).
  destruct (lookup_lt_is_Some_2 ids (Z.to_nat (Z.min ob nb - 1))) as [x Hx]; [unfold len in Hl; lia|].
  assert (seg_slots ids fs !! Z.to_nat (Z.min ob nb - 1 - fs * BLOCKS_PER_SEGMENT) = Some x) as E.
  { unfold seg_slots. rewrite lookup_mem_get. rewrite decide_True by lia. rewrite <- Hx. f_equal. unfold BLOCKS_PER_SEGMENT in *. lia. }
  rewrite E, Hx. done.
Qed.

(** Its segment gets its new number of slots. *)
Lemma kept_slots (d1 : list Z) :
  let slots := seg_slots (cut_last ol nl ids) fs in let keep := slots_in_segment nb fs in
  (if keep <? len slots then (d1 ++ drop (Z.to_nat keep) slots, take (Z.to_nat keep) slots) else (d1, vec_resize slots keep)) =
  (d1 ++ (if keep <? len slots then drop (Z.to_nat keep) slots else []), seg_slots (resize_ids ol nl ids) fs).
Proof using All.
  destruct lengths_facts as (Ho & Hn & Hl & Hf & _). intros slots keep. unfold resize_ids. rewrite (seg_slots_resize _ nb) by lia. fold slots keep.
  rewrite (vec_resize_take _ keep) by (unfold keep, slots_in_segment, sat_sub; lia). destruct (keep <? _); [done|by rewrite app_nil_r].
Qed.

(** The segments up to it, with the new length in the first. *)
Definition put_first (f : bytes) (t : Tables) : Tables :=
  let t1 := set_files (<[(f, fs) := encode_segment (seg_head fs nl) (seg_slots (resize_ids ol nl ids) fs)]> (t_files t)) t in
  if 0 <? fs then set_files (<[(f, 0) := encode_segment (Some nl) (seg_slots ids 0)]> (t_files t1)) t1 else t1.
Lemma put_first_rows f t s :
  (∀ s, t_files t !! (f, s) = seg_row bs ol ids s) →
  t_files (put_first f t) !! (f, s) =
    if decide (0 ≤ s ≤ fs) then Some (encode_segment (seg_head s nl) (seg_slots (resize_ids ol nl ids) s)) else t_files t !! (f, s).
Proof using All.
  intros Ht. destruct lengths_facts as (Ho & Hn & Hl & Hf & _). unfold put_first. cbv zeta. destruct (decide (s = fs)) as [->|Hne].
  - rewrite decide_True by lia. destruct (Z.ltb_spec 0 fs); cbn [t_files set_files]; [rewrite lookup_insert_ne by (intros [=]; lia)|];
      rewrite lookup_insert; by rewrite decide_True.
  - destruct (decide (0 ≤ s ≤ fs)) as [Hs|Hs].
    + rewrite (proj2 (Z.ltb_lt 0 fs)) by lia. cbn [t_files set_files]. destruct (decide (s = 0)) as [->|Hs0].
      * rewrite lookup_insert, decide_True by done. by rewrite resize_ids_before by lia.
      * rewrite !lookup_insert_ne by (intros [=]; lia). rewrite Ht, (seg_row_in bs) by (rewrite ?Hl; try done; lia).
        rewrite resize_ids_before by lia. unfold seg_head. by rewrite (proj2 (Z.eqb_neq s 0)) by lia.
    + destruct (0 <? fs); cbn [t_files set_files]; rewrite ?lookup_insert_ne by (intros [=]; lia); done.
Qed.
Lemma put_first_only f t : only_file f t (put_first f t).
Proof.
  unfold put_first. cbv zeta. destruct (0 <? fs); [|apply only_file_put]. eapply only_file_trans; apply only_file_put.
Qed.

(** What the new, the old and the shared segments come to. *)
Lemma resized_rows s :
  (if decide (s ∈ range (fs + 1) (segment_count ob)) then None
   else if decide (s ∈ range (fs + 1) (segment_count nb))
   then Some (encode_segment (seg_head s nl) (replicate (Z.to_nat (slots_in_segment nb s)) MISSING))
   else if decide (0 ≤ s ≤ fs) then Some (encode_segment (seg_head s nl) (seg_slots (resize_ids ol nl ids) s))
   else seg_row bs ol ids s) = seg_row bs nl (resize_ids ol nl ids) s.
Proof using All.
  destruct lengths_facts as (Ho & Hn & Hl & Hf & Hf' & _ & Hso & Hsn & Hg & Hsh).
  unfold seg_row. destruct (decide (s ∈ range (fs + 1) (segment_count ob))) as [Hs|Hs].
  - apply elem_of_range in Hs. destruct Hsh as [_ En]; [lia|]. rewrite En. rewrite (proj2 (Z.ltb_ge _ _)) by lia. by rewrite andb_false_r.
  - rewrite elem_of_range in Hs. destruct (decide (s ∈ range (fs + 1) (segment_count nb))) as [Hs'|Hs'].
    + apply elem_of_range in Hs'. rewrite (proj2 (Z.leb_le _ _)), (proj2 (Z.ltb_lt _ _)) by lia. cbn [andb].
      by rewrite resize_ids_after by lia.
    + rewrite elem_of_range in Hs'. destruct (decide (0 ≤ s ≤ fs)) as [Hs0|Hs0].
      * rewrite (proj2 (Z.leb_le _ _)), (proj2 (Z.ltb_lt _ _)) by lia. done.
      * destruct (Z.leb_spec 0 s); [|done]. rewrite !(proj2 (Z.ltb_ge _ _)) by lia. done.
Qed.
End lengths.

Lemma drop_file_segment f s len0 ids (v : TM bytes) t1 :
  Forall in_u64 ids → v t1 = Ok (encode_segment (seg_head s len0) (seg_slots ids s), t1) →
  (value ← v; ids ← tor Panicked (decode_ids value s); _ ← remove_segment f s; mret ids) t1 =
    Ok (seg_slots ids s, set_files (delete (f, s) (t_files t1)) t1).
Proof.
  intros Hi Ev. rewrite (tbind_ok _ _ _ _ _ Ev). by rewrite decode_encode_segment by (by apply seg_slots_u64).
Qed.

Lemma resize_list f ol nl ids t :
  Manifest t f ol ids → new_len_ok nl →
  ∃ t', files_resize f nl bs t = Ok (resize_dropped ol nl ids, t') ∧
    Manifest t' f nl (resize_ids ol nl ids) ∧ only_file f t t'.
Proof using Hbs.
  intros [Hok Ht] Hnl. assert (Forall in_u64 ids) as Hi by apply Hok.
  destruct (lengths_facts ol nl ids Hok Hnl) as (Ho & Hn & Hl & Hf & Hf' & Eu & _).
  pose proof (resize_dropped_parts ol nl ids Hok Hnl _ eq_refl) as Hparts.
  pose proof (cut_block_ok ol nl ids Hok Hnl t) as Hcut. pose proof (kept_slots ol nl ids Hok Hnl) as Hkept.
  pose proof (λ s, put_first_rows ol nl ids Hok Hnl f t s Ht) as Ht2. pose proof (put_first_only ol nl ids f t) as Ho2.
  pose proof (resized_rows ol nl ids Hok Hnl) as Hrows. set (t2 := put_first ol nl ids f t) in *.
  set (fs := sat_sub (Z.min (block_count ol bs) (block_count nl bs)) 1 / BLOCKS_PER_SEGMENT) in *.
  unfold files_resize. cbv zeta.
  rewrite (tbind_ok (tread (segment f 0)) _ t _ t eq_refl). unfold segment at 1. rewrite Ht, (seg_row_in bs) by (rewrite ?Hl; try done; lia). cbv iota beta.
  rewrite file_len_head by apply Hok. cbn [tor]. rewrite (tbind_ok (mret _) _ t _ t eq_refl). fold fs. rewrite Eu.
  rewrite (tbind_ok _ _ t (encode_segment (seg_head fs ol) (seg_slots ids fs)) t).
  2:{ destruct (Z.eqb_spec fs 0) as [->|]; [done|]. apply (the_segment_ok bs); [by split|]. rewrite Hl. lia. }
  rewrite (decode_encode_segment fs) by (by apply seg_slots_u64). cbn [tor]. rewrite (tbind_ok (mret _) _ t _ t eq_refl).
  rewrite (tbind_ok _ _ _ _ _ Hcut). cbv iota beta. cbv zeta in Hkept. rewrite Hkept. cbv iota beta.
  rewrite (tbind_ok (put_segment _ _ _) _ t tt _ eq_refl). rewrite (tbind_ok _ _ _ tt t2).
  2:{ unfold t2, put_first. fold fs. destruct (Z.ltb_spec 0 fs); [|done]. by rewrite (decode_encode_segment 0) by (by apply seg_slots_u64). }
  destruct (put_missing_loop f nl (block_count nl bs) (range (fs + 1) (segment_count (block_count nl bs))) t2) as (t3 & E3 & Ho3 & Ht3).
  rewrite (tbind_ok _ _ _ _ _ E3).
  destruct (drop_segments_loop f (λ s, value ← the_segment f s; ids ← tor Panicked (decode_ids value s);
    _ ← remove_segment f s; mret ids) (seg_slots ids) (range (fs + 1) (segment_count (block_count ol bs))) t3) as (t4 & E4 & Ho4 & Ht4).
  { apply NoDup_range. }
  { destruct (lengths_facts ol nl ids Hok Hnl) as (_ & _ & _ & _ & _ & _ & _ & _ & _ & Hsh). fold fs in Hsh.
    intros s u Hs Hu. apply elem_of_range in Hs. apply (drop_file_segment f s ol); [done|].
    unfold the_segment, segment, tread, mbind, TM_bind.
    rewrite Hu, Ht3, decide_False, Ht2, decide_False, Ht, (seg_row_in bs) by (rewrite ?elem_of_range, ?Hl; try done; lia). done. }
  rewrite (tbind_ok _ _ _ _ _ E4). exists t4. split_and!.
  - unfold mret, TM_ret. f_equal. f_equal. unfold resize_dropped, nonmissing. f_equal. by rewrite Hparts, app_assoc.
  - split; [by apply resize_ids_ok|]. intros s. rewrite Ht4, Ht3, Ht2, Ht. apply Hrows.
  - eapply only_file_trans; [exact Ho2|]. eapply only_file_trans; [exact Ho3|exact Ho4].
Qed.

Lemma remove_list f len0 ids t :
  Manifest t f len0 ids →
  ∃ t', files_remove f bs t = Ok (Some (nonmissing ids), t') ∧ NoFile t' f ∧ only_file f t t'.
Proof using Hbs.
  intros [Hok Ht]. assert (Forall in_u64 ids) as Hi by apply Hok.
  destruct (file_segments bs Hbs len0 ids Hok) as (Hs1 & Hs2 & _). assert (len ids = block_count len0 bs) as Hl by apply Hok.
  assert (t_files t !! (f, 0) = Some (encode_segment (seg_head 0 len0) (seg_slots ids 0))) as E0.
  { rewrite Ht, seg_row_in; [done|done|]. lia. }
  unfold files_remove. rewrite (tbind_ok (tread (segment f 0)) _ t _ t eq_refl). unfold segment at 1. rewrite E0. cbv iota beta.
  rewrite file_len_head by apply Hok. cbn [tor].
  rewrite (tbind_ok (mret _) _ t _ t eq_refl). rewrite <- Hl.
  destruct (drop_segments_loop f (λ s, value ← (if s =? 0 then mret (encode_segment (seg_head 0 len0) (seg_slots ids 0)) else the_segment f s);
    ids ← tor Panicked (decode_ids value s); _ ← remove_segment f s; mret (filter (λ id, id ≠ MISSING) ids))
    (λ s, nonmissing (seg_slots ids s)) (range 0 (segment_count (len ids))) t) as (t4 & E4 & Ho4 & Ht4).
  { apply NoDup_range. }
  { intros s u Hs Hu. apply elem_of_range in Hs.
    rewrite (tbind_ok _ _ u (encode_segment (seg_head s len0) (seg_slots ids s)) u).
    2:{ destruct (Z.eqb_spec s 0) as [->|]; [done|]. unfold the_segment, segment, tread, mbind, TM_bind.
        by rewrite Hu, Ht, seg_row_in by (try done; lia). }
    by rewrite decode_encode_segment by (by apply seg_slots_u64). }
  rewrite (tbind_ok _ _ _ _ _ E4). exists t4. split_and!; [|intros s|done].
  - unfold mret, TM_ret. do 3 f_equal.
    assert (∀ l, concat ((λ s, nonmissing (seg_slots ids s)) <$> l) = nonmissing (concat (seg_slots ids <$> l))) as ->.
    { induction l as [|x l IH]; [done|]. cbn [fmap list_fmap concat]. unfold nonmissing in *. by rewrite filter_app, <- IH. }
    rewrite concat_segments by lia. by rewrite drop_0.
  - rewrite Ht4. case_decide as Hs; [done|]. rewrite elem_of_range in Hs. rewrite Ht. unfold seg_row. rewrite <- Hl.
    destruct (Z.leb_spec 0 s), (Z.ltb_spec s (segment_count (len ids))); try done. lia.
Qed.
End resize.

(** ** Counting references *)

Definition cnt (x : Z) (l : list Z) : Z := len (filter (λ y, y = x) l).

Lemma cnt_nil x : cnt x [] = 0.
Proof. done. Qed.
Lemma cnt_cons x y l : cnt x (y :: l) = (if decide (y = x) then 1 else 0) + cnt x l.
Proof. unfold cnt. rewrite filter_cons. case_decide; rewrite ?len_cons; lia. Qed.
Lemma cnt_app x l k : cnt x (l ++ k) = cnt x l + cnt x k.
Proof. unfold cnt. by rewrite filter_app, len_app. Qed.
Lemma cnt_nonneg x l : 0 ≤ cnt x l.
Proof. apply len_nonneg. Qed.
Lemma cnt_pos x l : x ∈ l → 0 < cnt x l.
Proof. induction 1; rewrite cnt_cons; [rewrite decide_True by done|case_decide]; pose proof (cnt_nonneg x l); lia. Qed.
Lemma cnt_zero x l : x ∉ l → cnt x l = 0.
Proof.
  induction l as [|y l IH]; [done|]. rewrite not_elem_of_cons. intros [Hx Hl]. rewrite cnt_cons, IH by done.
  by rewrite decide_False.
Qed.
Lemma cnt_perm x l k : l ≡ₚ k → cnt x l = cnt x k.
Proof. intros H. unfold cnt, len. by rewrite H. Qed.
Lemma cnt_nonmissing x l : x ≠ MISSING → cnt x (nonmissing l) = cnt x l.
Proof.
  intros Hx. induction l as [|y l IH]; [done|]. unfold nonmissing in *. rewrite filter_cons, cnt_cons.
  case_decide as Hy; rewrite ?cnt_cons, IH; [done|]. rewrite decide_False; [lia|]. intros ->. done.
Qed.
Lemma cnt_replicate_missing x n : x ≠ MISSING → cnt x (replicate n MISSING) = 0.
Proof. intros Hx. apply cnt_zero. intros [-> _]%elem_of_replicate. done. Qed.
Lemma cnt_insert x l i y : l !! i = Some y → cnt x (<[i := MISSING]> l) + (if decide (y = x) then 1 else 0) =
  cnt x l + (if decide (MISSING = x) then 1 else 0).
Proof.
  revert i. induction l as [|z l IH]; intros [|i]; [done|done|intros [= ->]|intros Hi].
  - change (<[0%nat := MISSING]> (y :: l)) with (MISSING :: l). rewrite !cnt_cons. lia.
  - change (<[S i := MISSING]> (z :: l)) with (z :: <[i := MISSING]> l). rewrite !cnt_cons. specialize (IH i Hi). lia.
Qed.

Lemma cnt_split x (l : list Z) a n :
  0 ≤ a → 0 ≤ n → cnt x l = cnt x (take (Z.to_nat a) l) + cnt x (mem_get l a n) + cnt x (drop (Z.to_nat (a + n)) l).
Proof.
  intros. rewrite <- (take_drop (Z.to_nat a) l) at 1. rewrite cnt_app.
  rewrite <- (take_drop (Z.to_nat n) (drop (Z.to_nat a) l)) at 1. rewrite cnt_app, drop_drop. unfold mem_get.
  replace (Z.to_nat (a + n)) with (Z.to_nat a + Z.to_nat n)%nat by lia. lia.
Qed.
Lemma cnt_put x (l : list Z) a d :
  0 ≤ a → a + len d ≤ len l → cnt x (mem_put l a d) + cnt x (mem_get l a (len d)) = cnt x l + cnt x d.
Proof.
  intros. rewrite (cnt_split x l a (len d)) by (pose proof (len_nonneg d); lia). unfold mem_put. rewrite !cnt_app. lia.
Qed.

Section counts.
Context (bs : Z) (Hbs : 0 < bs).

Lemma cnt_resize x ol nl ids :
  x ≠ MISSING → file_ok bs ol ids → new_len_ok bs nl →
  cnt x (resize_ids bs ol nl ids) + cnt x (resize_dropped bs ol nl ids) = cnt x ids.
Proof using Hbs.
  intros Hx Hok Hnl. destruct (lengths_facts bs Hbs ol nl ids Hok Hnl) as (Ho & Hn & Hl & _).
  unfold resize_dropped. rewrite cnt_nonmissing, cnt_app by done. unfold resize_ids.
  rewrite resize_spec, cnt_app, cnt_replicate_missing by done.
  unfold cut_last. destruct (last_changes bs ol nl) eqn:Ec.
  - unfold last_changes in Ec. apply andb_true_iff in Ec as [Hc%Z.ltb_lt _].
    unfold last_index. set (i := Z.min (block_count ol bs) (block_count nl bs) - 1) in *.
    destruct (lookup_lt_is_Some_2 ids (Z.to_nat i)) as [y Hy]; [unfold len in Hl; lia|]. rewrite Hy. cbn [default from_option].
    rewrite <- (take_drop (Z.to_nat (block_count nl bs)) ids) at 3. rewrite cnt_app.
    rewrite take_insert_lt by lia.
    pose proof (cnt_insert x (take (Z.to_nat (block_count nl bs)) ids) (Z.to_nat i) y) as E.
    rewrite lookup_take_lt in E by lia. specialize (E Hy). rewrite (decide_False (P := MISSING = x)) in E by done.
    rewrite cnt_cons, cnt_nil. unfold id. lia.
  - rewrite <- (take_drop (Z.to_nat (block_count nl bs)) ids) at 3. rewrite cnt_app, cnt_nil. lia.
Qed.
End counts.

(** The files of a store, by name: their length and their blocks. *)
Abbreviation View := (gmap bytes (Z * list Z)).
Definition all_slots (V : View) : list Z := concat ((λ e : bytes * (Z * list Z), e.2.2) <$> map_to_list V).
Definition refs (V : View) (id : Z) : Z := cnt id (all_slots V).

Lemma all_slots_insert V f l ids : V !! f = None → all_slots (<[f := (l, ids)]> V) ≡ₚ ids ++ all_slots V.
Proof. intros Hf. unfold all_slots. by rewrite map_to_list_insert. Qed.
Lemma all_slots_delete V f l ids : V !! f = Some (l, ids) → all_slots V ≡ₚ ids ++ all_slots (delete f V).
Proof. intros Hf. unfold all_slots. by rewrite <- (map_to_list_delete V f _ Hf). Qed.
Lemma all_slots_update V f l ids l' ids' :
  V !! f = Some (l, ids) → all_slots (<[f := (l', ids')]> V) ++ ids ≡ₚ all_slots V ++ ids'.
Proof.
  intros Hf. rewrite (all_slots_delete V f l ids Hf), <- insert_delete_eq.
  rewrite all_slots_insert by apply lookup_delete_eq. solve_Permutation.
Qed.

Lemma refs_update V f l ids l' ids' id :
  V !! f = Some (l, ids) → refs (<[f := (l', ids')]> V) id + cnt id ids = refs V id + cnt id ids'.
Proof. intros Hf. unfold refs. rewrite <- !cnt_app. by apply cnt_perm, (all_slots_update V f l). Qed.
Lemma refs_insert V f l ids id : V !! f = None → refs (<[f := (l, ids)]> V) id = cnt id ids + refs V id.
Proof. intros Hf. unfold refs. rewrite <- cnt_app. by apply cnt_perm, all_slots_insert. Qed.
Lemma refs_delete V f l ids id : V !! f = Some (l, ids) → refs V id = cnt id ids + refs (delete f V) id.
Proof. intros Hf. unfold refs. rewrite <- cnt_app. by apply cnt_perm, (all_slots_delete V f l). Qed.
Lemma elem_all_slots V id : id ∈ all_slots V ↔ ∃ f l ids, V !! f = Some (l, ids) ∧ id ∈ ids.
Proof.
  unfold all_slots. rewrite list_elem_of_In, in_concat. split.
  - intros (x & Hx & Hid). apply list_elem_of_In, list_elem_of_fmap in Hx as ([f [l ids]] & -> & Hf).
    apply elem_of_map_to_list in Hf. exists f, l, ids. split; [done|by apply list_elem_of_In].
  - intros (f & l & ids & Hf & Hid). exists ids. split; [|by apply list_elem_of_In].
    apply list_elem_of_In, list_elem_of_fmap. exists (f, (l, ids)). split; [done|by apply elem_of_map_to_list].
Qed.
