(* ===== verification/BlockInv.v ===== *)
(** BlockInv: the transactions of the block store keep its index consistent.
    [IdxInv] ties the tables to a view of the files as lists of block ids: the
    count in a block's row is the number of slots that name it, the live bytes
    of a pack are those of the rows in it, rows and dedup entries are
    one-to-one, and no row is in a retired pack. Inside a transaction the
    counts are ahead of or behind the slots by lists of ids still to count.
    A transaction is specified by [spec]: what holds when it commits, and
    that it is not refused while the counters have room. *)

From S2P Require Import Prelude Seg BlockIndex BlockProps.

(** ** Sums over the rows *)

Section msum.
Context {A : Type} (g : A → Z).
Definition msum (m : gmap Z A) : Z := foldr (λ e acc, g e.2 + acc) 0 (map_to_list m).

Lemma fold_sum_perm (l k : list (Z * A)) :
  l ≡ₚ k → foldr (λ e acc, g e.2 + acc) 0 l = foldr (λ e acc, g e.2 + acc) 0 k.
Proof. induction 1; cbn; lia. Qed.
Lemma msum_insert m i x : m !! i = None → msum (<[i := x]> m) = g x + msum m.
Proof. intros Hi. unfold msum. by rewrite (fold_sum_perm _ _ (map_to_list_insert m i x Hi)). Qed.
Lemma msum_delete m i x : m !! i = Some x → msum m = g x + msum (delete i m).
Proof. intros Hi. unfold msum. by rewrite <- (fold_sum_perm _ _ (map_to_list_delete m i x Hi)). Qed.
Lemma msum_update m i x y : m !! i = Some x → msum (<[i := y]> m) + g x = msum m + g y.
Proof.
  intros Hi. rewrite (msum_delete m i x Hi), <- insert_delete_eq, msum_insert by apply lookup_delete_eq. lia.
Qed.
Lemma msum_nonneg m : (∀ i x, m !! i = Some x → 0 ≤ g x) → 0 ≤ msum m.
Proof.
  intros Hm. unfold msum. assert (∀ e, e ∈ map_to_list m → 0 ≤ g e.2) as H.
  { intros [i x] He%elem_of_map_to_list. by eapply Hm. }
  revert H. generalize (map_to_list m). intros l. induction l as [|e l IH]; intros H; cbn; [lia|].
  pose proof (H e (list_elem_of_here _ _)). assert (∀ e, e ∈ l → 0 ≤ g e.2) as H' by (intros; apply H; by right).
  specialize (IH H'). lia.
Qed.
End msum.

(** ** Rows *)

Definition rows (t : Tables) : gmap Z BlockLoc := loc_decode <$> t_blocks t.
Definition infos (t : Tables) : gmap Z PackInfo := info_decode <$> t_packs t.
Definition in_pack (p : Z) (l : BlockLoc) : Z := if l_pack l =? p then loc_record_len l else 0.
Definition live_of (t : Tables) (p : Z) : Z := msum (in_pack p) (rows t).
Definition next_id (t : Tables) : Z := default 1 (meta META_NEXT_BLOCK_ID t).

Lemma block_rows id t : block id t = rows t !! id.
Proof. unfold block, rows. by rewrite lookup_fmap. Qed.
Lemma pack_infos p t : pack p t = infos t !! p.
Proof. unfold pack, infos. by rewrite lookup_fmap. Qed.

Lemma rows_put id l t t' : t_blocks t' = <[id := loc_encode l]> (t_blocks t) → loc_ok l → rows t' = <[id := l]> (rows t).
Proof. intros E Hl. unfold rows. by rewrite E, fmap_insert, loc_roundtrip. Qed.
Lemma rows_delete id t t' : t_blocks t' = delete id (t_blocks t) → rows t' = delete id (rows t).
Proof. intros E. unfold rows. by rewrite E, fmap_delete. Qed.
Lemma infos_put p i t t' : t_packs t' = <[p := info_encode i]> (t_packs t) → info_ok i → infos t' = <[p := i]> (infos t).
Proof. intros E Hi. unfold infos. by rewrite E, fmap_insert, info_roundtrip. Qed.

(** ** The consistent index *)

Definition Files (bs : Z) (t : Tables) (V : View) : Prop :=
  ∀ f, match V !! f with Some (l, ids) => Manifest bs t f l ids | None => NoFile t f end.

Definition row_ok (t : Tables) (id : Z) (l : BlockLoc) : Prop :=
  loc_ok l ∧ 1 ≤ id < next_id t ∧ dedup (l_hash l) t = Some id ∧
  ∃ i, infos t !! l_pack l = Some i ∧ p_state i ≠ Retired.

(** [inc] are counted in the slots but not yet in the rows, [dec] in the rows
    but no longer in the slots; the rows of [keep] may have no slot yet. *)
Record IdxInv (bs : Z) (t : Tables) (V : View) (inc dec keep : list Z) : Prop := mkIdxInv {
  iv_files : Files bs t V;
  iv_next : 1 ≤ next_id t < u64_max;
  iv_slots id : id ∈ all_slots V → 0 ≤ id < next_id t;
  iv_row id l : rows t !! id = Some l → row_ok t id l;
  iv_count id l : rows t !! id = Some l →
    l_refcount l + cnt id inc = refs V id + cnt id dec ∧ (0 < refs V id + cnt id dec ∨ id ∈ keep);
  iv_dedup h id : dedup h t = Some id → ∃ l, rows t !! id = Some l ∧ l_hash l = h;
  iv_live p i : infos t !! p = Some i → info_ok i ∧ live_bytes i = live_of t p }.

(** The counters are [n] steps from their widths. *)
Definition room (t : Tables) (n : Z) : Prop :=
  next_id t + n < u64_max ∧ n < u32_max ∧
  (∀ id l, rows t !! id = Some l → l_refcount l + n < u32_max) ∧
  (∀ p i, infos t !! p = Some i → live_bytes i + n * (HEADER_LEN + u32_max) < u64_max).

(** Blocks keep what they are: an id names the same content for ever, and a
    row stays where it is or is at one of the places [S]; packs keep their
    state. *)
Definition same_record (l l' : BlockLoc) : Prop :=
  l_pack l = l_pack l' ∧ l_offset l = l_offset l' ∧ l_stored_len l = l_stored_len l' ∧
  l_raw_len l = l_raw_len l' ∧ l_hash l = l_hash l'.
Definition same_content (l l' : BlockLoc) : Prop :=
  l_stored_len l = l_stored_len l' ∧ l_raw_len l = l_raw_len l' ∧ l_hash l = l_hash l'.
Record evolves (S : BlockLoc → Prop) (t t' : Tables) : Prop := mkEvolves {
  ev_next : next_id t ≤ next_id t';
  ev_rows id l' : rows t' !! id = Some l' →
    (∃ l, rows t !! id = Some l ∧ same_record l l') ∨
    ((next_id t ≤ id ∨ ∃ l, rows t !! id = Some l ∧ same_content l l') ∧ ∃ l, S l ∧ same_record l l');
  ev_infos p : p_state <$> infos t' !! p = p_state <$> infos t !! p;
  ev_meta k : k ≠ META_NEXT_BLOCK_ID → t_meta t' !! k = t_meta t !! k }.

Lemma same_record_trans l1 l2 l3 : same_record l1 l2 → same_record l2 l3 → same_record l1 l3.
Proof. unfold same_record. naive_solver congruence. Qed.
Lemma same_record_content l l' : same_record l l' → same_content l l'.
Proof. by intros (_ & _ & ? & ? & ?). Qed.
Lemma same_content_trans l1 l2 l3 : same_content l1 l2 → same_content l2 l3 → same_content l1 l3.
Proof. unfold same_content. naive_solver congruence. Qed.

Lemma evolves_refl S t : evolves S t t.
Proof. split; [done|intros id l H; left; by exists l|done|done]. Qed.
Lemma evolves_trans S t1 t2 t3 : evolves S t1 t2 → evolves S t2 t3 → evolves S t1 t3.
Proof.
  intros [N1 R1 I1 M1] [N2 R2 I2 M2]. split; [lia| |intros; by rewrite I2, I1|intros; by rewrite M2, M1].
  intros id l3 H3. destruct (R2 id l3 H3) as [(l2 & H2 & E2)|(H2 & HS)].
  - destruct (R1 id l2 H2) as [(l1 & H1 & E1)|(H1 & l & HS & E)]; [left|right].
    + exists l1. split; [done|by eapply same_record_trans].
    + split; [|exists l; split; [done|by eapply same_record_trans]].
      destruct H1 as [?|(l1 & H1 & E1)]; [by left|right]. exists l1. split; [done|].
      eapply same_content_trans; [done|by apply same_record_content].
  - right. split; [|done]. destruct H2 as [?|(l2 & H2 & E2)]; [left; lia|].
    destruct (R1 id l2 H2) as [(l1 & H1 & E1)|([?|(l1 & H1 & E1)] & _)]; [right; exists l1|by left|right; exists l1].
    + split; [done|]. eapply same_content_trans; [by apply same_record_content|done].
    + split; [done|]. by eapply same_content_trans.
Qed.
Lemma evolves_weaken (S S' : BlockLoc → Prop) t t' : (∀ l, S l → S' l) → evolves S t t' → evolves S' t t'.
Proof. intros H [N R I M]. split; try done. intros id l' Hl. destruct (R id l' Hl) as [?|(? & l & ? & ?)]; [by left|right]. eauto. Qed.

(** ** Specifications of transactions *)

Definition spec {A} (m : TM A) (t : Tables) (R : Prop) (Q : A → Tables → Prop) : Prop :=
  match m t with Ok (a, t') => Q a t' | Err _ => ¬ R end.

Lemma spec_bind {A B} (m : TM A) (k : A → TM B) t R Q1 Q :
  spec m t R Q1 → (∀ a t', Q1 a t' → spec (k a) t' R Q) → spec (m ≫= k) t R Q.
Proof. unfold spec, mbind, TM_bind. intros H1 H2. destruct (m t) as [[a t']|]; [by apply H2|done]. Qed.
Lemma spec_ret {A} (a : A) t R (Q : A → Tables → Prop) : Q a t → spec (mret a) t R Q.
Proof. done. Qed.
Lemma spec_read {A B} (f : Tables → A) (k : A → TM B) t R Q : spec (k (f t)) t R Q → spec (tread f ≫= k) t R Q.
Proof. done. Qed.
Lemma spec_mono {A} (m : TM A) t R (Q1 Q2 : A → Tables → Prop) :
  spec m t R Q1 → (∀ a t', Q1 a t' → Q2 a t') → spec m t R Q2.
Proof. unfold spec. intros H1 H2. destruct (m t) as [[a t']|]; [by apply H2|done]. Qed.
Lemma spec_weaken {A} (m : TM A) t (R R' : Prop) (Q1 Q2 : A → Tables → Prop) :
  (R' → R) → spec m t R Q1 → (∀ a t', Q1 a t' → Q2 a t') → spec m t R' Q2.
Proof. unfold spec. intros HR H1 H2. destruct (m t) as [[a t']|]; [by apply H2|tauto]. Qed.
Lemma spec_ok {A} (m : TM A) t R Q a t' : m t = Ok (a, t') → Q a t' → spec m t R Q.
Proof. unfold spec. by intros ->. Qed.
Lemma spec_write {B} (f : Tables → Tables) (k : unit → TM B) t R Q : spec (k tt) (f t) R Q → spec (twrite f ≫= k) t R Q.
Proof. done. Qed.
Lemma spec_or {A B} e (o : option A) (k : A → TM B) a t R Q : o = Some a → spec (k a) t R Q → spec (tor e o ≫= k) t R Q.
Proof. by intros ->. Qed.

Lemma spec_seq {A B} (m : TM A) (k : A → TM B) t a t1 R Q : m t = Ok (a, t1) → spec (k a) t1 R Q → spec (m ≫= k) t R Q.
Proof. intros E H. unfold spec. by rewrite (tbind_ok _ _ _ _ _ E). Qed.

Section ops.
Context (bs : Z) (Hbs : 0 < bs).

Lemma Files_ext t t' V : t_files t' = t_files t → Files bs t V → Files bs t' V.
Proof. intros E H f. specialize (H f). destruct (V !! f) as [[l ids]|]; [|intros s; rewrite E; apply H]. destruct H as [H1 H2]. split; [done|]. intros s. rewrite E. apply H2. Qed.

Lemma add_live_spec p d t R i :
  infos t !! p = Some i → 0 ≤ live_bytes i + d → (R → live_bytes i + d < u64_max) →
  spec (add_live p d) t R (λ _ t', live_bytes i + d < u64_max ∧
    t' = set_packs (<[p := info_encode (mkPackInfo (live_bytes i + d) (p_state i))]> (t_packs t)) t).
Proof.
  intros Hi H0 HR. unfold add_live. apply spec_read. eapply spec_or; [rewrite pack_infos; exact Hi|].
  rewrite (proj2 (Z.leb_le _ _)) by done. cbn [andb]. destruct (Z.ltb_spec (live_bytes i + d) u64_max) as [Hlt|Hge].
  - done.
  - intros r. specialize (HR r). lia.
Qed.

Lemma in_pack_nonneg p l : loc_ok l → 0 ≤ in_pack p l.
Proof. intros (_ & _ & [? _] & _). unfold in_pack, loc_record_len, HEADER_LEN. case_match; lia. Qed.
Lemma record_len_bound l : loc_ok l → 0 < loc_record_len l < HEADER_LEN + u32_max.
Proof. intros (_ & _ & ? & _). unfold loc_record_len, HEADER_LEN, in_u32 in *. lia. Qed.
Lemma loc_ok_count l n : loc_ok l → in_u32 n → loc_ok (with_refcount l n).
Proof. intros (? & ? & ? & ? & _ & ?) Hn. by split_and!. Qed.

(** A new row, of a block no row has. *)
Lemma insert_block_spec t V keep l i n R :
  IdxInv bs t V [] [] keep → loc_ok l → dedup (l_hash l) t = None →
  infos t !! l_pack l = Some i → p_state i ≠ Retired → 0 ≤ n → (R → room t (n + 1)) →
  spec (insert_block l) t R (λ id t', IdxInv bs t' V [] [] (id :: keep) ∧
    rows t' = <[id := with_refcount l 0]> (rows t) ∧ rows t !! id = None ∧
    (∀ h, dedup h t' = if decide (h = l_hash l) then Some id else dedup h t) ∧
    evolves (λ x, x = l) t t' ∧ (R → room t' n)).
Proof.
  intros [Hf Hn Hs Hr Hc Hd Hl] Hok Hno Hi Hst Hn0 HR. unfold insert_block. apply spec_read.
  change (default 1 (meta META_NEXT_BLOCK_ID t)) with (next_id t).
  destruct (Z.leb_spec (u64_max - 1) (next_id t)) as [Hfull|Hroom].
  { intros r. specialize (HR r). destruct HR as (? & _). lia. }
  do 3 apply spec_write. set (id := next_id t) in *. set (l0 := with_refcount l 0).
  assert (loc_ok l0) as Hok0 by (apply loc_ok_count; [done|by unfold in_u32, u32_max; lia]).
  set (t1 := set_dedup _ _).
  assert (rows t1 = <[id := l0]> (rows t)) as Er by (by apply rows_put).
  assert (infos t1 = infos t) as Ei by done.
  assert (rows t !! id = None) as Hfresh.
  { destruct (rows t !! id) as [l1|] eqn:E; [|done]. destruct (Hr id l1 E) as (_ & Hid & _). unfold id in *. lia. }
  pose proof (record_len_bound l0 Hok0) as Hlen. destruct (Hl _ _ Hi) as [[Hio _] Hlv].
  eapply spec_bind; [apply (add_live_spec (l_pack l) _ t1 R i); [done|lia|]|].
  { intros r. destruct (HR r) as (_ & _ & _ & Hlive). specialize (Hlive _ _ Hi). unfold HEADER_LEN, u32_max in *. lia. }
  intros [] t' [Hlt ->]. apply spec_ret.
  change (l_pack l0) with (l_pack l) in *. change (loc_record_len l0) with (loc_record_len l) in *.
  set (i' := mkPackInfo _ _) in *. set (t' := set_packs _ _).
  assert (rows t' = <[id := l0]> (rows t)) as Er' by done.
  assert (info_ok i') as Hi' by (unfold info_ok, in_u64; cbn; lia).
  assert (infos t' = <[l_pack l := i']> (infos t)) as Ei' by (by apply infos_put).
  assert (next_id t' = id + 1) as En by (unfold next_id, meta; cbn; by rewrite lookup_insert_eq).
  assert (∀ h, dedup h t' = if decide (h = l_hash l) then Some id else dedup h t) as Ed.
  { intros h. unfold dedup. cbn. case_decide as E; [subst; by rewrite lookup_insert_eq|by rewrite lookup_insert_ne]. }
  split_and!; [|done|done|done| |].
  - split.
    + by apply (Files_ext t).
    + rewrite En. unfold id. lia.
    + intros x Hx. rewrite En. specialize (Hs x Hx). unfold id in *. lia.
    + intros x lx. rewrite Er', lookup_insert_Some. intros [[<- <-]|[Hne Hx]].
      * split_and!; [done|unfold id; lia|rewrite En; lia|rewrite Ed; by rewrite decide_True|].
        exists i'. split; [by rewrite Ei', lookup_insert_eq|done].
      * destruct (Hr x lx Hx) as (Hx1 & Hx2 & Hx3 & ix & Hx4 & Hx5). split_and!; [done|lia|rewrite En; unfold id in *; lia| |].
        -- rewrite Ed. rewrite decide_False; [done|]. intros E. rewrite E in Hx3. congruence.
        -- rewrite Ei'. destruct (decide (l_pack lx = l_pack l)) as [E|E].
           ++ exists i'. rewrite E, lookup_insert_eq. done.
           ++ exists ix. by rewrite lookup_insert_ne.
    + intros x lx. rewrite Er', lookup_insert_Some. intros [[<- <-]|[Hne Hx]].
      * rewrite !cnt_nil. change (l_refcount l0) with 0. split; [|right; by left].
        unfold refs. rewrite cnt_zero; [done|]. intros Hin. pose proof (Hs _ Hin). lia.
      * destruct (Hc x lx Hx) as [E [?|?]]; (split; [done|]); [by left|right; by right].
    + intros h x. rewrite Ed. case_decide as E.
      * intros [= <-]. exists l0. rewrite Er', lookup_insert_eq. by subst.
      * intros Hx. destruct (Hd h x Hx) as (lx & Hx1 & Hx2). exists lx. rewrite Er', lookup_insert_ne; [done|]. congruence.
    + intros p j. rewrite Ei'. unfold live_of. rewrite Er', msum_insert by done.
      rewrite lookup_insert_Some. unfold in_pack at 1. change (l_pack l0) with (l_pack l).
      change (loc_record_len l0) with (loc_record_len l). intros [[<- <-]|[Hne Hj]].
      * split; [done|]. rewrite Z.eqb_refl. cbn. rewrite Hlv. unfold live_of. lia.
      * rewrite (proj2 (Z.eqb_neq _ _)) by congruence. destruct (Hl p j Hj) as [? ->]. split; [done|]. unfold live_of. lia.
  - split.
    + rewrite En. unfold id. lia.
    + intros x lx. rewrite Er', lookup_insert_Some. intros [[<- <-]|[Hne Hx]]; [right|left; by exists lx].
      split; [by left|]. by exists l.
    + intros p. rewrite Ei'. destruct (decide (p = l_pack l)) as [->|]; [by rewrite lookup_insert_eq, Hi|by rewrite lookup_insert_ne].
    + intros k Hk. unfold t'. cbn. by rewrite lookup_insert_ne.
  - intros r. destruct (HR r) as (R1 & R2 & R3 & R4). unfold room. rewrite En, Er', Ei'. split_and!; [unfold id; lia|lia| |].
    + intros x lx. rewrite lookup_insert_Some. intros [[_ <-]|[_ Hx]]; [cbn; lia|]. specialize (R3 _ _ Hx). lia.
    + intros p j. rewrite lookup_insert_Some. intros [[<- <-]|[_ Hj]].
      * cbn. specialize (R4 _ _ Hi). unfold HEADER_LEN, u32_max in *. lia.
      * specialize (R4 _ _ Hj). unfold HEADER_LEN, u32_max in *. lia.
Qed.

Definition nowhere (l : BlockLoc) : Prop := False.

(** A row's count changes. *)
Lemma recount_inv t V inc dec keep inc' dec' keep' id l c :
  IdxInv bs t V inc dec keep → rows t !! id = Some l → in_u32 c →
  (∀ x lx, rows t !! x = Some lx → (if decide (x = id) then c else l_refcount lx) + cnt x inc' = refs V x + cnt x dec' ∧
     (0 < refs V x + cnt x dec' ∨ x ∈ keep')) →
  let t' := set_blocks (<[id := loc_encode (with_refcount l c)]> (t_blocks t)) t in
  rows t' = <[id := with_refcount l c]> (rows t) ∧ IdxInv bs t' V inc' dec' keep' ∧ evolves nowhere t t'.
Proof.
  intros [Hf Hn Hs Hr Hc Hd Hl] Hid Hu Hnew t'. pose proof (Hr id l Hid) as (Hok & Hid1 & Hid2 & i & Hi1 & Hi2).
  assert (rows t' = <[id := with_refcount l c]> (rows t)) as Er by (apply rows_put; [done|by apply loc_ok_count]).
  assert (∀ p, live_of t' p = live_of t p) as El.
  { intros p. unfold live_of. rewrite Er. pose proof (msum_update (in_pack p) (rows t) id l (with_refcount l c) Hid) as E.
    change (in_pack p (with_refcount l c)) with (in_pack p l) in E. lia. }
  split_and!; [done| |].
  - split; [by apply (Files_ext t)|done|done| | | |].
    + intros x lx. rewrite Er, lookup_insert_Some. intros [[<- <-]|[Hne Hx]]; [|by apply Hr].
      split_and!; [by apply loc_ok_count|apply Hid1|apply Hid1|done|by exists i].
    + intros x lx. rewrite Er, lookup_insert_Some. intros [[<- <-]|[Hne Hx]].
      * specialize (Hnew id l Hid). by rewrite decide_True in Hnew.
      * specialize (Hnew x lx Hx). by rewrite decide_False in Hnew.
    + intros h x Hx. destruct (Hd h x Hx) as (lx & Hx1 & Hx2). rewrite Er.
      destruct (decide (x = id)) as [->|]; [|exists lx; by rewrite lookup_insert_ne].
      exists (with_refcount l c). rewrite lookup_insert_eq. split; [done|]. cbn. congruence.
    + intros p j Hj. destruct (Hl p j Hj) as [? ->]. by rewrite El.
  - split; [done| |done|done]. intros x lx. rewrite Er, lookup_insert_Some. intros [[<- <-]|[Hne Hx]]; left; [by exists l|by exists lx].
Qed.

Lemma incref_spec t V id inc dec keep n R :
  IdxInv bs t V (id :: inc) dec keep → is_Some (rows t !! id) → 0 ≤ n → (R → room t (n + 1)) →
  spec (incref id) t R (λ _ t', IdxInv bs t' V inc dec keep ∧ evolves nowhere t t' ∧
    dom (rows t') = dom (rows t) ∧ t_dedup t' = t_dedup t ∧ (R → room t' n)).
Proof.
  intros HI [l Hid] Hn HR. unfold incref. apply spec_read. rewrite block_rows.
  eapply spec_or; [exact Hid|]. pose proof (iv_row _ _ _ _ _ _ HI _ _ Hid) as (Hok & _).
  destruct (Z.leb_spec (u32_max - 1) (l_refcount l)) as [Hfull|Hlt].
  { intros r. destruct (HR r) as (_ & _ & Hc & _). specialize (Hc _ _ Hid). lia. }
  assert (in_u32 (l_refcount l + 1)) as Hu by (destruct Hok as (_ & _ & _ & _ & [? ?] & _); unfold in_u32; lia).
  destruct (recount_inv t V (id :: inc) dec keep inc dec keep id l (l_refcount l + 1) HI Hid Hu) as (Er & HI' & Hev).
  { intros x lx Hx. destruct (iv_count _ _ _ _ _ _ HI _ _ Hx) as [E ?]. split; [|done]. rewrite cnt_cons in E.
    destruct (decide (x = id)) as [->|]; [rewrite decide_True in E by done|rewrite decide_False in E by congruence; lia].
    assert (lx = l) as -> by congruence. lia. }
  unfold put_block, twrite, spec. split_and!; [done|done| |done|].
  - rewrite Er, dom_insert_L. apply elem_of_dom_2 in Hid. set_solver.
  - intros r. destruct (HR r) as (R1 & R2 & R3 & R4). unfold room. rewrite Er. split_and!; [cbn in *; lia|lia| |].
    + intros x lx. rewrite lookup_insert_Some. intros [[_ <-]|[_ Hx]]; [cbn; specialize (R3 _ _ Hid); lia|specialize (R3 _ _ Hx); lia].
    + intros p j Hj. specialize (R4 p j Hj). unfold HEADER_LEN, u32_max in *. lia.
Qed.

Lemma room_step t t' n :
  room t n → next_id t' = next_id t →
  (∀ id l', rows t' !! id = Some l' → ∃ l, rows t !! id = Some l ∧ l_refcount l' ≤ l_refcount l) →
  (∀ p i', infos t' !! p = Some i' → ∃ i, infos t !! p = Some i ∧ live_bytes i' ≤ live_bytes i) → room t' n.
Proof.
  intros (R1 & R2 & R3 & R4) En Hr Hi. split_and!; [lia|done| |].
  - intros id l' H. destruct (Hr id l' H) as (l & Hl & ?). specialize (R3 id l Hl). lia.
  - intros p i' H. destruct (Hi p i' H) as (i & Hl & ?). specialize (R4 p i Hl). lia.
Qed.

(** A row is removed, whatever its count. *)
Lemma remove_block_spec t V inc dec keep inc' dec' keep' id l R n :
  IdxInv bs t V inc dec keep → rows t !! id = Some l → (R → room t n) →
  (∀ x, x ≠ id → cnt x inc' = cnt x inc ∧ cnt x dec' = cnt x dec ∧ (x ∈ keep → x ∈ keep')) →
  spec (remove_block id l) t R (λ _ t', IdxInv bs t' V inc' dec' keep' ∧ evolves nowhere t t' ∧
    rows t' = delete id (rows t) ∧ (R → room t' n)).
Proof.
  intros [Hf Hn Hs Hr Hc Hd Hl] Hid HR Hcnt. pose proof (Hr id l Hid) as (Hok & Hid1 & Hid2 & i & Hi1 & Hi2).
  unfold remove_block. apply spec_write, spec_read.
  change (dedup (l_hash l) (set_blocks (delete id (t_blocks t)) t)) with (dedup (l_hash l) t).
  rewrite bool_decide_eq_true_2 by done. apply spec_write.
  set (t1 := set_dedup _ _). assert (rows t1 = delete id (rows t)) as Er1 by (by apply rows_delete).
  assert (∀ p, live_of t p = in_pack p l + live_of t1 p) as Elv.
  { intros p. unfold live_of. rewrite Er1. by apply msum_delete. }
  assert (∀ p, 0 ≤ live_of t1 p) as Hpos.
  { intros p. apply msum_nonneg. intros x lx. rewrite Er1, lookup_delete_Some. intros [_ Hx]. apply in_pack_nonneg, (Hr _ _ Hx). }
  destruct (Hl _ _ Hi1) as [[? Hio] Hlv]. pose proof (Elv (l_pack l)) as Ep. unfold in_pack in Ep. rewrite Z.eqb_refl in Ep.
  pose proof (Hpos (l_pack l)). pose proof (record_len_bound l Hok).
  eapply spec_mono; [apply (add_live_spec (l_pack l) _ t1 R i); [done|lia|lia]|].
  intros [] t' [_ ->]. set (i' := mkPackInfo _ _) in *. set (t' := set_packs _ _).
  assert (rows t' = delete id (rows t)) as Er by done.
  assert (info_ok i') as Hi' by (unfold info_ok, in_u64; cbn; lia).
  assert (infos t' = <[l_pack l := i']> (infos t)) as Ei by (by apply infos_put).
  assert (∀ h, dedup h t' = if decide (h = l_hash l) then None else dedup h t) as Ed.
  { intros h. unfold dedup. cbn. case_decide as E; [subst; by rewrite lookup_delete_eq|by rewrite lookup_delete_ne]. }
  split_and!; [| |done|].
  - split; [by apply (Files_ext t)|done|done| | | |].
    + intros x lx. rewrite Er, lookup_delete_Some. intros [Hne Hx]. destruct (Hr x lx Hx) as (Hx1 & Hx2 & Hx3 & ix & Hx4 & Hx5).
      split_and!; [done|apply Hx2|apply Hx2| |].
      * rewrite Ed, decide_False; [done|]. intros E. rewrite E in Hx3. congruence.
      * rewrite Ei. destruct (decide (l_pack lx = l_pack l)) as [E|E]; [exists i'; by rewrite E, lookup_insert_eq; split; [|rewrite E, Hi1 in Hx4; simplify_eq]|exists ix; by rewrite lookup_insert_ne].
    + intros x lx. rewrite Er, lookup_delete_Some. intros [Hne Hx]. destruct (Hc x lx Hx) as [E Hp].
      destruct (Hcnt x) as (-> & -> & Hk); [congruence|]. split; [done|]. destruct Hp; [by left|right; by apply Hk].
    + intros h x. rewrite Ed. case_decide as E; [done|]. intros Hx. destruct (Hd h x Hx) as (lx & Hx1 & Hx2). exists lx.
      rewrite Er, lookup_delete_ne; [done|]. intros <-. congruence.
    + intros p j. rewrite Ei. change (live_of t' p) with (live_of t1 p). pose proof (Elv p) as Ev. unfold in_pack in Ev.
      rewrite lookup_insert_Some. intros [[<- <-]|[Hne Hj]].
      * split; [done|]. cbn. lia.
      * rewrite (proj2 (Z.eqb_neq _ _)) in Ev by congruence. destruct (Hl p j Hj) as [? ->]. split; [done|lia].
  - split; [done| | |done].
    + intros x lx. rewrite Er, lookup_delete_Some. intros [Hne Hx]. left. by exists lx.
    + intros p. rewrite Ei. destruct (decide (p = l_pack l)) as [->|]; [by rewrite lookup_insert_eq, Hi1|by rewrite lookup_insert_ne].
  - intros r. apply (room_step t); [by apply HR|done| |].
    + intros x lx. rewrite Er, lookup_delete_Some. intros [_ Hx]. by exists lx.
    + intros p j. rewrite Ei, lookup_insert_Some. intros [[<- <-]|[_ Hj]]; [exists i; cbn; split; [done|lia]|by exists j].
Qed.

(** A block that is still named keeps its row. *)
Definition keeps_used (V : View) (t t' : Tables) : Prop :=
  ∀ x, is_Some (rows t !! x) → 0 < refs V x → is_Some (rows t' !! x).
Lemma keeps_used_trans V t1 t2 t3 : keeps_used V t1 t2 → keeps_used V t2 t3 → keeps_used V t1 t3.
Proof. unfold keeps_used. eauto. Qed.

Lemma decref_spec t V id dec n R :
  IdxInv bs t V [] (id :: dec) [] → (R → room t n) →
  spec (decref id) t R (λ _ t', IdxInv bs t' V [] dec [] ∧ evolves nowhere t t' ∧ keeps_used V t t' ∧ (R → room t' n)).
Proof.
  intros HI HR. unfold decref. apply spec_read. rewrite block_rows. destruct (rows t !! id) as [l|] eqn:Hid.
  - pose proof (iv_row _ _ _ _ _ _ HI _ _ Hid) as (Hok & _).
    destruct (iv_count _ _ _ _ _ _ HI _ _ Hid) as [E _]. rewrite cnt_nil, cnt_cons, decide_True in E by done.
    pose proof (cnt_nonneg id (all_slots V)) as Hr0. pose proof (cnt_nonneg id dec) as Hd0. fold (refs V id) in Hr0.
    destruct (Z.ltb_spec 1 (l_refcount l)) as [Hgt|Hle].
    + assert (in_u32 (l_refcount l - 1)) as Hu by (destruct Hok as (_ & _ & _ & _ & [? ?] & _); unfold in_u32; lia).
      destruct (recount_inv t V [] (id :: dec) [] [] dec [] id l (l_refcount l - 1) HI Hid Hu) as (Er & HI' & Hev).
      { intros x lx Hx. destruct (iv_count _ _ _ _ _ _ HI _ _ Hx) as [Ex Px]. rewrite cnt_cons in Ex, Px. rewrite cnt_nil in *.
        destruct (decide (x = id)) as [->|Hne].
        - assert (lx = l) as -> by congruence. split; [lia|left; lia].
        - rewrite decide_False in Ex, Px by congruence. split; [lia|]. destruct Px as [?|?]; [left; lia|by right]. }
      unfold put_block, twrite, spec. split_and!; [done|done| |].
      { intros x Hx _. rewrite Er. destruct (decide (id = x)) as [->|]; [by rewrite lookup_insert_eq|by rewrite lookup_insert_ne]. }
      intros r. apply (room_step t); [by apply HR|done| |intros p j Hj; by exists j].
      intros x lx. rewrite Er, lookup_insert_Some. intros [[<- <-]|[_ Hx]]; [exists l; cbn; split; [done|lia]|by exists lx].
    + eapply spec_mono; [apply (remove_block_spec t V [] (id :: dec) [] [] dec [] id l R n HI Hid HR)|].
      * intros x Hx. split_and!; [done| |done]. rewrite cnt_cons, decide_False by congruence. done.
      * intros [] t' (? & ? & Er & ?). split_and!; [done|done| |done]. intros x Hx Hp. rewrite Er.
        rewrite lookup_delete_ne; [done|]. intros <-. lia.
  - apply spec_ret. split_and!; [|apply evolves_refl|by intros ?|done]. destruct HI as [Hf Hn Hs Hr Hc Hd Hl]. split; try done.
    intros x lx Hx. specialize (Hc x lx Hx). rewrite cnt_cons, decide_False in Hc by congruence. rewrite Z.add_0_l in Hc. done.
Qed.

Lemma decref_all_spec t V dec n R :
  IdxInv bs t V [] dec [] → (R → room t n) →
  spec (titer decref dec) t R (λ _ t', IdxInv bs t' V [] [] [] ∧ evolves nowhere t t' ∧ keeps_used V t t' ∧ (R → room t' n)).
Proof.
  revert t. induction dec as [|id dec IH]; intros t HI HR; cbn [titer].
  { apply spec_ret. split_and!; [done|apply evolves_refl|by intros ?|done]. }
  eapply spec_bind; [by apply decref_spec|]. intros [] t1 (HI1 & Hev1 & Hk1 & HR1).
  eapply spec_mono; [by apply IH|]. intros [] t2 (HI2 & Hev2 & Hk2 & HR2).
  split_and!; [done|by eapply evolves_trans|by eapply keeps_used_trans|done].
Qed.

Lemma titer_nonmissing l :
  titer (λ id, if negb (id =? MISSING) then decref id else mret tt) l = titer decref (nonmissing l).
Proof.
  induction l as [|x l IH]; [done|]. unfold nonmissing in *. rewrite filter_cons. cbn [titer]. rewrite IH.
  destruct (Z.eqb_spec x MISSING) as [->|Hne]; [by rewrite decide_False by (intros H; by apply H)|]. by rewrite decide_True.
Qed.

Lemma incref_all_spec t V ids dec keep n R :
  IdxInv bs t V ids dec keep → (∀ id, id ∈ ids → is_Some (rows t !! id)) → 0 ≤ n → (R → room t (n + len ids)) →
  spec (titer incref ids) t R (λ _ t', IdxInv bs t' V [] dec keep ∧ evolves nowhere t t' ∧ dom (rows t') = dom (rows t) ∧ (R → room t' n)).
Proof.
  revert t. induction ids as [|id ids IH]; intros t HI Hex Hn HR; cbn [titer].
  { apply spec_ret. split_and!; [done|apply evolves_refl|done|]. intros r. specialize (HR r). by rewrite len_nil, Z.add_0_r in HR. }
  eapply spec_bind; [apply (incref_spec t V id ids dec keep (n + len ids) R HI)|].
  - apply Hex. by left.
  - pose proof (len_nonneg ids). lia.
  - intros r. specialize (HR r). rewrite len_cons in HR. by replace (n + len ids + 1) with (n + (1 + len ids)) by lia.
  - intros [] t1 (HI1 & Hev1 & Hd1 & _ & HR1). eapply spec_mono; [apply IH; try done|].
    + intros x Hx. apply elem_of_dom. rewrite Hd1. apply elem_of_dom, Hex. by right.
    + intros [] t2 (HI2 & Hev2 & Hd2 & HR2). split_and!; [done|by eapply evolves_trans|congruence|done].
Qed.

(** ** Slots *)

Lemma Files_put t t' V f l ids :
  Files bs t V → only_file f t t' → Manifest bs t' f l ids → Files bs t' (<[f := (l, ids)]> V).
Proof.
  intros HF [_ Ho] HM g. destruct (decide (g = f)) as [->|Hne]; [by rewrite lookup_insert_eq|].
  rewrite lookup_insert_ne by congruence. specialize (HF g). destruct (V !! g) as [[lg idg]|].
  - destruct HF as [H1 H2]. split; [done|]. intros s. rewrite Ho by done. apply H2.
  - intros s. rewrite Ho by done. apply HF.
Qed.

Lemma Files_delete t t' V f : Files bs t V → only_file f t t' → NoFile t' f → Files bs t' (delete f V).
Proof.
  intros HF [_ Ho] HM g. destruct (decide (g = f)) as [->|Hne]; [by rewrite lookup_delete_eq|].
  rewrite lookup_delete_ne by congruence. specialize (HF g). destruct (V !! g) as [[lg idg]|].
  - destruct HF as [H1 H2]. split; [done|]. intros s. rewrite Ho by done. apply H2.
  - intros s. rewrite Ho by done. apply HF.
Qed.

(** A step on the files alone: the slots of the new view, with what is still
    to count, are those of the old one. *)
Lemma file_step t t' V V' f inc dec keep :
  IdxInv bs t V [] [] keep → only_file f t t' → Files bs t' V' →
  (∀ id, id ∈ all_slots V' → id ∈ all_slots V ∨ id ∈ inc ∨ id = MISSING) →
  (∀ id, id ∈ inc → is_Some (rows t !! id)) →
  (∀ id, id ≠ MISSING → refs V' id + cnt id dec = refs V id + cnt id inc) →
  IdxInv bs t' V' inc dec keep.
Proof.
  intros [Hf Hn Hs Hr Hc Hd Hl] [E _] HF Hsl Hinc Hcnt. rewrite E in *. split; [done|done| |exact Hr| |exact Hd|exact Hl].
  - intros id Hid. destruct (Hsl id Hid) as [?|[Hi| ->]]; [by apply Hs| |unfold MISSING; cbn in *; lia].
    destruct (Hinc id Hi) as [l Hid']. destruct (Hr id l Hid') as (_ & ? & _). change (next_id (set_files (t_files t') t)) with (next_id t). lia.
  - intros id l Hid. destruct (Hr id l Hid) as (_ & Hid' & _). destruct (Hc id l Hid) as [Ec Hp]. rewrite !cnt_nil in *.
    assert (id ≠ MISSING) as Hm by (unfold MISSING; lia). specialize (Hcnt id Hm). split; [lia|].
    destruct Hp as [?|?]; [left; pose proof (cnt_nonneg id inc); lia|by right].
Qed.

Lemma room_files t m n : room (set_files m t) n ↔ room t n.
Proof. done. Qed.
Lemma evolves_files S t m : evolves S t (set_files m t).
Proof. split; [done|intros id l H; left; by exists l|done|done]. Qed.

Lemma repoint_spec t V f L ids b new keep n R :
  IdxInv bs t V [] [] keep → V !! f = Some (L, ids) → 0 ≤ b → b + len new ≤ len ids →
  (∀ id, id ∈ new → is_Some (rows t !! id)) → (∀ id, id ∈ keep → id ∈ new) → 0 ≤ n → (R → room t (n + len new)) →
  spec (repoint f L b new) t R (λ _ t', IdxInv bs t' (<[f := (L, mem_put ids b new)]> V) [] [] [] ∧ evolves nowhere t t' ∧
    (∀ id, id ∈ new → is_Some (rows t' !! id)) ∧ keeps_used (<[f := (L, mem_put ids b new)]> V) t t' ∧ (R → room t' n)).
Proof using Hbs.
  intros HI Hf Hb Hle Hnew Hkeep Hn HR. set (V' := <[f := (L, mem_put ids b new)]> V).
  pose proof (iv_files _ _ _ _ _ _ HI f) as HM. rewrite Hf in HM.
  destruct (set_slots_list bs Hbs t f L ids b new HM Hb Hle) as (t1 & E1 & HM1 & Ho1).
  { apply Forall_forall. intros id Hid. destruct (Hnew id Hid) as [l Hl].
    destruct (iv_row _ _ _ _ _ _ HI _ _ Hl) as (_ & ? & _). pose proof (iv_next _ _ _ _ _ _ HI). unfold in_u64. lia. }
  unfold repoint. eapply spec_seq; [exact E1|]. set (old := mem_get ids b (len new)).
  assert (t1 = set_files (t_files t1) t) as Et by apply Ho1.
  assert (rows t1 = rows t) as Er by (by rewrite Et).
  assert (∀ x, 0 ≤ refs V' x) as Hpos by (intros; apply cnt_nonneg).
  assert (IdxInv bs t1 V' new (nonmissing old) keep) as HI1.
  { eapply (file_step t t1 V V' f); [done|done| | |done|].
    - eapply Files_put; [apply HI|done|done].
    - intros id. rewrite !elem_all_slots. intros (g & l & ig & Hg & Hid). unfold V' in Hg.
      apply lookup_insert_Some in Hg as [[<- [= <- <-]]|[Hne Hg]]; [|left; by exists g, l, ig].
      unfold mem_put in Hid. rewrite !elem_of_app in Hid. destruct Hid as [H1|[H1|H1]].
      + left. exists f, L, ids. split; [done|]. by apply subseteq_take in H1.
      + right. by left.
      + left. exists f, L, ids. split; [done|]. by apply subseteq_drop in H1.
    - intros id Hid. rewrite cnt_nonmissing by done. pose proof (refs_update V f L ids L (mem_put ids b new) id Hf) as E.
      pose proof (cnt_put id ids b new Hb Hle) as E2. fold old in E2. fold V' in E. lia. }
  eapply spec_bind; [apply (incref_all_spec t1 V' new (nonmissing old) keep n R HI1)|].
  - intros id Hid. rewrite Er. by apply Hnew.
  - done.
  - rewrite Et. exact HR.
  - intros [] t2 (HI2 & Hev2 & Hd2 & HR2). rewrite titer_nonmissing.
    assert (∀ id, id ∈ new → 0 < refs V' id) as Hused.
    { intros id Hid. apply cnt_pos. apply elem_all_slots. exists f, L, (mem_put ids b new). split; [by unfold V'; rewrite lookup_insert_eq|].
      unfold mem_put. rewrite !elem_of_app. by right; left. }
    eapply spec_mono; [apply (decref_all_spec t2 V' (nonmissing old) n R)|].
    + destruct HI2 as [Hf2 Hn2 Hs2 Hr2 Hc2 Hd2' Hl2]. split; try done. intros id l Hid. destruct (Hc2 id l Hid) as [Ec Hp].
      split; [done|]. left. destruct Hp as [?|Hk]; [done|]. specialize (Hused id (Hkeep id Hk)). pose proof (cnt_nonneg id (nonmissing old)). lia.
    + done.
    + intros [] t3 (HI3 & Hev3 & Hk3 & HR3).
      assert (keeps_used V' t t3) as Hk.
      { intros x Hx Hp. apply Hk3; [|done]. apply elem_of_dom. rewrite Hd2, Er. by apply elem_of_dom. }
      split_and!; [done| | |done|done].
      * apply (evolves_trans _ t t1); [rewrite Et; apply evolves_files|by apply (evolves_trans _ t1 t2)].
      * intros id Hid. apply Hk; [by apply Hnew|by apply Hused].
Qed.

(** ** The transactions *)

Lemma room_0 t V inc dec keep : IdxInv bs t V inc dec keep → room t 0.
Proof.
  intros [Hf Hn Hs Hr Hc Hd Hl]. split_and!; [lia|done| |].
  - intros id l Hid. destruct (Hr id l Hid) as ((_ & _ & _ & _ & [? ?] & _) & _). lia.
  - intros p i Hp. destruct (Hl p i Hp) as [[? ?] _]. lia.
Qed.

Definition records_ok (nr : gmap bytes BlockLoc) : Prop := ∀ h l, nr !! h = Some l → loc_ok l ∧ l_hash l = h.
Definition accepts (t : Tables) (p : Z) : Prop := ∃ i, infos t !! p = Some i ∧ p_state i ≠ Retired.
Definition of_records (nr : gmap bytes BlockLoc) (l : BlockLoc) : Prop := nr !! l_hash l = Some l.
Definition stored (t : Tables) (h : bytes) (id : Z) : Prop := ∃ l, rows t !! id = Some l ∧ l_hash l = h.

Lemma evolves_accepts S t t' p : evolves S t t' → accepts t p → accepts t' p.
Proof.
  intros [_ _ Hi _] (i & Hp & Hs). specialize (Hi p). rewrite Hp in Hi. cbn in Hi.
  destruct (infos t' !! p) as [i'|] eqn:E; [|done]. cbn in Hi. exists i'. split; [done|]. congruence.
Qed.

Lemma block_for_spec t V nr h keep n R :
  IdxInv bs t V [] [] keep → records_ok nr →
  is_Some (dedup h t) ∨ (∃ l, nr !! h = Some l ∧ accepts t (l_pack l)) → 0 ≤ n → (R → room t (n + 1)) →
  spec (block_for nr h) t R (λ id t', IdxInv bs t' V [] [] (id :: keep) ∧ stored t' h id ∧ evolves (of_records nr) t t' ∧
    (∀ x l, rows t !! x = Some l → rows t' !! x = Some l) ∧ (∀ h', is_Some (dedup h' t) → is_Some (dedup h' t')) ∧ (R → room t' n)).
Proof.
  intros HI Hnr Hh Hn HR. unfold block_for. apply spec_read. destruct (dedup h t) as [id|] eqn:Ed.
  - apply spec_ret. destruct (iv_dedup _ _ _ _ _ _ HI _ _ Ed) as (l & Hid & Hl).
    split_and!; [|by exists l|apply evolves_refl|done|done|].
    + destruct HI as [Hf Hn' Hs Hr Hc Hd Hlv]. split; try done. intros x lx Hx. destruct (Hc x lx Hx) as [? [?|?]]; (split; [done|]); [by left|right; by right].
    + intros r. destruct (HR r) as (R1 & R2 & R3 & R4). split_and!; [lia|lia| |].
      * intros x lx Hx. specialize (R3 x lx Hx). lia.
      * intros p i Hp. specialize (R4 p i Hp). unfold HEADER_LEN, u32_max in *. lia.
  - destruct Hh as [[? ?]|(l & Hl & i & Hi & Hs)]; [done|]. eapply spec_or; [exact Hl|]. destruct (Hnr h l Hl) as [Hok Hhash].
    eapply spec_mono; [eapply (insert_block_spec t V keep l i n R); try done; by rewrite Hhash|].
    intros id t' (HI' & Er & Hfresh & Ed' & Hev & HR'). split_and!; [done| | | | |done].
    + exists (with_refcount l 0). rewrite Er, lookup_insert_eq. done.
    + eapply evolves_weaken; [|exact Hev]. intros ? ->. unfold of_records. by rewrite Hhash.
    + intros x lx Hx. rewrite Er, lookup_insert_ne; [done|]. congruence.
    + intros h' Hh'. rewrite Ed'. case_decide; [done|]. done.
Qed.

Lemma blocks_for_spec t V nr hs keep n R :
  IdxInv bs t V [] [] keep → records_ok nr →
  (∀ h, h ∈ hs → is_Some (dedup h t) ∨ (∃ l, nr !! h = Some l ∧ accepts t (l_pack l))) → 0 ≤ n → (R → room t (n + len hs)) →
  spec (tmap (block_for nr) hs) t R (λ ids t', ∃ keep', IdxInv bs t' V [] [] keep' ∧ (∀ x, x ∈ keep' → x ∈ keep ∨ x ∈ ids) ∧
    Forall2 (stored t') hs ids ∧ evolves (of_records nr) t t' ∧ (∀ x l, rows t !! x = Some l → rows t' !! x = Some l) ∧ (R → room t' n)).
Proof.
  revert t keep. induction hs as [|h hs IH]; intros t keep HI Hnr Hhs Hn HR; cbn [tmap].
  { apply spec_ret. exists keep. split_and!; [done|by left|constructor|apply evolves_refl|done|].
    intros r. specialize (HR r). by rewrite len_nil, Z.add_0_r in HR. }
  eapply spec_bind; [apply (block_for_spec t V nr h keep (n + len hs) R HI Hnr)|].
  - apply Hhs. by left.
  - pose proof (len_nonneg hs). lia.
  - intros r. specialize (HR r). rewrite len_cons in HR. by replace (n + len hs + 1) with (n + (1 + len hs)) by lia.
  - intros id t1 (HI1 & Hst1 & Hev1 & Hr1 & Hd1 & HR1). eapply spec_bind; [apply (IH t1 (id :: keep) HI1 Hnr); [|done|done]|].
    + intros h' Hh'. destruct (Hhs h') as [?|(l & ? & ?)]; [by right|left; by apply Hd1|right].
      exists l. split; [done|by eapply evolves_accepts].
    + intros ids t2 (keep' & HI2 & Hk & Hst2 & Hev2 & Hr2 & HR2). apply spec_ret. exists keep'. split_and!; [done| | | | |done].
      * intros x Hx. destruct (Hk x Hx) as [Hin|?]; [|right; by right]. apply elem_of_cons in Hin as [->|?]; [right; by left|by left].
      * constructor; [|done]. destruct Hst1 as (l & Hl & ?). exists l. by split; [apply Hr2|].
      * by eapply evolves_trans.
      * auto.
Qed.

Lemma pack_accepts_spec p t : ∃ b, pack_accepts_records p t = Ok (b, t) ∧ (b = true → accepts t p).
Proof.
  unfold pack_accepts_records, tread, mbind, TM_bind. cbv beta iota. rewrite pack_infos.
  destruct (infos t !! p) as [j|] eqn:Ej; [|by exists false]. exists (negb (bool_decide (p_state j = Retired))). split; [done|].
  intros Eb%negb_true_iff%bool_decide_eq_false. by exists j.
Qed.

Lemma still_missing_spec nr i hs t :
  ∃ m, still_missing nr i hs t = Ok (m, t) ∧
    (m = [] → ∀ h, h ∈ hs → is_Some (dedup h t) ∨ (∃ l, nr !! h = Some l ∧ accepts t (l_pack l))).
Proof.
  revert i. induction hs as [|h hs IH]; intros i; cbn [still_missing].
  { exists []. split; [done|]. by intros _ h ?%elem_of_nil. }
  destruct (IH (S i)) as (m & E & Hm). rewrite (tbind_ok (tread (dedup h)) _ t _ t eq_refl).
  set (ok := match dedup h t, nr !! h with Some _, _ => mret true | None, Some l => pack_accepts_records (l_pack l) | None, None => mret false end).
  assert (∃ b, ok t = Ok (b, t) ∧ (b = true → is_Some (dedup h t) ∨ (∃ l, nr !! h = Some l ∧ accepts t (l_pack l)))) as (b & Eb & Hb).
  { unfold ok. destruct (dedup h t); [exists true; split; [done|by left]|]. destruct (nr !! h) as [l|]; [|by exists false].
    destruct (pack_accepts_spec (l_pack l) t) as (b & Eb & Hb). exists b. split; [done|]. right. exists l. auto. }
  rewrite (tbind_ok _ _ _ _ _ Eb), (tbind_ok _ _ _ _ _ E). destruct b; [|by exists (i :: m)].
  exists m. split; [done|]. intros -> h' [->|Hh']%elem_of_cons; [by apply Hb|by apply Hm].
Qed.

Definition write_ok (t : Tables) (V : View) (f : bytes) (first clen n : Z) : Prop :=
  ∃ L ids, V !! f = Some (L, ids) ∧ validate_write L bs first clen = Ok tt ∧ room t (2 * n).

Lemma validate_bounds L first clen :
  0 < clen → validate_write L bs first clen = Ok tt → first + div_ceil clen bs ≤ block_count L bs.
Proof.
  unfold validate_write. destruct (Z.eqb_spec clen 0); [lia|]. intros ?.
  destruct (Z.leb_spec u64_max (first + div_ceil clen bs)); [done|].
  destruct (Z.ltb_spec (block_count L bs) (first + div_ceil clen bs)); [done|]. intros _. lia.
Qed.

Lemma files_len_spec t V f :
  Files bs t V → files_len f t = Ok (fst <$> V !! f, t).
Proof using Hbs.
  intros HF. specialize (HF f). unfold files_len, mbind, TM_bind, tread, segment. destruct (V !! f) as [[L ids]|].
  - destruct HF as [Hok Ht]. rewrite Ht, (seg_row_in bs); [by rewrite file_len_head by apply Hok|done|].
    destruct (file_segments bs Hbs L ids Hok). lia.
  - by rewrite HF.
Qed.

(** A write that commits: the file's slots name blocks of these hashes. *)
Lemma write_txn_spec t V f first clen hs nr :
  IdxInv bs t V [] [] [] → records_ok nr → 0 ≤ first → 0 < clen → len hs = div_ceil clen bs →
  spec (write_txn bs f first clen hs nr) t (write_ok t V f first clen (len hs)) (λ o t',
    match o with
    | Some m => t' = t ∧ m ≠ []
    | None => ∃ L ids new, V !! f = Some (L, ids) ∧ first + len hs ≤ len ids ∧ Forall2 (stored t') hs new ∧
        IdxInv bs t' (<[f := (L, mem_put ids first new)]> V) [] [] [] ∧ evolves (of_records nr) t t' ∧
        keeps_used (<[f := (L, mem_put ids first new)]> V) t t'
    end).
Proof using Hbs.
  intros HI Hnr Hfirst Hclen Hlen. set (R := write_ok _ _ _ _ _ _). unfold write_txn.
  eapply spec_seq; [apply (files_len_spec t V), HI|].
  destruct (V !! f) as [[L ids]|] eqn:Hf; cbn [fst fmap option_fmap option_map].
  2:{ intros (? & ? & ? & _). congruence. }
  eapply spec_or; [done|]. destruct (validate_write L bs first clen) as [[]|e] eqn:Ev; cbn [tresult].
  2:{ intros (L' & ids' & Hf' & Ev' & _). congruence. }
  eapply spec_seq; [done|]. destruct (still_missing_spec nr 0 hs t) as (m & Em & Hm). eapply spec_seq; [exact Em|].
  destruct m as [|x m]; [|by apply spec_ret]. specialize (Hm eq_refl).
  pose proof (iv_files _ _ _ _ _ _ HI f) as HM. rewrite Hf in HM.
  assert (first + len hs ≤ len ids) as Hle.
  { destruct HM as [(_ & _ & -> & _) _]. rewrite Hlen. by apply validate_bounds. }
  assert (R → room t (len hs + len hs)) as HR.
  { intros (? & ? & _ & _ & HR). by replace (len hs + len hs) with (2 * len hs) by lia. }
  pose proof (len_nonneg hs).
  eapply spec_bind; [apply (blocks_for_spec t V nr hs [] (len hs) R HI Hnr Hm); [lia|done]|].
  intros new t1 (keep & HI1 & Hk & Hst & Hev & Hr1 & HR1). pose proof (Forall2_length _ _ _ Hst) as Hl2.
  assert (len new = len hs) as Hln by (unfold len; lia).
  assert (∀ id, id ∈ new → is_Some (rows t1 !! id)) as Hrows.
  { intros id (i & Hi)%list_elem_of_lookup_1. destruct (Forall2_lookup_r _ _ _ _ _ Hst Hi) as (h & _ & l & -> & _). done. }
  eapply spec_bind; [apply (repoint_spec t1 V f L ids first new keep 0 R HI1 Hf Hfirst); try done|].
  - lia.
  - intros id Hid. by destruct (Hk id Hid) as [?%elem_of_nil|?].
  - rewrite Z.add_0_l, Hln. exact HR1.
  - intros [] t2 (HI2 & Hev2 & Hrows2 & Hk2 & _). apply spec_ret. exists L, ids, new. split_and!; [done|lia| |done| |].
    + apply Forall2_same_length_lookup. split; [done|]. intros i h id Hh Hid.
      destruct (Forall2_lookup_lr _ _ _ _ _ _ Hst Hh Hid) as (l & Hl & Hlh).
      destruct (Hrows2 id) as [l2 Hl2']; [by eapply list_elem_of_lookup_2|].
      exists l2. split; [done|]. destruct (ev_rows _ _ _ Hev2 id l2 Hl2') as [(l1 & Hl1 & (_ & _ & _ & _ & Eh))|(_ & ? & [] & _)].
      congruence.
    + eapply evolves_trans; [done|]. by eapply evolves_weaken; [|exact Hev2].
    + intros x [l Hx] Hp. apply Hk2; [|done]. exists l. by apply Hr1.
Qed.

(** [set_len] on the lists of ids: a new file has every block missing. *)
Definition set_len_view (f : bytes) (nl : Z) (V : View) : View :=
  <[f := (nl, match V !! f with
              | Some (ol, ids) => resize_ids bs ol nl ids
              | None => replicate (Z.to_nat (block_count nl bs)) MISSING
              end)]> V.

Lemma elem_resize_ids ol nl ids id : id ∈ resize_ids bs ol nl ids → id ∈ ids ∨ id = MISSING.
Proof.
  unfold resize_ids. rewrite resize_spec, elem_of_app. intros [H|[-> _]%elem_of_replicate]; [|by right].
  apply subseteq_take in H. unfold cut_last in H. destruct (last_changes bs ol nl); [|by left].
  apply list_elem_of_lookup_1 in H as [i H]. rewrite list_lookup_insert_Some in H.
  destruct H as [(_ & <- & _)|(_ & H)]; [by right|left; by eapply list_elem_of_lookup_2].
Qed.

Lemma set_len_spec t V f nl :
  IdxInv bs t V [] [] [] → new_len_ok bs nl →
  spec (set_len_txn bs f nl) t True (λ _ t', IdxInv bs t' (set_len_view f nl V) [] [] [] ∧ evolves nowhere t t' ∧
    keeps_used (set_len_view f nl V) t t').
Proof using Hbs.
  intros HI Hnl. pose proof (room_0 _ _ _ _ _ HI) as HR. pose proof (iv_files _ _ _ _ _ _ HI f) as HM.
  assert (∃ dec t1, files_resize f nl bs t = Ok (dec, t1) ∧ only_file f t t1 ∧ IdxInv bs t1 (set_len_view f nl V) [] dec []) as (dec & t1 & E & Ho & HI1).
  { unfold set_len_view. destruct (V !! f) as [[ol ids]|] eqn:Hf.
    - destruct (resize_list bs Hbs f ol nl ids t HM Hnl) as (t1 & E & HM1 & Ho). exists (resize_dropped bs ol nl ids), t1.
      split_and!; [done|done|]. eapply (file_step t t1 V); [done|done| | |by intros ? ?%elem_of_nil|].
      + eapply Files_put; [apply HI|done|done].
      + intros id. rewrite !elem_all_slots. intros (g & l & ig & Hg & Hid).
        apply lookup_insert_Some in Hg as [[<- [= <- <-]]|[Hne Hg]]; [|left; by exists g, l, ig].
        apply elem_resize_ids in Hid as [?|?]; [left; by exists f, ol, ids|by right; right].
      + intros id Hid. pose proof (refs_update V f ol ids nl (resize_ids bs ol nl ids) id Hf).
        pose proof (cnt_resize bs Hbs id ol nl ids Hid (proj1 HM) Hnl). rewrite cnt_nil. lia.
    - destruct (resize_new bs Hbs f nl t HM Hnl) as (t1 & E & HM1 & Ho). exists [], t1.
      split_and!; [done|done|]. eapply (file_step t t1 V); [done|done| | |by intros ? ?%elem_of_nil|].
      + eapply Files_put; [apply HI|done|done].
      + intros id. rewrite !elem_all_slots. intros (g & l & ig & Hg & Hid).
        apply lookup_insert_Some in Hg as [[<- [= <- <-]]|[Hne Hg]]; [|left; by exists g, l, ig].
        apply elem_of_replicate in Hid as [-> _]. by right; right.
      + intros id Hid. rewrite refs_insert, cnt_replicate_missing by done. lia. }
  unfold set_len_txn. eapply spec_seq; [exact E|]. assert (t1 = set_files (t_files t1) t) as Et by apply Ho.
  eapply spec_mono; [apply (decref_all_spec t1 _ dec 0 True HI1)|]; [by rewrite Et|].
  intros [] t2 (HI2 & Hev2 & Hk2 & _). split_and!; [done| |].
  - eapply evolves_trans; [|exact Hev2]. rewrite Et. apply evolves_files.
  - intros x Hx. apply Hk2. by rewrite Et.
Qed.

Lemma delete_spec t V f :
  IdxInv bs t V [] [] [] →
  spec (delete_txn bs f) t (is_Some (V !! f)) (λ _ t', IdxInv bs t' (delete f V) [] [] [] ∧ evolves nowhere t t' ∧
    keeps_used (delete f V) t t').
Proof using Hbs.
  intros HI. pose proof (room_0 _ _ _ _ _ HI) as HR. pose proof (iv_files _ _ _ _ _ _ HI f) as HM. unfold delete_txn.
  destruct (V !! f) as [[ol ids]|] eqn:Hf.
  2:{ unfold files_remove, spec, mbind, TM_bind, tread, segment. rewrite HM. by intros [? ?]. }
  destruct (remove_list bs Hbs f ol ids t HM) as (t1 & E & HN & Ho). eapply spec_seq; [exact E|]. eapply spec_or; [done|].
  assert (t1 = set_files (t_files t1) t) as Et by apply Ho.
  assert (IdxInv bs t1 (delete f V) [] (nonmissing ids) []) as HI1.
  { eapply (file_step t t1 V); [done|done| | |by intros ? ?%elem_of_nil|].
    - eapply Files_delete; [apply HI|done|done].
    - intros id. rewrite !elem_all_slots. intros (g & l & ig & Hg & Hid). apply lookup_delete_Some in Hg as [_ Hg]. left. by exists g, l, ig.
    - intros id Hid. rewrite cnt_nonmissing, (refs_delete V f ol ids id Hf), cnt_nil by done. lia. }
  eapply spec_mono; [apply (decref_all_spec t1 _ (nonmissing ids) 0 _ HI1)|]; [by rewrite Et|].
  intros [] t2 (HI2 & Hev2 & Hk2 & _). split_and!; [done| |].
  - eapply evolves_trans; [|exact Hev2]. rewrite Et. apply evolves_files.
  - intros x Hx. apply Hk2. by rewrite Et.
Qed.

Lemma heal_spec t V id l :
  IdxInv bs t V [] [] [] →
  spec (heal_txn id l) t True (λ b t', IdxInv bs t' V [] [] [] ∧ evolves nowhere t t' ∧
    if b : bool then is_Some (rows t !! id) ∧ rows t' = delete id (rows t) else t' = t).
Proof.
  intros HI. unfold heal_txn. apply spec_read. rewrite block_rows. destruct (rows t !! id) as [cur|] eqn:Hid.
  - case_match; [|by apply spec_ret; split_and!; [|apply evolves_refl|]].
    eapply spec_bind; [apply (remove_block_spec t V [] [] [] [] [] [] id cur True 0 HI Hid)|]; [intros _; by eapply room_0|done|].
    intros [] t' (? & ? & ? & _). by apply spec_ret.
  - apply spec_ret. split_and!; [done|apply evolves_refl|done].
Qed.

(** ** Packs *)

(** Rows, files and counts do not change: only the packs do. *)
Lemma packs_inv t t' V :
  IdxInv bs t V [] [] [] → t_files t' = t_files t → t_blocks t' = t_blocks t → t_dedup t' = t_dedup t → next_id t' = next_id t →
  (∀ p, accepts t p → (∃ id l, rows t !! id = Some l ∧ l_pack l = p) → accepts t' p) →
  (∀ p i, infos t' !! p = Some i → info_ok i ∧ live_bytes i = live_of t p) → IdxInv bs t' V [] [] [].
Proof.
  intros [Hf Hn Hs Hr Hc Hd Hl] E1 E2 E3 E4 Ha Hlv.
  assert (rows t' = rows t) as Er by (unfold rows; by rewrite E2).
  split; [by apply (Files_ext t)|by rewrite E4|by rewrite E4| |by rewrite Er| |].
  - intros id l. rewrite Er. intros Hid. destruct (Hr id l Hid) as (? & ? & Hdd & Hacc). split_and!; try done; try lia.
    + unfold dedup. by rewrite E3.
    + apply Ha; [done|]. by exists id, l.
  - intros h id. unfold dedup. rewrite E3, Er. apply Hd.
  - intros p i Hp. unfold live_of. rewrite Er. by apply Hlv.
Qed.

Lemma live_of_unused t p : (∀ id l, rows t !! id = Some l → l_pack l ≠ p) → live_of t p = 0.
Proof.
  intros H. unfold live_of, msum. assert (∀ e, e ∈ map_to_list (rows t) → l_pack e.2 ≠ p) as H'.
  { intros [id l] He%elem_of_map_to_list. by eapply H. }
  revert H'. generalize (map_to_list (rows t)). intros l. induction l as [|e l IH]; intros H'; cbn; [done|].
  rewrite IH by (intros; apply H'; by right). unfold in_pack. rewrite (proj2 (Z.eqb_neq _ _)); [done|]. apply H'. by left.
Qed.

Definition sealed_infos (old : option Z) (m : gmap Z PackInfo) : gmap Z PackInfo :=
  match old with Some o => match m !! o with Some i => <[o := mkPackInfo (live_bytes i) Sealed]> m | None => m end | None => m end.

Lemma next_id_meta t k v : k ≠ META_NEXT_BLOCK_ID → next_id (set_meta (<[k := v]> (t_meta t)) t) = next_id t.
Proof. intros. unfold next_id, meta. cbn [t_meta set_meta]. by rewrite lookup_insert_ne. Qed.

Lemma register_spec t V old id :
  IdxInv bs t V [] [] [] → infos t !! id = None →
  spec (register_txn old id) t True (λ _ t', IdxInv bs t' V [] [] [] ∧ rows t' = rows t ∧ next_id t' = next_id t ∧
    infos t' = <[id := mkPackInfo 0 Active]> (sealed_infos old (infos t)) ∧ ∀ k, meta k t' = if decide (k = META_NEXT_PACK_ID) then Some (id + 1) else meta k t).
Proof.
  intros HI Hid. unfold register_txn.
  assert (∀ p i, infos t !! p = Some i → info_ok i ∧ live_bytes i = live_of t p) as Hl by apply HI.
  set (t1 := match old with Some o => match infos t !! o with Some i => set_packs (<[o := info_encode (mkPackInfo (live_bytes i) Sealed)]> (t_packs t)) t | None => t end | None => t end).
  eapply (spec_seq _ _ _ tt t1).
  { unfold t1. destruct old as [o|]; [|done]. rewrite (tbind_ok (tread (pack o)) _ t _ t eq_refl). rewrite pack_infos. by destruct (infos t !! o). }
  assert (infos t1 = sealed_infos old (infos t)) as E1.
  { unfold t1, sealed_infos. destruct old as [o|]; [|done]. destruct (infos t !! o) as [i|] eqn:Ho; [|done].
    apply infos_put; [done|]. apply (Hl o i Ho). }
  assert (t_files t1 = t_files t ∧ t_blocks t1 = t_blocks t ∧ t_dedup t1 = t_dedup t ∧ t_meta t1 = t_meta t) as (Ef & Eb & Edd & Em).
  { unfold t1. destruct old as [o|]; [|done]. by destruct (infos t !! o). }
  eapply (spec_seq _ _ _ tt); [reflexivity|]. set (t2 := set_packs _ t1). unfold put_meta, twrite, spec. set (t' := set_meta _ t2).
  assert (infos t' = <[id := mkPackInfo 0 Active]> (sealed_infos old (infos t))) as Ei.
  { rewrite <- E1. apply infos_put; [done|]. by unfold info_ok, in_u64, u64_max; cbn; lia. }
  assert (next_id t' = next_id t) as En.
  { unfold t'. rewrite next_id_meta by (by vm_compute). unfold next_id, meta. cbn [t2 t_meta set_packs]. by rewrite Em. }
  split_and!.
  - eapply (packs_inv t t'); [done|done|done|done|done| |].
    + intros p (i & Hp & Hst) _. unfold accepts. rewrite Ei. destruct (decide (p = id)) as [->|Hne]; [congruence|].
      rewrite lookup_insert_ne by done. unfold sealed_infos. destruct old as [o|]; [|by exists i].
      destruct (infos t !! o) as [j|] eqn:Ho; [|by exists i]. destruct (decide (o = p)) as [->|]; [|rewrite lookup_insert_ne by done; by exists i].
      rewrite lookup_insert_eq. eexists. split; [done|]. done.
    + intros p i. rewrite Ei, lookup_insert_Some. intros [[<- <-]|[Hne Hp]].
      * split; [by unfold info_ok, in_u64, u64_max; cbn; lia|]. rewrite live_of_unused; [done|]. intros x l Hx Ex.
        destruct (iv_row _ _ _ _ _ _ HI x l Hx) as (_ & _ & _ & j & Hj & _). congruence.
      * unfold sealed_infos in Hp. destruct old as [o|]; [|by apply Hl]. destruct (infos t !! o) as [j|] eqn:Ho; [|by apply Hl].
        apply lookup_insert_Some in Hp as [[<- <-]|[_ Hp]]; [|by apply Hl]. apply (Hl o j Ho).
  - unfold rows. by rewrite <- Eb.
  - done.
  - done.
  - intros k. unfold meta, t'. cbn [set_meta t_meta t2 set_packs]. rewrite Em. case_decide as Ek; [rewrite Ek; apply lookup_insert_eq|by apply lookup_insert_ne].
Qed.

Lemma retire_spec t V p :
  IdxInv bs t V [] [] [] →
  spec (retire_txn p) t (is_Some (infos t !! p)) (λ b t', IdxInv bs t' V [] [] [] ∧
    if b : bool then (∀ id l, rows t !! id = Some l → l_pack l ≠ p) ∧ t_blocks t' = t_blocks t ∧ t_meta t' = t_meta t ∧
      infos t' = <[p := mkPackInfo 0 Retired]> (infos t)
    else t' = t).
Proof.
  intros HI. unfold retire_txn. apply spec_read. rewrite pack_infos. destruct (infos t !! p) as [i|] eqn:Hp.
  2:{ unfold spec, mbind, TM_bind, tor, tfail. by intros [? ?]. }
  eapply spec_or; [done|]. destruct (Z.eqb_spec (live_bytes i) 0) as [E0|]; [|by apply spec_ret].
  rewrite E0. cbn [negb]. eapply (spec_seq _ _ _ tt); [reflexivity|]. apply spec_ret. set (t' := set_packs _ t).
  destruct (iv_live _ _ _ _ _ _ HI p i Hp) as [_ Hlv]. rewrite E0 in Hlv.
  assert (∀ id l, rows t !! id = Some l → l_pack l ≠ p) as Hun.
  { intros id l Hid <-. unfold live_of in Hlv. rewrite (msum_delete _ _ id l Hid) in Hlv.
    destruct (iv_row _ _ _ _ _ _ HI id l Hid) as (Hok & _).
    pose proof (record_len_bound l Hok). unfold in_pack in Hlv at 1. rewrite Z.eqb_refl in Hlv.
    assert (0 ≤ msum (in_pack (l_pack l)) (delete id (rows t))); [|lia].
    apply msum_nonneg. intros x lx [_ Hx]%lookup_delete_Some. apply in_pack_nonneg, (iv_row _ _ _ _ _ _ HI x lx Hx). }
  assert (infos t' = <[p := mkPackInfo 0 Retired]> (infos t)) as Ei.
  { apply infos_put; [done|]. by unfold info_ok, in_u64, u64_max; cbn; lia. }
  split_and!; [|done|done|done|done]. eapply (packs_inv t t'); [done|done|done|done|done| |].
  - intros q (j & Hq & Hst) (id & l & Hid & <-). exists j. rewrite Ei, lookup_insert_ne; [done|]. intros ->. by eapply Hun.
  - intros q j. rewrite Ei, lookup_insert_Some. intros [[<- <-]|[Hne Hq]]; [|by apply HI].
    split; [by unfold info_ok, in_u64, u64_max; cbn; lia|]. by rewrite live_of_unused.
Qed.

Lemma remove_pack_spec t V p :
  IdxInv bs t V [] [] [] → (∀ id l, rows t !! id = Some l → l_pack l ≠ p) →
  spec (remove_pack p) t True (λ _ t', IdxInv bs t' V [] [] [] ∧ rows t' = rows t ∧ infos t' = delete p (infos t) ∧ t_meta t' = t_meta t).
Proof.
  intros HI Hun. unfold remove_pack, twrite, spec. set (t' := set_packs _ t).
  assert (infos t' = delete p (infos t)) as Ei by (unfold infos; cbn; by rewrite fmap_delete).
  split_and!; [|done|done|done]. eapply (packs_inv t t'); [done|done|done|done|done| |].
  - intros q (j & Hq & Hst) (id & l & Hid & <-). exists j. rewrite Ei, lookup_delete_ne; [done|]. intros ->. by eapply Hun.
  - intros q j. rewrite Ei, lookup_delete_Some. intros [_ Hq]. by apply HI.
Qed.

(** ** Moving a row *)

Section moved.
Context (t : Tables) (V : View) (id : Z) (cur : BlockLoc) (np no : Z) (i j : PackInfo).
Context (HI : IdxInv bs t V [] [] []) (Hid : rows t !! id = Some cur) (Hi : infos t !! l_pack cur = Some i) (Hj : infos t !! np = Some j).
Context (Hnp : in_u32 np) (Hno : in_u64 no).
Local Abbreviation new := (with_place cur np no).
Local Abbreviation n := (loc_record_len cur).

Lemma moved_ok : loc_ok new.
Proof using HI Hid Hnp Hno.
  destruct (iv_row _ _ _ _ _ _ HI id cur Hid) as ((_ & _ & ? & ? & ? & ?) & _). by split_and!.
Qed.
Lemma moved_live t1 : rows t1 = <[id := new]> (rows t) → ∀ p, live_of t1 p + in_pack p cur = live_of t p + in_pack p new ∧ 0 ≤ live_of t1 p.
Proof using HI Hid Hnp Hno.
  intros Er p. unfold live_of. rewrite Er. split; [by apply msum_update|]. apply msum_nonneg. intros x lx. rewrite lookup_insert_Some.
  intros [[_ <-]|[_ Hx]]; apply in_pack_nonneg; [apply moved_ok|apply (iv_row _ _ _ _ _ _ HI _ _ Hx)].
Qed.
Lemma moved_from : 0 < n ≤ live_bytes i ∧ live_bytes i < u64_max ∧ 0 ≤ live_bytes j < u64_max.
Proof using HI Hid Hi Hj.
  destruct HI as [_ _ _ Hr _ _ Hl]. destruct (Hl _ _ Hi) as [[? Hio] Hlv]. destruct (Hl _ _ Hj) as [[? Hjo] _].
  destruct (Hr id cur Hid) as (Hok & _). pose proof (record_len_bound cur Hok) as Hlen.
  pose proof (msum_delete (in_pack (l_pack cur)) (rows t) id cur Hid) as E. unfold in_pack in E at 2. rewrite Z.eqb_refl in E.
  assert (0 ≤ msum (in_pack (l_pack cur)) (delete id (rows t))); [|unfold live_of in *; lia].
  apply msum_nonneg. intros x lx [_ Hx]%lookup_delete_Some. apply in_pack_nonneg, (Hr _ _ Hx).
Qed.

(** The two packs after the move. *)
Definition moved_from_info : PackInfo := mkPackInfo (live_bytes i - n) (p_state i).
Definition moved_to_info : PackInfo :=
  if decide (l_pack cur = np) then mkPackInfo (live_bytes i - n + n) (p_state i) else mkPackInfo (live_bytes j + n) (p_state j).
Definition moved_infos : gmap Z PackInfo := <[np := moved_to_info]> (<[l_pack cur := moved_from_info]> (infos t)).

Lemma moved_states p : p_state <$> moved_infos !! p = p_state <$> infos t !! p.
Proof using Hi Hj.
  unfold moved_infos, moved_to_info. destruct (decide (p = np)) as [->|Hne].
  - rewrite lookup_insert_eq, Hj. case_decide as E; cbn; [|done]. assert (Some i = Some j) as Eij by (rewrite <- Hi, <- Hj; by rewrite E). by injection Eij as <-.
  - rewrite lookup_insert_ne by done. destruct (decide (p = l_pack cur)) as [->|]; [by rewrite lookup_insert_eq, Hi|by rewrite lookup_insert_ne].
Qed.

Lemma moved_inv t' :
  t_files t' = t_files t → t_dedup t' = t_dedup t → next_id t' = next_id t → rows t' = <[id := new]> (rows t) → infos t' = moved_infos →
  p_state j ≠ Retired → live_bytes moved_to_info < u64_max → IdxInv bs t' V [] [] [].
Proof using HI Hid Hi Hj Hnp Hno.
  intros E1 E2 E3 Er Ei Hjs Hlt. pose proof HI as [Hf Hn' Hs Hr Hc Hd Hl]. destruct (Hr id cur Hid) as (Hok & Hid1 & Hid2 & _).
  assert (∀ p, accepts t p → accepts t' p) as Hkeep.
  { intros p (k & Hk & Hks). pose proof (moved_states p) as Hst. rewrite Hk, <- Ei in Hst. apply fmap_Some in Hst as (k' & Hk' & E).
    exists k'. split; [done|]. congruence. }
  split; [by apply (Files_ext t)|by rewrite E3|by rewrite E3| | | |].
  - intros x lx. rewrite Er, lookup_insert_Some. unfold row_ok, dedup. rewrite E2, E3. intros [[<- <-]|[Hne Hx]].
    + split_and!; [apply moved_ok|apply Hid1|apply Hid1|done|apply Hkeep; by exists j].
    + destruct (Hr x lx Hx) as (? & Hx2 & ? & ?). split_and!; [done|apply Hx2|apply Hx2|done|by apply Hkeep].
  - intros x lx. rewrite Er, lookup_insert_Some. intros [[<- <-]|[Hne Hx]]; [apply (Hc id cur Hid)|by apply Hc].
  - intros h x. unfold dedup. rewrite E2. intros Hx. destruct (Hd h x Hx) as (lx & Hx1 & Hx2). rewrite Er.
    destruct (decide (x = id)) as [->|]; [|exists lx; by rewrite lookup_insert_ne].
    exists new. rewrite lookup_insert_eq. split; [done|]. cbn. congruence.
  - intros p k. rewrite Ei. destruct (moved_live t' Er p) as [Elv Hp0]. pose proof moved_from as Hm. destruct (Hl _ _ Hi) as [_ Hiv], (Hl _ _ Hj) as [_ Hjv].
    unfold in_pack in Elv. cbn [l_pack with_place] in Elv. change (loc_record_len new) with n in Elv.
    unfold moved_infos, moved_to_info, moved_from_info in *. unfold info_ok, in_u64. rewrite lookup_insert_Some. intros [[<- <-]|[Hne Hp]].
    + rewrite Z.eqb_refl in Elv. revert Hlt. destruct (decide (l_pack cur = np)) as [E|E]; cbn [live_bytes]; intros Hlt.
      * rewrite E, Z.eqb_refl in Elv. rewrite E in Hiv. lia.
      * rewrite (proj2 (Z.eqb_neq _ _)) in Elv by done. lia.
    + rewrite (proj2 (Z.eqb_neq np p)) in Elv by done. apply lookup_insert_Some in Hp as [[<- <-]|[Hne' Hp]]; cbn [live_bytes].
      * rewrite Z.eqb_refl in Elv. lia.
      * rewrite (proj2 (Z.eqb_neq (l_pack cur) p)) in Elv by done. destruct (Hl p k Hp) as [[? ?] Ek]. lia.
Qed.

Lemma moved_room t' m :
  next_id t' = next_id t → rows t' = <[id := new]> (rows t) → infos t' = moved_infos → 0 ≤ m → room t (m + 1) → room t' m.
Proof using HI Hid Hi Hj.
  intros E3 Er Ei Hm (R1 & R2 & R3 & R4). pose proof moved_from as Hn. destruct (iv_row _ _ _ _ _ _ HI id cur Hid) as (Hok & _).
  pose proof (record_len_bound cur Hok) as Hlen. pose proof (R4 np j Hj) as Rj. pose proof (R4 _ i Hi) as Ri. unfold room.
  rewrite Er, Ei, E3. split_and!; [lia|lia| |].
  - intros x lx. rewrite lookup_insert_Some. intros [[_ <-]|[_ Hx]]; [specialize (R3 id cur Hid); cbn; lia|specialize (R3 x lx Hx); lia].
  - intros p k. unfold moved_infos, moved_to_info, moved_from_info. rewrite !lookup_insert_Some. unfold HEADER_LEN, u32_max in *. intros [[<- <-]|[_ [[<- <-]|[_ Hp]]]].
    + case_decide; cbn [live_bytes]; lia.
    + cbn [live_bytes]. lia.
    + specialize (R4 p k Hp). lia.
Qed.
End moved.

(** The copy of a record takes its place. *)
Lemma move_one_spec t V id l np no n R :
  IdxInv bs t V [] [] [] → (∀ cur, rows t !! id = Some cur → same_content l cur) → accepts t np → in_u32 np → in_u64 no →
  0 ≤ n → (R → room t (n + 1)) →
  spec (move_one (id, l, (np, no))) t R (λ _ t', IdxInv bs t' V [] [] [] ∧ evolves (same_record (with_place l np no)) t t' ∧
    dom (rows t') = dom (rows t) ∧ (R → room t' n)).
Proof.
  intros HI Hcont (j & Hj & Hjs) Hnp Hno Hn HR.
  assert (R → room t n) as HRn.
  { intros r. destruct (HR r) as (R1 & R2 & R3 & R4). split_and!; [lia|lia| |].
    - intros x lx Hx. specialize (R3 x lx Hx). lia.
    - intros p i Hp. specialize (R4 p i Hp). unfold HEADER_LEN, u32_max in *. lia. }
  unfold move_one. apply spec_read. rewrite block_rows. destruct (rows t !! id) as [cur|] eqn:Hid.
  2:{ apply spec_ret. split_and!; [done|apply evolves_refl|done|done]. }
  destruct (negb _ || negb _) eqn:Eq; [apply spec_ret; split_and!; [done|apply evolves_refl|done|done]|].
  specialize (Hcont cur eq_refl). destruct (iv_row _ _ _ _ _ _ HI id cur Hid) as (Hok & _ & _ & i & Hi & _).
  pose proof (moved_from t V id cur np i j HI Hid Hi Hj) as Hm. pose proof (record_len_bound cur Hok) as Hlen.
  eapply (spec_seq _ _ _ tt); [reflexivity|]. set (t1 := set_blocks _ t).
  assert (rows t1 = <[id := with_place cur np no]> (rows t)) as Er.
  { apply rows_put; [done|]. by apply (moved_ok t V id). }
  eapply spec_bind; [apply (add_live_spec (l_pack cur) _ t1 R i); [done|lia|lia]|]. intros [] t2 [_ ->]. set (t2 := set_packs _ t1).
  assert (infos t2 = <[l_pack cur := moved_from_info cur i]> (infos t)) as Ei2 by (apply (infos_put _ _ t1); [done|unfold info_ok, in_u64; cbn; lia]).
  assert (∃ j', infos t2 !! np = Some j' ∧ 0 ≤ live_bytes j' ≤ live_bytes j ∧
    mkPackInfo (live_bytes j' + loc_record_len cur) (p_state j') = moved_to_info cur np i j) as (j' & Hj' & Hjb & Ej).
  { rewrite Ei2. unfold moved_to_info. case_decide as E.
    - rewrite E, Hj in Hi. simplify_eq. exists (moved_from_info cur i). rewrite lookup_insert_eq. cbn. split_and!; [done|lia|lia|done].
    - exists j. rewrite lookup_insert_ne by done. split_and!; try done; lia. }
  eapply spec_bind; [apply (add_live_spec np _ t2 R j'); [done|lia|]|].
  { intros r. destruct (HR r) as (_ & _ & _ & R4). specialize (R4 np j Hj). unfold HEADER_LEN, u32_max in *. lia. }
  intros [] t3 [Hlt ->]. apply spec_ret. rewrite Ej. set (t3 := set_packs _ t2).
  assert (live_bytes (moved_to_info cur np i j) < u64_max) as Hto by (rewrite <- Ej; cbn; lia).
  assert (infos t3 = moved_infos t cur np i j) as Ei.
  { unfold moved_infos. rewrite <- Ei2. apply (infos_put _ _ t2); [done|]. rewrite <- Ej. unfold info_ok, in_u64. cbn. lia. }
  split_and!.
  - by eapply (moved_inv t V id cur np no i j).
  - split; [done| |intros p; rewrite Ei; by apply moved_states|done]. intros x lx. change (rows t3) with (rows t1).
    rewrite Er, lookup_insert_Some. intros [[<- <-]|[Hne Hx]]; [right|left; by exists lx].
    split; [right; exists cur; by split|]. eexists. split; [|done]. destruct Hcont as (? & ? & ?). by split_and!.
  - change (rows t3) with (rows t1). rewrite Er. apply dom_insert_lookup_L. by rewrite Hid.
  - intros r. by apply (moved_room t V id cur np no i j HI Hid Hi Hj t3 n); [..|apply HR].
Qed.

(** ** What a file holds *)

(** The length and the blocks of a file are what its segments say. *)
Lemma Manifest_inj t f L L' ids ids' : Manifest bs t f L ids → Manifest bs t f L' ids' → L = L' ∧ ids = ids'.
Proof using Hbs.
  intros H1 H2.
  assert (∀ l i, Manifest bs t f l i → files_len f t = Ok (Some l, t)) as HL.
  { intros l i [Hok Ht]. unfold files_len, mbind, TM_bind, tread, segment.
    rewrite Ht, (seg_row_in bs); [by rewrite file_len_head by apply Hok|done|]. destruct (file_segments bs Hbs l i Hok). lia. }
  pose proof (HL _ _ H1) as E1. rewrite (HL _ _ H2) in E1. simplify_eq. split; [done|].
  assert (len ids = len ids') as El by (destruct H1 as [(_ & _ & -> & _) _], H2 as [(_ & _ & -> & _) _]; done).
  set (z := replicate (length ids) 0). assert (len z = len ids) as Ez by (unfold len, z; by rewrite length_replicate).
  assert (Forall in_u64 z) as Hz by (by apply Forall_replicate). pose proof (len_nonneg z).
  destruct (set_slots_list bs Hbs t f L ids 0 z H1) as (t1 & Et1 & _); [lia|lia|done|].
  destruct (set_slots_list bs Hbs t f L ids' 0 z H2) as (t2 & Et2 & _); [lia|lia|done|].
  rewrite Et1 in Et2. simplify_eq.
  match goal with H : mem_get ids 0 (len z) = _ |- _ => revert H end. unfold mem_get. rewrite !Z2Nat.inj_0, !drop_0, Ez.
  rewrite El at 2. unfold len. rewrite !Nat2Z.id, !firstn_all. done.
Qed.

Lemma Manifest_NoFile t f L ids : Manifest bs t f L ids → ¬ NoFile t f.
Proof using Hbs.
  intros [Hok Ht] HN. specialize (HN 0). rewrite Ht, (seg_row_in bs) in HN; [done|done|].
  destruct (file_segments bs Hbs L ids Hok). lia.
Qed.

(** A file's length and the hashes of its blocks, [None] where one is missing. *)
Definition hashes_in (t : Tables) (ids : list Z) : list (option bytes) := (λ id, l_hash <$> rows t !! id) <$> ids.
Definition holds (t : Tables) (f : bytes) (o : option (Z * list (option bytes))) : Prop :=
  match o with
  | Some (L, hs) => ∃ ids, Manifest bs t f L ids ∧ hs = hashes_in t ids
  | None => NoFile t f
  end.

(** A block that is in a slot before and after a transaction is the same block. *)
Lemma hash_kept S t t' V V' id :
  IdxInv bs t V [] [] [] → evolves S t t' → keeps_used V' t t' → id ∈ all_slots V → id ∈ all_slots V' →
  l_hash <$> rows t' !! id = l_hash <$> rows t !! id.
Proof.
  intros HI Hev Hk Hs Hs'. pose proof (iv_slots _ _ _ _ _ _ HI id Hs) as Hlt. apply cnt_pos in Hs'. fold (refs V' id) in Hs'.
  destruct (rows t !! id) as [l|] eqn:Hl.
  - destruct (Hk id (ex_intro _ l Hl) Hs') as [l' Hl']. rewrite Hl'. cbn. f_equal.
    destruct (ev_rows _ _ _ Hev id l' Hl') as [(l0 & Hl0 & E)|([?|(l0 & Hl0 & E)] & _)]; [|lia|].
    + apply same_record_content in E as (_ & _ & E). congruence.
    + destruct E as (_ & _ & E). congruence.
  - destruct (rows t' !! id) as [l'|] eqn:Hl'; [|done]. exfalso.
    destruct (ev_rows _ _ _ Hev id l' Hl') as [(l0 & Hl0 & E)|([?|(l0 & Hl0 & E)] & _)]; [congruence|lia|congruence].
Qed.

Lemma missing_row t V inc dec keep : IdxInv bs t V inc dec keep → rows t !! MISSING = None.
Proof.
  intros HI. destruct (rows t !! MISSING) eqn:E; [|done]. destruct (iv_row _ _ _ _ _ _ HI _ _ E) as (_ & ? & _). unfold MISSING in *. lia.
Qed.

Lemma holds_view t V f o :
  Files bs t V → holds t f o →
  match o with Some (L, hs) => ∃ ids, V !! f = Some (L, ids) ∧ hs = hashes_in t ids | None => V !! f = None end.
Proof using Hbs.
  intros HF. specialize (HF f). destruct o as [[L hs]|]; cbn.
  - intros (ids & HM & ->). destruct (V !! f) as [[L' ids']|].
    + destruct (Manifest_inj _ _ _ _ _ _ HM HF) as [-> ->]. by exists ids'.
    + by destruct (Manifest_NoFile _ _ _ _ HM).
  - intros HN. destruct (V !! f) as [[L' ids']|]; [by destruct (Manifest_NoFile _ _ _ _ HF)|done].
Qed.
Lemma holds_fun t f o o' : holds t f o → holds t f o' → o = o'.
Proof using Hbs.
  destruct o as [[L hs]|], o' as [[L' hs']|]; cbn; [|..|done].
  - intros (ids & H1 & ->) (ids' & H2 & ->). by destruct (Manifest_inj _ _ _ _ _ _ H1 H2) as [-> ->].
  - intros (ids & H1 & _) H2. by destruct (Manifest_NoFile _ _ _ _ H1).
  - intros H2 (ids & H1 & _). by destruct (Manifest_NoFile _ _ _ _ H1).
Qed.
Lemma view_holds t V f :
  Files bs t V → holds t f (match V !! f with Some (L, ids) => Some (L, hashes_in t ids) | None => None end).
Proof. intros HF. specialize (HF f). destruct (V !! f) as [[L ids]|]; [by exists ids|done]. Qed.

(** A transaction leaves a file alone whose segments it keeps. *)
Lemma holds_kept S t t' V V' f o :
  IdxInv bs t V [] [] [] → IdxInv bs t' V' [] [] [] → evolves S t t' → keeps_used V' t t' → V' !! f = V !! f →
  holds t f o → holds t' f o.
Proof using Hbs.
  intros HI HI' Hev Hk Ef Ho. apply (holds_view t V) in Ho; [|apply HI]. pose proof (iv_files _ _ _ _ _ _ HI' f) as H2. rewrite Ef in H2.
  destruct o as [[L hs]|]; [|by rewrite Ho in H2]. destruct Ho as (ids & Hf & ->). rewrite Hf in H2, Ef. exists ids. split; [done|].
  unfold hashes_in. apply list_fmap_ext. intros i id Hi. symmetry. apply list_elem_of_lookup_2 in Hi.
  eapply hash_kept; [done|done|done| |]; apply elem_all_slots; by exists f, L, ids.
Qed.

Lemma holds_same t t' V f o :
  Files bs t V → Files bs t' V → rows t' = rows t → holds t f o → holds t' f o.
Proof using Hbs.
  intros H1 H2 Er Ho. apply (holds_view t V) in Ho; [|done]. specialize (H2 f). destruct o as [[L hs]|]; [|by rewrite Ho in H2].
  destruct Ho as (ids & Hf & ->). rewrite Hf in H2. exists ids. split; [done|]. unfold hashes_in. by rewrite Er.
Qed.

(** What a file holds after [set_len] and after a write. *)
Definition resized (nl : Z) (o : option (Z * list (option bytes))) : Z * list (option bytes) :=
  (nl, match o with
       | Some (ol, hs) => resize (Z.to_nat (block_count nl bs)) None (if last_changes bs ol nl then <[last_index bs ol nl := None]> hs else hs)
       | None => replicate (Z.to_nat (block_count nl bs)) None
       end).

Definition put_at {A} (l : list A) (off : Z) (d : list A) : list A :=
  take (Z.to_nat off) l ++ d ++ drop (Z.to_nat (off + len d)) l.

Lemma hashes_resize t t' ol nl ids :
  rows t' !! MISSING = None → (∀ id, id ∈ resize_ids bs ol nl ids → id ∈ ids → l_hash <$> rows t' !! id = l_hash <$> rows t !! id) →
  hashes_in t' (resize_ids bs ol nl ids) = (resized nl (Some (ol, hashes_in t ids))).2.
Proof.
  intros Hm Hk. cbn. apply list_eq. intros i. unfold hashes_in. rewrite list_lookup_fmap. unfold resize_ids in *.
  set (n := Z.to_nat (block_count nl bs)) in *. set (cut := cut_last bs ol nl ids) in *.
  set (hs := (λ id, l_hash <$> rows t !! id) <$> ids). set (cuth := if last_changes bs ol nl then <[last_index bs ol nl := None]> hs else hs).
  assert (length cuth = length cut) as El.
  { unfold cuth, cut, cut_last, hs. destruct (last_changes bs ol nl); rewrite ?length_insert, ?length_fmap; done. }
  destruct (decide (i < n)%nat) as [Hi|Hi].
  2:{ rewrite !lookup_ge_None_2; [done| |]; rewrite length_resize; lia. }
  destruct (decide (i < length cut)%nat) as [Hc|Hc].
  2:{ rewrite !lookup_resize_new by lia. cbn. by rewrite Hm. }
  rewrite !lookup_resize by lia.
  assert (∀ id, cut !! i = Some id → id ∈ resize n MISSING cut) as Hin.
  { intros id E. apply (list_elem_of_lookup_2 _ i). rewrite lookup_resize by lia. done. }
  unfold cuth, cut, cut_last in *. destruct (last_changes bs ol nl) eqn:Elc.
  - destruct (decide (i = last_index bs ol nl)) as [->|Hne].
    + rewrite length_insert in Hc. rewrite !list_lookup_insert_eq by (unfold hs; rewrite ?length_fmap; lia). cbn. by rewrite Hm.
    + rewrite list_lookup_insert_ne in Hin |- * by done. rewrite list_lookup_insert_ne by done. unfold hs. rewrite list_lookup_fmap.
      destruct (ids !! i) as [id|] eqn:E; [|done]. cbn. f_equal. apply Hk; [by apply Hin|by eapply list_elem_of_lookup_2].
  - unfold hs. rewrite list_lookup_fmap. destruct (ids !! i) as [id|] eqn:E; [|done]. cbn. f_equal. apply Hk; [by apply Hin|by eapply list_elem_of_lookup_2].
Qed.

Lemma set_len_holds S t t' V f nl o :
  IdxInv bs t V [] [] [] → IdxInv bs t' (set_len_view f nl V) [] [] [] → evolves S t t' → keeps_used (set_len_view f nl V) t t' →
  holds t f o → holds t' f (Some (resized nl o)).
Proof using Hbs.
  intros HI HI' Hev Hk Ho. apply (holds_view t V) in Ho; [|apply HI]. pose proof (iv_files _ _ _ _ _ _ HI' f) as H2.
  pose proof (missing_row _ _ _ _ _ HI') as Hm. unfold set_len_view in *. rewrite lookup_insert_eq in H2.
  destruct o as [[ol hs]|].
  - destruct Ho as (ids & Hf & ->). rewrite Hf in *. exists (resize_ids bs ol nl ids). split; [done|]. symmetry. apply hashes_resize; [done|].
    intros id H1 H3. eapply hash_kept; [done|done|done| |]; apply elem_all_slots; [by exists f, ol, ids|].
    exists f, nl, (resize_ids bs ol nl ids). by rewrite lookup_insert_eq.
  - rewrite Ho in *. eexists. split; [done|]. unfold hashes_in. rewrite fmap_replicate, Hm. done.
Qed.

Lemma write_holds S t t' V f L ids first hs new old :
  IdxInv bs t V [] [] [] → IdxInv bs t' (<[f := (L, mem_put ids first new)]> V) [] [] [] → evolves S t t' →
  keeps_used (<[f := (L, mem_put ids first new)]> V) t t' → Forall2 (stored t') hs new → V !! f = Some (L, ids) →
  holds t f (Some (L, old)) → holds t' f (Some (L, put_at old first (Some <$> hs))).
Proof using Hbs.
  intros HI HI' Hev Hk Hst Hf Ho. apply (holds_view t V) in Ho as (ids' & Hf' & ->); [|apply HI]. rewrite Hf in Hf'. injection Hf' as <-.
  pose proof (iv_files _ _ _ _ _ _ HI' f) as H2. rewrite lookup_insert_eq in H2. eexists. split; [done|].
  assert (hashes_in t' new = Some <$> hs) as En.
  { unfold hashes_in. clear -Hst. induction Hst as [|h id hs new (l & Hl & <-) _ IH]; [done|]. cbn. by rewrite Hl, IH. }
  assert (∀ l, (∀ id, id ∈ l → id ∈ ids ∧ id ∈ mem_put ids first new) → hashes_in t' l = hashes_in t l) as Hsame.
  { intros l Hl. unfold hashes_in. apply list_fmap_ext. intros i id Hi%list_elem_of_lookup_2. destruct (Hl id Hi) as [H1 H3].
    eapply hash_kept; [done|done|done| |]; apply elem_all_slots; [by exists f, L, ids|]. exists f, L, (mem_put ids first new). by rewrite lookup_insert_eq. }
  pose proof (Forall2_length _ _ _ Hst) as Hl2.
  unfold mem_put, put_at in *. assert (∀ l k, hashes_in t' (l ++ k) = hashes_in t' l ++ hashes_in t' k) as Happ by (intros; apply fmap_app).
  rewrite !Happ, En.
  rewrite !Hsame.
  - unfold hashes_in, len. by rewrite fmap_take, fmap_drop, length_fmap, Hl2.
  - intros id Hid. split; [by apply subseteq_drop in Hid|]. rewrite !elem_of_app. by right; right.
  - intros id Hid. split; [by apply subseteq_take in Hid|]. rewrite !elem_of_app. by left.
Qed.

(** Where a batch of copies is. *)
Definition copies (ms : list (Z * BlockLoc * (Z * Z))) (l' : BlockLoc) : Prop :=
  ∃ id l np no, (id, l, (np, no)) ∈ ms ∧ same_record (with_place l np no) l'.

Lemma move_txn_spec t V ms R :
  IdxInv bs t V [] [] [] →
  (∀ id l np no, (id, l, (np, no)) ∈ ms → (1 ≤ id < next_id t) ∧ (∀ cur, rows t !! id = Some cur → same_content l cur) ∧
     accepts t np ∧ in_u32 np ∧ in_u64 no) →
  (R → room t (len ms)) →
  spec (move_txn ms) t R (λ _ t', IdxInv bs t' V [] [] [] ∧ evolves (copies ms) t t' ∧ dom (rows t') = dom (rows t)).
Proof.
  intros HI Hms HR. unfold move_txn. eapply spec_bind; [|intros ns t' H; apply spec_ret; exact H].
  revert t HI Hms HR. induction ms as [|[[id l] [np no]] ms IH]; intros t HI Hms HR; cbn [tmap].
  { apply spec_ret. split_and!; [done|apply evolves_refl|done]. }
  destruct (Hms id l np no (list_elem_of_here _ _)) as (Hid & Hc & Ha & Hp & Ho). pose proof (len_nonneg ms).
  eapply spec_bind; [apply (move_one_spec t V id l np no (len ms) R); try done|].
  { intros r. specialize (HR r). rewrite len_cons in HR. by rewrite Z.add_comm. }
  intros x t1 (HI1 & Hev1 & Hd1 & HR1). eapply spec_bind; [apply (IH t1 HI1); [|done]|].
  - intros id' l' np' no' Hin. destruct (Hms id' l' np' no') as (Hid' & Hc' & Ha' & ?); [by right|].
    pose proof (ev_next _ _ _ Hev1). split_and!; [lia|lia| |by eapply evolves_accepts|naive_solver|naive_solver].
    intros cur Hcur. destruct (ev_rows _ _ _ Hev1 id' cur Hcur) as [(l0 & Hl0 & E)|([?|(l0 & Hl0 & E)] & _)]; [|lia|].
    + eapply same_content_trans; [by apply Hc'|by apply same_record_content].
    + eapply same_content_trans; [by apply Hc'|done].
  - intros xs t2 (HI2 & Hev2 & Hd2). apply spec_ret. split_and!; [done| |by rewrite Hd2]. eapply evolves_trans.
    + eapply evolves_weaken; [|exact Hev1]. intros l' E. exists id, l, np, no. split; [by left|done].
    + eapply evolves_weaken; [|exact Hev2]. intros l' (id' & l0 & np' & no' & Hin & E). exists id', l0, np', no'. split; [by right|done].
Qed.
End ops.
