(* ===== verification/BlockStore.v ===== *)
(** BlockStore: the block store as threads on shared state
    (addons/crates/aether-block-store/src: pack.rs, store.rs, write.rs,
    read.rs, compact.rs, tracker.rs, config.rs).

    A thread is a program of atomic actions: a snapshot or a transaction of
    the index, an operation on a pack file, a lock. What a write to a file
    does beyond what the code decides (how much of a buffer reaches the file,
    whether it fails) is read off a list in the state. Syncing a file or a
    directory does not fail. A commit and the counters it changes are one
    action, and a panic when pack ids run out does not poison the writer's
    lock: both concern only when the next flush comes, and when 2^32 packs
    were made. The codec's and the index's counters, thread pools and logging
    are left out. *)

From S2P Require Import Prelude Seg BlockIndex.

(** ** config.rs *)

Record StoreConfig := mkStoreConfig {
  c_block_size : Z; c_max_pack_size : Z; c_write_txn_bytes : Z;
  c_auto_flush_bytes : Z; c_auto_flush_commits : Z; c_max_file_id_len : Z }.

(** [validate], less the bounds of zstd's levels, which zstd gives. *)
Definition cfg_validate (cfg : StoreConfig) : result BErr unit :=
  if negb ((4096 <=? c_block_size cfg) && (c_block_size cfg <=? Z.shiftl 16 20)) then Err Config else
  if c_max_pack_size cfg <? c_block_size cfg * 2 then Err Config else
  if c_auto_flush_commits cfg =? 0 then Err Config else
  if (c_max_file_id_len cfg =? 0) || (4096 <? c_max_file_id_len cfg) then Err Config else Ok tt.

(** ** The shared state *)

(** A pack file: what readers see, and how much of it would survive a crash. *)
Record PackFile := mkPackFile { pf_data : bytes; pf_synced : Z }.

(** [PackWriter] and [Writer]; the active pack has bytes that are still in the
    writer's buffer, and [len] counts them too. *)
Record ActivePack := mkActive { a_id : Z; a_buf : bytes; a_len : Z }.
Record Writer := mkWriter { w_active : option ActivePack; w_abandoned : option Z; w_next_pack_id : Z }.

(** What a write does next: how many bytes of the buffer reach the file, and
    whether it fails. *)
Record Fault := mkFault { f_spill : Z; f_fails : bool }.

Record Store := mkStore {
  s_tables : Tables;          (* the index as committed *)
  s_durable : Tables;         (* the last durable commit *)
  s_disk : gmap Z PackFile;
  s_writer : Writer;
  s_locked : bool;            (* the writer's lock *)
  s_compacting : bool;        (* [compact_lock] *)
  s_generation : Z;           (* the tracker *)
  s_reads : gmap Z Z;
  s_retired : list (Z * Z);
  s_unflushed : Z;
  s_unflushed_commits : Z;
  s_faults : list Fault }.

Definition with_tables x s := mkStore x (s_durable s) (s_disk s) (s_writer s) (s_locked s) (s_compacting s) (s_generation s) (s_reads s) (s_retired s) (s_unflushed s) (s_unflushed_commits s) (s_faults s).
Definition with_durable x s := mkStore (s_tables s) x (s_disk s) (s_writer s) (s_locked s) (s_compacting s) (s_generation s) (s_reads s) (s_retired s) (s_unflushed s) (s_unflushed_commits s) (s_faults s).
Definition with_files d w fl s := mkStore (s_tables s) (s_durable s) d w (s_locked s) (s_compacting s) (s_generation s) (s_reads s) (s_retired s) (s_unflushed s) (s_unflushed_commits s) fl.
Definition with_locked x s := mkStore (s_tables s) (s_durable s) (s_disk s) (s_writer s) x (s_compacting s) (s_generation s) (s_reads s) (s_retired s) (s_unflushed s) (s_unflushed_commits s) (s_faults s).
Definition with_compacting x s := mkStore (s_tables s) (s_durable s) (s_disk s) (s_writer s) (s_locked s) x (s_generation s) (s_reads s) (s_retired s) (s_unflushed s) (s_unflushed_commits s) (s_faults s).
Definition with_tracker g r s := mkStore (s_tables s) (s_durable s) (s_disk s) (s_writer s) (s_locked s) (s_compacting s) g r (s_retired s) (s_unflushed s) (s_unflushed_commits s) (s_faults s).
Definition with_retired x s := mkStore (s_tables s) (s_durable s) (s_disk s) (s_writer s) (s_locked s) (s_compacting s) (s_generation s) (s_reads s) x (s_unflushed s) (s_unflushed_commits s) (s_faults s).
Definition with_counts u c s := mkStore (s_tables s) (s_durable s) (s_disk s) (s_writer s) (s_locked s) (s_compacting s) (s_generation s) (s_reads s) (s_retired s) u c (s_faults s).

(** ** pack.rs *)

Definition next_fault (s : Store) : Fault * list Fault :=
  match s_faults s with [] => (mkFault 0 false, []) | x :: l => (x, l) end.

Definition append_file (id : Z) (b : bytes) (d : gmap Z PackFile) : gmap Z PackFile :=
  match d !! id with Some pf => <[id := mkPackFile (pf_data pf ++ b) (pf_synced pf)]> d | None => d end.
Definition sync_file (id : Z) (d : gmap Z PackFile) : gmap Z PackFile :=
  match d !! id with Some pf => <[id := mkPackFile (pf_data pf) (len (pf_data pf))]> d | None => d end.

Definition current_id (w : Writer) : option Z :=
  match w_active w with Some a => Some (a_id a) | None => w_abandoned w end.

Definition needs_new_pack (max_pack_size record_len : Z) (w : Writer) : bool :=
  match w_active w with
  | None => true
  | Some a => (0 <? a_len a) && (max_pack_size <? a_len a + record_len)
  end.

(** The file of the active pack gets [spill] of its buffered bytes, and the
    pack is abandoned: the rest of the buffer is dropped. *)
Definition abandon (a : ActivePack) (buf : bytes) (spill : Z) (w : Writer) (d : gmap Z PackFile) : Writer * gmap Z PackFile :=
  (mkWriter None (Some (a_id a)) (w_next_pack_id w), append_file (a_id a) (take (Z.to_nat spill) buf) d).

(** [append]: the record joins the buffer, some of which may be written out. *)
Definition pw_append (header payload : bytes) (s : Store) : result BErr (Z * Z) * Store :=
  let w := s_writer s in
  match w_active w with
  | None => (Err Panicked, s)
  | Some a =>
      let '(ft, fl) := next_fault s in
      let buf := a_buf a ++ header ++ payload in
      if f_fails ft then
        let '(w, d) := abandon a buf (f_spill ft) w (s_disk s) in (Err Io, with_files d w fl s)
      else
        let k := Z.to_nat (f_spill ft) in
        let a' := mkActive (a_id a) (drop k buf) (a_len a + len header + len payload) in
        (Ok (a_id a, a_len a),
         with_files (append_file (a_id a) (take k buf) (s_disk s)) (mkWriter (Some a') (w_abandoned w) (w_next_pack_id w)) fl s)
  end.

Definition flush_buffer (s : Store) : result BErr unit * Store :=
  let w := s_writer s in
  match w_active w with
  | None => (Ok tt, s)
  | Some a =>
      let '(ft, fl) := next_fault s in
      if f_fails ft then
        let '(w, d) := abandon a (a_buf a) (f_spill ft) w (s_disk s) in (Err Io, with_files d w fl s)
      else
        (Ok tt, with_files (append_file (a_id a) (a_buf a) (s_disk s))
                  (mkWriter (Some (mkActive (a_id a) [] (a_len a))) (w_abandoned w) (w_next_pack_id w)) fl s)
  end.

(** [sync]: the active pack, or else the abandoned one, is written and synced. *)
Definition sync_writer (w : Writer) (d : gmap Z PackFile) : Writer * gmap Z PackFile :=
  match w_active w, w_abandoned w with
  | Some a, _ =>
      (mkWriter (Some (mkActive (a_id a) [] (a_len a))) (w_abandoned w) (w_next_pack_id w),
       sync_file (a_id a) (append_file (a_id a) (a_buf a) d))
  | None, Some id => (w, sync_file id d)
  | None, None => (w, d)
  end.
Definition pw_sync (s : Store) : Store :=
  let '(w, d) := sync_writer (s_writer s) (s_disk s) in with_files d w (s_faults s) s.

(** [start_pack]: creating the file can fail, after the old pack is let go. *)
Definition start_pack (id : Z) (s : Store) : result BErr unit * Store :=
  let '(w, d) := sync_writer (s_writer s) (s_disk s) in
  let '(ft, fl) := next_fault s in
  if f_fails ft || bool_decide (is_Some (d !! id)) then
    (Err Io, with_files d (mkWriter None (match w_active w with Some _ => w_abandoned w | None => None end) (w_next_pack_id w)) fl s)
  else
    (Ok tt, with_files (<[id := mkPackFile [] 0]> d)
              (mkWriter (Some (mkActive id [] 0)) (match w_active w with Some _ => w_abandoned w | None => None end) (w_next_pack_id w)) fl s).

(** [read_exact_at] on a pack: the file must exist; [None] is the end of it. *)
Definition read_exact_at (id off n : Z) (d : gmap Z PackFile) : result BErr (option bytes) :=
  match d !! id with
  | None => Err Io
  | Some pf => Ok (if off + n <=? len (pf_data pf) then Some (mem_get (pf_data pf) off n) else None)
  end.

(** ** Actions *)

Inductive act : Type → Type :=
  | ARead : act Tables
  | ACommit {X} (f : TM X) : act (result BErr X)
  | ADurable {X} (f : TM X) (commits : Z) : act (result BErr X)
  | ALock : act unit
  | AUnlock : act unit
  | ACompactLock : act unit
  | ACompactUnlock : act unit
  | ANeedsNew (n : Z) : act bool
  | ANextPack : act (option Z)
  | ACurrent : act (option Z)
  | AStart (id : Z) : act (result BErr unit)
  | AAppend (header payload : bytes) : act (result BErr (Z * Z))
  | AFlush : act (result BErr unit)
  | ASync : act unit
  | AReadAt (id off n : Z) : act (result BErr (option bytes))
  | AFile (id : Z) : act (option bytes)
  | AEnter : act Z
  | ALeave (g : Z) : act unit
  | AAdvance : act Z
  | AIsClear (g : Z) : act bool
  | ATakeRetired : act (list (Z * Z))
  | APushRetired (l : list (Z * Z)) : act unit
  | ARemoveFile (id : Z) : act bool
  | ALoadCommits : act Z
  | AAddUnflushed (n : Z) : act unit
  | ADue : act bool.

Section exec.
Context (cfg : StoreConfig).

Definition auto_flush_due (s : Store) : bool :=
  (c_auto_flush_bytes cfg <=? s_unflushed s) || (c_auto_flush_commits cfg <=? s_unflushed_commits s).

(** tracker.rs *)
Definition enter (s : Store) : Z * Store :=
  let g := s_generation s in (g, with_tracker g (<[g := default 0 (s_reads s !! g) + 1]> (s_reads s)) s).
Definition leave (g : Z) (s : Store) : Store :=
  match s_reads s !! g with
  | Some n => with_tracker (s_generation s) (if n - 1 =? 0 then delete g (s_reads s) else <[g := n - 1]> (s_reads s)) s
  | None => s
  end.
Definition advance (s : Store) : Z * Store :=
  let g := s_generation s + 1 in (g, with_tracker g (s_reads s) s).
Definition is_clear_before (g : Z) (s : Store) : bool := forallb (λ e : Z * Z, g <=? e.1) (map_to_list (s_reads s)).

(** The result of an action and the state after it; [None] while a lock is
    held by another thread. *)
Definition exec {X} (a : act X) (s : Store) : option (X * Store) :=
  match a in act X return option (X * Store) with
  | ARead => Some (s_tables s, s)
  | ACommit f =>
      let '(r, t) := index_update f (s_tables s) in
      Some (r, with_counts (s_unflushed s) (match r with Ok _ => s_unflushed_commits s + 1 | Err _ => s_unflushed_commits s end) (with_tables t s))
  | ADurable f n =>
      let '(r, t) := index_update f (s_tables s) in
      Some (r, match r with
               | Ok _ => with_counts 0 (s_unflushed_commits s - n) (with_durable t (with_tables t s))
               | Err _ => s
               end)
  | ALock => if s_locked s then None else Some (tt, with_locked true s)
  | AUnlock => Some (tt, with_locked false s)
  | ACompactLock => if s_compacting s then None else Some (tt, with_compacting true s)
  | ACompactUnlock => Some (tt, with_compacting false s)
  | ANeedsNew n => Some (needs_new_pack (c_max_pack_size cfg) n (s_writer s), s)
  | ANextPack =>
      let w := s_writer s in
      if u32_max - 1 <=? w_next_pack_id w then Some (None, s) else
      Some (Some (w_next_pack_id w), with_files (s_disk s) (mkWriter (w_active w) (w_abandoned w) (w_next_pack_id w + 1)) (s_faults s) s)
  | ACurrent => Some (current_id (s_writer s), s)
  | AStart id => Some (start_pack id s)
  | AAppend h p => Some (pw_append h p s)
  | AFlush => Some (flush_buffer s)
  | ASync => Some (tt, pw_sync s)
  | AReadAt id off n => Some (read_exact_at id off n (s_disk s), s)
  | AFile id => Some (pf_data <$> s_disk s !! id, s)
  | AEnter => Some (enter s)
  | ALeave g => Some (tt, leave g s)
  | AAdvance => Some (advance s)
  | AIsClear g => Some (is_clear_before g s, s)
  | ATakeRetired => Some (s_retired s, with_retired [] s)
  | APushRetired l => Some (tt, with_retired (s_retired s ++ l) s)
  | ARemoveFile id =>
      let '(ft, fl) := next_fault s in
      Some (if f_fails ft then (false, with_files (s_disk s) (s_writer s) fl s)
            else (true, with_files (delete id (s_disk s)) (s_writer s) fl s))
  | ALoadCommits => Some (s_unflushed_commits s, s)
  | AAddUnflushed n => Some (tt, with_counts (s_unflushed s + n) (s_unflushed_commits s) s)
  | ADue => Some (auto_flush_due s, s)
  end.
End exec.

(** ** Programs *)

Inductive prog (A : Type) : Type :=
  | Ret (a : A)
  | Step {X} (x : act X) (k : X → prog A).
Arguments Ret {A} a.
Arguments Step {A X} x k.

Fixpoint prog_bind {A B} (f : A → prog B) (p : prog A) : prog B :=
  match p with Ret a => f a | Step x k => Step x (λ r, prog_bind f (k r)) end.
Definition do {X} (x : act X) : prog X := Step x (λ r, Ret r).

Declare Scope block_scope.
Open Scope block_scope.
Notation "'let*' x ':=' p 'in' q" := (prog_bind (λ x, q) p)
  (at level 200, x name, p at level 100, q at level 200) : block_scope.
(** [?]: an error ends the function. *)
Notation "'let?' x ':=' p 'in' q" := (prog_bind (λ r, match r with Ok x => q | Err e => Ret (Err e) end) p)
  (at level 200, x name, p at level 100, q at level 200) : block_scope.

Section programs.
Context `{BlockCodec} (cfg : StoreConfig).

(** ** store.rs *)

Definition unlocked {A} (r : A) : prog A := let* _ := do AUnlock in Ret r.

(** [append_records], with the writer's lock held. *)
Fixpoint append_loop (records : list (bytes * bytes)) (out : list (Z * Z)) : prog (result BErr (list (Z * Z))) :=
  match records with
  | [] => let? _ := do AFlush in Ret (Ok out)
  | (header, payload) :: records =>
      let* needs := do (ANeedsNew (len header + len payload)) in
      let? _ :=
        (if needs : bool then
           let* n := do ANextPack in
           match n with
           | None => Ret (Err Panicked)
           | Some id =>
               let* old := do ACurrent in
               let? _ := do (ACommit (register_txn old id)) in
               do (AStart id)
           end
         else Ret (Ok tt)) in
      let? loc := do (AAppend header payload) in
      append_loop records (out ++ [loc])
  end.
Definition append_records (records : list (bytes * bytes)) : prog (result BErr (list (Z * Z))) :=
  let* _ := do ALock in
  let* r := append_loop records [] in
  match r with
  | Ok out =>
      let* _ := do (AAddUnflushed (foldr (λ r n, len r.1 + len r.2 + n) 0 records)) in
      unlocked (Ok out)
  | Err e => unlocked (Err e)
  end.

Definition durable_commit_locked {X} (f : TM X) : prog (result BErr X) :=
  let* _ := do ASync in
  let* commits := do ALoadCommits in
  let* r := do (ADurable f commits) in
  unlocked r.
Definition durable_commit {X} (f : TM X) : prog (result BErr X) :=
  let* _ := do ALock in durable_commit_locked f.

Definition maybe_auto_flush : prog (result BErr unit) :=
  let* due := do (ADue) in
  if negb due then Ret (Ok tt) else
  let* _ := do ALock in
  let* due := do (ADue) in
  if negb due then unlocked (Ok tt) else durable_commit_locked (mret tt).

Definition check_id (f : bytes) : result BErr unit :=
  if c_max_file_id_len cfg <? len f then Err FileIdTooLong else Ok tt.

Definition flush : prog (result BErr unit) := durable_commit (mret tt).
(** The swap of [shut_down], which makes only the first call do anything, is
    the caller's: see [shutdown_with_token]. *)
Definition shutdown_as (value : Z) : prog (result BErr unit) := durable_commit (put_meta META_CLEAN_SHUTDOWN value).
Definition CLEAN_PLAIN : Z := 1.
Definition shutdown_with_token (token : Z) : prog (result BErr unit) :=
  if token <=? CLEAN_PLAIN then Ret (Err Config) else shutdown_as token.

Definition stat (f : bytes) : prog (result BErr (option Z)) :=
  let? _ := Ret (check_id f) in
  let* t := do ARead in
  match segment f 0 t with
  | None => Ret (Ok None)
  | Some v => Ret (match file_len v with Some n => Ok (Some n) | None => Err Panicked end)
  end.

Definition set_len (f : bytes) (len0 : Z) : prog (result BErr unit) :=
  let? _ := Ret (check_id f) in
  if negb (len_fits len0 (c_block_size cfg)) then Ret (Err OutOfRange) else
  let? _ := do (ACommit (set_len_txn (c_block_size cfg) f len0)) in
  maybe_auto_flush.

Definition delete_file (f : bytes) : prog (result BErr unit) :=
  let? _ := Ret (check_id f) in
  let? _ := do (ACommit (delete_txn (c_block_size cfg) f)) in
  maybe_auto_flush.

(** [push_range] *)
Definition push_range (out : list (Z * Z)) (r : Z * Z) : list (Z * Z) :=
  match last out with
  | Some (a, b) => if b =? r.1 then removelast out ++ [(a, r.2)] else out ++ [r]
  | None => [r]
  end.

(** ** write.rs *)

(** [data.chunks(n)] *)
Fixpoint chunks_go (fuel n : nat) (b : bytes) : list bytes :=
  match fuel, b with
  | S fuel, _ :: _ => take n b :: chunks_go fuel n (drop n b)
  | _, _ => []
  end.
Definition chunks (n : Z) (b : bytes) : list bytes := chunks_go (length b) (Z.to_nat n) b.

(** The indices of the hashes that are new to the snapshot, each hash once. *)
Fixpoint needed (t : Tables) (i : nat) (seen : list bytes) (hashes : list bytes) : list nat :=
  match hashes with
  | [] => []
  | h :: hashes =>
      if bool_decide (h ∈ seen) then needed t (S i) seen hashes
      else match dedup h t with
           | None => i :: needed t (S i) (h :: seen) hashes
           | Some _ => needed t (S i) (h :: seen) hashes
           end
  end.

(** The indices to encode: hashes without a record yet, each once. *)
Fixpoint todo (hashes : list bytes) (out : gmap bytes BlockLoc) (seen : list bytes) (need : list nat) : list nat :=
  match need with
  | [] => []
  | i :: need =>
      let h := default [] (hashes !! i) in
      if bool_decide (is_Some (out !! h)) || bool_decide (h ∈ seen) then todo hashes out seen need
      else i :: todo hashes out (h :: seen) need
  end.

(** [Codec::encode], on one thread. *)
Fixpoint encode_all (blocks hashes : list bytes) (class : WriteClass) : result BErr (list EncodedBlock) :=
  match blocks, hashes with
  | b :: blocks, h :: hashes =>
      match encode_block b h class with
      | Err e => Err e
      | Ok e => match encode_all blocks hashes class with Ok es => Ok (e :: es) | Err e => Err e end
      end
  | _, _ => Ok []
  end.

Definition record_bytes (e : EncodedBlock) : bytes * bytes := (header_encode (eb_header e), eb_payload e).
Definition loc_of (e : EncodedBlock) (at_ : Z * Z) : BlockLoc :=
  mkBlockLoc at_.1 at_.2 (h_stored_len (eb_header e)) (h_raw_len (eb_header e)) 0 (h_hash (eb_header e)).
Definition add_records (es : list EncodedBlock) (locs : list (Z * Z)) (out : gmap bytes BlockLoc) : gmap bytes BlockLoc :=
  foldl (λ m ea, <[h_hash (eb_header ea.1) := loc_of ea.1 ea.2]> m) out (zip es locs).

Definition encode_and_append (blocks hashes : list bytes) (need : list nat) (out : gmap bytes BlockLoc) (class : WriteClass) :
    prog (result BErr (gmap bytes BlockLoc)) :=
  let idx := todo hashes out [] need in
  match idx with
  | [] => Ret (Ok out)
  | _ =>
      match encode_all ((λ i, default [] (blocks !! i)) <$> idx) ((λ i, default [] (hashes !! i)) <$> idx) class with
      | Err e => Ret (Err e)
      | Ok es =>
          let? locs := append_records (record_bytes <$> es) in
          Ret (Ok (add_records es locs out))
      end
  end.

(** [new_records.remove(&hashes[i])] for the indices of [missing]. *)
Definition forget (hashes : list bytes) (missing : list nat) (m : gmap bytes BlockLoc) : gmap bytes BlockLoc :=
  foldl (λ m i, delete (default [] (hashes !! i)) m) m missing.

(** The loop of [write_chunk] and of [put_files]: append what is needed, commit,
    and again when blocks went missing meanwhile. *)
Fixpoint commit_loop (fuel : nat) (txn : gmap bytes BlockLoc → TM (option (list nat))) (blocks hashes : list bytes)
    (class : WriteClass) (need : list nat) (new_records : gmap bytes BlockLoc) : prog (result BErr unit) :=
  match fuel with
  | O => Ret (Err Diverged)
  | S fuel =>
      let? new_records := encode_and_append blocks hashes need new_records class in
      let? retry := do (ACommit (txn new_records)) in
      match retry with
      | None => Ret (Ok tt)
      | Some missing => commit_loop fuel txn blocks hashes class missing (forget hashes missing new_records)
      end
  end.

Definition write_chunk (fuel : nat) (f : bytes) (first : Z) (chunk : bytes) (class : WriteClass) : prog (result BErr unit) :=
  let bs := c_block_size cfg in
  let blocks := chunks bs chunk in
  let hashes := hash128 <$> blocks in
  let* t := do ARead in
  commit_loop fuel (write_txn bs f first (len chunk) hashes) blocks hashes class (needed t 0 [] hashes) ∅.

Fixpoint write_chunks (fuel : nat) (f : bytes) (first : Z) (class : WriteClass) (done : Z) (cs : list bytes) : prog (result BErr unit) :=
  match cs with
  | [] => Ret (Ok tt)
  | c :: cs =>
      let* r := write_chunk fuel f (first + done) c class in
      match r with
      | Ok _ =>
          let done := done + div_ceil (len c) (c_block_size cfg) in
          let* r := maybe_auto_flush in
          match r with
          | Ok _ => write_chunks fuel f first class done cs
          | Err e => Ret (Err (if done =? 0 then e else PartialWrite done e))
          end
      | Err e => Ret (Err (if done =? 0 then e else PartialWrite done e))
      end
  end.

Definition write_blocks_as (fuel : nat) (f : bytes) (first : Z) (data : bytes) (class : WriteClass) : prog (result BErr unit) :=
  let bs := c_block_size cfg in
  let? _ := Ret (check_id f) in
  let? l := stat f in
  match l with
  | None => Ret (Err NotFound)
  | Some len0 =>
      match validate_write len0 bs first (len data) with
      | Err e => Ret (Err e)
      | Ok _ => write_chunks fuel f first class 0 (chunks (Z.max (c_write_txn_bytes cfg / bs) 1 * bs) data)
      end
  end.

(** [put_files]: the checks, then the same loop over the blocks of all files. *)
Fixpoint put_files_check (seen : list bytes) (files : list (bytes * bytes)) : result BErr unit :=
  match files with
  | [] => Ok tt
  | (id, data) :: files =>
      match check_id id with
      | Err e => Err e
      | Ok _ =>
          if negb (len_fits (len data) (c_block_size cfg)) then Err OutOfRange else
          if bool_decide (id ∈ seen) then Err Config else put_files_check (id :: seen) files
      end
  end.
Fixpoint block_starts (n : Z) (files : list (bytes * bytes)) : list Z :=
  match files with [] => [n] | (_, data) :: files => n :: block_starts (n + len (chunks (c_block_size cfg) data)) files end.
Definition put_files (fuel : nat) (files : list (bytes * bytes)) (class : WriteClass) : prog (result BErr unit) :=
  let bs := c_block_size cfg in
  let? _ := Ret (put_files_check [] files) in
  let blocks := flat_map (λ fd, chunks bs fd.2) files in
  let hashes := hash128 <$> blocks in
  let* t := do ARead in
  let? _ := commit_loop fuel (put_files_txn bs files hashes (block_starts 0 files)) blocks hashes class (needed t 0 [] hashes) ∅ in
  maybe_auto_flush.

(** ** read.rs *)

Definition heal (id : Z) (l : BlockLoc) : prog (result BErr unit) :=
  let? _ := do (ACommit (heal_txn id l)) in Ret (Ok tt).

(** A record read at [l] and checked against it. *)
Definition check_record (l : BlockLoc) (r : option bytes) : result Reason (RecordHeader * bytes) :=
  match r with
  | None => Err RecordTruncated
  | Some rb =>
      match header_decode (take (Z.to_nat HEADER_LEN) rb) with
      | Err e => Err e
      | Ok h =>
          if negb (h_stored_len h =? l_stored_len l) || negb (h_raw_len h =? l_raw_len l) || negb (bool_decide (h_hash h = l_hash l))
          then Err RecordDoesNotMatchIndex else Ok (h, drop (Z.to_nat HEADER_LEN) rb)
      end
  end.

(** The block of a record that was read: what the caller copies from. *)
Definition decode_record (l : BlockLoc) (r : option bytes) : result Reason bytes :=
  match check_record l r with Err e => Err e | Ok (h, payload) => decode_payload h payload (h_raw_len h) end.

(** [read_block_into]: bytes [skip, skip + n) of the block, or [None] after healing. *)
Definition read_block_into (id : Z) (l : BlockLoc) (skip n : Z) : prog (result BErr (option bytes)) :=
  if l_raw_len l <? skip + n then Ret (Err Corrupt) else
  let? r := do (AReadAt (l_pack l) (l_offset l) (loc_record_len l)) in
  match decode_record l r with
  | Ok d => Ret (Ok (Some (mem_get d skip n)))
  | Err _ => let? _ := heal id l in Ret (Ok None)
  end.

(** The loop of [read] over the blocks: what is in the buffer, and the ranges
    that are missing. *)
Fixpoint read_loop (t : Tables) (f : bytes) (len0 offset end_ : Z) (seg_no : Z) (seg : bytes) (bks : list Z)
    (buf : bytes) (missing : list (Z * Z)) : prog (result BErr (bytes * list (Z * Z))) :=
  let bs := c_block_size cfg in
  match bks with
  | [] => Ret (Ok (buf, missing))
  | b :: bks =>
      let want := as_u32 (b / BLOCKS_PER_SEGMENT) in
      match (if want =? seg_no then Some seg else segment f want t) with
      | None => Ret (Err Corrupt)
      | Some seg =>
          match slot seg want (b mod BLOCKS_PER_SEGMENT) with
          | None => Ret (Err Panicked)
          | Some id =>
              let block_start := b * bs in
              let block_end := Z.min len0 (block_start + bs) in
              let from := Z.max offset block_start in
              let to := Z.min end_ block_end in
              let? found := (match (if id =? MISSING then None else block id t) with
                             | Some l => read_block_into id l (from - block_start) (to - from)
                             | None => Ret (Ok None)
                             end) in
              match found with
              | Some d => read_loop t f len0 offset end_ want seg bks (mem_put buf (from - offset) d) missing
              | None => read_loop t f len0 offset end_ want seg bks buf (push_range missing (block_start, block_end))
              end
          end
      end
  end.

(** [read]: the number of bytes, the buffer and the missing ranges. *)
Definition read (f : bytes) (offset : Z) (buf : bytes) : prog (result BErr (Z * bytes * list (Z * Z))) :=
  let? _ := Ret (check_id f) in
  let* g := do AEnter in
  let* t := do ARead in
  let* r :=
    match segment f 0 t with
    | None => Ret (Err NotFound)
    | Some seg0 =>
        match file_len seg0 with
        | None => Ret (Err Panicked)
        | Some len0 =>
            if (len0 <=? offset) || (len buf =? 0) then Ret (Ok (0, buf, [])) else
            let end_ := Z.min len0 (offset + len buf) in
            let bs := c_block_size cfg in
            let? bm := read_loop t f len0 offset end_ 0 seg0 (range (offset / bs) ((end_ - 1) / bs + 1)) buf [] in
            Ret (Ok (end_ - offset, bm.1, bm.2))
        end
    end in
  let* _ := do (ALeave g) in
  Ret r.

(** ** compact.rs *)

Record Scanned := mkScanned { sc_offset : Z; sc_header : RecordHeader; sc_bytes : bytes }.
Record LiveRecord := mkLive { lr_id : Z; lr_loc : BlockLoc; lr_bytes : bytes }.

Definition split_record (b : bytes) : bytes * bytes := (take (Z.to_nat HEADER_LEN) b, drop (Z.to_nat HEADER_LEN) b).

(** Copies of live records take their places. *)
Definition move_records (live : list LiveRecord) : prog (result BErr Z) :=
  match live with
  | [] => Ret (Ok 0)
  | _ =>
      let? locs := append_records ((λ l, split_record (lr_bytes l)) <$> live) in
      do (ACommit (move_txn (zip ((λ l, (lr_id l, lr_loc l)) <$> live) locs)))
  end.

(** [move_scanned] over the snapshot [t]. *)
Fixpoint keep_live (t : Tables) (p : Z) (scanned : list Scanned) (live : list LiveRecord) : prog (result BErr (list LiveRecord)) :=
  match scanned with
  | [] => Ret (Ok live)
  | s :: scanned =>
      match (id ← dedup (h_hash (sc_header s)) t; l ← block id t; Some (id, l)) with
      | None => keep_live t p scanned live
      | Some (id, l) =>
          if negb (l_pack l =? p) || negb (l_offset l =? sc_offset s) then keep_live t p scanned live else
          if negb (checksum (drop (Z.to_nat HEADER_LEN) (sc_bytes s)) =? h_checksum (sc_header s)) ||
             negb (h_stored_len (sc_header s) =? l_stored_len l)
          then let? _ := heal id l in keep_live t p scanned live
          else keep_live t p scanned (live ++ [mkLive id l (sc_bytes s)])
      end
  end.
Definition move_scanned (p : Z) (scanned : list Scanned) : prog (result BErr Z) :=
  let* t := do ARead in
  let? live := keep_live t p scanned [] in
  move_records live.

(** The sequential scan of a pack's bytes, in batches; it stops at the first
    unreadable header. A record has at least a header, so [length data] rounds
    are enough. *)
Fixpoint scan_pack (fuel : nat) (p : Z) (data : bytes) (offset : Z) (batch : list Scanned) (batch_bytes moved : Z) : prog (result BErr Z) :=
  match fuel with
  | O => Ret (Err Diverged)
  | S fuel =>
      let finish := (let? m := move_scanned p batch in Ret (Ok (moved + m))) in
      if len data <? offset + HEADER_LEN then finish else
      match header_decode (mem_get data offset HEADER_LEN) with
      | Err _ => finish
      | Ok h =>
          if len data <? offset + header_record_len h then finish else
          let b := mem_get data offset (header_record_len h) in
          let batch := batch ++ [mkScanned offset h b] in
          let batch_bytes := batch_bytes + len b in
          let offset := offset + header_record_len h in
          if c_write_txn_bytes cfg <=? batch_bytes then
            let? m := move_scanned p batch in scan_pack fuel p data offset [] 0 (moved + m)
          else scan_pack fuel p data offset batch batch_bytes moved
      end
  end.

(** [for_each_block] in the order of the ids, the rows of one pack. *)
Definition pack_rows (t : Tables) (p : Z) : list (Z * BlockLoc) :=
  filter (λ e, l_pack e.2 = p) ((λ e : Z * bytes, (e.1, loc_decode e.2)) <$> merge_sort id_le (map_to_list (t_blocks t))).

Fixpoint read_live (p : Z) (locs : list (Z * BlockLoc)) (live : list LiveRecord) : prog (result BErr (list LiveRecord)) :=
  match locs with
  | [] => Ret (Ok live)
  | (id, l) :: locs =>
      let? r := do (AReadAt p (l_offset l) (loc_record_len l)) in
      let ok := match r with
                | None => None
                | Some b =>
                    match header_decode (take (Z.to_nat HEADER_LEN) b) with
                    | Ok h =>
                        if bool_decide (h_hash h = l_hash l) && (h_stored_len h =? l_stored_len l) &&
                           (checksum (drop (Z.to_nat HEADER_LEN) b) =? h_checksum h)
                        then Some b else None
                    | Err _ => None
                    end
                end in
      match ok with
      | Some b => read_live p locs (live ++ [mkLive id l b])
      | None => let? _ := heal id l in read_live p locs live
      end
  end.

(** [locs.chunks(256)] *)
Fixpoint chunk_list {A} (fuel n : nat) (l : list A) : list (list A) :=
  match fuel, l with
  | S fuel, _ :: _ => take n l :: chunk_list fuel n (drop n l)
  | _, _ => []
  end.
Fixpoint evacuate (p : Z) (cs : list (list (Z * BlockLoc))) (moved : Z) : prog (result BErr Z) :=
  match cs with
  | [] => Ret (Ok moved)
  | c :: cs => let? live := read_live p c [] in let? m := move_records live in evacuate p cs (moved + m)
  end.
Definition evacuate_by_index (p : Z) : prog (result BErr Z) :=
  let* t := do ARead in
  let locs := pack_rows t p in
  evacuate p (chunk_list (length locs) 256 locs) 0.

Definition compact_pack (p : Z) : prog (result BErr Z) :=
  let* data := do (AFile p) in
  match data with
  | None => Ret (Err Io)
  | Some data =>
      let? moved := scan_pack (S (length data)) p data 0 [] 0 0 in
      let* t := do ARead in
      let? moved := (if match pack p t with Some i => negb (live_bytes i =? 0) | None => false end
                     then let? m := evacuate_by_index p in Ret (Ok (moved + m)) else Ret (Ok moved)) in
      let? retired := durable_commit (retire_txn p) in
      if negb retired then Ret (Ok moved) else
      let* g := do AAdvance in
      let* _ := do (APushRetired [(p, g)]) in
      Ret (Ok moved)
  end.

(** Retired packs that no running read can reference are deleted; the others,
    and those whose file could not be deleted, are kept. *)
Fixpoint delete_loop (pending keep : list (Z * Z)) : prog (result BErr unit) :=
  match pending with
  | [] => let* _ := do (APushRetired keep) in Ret (Ok tt)
  | (p, g) :: pending =>
      let* clear := do (AIsClear g) in
      if negb clear then delete_loop pending (keep ++ [(p, g)]) else
      let* removed := do (ARemoveFile p) in
      if negb removed then delete_loop pending (keep ++ [(p, g)]) else
      let* r := do (ACommit (remove_pack p)) in
      match r with
      | Ok _ => delete_loop pending keep
      | Err e => let* _ := do (APushRetired (keep ++ [(p, g)] ++ pending)) in Ret (Err e)
      end
  end.
Definition delete_retired : prog (result BErr unit) :=
  let* pending := do ATakeRetired in delete_loop pending [].

(** [compact]: [chosen] is what the garbage ratios, computed in floating
    point, choose and order of the sealed packs of the snapshot. *)
Definition sealed_packs (t : Tables) : list Z :=
  fst <$> filter (λ e, p_state e.2 = Sealed) (packs t).
Fixpoint compact_each (ps : list Z) : prog (result BErr unit) :=
  match ps with [] => Ret (Ok tt) | p :: ps => let? _ := compact_pack p in compact_each ps end.
Definition compact (chosen : list Z → list Z) : prog (result BErr unit) :=
  let* _ := do ACompactLock in
  let* r :=
    (let? _ := delete_retired in
     let* t := do ARead in
     let? _ := compact_each (chosen (sealed_packs t)) in
     delete_retired) in
  let* _ := do ACompactUnlock in
  Ret r.
End programs.

(** ** store.rs: opening *)

Record Recovered := mkRecovered { rc_resume : option Z; rc_next_pack_id : Z; rc_previous_shutdown : Z }.

Definition pop_fault (fl : list Fault) : Fault * list Fault := match fl with [] => (mkFault 0 false, []) | x :: l => (x, l) end.

(** The rows of [packs], in the order of the ids; [on_disk] are the files as
    they were listed. *)
Fixpoint recover_packs (on_disk : gset Z) (ps : list (Z * PackInfo)) (fl : list Fault) (d : gmap Z PackFile) (t : Tables)
    (active : list Z) : result BErr (list Fault * gmap Z PackFile * Tables * list Z) :=
  match ps with
  | [] => Ok (fl, d, t, active)
  | (id, info) :: ps =>
      let without := set_packs (delete id (t_packs t)) t in
      match p_state info with
      | Retired =>
          let '(ft, fl) := pop_fault fl in
          if f_fails ft then recover_packs on_disk ps fl d t active
          else recover_packs on_disk ps fl (delete id d) without active
      | st =>
          if bool_decide (id ∈ on_disk) then
            recover_packs on_disk ps fl d t (if bool_decide (st = Active) then active ++ [id] else active)
          else if live_bytes info =? 0 then recover_packs on_disk ps fl d without active
          else Err Corrupt
      end
  end.

(** Files without a row are deleted, those that can be. *)
Fixpoint remove_orphans (ids : list Z) (fl : list Fault) (d : gmap Z PackFile) : list Fault * gmap Z PackFile :=
  match ids with
  | [] => (fl, d)
  | id :: ids => let '(ft, fl) := pop_fault fl in remove_orphans ids fl (if f_fails ft then d else delete id d)
  end.

Definition seal (id : Z) : TM unit :=
  i ← tread (pack id); info ← tor Panicked i; put_pack id (mkPackInfo (live_bytes info) Sealed).

Definition recover (cfg : StoreConfig) (fl : list Fault) (d : gmap Z PackFile) (t : Tables) :
    result BErr (Recovered * list Fault * gmap Z PackFile * Tables) :=
  let t := match meta META_BLOCK_SIZE t with
           | None => set_meta (<[META_SCHEMA_VERSION := SCHEMA_VERSION]> (<[META_BLOCK_SIZE := c_block_size cfg]> (t_meta t))) t
           | Some _ => t
           end in
  if negb (bool_decide (meta META_BLOCK_SIZE t = Some (c_block_size cfg))) then Err Config else
  if negb (bool_decide (meta META_SCHEMA_VERSION t = Some SCHEMA_VERSION)) then Err Config else
  let previous := default 0 (meta META_CLEAN_SHUTDOWN t) in
  let t := set_meta (<[META_CLEAN_SHUTDOWN := 0]> (t_meta t)) t in
  let on_disk : gset Z := dom d in
  let ps := packs t in
  match recover_packs on_disk ps fl d t [] with
  | Err e => Err e
  | Ok (fl, d, t, active) =>
      let registered : list Z := ps.*1 in
      let '(fl, d) := remove_orphans (filter (λ id, id ∉ registered) (elements on_disk)) fl d in
      let resume := if previous =? 0 then None else last active in
      let rest := if previous =? 0 then active else removelast active in
      match titer seal rest t with
      | Err e => Err e
      | Ok (_, t) =>
          let max_seen := foldr Z.max 0 (registered ++ elements on_disk) in
          let next := Z.max (as_u32 (default 1 (meta META_NEXT_PACK_ID t))) (max_seen + 1) in
          Ok (mkRecovered resume next previous, fl, d, t)
      end
  end.

(** [open] of a directory whose files are [d] and whose index is [t]. *)
Definition open_store (cfg : StoreConfig) (fl : list Fault) (d : gmap Z PackFile) (t : Tables) : result BErr Store :=
  match cfg_validate cfg with
  | Err e => Err e
  | Ok _ =>
      match recover cfg fl d t with
      | Err e => Err e
      | Ok (rc, fl, d, t) =>
          let active := match rc_resume rc with
                        | None => Ok None
                        | Some id => match d !! id with Some pf => Ok (Some (mkActive id [] (len (pf_data pf)))) | None => Err Io end
                        end in
          match active with
          | Err e => Err e
          | Ok a => Ok (mkStore t t d (mkWriter a None (rc_next_pack_id rc)) false false 0 ∅ [] 0 0 fl)
          end
      end
  end.

Definition empty_tables : Tables := mkTables ∅ ∅ ∅ ∅ ∅.

(** A crash: the index is the last durable commit, and of every file at least
    what was synced is left. *)
Definition torn (pf pf' : PackFile) : Prop :=
  ∃ n, pf_synced pf ≤ n ∧ pf_data pf' = take (Z.to_nat n) (pf_data pf) ∧ pf_synced pf' = len (pf_data pf').
Definition crashed (s : Store) (d : gmap Z PackFile) : Prop := map_relation (λ _, torn) (λ _ _, False) (λ _ _, False) (s_disk s) d.
