(* ===== verification/BlockSafe.v ===== *)
(** BlockSafe: the block store keeps every block, whatever its threads do.

    [SInv] is what holds of the shared state between any two actions: the
    index and its last durable commit are consistent, and every row of either
    is at a record in a file that decodes to a block with the row's hash, for
    the durable commit in the synced part of it. [wp] specifies a program
    against the interference of other threads: [rely] is what they leave
    alone, by the locks and the read guard this thread holds. *)

From S2P Require Import Prelude Seg BlockIndex BlockProps BlockInv BlockStore.

Section safe.
Context `{BC : BlockCodec} `{BCO : !BlockCodecOk} (cfg : StoreConfig) (U : bytes → Prop).
Local Abbreviation bs := (c_block_size cfg).
Context (Hbs : 0 < bs) (Hbs32 : bs < u32_max).

(** ** Records *)

(** [b] is a record of the block [d] for a row [l]. *)
Definition is_record (l : BlockLoc) (d b : bytes) : Prop :=
  len b = loc_record_len l ∧ decode_record l (Some b) = Ok d ∧ hash128 d = l_hash l ∧ len d = l_raw_len l ∧ U d.

Lemma is_record_content l l' d b : same_content l l' → is_record l d b → is_record l' d b.
Proof.
  intros (E1 & E2 & E3). unfold is_record, decode_record, check_record, loc_record_len. by rewrite E1, E2, E3.
Qed.

Definition at_disk (d : gmap Z PackFile) (p off : Z) (b : bytes) : Prop :=
  ∃ pf, d !! p = Some pf ∧ 0 ≤ off ∧ off + len b ≤ len (pf_data pf) ∧ mem_get (pf_data pf) off (len b) = b.

Definition row_stored (d : gmap Z PackFile) (l : BlockLoc) : Prop :=
  ∃ blk b, at_disk d (l_pack l) (l_offset l) b ∧ is_record l blk b.

(** ** The state's invariant *)

(** The state, with what only the proof keeps: the generation of the tracker
    when a pack was retired, and a bound on the packs that were registered. *)
Record World := mkWorld { x_s : Store; x_gens : gmap Z Z; x_next : Z }.

Definition tb (w : World) : Tables := s_tables (x_s w).
Definition du (w : World) : Tables := s_durable (x_s w).
Definition dk (w : World) : gmap Z PackFile := s_disk (x_s w).
Definition wr (w : World) : Writer := s_writer (x_s w).
Definition pack_state (t : Tables) (p : Z) : option PackState := p_state <$> infos t !! p.

(** What of the files a crash leaves. *)
Definition synced_disk (d : gmap Z PackFile) : gmap Z PackFile :=
  (λ pf, mkPackFile (take (Z.to_nat (pf_synced pf)) (pf_data pf)) (pf_synced pf)) <$> d.

(** A pack no row is in, now or after a crash, for ever. *)
Definition gone (p : Z) (w : World) : Prop := p < x_next w ∧ ¬ accepts (tb w) p ∧ ¬ accepts (du w) p.

Definition meta_ok (t : Tables) : Prop := meta META_BLOCK_SIZE t = Some bs ∧ meta META_SCHEMA_VERSION t = Some SCHEMA_VERSION.

Record SInv (w : World) : Prop := mkSInv {
  si_idx : ∃ V, IdxInv bs (tb w) V [] [] [];
  si_rows id l : rows (tb w) !! id = Some l → row_stored (dk w) l;
  si_didx : ∃ V, IdxInv bs (du w) V [] [] [];
  si_drows id l : rows (du w) !! id = Some l → row_stored (synced_disk (dk w)) l;
  si_files p pf : dk w !! p = Some pf → 0 ≤ p < x_next w ∧ 0 ≤ pf_synced pf ≤ len (pf_data pf) ∧
    (current_id (wr w) ≠ Some p → pf_synced pf = len (pf_data pf));
  si_infos p : is_Some (infos (tb w) !! p) ∨ is_Some (infos (du w) !! p) → 0 ≤ p < x_next w;
  si_next : 1 ≤ x_next w ≤ w_next_pack_id (wr w) ∧ w_next_pack_id (wr w) < u32_max;
  si_writer a : w_active (wr w) = Some a → w_abandoned (wr w) = None ∧ a_id a < x_next w ∧
    ((∃ pf, dk w !! a_id a = Some pf ∧ a_len a = len (pf_data pf) + len (a_buf a)) ∨ ¬ accepts (tb w) (a_id a));
  si_active : s_locked (x_s w) = false → ∀ p, current_id (wr w) = Some p → pack_state (tb w) p = Some Active;
  si_reads g n : s_reads (x_s w) !! g = Some n → 0 < n ∧ g ≤ s_generation (x_s w);
  si_gens p r : x_gens w !! p = Some r → gone p w ∧ r ≤ s_generation (x_s w);
  si_retired p g : (p, g) ∈ s_retired (x_s w) → ∃ r, x_gens w !! p = Some r ∧ r < g ∧ g ≤ s_generation (x_s w);
  si_meta : meta_ok (tb w) ∧ meta_ok (du w) }.

(** ** Interference *)

(** What a thread holds: the writer's lock, the compaction lock, a read guard,
    and the files that only it changes. *)
Record Held := mkHeld { h_own : bool; h_comp : bool; h_guard : option Z; h_files : gset bytes }.

(** No read that began before generation [g] is still running. *)
Definition clear (g : Z) (w : World) : Prop := ∀ g0, is_Some (s_reads (x_s w) !! g0) → g ≤ g0.

(** What every step does. *)
Record Ev (w w' : World) : Prop := mkEv {
  e_next : x_next w ≤ x_next w';
  e_dead p : p < x_next w → ¬ accepts (tb w) p → ¬ accepts (tb w') p;
  e_gone p : gone p w → gone p w';
  e_idle p : p < x_next w → pack_state (tb w) p ≠ Some Active → pack_state (tb w') p ≠ Some Active;
  e_disk p pf : dk w !! p = Some pf →
    (∃ pf', dk w' !! p = Some pf' ∧ pf_data pf `prefix_of` pf_data pf') ∨ (p < x_next w' ∧ ¬ accepts (tb w') p);
  e_ids : next_id (tb w) ≤ next_id (tb w');
  e_rows id l' : rows (tb w') !! id = Some l' → next_id (tb w) ≤ id ∨ ∃ l, rows (tb w) !! id = Some l ∧ same_content l l';
  e_gen : s_generation (x_s w) ≤ s_generation (x_s w');
  e_clear g : g ≤ s_generation (x_s w) → clear g w → clear g w';
  e_gens p r : x_gens w !! p = Some r → x_gens w' !! p = Some r }.

Definition keeps_accepting (w w' : World) : Prop := ∀ p, accepts (tb w) p → accepts (tb w') p.
(** The writer and its file are left alone, and no pack is new. *)
Record same_writer (w w' : World) : Prop := mkSameWriter {
  sw_writer : wr w' = wr w;
  sw_next : x_next w' = x_next w;
  sw_current p : current_id (wr w) = Some p → accepts (tb w) p → dk w' !! p = dk w !! p;
  sw_active p : pack_state (tb w) p = Some Active → pack_state (tb w') p = Some Active;
  sw_accepts : keeps_accepting w w';
  sw_nofile p : dk w !! p = None → dk w' !! p = None }.
(** A reader that entered in generation [g] can still read pack [p]. *)
Definition protected (g p : Z) (w : World) : Prop := accepts (tb w) p ∨ ∃ r, x_gens w !! p = Some r ∧ g ≤ r.
Definition protects (g : Z) (w w' : World) : Prop :=
  ∀ p, protected g p w → protected g p w' ∧
    ∀ pf, dk w !! p = Some pf → ∃ pf', dk w' !! p = Some pf' ∧ pf_data pf `prefix_of` pf_data pf'.

(** The files of [F] hold what they held, and what of it is durable stays so. *)
Definition keeps_files (F : bytes → Prop) (w w' : World) : Prop :=
  ∀ f o, F f → holds bs (tb w) f o → holds bs (tb w') f o ∧ (holds bs (du w) f o → holds bs (du w') f o).

Record rely (γ : Held) (w w' : World) : Prop := mkRely {
  r_ev : Ev w w';
  r_own : h_own γ = true → same_writer w w';
  r_comp : h_comp γ = true → keeps_accepting w w';
  r_guard g : h_guard γ = Some g → protects g w w';
  r_files : keeps_files (λ f, f ∈ h_files γ) w w' }.

Record guar (γ : Held) (w w' : World) : Prop := mkGuar {
  g_ev : Ev w w';
  g_own : h_own γ = false → same_writer w w';
  g_comp : h_comp γ = false → keeps_accepting w w';
  g_guard g : is_Some (s_reads (x_s w) !! g) → protects g w w';
  g_files : keeps_files (λ f, f ∉ h_files γ) w w' }.

(** What an action needs to be held, and what is held after it. *)
Definition needs {X} (x : act X) (γ : Held) : Prop :=
  match x with
  | ALock => h_own γ = false
  | AUnlock => h_own γ = true
  | ACompactLock => h_comp γ = false ∧ h_own γ = false
  | ACompactUnlock => h_comp γ = true
  | AEnter => h_guard γ = None
  | ALeave g => h_guard γ = Some g
  | _ => True
  end.
Definition held {X} (x : act X) : X → Held → Held :=
  match x in act X return X → Held → Held with
  | ALock => λ _ γ, mkHeld true (h_comp γ) (h_guard γ) (h_files γ)
  | AUnlock => λ _ γ, mkHeld false (h_comp γ) (h_guard γ) (h_files γ)
  | ACompactLock => λ _ γ, mkHeld (h_own γ) true (h_guard γ) (h_files γ)
  | ACompactUnlock => λ _ γ, mkHeld (h_own γ) false (h_guard γ) (h_files γ)
  | AEnter => λ g γ, mkHeld (h_own γ) (h_comp γ) (Some g) (h_files γ)
  | ALeave _ => λ _ γ, mkHeld (h_own γ) (h_comp γ) None (h_files γ)
  | _ => λ _ γ, γ
  end.

(** The state of the locks and of the tracker agrees with what is held. *)
Definition Inv (γ : Held) (w : World) : Prop :=
  SInv w ∧ (h_own γ = true → s_locked (x_s w) = true) ∧ (h_comp γ = true → s_compacting (x_s w) = true) ∧
  (∀ g, h_guard γ = Some g → is_Some (s_reads (x_s w) !! g)).

Fixpoint wp {A} (γ : Held) (p : prog A) (Q : Held → A → World → Prop) (w : World) : Prop :=
  match p with
  | Ret a => ∀ w1, Inv γ w1 → rely γ w w1 → Q γ a w1
  | Step x k => ∀ w1, Inv γ w1 → rely γ w w1 → needs x γ ∧
      match exec cfg x (x_s w1) with
      | None => True
      | Some (r, s2) => ∃ gens nx, let w2 := mkWorld s2 gens nx in
          SInv w2 ∧ guar γ w1 w2 ∧ wp (held x r γ) (k r) Q w2
      end
  end.

(** ** Laws of interference *)

Lemma Ev_refl w : Ev w w.
Proof. split; try done; [intros p pf H; left; by exists pf|intros id l H; right; by exists l]. Qed.
Lemma Ev_trans w1 w2 w3 : Ev w1 w2 → Ev w2 w3 → Ev w1 w3.
Proof.
  intros [N1 D1 G1 A1 K1 I1 R1 T1 C1 X1] [N2 D2 G2 A2 K2 I2 R2 T2 C2 X2]. split; [lia| | | | |lia| |lia|intros; apply C2; [lia|by apply C1]|auto].
  - intros p Hp H1. apply D2; [lia|by apply D1].
  - auto.
  - intros p Hp H1. apply A2; [lia|by apply A1].
  - intros p pf H1. destruct (K1 p pf H1) as [(pf2 & H2 & E2)|[Hp H2]]; [|right; split; [lia|by apply D2]].
    destruct (K2 p pf2 H2) as [(pf3 & H3 & E3)|?]; [left|by right]. exists pf3. split; [done|by etrans].
  - intros id l3 H3. destruct (R2 id l3 H3) as [?|(l2 & H2 & E2)]; [left; lia|].
    destruct (R1 id l2 H2) as [?|(l1 & H1 & E1)]; [by left|right]. exists l1. split; [done|by eapply same_content_trans].
Qed.

Lemma same_writer_refl w : same_writer w w.
Proof. split; try done. by intros ?. Qed.
Lemma same_writer_trans w1 w2 w3 : same_writer w1 w2 → same_writer w2 w3 → same_writer w1 w3.
Proof.
  intros [E1 N1 D1 A1 K1 F1] [E2 N2 D2 A2 K2 F2]. split; [congruence|congruence| |auto|intros p ?; auto|auto].
  intros p Hp Ha. rewrite D2, D1; [done|done|done|by rewrite E1|by apply K1].
Qed.
Lemma protects_refl g w : protects g w w.
Proof. intros p Hp. split; [done|]. intros pf H. by exists pf. Qed.
Lemma protects_trans g w1 w2 w3 : protects g w1 w2 → protects g w2 w3 → protects g w1 w3.
Proof.
  intros H1 H2 p Hp. destruct (H1 p Hp) as [Hp2 K1]. destruct (H2 p Hp2) as [Hp3 K2]. split; [done|].
  intros pf Hf. destruct (K1 pf Hf) as (pf2 & Hf2 & E2). destruct (K2 pf2 Hf2) as (pf3 & Hf3 & E3). exists pf3. split; [done|by etrans].
Qed.
Lemma rely_refl γ w : rely γ w w.
Proof. split; [apply Ev_refl|intros _; apply same_writer_refl|by intros _ ?|intros; apply protects_refl|by intros ? ?]. Qed.
Lemma rely_trans γ w1 w2 w3 : rely γ w1 w2 → rely γ w2 w3 → rely γ w1 w3.
Proof.
  intros [E1 O1 C1 G1 F1] [E2 O2 C2 G2 F2]. split.
  - by eapply Ev_trans.
  - intros Ho. eapply same_writer_trans; auto.
  - intros Hc p Hp. apply C2, C1; done.
  - intros g Hg. eapply protects_trans; auto.
  - intros f o Hf Ho. destruct (F1 f o Hf Ho) as [H1 D1]. destruct (F2 f o Hf H1) as [H2 D2]. auto.
Qed.

Lemma wp_rely {A} γ (p : prog A) Q w w' : wp γ p Q w → rely γ w w' → wp γ p Q w'.
Proof.
  destruct p as [a|X x k]; cbn [wp].
  - intros H Hr w1 Hi Hr'. apply H; [done|by eapply rely_trans].
  - intros H Hr w1 Hi Hr'. apply H; [done|by eapply rely_trans].
Qed.

Lemma wp_ret {A} γ (a : A) (Q : Held → A → World → Prop) w : (∀ w1, Inv γ w1 → rely γ w w1 → Q γ a w1) → wp γ (Ret a) Q w.
Proof. done. Qed.

Lemma wp_later {A} γ (p : prog A) Q w : (∀ w1, Inv γ w1 → rely γ w w1 → wp γ p Q w1) → wp γ p Q w.
Proof.
  intros Hp. destruct p as [a|X x k]; cbn [wp]; intros w1 Hi Hr; apply (Hp w1 Hi Hr w1 Hi), rely_refl.
Qed.

Lemma wp_seq {A B} γ (p : prog A) (k : A → prog B) Q w :
  wp γ p (λ γ' a w', wp γ' (k a) Q w') w → wp γ (prog_bind k p) Q w.
Proof.
  revert γ w. induction p as [a|X x k' IH]; intros γ w; cbn [wp prog_bind].
  - apply wp_later.
  - intros Hp w1 Hi Hr. destruct (Hp w1 Hi Hr) as [Hn Hx]. split; [done|].
    destruct (exec cfg x (x_s w1)) as [[r s2]|]; [|done]. destruct Hx as (G & nx & HI2 & Hg & Hk). exists G, nx. split_and!; [done|done|].
    by apply IH.
Qed.

Lemma wp_conseq {A} γ (p : prog A) (Q1 Q2 : Held → A → World → Prop) w :
  wp γ p Q1 w → (∀ γ' a w', Inv γ' w' → Q1 γ' a w' → Q2 γ' a w') → wp γ p Q2 w.
Proof.
  revert γ w. induction p as [a|X x k IH]; intros γ w Hp HQ; cbn [wp] in *.
  - intros w1 Hi Hr. by apply HQ, Hp.
  - intros w1 Hi Hr. destruct (Hp w1 Hi Hr) as [Hn Hx]. split; [done|].
    destruct (exec cfg x (x_s w1)) as [[r s2]|]; [|done]. destruct Hx as (G & nx & HI2 & Hg & Hk). exists G, nx. split_and!; [done|done|].
    by eapply IH.
Qed.

(** One action. *)
Lemma wp_do {X} γ (x : act X) (Q : Held → X → World → Prop) w :
  needs x γ →
  (∀ w1, Inv γ w1 → rely γ w w1 → ∀ r s2, exec cfg x (x_s w1) = Some (r, s2) →
     ∃ gens nx, SInv (mkWorld s2 gens nx) ∧ guar γ w1 (mkWorld s2 gens nx) ∧
       ∀ w3, Inv (held x r γ) w3 → rely (held x r γ) (mkWorld s2 gens nx) w3 → Q (held x r γ) r w3) →
  wp γ (do x) Q w.
Proof.
  intros Hn Hx w1 Hi Hr. split; [done|]. destruct (exec cfg x (x_s w1)) as [[r s2]|] eqn:E; [|done].
  destruct (Hx w1 Hi Hr r s2 E) as (G & nx & HI2 & Hg & HQ). exists G, nx. by split_and!.
Qed.

(** ** Actions that change nothing, or only the index *)

(** A step no other thread notices. *)
Record calm (w w' : World) : Prop := mkCalm {
  cl_ev : Ev w w'; cl_writer : same_writer w w'; cl_protects g : protects g w w'; cl_files : keeps_files (λ _, True) w w' }.
Lemma calm_guar γ w w' : calm w w' → guar γ w w'.
Proof. intros [E S P F]. split; [done|done|intros _; apply S|auto|intros f o _; by apply F]. Qed.
Lemma calm_rely γ w w' : calm w w' → rely γ w w'.
Proof. intros [E S P F]. split; [done|done|intros _; apply S|auto|intros f o _; by apply F]. Qed.
Lemma calm_refl w : calm w w.
Proof. split; [apply Ev_refl|apply same_writer_refl|intros g; apply protects_refl|by intros ? ?]. Qed.

(** A step that changes at most the files that are not of [F]. *)
Record quiet (F : bytes → Prop) (w w' : World) : Prop := mkQuiet {
  q_ev : Ev w w'; q_writer : same_writer w w'; q_protects g : protects g w w'; q_files : keeps_files F w w' }.
Lemma quiet_guar γ w w' : quiet (λ f, f ∉ h_files γ) w w' → guar γ w w'.
Proof. intros [E S P F]. split; [done|done|intros _; apply S|auto|done]. Qed.
Definition bare (γ : Held) : Held := mkHeld (h_own γ) (h_comp γ) (h_guard γ) ∅.
Lemma quiet_bare γ F w w' : quiet F w w' → rely (bare γ) w w'.
Proof. intros [E S P ?]. split; [done|done|intros _; apply S|auto|by intros ? ? ?%elem_of_empty]. Qed.
Lemma rely_bare γ w w' : rely γ w w' → rely (bare γ) w w'.
Proof. intros [E O C G F]. split; [done|done|done|done|by intros ? ? ?%elem_of_empty]. Qed.
Lemma rely_of_bare γ w w' : rely (bare γ) w w' → keeps_files (λ f, f ∈ h_files γ) w w' → rely γ w w'.
Proof. intros [E O C G _] F. by split. Qed.
Lemma quiet_all F w w' : quiet (λ _, True) w w' → quiet F w w'.
Proof. intros [E S P H]. split; [done..|]. intros f o _. by apply H. Qed.

Lemma wp_view {X} γ (x : act X) (f : Store → X) (Q : Held → X → World → Prop) w :
  needs x γ → (∀ s, exec cfg x s = Some (f s, s)) → (∀ r, held x r γ = γ) →
  (∀ w1 w3, Inv γ w1 → rely γ w w1 → Inv γ w3 → rely γ w1 w3 → Q γ (f (x_s w1)) w3) → wp γ (do x) Q w.
Proof.
  intros Hn Hx Hh HQ. apply wp_do; [done|]. intros w1 Hi Hr r s2 E. rewrite Hx in E. simplify_eq.
  destruct w1 as [s G nx]. exists G, nx. split_and!; [apply Hi|apply calm_guar, calm_refl|]. intros w3. rewrite Hh. intros. by eapply HQ.
Qed.

(** A state that differs from another in what no invariant mentions. *)
Definition like (w w' : World) : Prop :=
  tb w' = tb w ∧ du w' = du w ∧ dk w' = dk w ∧ wr w' = wr w ∧ x_gens w' = x_gens w ∧ x_next w' = x_next w.

Lemma like_calm w w' :
  like w w' → s_generation (x_s w) ≤ s_generation (x_s w') → (∀ g, g ≤ s_generation (x_s w) → clear g w → clear g w') → calm w w'.
Proof.
  intros (E1 & E2 & E3 & E4 & E5 & En) Hg Hcl.
  split.
  - split; rewrite ?En, ?E1, ?E3, ?E5; try done.
    + intros p (? & ? & ?). unfold gone. by rewrite En, E1, E2.
    + intros p pf ?. left. by exists pf.
    + intros id l ?. right. by exists l.
  - split; unfold keeps_accepting; rewrite ?E1, ?E3, ?E4; done.
  - intros g p. unfold protected. rewrite E1, E3, E5. intros. split; [done|]. intros pf ?. by exists pf.
  - intros f o _. by rewrite E1, E2.
Qed.

Lemma like_inv w w' :
  like w w' → SInv w → s_generation (x_s w) ≤ s_generation (x_s w') →
  (∀ g n, s_reads (x_s w') !! g = Some n → 0 < n ∧ g ≤ s_generation (x_s w')) →
  (s_locked (x_s w') = false → ∀ p, current_id (wr w) = Some p → pack_state (tb w) p = Some Active) →
  (∀ p g, (p, g) ∈ s_retired (x_s w') → ∃ r, x_gens w !! p = Some r ∧ r < g ∧ g ≤ s_generation (x_s w')) → SInv w'.
Proof.
  intros (E1 & E2 & E3 & E4 & E5 & En) [I1 I2 I3 I4 I5 I6 I7 I8 I9 I10 I11 I12 I13] Hg Hreads Hact Hret.
  split; rewrite ?En, ?E1, ?E2, ?E3, ?E4, ?E5; try done.
  intros p r Hp. destruct (I11 p r Hp) as [(? & ? & ?) ?]. split; [|lia]. unfold gone. by rewrite En, E1, E2.
Qed.

Lemma pack_state_accepts t p : accepts t p ↔ ∃ s, pack_state t p = Some s ∧ s ≠ Retired.
Proof.
  unfold accepts, pack_state. split.
  - intros (i & -> & H). by exists (p_state i).
  - intros (s & E & Hs). apply fmap_Some in E as (i & Hi & ->). by exists i.
Qed.

Lemma evolves_states S t t' p : evolves S t t' → pack_state t' p = pack_state t p.
Proof. intros [_ _ Hi _]. apply Hi. Qed.
Lemma evolves_accepts_iff S t t' p : evolves S t t' → accepts t' p ↔ accepts t p.
Proof. intros He. by rewrite !pack_state_accepts, (evolves_states _ _ _ _ He). Qed.
Lemma infos_state t p : is_Some (infos t !! p) ↔ is_Some (pack_state t p).
Proof. unfold pack_state. by rewrite fmap_is_Some. Qed.

Lemma row_stored_same d l l' : same_record l l' → row_stored d l → row_stored d l'.
Proof.
  intros Es (blk & b & Ha & Hb). exists blk, b. split; [destruct Es as (E1 & E2 & _); by rewrite <- E1, <- E2|].
  eapply is_record_content; [by apply same_record_content|done].
Qed.

Lemma evolves_meta S t t' : evolves S t t' → meta_ok t → meta_ok t'.
Proof. intros [_ _ _ Hm] [H1 H2]. unfold meta_ok, meta in *. rewrite !Hm by (by vm_compute). done. Qed.

(** A transaction that keeps packs in their states. *)
Lemma tables_step S F t' u c w :
  SInv w → (∃ V, IdxInv bs t' V [] [] []) → evolves S (tb w) t' →
  (∀ l, S l → accepts (tb w) (l_pack l) → row_stored (dk w) l) →
  (∀ f o, F f → holds bs (tb w) f o → holds bs t' f o) →
  let w' := mkWorld (with_counts u c (with_tables t' (x_s w))) (x_gens w) (x_next w) in
  SInv w' ∧ quiet F w w'.
Proof.
  intros [I1 I2 I3 I4 I5 I6 I7 I8 I9 I10 I11 I12 I13] [V HV] Hev HS HF w'.
  assert (∀ p, accepts t' p ↔ accepts (tb w) p) as Ha by (intros; by eapply evolves_accepts_iff).
  assert (∀ p, gone p w' ↔ gone p w) as Hgone.
  { intros p. unfold gone. change (tb w') with t'. change (du w') with (du w). change (x_next w') with (x_next w). by rewrite Ha. }
  split.
  - split; try done.
    + by exists V.
    + intros id l' Hl'. destruct (ev_rows _ _ _ Hev id l' Hl') as [(l & Hl & E)|(_ & l & Hl & E)].
      * eapply row_stored_same; [done|]. by eapply I2.
      * eapply row_stored_same; [done|]. apply HS; [done|]. apply Ha. destruct (iv_row _ _ _ _ _ _ HV id l' Hl') as (_ & _ & _ & Hacc).
        destruct E as (-> & _). exact Hacc.
    + intros p. rewrite !infos_state. change (tb w') with t'. rewrite (evolves_states _ _ _ _ Hev), <- !infos_state. apply I6.
    + intros a Ha'. destruct (I8 a Ha') as (? & ? & [?|?]); split_and!; try done; [by left|right]. change (tb w') with t'. by rewrite Ha.
    + intros Hlk a Ha'. change (tb w') with t'. rewrite (evolves_states _ _ _ _ Hev). by apply I9.
    + intros p r Hp. rewrite Hgone. by apply I11.
    + split; [|apply I13]. change (tb w') with t'. eapply evolves_meta; [exact Hev|apply I13].
  - split.
    + split; try done.
      * intros p _ Hp. change (tb w') with t'. by rewrite Ha.
      * intros p Hp. by rewrite Hgone.
      * intros p _ Hp. change (tb w') with t'. by rewrite (evolves_states _ _ _ _ Hev).
      * intros p pf Hp. left. by exists pf.
      * apply Hev.
      * intros id l' Hl'. destruct (ev_rows _ _ _ Hev id l' Hl') as [(l & Hl & E)|([?|?] & _)]; [right|by left|by right].
        exists l. split; [done|by apply same_record_content].
    + split; try done.
      * intros p Hp. change (tb w') with t'. by rewrite (evolves_states _ _ _ _ Hev).
      * intros p. by rewrite <- Ha.
    + intros g p Hp. split; [|intros pf ?; by exists pf]. destruct Hp as [Hp|Hp]; [left; by apply Ha|by right].
    + intros f o Hf Ho. split; [by apply HF|done].
Qed.

Lemma wp_commit {X} γ (f : TM X) (S : World → BlockLoc → Prop) (P : World → X → Tables → Prop) (Q : Held → result BErr X → World → Prop) w :
  (∀ w1 V, Inv γ w1 → rely γ w w1 → IdxInv bs (tb w1) V [] [] [] →
     spec f (tb w1) False (λ a t', (∃ V', IdxInv bs t' V' [] [] []) ∧ evolves (S w1) (tb w1) t' ∧
       (∀ g o, g ∉ h_files γ → holds bs (tb w1) g o → holds bs t' g o) ∧ P w1 a t')) →
  (∀ w1 l, Inv γ w1 → rely γ w w1 → S w1 l → accepts (tb w1) (l_pack l) → row_stored (dk w1) l) →
  (∀ w1 a w2 w3, Inv γ w1 → rely γ w w1 → P w1 a (tb w2) → du w2 = du w1 → rely (bare γ) w1 w2 → rely γ w2 w3 → Inv γ w3 → Q γ (Ok a) w3) →
  (∀ e w3, Inv γ w3 → rely γ w w3 → Q γ (Err e) w3) →
  wp γ (do (ACommit f)) Q w.
Proof.
  intros Hspec HS HQ HE. apply wp_do; [done|]. intros w1 Hi Hr r s2 E. cbn [exec] in E. unfold index_update in E.
  destruct (si_idx _ (proj1 Hi)) as [V HV]. specialize (Hspec w1 V Hi Hr HV). unfold spec in Hspec.
  change (s_tables (x_s w1)) with (tb w1) in E. destruct (f (tb w1)) as [[a t']|e] eqn:Ef; simplify_eq; exists (x_gens w1), (x_next w1).
  - destruct Hspec as (HV' & Hev & HF & HP).
    destruct (tables_step (S w1) (λ g, g ∉ h_files γ) t' (s_unflushed (x_s w1)) (s_unflushed_commits (x_s w1) + 1) w1 (proj1 Hi) HV' Hev
      (λ l, HS w1 l Hi Hr) HF) as [Hi2 Hg].
    split_and!; [done|by apply quiet_guar|]. intros w3 Hi3 Hr3. match type of Hr3 with rely _ ?w2 _ => apply (HQ w1 a w2 w3); try done end. by eapply quiet_bare.
  - set (w2 := mkWorld _ _ _). assert (like w1 w2) as Hl by (by destruct w1 as [[] ? ?]).
    assert (calm w1 w2) as Hc by (by apply like_calm).
    split_and!; [apply (like_inv w1); try done; apply Hi|by apply calm_guar|]. intros w3 Hi3 Hr3. apply HE; [done|].
    eapply rely_trans; [done|]. eapply rely_trans; [by apply calm_rely|done].
Qed.

(** ** The writer *)

Definition unown (γ : Held) : Held := mkHeld false (h_comp γ) (h_guard γ) (h_files γ).
Definition owning (γ : Held) : Held := mkHeld true (h_comp γ) (h_guard γ) (h_files γ).
Definition current_ok (w : World) : Prop := ∀ p, current_id (wr w) = Some p → pack_state (tb w) p = Some Active.
Definition dead (p : Z) (w : World) : Prop := p < x_next w ∧ ¬ accepts (tb w) p.

Lemma rely_unown γ w w' : rely γ w w' → rely (unown γ) w w'.
Proof. intros [E O C G F]. by split. Qed.
Lemma rely_current_ok γ w w' : h_own γ = true → rely γ w w' → current_ok w → current_ok w'.
Proof. intros Ho Hr Ha a. destruct (r_own _ _ _ Hr Ho) as [E _ _ A _ _]. rewrite E. intros H. by apply A, Ha. Qed.
Lemma rely_dead γ w w' p : rely γ w w' → dead p w → dead p w'.
Proof. intros [E _ _ _] [Hp Ha]. split; [pose proof (e_next _ _ E); lia|by apply (e_dead _ _ E)]. Qed.

Lemma wp_lock γ (Q : Held → unit → World → Prop) w :
  h_own γ = false →
  (∀ w3, Inv (owning γ) w3 → rely γ w w3 → current_ok w3 → Q (owning γ) tt w3) → wp γ (do ALock) Q w.
Proof.
  intros Hn HQ. apply wp_do; [done|]. intros w1 Hi Hr r s2 E. cbn [exec] in E. destruct (s_locked (x_s w1)) eqn:El; simplify_eq.
  exists (x_gens w1), (x_next w1). set (w2 := mkWorld _ _ _). assert (like w1 w2) as Hl by done.
  assert (calm w1 w2) as Hc by (by apply like_calm).
  split_and!; [apply (like_inv w1); try done; apply Hi|by apply calm_guar|]. intros w3 Hi3 Hr3.
  assert (rely γ w w3) as Hr'.
  { eapply rely_trans; [done|]. eapply rely_trans; [by apply calm_rely|]. apply rely_unown in Hr3. destruct Hr3 as [E3 O3 C3 G3 F3]. split; try done. by rewrite Hn. }
  apply HQ; [done|done|]. apply (rely_current_ok (owning γ) w2 w3); [done|done|]. intros a Ha. apply (si_active _ (proj1 Hi) El a Ha).
Qed.

Lemma wp_unlock γ (Q : Held → unit → World → Prop) w :
  h_own γ = true → current_ok w →
  (∀ w3, Inv (unown γ) w3 → rely (unown γ) w w3 → Q (unown γ) tt w3) → wp γ (do AUnlock) Q w.
Proof.
  intros Ho Ha HQ. apply wp_do; [done|]. intros w1 Hi Hr r s2 E. cbn [exec] in E. simplify_eq.
  exists (x_gens w1), (x_next w1). set (w2 := mkWorld _ _ _). assert (like w1 w2) as Hl by done.
  assert (calm w1 w2) as Hc by (by apply like_calm).
  split_and!; [|by apply calm_guar|].
  - apply (like_inv w1); try done; try apply Hi. intros _ a Ha1. by apply (rely_current_ok γ w w1 Ho Hr Ha).
  - intros w3 Hi3 Hr3. apply HQ; [done|]. eapply rely_trans; [by apply rely_unown|]. eapply rely_trans; [by apply calm_rely|done].
Qed.

(** Files grow, and so does what is synced of them. *)
Definition disk_ext (d d' : gmap Z PackFile) : Prop :=
  ∀ p pf, d !! p = Some pf → ∃ pf', d' !! p = Some pf' ∧ pf_data pf `prefix_of` pf_data pf' ∧ pf_synced pf ≤ pf_synced pf'.

Lemma mem_get_prefix (a b : bytes) o n : a `prefix_of` b → 0 ≤ o → 0 ≤ n → o + n ≤ len a → mem_get b o n = mem_get a o n.
Proof.
  intros [c ->] ???. unfold mem_get. rewrite drop_app_le by (unfold len in *; lia).
  rewrite take_app_le; [done|]. rewrite length_drop. unfold len in *. lia.
Qed.
Lemma at_disk_prefix d d' p off b :
  at_disk d p off b → (∀ pf, d !! p = Some pf → ∃ pf', d' !! p = Some pf' ∧ pf_data pf `prefix_of` pf_data pf') → at_disk d' p off b.
Proof.
  intros (pf & Hp & H0 & Hl & Hb) Hext. destruct (Hext pf Hp) as (pf' & Hp' & Hpre). exists pf'. pose proof (len_nonneg b).
  split_and!; [done|done| |by rewrite (mem_get_prefix _ _ _ _ Hpre)]. destruct Hpre as [c ->]. rewrite len_app. pose proof (len_nonneg c). lia.
Qed.
Lemma row_stored_ext d d' l : disk_ext d d' → row_stored d l → row_stored d' l.
Proof.
  intros Hext (blk & b & Ha & Hb). exists blk, b. split; [|done]. eapply at_disk_prefix; [done|].
  intros pf Hp. destruct (Hext _ _ Hp) as (pf' & ? & ? & _). by exists pf'.
Qed.
Lemma synced_ext d d' :
  (∀ p pf, d !! p = Some pf → 0 ≤ pf_synced pf ≤ len (pf_data pf)) → disk_ext d d' → disk_ext (synced_disk d) (synced_disk d').
Proof.
  intros Hd Hext p pf0. unfold synced_disk. rewrite !lookup_fmap. intros (pf & Hp & ->)%fmap_Some. destruct (Hext p pf Hp) as (pf' & -> & [c E] & Hs).
  destruct (Hd p pf Hp) as [H0 H1]. eexists. split_and!; [done| |done]. cbn. rewrite E.
  exists (drop (Z.to_nat (pf_synced pf)) (take (Z.to_nat (pf_synced pf')) (pf_data pf ++ c))).
  rewrite <- (take_drop (Z.to_nat (pf_synced pf)) (take (Z.to_nat (pf_synced pf')) (pf_data pf ++ c))) at 1. f_equal.
  rewrite take_take, Nat.min_l by lia. apply take_app_le. unfold len in *. lia.
Qed.

(** A step of the thread that has the writer's lock. *)
Record own_step (w w' : World) : Prop := mkOwnStep {
  os_ev : Ev w w'; os_accepts : keeps_accepting w w'; os_protects g : protects g w w'; os_files : keeps_files (λ _, True) w w' }.
Lemma own_step_both w w' : own_step w w' → ∀ γ, h_own γ = true → guar γ w w' ∧ rely (unown γ) w w'.
Proof. intros [E K P F] γ Ho. split; split; try done; try (intros f o _; by apply F); intros; congruence. Qed.
Lemma own_step_trans w1 w2 w3 : own_step w1 w2 → own_step w2 w3 → own_step w1 w3.
Proof.
  intros [E1 K1 P1 F1] [E2 K2 P2 F2]. split; [by eapply Ev_trans|intros p ?; auto|intros g; by eapply protects_trans|].
  intros f o Hf Ho. destruct (F1 f o Hf Ho) as [H1 D1]. destruct (F2 f o Hf H1) as [H2 D2]. auto.
Qed.

(** The writer moves and files grow, with the lock held. *)
Lemma files_step w d' w' fl :
  SInv w → s_locked (x_s w) = true → disk_ext (dk w) d' →
  (∀ p pf, d' !! p = Some pf → 0 ≤ p < x_next w ∧ 0 ≤ pf_synced pf ≤ len (pf_data pf) ∧ (current_id w' ≠ Some p → pf_synced pf = len (pf_data pf))) →
  w_next_pack_id (wr w) ≤ w_next_pack_id w' < u32_max →
  (∀ a, w_active w' = Some a → w_abandoned w' = None ∧ a_id a < x_next w ∧
     ((∃ pf, d' !! a_id a = Some pf ∧ a_len a = len (pf_data pf) + len (a_buf a)) ∨ ¬ accepts (tb w) (a_id a))) →
  let w2 := mkWorld (with_files d' w' fl (x_s w)) (x_gens w) (x_next w) in
  SInv w2 ∧ own_step w w2.
Proof.
  intros Hi Hlk Hext Hd Hn Hw w2. assert (∀ p pf, dk w !! p = Some pf → 0 ≤ pf_synced pf ≤ len (pf_data pf)) as Hold
    by (intros p pf Hp; apply (si_files _ Hi p pf Hp)).
  pose proof (si_next _ Hi) as Hnx. destruct Hi as [I1 I2 I3 I4 I5 I6 I7 I8 I9 I10 I11 I12 I13].
  assert (Ev w w2) as HE.
  { split; try done.
    - intros p pf Hp. left. destruct (Hext p pf Hp) as (pf' & ? & ? & _). by exists pf'.
    - intros id l Hl. right. by exists l. }
  assert (∀ g, protects g w w2) as HP.
  { intros g p Hp. split; [done|]. intros pf Hpf. destruct (Hext p pf Hpf) as (pf' & ? & ? & _). by exists pf'. }
  split.
  - split; try done.
    + intros id l Hl. eapply row_stored_ext; [exact Hext|by eapply I2].
    + intros id l Hl. eapply row_stored_ext; [by apply synced_ext|by eapply I4].
    + unfold w2, wr in *. cbn in *. lia.
    + intros Hf. cbn in Hf. congruence.
  - split; [done|by intros ?|done|by intros ? ?].
Qed.

(** [b] is at an offset of a pack, in its file or in what the writer still
    has to write to it, unless the pack is dead. *)
Definition in_buffer (w : World) (p off : Z) (b : bytes) : Prop :=
  ∃ a pf, w_active (wr w) = Some a ∧ a_id a = p ∧ dk w !! p = Some pf ∧ 0 ≤ off ∧
    off + len b ≤ len (pf_data pf ++ a_buf a) ∧ mem_get (pf_data pf ++ a_buf a) off (len b) = b.
Definition written (w : World) (p off : Z) (b : bytes) : Prop := at_disk (dk w) p off b ∨ dead p w ∨ in_buffer w p off b.
Definition kept (w : World) (p off : Z) (b : bytes) : Prop := at_disk (dk w) p off b ∨ dead p w.

Lemma rely_kept γ w w' p off b : rely γ w w' → kept w p off b → kept w' p off b.
Proof.
  intros Hr [Hd|Hd]; [|right; by eapply rely_dead]. pose proof Hd as (pf & Hp & _).
  destruct (e_disk _ _ (r_ev _ _ _ Hr) p pf Hp) as [(pf' & Hp' & Hpre)|?]; [left|by right].
  eapply at_disk_prefix; [exact Hd|]. intros pf0 Hp0. simplify_eq. by exists pf'.
Qed.

Lemma current_active w a : w_active (wr w) = Some a → current_id (wr w) = Some (a_id a).
Proof. unfold current_id. by intros ->. Qed.

#[local] Instance accepts_dec t p : Decision (accepts t p).
Proof.
  unfold accepts. destruct (infos t !! p) as [i|]; [destruct (decide (p_state i = Retired))|]; [right|left|right]; naive_solver.
Defined.

Lemma rely_written γ w w' p off b : SInv w → h_own γ = true → rely γ w w' → written w p off b → written w' p off b.
Proof.
  intros Hi Ho Hr [Hd|[Hd|Hd]].
  - destruct (rely_kept γ w w' p off b Hr (or_introl Hd)); [by left|right; by left].
  - right. left. by eapply rely_dead.
  - destruct Hd as (a & pf & Ha & <- & Hp & Hrest). destruct (r_own _ _ _ Hr Ho) as [Ew _ Hc _ _ _].
    destruct (decide (accepts (tb w) (a_id a))) as [Hacc|Hacc].
    + right. right. exists a, pf. rewrite Ew. split_and!; try done; try apply Hrest. rewrite (Hc (a_id a)); [done|by apply current_active|done].
    + right. left. eapply rely_dead; [exact Hr|]. split; [apply (si_writer _ Hi a Ha)|done].
Qed.

Lemma append_file_lookup id b d p :
  append_file id b d !! p = if decide (p = id) then (λ pf, mkPackFile (pf_data pf ++ b) (pf_synced pf)) <$> d !! p else d !! p.
Proof.
  unfold append_file. destruct (d !! id) as [pf|] eqn:E; case_decide as Ep; subst; rewrite ?E; [by rewrite lookup_insert_eq|by rewrite lookup_insert_ne|done|done].
Qed.
Lemma sync_file_lookup id d p :
  sync_file id d !! p = if decide (p = id) then (λ pf, mkPackFile (pf_data pf) (len (pf_data pf))) <$> d !! p else d !! p.
Proof.
  unfold sync_file. destruct (d !! id) as [pf|] eqn:E; case_decide as Ep; subst; rewrite ?E; [by rewrite lookup_insert_eq|by rewrite lookup_insert_ne|done|done].
Qed.
Lemma append_file_ext id b d : disk_ext d (append_file id b d).
Proof.
  intros p pf Hp. rewrite append_file_lookup, Hp. case_decide; [|by exists pf]. eexists. split_and!; [done|by apply prefix_app_r|done].
Qed.
Lemma sync_file_ext id d : (∀ p pf, d !! p = Some pf → pf_synced pf ≤ len (pf_data pf)) → disk_ext d (sync_file id d).
Proof.
  intros Hd p pf Hp. rewrite sync_file_lookup, Hp. case_decide; [|by exists pf]. eexists. split_and!; [done|done|]. by eapply Hd.
Qed.
Lemma disk_ext_trans d1 d2 d3 : disk_ext d1 d2 → disk_ext d2 d3 → disk_ext d1 d3.
Proof.
  intros H1 H2 p pf Hp. destruct (H1 p pf Hp) as (pf2 & Hp2 & E2 & S2). destruct (H2 p pf2 Hp2) as (pf3 & Hp3 & E3 & S3).
  exists pf3. split_and!; [done|by etrans|lia].
Qed.

Lemma mem_get_app_own (x b : bytes) : mem_get (x ++ b) (len x) (len b) = b.
Proof. unfold mem_get, len. rewrite !Nat2Z.id, drop_app_length. apply take_ge. lia. Qed.

(** What is written stays written when the buffer moves to the file or grows. *)
Lemma written_grow w w2 a a' pf x y p off b :
  w_active (wr w) = Some a → dk w !! a_id a = Some pf → written w p off b → disk_ext (dk w) (dk w2) → (∀ q, dead q w → dead q w2) →
  w_active (wr w2) = Some a' → a_id a' = a_id a → dk w2 !! a_id a = Some (mkPackFile x y) → pf_data pf ++ a_buf a `prefix_of` x ++ a_buf a' →
  written w2 p off b.
Proof.
  intros Ha Hf Hw Hext Hdead Ha' Eid Hf' Hpre. destruct Hw as [Hd|[Hd|Hd]].
  - left. eapply at_disk_prefix; [exact Hd|]. intros pf0 Hp. destruct (Hext p pf0 Hp) as (pf' & ? & ? & _). by exists pf'.
  - right. left. auto.
  - right. right. destruct Hd as (a0 & pf0 & Ha0 & <- & Hp0 & H0 & Hl & Hb). simplify_eq. exists a', (mkPackFile x y).
    pose proof (len_nonneg b). split_and!; [done|done|done|done| |cbn; by rewrite (mem_get_prefix _ _ _ _ Hpre)].
    cbn. destruct Hpre as [c ->]. rewrite len_app. pose proof (len_nonneg c). lia.
Qed.

Definition fits (w : World) (n : Z) : Prop := ∀ a, w_active (wr w) = Some a → a_len a = 0 ∨ a_len a + n ≤ c_max_pack_size cfg.
Context (Hmax : in_u64 (c_max_pack_size cfg)).

Lemma current_accepts w p : current_ok w → current_id (wr w) = Some p → accepts (tb w) p.
Proof. intros Hc Hp. apply pack_state_accepts. exists Active. split; [by apply Hc|done]. Qed.

Lemma abandon_step w a buf k fl :
  SInv w → s_locked (x_s w) = true → w_active (wr w) = Some a →
  let wd := abandon a buf k (wr w) (dk w) in
  let w2 := mkWorld (with_files wd.2 wd.1 fl (x_s w)) (x_gens w) (x_next w) in
  SInv w2 ∧ own_step w w2 ∧ (current_ok w → current_ok w2).
Proof.
  intros Hi Hlk Ha wd w2. destruct (files_step w wd.2 wd.1 fl Hi Hlk) as [Hi2 Hg].
  - apply append_file_ext.
  - intros p pf. cbn. rewrite append_file_lookup. case_decide as Ep.
    + intros (pf0 & Hp0 & ->)%fmap_Some. destruct (si_files _ Hi p pf0 Hp0) as (? & ? & _). cbn. rewrite len_app.
      pose proof (len_nonneg (take (Z.to_nat k) buf)). split_and!; try lia. congruence.
    + intros Hp. destruct (si_files _ Hi p pf Hp) as (? & ? & Hs). split_and!; try lia. intros _. apply Hs.
      rewrite (current_active w a Ha). congruence.
  - cbn. pose proof (si_next _ Hi). unfold wr in *. lia.
  - done.
  - split_and!; [done|done|]. intros Hc p Hp. change (tb w2) with (tb w). apply Hc. rewrite (current_active w a Ha). cbn in Hp. by simplify_eq.
Qed.

(** What a thread knows after steps of its own with the lock held. *)
Definition after (γ : Held) (w w' : World) : Prop := rely (unown γ) w w' ∧ keeps_accepting w w'.
Lemma after_rely γ w w' : h_own γ = true → rely γ w w' → after γ w w'.
Proof. intros Ho Hr. split; [by apply rely_unown|apply (r_own _ _ _ Hr Ho)]. Qed.
Lemma after_trans γ w1 w2 w3 : after γ w1 w2 → after γ w2 w3 → after γ w1 w3.
Proof. intros [R1 K1] [R2 K2]. split; [by eapply rely_trans|intros p ?; auto]. Qed.
Lemma own_after γ w w1 w2 w3 :
  h_own γ = true → rely γ w w1 → own_step w1 w2 → rely γ w2 w3 → after γ w w3.
Proof.
  intros Ho Hr Hs Hr3. eapply after_trans; [by apply after_rely|]. eapply after_trans; [|by apply after_rely].
  split; [apply (own_step_both _ _ Hs γ Ho)|apply Hs].
Qed.

Lemma wp_append γ h pl (Q : Held → result BErr (Z * Z) → World → Prop) w :
  h_own γ = true → current_ok w → fits w (len h + len pl) →
  (∀ w3 p off, Inv γ w3 → after γ w w3 → current_ok w3 → written w3 p off (h ++ pl) → accepts (tb w3) p →
     in_u64 off → in_u32 p → (∀ p' off' b, written w p' off' b → written w3 p' off' b) → Q γ (Ok (p, off)) w3) →
  (∀ e w3, Inv γ w3 → after γ w w3 → current_ok w3 → Q γ (Err e) w3) →
  SInv w → wp γ (do (AAppend h pl)) Q w.
Proof.
  intros Ho Hc Hfit HQ HE Hi0. apply wp_do; [done|]. intros w1 (Hi & Hlk & Hrest) Hr r s2 E. cbn [exec] in E.
  specialize (Hlk Ho). pose proof (rely_current_ok γ w w1 Ho Hr Hc) as Hc1.
  assert (fits w1 (len h + len pl)) as Hfit1 by (intros a; rewrite (sw_writer _ _ (r_own _ _ _ Hr Ho)); apply Hfit).
  unfold pw_append in E. change (s_writer (x_s w1)) with (wr w1) in E. change (s_disk (x_s w1)) with (dk w1) in E.
  destruct (w_active (wr w1)) as [a|] eqn:Ha.
  2:{ simplify_eq. exists (x_gens w1), (x_next w1). destruct w1 as [s G nx]. split_and!; [done|apply calm_guar, calm_refl|].
      intros w3 Hi3 Hr3. apply HE; [done| |by apply (rely_current_ok γ _ w3 Ho Hr3)]. eapply after_trans; by apply after_rely. }
  destruct (next_fault (x_s w1)) as [ft fl]. destruct (f_fails ft).
  - destruct (abandon_step w1 a (a_buf a ++ h ++ pl) (f_spill ft) fl Hi Hlk Ha) as (Hi2 & Hg & Hcc). unfold abandon in *. cbn [fst snd] in *. simplify_eq.
    exists (x_gens w1), (x_next w1). destruct (own_step_both _ _ Hg γ Ho) as [Hg1 Hg2]. split_and!; [done|done|]. intros w3 Hi3 Hr3.
    apply HE; [done| |apply (rely_current_ok γ _ w3 Ho Hr3), Hcc, Hc1].
    by eapply own_after.
  - simplify_eq. set (k := Z.to_nat (f_spill ft)). set (buf := a_buf a ++ h ++ pl).
    set (a' := mkActive (a_id a) (drop k buf) (a_len a + len h + len pl)).
    set (d' := append_file (a_id a) (take k buf) (dk w1)). set (wr' := mkWriter (Some a') (w_abandoned (wr w1)) (w_next_pack_id (wr w1))).
    pose proof (current_accepts w1 (a_id a) Hc1 (current_active w1 a Ha)) as Hacc.
    destruct (si_writer _ Hi a Ha) as (Hab & Hid & [(pf & Hpf & Hlen)|?]); [|done].
    destruct (files_step w1 d' wr' fl Hi Hlk) as [Hi2 Hg].
    { apply append_file_ext. }
    { intros p pf0. unfold d'. rewrite append_file_lookup. case_decide as Ep.
      - intros (pf1 & Hp1 & ->)%fmap_Some. destruct (si_files _ Hi p pf1 Hp1) as (? & ? & _). cbn. rewrite len_app.
        pose proof (len_nonneg (take k buf)). split_and!; try lia. congruence.
      - intros Hp. destruct (si_files _ Hi p pf0 Hp) as (? & ? & Hs). split_and!; try lia. intros _. apply Hs.
        rewrite (current_active w1 a Ha). congruence. }
    { pose proof (si_next _ Hi). cbn. unfold wr in *. lia. }
    { intros a0 [= <-]. cbn. split_and!; [done|done|]. left. exists (mkPackFile (pf_data pf ++ take k buf) (pf_synced pf)).
      split; [unfold d'; rewrite append_file_lookup, decide_True, Hpf by done; done|]. cbn. rewrite Hlen.
      rewrite len_app. assert (len buf = len (take k buf) + len (drop k buf)) as Eb by (rewrite <- len_app, take_drop; done).
      unfold buf in Eb at 1. rewrite !len_app in Eb. lia. }
    exists (x_gens w1), (x_next w1). destruct (own_step_both _ _ Hg γ Ho) as [Hg1 Hg2]. split_and!; [done|done|]. set (w2 := mkWorld _ _ _) in *.
    intros w3 Hi3 Hr3. assert (current_ok w2) as Hc2.
    { intros p Hp. change (tb w2) with (tb w1). apply Hc1. cbn in Hp. rewrite (current_active w1 a Ha). done. }
    assert (∀ p' off' b, written w1 p' off' b → written w2 p' off' b) as Hkeep.
    { intros p' off' b Hw. eapply (written_grow w1 w2 a a' pf); [done|done|done|apply append_file_ext|done|done|done| |].
      - unfold w2, dk. cbn. unfold d'. rewrite append_file_lookup, decide_True, Hpf by done. done.
      - cbn. rewrite <- app_assoc, take_drop. unfold buf. apply prefix_app. by exists (h ++ pl). }
    apply HQ; [done| |by apply (rely_current_ok γ w2 w3 Ho Hr3)| | | | |].
    + by eapply own_after.
    + apply (rely_written γ w2 w3); [done|done|done|]. right. right. exists a', (mkPackFile (pf_data pf ++ take k buf) (pf_synced pf)).
      assert ((pf_data pf ++ take k buf) ++ drop k buf = (pf_data pf ++ a_buf a) ++ h ++ pl) as Eall
        by (rewrite <- !app_assoc, take_drop; done).
      assert (a_len a = len (pf_data pf ++ a_buf a)) as Elen by (rewrite len_app; done).
      split_and!; [done|done|unfold w2, dk; cbn; unfold d'; rewrite append_file_lookup, decide_True, Hpf by done; done| | |].
      * rewrite Elen. apply len_nonneg.
      * cbn [pf_data a_buf a']. rewrite Eall, (len_app (pf_data pf ++ a_buf a)), Elen. lia.
      * cbn [pf_data a_buf a']. rewrite Eall, Elen. apply mem_get_app_own.
    + apply (sw_accepts _ _ (r_own _ _ _ Hr3 Ho)). exact Hacc.
    + pose proof (Hfit1 a Ha) as Hf. unfold in_u64 in *. pose proof (len_nonneg (pf_data pf)). pose proof (len_nonneg (a_buf a)).
      pose proof (len_nonneg h). pose proof (len_nonneg pl). unfold u64_max in *. lia.
    + pose proof (si_next _ Hi). destruct (si_files _ Hi _ _ Hpf) as (? & _). unfold in_u32. lia.
    + intros p' off' b Hw. apply (rely_written γ w2 w3); [done|done|done|]. apply Hkeep. by apply (rely_written γ w w1).
Qed.

Lemma wp_flush γ (Q : Held → result BErr unit → World → Prop) w :
  h_own γ = true → current_ok w → SInv w →
  (∀ w3, Inv γ w3 → after γ w w3 → current_ok w3 → (∀ p off b, written w p off b → kept w3 p off b) → Q γ (Ok tt) w3) →
  (∀ e w3, Inv γ w3 → after γ w w3 → current_ok w3 → Q γ (Err e) w3) →
  wp γ (do AFlush) Q w.
Proof.
  intros Ho Hc Hi0 HQ HE. apply wp_do; [done|]. intros w1 (Hi & Hlk & Hrest) Hr r s2 E. cbn [exec] in E.
  specialize (Hlk Ho). pose proof (rely_current_ok γ w w1 Ho Hr Hc) as Hc1.
  unfold flush_buffer in E. change (s_writer (x_s w1)) with (wr w1) in E. change (s_disk (x_s w1)) with (dk w1) in E.
  destruct (w_active (wr w1)) as [a|] eqn:Ha.
  2:{ simplify_eq. exists (x_gens w1), (x_next w1). destruct w1 as [s G nx]. split_and!; [done|apply calm_guar, calm_refl|].
      intros w3 Hi3 Hr3. apply HQ; [done| |by apply (rely_current_ok γ _ w3 Ho Hr3)|].
      - eapply after_trans; by apply after_rely.
      - intros p off b Hw. eapply rely_kept; [exact Hr3|]. apply (rely_written γ w _ p off b Hi0 Ho Hr) in Hw as [?|[?|(a & ? & Ha' & _)]]; [by left|by right|].
        cbn in Ha'. unfold wr in *. cbn in *. congruence. }
  destruct (next_fault (x_s w1)) as [ft fl]. destruct (f_fails ft).
  - destruct (abandon_step w1 a (a_buf a) (f_spill ft) fl Hi Hlk Ha) as (Hi2 & Hg & Hcc). unfold abandon in *. cbn [fst snd] in *. simplify_eq.
    exists (x_gens w1), (x_next w1). destruct (own_step_both _ _ Hg γ Ho) as [Hg1 Hg2]. split_and!; [done|done|]. intros w3 Hi3 Hr3.
    apply HE; [done| |apply (rely_current_ok γ _ w3 Ho Hr3), Hcc, Hc1].
    by eapply own_after.
  - simplify_eq. set (a' := mkActive (a_id a) [] (a_len a)). set (d' := append_file (a_id a) (a_buf a) (dk w1)).
    set (wr' := mkWriter (Some a') (w_abandoned (wr w1)) (w_next_pack_id (wr w1))).
    pose proof (current_accepts w1 (a_id a) Hc1 (current_active w1 a Ha)) as Hacc.
    destruct (si_writer _ Hi a Ha) as (Hab & Hid & [(pf & Hpf & Hlen)|?]); [|done].
    assert (d' !! a_id a = Some (mkPackFile (pf_data pf ++ a_buf a) (pf_synced pf))) as Hpf'
      by (unfold d'; by rewrite append_file_lookup, decide_True, Hpf).
    destruct (files_step w1 d' wr' fl Hi Hlk) as [Hi2 Hg].
    { apply append_file_ext. }
    { intros p pf0. unfold d'. rewrite append_file_lookup. case_decide as Ep.
      - intros (pf1 & Hp1 & ->)%fmap_Some. destruct (si_files _ Hi p pf1 Hp1) as (? & ? & _). cbn. rewrite len_app.
        pose proof (len_nonneg (a_buf a)). split_and!; try lia. congruence.
      - intros Hp. destruct (si_files _ Hi p pf0 Hp) as (? & ? & Hs). split_and!; try lia. intros _. apply Hs.
        rewrite (current_active w1 a Ha). congruence. }
    { pose proof (si_next _ Hi). cbn. unfold wr in *. lia. }
    { intros a0 [= <-]. cbn. split_and!; [done|done|]. left. eexists. split; [done|]. cbn. rewrite Hlen, len_app, len_nil. lia. }
    exists (x_gens w1), (x_next w1). destruct (own_step_both _ _ Hg γ Ho) as [Hg1 Hg2]. split_and!; [done|done|]. set (w2 := mkWorld _ _ _) in *.
    intros w3 Hi3 Hr3. assert (current_ok w2) as Hc2.
    { intros p Hp. change (tb w2) with (tb w1). apply Hc1. cbn in Hp. rewrite (current_active w1 a Ha). done. }
    apply HQ; [done| |by apply (rely_current_ok γ w2 w3 Ho Hr3)|].
    + by eapply own_after.
    + intros p off b Hw. eapply rely_kept; [exact Hr3|]. apply (rely_written γ w w1 p off b Hi0 Ho Hr) in Hw.
      eapply (written_grow w1 w2 a a' pf) in Hw; [|done|done|apply append_file_ext|done|done|done|exact Hpf'|cbn; by rewrite app_nil_r].
      destruct Hw as [?|[?|(a0 & pf0 & Ha0 & Ep & Hp0 & H0 & Hl & Hb)]]; [by left|by right|left]. cbn in Ha0. simplify_eq. cbn in *.
      rewrite app_nil_r in Hl, Hb. by exists pf0.
Qed.

(** [sync]: every file is synced, and what was written is in its file. *)
Lemma sync_writer_step w fl :
  SInv w → s_locked (x_s w) = true →
  let wd := sync_writer (wr w) (dk w) in
  let w2 := mkWorld (with_files wd.2 wd.1 fl (x_s w)) (x_gens w) (x_next w) in
  SInv w2 ∧ own_step w w2 ∧
  (∀ p pf, dk w2 !! p = Some pf → pf_synced pf = len (pf_data pf)) ∧ disk_ext (dk w) (dk w2) ∧
  (∀ p, dk w !! p = None → dk w2 !! p = None) ∧ current_id (wr w2) = current_id (wr w) ∧ w_next_pack_id (wr w2) = w_next_pack_id (wr w) ∧
  (w_active (wr w2) = None → w_active (wr w) = None) ∧ (∀ a, w_active (wr w2) = Some a → w_abandoned (wr w2) = None) ∧
  (∀ p off b, written w p off b → at_disk (dk w2) p off b ∨ dead p w).
Proof.
  intros Hi Hlk wd w2.
  assert (∀ p pf, dk w !! p = Some pf → 0 ≤ p < x_next w ∧ 0 ≤ pf_synced pf ≤ len (pf_data pf) ∧ (current_id (wr w) ≠ Some p → pf_synced pf = len (pf_data pf))) as Hf
    by apply (si_files _ Hi).
  assert (disk_ext (dk w) wd.2) as Hext.
  { unfold wd, sync_writer. destruct (w_active (wr w)) as [a|]; [|destruct (w_abandoned (wr w))].
    - eapply disk_ext_trans; [apply append_file_ext|]. apply sync_file_ext. intros p pf. rewrite append_file_lookup. case_decide.
      + intros (pf0 & Hp0 & ->)%fmap_Some. destruct (Hf p pf0 Hp0) as (_ & ? & _). cbn. rewrite len_app. pose proof (len_nonneg (a_buf a)). lia.
      + intros Hp. destruct (Hf p pf Hp) as (_ & ? & _). lia.
    - apply sync_file_ext. intros p pf Hp. destruct (Hf p pf Hp) as (_ & ? & _). lia.
    - intros p pf Hp. by exists pf. }
  assert (∀ p pf, wd.2 !! p = Some pf → 0 ≤ p < x_next w ∧ pf_synced pf = len (pf_data pf)) as Hsync.
  { intros p pf. unfold wd, sync_writer. destruct (w_active (wr w)) as [a|] eqn:Ea; [|destruct (w_abandoned (wr w)) as [q|] eqn:Eb]; cbn [snd].
    - rewrite sync_file_lookup. case_decide as Ep.
      + rewrite append_file_lookup, decide_True by done. destruct (dk w !! p) as [pf0|] eqn:Hp; [|done]. cbn. intros [= <-]. by split; [apply (Hf p pf0 Hp)|].
      + rewrite append_file_lookup, decide_False by done. intros Hp. destruct (Hf p pf Hp) as (? & _ & Hs). split; [done|]. apply Hs. rewrite (current_active w a Ea). congruence.
    - rewrite sync_file_lookup. case_decide as Ep.
      + destruct (dk w !! p) as [pf0|] eqn:Hp; [|done]. cbn. intros [= <-]. by split; [apply (Hf p pf0 Hp)|].
      + intros Hp. destruct (Hf p pf Hp) as (? & _ & Hs). split; [done|]. apply Hs. unfold current_id. rewrite Ea, Eb. congruence.
    - intros Hp. destruct (Hf p pf Hp) as (? & _ & Hs). split; [done|]. apply Hs. unfold current_id. by rewrite Ea, Eb. }
  assert (current_id wd.1 = current_id (wr w)) as Hcur.
  { unfold wd, sync_writer, current_id. destruct (w_active (wr w)) eqn:Ea; [done|]. destruct (w_abandoned (wr w)) eqn:E; cbn; by rewrite ?Ea, ?E. }
  assert (w_next_pack_id wd.1 = w_next_pack_id (wr w)) as Hnp.
  { unfold wd, sync_writer. destruct (w_active (wr w)); [done|]. by destruct (w_abandoned (wr w)). }
  assert (∀ a, w_active wd.1 = Some a → w_abandoned wd.1 = None ∧ a_id a < x_next w ∧
     ((∃ pf, wd.2 !! a_id a = Some pf ∧ a_len a = len (pf_data pf) + len (a_buf a)) ∨ ¬ accepts (tb w) (a_id a))) as Hact.
  { unfold wd, sync_writer. destruct (w_active (wr w)) as [a|] eqn:Ea; [|destruct (w_abandoned (wr w)) eqn:Eb; cbn; rewrite ?Ea; done].
    cbn. intros a' [= <-]. destruct (si_writer _ Hi a Ea) as (? & ? & [(pf & Hpf & Hl)|?]); split_and!; try done; [left|by right].
    cbn. eexists. rewrite sync_file_lookup, decide_True, append_file_lookup, decide_True, Hpf by done. split; [done|]. cbn. rewrite Hl, len_app, len_nil. lia. }
  destruct (files_step w wd.2 wd.1 fl Hi Hlk Hext) as [Hi2 Hg].
  { intros p pf Hp. destruct (Hsync p pf Hp) as [? Es]. pose proof (len_nonneg (pf_data pf)). split_and!; try done; lia. }
  { pose proof (si_next _ Hi). lia. }
  { done. }
  split_and!; try done.
  - intros p pf Hp. by apply Hsync in Hp as [_ ?].
  - intros p Hp. unfold w2, dk. cbn. unfold wd, sync_writer. destruct (w_active (wr w)) as [a|]; [|destruct (w_abandoned (wr w))]; cbn;
      rewrite ?sync_file_lookup, ?append_file_lookup, ?Hp; repeat case_decide; done.
  - change (wr w2) with wd.1. unfold wd, sync_writer. by destruct (w_active (wr w)).
  - intros a Ha. apply (Hact a Ha).
  - intros p off b [Hd|[Hd|Hd]]; [left|by right|left].
    + eapply at_disk_prefix; [exact Hd|]. intros pf Hp. destruct (Hext p pf Hp) as (pf' & ? & ? & _). by exists pf'.
    + destruct Hd as (a & pf & Ha & <- & Hpf & H0 & Hl & Hb). unfold w2, dk. cbn. unfold wd, sync_writer. rewrite Ha. cbn.
      eexists. rewrite sync_file_lookup, decide_True, append_file_lookup, decide_True, Hpf by done. split_and!; [done|done|done|done].
Qed.

Definition fresh_pack (id : Z) (w : World) : Prop := x_next w ≤ id < w_next_pack_id (wr w).

Lemma wp_next_pack γ (Q : Held → option Z → World → Prop) w :
  h_own γ = true → current_ok w → SInv w →
  (∀ id w3, Inv γ w3 → after γ w w3 → current_ok w3 → fresh_pack id w3 →
     (∀ p off b, written w p off b → written w3 p off b) → Q γ (Some id) w3) →
  (∀ w3, Inv γ w3 → after γ w w3 → current_ok w3 → Q γ None w3) →
  wp γ (do ANextPack) Q w.
Proof.
  intros Ho Hc Hi0 HQ HE. apply wp_do; [done|]. intros w1 (Hi & Hlk & Hrest) Hr r s2 E. cbn [exec] in E.
  specialize (Hlk Ho). pose proof (rely_current_ok γ w w1 Ho Hr Hc) as Hc1. change (s_writer (x_s w1)) with (wr w1) in E.
  destruct (Z.leb_spec (u32_max - 1) (w_next_pack_id (wr w1))) as [Hfull|Hlt]; simplify_eq; exists (x_gens w1), (x_next w1).
  - destruct w1 as [s G nx]. split_and!; [done|apply calm_guar, calm_refl|].
    intros w3 Hi3 Hr3. apply HE; [done| |by apply (rely_current_ok γ _ w3 Ho Hr3)]. eapply after_trans; by apply after_rely.
  - set (wr' := mkWriter _ _ _). destruct (files_step w1 (dk w1) wr' (s_faults (x_s w1)) Hi Hlk) as [Hi2 Hg].
    { intros p pf Hp. by exists pf. }
    { apply (si_files _ Hi). }
    { cbn. lia. }
    { apply (si_writer _ Hi). }
    set (w2 := mkWorld _ _ _) in *. destruct (own_step_both _ _ Hg γ Ho) as [Hg1 _]. split_and!; [done|done|]. intros w3 Hi3 Hr3.
    apply HQ; [done|by eapply own_after|by apply (rely_current_ok γ w2 w3 Ho Hr3)| |].
    + unfold fresh_pack. destruct (r_own _ _ _ Hr3 Ho) as [-> -> _ _ _ _]. cbn. pose proof (si_next _ Hi). lia.
    + intros p off b Hw. apply (rely_written γ w2 w3 p off b Hi2 Ho Hr3). by apply (rely_written γ w w1 p off b Hi0 Ho Hr).
Qed.

Lemma sealed_state old t p :
  (∀ o, old = Some o → pack_state t o = Some Active) →
  p_state <$> sealed_infos old (infos t) !! p = if decide (old = Some p) then Some Sealed else pack_state t p.
Proof.
  intros Ho. unfold sealed_infos. destruct old as [o|]; [|by rewrite decide_False]. specialize (Ho o eq_refl).
  unfold pack_state in Ho. apply fmap_Some in Ho as (i & Hi & _). rewrite Hi. destruct (decide (o = p)) as [->|Hne].
  - by rewrite lookup_insert_eq, decide_True.
  - rewrite lookup_insert_ne, decide_False by congruence. done.
Qed.

Lemma wp_register γ old id (Q : Held → result BErr unit → World → Prop) w :
  h_own γ = true → current_ok w → SInv w → fresh_pack id w → old = current_id (wr w) →
  (∀ w3, Inv γ w3 → after γ w w3 → 0 ≤ id < x_next w3 → pack_state (tb w3) id = Some Active → dk w3 !! id = None →
     (∀ p off b, written w p off b → written w3 p off b) → Q γ (Ok tt) w3) →
  (∀ e w3, Inv γ w3 → after γ w w3 → current_ok w3 → Q γ (Err e) w3) →
  wp γ (do (ACommit (register_txn old id))) Q w.
Proof.
  intros Ho Hc Hi0 Hfresh Hold HQ HE. apply wp_do; [done|]. intros w1 (Hi & Hlk & Hrest) Hr r s2 E. cbn [exec] in E.
  specialize (Hlk Ho). pose proof (rely_current_ok γ w w1 Ho Hr Hc) as Hc1.
  destruct (r_own _ _ _ Hr Ho) as [Ew En _ _ _ _].
  assert (fresh_pack id w1) as Hf1 by (unfold fresh_pack in *; by rewrite Ew, En).
  assert (∀ o, old = Some o → pack_state (tb w1) o = Some Active) as Hact.
  { intros o ->. apply Hc1. by rewrite Ew. }
  pose proof (si_next _ Hi) as Hnx. destruct (si_idx _ Hi) as [V HV].
  assert (infos (tb w1) !! id = None) as Hno.
  { destruct (infos (tb w1) !! id) eqn:Ei; [|done]. destruct (si_infos _ Hi id) as [_ ?]; [left; by rewrite Ei|]. unfold fresh_pack in Hf1. lia. }
  assert (dk w1 !! id = None) as Hnofile.
  { destruct (dk w1 !! id) as [pf|] eqn:Ei; [|done]. destruct (si_files _ Hi id pf Ei) as ((_ & ?) & _). unfold fresh_pack in Hf1. lia. }
  pose proof (register_spec bs (tb w1) V old id HV Hno) as Hsp. unfold spec in Hsp.
  unfold index_update in E. change (s_tables (x_s w1)) with (tb w1) in E.
  destruct (register_txn old id (tb w1)) as [[[] t']|e]; [|exfalso; by apply Hsp]. simplify_eq.
  destruct Hsp as (HV' & Er & Eni & Einf & Emt).
  exists (x_gens w1), (id + 1). set (w2 := mkWorld _ _ _).
  assert (∀ p, pack_state t' p = if decide (p = id) then Some Active else if decide (current_id (wr w) = Some p) then Some Sealed else pack_state (tb w1) p) as Est.
  { intros p. unfold pack_state at 1. rewrite Einf. case_decide as Ep; [subst; by rewrite lookup_insert_eq|].
    rewrite lookup_insert_ne by congruence. by apply sealed_state. }
  assert (∀ p, p ≠ id → accepts t' p ↔ accepts (tb w1) p) as Hacc.
  { intros p Hp. rewrite !pack_state_accepts, Est, decide_False by done. case_decide as Ec; [|done].
    rewrite (Hact p Ec). split; intros _; eexists; by split. }
  assert (∀ p, p < x_next w1 → p ≠ id) as Hlt by (unfold fresh_pack in Hf1; lia).
  assert (∀ p, gone p w1 → gone p w2) as Hgone.
  { intros p (Hp & H1 & H2). unfold gone. change (tb w2) with t'. change (du w2) with (du w1). rewrite Hacc by (by apply Hlt).
    split_and!; [cbn; unfold fresh_pack in Hf1; lia|done|done]. }
  assert (SInv w2) as Hi2.
  { destruct Hi as [I1 I2 I3 I4 I5 I6 I7 I8 I9 I10 I11 I12 I13]. split; try done.
    - by exists V.
    - intros x l. change (tb w2) with t'. rewrite Er. apply I2.
    - intros p pf Hp. destruct (I5 p pf Hp) as (? & ? & ?). split_and!; try done; cbn; unfold fresh_pack in Hf1; lia.
    - intros p. rewrite !infos_state. change (tb w2) with t'. change (du w2) with (du w1). rewrite Est. cbn.
      destruct (decide (p = id)) as [->|Hne]; [intros _; unfold fresh_pack in Hf1; lia|]. intros Hp.
      assert (0 ≤ p < x_next w1); [|unfold fresh_pack in Hf1; lia]. apply I6. rewrite !infos_state. destruct Hp as [Hp|Hp]; [left|by right].
      case_decide as Ec; [|done]. by rewrite (Hact p Ec).
    - unfold fresh_pack in Hf1. change (wr w2) with (wr w1). change (x_next w2) with (id + 1). lia.
    - intros a Ha. destruct (I8 a Ha) as (? & ? & H3). split_and!; [done|cbn; unfold fresh_pack in Hf1; lia|].
      destruct H3 as [?|?]; [by left|right]. change (tb w2) with t'. rewrite Hacc by (by apply Hlt). done.
    - intros Hf. cbn in Hf. congruence.
    - intros p r Hp. destruct (I11 p r Hp) as [? ?]. split; [by apply Hgone|done].
    - split; [|apply I13]. destruct I13 as [[M1 M2] _]. unfold meta_ok. change (tb w2) with t'. by rewrite !Emt, !decide_False by (by vm_compute). }
  assert (own_step w1 w2) as Hs.
  { split.
    - split; try done.
      + cbn. unfold fresh_pack in Hf1. lia.
      + intros p Hp. change (tb w2) with t'. rewrite Hacc by (by apply Hlt). done.
      + intros p Hp. change (tb w2) with t'. rewrite Est, decide_False by (by apply Hlt). case_decide; done.
      + intros p pf Hp. left. by exists pf.
      + change (tb w2) with t'. by rewrite Eni.
      + intros x l. change (tb w2) with t'. rewrite Er. intros ?. right. by exists l.
    - intros p Hp. change (tb w2) with t'. apply Hacc; [|done]. intros ->. destruct Hp as (i & Hi' & _). congruence.
    - intros g p [Hp|Hp]; (split; [|intros pf ?; by exists pf]); [left|by right]. change (tb w2) with t'. apply Hacc; [|done].
      intros ->. destruct Hp as (i & Hi' & _). congruence.
    - intros f o _ Hf. split; [|done]. apply (holds_same bs Hbs (tb w1) t' V f o); [apply HV|apply HV'|done|done]. }
  destruct (own_step_both _ _ Hs γ Ho) as [Hg1 _]. split_and!; [done|done|]. intros w3 Hi3 Hr3. destruct (r_own _ _ _ Hr3 Ho) as [_ En3 _ Ha3 _ Hn3].
  apply HQ; [done|by eapply own_after| | | |].
  - rewrite En3. cbn. unfold fresh_pack in Hf1. lia.
  - apply Ha3. change (tb w2) with t'. by rewrite Est, decide_True.
  - by apply Hn3.
  - intros p off b Hw. apply (rely_written γ w2 w3 p off b Hi2 Ho Hr3). apply (rely_written γ w w1 p off b Hi0 Ho Hr) in Hw as [?|[[Hp Hd]|?]]; [by left| |by right; right].
    right. left. split; [cbn; unfold fresh_pack in Hf1; lia|]. change (tb w2) with t'. rewrite Hacc by (by apply Hlt). done.
Qed.

Lemma wp_start γ id (Q : Held → result BErr unit → World → Prop) w :
  h_own γ = true → SInv w → 0 ≤ id < x_next w → pack_state (tb w) id = Some Active → dk w !! id = None →
  (∀ w3, Inv γ w3 → after γ w w3 → current_ok w3 → (∀ n, fits w3 n) →
     (∀ p off b, written w p off b → written w3 p off b) → Q γ (Ok tt) w3) →
  (∀ e w3, Inv γ w3 → after γ w w3 → current_ok w3 → Q γ (Err e) w3) →
  wp γ (do (AStart id)) Q w.
Proof.
  intros Ho Hi0 Hid Hst Hno HQ HE. apply wp_do; [done|]. intros w1 (Hi & Hlk & Hrest) Hr r s2 E. cbn [exec] in E.
  specialize (Hlk Ho). destruct (r_own _ _ _ Hr Ho) as [Ew En _ Ha1 _ Hn1].
  specialize (Ha1 id Hst). specialize (Hn1 id Hno).
  unfold start_pack in E. change (s_writer (x_s w1)) with (wr w1) in E. change (s_disk (x_s w1)) with (dk w1) in E.
  destruct (next_fault (x_s w1)) as [ft fl].
  destruct (sync_writer_step w1 fl Hi Hlk) as (Hi2 & Hg & Hsy & Hext & Hnone & Hcur & Hnp & Hact & Habn & Hwr).
  destruct (sync_writer (wr w1) (dk w1)) as [w' d'] eqn:Esw. cbn [fst snd] in *. set (w2 := mkWorld (with_files d' w' fl (x_s w1)) (x_gens w1) (x_next w1)) in *.
  change (dk w2) with d' in *. change (wr w2) with w' in *.
  assert (match w_active w' with Some _ => w_abandoned w' | None => None end = None) as Eab
    by (destruct (w_active w') as [a|] eqn:Ea; [by eapply Habn|done]).
  rewrite Eab in E. clear Eab.
  destruct (f_fails ft || bool_decide (is_Some (d' !! id))) eqn:Ef; simplify_eq; exists (x_gens w1), (x_next w1).
  - destruct (files_step w2 d' (mkWriter None None (w_next_pack_id w')) fl Hi2 Hlk) as [Hi3 Hg3].
    { intros p pf Hp. by exists pf. }
    { intros p pf Hp. destruct (si_files _ Hi2 p pf Hp) as (? & ? & _). split_and!; try done; try lia. intros _. by apply (Hsy p pf). }
    { cbn. pose proof (si_next _ Hi2) as Hnx. change (wr w2) with w' in Hnx. lia. }
    { done. }
    set (w2' := mkWorld _ _ _) in Hi3, Hg3 |- *. pose proof (own_step_trans _ _ _ Hg Hg3) as Hs.
    split_and!; [exact Hi3|apply (own_step_both _ _ Hs γ Ho)|]. intros w3 Hiv Hr3. apply HE; [done|by eapply own_after|].
    apply (rely_current_ok γ w2' w3 Ho Hr3). intros p Hp. cbn in Hp. congruence.
  - apply orb_false_iff in Ef as [_ Ef%bool_decide_eq_false].
    set (d2 := <[id := mkPackFile [] 0]> d').
    assert (d' !! id = None) as Hid' by (destruct (d' !! id) eqn:E'; [exfalso; by apply Ef|done]).
    destruct (files_step w2 d2 (mkWriter (Some (mkActive id [] 0)) None (w_next_pack_id w')) fl Hi2 Hlk) as [Hi3 Hg3].
    { intros p pf Hp. exists pf. split_and!; try done. unfold d2. rewrite lookup_insert_ne; [done|]. intros <-. change (dk w2) with d' in Hp. congruence. }
    { intros p pf. unfold d2. rewrite lookup_insert_Some. intros [[<- <-]|[Hne Hp]].
      - cbn. split_and!; try done; lia.
      - destruct (si_files _ Hi2 p pf Hp) as (? & ? & _). split_and!; try done; try lia. intros _. by apply (Hsy p pf). }
    { cbn. pose proof (si_next _ Hi2) as Hnx. change (wr w2) with w' in Hnx. lia. }
    { intros a [= <-]. cbn. split_and!; [done|lia|]. left. exists (mkPackFile [] 0). split; [unfold d2; by rewrite lookup_insert_eq|done]. }
    set (w2' := mkWorld _ _ _) in Hi3, Hg3 |- *. pose proof (own_step_trans _ _ _ Hg Hg3) as Hs.
    split_and!; [exact Hi3|apply (own_step_both _ _ Hs γ Ho)|]. intros w3 Hiv Hr3.
    apply (HQ w3); [done|by eapply own_after| | |].
    + apply (rely_current_ok γ w2' w3 Ho Hr3). intros p Hp. cbn in Hp. simplify_eq. exact Ha1.
    + intros n a. destruct (r_own _ _ _ Hr3 Ho) as [-> _ _ _ _ _]. cbn. intros [= <-]. by left.
    + intros p off b Hw. apply (rely_written γ w2' w3 p off b Hi3 Ho Hr3). apply (rely_written γ w w1 p off b Hi0 Ho Hr) in Hw.
      destruct (Hwr p off b Hw) as [Hd|Hd]; [left|by right; left]. eapply at_disk_prefix; [exact Hd|]. intros pf Hp. exists pf. split; [|done].
      change (dk w2') with d2. unfold d2. rewrite lookup_insert_ne; [done|]. intros <-. congruence.
Qed.

(** ** Appending *)

Definition placed (w : World) (r : bytes * bytes) (loc : Z * Z) : Prop :=
  written w loc.1 loc.2 (r.1 ++ r.2) ∧ accepts (tb w) loc.1 ∧ in_u32 loc.1 ∧ in_u64 loc.2.
Definition settled (w : World) (r : bytes * bytes) (loc : Z * Z) : Prop :=
  kept w loc.1 loc.2 (r.1 ++ r.2) ∧ in_u32 loc.1 ∧ in_u64 loc.2.

Lemma placed_mono w w3 rs locs :
  keeps_accepting w w3 → (∀ p off b, written w p off b → written w3 p off b) → Forall2 (placed w) rs locs → Forall2 (placed w3) rs locs.
Proof. intros HK HW HF. eapply Forall2_impl; [exact HF|]. intros r l (? & ? & ? & ?). split_and!; auto. Qed.

Lemma wp_append_loop γ rs0 rs out (Q : Held → result BErr (list (Z * Z)) → World → Prop) w0 w :
  h_own γ = true → SInv w → current_ok w → after γ w0 w → Forall2 (placed w) rs0 out →
  (∀ w3 locs, Inv γ w3 → after γ w0 w3 → current_ok w3 → Forall2 (λ r l, settled w3 r l ∧ accepts (tb w3) l.1) (rs0 ++ rs) locs → Q γ (Ok locs) w3) →
  (∀ e w3, Inv γ w3 → after γ w0 w3 → current_ok w3 → Q γ (Err e) w3) →
  wp γ (append_loop rs out) Q w.
Proof.
  revert rs0 out w. induction rs as [|[h pl] rs IH]; intros rs0 out w Ho Hi Hc Haf Hout HQ HE; cbn [append_loop].
  - apply wp_seq, wp_flush; [done|done|done| |].
    + intros w3 Hi3 Haf3 Hc3 Hk. apply wp_ret. intros w4 Hi4 Hr4.
      apply HQ; [done| |by apply (rely_current_ok γ w3)|].
      * eapply after_trans; [exact Haf|]. eapply after_trans; [exact Haf3|by apply after_rely].
      * rewrite app_nil_r. eapply Forall2_impl; [exact Hout|]. intros r l (Hw & Ha & ? & ?).
        split; [|by apply (r_own _ _ _ Hr4 Ho), Haf3]. split_and!; [|done|done]. eapply rely_kept; [exact Hr4|auto].
    + intros e w3 Hi3 Haf3 Hc3. apply wp_ret. intros w4 Hi4 Hr4. apply HE; [done| |by apply (rely_current_ok γ w3)].
      eapply after_trans; [exact Haf|]. eapply after_trans; [exact Haf3|by apply after_rely].
  - assert (∀ w3, Inv γ w3 → after γ w0 w3 → current_ok w3 → fits w3 (len h + len pl) → Forall2 (placed w3) rs0 out →
      wp γ (let? loc := do (AAppend h pl) in append_loop rs (out ++ [loc])) Q w3) as Happ.
    { intros w3 Hi3 Haf3 Hc3 Hf3 Hout3. apply wp_seq, wp_append; [done|done|done| | |apply Hi3].
      - intros w4 p off Hi4 Haf4 Hc4 Hw4 Ha4 Ho4 Hp4 Hk4. apply (IH (rs0 ++ [(h, pl)]) (out ++ [(p, off)]) w4).
        + done.
        + apply Hi4.
        + done.
        + by eapply after_trans.
        + apply Forall2_app; [apply (placed_mono w3); [apply Haf4|done|done]|]. constructor; [|constructor]. split; [done|]. split; [done|by split].
        + rewrite <- app_assoc. exact HQ.
        + exact HE.
      - intros e w4 Hi4 Haf4 Hc4. apply wp_ret. intros w5 Hi5 Hr5. apply HE; [done| |by apply (rely_current_ok γ w4)].
        eapply after_trans; [exact Haf3|]. eapply after_trans; [exact Haf4|by apply after_rely]. }
    apply wp_seq, (wp_view _ _ (λ s, needs_new_pack (c_max_pack_size cfg) (len h + len pl) (s_writer s))); [done|done|done|].
    intros w1 w2 Hi1 Hr1 Hi2 Hr2. change (s_writer (x_s w1)) with (wr w1).
    assert (rely γ w w2) as Hr by (by eapply rely_trans). pose proof (rely_current_ok γ w w2 Ho Hr Hc) as Hc2.
    assert (after γ w0 w2) as Haf2 by (eapply after_trans; [exact Haf|by apply after_rely]).
    assert (Forall2 (placed w2) rs0 out) as Hout2.
    { apply (placed_mono w); [apply (r_own _ _ _ Hr Ho)| |done]. intros p off b. by apply (rely_written γ w w2 p off b Hi Ho Hr). }
    destruct (needs_new_pack (c_max_pack_size cfg) (len h + len pl) (wr w1)) eqn:En.
    + apply wp_seq, wp_seq, wp_next_pack; [done|done|apply Hi2| |].
      2:{ intros w3 Hi3 Haf3 Hc3. apply wp_ret. intros w4 Hi4 Hr4. apply wp_ret. intros w5 Hi5 Hr5.
          apply HE; [done| |apply (rely_current_ok γ w4 w5 Ho Hr5), (rely_current_ok γ w3 w4 Ho Hr4 Hc3)].
          eapply after_trans; [exact Haf2|]. eapply after_trans; [exact Haf3|]. eapply after_trans; by apply after_rely. }
      intros id w3 Hi3 Haf3 Hc3 Hfr3 Hk3.
      apply wp_seq, (wp_view _ _ (λ s, current_id (s_writer s))); [done|done|done|]. intros w4 w5 Hi4 Hr4 Hi5 Hr5.
      assert (rely γ w3 w5) as Hr35 by (by eapply rely_trans). destruct (r_own _ _ _ Hr35 Ho) as [Ew5 En5 _ _ _ _].
      destruct (r_own _ _ _ Hr4 Ho) as [Ew4 _ _ _ _ _].
      apply wp_seq, wp_register; [done|by apply (rely_current_ok γ w3 w5)|apply Hi5|unfold fresh_pack in *; by rewrite Ew5, En5| | |].
      { change (s_writer (x_s w4)) with (wr w4). by rewrite Ew4, Ew5. }
      2:{ intros e w6 Hi6 Haf6 Hc6. apply wp_ret. intros w7 Hi7 Hr7. apply wp_ret. intros w8 Hi8 Hr8.
          apply HE; [done| |apply (rely_current_ok γ w7 w8 Ho Hr8), (rely_current_ok γ w6 w7 Ho Hr7 Hc6)].
          eapply after_trans; [exact Haf2|]. eapply after_trans; [exact Haf3|]. eapply after_trans; [by apply after_rely|].
          eapply after_trans; [exact Haf6|]. eapply after_trans; by apply after_rely. }
      intros w6 Hi6 Haf6 Hid6 Hst6 Hno6 Hk6.
      assert (after γ w2 w6) as Haf26 by (eapply after_trans; [exact Haf3|]; eapply after_trans; [by apply after_rely|exact Haf6]).
      apply wp_start; [done|apply Hi6|done|done|done| |].
      * intros w7 Hi7 Haf7 Hc7 Hf7 Hk7. apply Happ; [done| |done|apply Hf7|].
        -- eapply after_trans; [exact Haf2|]. by eapply after_trans.
        -- eapply placed_mono; [| |exact Hout2]; [eapply after_trans; [exact Haf26|exact Haf7]|].
           intros p off b Hw. apply Hk7, Hk6. apply (rely_written γ w3 w5 p off b (proj1 Hi3) Ho Hr35). by apply Hk3.
      * intros e w7 Hi7 Haf7 Hc7. apply wp_ret. intros w8 Hi8 Hr8. apply HE; [done| |by apply (rely_current_ok γ w7 w8 Ho Hr8)].
        eapply after_trans; [exact Haf2|]. eapply after_trans; [exact Haf26|]. eapply after_trans; [exact Haf7|by apply after_rely].
    + cbn [prog_bind]. apply Happ; [done|done|done| |done]. intros a. destruct (r_own _ _ _ Hr2 Ho) as [-> _ _ _ _ _]. intros Ha.
      unfold needs_new_pack in En. rewrite Ha in En. destruct (Z.ltb_spec 0 (a_len a)) as [Hp|Hz].
      * cbn in En. apply Z.ltb_ge in En. right. lia.
      * left. destruct (r_own _ _ _ Hr1 Ho) as [Ew1 _ _ _ _ _]. destruct (si_writer _ (proj1 Hi1) a Ha) as (_ & _ & [(pf & _ & El)|Hna]).
        -- pose proof (len_nonneg (pf_data pf)). pose proof (len_nonneg (a_buf a)). lia.
        -- destruct Hna. apply (current_accepts w1); [by apply (rely_current_ok γ w w1 Ho Hr1)|by apply current_active].
Qed.

Lemma wp_unlocked {A} γ (a : A) (Q : Held → A → World → Prop) w :
  h_own γ = true → current_ok w → (∀ w3, Inv (unown γ) w3 → rely (unown γ) w w3 → Q (unown γ) a w3) → wp γ (unlocked a) Q w.
Proof.
  intros Ho Hc HQ. unfold unlocked. apply wp_seq, wp_unlock; [done|done|]. intros w3 Hi3 Hr3. apply wp_ret. intros w4 Hi4 Hr4.
  apply HQ; [done|by eapply rely_trans].
Qed.

Lemma unown_owning γ : h_own γ = false → unown (owning γ) = γ.
Proof. destruct γ. cbn. by intros ->. Qed.

Lemma wp_append_records γ rs (Q : Held → result BErr (list (Z * Z)) → World → Prop) w :
  h_own γ = false →
  (∀ w3 locs, Inv γ w3 → rely γ w w3 → Forall2 (λ r l, settled w3 r l ∧ (h_comp γ = true → accepts (tb w3) l.1)) rs locs → Q γ (Ok locs) w3) →
  (∀ e w3, Inv γ w3 → rely γ w w3 → Q γ (Err e) w3) →
  wp γ (append_records rs) Q w.
Proof.
  intros Ho HQ HE. unfold append_records. apply wp_seq, wp_lock; [done|]. intros w1 Hi1 Hr1 Hc1.
  apply wp_seq, (wp_append_loop (owning γ) [] rs [] _ w1 w1); [done|apply Hi1|done|by apply after_rely, rely_refl|constructor| |].
  - intros w2 locs Hi2 Haf2 Hc2 Hp2.
    apply wp_seq. apply wp_do; [done|]. intros w3 (Hi3 & Hlk & Hrest) Hr3 r s2 E. cbn [exec] in E. simplify_eq. exists (x_gens w3), (x_next w3).
    set (w4 := mkWorld _ _ _). assert (calm w3 w4) as Hcl by (by apply like_calm).
    split_and!; [apply (like_inv w3); try done; apply Hi3|by apply calm_guar|]. intros w5 Hi5 Hr5. cbn [held] in *.
    assert (rely (owning γ) w2 w5) as Hr25.
    { eapply rely_trans; [done|]. eapply rely_trans; [by apply calm_rely|done]. }
    apply wp_unlocked; [done|by apply (rely_current_ok (owning γ) w2 w5)|]. rewrite unown_owning by done. intros w6 Hi6 Hr6.
    apply HQ; [done| |].
    + eapply rely_trans; [exact Hr1|]. eapply rely_trans; [|exact Hr6]. destruct Haf2 as [Haf2 _]. apply rely_unown in Hr25.
      rewrite unown_owning in Haf2, Hr25 by done. by eapply rely_trans.
    + eapply Forall2_impl; [exact Hp2|]. intros r l [(Hk & ? & ?) Ha]. split.
      * split_and!; [|done|done]. eapply rely_kept; [exact Hr6|]. by eapply rely_kept.
      * intros Hcomp. apply (r_comp _ _ _ Hr6 Hcomp). by apply (r_own _ _ _ Hr25).
  - intros e w2 Hi2 Haf2 Hc2. apply wp_unlocked; [done|done|]. rewrite unown_owning by done. intros w3 Hi3 Hr3. apply HE; [done|].
    eapply rely_trans; [exact Hr1|]. eapply rely_trans; [|exact Hr3]. destruct Haf2 as [Haf2 _]. by rewrite unown_owning in Haf2.
Qed.
End safe.
