(* ===== verification/BlockOps.v ===== *)
(** BlockOps: what each operation of the block store does, whatever other
    threads do meanwhile.

    Every lemma is a [wp] of BlockSafe for one operation of BlockStore: the
    operation keeps the store's invariant with its every step, interferes with
    nobody's locks, reads or files, and its result is as stated. *)

From S2P Require Import Prelude Seg BlockIndex BlockProps BlockInv BlockStore BlockSafe.

Section ops.
Context `{BC : BlockCodec} `{BCO : !BlockCodecOk} (cfg : StoreConfig) (U : bytes → Prop).
Local Abbreviation bs := (c_block_size cfg).
Context (Hbs : 0 < bs) (Hbs32 : bs < u32_max) (Hmax : in_u64 (c_max_pack_size cfg)).
Local Abbreviation SInv := (SInv cfg U).
Local Abbreviation Inv := (Inv cfg U).
Local Abbreviation rely := (rely cfg).
Local Abbreviation guar := (guar cfg).
Local Abbreviation wp := (wp cfg U).
Local Abbreviation row_stored := (row_stored U).
Local Abbreviation keeps_files := (keeps_files cfg).
Local Abbreviation own_step := (own_step cfg).
Local Abbreviation after := (after cfg).

(** ** Durable commits *)

Definition synced_current (w : World) : Prop :=
  ∀ p pf, current_id (wr w) = Some p → dk w !! p = Some pf → pf_synced pf = len (pf_data pf).

Lemma rely_synced γ w w' : h_own γ = true → current_ok w → rely γ w w' → synced_current w → synced_current w'.
Proof.
  intros Ho Hc Hr Hs p pf. destruct (r_own _ _ _ _ Hr Ho) as [-> _ Hcur _ _ _]. intros Hp. rewrite Hcur; [by apply Hs|done|].
  by apply current_accepts.
Qed.

Lemma row_stored_synced w l : SInv w → synced_current w → row_stored (dk w) l → row_stored (synced_disk (dk w)) l.
Proof.
  intros Hi Hs (blk & b & Ha & Hb). exists blk, b. split; [|done]. eapply at_disk_prefix; [exact Ha|]. intros pf Hp.
  unfold synced_disk. rewrite lookup_fmap, Hp. eexists. split; [done|]. cbn.
  assert (pf_synced pf = len (pf_data pf)) as ->.
  { destruct (decide (current_id (wr w) = Some (l_pack l))) as [E|E]; [by apply (Hs (l_pack l))|by apply (si_files _ _ _ Hi _ _ Hp)]. }
  unfold len. by rewrite Nat2Z.id, firstn_all.
Qed.

(** The index becomes durable, and perhaps a pack that nothing is in retires. *)
Definition retiring (ret : option Z) (w : World) : gmap Z Z :=
  match ret with
  | Some p => match x_gens w !! p with Some _ => x_gens w | None => <[p := s_generation (x_s w)]> (x_gens w) end
  | None => x_gens w
  end.

Lemma durable_step ret t' V u c w :
  SInv w → s_locked (x_s w) = true → synced_current w → current_ok w → IdxInv bs (tb w) V [] [] [] → IdxInv bs t' V [] [] [] →
  rows t' = rows (tb w) → next_id t' = next_id (tb w) → meta_ok cfg t' →
  (∀ q, pack_state t' q = if decide (ret = Some q) then Some Retired else pack_state (tb w) q) →
  (∀ q, ret = Some q → is_Some (pack_state (tb w) q) ∧ pack_state (tb w) q ≠ Some Active) →
  let w' := mkWorld (with_counts u c (with_durable t' (with_tables t' (x_s w)))) (retiring ret w) (x_next w) in
  SInv w' ∧ Ev w w' ∧ keeps_files (λ _, True) w w' ∧ (∀ g, is_Some (s_reads (x_s w) !! g) → protects g w w') ∧
  (ret = None → own_step w w').
Proof.
  intros Hi Hlk Hsy Hc HV HV' Er En Hmt Hst Hret w'.
  assert (∀ p, accepts t' p → accepts (tb w) p) as Hacc.
  { intros p. rewrite !pack_state_accepts, Hst. intros (x & E & Hx). case_decide; [simplify_eq|by exists x]. }
  assert (∀ p, is_Some (infos t' !! p) → is_Some (infos (tb w) !! p)) as Hinf.
  { intros p. rewrite !infos_state, Hst. case_decide; [|done]. intros _. by apply Hret. }
  assert (∀ p, p < x_next w → ¬ accepts (tb w) p → gone p w') as Hgone.
  { intros p Hp Hn. split_and!; [done|intros Ha; by apply Hn, Hacc|intros Ha; by apply Hn, Hacc]. }
  assert (∀ p, ret = Some p → gone p w') as Hgret.
  { intros p ->. assert (¬ accepts t' p) as Hna.
    { rewrite pack_state_accepts, Hst, decide_True by done. intros (x & [= <-] & ?). done. }
    split_and!; [|done|done]. apply (si_infos _ _ _ Hi). left. apply infos_state. by apply Hret. }
  assert (∀ p r, x_gens w !! p = Some r → retiring ret w !! p = Some r) as Hge.
  { intros p r Hp. unfold retiring. destruct ret as [q|]; [|done]. destruct (x_gens w !! q) eqn:Eq; [done|].
    rewrite lookup_insert_ne; [done|]. intros ->. congruence. }
  assert (∀ p r, retiring ret w !! p = Some r → x_gens w !! p = Some r ∨ (ret = Some p ∧ r = s_generation (x_s w))) as Hge2.
  { intros p r. unfold retiring. destruct ret as [q|]; [|by left]. destruct (x_gens w !! q) eqn:Eq; [by left|].
    rewrite lookup_insert_Some. intros [[-> <-]|[_ ?]]; [by right|by left]. }
  pose proof Hi as [I1 I2 I3 I4 I5 I6 I7 I8 I9 I10 I11 I12 I13].
  assert (SInv w') as Hi'.
  { split; try done.
    - by exists V.
    - intros id l. change (tb w') with t'. rewrite Er. apply I2.
    - by exists V.
    - intros id l. change (du w') with t'. rewrite Er. intros Hl. apply (row_stored_synced w); [done|done|by eapply I2].
    - intros p. change (tb w') with t'. change (du w') with t'. intros [Hp|Hp]; apply I6; left; by apply Hinf.
    - intros a Ha. destruct (I8 a Ha) as (? & ? & [?|Hn]); split_and!; try done; [by left|right]. intros Hx. by apply Hn, Hacc.
    - intros Hf. cbn in Hf. congruence.
    - intros p r Hp. destruct (Hge2 p r Hp) as [Hx|[Hx ->]]; [|by split; [apply Hgret|]].
      destruct (I11 p r Hx) as [(? & ? & _) ?]. split; [by apply Hgone|done].
    - intros p g Hp. destruct (I12 p g Hp) as (r & Hr & ?). exists r. split; [by apply Hge|done]. }
  assert (Ev w w') as HE.
  { split; try done.
    - intros p Hp Hn. by apply Hgone.
    - intros p (? & ? & _). by apply Hgone.
    - intros p Hp Hn. change (tb w') with t'. rewrite Hst. by case_decide.
    - intros p pf Hp. left. by exists pf.
    - change (tb w') with t'. by rewrite En.
    - intros id l. change (tb w') with t'. rewrite Er. intros ?. right. by exists l. }
  assert (keeps_files (λ _, True) w w') as HF.
  { intros f o _ Ho. assert (holds bs t' f o) by (apply (holds_same bs Hbs (tb w) t' V f o); [apply HV|apply HV'|done|done]). done. }
  assert (∀ q, ret ≠ Some q → accepts (tb w) q → accepts t' q) as Hkeep.
  { intros q Hq. rewrite !pack_state_accepts, Hst. by rewrite decide_False. }
  split_and!; [done|done|done| |].
  - intros g Hg p Hp. split; [|intros pf ?; by exists pf]. destruct Hp as [Hp|(r & Hp & ?)]; [|right; exists r; split; [by apply Hge|done]].
    destruct (decide (ret = Some p)) as [Ep|Ep]; [right|left; by apply Hkeep].
    assert (x_gens w !! p = None) as Hno.
    { destruct (x_gens w !! p) eqn:E; [|done]. destruct (I11 p _ E) as [(_ & Hn & _) _]. done. }
    exists (s_generation (x_s w)). split; [|destruct Hg as [n Hg]; by apply (I10 g n)].
    unfold w'. cbn [x_gens]. unfold retiring. by rewrite Ep, Hno, lookup_insert_eq.
  - intros ->. split; [done|intros p; by apply Hkeep| |done].
    intros g p Hp. split; [|intros pf ?; by exists pf]. destruct Hp as [Hp|Hp]; [left; by apply Hkeep|by right].
Qed.

Lemma wp_sync γ (Q : Held → unit → World → Prop) w :
  h_own γ = true → current_ok w →
  (∀ w3, Inv γ w3 → after γ w w3 → current_ok w3 → synced_current w3 → Q γ tt w3) → wp γ (do ASync) Q w.
Proof.
  intros Ho Hc HQ. apply wp_do; [done|]. intros w1 (Hi & Hlk & Hrest) Hr r s2 E. cbn [exec] in E.
  specialize (Hlk Ho). pose proof (rely_current_ok cfg γ w w1 Ho Hr Hc) as Hc1. unfold pw_sync in E.
  destruct (sync_writer_step cfg U w1 (s_faults (x_s w1)) Hi Hlk) as (Hi2 & Hg & Hsy & _ & _ & Hcur & _).
  change (s_writer (x_s w1)) with (wr w1) in E. change (s_disk (x_s w1)) with (dk w1) in E.
  destruct (sync_writer (wr w1) (dk w1)) as [w' d'] eqn:Esw. cbn [fst snd] in *. simplify_eq. exists (x_gens w1), (x_next w1).
  set (w2 := mkWorld _ _ _) in *. destruct (own_step_both cfg _ _ Hg γ Ho) as [Hg1 _].
  split_and!; [done|done|]. intros w3 Hi3 Hr3.
  assert (current_ok w2) as Hc2 by (intros p Hp; rewrite Hcur in Hp; by apply Hc1).
  apply HQ; [done|by eapply own_after|by apply (rely_current_ok cfg γ w2)|].
  eapply rely_synced; [done|exact Hc2|exact Hr3|]. intros p pf _. apply Hsy.
Qed.

(** What the thread's files held is durable. *)
Definition saved (γ : Held) (w w' : World) : Prop := ∀ f o, f ∈ h_files γ → holds bs (tb w) f o → holds bs (du w') f o.
Lemma saved_rely γ γ' w w1 w2 : h_files γ = h_files γ' → rely γ w w1 → rely γ' w1 w2 → saved γ w w1 → saved γ w w2.
Proof.
  intros Ef H1 H2 Hs f o Hf Ho. assert (f ∈ h_files γ') as Hf' by (by rewrite <- Ef).
  apply (r_files _ _ _ _ H2 f o); [done|by apply (r_files _ _ _ _ H1)|by apply Hs].
Qed.
Lemma saved_before γ w w1 w2 : rely γ w w1 → saved γ w1 w2 → saved γ w w2.
Proof. intros H1 Hs f o Hf Ho. apply Hs; [done|]. by apply (r_files _ _ _ _ H1). Qed.

(** A function that changes neither rows nor the states of packs. *)
Definition still {X} (f : TM X) : Prop := ∀ t V, IdxInv bs t V [] [] [] →
  spec f t False (λ _ t', IdxInv bs t' V [] [] [] ∧ rows t' = rows t ∧ next_id t' = next_id t ∧ (meta_ok cfg t → meta_ok cfg t') ∧
    ∀ q, pack_state t' q = pack_state t q).

Lemma wp_durable {X} γ (f : TM X) n (Q : Held → result BErr X → World → Prop) w :
  h_own γ = true → current_ok w → synced_current w → still f →
  (∀ r w3, Inv γ w3 → after γ w w3 → current_ok w3 → (∀ a, r = Ok a → saved γ w w3) → Q γ r w3) → wp γ (do (ADurable f n)) Q w.
Proof.
  intros Ho Hc Hs Hf HQ. apply wp_do; [done|]. intros w1 (Hi & Hlk & Hrest) Hr r s2 E. cbn [exec] in E.
  specialize (Hlk Ho). pose proof (rely_current_ok cfg γ w w1 Ho Hr Hc) as Hc1. pose proof (rely_synced γ w w1 Ho Hc Hr Hs) as Hs1.
  destruct (si_idx _ _ _ Hi) as [V HV]. specialize (Hf (tb w1) V HV). unfold spec in Hf. unfold index_update in E.
  change (s_tables (x_s w1)) with (tb w1) in E. destruct (f (tb w1)) as [[a t']|e]; simplify_eq.
  - destruct Hf as (HV' & Er & En & Hmt & Hst).
    destruct (durable_step None t' V 0 (s_unflushed_commits (x_s w1) - n) w1 Hi Hlk Hs1 Hc1 HV HV' Er En) as (Hi2 & _ & HF2 & _ & Hown); [apply Hmt, (si_meta _ _ _ Hi)|done|done|].
    specialize (Hown eq_refl). exists (retiring None w1), (x_next w1). set (w2 := mkWorld _ _ _) in *. destruct (own_step_both cfg _ _ Hown γ Ho) as [Hg1 _].
    split_and!; [done|done|]. intros w3 Hi3 Hr3. apply HQ; [done|by eapply own_after| |].
    + apply (rely_current_ok cfg γ w2 w3 Ho Hr3). intros p Hp. change (tb w2) with t'. rewrite Hst. by apply Hc1.
    + intros _ _ g o Hg Hgo. assert (holds bs (tb w2) g o) as Hg2 by (apply (proj1 (HF2 g o I (proj1 (r_files _ _ _ _ Hr g o Hg Hgo))))).
      by apply (proj2 (r_files _ _ _ _ Hr3 g o Hg Hg2)).
  - exists (x_gens w1), (x_next w1). destruct w1 as [s G nx]. split_and!; [done|apply calm_guar, calm_refl|]. intros w3 Hi3 Hr3.
    apply HQ; [done|eapply after_rely; [done|by eapply rely_trans]|by apply (rely_current_ok cfg γ (mkWorld s G nx))|done].
Qed.

Lemma wp_durable_locked {X} γ (f : TM X) (Q : Held → result BErr X → World → Prop) w :
  h_own γ = true → current_ok w → still f →
  (∀ r w3, Inv (unown γ) w3 → rely (unown γ) w w3 → (∀ a, r = Ok a → saved γ w w3) → Q (unown γ) r w3) → wp γ (durable_commit_locked f) Q w.
Proof.
  intros Ho Hc Hf HQ. unfold durable_commit_locked. apply wp_seq, wp_sync; [done|done|]. intros w1 Hi1 Haf1 Hc1 Hs1.
  apply wp_seq, (wp_view _ _ _ _ (λ s, s_unflushed_commits s)); [done|done|done|]. intros w2 w3 Hi2 Hr2 Hi3 Hr3.
  assert (rely γ w1 w3) as Hr13 by (by eapply rely_trans).
  pose proof (rely_current_ok cfg γ w1 w3 Ho Hr13 Hc1) as Hc3.
  apply wp_seq, wp_durable; [done|done|by apply (rely_synced γ w1 w3)|done|]. intros r w4 Hi4 Haf4 Hc4 Hs4.
  assert (after γ w w3) as [Haf3 _] by (eapply after_trans; [exact Haf1|by apply after_rely]). destruct Haf4 as [Haf4 _].
  apply wp_unlocked; [done|done|]. intros w5 Hi5 Hr5. assert (rely (unown γ) w w4) as Haf by (by eapply rely_trans). apply HQ; [done|by eapply rely_trans|].
  intros a Ha. apply (saved_rely (unown γ) (unown γ) w w4 w5); [done|done|done|]. apply (saved_before (unown γ) w w3 w4 Haf3). by apply (Hs4 a).
Qed.

Lemma wp_durable_commit {X} γ (f : TM X) (Q : Held → result BErr X → World → Prop) w :
  h_own γ = false → still f → (∀ r w3, Inv γ w3 → rely γ w w3 → (∀ a, r = Ok a → saved γ w w3) → Q γ r w3) → wp γ (durable_commit f) Q w.
Proof.
  intros Ho Hf HQ. unfold durable_commit. apply wp_seq, wp_lock; [done|]. intros w1 Hi1 Hr1 Hc1.
  apply wp_durable_locked; [done|done|done|]. rewrite unown_owning by done. intros r w2 Hi2 Hr2 Hs2. apply HQ; [done|by eapply rely_trans|].
  intros a Ha. apply (saved_before γ w w1 w2 Hr1). by apply (Hs2 a).
Qed.

Lemma still_ret : still (mret tt).
Proof. intros t V HV. by apply spec_ret. Qed.
Lemma still_meta k v : k ≠ META_NEXT_BLOCK_ID → k ≠ META_BLOCK_SIZE → k ≠ META_SCHEMA_VERSION → still (put_meta k v).
Proof.
  intros Hk Hk1 Hk2 t V HV. unfold spec. cbn [put_meta twrite]. set (t' := set_meta _ t). assert (next_id t' = next_id t) as En by (by apply next_id_meta).
  split_and!; [|done|done| |done].
  - eapply packs_inv; [exact HV|done|done|done|done|done|]. apply HV.
  - unfold meta_ok, meta. cbn [t' set_meta t_meta]. intros [? ?]. by rewrite !lookup_insert_ne by done.
Qed.

(** [flush] and the shutdowns. *)
Lemma wp_bs_flush γ (Q : Held → result BErr unit → World → Prop) w :
  h_own γ = false → (∀ r w3, Inv γ w3 → rely γ w w3 → (∀ a, r = Ok a → saved γ w w3) → Q γ r w3) → wp γ flush Q w.
Proof. intros Ho HQ. apply wp_durable_commit; [done|apply still_ret|done]. Qed.
Lemma wp_shutdown γ token (Q : Held → result BErr unit → World → Prop) w :
  h_own γ = false → (∀ r w3, Inv γ w3 → rely γ w w3 → (∀ a, r = Ok a → saved γ w w3) → Q γ r w3) → wp γ (shutdown_with_token token) Q w.
Proof.
  intros Ho HQ. unfold shutdown_with_token. case_match; [by apply wp_ret; intros; apply HQ|]. apply wp_durable_commit; [done|by apply still_meta; vm_compute|done].
Qed.

Lemma wp_auto_flush γ (Q : Held → result BErr unit → World → Prop) w :
  h_own γ = false → (∀ r w3, Inv γ w3 → rely γ w w3 → Q γ r w3) → wp γ maybe_auto_flush Q w.
Proof.
  intros Ho HQ. unfold maybe_auto_flush.
  apply wp_seq, (wp_view _ _ _ _ (auto_flush_due cfg)); [done|done|done|]. intros w1 w2 Hi1 Hr1 Hi2 Hr2.
  assert (rely γ w w2) as Hr by (by eapply rely_trans).
  destruct (negb _); [apply wp_ret; intros w3 Hi3 Hr3; apply HQ; [done|by eapply rely_trans]|].
  apply wp_seq, wp_lock; [done|]. intros w3 Hi3 Hr3 Hc3.
  apply wp_seq, (wp_view _ _ _ _ (auto_flush_due cfg)); [done|done|done|]. intros w4 w5 Hi4 Hr4 Hi5 Hr5.
  assert (rely (owning γ) w3 w5) as Hr35 by (by eapply rely_trans). pose proof (rely_current_ok cfg (owning γ) w3 w5 eq_refl Hr35 Hc3) as Hc5.
  assert (rely γ w w5) as Hr05.
  { eapply rely_trans; [exact Hr|]. eapply rely_trans; [exact Hr3|]. apply rely_unown in Hr35. by rewrite unown_owning in Hr35. }
  destruct (negb _); [apply wp_unlocked|apply wp_durable_locked; [| |apply still_ret|]]; [done|done| |done|done|];
    rewrite unown_owning by done; intros; apply HQ; [done|by eapply rely_trans|done|by eapply rely_trans].
Qed.

(** ** Operations on a file of the thread's own *)

Definition less (γ : Held) (f : bytes) : Held := mkHeld (h_own γ) (h_comp γ) (h_guard γ) (h_files γ ∖ {[f]}).
Lemma rely_less γ f w w' : rely γ w w' → rely (less γ f) w w'.
Proof. intros [E O C G F]. split; try done. intros g o [Hg _]%elem_of_difference. by apply F. Qed.
Lemma less_of_bare γ f w w' :
  rely (bare γ) w w' → du w' = du w → (∀ g o, g ≠ f → holds bs (tb w) g o → holds bs (tb w') g o) → rely (less γ f) w w'.
Proof.
  intros [E O C G _] Ed F. split; try done. intros g o [_ Hg]%elem_of_difference Ho. rewrite Ed. split; [|done].
  apply F; [|done]. by rewrite elem_of_singleton in Hg.
Qed.

Lemma rely_of_less γ f o w w' : rely (less γ f) w w' → du w' = du w → holds bs (tb w) f o → holds bs (tb w') f o → rely γ w w'.
Proof using Hbs.
  intros [E O C G F] Ed H1 H2. split; try done. intros g o' Hg Ho. destruct (decide (g = f)) as [->|Hne].
  - rewrite (holds_fun bs Hbs _ _ _ _ Ho H1), Ed. done.
  - apply F; [|done]. apply elem_of_difference. split; [done|]. by rewrite elem_of_singleton.
Qed.

(** A transaction on [f], with what [f] holds before and after it. *)
Lemma wp_file_commit {X} γ f (m : TM X) (S : BlockLoc → Prop) o (C : X → option (Z * list (option bytes)) → Prop) (Q : Held → result BErr X → World → Prop) w :
  f ∈ h_files γ → holds bs (tb w) f o →
  (∀ t V, IdxInv bs t V [] [] [] → holds bs t f o → spec m t False (λ a t', (∃ V', IdxInv bs t' V' [] [] [] ∧
     evolves S t t' ∧ keeps_used V' t t' ∧ ∀ g, g ≠ f → V' !! g = V !! g) ∧ ∃ o', C a o' ∧ holds bs t' f o')) →
  (∀ w1 l, Inv γ w1 → rely γ w w1 → S l → accepts (tb w1) (l_pack l) → row_stored (dk w1) l) →
  (∀ a o' w3, Inv γ w3 → rely (less γ f) w w3 → (o' = o → rely γ w w3) → C a o' → holds bs (tb w3) f o' → Q γ (Ok a) w3) →
  (∀ e w3, Inv γ w3 → rely γ w w3 → holds bs (tb w3) f o → Q γ (Err e) w3) →
  wp γ (do (ACommit m)) Q w.
Proof.
  intros Hf Ho Hm HS HQ HE.
  apply (wp_commit cfg U γ m (λ _, S) (λ w1 a t', (∀ g x, g ≠ f → holds bs (tb w1) g x → holds bs t' g x) ∧ ∃ o', C a o' ∧ holds bs t' f o')).
  - intros w1 V Hi Hr HV. eapply spec_mono; [apply (Hm _ V HV); by apply (r_files _ _ _ _ Hr)|].
    intros a t' ((V' & HV' & Hev & Hk & Hs) & Hc).
    assert (∀ g x, g ≠ f → holds bs (tb w1) g x → holds bs t' g x) as Hoth.
    { intros g x Hg. eapply holds_kept; [done|done|done|done|done|by apply Hs]. }
    split_and!; [by exists V'|done| |done|done]. intros g x Hg. apply Hoth. congruence.
  - exact HS.
  - intros w1 a w2 w3 Hi1 Hr1 (Hoth & o' & Hc & Ho') Ed Hr2 Hr3 Hi3. apply (HQ a o'); [done| | |done|by apply (r_files _ _ _ _ Hr3)].
    + eapply rely_trans; [by apply rely_less|]. eapply rely_trans; [by apply less_of_bare|by apply rely_less].
    + intros ->. eapply rely_trans; [exact Hr1|]. eapply rely_trans; [|exact Hr3]. eapply rely_of_less; [by apply less_of_bare|done| |exact Ho'].
      by apply (r_files _ _ _ _ Hr1).
  - intros e w3 Hi3 Hr3. apply HE; [done|done|by apply (r_files _ _ _ _ Hr3)].
Qed.

(** [set_len]: the file, made if it is not there, has the new length, and the
    blocks that are still whole keep what they hold. *)
Lemma wp_set_len γ f n o (Q : Held → result BErr unit → World → Prop) w :
  h_own γ = false → f ∈ h_files γ → in_u64 n → holds bs (tb w) f o →
  (∀ r w3, Inv γ w3 → rely (less γ f) w w3 → holds bs (tb w3) f (Some (resized bs n o)) → Q γ r w3) →
  (∀ e w3, Inv γ w3 → rely γ w w3 → holds bs (tb w3) f o → Q γ (Err e) w3) →
  wp γ (set_len cfg f n) Q w.
Proof.
  intros Hown Hf Hn Ho HQ HE. unfold set_len.
  assert (∀ e w3, Inv γ w3 → rely γ w w3 → Q γ (Err e) w3) as HE' by (intros e w3 Hi Hr; apply HE; [done|done|by apply (r_files _ _ _ _ Hr)]).
  apply wp_seq, wp_ret. intros w1 Hi1 Hr1.
  destruct (check_id cfg f) as [[]|e]; [|apply wp_ret; intros w2 Hi2 Hr2; apply HE'; [done|by eapply rely_trans]].
  destruct (len_fits n bs) eqn:Efit; cbn [negb]; [|apply wp_ret; intros w2 Hi2 Hr2; apply HE'; [done|by eapply rely_trans]].
  apply wp_seq, (wp_file_commit γ f _ nowhere o (λ _ o', o' = Some (resized bs n o))); [done|by apply (r_files _ _ _ _ Hr1)| |by intros ? ? ? ? []| |].
  - intros t V HV Hot. eapply spec_weaken; [|apply (set_len_spec bs Hbs t V f n HV); by split|]; [done|].
    intros [] t' (HV' & Hev & Hk). split.
    + exists (set_len_view bs f n V). split_and!; try done. intros g Hg. unfold set_len_view. by rewrite lookup_insert_ne.
    + eexists. split; [done|]. by apply (set_len_holds bs Hbs nowhere t t' V f n o).
  - intros [] o' w2 Hi2 Hr2 _ -> Ho2. apply wp_auto_flush; [done|]. intros r w3 Hi3 Hr3. apply HQ; [done| |by apply (r_files _ _ _ _ Hr3)].
    eapply rely_trans; [by apply rely_less|]. eapply rely_trans; [done|by apply rely_less].
  - intros e w2 Hi2 Hr2 Ho2. apply wp_ret. intros w3 Hi3 Hr3. apply HE'; [done|]. eapply rely_trans; [done|]. by eapply rely_trans.
Qed.

Lemma wp_delete γ f o (Q : Held → result BErr unit → World → Prop) w :
  h_own γ = false → f ∈ h_files γ → holds bs (tb w) f o →
  (∀ r w3, Inv γ w3 → rely (less γ f) w w3 → holds bs (tb w3) f None → Q γ r w3) →
  (∀ e w3, Inv γ w3 → rely γ w w3 → holds bs (tb w3) f o → Q γ (Err e) w3) →
  wp γ (delete_file cfg f) Q w.
Proof.
  intros Hown Hf Ho HQ HE. unfold delete_file.
  assert (∀ e w3, Inv γ w3 → rely γ w w3 → Q γ (Err e) w3) as HE' by (intros e w3 Hi Hr; apply HE; [done|done|by apply (r_files _ _ _ _ Hr)]).
  apply wp_seq, wp_ret. intros w1 Hi1 Hr1.
  destruct (check_id cfg f) as [[]|e]; [|apply wp_ret; intros w2 Hi2 Hr2; apply HE'; [done|by eapply rely_trans]].
  apply wp_seq, (wp_file_commit γ f _ nowhere o (λ _ o', o' = None)); [done|by apply (r_files _ _ _ _ Hr1)| |by intros ? ? ? ? []| |].
  - intros t V HV Hot. eapply spec_weaken; [|apply (delete_spec bs Hbs t V f HV)|]; [done|].
    intros [] t' (HV' & Hev & Hk). split.
    + exists (delete f V). split_and!; try done. intros g Hg. by rewrite lookup_delete_ne.
    + eexists. split; [done|]. pose proof (iv_files _ _ _ _ _ _ HV' f) as HN. by rewrite lookup_delete_eq in HN.
  - intros [] o' w2 Hi2 Hr2 _ -> Ho2. apply wp_auto_flush; [done|]. intros r w3 Hi3 Hr3. apply HQ; [done| |by apply (r_files _ _ _ _ Hr3)].
    eapply rely_trans; [by apply rely_less|]. eapply rely_trans; [done|by apply rely_less].
  - intros e w2 Hi2 Hr2 Ho2. apply wp_ret. intros w3 Hi3 Hr3. apply HE'; [done|]. eapply rely_trans; [done|]. by eapply rely_trans.
Qed.

(** ** Records *)

Definition header_ok (h : RecordHeader) : Prop :=
  (h_flags h = 0 ∨ h_flags h = FLAG_COMPRESSED) ∧ in_u32 (h_raw_len h) ∧ in_u32 (h_stored_len h) ∧ len (h_hash h) = 16 ∧ in_u64 (h_checksum h).

Lemma record_header_len h : header_ok h → len (header_encode h) = HEADER_LEN.
Proof. intros (_ & _ & _ & Hh & _). unfold header_encode. autorewrite with vfs_len. rewrite Hh. done. Qed.

Lemma header_roundtrip h : header_ok h → header_decode (header_encode h) = Ok h.
Proof.
  intros Hok. pose proof (record_header_len h Hok) as Hl. destruct Hok as (Hf & Hr & Hs & Hh & Hc). unfold header_decode. rewrite Hl, Z.ltb_irrefl.
  destruct h as [f r s x c]. unfold header_encode in *. cbn [h_flags h_raw_len h_stored_len h_hash h_checksum] in *.
  unfold in_u32, in_u64, u32_max, u64_max in *. set (b := to_le 4 MAGIC ++ _) in *.
  assert (mem_get b 0 4 = to_le 4 MAGIC) as -> by (unfold b; by field_step).
  assert (mem_get b 5 3 = [0; 0; 0]) as -> by (unfold b; repeat field_step; done).
  assert (mem_get b 8 4 = to_le 4 r) as -> by (unfold b; repeat field_step; done).
  assert (mem_get b 12 4 = to_le 4 s) as -> by (unfold b; repeat field_step; done).
  assert (mem_get b 16 16 = x) as -> by (unfold b; repeat field_step; done).
  assert (mem_get b 32 8 = to_le 8 c) as -> by (unfold b; repeat (field_step; rewrite ?Hh; cbn [Z.sub Z.add Z.opp Z.pos_sub Pos.pred_double]); done).
  assert (b !! 4%nat = Some f) as -> by (unfold b; by rewrite lookup_app_r by (rewrite length_to_le; lia)).
  rewrite (from_to_le_small 4 MAGIC), !from_to_le_small by (cbn; lia || (unfold MAGIC; vm_compute; split; congruence)). rewrite Z.eqb_refl, bool_decide_eq_true_2 by done.
  change (default 0 (Some f)) with f. replace (Z.land f (Z.lxor 255 FLAG_COMPRESSED)) with 0 by (by destruct Hf as [-> | ->]). done.
Qed.

(** A block that is encoded and stored reads back. *)
Lemma encoded_ok blk class e :
  len blk < u32_max → encode_block blk (hash128 blk) class = Ok e →
  header_ok (eb_header e) ∧ h_hash (eb_header e) = hash128 blk ∧ h_raw_len (eb_header e) = len blk ∧
  h_stored_len (eb_header e) = len (eb_payload e) ∧ decode_payload (eb_header e) (eb_payload e) (len blk) = Ok blk.
Proof using BCO.
  intros Hl. unfold encode_block. destruct (bc_frame class blk) as [fr|] eqn:Ef; [|done]. intros [= <-].
  pose proof (len_nonneg blk) as H0. pose proof (len_nonneg fr) as H1. unfold from_frame.
  assert (∀ n, 0 ≤ n < u32_max → as_u32 n = n) as Hu by (intros; by apply Z.mod_small).
  unfold header_ok, decode_payload, in_u32, u32_max in *.
  destruct (Z.ltb_spec (len fr) (len blk)); cbn [eb_header eb_payload h_flags h_raw_len h_stored_len h_hash h_checksum].
  - rewrite !Hu by (cbn; lia). rewrite !Z.eqb_refl. cbn [negb]. change (negb (Z.land FLAG_COMPRESSED FLAG_COMPRESSED =? 0)) with true.
    cbn match. rewrite (frame_decodes _ _ _ Ef), Z.eqb_refl. cbn [negb].
    split_and!; first [done|by right|lia|apply hash128_len|apply checksum_range].
  - rewrite !Hu by (cbn; lia). rewrite !Z.eqb_refl. cbn [negb]. change (negb (Z.land 0 FLAG_COMPRESSED =? 0)) with false. cbn match.
    split_and!; first [done|by left|lia|apply hash128_len|apply checksum_range].
Qed.

Lemma record_stored blk class e p off :
  len blk < u32_max → encode_block blk (hash128 blk) class = Ok e → in_u32 p → in_u64 off → U blk →
  is_record U (loc_of e (p, off)) blk (header_encode (eb_header e) ++ eb_payload e) ∧
  loc_ok (loc_of e (p, off)) ∧ l_hash (loc_of e (p, off)) = hash128 blk.
Proof using BCO.
  intros Hl He Hp Hoff HU. destruct (encoded_ok blk class e Hl He) as (Hok & Eh & Er & Es & Hd). pose proof (record_header_len _ Hok) as Hhl.
  set (h := eb_header e) in *. set (pl := eb_payload e) in *. unfold is_record, loc_record_len, decode_record, check_record.
  assert (Z.to_nat HEADER_LEN = length (header_encode h)) as El by (unfold len in Hhl; lia).
  rewrite El, take_app_length, drop_app_length, header_roundtrip by done. fold h. cbn [loc_of l_stored_len l_raw_len l_hash l_pack l_offset fst snd].
  fold h. rewrite !Z.eqb_refl, bool_decide_eq_true_2 by done. cbn [negb orb]. rewrite Er, Hd. split_and!; try done.
  - rewrite len_app, Hhl, Es. done.
  - destruct Hok as (_ & Hr & Hs & Hh & _). by split_and!.
Qed.

(** ** Writing *)

Definition block_ok (b : bytes) : Prop := U b ∧ len b < u32_max.

(** The records a writer has appended and not yet committed. *)
Definition good (w : World) (nr : gmap bytes BlockLoc) : Prop :=
  ∀ h l, nr !! h = Some l → loc_ok l ∧ l_hash l = h ∧ ∃ blk b, is_record U l blk b ∧ kept w (l_pack l) (l_offset l) b.

Lemma good_rely γ w w' nr : rely γ w w' → good w nr → good w' nr.
Proof.
  intros Hr Hg h l Hl. destruct (Hg h l Hl) as (? & ? & blk & b & Hb & Hk). split_and!; [done|done|]. exists blk, b. split; [done|by eapply rely_kept].
Qed.
Lemma good_records w nr : good w nr → records_ok nr.
Proof. intros Hg h l Hl. by destruct (Hg h l Hl) as (? & ? & _). Qed.
Lemma good_stored w nr l : good w nr → of_records nr l → accepts (tb w) (l_pack l) → row_stored (dk w) l.
Proof.
  intros Hg Hl Ha. destruct (Hg _ _ Hl) as (_ & _ & blk & b & Hb & [Hk|[_ Hk]]); [|done]. by exists blk, b.
Qed.

Definition within (n : nat) (l : list nat) : Prop := Forall (λ i, i < n)%nat l.

Lemma needed_within t i seen hs : Forall (λ j, i ≤ j < i + length hs)%nat (needed t i seen hs).
Proof.
  revert i seen. induction hs as [|h hs IH]; intros i seen; cbn [needed length]; [constructor|].
  assert (∀ seen, Forall (λ j, i ≤ j < i + S (length hs))%nat (needed t (S i) seen hs)) as IH'.
  { intros sn. eapply Forall_impl; [apply IH|]. cbn. lia. }
  case_match; [apply IH'|]. case_match; [apply IH'|]. constructor; [lia|apply IH'].
Qed.
Lemma still_missing_within nr i hs t m t' :
  still_missing nr i hs t = Ok (m, t') → Forall (λ j, i ≤ j < i + length hs)%nat m.
Proof.
  revert i m t t'. induction hs as [|h hs IH]; intros i m t t'; cbn [still_missing length]; [intros [= <- <-]; constructor|].
  set (ok := match dedup h t, nr !! h with Some _, _ => mret true | None, Some l => pack_accepts_records (l_pack l) | None, None => mret false end).
  unfold mbind, TM_bind, tread. change (match dedup h t with Some _ => _ | None => _ end t) with (ok t).
  destruct (ok t) as [[b t1]|]; [|done]. destruct (still_missing nr (S i) hs t1) as [[rest t2]|] eqn:E; [|done].
  apply IH in E. assert (Forall (λ j, i ≤ j < i + S (length hs))%nat rest) as E' by (eapply Forall_impl; [exact E|]; cbn; lia).
  intros [= <- <-]. destruct b; [done|]. constructor; [lia|done].
Qed.
Lemma todo_sub hs out seen need i : i ∈ todo hs out seen need → i ∈ need.
Proof.
  revert seen. induction need as [|j need IH]; intros seen; cbn [todo]; [done|]. case_match; [right; by eapply IH|].
  rewrite !elem_of_cons. intros [->|?]; [by left|right; by eapply IH].
Qed.

Lemma encode_all_spec class blks es :
  encode_all blks (hash128 <$> blks) class = Ok es → Forall2 (λ b e, encode_block b (hash128 b) class = Ok e) blks es.
Proof.
  revert es. induction blks as [|b blks IH]; intros es; cbn [encode_all fmap list_fmap]; [intros [= <-]; constructor|].
  destruct (encode_block b (hash128 b) class) as [e|] eqn:E; [|done]. change (list_fmap _ _ hash128 blks) with (hash128 <$> blks).
  destruct (encode_all blks (hash128 <$> blks) class) as [es'|]; [|done]. intros [= <-]. constructor; [done|by apply IH].
Qed.

Lemma good_add w class blks es locs out :
  Forall block_ok blks → Forall2 (λ b e, encode_block b (hash128 b) class = Ok e) blks es →
  Forall2 (settled w) (record_bytes <$> es) locs → good w out → good w (add_records es locs out).
Proof using BCO.
  intros Hb He. revert locs out Hb. unfold add_records. induction He as [|b e blks es E He IH]; intros locs out Hb Hs Hg; [done|].
  cbn [fmap list_fmap] in Hs. apply Forall2_cons_inv_l in Hs as ([p off] & locs' & (Hk & Hp & Ho) & Hs & ->).
  apply Forall_cons in Hb as [[HU Hlen] Hb]. cbn [zip zip_with foldl]. apply IH; [done|done|]. cbn [fst snd] in *.
  destruct (record_stored b class e p off Hlen E Hp Ho HU) as (Hr & Hok & Hh).
  intros h l. rewrite lookup_insert_Some. intros [[<- <-]|[_ Hl]]; [|by apply Hg]. split_and!; [done|done|]. by eexists _, _.
Qed.

Lemma wp_encode_and_append (γ : Held) (blocks : list bytes) (need : list nat) (out : gmap bytes BlockLoc) (class : WriteClass) (Q : Held → result BErr (gmap bytes BlockLoc) → World → Prop) w :
  h_own γ = false → Forall block_ok blocks → within (length blocks) need → good w out →
  (∀ nr w3, Inv γ w3 → rely γ w w3 → good w3 nr → Q γ (Ok nr) w3) →
  (∀ e w3, Inv γ w3 → rely γ w w3 → Q γ (Err e) w3) →
  wp γ (encode_and_append blocks (hash128 <$> blocks) need out class) Q w.
Proof using All.
  intros Ho Hb Hn Hg HQ HE. unfold encode_and_append. set (idx := todo _ _ _ _).
  assert (within (length blocks) idx) as Hidx.
  { apply Forall_forall. intros i Hi. eapply Forall_forall in Hn; [exact Hn|]. by eapply todo_sub. }
  destruct idx as [|i0 idx0] eqn:Ei; [apply wp_ret; intros; apply HQ; [done|done|by eapply good_rely]|]. rewrite <- Ei in *. clear Ei i0 idx0.
  set (blks := (λ i, default [] (blocks !! i)) <$> idx).
  assert ((λ i, default [] ((hash128 <$> blocks) !! i)) <$> idx = hash128 <$> blks) as ->.
  { unfold blks. rewrite <- list_fmap_compose. apply list_fmap_ext. intros k i Hi. cbn. apply list_elem_of_lookup_2 in Hi.
    eapply Forall_forall in Hidx; [|exact Hi]. rewrite list_lookup_fmap. destruct (blocks !! i) eqn:E; [done|]. apply lookup_ge_None in E. lia. }
  assert (Forall block_ok blks) as Hblks.
  { unfold blks. apply Forall_fmap, Forall_forall. intros i Hi. eapply Forall_forall in Hidx; [|exact Hi]. cbn.
    destruct (lookup_lt_is_Some_2 blocks i Hidx) as [b E]. rewrite E. cbn. eapply Forall_lookup_1; [exact Hb|done]. }
  destruct (encode_all blks (hash128 <$> blks) class) as [es|e] eqn:Ee; [|by apply wp_ret; intros; apply HE].
  apply encode_all_spec in Ee. apply wp_seq, wp_append_records; [done|done|done| |].
  - intros w1 locs Hi1 Hr1 Hs. apply wp_ret. intros w2 Hi2 Hr2. assert (rely γ w w2) as Hr by (by eapply rely_trans).
    apply HQ; [done|done|]. eapply good_rely; [exact Hr2|]. eapply good_add; [exact Hblks|exact Ee| |by eapply good_rely].
    eapply Forall2_impl; [exact Hs|]. by intros ? ? [? _].
  - intros e w1 Hi1 Hr1. apply wp_ret. intros w2 Hi2 Hr2. apply HE; [done|by eapply rely_trans].
Qed.

Lemma good_forget w hs m nr : good w nr → good w (forget hs m nr).
Proof.
  unfold forget. revert nr. induction m as [|i m IH]; intros nr Hg; [done|]. cbn [foldl]. apply IH.
  intros h l [_ Hl]%lookup_delete_Some. by apply Hg.
Qed.

Lemma write_commit_spec t V f first clen hs nr o :
  IdxInv bs t V [] [] [] → holds bs t f o → records_ok nr → 0 ≤ first → 0 < clen → len hs = div_ceil clen bs →
  spec (write_txn bs f first clen hs nr) t False (λ a t', (∃ V', IdxInv bs t' V' [] [] [] ∧
     evolves (of_records nr) t t' ∧ keeps_used V' t t' ∧ ∀ g, g ≠ f → V' !! g = V !! g) ∧ ∃ o', match a with
       | None => ∃ L old, o = Some (L, old) ∧ first + len hs ≤ len old ∧ o' = Some (L, put_at old first (Some <$> hs))
       | Some m => o' = o ∧ within (length hs) m
       end ∧ holds bs t' f o').
Proof using Hbs.
  intros HV Ho Hnr Hf Hc Hl. pose proof (write_txn_spec bs Hbs t V f first clen hs nr HV Hnr Hf Hc Hl) as Hs. unfold spec in *.
  destruct (write_txn bs f first clen hs nr t) as [[a t']|e] eqn:E; [|intros []]. destruct a as [m|].
  - destruct Hs as [-> _]. split.
    + exists V. split_and!; [done|apply evolves_refl|by intros ?|done].
    + exists o. split_and!; [done| |done]. revert E. unfold write_txn, mbind, TM_bind.
      destruct (files_len f t) as [[[l|] t1]|]; [|done..]. cbn [tor]. unfold mret, TM_ret.
      destruct (validate_write l bs first clen); [|done]. cbn [tresult]. unfold mret, TM_ret.
      destruct (still_missing nr 0 hs t1) as [[m' t2]|] eqn:Em; [|done]. apply still_missing_within in Em.
      destruct m' as [|i m'].
      * destruct (tmap (block_for nr) hs t2) as [[ids t3]|]; [|done]. by destruct (repoint f l first ids t3) as [[? ?]|].
      * intros [= <- <-]. eapply Forall_impl; [exact Em|]. cbn. lia.
  - destruct Hs as (L & ids & new & HVf & Hle & Hst & HV' & Hev & Hk). split.
    + exists (<[f := (L, mem_put ids first new)]> V). split_and!; try done. intros g Hg. by rewrite lookup_insert_ne.
    + pose proof (holds_view bs Hbs t V f o (iv_files _ _ _ _ _ _ HV) Ho) as Hv. destruct o as [[L' old]|]; [|congruence].
      destruct Hv as (ids' & Hf' & ->). rewrite HVf in Hf'. injection Hf' as <- <-. eexists. split.
      * exists L, (hashes_in t ids). split_and!; [done| |done]. unfold hashes_in, len in *. by rewrite length_fmap.
      * by apply (write_holds bs Hbs (of_records nr) t t' V f L ids first hs new).
Qed.

Lemma wp_write_loop (γ : Held) fuel f first clen (blocks : list bytes) (class : WriteClass) (need : list nat) nr o
    (Q : Held → result BErr unit → World → Prop) w :
  h_own γ = false → f ∈ h_files γ → holds bs (tb w) f o → Forall block_ok blocks → 0 ≤ first → 0 < clen →
  len blocks = div_ceil clen bs → within (length blocks) need → good w nr →
  (∀ L old w3, Inv γ w3 → rely (less γ f) w w3 → o = Some (L, old) → first + len blocks ≤ len old →
     holds bs (tb w3) f (Some (L, put_at old first (Some <$> (hash128 <$> blocks)))) → Q γ (Ok tt) w3) →
  (∀ e w3, Inv γ w3 → rely γ w w3 → holds bs (tb w3) f o → Q γ (Err e) w3) →
  wp γ (commit_loop fuel (write_txn bs f first clen (hash128 <$> blocks)) blocks (hash128 <$> blocks) class need nr) Q w.
Proof using All.
  intros Hown Hf Ho Hb Hfirst Hclen Hlen. revert need nr w Ho. induction fuel as [|fuel IH]; intros need nr w Ho Hn Hg HQ HE; cbn [commit_loop].
  { apply wp_ret. intros w3 Hi3 Hr3. apply HE; [done|done|by apply (r_files _ _ _ _ Hr3)]. }
  assert (∀ e w3, Inv γ w3 → rely γ w w3 → wp γ (Ret (Err e)) Q w3) as HE'.
  { intros e w3 Hi3 Hr3. apply wp_ret. intros w4 Hi4 Hr4. assert (rely γ w w4) as Hr by (by eapply rely_trans). apply HE; [done|done|by apply (r_files _ _ _ _ Hr)]. }
  apply wp_seq, wp_encode_and_append; [done|done|done|done| |done]. intros nr1 w1 Hi1 Hr1 Hg1.
  assert (len (hash128 <$> blocks) = len blocks) as Elh by (unfold len; by rewrite length_fmap).
  apply wp_seq. eapply (wp_file_commit γ f _ (of_records nr1) o); [done|by apply (r_files _ _ _ _ Hr1)| | | |].
  - intros t V HV Hot. eapply write_commit_spec; [done|done|by eapply good_records|done|done|lia].
  - intros w2 l Hi2 Hr2. apply good_stored. by eapply good_rely.
  - intros [m|] o' w2 Hi2 Hr2 Hsame; cbn beta iota.
    + intros [-> Hm] Ho2. assert (rely γ w w2) as Hr by (eapply rely_trans; [exact Hr1|by apply Hsame]).
      apply IH; [done|by rewrite length_fmap in Hm|apply good_forget; eapply good_rely; [exact Hr2|done]| |].
      * intros L old w3 Hi3 Hr3. apply HQ; [done|]. eapply rely_trans; [by apply rely_less|exact Hr3].
      * intros e w3 Hi3 Hr3. apply HE; [done|by eapply rely_trans].
    + intros (L & old & -> & Hle & ->) Ho2. apply wp_ret. intros w3 Hi3 Hr3. apply (HQ L old); [done| |done|lia|by apply (r_files _ _ _ _ Hr3)].
      eapply rely_trans; [by apply rely_less|]. eapply rely_trans; [exact Hr2|by apply rely_less].
  - intros e w2 Hi2 Hr2 _. apply HE'; [done|by eapply rely_trans].
Qed.

(** ** Splitting data into blocks *)

Lemma chunks_go_fuel n b fuel1 fuel2 :
  (0 < n → length b ≤ fuel1 → length b ≤ fuel2 → chunks_go fuel1 n b = chunks_go fuel2 n b)%nat.
Proof.
  intros Hn. revert b fuel2. induction fuel1 as [|f1 IH]; intros b [|f2]; destruct b as [|x b]; cbn [length chunks_go]; intros; try done; try lia.
  f_equal. apply IH; rewrite length_drop; cbn [length]; lia.
Qed.
Lemma chunks_cons n b : 0 < n → b ≠ [] → chunks n b = take (Z.to_nat n) b :: chunks n (drop (Z.to_nat n) b).
Proof.
  intros Hn Hb. unfold chunks. destruct b as [|x b]; [done|]. cbn [length chunks_go]. f_equal.
  apply chunks_go_fuel; [lia| |done]. rewrite length_drop. cbn [length]. lia.
Qed.
Lemma chunks_nil n : chunks n [] = [].
Proof. done. Qed.

Lemma chunks_ind n (P : bytes → Prop) :
  0 < n → P [] → (∀ b, b ≠ [] → P (drop (Z.to_nat n) b) → P b) → ∀ b, P b.
Proof.
  intros Hn H0 HS b. remember (length b) as m eqn:E. revert b E. induction (lt_wf m) as [m _ IH]. intros b ->.
  destruct b as [|x b]; [done|]. apply HS; [done|]. eapply IH; [|done]. rewrite length_drop. cbn [length]. lia.
Qed.

Lemma chunks_len n b : 0 < n → len (chunks n b) = div_ceil (len b) n.
Proof.
  intros Hn. apply (chunks_ind n (λ b, len (chunks n b) = div_ceil (len b) n)); [done| |].
  - unfold div_ceil, len. rewrite chunks_nil. cbn [length]. by rewrite Z.div_small by lia.
  - intros c Hc IH. rewrite chunks_cons, len_cons, IH by done. unfold div_ceil, len. rewrite length_drop.
    destruct c as [|x c]; [done|]. cbn [length]. destruct (decide (Z.to_nat n ≤ S (length c))%nat) as [Hle|Hgt].
    + replace (Z.of_nat (S (length c)) + n - 1) with (Z.of_nat (S (length c) - Z.to_nat n) + n - 1 + 1 * n) by lia.
      rewrite Z.div_add by lia. lia.
    + replace (S (length c) - Z.to_nat n)%nat with 0%nat by lia. rewrite (Z.div_small (Z.of_nat 0 + n - 1)) by lia.
      symmetry. rewrite <- (Z.div_unique (Z.of_nat (S (length c)) + n - 1) n 1 (Z.of_nat (S (length c)) - 1)); lia.
Qed.
Lemma chunks_concat n b : 0 < n → concat (chunks n b) = b.
Proof.
  intros Hn. apply (chunks_ind n (λ b, concat (chunks n b) = b)); [done|done|]. intros c Hc IH. rewrite chunks_cons by done. cbn [concat].
  by rewrite IH, take_drop.
Qed.
Lemma chunks_bound n b c : 0 < n → c ∈ chunks n b → 0 < len c ≤ n.
Proof.
  intros Hn. apply (chunks_ind n (λ b, c ∈ chunks n b → 0 < len c ≤ n)); [done|by rewrite chunks_nil; intros ?%elem_of_nil|].
  intros d Hd IH. rewrite chunks_cons, elem_of_cons by done. intros [->|?]; [|by apply IH]. unfold len. rewrite length_take.
  destruct d as [|x d]; [done|]. cbn [length]. lia.
Qed.
(** Blocks of pieces that are whole numbers of blocks. *)
Lemma chunks_app n k a b : 0 < n → len a = Z.of_nat k * n → chunks n (a ++ b) = chunks n a ++ chunks n b.
Proof.
  intros Hn. revert a. induction k as [|k IH]; intros a Ha.
  - destruct a; [done|]. rewrite len_cons in Ha. pose proof (len_nonneg a). lia.
  - assert (Z.to_nat n ≤ length a)%nat as Hle by (unfold len in Ha; nia). assert (a ≠ []) as Hne by (destruct a; [cbn in Hle; lia|done]).
    rewrite (chunks_cons n (a ++ b)), (chunks_cons n a) by (try done; by destruct a). rewrite take_app_le, drop_app_le by done.
    rewrite IH; [done|]. unfold len in *. rewrite length_drop. nia.
Qed.
Lemma chunks_chunks n m b : 0 < n → 0 < m → flat_map (chunks n) (chunks (m * n) b) = chunks n b.
Proof.
  intros Hn Hm. apply (chunks_ind (m * n) (λ b, flat_map (chunks n) (chunks (m * n) b) = chunks n b)); [lia|done|].
  intros c Hc IH. rewrite chunks_cons by (try done; lia). cbn [flat_map]. rewrite IH.
  destruct (decide (Z.to_nat (m * n) ≤ length c)%nat) as [Hle|Hgt].
  - rewrite <- (chunks_app n (Z.to_nat m)); [by rewrite take_drop|done|]. unfold len. rewrite length_take. nia.
  - rewrite take_ge, drop_ge by lia. by rewrite chunks_nil, app_nil_r.
Qed.

Lemma put_at_nil {A} (l : list A) a : put_at l a [] = l.
Proof. unfold put_at. cbn. rewrite Z.add_0_r. apply take_drop. Qed.
Lemma put_at_len {A} (l : list A) a d : 0 ≤ a → a + len d ≤ len l → len (put_at l a d) = len l.
Proof. intros. unfold put_at, len in *. rewrite !length_app, length_take, length_drop. lia. Qed.
Lemma put_at_app {A} (l : list A) a x y :
  0 ≤ a → a + len x ≤ len l → put_at (put_at l a x) (a + len x) y = put_at l a (x ++ y).
Proof.
  intros Ha Hx. unfold put_at, len in *. rewrite length_app.
  assert (length (take (Z.to_nat a) l) = Z.to_nat a) as E1 by (rewrite length_take; lia).
  replace (Z.to_nat (a + Z.of_nat (length x))) with (length (take (Z.to_nat a) l ++ x)) at 1 by (rewrite length_app, E1; lia).
  rewrite (app_assoc (take _ l) x), take_app_length, <- !app_assoc. do 3 f_equal.
  rewrite (app_assoc (take _ l) x), drop_app_ge by (rewrite length_app, E1; lia). rewrite drop_drop. f_equal. rewrite length_app, E1. lia.
Qed.

(** ** The write path *)

Lemma wp_stat γ f (Q : Held → result BErr (option Z) → World → Prop) w :
  (∀ w1 o w3, check_id cfg f = Ok tt → Inv γ w1 → rely γ w w1 → holds bs (tb w1) f o → Inv γ w3 → rely γ w1 w3 → Q γ (Ok (fst <$> o)) w3) →
  (∀ e w3, check_id cfg f = Err e → Inv γ w3 → rely γ w w3 → Q γ (Err e) w3) → wp γ (stat cfg f) Q w.
Proof using Hbs.
  intros HQ HE. unfold stat. apply wp_seq, wp_ret. intros w0 Hi0 Hr0. destruct (check_id cfg f) as [[]|e] eqn:Hid.
  2:{ apply wp_ret. intros w1 Hi1 Hr1. apply HE; [done|done|by eapply rely_trans]. }
  specialize (λ w1 o w3, HQ w1 o w3 eq_refl).
  apply wp_seq, (wp_view _ _ _ _ s_tables); [done|done|done|]. intros w1 w2 Hi1 Hr1 Hi2 Hr2. change (s_tables (x_s w1)) with (tb w1).
  assert (rely γ w w1) as Hr by (by eapply rely_trans).
  destruct (si_idx _ _ _ (proj1 Hi1)) as [V HV]. pose proof (view_holds bs (tb w1) V f (iv_files _ _ _ _ _ _ HV)) as Ho.
  pose proof (files_len_spec bs Hbs (tb w1) V f (iv_files _ _ _ _ _ _ HV)) as El. unfold files_len, mbind, TM_bind, tread in El.
  destruct (segment f 0 (tb w1)) as [v|].
  - destruct (file_len v) as [n|]; cbn [tor] in El; [|done]. unfold mret, TM_ret in El. injection El as El.
    apply wp_ret. intros w3 Hi3 Hr3. assert (rely γ w1 w3) as Hr13 by (by eapply rely_trans).
    destruct (V !! f) as [[L ids]|]; cbn in El; simplify_eq. by apply (HQ w1 _ w3 Hi1 Hr Ho Hi3 Hr13).
  - injection El as El. apply wp_ret. intros w3 Hi3 Hr3. assert (rely γ w1 w3) as Hr13 by (by eapply rely_trans).
    destruct (V !! f) as [[L ids]|]; cbn in El; simplify_eq. by apply (HQ w1 _ w3 Hi1 Hr Ho Hi3 Hr13).
Qed.

Definition piece_ok (c : bytes) : Prop := 0 < len c ∧ Forall U (chunks bs c).

Lemma wp_write_chunk (γ : Held) fuel f first c (class : WriteClass) o (Q : Held → result BErr unit → World → Prop) w :
  h_own γ = false → f ∈ h_files γ → holds bs (tb w) f o → 0 ≤ first → piece_ok c →
  (∀ L old w3, Inv γ w3 → rely (less γ f) w w3 → o = Some (L, old) → first + len (chunks bs c) ≤ len old →
     holds bs (tb w3) f (Some (L, put_at old first (Some <$> (hash128 <$> chunks bs c)))) → Q γ (Ok tt) w3) →
  (∀ e w3, Inv γ w3 → rely γ w w3 → holds bs (tb w3) f o → Q γ (Err e) w3) →
  wp γ (write_chunk cfg fuel f first c class) Q w.
Proof using All.
  intros Hown Hf Ho Hfirst [Hc HU] HQ HE. unfold write_chunk.
  apply wp_seq, (wp_view _ _ _ _ s_tables); [done|done|done|]. intros w1 w2 Hi1 Hr1 Hi2 Hr2. assert (rely γ w w2) as Hr by (by eapply rely_trans).
  apply (wp_write_loop γ fuel f first (len c) (chunks bs c) class _ ∅ o); [done|done|by apply (r_files _ _ _ _ Hr)| |done|done|by apply chunks_len| | | |].
  - apply Forall_forall. intros b Hb. split; [by eapply Forall_forall in HU|]. apply chunks_bound in Hb; [lia|done].
  - eapply Forall_impl; [apply needed_within|]. intros i. rewrite length_fmap. cbn. lia.
  - intros h l. by rewrite lookup_empty.
  - intros L old w3 Hi3 Hr3. apply HQ; [done|]. eapply rely_trans; [by apply rely_less|done].
  - intros e w3 Hi3 Hr3. apply HE; [done|by eapply rely_trans].
Qed.

(** How a write of [hs] from [first] ends: [k] of the blocks are written. *)
Definition ended (r : result BErr unit) (n : Z) (all : bool) : Prop :=
  if all then r = Ok tt else ∃ e, r = Err (if n =? 0 then e else PartialWrite n e).

Definition piece_hashes (cs : list bytes) : list bytes := flat_map (λ c, hash128 <$> chunks bs c) cs.

Lemma wp_write_chunks (γ : Held) fuel f first (class : WriteClass) n cs L old (Q : Held → result BErr unit → World → Prop) w :
  h_own γ = false → f ∈ h_files γ → holds bs (tb w) f (Some (L, old)) → 0 ≤ first → 0 ≤ n → Forall piece_ok cs →
  (∀ r w3 hs rest all, Inv γ w3 → rely (less γ f) w w3 → piece_hashes cs = hs ++ rest → (if all : bool then rest = [] else True) →
     holds bs (tb w3) f (Some (L, put_at old (first + n) (Some <$> hs))) → ended r (n + len hs) all → Q γ r w3) →
  wp γ (write_chunks cfg fuel f first class n cs) Q w.
Proof using All.
  intros Hown Hf. revert n old w. induction cs as [|c cs IH]; intros n old w Ho Hfirst Hn Hcs HQ; cbn [write_chunks].
  { apply wp_ret. intros w3 Hi3 Hr3. apply (HQ (Ok tt) w3 [] [] true); [done|by apply rely_less|done|done| |done].
    rewrite fmap_nil, put_at_nil. by apply (r_files _ _ _ _ Hr3). }
  apply Forall_cons in Hcs as [Hc Hcs]. apply wp_seq, (wp_write_chunk γ fuel f (first + n) c class (Some (L, old))); [done|done|done|lia|done| |].
  - intros L' old' w1 Hi1 Hr1 [= <- <-] Hle Ho1. cbn match. assert (len (hash128 <$> chunks bs c) = len (chunks bs c)) as Elh by (unfold len; by rewrite length_fmap).
    assert (div_ceil (len c) bs = len (chunks bs c)) as Ed by (by rewrite chunks_len). pose proof (len_nonneg (chunks bs c)) as H0.
    apply wp_seq, wp_auto_flush; [done|]. intros [[]|e] w2 Hi2 Hr2.
    + apply (IH (n + div_ceil (len c) bs) (put_at old (first + n) (Some <$> (hash128 <$> chunks bs c)))); [by apply (r_files _ _ _ _ Hr2)|done|lia|done|].
      intros r w3 hs rest all Hi3 Hr3 Hsp Hall Ho3 Hend. apply (HQ r w3 ((hash128 <$> chunks bs c) ++ hs) rest all); [done| | |done| |].
      * eapply rely_trans; [exact Hr1|]. eapply rely_trans; [by apply rely_less|done].
      * unfold piece_hashes in *. cbn [flat_map]. by rewrite Hsp, app_assoc.
      * rewrite fmap_app, <- put_at_app; [|lia|unfold len in *; rewrite !length_fmap in *; lia].
        replace (first + n + len (Some <$> (hash128 <$> chunks bs c))) with (first + (n + div_ceil (len c) bs)); [done|].
        unfold len in *. rewrite !length_fmap in *. lia.
      * rewrite len_app, Elh. by replace (n + (len (chunks bs c) + len hs)) with (n + div_ceil (len c) bs + len hs) by lia.
    + apply wp_ret. intros w3 Hi3 Hr3. apply (HQ _ w3 (hash128 <$> chunks bs c) (piece_hashes cs) false); [done| |done|done| |].
      * eapply rely_trans; [exact Hr1|]. eapply rely_trans; [by apply rely_less|by apply rely_less].
      * apply (r_files _ _ _ _ Hr3); [done|]. by apply (r_files _ _ _ _ Hr2).
      * exists e. by rewrite Elh, Ed.
  - intros e w1 Hi1 Hr1 Ho1. apply wp_ret. intros w2 Hi2 Hr2. apply (HQ _ w2 [] (piece_hashes (c :: cs)) false); [done| |done|done| |].
    + eapply rely_trans; by apply rely_less.
    + rewrite fmap_nil, put_at_nil. by apply (r_files _ _ _ _ Hr2).
    + exists e. by rewrite Z.add_0_r.
Qed.

(** [write_blocks]: what the file holds after it, whether it ended or not. *)
Lemma wp_write_blocks (γ : Held) fuel f first data (class : WriteClass) o (Q : Held → result BErr unit → World → Prop) w :
  h_own γ = false → f ∈ h_files γ → holds bs (tb w) f o → 0 ≤ first → Forall U (chunks bs data) →
  (∀ r w3 L old hs rest all, Inv γ w3 → rely (less γ f) w w3 → o = Some (L, old) → validate_write L bs first (len data) = Ok tt →
     hash128 <$> chunks bs data = hs ++ rest → (if all : bool then rest = [] else True) →
     holds bs (tb w3) f (Some (L, put_at old first (Some <$> hs))) → ended r (len hs) all → Q γ r w3) →
  (∀ e w3, Inv γ w3 → rely γ w w3 → holds bs (tb w3) f o → Q γ (Err e) w3) →
  wp γ (write_blocks_as cfg fuel f first data class) Q w.
Proof using All.
  intros Hown Hf Ho Hfirst HU HQ HE. unfold write_blocks_as.
  assert (∀ e w3, Inv γ w3 → rely γ w w3 → wp γ (Ret (Err e)) Q w3) as HE'.
  { intros e w3 Hi3 Hr3. apply wp_ret. intros w4 Hi4 Hr4. assert (rely γ w w4) as Hr by (by eapply rely_trans). apply HE; [done|done|by apply (r_files _ _ _ _ Hr)]. }
  apply wp_seq, wp_ret. intros w0 Hi0 Hr0. destruct (check_id cfg f) as [[]|e]; [|by apply HE'].
  apply wp_seq, wp_stat; [|intros e w1 _ Hi1 Hr1; apply HE'; [done|by eapply rely_trans]].
  intros w1 o1 w2 _ Hi1 Hr1 Ho1 Hi2 Hr2. assert (rely γ w w1) as Hr01 by (by eapply rely_trans). assert (rely γ w w2) as Hr by (by eapply rely_trans).
  assert (o1 = o) as -> by (eapply (holds_fun bs Hbs); [exact Ho1|]; by apply (r_files _ _ _ _ Hr01)).
  destruct o as [[L old]|]; cbn [fmap option_fmap option_map fst]; [|by apply HE'].
  destruct (validate_write L bs first (len data)) as [[]|] eqn:Eval; [|by apply HE'].
  set (m := Z.max (c_write_txn_bytes cfg / bs) 1). assert (0 < m) as Hm by lia.
  apply (wp_write_chunks γ fuel f first class 0 _ L old); [done|done|by apply (r_files _ _ _ _ Hr)|done|done| |].
  - apply Forall_forall. intros c Hc. split; [apply chunks_bound in Hc; [lia|nia]|]. apply Forall_forall. intros b Hb.
    eapply Forall_forall in HU; [exact HU|]. rewrite <- (chunks_chunks bs m) by done. apply list_elem_of_In, in_flat_map. exists c.
    by rewrite <- !list_elem_of_In.
  - intros r w3 hs rest all Hi3 Hr3 Hsp Hall Ho3 Hend. rewrite Z.add_0_r in Ho3. eapply (HQ r w3 L old hs rest all); [done| |done|done| |done|done|done].
    + eapply rely_trans; [by apply rely_less|done].
    + rewrite <- Hsp, <- (chunks_chunks bs m) by done. unfold piece_hashes. generalize (chunks (m * bs) data). intros l.
      induction l as [|c l IH]; [done|]. cbn [flat_map]. by rewrite fmap_app, IH.
Qed.

(** ** Reading *)

Definition guarded (γ : Held) (g : Z) : Held := mkHeld (h_own γ) (h_comp γ) (Some g) (h_files γ).
Lemma rely_guarded γ g w w' : h_guard γ = None → rely (guarded γ g) w w' → rely γ w w'.
Proof. intros Hg [E O C G F]. split; try done. rewrite Hg. done. Qed.

Lemma wp_enter γ (Q : Held → Z → World → Prop) w :
  h_guard γ = None → (∀ g w3, Inv (guarded γ g) w3 → rely γ w w3 → Q (guarded γ g) g w3) → wp γ (do AEnter) Q w.
Proof.
  intros Hg HQ. apply wp_do; [done|]. intros w1 Hi Hr r s2 E. cbn [exec] in E. unfold enter in E. simplify_eq.
  exists (x_gens w1), (x_next w1). set (w2 := mkWorld _ _ _). assert (like w1 w2) as Hl by done. pose proof (si_reads _ _ _ (proj1 Hi)) as Hrd.
  set (g := s_generation (x_s w1)) in *. assert (calm cfg w1 w2) as Hc.
  { apply like_calm; [done|done|]. intros g' Hle Hcl g0 Hg0. cbn in Hg0. destruct (decide (g0 = g)) as [->|]; [done|].
    rewrite lookup_insert_ne in Hg0 by done. by apply Hcl. }
  split_and!; [|by apply calm_guar|].
  - apply (like_inv cfg U w1); try done; try apply Hi. intros g0 n. cbn. rewrite lookup_insert_Some. intros [[<- <-]|[_ Hn]]; [|by apply Hrd].
    split; [|done]. destruct (s_reads (x_s w1) !! g) as [m|] eqn:Em; cbn; [|lia]. destruct (Hrd g m Em). lia.
  - intros w3 Hi3 Hr3. apply HQ; [done|]. eapply rely_trans; [done|]. eapply rely_trans; [by apply calm_rely|by eapply (rely_guarded γ)].
Qed.

Lemma wp_leave γ g (Q : Held → unit → World → Prop) w :
  h_guard γ = None → (∀ w3, Inv γ w3 → rely γ w w3 → Q γ tt w3) → wp (guarded γ g) (do (ALeave g)) Q w.
Proof.
  intros Hg HQ. apply wp_do; [done|]. intros w1 Hi Hr r s2 E. cbn [exec] in E. simplify_eq. pose proof (si_reads _ _ _ (proj1 Hi)) as Hrd.
  destruct Hi as (Hi & Ho & Hc & Hgd). destruct (Hgd g eq_refl) as [n Hn]. unfold leave. rewrite Hn.
  exists (x_gens w1), (x_next w1). set (rd := if _ : bool then _ else _). set (w2 := mkWorld _ _ _). assert (like w1 w2) as Hl by done.
  assert (∀ g0 m, rd !! g0 = Some m → 0 < m ∧ is_Some (s_reads (x_s w1) !! g0)) as Hrd2.
  { intros g0 m. unfold rd. destruct (Z.eqb_spec (n - 1) 0).
    - intros [_ H]%lookup_delete_Some. split; [by apply (Hrd g0 m)|by rewrite H].
    - rewrite lookup_insert_Some. intros [[<- <-]|[_ H]]; [|split; [by apply (Hrd g0 m)|by rewrite H]]. destruct (Hrd g n Hn). rewrite Hn. split; [lia|done]. }
  assert (calm cfg w1 w2) as Hcm.
  { apply like_calm; [done|done|]. intros g' Hle Hcl g0 [m Hm]. apply Hcl. by eapply Hrd2. }
  split_and!; [|by apply calm_guar|].
  - apply (like_inv cfg U w1); try done; try apply Hi. intros g0 m Hm. destruct (Hrd2 g0 m Hm) as [? [m' Hm']]. split; [done|]. by apply (Hrd g0 m').
  - intros w3 Hi3 Hr3. assert (held (ALeave g) tt (guarded γ g) = γ) as Eγ by (destruct γ; cbn in *; by subst).
    rewrite Eγ in *. apply HQ; [done|]. eapply rely_trans; [by eapply rely_guarded|]. eapply rely_trans; [by apply calm_rely|done].
Qed.

(** Every row of the snapshot can be read while the guard is held. *)
Definition readable (g : Z) (t : Tables) (w : World) : Prop :=
  ∀ id l, rows t !! id = Some l → protected g (l_pack l) w ∧ row_stored (dk w) l.

Lemma readable_snapshot g w : SInv w → readable g (tb w) w.
Proof.
  intros Hi id l Hl. split; [left|by eapply (si_rows _ _ _ Hi)]. destruct (si_idx _ _ _ Hi) as [V HV].
  by destruct (iv_row _ _ _ _ _ _ HV id l Hl) as (_ & _ & _ & ?).
Qed.
Lemma readable_rely γ g t w w' : h_guard γ = Some g → rely γ w w' → readable g t w → readable g t w'.
Proof.
  intros Hg Hr Hrd id l Hl. destruct (Hrd id l Hl) as [Hp (blk & b & Ha & Hb)]. destruct (r_guard _ _ _ _ Hr g Hg _ Hp) as [Hp' Hf].
  split; [done|]. exists blk, b. split; [|done]. by eapply at_disk_prefix.
Qed.

Lemma read_at_disk d p off b : at_disk d p off b → read_exact_at p off (len b) d = Ok (Some b).
Proof. intros (pf & Hp & H0 & Hl & Hb). unfold read_exact_at. rewrite Hp, Hb. by rewrite (proj2 (Z.leb_le _ _)). Qed.

(** What a hash stands for: no two blocks of [U] have the same hash. *)
Context (D : bytes → bytes) (HD : ∀ d, U d → D (hash128 d) = d).

Lemma wp_read_block γ g t id l skip n (Q : Held → result BErr (option bytes) → World → Prop) w :
  h_guard γ = Some g → readable g t w → rows t !! id = Some l →
  (∀ w3 r, Inv γ w3 → rely γ w w3 →
     r = (if l_raw_len l <? skip + n then Err Corrupt else Ok (Some (mem_get (D (l_hash l)) skip n))) → len (D (l_hash l)) = l_raw_len l → Q γ r w3) →
  wp γ (read_block_into id l skip n) Q w.
Proof using HD.
  intros Hg Hrd Hl HQ. unfold read_block_into. destruct (Hrd id l Hl) as [_ (blk0 & b0 & _ & _ & _ & Hh0 & Hlen0 & HU0)].
  assert (D (l_hash l) = blk0) as Ed by (rewrite <- Hh0; by apply HD).
  destruct (l_raw_len l <? skip + n); [apply wp_ret; intros; apply HQ; [done|done|done|by rewrite Ed]|].
  apply wp_seq, (wp_view _ _ _ _ (λ s, read_exact_at (l_pack l) (l_offset l) (loc_record_len l) (s_disk s))); [done|done|done|].
  intros w1 w2 Hi1 Hr1 Hi2 Hr2. destruct (readable_rely γ g t w w1 Hg Hr1 Hrd id l Hl) as [_ (blk & b & Ha & Elen & Hdec & Hh & Hlen & HU)].
  change (s_disk (x_s w1)) with (dk w1). rewrite <- Elen, (read_at_disk _ _ _ _ Ha), Hdec.
  assert (D (l_hash l) = blk) as <- by (rewrite <- Hh; by apply HD).
  apply wp_ret. intros w3 Hi3 Hr3. apply HQ; [done| |done|done]. eapply rely_trans; [exact Hr1|]. by eapply rely_trans.
Qed.

Lemma read_slot t f L ids b :
  Manifest bs t f L ids → 0 ≤ b < len ids →
  ∃ seg id, segment f (as_u32 (b / BLOCKS_PER_SEGMENT)) t = Some seg ∧ ids !! Z.to_nat b = Some id ∧
    slot seg (as_u32 (b / BLOCKS_PER_SEGMENT)) (b mod BLOCKS_PER_SEGMENT) = Some id.
Proof using Hbs.
  intros [Hok Ht] Hb. destruct (block_segment bs Hbs L ids b Hok Hb) as [-> Hs]. unfold segment. rewrite Ht, (seg_row_in bs) by done.
  destruct (lookup_lt_is_Some_2 ids (Z.to_nat b)) as [id Hid]; [unfold len in Hb; lia|]. eexists _, id. split_and!; [done|done|].
  pose proof (Z.mod_pos_bound b BLOCKS_PER_SEGMENT). unfold BLOCKS_PER_SEGMENT in *. apply slot_encode; [apply seg_slots_u64, Hok|lia|].
  unfold seg_slots. rewrite lookup_mem_get, decide_True by (unfold BLOCKS_PER_SEGMENT; lia). rewrite <- Hid. f_equal.
  unfold BLOCKS_PER_SEGMENT. rewrite <- Z2Nat.inj_add by lia. f_equal. pose proof (Z.div_mod b 4096). lia.
Qed.

(** What [read] puts in the buffer of what a file holds, and the ranges it
    reports missing. *)
Fixpoint fill (L : Z) (hs : list (option bytes)) (offset end_ : Z) (bks : list Z) (buf : bytes) (missing : list (Z * Z)) : bytes * list (Z * Z) :=
  match bks with
  | [] => (buf, missing)
  | b :: bks =>
      let block_start := b * bs in
      let block_end := Z.min L (block_start + bs) in
      let from := Z.max offset block_start in
      let to := Z.min end_ block_end in
      match hs !! Z.to_nat b with
      | Some (Some h) => fill L hs offset end_ bks (mem_put buf (from - offset) (mem_get (D h) (from - block_start) (to - from))) missing
      | _ => fill L hs offset end_ bks buf (push_range missing (block_start, block_end))
      end
  end.

(** Every block is as long as its place in the file. *)
Definition lens_ok (L : Z) (hs : list (option bytes)) : Prop :=
  ∀ i h, hs !! i = Some (Some h) → len (D h) = block_len L bs (Z.of_nat i).

Lemma wp_read_loop γ g t V f L ids offset end_ bks seg_no seg buf missing
    (Q : Held → result BErr (bytes * list (Z * Z)) → World → Prop) w :
  h_guard γ = Some g → readable g t w → IdxInv bs t V [] [] [] → Manifest bs t f L ids → end_ ≤ L →
  Forall (λ b, 0 ≤ b < len ids) bks → segment f seg_no t = Some seg →
  (∀ w3 r, Inv γ w3 → rely γ w w3 → (lens_ok L (hashes_in t ids) → r = Ok (fill L (hashes_in t ids) offset end_ bks buf missing)) → Q γ r w3) →
  wp γ (read_loop cfg t f L offset end_ seg_no seg bks buf missing) Q w.
Proof using Hbs HD.
  intros Hg Hrd HV HM Hend. revert seg_no seg buf missing w Hrd. induction bks as [|b bks IH]; intros seg_no seg buf missing w Hrd Hbks Hseg HQ; cbn [read_loop fill].
  { apply wp_ret. intros w3 Hi3 Hr3. apply HQ; [done|done|]. by intros _. }
  apply Forall_cons in Hbks as [Hb Hbks]. destruct (read_slot t f L ids b HM Hb) as (seg' & id & Hseg' & Hid & Hslot).
  set (want := as_u32 (b / BLOCKS_PER_SEGMENT)) in *.
  assert ((if want =? seg_no then Some seg else segment f want t) = Some seg') as ->.
  { destruct (Z.eqb_spec want seg_no) as [E|]; [|done]. by rewrite <- E, Hseg' in Hseg. }
  rewrite Hslot. assert (hashes_in t ids !! Z.to_nat b = Some (l_hash <$> rows t !! id)) as Eh.
  { unfold hashes_in. by rewrite list_lookup_fmap, Hid. }
  assert ((if id =? MISSING then None else block id t) = rows t !! id) as ->.
  { rewrite block_rows. destruct (Z.eqb_spec id MISSING) as [->|]; [|done]. by rewrite (missing_row bs t V _ _ _ HV). }
  cbn [fill] in HQ. rewrite Eh in HQ. destruct (rows t !! id) as [l|] eqn:Hl; cbn [fmap option_fmap option_map] in *.
  - apply wp_seq, (wp_read_block γ g t id l); [done|done|done|]. intros w1 r Hi1 Hr1 Er Hlen.
    set (from := Z.max offset (b * bs)) in *. set (to := Z.min end_ (Z.min L (b * bs + bs))) in *.
    destruct (Z.ltb_spec (l_raw_len l) (from - b * bs + (to - from))) as [Hlt|Hge]; subst r.
    + apply wp_ret. intros w2 Hi2 Hr2. apply HQ; [done|by eapply rely_trans|]. intros Hok. exfalso. specialize (Hok _ _ Eh). rewrite Hlen in Hok.
      unfold block_len, sat_sub in Hok. rewrite Z2Nat.id in Hok by lia. lia.
    + apply IH; [by eapply readable_rely|done|done|]. intros w3 r Hi3 Hr3. apply HQ; [done|by eapply rely_trans].
  - apply wp_seq, wp_ret. intros w1 Hi1 Hr1. apply IH; [by eapply readable_rely|done|done|]. intros w3 r Hi3 Hr3. apply HQ; [done|by eapply rely_trans].
Qed.

(** What [read] answers on what a file holds. *)
Definition read_answer (o : option (Z * list (option bytes))) (offset : Z) (buf : bytes) : result BErr (Z * bytes * list (Z * Z)) :=
  match o with
  | None => Err NotFound
  | Some (L, hs) =>
      if (L <=? offset) || (len buf =? 0) then Ok (0, buf, []) else
      let end_ := Z.min L (offset + len buf) in
      let bm := fill L hs offset end_ (range (offset / bs) ((end_ - 1) / bs + 1)) buf [] in
      Ok (end_ - offset, bm.1, bm.2)
  end.
Definition sound (o : option (Z * list (option bytes))) : Prop := match o with Some (L, hs) => lens_ok L hs | None => True end.

(** [read] gives what the file holds at one moment of the call. *)
Lemma wp_read_file γ f offset buf (Q : Held → result BErr (Z * bytes * list (Z * Z)) → World → Prop) w :
  h_guard γ = None → 0 ≤ offset →
  (∀ w1 o r w3, check_id cfg f = Ok tt → Inv γ w1 → rely γ w w1 → holds bs (tb w1) f o → rely γ w1 w3 → Inv γ w3 →
     (sound o → r = read_answer o offset buf) → Q γ r w3) →
  (∀ e w3, check_id cfg f = Err e → Inv γ w3 → rely γ w w3 → Q γ (Err e) w3) →
  wp γ (read cfg f offset buf) Q w.
Proof using Hbs HD.
  intros Hg Hoff HQ HE. unfold read. apply wp_seq, wp_ret. intros w0 Hi0 Hr0. destruct (check_id cfg f) as [[]|e] eqn:Hid.
  2:{ apply wp_ret. intros w1 Hi1 Hr1. apply HE; [done|done|by eapply rely_trans]. }
  specialize (λ w1 o r w3, HQ w1 o r w3 eq_refl).
  apply wp_seq, wp_enter; [done|]. intros g w1 Hi1 Hr1.
  apply wp_seq, (wp_view _ _ _ _ s_tables); [done|done|done|]. intros w2 w3 Hi2 Hr2 Hi3 Hr3. change (s_tables (x_s w2)) with (tb w2).
  pose proof (readable_snapshot g w2 (proj1 Hi2)) as Hrd. destruct (si_idx _ _ _ (proj1 Hi2)) as [V HV].
  pose proof (iv_files _ _ _ _ _ _ HV f) as HM. pose proof (view_holds bs (tb w2) V f (iv_files _ _ _ _ _ _ HV)) as Ho. set (t := tb w2) in *.
  assert (rely γ w w2) as Hrw2 by (eapply rely_trans; [exact Hr0|]; eapply rely_trans; [exact Hr1|]; by eapply rely_guarded).
  assert (Inv γ w2) as Hi2' by (destruct Hi2 as (? & ? & ? & _); split_and!; try done; by rewrite Hg).
  assert (∀ o r w4, holds bs t f o → rely (guarded γ g) w2 w4 → (sound o → r = read_answer o offset buf) →
    wp (guarded γ g) (let* _ := do (ALeave g) in Ret r) Q w4) as Hend.
  { intros o r w4 Hot Hr4 Hans. apply wp_seq, wp_leave; [done|]. intros w5 Hi5 Hr5. apply wp_ret. intros w6 Hi6 Hr6.
    apply (HQ w2 o r w6); [done|done|done| |done|done]. eapply rely_trans; [by eapply rely_guarded|]. by eapply rely_trans. }
  apply wp_seq. destruct (V !! f) as [[L ids]|].
  - destruct HM as [Hok Ht]. destruct (file_segments bs Hbs L ids Hok) as (Hsc & _). assert (segment f 0 t = Some (encode_segment (seg_head 0 L) (seg_slots ids 0))) as Es
      by (unfold segment; rewrite Ht; apply (seg_row_in bs); [done|lia]).
    rewrite Es, file_len_head by apply Hok.
    destruct ((L <=? offset) || (len buf =? 0)) eqn:Eend.
    { apply wp_ret. intros w4 Hi4 Hr4. eapply Hend; [exact Ho|by eapply rely_trans|]. intros _. unfold read_answer. by rewrite Eend. }
    apply orb_false_iff in Eend as Ee. destruct Ee as [E1%Z.leb_gt E2%Z.eqb_neq]. pose proof (len_nonneg buf).
    set (end_ := Z.min L (offset + len buf)). apply wp_seq, (wp_read_loop (guarded γ g) g t V f L ids); try done; [by apply (readable_rely (guarded γ g) g t w2)|lia| |].
    + apply Forall_forall. intros b Hbk. unfold range in Hbk. rewrite elem_of_seqZ in Hbk.
      destruct Hok as (_ & _ & -> & _). unfold block_count, div_ceil.
      assert (0 ≤ offset / bs) by (apply Z.div_pos; lia). assert (b ≤ (end_ - 1) / bs) as Hle by lia. split; [lia|].
      assert ((end_ - 1) / bs < (L + bs - 1) / bs); [|lia].
      assert ((end_ - 1) / bs + 1 = (end_ - 1 + 1 * bs) / bs) as E by (rewrite Z.div_add; lia).
      assert ((end_ - 1 + 1 * bs) / bs ≤ (L + bs - 1) / bs) by (apply Z.div_le_mono; lia). lia.
    + intros w4 r Hi4 Hr4 Hr. assert (rely (guarded γ g) w2 w4) as Hr24 by (by eapply rely_trans).
      destruct r as [bm|e]; apply wp_ret; intros w5 Hi5 Hr5; (eapply Hend; [exact Ho|by eapply rely_trans|]); intros Hs; specialize (Hr Hs); simplify_eq.
      unfold read_answer. rewrite Eend. done.
  - unfold segment. rewrite HM. apply wp_ret. intros w4 Hi4 Hr4. eapply Hend; [exact Ho|by eapply rely_trans|done].
Qed.
End ops.
