(* ===== verification/BlockCompact.v ===== *)
(** BlockCompact: compaction of the block store, under the same interference.

    A copy of a record takes the place of the record, a pack that nothing is
    in retires, and its file is deleted when no read that could reach it is
    still running: nobody notices. *)

From S2P Require Import Prelude Seg BlockIndex BlockProps BlockInv BlockStore BlockSafe BlockOps.

Section compact.
Context `{BC : BlockCodec} `{BCO : !BlockCodecOk} (cfg : StoreConfig) (U : bytes → Prop).
Local Abbreviation bs := (c_block_size cfg).
Context (Hbs : 0 < bs) (Hbs32 : bs < u32_max) (Hmax : in_u64 (c_max_pack_size cfg)).
Local Abbreviation SInv := (SInv cfg U).
Local Abbreviation Inv := (Inv cfg U).
Local Abbreviation rely := (rely cfg).
Local Abbreviation guar := (guar cfg).
Local Abbreviation wp := (wp cfg U).
Local Abbreviation row_stored := (row_stored U).
Local Abbreviation keeps_files := (keeps_files cfg).
Local Abbreviation own_step := (own_step cfg).
Local Abbreviation after := (after cfg).

(** ** Moving live records *)

(** A record that was read of a block's row. *)
Definition live_ok (w : World) (r : LiveRecord) : Prop :=
  (1 ≤ lr_id r < next_id (tb w)) ∧ (∀ cur, rows (tb w) !! lr_id r = Some cur → same_content (lr_loc r) cur) ∧
  ∃ blk, is_record U (lr_loc r) blk (lr_bytes r).

Lemma content_rely γ w w' id l :
  1 ≤ id < next_id (tb w) → rely γ w w' → (∀ cur, rows (tb w) !! id = Some cur → same_content l cur) →
  ∀ cur, rows (tb w') !! id = Some cur → same_content l cur.
Proof.
  intros Hid Hr Hc cur Hcur. destruct (e_rows _ _ (r_ev _ _ _ _ Hr) id cur Hcur) as [?|(l0 & Hl0 & E)]; [lia|].
  eapply same_content_trans; [by apply Hc|done].
Qed.
Lemma live_rely γ w w' r : rely γ w w' → live_ok w r → live_ok w' r.
Proof.
  intros Hr (Hid & Hc & Hb). pose proof (e_ids _ _ (r_ev _ _ _ _ Hr)). split_and!; [lia|lia| |done]. by eapply content_rely.
Qed.

Lemma split_record_app b : (split_record b).1 ++ (split_record b).2 = b.
Proof. apply take_drop. Qed.

Lemma wp_move_records γ live (Q : Held → result BErr Z → World → Prop) w :
  h_own γ = false → h_comp γ = true → Forall (live_ok w) live →
  (∀ r w3, Inv γ w3 → rely γ w w3 → Q γ r w3) → wp γ (move_records live) Q w.
Proof using All.
  intros Ho Hcp Hl HQ. unfold move_records. destruct live as [|r0 live0] eqn:El; [by apply wp_ret; intros; apply HQ|]. rewrite <- El in *. clear El r0 live0.
  apply wp_seq, wp_append_records; [done|done|done| |].
  2:{ intros e w1 Hi1 Hr1. apply wp_ret. intros w2 Hi2 Hr2. apply HQ; [done|by eapply rely_trans]. }
  intros w1 locs Hi1 Hr1 Hs. set (ms := zip _ locs).
  assert (∀ id l np no, (id, l, (np, no)) ∈ ms → ∃ b, live_ok w1 (mkLive id l b) ∧ settled w1 (split_record b) (np, no) ∧ accepts (tb w1) np) as Hms.
  { intros id l np no Hin. apply list_elem_of_lookup_1 in Hin as [i Hi]. unfold ms in Hi. apply lookup_zip_Some in Hi as [H1 H2]. cbn in H1, H2.
    rewrite list_lookup_fmap in H1. destruct (live !! i) as [r|] eqn:Er; [|done]. injection H1 as <- <-.
    destruct (Forall2_lookup_lr _ _ _ i (split_record (lr_bytes r)) (np, no) Hs) as [Hset Hacc]; [by rewrite list_lookup_fmap, Er|done|].
    exists (lr_bytes r). eapply Forall_lookup_1 in Hl; [|exact Er]. destruct r as [rid rl rb]. split_and!; [by eapply live_rely|done|by apply Hacc]. }
  apply (wp_commit cfg U γ (move_txn ms) (λ _, copies ms) (λ w1 _ t', ∀ g o, holds bs (tb w1) g o → holds bs t' g o)).
  - intros w2 V Hi2 Hr2 HV. eapply spec_weaken; [|apply (move_txn_spec bs (tb w2) V ms False HV)|]; [done| |done|].
    + intros id l np no Hin. destruct (Hms id l np no Hin) as (b & Hlv & (_ & ? & ?) & Hacc).
      destruct (live_rely γ w1 w2 _ Hr2 Hlv) as (? & ? & _). split; [done|]. split; [done|]. split; [by apply (r_comp _ _ _ _ Hr2 Hcp)|done].
    + intros n t' (HV' & Hev & Hdom).
      assert (∀ g o, holds bs (tb w2) g o → holds bs t' g o) as Hh.
      { intros g o. eapply (holds_kept bs Hbs); [exact HV|exact HV'|exact Hev| |done]. intros x Hx _. apply elem_of_dom. rewrite Hdom. by apply elem_of_dom. }
      split_and!; [by exists V|done|by intros ? ? _; apply Hh|done].
  - intros w2 l' Hi2 Hr2 (id & l & np & no & Hin & Hsame) Hacc. destruct (Hms id l np no Hin) as (b & (_ & _ & blk & Hrec) & (Hk & _) & _).
    apply (rely_kept _ _ _ _ _ _ _ Hr2) in Hk. rewrite split_record_app in Hk. cbn in Hk, Hrec.
    eapply row_stored_same; [exact Hsame|]. destruct Hk as [Hk|[_ Hk]]; [|destruct Hk; destruct Hsame as (E & _); cbn in E; by rewrite E].
    exists blk, b. split; [done|]. by eapply is_record_content; [|exact Hrec].
  - intros w2 a w3 w4 Hi2 Hr2 Hh Ed Hr3 Hr4 Hi4. apply HQ; [done|]. eapply rely_trans; [exact Hr1|]. eapply rely_trans; [exact Hr2|].
    eapply rely_trans; [|exact Hr4]. apply rely_of_bare; [done|]. intros f o _ Hf. rewrite Ed. split; [by apply Hh|done].
  - intros e w2 Hi2 Hr2. apply HQ; [done|by eapply rely_trans].
Qed.

(** A snapshot's rows, while no pack can retire. *)
Definition snap_ok (t : Tables) (w : World) : Prop := ∀ id l, rows t !! id = Some l →
  accepts (tb w) (l_pack l) ∧ row_stored (dk w) l ∧ loc_ok l ∧ (1 ≤ id < next_id (tb w)) ∧ (∀ cur, rows (tb w) !! id = Some cur → same_content l cur).

Lemma snap_now w : SInv w → snap_ok (tb w) w.
Proof.
  intros Hi id l Hl. destruct (si_idx _ _ _ Hi) as [V HV]. destruct (iv_row _ _ _ _ _ _ HV id l Hl) as (Hok & Hid & _ & Hacc).
  split; [done|]. split; [by eapply (si_rows _ _ _ Hi)|]. split; [done|]. split; [done|]. intros cur Hc. by simplify_eq.
Qed.
Lemma snap_rely γ t w w' : h_comp γ = true → rely γ w w' → snap_ok t w → snap_ok t w'.
Proof.
  intros Hcp Hr Hs id l Hl. destruct (Hs id l Hl) as (Ha & (blk & b & Hb & Hrec) & Hok & Hid & Hc). pose proof (e_ids _ _ (r_ev _ _ _ _ Hr)).
  assert (accepts (tb w') (l_pack l)) as Ha' by (by apply (r_comp _ _ _ _ Hr Hcp)).
  split; [done|]. split; [|split; [done|]; split; [lia|by eapply content_rely]].
  exists blk, b. split; [|done]. destruct (rely_kept _ _ _ _ _ _ b Hr (or_introl Hb)) as [?|[_ ?]]; done.
Qed.
Lemma snap_live t w id l blk b : snap_ok t w → rows t !! id = Some l → is_record U l blk b → live_ok w (mkLive id l b).
Proof. intros Hs Hl Hb. destruct (Hs id l Hl) as (_ & _ & _ & ? & ?). split; [done|]. split; [done|]. by exists blk. Qed.

(** What the checks of compaction see in a record. *)
Lemma record_checks l blk b :
  is_record U l blk b → ∃ h, header_decode (take (Z.to_nat HEADER_LEN) b) = Ok h ∧ h_stored_len h = l_stored_len l ∧ h_hash h = l_hash l ∧
    checksum (drop (Z.to_nat HEADER_LEN) b) = h_checksum h.
Proof.
  intros (_ & Hd & _). unfold decode_record, check_record in Hd. destruct (header_decode _) as [h|]; [|done]. exists h. split; [done|].
  destruct (negb (h_stored_len h =? l_stored_len l) || _ || _) eqn:E; [done|]. apply orb_false_iff in E as [[E1 _]%orb_false_iff E3].
  apply negb_false_iff, Z.eqb_eq in E1. apply negb_false_iff, bool_decide_eq_true in E3. split_and!; [done|done|].
  unfold decode_payload in Hd. destruct (negb (len _ =? _)); [done|]. destruct (negb (h_raw_len h =? _)); [done|].
  destruct (checksum _ =? h_checksum h) eqn:Ec; [by apply Z.eqb_eq in Ec|done].
Qed.

(** The file's bytes as they were read, unless the pack is dead. *)
Definition file_was (p : Z) (data : bytes) (w : World) : Prop :=
  (∃ pf, dk w !! p = Some pf ∧ data `prefix_of` pf_data pf) ∨ dead p w.
Lemma file_was_rely γ p data w w' : rely γ w w' → file_was p data w → file_was p data w'.
Proof.
  intros Hr [(pf & Hp & Hpre)|Hd]; [|right; by eapply rely_dead].
  destruct (e_disk _ _ (r_ev _ _ _ _ Hr) p pf Hp) as [(pf' & Hp' & ?)|?]; [left|by right]. exists pf'. split; [done|by etrans].
Qed.

Definition scanned_ok (data : bytes) (s : Scanned) : Prop :=
  header_decode (mem_get data (sc_offset s) HEADER_LEN) = Ok (sc_header s) ∧
  sc_bytes s = mem_get data (sc_offset s) (header_record_len (sc_header s)) ∧
  sc_offset s + HEADER_LEN ≤ len data ∧ sc_offset s + header_record_len (sc_header s) ≤ len data.

Lemma take_mem_get (m : bytes) o n k : 0 ≤ k ≤ n → take (Z.to_nat k) (mem_get m o n) = mem_get m o k.
Proof. intros. unfold mem_get. rewrite take_take. f_equal. lia. Qed.

(** A record the index has at a scanned place is what was scanned. *)
Lemma scanned_record data s w l :
  scanned_ok data s → file_was (l_pack l) data w → accepts (tb w) (l_pack l) → row_stored (dk w) l → loc_ok l → l_offset l = sc_offset s →
  ∃ blk, is_record U l blk (sc_bytes s) ∧ h_stored_len (sc_header s) = l_stored_len l ∧
    checksum (drop (Z.to_nat HEADER_LEN) (sc_bytes s)) = h_checksum (sc_header s).
Proof.
  intros (Hh & Hb & Hl1 & Hl2) Hf Hacc (blk & b & (pf & Hp & H0 & Hlen & Hget) & Hrec) Hok Eo.
  destruct Hf as [(pf' & Hp' & Hpre)|[_ ?]]; [|done]. simplify_eq. pose proof Hrec as (El & _). pose proof (record_len_bound l Hok) as Hrl.
  destruct (record_checks l blk b Hrec) as (h & Hd & Es & _ & Ec).
  assert (HEADER_LEN ≤ len b) as Hlb by (destruct Hok as (_ & _ & [? _] & _); unfold loc_record_len in El; lia).
  assert (take (Z.to_nat HEADER_LEN) b = mem_get data (sc_offset s) HEADER_LEN) as Et.
  { rewrite <- Hget, take_mem_get by (unfold HEADER_LEN in *; lia). rewrite Eo in *. apply mem_get_prefix; unfold HEADER_LEN in *; try lia; done. }
  rewrite Et, Hh in Hd. simplify_eq. assert (sc_bytes s = b) as ->.
  { rewrite Hb. unfold header_record_len in *. rewrite Es in *. fold (loc_record_len l) in *. rewrite <- El in *. rewrite Eo in *.
    transitivity (mem_get (pf_data pf') (sc_offset s) (len b)); [|done]. symmetry. apply mem_get_prefix; try lia; done. }
  by exists blk.
Qed.

Lemma wp_keep_live γ t p data scanned live (Q : Held → result BErr (list LiveRecord) → World → Prop) w :
  h_comp γ = true → snap_ok t w → file_was p data w → Forall (scanned_ok data) scanned → Forall (live_ok w) live →
  (∀ live' w3, Inv γ w3 → rely γ w w3 → Forall (live_ok w3) live' → Q γ (Ok live') w3) →
  wp γ (keep_live t p scanned live) Q w.
Proof.
  intros Hcp Hs Hf Hsc. revert live. induction Hsc as [|s scanned Hs1 Hsc IH]; intros live Hl HQ; cbn [keep_live].
  { apply wp_ret. intros w3 Hi3 Hr3. apply HQ; [done|done|]. eapply Forall_impl; [exact Hl|]. intros r. by eapply live_rely. }
  destruct (dedup _ t) as [id|]; cbn [mbind option_bind]; [|by apply IH]. rewrite block_rows. destruct (rows t !! id) as [l|] eqn:Hid; cbn [mbind option_bind]; [|by apply IH].
  destruct (Z.eqb_spec (l_pack l) p) as [Ep|]; cbn [negb orb]; [|by apply IH].
  destruct (Z.eqb_spec (l_offset l) (sc_offset s)) as [Eo|]; cbn [negb]; [|by apply IH]. destruct (Hs id l Hid) as (Ha & Hrow & Hok & _).
  destruct (scanned_record data s w l Hs1) as (blk & Hrec & Es & Ec); [by rewrite Ep|done|done|done|done|].
  rewrite Es, Ec, !Z.eqb_refl. cbn [negb orb]. apply IH; [|done]. apply Forall_app. split; [done|]. constructor; [|constructor]. by eapply snap_live.
Qed.

Lemma wp_move_scanned γ p data scanned (Q : Held → result BErr Z → World → Prop) w :
  h_own γ = false → h_comp γ = true → file_was p data w → Forall (scanned_ok data) scanned →
  (∀ r w3, Inv γ w3 → rely γ w w3 → Q γ r w3) → wp γ (move_scanned p scanned) Q w.
Proof using All.
  intros Ho Hcp Hf Hsc HQ. unfold move_scanned. apply wp_seq, (wp_view _ _ _ _ s_tables); [done|done|done|].
  intros w1 w2 Hi1 Hr1 Hi2 Hr2. change (s_tables (x_s w1)) with (tb w1). assert (rely γ w w2) as Hr by (by eapply rely_trans).
  apply wp_seq, (wp_keep_live γ (tb w1) p data); [done| |by eapply file_was_rely|done|constructor|].
  - eapply snap_rely; [done|exact Hr2|]. by apply snap_now, Hi1.
  - intros live w3 Hi3 Hr3 Hl. apply wp_move_records; [done|done|done|]. intros r w4 Hi4 Hr4. apply HQ; [done|].
    eapply rely_trans; [exact Hr|]. by eapply rely_trans.
Qed.

Lemma wp_scan_pack γ fuel p data offset batch nb moved (Q : Held → result BErr Z → World → Prop) w :
  h_own γ = false → h_comp γ = true → file_was p data w → Forall (scanned_ok data) batch →
  (∀ r w3, Inv γ w3 → rely γ w w3 → Q γ r w3) → wp γ (scan_pack cfg fuel p data offset batch nb moved) Q w.
Proof using All.
  intros Ho Hcp. revert offset batch nb moved w. induction fuel as [|fuel IH]; intros offset batch nb moved w Hf Hb HQ; cbn [scan_pack].
  { apply wp_ret. intros. by apply HQ. }
  assert (wp γ (let? m := move_scanned p batch in Ret (Ok (moved + m))) Q w) as Hfin.
  { apply wp_seq, (wp_move_scanned γ p data); [done..|]. intros [m|e] w3 Hi3 Hr3; apply wp_ret; intros w4 Hi4 Hr4; (apply HQ; [done|by eapply rely_trans]). }
  destruct (Z.ltb_spec (len data) (offset + HEADER_LEN)) as [|H1]; [done|]. destruct (header_decode _) as [h|] eqn:Eh; [|done].
  destruct (Z.ltb_spec (len data) (offset + header_record_len h)) as [|H2]; [done|].
  assert (Forall (scanned_ok data) (batch ++ [mkScanned offset h (mem_get data offset (header_record_len h))])) as Hb'.
  { apply Forall_app. split; [done|]. constructor; [|constructor]. done. }
  destruct (c_write_txn_bytes cfg <=? _).
  - apply wp_seq, (wp_move_scanned γ p data); [done..|]. intros [m|e] w3 Hi3 Hr3.
    + apply IH; [by eapply file_was_rely|constructor|]. intros r w4 Hi4 Hr4. apply HQ; [done|by eapply rely_trans].
    + apply wp_ret. intros w4 Hi4 Hr4. apply HQ; [done|by eapply rely_trans].
  - by apply IH.
Qed.

(** ** By the index *)

Definition row_of (t : Tables) (p : Z) (e : Z * BlockLoc) : Prop := rows t !! e.1 = Some e.2 ∧ l_pack e.2 = p.

Lemma pack_rows_of t p : Forall (row_of t p) (pack_rows t p).
Proof.
  apply Forall_forall. intros [id l]. unfold pack_rows. rewrite list_elem_of_filter. intros [Hp Hin]. split; [|done].
  apply list_elem_of_fmap in Hin as ([k v] & E & Hin). cbn in E. simplify_eq. rewrite merge_sort_Permutation in Hin.
  apply elem_of_map_to_list in Hin. unfold rows. cbn. by rewrite lookup_fmap, Hin.
Qed.
Lemma chunk_list_forall {A} (P : A → Prop) fuel n l : Forall P l → Forall (Forall P) (chunk_list fuel n l).
Proof.
  revert l. induction fuel as [|fuel IH]; intros l Hl; [constructor|]. destruct l as [|x l]; [constructor|]. cbn [chunk_list].
  constructor; [by apply Forall_take|]. by apply IH, Forall_drop.
Qed.

Lemma wp_read_live γ t p locs live (Q : Held → result BErr (list LiveRecord) → World → Prop) w :
  h_comp γ = true → snap_ok t w → Forall (row_of t p) locs → Forall (live_ok w) live →
  (∀ live' w3, Inv γ w3 → rely γ w w3 → Forall (live_ok w3) live' → Q γ (Ok live') w3) →
  wp γ (read_live p locs live) Q w.
Proof.
  intros Hcp Hs Hlocs. revert live w Hs. induction Hlocs as [|[id l] locs [Hid Hp] Hlocs IH]; intros live w Hs Hl HQ; cbn [read_live].
  { apply wp_ret. intros w3 Hi3 Hr3. apply HQ; [done|done|]. eapply Forall_impl; [exact Hl|]. intros r. by eapply live_rely. }
  cbn in Hid, Hp. apply wp_seq, (wp_view _ _ _ _ (λ s, read_exact_at p (l_offset l) (loc_record_len l) (s_disk s))); [done|done|done|].
  intros w1 w2 Hi1 Hr1 Hi2 Hr2. pose proof (snap_rely γ t w w1 Hcp Hr1 Hs) as Hs1. destruct (Hs1 id l Hid) as (_ & (blk & b & Hb & Hrec) & _).
  pose proof Hrec as (El & _). change (s_disk (x_s w1)) with (dk w1). rewrite <- El, <- Hp, (read_at_disk _ _ _ _ Hb).
  destruct (record_checks l blk b Hrec) as (h & -> & -> & -> & ->). rewrite bool_decide_eq_true_2, !Z.eqb_refl by done. cbn [andb].
  assert (rely γ w w2) as Hr by (by eapply rely_trans). pose proof (snap_rely γ t w w2 Hcp Hr Hs) as Hs2. rewrite Hp.
  apply IH; [done| |].
  - apply Forall_app. split; [eapply Forall_impl; [exact Hl|]; intros r; by eapply live_rely|]. constructor; [|constructor]. by eapply snap_live.
  - intros live' w3 Hi3 Hr3. apply HQ; [done|by eapply rely_trans].
Qed.

Lemma wp_evacuate γ t p cs moved (Q : Held → result BErr Z → World → Prop) w :
  h_own γ = false → h_comp γ = true → snap_ok t w → Forall (Forall (row_of t p)) cs →
  (∀ r w3, Inv γ w3 → rely γ w w3 → Q γ r w3) → wp γ (evacuate p cs moved) Q w.
Proof using All.
  intros Ho Hcp Hs Hcs. revert moved w Hs. induction Hcs as [|c cs Hc Hcs IH]; intros moved w Hs HQ; cbn [evacuate].
  { apply wp_ret. intros. by apply HQ. }
  apply wp_seq, (wp_read_live γ t); [done|done|done|constructor|]. intros live w1 Hi1 Hr1 Hl.
  apply wp_seq, wp_move_records; [done|done|done|]. intros [m|e] w2 Hi2 Hr2.
  - assert (rely γ w w2) as Hr by (by eapply rely_trans). apply IH; [by apply (snap_rely γ t w w2)|]. intros r w3 Hi3 Hr3. apply HQ; [done|by eapply rely_trans].
  - apply wp_ret. intros w3 Hi3 Hr3. apply HQ; [done|]. eapply rely_trans; [exact Hr1|by eapply rely_trans].
Qed.
Lemma wp_evacuate_by_index γ p (Q : Held → result BErr Z → World → Prop) w :
  h_own γ = false → h_comp γ = true → (∀ r w3, Inv γ w3 → rely γ w w3 → Q γ r w3) → wp γ (evacuate_by_index p) Q w.
Proof using All.
  intros Ho Hcp HQ. unfold evacuate_by_index. apply wp_seq, (wp_view _ _ _ _ s_tables); [done|done|done|].
  intros w1 w2 Hi1 Hr1 Hi2 Hr2. change (s_tables (x_s w1)) with (tb w1). apply (wp_evacuate γ (tb w1)); [done|done| | |].
  - eapply snap_rely; [done|exact Hr2|]. by apply snap_now, Hi1.
  - apply chunk_list_forall, pack_rows_of.
  - intros r w3 Hi3 Hr3. apply HQ; [done|]. eapply rely_trans; [exact Hr1|by eapply rely_trans].
Qed.

(** ** Retiring *)

Definition uncomp (γ : Held) : Held := mkHeld (h_own γ) false (h_guard γ) (h_files γ).
Lemma rely_uncomp γ w w' : rely γ w w' → rely (uncomp γ) w w'.
Proof. intros [E O C G F]. by split. Qed.
Lemma unown_uncomp_owning γ : h_own γ = false → unown (uncomp (owning γ)) = uncomp γ.
Proof. destruct γ. cbn. by intros ->. Qed.

Definition idle (p : Z) (w : World) : Prop := p < x_next w ∧ pack_state (tb w) p ≠ Some Active.
Lemma idle_rely γ p w w' : rely γ w w' → idle p w → idle p w'.
Proof. intros [E _ _ _ _] [Hp Ha]. pose proof (e_next _ _ E). split; [lia|]. by apply (e_idle _ _ E). Qed.

(** The generation in which a pack retired. *)
Definition retired_in (p r : Z) (w : World) : Prop := x_gens w !! p = Some r ∧ r ≤ s_generation (x_s w).
Lemma retired_rely γ p r w w' : rely γ w w' → retired_in p r w → retired_in p r w'.
Proof. intros [E _ _ _ _] [Hp Hr]. pose proof (e_gen _ _ E). split; [by apply (e_gens _ _ E)|lia]. Qed.

Lemma wp_retire γ p n (Q : Held → result BErr bool → World → Prop) w :
  h_own γ = true → h_comp γ = true → current_ok w → synced_current w → idle p w →
  (∀ b w3, Inv γ w3 → rely (unown (uncomp γ)) w w3 → current_ok w3 → (b = true → ∃ r, retired_in p r w3) → Q γ (Ok b) w3) →
  (∀ e w3, Inv γ w3 → rely (unown (uncomp γ)) w w3 → current_ok w3 → Q γ (Err e) w3) →
  wp γ (do (ADurable (retire_txn p) n)) Q w.
Proof using Hbs.
  intros Ho Hcp Hc Hs Hid HQ HE. apply wp_do; [done|]. intros w1 (Hi & Hlk & Hrest & Hgd) Hr r s2 E. cbn [exec] in E.
  specialize (Hlk Ho). pose proof (rely_current_ok cfg γ w w1 Ho Hr Hc) as Hc1. pose proof (rely_synced cfg γ w w1 Ho Hc Hr Hs) as Hs1.
  pose proof (idle_rely γ p w w1 Hr Hid) as [Hp1 Hst1].
  destruct (si_idx _ _ _ Hi) as [V HV]. pose proof (retire_spec bs (tb w1) V p HV) as Hf. unfold spec in Hf. unfold index_update in E.
  change (s_tables (x_s w1)) with (tb w1) in E. assert (∀ w', rely γ w w' → rely (unown (uncomp γ)) w w') as Hun by (intros; by apply rely_unown, rely_uncomp).
  destruct (retire_txn p (tb w1)) as [[b t']|e] eqn:Et; simplify_eq.
  - destruct Hf as (HV' & Hf). set (ret := if b then Some p else None).
    assert (rows t' = rows (tb w1) ∧ next_id t' = next_id (tb w1) ∧ meta_ok cfg t' ∧
      ∀ q, pack_state t' q = if decide (ret = Some q) then Some Retired else pack_state (tb w1) q) as (Er & En & Hmt & Hst).
    { pose proof (proj1 (si_meta _ _ _ Hi)) as Hmt. unfold ret. destruct b; [|by subst t']. destruct Hf as (_ & E1 & E2 & E3). split_and!; [unfold rows; by rewrite E1|unfold next_id, meta; by rewrite E2|unfold meta_ok, meta in *; by rewrite E2|].
      intros q. unfold pack_state. rewrite E3. case_decide as Eq; [simplify_eq; by rewrite lookup_insert_eq|]. by rewrite lookup_insert_ne by congruence. }
    assert (∀ q, ret = Some q → is_Some (pack_state (tb w1) q) ∧ pack_state (tb w1) q ≠ Some Active) as Hret.
    { unfold ret. destruct b; [|done]. intros q [= <-]. split; [|done]. apply infos_state. unfold retire_txn, mbind, TM_bind, tread in Et. rewrite pack_infos in Et.
      destruct (infos (tb w1) !! p); [done|]. done. }
    destruct (durable_step cfg U Hbs ret t' V 0 (s_unflushed_commits (x_s w1) - n) w1 Hi Hlk Hs1 Hc1 HV HV' Er En Hmt Hst Hret) as (Hi2 & HE2 & HF2 & HP2 & _).
    exists (retiring ret w1), (x_next w1). set (w2 := mkWorld _ _ _) in *.
    split_and!; [done|split; try done; try congruence; by intros f o _; apply HF2|]. intros w3 Hi3 Hr3. cbn [held] in *.
    assert (rely (unown (uncomp γ)) w1 w2) as Hr12.
    { split; try done; [intros g Hg; apply HP2; by apply Hgd|]. intros f o _. by apply HF2. }
    apply HQ; [done| | |].
    + eapply rely_trans; [by apply Hun|]. eapply rely_trans; [exact Hr12|by apply rely_unown, rely_uncomp].
    + apply (rely_current_ok cfg γ w2 w3 Ho Hr3). intros q Hq. change (tb w2) with t'. rewrite Hst. change (wr w2) with (wr w1) in Hq.
      specialize (Hc1 q Hq). case_decide as Eq; [|done]. exfalso. by destruct (Hret q Eq).
    + intros ->. assert (∃ r, x_gens w2 !! p = Some r) as [r Hg2].
      { unfold w2. cbn [x_gens]. unfold retiring, ret. destruct (x_gens w1 !! p) as [r|] eqn:Eg; [by exists r|]. eexists. apply lookup_insert_eq. }
      exists r. eapply retired_rely; [exact Hr3|]. split; [done|]. by apply (si_gens _ _ _ Hi2 p).
  - exists (x_gens w1), (x_next w1). destruct w1 as [s G nx]. split_and!; [done|apply calm_guar, calm_refl|]. intros w3 Hi3 Hr3. cbn [held] in *.
    apply HE; [done|apply Hun; eapply rely_trans; [exact Hr|exact Hr3]|by apply (rely_current_ok cfg γ (mkWorld s G nx))].
Qed.

Lemma wp_retire_commit γ p (Q : Held → result BErr bool → World → Prop) w :
  h_own γ = false → h_comp γ = true → idle p w →
  (∀ b w3, Inv γ w3 → rely (uncomp γ) w w3 → (b = true → ∃ r, retired_in p r w3) → Q γ (Ok b) w3) →
  (∀ e w3, Inv γ w3 → rely (uncomp γ) w w3 → Q γ (Err e) w3) →
  wp γ (durable_commit (retire_txn p)) Q w.
Proof using Hbs.
  intros Ho Hcp Hid HQ HE. unfold durable_commit, durable_commit_locked. apply wp_seq, wp_lock; [done|]. intros w1 Hi1 Hr1 Hc1.
  apply wp_seq, wp_sync; [done|done|]. intros w2 Hi2 [Hr2 _] Hc2 Hs2. rewrite unown_owning in Hr2 by done.
  apply wp_seq, (wp_view _ _ _ _ (λ s, s_unflushed_commits s)); [done|done|done|]. intros w3 w4 Hi3 Hr3 Hi4 Hr4.
  assert (rely (owning γ) w2 w4) as Hr24 by (by eapply rely_trans). pose proof (rely_current_ok cfg (owning γ) w2 w4 eq_refl Hr24 Hc2) as Hc4.
  assert (rely γ w w4) as Hr.
  { eapply rely_trans; [exact Hr1|]. eapply rely_trans; [exact Hr2|]. apply rely_unown in Hr24. by rewrite unown_owning in Hr24. }
  apply wp_seq, wp_retire; [done|done|done|by apply (rely_synced cfg (owning γ) w2)|by eapply idle_rely| |]; rewrite unown_uncomp_owning by done.
  - intros b w5 Hi5 Hr5 Hc5 Hb. apply wp_unlocked; [done|done|]. rewrite unown_owning by done. intros w6 Hi6 Hr6. apply HQ; [done| |].
    + eapply rely_trans; [by apply rely_uncomp|]. eapply rely_trans; [exact Hr5|by apply rely_uncomp].
    + intros Eb. destruct (Hb Eb) as [r Hret]. exists r. by eapply retired_rely.
  - intros e w5 Hi5 Hr5 Hc5. apply wp_unlocked; [done|done|]. rewrite unown_owning by done. intros w6 Hi6 Hr6. apply HE; [done|].
    eapply rely_trans; [by apply rely_uncomp|]. eapply rely_trans; [exact Hr5|by apply rely_uncomp].
Qed.

(** ** The tracker and the list of retired packs *)

(** A pack and the generation after which its file may go. *)
Definition deletable (e : Z * Z) (w : World) : Prop :=
  ∃ r, x_gens w !! e.1 = Some r ∧ r < e.2 ∧ e.2 ≤ s_generation (x_s w).
Lemma deletable_rely γ e w w' : rely γ w w' → deletable e w → deletable e w'.
Proof. intros [E _ _ _ _] (r & Hp & ? & ?). pose proof (e_gen _ _ E). exists r. split_and!; [by apply (e_gens _ _ E)|done|lia]. Qed.

Lemma wp_advance γ p r (Q : Held → Z → World → Prop) w :
  retired_in p r w → (∀ g w3, Inv γ w3 → rely γ w w3 → deletable (p, g) w3 → Q γ g w3) → wp γ (do AAdvance) Q w.
Proof.
  intros Hret HQ. apply wp_do; [done|]. intros w1 Hi Hr x s2 E. cbn [exec] in E. unfold advance in E. simplify_eq. cbn [held].
  exists (x_gens w1), (x_next w1). set (w2 := mkWorld _ _ _). assert (like w1 w2) as Hl by done. set (g := s_generation (x_s w1)) in *.
  assert (s_generation (x_s w2) = g + 1) as Eg by done. assert (calm cfg w1 w2) as Hc by (apply like_calm; [done|lia|done]).
  split_and!; [|by apply calm_guar|].
  - apply (like_inv cfg U w1); [done|apply Hi|lia| |apply Hi|].
    + intros g0 n Hn. destruct (si_reads _ _ _ (proj1 Hi) g0 n Hn). split; [done|lia].
    + intros q g0 Hq. destruct (si_retired _ _ _ (proj1 Hi) q g0 Hq) as (r0 & ? & ? & ?). exists r0. split_and!; [done|done|lia].
  - intros w3 Hi3 Hr3. apply HQ; [done|eapply rely_trans; [done|]; eapply rely_trans; [by apply calm_rely|done]|].
    eapply deletable_rely; [exact Hr3|]. destruct (retired_rely γ p r w w1 Hr Hret) as [Hp Hle]. exists r. split_and!; [done|cbn; unfold g in *; lia|done].
Qed.

Lemma wp_push_retired γ l (Q : Held → unit → World → Prop) w :
  (∀ e, e ∈ l → deletable e w) → (∀ w3, Inv γ w3 → rely γ w w3 → Q γ tt w3) → wp γ (do (APushRetired l)) Q w.
Proof.
  intros Hl HQ. apply wp_do; [done|]. intros w1 Hi Hr x s2 E. cbn [exec] in E. simplify_eq. cbn [held].
  exists (x_gens w1), (x_next w1). set (w2 := mkWorld _ _ _). assert (like w1 w2) as Hlk by done. assert (calm cfg w1 w2) as Hc by (by apply like_calm).
  split_and!; [|by apply calm_guar|].
  - apply (like_inv cfg U w1); try done; try apply Hi. intros q g. cbn [s_retired x_s w2 with_retired]. rewrite elem_of_app. intros [Hq|Hq]; [by apply (si_retired _ _ _ (proj1 Hi))|].
    by apply (deletable_rely γ _ _ _ Hr (Hl _ Hq)).
  - intros w3 Hi3 Hr3. apply HQ; [done|]. eapply rely_trans; [done|]; eapply rely_trans; [by apply calm_rely|done].
Qed.

Lemma wp_take_retired γ (Q : Held → list (Z * Z) → World → Prop) w :
  (∀ l w3, Inv γ w3 → rely γ w w3 → (∀ e, e ∈ l → deletable e w3) → Q γ l w3) → wp γ (do ATakeRetired) Q w.
Proof.
  intros HQ. apply wp_do; [done|]. intros w1 Hi Hr x s2 E. cbn [exec] in E. simplify_eq. cbn [held].
  exists (x_gens w1), (x_next w1). set (w2 := mkWorld _ _ _). assert (like w1 w2) as Hlk by done. assert (calm cfg w1 w2) as Hc by (by apply like_calm).
  split_and!; [|by apply calm_guar|].
  - apply (like_inv cfg U w1); try done; try apply Hi. intros q g Hq. by apply elem_of_nil in Hq.
  - intros w3 Hi3 Hr3. apply HQ; [done|eapply rely_trans; [done|]; eapply rely_trans; [by apply calm_rely|done]|].
    intros [q g] Hq. eapply deletable_rely; [exact Hr3|]. by apply (si_retired _ _ _ (proj1 Hi)).
Qed.

Lemma wp_is_clear γ g (Q : Held → bool → World → Prop) w :
  g ≤ s_generation (x_s w) → (∀ b w3, Inv γ w3 → rely γ w w3 → (b = true → clear g w3) → Q γ b w3) → wp γ (do (AIsClear g)) Q w.
Proof.
  intros Hg HQ. apply (wp_view _ _ _ _ (is_clear_before g)); [done|done|done|]. intros w1 w3 Hi1 Hr1 Hi3 Hr3.
  apply HQ; [done|by eapply rely_trans|]. unfold is_clear_before. rewrite forallb_forall. intros Hb.
  pose proof (e_gen _ _ (r_ev _ _ _ _ Hr1)). apply (e_clear _ _ (r_ev _ _ _ _ Hr3)); [lia|]. intros g0 [n Hn].
  apply Z.leb_le, (Hb (g0, n)). by apply list_elem_of_In, elem_of_map_to_list.
Qed.

(** The file of a pack that nothing is in goes, when no read can reach it. *)
Lemma wp_remove_file γ p g (Q : Held → bool → World → Prop) w :
  deletable (p, g) w → clear g w → (∀ b w3, Inv γ w3 → rely γ w w3 → Q γ b w3) →
  wp γ (do (ARemoveFile p)) Q w.
Proof.
  intros Hdel Hcl HQ. apply wp_do; [done|]. intros w1 Hi Hr x s2 E. cbn [exec] in E.
  destruct (deletable_rely γ _ _ _ Hr Hdel) as (r & Hgen & Hlt & Hle). cbn [fst snd] in *.
  assert (clear g w1) as Hcl1 by (apply (e_clear _ _ (r_ev _ _ _ _ Hr)); [destruct Hdel as (? & _ & _ & ?); cbn in *; lia|done]).
  destruct (next_fault (x_s w1)) as [ft fl]. exists (x_gens w1), (x_next w1). destruct Hi as (Hi & Hrest).
  destruct (si_gens _ _ _ Hi p r Hgen) as [(Hpn & Hna & Hnd) _].
  destruct (f_fails ft); simplify_eq; cbn [held].
  - set (w2 := mkWorld _ _ _). assert (like w1 w2) as Hlk by done. assert (calm cfg w1 w2) as Hc by (by apply like_calm).
    split_and!; [apply (like_inv cfg U w1); try done; apply Hi|by apply calm_guar|].
    intros w3 Hi3 Hr3. apply HQ; [done|]. eapply rely_trans; [done|]; eapply rely_trans; [by apply calm_rely|done].
  - set (w2 := mkWorld _ _ _). assert (∀ q, q ≠ p → dk w2 !! q = dk w1 !! q) as Hdk by (intros q Hq; unfold dk; cbn; by rewrite lookup_delete_ne).
    assert (∀ q pf, dk w2 !! q = Some pf → dk w1 !! q = Some pf) as Hsub by (intros q pf Hq; change (dk w2) with (delete p (dk w1)) in Hq; by apply lookup_delete_Some in Hq as [_ ?]).
    assert (∀ l, row_stored (dk w1) l → l_pack l ≠ p → row_stored (dk w2) l) as Hst.
    { intros l (blk & b & (pf & Hp & H1) & Hb) Hne. exists blk, b. split; [|done]. exists pf. split; [by rewrite Hdk|done]. }
    assert (∀ l, row_stored (synced_disk (dk w1)) l → l_pack l ≠ p → row_stored (synced_disk (dk w2)) l) as Hst2.
    { intros l (blk & b & (pf & Hp & H1) & Hb) Hne. exists blk, b. split; [|done]. exists pf. split; [|done]. unfold synced_disk in *. by rewrite lookup_fmap, Hdk, <- lookup_fmap. }
    assert (∀ t V id l, IdxInv bs t V [] [] [] → ¬ accepts t p → rows t !! id = Some l → l_pack l ≠ p) as Hrow.
    { intros t V id l HV Hn Hl Ep. destruct (iv_row _ _ _ _ _ _ HV id l Hl) as (_ & _ & _ & Hx). by rewrite Ep in Hx. }
    assert (SInv w2) as Hi2.
    { destruct Hi as [I1 I2 I3 I4 I5 I6 I7 I8 I9 I10 I11 I12 I13]. destruct I1 as [V HV]. destruct I3 as [V3 HV3]. split; try done.
      - by exists V.
      - intros id l Hl. apply Hst; [by apply (I2 id)|by apply (Hrow (tb w1) V id)].
      - by exists V3.
      - intros id l Hl. apply Hst2; [by apply (I4 id)|by apply (Hrow (du w1) V3 id)].
      - intros q pf Hq. apply (I5 q pf). by apply Hsub.
      - intros a Ha. destruct (I8 a Ha) as (H1 & H2 & H3). split; [done|]. split; [done|]. destruct (decide (a_id a = p)) as [->|Hne]; [by right|].
        destruct H3 as [(pf & Hp & ?)|?]; [left|by right]. exists pf. split; [by rewrite Hdk|done]. }
    assert (Ev w1 w2) as HE.
    { split; try done.
      - intros q pf Hq. destruct (decide (q = p)) as [->|Hne]; [by right|left]. exists pf. split; [by rewrite Hdk|done].
      - intros id l Hl. right. by exists l. }
    assert (same_writer w1 w2) as HS.
    { split; try done.
      - intros q _ Hacc. apply Hdk. intros ->. done.
      - by intros q.
      - intros q Hq. destruct (dk w2 !! q) as [pf|] eqn:Eq; [|done]. pose proof (Hsub q pf Eq). congruence. }
    assert (∀ g0, is_Some (s_reads (x_s w1) !! g0) → protects g0 w1 w2) as HP.
    { intros g0 Hg0 q Hq. split; [done|]. intros pf Hpf. exists pf. split; [|done]. rewrite Hdk; [done|]. intros ->.
      destruct Hq as [?|(r0 & Hr0 & Hge)]; [done|]. assert (r0 = r) as -> by congruence. specialize (Hcl1 g0 Hg0). lia. }
    split_and!; [done|split; try done; intros _; apply HS|]. intros w3 Hi3 Hr3. assert (rely γ w1 w2) as Hr12.
    { split; try done; [intros _; apply HS|intros g0 Hg0; apply HP; by apply Hrest]. }
    apply HQ; [done|]. eapply rely_trans; [done|]; by eapply rely_trans.
Qed.

Lemma wp_remove_pack γ p r (Q : Held → result BErr unit → World → Prop) w :
  x_gens w !! p = Some r → (∀ x w3, Inv γ w3 → rely γ w w3 → Q γ x w3) → wp γ (do (ACommit (remove_pack p))) Q w.
Proof using Hbs.
  intros Hgen HQ. apply wp_do; [done|]. intros w1 (Hi & Hrest) Hr x s2 E. cbn [exec] in E. cbn [held].
  apply (e_gens _ _ (r_ev _ _ _ _ Hr)) in Hgen. destruct (si_gens _ _ _ Hi p r Hgen) as [(Hpn & Hna & Hnd) _].
  destruct (si_idx _ _ _ Hi) as [V HV].
  assert (∀ id l, rows (tb w1) !! id = Some l → l_pack l ≠ p) as Hun.
  { intros id l Hl Ep. destruct (iv_row _ _ _ _ _ _ HV id l Hl) as (_ & _ & _ & Hx). by rewrite Ep in Hx. }
  pose proof (remove_pack_spec bs (tb w1) V p HV Hun) as Hsp. unfold spec in Hsp. unfold index_update in E. change (s_tables (x_s w1)) with (tb w1) in E.
  destruct (remove_pack p (tb w1)) as [[[] t']|e]; [|by destruct Hsp]. destruct Hsp as (HV' & Er & Einf & Em). simplify_eq.
  exists (x_gens w1), (x_next w1). set (w2 := mkWorld _ _ _).
  assert (∀ q, pack_state t' q = if decide (q = p) then None else pack_state (tb w1) q) as Hst.
  { intros q. unfold pack_state. rewrite Einf. case_decide as Eq; [subst; by rewrite lookup_delete_eq|]. by rewrite lookup_delete_ne. }
  assert (∀ q, accepts t' q ↔ accepts (tb w1) q) as Hacc.
  { intros q. destruct (decide (q = p)) as [->|Hq].
    - split; [|done]. rewrite pack_state_accepts, Hst, decide_True by done. by intros (? & ? & _).
    - by rewrite !pack_state_accepts, Hst, decide_False. }
  assert (∀ q, pack_state (tb w1) q = Some Active → pack_state t' q = Some Active) as Hact.
  { intros q Hq. rewrite Hst. case_decide as Eq; [|done]. subst. destruct Hna. apply pack_state_accepts. by exists Active. }
  assert (∀ q, gone q w2 ↔ gone q w1) as Hgone.
  { intros q. unfold gone. change (tb w2) with t'. change (du w2) with (du w1). change (x_next w2) with (x_next w1). by rewrite Hacc. }
  assert (SInv w2) as Hi2.
  { destruct Hi as [I1 I2 I3 I4 I5 I6 I7 I8 I9 I10 I11 I12 I13]. split; try done.
    - by exists V.
    - intros id l. change (tb w2) with t'. rewrite Er. apply I2.
    - intros q. change (tb w2) with t'. change (du w2) with (du w1). rewrite infos_state, Hst. intros Hq. apply I6. rewrite infos_state.
      destruct Hq as [Hq|Hq]; [left|by right]. by case_decide; [destruct Hq|].
    - intros a Ha. destruct (I8 a Ha) as (? & ? & [?|?]); (split; [done|]; split; [done|]); [by left|right]. change (tb w2) with t'. by rewrite Hacc.
    - intros Hlk q Hq. by apply Hact, I9.
    - intros q r0 Hq. rewrite Hgone. by apply I11.
    - split; [|apply I13]. destruct I13 as [I13 _]. unfold meta_ok, meta in *. change (tb w2) with t'. by rewrite Em. }
  assert (calm cfg w1 w2) as Hc.
  { split.
    - split; try done.
      + intros q _ Hq. change (tb w2) with t'. by rewrite Hacc.
      + intros q. by rewrite Hgone.
      + intros q _ Hq. change (tb w2) with t'. rewrite Hst. by case_decide.
      + intros q pf Hq. left. by exists pf.
      + change (tb w2) with t'. unfold next_id, meta. by rewrite Em.
      + intros id l. change (tb w2) with t'. rewrite Er. intros ?. right. by exists l.
    - split; try done. intros q. by rewrite <- Hacc.
    - intros g q Hq. split; [|intros pf ?; by exists pf]. destruct Hq as [Hq|Hq]; [left; by apply Hacc|by right].
    - intros f o _ Hf. split; [|done]. apply (holds_same bs Hbs (tb w1) t' V f o); [apply HV|apply HV'|done|done]. }
  split_and!; [done|by apply calm_guar|]. intros w3 Hi3 Hr3. apply HQ; [done|]. eapply rely_trans; [done|]. eapply rely_trans; [by apply calm_rely|done].
Qed.

Lemma wp_delete_loop γ pending keep (Q : Held → result BErr unit → World → Prop) w :
  (∀ e, e ∈ pending → deletable e w) → (∀ e, e ∈ keep → deletable e w) →
  (∀ r w3, Inv γ w3 → rely γ w w3 → Q γ r w3) → wp γ (delete_loop pending keep) Q w.
Proof using Hbs.
  revert keep w. induction pending as [|[p g] pending IH]; intros keep w Hp Hk HQ; cbn [delete_loop].
  { apply wp_seq, wp_push_retired; [done|]. intros w1 Hi1 Hr1. apply wp_ret. intros w2 Hi2 Hr2. apply HQ; [done|by eapply rely_trans]. }
  pose proof (Hp (p, g) (list_elem_of_here _ _)) as Hd. assert (∀ e, e ∈ pending → deletable e w) as Hp' by (intros; apply Hp; by right).
  assert (∀ e, e ∈ keep ++ [(p, g)] → deletable e w) as Hk' by (intros e; rewrite elem_of_app, list_elem_of_singleton; intros [?| ->]; auto).
  assert (∀ w1 k, rely γ w w1 → (∀ e, e ∈ k → deletable e w) → wp γ (delete_loop pending k) Q w1) as Hgo.
  { intros w1 k Hr1 Hk1. apply IH; [intros; eapply deletable_rely; eauto|intros; eapply deletable_rely; eauto|]. intros r w2 Hi2 Hr2. apply HQ; [done|by eapply rely_trans]. }
  apply wp_seq, wp_is_clear; [by destruct Hd as (? & _ & _ & ?)|]. intros [] w1 Hi1 Hr1 Hcl; cbn [negb]; [|by apply Hgo].
  apply wp_seq, (wp_remove_file γ p g); [by eapply deletable_rely|by apply Hcl|]. intros [] w2 Hi2 Hr2; cbn [negb]; [|apply Hgo; [by eapply rely_trans|done]].
  assert (rely γ w w2) as Hr by (by eapply rely_trans). destruct (deletable_rely γ _ _ _ Hr Hd) as (r & Hgen & _).
  apply wp_seq, (wp_remove_pack γ p r); [done|]. intros [[]|e] w3 Hi3 Hr3; [apply Hgo; [by eapply rely_trans|done]|].
  assert (rely γ w w3) as Hr03 by (by eapply rely_trans). apply wp_seq, wp_push_retired.
  - intros e'. rewrite !elem_of_app, list_elem_of_singleton. intros [?|[->|?]]; eapply deletable_rely; eauto.
  - intros w4 Hi4 Hr4. apply wp_ret. intros w5 Hi5 Hr5. apply HQ; [done|]. eapply rely_trans; [exact Hr03|by eapply rely_trans].
Qed.

Lemma wp_delete_retired γ (Q : Held → result BErr unit → World → Prop) w :
  (∀ r w3, Inv γ w3 → rely γ w w3 → Q γ r w3) → wp γ delete_retired Q w.
Proof using Hbs.
  intros HQ. unfold delete_retired. apply wp_seq, wp_take_retired. intros l w1 Hi1 Hr1 Hl.
  apply wp_delete_loop; [done|by intros e ?%elem_of_nil|]. intros r w2 Hi2 Hr2. apply HQ; [done|by eapply rely_trans].
Qed.

(** ** Compaction *)

Lemma wp_compact_pack γ p (Q : Held → result BErr Z → World → Prop) w :
  h_own γ = false → h_comp γ = true → idle p w →
  (∀ r w3, Inv γ w3 → rely (uncomp γ) w w3 → Q γ r w3) → wp γ (compact_pack cfg p) Q w.
Proof using All.
  intros Ho Hcp Hid HQ. unfold compact_pack. apply wp_seq, (wp_view _ _ _ _ (λ s, pf_data <$> s_disk s !! p)); [done|done|done|].
  intros w1 w2 Hi1 Hr1 Hi2 Hr2. change (s_disk (x_s w1)) with (dk w1). assert (rely γ w w2) as Hr by (by eapply rely_trans).
  assert (∀ (r : result BErr Z) w3, rely γ w w3 → wp γ (Ret r) Q w3) as Hret.
  { intros r w3 Hr3. apply wp_ret. intros w4 Hi4 Hr4. apply HQ; [done|]. apply rely_uncomp. by eapply rely_trans. }
  destruct (dk w1 !! p) as [pf|] eqn:Hp; cbn [fmap option_fmap option_map]; [|by apply Hret].
  apply wp_seq, wp_scan_pack; [done..| |constructor|]; [eapply file_was_rely; [exact Hr2|]; left; by exists pf|].
  intros [moved|e] w3 Hi3 Hr3; [|apply Hret; by eapply rely_trans]. assert (rely γ w w3) as Hr03 by (by eapply rely_trans).
  apply wp_seq, (wp_view _ _ _ _ s_tables); [done|done|done|]. intros w4 w5 Hi4 Hr4 Hi5 Hr5.
  assert (rely γ w w5) as Hr05 by (eapply rely_trans; [exact Hr03|by eapply rely_trans]).
  assert (∀ moved w6, rely γ w w6 → wp γ (let? retired := durable_commit (retire_txn p) in
      if negb retired then Ret (Ok moved) else let* g := do AAdvance in let* _ := do (APushRetired [(p, g)]) in Ret (Ok moved)) Q w6) as Hfin.
  { intros m w6 Hr06. apply wp_seq, wp_retire_commit; [done|done|by eapply idle_rely| |].
    - intros b w7 Hi7 Hr7 Hb. assert (rely (uncomp γ) w w7) as Hr07 by (eapply rely_trans; [by apply rely_uncomp|done]). destruct b; cbn [negb].
      + destruct (Hb eq_refl) as [r Hrt]. apply wp_seq, (wp_advance γ p r); [done|]. intros g w8 Hi8 Hr8 Hd. apply wp_seq, wp_push_retired.
        { intros e. rewrite list_elem_of_singleton. by intros ->. }
        intros w9 Hi9 Hr9. apply wp_ret. intros w10 Hi10 Hr10. apply HQ; [done|]. eapply rely_trans; [exact Hr07|]. apply rely_uncomp.
        eapply rely_trans; [exact Hr8|by eapply rely_trans].
      + apply wp_ret. intros w8 Hi8 Hr8. apply HQ; [done|]. eapply rely_trans; [exact Hr07|by apply rely_uncomp].
    - intros e w7 Hi7 Hr7. apply wp_ret. intros w8 Hi8 Hr8. apply HQ; [done|]. eapply rely_trans; [by apply rely_uncomp|]. eapply rely_trans; [exact Hr7|by apply rely_uncomp]. }
  apply wp_seq. destruct (match pack p _ with Some i => _ | None => false end).
  - apply wp_seq, wp_evacuate_by_index; [done|done|]. intros [m|e] w6 Hi6 Hr6; apply wp_ret; intros w7 Hi7 Hr7.
    + apply Hfin. eapply rely_trans; [exact Hr05|by eapply rely_trans].
    + apply Hret. eapply rely_trans; [exact Hr05|by eapply rely_trans].
  - apply wp_ret. intros w6 Hi6 Hr6. apply Hfin. by eapply rely_trans.
Qed.

Lemma wp_compact_each γ ps (Q : Held → result BErr unit → World → Prop) w :
  h_own γ = false → h_comp γ = true → Forall (λ p, idle p w) ps →
  (∀ r w3, Inv γ w3 → rely (uncomp γ) w w3 → Q γ r w3) → wp γ (compact_each cfg ps) Q w.
Proof using All.
  intros Ho Hcp. revert w. induction ps as [|p ps IH]; intros w Hps HQ; cbn [compact_each].
  { apply wp_ret. intros w1 Hi1 Hr1. apply HQ; [done|by apply rely_uncomp]. }
  apply Forall_cons in Hps as [Hp Hps]. apply wp_seq, wp_compact_pack; [done|done|done|]. intros [m|e] w1 Hi1 Hr1.
  - apply IH; [eapply Forall_impl; [exact Hps|]; intros q; by eapply idle_rely|]. intros r w2 Hi2 Hr2. apply HQ; [done|by eapply rely_trans].
  - apply wp_ret. intros w2 Hi2 Hr2. apply HQ; [done|]. eapply rely_trans; [exact Hr1|by apply rely_uncomp].
Qed.

Definition comping (γ : Held) : Held := mkHeld (h_own γ) true (h_guard γ) (h_files γ).
Lemma uncomp_comping γ : h_comp γ = false → uncomp (comping γ) = γ.
Proof. destruct γ. cbn. by intros ->. Qed.

Lemma wp_comp_lock γ (Q : Held → unit → World → Prop) w :
  h_comp γ = false → h_own γ = false → (∀ w3, Inv (comping γ) w3 → rely γ w w3 → Q (comping γ) tt w3) → wp γ (do ACompactLock) Q w.
Proof.
  intros Hcp Ho HQ. apply wp_do; [done|]. intros w1 Hi Hr x s2 E. cbn [exec] in E. destruct (s_compacting (x_s w1)); simplify_eq.
  exists (x_gens w1), (x_next w1). set (w2 := mkWorld _ _ _). assert (like w1 w2) as Hl by done. assert (calm cfg w1 w2) as Hc by (by apply like_calm).
  split_and!; [apply (like_inv cfg U w1); try done; apply Hi|by apply calm_guar|]. intros w3 Hi3 Hr3. apply HQ; [done|].
  eapply rely_trans; [done|]. eapply rely_trans; [by apply calm_rely|]. apply rely_uncomp in Hr3. by rewrite (uncomp_comping γ Hcp : uncomp (held ACompactLock tt γ) = γ) in Hr3.
Qed.
Lemma wp_comp_unlock γ (Q : Held → unit → World → Prop) w :
  h_comp γ = false → (∀ w3, Inv γ w3 → rely γ w w3 → Q γ tt w3) → wp (comping γ) (do ACompactUnlock) Q w.
Proof.
  intros Hcp HQ. apply wp_do; [done|]. intros w1 Hi Hr x s2 E. cbn [exec] in E. simplify_eq.
  exists (x_gens w1), (x_next w1). set (w2 := mkWorld _ _ _). assert (like w1 w2) as Hl by done. assert (calm cfg w1 w2) as Hc by (by apply like_calm).
  assert (held ACompactUnlock tt (comping γ) = γ) as Eγ by apply (uncomp_comping γ Hcp).
  split_and!; [apply (like_inv cfg U w1); try done; apply Hi|by apply calm_guar|]. rewrite Eγ. intros w3 Hi3 Hr3. apply HQ; [done|].
  apply rely_uncomp in Hr. rewrite uncomp_comping in Hr by done. eapply rely_trans; [done|]. eapply rely_trans; [by apply calm_rely|done].
Qed.

(** The packs that a snapshot shows sealed. *)
Lemma sealed_idle w : SInv w → Forall (λ p, idle p w) (sealed_packs (tb w)).
Proof.
  intros Hi. apply Forall_forall. intros p. unfold sealed_packs. rewrite list_elem_of_fmap. intros ([q i] & -> & Hin).
  apply list_elem_of_filter in Hin as [Hs Hin]. unfold packs in Hin. apply list_elem_of_fmap in Hin as ([k v] & E & Hin). cbn in E. simplify_eq.
  rewrite merge_sort_Permutation in Hin. apply elem_of_map_to_list in Hin. cbn [fst snd] in *.
  assert (infos (tb w) !! k = Some (info_decode v)) as Hk by (unfold infos; by rewrite lookup_fmap, Hin).
  split; [apply (si_infos _ _ _ Hi); left; by rewrite Hk|]. unfold pack_state. rewrite Hk. cbn [fmap option_fmap option_map]. congruence.
Qed.

(** Compaction changes nothing that anyone can see. *)
Lemma wp_compact γ chosen (Q : Held → result BErr unit → World → Prop) w :
  h_own γ = false → h_comp γ = false → (∀ l, chosen l ⊆ l) →
  (∀ r w3, Inv γ w3 → rely γ w w3 → Q γ r w3) → wp γ (compact cfg chosen) Q w.
Proof using All.
  intros Ho Hcp Hch HQ. unfold compact. apply wp_seq, wp_comp_lock; [done|done|]. intros w1 Hi1 Hr1.
  assert (∀ r w3, rely γ w w3 → wp (comping γ) (let* _ := do ACompactUnlock in Ret r) Q w3) as Hend.
  { intros r w3 Hr3. apply wp_seq, wp_comp_unlock; [done|]. intros w4 Hi4 Hr4. apply wp_ret. intros w5 Hi5 Hr5. apply HQ; [done|].
    eapply rely_trans; [exact Hr3|by eapply rely_trans]. }
  assert (∀ w3 w4, rely (comping γ) w3 w4 → rely γ w3 w4) as Hun.
  { intros w3 w4 Hx%rely_uncomp. by rewrite uncomp_comping in Hx. }
  apply wp_seq, wp_seq, wp_delete_retired. intros [[]|e] w2 Hi2 Hr2.
  2:{ apply wp_ret. intros w3 Hi3 Hr3. apply Hend. eapply rely_trans; [exact Hr1|]. eapply rely_trans; by apply Hun. }
  apply wp_seq, (wp_view _ _ _ _ s_tables); [done|done|done|]. intros w3 w4 Hi3 Hr3 Hi4 Hr4. change (s_tables (x_s w3)) with (tb w3).
  apply wp_seq, wp_compact_each; [done|done| |].
  - apply Forall_forall. intros p Hp%Hch. eapply idle_rely; [exact Hr4|]. eapply Forall_forall in Hp; [|apply sealed_idle, Hi3]. done.
  - rewrite uncomp_comping by done. intros [[]|e] w5 Hi5 Hr5.
    + apply wp_delete_retired. intros r w6 Hi6 Hr6. apply Hend. eapply rely_trans; [exact Hr1|]. eapply rely_trans; [by apply Hun|].
      eapply rely_trans; [by apply Hun|]. eapply rely_trans; [by apply Hun|]. eapply rely_trans; [exact Hr5|by apply Hun].
    + apply wp_ret. intros w6 Hi6 Hr6. apply Hend. eapply rely_trans; [exact Hr1|]. eapply rely_trans; [by apply Hun|].
      eapply rely_trans; [by apply Hun|]. eapply rely_trans; [by apply Hun|]. eapply rely_trans; [exact Hr5|by apply Hun].
Qed.
End compact.
