(* ===== verification/BlockClient.v ===== *)
(** BlockClient: threads on the block store, what survives a crash, and the
    store as its threads see it.

    [sstep] runs any thread one action further. Threads that satisfy their
    [wp] keep the invariant in every interleaving ([sys_steps]), do not
    deadlock ([sys_progress]) and leave no lock and no read behind when all
    have ended ([sys_quiet]). A crash leaves the last durable commit and at
    least what was synced of the files, and opening what is left gives the
    files of that commit ([reopen]). *)

From S2P Require Import Prelude Seg BlockIndex BlockProps BlockInv BlockStore BlockSafe BlockOps BlockCompact.


Section system.
Context `{BC : BlockCodec} (cfg : StoreConfig) (U : bytes → Prop).
Local Abbreviation bs := (c_block_size cfg).
Context (Hbs : 0 < bs).
Local Abbreviation SInv := (SInv cfg U).
Local Abbreviation Inv := (Inv cfg U).
Local Abbreviation rely := (rely cfg).
Local Abbreviation guar := (guar cfg).
Local Abbreviation wp := (wp cfg U).
Context {A : Type}.

(** ** Interleaving *)

(** The threads, the first [n] of them. *)
Definition pool := nat → prog A.
Definition upd (ts : pool) (i : nat) (t : prog A) : pool := λ j, if decide (j = i) then t else ts j.
Context (n : nat).

Inductive sstep : pool * Store → pool * Store → Prop :=
  | sstep_act ts s i X (x : act X) k r s' :
      (i < n)%nat → ts i = Step x k → exec cfg x s = Some (r, s') → sstep (ts, s) (upd ts i (k r), s').

Definition holders (P : Held → bool) (γs : list Held) : Prop := ∀ i j γ γ', γs !! i = Some γ → γs !! j = Some γ' → P γ = true → P γ' = true → i = j.
Definition readers (g : Z) (γs : list Held) : Z := len (filter (λ γ, h_guard γ = Some g) γs).

(** The locks and the tracker are as the threads hold them. *)
Record locks_ok (s : Store) (γs : list Held) : Prop := mkLocks {
  lk_own : s_locked s = true ↔ ∃ i γ, γs !! i = Some γ ∧ h_own γ = true;
  lk_own1 : holders h_own γs;
  lk_comp : s_compacting s = true ↔ ∃ i γ, γs !! i = Some γ ∧ h_comp γ = true;
  lk_comp1 : holders h_comp γs;
  lk_reads g : default 0 (s_reads s !! g) = readers g γs;
  lk_files i j γ γ' : γs !! i = Some γ → γs !! j = Some γ' → i ≠ j → h_files γ ## h_files γ' }.

Lemma readers_pos g γs i γ : γs !! i = Some γ → h_guard γ = Some g → 0 < readers g γs.
Proof.
  intros Hi Hg. unfold readers, len. assert (γ ∈ filter (λ γ, h_guard γ = Some g) γs) as Hin.
  { apply list_elem_of_filter. split; [done|by eapply list_elem_of_lookup_2]. }
  destruct (filter _ γs); [by apply elem_of_nil in Hin|]. cbn. lia.
Qed.
Lemma readers_update g γs i γ γ' :
  γs !! i = Some γ →
  readers g (<[i := γ']> γs) + (if decide (h_guard γ = Some g) then 1 else 0) = readers g γs + (if decide (h_guard γ' = Some g) then 1 else 0).
Proof.
  intros Hi. unfold readers, len. rewrite <- (take_drop_middle _ _ _ Hi) at 2. rewrite insert_take_drop by (by eapply lookup_lt_Some).
  rewrite !filter_app, !filter_cons, !length_app. repeat case_decide; cbn [length]; lia.
Qed.

Lemma locks_inv s γs i γ gens nx :
  locks_ok s γs → γs !! i = Some γ → SInv (mkWorld s gens nx) → Inv γ (mkWorld s gens nx).
Proof.
  intros [O O1 C C1 R F] Hi Hs. split; [done|]. split; [intros Ho; apply O; by exists i, γ|]. split; [intros Hc; apply C; by exists i, γ|].
  intros g Hg. specialize (R g). pose proof (readers_pos g γs i γ Hi Hg). cbn. destruct (s_reads s !! g); [done|]. cbn in R. lia.
Qed.

Lemma holders_update P γs i γ γ' :
  γs !! i = Some γ → holders P γs → (P γ' = true → P γ = true ∨ ∀ j x, γs !! j = Some x → P x = false) → holders P (<[i := γ']> γs).
Proof.
  intros Hi HP Hn. assert (i < length γs)%nat as Hl by (by eapply lookup_lt_Some).
  assert (∀ j x, γs !! j = Some x → P x = true → P γ' = true → j = i) as Hone.
  { intros j x Hj Hx Hg. destruct (Hn Hg) as [H1|H1]; [by apply (HP j i x γ)|]. by rewrite (H1 j x Hj) in Hx. }
  intros j k x y Hj Hk Hx Hy. apply list_lookup_insert_Some in Hj, Hk.
  destruct Hj as [(<- & <- & _)|[? Hj]], Hk as [(<- & <- & _)|[? Hk]]; [done|symmetry; by eapply Hone|by eapply Hone|by apply (HP j k x y)].
Qed.

(** One bit of the state, and who holds it. *)
Lemma bit_update (P : Held → bool) (b b' : bool) γs i γ γ' :
  γs !! i = Some γ → holders P γs → (b = true ↔ ∃ j x, γs !! j = Some x ∧ P x = true) →
  (P γ' = P γ ∧ b' = b) ∨ (P γ = false ∧ P γ' = true ∧ b = false ∧ b' = true) ∨ (P γ = true ∧ P γ' = false ∧ b' = false) →
  (b' = true ↔ ∃ j x, <[i := γ']> γs !! j = Some x ∧ P x = true) ∧ holders P (<[i := γ']> γs).
Proof.
  intros Hi HP Hb Hc. assert (i < length γs)%nat as Hl by (by eapply lookup_lt_Some). split.
  - destruct Hc as [[E ->]|[(E1 & E2 & -> & ->)|(E1 & E2 & ->)]].
    + rewrite Hb. split; intros (j & x & Hj & Hx).
      * destruct (decide (j = i)) as [->|Hne]; [exists i, γ'; rewrite list_lookup_insert_eq by done; split; [done|]; congruence|].
        exists j, x. by rewrite list_lookup_insert_ne.
      * apply list_lookup_insert_Some in Hj as [(<- & <- & _)|[? Hj]]; [exists i, γ; split; [done|]; congruence|by exists j, x].
    + split; [|done]. intros _. exists i, γ'. by rewrite list_lookup_insert_eq.
    + split; [done|]. intros (j & x & Hj & Hx). apply list_lookup_insert_Some in Hj as [(<- & <- & _)|[Hne Hj]]; [congruence|].
      destruct Hne. symmetry. by apply (HP j i x γ).
  - eapply holders_update; [done|done|]. intros Hg. destruct Hc as [[E _]|[(E1 & E2 & -> & _)|(E1 & E2 & _)]]; [left; congruence|right|congruence].
    intros j x Hj. destruct (P x) eqn:Ex; [|done]. assert (false = true) as Hf by (apply Hb; by exists j, x). done.
Qed.

(** What an action does to the locks and to the tracker. *)
Lemma exec_locks {X} (x : act X) s r s' γ :
  exec cfg x s = Some (r, s') → needs x γ → h_files (held x r γ) = h_files γ ∧
  ((h_own (held x r γ) = h_own γ ∧ s_locked s' = s_locked s) ∨ (h_own γ = false ∧ h_own (held x r γ) = true ∧ s_locked s = false ∧ s_locked s' = true) ∨
   (h_own γ = true ∧ h_own (held x r γ) = false ∧ s_locked s' = false)) ∧
  ((h_comp (held x r γ) = h_comp γ ∧ s_compacting s' = s_compacting s) ∨ (h_comp γ = false ∧ h_comp (held x r γ) = true ∧ s_compacting s = false ∧ s_compacting s' = true) ∨
   (h_comp γ = true ∧ h_comp (held x r γ) = false ∧ s_compacting s' = false)) ∧
  ((h_guard (held x r γ) = h_guard γ ∧ s_reads s' = s_reads s) ∨
   (∃ g, h_guard γ = None ∧ h_guard (held x r γ) = Some g ∧ s_reads s' = <[g := default 0 (s_reads s !! g) + 1]> (s_reads s)) ∨
   (∃ g, h_guard γ = Some g ∧ h_guard (held x r γ) = None ∧ (∀ n, s_reads s !! g = Some n →
      s_reads s' = if n - 1 =? 0 then delete g (s_reads s) else <[g := n - 1]> (s_reads s)))).
Proof.
  destruct x; cbn [exec needs held]; intros E Hn; (split; [done|]);
    try (unfold index_update, start_pack, pw_append, flush_buffer, pw_sync, abandon, advance in E; repeat case_match; simplify_eq;
         split_and!; by left).
  - destruct (s_locked s) eqn:El; simplify_eq. split_and!; [right; left; by split_and!|by left|by left].
  - simplify_eq. split_and!; [right; right; by split_and!|by left|by left].
  - destruct (s_compacting s) eqn:El; simplify_eq. split_and!; [by left|right; left; by destruct Hn|by left].
  - simplify_eq. split_and!; [by left|right; right; by split_and!|by left].
  - unfold enter in E. simplify_eq. split_and!; [by left|by left|right; left]. eexists. by split_and!.
  - simplify_eq. unfold leave. split_and!; [by case_match; left|by case_match; left|right; right].
    exists g. split_and!; [done|done|]. intros m En. by rewrite En.
Qed.

Lemma locks_step {X} (x : act X) s r s' γs i γ :
  exec cfg x s = Some (r, s') → needs x γ → γs !! i = Some γ → locks_ok s γs → (∀ g n, s_reads s !! g = Some n → 0 < n) →
  locks_ok s' (<[i := held x r γ]> γs).
Proof.
  intros E Hn Hi [O O1 C C1 R F] Hpos. destruct (exec_locks x s r s' γ E Hn) as (Ef & Eo & Ec & Eg). set (γ' := held x r γ) in *.
  destruct (bit_update h_own (s_locked s) (s_locked s') γs i γ γ' Hi O1 O) as [O' O1']; [destruct Eo as [[? ?]|[(? & ? & ? & ?)|(? & ? & ?)]]; [left|right; left|right; right]; by split_and!|].
  destruct (bit_update h_comp (s_compacting s) (s_compacting s') γs i γ γ' Hi C1 C) as [C' C1']; [destruct Ec as [[? ?]|[(? & ? & ? & ?)|(? & ? & ?)]]; [left|right; left|right; right]; by split_and!|].
  split; try done.
  - intros g. pose proof (readers_update g γs i γ γ' Hi) as Hu. specialize (R g) as Rg.
    destruct Eg as [[Eg ->]|[(g0 & E1 & E2 & ->)|(g0 & E1 & E2 & E3)]].
    + rewrite Eg in Hu. lia.
    + rewrite E1, E2 in Hu. rewrite (decide_False (P := None = Some g)) in Hu by done. destruct (decide (g0 = g)) as [->|Hne].
      * rewrite lookup_insert_eq, decide_True in * by done. cbn. lia.
      * rewrite lookup_insert_ne by done. rewrite decide_False in Hu by congruence. lia.
    + rewrite E1, E2 in Hu. rewrite (decide_False (P := None = Some g)) in Hu by done. pose proof (readers_pos g0 γs i γ Hi E1) as Hp.
      destruct (s_reads s !! g0) as [m|] eqn:Em; [|rewrite <- R, Em in Hp; cbn in Hp; lia]. specialize (Hpos g0 m Em).
      rewrite (E3 m eq_refl). destruct (decide (g0 = g)) as [->|Hne].
      * rewrite decide_True in Hu by done. rewrite Em in Rg. cbn in Rg. destruct (Z.eqb_spec (m - 1) 0).
        -- rewrite lookup_delete_eq. cbn. lia.
        -- rewrite lookup_insert_eq. cbn. lia.
      * rewrite decide_False in Hu by congruence. destruct (m - 1 =? 0); [rewrite lookup_delete_ne by done|rewrite lookup_insert_ne by done]; lia.
  - intros j k x1 x2 Hj Hk Hne. assert (∀ j x1, <[i := γ']> γs !! j = Some x1 → ∃ x0, γs !! j = Some x0 ∧ h_files x0 = h_files x1) as Hold.
    { intros j0 x0 Hj0. apply list_lookup_insert_Some in Hj0 as [(<- & <- & _)|[? ?]]; [by exists γ|by exists x0]. }
    destruct (Hold j x1 Hj) as (y1 & Hy1 & <-). destruct (Hold k x2 Hk) as (y2 & Hy2 & <-). by apply (F j k).
Qed.

(** ** Soundness *)

Definition Post := Held → A → World → Prop.

(** The threads of a system and what they hold. *)
Record sys_ok (Qs : nat → Post) (ts : pool) (w : World) : Prop := mkSys {
  sy_inv : SInv w;
  sy_threads : ∃ γs, locks_ok (x_s w) γs ∧ length γs = n ∧ ∀ i γ, γs !! i = Some γ → wp γ (ts i) (Qs i) w }.

Lemma guar_rely γ γ' w w' :
  guar γ w w' → (h_own γ' = true → h_own γ = false) → (h_comp γ' = true → h_comp γ = false) →
  (∀ g, h_guard γ' = Some g → is_Some (s_reads (x_s w) !! g)) → h_files γ ## h_files γ' → rely γ' w w'.
Proof.
  intros [E O C G F] Ho Hc Hg Hf. split; [done|auto|auto|auto|]. intros f o Hin. apply F. intros Hin2. by apply (Hf f).
Qed.

Lemma sys_step Qs ts s gens nx ts' s' :
  sys_ok Qs ts (mkWorld s gens nx) → sstep (ts, s) (ts', s') →
  ∃ gens' nx', sys_ok Qs ts' (mkWorld s' gens' nx') ∧ Ev (mkWorld s gens nx) (mkWorld s' gens' nx').
Proof.
  intros [HI (γs & HL & Hlen & Hw)] Hst. inversion Hst as [? ? i X x k r ? Hlt Hi Hx]; subst. set (w := mkWorld s gens nx) in *.
  destruct (lookup_lt_is_Some_2 γs i) as [γ Hγ]; [lia|].
  pose proof (Hw i γ Hγ) as Hwi. rewrite Hi in Hwi. cbn [BlockSafe.wp] in Hwi.
  destruct (Hwi w (locks_inv _ _ _ _ _ _ HL Hγ HI) (rely_refl _ _ _)) as [Hn Hex]. cbn [x_s w] in Hex. rewrite Hx in Hex.
  destruct Hex as (gens' & nx' & HI2 & Hg & Hk). exists gens', nx'. set (w2 := mkWorld s' gens' nx') in *. split; [|apply Hg]. split; [done|].
  exists (<[i := held x r γ]> γs). split_and!.
  - eapply locks_step; [exact Hx|done|done|done|]. intros g m Hgn. by apply (si_reads _ _ _ HI g m).
  - by rewrite length_insert.
  - intros j γj Hj. unfold upd. case_decide as Ej.
    + subst j. rewrite list_lookup_insert_eq in Hj by lia. by simplify_eq.
    + rewrite list_lookup_insert_ne in Hj by done. eapply wp_rely; [by eapply Hw|]. apply (guar_rely γ); [done| | | |].
      * intros Ho. destruct (h_own γ) eqn:E; [|done]. destruct Ej. by apply (lk_own1 _ _ HL j i γj γ).
      * intros Ho. destruct (h_comp γ) eqn:E; [|done]. destruct Ej. by apply (lk_comp1 _ _ HL j i γj γ).
      * intros g Hgd. by apply (locks_inv _ _ _ _ _ _ HL Hj HI).
      * by apply (lk_files _ _ HL i j).
Qed.

Lemma sys_steps Qs ts s gens nx ts' s' :
  sys_ok Qs ts (mkWorld s gens nx) → rtc sstep (ts, s) (ts', s') →
  ∃ gens' nx', sys_ok Qs ts' (mkWorld s' gens' nx') ∧ Ev (mkWorld s gens nx) (mkWorld s' gens' nx').
Proof.
  intros HS Hr. remember (ts, s) as c eqn:Ec. remember (ts', s') as c' eqn:Ec'. revert ts s gens nx HS Ec.
  induction Hr as [c|c c1 c' Hst Hr IH]; intros ts s gens nx HS ->.
  - simplify_eq. exists gens, nx. split; [done|apply Ev_refl].
  - destruct c1 as [ts1 s1]. destruct (sys_step _ _ _ _ _ _ _ HS Hst) as (g1 & n1 & HS1 & He1).
    destruct (IH Ec' ts1 s1 g1 n1 HS1 eq_refl) as (g2 & n2 & HS2 & He2). exists g2, n2. split; [done|by eapply Ev_trans].
Qed.

(** A thread that has ended has what it was to have. *)
Lemma sys_post Qs ts w i a : sys_ok Qs ts w → (i < n)%nat → ts i = Ret a → ∃ γ, Inv γ w ∧ Qs i γ a w.
Proof.
  intros [HI (γs & HL & Hlen & Hw)] Hlt Hi. destruct (lookup_lt_is_Some_2 γs i) as [γ Hγ]; [lia|].
  exists γ. destruct w as [s g m]. assert (Inv γ (mkWorld s g m)) as Hinv by (by eapply locks_inv). split; [done|].
  pose proof (Hw i γ Hγ) as Hwi. rewrite Hi in Hwi. apply Hwi; [done|apply rely_refl].
Qed.

(** ** Progress *)

Definition ended_thread (t : prog A) : Prop := match t with Ret _ => True | Step _ _ => False end.

(** Only a lock that another thread holds stops an action. *)
Lemma exec_blocked {X} (x : act X) s γ :
  exec cfg x s = None → needs x γ → (s_locked s = true ∧ h_own γ = false) ∨ (s_compacting s = true ∧ h_comp γ = false ∧ h_own γ = false).
Proof.
  destruct x; cbn [exec needs]; intros E Hn; try done; try by (repeat case_match).
  - destruct (s_locked s); [by left|done].
  - destruct (s_compacting s); [by right|done].
Qed.

Lemma sys_progress Qs ts w :
  sys_ok Qs ts w → (∀ i γ a w, Qs i γ a w → h_own γ = false ∧ h_comp γ = false) →
  (∀ i, (i < n)%nat → ended_thread (ts i)) ∨ ∃ c, sstep (ts, x_s w) c.
Proof.
  intros [HI (γs & HL & Hlen & Hw)] HQs. destruct w as [s g m]. cbn [x_s].
  assert (∀ i γ, γs !! i = Some γ → ended_thread (ts i) ∧ h_own γ = false ∧ h_comp γ = false ∨
    (∃ c, sstep (ts, s) c) ∨ (s_locked s = true ∧ h_own γ = false) ∨ (s_compacting s = true ∧ h_comp γ = false ∧ h_own γ = false)) as Hrun.
  { intros i γ Hγ. pose proof (locks_inv _ _ _ _ _ _ HL Hγ HI) as Hinv. pose proof (Hw i γ Hγ) as Hwt.
    assert (i < n)%nat as Hlt by (rewrite <- Hlen; by eapply lookup_lt_Some). destruct (ts i) as [a|X x k] eqn:Ht.
    - left. split; [done|]. apply (HQs i γ a (mkWorld s g m)). apply Hwt; [done|apply rely_refl].
    - right. destruct (exec cfg x s) as [[r s']|] eqn:E; [left|right].
      + eexists. by econstructor.
      + apply (exec_blocked x); [done|]. by apply (Hwt (mkWorld s g m) Hinv (rely_refl _ _ _)). }
  destruct (s_locked s) eqn:El.
  { right. apply (lk_own _ _ HL) in El as (i & γ & Hγ & Ho). destruct (Hrun i γ Hγ) as [(_ & ? & _)|[?|[[_ ?]|(_ & _ & ?)]]]; [congruence|done|congruence|congruence]. }
  destruct (s_compacting s) eqn:Ec.
  { right. apply (lk_comp _ _ HL) in Ec as (i & γ & Hγ & Ho). destruct (Hrun i γ Hγ) as [(_ & _ & ?)|[?|[[? _]|(_ & ? & _)]]]; [congruence|done|congruence|congruence]. }
  assert (∀ i, (i < n)%nat → ended_thread (ts i) ∨ ∃ c, sstep (ts, s) c) as Hall.
  { intros i Hi. destruct (lookup_lt_is_Some_2 γs i) as [γ Hγ]; [lia|]. destruct (Hrun i γ Hγ) as [[? _]|[?|[[? _]|(? & _)]]]; [by left|by right|congruence|congruence]. }
  clear -Hall. revert Hall. generalize (∃ c, sstep (ts, s) c) as P. intros P. induction n as [|k IH]; intros Hall; [left; lia|].
  destruct IH as [IH|?]; [intros; apply Hall; lia| |by right]. destruct (Hall k) as [Hk|?]; [lia| |by right]. left. intros i Hi.
  destruct (decide (i = k)) as [->|]; [done|]. apply IH. lia.
Qed.

(** ** Quiescence *)

Lemma readers_none g γs : (∀ i γ, γs !! i = Some γ → h_guard γ = None) → readers g γs = 0.
Proof.
  intros Hn. unfold readers. destruct (filter (λ γ, h_guard γ = Some g) γs) as [|γ l] eqn:E; [done|].
  assert (γ ∈ filter (λ γ, h_guard γ = Some g) γs) as [Hg [i Hi]%list_elem_of_lookup]%list_elem_of_filter by (rewrite E; left). by rewrite (Hn i γ Hi) in Hg.
Qed.

(** When every thread has ended and none ends with something in its hands,
    both locks are free and no read is counted. *)
Lemma sys_quiet Qs ts w :
  sys_ok Qs ts w → (∀ i γ a w, Qs i γ a w → h_own γ = false ∧ h_comp γ = false ∧ h_guard γ = None) →
  (∀ i, (i < n)%nat → ended_thread (ts i)) →
  s_locked (x_s w) = false ∧ s_compacting (x_s w) = false ∧ ∀ g, default 0 (s_reads (x_s w) !! g) = 0.
Proof.
  intros [HI (γs & HL & Hlen & Hw)] HQs Hend. destruct w as [s g m]. cbn [x_s] in *.
  assert (∀ i γ, γs !! i = Some γ → h_own γ = false ∧ h_comp γ = false ∧ h_guard γ = None) as Hfree.
  { intros i γ Hγ. pose proof (Hw i γ Hγ) as Hwt. assert (i < n)%nat as Hlt by (rewrite <- Hlen; by eapply lookup_lt_Some).
    specialize (Hend i Hlt). destruct (ts i) as [a|]; [|done]. apply (HQs i γ a (mkWorld s g m)). apply Hwt; [by eapply locks_inv|apply rely_refl]. }
  split_and!.
  - apply not_true_is_false. intros (i & γ & Hγ & Ho)%(lk_own _ _ HL). destruct (Hfree i γ Hγ). congruence.
  - apply not_true_is_false. intros (i & γ & Hγ & Ho)%(lk_comp _ _ HL). destruct (Hfree i γ Hγ) as (_ & ? & _). congruence.
  - intros g'. rewrite (lk_reads _ _ HL). apply readers_none. intros i γ Hγ. apply (Hfree i γ Hγ).
Qed.
End system.

Section recovery.
Context `{BC : BlockCodec} (cfg : StoreConfig) (U : bytes → Prop).
Local Abbreviation bs := (c_block_size cfg).
Context (Hbs : 0 < bs).
Local Abbreviation SInv := (SInv cfg U).
Local Abbreviation row_stored := (row_stored U).

(** ** Opening *)

Lemma packs_lookup t p i : (p, i) ∈ packs t ↔ infos t !! p = Some i.
Proof.
  unfold packs, infos. rewrite list_elem_of_fmap, lookup_fmap, fmap_Some. split.
  - intros ([k v] & E & Hin). simplify_eq. rewrite merge_sort_Permutation in Hin. apply elem_of_map_to_list in Hin. by exists v.
  - intros (v & Hv & ->). exists (p, v). split; [done|]. rewrite merge_sort_Permutation. by apply elem_of_map_to_list.
Qed.
Lemma packs_nodup t : NoDup (packs t).*1.
Proof.
  unfold packs. rewrite <- list_fmap_compose. erewrite list_fmap_ext; [|intros i [k v] _; exact (eq_refl : ((fst ∘ (λ '(k, v), (k, info_decode v))) (k, v)) = fst (k, v))].
  rewrite merge_sort_Permutation. apply NoDup_fst_map_to_list.
Qed.

(** What recovery does to the packs [ps]. *)
Record recovered (on_disk : gset Z) (ps : list (Z * PackInfo)) (d d' : gmap Z PackFile) (t t' : Tables) : Prop := mkRecoveredTo {
  rv_tables : t' = set_packs (t_packs t') t;
  rv_infos p : infos t' !! p = infos t !! p ∨
    (infos t' !! p = None ∧ ∃ i, (p, i) ∈ ps ∧ (p_state i = Retired ∨ p ∉ on_disk));
  rv_disk p : d' !! p = d !! p ∨ (d' !! p = None ∧ ∃ i, (p, i) ∈ ps ∧ p_state i = Retired) }.

Lemma recovered_refl on_disk d t : recovered on_disk [] d d t t.
Proof. split; [by destruct t|by left|by left]. Qed.
Lemma recovered_cons on_disk p i ps d d1 d2 t t1 t2 :
  t1 = set_packs (t_packs t1) t →
  (∀ q, infos t1 !! q = infos t !! q ∨ (infos t1 !! q = None ∧ q = p ∧ (p_state i = Retired ∨ p ∉ on_disk))) →
  (∀ q, d1 !! q = d !! q ∨ (d1 !! q = None ∧ q = p ∧ p_state i = Retired)) →
  recovered on_disk ps d1 d2 t1 t2 → recovered on_disk ((p, i) :: ps) d d2 t t2.
Proof.
  intros E1 H1 D1 [E2 H2 D2]. split.
  - rewrite E2. by rewrite E1.
  - intros q. destruct (H2 q) as [->|(-> & j & Hj & Hs)]; [|right; split; [done|]; exists j; split; [by right|done]].
    destruct (H1 q) as [->|(-> & -> & Hs)]; [by left|right]. split; [done|]. exists i. split; [by left|done].
  - intros q. destruct (D2 q) as [->|(-> & j & Hj & Hs)]; [|right; split; [done|]; exists j; split; [by right|done]].
    destruct (D1 q) as [->|(-> & -> & Hs)]; [by left|right]. split; [done|]. exists i. split; [by left|done].
Qed.

Lemma recover_packs_spec on_disk ps fl d t act :
  NoDup ps.*1 → (∀ p i, (p, i) ∈ ps → p_state i = Retired ∨ p ∈ on_disk ∨ live_bytes i = 0) →
  ∃ fl' d' t' act', recover_packs on_disk ps fl d t act = Ok (fl', d', t', act ++ act') ∧ recovered on_disk ps d d' t t' ∧
    NoDup act' ∧ ∀ p, p ∈ act' → ∃ i, (p, i) ∈ ps ∧ p_state i = Active ∧ p ∈ on_disk.
Proof.
  revert fl d t act. induction ps as [|[p i] ps IH]; intros fl d t act Hnd Hok; cbn [recover_packs].
  { exists fl, d, t, []. rewrite app_nil_r. split_and!; [done|apply recovered_refl|constructor|]. by intros p ?%elem_of_nil. }
  apply NoDup_cons in Hnd as [Hp Hnd]. cbn in Hp. pose proof (Hok p i (list_elem_of_here _ _)) as Hpi.
  assert (∀ q j, (q, j) ∈ ps → p_state j = Retired ∨ q ∈ on_disk ∨ live_bytes j = 0) as Hok' by (intros; apply Hok; by right).
  assert (∀ d1 t1 fl1, t1 = set_packs (t_packs t1) t → (∀ q, infos t1 !! q = infos t !! q ∨ (infos t1 !! q = None ∧ q = p ∧ (p_state i = Retired ∨ p ∉ on_disk))) →
    (∀ q, d1 !! q = d !! q ∨ (d1 !! q = None ∧ q = p ∧ p_state i = Retired)) →
    ∃ fl' d' t' act', recover_packs on_disk ps fl1 d1 t1 act = Ok (fl', d', t', act ++ act') ∧ recovered on_disk ((p, i) :: ps) d d' t t' ∧
      NoDup act' ∧ ∀ q, q ∈ act' → ∃ j, (q, j) ∈ (p, i) :: ps ∧ p_state j = Active ∧ q ∈ on_disk) as Hgo.
  { intros d1 t1 fl1 E1 H1 D1. destruct (IH fl1 d1 t1 act Hnd Hok') as (fl' & d' & t' & act' & E & Hr & Hn & Ha).
    exists fl', d', t', act'. split_and!; [done|by eapply recovered_cons|done|]. intros q Hq. destruct (Ha q Hq) as (j & ? & ?). exists j. split; [by right|done]. }
  set (without := set_packs (delete p (t_packs t)) t).
  assert (∀ q, infos without !! q = if decide (q = p) then None else infos t !! q) as Hw.
  { intros q. unfold infos, without. cbn [t_packs set_packs]. rewrite !lookup_fmap. case_decide as Eq; [subst; by rewrite lookup_delete_eq|by rewrite lookup_delete_ne]. }
  assert (p_state i ≠ Retired → ∃ fl' d' t' act', (if bool_decide (p ∈ on_disk) then
            recover_packs on_disk ps fl d t (if bool_decide (p_state i = Active) then act ++ [p] else act)
          else if live_bytes i =? 0 then recover_packs on_disk ps fl d without act
          else Err Corrupt) = Ok (fl', d', t', act ++ act') ∧ recovered on_disk ((p, i) :: ps) d d' t t' ∧
      NoDup act' ∧ ∀ q, q ∈ act' → ∃ j, (q, j) ∈ (p, i) :: ps ∧ p_state j = Active ∧ q ∈ on_disk) as Hlive.
  { intros Hne. case_bool_decide as Hod.
    - case_bool_decide as Ha; [|apply Hgo; [by destruct t|by left|by left]].
      destruct (IH fl d t (act ++ [p]) Hnd Hok') as (fl' & d' & t' & act' & E & Hr & Hn & Hact).
      exists fl', d', t', (p :: act'). rewrite E, <- app_assoc. split_and!; [done| | |].
      + apply (recovered_cons on_disk p i ps d d d' t t t'); [by destruct t|by left|by left|done].
      + apply NoDup_cons. split; [|done]. intros Hin. destruct (Hact p Hin) as (j & Hj & _). apply Hp. apply list_elem_of_fmap. by exists (p, j).
      + intros q [->|Hq]%elem_of_cons; [exists i; split; [by left|done]|]. destruct (Hact q Hq) as (j & ? & ?). exists j. split; [by right|done].
    - destruct (Z.eqb_spec (live_bytes i) 0) as [|Hl]; [|destruct Hpi as [?|[?|?]]; done]. apply Hgo; [done| |by left].
      intros q. rewrite Hw. destruct (decide (q = p)) as [->|]; [right; auto|by left]. }
  destruct (p_state i) eqn:Es; [by apply Hlive|by apply Hlive|]. destruct (pop_fault fl) as [ft fl1]. destruct (f_fails ft).
  - apply Hgo; [by destruct t|by left|by left].
  - apply Hgo; [done| |].
    + intros q. rewrite Hw. destruct (decide (q = p)) as [->|]; [right; auto|by left].
    + intros q. destruct (decide (q = p)) as [->|]; [right; by rewrite lookup_delete_eq|left; by rewrite lookup_delete_ne].
Qed.

Lemma remove_orphans_spec ids fl d :
  ∀ q, (remove_orphans ids fl d).2 !! q = d !! q ∨ ((remove_orphans ids fl d).2 !! q = None ∧ q ∈ ids).
Proof.
  revert fl d. induction ids as [|p ids IH]; intros fl d q; cbn [remove_orphans]; [by left|]. destruct (pop_fault fl) as [ft fl1].
  destruct (IH fl1 (if f_fails ft then d else delete p d) q) as [->|[-> ?]]; [|right; split; [done|by right]].
  destruct (f_fails ft); [by left|]. destruct (decide (q = p)) as [->|]; [right; rewrite lookup_delete_eq; split; [done|by left]|left; by rewrite lookup_delete_ne].
Qed.

Lemma seal_all_spec rest t :
  (∀ p, p ∈ rest → ∃ i, infos t !! p = Some i ∧ info_ok i) →
  ∃ t', titer seal rest t = Ok (tt, t') ∧ t' = set_packs (t_packs t') t ∧
    ∀ p, infos t' !! p = if decide (p ∈ rest) then (λ i, mkPackInfo (live_bytes i) Sealed) <$> infos t !! p else infos t !! p.
Proof.
  revert t. induction rest as [|p rest IH]; intros t Hr; cbn [titer].
  { exists t. split_and!; [done|by destruct t|done]. }
  destruct (Hr p (list_elem_of_here _ _)) as (i & Hi & Hok). set (i' := mkPackInfo (live_bytes i) Sealed).
  assert (seal p t = Ok (tt, set_packs (<[p := info_encode i']> (t_packs t)) t)) as Es.
  { unfold seal, mbind, TM_bind, tread. rewrite pack_infos, Hi. done. }
  rewrite (tbind_ok _ _ _ _ _ Es). set (t1 := set_packs _ t). assert (infos t1 = <[p := i']> (infos t)) as Ei by (by apply infos_put).
  destruct (IH t1) as (t' & Et & Ett & Hinf).
  { intros q Hq. rewrite Ei. destruct (decide (q = p)) as [->|]; [rewrite lookup_insert_eq; by exists i'|]. rewrite lookup_insert_ne by done. apply Hr. by right. }
  exists t'. split_and!; [done|by rewrite Ett|]. intros q. rewrite Hinf, Ei. destruct (decide (q = p)) as [->|Hne].
  - rewrite lookup_insert_eq, (decide_True (P := p ∈ p :: rest)), Hi by (by left). by case_decide.
  - rewrite lookup_insert_ne by done. destruct (decide (q ∈ rest)) as [Hq|Hq]; [by rewrite decide_True by (by right)|].
    rewrite decide_False; [done|]. by intros [?|?]%elem_of_cons.
Qed.

(** A directory a store may be opened on. *)
Record openable (d : gmap Z PackFile) (t : Tables) (B : Z) : Prop := mkOpenable {
  op_idx : ∃ V, IdxInv bs t V [] [] [];
  op_rows id l : rows t !! id = Some l → row_stored d l;
  op_files p pf : d !! p = Some pf → 0 ≤ p < B ∧ pf_synced pf = len (pf_data pf);
  op_infos p : is_Some (infos t !! p) → 0 ≤ p < B;
  op_bound : B < u32_max;
  op_meta : meta_ok cfg t ∨ meta META_BLOCK_SIZE t = None }.

Definition meta_prep (t : Tables) : Tables :=
  match meta META_BLOCK_SIZE t with
  | None => set_meta (<[META_SCHEMA_VERSION := SCHEMA_VERSION]> (<[META_BLOCK_SIZE := bs]> (t_meta t))) t
  | Some _ => t
  end.
Definition unclean (t : Tables) : Tables := set_meta (<[META_CLEAN_SHUTDOWN := 0]> (t_meta t)) t.

Lemma meta_prep_ok t :
  meta_ok cfg t ∨ meta META_BLOCK_SIZE t = None →
  meta_ok cfg (meta_prep t) ∧ (∃ m, meta_prep t = set_meta m t) ∧ next_id (meta_prep t) = next_id t.
Proof.
  intros Hm. unfold meta_prep. destruct (meta META_BLOCK_SIZE t) eqn:E.
  - destruct Hm as [Hm|?]; [|done]. split_and!; [done|exists (t_meta t); by destruct t|done].
  - split_and!; [|by eexists|].
    + unfold meta_ok, meta. cbn [set_meta t_meta]. rewrite lookup_insert_eq, lookup_insert_ne by (by vm_compute). by rewrite lookup_insert_eq.
    + unfold next_id, meta. cbn [set_meta t_meta]. by rewrite !lookup_insert_ne by (by vm_compute).
Qed.
Lemma unclean_ok t : meta_ok cfg t → meta_ok cfg (unclean t) ∧ next_id (unclean t) = next_id t.
Proof.
  intros [? ?]. unfold meta_ok, next_id, meta, unclean in *. cbn [set_meta t_meta]. by rewrite !lookup_insert_ne by (by vm_compute).
Qed.

Lemma max_seen_bound (l : list Z) B : (∀ p, p ∈ l → 0 ≤ p < B) → 1 ≤ B →
  0 ≤ foldr Z.max 0 l < B ∧ ∀ p, p ∈ l → p ≤ foldr Z.max 0 l.
Proof.
  intros Hl HB. induction l as [|q l IH]; cbn [foldr]; [split; [lia|by intros p ?%elem_of_nil]|].
  destruct IH as [I1 I2]; [intros; apply Hl; by right|]. pose proof (Hl q (list_elem_of_here _ _)). split; [lia|].
  intros p [->|Hp]%elem_of_cons; [lia|]. specialize (I2 p Hp). lia.
Qed.

Lemma last_not_removelast (l : list Z) x : NoDup l → last l = Some x → (x ∉ removelast l) ∧ x ∈ l ∧ (∀ y, y ∈ removelast l → y ∈ l).
Proof.
  intros Hnd Hl. apply last_Some in Hl as [l' ->]. rewrite removelast_last. apply NoDup_app in Hnd as (_ & Hd & _). split_and!.
  - intros Hin. apply (Hd x Hin). by apply list_elem_of_singleton.
  - rewrite elem_of_app, list_elem_of_singleton. by right.
  - intros y Hy. rewrite elem_of_app. by left.
Qed.

(** The next pack is past every row and every file. *)
Lemma next_pack_ok d t B ps n0 :
  openable d t B → (∀ p i, (p, i) ∈ ps ↔ infos t !! p = Some i) → 0 ≤ n0 < u32_max →
  let next := Z.max n0 (foldr Z.max 0 (ps.*1 ++ elements (dom d : gset Z)) + 1) in
  1 ≤ next < u32_max ∧ (∀ p, is_Some (infos t !! p) → p < next) ∧ (∀ p, is_Some (d !! p) → p < next).
Proof.
  intros [_ _ Hfiles Hinfos HB _] Hps Hu next. set (l := ps.*1 ++ elements (dom d : gset Z)) in *.
  assert (∀ p, p ∈ l ↔ is_Some (infos t !! p) ∨ is_Some (d !! p)) as Hin.
  { intros p. unfold l. rewrite elem_of_app, elem_of_elements, elem_of_dom, list_elem_of_fmap. split; (intros [Hp|Hp]; [left|by right]).
    - destruct Hp as ([q i] & -> & Hp%Hps). by exists i.
    - destruct Hp as [i Hp]. exists (p, i). by rewrite Hps. }
  destruct (max_seen_bound l (Z.max B 1)) as [Hms Hall]; [|lia|].
  { intros p [Hp|[pf Hp]]%Hin; [destruct (Hinfos p Hp)|destruct (Hfiles p pf Hp)]; lia. }
  split_and!; [unfold next; lia|unfold next, u32_max in *; lia| |]; intros p Hp; (assert (p ≤ foldr Z.max 0 l); [apply Hall, Hin; tauto|unfold next; lia]).
Qed.

Record recovery_ok (d : gmap Z PackFile) (t : Tables) (rc : Recovered) (d' : gmap Z PackFile) (t' : Tables) : Prop := mkRecoveryOk {
  ry_same : t_files t' = t_files t ∧ t_blocks t' = t_blocks t ∧ t_dedup t' = t_dedup t ∧ next_id t' = next_id t;
  ry_idx V : IdxInv bs t V [] [] [] → IdxInv bs t' V [] [] [];
  ry_rows id l : rows t' !! id = Some l → row_stored d' l;
  ry_files p pf : d' !! p = Some pf → d !! p = Some pf;
  ry_infos p : is_Some (infos t' !! p) → is_Some (infos t !! p);
  ry_meta : meta_ok cfg t';
  ry_resume p : rc_resume rc = Some p → pack_state t' p = Some Active ∧ is_Some (d' !! p);
  ry_next : 1 ≤ rc_next_pack_id rc < u32_max ∧ (∀ p, is_Some (infos t !! p) → p < rc_next_pack_id rc) ∧ (∀ p, is_Some (d !! p) → p < rc_next_pack_id rc) }.

Lemma recover_ok fl d t B :
  openable d t B → ∃ rc fl' d' t', recover cfg fl d t = Ok (rc, fl', d', t') ∧ recovery_ok d t rc d' t'.
Proof.
  intros [[V HV] Hrows Hfiles Hinfos HB Hmeta]. destruct (meta_prep_ok t Hmeta) as (Hm1 & [m1 Em1] & En1). destruct (unclean_ok _ Hm1) as (Hm2 & En2).
  set (t2 := unclean (meta_prep t)) in *.
  assert (t_files t2 = t_files t ∧ t_blocks t2 = t_blocks t ∧ t_dedup t2 = t_dedup t ∧ t_packs t2 = t_packs t) as (Ef & Eb & Ed & Ep) by (unfold t2, unclean; by rewrite Em1).
  assert (infos t2 = infos t) as Ei by (unfold infos; by rewrite Ep). assert (rows t2 = rows t) as Er by (unfold rows; by rewrite Eb).
  assert (∀ p i, (p, i) ∈ packs t2 ↔ infos t !! p = Some i) as Hps by (intros; by rewrite packs_lookup, Ei).
  assert (∀ p, (∃ id l, rows t !! id = Some l ∧ l_pack l = p) → p ∈ (dom d : gset Z) ∧ accepts t p) as Huse.
  { intros p (id & l & Hl & <-). split; [|by destruct (iv_row _ _ _ _ _ _ HV id l Hl) as (_ & _ & _ & ?)].
    destruct (Hrows id l Hl) as (blk & b & (pf & Hp & _) & _). apply elem_of_dom. by exists pf. }
  destruct (recover_packs_spec (dom d) (packs t2) fl d t2 [] (packs_nodup t2)) as (fl1 & d1 & t3 & act & E3 & [Et3 Hi3 Hd3] & Hnd & Hact).
  { intros p i Hp%Hps. destruct (decide (p ∈ (dom d : gset Z))) as [?|Hno]; [right; by left|right; right].
    destruct (iv_live _ _ _ _ _ _ HV p i Hp) as [_ ->]. apply live_of_unused. intros id l Hl Ep'. apply Hno, Huse. by exists id, l. }
  set (orph := filter (λ id, id ∉ (packs t2).*1) (elements (dom d : gset Z))).
  pose proof (remove_orphans_spec orph fl1 d1) as Ho. destruct (remove_orphans orph fl1 d1) as [fl2 d2] eqn:Eo. cbn [snd] in Ho.
  assert (∀ p, is_Some (infos t !! p) → p ∉ orph) as Horph.
  { intros p [i Hp] Hin. apply list_elem_of_filter in Hin as [Hn _]. apply Hn. apply list_elem_of_fmap. exists (p, i). by rewrite Hps. }
  set (prev := default 0 (meta META_CLEAN_SHUTDOWN (meta_prep t))). set (rest := if prev =? 0 then act else removelast act).
  assert (∀ p, p ∈ rest → p ∈ act) as Hrest.
  { intros p. unfold rest. destruct (prev =? 0); [done|]. destruct (last act) as [x|] eqn:El; [by apply (last_not_removelast act x)|].
    apply last_None in El as ->. done. }
  assert (∀ p, p ∈ act → ∃ i, infos t3 !! p = Some i ∧ infos t !! p = Some i ∧ p_state i = Active ∧ p ∈ (dom d : gset Z)) as Hact3.
  { intros p Hp. destruct (Hact p Hp) as (i & Hi%Hps & Hs & Hod). exists i. split_and!; [|done|done|done]. destruct (Hi3 p) as [->|(_ & j & Hj%Hps & [Hr|Hr])]; [by rewrite Ei|congruence|done]. }
  assert (∀ p i, infos t3 !! p = Some i → infos t !! p = Some i) as Hsub.
  { intros p i Hp. destruct (Hi3 p) as [E|[E _]]; [by rewrite <- Ei, <- E|congruence]. }
  destruct (seal_all_spec rest t3) as (t4 & E4 & Et4 & Hi4).
  { intros p Hp%Hrest%Hact3. destruct Hp as (i & ? & Hi & _). exists i. split; [done|]. by apply (iv_live _ _ _ _ _ _ HV p). }
  assert (t4 = set_packs (t_packs t4) t2) as Et42 by (rewrite Et4; by rewrite Et3).
  assert (∀ p j, infos t4 !! p = Some j → ∃ i, infos t !! p = Some i ∧ live_bytes j = live_bytes i ∧ (p_state j = p_state i ∨ p_state j = Sealed)) as Hsub4.
  { intros p j. rewrite Hi4. case_decide; [|intros Hp; exists j; split_and!; [by apply Hsub|done|by left]].
    intros (i & Hp & ->)%fmap_Some. exists i. split_and!; [by apply Hsub|done|by right]. }
  assert (∀ p, p ∈ (dom d : gset Z) → accepts t p → accepts t4 p ∧ d2 !! p = d !! p) as Hkeep.
  { intros p Hp (i & Hi & Hs). assert (infos t3 !! p = Some i) as Hi3p.
    { destruct (Hi3 p) as [->|(_ & j & Hj%Hps & [Hr|Hr])]; [by rewrite Ei|congruence|done]. }
    split.
    - unfold accepts. rewrite Hi4, Hi3p. case_decide; [eexists; split; [done|]; done|by exists i].
    - destruct (Ho p) as [->|[_ Hin]]; [|destruct (Horph p); [by exists i|done]]. destruct (Hd3 p) as [->|(_ & j & Hj%Hps & Hr)]; [done|congruence]. }
  set (next := Z.max (as_u32 (default 1 (meta META_NEXT_PACK_ID t4))) (foldr Z.max 0 ((packs t2).*1 ++ elements (dom d : gset Z)) + 1)).
  exists (mkRecovered (if prev =? 0 then None else last act) next prev), fl2, d2, t4. split.
  - unfold recover. fold (meta_prep t). destruct Hm1 as [-> ->]. rewrite !bool_decide_eq_true_2 by done. cbn [negb]. fold prev. fold (unclean (meta_prep t)). fold t2.
    rewrite E3. cbn [app]. fold orph. rewrite Eo. fold rest. rewrite E4. done.
  - assert (t_files t4 = t_files t ∧ t_blocks t4 = t_blocks t ∧ t_dedup t4 = t_dedup t ∧ next_id t4 = next_id t) as Hsame.
    { rewrite Et42. cbn [t_files t_blocks t_dedup set_packs]. split_and!; [done|done|done|]. change (next_id (set_packs (t_packs t4) t2)) with (next_id t2). congruence. }
    assert (rows t4 = rows t) as Er4 by (unfold rows; by rewrite (proj1 (proj2 Hsame))). destruct Hsame as (S1 & S2 & S3 & S4). split; try done.
    + intros V' HV'. eapply (packs_inv bs t t4); [exact HV'|done|done|done|done| |].
      * intros p Ha Hu. apply Hkeep; [by apply Huse|done].
      * intros p j Hj. destruct (Hsub4 p j Hj) as (i & Hi & El & _). destruct (iv_live _ _ _ _ _ _ HV p i Hi) as [Hok El2]. unfold info_ok in *. rewrite El. done.
    + intros id l. rewrite Er4. intros Hl. destruct (Huse (l_pack l)) as [Hod Ha]; [by exists id, l|]. destruct (Hkeep _ Hod Ha) as [_ Hd2].
      destruct (Hrows id l Hl) as (blk & b & (pf & Hp & Hx) & Hb). exists blk, b. split; [|done]. exists pf. by rewrite Hd2.
    + intros p pf Hp. destruct (Ho p) as [E|[E _]]; [|congruence]. destruct (Hd3 p) as [E'|[E' _]]; congruence.
    + intros p [j Hj]. destruct (Hsub4 p j Hj) as (i & Hi & _). by exists i.
    + unfold meta_ok, meta. rewrite Et42. apply Hm2.
    + intros p. cbn [rc_resume]. destruct (prev =? 0) eqn:Epv; [done|]. intros Hl. destruct (last_not_removelast act p Hnd Hl) as (Hn & Hin & _).
      destruct (Hact3 p Hin) as (i & Hi & Hi' & Hs & Hod). split.
      * unfold pack_state. rewrite Hi4. unfold rest. rewrite ?Epv, decide_False, Hi by done. cbn [fmap option_fmap option_map]. by rewrite Hs.
      * destruct (Hkeep p Hod) as [_ ->]; [exists i; split; [done|congruence]|]. by apply elem_of_dom.
    + cbn [rc_next_pack_id]. apply (next_pack_ok d t B); [by split; [exists V|..]|done|]. apply Z.mod_pos_bound. done.
Qed.

(** A store that was just opened. *)
Definition fresh (s : Store) : Prop :=
  s_locked s = false ∧ s_compacting s = false ∧ s_reads s = ∅ ∧ s_durable s = s_tables s.

Lemma open_ok fl d t B :
  cfg_validate cfg = Ok tt → openable d t B →
  ∃ s gens nx, open_store cfg fl d t = Ok s ∧ fresh s ∧ SInv (mkWorld s gens nx) ∧ ∀ f o, holds bs t f o → holds bs (s_tables s) f o.
Proof using Hbs.
  intros Hcfg Hop. destruct (recover_ok fl d t B Hop) as (rc & fl' & d' & t' & E & [Sm Hidx Hrows Hfiles Hinfos Hmeta Hres Hnext]).
  destruct Hop as [[V HV] _ Hf0 Hi0 _ _]. specialize (Hidx V HV). unfold open_store. rewrite Hcfg, E.
  destruct Hnext as (Hn1 & Hn2 & Hn3). set (nx := rc_next_pack_id rc) in *.
  set (a := match rc_resume rc with Some id => (λ pf, mkActive id [] (len (pf_data pf))) <$> d' !! id | None => None end).
  assert (match rc_resume rc with None => Ok None | Some id => match d' !! id with Some pf => Ok (Some (mkActive id [] (len (pf_data pf)))) | None => Err Io end end
    = Ok a) as ->.
  { unfold a. destruct (rc_resume rc) as [id|]; [|done]. destruct (Hres id eq_refl) as [_ [pf ->]]. done. }
  set (s := mkStore _ _ _ _ _ _ _ _ _ _ _ _). exists s, ∅, nx. split_and!; [done|done| |].
  - assert (∀ x, a = Some x → ∃ pf, d' !! a_id x = Some pf ∧ a_len x = len (pf_data pf) ∧ a_buf x = [] ∧ rc_resume rc = Some (a_id x)) as Ha.
    { intros x. unfold a. destruct (rc_resume rc) as [id|]; [|done]. intros (pf & Hp & ->)%fmap_Some. by exists pf. }
    assert (∀ p pf, d' !! p = Some pf → 0 ≤ p < nx ∧ pf_synced pf = len (pf_data pf)) as Hd.
    { intros p pf Hp%Hfiles. destruct (Hf0 p pf Hp) as [? Es]. split; [|done]. specialize (Hn3 p (ex_intro _ pf Hp)). lia. }
    split; cbn [x_s x_gens x_next].
    + by exists V.
    + done.
    + by exists V.
    + intros id l Hl. destruct (Hrows id l Hl) as (blk & b & (pf & Hp & Hx) & Hb). exists blk, b. split; [|done].
      exists (mkPackFile (pf_data pf) (pf_synced pf)). split; [|done]. change (dk _) with d'. unfold synced_disk. rewrite lookup_fmap, Hp. cbn. f_equal. f_equal.
      destruct (Hd _ pf Hp) as [_ ->]. unfold len. by rewrite Nat2Z.id, firstn_all.
    + intros p pf Hp. destruct (Hd p pf Hp) as [? Es]. pose proof (len_nonneg (pf_data pf)). rewrite Es. split_and!; try done; lia.
    + intros p Hp. assert (is_Some (infos t !! p)) as Hx by (apply Hinfos; by destruct Hp). specialize (Hn2 p Hx). specialize (Hi0 p Hx). lia.
    + cbn. lia.
    + intros x Hx. destruct (Ha x Hx) as (pf & Hp & El & Eb & Er). split; [done|]. split; [by apply (Hd _ pf)|left]. exists pf. split; [done|]. rewrite El, Eb, len_nil. lia.
    + intros _ p. change (wr _) with (mkWriter a None nx). unfold current_id. cbn [w_active w_abandoned]. destruct a as [x|]; [|done]. intros [= <-].
      destruct (Ha x eq_refl) as (pf & _ & _ & _ & Er). by apply Hres.
    + intros g n. change (s_reads s) with (∅ : gmap Z Z). by rewrite lookup_empty.
    + intros p r. by rewrite lookup_empty.
    + intros p g. change (s_retired s) with (@nil (Z * Z)). by intros ?%elem_of_nil.
    + done.
  - intros f o. apply (holds_same bs Hbs t t' V f o); [apply HV|apply Hidx|]. unfold rows. by rewrite (proj1 (proj2 Sm)).
Qed.

(** After a crash the store opens, with the files of the last durable commit. *)
Lemma reopen w fl d :
  cfg_validate cfg = Ok tt → SInv w → crashed (x_s w) d →
  ∃ s gens nx, open_store cfg fl d (du w) = Ok s ∧ fresh s ∧ SInv (mkWorld s gens nx) ∧ ∀ f o, holds bs (du w) f o → holds bs (s_tables s) f o.
Proof using Hbs.
  intros Hcfg Hi Hcr. assert (∀ p, match dk w !! p, d !! p with Some pf, Some pf' => torn pf pf' | None, None => True | _, _ => False end) as Ht.
  { intros p. specialize (Hcr p). unfold dk. destruct (s_disk (x_s w) !! p), (d !! p); done. }
  apply (open_ok fl d (du w) (x_next w) Hcfg). split.
  - apply Hi.
  - intros id l Hl. destruct (si_drows _ _ _ Hi id l Hl) as (blk & b & Hb & Hrec). exists blk, b. split; [|done]. eapply at_disk_prefix; [exact Hb|].
    intros pf0 Hp. unfold synced_disk in Hp. rewrite lookup_fmap in Hp. apply fmap_Some in Hp as (pf & Hp & ->). specialize (Ht (l_pack l)). rewrite Hp in Ht.
    destruct (d !! l_pack l) as [pf'|]; [|done]. destruct Ht as (n & Hn & Ed & _). exists pf'. split; [done|]. rewrite Ed. cbn [pf_data].
    destruct (si_files _ _ _ Hi _ _ Hp) as (_ & Hs & _). exists (drop (Z.to_nat (pf_synced pf)) (take (Z.to_nat n) (pf_data pf))).
    rewrite <- (take_drop (Z.to_nat (pf_synced pf)) (take (Z.to_nat n) (pf_data pf))) at 1. f_equal. rewrite take_take. f_equal. lia.
  - intros p pf' Hp. specialize (Ht p). rewrite Hp in Ht. destruct (dk w !! p) as [pf|] eqn:E; [|done]. destruct Ht as (n & _ & _ & Es).
    destruct (si_files _ _ _ Hi _ _ E) as (? & _ & _). done.
  - intros p Hp. apply (si_infos _ _ _ Hi). by right.
  - pose proof (si_next _ _ _ Hi). lia.
  - left. apply (si_meta _ _ _ Hi).
Qed.

(** An empty directory. *)
Lemma open_empty fl :
  cfg_validate cfg = Ok tt →
  ∃ s gens nx, open_store cfg fl ∅ empty_tables = Ok s ∧ fresh s ∧ SInv (mkWorld s gens nx) ∧ ∀ f, holds bs (s_tables s) f None.
Proof using Hbs.
  intros Hcfg. assert (∀ id, rows empty_tables !! id = None) as Hr by (intros; unfold rows; rewrite lookup_fmap; cbn [empty_tables t_blocks]; by rewrite lookup_empty).
  assert (∀ p, infos empty_tables !! p = None) as Hi by (intros; unfold infos; rewrite lookup_fmap; cbn [empty_tables t_packs]; by rewrite lookup_empty).
  destruct (open_ok fl ∅ empty_tables 1 Hcfg) as (s & gens & nx & E & Hf & HI & Hh).
  - split; try done.
    + exists ∅. split.
      * intros f. rewrite lookup_empty. intros sg. apply lookup_empty.
      * done.
      * by intros id ?%elem_of_nil.
      * intros id l. by rewrite Hr.
      * intros id l. by rewrite Hr.
      * intros h id. unfold dedup. cbn [empty_tables t_dedup]. by rewrite lookup_empty.
      * intros p i. by rewrite Hi.
    + intros p. rewrite Hi. by intros [? ?].
    + by right.
  - exists s, gens, nx. split_and!; [done|done|done|]. intros f. apply Hh. intros sg. apply lookup_empty.
Qed.
End recovery.

(** ** The block store as its threads see it

    Threads that change different files each have a file store of their own,
    in which a file is a length and a list of blocks ([astep]), whatever the
    others do and whenever packs are compacted; what a thread has flushed is
    what the store opens with after a crash. *)


(** ** Operations *)

Inductive Op :=
  | OSetLen (f : bytes) (n : Z)
  | ODelete (f : bytes)
  | OWrite (f : bytes) (first : Z) (data : bytes) (class : WriteClass)
  | OStat (f : bytes)
  | ORead (f : bytes) (offset : Z) (buf : bytes)
  | OFlush
  | OShutdown (token : Z)
  | OCompact (chosen : list Z → list Z).
Inductive Res :=
  | RUnit (r : result BErr unit)
  | RStat (r : result BErr (option Z))
  | RRead (r : result BErr (Z * bytes * list (Z * Z))).

Definition prog_map {A B} (f : A → B) (p : prog A) : prog B := prog_bind (λ a, Ret (f a)) p.

Section client.
Context `{BC : BlockCodec} (cfg : StoreConfig) (fuel : nat).

Definition run_op (op : Op) : prog Res :=
  match op with
  | OSetLen f n => prog_map RUnit (set_len cfg f n)
  | ODelete f => prog_map RUnit (delete_file cfg f)
  | OWrite f first data class => prog_map RUnit (write_blocks_as cfg fuel f first data class)
  | OStat f => prog_map RStat (stat cfg f)
  | ORead f offset buf => prog_map RRead (read cfg f offset buf)
  | OFlush => prog_map RUnit flush
  | OShutdown token => prog_map RUnit (shutdown_with_token token)
  | OCompact chosen => prog_map RUnit (compact cfg chosen)
  end.
Fixpoint client (ops : list Op) : prog (list Res) :=
  match ops with
  | [] => Ret []
  | op :: ops => let* r := run_op op in let* rs := client ops in Ret (r :: rs)
  end.
End client.

(** ** The abstract store of one thread *)

(** A file's length and the hashes of its blocks, and whether it is durable. *)
Definition AFileState : Type := option (Z * list (option bytes)).
Record AStore := mkAStore { a_file : bytes → AFileState; a_synced : bool }.
Definition a_set (a : AStore) (f : bytes) (o : AFileState) : AStore :=
  mkAStore (λ g, if decide (g = f) then o else a_file a g) false.

Section spec.
Context `{BC : BlockCodec} (cfg : StoreConfig) (D : bytes → bytes) (F : gset bytes).
Local Abbreviation bs := (c_block_size cfg).

Definition failed (a : AStore) (r : result BErr unit) (a' : AStore) : Prop := ∃ e, r = Err e ∧ a' = a.

Definition checked_id {A} (f : bytes) (r : result BErr A) : result BErr A := match check_id cfg f with Ok _ => r | Err e => Err e end.

Definition astep (op : Op) (a : AStore) (r : Res) (a' : AStore) : Prop :=
  match op, r with
  | OSetLen f n, RUnit r => a' = a_set a f (Some (resized bs n (a_file a f))) ∨ failed a r a'
  | ODelete f, RUnit r => a' = a_set a f None ∨ failed a r a'
  | OWrite f first data _, RUnit r =>
      (∃ L old hs rest all, a_file a f = Some (L, old) ∧ hash128 <$> chunks bs data = hs ++ rest ∧
         (if all : bool then rest = [] else True) ∧ ended r (len hs) all ∧
         a' = a_set a f (Some (L, put_at old first (Some <$> hs)))) ∨ failed a r a'
  | OStat f, RStat r => a' = a ∧ (f ∈ F → r = checked_id f (Ok (fst <$> a_file a f)))
  | ORead f offset buf, RRead r => a' = a ∧ (f ∈ F → r = checked_id f (read_answer cfg D (a_file a f) offset buf))
  | OFlush, RUnit r | OShutdown _, RUnit r => a' = match r with Ok _ => mkAStore (a_file a) true | Err _ => a end
  | OCompact _, RUnit _ => a' = a
  | _, _ => False
  end.
Inductive aruns : list Op → AStore → list Res → AStore → Prop :=
  | aruns_nil a : aruns [] a [] a
  | aruns_cons op ops a r a1 rs a2 : astep op a r a1 → aruns ops a1 rs a2 → aruns (op :: ops) a (r :: rs) a2.

(** What a thread may do: change its own files, with blocks of [U]. *)
Definition op_ok (U : bytes → Prop) (op : Op) : Prop :=
  match op with
  | OSetLen f n => f ∈ F ∧ in_u64 n
  | ODelete f => f ∈ F
  | OWrite f first data _ => f ∈ F ∧ 0 ≤ first ∧ Forall U (chunks bs data)
  | ORead _ offset buf => 0 ≤ offset ∧ offset + len buf < u64_max
  | OCompact chosen => ∀ l, chosen l ⊆ l
  | OStat _ | OFlush | OShutdown _ => True
  end.
End spec.

(** ** Blocks keep their lengths *)

Section lens.
Context `{BC : BlockCodec} (cfg : StoreConfig) (U : bytes → Prop) (D : bytes → bytes).
Local Abbreviation bs := (c_block_size cfg).
Context (Hbs : 0 < bs) (HD : ∀ d, U d → D (hash128 d) = d).

Lemma chunks_lookup n b j c : 0 < n → chunks n b !! j = Some c → len c = Z.min n (len b - Z.of_nat j * n).
Proof.
  intros Hn. revert j. apply (chunks_ind n (λ b, ∀ j, chunks n b !! j = Some c → len c = Z.min n (len b - Z.of_nat j * n))); [done|done|].
  intros d Hd IH [|j]; rewrite chunks_cons by done; cbn [lookup list_lookup].
  - intros [= <-]. unfold len. rewrite length_take. lia.
  - change (list_lookup j (chunks n (drop (Z.to_nat n) d))) with (chunks n (drop (Z.to_nat n) d) !! j). intros Hj. rewrite (IH j Hj). unfold len. rewrite length_drop.
    destruct (decide (Z.to_nat n ≤ length d)%nat); [lia|]. rewrite drop_ge in Hj by lia. by rewrite chunks_nil in Hj.
Qed.

Lemma block_len_inner L k : 0 ≤ k → k + 1 < block_count L bs → block_len L bs k = bs.
Proof using Hbs.
  unfold block_count, div_ceil, block_len, sat_sub. intros Hk Hlt.
  assert ((k + 1) * bs < L); [|lia]. pose proof (Z.mul_div_le (L + bs - 1) bs Hbs). nia.
Qed.

Lemma resized_lens nl L hs :
  0 ≤ L → 0 ≤ nl → len hs = block_count L bs → lens_ok cfg D L hs → lens_ok cfg D nl (resized bs nl (Some (L, hs))).2.
Proof using Hbs.
  intros HL Hnl Hlen Hok i h. cbn [resized snd]. set (nb := block_count nl bs). set (cut := if last_changes bs L nl then _ else _).
  pose proof (blocks_nonneg bs Hbs nl Hnl) as Hnb. fold nb in Hnb. assert (length cut = length hs) as El by (unfold cut; destruct (last_changes bs L nl); [apply length_insert|done]).
  intros Hi. destruct (decide (i < Z.to_nat nb)%nat) as [Hlt|Hge].
  2:{ rewrite lookup_ge_None_2 in Hi; [done|]. rewrite length_resize. lia. }
  destruct (decide (i < length cut)%nat) as [Hc|Hc]; [|rewrite lookup_resize_new in Hi by lia; done]. rewrite lookup_resize in Hi by lia.
  assert (Z.of_nat i < block_count L bs) as Hob by (unfold len in Hlen; lia).
  unfold cut, last_changes in Hi. set (common := Z.min (block_count L bs) (block_count nl bs)) in Hi. fold nb in Hi, common.
  destruct (decide (Z.of_nat i + 1 < common)) as [Hin|Hlast].
  - assert (hs !! i = Some (Some h)) as Hh.
    { destruct ((0 <? common) && _); [|done]. rewrite list_lookup_insert_ne in Hi; [done|]. unfold last_index. fold nb. unfold common in Hin. lia. }
    rewrite (Hok i h Hh), !block_len_inner by (unfold common, nb in *; lia). done.
  - assert (Z.of_nat i = common - 1) as Ei by (unfold common in *; lia). rewrite (proj2 (Z.ltb_lt 0 common)) in Hi by lia. cbn [andb] in Hi.
    destruct (Z.eqb_spec (block_len L bs (common - 1)) (block_len nl bs (common - 1))) as [Eq|Hne]; cbn [negb] in Hi.
    + by rewrite (Hok i h Hi), Ei.
    + assert (i = last_index bs L nl) as -> by (unfold last_index; fold nb; unfold common in Ei; lia). rewrite list_lookup_insert_eq in Hi by lia. done.
Qed.

Lemma lookup_put_at {A} (l : list A) a d i :
  0 ≤ a → a + len d ≤ len l →
  put_at l a d !! i = if decide (a ≤ Z.of_nat i < a + len d) then d !! (i - Z.to_nat a)%nat else l !! i.
Proof.
  intros Ha Hl. unfold put_at, len in *. assert (length (take (Z.to_nat a) l) = Z.to_nat a) as E by (rewrite length_take; lia).
  destruct (decide (i < Z.to_nat a)%nat).
  { rewrite lookup_app_l, lookup_take_lt, decide_False by (rewrite ?E; lia). done. }
  rewrite lookup_app_r, E by (rewrite E; lia). destruct (decide (i - Z.to_nat a < length d)%nat).
  - rewrite lookup_app_l, decide_True by lia. done.
  - rewrite lookup_app_r, decide_False, lookup_drop by lia. f_equal. lia.
Qed.

Lemma written_lens L old first data hs rest :
  0 ≤ first → len old = block_count L bs → validate_write L bs first (len data) = Ok tt → Forall U (chunks bs data) →
  hash128 <$> chunks bs data = hs ++ rest → lens_ok cfg D L old → lens_ok cfg D L (put_at old first (Some <$> hs)).
Proof using Hbs HD.
  intros Hf Hold Hval HU Hhs Hok. destruct (decide (len data = 0)) as [E0|Hne].
  { unfold len in E0. destruct data; [|done]. rewrite chunks_nil in Hhs. symmetry in Hhs. apply app_nil in Hhs as [-> _]. by rewrite fmap_nil, put_at_nil. }
  pose proof (len_nonneg data). pose proof (validate_bounds bs L first (len data) ltac:(lia) Hval) as Hb. rewrite <- (chunks_len bs data Hbs) in Hb.
  assert (len hs ≤ len (chunks bs data)) as Hlh.
  { assert (length (hash128 <$> chunks bs data) = length (hs ++ rest)) as E by (by rewrite Hhs). rewrite length_fmap, length_app in E. unfold len. lia. }
  assert (len (Some <$> hs) = len hs) as Els by (unfold len; by rewrite length_fmap).
  intros i h. rewrite lookup_put_at by lia. case_decide as Hi; [|by apply Hok]. rewrite list_lookup_fmap. set (j := (i - Z.to_nat first)%nat).
  destruct (hs !! j) as [h'|] eqn:Ej; [|done]. intros [= ->].
  assert ((hash128 <$> chunks bs data) !! j = Some h) as Hj by (by rewrite Hhs; apply lookup_app_l_Some).
  rewrite list_lookup_fmap in Hj. apply fmap_Some in Hj as (c & Hc & ->). assert (U c) as HUc by (by eapply Forall_lookup_1).
  rewrite (HD c HUc), (chunks_lookup bs data j c Hbs Hc). apply lookup_lt_Some in Hc as Hlt.
  assert (Z.of_nat i = first + Z.of_nat j) as Ei by lia. rewrite Ei.
  pose proof (chunks_len bs data Hbs) as Ecl. unfold validate_write in Hval. rewrite (proj2 (Z.eqb_neq _ _)) in Hval by lia. rewrite <- Ecl in Hval.
  destruct (u64_max <=? _); [done|]. destruct (block_count L bs <? _); [done|].
  destruct (Z.eqb_spec (len data - (len (chunks bs data) - 1) * bs) (block_len L bs (first + len (chunks bs data) - 1))) as [Et|]; [|done].
  unfold div_ceil in Ecl. pose proof (Z.mul_div_le (len data + bs - 1) bs Hbs) as Hm1. rewrite <- Ecl in Hm1.
  pose proof (Z.mul_succ_div_gt (len data + bs - 1) bs Hbs) as Hm2. rewrite <- Ecl in Hm2.
  destruct (decide (Z.of_nat j + 1 < len (chunks bs data))) as [Hin|Hlast].
  - rewrite block_len_inner by lia. nia.
  - assert (Z.of_nat j = len (chunks bs data) - 1) as Ejl by (unfold len in *; lia). rewrite Ejl.
    replace (first + (len (chunks bs data) - 1)) with (first + len (chunks bs data) - 1) by lia. rewrite <- Et. nia.
Qed.
End lens.

(** ** A thread does what its abstract store does *)

Section refine.
Context `{BC : BlockCodec} `{BCO : !BlockCodecOk} (cfg : StoreConfig) (U : bytes → Prop) (D : bytes → bytes) (fuel : nat).
Local Abbreviation bs := (c_block_size cfg).
Context (Hbs : 0 < bs) (Hbs32 : bs < u32_max) (Hmax : in_u64 (c_max_pack_size cfg)) (HD : ∀ d, U d → D (hash128 d) = d).
Local Abbreviation SInv := (SInv cfg U).
Local Abbreviation Inv := (Inv cfg U).
Local Abbreviation rely := (rely cfg).
Local Abbreviation wp := (wp cfg U).

Definition free (F : gset bytes) : Held := mkHeld false false None F.

(** The files of [F] hold what the abstract store says. *)
Definition reps (F : gset bytes) (a : AStore) (w : World) : Prop := ∀ f, f ∈ F →
  holds bs (tb w) f (a_file a f) ∧ (a_synced a = true → holds bs (du w) f (a_file a f)) ∧ sound cfg D (a_file a f).

Lemma reps_rely F a w w' : rely (free F) w w' → reps F a w → reps F a w'.
Proof.
  intros Hr Ha f Hf. destruct (Ha f Hf) as (H1 & H2 & H3). destruct (r_files _ _ _ _ Hr f _ Hf H1) as [K1 K2]. auto.
Qed.
Lemma reps_set F a f o w w' :
  rely (less (free F) f) w w' → reps F a w → holds bs (tb w') f o → sound cfg D o → reps F (a_set a f o) w'.
Proof.
  intros Hr Ha Ho Hs g Hg. cbn [a_set a_file a_synced]. case_decide as Eg; [by subst|]. destruct (Ha g Hg) as (H1 & _ & H3).
  split; [|done]. apply (r_files _ _ _ _ Hr g _); [|done]. cbn. apply elem_of_difference. split; [done|]. by rewrite elem_of_singleton.
Qed.
Lemma holds_ok t f L hs : holds bs t f (Some (L, hs)) → in_u64 L ∧ len hs = block_count L bs.
Proof.
  intros (ids & [(Hu & _ & El & _) _] & ->). split; [done|]. rewrite <- El. unfold len, hashes_in. by rewrite length_fmap.
Qed.
Lemma resized_sound nl f o t : 0 ≤ nl → holds bs t f o → sound cfg D o → sound cfg D (Some (resized bs nl o)).
Proof using Hbs.
  intros Hn Ho Hs. destruct o as [[L hs]|].
  - destruct (holds_ok _ _ _ _ Ho) as [[? _] El]. by apply (resized_lens cfg D Hbs).
  - cbn. intros i h Hi. by apply lookup_replicate_1 in Hi as [? _].
Qed.

Definition op_post (F : gset bytes) (op : Op) (a : AStore) (γ : Held) (r : Res) (w : World) : Prop :=
  γ = free F ∧ ∃ a', astep cfg D F op a r a' ∧ reps F a' w.

Lemma wp_map {A B} γ (g : A → B) (p : prog A) (Q : Held → B → World → Prop) w :
  wp γ p (λ γ' a w', ∀ w3, Inv γ' w3 → rely γ' w' w3 → Q γ' (g a) w3) w → wp γ (prog_map g p) Q w.
Proof. intros Hp. unfold prog_map. apply wp_seq. eapply wp_conseq; [exact Hp|]. intros γ' a w' _ Hq. by apply wp_ret. Qed.

Lemma wp_op F op a w : reps F a w → op_ok cfg F U op → wp (free F) (run_op cfg fuel op) (op_post F op a) w.
Proof using All.
  intros Ha Hop.
  assert (∀ w1 w2 a, rely (free F) w1 w2 → reps F a w1 → reps F a w2) as Hst by (intros; by eapply reps_rely).
  destruct op as [f n|f|f first data class|f|f offset buf| |token|chosen]; cbn [run_op op_ok] in *; apply wp_map.
  - destruct Hop as [Hf Hn]. destruct (Ha f Hf) as (Ho & _ & Hs). eapply wp_set_len; [done..| |].
    + intros r w1 Hi1 Hr1 Ho1 w2 Hi2 Hr2. split; [done|]. eexists. split; [by left|]. eapply Hst; [exact Hr2|]. eapply reps_set; [done|done|done|].
      eapply resized_sound; [apply Hn|done|done].
    + intros e w1 Hi1 Hr1 Ho1 w2 Hi2 Hr2. split; [done|]. exists a. split; [right; by exists e|]. eapply Hst; [exact Hr2|]. by eapply Hst.
  - destruct (Ha f Hop) as (Ho & _ & Hs). eapply wp_delete; [done..| |].
    + intros r w1 Hi1 Hr1 Ho1 w2 Hi2 Hr2. split; [done|]. eexists. split; [by left|]. eapply Hst; [exact Hr2|]. by eapply reps_set.
    + intros e w1 Hi1 Hr1 Ho1 w2 Hi2 Hr2. split; [done|]. exists a. split; [right; by exists e|]. eapply Hst; [exact Hr2|]. by eapply Hst.
  - destruct Hop as (Hf & Hfirst & HU). destruct (Ha f Hf) as (Ho & _ & Hs). eapply wp_write_blocks; [done..| |].
    + intros r w1 L old hs rest all Hi1 Hr1 Eo Hval Hhs Hall Ho1 Hend w2 Hi2 Hr2. split; [done|]. eexists. split.
      * left. exists L, old, hs, rest, all. split_and!; done.
      * eapply Hst; [exact Hr2|]. eapply reps_set; [done|done|done|]. rewrite Eo in Ho, Hs. destruct (holds_ok _ _ _ _ Ho) as [_ El].
        by eapply (written_lens cfg U D Hbs HD).
    + intros e w1 Hi1 Hr1 Ho1 w2 Hi2 Hr2. split; [done|]. exists a. split; [right; by exists e|]. eapply Hst; [exact Hr2|]. by eapply Hst.
  - apply wp_stat; [done| |].
    + intros w1 o w2 Hid Hi1 Hr1 Ho1 Hi2 Hr2 w3 Hi3 Hr3. split; [done|]. exists a. split.
      * split; [done|]. intros Hf. unfold checked_id. rewrite Hid. destruct (Hst _ _ a Hr1 Ha f Hf) as (Ho & _). by rewrite (holds_fun bs Hbs _ _ _ _ Ho Ho1).
      * eapply Hst; [exact Hr3|]. eapply Hst; [exact Hr2|]. by eapply Hst.
    + intros e w1 Hid Hi1 Hr1 w2 Hi2 Hr2. split; [done|]. exists a. split; [split; [done|]; intros _; unfold checked_id; by rewrite Hid|]. eapply Hst; [exact Hr2|]. by eapply Hst.
  - eapply (wp_read_file cfg U Hbs D HD); [done|apply Hop| |].
    + intros w1 o r w2 Hid Hi1 Hr1 Ho1 Hr2 Hi2 Hr w3 Hi3 Hr3. split; [done|]. exists a. split.
      * split; [done|]. intros Hf. unfold checked_id. rewrite Hid. destruct (Hst _ _ a Hr1 Ha f Hf) as (Ho & _ & Hs). rewrite (holds_fun bs Hbs _ _ _ _ Ho Ho1) in *. by apply Hr.
      * eapply Hst; [exact Hr3|]. eapply Hst; [exact Hr2|]. by eapply Hst.
    + intros e w1 Hid Hi1 Hr1 w2 Hi2 Hr2. split; [done|]. exists a. split; [split; [done|]; intros _; unfold checked_id; by rewrite Hid|]. eapply Hst; [exact Hr2|]. by eapply Hst.
  - apply wp_bs_flush; [done..|]. intros r w1 Hi1 Hr1 Hsv w2 Hi2 Hr2. split; [done|]. eexists. split; [done|]. eapply Hst; [exact Hr2|].
    destruct r as [u|e]; [|by eapply Hst]. intros f Hf. destruct (Hst _ _ a Hr1 Ha f Hf) as (H1 & _ & H3). split; [done|]. split; [|done]. intros _.
    apply (Hsv u eq_refl); [done|]. apply Ha. done.
  - apply wp_shutdown; [done..|]. intros r w1 Hi1 Hr1 Hsv w2 Hi2 Hr2. split; [done|]. eexists. split; [done|]. eapply Hst; [exact Hr2|].
    destruct r as [u|e]; [|by eapply Hst]. intros f Hf. destruct (Hst _ _ a Hr1 Ha f Hf) as (H1 & _ & H3). split; [done|]. split; [|done]. intros _.
    apply (Hsv u eq_refl); [done|]. apply Ha. done.
  - apply wp_compact; [done..|]. intros r w1 Hi1 Hr1 w2 Hi2 Hr2. split; [done|]. exists a. split; [done|]. eapply Hst; [exact Hr2|]. by eapply Hst.
Qed.

Definition client_post (F : gset bytes) (ops : list Op) (a : AStore) (γ : Held) (rs : list Res) (w : World) : Prop :=
  γ = free F ∧ ∃ a', aruns cfg D F ops a rs a' ∧ reps F a' w.

Lemma wp_client F ops a w : reps F a w → Forall (op_ok cfg F U) ops → wp (free F) (client cfg fuel ops) (client_post F ops a) w.
Proof using All.
  intros Ha Hops. revert a w Ha. induction Hops as [|op ops Hop Hops IH]; intros a w Ha; cbn [client].
  - apply wp_ret. intros w1 Hi1 Hr1. split; [done|]. exists a. split; [constructor|by eapply reps_rely].
  - apply wp_seq. eapply wp_conseq; [by apply wp_op|]. intros γ r w1 _ [-> (a1 & Hs1 & Ha1)]. apply wp_seq. eapply wp_conseq; [by apply (IH a1)|].
    intros γ rs w2 _ [-> (a2 & Hs2 & Ha2)]. apply wp_ret. intros w3 Hi3 Hr3. split; [done|]. exists a2. split; [by econstructor|by eapply reps_rely].
Qed.
End refine.

(** ** Reading back *)

Section readback.
Context `{BC : BlockCodec} (cfg : StoreConfig) (U : bytes → Prop) (D : bytes → bytes).
Local Abbreviation bs := (c_block_size cfg).
Context (Hbs : 0 < bs) (HD : ∀ d, U d → D (hash128 d) = d).

Lemma chunks_get n b j c : 0 < n → chunks n b !! j = Some c → c = mem_get b (Z.of_nat j * n) n.
Proof.
  intros Hn. revert j. apply (chunks_ind n (λ b, ∀ j, chunks n b !! j = Some c → c = mem_get b (Z.of_nat j * n) n)); [done|done|].
  intros d Hd IH [|j]; rewrite chunks_cons by done; cbn [lookup list_lookup].
  - intros [= <-]. unfold mem_get. cbn. by rewrite drop_0.
  - change (list_lookup j (chunks n (drop (Z.to_nat n) d))) with (chunks n (drop (Z.to_nat n) d) !! j). intros Hj. rewrite (IH j Hj).
    unfold mem_get. rewrite drop_drop. do 2 f_equal. lia.
Qed.
Lemma mem_put_app (l : bytes) x y : len x ≤ len l → mem_put (mem_put l 0 x) (len x) y = mem_put l 0 (x ++ y).
Proof. intros. apply (put_at_app l 0 x y); [done|]. lia. Qed.

Definition whole (data : bytes) : AFileState := Some (len data, Some <$> (hash128 <$> chunks bs data)).

(** The blocks from [k] on, with what is before them in the buffer. *)
Lemma fill_all data offset end_ j k buf :
  Forall U (chunks bs data) → 0 ≤ offset → 0 ≤ k → offset < end_ → end_ ≤ len data → end_ - offset ≤ len buf →
  k * bs < end_ → (k + Z.of_nat j - 1) * bs < end_ ≤ (k + Z.of_nat j) * bs → offset < (k + 1) * bs →
  fill cfg D (len data) (Some <$> (hash128 <$> chunks bs data)) offset end_ (seqZ k (Z.of_nat j))
    (mem_put buf 0 (mem_get data offset (Z.max offset (k * bs) - offset))) [] = (mem_put buf 0 (mem_get data offset (end_ - offset)), []).
Proof using Hbs HD.
  intros HU Ho Hk Hlt Hend Hbuf. revert k Hk. induction j as [|j IH]; intros k Hk Hke Hlast Hok; [lia|].
  rewrite seqZ_cons by lia. cbn [fill]. set (c := mem_get data (k * bs) bs).
  assert ((Some <$> (hash128 <$> chunks bs data)) !! Z.to_nat k = Some (Some (hash128 c)) ∧ U c) as [-> HUc].
  { assert (Z.to_nat k < length (chunks bs data))%nat as Hkl.
    { pose proof (chunks_len bs data Hbs) as E. unfold div_ceil in E. pose proof (Z.mul_succ_div_gt (len data + bs - 1) bs Hbs) as Hm. rewrite <- E in Hm. unfold len in *. nia. }
    destruct (lookup_lt_is_Some_2 _ _ Hkl) as [c' Hc]. pose proof (chunks_get bs data _ c' Hbs Hc) as Ec. rewrite Z2Nat.id in Ec by lia. fold c in Ec. subst c'.
    split; [by rewrite !list_lookup_fmap, Hc|by eapply Forall_lookup_1]. }
  rewrite (HD c HUc). set (from := Z.max offset (k * bs)). set (to := Z.min end_ (Z.min (len data) (k * bs + bs))).
  assert (to = Z.min end_ ((k + 1) * bs)) as Eto by (unfold to; nia). assert (offset ≤ from ∧ from < to ∧ k * bs ≤ from) as (Hf1 & Hf2 & Hf3) by (unfold from; nia).
  assert (mem_put (mem_put buf 0 (mem_get data offset (from - offset))) (from - offset) (mem_get c (from - k * bs) (to - from)) =
    mem_put buf 0 (mem_get data offset (to - offset))) as ->.
  { unfold c. rewrite mem_get_get by nia. replace (k * bs + (from - k * bs)) with from by lia.
    assert (len (mem_get data offset (from - offset)) = from - offset) as El by (apply mem_get_len; lia).
    rewrite <- El at 2. rewrite mem_put_app by lia. f_equal. replace (to - offset) with ((from - offset) + (to - from)) by lia.
    rewrite mem_get_split by lia. do 2 f_equal. lia. }
  destruct j as [|j].
  - cbn [Z.of_nat] in *. replace (Z.of_nat 1 - 1) with 0 by lia. cbn [seqZ fill]. rewrite seqZ_nil by lia. cbn [fill]. do 3 f_equal. nia.
  - assert (to = Z.max offset ((k + 1) * bs)) as -> by nia. replace (Z.succ k) with (k + 1) by lia. replace (Z.of_nat (S (S j)) - 1) with (Z.of_nat (S j)) by lia.
    replace (Z.pred (Z.of_nat (S (S j)))) with (Z.of_nat (S j)) by lia.
    apply IH; nia.
Qed.

Lemma read_whole data offset buf :
  Forall U (chunks bs data) → 0 ≤ offset →
  let n := Z.max 0 (Z.min (len data - offset) (len buf)) in
  read_answer cfg D (whole data) offset buf = Ok (n, mem_put buf 0 (mem_get data offset n), []).
Proof using Hbs HD.
  intros HU Ho n. unfold read_answer, whole. pose proof (len_nonneg buf) as Hb0. destruct ((len data <=? offset) || (len buf =? 0)) eqn:E.
  - assert (n = 0) as ->.
    { apply orb_true_iff in E as [E%Z.leb_le|E%Z.eqb_eq]; unfold n; lia. }
    done.
  - apply orb_false_iff in E as [E1%Z.leb_gt E2%Z.eqb_neq]. set (end_ := Z.min (len data) (offset + len buf)).
    assert (n = end_ - offset) as -> by (unfold n, end_; lia). set (k := offset / bs). set (m := (end_ - 1) / bs + 1).
    pose proof (Z.mul_div_le offset bs Hbs) as D1. pose proof (Z.mul_succ_div_gt offset bs Hbs) as D2. fold k in D1, D2.
    pose proof (Z.mul_div_le (end_ - 1) bs Hbs) as D3. pose proof (Z.mul_succ_div_gt (end_ - 1) bs Hbs) as D4.
    assert (0 ≤ k) as Hk by (apply Z.div_pos; lia). assert (k < m) as Hkm.
    { assert (k ≤ (end_ - 1) / bs); [|unfold m; lia]. apply Z.div_le_mono; [done|]. unfold end_. lia. }
    assert (mem_put buf 0 (mem_get data offset (Z.max offset (k * bs) - offset)) = buf) as Eb.
    { replace (Z.max offset (k * bs) - offset) with 0 by lia. unfold mem_get. cbn. unfold mem_put. by rewrite Z.add_0_r. }
    unfold range. replace (m - k) with (Z.of_nat (Z.to_nat (m - k))) by lia.
    assert (fill cfg D (len data) (Some <$> (hash128 <$> chunks bs data)) offset end_ (seqZ k (Z.of_nat (Z.to_nat (m - k)))) buf [] =
      (mem_put buf 0 (mem_get data offset (end_ - offset)), [])) as ->; [|done].
    rewrite <- Eb at 1. apply fill_all; [done|done|done|unfold end_; lia|unfold end_; lia|unfold end_; lia|unfold end_ in *; nia| |unfold end_; lia].
    rewrite Z2Nat.id by lia. replace (k + (m - k)) with m by lia. unfold m in *. lia.
Qed.

(** ** Between a write and a read *)

Context (F : gset bytes).

(** An operation that does not change [f]. *)
Definition keeps (f : bytes) (op : Op) : Prop :=
  match op with OSetLen g _ | ODelete g | OWrite g _ _ _ => g ≠ f | OStat _ | ORead _ _ _ | OFlush | OShutdown _ | OCompact _ => True end.

Lemma astep_keeps f op a r a' : keeps f op → astep cfg D F op a r a' → a_file a' f = a_file a f.
Proof.
  assert (∀ g o, g ≠ f → a_file (a_set a g o) f = a_file a f) as Hset by (intros g o Hne; cbn; by rewrite decide_False).
  destruct op, r; cbn [keeps astep]; intros Hk Hs; try done.
  - destruct Hs as [->|(e & _ & ->)]; [by apply Hset|done].
  - destruct Hs as [->|(e & _ & ->)]; [by apply Hset|done].
  - destruct Hs as [(L & old & hs & rest & all & _ & _ & _ & _ & ->)|(e & _ & ->)]; [by apply Hset|done].
  - by destruct Hs as [-> _].
  - by destruct Hs as [-> _].
  - subst. by destruct r.
  - subst. by destruct r.
  - by subst.
Qed.
Lemma aruns_keeps f ops a rs a' : Forall (keeps f) ops → aruns cfg D F ops a rs a' → a_file a' f = a_file a f.
Proof. intros Hk Hr. induction Hr as [|op ops a r a1 rs a2 Hs Hr IH]; [done|]. inversion Hk; subst. rewrite IH by done. by eapply astep_keeps. Qed.
Lemma aruns_app ops1 ops2 a rs a' :
  aruns cfg D F (ops1 ++ ops2) a rs a' → ∃ rs1 rs2 a1, rs = rs1 ++ rs2 ∧ length rs1 = length ops1 ∧ aruns cfg D F ops1 a rs1 a1 ∧ aruns cfg D F ops2 a1 rs2 a'.
Proof.
  revert a rs. induction ops1 as [|op ops1 IH]; intros a rs Hr; [exists [], rs, a; split_and!; [done|done|constructor|done]|].
  cbn in Hr. inversion Hr as [|? ? ? r a1 rs' ? Hs Hr']; subst. destruct (IH a1 rs' Hr') as (rs1 & rs2 & a2 & -> & Hl & H1 & H2).
  exists (r :: rs1), rs2, a2. split_and!; [done|cbn; by rewrite Hl|by econstructor|done].
Qed.

Lemma put_at_all {A} (l d : list A) : length d = length l → put_at l 0 d = d.
Proof. intros El. unfold put_at, len. rewrite drop_ge by lia. by rewrite app_nil_r. Qed.

Lemma write_whole f data class a a1 a2 :
  astep cfg D F (OSetLen f (len data)) a (RUnit (Ok tt)) a1 → astep cfg D F (OWrite f 0 data class) a1 (RUnit (Ok tt)) a2 → a_file a2 f = whole data.
Proof using Hbs.
  intros [->|(e & ? & _)]; [|done]. intros [(L & old & hs & rest & all & Ho & Hhs & Hall & Hend & ->)|(e & ? & _)]; [|done].
  destruct all; [|by destruct Hend as [e ?]]. subst rest. rewrite app_nil_r in Hhs. cbn [a_set a_file] in *. rewrite decide_True in * by done. simplify_eq.
  unfold whole, resized in *. simplify_eq. do 2 f_equal. apply put_at_all. rewrite !length_fmap. pose proof (chunks_len bs data Hbs) as El. unfold len in El.
  fold (block_count (len data) bs) in *. destruct (a_file a f) as [[ol hs]|].
  - rewrite length_resize. unfold block_count, len. rewrite <- El. lia.
  - rewrite length_replicate. unfold block_count, len. rewrite <- El. lia.
Qed.
End readback.

(** ** Threads *)

Section threads.
Context `{BC : BlockCodec} `{BCO : !BlockCodecOk} (cfg : StoreConfig) (U : bytes → Prop) (D : bytes → bytes) (fuel : nat).
Local Abbreviation bs := (c_block_size cfg).
Context (HD : ∀ d, U d → D (hash128 d) = d) (Hcfg : cfg_validate cfg = Ok tt) (Hmax : in_u64 (c_max_pack_size cfg)).

Definition store_ok (s : Store) : Prop := ∃ gens nx, SInv cfg U (mkWorld s gens nx).
Definition shows (F : gset bytes) (a : AStore) (s : Store) : Prop := reps cfg D F a (mkWorld s ∅ 0).

Lemma cfg_block_size : 0 < bs ∧ bs < u32_max.
Proof using Hcfg.
  unfold cfg_validate in Hcfg. destruct (negb _) eqn:E; [done|]. apply negb_false_iff, andb_true_iff in E as [E1%Z.leb_le E2%Z.leb_le].
  change (Z.shiftl 16 20) with 16777216 in E2. unfold u32_max. lia.
Qed.

Context (n : nat) (F : nat → gset bytes) (ops : nat → list Op) (a0 : nat → AStore).
Context (HF : ∀ i j, (i < n)%nat → (j < n)%nat → i ≠ j → F i ## F j) (Hops : ∀ i, (i < n)%nat → Forall (op_ok cfg (F i) U) (ops i)).

Definition clients : pool := λ i, client cfg fuel (ops i).
Definition posts (i : nat) : Post := client_post cfg D (F i) (ops i) (a0 i).

Lemma clients_start s gens nx :
  SInv cfg U (mkWorld s gens nx) → fresh s → (∀ i, (i < n)%nat → shows (F i) (a0 i) s) → sys_ok cfg U n posts clients (mkWorld s gens nx).
Proof using All.
  intros HI (Hl & Hc & Hr & _) Hs. destruct cfg_block_size as [Hbs Hbs32]. split; [done|]. set (γs := (free ∘ F) <$> seq 0 n).
  assert (∀ i γ, γs !! i = Some γ → (i < n)%nat ∧ γ = free (F i)) as Hγ.
  { intros i γ. unfold γs. rewrite list_lookup_fmap. destruct (seq 0 n !! i) as [j|] eqn:E; [|done]. apply lookup_seq in E as [-> Hlt]. intros [= <-]. done. }
  exists γs. split_and!.
  - split; cbn [x_s].
    + rewrite Hl. split; [done|]. intros (i & γ & Hi & Ho). by destruct (Hγ i γ Hi) as [_ ->].
    + intros i j γ γ' Hi _ Ho. by destruct (Hγ i γ Hi) as [_ ->].
    + rewrite Hc. split; [done|]. intros (i & γ & Hi & Ho). by destruct (Hγ i γ Hi) as [_ ->].
    + intros i j γ γ' Hi _ Ho. by destruct (Hγ i γ Hi) as [_ ->].
    + intros g. rewrite Hr, lookup_empty. unfold readers, γs. cbn [default]. generalize (seq 0 n) as l. intros l. induction l as [|x l IH]; [done|].
      cbn [fmap list_fmap]. rewrite filter_cons, decide_False by done. exact IH.
    + intros i j γ γ' Hi Hj Hne. destruct (Hγ i γ Hi) as [? ->], (Hγ j γ' Hj) as [? ->]. by apply HF.
  - unfold γs. by rewrite length_fmap, length_seq.
  - intros i γ Hi. destruct (Hγ i γ Hi) as [Hlt ->]. apply wp_client; [done..|by apply Hs|by apply Hops].
Qed.

Lemma clients_run s gens nx ts s' :
  SInv cfg U (mkWorld s gens nx) → fresh s → (∀ i, (i < n)%nat → shows (F i) (a0 i) s) → rtc (sstep cfg n) (clients, s) (ts, s') →
  ∃ gens' nx', sys_ok cfg U n posts ts (mkWorld s' gens' nx').
Proof using All.
  intros HI Hf Hs Hr. destruct (sys_steps cfg U n posts clients s gens nx ts s' (clients_start s gens nx HI Hf Hs) Hr) as (g & m & HS & _). by exists g, m.
Qed.

Lemma posts_free i γ a w : posts i γ a w → h_own γ = false ∧ h_comp γ = false ∧ h_guard γ = None.
Proof. by intros [-> _]. Qed.

Lemma clients_done ts w i rs :
  sys_ok cfg U n posts ts w → (i < n)%nat → ts i = Ret rs → ∃ a, aruns cfg D (F i) (ops i) (a0 i) rs a ∧ reps cfg D (F i) a w.
Proof. intros HS Hi Ht. destruct (sys_post cfg U n posts ts w i rs HS Hi Ht) as (γ & _ & _ & a & ?). by exists a. Qed.

(** What the threads start from. *)
Context (s0 : Store) (Hs0 : store_ok s0) (Hfresh : fresh s0) (Hshows : ∀ i, (i < n)%nat → shows (F i) (a0 i) s0).
Definition reached (ts : pool) (s : Store) : Prop := rtc (sstep cfg n) (clients, s0) (ts, s).

Lemma reached_ok ts s : reached ts s → ∃ gens nx, sys_ok cfg U n posts ts (mkWorld s gens nx).
Proof using All. intros Hr. destruct Hs0 as (gens & nx & HI). by eapply clients_run. Qed.

(** C3: threads of the block store that change different files each see a
    file store of their own: in every interleaving, with compactions, flushes
    and failing writes of the others in between, the results a thread has got
    when it has ended are those of its operations on the abstract store, where
    a file is a length and a list of blocks, the store shows that abstract
    store's files, and its invariant holds at every moment. *)
Theorem clients_refine ts s :
  reached ts s →
  store_ok s ∧
  ∀ i rs, (i < n)%nat → ts i = Ret rs → ∃ a, aruns cfg D (F i) (ops i) (a0 i) rs a ∧ shows (F i) a s.
Proof using All.
  intros Hr. destruct (reached_ok ts s Hr) as (gens & nx & HS). split; [exists gens, nx; apply HS|].
  intros i rs Hi Ht. exact (clients_done ts _ i rs HS Hi Ht).
Qed.

(** C5: the threads of the block store never deadlock and leak nothing:
    in every state they reach, all have ended or one can go on, also when
    threads wait for the writer's lock and for the compaction's, and when all
    have ended, with whatever errors, the writer's lock and the compaction's
    are free and no read is counted as under way, so the next compaction does
    not wait for one. *)
Theorem clients_progress ts s :
  reached ts s →
  ((∀ i, (i < n)%nat → ended_thread (ts i)) ∨ ∃ c, sstep cfg n (ts, s) c) ∧
  ((∀ i, (i < n)%nat → ended_thread (ts i)) →
   s_locked s = false ∧ s_compacting s = false ∧ ∀ g, default 0 (s_reads s !! g) = 0).
Proof using All.
  intros Hr. destruct (reached_ok ts s Hr) as (gens & nx & HS). split.
  - apply (sys_progress cfg U n posts ts (mkWorld s gens nx) HS). intros i γ a w Hp. by destruct (posts_free i γ a w Hp) as (? & ? & _).
  - apply (sys_quiet cfg U n posts ts (mkWorld s gens nx) HS). apply posts_free.
Qed.

(** C4: a crash at any moment loses nothing that was flushed: whatever
    part of the unsynced bytes is left, the store opens again from the last
    durable commit, is consistent, and the files of a thread that had ended
    after a flush are what the thread left. *)
Theorem crash_keeps_flushed ts s fl d :
  reached ts s → crashed s d →
  ∃ s', open_store cfg fl d (s_durable s) = Ok s' ∧ fresh s' ∧ store_ok s' ∧
    ∀ i rs, (i < n)%nat → ts i = Ret rs →
      ∃ a, aruns cfg D (F i) (ops i) (a0 i) rs a ∧ (a_synced a = true → shows (F i) a s').
Proof using All.
  intros Hr Hc. destruct (reached_ok ts s Hr) as (gens & nx & HS). destruct cfg_block_size as [Hbs _].
  destruct (reopen cfg U Hbs (mkWorld s gens nx) fl d Hcfg (sy_inv _ _ _ _ _ _ HS) Hc) as (s' & g' & n' & Ho & Hf & HI & Hh).
  exists s'. split; [done|]. split; [done|]. split; [by exists g', n'|]. intros i rs Hi Ht.
  destruct (clients_done ts _ i rs HS Hi Ht) as (a & Ha & Hrep). exists a. split; [done|]. intros Hsy f Hin.
  destruct (Hrep f Hin) as (_ & Hd & Hsd). specialize (Hh f _ (Hd Hsy)). split; [exact Hh|]. split; [|done].
  intros _. destruct Hf as (_ & _ & _ & Hdu). unfold du. cbn [x_s]. by rewrite Hdu.
Qed.

(** C6: what is written is read back: when a thread has set a file's
    length and written it whole, both without an error, a read at any later
    moment of the thread gives exactly those bytes at its offset, as many as the
    buffer takes, with no range reported missing, whatever the thread did to
    other files meanwhile, flushed or compacted, and whatever other threads do. *)
Theorem written_reads_back ts s i rs f data class offset buf before between :
  reached ts s → (i < n)%nat → ts i = Ret rs → len f ≤ c_max_file_id_len cfg →
  ops i = before ++ OSetLen f (len data) :: OWrite f 0 data class :: between ++ [ORead f offset buf] → Forall (keeps f) between →
  ∃ rs1 r1 r2 rs2 r, rs = rs1 ++ r1 :: r2 :: rs2 ++ [r] ∧ length rs1 = length before ∧
    let m := Z.max 0 (Z.min (len data - offset) (len buf)) in
    (r1 = RUnit (Ok tt) → r2 = RUnit (Ok tt) → r = RRead (Ok (m, mem_put buf 0 (mem_get data offset m), []))).
Proof using All.
  intros Hr Hi Ht Hf Eops Hk. destruct (reached_ok ts s Hr) as (gens & nx & HS). destruct cfg_block_size as [Hbs _].
  destruct (clients_done ts _ i rs HS Hi Ht) as (a & Ha & _). specialize (Hops i Hi). rewrite Eops in Ha, Hops.
  apply Forall_app in Hops as [_ Hop]. apply Forall_cons in Hop as [[HfF _] Hop]. apply Forall_cons in Hop as [(_ & _ & HU) Hop].
  apply Forall_app in Hop as [_ Hop]. apply Forall_cons in Hop as [[Hoff _] _].
  apply aruns_app in Ha as (rs1 & rs' & a1 & -> & Hl & _ & Ha). inversion Ha as [|? ? ? r1 a2 rs3 ? Hs1 Ha2]; subst.
  inversion Ha2 as [|? ? ? r2 a3 rs4 ? Hs2 Ha3]; subst. apply aruns_app in Ha3 as (rs2 & rs5 & a4 & -> & _ & Hb & Ha4).
  inversion Ha4 as [|? ? ? r a5 rs6 ? Hs3 Ha5]; subst. inversion Ha5; subst. exists rs1, r1, r2, rs2, r. split_and!; [done|done|].
  intros m -> ->. pose proof (write_whole cfg D Hbs (F i) f data class _ _ _ Hs1 Hs2) as Hw. rewrite <- (aruns_keeps cfg D (F i) f _ _ _ _ Hk Hb) in Hw.
  destruct r as [|?|r]; try done. destruct Hs3 as [_ Hs3]. rewrite (Hs3 HfF). unfold checked_id, check_id. rewrite (proj2 (Z.ltb_ge _ _)) by lia.
  rewrite Hw. f_equal. by apply (read_whole cfg U D Hbs HD).
Qed.
End threads.


(** ** A run *)

Section drive.
Context `{BC : BlockCodec} (cfg : StoreConfig) {A : Type}.

(** The threads step by step, in the order of a schedule; a thread that has
    ended or waits for a lock is passed over. *)
Definition drive_one (c : pool (A := A) * Store) (i : nat) : pool * Store :=
  match c.1 i with
  | Ret _ => c
  | Step x k => match exec cfg x c.2 with Some (r, s') => (upd c.1 i (k r), s') | None => c end
  end.
Definition drive (l : list nat) (c : pool * Store) : pool * Store := foldl drive_one c l.

Lemma drive_reaches n l c : Forall (λ i, (i < n)%nat) l → rtc (sstep cfg n) c (drive l c).
Proof.
  intros Hl. revert c. induction Hl as [|i l Hi Hl IH]; intros c; [apply rtc_refl|].
  change (drive (i :: l) c) with (drive l (drive_one c i)). destruct c as [ts s]. unfold drive_one. cbn [fst snd]. destruct (ts i) as [a|X x k] eqn:Et; [apply IH|].
  destruct (exec cfg x s) as [[r s']|] eqn:Ex; [|apply IH]. eapply rtc_l; [|apply IH]. by econstructor.
Qed.

(** One program alone. *)
Fixpoint run_alone (p : prog A) (s : Store) : option (A * Store) :=
  match p with
  | Ret a => Some (a, s)
  | Step x k => match exec cfg x s with Some (r, s') => run_alone (k r) s' | None => None end
  end.
End drive.

(** Blocks of one byte repeated, hashed to that byte; frames are the blocks
    themselves. *)
Definition demo_hash (b : bytes) : bytes := resize 16 0 (take 1 b).
#[local] Instance demo_codec : BlockCodec := {| hash128 := demo_hash; checksum := λ b, len b mod u64_max; bc_frame := λ _ b, Some b; bc_decompress := λ f _, Some f |}.
#[local] Instance demo_codec_ok : BlockCodecOk.
Proof.
  split.
  - intros b. unfold hash128. cbn. unfold demo_hash, len. by rewrite length_resize.
  - intros b. unfold checksum. cbn. unfold in_u64. by apply Z.mod_pos_bound.
  - intros c b f. cbn. by intros [= ->].
Qed.
Definition demo_block (x : Z) : bytes := replicate (Z.to_nat 4096) x.
Definition demo_cfg : StoreConfig := mkStoreConfig 4096 65536 8192 1000000 1000 64.
Definition demo_U (d : bytes) : Prop := d = demo_block 1 ∨ d = demo_block 2.
Definition demo_D (h : bytes) : bytes := demo_block (default 0 (head h)).
Lemma demo_collision_free d : demo_U d → demo_D (hash128 d) = d.
Proof. intros [->| ->]; by vm_compute. Qed.

(** A store opened on an empty directory, and two threads on it. *)
Definition demo_store : Store :=
  match open_store demo_cfg [] ∅ empty_tables with Ok s => s | Err _ => mkStore empty_tables empty_tables ∅ (mkWriter None None 1) false false 0 ∅ [] 0 0 [] end.
Definition demo_empty : AStore := mkAStore (λ _, None) false.
Definition demo_files (i : nat) : gset bytes := {[ if decide (i = 0%nat) then lit "a" else lit "b" ]}.
Definition demo_data : bytes := demo_block 1 ++ demo_block 2.
Definition demo_ops (i : nat) : list Op :=
  if decide (i = 0%nat) then
    [OSetLen (lit "a") (len demo_data); OWrite (lit "a") 0 demo_data Foreground; OFlush; OCompact id; ORead (lit "a") 4090 (replicate 10%nat 0)]
  else [OSetLen (lit "b") 4096; OWrite (lit "b") 0 (demo_block 2) Bulk; OStat (lit "b"); ODelete (lit "b")].
Definition demo_threads : pool := clients demo_cfg 3 demo_ops.
Definition demo_schedule : list nat := concat (replicate 120%nat [0%nat; 1%nat]).
Definition demo_end : pool * Store := drive demo_cfg demo_schedule (demo_threads, demo_store).

Lemma demo_valid : cfg_validate demo_cfg = Ok tt.
Proof. reflexivity. Qed.
Lemma demo_max : in_u64 (c_max_pack_size demo_cfg).
Proof. unfold in_u64, u64_max. cbn. lia. Qed.
Lemma demo_apart i j : (i < 2)%nat → (j < 2)%nat → i ≠ j → demo_files i ## demo_files j.
Proof. intros Hi Hj Hne. destruct i as [|[|]], j as [|[|]]; try lia; intros x; unfold demo_files; cbn; rewrite !elem_of_singleton; intros ->; by vm_compute. Qed.
Lemma demo_ops_ok i : (i < 2)%nat → Forall (op_ok demo_cfg (demo_files i) demo_U) (demo_ops i).
Proof.
  intros Hi. assert (chunks 4096 demo_data = [demo_block 1; demo_block 2] ∧ chunks 4096 (demo_block 2) = [demo_block 2]) as [E1 E2] by (by vm_compute).
  destruct i as [|[|]]; [| |lia]; unfold demo_ops, demo_files; cbn [decide]; rewrite ?decide_True, ?decide_False by done;
    repeat (apply Forall_cons; split); try (by apply Forall_nil); cbn [op_ok demo_cfg c_block_size]; rewrite ?E1, ?E2; split_and?;
    try (by apply elem_of_singleton); try done; try (repeat constructor; unfold demo_U; tauto).
Qed.
Lemma demo_opened : ∃ gens nx, open_store demo_cfg [] ∅ empty_tables = Ok demo_store ∧ fresh demo_store ∧ SInv demo_cfg demo_U (mkWorld demo_store gens nx) ∧
  ∀ f, holds 4096 (s_tables demo_store) f None.
Proof.
  destruct (open_empty demo_cfg demo_U eq_refl [] demo_valid) as (s & gens & nx & E & Hf & HI & Hh). exists gens, nx.
  assert (demo_store = s) as -> by (unfold demo_store; by rewrite E). done.
Qed.
Lemma demo_store_ok : store_ok demo_cfg demo_U demo_store.
Proof. destruct demo_opened as (gens & nx & _ & _ & HI & _). by exists gens, nx. Qed.
Lemma demo_fresh : fresh demo_store.
Proof. by destruct demo_opened as (gens & nx & _ & ? & _). Qed.
Lemma demo_shows i : (i < 2)%nat → shows demo_cfg demo_D (demo_files i) demo_empty demo_store.
Proof. intros _ f _. destruct demo_opened as (gens & nx & _ & _ & _ & Hh). split; [apply Hh|]. by split. Qed.
Lemma demo_reached : reached demo_cfg 3 2 demo_ops demo_store demo_end.1 demo_end.2.
Proof.
  unfold reached. rewrite <- surjective_pairing. apply drive_reaches. apply (bool_decide_unpack _). vm_compute. exact I.
Qed.

(** Applied to the run. *)
Lemma clients_refine_witness :
  store_ok demo_cfg demo_U demo_end.2 ∧
  ∃ a, aruns demo_cfg demo_D (demo_files 0) (demo_ops 0) demo_empty
         [RUnit (Ok tt); RUnit (Ok tt); RUnit (Ok tt); RUnit (Ok tt); RRead (Ok (10, [1; 1; 1; 1; 1; 1; 2; 2; 2; 2], []))] a ∧
       shows demo_cfg demo_D (demo_files 0) a demo_end.2.
Proof.
  destruct (clients_refine demo_cfg demo_U demo_D 3 demo_collision_free demo_valid demo_max 2 demo_files demo_ops (λ _, demo_empty)
    demo_apart demo_ops_ok demo_store demo_store_ok demo_fresh demo_shows demo_end.1 demo_end.2 demo_reached) as [Hok Hi].
  split; [exact Hok|]. apply (Hi 0%nat); [lia|]. vm_compute. reflexivity.
Defined.

Lemma clients_progress_witness :
  (∀ i, (i < 2)%nat → ended_thread (demo_end.1 i)) ∧
  s_locked demo_end.2 = false ∧ s_compacting demo_end.2 = false ∧ ∀ g, default 0 (s_reads demo_end.2 !! g) = 0.
Proof.
  assert (∀ i, (i < 2)%nat → ended_thread (demo_end.1 i)) as Hend.
  { intros [|[|i]] Hi; [vm_compute; exact I|vm_compute; exact I|lia]. }
  split; [exact Hend|].
  apply (clients_progress demo_cfg demo_U demo_D 3 demo_collision_free demo_valid demo_max 2 demo_files demo_ops (λ _, demo_empty)
    demo_apart demo_ops_ok demo_store demo_store_ok demo_fresh demo_shows demo_end.1 demo_end.2 demo_reached). exact Hend.
Defined.

(** Of every file only what was synced is left. *)
Definition cut_back (s : Store) : gmap Z PackFile :=
  (λ pf, let b := take (Z.to_nat (pf_synced pf)) (pf_data pf) in mkPackFile b (len b)) <$> s_disk s.
Lemma cut_back_crashed s : crashed s (cut_back s).
Proof. intros p. unfold cut_back. rewrite lookup_fmap. destruct (s_disk s !! p) as [pf|]; [|done]. by exists (pf_synced pf). Qed.

Lemma crash_keeps_flushed_witness :
  ∃ s', open_store demo_cfg [] (cut_back demo_end.2) (s_durable demo_end.2) = Ok s' ∧ fresh s' ∧ store_ok demo_cfg demo_U s' ∧
    ∃ rs a, demo_end.1 0%nat = Ret rs ∧ aruns demo_cfg demo_D (demo_files 0) (demo_ops 0) demo_empty rs a ∧
      (a_synced a = true → shows demo_cfg demo_D (demo_files 0) a s').
Proof.
  destruct (crash_keeps_flushed demo_cfg demo_U demo_D 3 demo_collision_free demo_valid demo_max 2 demo_files demo_ops (λ _, demo_empty)
    demo_apart demo_ops_ok demo_store demo_store_ok demo_fresh demo_shows demo_end.1 demo_end.2 [] (cut_back demo_end.2) demo_reached
    (cut_back_crashed demo_end.2)) as (s' & Ho & Hf & Hok & Hi).
  exists s'. split; [exact Ho|]. split; [exact Hf|]. split; [exact Hok|].
  destruct (demo_end.1 0%nat) as [rs|X x k] eqn:E; [|vm_compute in E; discriminate E].
  destruct (Hi 0%nat rs ltac:(lia) E) as (a & Ha & Hs). exists rs, a. split; [reflexivity|]. split; [exact Ha|exact Hs].
Defined.

Lemma written_reads_back_witness :
  ∃ rs1 r1 r2 rs2 r, demo_end.1 0%nat = Ret (rs1 ++ r1 :: r2 :: rs2 ++ [r]) ∧ length rs1 = 0%nat ∧
    let m := Z.max 0 (Z.min (len demo_data - 4090) (len (replicate 10%nat 0))) in
    (r1 = RUnit (Ok tt) → r2 = RUnit (Ok tt) → r = RRead (Ok (m, mem_put (replicate 10%nat 0) 0 (mem_get demo_data 4090 m), []))).
Proof.
  destruct (demo_end.1 0%nat) as [rs|X x k] eqn:E; [|vm_compute in E; discriminate E].
  destruct (written_reads_back demo_cfg demo_U demo_D 3 demo_collision_free demo_valid demo_max 2 demo_files demo_ops (λ _, demo_empty)
    demo_apart demo_ops_ok demo_store demo_store_ok demo_fresh demo_shows demo_end.1 demo_end.2 0%nat rs (lit "a") demo_data Foreground
    4090 (replicate 10%nat 0) [] [OFlush; OCompact id] demo_reached ltac:(lia) E) as (rs1 & r1 & r2 & rs2 & r & -> & Hl & Hr).
  - vm_compute. discriminate.
  - reflexivity.
  - repeat constructor.
  - exists rs1, r1, r2, rs2, r. split; [reflexivity|]. split; [exact Hl|exact Hr].
Defined.

(** ** Replacing files *)

(** Property: [put_files] panics on a file that is replaced by fewer blocks when
    a block it keeps is one it drops from its tail and nobody else has: the
    block was found stored, so it was not appended, then the shortening frees
    it, and the look-up of its record finds none. The file stays as it was. *)
Example put_files_panics :
  let put data s := run_alone demo_cfg (put_files demo_cfg 3 [(lit "a", data)] Foreground) s in
  match put (demo_block 1 ++ demo_block 2) demo_store with
  | Some (r1, s1) => r1 = Ok tt ∧
      match put (demo_block 2) s1 with
      | Some (r2, s2) => r2 = Err Panicked ∧ s_tables s2 = s_tables s1
      | None => False
      end
  | None => False
  end.
Proof. vm_compute. split; [reflexivity|]. split; reflexivity. Qed.
